(* ===== verification/_CoqProject ===== *)
-Q . S2P
Prelude.v
Identity.v
State.v
Transaction.v
Install.v
World.v
Reject.v
Store.v
StoreSpec.v
StoreRefine.v
Boot.v
Update.v
AgentLogic.v
Agent.v
Recovery.v
AgentHistory.v
Maps.v
Releases.v
Routes.v
Dataflow.v
Telemetry.v
Window.v
Rollout.v
Assign.v
Retention.v
Regression.v
Admission.v
Plan.v
Bodies.v
Assignment.v
Groups.v
GroupGraph.v
GroupRouting.v
Publication.v
Inputs.v
Reconcile.v
Inventory.v
Fleet.v
Shared.v
Durable.v
Lease.v
Gateway.v
Enroll.v
EnrollSafety.v
Publish.v
PublishSafety.v
Authoring.v
AuthoringSafety.v
InputData.v
FleetReports.v
IpAddr.v
Backend.v
HealthProxy.v
LoadBalancers.v
Projection.v
StageSweep.v
Tree.v
Bundle.v
BundleSafety.v
BundleRoundtrip.v
Selection.v
RoutingClient.v
FirstInstall.v
InstallSafety.v
Preflight.v
FleetHistory.v
ShardStore.v
ShardSafety.v
Commit.v
CommitSafety.v
Fixtures.v
FleetFixtures.v
Witnesses.v
FleetWitnesses.v
ControlWitnesses.v
RuntimeWitnesses.v
CommitWitnesses.v
ProxyWitnesses.v
InstallWitnesses.v
BundleWitnesses.v
