(* ===== verification/Prelude.v ===== *)
(** * updatedc: a verification library for the update system

    updatedc updates fleets of machines.  A node agent ([crates/agent], [crates/updated])
    installs releases on one machine, journals every transaction, and rolls a failed release
    back through crashes and I/O faults.  A control plane ([crates/updatec]) reads the signed
    telemetry of all agents and decides, pass by pass, which deployment each node is handed.
    The two meet only through the assignment a node is handed and the report it signs.  This
    library models both cores as executable definitions and proves what makes them correct.

    ** The node agent

    - [Identity.v] content digests, tokens and name grammars ([foundation/src/digest.rs],
      [updated-contracts/src/identity.rs]).
    - [State.v], [Transaction.v], [Install.v] the three durable records and their pure
      transition rules ([updated/src/state.rs], [transaction.rs], [install.rs]).
    - [World.v] files, process memory, faults, crashes and the effect monad every agent
      program is written in ([foundation/src/durable.rs], [file.rs]).
    - [Reject.v] the rejection ledger ([updated/src/reject.rs]).
    - [Store.v] the durable-state boundary ([agent/src/store.rs], [updated/src/journal.rs]);
      [StoreSpec.v] its abstract specification; [StoreRefine.v] the refinement between them.
    - [Boot.v] the pure boot planner ([agent/src/boot.rs], [domain.rs]).
    - [Update.v] the update driver, recovery steps and boot sequence ([agent/src/update.rs],
      [recovery.rs], [transient.rs], [main.rs]).
    - [AgentLogic.v], [Agent.v], [Recovery.v], [AgentHistory.v] the theorems about them.
    - [Selection.v] release selection over a verified repository ([updated-tuf/src/select.rs],
      [policy.rs], the target lookups of [lib.rs]).
    - [RoutingClient.v] the assignment a node resolves and the configuration it boots on
      ([updated-tuf/src/lib.rs], [updated/src/config.rs]).
    - [FirstInstall.v] the first installation, the repair of a committed bundle and the whole
      boot, which runs both before recovery ([agent/src/install.rs], [acquire.rs], [repair.rs],
      [main.rs]), with their theorems in [InstallSafety.v].
    - [Tree.v] a directory tree whose calls may fail or end the process, with the logics the
      bundle theorems are proved in; [Bundle.v] the package format, its build, extraction and
      staging ([updated/src/bundle.rs]), with the theorems in [BundleSafety.v] and
      [BundleRoundtrip.v].
    - [StageSweep.v] the private directories archives are unpacked in and the sweep that removes
      abandoned ones, as steps of concurrent processes ([updated/src/bundle.rs], [lock.rs]).

    What is shown.  Every journal history obeys the phase machine, keeps a recorded verdict
    and terminates ([Transaction.v]).  A verdict in the rejection file is permanent
    ([Reject.v]).  Every store call, under any fault or crash, is one guarded step of the
    specification, and that specification never abandons an unsettled transaction or changes
    the installed unit without intent ([StoreSpec.v], [StoreRefine.v]).  Through every life of
    the agent from its recovery on its files decode to a state recovery handles ([Agent.v]),
    recovery completes from each of them when nothing disturbs it ([Recovery.v]), and every life is
    a history of the store's specification ([AgentHistory.v]).  [InstallSafety.v] shows the same of
    whole boots from the empty install root on, the first installation and the check and repair
    of the committed bytes included: the states a repair adds are named, an undisturbed boot
    whose committed bytes verify completes recovery from every state the agent's own steps leave,
    a rejected provisional head excepted, which it refuses, and an
    interrupted first install always completes with the unit it journaled.
    A selection returns the shortest authorised route or refuses
    ([Selection.v]); a node boots only on a configuration it authenticated, and what the control
    plane published for it is what it resolves ([RoutingClient.v]); a repair reproduces the
    committed release and never chooses another.  A release directory appears whole or not at
    all, under the same limits a verdict on an archive is about its bytes and not about the node that
    met it ([BundleSafety.v]), and what the publisher built is what a node installs
    ([BundleRoundtrip.v]).  While sweeps do not overlap none removes a live stage, and one that is
    left alone clears every dead one but those beside a directory under an owner file's name, which
    the next clears ([StageSweep.v]).  [Witnesses.v] holds two concrete lives the
    code's comments rule out, and [AgentHistory.v] shows the first of them to be permanent;
    [InstallWitnesses.v] holds a third and a rollback that a repair strands, which
    [InstallSafety.v] shows to be permanent, and [BundleWitnesses.v] two on bundles and three on
    sweeps.

    ** The rollout planner

    - [Maps.v] ordered maps, sets and counting.
    - [Telemetry.v] reports, their authentication and the cross-pass evidence
      ([updated-contracts/src/telemetry.rs], [updatec/src/evidence.rs]).
    - [Window.v] rollout windows and calendars ([updatec/src/window.rs]).
    - [Rollout.v] observations, group verdicts and concurrency slots; [Assign.v] node
      assignment; [Retention.v] the bodies kept; [Regression.v] the regression verdict and the
      rollback response; [Admission.v] set plans and admission; [Plan.v] the whole pass
      (all [updatec/src/rollout.rs], with its types from [updatec/src/lib.rs]).

    What is shown.  A group is settled exactly when its nodes prove it ([Rollout.v]).  An
    assignment is a no-op for its machine or a permitted move to the group's current
    deployment, moves stay within [maxUnavailable], no placed node is demoted or dropped, and
    an unblocked rollout with budget always moves ([Assign.v]).  A body a machine is on is
    never forgotten ([Retention.v]).  An identity is halted exactly on the standing evidence,
    and the automatic rollback only ever restores permitted predecessors ([Regression.v]).
    Admission passes its gates, bounds concurrency and cannot panic ([Admission.v]).  A pass
    always produces a plan, which never hands a refused body to a machine not already on it,
    and whose statuses name exactly the slot holders ([Plan.v]).

    ** The control plane around the planner

    - [Releases.v], [Routes.v] the release graph, its shortest routes and the versions on them
      ([updated-contracts/src/releases.rs]).
    - [Dataflow.v] bounded JSON, endpoints, file snapshots, input and output publications and
      object capabilities ([updated-contracts/src/bounded.rs], [endpoint.rs], [dataflow.rs]).
    - [Assignment.v] the deployment document, its identity and its rollback
      ([updated-contracts/src/assignment.rs]), and the [Deployments] instance the planner reads.
    - [Groups.v] group dependencies and node routing ([updatec/src/lib.rs]), with their theorems
      in [GroupGraph.v] and [GroupRouting.v].
    - [Inputs.v] group inputs resolved from proven outputs ([updatec/src/domain.rs]).
    - [Publication.v] the object layout and the compiled generation ([updatec/src/lib.rs],
      [updated-contracts/src/telemetry.rs], [artifact.rs]).
    - [Reconcile.v] the reconciliation of one pass ([updatec/src/domain.rs]); [Bodies.v] what the
      planner does to the bodies it keeps; [Fleet.v] the theorems about one pass.
    - [Inventory.v] what a pass plans from ([updatec/src/runtime/reconcile.rs]).
    - [Durable.v] the state a pass records and [ShardStore.v] its double-buffered store
      ([updatec/src/runtime/admitted.rs]), with its theorems in [ShardSafety.v].
    - [Preflight.v] the check between a plan and its publication ([updatec/src/preflight.rs]).
    - [FleetHistory.v] the deciding half of a pass ([updatec/src/runtime/reconcile.rs]) and any
      sequence of passes.

    What is shown.  Routes are shortest and the prepared versions are exactly those on complete
    routes.  A deployment's identity determines its content, its rollback restores exactly the
    previous one, and its timers fit.  Published inputs are exact and every resolved input is
    proven by all its producers.  The dependency validation accepts exactly the wired acyclic
    graphs, and quarantining the violations always leaves one.  Routing is the unique selection.
    A generation hands each node its own deployment, loses no routed node, never hands out a
    refused body and freezes held and quarantined nodes.  The
    inventory is always well formed, whatever one resource holds.  A generation that passes the
    preflights moves only nodes that have a route to where it sends them, with the packages on
    it supplied; every reason for which a pass publishes nothing is named, and the preflights'
    reasons, unlike the inventory's, let one node or group stop the whole generation
    ([FleetHistory.v]).  The controller's state survives any failing
    call of the cluster API, and a writer that lost the race changes nothing.

    ** The runtime of the control plane

    - [Shared.v] named objects that several processes change, with versions, a clock, lost
      requests and lost answers; the monad every program below is written in, and its
      rely/guarantee and exclusive-store logics.
    - [Lease.v] the single-writer lease ([updatec/src/runtime/lease.rs]).
    - [Gateway.v] node identities and what they authorize ([updatec/src/join.rs],
      [gateway/identity.rs], [data.rs], [state.rs]); [Enroll.v] the enrollment transaction
      ([gateway/enroll.rs]), with its theorems in [EnrollSafety.v].
    - [Authoring.v] the signed repository on the publisher's disk
      ([updated-tuf/src/repo.rs]), with its theorems in [AuthoringSafety.v].
    - [Publish.v] the upload of a generation to the object store
      ([updatec/src/runtime/publish.rs]), with its theorems in [PublishSafety.v].
    - [InputData.v] private inputs ([updatec/src/input_data.rs], [dataflow.rs]).
    - [Commit.v] the publication transaction of a pass and its recovery
      ([updatec/src/runtime/reconcile.rs], [publish.rs], [admitted.rs], [publisher.rs]), with
      its theorems in [CommitSafety.v].

    What is shown.  No lease changes hands while its deadline is further away than the replicas'
    clocks are apart, so that with clocks that agree two replicas never both hold it, against lost
    answers and each other; with clocks that differ it may.  Enrollment never takes over a name that is not its own to claim and never grows
    the fleet past its ceiling.  Signing a release leaves the old generation or the whole next
    one on disk, and the next one loads again if its roles fit the reader's limits; rotating the root keeps continuity; a publication plan covers the generation
    with its timestamp last.  On the object store a generation becomes visible whole and its
    version never moves back.  The private inputs a generation names are in place before it is.
    Wherever a pass is cut short, the next one starts from the state the served generation was
    published with.

    ** From reports to load balancers

    - [FleetReports.v] the fleet index, its shards and the ingress buffer
      ([updated-contracts/src/telemetry.rs]).
    - [Projection.v] the ETag-aware caches of what nodes store, and the publication and
      retirement of fleet generations ([updatec/src/dataflow.rs]).
    - [IpAddr.v] addresses as [std::net] reads and writes them; [Backend.v] the inventory of a
      load balancer ([updated-contracts/src/backend.rs]).
    - [HealthProxy.v] the loop of the health proxy ([updated-healthproxy/src/lib.rs]), against the
      interface [LoadBalancer]; [LoadBalancers.v] its two implementations ([haproxy.rs],
      [endpointslice.rs]).

    What is shown.  The buffer keeps exactly what the writer would keep.  Whatever calls fail in earlier passes, the caches
    accept what a controller without them would.  Every index a reader can see names a whole generation,
    whichever requests are lost, and what a publication wrote is what a proxy reads.  An
    inventory never tears.  The membership a proxy programs is a function of what was read, so
    that its caches, its own failures and those of the balancer leave no trace.  An HAProxy
    cluster is programmed exactly, at most one address family routes, and no hostname is starved
    of lookups.

    ** Conventions

    Fallible code returns [result], a sum with its own error type, or [option]; a panic of the
    control plane (an absent key, an index out of bounds, an underflow, an unreachable branch) is
    [None], and its theorems show that none occurs.  Durable effects of the agent are programs of
    the monad of [World.v], whose environment answers every I/O call, hook, probe and clock
    reading; the controller's are programs of the monad of [ShardStore.v], whose every API call
    may fail before or after it took effect, or of [Shared.v], where a list of turns fixes for
    each call how long it takes, what the others do around it and whether it or its answer is
    lost.  A pass touches several stores: [Commit.v] collects them in a [site], each with turns
    of its own, and a view lifts the logic of one store to the site.  Program theorems quantify
    over the environment, and so over every fault and crash.  A process that dies is a run whose
    later calls all fail; a request that takes effect only after the recovery of the process
    that sent it is not considered.

    Loops of the agent need no fuel: the readiness gate consumes
    the finite list of probes that complete before its deadline, and the transient retry's
    patience is a number the environment chooses.  Worklists of the control plane run on fuel that
    a theorem shows to be enough: a route search and a flood visit each release once, so the
    number of releases bounds them; a depth-first visit has each group at most once on its stack,
    and each round of the violation loop removes a group, so the number of groups bounds both.
    The retry loop of the enrollment lock sleeps at least fifty milliseconds per round and gives
    up after ten seconds, so 201 rounds are all it can make.  Each round of the first install's
    loop rejects one more of the releases of a graph, which holds at most [MAX_RELEASES], so one
    more round than that is enough.  The buffer's eviction loop takes an
    entry out of its order in every round, so the size of the order bounds it.  The walk of a
    directory descends a level per unit of fuel, so one more than the depth of the tree is enough.
    Bounded integers are [N] or [Z] with their limits written out where the code relies on them;
    counts are [nat].

    ** Parameters

    Code outside the repository is a class: [Sha256], [Semver] and [SemverOrder] (versions),
    [Codec] and [Serde] (serde_json, with the law that what was written reads back; for the floating-point numbers of a
    release root serde_json does not promise it, and a TUF root has none), [Signed]
    (signatures, report JSON), [Curve] (point parsing), [ReportParts] (records a report embeds),
    [Chrono] (date parsing and range), [Urls], [Base64], [Hmac], [JsonValues], [JsonPointers],
    [AssignmentJson], [Certificates] (X.509 and CSRs), [ObjectPaths] (object_store's paths),
    [Rfc3339], and [ToughOps] (tough's reader, editor, key parser and root signer) with the laws
    [Tough] the code relies on.  [FleetJson] and [BackendJson] are serde_json on shards and
    inventories with the lengths of its compact form, [ShortestEnvelopes] that it writes a report's
    envelope in its shortest form, [Outside] what the release repositories and the admission policy
    answer a preflight, [RuntimeApi] is HAProxy's Runtime API by
    its documented laws, and the ETags of an object store are an argument.  [Visit] and
    [ReleaseVisit] are what one visit to a repository meets through tough and the network,
    [Acquisition] what downloading and unpacking a package gives, [SignedRoles] tough's role
    documents, [UrlText] the spelling of a URL.  [TarZst] is tar through zstd, [Lowercase] Unicode's
    case folding, [SemverText] that a version is written without separators.  [Deployments] is the planner's interface to the
    deployment document, which [Assignment.v] implements.  [Fixtures.v] and [FleetFixtures.v] give concrete
    instances; [Witnesses.v], [FleetWitnesses.v], [ControlWitnesses.v], [RuntimeWitnesses.v],
    [CommitWitnesses.v], [ProxyWitnesses.v], [InstallWitnesses.v] and [BundleWitnesses.v] apply every property that has hypotheses at concrete inputs, and run the planner, two whole passes,
    an enrollment, a publication that is cut short, a report on its way to a load balancer, an
    interrupted first install, a boot without a network and a package built and staged.

    ** Not modelled

    The tough library, its transport and metadata caches, hook processes, the steady-state cycle and
    heartbeat, the agent's side of enrollment, the preparation of a rollout's repositories beyond
    what the preflight asks of it, the admission webhook, status projections, the operator's side of backends, the proxy's
    configuration and metrics listener, and the command-line tools: operating-system, network or
    third-party driven, or left to a later extension. *)
From stdpp Require Export base strings list gmap sorting.
From Stdlib Require Export Ascii NArith ZArith Lia.

#[export] Set Warnings "-clear-no-such-hyp".

Declare Scope updatedc_scope.
Delimit Scope updatedc_scope with upd.
#[global] Open Scope updatedc_scope.

#[global] Arguments String.append : simpl nomatch.

Create HintDb upd.
Create Rewrite HintDb upd.

(** ** I/O errors and fallible results

    [std::io::ErrorKind], restricted to the kinds the modelled code constructs or
    classifies, and [std::io::Error] as a kind with its fixed message text. *)

Inductive ErrorKind : Type :=
| NotFound
| PermissionDenied
| AlreadyExists
| NotADirectory
| InvalidInput
| InvalidData
| StorageFull
| QuotaExceeded
| ReadOnlyFilesystem
| ResourceBusy
| Interrupted
| TimedOut
| WouldBlock
| BrokenPipe
| ConnectionReset
| ConnectionAborted
| ConnectionRefused
| NotConnected
| HostUnreachable
| NetworkUnreachable
| NetworkDown
| Unsupported
| Uncategorized
| Other.

#[export] Instance ErrorKind_eq_dec : EqDecision ErrorKind.
Proof. solve_decision. Defined.

Record io_error : Type := IoError {
  err_kind : ErrorKind;
  err_message : string;
}.

(** [Result<A, io::Error>]. *)
Inductive result (A : Type) : Type :=
| Ok (a : A)
| Err (e : io_error).
Arguments Ok {A} _.
Arguments Err {A} _.

#[export] Instance result_ret : MRet result := fun A a => Ok a.
#[export] Instance result_bind : MBind result := fun A B f r =>
  match r with Ok a => f a | Err e => Err e end.
#[export] Instance result_fmap : FMap result := fun A B f r =>
  match r with Ok a => Ok (f a) | Err e => Err e end.

Definition is_ok {A} (r : result A) : bool :=
  match r with Ok _ => true | Err _ => false end.

(** The recurring [if !cond { return Err(...) }] early return. *)
Definition ensure (b : bool) (k : ErrorKind) (msg : string) : result unit :=
  if b then Ok tt else Err (IoError k msg).

(** ** Machine-width unsigned integers

    Unsigned integers are [N] with the width's ceiling written out. *)

Definition u32_max : N := 4294967295.
Definition u64_max : N := 18446744073709551615.

Definition checked_add (max a b : N) : option N :=
  if (a + b <=? max)%N then Some (a + b)%N else None.
Definition saturating_add (max a b : N) : N := N.min max (a + b).
Definition saturating_mul (max a b : N) : N := N.min max (a * b).
(** [saturating_sub] is [N.sub], which truncates at zero. *)

Lemma checked_add_Some max a b c :
  checked_add max a b = Some c ↔ (c = a + b ∧ a + b ≤ max)%N.
Proof.
  unfold checked_add. destruct (N.leb_spec (a + b) max).
  - split; [intros [=]; lia | intros [-> _]; done].
  - split; [done | intros [_ ?]; lia].
Qed.

Lemma saturating_add_le max a b : (saturating_add max a b ≤ max)%N.
Proof. unfold saturating_add. lia. Qed.

(** The length of a byte string, in binary. *)
Fixpoint str_len (s : string) : N :=
  match s with
  | EmptyString => 0
  | String _ s => N.succ (str_len s)
  end.

Lemma length_append (a b : string) :
  String.length (String.append a b) = (String.length a + String.length b)%nat.
Proof. induction a as [|c a IH]; simpl; [done|]. by rewrite IH. Qed.

Lemma append_assoc (a b c : string) :
  String.append a (String.append b c) = String.append (String.append a b) c.
Proof. induction a as [|x a IH]; simpl; [done|]. by rewrite IH. Qed.

Lemma append_empty_r (a : string) : String.append a EmptyString = a.
Proof. induction a as [|x a IH]; simpl; [done|]. by rewrite IH. Qed.

Lemma str_len_app a b : str_len (String.append a b) = (str_len a + str_len b)%N.
Proof. induction a as [|c a IH]; [done|]. simpl. rewrite IH. lia. Qed.

Lemma str_len_length s : str_len s = N.of_nat (String.length s).
Proof. induction s as [|c s IH]; cbn [String.length str_len]; [done|]. rewrite IH. lia. Qed.

(** ** JSON

    serde_json is outside the repository.  A type it serialises is an instance of [Serde],
    whose one law is that what was written reads back. *)
Class Serde (T : Type) : Type := {
  to_vec : T → option string;
  from_slice : string → option T;
  serde_roundtrip : ∀ t b, to_vec t = Some b → from_slice b = Some t;
}.

(** ** Results with an error type of their own

    [Result<A, E>] as a sum, whose left side is the error. *)
#[export] Instance sum_ret {E} : MRet (sum E) := fun A a => inr a.
#[export] Instance sum_bind {E} : MBind (sum E) := fun A B f r =>
  match r with inr a => f a | inl e => inl e end.

Definition demand {E} (b : bool) (e : E) : E + unit := if b then inr tt else inl e.

(** [option.ok_or(e)] and [result.map_err(f)]. *)
Definition ok_or {E A} (o : option A) (e : E) : E + A :=
  match o with Some a => inr a | None => inl e end.
Definition map_err {E F A} (f : E → F) (r : E + A) : F + A :=
  match r with inr a => inr a | inl e => inl (f e) end.

(** [result.is_ok()] and [result.ok()]. *)
Definition succeeds {E A} (r : E + A) : bool := match r with inr _ => true | inl _ => false end.
Definition ok_of {E A} (r : E + A) : option A := match r with inr a => Some a | inl _ => None end.

(** A loop with early return over a list: the first error of a check, in order. *)
Fixpoint each {E A} (f : A → E + unit) (l : list A) : E + unit :=
  match l with
  | [] => inr tt
  | x :: l => match f x with inr _ => each f l | inl e => inl e end
  end.

(** ** Generic lemmas *)

Lemma ensure_Ok b k msg u : ensure b k msg = Ok u ↔ b = true.
Proof. by destruct b, u. Qed.

Lemma is_ok_Ok {A} (r : result A) : is_ok r = true ↔ ∃ a, r = Ok a.
Proof. destruct r; simpl; split; [eauto | done | done | by intros [? [=]]]. Qed.

Lemma result_bind_Ok {A B} (f : A → result B) (r : result A) b :
  (r ≫= f) = Ok b ↔ ∃ a, r = Ok a ∧ f a = Ok b.
Proof. destruct r as [a|e]; simpl; split; [eauto | by intros (? & [= <-] & ?) | done | by intros (? & [=] & _)]. Qed.

Lemma demand_inr {E} b (e : E) u : demand b e = inr u ↔ b = true.
Proof. by destruct b, u. Qed.

Lemma sum_bind_inr {E A B} (f : A → E + B) (r : E + A) b :
  (r ≫= f) = inr b ↔ ∃ a, r = inr a ∧ f a = inr b.
Proof. destruct r as [e|a]; simpl; split; [done | by intros (? & [=] & _) | eauto | by intros (? & [= <-] & ?)]. Qed.

Lemma ok_or_inr {E A} (o : option A) (e : E) a : ok_or o e = inr a ↔ o = Some a.
Proof. destruct o; simpl; split; congruence. Qed.

Lemma map_err_inr {E F A} (f : E → F) (r : E + A) a : map_err f r = inr a ↔ r = inr a.
Proof. destruct r; simpl; split; congruence. Qed.

Lemma ok_of_Some {E A} (r : E + A) a : ok_of r = Some a ↔ r = inr a.
Proof. destruct r; simpl; split; congruence. Qed.

Lemma each_inr {E A} (f : A → E + unit) l u :
  each f l = inr u ↔ ∀ x, x ∈ l → f x = inr tt.
Proof.
  destruct u. induction l as [|x l IH]; simpl; [split; [intros _ x []%not_elem_of_nil|done]|].
  destruct (f x) as [e|[]] eqn:Hf.
  - split; [done|]. intros Hall. specialize (Hall x ltac:(constructor)). congruence.
  - rewrite IH. split; [|intros Hall y Hy; apply Hall; by constructor].
    intros Hall y [->|Hy]%elem_of_cons; auto.
Qed.

#[export] Hint Rewrite @ensure_Ok @result_bind_Ok @is_ok_Ok @demand_inr @sum_bind_inr @ok_or_inr @map_err_inr @ok_of_Some @each_inr : upd.

(** ** Tactics *)

(** Turn boolean guards of the code into propositions. *)
Ltac bool_to_prop :=
  repeat match goal with
  | H : _ && _ = true |- _ => apply andb_true_iff in H as [? ?]
  | H : _ || _ = false |- _ => apply orb_false_iff in H as [? ?]
  | H : _ || _ = true |- _ => apply orb_true_iff in H
  | H : _ && _ = false |- _ => apply andb_false_iff in H
  | H : negb _ = true |- _ => apply negb_true_iff in H
  | H : negb _ = false |- _ => apply negb_false_iff in H
  | H : bool_decide _ = true |- _ => apply bool_decide_eq_true in H
  | H : bool_decide _ = false |- _ => apply bool_decide_eq_false in H
  | H : Is_true _ |- _ => apply Is_true_true in H
  end.

(** Case on the scrutinee of the first [match] or [if] in the goal or a hypothesis. *)
Ltac case_inner t :=
  match t with
  | context [match ?x with _ => _ end] => case_inner x
  | _ => destruct t eqn:?
  end.

Ltac case_goal :=
  match goal with
  | |- context [match ?x with _ => _ end] => case_inner x
  end.

Ltac case_hyp :=
  match goal with
  | H : context [match ?x with _ => _ end] |- _ => case_inner x
  end.

(** Invert a chain of [?]-propagating calls that returned [Ok]. *)
Ltac result_inv :=
  repeat match goal with
  | H : (_ ≫= _) = Ok _ |- _ => apply result_bind_Ok in H as (? & ? & H)
  | H : ensure _ _ _ = Ok _ |- _ => apply ensure_Ok in H
  | H : Ok _ = Ok _ |- _ => injection H as H; subst
  | H : Err _ = Ok _ |- _ => discriminate H
  | x : unit |- _ => destruct x
  | H : true = true |- _ => clear H
  | H : ?x = ?x |- _ => clear H
  end.

(** The same over sums. *)
Ltac sum_inv :=
  repeat match goal with
  | H : (_ ≫= _) = inr _ |- _ => apply sum_bind_inr in H as (? & ? & H)
  | H : demand _ _ = inr _ |- _ => apply demand_inr in H
  | H : ok_or _ _ = inr _ |- _ => apply ok_or_inr in H
  | H : map_err _ _ = inr _ |- _ => apply map_err_inr in H
  | H : each _ _ = inr _ |- _ => rewrite each_inr in H
  | H : inr _ = inr _ |- _ => injection H as H; subst
  | H : inl _ = inr _ |- _ => discriminate H
  | x : unit |- _ => destruct x
  | H : true = true |- _ => clear H
  | H : ?x = ?x |- _ => clear H
  end.

Ltac sum_ok tac :=
  repeat match goal with
  | H : ?r = inr _ |- context [?r ≫= _] => rewrite H; cbn
  | |- context [demand ?b ?e] => rewrite (proj2 (demand_inr b e tt)) by tac; cbn
  end; try done.

(** Run a chain of guards whose conditions are known to hold. *)
Ltac result_ok tac :=
  repeat match goal with
  | H : ?r = Ok _ |- context [?r ≫= _] => rewrite H; cbn
  | |- context [ensure ?b ?k ?m] =>
      rewrite (proj2 (ensure_Ok b k m tt)) by tac; cbn
  end; try done.
