(* ===== verification/Identity.v ===== *)
(** * Identity: content digests, tokens and identity grammars

    Models [foundation/src/digest.rs], [updated-contracts/src/digest.rs],
    [updated-contracts/src/identity.rs], [updated/src/rand.rs] and the [ReleaseId] of
    [updated/src/bundle.rs].  SHA-256 (aws-lc-rs) and semantic-version parsing (the
    [semver] crate) are outside the repository: they are the class parameters [Sha256]
    and [Semver]. *)
From S2P Require Import Prelude.

(** ** ASCII classes of the Rust standard library, on bytes *)

Definition byte_in (lo hi : nat) (c : Ascii.ascii) : bool :=
  let n := Ascii.nat_of_ascii c in (lo <=? n)%nat && (n <=? hi)%nat.

Definition is_ascii_digit (c : Ascii.ascii) : bool := byte_in 48 57 c.
Definition is_ascii_lowercase (c : Ascii.ascii) : bool := byte_in 97 122 c.
Definition is_ascii_uppercase (c : Ascii.ascii) : bool := byte_in 65 90 c.
Definition is_ascii_alphanumeric (c : Ascii.ascii) : bool :=
  is_ascii_digit c || is_ascii_lowercase c || is_ascii_uppercase c.

(** [bytes().all(p)] and [bytes().any(p)]. *)
Fixpoint string_forallb (p : Ascii.ascii → bool) (s : string) : bool :=
  match s with
  | EmptyString => true
  | String c s => p c && string_forallb p s
  end.

Definition string_existsb (p : Ascii.ascii → bool) (s : string) : bool :=
  negb (string_forallb (λ c, negb (p c)) s).

Fixpoint string_last (s : string) : option Ascii.ascii :=
  match s with
  | EmptyString => None
  | String c EmptyString => Some c
  | String _ s => string_last s
  end.

(** The part of [s] before the first byte [sep], all of [s] when there is none:
    [s.split(sep).next()]. *)
Fixpoint before (sep : Ascii.ascii) (s : string) : string :=
  match s with
  | EmptyString => EmptyString
  | String c s => if decide (c = sep) then EmptyString else String c (before sep s)
  end.

(** [s.split_once(sep)]. *)
Fixpoint split_once (sep : Ascii.ascii) (s : string) : option (string * string) :=
  match s with
  | EmptyString => None
  | String c s =>
      if decide (c = sep) then Some (EmptyString, s)
      else match split_once sep s with
           | Some (a, b) => Some (String c a, b)
           | None => None
           end
  end.

(** ** Digests *)

Definition is_hex_byte (c : Ascii.ascii) : bool := is_ascii_digit c || byte_in 97 102 c.

Definition is_canonical_sha256 (value : string) : bool :=
  (String.length value =? 64)%nat && string_forallb is_hex_byte value.

(** SHA-256 with the canonical hexadecimal spelling, as aws-lc-rs and [hex] produce it. *)
Class Sha256 : Type := {
  sha256_bytes : string → string;
  sha256_canonical : ∀ b, is_canonical_sha256 (sha256_bytes b) = true;
}.

Definition digests_match (got expected : string) : bool :=
  is_canonical_sha256 got && is_canonical_sha256 expected && bool_decide (got = expected).

Definition deployment_rejection_sha256 `{Sha256} (application_sha256 : string) : option string :=
  if is_canonical_sha256 application_sha256
  then Some (sha256_bytes (String.append "updated-package-rejection:" application_sha256))
  else None.

(** A token is the hexadecimal spelling of 32 random bytes, so it shares the digest grammar. *)
Definition is_token (value : string) : bool := is_canonical_sha256 value.

(** ** Identity segments *)

Definition MAX_SEGMENT_BYTES : nat := 128.

Definition is_windows_device_stem (stem : string) : bool :=
  bool_decide (stem ∈ ["con"; "prn"; "aux"; "nul"]) ||
  match stem with
  | String "c"%char (String "o"%char (String "m"%char suffix))
  | String "l"%char (String "p"%char (String "t"%char suffix)) =>
      bool_decide (suffix ∈ ["1"; "2"; "3"; "4"; "5"; "6"; "7"; "8"; "9"])
  | _ => false
  end.

Definition segment_head_byte (c : Ascii.ascii) : bool := is_ascii_lowercase c || is_ascii_digit c.
Definition segment_tail_byte (c : Ascii.ascii) : bool :=
  segment_head_byte c || bool_decide (c ∈ ["."; "_"; "-"]%char).

Definition is_segment (value : string) : bool :=
  match value with
  | EmptyString => false
  | String c rest =>
      (String.length value <=? MAX_SEGMENT_BYTES)%nat
      && (segment_head_byte c && string_forallb segment_tail_byte rest)
      && match string_last value with Some l => is_ascii_alphanumeric l | None => false end
      && negb (is_windows_device_stem (before "."%char value))
  end.

(** ** Release versions and release identities *)

Definition MAX_RELEASE_VERSION_BYTES : nat := 128.

(** [semver::Version::parse(v).is_ok()]. *)
Class Semver : Type := { semver_parses : string → bool }.

Definition is_release_version `{Semver} (value : string) : bool :=
  (String.length value <=? MAX_RELEASE_VERSION_BYTES)%nat
  && negb (string_existsb is_ascii_uppercase value)
  && semver_parses value.

Record ReleaseId : Type := mkReleaseId {
  version : string;
  manifest_sha256 : string;
}.

#[export] Instance ReleaseId_eq_dec : EqDecision ReleaseId.
Proof. solve_decision. Defined.

#[export] Instance ReleaseId_countable : Countable ReleaseId.
Proof.
  refine (inj_countable' (λ r, (version r, manifest_sha256 r))
                         (λ p, mkReleaseId p.1 p.2) _).
  by intros [].
Defined.

(** [ReleaseId::directory_name]. *)
Definition directory_name (r : ReleaseId) : string :=
  String.append (version r) (String.append "-" (manifest_sha256 r)).

(** [ReleaseId::validate]; the digest half is [bundle::validate_digest]. *)
Definition ReleaseId_validate `{Semver} (r : ReleaseId) : result unit :=
  _ ← ensure (is_release_version (version r)) InvalidData
        "release version is not a bounded semantic version";
  ensure (is_canonical_sha256 (manifest_sha256 r)) InvalidData "invalid SHA-256 digest".

(** ** Lemmas on text *)

Lemma string_forallb_impl (p q : Ascii.ascii → bool) s :
  (∀ c, p c = true → q c = true) → string_forallb p s = true → string_forallb q s = true.
Proof.
  intros Hpq. induction s as [|c s IH]; simpl; [done|].
  rewrite !andb_true_iff. intros [? ?]; eauto.
Qed.

Lemma string_forallb_app p a b :
  string_forallb p (String.append a b) = string_forallb p a && string_forallb p b.
Proof. induction a as [|c a IH]; simpl; [done|]. by rewrite IH, andb_assoc. Qed.

Lemma split_once_Some sep s a b :
  split_once sep s = Some (a, b) → s = String.append a (String sep b).
Proof.
  revert a b. induction s as [|c s IH]; intros a b; simpl; [done|].
  case_decide; [by intros [= <- <-]; subst|].
  destruct (split_once sep s) as [[a' b']|]; [|done]. intros [= <- <-]. simpl.
  by rewrite (IH a' b').
Qed.

(** A separator that cannot occur in the first part is found after it. *)
Lemma split_once_app sep a b :
  string_forallb (λ c, negb (bool_decide (c = sep))) a = true →
  split_once sep (String.append a (String sep b)) = Some (a, b).
Proof.
  induction a as [|c a IH]; simpl; [by rewrite decide_True|].
  intros [Hc Ha]%andb_true_iff. bool_to_prop. rewrite decide_False by done. by rewrite IH.
Qed.
