(* ===== verification/State.v ===== *)
(** * State: the committed installed record

    Models [updated/src/state.rs]: repository lineages, reconciler identities, the
    installed record with its rollback guard, its validity rule and its transitions. *)
From S2P Require Import Prelude Identity.

(** ** Data *)

Record RepositoryLineage : Type := mkLineage { lineage_str : string }.

(** [api] is a [u32] and [timeout_millis] a [u64]. *)
Record ReconcilerRelease : Type := mkReconcilerRelease {
  rr_definition_sha256 : string;
  rr_product : string;
  rr_api : N;
  rr_timeout_millis : N;
}.

Inductive Maturity : Type := Provisional | Proven.

Record RollbackGuard : Type := mkRollbackGuard {
  rg_attempt_id : string;
  rg_candidate_rejection_sha256 : string;
  rg_previous_release : ReleaseId;
  rg_previous_archive_sha256 : string;
  rg_previous_repository_lineage : RepositoryLineage;
  rg_reconciler : ReconcilerRelease;
  rg_committed_at : N;
}.

Record InstalledState : Type := mkInstalledState {
  st_repository_lineage : RepositoryLineage;
  st_release : ReleaseId;
  st_archive_sha256 : string;
  st_reconciler : ReconcilerRelease;
  st_rollback_guard : option RollbackGuard;
  st_maturity : Maturity;
}.

(** [Installed]: absent and corrupt stay distinct. *)
Inductive Installed : Type :=
| Present (state : InstalledState)
| Missing
| Invalid.

Inductive InstallHistory : Type := HistoryPresent | HistoryMissing | HistoryInvalid.

#[export] Instance RepositoryLineage_eq_dec : EqDecision RepositoryLineage.
Proof. solve_decision. Defined.
#[export] Instance ReconcilerRelease_eq_dec : EqDecision ReconcilerRelease.
Proof. solve_decision. Defined.
#[export] Instance Maturity_eq_dec : EqDecision Maturity.
Proof. solve_decision. Defined.
#[export] Instance RollbackGuard_eq_dec : EqDecision RollbackGuard.
Proof. solve_decision. Defined.
#[export] Instance InstalledState_eq_dec : EqDecision InstalledState.
Proof. solve_decision. Defined.

(** ** Repository lineages *)

Definition rejection_key (l : RepositoryLineage) (digest : string) : string :=
  String.append (lineage_str l) (String ":" digest).

Definition lineage_validate (l : RepositoryLineage) : bool := is_canonical_sha256 (lineage_str l).

(** ** Reconciler identities *)

Definition API : N := 1.
Definition MAX_COMMAND_SECONDS : N := 3600.
Definition MAX_HEALTH_SECONDS : N := 20.
Definition MAX_INVOCATION_MILLIS : N := (2 * MAX_COMMAND_SECONDS + MAX_HEALTH_SECONDS + 5) * 1000.

Definition check_api (api : N) : result unit :=
  ensure (api =? API)%N Other "agent upgrade required: execution API is unsupported".

Definition check_supported (r : ReconcilerRelease) : result unit := check_api (rr_api r).

Definition reconciler_is_valid (r : ReconcilerRelease) : bool :=
  is_canonical_sha256 (rr_definition_sha256 r)
  && is_segment (rr_product r)
  && ((0 <? rr_api r)%N && (rr_api r <=? u32_max)%N)  (* a non-zero [u32] *)
  && ((1 <=? rr_timeout_millis r)%N && (rr_timeout_millis r <=? MAX_INVOCATION_MILLIS)%N).

(** ** Rejection identities *)

Section with_externals.
Context `{Sha256} `{Semver}.

Definition candidate_rejection_sha256 (previous_release : ReleaseId)
    (previous_archive_sha256 : string) (candidate_release : ReleaseId)
    (candidate_archive_sha256 : string) : option string :=
  if bool_decide (previous_release = candidate_release)
     && bool_decide (previous_archive_sha256 = candidate_archive_sha256)
  then None
  else deployment_rejection_sha256 candidate_archive_sha256.

(** ** The installed record *)

Definition is_proven (s : InstalledState) : bool := bool_decide (st_maturity s = Proven).

(** The guard half of [InstalledState::validate]. *)
Definition guard_validate (s : InstalledState) (g : RollbackGuard) : result unit :=
  _ ← ensure (negb (rg_committed_at g =? 0)%N && (rg_committed_at g <=? u64_max)%N) InvalidData
        "rollback guard timestamp is invalid";  (* a non-zero [u64] *)
  _ ← ensure (lineage_validate (rg_previous_repository_lineage g)) InvalidData
        "rollback guard predecessor repository lineage is invalid";
  _ ← ensure (is_token (rg_attempt_id g)) InvalidData "rollback guard attempt id is invalid";
  let expected_rejection :=
    candidate_rejection_sha256 (rg_previous_release g) (rg_previous_archive_sha256 g)
      (st_release s) (st_archive_sha256 s) in
  _ ← ensure (is_canonical_sha256 (rg_candidate_rejection_sha256 g)
              && bool_decide (expected_rejection = Some (rg_candidate_rejection_sha256 g)))
        InvalidData
        "rollback guard rejection identity does not match the executable replacement";
  _ ← ensure (reconciler_is_valid (rg_reconciler g)) InvalidData
        "rollback guard reconciler identity is invalid";
  _ ← ReleaseId_validate (rg_previous_release g);
  ensure (is_canonical_sha256 (rg_previous_archive_sha256 g)) InvalidData
    "rollback guard predecessor archive identity is invalid".

Definition InstalledState_validate (s : InstalledState) : result unit :=
  _ ← ensure (lineage_validate (st_repository_lineage s)) InvalidData "invalid repository lineage";
  _ ← ensure (reconciler_is_valid (st_reconciler s)) InvalidData
        "installed reconciler identity is invalid";
  _ ← ReleaseId_validate (st_release s);
  _ ← ensure (is_canonical_sha256 (st_archive_sha256 s)) InvalidData
        "installed archive identity is invalid";
  _ ← ensure (negb (bool_decide (st_maturity s = Provisional)
                    && bool_decide (is_Some (st_rollback_guard s)))) InvalidData
        "a provisional install must not carry a rollback guard";
  match st_rollback_guard s with
  | Some g => guard_validate s g
  | None => Ok tt
  end.

(** [InstalledState::proven] and [InstalledState::provisional]. *)
Definition InstalledState_proven (l : RepositoryLineage) (r : ReleaseId) (a : string)
    (rec : ReconcilerRelease) : InstalledState :=
  mkInstalledState l r a rec None Proven.

Definition InstalledState_provisional (l : RepositoryLineage) (r : ReleaseId) (a : string)
    (rec : ReconcilerRelease) : InstalledState :=
  mkInstalledState l r a rec None Provisional.

(** [&mut self] transitions return the new record with the call's value. *)
Definition prove_provisional (s : InstalledState) : InstalledState * bool :=
  (mkInstalledState (st_repository_lineage s) (st_release s) (st_archive_sha256 s)
     (st_reconciler s) (st_rollback_guard s) Proven,
   bool_decide (st_maturity s = Provisional)).

Definition disarm_rollback (s : InstalledState) : InstalledState * bool :=
  (mkInstalledState (st_repository_lineage s) (st_release s) (st_archive_sha256 s)
     (st_reconciler s) None (st_maturity s),
   bool_decide (is_Some (st_rollback_guard s))).

Definition version_floor_for (s : InstalledState) (l : RepositoryLineage) : option string :=
  if bool_decide (st_repository_lineage s = l) then Some (version (st_release s)) else None.

Definition rebind_if_same_artifact (s : InstalledState) (l : RepositoryLineage) (r : ReleaseId)
    (a : string) (rec : ReconcilerRelease) : option InstalledState :=
  if negb (bool_decide (st_repository_lineage s = l))
     && bool_decide (st_release s = r)
     && bool_decide (st_archive_sha256 s = a)
     && bool_decide (st_reconciler s = rec)
  then Some (mkInstalledState l (st_release s) (st_archive_sha256 s) (st_reconciler s)
               (st_rollback_guard s) (st_maturity s))
  else None.

(** ** Lemmas *)

Lemma candidate_rejection_canonical pr pa cr ca d :
  candidate_rejection_sha256 pr pa cr ca = Some d → is_canonical_sha256 d = true.
Proof.
  unfold candidate_rejection_sha256, deployment_rejection_sha256.
  repeat case_match; [done | intros [= <-] | done]. apply sha256_canonical.
Qed.

Lemma candidate_rejection_deployment pr pa cr ca d :
  candidate_rejection_sha256 pr pa cr ca = Some d →
  deployment_rejection_sha256 ca = Some d.
Proof. unfold candidate_rejection_sha256. by case_match. Qed.

(** What a valid guarded record says of its guard. *)
Lemma validate_guard s g :
  InstalledState_validate s = Ok tt → st_rollback_guard s = Some g →
  guard_validate s g = Ok tt ∧ is_proven s = true.
Proof.
  unfold InstalledState_validate, is_proven. intros Hv Hg. rewrite Hg in Hv.
  result_inv. split; [done|].
  destruct (st_maturity s); [|done]. by rewrite bool_decide_eq_true_2 in *.
Qed.

(** Disarming and confirming preserve validity. *)
Lemma disarm_rollback_valid s :
  InstalledState_validate s = Ok tt → InstalledState_validate (disarm_rollback s).1 = Ok tt.
Proof.
  unfold InstalledState_validate, disarm_rollback. intros Hv; simpl.
  result_inv. result_ok ltac:(first [done | by rewrite andb_false_r]).
Qed.

Lemma prove_provisional_valid s :
  InstalledState_validate s = Ok tt → InstalledState_validate (prove_provisional s).1 = Ok tt.
Proof.
  unfold InstalledState_validate, prove_provisional. intros Hv; simpl.
  result_inv. result_ok ltac:(done).
Qed.

End with_externals.
