(* ===== verification/Transaction.v ===== *)
(** * Transaction: the durable update transaction

    Models [updated/src/transaction.rs]: the ten-phase update journal record, its
    validity rule, its phase machine, the rule for rewriting a journal in place, and the
    recovery classifier.  The theorems show that the phase machine is acyclic and cannot
    skip a compensation step, that every permitted rewrite keeps the record valid and its
    identity fixed, and that a transaction's journal can only be rewritten finitely often. *)
From S2P Require Import Prelude Identity State.

(** ** Data *)

Inductive Phase : Type :=
| Prepared
| Activated
| Converged
| Verified
| Committed
| RollbackPlanned
| CandidateCompensated
| Restored
| RollbackVerified
| RolledBack.

#[export] Instance Phase_eq_dec : EqDecision Phase.
Proof. solve_decision. Defined.

(** [Phase::ALL]. *)
Definition Phase_ALL : list Phase :=
  [Prepared; Activated; Converged; Verified; Committed;
   RollbackPlanned; CandidateCompensated; Restored; RollbackVerified; RolledBack].

(** [rollback_health_failures] is a [u32]. *)
Record Transaction : Type := mkTransaction {
  tx_id : string;
  tx_previous_release : ReleaseId;
  tx_previous_archive_sha256 : string;
  tx_previous_repository_lineage : RepositoryLineage;
  tx_candidate_release : ReleaseId;
  tx_candidate_archive_sha256 : string;
  tx_candidate_rejection_sha256 : string;
  tx_candidate_repository_lineage : RepositoryLineage;
  tx_candidate_rejection_required : bool;
  tx_previous_reconciler : ReconcilerRelease;
  tx_candidate_reconciler : ReconcilerRelease;
  tx_rollback_health_failures : N;
  tx_phase : Phase;
}.

#[export] Instance Transaction_eq_dec : EqDecision Transaction.
Proof. solve_decision. Defined.

(** Field assignments of the code ([tx.phase = p] and so on). *)
Definition set_phase (p : Phase) (t : Transaction) : Transaction :=
  mkTransaction (tx_id t) (tx_previous_release t) (tx_previous_archive_sha256 t)
    (tx_previous_repository_lineage t) (tx_candidate_release t) (tx_candidate_archive_sha256 t)
    (tx_candidate_rejection_sha256 t) (tx_candidate_repository_lineage t)
    (tx_candidate_rejection_required t) (tx_previous_reconciler t) (tx_candidate_reconciler t)
    (tx_rollback_health_failures t) p.

Definition set_rejection_required (b : bool) (t : Transaction) : Transaction :=
  mkTransaction (tx_id t) (tx_previous_release t) (tx_previous_archive_sha256 t)
    (tx_previous_repository_lineage t) (tx_candidate_release t) (tx_candidate_archive_sha256 t)
    (tx_candidate_rejection_sha256 t) (tx_candidate_repository_lineage t)
    b (tx_previous_reconciler t) (tx_candidate_reconciler t)
    (tx_rollback_health_failures t) (tx_phase t).

Definition set_health_failures (n : N) (t : Transaction) : Transaction :=
  mkTransaction (tx_id t) (tx_previous_release t) (tx_previous_archive_sha256 t)
    (tx_previous_repository_lineage t) (tx_candidate_release t) (tx_candidate_archive_sha256 t)
    (tx_candidate_rejection_sha256 t) (tx_candidate_repository_lineage t)
    (tx_candidate_rejection_required t) (tx_previous_reconciler t) (tx_candidate_reconciler t)
    n (tx_phase t).

(** ** Validity *)

(** [phase_evidence_is_valid], on the three mutable fields. *)
Definition evidence_possible (rejection_required : bool) (failures : N) (p : Phase) : bool :=
  let rejection_is_possible :=
    negb rejection_required
    || match p with
       | Activated | Converged | RollbackPlanned | CandidateCompensated
       | Restored | RollbackVerified | RolledBack => true
       | Prepared | Verified | Committed => false
       end in
  let rollback_health_is_possible :=
    (failures =? 0)%N
    || match p with
       | Restored | RollbackVerified | RolledBack => (failures <=? u32_max)%N  (* a [u32] *)
       | _ => false
       end in
  rejection_is_possible && rollback_health_is_possible.

Definition phase_evidence_is_valid (t : Transaction) : bool :=
  evidence_possible (tx_candidate_rejection_required t) (tx_rollback_health_failures t)
    (tx_phase t).

Section validate.
Context `{Sha256} `{Semver}.

(** Everything [Transaction::validate] checks before the phase evidence: none of it
    depends on the mutable fields. *)
Definition identity_validate (t : Transaction) : result unit :=
  _ ← ensure (is_token (tx_id t)) InvalidData "transaction id is invalid";
  _ ← ReleaseId_validate (tx_previous_release t);
  _ ← ReleaseId_validate (tx_candidate_release t);
  _ ← ensure (is_canonical_sha256 (tx_previous_archive_sha256 t)
              && is_canonical_sha256 (tx_candidate_archive_sha256 t)) InvalidData
        "transaction archive identity is invalid";
  _ ← ensure (lineage_validate (tx_previous_repository_lineage t)
              && lineage_validate (tx_candidate_repository_lineage t)) InvalidData
        "transaction repository lineage is invalid";
  match candidate_rejection_sha256 (tx_previous_release t) (tx_previous_archive_sha256 t)
          (tx_candidate_release t) (tx_candidate_archive_sha256 t) with
  | None => Err (IoError InvalidData "update transaction must change the package")
  | Some expected_rejection =>
      _ ← ensure (is_canonical_sha256 (tx_candidate_rejection_sha256 t)
                  && bool_decide (tx_candidate_rejection_sha256 t = expected_rejection)) InvalidData
            "transaction rejection identity does not match the executable replacement";
      ensure (reconciler_is_valid (tx_previous_reconciler t)
              && reconciler_is_valid (tx_candidate_reconciler t)) InvalidData
        "transaction reconciler identity is invalid"
  end.

Definition Transaction_validate (t : Transaction) : result unit :=
  _ ← identity_validate t;
  ensure (phase_evidence_is_valid t) InvalidData
    "transaction phase contradicts its durable evidence".

End validate.

(** ** Matching against the installed record *)

Definition matches_previous (t : Transaction) (s : InstalledState) : bool :=
  bool_decide (tx_previous_repository_lineage t = st_repository_lineage s)
  && bool_decide (tx_previous_release t = st_release s)
  && bool_decide (tx_previous_archive_sha256 t = st_archive_sha256 s)
  && bool_decide (tx_previous_reconciler t = st_reconciler s).

Definition matches_candidate (t : Transaction) (s : InstalledState) : bool :=
  bool_decide (tx_candidate_repository_lineage t = st_repository_lineage s)
  && bool_decide (tx_candidate_release t = st_release s)
  && bool_decide (tx_candidate_archive_sha256 t = st_archive_sha256 s)
  && bool_decide (tx_candidate_reconciler t = st_reconciler s).

Definition matches_rollback_guard (t : Transaction) (g : RollbackGuard) : bool :=
  bool_decide (tx_id t = rg_attempt_id g)
  && bool_decide (tx_candidate_rejection_sha256 t = rg_candidate_rejection_sha256 g)
  && bool_decide (tx_previous_repository_lineage t = rg_previous_repository_lineage g)
  && bool_decide (tx_previous_release t = rg_previous_release g)
  && bool_decide (tx_previous_archive_sha256 t = rg_previous_archive_sha256 g)
  && bool_decide (tx_previous_reconciler t = rg_reconciler g).

Definition rollback_attempt_id (t : Transaction) : string := String.append (tx_id t) "r".

(** ** The phase machine *)

Definition phase_is_rollback (p : Phase) : bool :=
  match p with
  | RollbackPlanned | CandidateCompensated | Restored | RollbackVerified | RolledBack => true
  | _ => false
  end.

Definition is_rollback (t : Transaction) : bool := phase_is_rollback (tx_phase t).

Definition rollback_rank_of (p : Phase) : option N :=
  match p with
  | RollbackPlanned => Some 0%N
  | CandidateCompensated => Some 1%N
  | Restored => Some 2%N
  | RollbackVerified => Some 3%N
  | RolledBack => Some 4%N
  | Prepared | Activated | Converged | Verified | Committed => None
  end.

Definition phase_pending (current target : Phase) : bool :=
  match rollback_rank_of current, rollback_rank_of target with
  | Some c, Some b => (c <? b)%N
  | _, _ => false
  end.

Definition recovery_pending (t : Transaction) (target : Phase) : bool :=
  phase_pending (tx_phase t) target.

(** The three edge sets of [Transaction::advance]. *)
Definition forward_edge (p next : Phase) : bool :=
  match p, next with
  | Prepared, Activated | Activated, Converged | Converged, Verified
  | Verified, Committed | Converged, Committed => true
  | _, _ => false
  end.

Definition begin_rollback_edge (p next : Phase) : bool :=
  match p, next with
  | Prepared, RollbackPlanned | Activated, RollbackPlanned
  | Converged, RollbackPlanned | Verified, RollbackPlanned => true
  | _, _ => false
  end.

Definition rollback_edge (p next : Phase) : bool :=
  match p, next with
  | RollbackPlanned, CandidateCompensated | CandidateCompensated, Restored
  | Restored, RollbackVerified | RollbackVerified, RolledBack | Restored, RolledBack => true
  | _, _ => false
  end.

Definition phase_edge (p next : Phase) : bool :=
  forward_edge p next || begin_rollback_edge p next || rollback_edge p next.

Definition advance (next : Phase) (t : Transaction) : result Transaction :=
  if negb (phase_edge (tx_phase t) next) then
    Err (IoError InvalidInput "invalid transaction phase")
  else
    let t' := set_phase next t in
    if negb (phase_evidence_is_valid t') then
      Err (IoError InvalidInput "transaction evidence cannot advance")
    else Ok t'.

Definition record_rollback_health_failure (t : Transaction) : result (Transaction * N) :=
  let boot_gate_is_active :=
    negb (recovery_pending t Restored) && recovery_pending t RolledBack in
  if negb boot_gate_is_active then
    Err (IoError InvalidInput "cannot record a rollback health failure at phase")
  else
    match checked_add u32_max (tx_rollback_health_failures t) 1 with
    | None => Err (IoError InvalidData "rollback health failure count overflow")
    | Some n => Ok (set_health_failures n t, n)
    end.

(** ** Rewriting a journal in place *)

Definition permits_replacement (t next : Transaction) : bool :=
  let identity :=
    set_health_failures (tx_rollback_health_failures t)
      (set_rejection_required (tx_candidate_rejection_required t)
         (set_phase (tx_phase t) next)) in
  if negb (bool_decide (identity = t)) then false
  else if bool_decide (t = next) then true
  else if negb (bool_decide (tx_phase t = tx_phase next)) then
    let resumes_committed_pending :=
      bool_decide (tx_phase t = Committed)
      && bool_decide (tx_phase next = RollbackPlanned)
      && Bool.eqb (tx_candidate_rejection_required t) (tx_candidate_rejection_required next)
      && (tx_rollback_health_failures t =? tx_rollback_health_failures next)%N in
    if resumes_committed_pending then true
    else match advance (tx_phase next) t with
         | Ok advanced => bool_decide (advanced = next)
         | Err _ => false
         end
  else
    let may_record_rejection :=
      match tx_phase t with Activated | Converged => true | _ => false end in
    let records_rejection :=
      may_record_rejection
      && negb (tx_candidate_rejection_required t)
      && tx_candidate_rejection_required next
      && (tx_rollback_health_failures t =? tx_rollback_health_failures next)%N in
    let records_failed_rollback_health :=
      Bool.eqb (tx_candidate_rejection_required t) (tx_candidate_rejection_required next)
      && match record_rollback_health_failure t with
         | Ok (failed, _) => bool_decide (failed = next)
         | Err _ => false
         end in
    records_rejection || records_failed_rollback_health.

(** ** Recovery classification *)

Inductive Recovery : Type :=
| RecoveryCommitted
| NeverSwapped
| RestorePredecessor.

#[export] Instance Recovery_eq_dec : EqDecision Recovery.
Proof. solve_decision. Defined.

Definition option_matches {A} (f : A → bool) (o : option A) : bool :=
  match o with Some a => f a | None => false end.

Definition classify_recovery (t : Transaction) (active : option ReleaseId)
    (committed : option InstalledState) : Recovery :=
  if match tx_phase t with Converged | Verified | Committed => true | _ => false end
     && bool_decide (active = Some (tx_candidate_release t))
     && option_matches (matches_candidate t) committed
  then RecoveryCommitted
  else match tx_phase t with
       | Prepared | RolledBack =>
           if bool_decide (active = Some (tx_previous_release t)) then NeverSwapped
           else RestorePredecessor
       | _ => RestorePredecessor
       end.

(** ** Lemmas on the phase machine *)

(** The declaration order of [Phase], along which every edge of the machine moves. *)
Definition phase_order (p : Phase) : N :=
  match p with
  | Prepared => 0 | Activated => 1 | Converged => 2 | Verified => 3 | Committed => 4
  | RollbackPlanned => 5 | CandidateCompensated => 6 | Restored => 7
  | RollbackVerified => 8 | RolledBack => 9
  end.

Lemma phase_order_bound p : (phase_order p ≤ 9)%N.
Proof. by destruct p. Qed.

Lemma phase_edge_increases p q : phase_edge p q = true → (phase_order p < phase_order q)%N.
Proof. by destruct p, q. Qed.

Lemma advance_Ok next t t' :
  advance next t = Ok t' ↔
  phase_edge (tx_phase t) next = true ∧ phase_evidence_is_valid (set_phase next t) = true
  ∧ t' = set_phase next t.
Proof.
  unfold advance. repeat case_match; bool_to_prop; naive_solver congruence.
Qed.

Lemma record_rollback_health_failure_Ok t t' n :
  record_rollback_health_failure t = Ok (t', n) ↔
  (tx_phase t = Restored ∨ tx_phase t = RollbackVerified)
  ∧ n = (tx_rollback_health_failures t + 1)%N ∧ (n ≤ u32_max)%N
  ∧ t' = set_health_failures n t.
Proof.
  unfold record_rollback_health_failure, recovery_pending.
  destruct (checked_add _ _ _) as [m|] eqn:Hadd.
  - apply checked_add_Some in Hadd as [-> ?].
    destruct (tx_phase t); simpl; naive_solver.
  - destruct (tx_phase t); simpl; (split; [discriminate|]); intros (? & -> & Hle & _);
      apply not_eq_None_Some in Hadd as []; eexists; by apply checked_add_Some.
Qed.

(** ** What a permitted rewrite may change *)

(** The fields a rewrite must keep. *)
Definition same_identity (t n : Transaction) : Prop :=
  tx_id t = tx_id n
  ∧ tx_previous_release t = tx_previous_release n
  ∧ tx_previous_archive_sha256 t = tx_previous_archive_sha256 n
  ∧ tx_previous_repository_lineage t = tx_previous_repository_lineage n
  ∧ tx_candidate_release t = tx_candidate_release n
  ∧ tx_candidate_archive_sha256 t = tx_candidate_archive_sha256 n
  ∧ tx_candidate_rejection_sha256 t = tx_candidate_rejection_sha256 n
  ∧ tx_candidate_repository_lineage t = tx_candidate_repository_lineage n
  ∧ tx_previous_reconciler t = tx_previous_reconciler n
  ∧ tx_candidate_reconciler t = tx_candidate_reconciler n.

(** The four permitted rewrites, as a relation. *)
Inductive rewrite_step (t : Transaction) : Transaction → Prop :=
| rewrite_replay : rewrite_step t t
| rewrite_advance p :
    phase_edge (tx_phase t) p = true →
    phase_evidence_is_valid (set_phase p t) = true →
    rewrite_step t (set_phase p t)
| rewrite_resume_committed :
    tx_phase t = Committed → rewrite_step t (set_phase RollbackPlanned t)
| rewrite_reject :
    tx_phase t = Activated ∨ tx_phase t = Converged →
    tx_candidate_rejection_required t = false →
    rewrite_step t (set_rejection_required true t)
| rewrite_health :
    tx_phase t = Restored ∨ tx_phase t = RollbackVerified →
    (tx_rollback_health_failures t + 1 ≤ u32_max)%N →
    rewrite_step t (set_health_failures (tx_rollback_health_failures t + 1) t).

Lemma set_fields_eq b f p t :
  b = tx_candidate_rejection_required t → f = tx_rollback_health_failures t → p = tx_phase t →
  set_health_failures f (set_rejection_required b (set_phase p t)) = t.
Proof. intros -> -> ->. by destruct t. Qed.

(** A transaction is its identity with its three mutable fields. *)
Lemma identity_normalized t n :
  set_health_failures (tx_rollback_health_failures t)
    (set_rejection_required (tx_candidate_rejection_required t) (set_phase (tx_phase t) n)) = t →
  n = set_health_failures (tx_rollback_health_failures n)
        (set_rejection_required (tx_candidate_rejection_required n) (set_phase (tx_phase n) t)).
Proof. intros <-. by destruct n. Qed.

Lemma permits_replacement_complete t n : rewrite_step t n → permits_replacement t n = true.
Proof.
  unfold permits_replacement.
  intros Hs. rewrite (bool_decide_eq_true_2 (_ = t)) by (destruct Hs, t; done). simpl.
  case_bool_decide; [done|]. inversion Hs as [|p He Hev|Hc|Hp Hr|Hp Hle]; subst; try done; simpl.
  - assert (tx_phase t ≠ p) by (intros <-; apply phase_edge_increases in He; lia).
    rewrite bool_decide_eq_false_2 by done. simpl.
    destruct (_ && _ && _ && _); [done|].
    rewrite (proj2 (advance_Ok p t _) (conj He (conj Hev eq_refl))). by case_bool_decide.
  - by rewrite Hc, eqb_reflx, N.eqb_refl.
  - rewrite bool_decide_eq_true_2 by done; simpl. rewrite Hr, N.eqb_refl.
    by destruct Hp as [-> | ->].
  - rewrite bool_decide_eq_true_2, eqb_reflx by done; simpl.
    rewrite (proj2 (record_rollback_health_failure_Ok t _ _)
               (conj Hp (conj eq_refl (conj Hle eq_refl)))).
    rewrite bool_decide_eq_true_2 by done. apply orb_true_r.
Qed.

Lemma permits_replacement_sound t n : permits_replacement t n = true → rewrite_step t n.
Proof.
  unfold permits_replacement. intros Hp.
  case_bool_decide as Hid; [|done]. simpl in Hp. apply identity_normalized in Hid.
  case_bool_decide as Heq; [subst; constructor|].
  case_bool_decide as Hph; simpl in Hp.
  - apply orb_true_iff in Hp as [Hr|Hf].
    + apply andb_true_iff in Hr as [[[Hm Hnr]%andb_true_iff Hr]%andb_true_iff Hn%N.eqb_eq].
      rewrite Hid, <-Hph, <-Hn, Hr.
      replace (set_health_failures _ _) with (set_rejection_required true t) by (by destruct t).
      constructor; [destruct (tx_phase t); auto; done | by apply negb_true_iff].
    + bool_to_prop. destruct (record_rollback_health_failure t) as [[f m]|] eqn:Hrec; [|done].
      bool_to_prop. subst f. apply record_rollback_health_failure_Ok in Hrec as (? & -> & ? & ->).
      by constructor.
  - destruct (_ && _ && _ && _) eqn:Hres.
    + apply andb_true_iff in Hres as [[[Hc Hq]%andb_true_iff Hb%eqb_prop]%andb_true_iff Hn%N.eqb_eq].
      bool_to_prop. rewrite Hid, <-Hn, <-Hb, Hq.
      replace (set_health_failures _ _) with (set_phase RollbackPlanned t) by (by destruct t).
      by constructor.
    + destruct (advance _ t) as [a|] eqn:Ha; [|done]. bool_to_prop. subst a.
      apply advance_Ok in Ha as (? & ? & Hn). rewrite Hn. simpl. constructor; [done|].
      by rewrite <-Hn in *.
Qed.

(** The executable rewrite rule permits exactly the four rewrites of its specification
    (identical replay, one state-machine edge, the one-way candidate rejection, one more
    failed rollback-health observation) and the restart of a committed transaction's
    rollback. *)
Lemma permits_replacement_spec t n : permits_replacement t n = true ↔ rewrite_step t n.
Proof. split; [apply permits_replacement_sound | apply permits_replacement_complete]. Qed.

Lemma rewrite_step_identity t n : rewrite_step t n → same_identity t n.
Proof. by intros []. Qed.

(** ** Invariants of a journal's history *)

Section history.
Context `{Sha256} `{Semver}.

Lemma identity_validate_same t n :
  same_identity t n → identity_validate t = identity_validate n.
Proof.
  unfold same_identity, identity_validate.
  by intros (-> & -> & -> & -> & -> & -> & -> & -> & -> & ->).
Qed.

Lemma Transaction_validate_Ok t :
  Transaction_validate t = Ok tt ↔
  identity_validate t = Ok tt ∧ phase_evidence_is_valid t = true.
Proof.
  unfold Transaction_validate. rewrite result_bind_Ok. setoid_rewrite ensure_Ok.
  split; [intros ([] & ? & ?); done | eauto].
Qed.

(** The evidence rule is preserved by every permitted rewrite: the only phases the machine
    can be restarted from carry no evidence a rollback could not carry. *)
Lemma rewrite_step_evidence t n :
  rewrite_step t n → phase_evidence_is_valid t = true → phase_evidence_is_valid n = true.
Proof.
  unfold phase_evidence_is_valid, evidence_possible.
  intros [|p He Hev|Hc|Hp Hr|Hp Hle] Ht; simpl in *; try done.
  - rewrite Hc in Ht. by destruct (tx_candidate_rejection_required t), (_ =? 0)%N.
  - rewrite Hr in Ht. simpl in Ht. by destruct Hp as [Hp|Hp]; rewrite Hp in *.
  - rewrite (proj2 (N.leb_le _ _) Hle). destruct Hp as [Hp|Hp]; rewrite Hp in *;
      rewrite !orb_true_r; done.
Qed.

(** Every durable rewrite the machine permits of a valid journal is itself a valid
    journal, so the record read back after a crash is never one the agent would refuse. *)
Lemma permits_replacement_preserves_valid t n :
  Transaction_validate t = Ok tt → permits_replacement t n = true →
  Transaction_validate n = Ok tt.
Proof.
  rewrite !Transaction_validate_Ok. intros [Hid Hev] Hs%permits_replacement_sound.
  split; [|by eapply rewrite_step_evidence].
  by rewrite <-(identity_validate_same t n) by (by apply rewrite_step_identity).
Qed.

(** A measure every rewrite but a replay decreases. *)
Definition rewrite_weight (t : Transaction) : N :=
  (9 - phase_order (tx_phase t)) * (2 * (u32_max + 1))
  + (if tx_candidate_rejection_required t then 0 else u32_max + 1)
  + (u32_max - tx_rollback_health_failures t).

Lemma rewrite_weight_decreases t n :
  rewrite_step t n → n ≠ t → (rewrite_weight n < rewrite_weight t)%N.
Proof.
  unfold rewrite_weight.
  intros [|p He Hev|Hc|Hp Hr|Hp Hle] Hne; simpl in *; [done|..].
  - apply phase_edge_increases in He. pose proof (phase_order_bound p).
    assert (9 - phase_order p + 1 ≤ 9 - phase_order (tx_phase t))%N by lia. nia.
  - rewrite Hc. simpl. lia.
  - rewrite Hr. lia.
  - lia.
Qed.

(** C40. The journal of one transaction can be rewritten only finitely often: every rewrite
    that is not an identical replay moves down a well-founded order. *)
Theorem journal_rewrites_terminate :
  well_founded (λ n t, permits_replacement t n = true ∧ n ≠ t).
Proof.
  apply (wf_projected N.lt rewrite_weight); [|apply N.lt_wf_0].
  intros n t [Hp Hne]. apply rewrite_weight_decreases; [|done].
  by apply permits_replacement_sound.
Qed.

(** A rollback cannot reach the restored predecessor without first recording the failed
    candidate's compensation: every journal history from a forward (or freshly planned)
    phase to [Restored] or beyond passes through [CandidateCompensated]. *)
Lemma rollback_never_skips_compensation t0 tn :
  rtc (λ t n, permits_replacement t n = true) t0 tn →
  (phase_order (tx_phase t0) < phase_order CandidateCompensated)%N →
  (phase_order CandidateCompensated < phase_order (tx_phase tn))%N →
  ∃ tc, tx_phase tc = CandidateCompensated
        ∧ rtc (λ t n, permits_replacement t n = true) t0 tc
        ∧ rtc (λ t n, permits_replacement t n = true) tc tn.
Proof.
  induction 1 as [t|t u tn Hstep Hrest IH]; [lia|]. intros Hlo Hhi.
  destruct (decide (tx_phase u = CandidateCompensated)) as [Hu|Hu].
  { exists u. split; [done|]. split; [by apply rtc_once|done]. }
  destruct IH as (tc & Hc & ? & ?); [|done|exists tc; eauto using rtc_l].
  apply permits_replacement_sound in Hstep.
  destruct Hstep as [|p He Hev|Hc|Hp Hr|Hp Hle]; simpl in *; try done.
  destruct (tx_phase t), p; simpl in *; try done; lia.
Qed.

(** A rejection verdict is never forgotten by a rewrite and never coexists with a
    commit: it is monotone along every history, and a valid journal at [Prepared],
    [Verified] or [Committed] carries none. *)
Lemma rejection_verdict_monotone t n :
  permits_replacement t n = true → tx_candidate_rejection_required t = true →
  Transaction_validate t = Ok tt →
  tx_candidate_rejection_required n = true
  ∧ tx_phase n ≠ Verified ∧ tx_phase n ≠ Committed ∧ tx_phase n ≠ Prepared.
Proof.
  intros Hp%permits_replacement_sound Hr Hv.
  apply Transaction_validate_Ok in Hv as [_ Hev].
  assert (tx_candidate_rejection_required n = true) as Hn by (destruct Hp; simpl in *; congruence).
  split; [done|]. apply (rewrite_step_evidence t n) in Hev; [|done].
  unfold phase_evidence_is_valid, evidence_possible in Hev. rewrite Hn in Hev.
  by destruct (tx_phase n).
Qed.

(** ** Progress of a rollback *)

(** The next phase of the rollback path. *)
Definition next_rollback_phase (p : Phase) : Phase :=
  match p with
  | RollbackPlanned => CandidateCompensated
  | CandidateCompensated => Restored
  | Restored => RollbackVerified
  | _ => RolledBack
  end.

Lemma rollback_advance t :
  is_rollback t = true → tx_phase t ≠ RolledBack → phase_evidence_is_valid t = true →
  advance (next_rollback_phase (tx_phase t)) t
  = Ok (set_phase (next_rollback_phase (tx_phase t)) t).
Proof.
  intros Hr Hne Hev. apply advance_Ok. split_and!; [|..|done].
  - by destruct t as [? ? ? ? ? ? ? ? ? ? ? ? []].
  - unfold phase_evidence_is_valid, evidence_possible in *.
    destruct t as [? ? ? ? ? ? ? ? b ? ? n ph]; simpl in *.
    by destruct (n =? 0)%N, (n <=? u32_max)%N, b, ph.
Qed.

(** A rollback is never stuck: from any valid journal on the rollback path the phase
    machine itself leads to [RolledBack], changing nothing but the phase. *)
Lemma rollback_can_finish t :
  is_rollback t = true → phase_evidence_is_valid t = true →
  rtc (λ t n, ∃ p, advance p t = Ok n) t (set_phase RolledBack t).
Proof.
  intros Hr Hev.
  assert (Hstep : ∀ u, is_rollback u = true → phase_evidence_is_valid u = true →
            tx_phase u ≠ RolledBack →
            ∃ v, (∃ p, advance p u = Ok v) ∧ is_rollback v = true
                 ∧ phase_evidence_is_valid v = true
                 ∧ (phase_order (tx_phase u) < phase_order (tx_phase v))%N
                 ∧ set_phase RolledBack v = set_phase RolledBack u).
  { intros u Hru Hevu Hneu. pose proof (rollback_advance u Hru Hneu Hevu) as Ha.
    eexists. split; [by eexists|]. apply advance_Ok in Ha as (He & Hev' & _).
    split_and!; [by destruct u as [? ? ? ? ? ? ? ? ? ? ? ? []] |done|..|done].
    by apply phase_edge_increases. }
  revert Hr Hev.
  induction t as [t IH] using (well_founded_induction
    (wf_projected N.lt (λ t, 9 - phase_order (tx_phase t))%N (λ _ _, id) N.lt_wf_0)).
  intros Hr Hev. destruct (decide (tx_phase t = RolledBack)) as [He|Hne].
  { replace (set_phase RolledBack t) with t by (rewrite <-He; by destruct t). done. }
  destruct (Hstep t Hr Hev Hne) as (v & Ha & Hrv & Hevv & Hlt & Heq).
  eapply rtc_l; [done|]. rewrite <-Heq. apply IH; [|done|done].
  pose proof (phase_order_bound (tx_phase v)). lia.
Qed.

End history.
