(* ===== verification/Install.v ===== *)
(** * Install: the durable first-install transaction

    Models [updated/src/install.rs]: the forward-only install journal, its rewrite rule and
    its recovery classifier. *)
From S2P Require Import Prelude Identity State.

Inductive InstallPhase : Type := Started | InstallPrepared | Placed | InstallCommitted.

#[export] Instance InstallPhase_eq_dec : EqDecision InstallPhase.
Proof. solve_decision. Defined.

Record InstallTransaction : Type := mkInstallTransaction {
  it_id : string;
  it_release : ReleaseId;
  it_archive_sha256 : string;
  it_repository_lineage : RepositoryLineage;
  it_reconciler : ReconcilerRelease;
  it_phase : InstallPhase;
}.

#[export] Instance InstallTransaction_eq_dec : EqDecision InstallTransaction.
Proof. solve_decision. Defined.

Definition set_install_phase (p : InstallPhase) (t : InstallTransaction) : InstallTransaction :=
  mkInstallTransaction (it_id t) (it_release t) (it_archive_sha256 t) (it_repository_lineage t)
    (it_reconciler t) p.

Definition InstallTransaction_validate `{Semver} (t : InstallTransaction) : result unit :=
  _ ← ensure (is_token (it_id t)) InvalidData "install transaction id is invalid";
  _ ← ReleaseId_validate (it_release t);
  _ ← ensure (is_canonical_sha256 (it_archive_sha256 t)) InvalidData
        "install transaction archive identity is invalid";
  _ ← ensure (lineage_validate (it_repository_lineage t)) InvalidData
        "install transaction repository lineage is invalid";
  ensure (reconciler_is_valid (it_reconciler t)) InvalidData
    "install transaction reconciler identity is invalid".

Definition install_edge (p next : InstallPhase) : bool :=
  match p, next with
  | Started, InstallPrepared | InstallPrepared, Placed | Placed, InstallCommitted => true
  | _, _ => false
  end.

Definition install_advance (next : InstallPhase) (t : InstallTransaction)
    : result InstallTransaction :=
  if negb (install_edge (it_phase t) next)
  then Err (IoError InvalidInput "invalid install phase")
  else Ok (set_install_phase next t).

Definition install_permits_replacement (t next : InstallTransaction) : bool :=
  if bool_decide (t = next) then true
  else match install_advance (it_phase next) t with
       | Ok advanced => bool_decide (advanced = next)
       | Err _ => false
       end.

Definition matches_installed (t : InstallTransaction) (s : InstalledState) : bool :=
  bool_decide (it_release t = st_release s)
  && bool_decide (it_archive_sha256 t = st_archive_sha256 s)
  && bool_decide (it_repository_lineage t = st_repository_lineage s)
  && bool_decide (it_reconciler t = st_reconciler s).

Inductive InstallRecovery : Type := InstallRecoveryCommitted | InstallResume.

Definition classify_install_recovery (t : InstallTransaction) (installed : option InstalledState)
    : InstallRecovery :=
  match installed with
  | Some s => if matches_installed t s then InstallRecoveryCommitted else InstallResume
  | None => InstallResume
  end.

(** ** Lemmas *)

Lemma install_permits_replacement_spec t n :
  install_permits_replacement t n = true ↔
  n = t ∨ ∃ p, install_edge (it_phase t) p = true ∧ n = set_install_phase p t.
Proof.
  unfold install_permits_replacement, install_advance.
  case_bool_decide as Heq; [naive_solver|].
  destruct (install_edge (it_phase t) (it_phase n)) eqn:He; simpl.
  - rewrite bool_decide_eq_true. split.
    + intros Hn. right. exists (it_phase n). by rewrite <-Hn at 2.
    + intros [->|(p & Hp & ->)]; done.
  - split; [done|]. intros [->|(p & Hp & ->)]; [done|]. simpl in *. congruence.
Qed.

Lemma install_permits_replacement_valid `{Semver} t n :
  install_permits_replacement t n = true →
  InstallTransaction_validate t = Ok tt → InstallTransaction_validate n = Ok tt.
Proof. rewrite install_permits_replacement_spec. by intros [->|(p & _ & ->)]. Qed.
