(* ===== verification/World.v ===== *)
(** * World: files, process memory, faults and the effect monad

    The agent's durable state is a handful of files, each replaced atomically through
    [foundation/src/durable.rs] and read back through [foundation/src/file.rs].  This file
    models those primitives over a finite map of file contents, together with the process
    memory a crash loses and an environment that decides, at every I/O call, whether the
    call succeeds, fails before or after its effect landed, or the process dies before or
    after it.  Every program theorem quantifies over the environment, so it covers every
    interleaving of faults and crashes. *)
From S2P Require Import Prelude.

(** ** Files *)

(** The durable files of one installation ([updated/src/config.rs], [Paths]). *)
Inductive path : Type :=
| PInstalled
| PHistory
| PJournal
| PInstallJournal
| PActive
| PRejected.

#[export] Instance path_eq_dec : EqDecision path.
Proof. solve_decision. Defined.

#[export] Instance path_countable : Countable path.
Proof.
  refine (inj_countable'
    (λ p, match p with
          | PInstalled => 0 | PHistory => 1 | PJournal => 2
          | PInstallJournal => 3 | PActive => 4 | PRejected => 5 end)
    (λ n, match n with
          | 0 => PInstalled | 1 => PHistory | 2 => PJournal
          | 3 => PInstallJournal | 4 => PActive | _ => PRejected end) _).
  by intros [].
Defined.

Abbreviation Disk := (gmap path string).

(** ** Process memory *)

(** [Rejections] of [updated/src/reject.rs]: the [BTreeSet] as its ascending key sequence. *)
Record Rejections : Type := mkRejections {
  hashes : list string;
  dirty : bool;
}.

(** ** The environment *)

(** Operating-system failures, with the [ErrorKind] Rust gives each. *)
Inductive os_error : Type := EIO | ENOSPC | EROFS | EACCES | EBUSY.

Definition os_kind (e : os_error) : ErrorKind :=
  match e with
  | EIO => Uncategorized
  | ENOSPC => StorageFull
  | EROFS => ReadOnlyFilesystem
  | EACCES => PermissionDenied
  | EBUSY => ResourceBusy
  end.

(** What one I/O call meets.  [FailsAfter] is the post-rename or post-unlink failure the
    code calls [Unsynced]: the effect is visible and the call reports an error. *)
Inductive fault : Type :=
| Healthy
| Fails (e : os_error)
| FailsAfter (e : os_error)
| Dies
| DiesAfter.

(** What one reconciler mutation answers: success with its host action, evidence against the
    release, a fault of the invocation itself, or the death of the agent meanwhile. *)
Inductive hook_answer : Type :=
| HookOk (reboot : bool)
| HookReleaseFault (k : ErrorKind)
| HookInconclusive (k : ErrorKind)
| HookDies.

(** What one health probe answers. *)
Inductive probe : Type :=
| ProbeOk
| ProbeReleaseFault
| ProbeInconclusive.

(** Each list is consumed in order, one element per use; an exhausted list means no fault, a
    successful hook, a gate whose probes all succeed, time zero, no token and no retry respectively.  A
    gate lists the probes that complete within its grace, or is the agent's death. *)
Record Env : Type := mkEnv {
  faults : list fault;
  hooks : list hook_answer;
  gates : list (option (list probe));
  clock : list N;
  tokens : list string;
  patience : list nat;
  intact : string → bool;
}.

Record world : Type := World {
  disk : Disk;
  proc : Rejections;
  env : Env;
}.

(** ** The effect monad *)

Inductive outcome (A : Type) : Type :=
| Done (a : A)
| Failed (e : io_error)
| Died.
Arguments Done {A} _.
Arguments Failed {A} _.
Arguments Died {A}.

Definition M (A : Type) : Type := world → outcome A * world.

#[export] Instance M_ret : MRet M := λ A a w, (Done a, w).
#[export] Instance M_bind : MBind M := λ A B f m w,
  match m w with
  | (Done a, w') => f a w'
  | (Failed e, w') => (Failed e, w')
  | (Died, w') => (Died, w')
  end.

Definition throw {A} (e : io_error) : M A := λ w, (Failed e, w).

(** [?] on a pure result. *)
Definition lift {A} (r : result A) : M A :=
  match r with Ok a => mret a | Err e => throw e end.

(** Observe a call's [Result] instead of propagating its error; a death is not an error. *)
Definition attempt {A} (m : M A) : M (result A) := λ w,
  match m w with
  | (Done a, w') => (Done (Ok a), w')
  | (Failed e, w') => (Done (Err e), w')
  | (Died, w') => (Died, w')
  end.

Definition get_proc : M Rejections := λ w, (Done (proc w), w).
Definition put_proc (p : Rejections) : M unit := λ w, (Done tt, World (disk w) p (env w)).

Definition get_env : M Env := λ w, (Done (env w), w).

(** ** I/O primitives *)

Definition set_faults (fs : list fault) (e : Env) : Env :=
  mkEnv fs (hooks e) (gates e) (clock e) (tokens e) (patience e) (intact e).
Definition set_hooks (hs : list hook_answer) (e : Env) : Env :=
  mkEnv (faults e) hs (gates e) (clock e) (tokens e) (patience e) (intact e).
Definition set_gates (gs : list (option (list probe))) (e : Env) : Env :=
  mkEnv (faults e) (hooks e) gs (clock e) (tokens e) (patience e) (intact e).
Definition set_clock (cs : list N) (e : Env) : Env :=
  mkEnv (faults e) (hooks e) (gates e) cs (tokens e) (patience e) (intact e).
Definition set_tokens (ts : list string) (e : Env) : Env :=
  mkEnv (faults e) (hooks e) (gates e) (clock e) ts (patience e) (intact e).
Definition set_patience (ns : list nat) (e : Env) : Env :=
  mkEnv (faults e) (hooks e) (gates e) (clock e) (tokens e) ns (intact e).

(** Consume the environment's decision for one I/O call. *)
Definition next_fault : M fault := λ w,
  match faults (env w) with
  | [] => (Done Healthy, w)
  | f :: fs => (Done f, World (disk w) (proc w) (set_faults fs (env w)))
  end.

(** The other decisions of the environment. *)
Definition next_hook : M hook_answer := λ w,
  match hooks (env w) with
  | [] => (Done (HookOk false), w)
  | HookDies :: hs => (Died, World (disk w) (proc w) (set_hooks hs (env w)))
  | h :: hs => (Done h, World (disk w) (proc w) (set_hooks hs (env w)))
  end.

(** [need] successes pass an undisturbed gate. *)
Definition next_gate (need : nat) : M (list probe) := λ w,
  match gates (env w) with
  | [] => (Done (repeat ProbeOk need), w)
  | None :: gs => (Died, World (disk w) (proc w) (set_gates gs (env w)))
  | Some ps :: gs => (Done ps, World (disk w) (proc w) (set_gates gs (env w)))
  end.

Definition now_unix : M N := λ w,
  match clock (env w) with
  | [] => (Done 0%N, w)
  | t :: ts => (Done t, World (disk w) (proc w) (set_clock ts (env w)))
  end.

(** [updated::rand::token] *)
Definition token : M string := λ w,
  match tokens (env w) with
  | [] => (Failed (IoError Other "randomness"), w)
  | t :: ts => (Done t, World (disk w) (proc w) (set_tokens ts (env w)))
  end.

(** How many retries a retry loop has before its deadline or a stop request. *)
Definition next_patience : M nat := λ w,
  match patience (env w) with
  | [] => (Done 0, w)
  | n :: ns => (Done n, World (disk w) (proc w) (set_patience ns (env w)))
  end.

Definition os_fail {A} (e : os_error) : M A := throw (IoError (os_kind e) "os error").
Definition die {A} : M A := λ w, (Died, w).

Definition get_disk : M Disk := λ w, (Done (disk w), w).
Definition put_disk (d : Disk) : M unit := λ w, (Done tt, World d (proc w) (env w)).

(** [foundation::file::read_bounded_regular]. *)
Definition read_bounded_regular (p : path) (limit : N) : M string :=
  f ← next_fault;
  match f with
  | Fails e | FailsAfter e => os_fail e
  | Dies | DiesAfter => die
  | Healthy =>
      d ← get_disk;
      match d !! p with
      | None => throw (IoError NotFound "no such file")
      | Some bytes =>
          if (limit <? str_len bytes)%N
          then throw (IoError InvalidData "file exceeds its size limit")
          else mret bytes
      end
  end.

(** One durable change of the disk, under the environment's decision. *)
Definition durable_change (change : Disk → Disk) : M unit :=
  f ← next_fault;
  d ← get_disk;
  match f with
  | Healthy => put_disk (change d)
  | Fails e => os_fail e
  | FailsAfter e => _ ← put_disk (change d); os_fail e
  | Dies => die
  | DiesAfter => _ ← put_disk (change d); die
  end.

(** [foundation::durable::atomic_write_managed]: write a sibling temporary, rename it over
    [p], synchronise the directory.  The rename is the single point at which the new
    contents become visible. *)
Definition atomic_write_managed (p : path) (data : string) : M unit :=
  durable_change (insert p data).

(** [foundation::durable::remove_file]; an absent file is success. *)
Definition remove_file (p : path) : M unit := durable_change (delete p).

(** ** Program logic

    [wp m Q E C w]: running [m] from [w] satisfies [Q] when it returns, [E] when it returns
    an error, and [C] of the remaining disk when the process dies. *)

Definition wp {A} (m : M A) (Q : A → world → Prop) (E : io_error → world → Prop)
    (C : Disk → Prop) (w : world) : Prop :=
  match m w with
  | (Done a, w') => Q a w'
  | (Failed e, w') => E e w'
  | (Died, w') => C (disk w')
  end.

Section rules.
Context {A B : Type}.
Implicit Types (Q : A → world → Prop) (E : io_error → world → Prop) (C : Disk → Prop).

Lemma wp_bind (m : M B) (f : B → M A) Q E C w :
  wp m (λ b, wp (f b) Q E C) E C w → wp (m ≫= f) Q E C w.
Proof. unfold wp, mbind, M_bind. by destruct (m w) as [[] ?]. Qed.

Lemma wp_ret (a : A) Q E C w : Q a w → wp (mret a) Q E C w.
Proof. done. Qed.

Lemma wp_throw e Q E C w : E e w → wp (throw (A:=A) e) Q E C w.
Proof. done. Qed.

Lemma wp_lift (r : result A) Q E C w :
  match r with Ok a => Q a w | Err e => E e w end → wp (lift r) Q E C w.
Proof. by destruct r. Qed.

Lemma wp_mono (m : M A) Q Q' E E' (C C' : Disk → Prop) w :
  wp m Q E C w →
  (∀ a w', Q a w' → Q' a w') → (∀ e w', E e w' → E' e w') → (∀ d, C d → C' d) →
  wp m Q' E' C' w.
Proof. unfold wp. destruct (m w) as [[] ?]; eauto. Qed.

Lemma wp_attempt (m : M A) (Q : result A → world → Prop) E C w :
  wp m (λ a, Q (Ok a)) (λ e, Q (Err e)) C w → wp (attempt m) Q E C w.
Proof. unfold wp, attempt. destruct (m w) as [[] ?]; done. Qed.

End rules.

(** A read-only program whose returned value is determined, as [view] says, by the disk and
    the process memory. *)
Definition reads {A} (m : M A) (view : Disk → Rejections → A → Prop) : Prop :=
  ∀ d p e, ∃ e', (m (World d p e)).2 = World d p e'
                 ∧ ∀ a, (m (World d p e)).1 = Done a → view d p a.

Lemma reads_mono {A} (m : M A) (v v' : Disk → Rejections → A → Prop) :
  reads m v → (∀ d p a, v d p a → v' d p a) → reads m v'.
Proof. intros Hm Hv d p e. destruct (Hm d p e) as (e' & ? & ?). eauto. Qed.

Lemma reads_ret {A} (a : A) : reads (mret a) (λ _ _ b, b = a).
Proof. intros d p e. exists e. split; [done|]. by intros b [= <-]. Qed.

Lemma reads_throw {A} err (v : Disk → Rejections → A → Prop) : reads (throw err) v.
Proof. intros d p e. exists e. by split. Qed.

Lemma reads_lift {A} (r : result A) : reads (lift r) (λ _ _ a, r = Ok a).
Proof. destruct r as [a|er]; intros d p e; exists e; (split; [done|]); [by intros ? [= <-] | done]. Qed.

Lemma reads_bind {A B} (m : M A) (f : A → M B) v1 v2 :
  reads m v1 → (∀ a, reads (f a) (v2 a)) →
  reads (m ≫= f) (λ d p b, ∃ a, v1 d p a ∧ v2 a d p b).
Proof.
  intros Hm Hf d p e. destruct (Hm d p e) as (e1 & Hw & Ha). unfold mbind, M_bind.
  destruct (m (World d p e)) as [[a|er|] w1]; cbn in *; subst; [|by exists e1..].
  destruct (Hf a d p e1) as (e2 & Hw2 & Hb). exists e2. split; [done|]. eauto.
Qed.

Lemma reads_next_fault : reads next_fault (λ _ _ _, True).
Proof. intros d p [[|f fs] ? ? ? ? ? ?]; eexists; split; [done| |done|]; done. Qed.

Lemma wp_reads {A} (m : M A) v (Q : A → world → Prop) E (C : Disk → Prop) d p e :
  reads m v →
  (∀ a e', v d p a → Q a (World d p e')) →
  (∀ er e', E er (World d p e')) →
  C d →
  wp m Q E C (World d p e).
Proof.
  intros Hr HQ HE HC. destruct (Hr d p e) as (e' & Hw & Ha). unfold wp.
  destruct (m (World d p e)) as [[a|er|] w']; cbn in *; subst; eauto.
Qed.

(** The value of a bounded read. *)
Definition file_view (p : path) (limit : N) (d : Disk) : result string :=
  match d !! p with
  | None => Err (IoError NotFound "no such file")
  | Some bytes =>
      if (limit <? str_len bytes)%N
      then Err (IoError InvalidData "file exceeds its size limit")
      else Ok bytes
  end.

(** A bounded read either meets a fault or returns the file's view. *)
Lemma read_bounded_regular_cases p limit d pr e :
  ∃ e', (∃ k, read_bounded_regular p limit (World d pr e)
              = (Failed (IoError (os_kind k) "os error"), World d pr e'))
        ∨ read_bounded_regular p limit (World d pr e) = (Died, World d pr e')
        ∨ read_bounded_regular p limit (World d pr e) = (lift (file_view p limit d) (World d pr e')).
Proof.
  unfold read_bounded_regular, next_fault, file_view, mbind, M_bind. cbn.
  destruct (faults e) as [|[|k|k| |] fs]; cbn; eexists.
  all: try (right; right; by repeat case_match).
  all: first [by left; exists k | by right; left].
Qed.

(** Durable changes: the disk is either untouched or changed, whatever the outcome. *)
Lemma wp_durable_change (change : Disk → Disk) Q E (C : Disk → Prop) d p e :
  (∀ e', Q tt (World (change d) p e')) →
  (∀ er e', E er (World d p e')) → (∀ er e', E er (World (change d) p e')) →
  C d → C (change d) →
  wp (durable_change change) Q E C (World d p e).
Proof.
  intros. unfold wp, durable_change, next_fault, mbind, M_bind. cbn.
  destruct (faults e) as [|[|k|k| |] fs]; cbn; eauto.
Qed.

(** A change without faults. *)
Lemma durable_change_quiet change d p e :
  faults e = [] → durable_change change (World d p e) = (Done tt, World (change d) p e).
Proof. intros Hf. unfold durable_change, next_fault, mbind, M_bind. cbn. by rewrite Hf. Qed.

(** ** Exact evaluation

    [evals m d p r]: a read-only program either meets a fault of the environment, leaving
    disk and memory alone, or behaves as the pure result [r]; without faults it does the
    latter.  [changes m d p g d']: a program that, besides the same faults, fails without
    effect when the guard [g] is false, and makes the one change to [d'] when it is true;
    without faults it then returns. *)

Definition quiet (e : Env) : Prop := faults e = [].

Definition faulted {A} (out : outcome A * world) (d : Disk) (p : Rejections) : Prop :=
  ∃ e', (∃ k, out = (Failed (IoError (os_kind k) "os error"), World d p e'))
        ∨ out = (Died, World d p e').

Definition evals {A} (m : M A) (d : Disk) (p : Rejections) (r : result A) : Prop :=
  ∀ e, (∃ e', (quiet e → e' = e) ∧ m (World d p e) = lift r (World d p e'))
       ∨ (¬ quiet e ∧ faulted (m (World d p e)) d p).

Definition changes {A} (m : M A) (d : Disk) (p : Rejections) (g : bool) (d' : Disk) (a : A)
    : Prop :=
  ∀ e, (∃ e', (quiet e → e' = e)
              ∧ if g then m (World d p e) = (Done a, World d' p e')
                else ∃ er, m (World d p e) = (Failed er, World d p e'))
       ∨ (¬ quiet e ∧ (faulted (m (World d p e)) d p
                       ∨ g = true ∧ faulted (m (World d p e)) d' p)).

Section exact.
Context {A B : Type} (d : Disk) (p : Rejections).

Lemma evals_lift (r : result A) : evals (lift r) d p r.
Proof. intros e. left. by exists e. Qed.

Lemma evals_ret (a : A) : evals (mret a) d p (Ok a).
Proof. apply (evals_lift (Ok a)). Qed.

Lemma evals_throw er : evals (throw (A:=A) er) d p (Err er).
Proof. apply (evals_lift (Err er)). Qed.

Lemma evals_get_proc : evals get_proc d p (Ok p).
Proof. intros e. left. by exists e. Qed.

Lemma evals_bind (m : M A) (f : A → M B) r s :
  evals m d p r → (∀ a, r = Ok a → evals (f a) d p (s a)) → evals (m ≫= f) d p (r ≫= s).
Proof.
  intros Hm Hf e. unfold mbind, M_bind.
  destruct (Hm e) as [(e1 & Hq1 & ->)|(Hq & e1 & [[k ->]| ->])].
  - destruct r as [a|er]; simpl; [|left; by exists e1].
    destruct (Hf a eq_refl e1) as [(e2 & Hq2 & Hfa)|(Hq & Hfa)].
    + left. exists e2. split; [|exact Hfa]. intros Hq. rewrite Hq1 in Hq2 by done. auto.
    + right. split; [|exact Hfa]. intros Hqe. by rewrite Hq1 in Hq.
  - right. split; [done|]. exists e1. left. by exists k.
  - right. split; [done|]. exists e1. by right.
Qed.

Lemma evals_bind_ok (m : M A) (f : A → M B) a s :
  evals m d p (Ok a) → evals (f a) d p s → evals (m ≫= f) d p s.
Proof.
  intros Hm Hf. apply (evals_bind m f (Ok a) (λ _, s)); [done|]. by intros ? [= <-].
Qed.

Lemma evals_bind_err (m : M A) (f : A → M B) er :
  evals m d p (Err er) → evals (m ≫= f) d p (Err er).
Proof. intros Hm. by apply (evals_bind m f (Err er) (λ _, Err er)). Qed.

Lemma evals_attempt (m : M A) r :
  evals m d p r →
  ∀ e, (∃ e', (quiet e → e' = e) ∧ attempt m (World d p e) = (Done r, World d p e'))
       ∨ (¬ quiet e ∧ ((∃ e' k, attempt m (World d p e)
                                = (Done (Err (IoError (os_kind k) "os error")), World d p e'))
                       ∨ ∃ e', attempt m (World d p e) = (Died, World d p e'))).
Proof.
  intros Hm e. unfold attempt.
  destruct (Hm e) as [(e1 & Hq1 & ->)|(Hq & e1 & [[k ->]| ->])].
  - left. exists e1. by destruct r.
  - right. split; [done|]. left. by exists e1, k.
  - right. split; [done|]. right. by exists e1.
Qed.

Lemma changes_throw er d' (a : A) : changes (throw er) d p false d' a.
Proof. intros e. left. exists e. split; [done|]. by exists er. Qed.

Lemma changes_bind_ok (m : M B) (f : B → M A) b g d' a :
  evals m d p (Ok b) → changes (f b) d p g d' a → changes (m ≫= f) d p g d' a.
Proof.
  intros Hm Hf e. unfold mbind, M_bind.
  destruct (Hm e) as [(e1 & Hq1 & ->)|(Hq & e1 & [[k ->]| ->])]; simpl.
  - destruct (Hf e1) as [(e2 & Hq2 & Hfa)|(Hq & Hfa)].
    + left. exists e2. split; [|exact Hfa]. intros Hq. rewrite Hq1 in Hq2 by done. auto.
    + right. split; [|exact Hfa]. intros Hqe. by rewrite Hq1 in Hq.
  - right. split; [done|]. left. exists e1. left. by exists k.
  - right. split; [done|]. left. exists e1. by right.
Qed.

Lemma changes_bind_err (m : M B) (f : B → M A) er d' a :
  evals m d p (Err er) → changes (m ≫= f) d p false d' a.
Proof.
  intros Hm e. unfold mbind, M_bind.
  destruct (Hm e) as [(e1 & Hq1 & ->)|(Hq & e1 & [[k ->]| ->])]; simpl.
  - left. exists e1. split; [done|]. by exists er.
  - right. split; [done|]. left. exists e1. left. by exists k.
  - right. split; [done|]. left. exists e1. by right.
Qed.

End exact.

(** A guard followed by the guarded change. *)
Lemma changes_guard {A} d p (m : M unit) (f : unit → M A) r g d' a :
  evals m d p r → changes (f tt) d p g d' a → changes (m ≫= f) d p (is_ok r && g) d' a.
Proof.
  destruct r as [[]|er]; simpl; [apply changes_bind_ok|]. intros ? _. by eapply changes_bind_err.
Qed.


Lemma changes_durable_change d p (c : Disk → Disk) :
  changes (durable_change c) d p true (c d) tt.
Proof.
  intros e. unfold durable_change, next_fault, mbind, M_bind, quiet, faulted. cbn.
  destruct (faults e) as [|[|k|k| |] fs] eqn:Hf; cbn.
  - left. by exists e.
  - left. eexists. split; [|done]. done.
  - right. split; [done|]. left. eexists. left. by exists k.
  - right. split; [done|]. right. split; [done|]. eexists. left. by exists k.
  - right. split; [done|]. left. eexists. by right.
  - right. split; [done|]. right. split; [done|]. eexists. by right.
Qed.

Lemma read_bounded_regular_evals p limit d pr :
  evals (read_bounded_regular p limit) d pr (file_view p limit d).
Proof.
  intros e. unfold read_bounded_regular, next_fault, file_view, mbind, M_bind, quiet, faulted. cbn.
  destruct (faults e) as [|[|k|k| |] fs] eqn:Hf; cbn.
  - left. exists e. split; [done|]. by repeat case_match.
  - left. exists (set_faults fs e). split; [done|]. by repeat case_match.
  - right. split; [done|]. eexists. left. by exists k.
  - right. split; [done|]. eexists. left. by exists k.
  - right. split; [done|]. eexists. by right.
  - right. split; [done|]. eexists. by right.
Qed.

(** Observing an evaluated read: an operating-system failure is none of the outcomes the
    code distinguishes by kind, so a match that propagates every other error evaluates. *)
Lemma evals_attempt_bind {A B} (m : M A) (f : result A → M B) d p r s :
  evals m d p r → evals (f r) d p s →
  (∀ k, f (Err (IoError (os_kind k) "os error")) = throw (IoError (os_kind k) "os error")) →
  evals (attempt m ≫= f) d p s.
Proof.
  intros Hm Hf Hk e. unfold mbind, M_bind.
  destruct (evals_attempt d p m r Hm e) as [(e1 & Hq1 & ->)|(Hq & [(e1 & k & ->)|(e1 & ->)])].
  - destruct (Hf e1) as [(e2 & Hq2 & Hfa)|(Hq & Hfa)].
    + left. exists e2. split; [|exact Hfa]. intros Hq. rewrite Hq1 in Hq2 by done. auto.
    + right. split; [|exact Hfa]. intros Hqe. by rewrite Hq1 in Hq.
  - right. split; [done|]. rewrite Hk. exists e1. left. by exists k.
  - right. split; [done|]. exists e1. by right.
Qed.

(** A check: a unit program that passes exactly when [b], whatever its error text. *)
Definition checks (m : M unit) (d : Disk) (p : Rejections) (b : bool) : Prop :=
  ∃ r, is_ok r = b ∧ evals m d p r.

Section checks.
Context (d : Disk) (p : Rejections).

Lemma checks_ret : checks (mret tt) d p true.
Proof. exists (Ok tt). split; [done|]. apply evals_ret. Qed.

Lemma checks_throw e : checks (throw e) d p false.
Proof. exists (Err e). split; [done|]. apply evals_throw. Qed.

Lemma checks_lift r : checks (lift r) d p (is_ok r).
Proof. exists r. split; [done|]. apply evals_lift. Qed.

Lemma checks_ensure b k msg : checks (lift (ensure b k msg)) d p b.
Proof. exists (ensure b k msg). split; [by destruct b|]. apply evals_lift. Qed.

Lemma checks_bool (g : M bool) b e :
  evals g d p (Ok b) →
  checks (g ≫= λ ok : bool, if ok then mret tt else throw e) d p b.
Proof.
  intros Hg. exists (if b then Ok tt else Err e). split; [by destruct b|].
  eapply evals_bind_ok; [exact Hg|]. destruct b; [apply evals_ret|apply evals_throw].
Qed.

Lemma checks_read {A} (g : M A) (f : A → M unit) a b :
  evals g d p (Ok a) → checks (f a) d p b → checks (g ≫= f) d p b.
Proof. intros Hg (r & <- & Hf). exists r. split; [done|]. by eapply evals_bind_ok. Qed.

Lemma checks_bind (m : M unit) (f : unit → M unit) b c :
  checks m d p b → checks (f tt) d p c → checks (m ≫= f) d p (b && c).
Proof.
  intros ([[]|e] & <- & Hm) (s & <- & Hf).
  - exists s. split; [done|]. by eapply evals_bind_ok.
  - exists (Err e). split; [done|]. by apply evals_bind_err.
Qed.

Lemma changes_check {A} (m : M unit) (f : unit → M A) b g d' a :
  checks m d p b → changes (f tt) d p g d' a → changes (m ≫= f) d p (b && g) d' a.
Proof. intros (r & <- & Hm) Hf. by apply changes_guard. Qed.

Lemma changes_eq {A} (m : M A) g g' d' d'' a :
  changes m d p g d' a → g = g' → (g = true → d' = d'') → changes m d p g' d'' a.
Proof.
  intros Hm <- Hd. destruct g; [by rewrite <-Hd|]. intros e.
  destruct (Hm e) as [?|(? & [?|[? _]])]; [by left|right; split; [done|by left]|done].
Qed.

End checks.
