(* ===== verification/Reject.v ===== *)
(** * Reject: the durable rejection ledger

    Models [updated/src/reject.rs]: the grammar of a rejection key, the text record of
    ascending keys, its strict parser, and the in-memory set that keeps suppressing a key
    when its durable write failed.  The theorems show that the record round-trips, that the
    byte limit can never be what refuses a write, and that a verdict, once recorded, is never
    lost by a fault or a crash. *)
From S2P Require Import Prelude Identity State World.

Definition MAX_REJECTION_KEYS : N := 4096.
Definition MAX_REJECTION_RECORD_BYTES : N := 1048576.

(** ** The byte order of strings *)

Fixpoint str_ltb (a b : string) : bool :=
  match a, b with
  | _, EmptyString => false
  | EmptyString, String _ _ => true
  | String x a, String y b =>
      (N_of_ascii x <? N_of_ascii y)%N || ((N_of_ascii x =? N_of_ascii y)%N && str_ltb a b)
  end.

(** ** Keys *)

Definition is_rejection_key (hash : string) : bool :=
  match split_once ":" hash with
  | Some (lineage, digest) => is_canonical_sha256 lineage && is_canonical_sha256 digest
  | None => false
  end.

Definition digest_key (hash : string) : option string :=
  if is_rejection_key hash then Some hash else None.

(** ** [BTreeSet<String>] as its ascending sequence *)

Fixpoint set_insert (h : string) (l : list string) : list string :=
  match l with
  | [] => [h]
  | x :: l' =>
      if str_ltb h x then h :: l
      else if bool_decide (h = x) then l
      else x :: set_insert h l'
  end.

Definition set_contains (h : string) (l : list string) : bool := bool_decide (h ∈ l).

(** ** Queries *)

Definition is_rejected (r : Rejections) (hash : string) : bool :=
  match digest_key hash with
  | Some h => set_contains h (hashes r)
  | None => false
  end.

Definition is_durably_rejected (r : Rejections) (hash : string) : bool :=
  negb (dirty r) && is_rejected r hash.

(** ** Saving *)

Definition newline : ascii := "010".

(** The record's text: each key followed by a newline, in ascending order. *)
Fixpoint render (l : list string) : string :=
  match l with
  | [] => EmptyString
  | h :: l => String.append h (String newline (render l))
  end.

Definition save : M unit :=
  r ← get_proc;
  let out := render (hashes r) in
  if (MAX_REJECTION_RECORD_BYTES <? str_len out)%N
  then throw (IoError InvalidInput "rejection record exceeds its byte limit")
  else atomic_write_managed PRejected out.

Definition persist : M unit :=
  saved ← attempt save;
  r ← get_proc;
  match saved with
  | Ok _ => put_proc (mkRejections (hashes r) false)
  | Err e => _ ← put_proc (mkRejections (hashes r) true); throw e
  end.

Definition reject (hash : string) : M unit :=
  match digest_key hash with
  | None => throw (IoError InvalidInput "invalid rejection key")
  | Some h =>
      r ← get_proc;
      if set_contains h (hashes r) then
        if dirty r then persist else mret tt
      else if (MAX_REJECTION_KEYS <=? N.of_nat (length (hashes r)))%N then
        throw (IoError InvalidInput "rejection record has reached its key limit")
      else
        _ ← put_proc (mkRejections (set_insert h (hashes r)) (dirty r));
        persist
  end.

(** ** Loading *)

(** [text.strip_suffix('\n')]. *)
Fixpoint strip_newline (s : string) : option string :=
  match s with
  | EmptyString => None
  | String c EmptyString => if decide (c = newline) then Some EmptyString else None
  | String c s => match strip_newline s with Some t => Some (String c t) | None => None end
  end.

(** [body.split('\n')]. *)
Fixpoint split_lines (s : string) : list string :=
  match s with
  | EmptyString => [EmptyString]
  | String c s =>
      if decide (c = newline) then EmptyString :: split_lines s
      else match split_lines s with
           | l :: ls => String c l :: ls
           | [] => [String c EmptyString]
           end
  end.

(** The loop over the record's lines; [acc] is the set built so far. *)
Fixpoint load_lines (acc : list string) (lines : list string) : result (list string) :=
  match lines with
  | [] => Ok acc
  | line :: lines =>
      match digest_key line with
      | None => Err (IoError InvalidData "malformed rejection record: invalid rejection key")
      | Some hash =>
          if match last acc with Some previous => negb (str_ltb previous hash) | None => false end
          then Err (IoError InvalidData
                      "malformed rejection record: keys are duplicated or unsorted")
          else
            let acc := set_insert hash acc in
            if (MAX_REJECTION_KEYS <? N.of_nat (length acc))%N
            then Err (IoError InvalidData "rejection record exceeds its key limit")
            else load_lines acc lines
      end
  end.

Definition parse_record (text : string) : result (list string) :=
  match strip_newline text with
  | None => Err (IoError InvalidData "malformed rejection record: missing final newline")
  | Some EmptyString =>
      Err (IoError InvalidData "malformed rejection record: empty files are not records")
  | Some body => load_lines [] (split_lines body)
  end.

Definition load_record : M (list string) :=
  text ← attempt (read_bounded_regular PRejected MAX_REJECTION_RECORD_BYTES);
  match text with
  | Ok text => lift (parse_record text)
  | Err e => if bool_decide (err_kind e = NotFound) then mret [] else throw e
  end.

(** [Rejections::load], installing the loaded set as the process's ledger. *)
Definition load : M unit :=
  hs ← load_record;
  put_proc (mkRejections hs false).

(** ** Lemmas on the byte order *)

Lemma str_ltb_irrefl a : str_ltb a a = false.
Proof. induction a as [|x a IH]; simpl; [done|]. by rewrite N.ltb_irrefl, N.eqb_refl. Qed.

Lemma str_ltb_trans a b c : str_ltb a b = true → str_ltb b c = true → str_ltb a c = true.
Proof.
  revert b c. induction a as [|x a IH]; intros [|y b] [|z c]; simpl; try done.
  rewrite !orb_true_iff, !andb_true_iff, !N.ltb_lt, !N.eqb_eq.
  intros [?|[? ?]] [?|[? ?]]; [left; lia..|]. right. split; [lia|eauto].
Qed.

Lemma str_ltb_total a b : a ≠ b → str_ltb a b = false → str_ltb b a = true.
Proof.
  revert b. induction a as [|x a IH]; intros [|y b]; simpl; try done.
  rewrite orb_false_iff, andb_false_iff, N.ltb_ge, N.eqb_neq, orb_true_iff, andb_true_iff,
    N.ltb_lt, N.eqb_eq. intros Hne [Hle [Hx|Hlt]].
  - left. lia.
  - destruct (decide (N_of_ascii y < N_of_ascii x)%N) as [|Hge]; [by left|right].
    assert (N_of_ascii x = N_of_ascii y) as Heq by lia. split; [done|].
    apply (f_equal ascii_of_N) in Heq. rewrite !ascii_N_embedding in Heq. subst y.
    apply IH; [congruence|done].
Qed.

(** Strictly ascending sequences. *)
Definition ascending : list string → Prop := StronglySorted (λ a b, str_ltb a b = true).

Lemma set_insert_elem h l x : x ∈ set_insert h l ↔ x = h ∨ x ∈ l.
Proof.
  induction l as [|y l IH]; simpl; [set_solver|].
  repeat case_match; bool_to_prop; set_solver.
Qed.

Lemma set_insert_ascending h l : ascending l → ascending (set_insert h l).
Proof.
  unfold ascending. induction 1 as [|x l Hs IH Hall]; simpl; [by repeat constructor|].
  destruct (str_ltb h x) eqn:Hlt.
  { constructor; [by constructor|]. constructor; [done|].
    eapply Forall_impl; [done|]. eauto using str_ltb_trans. }
  case_bool_decide as Heq; [subst; by constructor|].
  constructor; [done|]. rewrite Forall_forall in *. intros y [->|Hy]%set_insert_elem; [|by auto].
  by apply str_ltb_total.
Qed.

Lemma set_insert_length h l : length (set_insert h l) ≤ S (length l).
Proof. induction l as [|x l IH]; simpl; [done|]. repeat case_match; simpl; lia. Qed.

Lemma set_insert_last h l :
  (∀ x, x ∈ l → str_ltb x h = true) → set_insert h l = l ++ [h].
Proof.
  induction l as [|y l IH]; intros Hl; simpl; [done|].
  assert (str_ltb y h = true) as Hy by (apply Hl; set_solver).
  destruct (str_ltb h y) eqn:Hlt.
  { pose proof (str_ltb_trans _ _ _ Hy Hlt) as Hc. by rewrite str_ltb_irrefl in Hc. }
  case_bool_decide; [subst; by rewrite str_ltb_irrefl in Hy|].
  rewrite IH; [done|]. set_solver.
Qed.

(** ** The text of a key *)

Definition no_newline (s : string) : bool := string_forallb (λ c, bool_decide (c ≠ newline)) s.

Lemma split_once_canonical a b :
  is_canonical_sha256 a = true → split_once ":" (String.append a (String ":" b)) = Some (a, b).
Proof.
  intros [_ Hh]%andb_true_iff. apply split_once_app. revert Hh. apply string_forallb_impl.
  intros c Hc. apply negb_true_iff, bool_decide_eq_false. by intros ->.
Qed.

Lemma canonical_shape s :
  is_canonical_sha256 s = true → str_len s = 64%N ∧ no_newline s = true.
Proof.
  unfold is_canonical_sha256, no_newline. intros [Hl%Nat.eqb_eq Hh]%andb_true_iff.
  rewrite str_len_length, Hl. split; [done|]. revert Hh. apply string_forallb_impl.
  intros c Hc. apply bool_decide_eq_true. by intros ->.
Qed.

Lemma rejection_key_shape k :
  is_rejection_key k = true → str_len k = 129%N ∧ no_newline k = true.
Proof.
  unfold is_rejection_key. destruct (split_once _ k) as [[a b]|] eqn:Hk; [|done].
  intros [[Ha Ha']%canonical_shape [Hb Hb']%canonical_shape]%andb_true_iff.
  apply split_once_Some in Hk as ->. unfold no_newline in *.
  rewrite str_len_app, string_forallb_app, Ha'. cbn [str_len string_forallb].
  rewrite Ha, Hb, Hb'. done.
Qed.

Lemma render_length l :
  Forall (λ k, is_rejection_key k = true) l → str_len (render l) = (130 * N.of_nat (length l))%N.
Proof.
  induction 1 as [|k l Hk _ IH]; [done|]. cbn [render length].
  rewrite str_len_app. cbn [str_len]. rewrite IH.
  apply rejection_key_shape in Hk as [-> _]. lia.
Qed.

(** ** The record round-trips *)

(** The record's body: keys joined by newlines. *)
Fixpoint join_lines (l : list string) : string :=
  match l with
  | [] => EmptyString
  | [h] => h
  | h :: l => String.append h (String newline (join_lines l))
  end.

Lemma strip_newline_snoc s : strip_newline (String.append s (String newline EmptyString)) = Some s.
Proof.
  induction s as [|c s IH]; [done|].
  change (String.append (String c s) (String newline EmptyString))
    with (String c (String.append s (String newline EmptyString))).
  destruct (String.append s (String newline EmptyString)) as [|d r] eqn:Hs; [by destruct s|].
  change (strip_newline (String c (String d r)))
    with (match strip_newline (String d r) with Some t => Some (String c t) | None => None end).
  by rewrite IH.
Qed.

Lemma render_join h l :
  render (h :: l) = String.append (join_lines (h :: l)) (String newline EmptyString).
Proof.
  revert h. induction l as [|x l IH]; intros h; [done|].
  change (join_lines (h :: x :: l))
    with (String.append h (String newline (join_lines (x :: l)))).
  cbn [render]. cbn [render] in IH. rewrite IH. by rewrite <-append_assoc.
Qed.

Lemma split_lines_no_newline s : no_newline s = true → split_lines s = [s].
Proof.
  induction s as [|c s IH]; [done|]. unfold no_newline. cbn -[newline].
  intros [Hc Hs]%andb_true_iff. bool_to_prop. rewrite decide_False by done. by rewrite IH.
Qed.

Lemma split_lines_cons h s :
  no_newline h = true → split_lines (String.append h (String newline s)) = h :: split_lines s.
Proof.
  induction h as [|c h IH]; [done|]. unfold no_newline. cbn -[newline].
  intros [Hc Hs]%andb_true_iff. bool_to_prop. rewrite decide_False by done. by rewrite IH.
Qed.

Lemma split_join l :
  l ≠ [] → Forall (λ k, no_newline k = true) l → split_lines (join_lines l) = l.
Proof.
  intros Hne Hl. induction Hl as [|h l Hh Hl IH]; [done|].
  destruct l as [|x l]; [by apply split_lines_no_newline|].
  change (join_lines (h :: x :: l))
    with (String.append h (String newline (join_lines (x :: l)))).
  rewrite split_lines_cons by done. by rewrite IH.
Qed.

Lemma digest_key_Some k h : digest_key k = Some h ↔ is_rejection_key k = true ∧ h = k.
Proof. unfold digest_key. destruct (is_rejection_key k); naive_solver. Qed.

Lemma load_lines_ascending acc l :
  ascending (acc ++ l) → Forall (λ k, is_rejection_key k = true) l →
  (N.of_nat (length (acc ++ l)) ≤ MAX_REJECTION_KEYS)%N →
  load_lines acc l = Ok (acc ++ l).
Proof.
  intros Hs Hk. revert acc Hs. induction Hk as [|h l Hh Hl IH]; intros acc Hs Hlen; simpl.
  { by rewrite app_nil_r. }
  rewrite (proj2 (digest_key_Some h h)) by done.
  assert (∀ x, x ∈ acc → str_ltb x h = true) as Hlt.
  { intros x Hx. eapply (StronglySorted_app_1_elem_of _ _ _ x h Hs); set_solver. }
  rewrite set_insert_last by done.
  replace (match last acc with Some p => negb (str_ltb p h) | None => false end) with false.
  2:{ destruct (last acc) as [p|] eqn:Hp; [|done]. by rewrite Hlt by (by apply last_Some_elem_of). }
  rewrite (proj2 (N.ltb_ge _ _)).
  2:{ revert Hlen. rewrite !length_app. simpl. lia. }
  rewrite IH; rewrite <-app_assoc; done.
Qed.

(** The ledger's well-formedness: what the in-memory set always satisfies. *)
Definition ledger_ok (l : list string) : Prop :=
  ascending l ∧ Forall (λ k, is_rejection_key k = true) l
  ∧ (N.of_nat (length l) ≤ MAX_REJECTION_KEYS)%N.

Lemma parse_render l : l ≠ [] → ledger_ok l → parse_record (render l) = Ok l.
Proof.
  intros Hne (Hs & Hk & Hlen). destruct l as [|h l]; [done|]. unfold parse_record.
  rewrite render_join, strip_newline_snoc.
  assert (Forall (λ k, no_newline k = true) (h :: l)) as Hnn.
  { eapply Forall_impl; [exact Hk|]. by intros k [_ ?]%rejection_key_shape. }
  pose proof (split_join (h :: l) ltac:(done) Hnn) as Hj.
  destruct (join_lines (h :: l)) as [|c s] eqn:Hjl.
  - injection Hj as <- _. by apply Forall_inv in Hk.
  - rewrite Hj. by apply (load_lines_ascending []).
Qed.

(** ** Durability of a verdict *)

(** What a fresh process would load from [d]. *)
Definition disk_ledger (d : Disk) : result (list string) :=
  match d !! PRejected with
  | None => Ok []
  | Some text =>
      if (MAX_REJECTION_RECORD_BYTES <? str_len text)%N
      then Err (IoError InvalidData "file exceeds its size limit")
      else parse_record text
  end.

(** The live process never knows less than the disk, and exactly as much when not dirty. *)
Definition ledger_inv (d : Disk) (r : Rejections) : Prop :=
  ledger_ok (hashes r)
  ∧ ∃ hs, disk_ledger d = Ok hs ∧ hs ⊆ hashes r ∧ (dirty r = false → hs = hashes r).

Lemma disk_ledger_write d l :
  l ≠ [] → ledger_ok l → disk_ledger (<[PRejected := render l]> d) = Ok l.
Proof.
  intros Hne Hok. unfold disk_ledger. rewrite lookup_insert_eq.
  pose proof Hok as (_ & Hk & Hlen). unfold MAX_REJECTION_KEYS in Hlen.
  rewrite (proj2 (N.ltb_ge _ _)); [by apply parse_render|].
  rewrite render_length by done. unfold MAX_REJECTION_RECORD_BYTES. lia.
Qed.

(** Persisting a grown set [l]: whatever happens, the disk holds the old record or [l]. *)
Lemma wp_persist d r e hs :
  hashes r ≠ [] → ledger_ok (hashes r) → disk_ledger d = Ok hs → hs ⊆ hashes r →
  wp persist
    (λ _ w, ledger_inv (disk w) (proc w) ∧ proc w = mkRejections (hashes r) false
            ∧ disk w = <[PRejected := render (hashes r)]> d)
    (λ _ w, ledger_inv (disk w) (proc w) ∧ proc w = mkRejections (hashes r) true
            ∧ (disk w = d ∨ disk w = <[PRejected := render (hashes r)]> d))
    (λ d', d' = d ∨ d' = <[PRejected := render (hashes r)]> d)
    (World d r e).
Proof.
  intros Hne Hok Hd Hsub. unfold persist. apply wp_bind, wp_attempt. unfold save.
  apply wp_bind. unfold wp at 1. cbn [get_proc proc].
  pose proof Hok as (_ & Hk & Hlen).
  rewrite (proj2 (N.ltb_ge _ _)).
  2:{ rewrite render_length by done. unfold MAX_REJECTION_RECORD_BYTES, MAX_REJECTION_KEYS in *. lia. }
  apply wp_durable_change; try (intros; by auto); intros; unfold wp, mbind, M_bind; cbn.
  - split; [|done]. split; [done|]. exists (hashes r). by rewrite disk_ledger_write.
  - split; [|by auto]. split; [done|]. exists hs. by split_and!.
  - split; [|by auto]. split; [done|]. exists (hashes r). by rewrite disk_ledger_write.
Qed.

(** [d'] differs from [d] at most in a ledger that holds every key [d]'s held. *)
Definition ledger_grows (d d' : Disk) : Prop :=
  (∃ hs hs', disk_ledger d = Ok hs ∧ disk_ledger d' = Ok hs' ∧ hs ⊆ hs')
  ∧ ∀ p, p ≠ PRejected → d' !! p = d !! p.

Lemma ledger_grows_refl d r : ledger_inv d r → ledger_grows d d.
Proof. intros (_ & hs & Hd & _). split; [|done]. by exists hs, hs. Qed.

Lemma ledger_grows_write d hs l :
  disk_ledger d = Ok hs → hs ⊆ l → l ≠ [] → ledger_ok l →
  ledger_grows d (<[PRejected := render l]> d).
Proof.
  intros Hd Hsub Hne Hok. split; [|intros; by rewrite lookup_insert_ne].
  exists hs, l. by rewrite disk_ledger_write.
Qed.

(** Rejecting a key: the whole contract, under every fault and crash. *)
Lemma wp_reject k d r e :
  ledger_inv d r →
  wp (reject k)
    (λ _ w, ledger_inv (disk w) (proc w) ∧ hashes r ⊆ hashes (proc w)
            ∧ is_durably_rejected (proc w) k = true ∧ ledger_grows d (disk w))
    (λ _ w, ledger_inv (disk w) (proc w) ∧ hashes r ⊆ hashes (proc w)
            ∧ ledger_grows d (disk w))
    (ledger_grows d)
    (World d r e).
Proof.
  intros Hinv. pose proof Hinv as (Hok & hs & Hd & Hsub & Hclean). unfold reject.
  pose proof (ledger_grows_refl d r Hinv) as Hrefl.
  destruct (digest_key k) as [h|] eqn:Hkey; [|by apply wp_throw].
  pose proof Hkey as [Hk ->]%digest_key_Some.
  assert (Hpersist : ∀ r', k ∈ hashes r' → hashes r ⊆ hashes r' → ledger_ok (hashes r') →
    wp persist
      (λ _ w, ledger_inv (disk w) (proc w) ∧ hashes r ⊆ hashes (proc w)
              ∧ is_durably_rejected (proc w) k = true ∧ ledger_grows d (disk w))
      (λ _ w, ledger_inv (disk w) (proc w) ∧ hashes r ⊆ hashes (proc w)
              ∧ ledger_grows d (disk w))
      (ledger_grows d) (World d r' e)).
  { intros r' Hin Hgrow Hok'. assert (hashes r' ≠ []) as Hne by (by destruct (hashes r'); set_solver).
    assert (hs ⊆ hashes r') as Hsub' by (etrans; [exact Hsub|exact Hgrow]).
    pose proof (ledger_grows_write d hs (hashes r') Hd Hsub' Hne Hok') as Hg.
    eapply wp_mono; [by apply (wp_persist d r' e hs)|..].
    - intros [] w (Hl & Hp & Hw). rewrite Hw in *. split_and!; [done|by rewrite Hp| |done].
      unfold is_durably_rejected, is_rejected. rewrite Hp, Hkey. by apply bool_decide_eq_true.
    - intros er w (Hl & Hp & [Hw|Hw]); rewrite Hw in *; (split_and!; [done|by rewrite Hp|done]).
    - by intros d' [->| ->]. }
  apply wp_bind. unfold wp at 1. cbn [get_proc proc].
  destruct (set_contains k (hashes r)) eqn:Hc.
  - destruct (dirty r) eqn:Hdirty; [apply Hpersist; [by apply bool_decide_eq_true in Hc|done|done]|].
    apply wp_ret. split_and!; [done|done| |done].
    unfold is_durably_rejected, is_rejected. cbn [proc]. by rewrite Hdirty, Hkey.
  - destruct (_ <=? _)%N eqn:Hfull; [by apply wp_throw|]. apply N.leb_gt in Hfull.
    apply wp_bind. unfold wp at 1. cbn [put_proc proc disk env].
    apply Hpersist; cbn [hashes]; [apply set_insert_elem; auto|intros x ?; apply set_insert_elem; auto|].
    destruct Hok as (Hs & Hks & Hlen). split_and!; [by apply set_insert_ascending| |].
    + rewrite Forall_forall in *. intros x [->|?]%set_insert_elem; auto.
    + pose proof (set_insert_length k (hashes r)). lia.
Qed.

(** ** Histories of the ledger *)

Lemma load_record_reads : reads load_record (λ d _ hs, disk_ledger d = Ok hs).
Proof.
  intros d p e. unfold load_record, disk_ledger, mbind, M_bind, attempt.
  destruct (read_bounded_regular_cases PRejected MAX_REJECTION_RECORD_BYTES d p e)
    as (e' & [(k & ->)|[->| ->]]).
  - exists e'. by destruct k.
  - by exists e'.
  - unfold file_view. exists e'. destruct (d !! PRejected) as [t|]; cbn; [|naive_solver].
    destruct (_ <? _)%N; cbn; [done|]. destruct (parse_record t); cbn; naive_solver.
Qed.

Lemma load_quiet d p e hs :
  faults e = [] → disk_ledger d = Ok hs →
  load (World d p e) = (Done tt, World d (mkRejections hs false) e).
Proof.
  intros Hf Hd.
  assert (load_record (World d p e) = (Done hs, World d p e)) as Hl.
  { unfold load_record, read_bounded_regular, next_fault, attempt, mbind, M_bind. cbn.
    rewrite Hf. cbn. revert Hd. unfold disk_ledger. destruct (d !! PRejected) as [t|]; cbn.
    - destruct (_ <? _)%N; cbn; [done|]. by intros ->.
    - by intros [= ->]. }
  unfold load, mbind, M_bind. by rewrite Hl.
Qed.

Lemma parse_record_ok text hs : parse_record text = Ok hs → ledger_ok hs.
Proof.
  assert (∀ lines acc hs, ledger_ok acc → load_lines acc lines = Ok hs → ledger_ok hs) as Hll.
  { clear. induction lines as [|l lines IH]; intros acc hs Hok; simpl; [by intros [= <-]|].
    destruct (digest_key l) as [h|] eqn:Hk; [|done]. apply digest_key_Some in Hk as [Hk ->].
    destruct (match last acc with Some pv => negb (str_ltb pv l) | None => false end); [done|].
    destruct (_ <? _)%N eqn:Hlen; [done|]. apply N.ltb_ge in Hlen. apply IH.
    destruct Hok as (Hs & Hks & _). split_and!; [by apply set_insert_ascending| |done].
    rewrite Forall_forall in *. intros x [->|?]%set_insert_elem; auto. }
  unfold parse_record. destruct (strip_newline text) as [[]|]; [done| |done].
  apply Hll. split_and!; [constructor..|done].
Qed.

Lemma disk_ledger_ok d hs : disk_ledger d = Ok hs → ledger_ok hs.
Proof.
  unfold disk_ledger. repeat case_match; try done; [apply parse_record_ok|].
  intros [= <-]. split_and!; [constructor..|done].
Qed.

(** One event in the life of the ledger: a rejection that returns, one the process dies in
    and a new process loads the record after, or a plain restart. *)
Inductive ledger_step : Disk * Rejections → Disk * Rejections → Prop :=
| ledger_reject k d r e o w :
    reject k (World d r e) = (o, w) → o ≠ Died → ledger_step (d, r) (disk w, proc w)
| ledger_crash k d r e w p e' w' :
    reject k (World d r e) = (Died, w) → load (World (disk w) p e') = (Done tt, w') →
    ledger_step (d, r) (disk w', proc w')
| ledger_restart d r p e w :
    load (World d p e) = (Done tt, w) → ledger_step (d, r) (disk w, proc w).

Lemma load_inv d p e w :
  load (World d p e) = (Done tt, w) →
  disk w = d ∧ ledger_inv d (proc w) ∧ disk_ledger d = Ok (hashes (proc w)).
Proof.
  unfold load, mbind, M_bind. destruct (load_record_reads d p e) as (e' & Hw & Hv).
  destruct (load_record (World d p e)) as [[hs|er|] w1]; cbn in *; [|done..].
  intros [= <-]. subst w1. specialize (Hv hs eq_refl). cbn. split_and!; [done| |done].
  split; [by eapply disk_ledger_ok|]. exists hs. by split_and!.
Qed.

(** Every event keeps the invariant and every key the disk already held. *)
Lemma ledger_step_keeps d r d' r' :
  ledger_step (d, r) (d', r') → ledger_inv d r → ledger_inv d' r' ∧ ledger_grows d d'.
Proof.
  intros Hs Hinv.
  inversion Hs as [q d0 r0 e o w Hr Hne|q d0 r0 e w p e' w' Hr Hl|d0 r0 p e w Hl]; subst.
  - pose proof (wp_reject q d r e Hinv) as Hw. unfold wp in Hw. rewrite Hr in Hw.
    destruct o; naive_solver.
  - pose proof (wp_reject q d r e Hinv) as Hw. unfold wp in Hw. rewrite Hr in Hw.
    by apply load_inv in Hl as (-> & ? & Hl).
  - apply load_inv in Hl as (-> & ? & Hl). split; [done|]. by eapply ledger_grows_refl.
Qed.

(** A safety verdict is permanent: once a rejection key is in the durable record, it is
    in the record and suppressed by the live process after every later sequence of
    rejections, write failures, crashes and restarts. *)
Lemma durable_verdict_is_permanent k d r d' r' hs :
  ledger_inv d r → disk_ledger d = Ok hs → k ∈ hs →
  rtc ledger_step (d, r) (d', r') →
  is_rejected r' k = true ∧ ∃ hs', disk_ledger d' = Ok hs' ∧ k ∈ hs'.
Proof.
  intros Hinv Hd Hk Hsteps. remember (d, r) as x eqn:Hx. remember (d', r') as y eqn:Hy.
  revert d r d' r' hs Hx Hy Hinv Hd Hk.
  induction Hsteps as [x|x [d1 r1] y Hstep Hrest IH]; intros d r d' r' hs -> Hy Hinv Hd Hk.
  - injection Hy as <- <-. destruct Hinv as (Hok & hs0 & Hd0 & Hsub & _).
    assert (hs0 = hs) as -> by congruence. split; [|eauto].
    pose proof (disk_ledger_ok d hs Hd) as (_ & Hkeys & _). rewrite Forall_forall in Hkeys.
    unfold is_rejected. rewrite (proj2 (digest_key_Some k k)) by auto.
    apply bool_decide_eq_true. auto.
  - apply ledger_step_keeps in Hstep as (Hinv1 & (h & h1 & Hh & Hh1 & Hg) & _); [|done].
    assert (h = hs) as -> by congruence. eapply (IH d1 r1 d' r' h1); auto.
Qed.

(** A rejection that returns success is on disk: the record then loads in a fresh,
    fault-free process, which suppresses the key. *)
Lemma successful_rejection_survives_restart k d r e w p e' :
  ledger_inv d r → reject k (World d r e) = (Done tt, w) → faults e' = [] →
  ∃ r', load (World (disk w) p e') = (Done tt, World (disk w) r' e')
        ∧ is_durably_rejected r' k = true.
Proof.
  intros Hinv Hr Hf. pose proof (wp_reject k d r e Hinv) as Hw. unfold wp in Hw. rewrite Hr in Hw.
  destruct Hw as ((_ & hs & Hd & _ & Hclean) & _ & Hdur & _).
  exists (mkRejections hs false). split; [by apply load_quiet|].
  unfold is_durably_rejected in *. apply andb_true_iff in Hdur as [Hdirty Hrej].
  unfold is_rejected in *. rewrite Hclean by (by apply negb_true_iff). done.
Qed.

(** The record round-trips: every non-empty well-formed set of at most
    [MAX_REJECTION_KEYS] keys is written as text the strict loader reads back as the same
    set, and that text always fits the byte limit. *)
Lemma rejection_record_roundtrip hs :
  hs ≠ [] → ledger_ok hs →
  parse_record (render hs) = Ok hs ∧ (str_len (render hs) ≤ MAX_REJECTION_RECORD_BYTES)%N.
Proof.
  intros Hne Hok. split; [by apply parse_render|]. destruct Hok as (_ & Hk & Hlen).
  rewrite render_length by done. unfold MAX_REJECTION_RECORD_BYTES, MAX_REJECTION_KEYS in *. lia.
Qed.
