(* ===== verification/Store.v ===== *)
(** * Store: the agent's durable-state boundary

    Models [agent/src/store.rs] with the file operations behind it: [updated/src/journal.rs],
    the file half of [updated/src/state.rs] and the active pointer of
    [updated/src/bundle.rs].  Every operation is a program of the effect monad, so a fault
    or a crash can strike at each of its reads and writes.  The JSON codec (serde_json) is
    outside the repository: it is the class parameter [Codec], whose one law is that what
    was serialised reads back.  Re-hashing an installed release tree
    ([bundle::verify_release]) is the environment's verdict on its directory. *)
From S2P Require Import Prelude Identity State Transaction Install World Reject.

(** ** The codec *)

Class Codec : Type := {
  codec_transaction :: Serde Transaction;
  codec_install :: Serde InstallTransaction;
  codec_installed :: Serde InstalledState;
  codec_release :: Serde ReleaseId;
}.

Definition MAX_SERIALIZED_BYTES : N := 1024.
Definition JOURNAL_RECORD_MAX_BYTES : N := MAX_SERIALIZED_BYTES + 16 * 1024.
Definition INSTALLED_RECORD_MAX_BYTES : N := MAX_SERIALIZED_BYTES * 2 + 8 * 1024.
Definition ACTIVE_RELEASE_BYTES_LIMIT : N := 4096.

Definition INSTALL_HISTORY_MARKER : string :=
  String.append "installed" (String newline EmptyString).

(** [Err(error) if error.kind() == NotFound]. *)
Definition is_not_found (e : io_error) : bool := bool_decide (err_kind e = NotFound).

(** ** Durable records: the [Journaled] interface *)

Class Journaled (T : Type) : Type := { journaled_validate : T → result unit }.

Section journaled.
Context {T : Type} `{!Serde T} `{!Journaled T}.

(** [journal::read] *)
Definition journal_read (p : path) : M (option T) :=
  raw ← attempt (read_bounded_regular p JOURNAL_RECORD_MAX_BYTES);
  match raw with
  | Ok raw =>
      record ← lift (match from_slice raw with
                     | Some t => Ok t
                     | None => Err (IoError InvalidData "invalid JSON")
                     end);
      _ ← lift (journaled_validate record);
      mret (Some record)
  | Err error => if is_not_found error then mret None else throw error
  end.

(** [journal::write] *)
Definition journal_write (p : path) (record : T) : M unit :=
  _ ← lift (journaled_validate record);
  bytes ← lift (match to_vec record with
                | Some b => Ok b
                | None => Err (IoError Other "serialization failed")
                end);
  if (JOURNAL_RECORD_MAX_BYTES <? str_len bytes)%N
  then throw (IoError InvalidInput "journal record exceeds its byte limit")
  else atomic_write_managed p bytes.

(** [journal::clear] *)
Definition journal_clear (p : path) : M unit := remove_file p.

End journaled.

Section store.
Context `{Sha256} `{Semver} `{Codec}.

#[export] Instance transaction_journaled : Journaled Transaction :=
  {| journaled_validate := Transaction_validate |}.
#[export] Instance install_journaled : Journaled InstallTransaction :=
  {| journaled_validate := InstallTransaction_validate |}.

(** ** Installed record, history marker and active pointer files *)

Definition try_read_installed : M Installed :=
  raw ← attempt (read_bounded_regular PInstalled INSTALLED_RECORD_MAX_BYTES);
  match raw with
  | Ok raw =>
      mret (match from_slice raw with
            | Some s => if is_ok (InstalledState_validate s) then Present s else Invalid
            | None => Invalid
            end)
  | Err e => if is_not_found e then mret Missing else throw e
  end.

(** [read_installed]: an unreadable record is not absence. *)
Definition read_installed : M Installed :=
  r ← attempt try_read_installed;
  mret (match r with Ok i => i | Err _ => Invalid end).

Definition write_installed (state : InstalledState) : M unit :=
  _ ← lift (InstalledState_validate state);
  bytes ← lift (match to_vec state with
                | Some b => Ok b
                | None => Err (IoError Other "serialization failed")
                end);
  if (INSTALLED_RECORD_MAX_BYTES <? str_len bytes)%N
  then throw (IoError InvalidInput "installed state exceeds its byte limit")
  else atomic_write_managed PInstalled bytes.

Definition read_install_history : M InstallHistory :=
  raw ← attempt (read_bounded_regular PHistory (str_len INSTALL_HISTORY_MARKER));
  mret (match raw with
        | Ok raw => if bool_decide (raw = INSTALL_HISTORY_MARKER) then HistoryPresent
                    else HistoryInvalid
        | Err error => if is_not_found error then HistoryMissing else HistoryInvalid
        end).

Definition record_first_install : M unit :=
  h ← read_install_history;
  match h with
  | HistoryMissing => atomic_write_managed PHistory INSTALL_HISTORY_MARKER
  | _ => throw (IoError AlreadyExists
                  "this installation has already consumed its bootstrap enrollment")
  end.

Definition read_active : M (option ReleaseId) :=
  raw ← attempt (read_bounded_regular PActive ACTIVE_RELEASE_BYTES_LIMIT);
  match raw with
  | Ok bytes =>
      release ← lift (match from_slice bytes with
                      | Some r => Ok r
                      | None => Err (IoError InvalidData "invalid JSON")
                      end);
      _ ← lift (ReleaseId_validate release);
      mret (Some release)
  | Err error => if is_not_found error then mret None else throw error
  end.

Definition write_active (release : ReleaseId) : M unit :=
  _ ← lift (ReleaseId_validate release);
  bytes ← lift (match to_vec release with
                | Some b => Ok b
                | None => Err (IoError InvalidData "serialization failed")
                end);
  atomic_write_managed PActive bytes.

(** ** Reading through the store *)

Definition installed : M Installed := try_read_installed.
Definition journal : M (option Transaction) := journal_read PJournal.
Definition install_journal : M (option InstallTransaction) := journal_read PInstallJournal.
Definition active_release : M (option ReleaseId) := read_active.

(** ** Rejections *)

(** [Store::rejection_key] *)
Definition store_rejection_key (lineage : RepositoryLineage) (digest : string) : result string :=
  if negb (lineage_validate lineage) || negb (is_canonical_sha256 digest)
  then Err (IoError InvalidInput "a rejection requires a canonical repository lineage and digest")
  else Ok (rejection_key lineage digest).

(** [Store::is_rejected], on the process's ledger. *)
Definition store_is_rejected (rejected : Rejections) (lineage : RepositoryLineage)
    (digest : string) : bool :=
  match store_rejection_key lineage digest with
  | Err _ => true
  | Ok key => is_rejected rejected key
  end.

Definition rejection_is_durable (rejected : Rejections) (lineage : RepositoryLineage)
    (digest : string) : bool :=
  match store_rejection_key lineage digest with
  | Err _ => false
  | Ok key => is_durably_rejected rejected key
  end.

Definition rejects_deployment (rejected : Rejections) (lineage : RepositoryLineage)
    (application_sha256 : string) : bool :=
  store_is_rejected rejected lineage application_sha256
  || match deployment_rejection_sha256 application_sha256 with
     | None => true
     | Some digest => store_is_rejected rejected lineage digest
     end.

Definition record_rejection (lineage : RepositoryLineage) (digest : string) : M unit :=
  key ← lift (store_rejection_key lineage digest);
  reject key.

Definition reject_artifact (lineage : RepositoryLineage) (digest : string) : M unit :=
  record_rejection lineage digest.

Definition reject_deployment (lineage : RepositoryLineage) (application_sha256 : string)
    : M unit :=
  digest ← lift (match deployment_rejection_sha256 application_sha256 with
                 | Some d => Ok d
                 | None => Err (IoError InvalidInput
                             "cannot reject a deployment with an invalid artifact identity")
                 end);
  record_rejection lineage digest.

(** ** Installed-record transitions *)

Definition install_commit_is_authorized (next : InstalledState) : M bool :=
  j ← install_journal;
  match j with
  | None => mret false
  | Some tx =>
      mret (match it_phase tx with Placed | InstallCommitted => true | _ => false end
            && matches_installed tx next
            && bool_decide (st_rollback_guard next = None)
            && negb (is_proven next))
  end.

Definition metadata_transition_is_authorized (current next : InstalledState) : bool :=
  if bool_decide (current = next) then true
  else if negb (bool_decide (st_release current = st_release next))
          || negb (bool_decide (st_archive_sha256 current = st_archive_sha256 next))
          || negb (bool_decide (st_reconciler current = st_reconciler next))
  then false
  else
    let lineage_changed :=
      negb (bool_decide (st_repository_lineage current = st_repository_lineage next)) in
    let pending_changed :=
      negb (bool_decide (st_rollback_guard current = st_rollback_guard next)) in
    let confirmed_changed := negb (Bool.eqb (is_proven current) (is_proven next)) in
    match lineage_changed, pending_changed, confirmed_changed with
    | true, false, false => true
    | false, false, true =>
        negb (is_proven current) && is_proven next
        && bool_decide (st_rollback_guard current = None)
    | false, true, false =>
        bool_decide (is_Some (st_rollback_guard current))
        && bool_decide (st_rollback_guard next = None)
    | _, _, _ => false
    end.

Definition pending_rollback_is_authorized (rejected : Rejections) (current next : InstalledState)
    : bool :=
  match st_rollback_guard current with
  | None => false
  | Some pending =>
      rejection_is_durable rejected (st_repository_lineage current)
        (rg_candidate_rejection_sha256 pending)
      && bool_decide (st_repository_lineage next = rg_previous_repository_lineage pending)
      && bool_decide (st_release next = rg_previous_release pending)
      && bool_decide (st_archive_sha256 next = rg_previous_archive_sha256 pending)
      && bool_decide (st_reconciler next = rg_reconciler pending)
      && bool_decide (st_rollback_guard next = None)
      && is_proven next
  end.

(** The pure half of [Store::journal_transition_is_authorized]. *)
Definition journal_authorizes (rejected : Rejections) (tx : Transaction)
    (current next : InstalledState) : bool :=
  let current_is_predecessor := matches_previous tx current in
  let next_is_candidate := matches_candidate tx next in
  let pending_binds_transaction :=
    option_matches (matches_rollback_guard tx) (st_rollback_guard next) in
  if match tx_phase tx with Converged | Verified => true | _ => false end
     && negb (tx_candidate_rejection_required tx)
     && current_is_predecessor
     && next_is_candidate
     && pending_binds_transaction
     && is_proven next
  then true
  else
    let current_is_candidate := matches_candidate tx current in
    let next_is_predecessor :=
      matches_previous tx next && bool_decide (st_rollback_guard next = None) in
    bool_decide (tx_phase tx = RolledBack)
    && current_is_candidate
    && next_is_predecessor
    && (is_proven next
        || rejects_deployment rejected (tx_previous_repository_lineage tx)
             (tx_previous_archive_sha256 tx)).

Definition journal_transition_is_authorized (current next : InstalledState) : M bool :=
  j ← journal;
  match j with
  | None => mret false
  | Some tx => rejected ← get_proc; mret (journal_authorizes rejected tx current next)
  end.

Definition validate_installed_transition (next : InstalledState) : M unit :=
  i ← installed;
  match i with
  | Missing =>
      ok ← install_commit_is_authorized next;
      if ok : bool then mret tt
      else throw (IoError InvalidInput
             "refusing to create installed state without matching first-install intent")
  | Invalid => throw (IoError InvalidData "refusing to overwrite corrupt installed state")
  | Present current =>
      rejected ← get_proc;
      ok ← (if metadata_transition_is_authorized current next
               || pending_rollback_is_authorized rejected current next
            then mret true
            else journal_transition_is_authorized current next);
      if ok : bool then mret tt
      else throw (IoError InvalidInput
             "refusing an installed-state transition without matching durable intent")
  end.

Definition commit_installed (state : InstalledState) : M unit :=
  _ ← lift (InstalledState_validate state);
  active ← active_release;
  _ ← (match active with
       | Some active =>
           if bool_decide (active = st_release state) then mret tt
           else throw (IoError InvalidInput
                  "refusing to commit installed release while another release is active")
       | None => throw (IoError InvalidInput
                   "refusing to commit installed release without an active release")
       end);
  _ ← validate_installed_transition state;
  write_installed state.

(** [Store::prove_provisional] *)
Definition store_prove_provisional : M bool :=
  i ← installed;
  match i with
  | Present state =>
      let '(state, changed) := prove_provisional state in
      if negb changed then mret false
      else _ ← commit_installed state; mret true
  | Missing => throw (IoError NotFound "cannot confirm a missing installed state")
  | Invalid => throw (IoError InvalidData "cannot confirm a corrupt installed state")
  end.

(** ** The active pointer *)

(** [bundle::verify_release]: the environment's verdict on the release's directory. *)
Definition bundle_verify_release (release : ReleaseId) : M unit :=
  f ← next_fault;
  match f with
  | Fails e | FailsAfter e => os_fail e
  | Dies | DiesAfter => die
  | Healthy =>
      e ← get_env;
      if intact e (directory_name release) then mret tt
      else throw (IoError InvalidData "release tree does not match its manifest")
  end.

(** [Store::verify_release] *)
Definition verify_release (release : ReleaseId) : M unit :=
  _ ← lift (ReleaseId_validate release);
  bundle_verify_release release.

Definition point_active (release : ReleaseId) : M unit := write_active release.

Definition activate (release : ReleaseId) : M unit :=
  _ ← verify_release release;
  point_active release.

(** ** The update journal *)

Definition record_journal (tx : Transaction) : M unit := journal_write PJournal tx.
Definition remove_journal : M unit := journal_clear PJournal.
Definition record_install_journal (tx : InstallTransaction) : M unit :=
  journal_write PInstallJournal tx.
Definition remove_install_journal : M unit := journal_clear PInstallJournal.

Definition forward_commit_is_durable (tx : Transaction) (i : InstalledState) : bool :=
  negb (tx_candidate_rejection_required tx)
  && matches_candidate tx i
  && option_matches (matches_rollback_guard tx) (st_rollback_guard i).

Definition journal_may_discard (tx : Transaction) : M bool :=
  rejected ← get_proc;
  if tx_candidate_rejection_required tx
     && negb (rejection_is_durable rejected (tx_candidate_repository_lineage tx)
                (tx_candidate_rejection_sha256 tx))
  then mret false
  else if bool_decide (tx_phase tx = Prepared) then mret true
  else
    active ← active_release;
    i ← installed;
    match i with
    | Present i =>
        mret (match tx_phase tx with
              | Converged | Verified | Committed => forward_commit_is_durable tx i
              | RolledBack =>
                  bool_decide (active = Some (tx_previous_release tx)) && matches_previous tx i
              | Prepared | Activated | RollbackPlanned | CandidateCompensated
              | Restored | RollbackVerified => false
              end)
    | _ => mret false
    end.

Definition clear_journal : M unit :=
  j ← journal;
  _ ← (match j with
       | Some tx =>
           ok ← journal_may_discard tx;
           if ok : bool then mret tt
           else throw (IoError InvalidInput
                  "refusing to discard a journal: the transaction still owes a commit or a settled rollback")
       | None => mret tt
       end);
  remove_journal.

Definition forward_commit_is_authorized (tx : Transaction) : M bool :=
  i ← installed;
  match i with
  | Present i =>
      active ← active_release;
      mret (bool_decide (active = Some (tx_candidate_release tx))
            && forward_commit_is_durable tx i)
  | _ => mret false
  end.

Definition pending_authorizes_rollback_journal (tx : Transaction) : M bool :=
  i ← installed;
  match i with
  | Present i =>
      match st_rollback_guard i with
      | Some pending =>
          mret (bool_decide (tx_phase tx = RollbackPlanned)
                && (tx_rollback_health_failures tx =? 0)%N
                && matches_rollback_guard tx pending
                && matches_candidate tx i)
      | None => mret false
      end
  | _ => mret false
  end.

Definition journal_start_is_authorized (tx : Transaction) : M bool :=
  pending ← pending_authorizes_rollback_journal tx;
  if pending : bool then mret true
  else
    i ← installed;
    match i with
    | Present i =>
        if bool_decide (tx_phase tx = Prepared)
           && negb (tx_candidate_rejection_required tx)
           && (tx_rollback_health_failures tx =? 0)%N
           && is_proven i
           && bool_decide (st_rollback_guard i = None)
           && matches_previous tx i
        then active ← active_release; mret (bool_decide (active = Some (st_release i)))
        else mret false
    | _ => mret false
    end.

Inductive JournalKind : Type := JournalUpdate | JournalInstall.

Definition ensure_exclusive_journal (writing : JournalKind) : M unit :=
  conflict ← (match writing with
              | JournalUpdate => j ← install_journal; mret (it_id <$> j)
              | JournalInstall => j ← journal; mret (tx_id <$> j)
              end);
  match conflict with
  | None => mret tt
  | Some _ => throw (IoError InvalidInput
                "refusing to write a journal while the other transaction is durable")
  end.

Definition write_journal (tx : Transaction) : M unit :=
  _ ← lift (Transaction_validate tx);
  _ ← ensure_exclusive_journal JournalUpdate;
  _ ← (if bool_decide (tx_phase tx = Committed)
       then ok ← forward_commit_is_authorized tx;
            if ok : bool then mret tt
            else throw (IoError InvalidInput
                   "refusing to record a committed transaction before its exact deployed unit and rollback intent are durable")
       else mret tt);
  existing ← journal;
  _ ← (match existing with
       | Some existing =>
           _ ← (if negb (bool_decide (tx_id existing = tx_id tx))
                then ok ← journal_may_discard existing;
                     if ok : bool then mret tt
                     else throw (IoError InvalidInput
                            "refusing to bury the journal of another transaction")
                else mret tt);
           _ ← (if negb (bool_decide (tx_id existing = tx_id tx))
                then ok ← journal_start_is_authorized tx;
                     if ok : bool then mret tt
                     else throw (IoError InvalidInput
                            "refusing to start a transaction without initial intent")
                else mret tt);
           _ ← lift (ensure (negb (bool_decide (tx_id existing = tx_id tx)
                                   && negb (permits_replacement existing tx))) InvalidInput
                       "refusing an invalid rewrite of a transaction");
           if bool_decide (tx_id existing = tx_id tx)
              && bool_decide (tx_phase existing = Committed)
              && bool_decide (tx_phase tx = RollbackPlanned)
           then ok ← pending_authorizes_rollback_journal tx;
                if ok : bool then mret tt
                else throw (IoError InvalidInput
                       "refusing to restart a committed transaction without matching pending rollback intent")
           else mret tt
       | None =>
           ok ← journal_start_is_authorized tx;
           if ok : bool then mret tt
           else throw (IoError InvalidInput
                  "refusing to start a transaction without initial intent")
       end);
  record_journal tx.

(** ** The first-install journal *)

Definition install_start_is_authorized (tx : InstallTransaction) : M bool :=
  rejected ← get_proc;
  if negb (bool_decide (it_phase tx = Started))
     || rejects_deployment rejected (it_repository_lineage tx) (it_archive_sha256 tx)
  then mret false
  else
    active ← active_release;
    i ← installed;
    mret (match i with
          | Missing => bool_decide (active = None)
          | Present _ | Invalid => false
          end).

Definition install_phase_is_authorized (tx : InstallTransaction) : M bool :=
  match it_phase tx with
  | Started | InstallPrepared => mret true
  | Placed =>
      active ← active_release;
      mret (bool_decide (active = Some (it_release tx)))
  | InstallCommitted =>
      i ← installed;
      match i with
      | Present i =>
          active ← active_release;
          mret (bool_decide (active = Some (it_release tx)) && matches_installed tx i)
      | _ => mret false
      end
  end.

Definition write_install_journal (tx : InstallTransaction) : M unit :=
  _ ← lift (InstallTransaction_validate tx);
  _ ← ensure_exclusive_journal JournalInstall;
  ok ← install_phase_is_authorized tx;
  _ ← lift (ensure ok InvalidInput
              "refusing to record first-install phase before its machine barrier is durable");
  existing ← install_journal;
  _ ← (match existing with
       | Some existing =>
           _ ← lift (ensure (bool_decide (it_id existing = it_id tx)) InvalidInput
                       "refusing to bury a first-install transaction");
           lift (ensure (install_permits_replacement existing tx) InvalidInput
                   "refusing an invalid rewrite of a first-install transaction")
       | None =>
           ok ← install_start_is_authorized tx;
           lift (ensure ok InvalidInput "refusing to start first-install transaction")
       end);
  record_install_journal tx.

Definition clear_install_journal : M unit :=
  j ← install_journal;
  _ ← (match j with
       | Some tx =>
           i ← installed;
           let i := match i with Present s => Some s | Missing | Invalid => None end in
           match classify_install_recovery tx i with
           | InstallRecoveryCommitted => mret tt
           | InstallResume => throw (IoError InvalidInput
               "refusing to discard first-install transaction: its exact deployed unit is not committed")
           end
       | None => mret tt
       end);
  remove_install_journal.

End store.
