(* ===== verification/StoreSpec.v ===== *)
(** * StoreSpec: what the durable-state boundary promises

    The abstract specification of [agent/src/store.rs]: the durable state of one
    installation as decoded records, and the only writes the facade may make to it, each
    with the evidence it needs.  [Store.v]'s programs are shown to refine it in
    [StoreRefine.v]; the invariants here are proved by rule induction over its steps and so
    hold for every sequence of calls by any caller, under every fault and crash. *)
From S2P Require Import Prelude Identity State Transaction Install World Reject Store.

Record machine : Type := mkMachine {
  m_installed : option InstalledState;
  m_journal : option Transaction;
  m_install : option InstallTransaction;
  m_active : option ReleaseId;
  m_ledger : list string;
  m_enrolled : bool;
}.

Definition set_installed (i : option InstalledState) (m : machine) : machine :=
  mkMachine i (m_journal m) (m_install m) (m_active m) (m_ledger m) (m_enrolled m).
Definition set_journal (j : option Transaction) (m : machine) : machine :=
  mkMachine (m_installed m) j (m_install m) (m_active m) (m_ledger m) (m_enrolled m).
Definition set_install (j : option InstallTransaction) (m : machine) : machine :=
  mkMachine (m_installed m) (m_journal m) j (m_active m) (m_ledger m) (m_enrolled m).
Definition set_active (a : option ReleaseId) (m : machine) : machine :=
  mkMachine (m_installed m) (m_journal m) (m_install m) a (m_ledger m) (m_enrolled m).
Definition set_ledger (l : list string) (m : machine) : machine :=
  mkMachine (m_installed m) (m_journal m) (m_install m) (m_active m) l (m_enrolled m).

Definition set_enrolled (b : bool) (m : machine) : machine :=
  mkMachine (m_installed m) (m_journal m) (m_install m) (m_active m) (m_ledger m) b.

Section spec.
Context `{Sha256} `{Semver}.

(** ** The evidence each write needs

    [r] is the live process's ledger, which may be ahead of the durable one. *)

Definition may_discard (r : Rejections) (m : machine) (tx : Transaction) : bool :=
  (negb (tx_candidate_rejection_required tx)
   || rejection_is_durable r (tx_candidate_repository_lineage tx)
        (tx_candidate_rejection_sha256 tx))
  && match tx_phase tx with
     | Prepared => true
     | Converged | Verified | Committed =>
         option_matches (forward_commit_is_durable tx) (m_installed m)
     | RolledBack =>
         bool_decide (m_active m = Some (tx_previous_release tx))
         && option_matches (matches_previous tx) (m_installed m)
     | _ => false
     end.

(** The installed record's own rollback intent authorises its rollback journal. *)
Definition guard_starts (m : machine) (tx : Transaction) : bool :=
  match m_installed m with
  | Some i =>
      option_matches (λ g, bool_decide (tx_phase tx = RollbackPlanned)
                           && (tx_rollback_health_failures tx =? 0)%N
                           && matches_rollback_guard tx g
                           && matches_candidate tx i) (st_rollback_guard i)
  | None => false
  end.

(** A fresh update starts at [Prepared], from a settled head the pointer names. *)
Definition update_starts (m : machine) (tx : Transaction) : bool :=
  match m_installed m with
  | Some i =>
      bool_decide (tx_phase tx = Prepared)
      && negb (tx_candidate_rejection_required tx)
      && (tx_rollback_health_failures tx =? 0)%N
      && is_proven i
      && bool_decide (st_rollback_guard i = None)
      && matches_previous tx i
      && bool_decide (m_active m = Some (st_release i))
  | None => false
  end.

Definition may_start (m : machine) (tx : Transaction) : bool :=
  guard_starts m tx || update_starts m tx.

Definition may_record_committed (m : machine) (tx : Transaction) : bool :=
  bool_decide (m_active m = Some (tx_candidate_release tx))
  && option_matches (forward_commit_is_durable tx) (m_installed m).

(** Everything [Store::write_journal] demands of [tx] beyond its validity. *)
Definition may_write_journal (r : Rejections) (m : machine) (tx : Transaction) : bool :=
  bool_decide (m_install m = None)
  && (negb (bool_decide (tx_phase tx = Committed)) || may_record_committed m tx)
  && match m_journal m with
     | Some existing =>
         if bool_decide (tx_id existing = tx_id tx)
         then permits_replacement existing tx
              && (negb (bool_decide (tx_phase existing = Committed)
                        && bool_decide (tx_phase tx = RollbackPlanned))
                  || guard_starts m tx)
         else may_discard r m existing && may_start m tx
     | None => may_start m tx
     end.

Definition may_commit (r : Rejections) (m : machine) (next : InstalledState) : bool :=
  bool_decide (m_active m = Some (st_release next))
  && match m_installed m with
     | None =>
         option_matches (λ tx,
           match it_phase tx with Placed | InstallCommitted => true | _ => false end
           && matches_installed tx next
           && bool_decide (st_rollback_guard next = None)
           && negb (is_proven next)) (m_install m)
     | Some current =>
         metadata_transition_is_authorized current next
         || pending_rollback_is_authorized r current next
         || option_matches (λ tx, journal_authorizes r tx current next) (m_journal m)
     end.

Definition may_write_install (r : Rejections) (m : machine) (tx : InstallTransaction) : bool :=
  bool_decide (m_journal m = None)
  && match it_phase tx with
     | Started | InstallPrepared => true
     | Placed => bool_decide (m_active m = Some (it_release tx))
     | InstallCommitted =>
         bool_decide (m_active m = Some (it_release tx))
         && option_matches (matches_installed tx) (m_installed m)
     end
  && match m_install m with
     | Some existing =>
         bool_decide (it_id existing = it_id tx) && install_permits_replacement existing tx
     | None =>
         bool_decide (it_phase tx = Started)
         && negb (rejects_deployment r (it_repository_lineage tx) (it_archive_sha256 tx))
         && bool_decide (m_active m = None)
         && bool_decide (m_installed m = None)
     end.

Definition may_clear_install (m : machine) : bool :=
  match m_install m with
  | Some tx => option_matches (matches_installed tx) (m_installed m)
  | None => true
  end.

(** ** The writes *)

Inductive machine_step (r : Rejections) (m : machine) : machine → Prop :=
| step_commit s :
    InstalledState_validate s = Ok tt → may_commit r m s = true →
    machine_step r m (set_installed (Some s) m)
| step_activate rel :
    ReleaseId_validate rel = Ok tt → machine_step r m (set_active (Some rel) m)
| step_write_journal tx :
    Transaction_validate tx = Ok tt → may_write_journal r m tx = true →
    machine_step r m (set_journal (Some tx) m)
| step_clear_journal :
    (∀ tx, m_journal m = Some tx → may_discard r m tx = true) →
    machine_step r m (set_journal None m)
| step_write_install tx :
    InstallTransaction_validate tx = Ok tt → may_write_install r m tx = true →
    machine_step r m (set_install (Some tx) m)
| step_clear_install :
    may_clear_install m = true → machine_step r m (set_install None m)
| step_ledger l :
    m_ledger m ⊆ l → ledger_ok l → machine_step r m (set_ledger l m)
| step_enroll :
    m_enrolled m = false → machine_step r m (set_enrolled true m).

(** The live ledger covers the durable one, and equals it unless a write failed. *)
Definition live_ok (r : Rejections) (m : machine) : Prop :=
  m_ledger m ⊆ hashes r ∧ (dirty r = false → m_ledger m = hashes r).

Lemma rejection_is_durable_ledger r m l d :
  live_ok r m → rejection_is_durable r l d = true →
  rejection_key l d ∈ m_ledger m.
Proof.
  intros [_ Hclean]. unfold rejection_is_durable, store_rejection_key.
  destruct (_ || _); [done|]. unfold is_durably_rejected, is_rejected.
  intros [Hd Hr]%andb_true_iff. rewrite Hclean by (by apply negb_true_iff).
  unfold digest_key in Hr. destruct (is_rejection_key _); [|done].
  by apply bool_decide_eq_true in Hr.
Qed.

(** ** Histories: any caller, any interleaving of processes

    Each step runs under some live ledger that is consistent with the durable one; a crash
    and restart only changes which. *)
Inductive history : machine → machine → Prop :=
| history_refl m : history m m
| history_step r m m1 m2 :
    live_ok r m → machine_step r m m1 → history m1 m2 → history m m2.

Lemma history_invariant (P : machine → Prop) m m' :
  (∀ r m m1, live_ok r m → machine_step r m m1 → P m → P m1) →
  history m m' → P m → P m'.
Proof. intros Hstep. induction 1; eauto. Qed.

(** ** Executable units

    A release, its archive and its reconciler, without the metadata lineage a rebind may
    change under it. *)

Definition runs_previous (tx : Transaction) (i : InstalledState) : Prop :=
  st_release i = tx_previous_release tx ∧ st_archive_sha256 i = tx_previous_archive_sha256 tx
  ∧ st_reconciler i = tx_previous_reconciler tx.

Definition runs_candidate (tx : Transaction) (i : InstalledState) : Prop :=
  st_release i = tx_candidate_release tx ∧ st_archive_sha256 i = tx_candidate_archive_sha256 tx
  ∧ st_reconciler i = tx_candidate_reconciler tx.

Definition same_unit (i j : InstalledState) : Prop :=
  st_release i = st_release j ∧ st_archive_sha256 i = st_archive_sha256 j
  ∧ st_reconciler i = st_reconciler j.

Lemma matches_previous_runs tx i : matches_previous tx i = true → runs_previous tx i.
Proof. unfold matches_previous, runs_previous. intros. by bool_to_prop. Qed.

Lemma matches_candidate_runs tx i : matches_candidate tx i = true → runs_candidate tx i.
Proof. unfold matches_candidate, runs_candidate. intros. by bool_to_prop. Qed.

(** The metadata transitions keep the unit, and either keep the guard or drop it. *)
Lemma metadata_transition_unit i j :
  metadata_transition_is_authorized i j = true →
  same_unit i j ∧ (st_rollback_guard j = st_rollback_guard i ∨ st_rollback_guard j = None).
Proof.
  unfold metadata_transition_is_authorized, same_unit.
  case_bool_decide as Heq; [by subst; auto|].
  destruct (_ || _ || _) eqn:Hu; [done|]. bool_to_prop.
  destruct (bool_decide (st_rollback_guard i = st_rollback_guard j)) eqn:Hg; bool_to_prop.
  { intros _. by split_and!; auto. }
  destruct (negb (bool_decide (st_repository_lineage i = _))); simpl; [done|].
  destruct (negb (Bool.eqb _ _)); simpl; [done|]. intros ?. bool_to_prop. by split_and!; auto.
Qed.

Lemma matches_rollback_guard_previous tx g :
  matches_rollback_guard tx g = true →
  tx_previous_release tx = rg_previous_release g
  ∧ tx_previous_archive_sha256 tx = rg_previous_archive_sha256 g
  ∧ tx_previous_reconciler tx = rg_reconciler g
  ∧ tx_previous_repository_lineage tx = rg_previous_repository_lineage g
  ∧ tx_candidate_rejection_sha256 tx = rg_candidate_rejection_sha256 g.
Proof. unfold matches_rollback_guard. intros. by bool_to_prop. Qed.

Lemma pending_rollback_unit r i j :
  pending_rollback_is_authorized r i j = true →
  ∃ g, st_rollback_guard i = Some g ∧ st_rollback_guard j = None
       ∧ st_release j = rg_previous_release g
       ∧ st_archive_sha256 j = rg_previous_archive_sha256 g
       ∧ st_reconciler j = rg_reconciler g
       ∧ rejection_is_durable r (st_repository_lineage i) (rg_candidate_rejection_sha256 g) = true.
Proof.
  unfold pending_rollback_is_authorized. destruct (st_rollback_guard i) as [g|]; [|done].
  intros. bool_to_prop. by exists g.
Qed.

(** The two journal-authorised transitions. *)
Lemma journal_authorizes_cases r tx i j :
  journal_authorizes r tx i j = true →
  ((tx_phase tx = Converged ∨ tx_phase tx = Verified)
   ∧ tx_candidate_rejection_required tx = false
   ∧ matches_previous tx i = true ∧ matches_candidate tx j = true ∧ is_proven j = true
   ∧ ∃ g, st_rollback_guard j = Some g ∧ matches_rollback_guard tx g = true)
  ∨ (tx_phase tx = RolledBack ∧ matches_candidate tx i = true ∧ matches_previous tx j = true
     ∧ st_rollback_guard j = None).
Proof.
  unfold journal_authorizes. destruct (_ && is_proven j) eqn:Hf.
  - intros _. left. bool_to_prop. destruct (st_rollback_guard j) as [g|]; [|done].
    split_and!; [destruct (tx_phase tx); auto; done|done..|by exists g].
  - intros. right. clear Hf. by bool_to_prop.
Qed.

(** ** Invariants of every history *)

Definition journals_exclusive (m : machine) : Prop := m_journal m = None ∨ m_install m = None.

(** While an update journal is durable, the installed record is its predecessor or its
    candidate, and any rollback guard is that transaction's own. *)
Definition journal_coherent (m : machine) : Prop :=
  ∀ tx, m_journal m = Some tx →
  ∃ i, m_installed m = Some i ∧ (runs_previous tx i ∨ runs_candidate tx i)
       ∧ ∀ g, st_rollback_guard i = Some g →
              matches_rollback_guard tx g = true ∧ runs_candidate tx i.

Definition install_coherent (m : machine) : Prop :=
  ∀ tx i, m_install m = Some tx → m_installed m = Some i →
  it_release tx = st_release i ∧ it_archive_sha256 tx = st_archive_sha256 i
  ∧ it_reconciler tx = st_reconciler i ∧ st_rollback_guard i = None.

Definition store_coherent (m : machine) : Prop :=
  journals_exclusive m ∧ journal_coherent m ∧ install_coherent m.

Lemma same_identity_runs tx tx' i :
  same_identity tx tx' →
  (runs_previous tx i ↔ runs_previous tx' i) ∧ (runs_candidate tx i ↔ runs_candidate tx' i)
  ∧ ∀ g, matches_rollback_guard tx g = matches_rollback_guard tx' g.
Proof.
  unfold same_identity, runs_previous, runs_candidate, matches_rollback_guard.
  intros (E1 & E2 & E3 & E4 & E5 & E6 & E7 & E8 & E9 & E10).
  by rewrite ?E1, ?E2, ?E3, ?E4, ?E5, ?E6, ?E7, ?E9, ?E10.
Qed.

Lemma may_start_coherent m tx :
  may_start m tx = true → journal_coherent (set_journal (Some tx) m).
Proof.
  unfold may_start, guard_starts, update_starts. intros Hs tx' [= <-]. simpl.
  destruct (m_installed m) as [i|]; [|done]. exists i. split; [done|].
  destruct (st_rollback_guard i) as [g|]; simpl in Hs; bool_to_prop.
  - destruct Hs as [Hs|Hs]; bool_to_prop; [|done].
    split; [right; by apply matches_candidate_runs|].
    intros ? [= <-]. split; [done|]. by apply matches_candidate_runs.
  - split; [left; by apply matches_previous_runs|done].
Qed.

Lemma write_journal_coherent r m tx :
  may_write_journal r m tx = true → journal_coherent m →
  journal_coherent (set_journal (Some tx) m).
Proof.
  unfold may_write_journal. intros Hw Hc. bool_to_prop.
  destruct (m_journal m) as [ex|] eqn:Hj; [|by apply may_start_coherent].
  case_bool_decide; bool_to_prop; [|by apply may_start_coherent].
  intros tx' [= <-]. destruct (Hc ex Hj) as (i & Hi & Hr & Hg). exists i. split; [done|].
  assert (same_identity ex tx) as Hid by (by apply rewrite_step_identity, permits_replacement_sound).
  destruct (same_identity_runs ex tx i Hid) as (Hp & Hca & Hgu).
  setoid_rewrite <-Hgu. setoid_rewrite <-Hca. rewrite <-Hp. done.
Qed.

Lemma runs_same_unit tx i j :
  same_unit i j → (runs_previous tx i → runs_previous tx j)
                  ∧ (runs_candidate tx i → runs_candidate tx j).
Proof. unfold same_unit, runs_previous, runs_candidate. by intros (-> & -> & ->). Qed.

Lemma commit_journal_coherent r m s :
  may_commit r m s = true → store_coherent m →
  journal_coherent (set_installed (Some s) m).
Proof.
  unfold may_commit. intros Hc (_ & Hj & _) tx Htx. simpl in Htx.
  destruct (Hj tx Htx) as (i & Hi & Hr & Hg). rewrite Hi, Htx in Hc. simpl in Hc.
  exists s. split; [done|]. apply andb_true_iff in Hc as [_ Hc].
  apply orb_true_iff in Hc as [[Hm|Hp]%orb_true_iff|Hjr].
  - apply metadata_transition_unit in Hm as [Hu Hgd].
    destruct (runs_same_unit tx i s Hu) as [Hup Huc].
    split; [naive_solver|]. intros g Hsg. destruct Hgd as [Hgd|Hgd]; [|congruence].
    rewrite Hgd in Hsg. destruct (Hg g Hsg). auto.
  - apply pending_rollback_unit in Hp as (g & Hig & Hsg & ? & ? & ? & _).
    destruct (Hg g Hig) as [Hm _].
    apply matches_rollback_guard_previous in Hm as (? & ? & ? & _).
    split; [left; split_and!; congruence|]. by rewrite Hsg.
  - apply journal_authorizes_cases in Hjr as [(_ & _ & _ & Hcand & _ & g & Hsg & Hm)
      | (_ & _ & Hprev & Hsg)].
    + apply matches_candidate_runs in Hcand. split; [auto|].
      rewrite Hsg. by intros ? [= <-].
    + apply matches_previous_runs in Hprev. split; [auto|]. by rewrite Hsg.
Qed.

Lemma commit_install_coherent r m s :
  may_commit r m s = true → store_coherent m →
  install_coherent (set_installed (Some s) m).
Proof.
  unfold may_commit. intros Hc (He & _ & Hi) tx ? Htx [= <-]. simpl in Htx.
  destruct He as [Hnj|Hni]; [|congruence]. rewrite Htx, Hnj in Hc. simpl in Hc.
  apply andb_true_iff in Hc as [_ Hc].
  destruct (m_installed m) as [i|] eqn:Him.
  - destruct (Hi tx i Htx Him) as (? & ? & ? & Hg).
    rewrite orb_false_r in Hc. apply orb_true_iff in Hc as [Hm|Hp].
    + apply metadata_transition_unit in Hm as [(? & ? & ?) Hgd].
      split_and!; [congruence..|]. destruct Hgd; congruence.
    + apply pending_rollback_unit in Hp as (g & Hig & _). congruence.
  - bool_to_prop. unfold matches_installed in *. by bool_to_prop.
Qed.

Lemma machine_step_coherent r m m' :
  machine_step r m m' → store_coherent m → store_coherent m'.
Proof.
  intros Hs Hm. pose proof Hm as (He & Hj & Hi).
  destruct Hs as [s Hv Hc|rel Hv|tx Hv Hw|Hd|tx Hv Hw|Hc|l Hl Hok|Hen].
  - split_and!; [done|by eapply commit_journal_coherent|by eapply commit_install_coherent].
  - done.
  - split_and!; [|by eapply write_journal_coherent|done].
    right. unfold may_write_journal in Hw. by bool_to_prop.
  - split_and!; [by left|by intros tx ?|done].
  - unfold may_write_install in Hw. bool_to_prop. split_and!; [by left|by intros ?; simpl; congruence|].
    intros tx' i [= <-] Hin. simpl in Hin.
    destruct (m_install m) as [ex|] eqn:Hex; [|bool_to_prop; congruence].
    destruct (Hi ex i Hex Hin) as (? & ? & ? & ?). bool_to_prop.
    match goal with Hp : install_permits_replacement _ _ = true |- _ =>
      apply install_permits_replacement_spec in Hp as [->|(p & _ & ->)] end; done.
  - split_and!; [by right|done|by intros tx i ?].
  - done.
  - done.
Qed.

(** Through every sequence of store calls by any caller, with every fault and crash: the
    update and first-install journals are never both durable; while an update journal is
    durable the installed record exists and runs exactly its predecessor or its candidate,
    and carries no foreign rollback guard; and an installed record under a first-install
    journal is that install's own. *)
Lemma store_history_coherent m m' :
  history m m' → store_coherent m → store_coherent m'.
Proof. apply history_invariant. intros r ? ? _. apply machine_step_coherent. Qed.

(** ** A verdict owed by a journal is never lost *)

(** The rejection [tx] owes has been recorded, or is still owed by the durable journal. *)
Definition verdict_kept (tx : Transaction) (m : machine) : Prop :=
  rejection_key (tx_candidate_repository_lineage tx) (tx_candidate_rejection_sha256 tx)
    ∈ m_ledger m
  ∨ ∃ tx', m_journal m = Some tx' ∧ same_identity tx tx'
           ∧ tx_candidate_rejection_required tx' = true.

Lemma may_discard_verdict r m tx :
  live_ok r m → may_discard r m tx = true → tx_candidate_rejection_required tx = true →
  rejection_key (tx_candidate_repository_lineage tx) (tx_candidate_rejection_sha256 tx)
    ∈ m_ledger m.
Proof.
  unfold may_discard. intros Hl Hd Hr. rewrite Hr in Hd. simpl in Hd. bool_to_prop.
  by eapply rejection_is_durable_ledger.
Qed.

Lemma same_identity_verdict tx tx' :
  same_identity tx tx' →
  rejection_key (tx_candidate_repository_lineage tx') (tx_candidate_rejection_sha256 tx')
  = rejection_key (tx_candidate_repository_lineage tx) (tx_candidate_rejection_sha256 tx).
Proof. by intros (_ & _ & _ & _ & _ & _ & -> & -> & _). Qed.

Lemma same_identity_trans t u v : same_identity t u → same_identity u v → same_identity t v.
Proof. unfold same_identity. intuition congruence. Qed.

Lemma rewrite_step_rejection t n :
  rewrite_step t n → tx_candidate_rejection_required t = true →
  tx_candidate_rejection_required n = true.
Proof. by intros []. Qed.

Lemma machine_step_verdict r m m' tx :
  live_ok r m → machine_step r m m' → verdict_kept tx m → verdict_kept tx m'.
Proof.
  intros Hl Hs [Hk|(tx' & Hj & Hid & Hr)].
  { left. destruct Hs; simpl; auto. }
  assert (may_discard r m tx' = true → verdict_kept tx m') as Hdisc.
  { intros Hd. apply (may_discard_verdict r m tx' Hl) in Hd; [|done].
    rewrite (same_identity_verdict tx tx' Hid) in Hd. left. destruct Hs; simpl; auto. }
  destruct Hs as [s Hv Hc|rel Hv|txn Hv Hw|Hd|txn Hv Hw|Hc|l Hsub Hok|Hen];
    try (right; exists tx'; done).
  - unfold may_write_journal in Hw. rewrite Hj in Hw. bool_to_prop.
    case_bool_decide; bool_to_prop; [|by apply Hdisc]. right. exists txn. split; [done|].
    match goal with Hp : permits_replacement _ _ = true |- _ =>
      apply permits_replacement_sound in Hp end.
    split; [eapply same_identity_trans; [done|]; by apply rewrite_step_identity
           |by eapply rewrite_step_rejection].
  - by apply Hdisc, Hd.
Qed.

(** A rejection verdict recorded in a durable journal is never lost: after every
    sequence of store calls, faults and crashes, either the verdict's key is in the durable
    rejection record or a journal of that same transaction still owes it. *)
Lemma owed_verdict_never_lost m m' tx :
  history m m' → m_journal m = Some tx → tx_candidate_rejection_required tx = true →
  verdict_kept tx m'.
Proof.
  intros Hh Hj Hr. apply (history_invariant (verdict_kept tx) m m'); [|done|].
  - intros r m1 m2. apply machine_step_verdict.
  - right. by exists tx.
Qed.

(** ** An unsettled transaction is never abandoned *)

(** The evidence that [tx] owes the machine nothing, over the durable state alone. *)
Definition settled (m : machine) (tx : Transaction) : Prop :=
  (tx_candidate_rejection_required tx = true →
   rejection_key (tx_candidate_repository_lineage tx) (tx_candidate_rejection_sha256 tx)
     ∈ m_ledger m)
  ∧ (tx_phase tx = Prepared
     ∨ (∃ i g, m_installed m = Some i ∧ matches_candidate tx i = true
               ∧ st_rollback_guard i = Some g ∧ matches_rollback_guard tx g = true
               ∧ (tx_phase tx = Converged ∨ tx_phase tx = Verified ∨ tx_phase tx = Committed))
     ∨ (∃ i, m_installed m = Some i ∧ matches_previous tx i = true
             ∧ m_active m = Some (tx_previous_release tx) ∧ tx_phase tx = RolledBack)).

Lemma forward_commit_is_durable_inv tx i :
  forward_commit_is_durable tx i = true →
  matches_candidate tx i = true
  ∧ ∃ g, st_rollback_guard i = Some g ∧ matches_rollback_guard tx g = true.
Proof.
  unfold forward_commit_is_durable. intros. bool_to_prop. split; [done|].
  destruct (st_rollback_guard i) as [g|]; [|done]. by exists g.
Qed.

Lemma may_discard_settled r m tx : live_ok r m → may_discard r m tx = true → settled m tx.
Proof.
  intros Hl Hd. split; [by intros; eapply may_discard_verdict|].
  unfold may_discard in Hd. apply andb_true_iff in Hd as [_ Hd].
  destruct (tx_phase tx) eqn:Hp; try done; [by left|..]; right.
  1-3: left; destruct (m_installed m) as [i|]; [|done];
    apply forward_commit_is_durable_inv in Hd as (? & g & ? & ?); exists i, g; by auto 10.
  right. bool_to_prop. destruct (m_installed m) as [i|]; [|done]. by exists i.
Qed.

(** No write can abandon an update: from any machine holding a journal, every write
    keeps that journal, replaces it by a permitted rewrite of the same transaction, or
    happens when the transaction is settled (nothing swapped, its commit and rollback guard
    durable, or its rollback complete with the pointer and record back on the predecessor)
    with every verdict it owes recorded. *)
Lemma unsettled_transaction_never_abandoned r m m' tx :
  live_ok r m → machine_step r m m' → m_journal m = Some tx →
  (∃ tx', m_journal m' = Some tx' ∧ permits_replacement tx tx' = true) ∨ settled m tx.
Proof.
  intros Hl Hs Hj.
  assert (permits_replacement tx tx = true) as Hrefl
    by (apply permits_replacement_complete; constructor).
  destruct Hs as [s Hv Hc|rel Hv|txn Hv Hw|Hd|txn Hv Hw|Hc|l Hsub Hok|Hen];
    try (left; by exists tx).
  - unfold may_write_journal in Hw. rewrite Hj in Hw. bool_to_prop.
    case_bool_decide; bool_to_prop; [left; by exists txn|].
    right. by eapply may_discard_settled.
  - right. eapply may_discard_settled; eauto.
Qed.

(** An installed record changes its executable unit only under durable intent: forward
    to the candidate of a converged, unrejected journal together with the guard that undoes
    it; back to the predecessor of a journal whose rollback is complete; or back to the
    predecessor its own guard names once the failed candidate's verdict is durable.  In each
    case the active pointer already names the new release. *)
Lemma installed_unit_changes_only_under_intent r m m' i j :
  live_ok r m → machine_step r m m' →
  m_installed m = Some i → m_installed m' = Some j → ¬ same_unit i j →
  m_active m = Some (st_release j)
  ∧ ((∃ tx g, m_journal m = Some tx ∧ (tx_phase tx = Converged ∨ tx_phase tx = Verified)
              ∧ tx_candidate_rejection_required tx = false
              ∧ matches_previous tx i = true ∧ matches_candidate tx j = true
              ∧ st_rollback_guard j = Some g ∧ matches_rollback_guard tx g = true)
     ∨ (∃ tx, m_journal m = Some tx ∧ tx_phase tx = RolledBack
              ∧ matches_candidate tx i = true ∧ matches_previous tx j = true
              ∧ st_rollback_guard j = None)
     ∨ (∃ g, st_rollback_guard i = Some g ∧ st_rollback_guard j = None
             ∧ st_release j = rg_previous_release g
             ∧ st_archive_sha256 j = rg_previous_archive_sha256 g
             ∧ rejection_key (st_repository_lineage i) (rg_candidate_rejection_sha256 g)
                 ∈ m_ledger m)).
Proof.
  intros Hl Hs Hi Hj Hne.
  destruct Hs as [s Hv Hc|rel Hv|txn Hv Hw|Hd|txn Hv Hw|Hc|l Hsub Hok|Hen]; simpl in Hj;
    try (exfalso; apply Hne; unfold same_unit; by simplify_eq).
  injection Hj as ->. unfold may_commit in Hc. rewrite Hi in Hc. bool_to_prop. split; [done|].
  destruct H2 as [[Hm|Hp]%orb_true_iff|Hjr].
  - by apply metadata_transition_unit in Hm as [? _].
  - apply pending_rollback_unit in Hp as (g & ? & ? & ? & ? & ? & Hdur).
    right. right. exists g. split_and!; try done. by eapply rejection_is_durable_ledger.
  - destruct (m_journal m) as [tx|]; [|done]. simpl in Hjr.
    apply journal_authorizes_cases in Hjr as [(? & ? & ? & ? & ? & g & ? & ?)|(? & ? & ? & ?)].
    + left. by exists tx, g.
    + right. left. by exists tx.
Qed.

(** ** A leftover committed journal *)

(** The committed journal of an update whose rollback guard is gone. *)
Definition wedged (tx : Transaction) (m : machine) : Prop :=
  m_journal m = Some tx ∧ tx_phase tx = Committed
  ∧ ∃ i, m_installed m = Some i ∧ st_rollback_guard i = None.

Lemma wedged_no_discard r m tx : wedged tx m → may_discard r m tx = false.
Proof.
  intros (Hj & Hp & i & Hi & Hg). unfold may_discard, forward_commit_is_durable.
  rewrite Hp, Hi. simpl. rewrite Hg. simpl. by rewrite !andb_false_r.
Qed.

Lemma wedged_step r m m' tx :
  machine_step r m m' → wedged tx m → wedged tx m'.
Proof.
  intros Hs Hw. pose proof Hw as (Hj & Hp & i & Hi & Hg).
  destruct Hs as [s Hv Hc|rel Hv|txn Hv Hwr|Hd|txn Hv Hwi|Hc|l Hsub Hok|Hen];
    try (split_and!; [done|done|by exists i]).
  - split_and!; [done|done|]. exists s. split; [done|].
    unfold may_commit in Hc. rewrite Hi, Hj in Hc. bool_to_prop.
    destruct H2 as [[Hm|Hpr]%orb_true_iff|Hjr].
    + apply metadata_transition_unit in Hm as [_ [->|]]; done.
    + apply pending_rollback_unit in Hpr as (g & ? & _). congruence.
    + apply journal_authorizes_cases in Hjr as [([?|?] & _)|(? & _)]; congruence.
  - unfold may_write_journal in Hwr. rewrite Hj in Hwr. apply andb_true_iff in Hwr as [_ Hwr].
    case_bool_decide; [|by rewrite wedged_no_discard in Hwr].
    apply andb_true_iff in Hwr as [Hpr Hres]. apply permits_replacement_sound in Hpr.
    destruct Hpr as [|p He Hev|Hcm|Hph Hr|Hph Hle]; rewrite Hp in *; simpl in *.
    + split_and!; [done|done|by exists i].
    + by destruct p.
    + unfold guard_starts in Hres. by rewrite Hi, Hg in Hres.
    + by destruct Hph.
    + by destruct Hph.
  - specialize (Hd tx Hj). by rewrite wedged_no_discard in Hd.
Qed.

(** When the confirmation window drops the rollback guard while the update's committed
    journal is still on disk, the journal can never be cleared or replaced again: no
    sequence of store calls, restarts included, gets rid of it, and with it no later update
    can start. *)
Lemma disarm_over_committed_journal_is_permanent r m tx i g :
  m_journal m = Some tx → tx_phase tx = Committed →
  m_installed m = Some i → InstalledState_validate i = Ok tt → st_rollback_guard i = Some g →
  m_active m = Some (st_release i) →
  ∃ m1, machine_step r m m1 ∧ m_installed m1 = Some (disarm_rollback i).1
        ∧ ∀ m2, history m1 m2 →
            m_journal m2 = Some tx
            ∧ (∀ r', may_discard r' m2 tx = false)
            ∧ ∀ r' tx', tx_id tx' ≠ tx_id tx → may_write_journal r' m2 tx' = false.
Proof.
  intros Hj Hp Hi Hv Hg Ha.
  exists (set_installed (Some (disarm_rollback i).1) m). split_and!; [|done|].
  - apply step_commit; [by apply disarm_rollback_valid|].
    unfold may_commit, metadata_transition_is_authorized. simpl. rewrite Hi, Hg, Ha.
    rewrite !bool_decide_eq_true_2 by done. simpl. case_bool_decide; [done|].
    unfold is_proven. simpl. rewrite eqb_reflx. by rewrite !bool_decide_eq_true_2 by done.
  - intros m2 Hh. assert (wedged tx m2) as Hw.
    { eapply (history_invariant (wedged tx)); [intros ? ? ? _; apply wedged_step|exact Hh|].
      split_and!; [done|done|]. by exists (disarm_rollback i).1. }
    split_and!; [apply Hw|by intros; apply wedged_no_discard|].
    intros r' tx' Hid. unfold may_write_journal. rewrite (proj1 Hw).
    rewrite (bool_decide_eq_false_2 (tx_id tx = tx_id tx')) by (by intros ?; apply Hid). by rewrite wedged_no_discard, andb_false_r.
Qed.

End spec.
