(* ===== verification/StoreRefine.v ===== *)
(** * StoreRefine: the store's programs implement its specification

    Relates the files of [Store.v] to the machine of [StoreSpec.v]: each guard program
    evaluates to the specification's guard, each operation makes exactly the specified
    write when its guard holds and refuses without effect when it does not, and under
    faults and crashes the files always hold the machine before or after that one write. *)
From S2P Require Import Prelude Identity State Transaction Install World Reject Store StoreSpec.

(** ** Decoded files *)

Section record_view.
Context {T : Type} `{!Serde T} `{!Journaled T}.

Definition record_view (p : path) (d : Disk) : result (option T) :=
  match file_view p JOURNAL_RECORD_MAX_BYTES d with
  | Ok raw =>
      record ← (match from_slice raw with
                | Some t => Ok t
                | None => Err (IoError InvalidData "invalid JSON")
                end);
      _ ← journaled_validate record;
      mret (Some record)
  | Err error => if is_not_found error then Ok None else Err error
  end.

(** The bytes [t] is written as, when they fit. *)
Definition encode (limit : N) (t : T) : option string :=
  match to_vec t with
  | Some b => if (limit <? str_len b)%N then None else Some b
  | None => None
  end.

Lemma encode_Some limit t b :
  encode limit t = Some b → to_vec t = Some b ∧ (limit <? str_len b)%N = false.
Proof. unfold encode. repeat case_match; naive_solver. Qed.

Lemma journal_read_evals p d pr : evals (journal_read p) d pr (record_view p d).
Proof.
  unfold journal_read, record_view. eapply evals_attempt_bind; [apply read_bounded_regular_evals|..].
  - destruct (file_view p _ d) as [raw|er]; [|by case_match; [apply evals_ret|apply evals_throw]].
    destruct (from_slice raw) as [t|]; [|apply evals_bind_err, evals_lift].
    eapply evals_bind_ok; [apply (evals_lift _ _ (Ok t))|]. simpl.
    destruct (journaled_validate t) as [[]|er] eqn:Hv; [|apply evals_bind_err, evals_lift].
    eapply evals_bind_ok; [apply (evals_lift _ _ (Ok tt))|apply evals_ret].
  - by intros [].
Qed.

Lemma record_view_write p d t b :
  journaled_validate t = Ok tt → encode JOURNAL_RECORD_MAX_BYTES t = Some b →
  record_view p (<[p := b]> d) = Ok (Some t).
Proof.
  intros Hv [Hb Hl]%encode_Some. unfold record_view, file_view.
  rewrite lookup_insert_eq, Hl, (serde_roundtrip t b Hb). simpl. by rewrite Hv.
Qed.

Lemma record_view_clear p d : record_view p (delete p d) = Ok None.
Proof. unfold record_view, file_view. by rewrite lookup_delete_eq. Qed.

Lemma record_view_other p d d' :
  d' !! p = d !! p → record_view p d' = record_view p d.
Proof. unfold record_view, file_view. by intros ->. Qed.

(** What a readable record has been checked for. *)
Lemma record_view_valid p d t :
  record_view p d = Ok (Some t) → journaled_validate t = Ok tt.
Proof.
  unfold record_view. repeat case_match; simpl; try done.
  destruct (journaled_validate t0) as [[]|] eqn:Hv; simpl; [|done]. by intros [= <-].
Qed.

(** [journal::write], guarded by the record's validity and size. *)
Lemma journal_write_changes p t d pr :
  changes (journal_write p t) d pr
    (is_ok (journaled_validate t)
     && bool_decide (is_Some (encode JOURNAL_RECORD_MAX_BYTES t)))
    (<[p := default EmptyString (encode JOURNAL_RECORD_MAX_BYTES t)]> d) tt.
Proof.
  unfold journal_write. apply changes_guard; [apply evals_lift|]. unfold encode.
  destruct (to_vec t) as [b|]; [|eapply changes_bind_err, evals_lift].
  eapply changes_bind_ok; [apply (evals_lift _ _ (Ok b))|].
  destruct (_ <? _)%N; [apply changes_throw|apply changes_durable_change].
Qed.

End record_view.

Section refine.
Context `{Sha256} `{Semver} `{Codec}.

(** A valid release identity always fits the active record: two bounded ASCII strings. *)
Class ReleaseFits : Prop :=
  release_fits : ∀ r b, ReleaseId_validate r = Ok tt → to_vec r = Some b →
                 (str_len b ≤ ACTIVE_RELEASE_BYTES_LIMIT)%N.

Definition installed_view (d : Disk) : result Installed :=
  match file_view PInstalled INSTALLED_RECORD_MAX_BYTES d with
  | Ok raw =>
      Ok (match from_slice raw with
          | Some s => if is_ok (InstalledState_validate s) then Present s else Invalid
          | None => Invalid
          end)
  | Err e => if is_not_found e then Ok Missing else Err e
  end.

Definition active_view (d : Disk) : result (option ReleaseId) :=
  match file_view PActive ACTIVE_RELEASE_BYTES_LIMIT d with
  | Ok raw =>
      release ← (match from_slice raw with
                 | Some r => Ok r
                 | None => Err (IoError InvalidData "invalid JSON")
                 end);
      _ ← ReleaseId_validate release;
      mret (Some release)
  | Err error => if is_not_found error then Ok None else Err error
  end.

Definition history_view (d : Disk) : InstallHistory :=
  match file_view PHistory (str_len INSTALL_HISTORY_MARKER) d with
  | Ok raw => if bool_decide (raw = INSTALL_HISTORY_MARKER) then HistoryPresent else HistoryInvalid
  | Err error => if is_not_found error then HistoryMissing else HistoryInvalid
  end.

(** The files of [d] decode to the machine [m]; nothing in them is corrupt. *)
Record represents (d : Disk) (m : machine) : Prop := {
  rep_installed :
    installed_view d = Ok (match m_installed m with Some s => Present s | None => Missing end);
  rep_journal : record_view PJournal d = Ok (m_journal m);
  rep_install : record_view PInstallJournal d = Ok (m_install m);
  rep_active : active_view d = Ok (m_active m);
  rep_ledger : disk_ledger d = Ok (m_ledger m);
  rep_enrolled : history_view d = if m_enrolled m then HistoryPresent else HistoryMissing;
}.

Lemma installed_evals d p : evals installed d p (installed_view d).
Proof.
  unfold installed, try_read_installed, installed_view.
  eapply evals_attempt_bind; [apply read_bounded_regular_evals|..]; [|by intros []].
  destruct (file_view _ _ d) as [raw|er]; [apply evals_ret|].
  destruct (is_not_found er); [apply evals_ret|apply evals_throw].
Qed.

Lemma active_release_evals d p : evals active_release d p (active_view d).
Proof.
  unfold active_release, read_active, active_view.
  eapply evals_attempt_bind; [apply read_bounded_regular_evals|..]; [|by intros []].
  destruct (file_view _ _ d) as [raw|er]; [|by case_match; [apply evals_ret|apply evals_throw]].
  destruct (from_slice raw) as [t|]; [|apply evals_bind_err, evals_lift].
  eapply evals_bind_ok; [apply (evals_lift _ _ (Ok t))|]. simpl.
  destruct (ReleaseId_validate t) as [[]|er] eqn:Hv; [|apply evals_bind_err, evals_lift].
  eapply evals_bind_ok; [apply (evals_lift _ _ (Ok tt))|apply evals_ret].
Qed.

(** ** Guards evaluate to their specification *)

Section guards.
Context (d : Disk) (p : Rejections) (m : machine) (Hrep : represents d m).

Lemma installed_rep :
  evals installed d p (Ok (match m_installed m with Some s => Present s | None => Missing end)).
Proof. rewrite <-(rep_installed d m Hrep). apply installed_evals. Qed.

Lemma journal_rep : evals journal d p (Ok (m_journal m)).
Proof. rewrite <-(rep_journal d m Hrep). apply journal_read_evals. Qed.

Lemma install_journal_rep : evals install_journal d p (Ok (m_install m)).
Proof. rewrite <-(rep_install d m Hrep). apply journal_read_evals. Qed.

Lemma active_release_rep : evals active_release d p (Ok (m_active m)).
Proof. rewrite <-(rep_active d m Hrep). apply active_release_evals. Qed.

(** Evaluate the next call of a guard program. *)
Ltac ev :=
  first [ eapply evals_bind_ok;
          [first [apply installed_rep | apply journal_rep | apply install_journal_rep
                 | apply active_release_rep | apply evals_get_proc | apply evals_ret] | cbn]
        | apply evals_ret | apply evals_throw | apply evals_lift ].

Lemma journal_may_discard_evals tx :
  evals (journal_may_discard tx) d p (Ok (may_discard p m tx)).
Proof.
  unfold journal_may_discard, may_discard. ev.
  destruct (tx_candidate_rejection_required tx && _) eqn:Hr.
  { replace (negb (tx_candidate_rejection_required tx) || _) with false; [ev|].
    symmetry. bool_to_prop. apply orb_false_iff. by rewrite negb_false_iff. }
  replace (negb (tx_candidate_rejection_required tx) || _) with true.
  2:{ symmetry. destruct (tx_candidate_rejection_required tx); simpl in *; [|done].
      by apply negb_false_iff. }
  case_bool_decide as Hp; [rewrite Hp; ev|]. ev. ev.
  destruct (m_installed m) as [i|]; simpl; destruct (tx_phase tx); try done;
    rewrite ?andb_false_r; ev.
Qed.

Lemma pending_authorizes_evals tx :
  evals (pending_authorizes_rollback_journal tx) d p (Ok (guard_starts m tx)).
Proof.
  unfold pending_authorizes_rollback_journal, guard_starts. ev.
  destruct (m_installed m) as [i|]; [|ev]. destruct (st_rollback_guard i); ev.
Qed.

Lemma journal_start_evals tx :
  evals (journal_start_is_authorized tx) d p (Ok (may_start m tx)).
Proof.
  unfold journal_start_is_authorized, may_start.
  eapply evals_bind_ok; [apply pending_authorizes_evals|].
  destruct (guard_starts m tx); [ev|]. ev. unfold update_starts.
  destruct (m_installed m) as [i|]; [|ev]. simpl.
  destruct (_ && matches_previous tx i); simpl; [|ev]. ev. ev.
Qed.

Lemma forward_commit_evals tx :
  evals (forward_commit_is_authorized tx) d p (Ok (may_record_committed m tx)).
Proof.
  unfold forward_commit_is_authorized, may_record_committed. ev.
  destruct (m_installed m) as [i|]; [ev; ev|]. simpl. rewrite andb_false_r. ev.
Qed.

Lemma exclusive_update_evals :
  evals (ensure_exclusive_journal JournalUpdate) d p
    (ensure (bool_decide (m_install m = None)) InvalidInput
       "refusing to write a journal while the other transaction is durable").
Proof.
  unfold ensure_exclusive_journal. eapply evals_bind_ok; [ev; ev|].
  destruct (m_install m); simpl; ev.
Qed.

Lemma exclusive_install_evals :
  evals (ensure_exclusive_journal JournalInstall) d p
    (ensure (bool_decide (m_journal m = None)) InvalidInput
       "refusing to write a journal while the other transaction is durable").
Proof.
  unfold ensure_exclusive_journal. eapply evals_bind_ok; [ev; ev|].
  destruct (m_journal m); simpl; ev.
Qed.

End guards.

(** ** Writing one file changes one record *)

(** The other views of a disk that changed one file. *)
Ltac other_views Hrep :=
  first [rewrite <-(rep_installed _ _ Hrep) | rewrite <-(rep_journal _ _ Hrep)
        |rewrite <-(rep_install _ _ Hrep) | rewrite <-(rep_active _ _ Hrep)
        |rewrite <-(rep_ledger _ _ Hrep) | rewrite <-(rep_enrolled _ _ Hrep)];
  unfold installed_view, history_view, record_view, active_view, disk_ledger, file_view;
  by rewrite ?lookup_insert_ne, ?lookup_delete_ne by done.

Lemma rep_write_journal d m tx b :
  represents d m → Transaction_validate tx = Ok tt →
  encode JOURNAL_RECORD_MAX_BYTES tx = Some b →
  represents (<[PJournal := b]> d) (set_journal (Some tx) m).
Proof.
  intros Hrep Hv Hb. split; simpl; try other_views Hrep. by apply record_view_write.
Qed.

Lemma rep_clear_journal d m :
  represents d m → represents (delete PJournal d) (set_journal None m).
Proof. intros Hrep. split; simpl; try other_views Hrep. apply record_view_clear. Qed.

Lemma rep_write_install d m tx b :
  represents d m → InstallTransaction_validate tx = Ok tt →
  encode JOURNAL_RECORD_MAX_BYTES tx = Some b →
  represents (<[PInstallJournal := b]> d) (set_install (Some tx) m).
Proof.
  intros Hrep Hv Hb. split; simpl; try other_views Hrep. by apply record_view_write.
Qed.

Lemma rep_clear_install d m :
  represents d m → represents (delete PInstallJournal d) (set_install None m).
Proof. intros Hrep. split; simpl; try other_views Hrep. apply record_view_clear. Qed.

Lemma rep_write_installed d m s b :
  represents d m → InstalledState_validate s = Ok tt →
  encode INSTALLED_RECORD_MAX_BYTES s = Some b →
  represents (<[PInstalled := b]> d) (set_installed (Some s) m).
Proof.
  intros Hrep Hv [Hb Hl]%encode_Some. split; simpl; try other_views Hrep.
  unfold installed_view, file_view.
  by rewrite lookup_insert_eq, Hl, (serde_roundtrip s b Hb), Hv.
Qed.

Lemma rep_write_active `{!ReleaseFits} d m rel b :
  represents d m → ReleaseId_validate rel = Ok tt → to_vec rel = Some b →
  represents (<[PActive := b]> d) (set_active (Some rel) m).
Proof.
  intros Hrep Hv Hb. split; simpl; try other_views Hrep.
  unfold active_view, file_view. rewrite lookup_insert_eq.
  rewrite (proj2 (N.ltb_ge _ _)) by (by eapply release_fits).
  rewrite (serde_roundtrip rel b Hb). simpl. by rewrite Hv.
Qed.

Lemma rep_ledger_grows d d' m hs :
  represents d m → disk_ledger d' = Ok hs → (∀ p, p ≠ PRejected → d' !! p = d !! p) →
  represents d' (set_ledger hs m).
Proof.
  intros Hrep Hl Hd. split; simpl; [..|done|].
  - rewrite <-(rep_installed _ _ Hrep). unfold installed_view, file_view. by rewrite Hd.
  - rewrite <-(rep_journal _ _ Hrep). by apply record_view_other, Hd.
  - rewrite <-(rep_install _ _ Hrep). by apply record_view_other, Hd.
  - rewrite <-(rep_active _ _ Hrep). unfold active_view, file_view. by rewrite Hd.
  - rewrite <-(rep_enrolled _ _ Hrep). unfold history_view, file_view. by rewrite Hd.
Qed.

(** ** Operations as guarded changes *)

Lemma rep_enroll d m :
  represents d m → represents (<[PHistory := INSTALL_HISTORY_MARKER]> d) (set_enrolled true m).
Proof.
  intros Hrep. split; simpl; try other_views Hrep.
  unfold history_view, file_view. rewrite lookup_insert_eq, N.ltb_irrefl.
  by rewrite bool_decide_eq_true_2.
Qed.

Section operations.
Context (d : Disk) (p : Rejections) (m : machine) (Hrep : represents d m).

Lemma clear_journal_changes :
  changes clear_journal d p
    (match m_journal m with Some tx => may_discard p m tx | None => true end)
    (delete PJournal d) tt.
Proof.
  unfold clear_journal. eapply changes_bind_ok; [by apply journal_rep|].
  eapply changes_eq; [eapply changes_check; [|apply changes_durable_change]
                     |apply andb_true_r|done].
  destruct (m_journal m) as [tx|]; [|apply checks_ret].
  by apply checks_bool, journal_may_discard_evals.
Qed.

Lemma clear_install_journal_changes :
  changes clear_install_journal d p (may_clear_install m) (delete PInstallJournal d) tt.
Proof.
  unfold clear_install_journal, may_clear_install.
  eapply changes_bind_ok; [by apply install_journal_rep|].
  eapply changes_eq; [eapply changes_check; [|apply changes_durable_change]
                     |apply andb_true_r|done].
  destruct (m_install m) as [tx|]; [|apply checks_ret].
  eapply checks_read; [by apply installed_rep|]. unfold classify_install_recovery.
  destruct (m_installed m) as [i|]; simpl; [|apply checks_throw].
  destruct (matches_installed tx i); [apply checks_ret|apply checks_throw].
Qed.

Lemma write_journal_changes tx :
  changes (write_journal tx) d p
    (is_ok (Transaction_validate tx) && may_write_journal p m tx
     && bool_decide (is_Some (encode JOURNAL_RECORD_MAX_BYTES tx)))
    (<[PJournal := default EmptyString (encode JOURNAL_RECORD_MAX_BYTES tx)]> d) tt.
Proof.
  eapply changes_eq; [|shelve|done]. unfold write_journal.
  eapply changes_check; [apply checks_lift|].
  eapply changes_check; [eexists; split; [done|by apply exclusive_update_evals]|].
  eapply changes_check.
  { instantiate (1 := if bool_decide (tx_phase tx = Committed)
                      then may_record_committed m tx else true).
    case_bool_decide; [by apply checks_bool, forward_commit_evals|apply checks_ret]. }
  eapply changes_bind_ok; [by apply journal_rep|].
  eapply changes_check; [|apply journal_write_changes].
  instantiate (1 := match m_journal m with
    | Some ex =>
        (if negb (bool_decide (tx_id ex = tx_id tx)) then may_discard p m ex else true)
        && ((if negb (bool_decide (tx_id ex = tx_id tx)) then may_start m tx else true)
        && (negb (bool_decide (tx_id ex = tx_id tx) && negb (permits_replacement ex tx))
        && (if bool_decide (tx_id ex = tx_id tx) && bool_decide (tx_phase ex = Committed)
               && bool_decide (tx_phase tx = RollbackPlanned)
            then guard_starts m tx else true)))
    | None => may_start m tx
    end).
  destruct (m_journal m) as [ex|]; [|by apply checks_bool, journal_start_evals].
  apply checks_bind.
  { destruct (negb _); [by apply checks_bool, journal_may_discard_evals|apply checks_ret]. }
  apply checks_bind.
  { destruct (negb _); [by apply checks_bool, journal_start_evals|apply checks_ret]. }
  apply checks_bind; [apply checks_ensure|].
  destruct (_ && _ && _); [by apply checks_bool, pending_authorizes_evals|apply checks_ret].
  Unshelve. simpl. unfold may_write_journal.
  destruct (Transaction_validate tx) as [[]|]; simpl; [|done].
  destruct (bool_decide (m_install m = None)); simpl; [|done].
  destruct (bool_decide (tx_phase tx = Committed)); simpl;
    destruct (m_journal m) as [ex|]; simpl;
    try destruct (bool_decide (tx_id ex = tx_id tx)); simpl;
    repeat match goal with |- context [if ?b then _ else _] => destruct b end;
    rewrite ?andb_true_r, ?negb_involutive, ?andb_assoc; try done.
Qed.

Lemma write_install_journal_changes tx :
  changes (write_install_journal tx) d p
    (is_ok (InstallTransaction_validate tx) && may_write_install p m tx
     && bool_decide (is_Some (encode JOURNAL_RECORD_MAX_BYTES tx)))
    (<[PInstallJournal := default EmptyString (encode JOURNAL_RECORD_MAX_BYTES tx)]> d) tt.
Proof.
  eapply changes_eq; [|shelve|done]. unfold write_install_journal.
  eapply changes_check; [apply checks_lift|].
  eapply changes_check; [eexists; split; [done|by apply exclusive_install_evals]|].
  eapply changes_bind_ok.
  { instantiate (1 := match it_phase tx with
      | Started | InstallPrepared => true
      | Placed => bool_decide (m_active m = Some (it_release tx))
      | InstallCommitted => bool_decide (m_active m = Some (it_release tx))
                            && option_matches (matches_installed tx) (m_installed m)
      end).
    unfold install_phase_is_authorized. destruct (it_phase tx); try apply evals_ret.
    - eapply evals_bind_ok; [by apply active_release_rep|apply evals_ret].
    - eapply evals_bind_ok; [by apply installed_rep|]. destruct (m_installed m); simpl.
      + eapply evals_bind_ok; [by apply active_release_rep|apply evals_ret].
      + rewrite andb_false_r. apply evals_ret. }
  eapply changes_check; [apply checks_ensure|].
  eapply changes_bind_ok; [by apply install_journal_rep|].
  eapply changes_check; [|apply journal_write_changes].
  instantiate (1 := match m_install m with
    | Some ex => bool_decide (it_id ex = it_id tx) && install_permits_replacement ex tx
    | None => bool_decide (it_phase tx = Started)
         && negb (rejects_deployment p (it_repository_lineage tx) (it_archive_sha256 tx))
         && bool_decide (m_active m = None) && bool_decide (m_installed m = None)
    end).
  destruct (m_install m) as [ex|].
  - apply checks_bind; apply checks_ensure.
  - eapply checks_read; [|apply checks_ensure]. unfold install_start_is_authorized.
    eapply evals_bind_ok; [apply evals_get_proc|].
    destruct (bool_decide (it_phase tx = Started)); simpl; [|apply evals_ret].
    destruct (rejects_deployment _ _ _); simpl; [apply evals_ret|].
    eapply evals_bind_ok; [by apply active_release_rep|].
    eapply evals_bind_ok; [by apply installed_rep|].
    destruct (m_installed m); simpl; rewrite ?andb_false_r, ?andb_true_r; apply evals_ret.
  Unshelve. simpl. unfold may_write_install.
  destruct (InstallTransaction_validate tx) as [[]|]; simpl; [|done].
  destruct (bool_decide (m_journal m = None)); simpl; [|done].
  by rewrite andb_assoc.
Qed.

Lemma commit_installed_changes s :
  changes (commit_installed s) d p
    (is_ok (InstalledState_validate s) && may_commit p m s
     && bool_decide (is_Some (encode INSTALLED_RECORD_MAX_BYTES s)))
    (<[PInstalled := default EmptyString (encode INSTALLED_RECORD_MAX_BYTES s)]> d) tt.
Proof.
  eapply changes_eq; [|shelve|done]. unfold commit_installed.
  eapply changes_check; [apply checks_lift|].
  eapply changes_bind_ok; [by apply active_release_rep|].
  eapply changes_check.
  { instantiate (1 := bool_decide (m_active m = Some (st_release s))).
    destruct (m_active m) as [a|]; [|apply checks_throw].
    case_bool_decide as Ha; [subst; rewrite bool_decide_eq_true_2 by done; apply checks_ret|].
    rewrite bool_decide_eq_false_2 by congruence. apply checks_throw. }
  eapply changes_check.
  { unfold validate_installed_transition. eapply checks_read; [by apply installed_rep|].
    instantiate (1 := match m_installed m with
      | None => _
      | Some current =>
          if metadata_transition_is_authorized current s
             || pending_rollback_is_authorized p current s then true
          else option_matches (λ tx, journal_authorizes p tx current s) (m_journal m)
      end).
    destruct (m_installed m) as [i|].
    - eapply checks_read; [apply evals_get_proc|]. apply checks_bool.
      destruct (_ || _); [apply evals_ret|]. unfold journal_transition_is_authorized.
      eapply evals_bind_ok; [by apply journal_rep|]. destruct (m_journal m); simpl.
      + eapply evals_bind_ok; [apply evals_get_proc|apply evals_ret].
      + apply evals_ret.
    - apply checks_bool. unfold install_commit_is_authorized.
      eapply evals_bind_ok; [by apply install_journal_rep|].
      instantiate (1 := option_matches (λ tx,
        match it_phase tx with Placed | InstallCommitted => true | _ => false end
        && matches_installed tx s && bool_decide (st_rollback_guard s = None)
        && negb (is_proven s)) (m_install m)).
      destruct (m_install m); apply evals_ret. }
  unfold write_installed. eapply changes_check; [apply checks_lift|]. unfold encode.
  instantiate (1 := bool_decide (is_Some (encode INSTALLED_RECORD_MAX_BYTES s))). unfold encode.
  destruct (to_vec s) as [b|]; [|eapply changes_bind_err, evals_lift].
  eapply changes_bind_ok; [apply (evals_lift _ _ (Ok b))|].
  destruct (_ <? _)%N; [apply changes_throw|apply changes_durable_change].
  Unshelve. unfold may_commit.
  destruct (InstalledState_validate s) as [[]|]; simpl; [|done].
  destruct (bool_decide _); simpl; [|done].
  destruct (m_installed m); simpl; [|done]. by destruct (_ || _).
Qed.

(** [activate]: verification is the environment's verdict, so the call may also refuse. *)
Lemma activate_outcome rel e :
  let out := activate rel (World d p e) in
  let g := is_ok (ReleaseId_validate rel) && bool_decide (is_Some (to_vec rel)) in
  let d' := <[PActive := default EmptyString (to_vec rel)]> d in
  proc out.2 = p
  ∧ match out.1 with
    | Done _ => g = true ∧ disk out.2 = d'
    | _ => disk out.2 = d ∨ (g = true ∧ disk out.2 = d')
    end
  ∧ (quiet e → g = true → intact e (directory_name rel) = true →
     out = (Done tt, World d' p e)).
Proof.
  cbv zeta. unfold activate, verify_release, point_active, write_active, bundle_verify_release,
    atomic_write_managed, durable_change, next_fault, quiet, mbind, M_bind.
  destruct (ReleaseId_validate rel) as [[]|er] eqn:Hv; [|cbn; split_and!; auto; done].
  destruct (faults e) as [|[] fs] eqn:Hf; cbn; rewrite ?Hf; cbn;
    try (by split_and!; auto; done);
    (destruct (intact e _) eqn:Hi; cbn; [|by split_and!; auto; done]);
    (destruct (to_vec rel) as [b|]; cbn; [|by split_and!; auto; done]);
    rewrite ?Hf; cbn; try (by split_and!; auto; done).
  destruct fs as [|[] fs]; cbn; by split_and!; auto; done.
Qed.
End operations.

(** ** The facade as one interface *)

(** The calls that rewrite or remove one record. *)
Inductive record_op : Type :=
| OpCommit (s : InstalledState)
| OpWriteJournal (tx : Transaction)
| OpClearJournal
| OpWriteInstall (tx : InstallTransaction)
| OpClearInstall.

Inductive store_op : Type :=
| OpRecord (op : record_op)
| OpProve
| OpActivate (rel : ReleaseId)
| OpReject (lineage : RepositoryLineage) (digest : string)
| OpRejectDeployment (lineage : RepositoryLineage) (application_sha256 : string)
| OpFirstInstall.

Definition exec_record (op : record_op) : M unit :=
  match op with
  | OpCommit s => commit_installed s
  | OpWriteJournal tx => write_journal tx
  | OpClearJournal => clear_journal
  | OpWriteInstall tx => write_install_journal tx
  | OpClearInstall => clear_install_journal
  end.

Definition exec (op : store_op) : M unit :=
  match op with
  | OpRecord op => exec_record op
  | OpProve => _ ← store_prove_provisional; mret tt
  | OpActivate rel => activate rel
  | OpReject l digest => reject_artifact l digest
  | OpRejectDeployment l a => reject_deployment l a
  | OpFirstInstall => record_first_install
  end.

(** When a record call is allowed, and what it then does. *)
Definition record_allowed (r : Rejections) (m : machine) (op : record_op) : bool :=
  match op with
  | OpCommit s =>
      is_ok (InstalledState_validate s) && may_commit r m s
      && bool_decide (is_Some (encode INSTALLED_RECORD_MAX_BYTES s))
  | OpWriteJournal tx =>
      is_ok (Transaction_validate tx) && may_write_journal r m tx
      && bool_decide (is_Some (encode JOURNAL_RECORD_MAX_BYTES tx))
  | OpClearJournal => match m_journal m with Some tx => may_discard r m tx | None => true end
  | OpWriteInstall tx =>
      is_ok (InstallTransaction_validate tx) && may_write_install r m tx
      && bool_decide (is_Some (encode JOURNAL_RECORD_MAX_BYTES tx))
  | OpClearInstall => may_clear_install m
  end.

Definition record_effect (op : record_op) : machine → machine :=
  match op with
  | OpCommit s => set_installed (Some s)
  | OpWriteJournal tx => set_journal (Some tx)
  | OpClearJournal => set_journal None
  | OpWriteInstall tx => set_install (Some tx)
  | OpClearInstall => set_install None
  end.

Lemma record_changes op d p m :
  represents d m →
  ∃ d', changes (exec_record op) d p (record_allowed p m op) d' tt
        ∧ (record_allowed p m op = true → represents d' (record_effect op m)).
Proof.
  intros Hrep. destruct op as [s|tx| |tx|]; simpl; eexists;
    (split; [first [by apply commit_installed_changes | by apply write_journal_changes
                   | by apply clear_journal_changes | by apply write_install_journal_changes
                   | by apply clear_install_journal_changes]|]); intros Hg; bool_to_prop.
  - destruct (encode _ s) as [b|] eqn:Hb; [|by destruct H3].
    apply rep_write_installed; [done| |done]. by apply is_ok_Ok in H2 as [[] ?].
  - destruct (encode _ tx) as [b|] eqn:Hb; [|by destruct H3].
    apply rep_write_journal; [done| |done]. by apply is_ok_Ok in H2 as [[] ?].
  - by apply rep_clear_journal.
  - destruct (encode _ tx) as [b|] eqn:Hb; [|by destruct H3].
    apply rep_write_install; [done| |done]. by apply is_ok_Ok in H2 as [[] ?].
  - by apply rep_clear_install.
Qed.

Lemma record_step op r m :
  record_allowed r m op = true → machine_step r m (record_effect op m).
Proof.
  destruct op as [s|tx| |tx|]; simpl; intros Hg; bool_to_prop.
  1,2,4: match goal with Hv : is_ok _ = true |- _ => apply is_ok_Ok in Hv as [[] ?] end;
    by constructor.
  - constructor. intros tx Htx. by rewrite Htx in Hg.
  - by constructor.
Qed.

(** Without faults, every record call of the store is exactly its specification: it
    returns success precisely when the specification allows it, then holding exactly the
    specified machine, and otherwise reports an error having changed nothing. *)
Lemma store_call_is_exact op d p e m :
  represents d m → quiet e →
  if record_allowed p m op
  then ∃ d', exec_record op (World d p e) = (Done tt, World d' p e)
             ∧ represents d' (record_effect op m)
  else ∃ er, exec_record op (World d p e) = (Failed er, World d p e).
Proof.
  intros Hrep Hq. destruct (record_changes op d p m Hrep) as (d' & Hc & Hr).
  destruct (Hc e) as [(e' & He & Hout)|[Hnq _]]; [|done]. rewrite He in Hout by done.
  destruct (record_allowed p m op); [|done]. exists d'. auto.
Qed.

(** One call, whatever the environment does to it. *)
Definition one_step (p : Rejections) (m : machine) (d' : Disk) : Prop :=
  ∃ m', represents d' m' ∧ (m' = m ∨ machine_step p m m').

(** What every call re-establishes, however it ends. *)
Definition safe (p : Rejections) (m : machine) (w : world) : Prop :=
  one_step p m (disk w) ∧ ledger_inv (disk w) (proc w).

Lemma ledger_inv_rep d d' p m m' :
  ledger_inv d p → represents d m → represents d' m' → m_ledger m' = m_ledger m →
  ledger_inv d' p.
Proof.
  intros (Hok & hs & Hd & Hs) Hr Hr' Hl. split; [done|]. exists hs. split; [|done].
  rewrite <-Hd, (rep_ledger _ _ Hr), (rep_ledger _ _ Hr'). by rewrite Hl.
Qed.

Lemma wp_changes {A} (f : M A) d p g d' a m m' e :
  changes f d p g d' a → represents d m → ledger_inv d p →
  (g = true → represents d' m' ∧ m_ledger m' = m_ledger m ∧ (m' = m ∨ machine_step p m m')) →
  wp f (λ _, safe p m) (λ _, safe p m)
       (one_step p m) (World d p e).
Proof.
  intros Hc Hrep Hinv Hg.
  assert (one_step p m d ∧ ledger_inv d p) as [Hold ?] by (split; [exists m; auto|done]).
  assert (g = true → one_step p m d' ∧ ledger_inv d' p) as Hnew.
  { intros Ht. destruct (Hg Ht) as (Hr' & Hl & Hs). split; [by exists m'|].
    by eapply ledger_inv_rep. }
  unfold wp. destruct (Hc e) as [(e' & _ & Hout)|(_ & [Hf|[Ht Hf]])].
  - destruct g; [rewrite Hout; simpl; by apply Hnew|]. by destruct Hout as [er ->].
  - destruct Hf as (e' & [[k ->]| ->]); simpl; done.
  - destruct Hf as (e' & [[k ->]| ->]); simpl; by apply Hnew.
Qed.

Lemma wp_reject_step k d p m e :
  represents d m → ledger_inv d p →
  wp (reject k) (λ _, safe p m) (λ _, safe p m)
       (one_step p m) (World d p e).
Proof.
  intros Hrep Hinv.
  assert (∀ d', ledger_grows d d' → one_step p m d') as Hone.
  { intros d' [(hs & hs' & Hd & Hd' & Hsub) Hother]. exists (set_ledger hs' m).
    split; [by eapply rep_ledger_grows|]. right. constructor; [|by eapply disk_ledger_ok].
    rewrite (rep_ledger _ _ Hrep) in Hd. by injection Hd as ->. }
  eapply wp_mono; [by apply wp_reject|..|exact Hone].
  - intros [] w (? & _ & _ & ?). split; auto.
  - intros er w (? & _ & ?). split; auto.
Qed.

(** [Store::prove_provisional] commits the promoted record, or changes nothing. *)
Lemma prove_step d p m e :
  represents d m → ledger_inv d p →
  wp (exec OpProve) (λ _, safe p m) (λ _, safe p m)
       (one_step p m) (World d p e).
Proof.
  intros Hrep Hinv. simpl. unfold store_prove_provisional.
  assert (∀ b, changes (mret b : M bool) d p true d b) as Hret.
  { intros b e1. left. by exists e1. }
  apply wp_bind. apply (wp_mono _ (λ _, safe p m) _ (λ _, safe p m) _ (one_step p m)); [|done..].
  destruct (m_installed m) as [s|] eqn:Hi.
  - pose proof (installed_rep d p m Hrep) as Hev. rewrite Hi in Hev.
    destruct (prove_provisional s) as [s' changed] eqn:Hp.
    destruct changed.
    + eapply (wp_changes _ d p (record_allowed p m (OpCommit s')) _ true m
               (set_installed (Some s') m)); [|done|done|].
      * eapply changes_bind_ok; [exact Hev|]. cbv beta iota. rewrite Hp. simpl.
        intros e1. destruct (commit_installed_changes d p m Hrep s' e1)
          as [(e2 & Hq & Hout)|(Hnq & Hf)]; [left; exists e2; split; [done|]|right; split; [done|]].
        -- unfold mbind, M_bind. simpl. destruct (_ && _ && _).
           ++ by rewrite Hout.
           ++ destruct Hout as [er Hout]. rewrite Hout. by exists er.
        -- unfold faulted, mbind, M_bind in *. destruct Hf as [(e2 & [[k ->]| ->])|(? & e2 & [[k ->]| ->])];
             [left|left|right; split; [done|]..]; exists e2; [left|right|left|right]; eauto.
      * intros Hg. destruct (record_changes (OpCommit s') d p m Hrep) as (d1 & Hc1 & Hr1).
        split_and!; [|done|right; by apply (record_step (OpCommit s'))].
        simpl in Hg. bool_to_prop. destruct (encode _ s') as [b|] eqn:Hb; [|by destruct H3].
        apply rep_write_installed; [done| |done]. by apply is_ok_Ok in H2 as [[] ?].
    + eapply (wp_changes _ d p true d false m m); [|done|done|by auto].
      eapply changes_bind_ok; [exact Hev|]. cbv beta iota. rewrite Hp. simpl. apply Hret.
  - pose proof (installed_rep d p m Hrep) as Hev. rewrite Hi in Hev.
    eapply (wp_changes _ d p false d true m m); [|done|done|done].
    eapply changes_bind_ok; [exact Hev|]. apply changes_throw.
Qed.

Lemma activate_step `{!ReleaseFits} rel d p m e :
  represents d m → ledger_inv d p →
  wp (activate rel) (λ _, safe p m) (λ _, safe p m)
       (one_step p m) (World d p e).
Proof.
  intros Hrep Hinv. destruct (activate_outcome d p rel e) as (Hp & Hout & _).
  set (g := is_ok (ReleaseId_validate rel) && bool_decide (is_Some (to_vec rel))) in *.
  set (d' := <[PActive := default EmptyString (to_vec rel)]> d) in *.
  assert (g = true → represents d' (set_active (Some rel) m) ∧ one_step p m d') as Hnew.
  { unfold g, d'. intros Hg. apply andb_true_iff in Hg as [[[] Hv]%is_ok_Ok Hs]. bool_to_prop.
    destruct (to_vec rel) as [b|] eqn:Hb; [|by destruct Hs]. simpl.
    pose proof (rep_write_active d m rel b Hrep Hv Hb). split; [done|].
    exists (set_active (Some rel) m). split; [done|]. right. by constructor. }
  assert (one_step p m d) as Hold by (exists m; auto).
  assert (g = true → ledger_inv d' p) as Hinv'.
  { intros Hg. eapply ledger_inv_rep; [exact Hinv|exact Hrep|by apply Hnew|done]. }
  unfold wp, safe. destruct (activate rel (World d p e)) as [[[]|er|] w]; cbn in *; rewrite ?Hp.
  - destruct Hout as [Hg ->]. split; [by apply Hnew|auto].
  - destruct Hout as [->|[Hg ->]]; [done|]. split; [by apply Hnew|auto].
  - destruct Hout as [->|[Hg ->]]; [done|]. by apply Hnew.
Qed.

Lemma first_install_step d p m e :
  represents d m → ledger_inv d p →
  wp record_first_install (λ _ w, safe p m w ∧ m_enrolled m = false) (λ _, safe p m)
       (one_step p m) (World d p e).
Proof.
  intros Hrep Hinv. unfold safe.
  assert (one_step p m d) as Hold by (exists m; auto).
  pose proof (rep_enroll d m Hrep) as Hrep'.
  assert (m_enrolled m = false → one_step p m (<[PHistory := INSTALL_HISTORY_MARKER]> d)) as Hnew.
  { intros Hen. eexists. split; [exact Hrep'|]. right. by constructor. }
  assert (ledger_inv (<[PHistory := INSTALL_HISTORY_MARKER]> d) p) by (by eapply ledger_inv_rep).
  unfold record_first_install, read_install_history. apply wp_bind, wp_bind, wp_attempt.
  pose proof (rep_enrolled d m Hrep) as Hen. unfold history_view in Hen.
  destruct (read_bounded_regular_evals PHistory (str_len INSTALL_HISTORY_MARKER) d p e)
    as [(e1 & _ & Hout)|(_ & e1 & [[k Hout]|Hout])]; unfold wp at 1; rewrite Hout;
    [|by destruct k|done].
  destruct (file_view _ _ d) as [raw|er]; cbn.
  - by destruct (bool_decide _).
  - destruct (is_not_found er); [|done]. destruct (m_enrolled m); [done|].
    unfold atomic_write_managed.
    apply wp_durable_change; intros; unfold safe; simpl; auto.
Qed.

Lemma exec_step `{!ReleaseFits} op d p m e :
  represents d m → ledger_inv d p →
  wp (exec op) (λ _, safe p m) (λ _, safe p m)
       (one_step p m) (World d p e).
Proof.
  intros Hrep Hinv.
  assert (one_step p m d) as Hold by (exists m; auto).
  destruct op as [op| |rel|l dg|l a|].
  - destruct (record_changes op d p m Hrep) as (d' & Hc & Hr).
    eapply wp_changes; [exact Hc|done|done|]. intros Hg. split_and!; [by apply Hr|by destruct op|].
    right. by apply record_step.
  - by apply prove_step.
  - by apply activate_step.
  - simpl. unfold reject_artifact, record_rejection. apply wp_bind, wp_lift.
    destruct (store_rejection_key l dg); [by apply wp_reject_step|done].
  - simpl. unfold reject_deployment, record_rejection. apply wp_bind, wp_lift.
    destruct (deployment_rejection_sha256 a) as [dg|]; [|done]. apply wp_bind, wp_lift.
    destruct (store_rejection_key l dg); [by apply wp_reject_step|done].
  - eapply wp_mono; [by apply first_install_step|naive_solver..].
Qed.

(** ** Histories of the files *)

(** One event: a call that returns, or a call the process dies in, after which a new
    process loads the rejection record. *)
Inductive store_run : Disk * Rejections → Disk * Rejections → Prop :=
| run_call op d p e o w :
    exec op (World d p e) = (o, w) → o ≠ Died → store_run (d, p) (disk w, proc w)
| run_crash op d p e w p' e' w' :
    exec op (World d p e) = (Died, w) → load (World (disk w) p' e') = (Done tt, w') →
    store_run (d, p) (disk w', proc w').

Lemma store_run_step `{!ReleaseFits} d p d' p' m :
  store_run (d, p) (d', p') → represents d m → ledger_inv d p →
  one_step p m d' ∧ ledger_inv d' p'.
Proof.
  intros Hrun Hrep Hinv.
  inversion Hrun as [op d0 p0 e o w Hex Hne|op d0 p0 e w p1 e' w' Hex Hl]; subst;
    pose proof (exec_step op d p m e Hrep Hinv) as Hw; unfold wp in Hw; rewrite Hex in Hw.
  - by destruct o.
  - by apply load_inv in Hl as (-> & ? & _).
Qed.

Lemma ledger_live d p m : represents d m → ledger_inv d p → live_ok p m.
Proof.
  intros Hrep (_ & hs & Hd & Hs & Hc). rewrite (rep_ledger _ _ Hrep) in Hd.
  injection Hd as <-. by split.
Qed.

Lemma store_refines `{!ReleaseFits} d p d' p' m :
  represents d m → ledger_inv d p → rtc store_run (d, p) (d', p') →
  ∃ m', represents d' m' ∧ ledger_inv d' p' ∧ history m m'.
Proof.
  intros Hrep Hinv Hrun. remember (d, p) as x eqn:Hx. remember (d', p') as y eqn:Hy.
  revert d p m d' p' Hx Hy Hrep Hinv.
  induction Hrun as [x|x [d1 p1] y Hstep Hrest IH]; intros d p m d' p' -> Hy Hrep Hinv.
  - injection Hy as <- <-. exists m. split_and!; [done|done|constructor].
  - destruct (store_run_step _ _ _ _ m Hstep Hrep Hinv) as [(m1 & Hrep1 & Hm1) Hinv1].
    destruct (IH d1 p1 m1 d' p' eq_refl Hy Hrep1 Hinv1) as (m' & ? & ? & ?).
    exists m'. split_and!; [done|done|]. destruct Hm1 as [->|Hs]; [done|].
    econstructor; [by eapply ledger_live|done|done].
Qed.

Lemma first_install_disk d p e w m :
  represents d m → ledger_inv d p →
  record_first_install (World d p e) = (Done tt, w) →
  disk w = <[PHistory := INSTALL_HISTORY_MARKER]> d ∧ proc w = p.
Proof.
  intros Hrep Hinv. unfold record_first_install, read_install_history, mbind, M_bind.
  destruct (evals_attempt d p _ _
    (read_bounded_regular_evals PHistory (str_len INSTALL_HISTORY_MARKER) d p) e)
    as [(e1 & _ & ->)|(_ & [(e1 & k & ->)|(e1 & ->)])]; cbn; [|by destruct k|done].
  destruct (file_view _ _ d) as [raw|er]; cbn; [by case_bool_decide|].
  destruct (is_not_found er); cbn; [|done].
  unfold atomic_write_managed, durable_change, next_fault, mbind, M_bind. cbn.
  destruct (faults e1) as [|[] fs]; cbn; by intros [= <-].
Qed.

(** C21. The store refines its specification: every sequence of facade calls by any caller,
    with an arbitrary environment failing or killing any of their reads and writes and any
    number of restarts between them, leaves files that all decode, holding a machine
    reachable by the specification's writes alone. *)
Theorem store_refines_spec `{!ReleaseFits} d p d' p' m :
  represents d m → ledger_inv d p → rtc store_run (d, p) (d', p') →
  ∃ m', represents d' m' ∧ ledger_inv d' p' ∧ history m m'.
Proof. apply store_refines. Qed.

Lemma history_enrolled m m' : history m m' → m_enrolled m = true → m_enrolled m' = true.
Proof.
  apply (history_invariant (λ m, m_enrolled m = true)). by intros r m1 m2 _ [].
Qed.

(** Bootstrap eligibility is spent once: after [record_first_install] has succeeded, no
    later call of it succeeds, whatever calls, faults, crashes and restarts come between. *)
Lemma bootstrap_enrollment_is_spent_once `{!ReleaseFits} d p e w d' p' e' m o w' :
  represents d m → ledger_inv d p →
  record_first_install (World d p e) = (Done tt, w) →
  rtc store_run (disk w, proc w) (d', p') →
  record_first_install (World d' p' e') = (o, w') → o ≠ Done tt.
Proof.
  intros Hrep Hinv Hfirst Hrun Hagain ->.
  assert (∃ m1, represents (disk w) m1 ∧ m_enrolled m1 = true ∧ ledger_inv (disk w) (proc w))
    as (m1 & Hrep1 & Hen1 & Hinv1).
  { pose proof (first_install_disk d p e w m Hrep Hinv Hfirst) as (-> & ->).
    exists (set_enrolled true m). split_and!; [by apply rep_enroll|done|].
    eapply ledger_inv_rep; [exact Hinv|exact Hrep|by apply rep_enroll|done]. }
  destruct (store_refines _ _ _ _ m1 Hrep1 Hinv1 Hrun) as (m2 & Hrep2 & Hinv2 & Hh).
  pose proof (first_install_step d' p' m2 e' Hrep2 Hinv2) as Hw. unfold wp in Hw.
  rewrite Hagain in Hw. destruct Hw as [_ Hno]. by rewrite (history_enrolled m1 m2) in Hno.
Qed.

End refine.
