(* ===== verification/Boot.v ===== *)
(** * Boot: the pure boot planner

    Models [agent/src/domain.rs], [agent/src/boot.rs] and the pure half of
    [agent/src/recovery.rs]: what a freshly started agent derives from the installed record,
    the active pointer and the journal, before it touches anything.  Log notes are not part
    of the model; every field the executor acts on is.  The theorems show that the planner
    and the recovery driver always agree on the direction of a recovery, that exactly the
    terminal journals are spent, and that an unhealthy release is never rejected without
    cause. *)
From S2P Require Import Prelude Identity State Transaction.

(** ** Confirmation windows

    Durations are whole seconds ([Duration::as_secs]); timestamps are [u64]. *)

Definition window_passed (g : RollbackGuard) (window now : N) : bool :=
  (saturating_add u64_max (rg_committed_at g) window <=? now)%N.

Definition window_remaining (g : RollbackGuard) (window now : N) : N :=
  let ends_at := saturating_add u64_max (rg_committed_at g) window in
  N.min (ends_at - now) window.

(** ** The boot gate's identity *)

Inductive Reason : Type := ReasonInstall | ReasonUpdate | ReasonRestart.

Definition BOOT : string := "boot".

Record GateTarget : Type := mkGateTarget {
  gt_attempt : string;
  gt_reason : Reason;
  gt_candidate : ReleaseId;
  gt_candidate_archive_sha256 : string;
  gt_predecessor : ReleaseId;
  gt_predecessor_archive_sha256 : string;
  gt_reconciler : ReconcilerRelease;
}.

Definition boot_gate_target (recovery : option Transaction) (installed : InstalledState)
    (boot_reason : Reason) : GateTarget :=
  let steady :=
    mkGateTarget BOOT boot_reason (st_release installed) (st_archive_sha256 installed)
      (st_release installed) (st_archive_sha256 installed) (st_reconciler installed) in
  match recovery with
  | Some tx =>
      if is_rollback tx
      then mkGateTarget (rollback_attempt_id tx) ReasonUpdate (tx_previous_release tx)
             (tx_previous_archive_sha256 tx) (tx_candidate_release tx)
             (tx_candidate_archive_sha256 tx) (tx_previous_reconciler tx)
      else steady
  | None => steady
  end.

(** ** The situation and the plan *)

Record Situation : Type := mkSituation {
  s_installed : Installed;
  s_active : option ReleaseId;
  s_journal : option Transaction;
}.

Definition predecessor_is_active (s : Situation) : bool :=
  match s_installed s with
  | Present installed =>
      option_matches (λ g,
        negb (bool_decide (rg_previous_release g = st_release installed))
        && bool_decide (s_active s = Some (rg_previous_release g)))
        (st_rollback_guard installed)
  | _ => false
  end.

Inductive ReleaseFix : Type := FixNone | FixActivate (release : ReleaseId).

Record Plan : Type := mkPlan {
  p_fail_closed : bool;
  p_current : option string;
  p_release : ReleaseFix;
  p_clear_journal : bool;
  p_reject_candidate : list (RepositoryLineage * string);
  p_commit : option InstalledState;
}.

(** [Plan::default()], and the field assignments of the planner. *)
Definition plan_default : Plan := mkPlan false None FixNone false [] None.
Definition plan_fail : Plan := mkPlan true None FixNone false [] None.
Definition with_current (v : string) (p : Plan) : Plan :=
  mkPlan (p_fail_closed p) (Some v) (p_release p) (p_clear_journal p) (p_reject_candidate p)
    (p_commit p).
Definition with_release (r : ReleaseFix) (p : Plan) : Plan :=
  mkPlan (p_fail_closed p) (p_current p) r (p_clear_journal p) (p_reject_candidate p) (p_commit p).
Definition with_clear (p : Plan) : Plan :=
  mkPlan (p_fail_closed p) (p_current p) (p_release p) true (p_reject_candidate p) (p_commit p).
Definition with_reject (l : RepositoryLineage) (d : string) (p : Plan) : Plan :=
  mkPlan (p_fail_closed p) (p_current p) (p_release p) (p_clear_journal p)
    (p_reject_candidate p ++ [(l, d)]) (p_commit p).
Definition with_commit (s : InstalledState) (p : Plan) : Plan :=
  mkPlan (p_fail_closed p) (p_current p) (p_release p) (p_clear_journal p) (p_reject_candidate p)
    (Some s).

(** ** The planner *)

Definition drives_rollback (tx : Transaction) : bool :=
  if is_rollback tx then recovery_pending tx RolledBack
  else match advance RollbackPlanned tx with
       | Ok probe => recovery_pending probe RolledBack
       | Err _ => false
       end.

Definition journal_recovery (tx : Transaction) (active : option ReleaseId)
    (committed : option InstalledState) : Recovery :=
  match classify_recovery tx active committed with
  | RestorePredecessor => if drives_rollback tx then RestorePredecessor else RecoveryCommitted
  | recovery => recovery
  end.

Definition complete_pending_rollback (p : Plan) (pending : RollbackGuard) : Plan :=
  with_current (version (rg_previous_release pending))
    (with_commit (InstalledState_proven (rg_previous_repository_lineage pending)
                    (rg_previous_release pending) (rg_previous_archive_sha256 pending)
                    (rg_reconciler pending))
       (with_release (FixActivate (rg_previous_release pending)) p)).

Definition predecessor_of (tx : Transaction) : InstalledState :=
  InstalledState_proven (tx_previous_repository_lineage tx) (tx_previous_release tx)
    (tx_previous_archive_sha256 tx) (tx_previous_reconciler tx).

Definition reconcile_transaction (p : Plan) (situation : Situation) (tx : Transaction)
    (installed : InstalledState) : Plan * Recovery :=
  let p := with_clear p in
  let recovery := journal_recovery tx (s_active situation) (Some installed) in
  let p := if tx_candidate_rejection_required tx
           then with_reject (tx_candidate_repository_lineage tx)
                  (tx_candidate_rejection_sha256 tx) p
           else p in
  match recovery with
  | RecoveryCommitted => (p, recovery)
  | NeverSwapped | RestorePredecessor =>
      let p := match recovery with
               | RestorePredecessor => with_release (FixActivate (tx_previous_release tx)) p
               | _ => p
               end in
      let p := if is_rollback tx
               then with_current (version (tx_previous_release tx))
                      (with_commit (predecessor_of tx) p)
               else p in
      (p, recovery)
  end.

Definition enforce_installed (p : Plan) (situation : Situation) (installed : InstalledState)
    : Plan :=
  if bool_decide (s_active situation = Some (st_release installed)) then p
  else with_release (FixActivate (st_release installed)) p.

Definition plan_boot (s : Situation) : Plan :=
  match s_installed s with
  | Missing | Invalid => plan_fail
  | Present state =>
      let p := with_current (version (st_release state)) plan_default in
      let '(p, carries_recovery) :=
        match s_journal s with
        | Some tx =>
            let '(p, recovery) := reconcile_transaction p s tx state in
            (p, negb (bool_decide (recovery = RecoveryCommitted)))
        | None => (p, false)
        end in
      if carries_recovery then p
      else if predecessor_is_active s then
        match st_rollback_guard state with
        | Some pending => complete_pending_rollback p pending
        | None => p
        end
      else enforce_installed p s state
  end.

Inductive GateFailure : Type := GateRevert | GateRejectProvisional | GateReport.

Definition plan_gate_failure (installed : InstalledState) : GateFailure :=
  if bool_decide (is_Some (st_rollback_guard installed)) then GateRevert
  else if negb (is_proven installed) then GateRejectProvisional
  else GateReport.

(** ** The recovery a situation owes *)

Definition rollback_of_guarded (installed : InstalledState) (g : RollbackGuard)
    (reject_candidate : bool) : Transaction :=
  mkTransaction (rg_attempt_id g) (rg_previous_release g) (rg_previous_archive_sha256 g)
    (rg_previous_repository_lineage g) (st_release installed) (st_archive_sha256 installed)
    (rg_candidate_rejection_sha256 g) (st_repository_lineage installed) reject_candidate
    (rg_reconciler g) (st_reconciler installed) 0 RollbackPlanned.

Definition confirmation_window_rollback (s : Situation) : option Transaction :=
  if negb (predecessor_is_active s) then None
  else match s_installed s with
       | Present installed =>
           match st_rollback_guard installed with
           | Some pending => Some (rollback_of_guarded installed pending false)
           | None => None
           end
       | _ => None
       end.

Definition recovery_transaction (s : Situation) : option Transaction :=
  match s_journal s with
  | Some tx =>
      let committed := match s_installed s with Present state => Some state | _ => None end in
      match journal_recovery tx (s_active s) committed with
      | RestorePredecessor => Some tx
      | RecoveryCommitted => confirmation_window_rollback s
      | NeverSwapped => None
      end
  | None => confirmation_window_rollback s
  end.

(** ** Lemmas *)

Lemma drives_rollback_phase tx :
  phase_evidence_is_valid tx = true →
  drives_rollback tx = negb (bool_decide (tx_phase tx = Committed)
                             || bool_decide (tx_phase tx = RolledBack)).
Proof.
  unfold drives_rollback, is_rollback, advance, recovery_pending, phase_evidence_is_valid,
    evidence_possible.
  destruct tx as [? ? ? ? ? ? ? ? b ? ? n ph]; simpl.
  by destruct (n =? 0)%N, (n <=? u32_max)%N, b, ph.
Qed.

Lemma confirmation_window_rollback_Some s tx :
  confirmation_window_rollback s = Some tx →
  ∃ i g, s_installed s = Present i ∧ st_rollback_guard i = Some g
         ∧ tx = rollback_of_guarded i g false ∧ predecessor_is_active s = true.
Proof.
  unfold confirmation_window_rollback.
  destruct (predecessor_is_active s) eqn:Hp; simpl; [|done].
  destruct (s_installed s) as [i| |]; try done.
  destruct (st_rollback_guard i) as [g|] eqn:Hg; [|done]. intros [= <-]. by exists i, g.
Qed.

Lemma confirmation_window_rollback_None s i :
  s_installed s = Present i → confirmation_window_rollback s = None →
  predecessor_is_active s = false.
Proof.
  unfold confirmation_window_rollback, predecessor_is_active. intros ->.
  destruct (st_rollback_guard i) as [g|]; simpl; [|done]. by destruct (_ && _).
Qed.

(** The plan, by the direction of the journal's recovery. *)
Lemma plan_boot_cases s i :
  s_installed s = Present i →
  match s_journal s with
  | Some tx =>
      p_clear_journal (plan_boot s) = true
      ∧ match journal_recovery tx (s_active s) (Some i) with
        | RestorePredecessor =>
            p_release (plan_boot s) = FixActivate (tx_previous_release tx)
            ∧ p_commit (plan_boot s) = (if is_rollback tx then Some (predecessor_of tx) else None)
        | NeverSwapped =>
            p_release (plan_boot s) = FixNone
            ∧ p_commit (plan_boot s) = (if is_rollback tx then Some (predecessor_of tx) else None)
        | RecoveryCommitted => True
        end
  | None => p_clear_journal (plan_boot s) = false
  end
  ∧ (match s_journal s with
     | Some tx => journal_recovery tx (s_active s) (Some i) = RecoveryCommitted
     | None => True
     end →
     match predecessor_is_active s, st_rollback_guard i with
     | true, Some g =>
         p_release (plan_boot s) = FixActivate (rg_previous_release g)
         ∧ p_commit (plan_boot s) = Some (predecessor_of (rollback_of_guarded i g false))
     | _, _ =>
         p_commit (plan_boot s) = None
         ∧ p_release (plan_boot s)
           = if bool_decide (s_active s = Some (st_release i)) then FixNone
             else FixActivate (st_release i)
     end).
Proof.
  intros Hi.
  assert (Hnone : ∀ g, st_rollback_guard i = None → predecessor_is_active s = g → g = false).
  { intros g Hg. unfold predecessor_is_active. by rewrite Hi, Hg. }
  unfold plan_boot, reconcile_transaction, enforce_installed. rewrite Hi.
  destruct (s_journal s) as [tx|];
    [destruct (journal_recovery tx (s_active s) (Some i)), (tx_candidate_rejection_required tx),
       (is_rollback tx)|];
    destruct (predecessor_is_active s) eqn:Hp; destruct (st_rollback_guard i) as [g|] eqn:Hg;
    try (by specialize (Hnone true eq_refl eq_refl));
    destruct (bool_decide (s_active s = Some (st_release i))); by repeat (split || intros).
Qed.

Lemma plan_boot_rejects s i :
  s_installed s = Present i →
  p_reject_candidate (plan_boot s) =
  match s_journal s with
  | Some tx =>
      if tx_candidate_rejection_required tx
      then [(tx_candidate_repository_lineage tx, tx_candidate_rejection_sha256 tx)] else []
  | None => []
  end.
Proof.
  intros Hi. unfold plan_boot, reconcile_transaction, enforce_installed. rewrite Hi.
  destruct (s_journal s) as [tx|];
    [destruct (tx_candidate_rejection_required tx), (journal_recovery _ _ _), (is_rollback tx)|];
    destruct (predecessor_is_active s), (st_rollback_guard i), (bool_decide (s_active s = _)); done.
Qed.

(** ** Theorems *)

(** The boot planner and the recovery driver never disagree about direction: when a
    recovery transaction is owed, the plan activates exactly its predecessor and any record
    it commits is that predecessor's; when none is owed, the plan points only at the
    installed release or leaves the pointer alone. *)
Lemma planner_and_driver_agree s i :
  s_installed s = Present i →
  match recovery_transaction s with
  | Some tx =>
      p_release (plan_boot s) = FixActivate (tx_previous_release tx)
      ∧ p_commit (plan_boot s) = (if is_rollback tx then Some (predecessor_of tx) else None)
  | None =>
      p_release (plan_boot s) = FixNone
      ∨ (p_release (plan_boot s) = FixActivate (st_release i) ∧ p_commit (plan_boot s) = None)
  end.
Proof.
  intros Hi. destruct (plan_boot_cases s i Hi) as [Hj Hn].
  assert (match confirmation_window_rollback s with
          | Some tx => p_release (plan_boot s) = FixActivate (tx_previous_release tx)
                       ∧ p_commit (plan_boot s)
                         = (if is_rollback tx then Some (predecessor_of tx) else None)
          | None => p_release (plan_boot s) = FixNone
                    ∨ (p_release (plan_boot s) = FixActivate (st_release i)
                       ∧ p_commit (plan_boot s) = None)
          end
          ∨ ¬ match s_journal s with
              | Some tx => journal_recovery tx (s_active s) (Some i) = RecoveryCommitted
              | None => True
              end) as Hwin.
  { destruct (s_journal s) as [tx|].
    1: destruct (decide (journal_recovery tx (s_active s) (Some i) = RecoveryCommitted)) as [Hc|];
         [specialize (Hn Hc)|by right].
    2: specialize (Hn I).
    all: left; destruct (confirmation_window_rollback s) as [t|] eqn:Hw.
    1,3: apply confirmation_window_rollback_Some in Hw as (i' & g & Hi' & Hg & -> & Hp);
      rewrite Hi in Hi'; injection Hi' as <-; rewrite Hp, Hg in Hn; done.
    all: rewrite (confirmation_window_rollback_None s i Hi Hw) in Hn; destruct Hn as [? ?];
      case_bool_decide; auto. }
  unfold recovery_transaction. rewrite Hi. destruct (s_journal s) as [tx|].
  - destruct (journal_recovery tx (s_active s) (Some i)) eqn:Hr.
    + destruct Hwin as [?|[]]; done.
    + left. apply Hj.
    + apply Hj.
  - destruct Hwin as [?|[]]; done.
Qed.

(** A journal is spent exactly at its two terminal phases: every other valid journal can
    still drive its rollback to the end. *)
Lemma spent_journals_are_terminal `{Sha256} `{Semver} tx :
  Transaction_validate tx = Ok tt →
  (drives_rollback tx = true ↔ tx_phase tx ≠ Committed ∧ tx_phase tx ≠ RolledBack).
Proof.
  intros [_ Hev]%Transaction_validate_Ok. rewrite drives_rollback_phase by done.
  rewrite negb_true_iff, orb_false_iff, !bool_decide_eq_false. done.
Qed.

(** A boot rejects only what a durable journal already condemned: every candidate the
    plan rejects is the candidate of the journal on disk, whose record says its rejection is
    required. *)
Lemma boot_rejects_only_journaled_verdicts s l d :
  (l, d) ∈ p_reject_candidate (plan_boot s) →
  ∃ tx, s_journal s = Some tx ∧ tx_candidate_rejection_required tx = true
        ∧ l = tx_candidate_repository_lineage tx ∧ d = tx_candidate_rejection_sha256 tx.
Proof.
  destruct (s_installed s) as [i| |] eqn:Hi;
    [rewrite (plan_boot_rejects s i Hi)|unfold plan_boot; rewrite Hi; set_solver..].
  destruct (s_journal s) as [tx|]; [|set_solver]. intros Hin. exists tx. split; [done|].
  destruct (tx_candidate_rejection_required tx); [|set_solver].
  apply list_elem_of_singleton in Hin. by simplify_eq.
Qed.

(** The confirmation clock is total on [u64] times: the time left never exceeds the
    window, whatever the recorded commit time, and with a non-empty window none is left
    exactly when the window has passed. *)
Lemma confirmation_window_clock g window now :
  (window_remaining g window now ≤ window)%N
  ∧ ((0 < window)%N → (window_remaining g window now = 0%N ↔ window_passed g window now = true)).
Proof.
  unfold window_remaining, window_passed. split; [lia|]. intros Hw.
  rewrite N.leb_le. lia.
Qed.
