(* ===== verification/Update.v ===== *)
(** * Update: the update transaction, recovery and boot programs

    Models the effectful half of the agent: [agent/src/update.rs] (the readiness gate and the
    update transaction), [agent/src/recovery.rs] (the steps that finish an interrupted
    transaction), [agent/src/transient.rs] (the bounded retry) and the boot sequence of
    [agent/src/main.rs].  Reconciler hooks, health probes, the clock and random tokens are
    answered by the environment; a transaction record held in memory across calls is passed
    and returned explicitly, because a failed durable write leaves it advanced. *)
From S2P Require Import Prelude Identity State Transaction Install World Reject Store Boot.

(** ** Readiness *)

(** [need] and [consecutive] are [u32]. *)
Record Readiness : Type := mkReadiness { need : N; consecutive : N }.

Definition Readiness_new (successes : N) : Readiness := mkReadiness (N.max successes 1) 0.

Definition observe (healthy : bool) (r : Readiness) : Readiness * bool :=
  if healthy
  then let c := (consecutive r + 1)%N in (mkReadiness (need r) c, (need r <=? c)%N)
  else (mkReadiness (need r) 0, false).

Inductive Health : Type := Ready | Unhealthy | HealthInconclusive.

Definition probe_ok (p : probe) : bool :=
  match p with ProbeOk => true | _ => false end.

(** The probe loop of [became_healthy] over the probes that complete before the deadline. *)
Fixpoint gate_loop (r : Readiness) (last_probe : option probe) (probes : list probe) : Health :=
  match probes with
  | [] =>
      match last_probe with
      | Some ProbeReleaseFault => Unhealthy
      | Some ProbeInconclusive => HealthInconclusive
      | Some ProbeOk => Unhealthy
      | None => HealthInconclusive
      end
  | p :: probes =>
      let '(r, ready) := observe (probe_ok p) r in
      if ready then Ready else gate_loop r (Some p) probes
  end.

Definition gate_verdict (successes : N) (probes : list probe) : Health :=
  gate_loop (Readiness_new successes) None probes.

(** ** Transients *)

Definition is_node_local_transient (e : io_error) : bool :=
  match err_kind e with
  | StorageFull | QuotaExceeded | ReadOnlyFilesystem | ResourceBusy | Interrupted | TimedOut
  | WouldBlock | BrokenPipe | ConnectionReset | ConnectionAborted | ConnectionRefused
  | NotConnected | HostUnreachable | NetworkUnreachable | NetworkDown => true
  | Uncategorized => true  (* EIO, recognised by its raw code *)
  | _ => false
  end.

(** [recover_through_transients]: [budget] retries, threading the step's in-memory state. *)
Fixpoint retry_loop {S A} (budget : nat) (step : S → M (S * result A)) (s : S) : M (S * A) :=
  out ← step s;
  match out with
  | (s, Ok a) => mret (s, a)
  | (s, Err error) =>
      match budget with
      | 0 => throw error
      | Datatypes.S budget =>
          if is_node_local_transient error then retry_loop budget step s else throw error
      end
  end.

Definition recover_through_transients {S A} (step : S → M (S * result A)) (s : S) : M (S * A) :=
  budget ← next_patience;
  retry_loop budget step s.

(** A step without in-memory state. *)
Definition stateless {A} (m : M A) : unit → M (unit * result A) :=
  λ _, r ← attempt m; mret (tt, r).

Section agent.
Context `{Sha256} `{Semver} `{Codec}.
(** The gate's configured consecutive successes ([Timeouts::health_successes]). *)
Context (health_successes : N).

(** I/O the model keeps no state for: it may fail or die. *)
Definition io_step : M unit :=
  f ← next_fault;
  match f with
  | Healthy => mret tt
  | Fails e | FailsAfter e => os_fail e
  | Dies | DiesAfter => die
  end.

Definition became_healthy : M Health :=
  probes ← next_gate (N.to_nat (N.max health_successes 1));
  mret (gate_verdict health_successes probes).

(** [run_reconciler_mutation]: both failure classes become the invocation's I/O error. *)
Definition run_reconciler_mutation : M bool :=
  h ← next_hook;
  match h with
  | HookOk reboot => mret reboot
  | HookReleaseFault k => throw (IoError k "reconciler failed")
  | HookInconclusive k => throw (IoError k "reconciler could not be invoked")
  | HookDies => die
  end.

(** ** Transaction steps *)

Definition persist_transaction (tx : Transaction) : M unit := write_journal tx.

Definition advance_transaction (tx : Transaction) (phase : Phase) : M (Transaction * result unit) :=
  match advance phase tx with
  | Err e => mret (tx, Err e)
  | Ok tx => r ← attempt (persist_transaction tx); mret (tx, r)
  end.

Definition require_candidate_rejection (tx : Transaction) : M unit :=
  _ ← (if tx_candidate_rejection_required tx then mret tt
       else write_journal (set_rejection_required true tx));
  reject_deployment (tx_candidate_repository_lineage tx) (tx_candidate_archive_sha256 tx).

Inductive Outcome : Type := UpdateCommitted (reboot : bool) | RollbackPending.

Definition reject_then_recover (tx : Transaction) : M Outcome :=
  _ ← attempt (require_candidate_rejection tx);
  mret RollbackPending.

(** [recover_on_error!] *)
Definition recover_on_error {A} (m : M A) (k : A → M Outcome) : M Outcome :=
  r ← attempt m;
  match r with
  | Ok a => k a
  | Err _ => mret RollbackPending
  end.

Definition recover_on_error_tx (m : M (Transaction * result unit)) (k : Transaction → M Outcome)
    : M Outcome :=
  out ← m;
  match out with
  | (tx, Ok _) => k tx
  | (_, Err _) => mret RollbackPending
  end.

(** The record a committed update leaves: the candidate with its rollback guard. *)
Definition guard_of (tx : Transaction) (now : N) : RollbackGuard :=
  mkRollbackGuard (tx_id tx) (tx_candidate_rejection_sha256 tx) (tx_previous_release tx)
    (tx_previous_archive_sha256 tx) (tx_previous_repository_lineage tx)
    (tx_previous_reconciler tx) now.

Definition committed_state (tx : Transaction) (now : N) : InstalledState :=
  mkInstalledState (tx_candidate_repository_lineage tx) (tx_candidate_release tx)
    (tx_candidate_archive_sha256 tx) (tx_candidate_reconciler tx) (Some (guard_of tx now)) Proven.

(** The commit half of [switch_over]. *)
Definition commit_candidate (tx : Transaction) (reboot : bool) : M Outcome :=
  now ← now_unix;
  recover_on_error (commit_installed (committed_state tx now)) (λ _,
  recover_on_error_tx (advance_transaction tx Committed) (λ tx,
  _ ← attempt clear_journal;
  mret (UpdateCommitted reboot))).

Definition switch_over (tx : Transaction) : M Outcome :=
  recover_on_error (activate (tx_candidate_release tx)) (λ _,
  recover_on_error_tx (advance_transaction tx Activated) (λ tx,
  h ← next_hook;
  match h with
  | HookReleaseFault _ => reject_then_recover tx
  | HookInconclusive _ => mret RollbackPending
  | HookDies => die
  | HookOk reboot =>
      recover_on_error_tx (advance_transaction tx Converged) (λ tx,
      if reboot then commit_candidate tx reboot
      else
        health ← became_healthy;
        match health with
        | Unhealthy => reject_then_recover tx
        | HealthInconclusive => mret RollbackPending
        | Ready =>
            recover_on_error_tx (advance_transaction tx Verified) (λ tx,
            commit_candidate tx reboot)
        end)
  end)).

(** [execute_update] *)
Definition execute_update (candidate : ReleaseId) (candidate_archive_sha256 : string)
    (candidate_repository_lineage : RepositoryLineage)
    (candidate_reconciler : ReconcilerRelease) : M Outcome :=
  j ← journal;
  _ ← (match j with
       | None => mret tt
       | Some journal =>
           if negb (drives_rollback journal) then clear_journal
           else throw (IoError Other "an unreconciled update journal requires an agent restart")
       end);
  i ← installed;
  match i with
  | Present installed =>
      _ ← lift (check_supported candidate_reconciler);
      _ ← lift (check_supported (st_reconciler installed));
      match candidate_rejection_sha256 (st_release installed) (st_archive_sha256 installed)
              candidate candidate_archive_sha256 with
      | None => throw (IoError InvalidInput "an update must change the payload or reconciler")
      | Some rejection =>
          id ← token;
          let tx := mkTransaction id (st_release installed) (st_archive_sha256 installed)
                      (st_repository_lineage installed) candidate candidate_archive_sha256
                      rejection candidate_repository_lineage false (st_reconciler installed)
                      candidate_reconciler 0 Prepared in
          _ ← io_step;  (* prepare_update: pin the attempt's inputs *)
          _ ← persist_transaction tx;
          switch_over tx
      end
  | _ => throw (IoError Other "a verified installed release is required")
  end.

(** ** Recovery steps *)

Definition MAX_ROLLBACK_HEALTH_ATTEMPTS : N := 3.

Inductive RollbackHealthOutcome : Type := RetryGate (attempt : N) | SettledUnhealthy.

Definition bound_unhealthy_rollback (tx : Transaction)
    : M (Transaction * RollbackHealthOutcome) :=
  out ← lift (record_rollback_health_failure tx);
  let '(tx, failures) := (out : Transaction * N) in
  if (MAX_ROLLBACK_HEALTH_ATTEMPTS <=? failures)%N then
    _ ← persist_transaction tx;
    if recovery_pending tx RolledBack then
      out ← advance_transaction tx RolledBack;
      let '(tx, r) := (out : Transaction * result unit) in
      _ ← lift r;
      mret (tx, SettledUnhealthy)
    else mret (tx, SettledUnhealthy)
  else
    _ ← persist_transaction tx;
    mret (tx, RetryGate failures).

Definition reject_provisional_head (state : InstalledState) : M unit :=
  reject_deployment (st_repository_lineage state) (st_archive_sha256 state).

Definition revert_guarded_head (installed : InstalledState) (bytes_repaired : bool) : M unit :=
  match st_rollback_guard installed with
  | None => die  (* expect: a guarded head has a rollback guard *)
  | Some pending =>
      let tx := rollback_of_guarded installed pending (negb bytes_repaired) in
      j ← journal;
      _ ← (match j with
           | Some journal =>
               active ← active_release;
               if bool_decide (journal_recovery journal active (Some installed)
                               = RecoveryCommitted)
               then clear_journal else mret tt
           | None => mret tt
           end);
      _ ← persist_transaction tx;
      if tx_candidate_rejection_required tx
      then reject_deployment (tx_candidate_repository_lineage tx)
             (tx_candidate_archive_sha256 tx)
      else mret tt
  end.

(** The two hook-running recovery steps keep their transaction in memory across retries. *)
Definition complete_candidate_compensation (recovery : option Transaction)
    : M (option Transaction * result bool) :=
  match recovery with
  | None => mret (None, Ok false)
  | Some tx =>
      if negb (recovery_pending tx CandidateCompensated) then mret (Some tx, Ok false)
      else
        result ← attempt run_reconciler_mutation;
        match result with
        | Err e => mret (Some tx, Err e)
        | Ok reboot =>
            out ← advance_transaction tx CandidateCompensated;
            mret (match out with
                  | (tx, Ok _) => (Some tx, Ok reboot)
                  | (tx, Err e) => (Some tx, Err e)
                  end)
        end
  end.

Definition complete_recovery_activation (recovery : option Transaction)
    : M (option Transaction * result bool) :=
  match recovery with
  | None => mret (None, Ok false)
  | Some tx =>
      if negb (recovery_pending tx RolledBack) then mret (Some tx, Ok false)
      else
        result ← attempt run_reconciler_mutation;
        match result with
        | Err e => mret (Some tx, Err e)
        | Ok reboot =>
            if recovery_pending tx Restored then
              out ← advance_transaction tx Restored;
              mret (match out with
                    | (tx, Ok _) => (Some tx, Ok reboot)
                    | (tx, Err e) => (Some tx, Err e)
                    end)
            else mret (Some tx, Ok reboot)
        end
  end.

Definition gather_situation : M Situation :=
  active ← active_release;
  i ← installed;
  j ← journal;
  mret (mkSituation i active j).

Fixpoint reject_all (l : list (RepositoryLineage * string)) : M unit :=
  match l with
  | [] => mret tt
  | (lineage, hash) :: l => _ ← reject_artifact lineage hash; reject_all l
  end.

Definition execute_store_plan (plan : Plan) (defer_commit activate_release : bool) : M unit :=
  _ ← (if activate_release
       then match p_release plan with
            | FixNone => mret tt
            | FixActivate release => activate release
            end
       else mret tt);
  _ ← (if negb defer_commit
       then match p_commit plan with
            | Some state => commit_installed state
            | None => mret tt
            end
       else mret tt);
  reject_all (p_reject_candidate plan).

Definition installed_rollback_guard : M (option RollbackGuard) :=
  i ← installed;
  mret (match i with Present s => st_rollback_guard s | Missing | Invalid => None end).

Definition activates_release (recovery : option Transaction) : bool :=
  match recovery with
  | None => true
  | Some tx => negb (recovery_pending tx CandidateCompensated) && recovery_pending tx Restored
  end.

Definition execute_boot_plan (plan : Plan) (defer_commit : bool) (recovery : option Transaction)
    : M (option RollbackGuard) :=
  _ ← execute_store_plan plan defer_commit (activates_release recovery);
  installed_rollback_guard.

(** [disarm_update_rollback]: whether the confirmation is durable. *)
Definition disarm_update_rollback : M bool :=
  i ← attempt installed;
  match i with
  | Ok (Present st) =>
      let '(st, armed) := disarm_rollback st in
      if negb armed then mret true
      else r ← attempt (commit_installed st); mret (is_ok r)
  | Ok _ | Err _ => mret false
  end.

(** The lineage rebind of [selection.rs]: same artifact under a newly trusted repository. *)
Definition rebind_lineage (lineage : RepositoryLineage) : M unit :=
  i ← installed;
  match i with
  | Present state =>
      match rebind_if_same_artifact state lineage (st_release state) (st_archive_sha256 state)
              (st_reconciler state) with
      | Some rebound => commit_installed rebound
      | None => mret tt
      end
  | _ => mret tt
  end.

(** ** Boot *)

Inductive boot_end : Type :=
| BootReboot
| BootRunning (pending : option RollbackGuard) (gate_passed : bool).

(** Propagate a step's error, keeping its in-memory state. *)
Definition propagate {S} (m : M (S * result unit)) : M S :=
  out ← m;
  match (out : S * result unit) with
  | (s, Ok _) => mret s
  | (_, Err e) => throw e
  end.

(** Materialise the recovery's journal and put it on the rollback path. *)
Definition begin_recovery (situation : Situation) (recovery : option Transaction)
    : M (option Transaction) :=
  match recovery with
  | None => mret None
  | Some tx =>
      _ ← (if is_rollback tx && negb (bool_decide (s_journal situation = Some tx))
           then persist_transaction tx else mret tt);
      if negb (is_rollback tx)
      then tx ← propagate (advance_transaction tx RollbackPlanned); mret (Some tx)
      else mret (Some tx)
  end.

Definition read_boot_head : M InstalledState :=
  i ← installed;
  match i with
  | Present installed => mret installed
  | Missing => throw (IoError NotFound "cannot verify a boot without an installed release")
  | Invalid => throw (IoError InvalidData "cannot verify a boot with a corrupt installed release")
  end.

(** One boot convergence: a hook's own failure is a result, an infrastructure fault an error. *)
Definition boot_converge : M (option bool) :=
  h ← next_hook;
  match h with
  | HookOk reboot => mret (Some reboot)
  | HookReleaseFault _ => mret None
  | HookInconclusive k => throw (IoError k "reconciler could not be invoked")
  | HookDies => die
  end.

(** What a failed boot gate owes: returns the recovery when the boot may continue. *)
Definition answer_failed_gate (plan : Plan) (recovery : option Transaction)
    (installed_state : InstalledState) (bytes_repaired : bool) : M (option Transaction) :=
  out ← (match recovery with
         | Some tx =>
             if is_rollback tx then
               out ← bound_unhealthy_rollback tx;
               match (out : Transaction * RollbackHealthOutcome) with
               | (tx, SettledUnhealthy) =>
                   match p_commit plan with
                   | Some state => mret (Some tx, state)
                   | None => throw (IoError Other
                       "a bounded rollback settlement has no predecessor state to commit")
                   end
               | (_, RetryGate _) =>
                   throw (IoError Other "the rollback target failed its health gate")
               end
             else mret (recovery, installed_state)
         | None => mret (recovery, installed_state)
         end);
  let '(recovery, gate_failure_state) := (out : option Transaction * InstalledState) in
  match plan_gate_failure gate_failure_state with
  | GateRevert =>
      _ ← revert_guarded_head installed_state bytes_repaired;
      throw (IoError Other "the unconfirmed release failed its boot health gate")
  | GateRejectProvisional =>
      _ ← reject_provisional_head installed_state;
      throw (IoError Other "the provisional head failed its boot health gate")
  | GateReport => mret recovery
  end.

(** Everything after the gate: the rollback's last phases, its deferred commit, the journal. *)
Definition settle_boot (plan : Plan) (defer : bool) (pending : option RollbackGuard)
    (recovery : option Transaction) (gate_passed : bool) : M boot_end :=
  _ ← (if gate_passed then recover_through_transients (stateless store_prove_provisional) tt
       else mret (tt, false));
  recovery ← (match recovery with
              | Some tx =>
                  if recovery_pending tx RollbackVerified
                  then tx ← propagate (advance_transaction tx RollbackVerified); mret (Some tx)
                  else mret (Some tx)
              | None => mret None
              end);
  _ ← (match recovery with
       | Some tx =>
           if recovery_pending tx RolledBack
           then _ ← propagate (advance_transaction tx RolledBack); mret tt
           else mret tt
       | None => mret tt
       end);
  pending ← (if defer
             then match p_commit plan with
                  | Some state => _ ← commit_installed state; installed_rollback_guard
                  | None => mret pending
                  end
             else mret pending);
  _ ← (if p_clear_journal plan || defer then clear_journal else mret tt);
  mret (BootRunning pending gate_passed).

(** The gate and everything after it. *)
Definition boot_gate (plan : Plan) (defer bytes_repaired : bool) (pending : option RollbackGuard)
    (recovery : option Transaction) (head : InstalledState) (convergence : option bool)
    : M boot_end :=
  match convergence with
  | Some true => mret BootReboot
  | _ =>
      gate ← (match convergence with
              | None => mret Unhealthy
              | Some _ => became_healthy
              end);
      match gate with
      | Ready => settle_boot plan defer pending recovery true
      | _ =>
          recovery ← answer_failed_gate plan recovery head bytes_repaired;
          settle_boot plan defer pending recovery false
      end
  end.

Definition boot (bytes_repaired : bool) : M boot_end :=
  situation ← gather_situation;
  let recovery := recovery_transaction situation in
  let defer := match recovery with Some tx => is_rollback tx | None => false end in
  let plan := plan_boot situation in
  if p_fail_closed plan then throw (IoError Other "fail closed")
  else
    recovery ← begin_recovery situation recovery;
    _ ← io_step;  (* restore or acquire the attempt's inputs *)
    out ← recover_through_transients complete_candidate_compensation recovery;
    let '(recovery, reboot) := (out : option Transaction * bool) in
    if reboot then mret BootReboot
    else
      pending ← recover_through_transients (stateless (execute_boot_plan plan defer recovery)) tt;
      out ← recover_through_transients complete_recovery_activation recovery;
      let '(recovery, reboot) := (out : option Transaction * bool) in
      if reboot then mret BootReboot
      else
        head ← recover_through_transients (stateless read_boot_head) tt;
        convergence ← (match recovery with
                       | None => r ← recover_through_transients (stateless boot_converge) tt;
                                 mret r.2
                       | Some _ => mret (Some false)
                       end);
        boot_gate plan defer bytes_repaired pending.2 recovery head.2 convergence.

End agent.
