(* ===== verification/AgentLogic.v ===== *)
(** * AgentLogic: a program logic for the agent over decoded state

    Lifts the effect monad's weakest preconditions from files to the machine of
    [StoreSpec.v].  [mwp f m p Q E C]: run from files that represent [m] under the live
    ledger [p], the program [f] returns in a state satisfying [Q], reports an error in a
    state satisfying [E], or dies leaving a machine satisfying [C], whatever the
    environment does; the files decode throughout. *)
From S2P Require Import Prelude Identity State Transaction Install World Reject Store.
From S2P Require Import StoreSpec StoreRefine Boot Update.

Section logic.
Context `{Sha256} `{Semver} `{Codec} `{!ReleaseFits}.

Definition mwp {A} (f : M A) (m : machine) (p : Rejections)
    (Q : A → machine → Rejections → Prop) (E : machine → Rejections → Prop)
    (C : machine → Prop) : Prop :=
  ∀ d e, represents d m → ledger_inv d p →
  wp f (λ a w, ∃ m', represents (disk w) m' ∧ ledger_inv (disk w) (proc w) ∧ Q a m' (proc w))
       (λ _ w, ∃ m', represents (disk w) m' ∧ ledger_inv (disk w) (proc w) ∧ E m' (proc w))
       (λ d', ∃ m', represents d' m' ∧ C m') (World d p e).

Section structural.
Context {A B : Type}.
Implicit Types (m : machine) (p : Rejections) (E : machine → Rejections → Prop)
  (C : machine → Prop).

Lemma mwp_bind (f : M B) (k : B → M A) m p (Q : A → machine → Rejections → Prop) E C :
  mwp f m p (λ b m' p', mwp (k b) m' p' Q E C) E C → mwp (f ≫= k) m p Q E C.
Proof.
  intros Hf d e Hr Hl. apply wp_bind. eapply wp_mono; [by apply Hf|..]; [|done|done].
  intros b [d' p' e'] (m' & Hr' & Hl' & Hk). by apply Hk.
Qed.

Lemma mwp_ret (a : A) m p (Q : A → machine → Rejections → Prop) E C :
  Q a m p → mwp (mret a) m p Q E C.
Proof. intros HQ d e Hr Hl. apply wp_ret. by exists m. Qed.

Lemma mwp_throw er m p (Q : A → machine → Rejections → Prop) E C :
  E m p → mwp (throw er) m p Q E C.
Proof. intros HE d e Hr Hl. apply wp_throw. by exists m. Qed.

Lemma mwp_die m p (Q : A → machine → Rejections → Prop) E C : C m → mwp die m p Q E C.
Proof. intros HC d e Hr Hl. by exists m. Qed.

Lemma mwp_lift (r : result A) m p (Q : A → machine → Rejections → Prop) E C :
  match r with Ok a => Q a m p | Err _ => E m p end → mwp (lift r) m p Q E C.
Proof. destruct r; [apply mwp_ret|apply mwp_throw]. Qed.

Lemma mwp_attempt (f : M A) m p (Q : result A → machine → Rejections → Prop) E C :
  mwp f m p (λ a, Q (Ok a)) (λ m' p', ∀ er, Q (Err er) m' p') C → mwp (attempt f) m p Q E C.
Proof.
  intros Hf d e Hr Hl. apply wp_attempt. eapply wp_mono; [by apply Hf|..]; [done| |done].
  intros er w (m' & ? & ? & HE). exists m'. auto.
Qed.

Lemma mwp_mono (f : M A) m p (Q Q' : A → machine → Rejections → Prop) E E' C C' :
  mwp f m p Q E C →
  (∀ a m' p', Q a m' p' → Q' a m' p') → (∀ m' p', E m' p' → E' m' p') →
  (∀ m', C m' → C' m') → mwp f m p Q' E' C'.
Proof.
  intros Hf HQ HE HC d e Hr Hl. eapply wp_mono; [by apply Hf|..].
  - intros a w (m' & ? & ? & ?). exists m'. auto.
  - intros er w (m' & ? & ? & ?). exists m'. auto.
  - intros d' (m' & ? & ?). exists m'. auto.
Qed.

(** A program that only consumes decisions of the environment. *)
Lemma mwp_env (f : M A) m p (Q : A → machine → Rejections → Prop) E C :
  (∀ w, disk (f w).2 = disk w ∧ proc (f w).2 = proc w) →
  (∀ a, Q a m p) → E m p → C m → mwp f m p Q E C.
Proof.
  intros Hf HQ HE HC d e Hr Hl. unfold wp. specialize (Hf (World d p e)).
  destruct (f (World d p e)) as [[a|er|] [d' p' e']]; simpl in *; destruct Hf; subst;
    exists m; auto.
Qed.

(** The same when it cannot report an error. *)
Lemma mwp_decision (f : M A) m p (Q : A → machine → Rejections → Prop) E C :
  (∀ w, disk (f w).2 = disk w ∧ proc (f w).2 = proc w ∧ ∀ er, (f w).1 ≠ Failed er) →
  (∀ a, Q a m p) → C m → mwp f m p Q E C.
Proof.
  intros Hf HQ HC d e Hr Hl. unfold wp. specialize (Hf (World d p e)) as (Hd & Hp & Hne).
  destruct (f (World d p e)) as [[a|er|] [d' p' e']]; simpl in *; subst;
    [exists m; auto|by destruct (Hne er)|exists m; auto].
Qed.

(** A program that evaluates to a pure value. *)
Lemma mwp_evals (f : M A) m p v (Q : A → machine → Rejections → Prop) E C :
  (∀ d, represents d m → evals f d p (Ok v)) →
  Q v m p → E m p → C m → mwp f m p Q E C.
Proof.
  intros Hf HQ HE HC d e Hr Hl. unfold wp.
  destruct (Hf d Hr e) as [(e' & _ & ->)|(_ & e' & [[k ->]| ->])]; simpl; by exists m.
Qed.

End structural.

(** ** The store's calls *)

Section calls.
Context (m : machine) (p : Rejections) (E : machine → Rejections → Prop) (C : machine → Prop).

Lemma mwp_journal (Q : option Transaction → machine → Rejections → Prop) :
  Q (m_journal m) m p → E m p → C m → mwp journal m p Q E C.
Proof. apply mwp_evals. intros. by apply journal_rep. Qed.

Lemma mwp_installed (Q : Installed → machine → Rejections → Prop) :
  Q (match m_installed m with Some s => Present s | None => Missing end) m p →
  E m p → C m → mwp installed m p Q E C.
Proof. apply mwp_evals. intros. by apply installed_rep. Qed.

Lemma mwp_active_release (Q : option ReleaseId → machine → Rejections → Prop) :
  Q (m_active m) m p → E m p → C m → mwp active_release m p Q E C.
Proof. apply mwp_evals. intros. by apply active_release_rep. Qed.

Lemma mwp_record op (Q : unit → machine → Rejections → Prop) :
  (record_allowed p m op = true →
   Q tt (record_effect op m) p ∧ E (record_effect op m) p ∧ C (record_effect op m)) →
  E m p → C m → mwp (exec_record op) m p Q E C.
Proof.
  intros Hg HE HC d e Hr Hl. destruct (record_changes op d p m Hr) as (d' & Hc & Hr').
  assert (record_allowed p m op = true → ledger_inv d' p) as Hl'.
  { intros Ht. eapply ledger_inv_rep; [exact Hl|exact Hr|by apply Hr'|by destruct op]. }
  unfold wp. destruct (Hc e) as [(e' & _ & Hout)|(_ & [Hf|[Ht Hf]])].
  - destruct (record_allowed p m op) eqn:Ht.
    + rewrite Hout. simpl. destruct (Hg eq_refl) as (? & ? & ?). exists (record_effect op m). auto.
    + destruct Hout as [er ->]. by exists m.
  - destruct Hf as (e' & [[k ->]| ->]); by exists m.
  - destruct (Hg Ht) as (? & ? & ?).
    destruct Hf as (e' & [[k ->]| ->]); exists (record_effect op m); auto.
Qed.

Lemma mwp_activate rel (Q : unit → machine → Rejections → Prop) :
  (Q tt (set_active (Some rel) m) p ∧ E (set_active (Some rel) m) p ∧ C (set_active (Some rel) m)) →
  E m p → C m → mwp (activate rel) m p Q E C.
Proof.
  intros (HQ & HE' & HC') HE HC d e Hr Hl.
  destruct (activate_outcome d p rel e) as (Hp & Hout & _).
  set (d' := <[PActive := default EmptyString (to_vec rel)]> d) in *.
  assert (is_ok (ReleaseId_validate rel) && bool_decide (is_Some (to_vec rel)) = true →
          represents d' (set_active (Some rel) m) ∧ ledger_inv d' p) as Hnew.
  { intros [[[] Hv]%is_ok_Ok Hs]%andb_true_iff. bool_to_prop.
    destruct (to_vec rel) as [b|] eqn:Hb; [|by destruct Hs]. unfold d'. simpl.
    pose proof (rep_write_active d m rel b Hr Hv Hb). split; [done|].
    by eapply ledger_inv_rep. }
  unfold wp. destruct (activate rel (World d p e)) as [[[]|er|] w]; cbn in *; rewrite ?Hp.
  - destruct Hout as [Hg ->]. destruct (Hnew Hg). by exists (set_active (Some rel) m).
  - destruct Hout as [->|[Hg ->]]; [by exists m|]. destruct (Hnew Hg).
    by exists (set_active (Some rel) m).
  - destruct Hout as [->|[Hg ->]]; [by exists m|]. destruct (Hnew Hg).
    by exists (set_active (Some rel) m).
Qed.

(** Recording a rejection only grows the ledger. *)
Lemma mwp_reject k (Q : unit → machine → Rejections → Prop) :
  (∀ l p', m_ledger m ⊆ l → is_durably_rejected p' k = true → Q tt (set_ledger l m) p') →
  (∀ l p', m_ledger m ⊆ l → E (set_ledger l m) p') →
  (∀ l, m_ledger m ⊆ l → C (set_ledger l m)) →
  mwp (reject k) m p Q E C.
Proof.
  intros HQ HE HC d e Hr Hl.
  assert (∀ d', ledger_grows d d' →
    ∃ l, represents d' (set_ledger l m) ∧ m_ledger m ⊆ l) as Hgrow.
  { intros d' [(hs & hs' & Hd & Hd' & Hsub) Ho]. exists hs'.
    split; [by eapply rep_ledger_grows|]. rewrite (rep_ledger _ _ Hr) in Hd. by injection Hd as ->. }
  eapply wp_mono; [by apply wp_reject|..].
  - intros [] w (Hi & _ & Hdur & Hg). destruct (Hgrow _ Hg) as (l & ? & ?).
    exists (set_ledger l m). auto.
  - intros er w (Hi & _ & Hg). destruct (Hgrow _ Hg) as (l & ? & ?). exists (set_ledger l m). auto.
  - intros d' Hg. destruct (Hgrow _ Hg) as (l & ? & ?). exists (set_ledger l m). auto.
Qed.

End calls.

Lemma mwp_record_rejection l digest m p E C (Q : unit → machine → Rejections → Prop) :
  (∀ g p', m_ledger m ⊆ g → rejection_is_durable p' l digest = true → Q tt (set_ledger g m) p') →
  (∀ g p', m_ledger m ⊆ g → E (set_ledger g m) p') → E m p →
  (∀ g, m_ledger m ⊆ g → C (set_ledger g m)) →
  mwp (record_rejection l digest) m p Q E C.
Proof.
  intros HQ HE HE0 HC. unfold record_rejection. apply mwp_bind, mwp_lift.
  destruct (store_rejection_key l digest) as [key|] eqn:Hk; [|done].
  apply mwp_reject; [|done|done]. intros g p' Hs Hd. apply HQ; [done|].
  unfold rejection_is_durable. by rewrite Hk.
Qed.

Lemma mwp_reject_deployment l a m p E C (Q : unit → machine → Rejections → Prop) :
  (∀ g p', m_ledger m ⊆ g → Q tt (set_ledger g m) p') →
  (∀ g p', m_ledger m ⊆ g → E (set_ledger g m) p') → E m p →
  (∀ g, m_ledger m ⊆ g → C (set_ledger g m)) →
  mwp (reject_deployment l a) m p Q E C.
Proof.
  intros HQ HE HE0 HC. unfold reject_deployment. apply mwp_bind, mwp_lift.
  destruct (deployment_rejection_sha256 a); [|done]. by apply mwp_record_rejection; auto.
Qed.

(** Decisions of the environment. *)
Lemma mwp_next_hook m p E C (Q : hook_answer → machine → Rejections → Prop) :
  (∀ h, Q h m p) → C m → mwp next_hook m p Q E C.
Proof. apply mwp_decision. intros w. unfold next_hook. by destruct (hooks (env w)) as [|[] ?]. Qed.

Lemma mwp_next_patience m p E C (Q : nat → machine → Rejections → Prop) :
  (∀ n, Q n m p) → C m → mwp next_patience m p Q E C.
Proof. apply mwp_decision. intros w. unfold next_patience. by destruct (patience (env w)). Qed.

Lemma mwp_now_unix m p E C (Q : N → machine → Rejections → Prop) :
  (∀ n, Q n m p) → C m → mwp now_unix m p Q E C.
Proof. apply mwp_decision. intros w. unfold now_unix. by destruct (clock (env w)). Qed.

Lemma mwp_token m p E C (Q : string → machine → Rejections → Prop) :
  (∀ s, Q s m p) → E m p → C m → mwp token m p Q E C.
Proof. apply mwp_env. intros w. unfold token. by destruct (tokens (env w)). Qed.

Lemma mwp_became_healthy n m p E C (Q : Health → machine → Rejections → Prop) :
  (∀ h, Q h m p) → C m → mwp (became_healthy n) m p Q E C.
Proof.
  intros HQ HC. unfold became_healthy. apply mwp_bind, mwp_decision; [|intros; by apply mwp_ret|done].
  intros w. unfold next_gate. by destruct (gates (env w)) as [|[] ?].
Qed.

Lemma mwp_io_step m p E C (Q : unit → machine → Rejections → Prop) :
  Q tt m p → E m p → C m → mwp io_step m p Q E C.
Proof.
  intros HQ HE HC. apply mwp_env; [|by intros []|done|done]. intros w.
  unfold io_step, next_fault, mbind, M_bind. by destruct (faults (env w)) as [|[] ?].
Qed.

Lemma mwp_run_reconciler_mutation m p E C (Q : bool → machine → Rejections → Prop) :
  (∀ b, Q b m p) → E m p → C m → mwp run_reconciler_mutation m p Q E C.
Proof.
  intros HQ HE HC. unfold run_reconciler_mutation.
  apply mwp_bind, mwp_next_hook; [|done].
  intros []; [by apply mwp_ret|by apply mwp_throw..|by apply mwp_die].
Qed.

(** ** Transaction steps *)

Lemma mwp_write_journal tx m p E C (Q : unit → machine → Rejections → Prop) :
  (Transaction_validate tx = Ok tt → may_write_journal p m tx = true →
   Q tt (set_journal (Some tx) m) p ∧ E (set_journal (Some tx) m) p
   ∧ C (set_journal (Some tx) m)) →
  E m p → C m → mwp (write_journal tx) m p Q E C.
Proof.
  intros Hg HE HC. apply (mwp_record m p E C (OpWriteJournal tx)); [|done|done].
  simpl. intros Ht. bool_to_prop. apply is_ok_Ok in H3 as [[] ?]. auto.
Qed.

Lemma mwp_clear_journal m p E C (Q : unit → machine → Rejections → Prop) :
  ((∀ tx, m_journal m = Some tx → may_discard p m tx = true) →
   Q tt (set_journal None m) p ∧ E (set_journal None m) p ∧ C (set_journal None m)) →
  E m p → C m → mwp clear_journal m p Q E C.
Proof.
  intros Hg HE HC. apply (mwp_record m p E C OpClearJournal); [|done|done].
  simpl. intros Ht. apply Hg. intros tx Hj. by rewrite Hj in Ht.
Qed.

Lemma mwp_commit_installed s m p E C (Q : unit → machine → Rejections → Prop) :
  (InstalledState_validate s = Ok tt → may_commit p m s = true →
   Q tt (set_installed (Some s) m) p ∧ E (set_installed (Some s) m) p
   ∧ C (set_installed (Some s) m)) →
  E m p → C m → mwp (commit_installed s) m p Q E C.
Proof.
  intros Hg HE HC. apply (mwp_record m p E C (OpCommit s)); [|done|done].
  simpl. intros Ht. bool_to_prop. apply is_ok_Ok in H3 as [[] ?]. auto.
Qed.

(** Advancing returns the advanced record in memory even when the write failed. *)
Lemma mwp_advance tx phase m p E C (Q : Transaction * result unit → machine → Rejections → Prop) :
  (∀ er, Q (tx, Err er) m p) →
  (∀ tx', advance phase tx = Ok tx' →
     (∀ er, Q (tx', Err er) m p) ∧ C m
     ∧ (Transaction_validate tx' = Ok tt → may_write_journal p m tx' = true →
        (∀ r, Q (tx', r) (set_journal (Some tx') m) p) ∧ C (set_journal (Some tx') m))) →
  mwp (advance_transaction tx phase) m p Q E C.
Proof.
  intros Herr Hok. unfold advance_transaction.
  destruct (advance phase tx) as [tx'|er]; [|by apply mwp_ret].
  destruct (Hok tx' eq_refl) as (Hold & HC & Hnew).
  apply mwp_bind, mwp_attempt, mwp_write_journal; [|intros er; by apply mwp_ret|done].
  intros Hv Hw. destruct (Hnew Hv Hw) as [HQ HC'].
  split_and!; [by apply mwp_ret|intros er; by apply mwp_ret|done].
Qed.

(** ** Retried steps *)

(** [I] relates the in-memory state to the machine between attempts. *)
Lemma mwp_retry {S A} (I : S → machine → Rejections → Prop) (step : S → M (S * result A)) s m p
    (Q : S * A → machine → Rejections → Prop) E C :
  (∀ s m p, I s m p →
     mwp (step s) m p (λ out m' p', match out with
                                    | (s', Ok a) => Q (s', a) m' p'
                                    | (s', Err _) => I s' m' p'
                                    end) E C) →
  (∀ s m p, I s m p → E m p ∧ C m) → I s m p →
  mwp (recover_through_transients step s) m p Q E C.
Proof.
  intros Hstep HE HI. unfold recover_through_transients.
  apply mwp_bind, mwp_next_patience; [|by eapply HE]. intros budget. revert s m p HI.
  induction budget as [|n IH]; intros s m p HI; simpl; apply mwp_bind;
    (eapply mwp_mono; [by apply Hstep| |done|done]); intros [s' [a|er]] m' p' Hout.
  - by apply mwp_ret.
  - apply mwp_throw. by eapply HE.
  - by apply mwp_ret.
  - destruct (is_node_local_transient er); [by apply IH|]. apply mwp_throw. by eapply HE.
Qed.

Lemma mwp_retry_stateless {A} (I : machine → Rejections → Prop) (f : M A) m p
    (Q : unit * A → machine → Rejections → Prop) E C :
  (∀ m p, I m p → mwp f m p (λ a m' p', Q (tt, a) m' p') I C) →
  (∀ m p, I m p → E m p ∧ C m) → I m p →
  mwp (recover_through_transients (stateless f) tt) m p Q E C.
Proof.
  intros Hf HE HI. apply (mwp_retry (λ _, I)); [|by auto|done].
  intros [] m' p' HI'. unfold stateless. apply mwp_bind, mwp_attempt.
  eapply mwp_mono; [by apply Hf|..]; [intros; by apply mwp_ret|intros m1 p1 HI1 er; by apply mwp_ret|done].
Qed.

(** Confirming a provisional head rewrites its maturity, or nothing. *)
Lemma mwp_prove_provisional m p E C (Q : bool → machine → Rejections → Prop) :
  (∀ b, Q b m p) → E m p → C m →
  (∀ i, m_installed m = Some i →
     Q true (set_installed (Some (prove_provisional i).1) m) p
     ∧ E (set_installed (Some (prove_provisional i).1) m) p
     ∧ C (set_installed (Some (prove_provisional i).1) m)) →
  mwp store_prove_provisional m p Q E C.
Proof.
  intros HQ HE HC Hp. unfold store_prove_provisional.
  apply mwp_bind, mwp_installed; [|done|done].
  destruct (m_installed m) as [i|] eqn:Hi; [|by apply mwp_throw].
  destruct (Hp i eq_refl) as (? & ? & ?). simpl.
  destruct (negb _); [by apply mwp_ret|]. apply mwp_bind, mwp_commit_installed; [|done|done].
  intros _ _. split_and!; [by apply mwp_ret|done|done].
Qed.

End logic.
