(* ===== verification/Agent.v ===== *)
(** * Agent: crash safety of updates and recovery

    The invariant that ties the active pointer, the installed record and the journal
    together at every point of an agent's life, and the theorems that the programs of
    [Update.v] keep it through every fault, crash and restart, and that boot recovery ends
    fully on one release. *)
From S2P Require Import Prelude Identity State Transaction Install World Reject Store.
From S2P Require Import StoreSpec StoreRefine Boot Update AgentLogic.

(** ** The invariant *)

(** The installed record is the transaction's predecessor, with no guard. *)
Definition on_previous (tx : Transaction) (i : InstalledState) : Prop :=
  matches_previous tx i = true ∧ st_rollback_guard i = None.

(** The installed record is the transaction's candidate, with the guard that undoes it. *)
Definition on_candidate (tx : Transaction) (i : InstalledState) : Prop :=
  matches_candidate tx i = true
  ∧ ∃ g, st_rollback_guard i = Some g ∧ matches_rollback_guard tx g = true.

Definition at_previous (tx : Transaction) (m : machine) : Prop :=
  m_active m = Some (tx_previous_release tx).
Definition at_candidate (tx : Transaction) (m : machine) : Prop :=
  m_active m = Some (tx_candidate_release tx).

(** What the pointer and the record may be at each journal phase. *)
Definition stage (tx : Transaction) (m : machine) (i : InstalledState) : Prop :=
  match tx_phase tx with
  | Prepared => on_previous tx i ∧ (at_previous tx m ∨ at_candidate tx m)
  | Activated => on_previous tx i ∧ at_candidate tx m
  | Converged | Verified =>
      (on_previous tx i ∨ (on_candidate tx i ∧ tx_candidate_rejection_required tx = false))
      ∧ at_candidate tx m
  | Committed =>
      runs_candidate tx i ∧ at_candidate tx m
      ∧ ∀ g, st_rollback_guard i = Some g → matches_rollback_guard tx g = true
  | RollbackPlanned | CandidateCompensated =>
      (on_previous tx i ∨ on_candidate tx i) ∧ (at_previous tx m ∨ at_candidate tx m)
  | Restored | RollbackVerified | RolledBack =>
      (on_previous tx i ∨ on_candidate tx i) ∧ at_previous tx m
  end.

Section agent_proofs.
Context `{Sha256} `{Semver} `{Codec} `{!ReleaseFits}.
Context (health_successes : N).

Definition agent_coherent (m : machine) : Prop :=
  match m_journal m with
  | None => ∀ i, m_installed m = Some i → m_active m = Some (st_release i)
  | Some tx =>
      m_install m = None ∧ Transaction_validate tx = Ok tt
      ∧ ∃ i, m_installed m = Some i ∧ stage tx m i
  end.

(** Between cycles of a running agent no recovery is owed. *)
Definition steady (m : machine) : Prop :=
  match m_journal m with
  | None => True
  | Some tx => tx_phase tx = Committed
  end.

Lemma agent_coherent_journal m tx i :
  m_install m = None → Transaction_validate tx = Ok tt → m_installed m = Some i →
  stage tx m i → agent_coherent (set_journal (Some tx) m).
Proof. intros. split_and!; [done|done|]. by exists i. Qed.

(** The pure facts a permitted write records. *)
Lemma may_write_journal_same p m tx tx' :
  m_journal m = Some tx → tx_id tx = tx_id tx' → may_write_journal p m tx' = true →
  rewrite_step tx tx' ∧ m_install m = None
  ∧ (tx_phase tx' = Committed → at_candidate tx' m
     ∧ ∃ i, m_installed m = Some i ∧ on_candidate tx' i).
Proof.
  intros Hj Hid. unfold may_write_journal. rewrite Hj.
  rewrite (bool_decide_eq_true_2 (tx_id tx = _)) by done. intros Hw. bool_to_prop.
  split_and!; [by apply permits_replacement_sound|done|]. intros Hc.
  match goal with Hx : negb _ = true ∨ _ |- _ => destruct Hx as [Hx|Hx]; bool_to_prop; [done|] end.
  unfold may_record_committed in *. bool_to_prop. split; [done|].
  destruct (m_installed m) as [i|]; [|done]. exists i. split; [done|].
  by apply forward_commit_is_durable_inv.
Qed.

(** ** The update transaction *)

(** The commit half: from a converged, unrejected candidate the pointer names. *)
Lemma commit_candidate_coherent tx reboot m p C :
  m_journal m = Some tx → agent_coherent m →
  tx_phase tx = Converged ∨ tx_phase tx = Verified →
  tx_candidate_rejection_required tx = false →
  (∀ m', agent_coherent m' → C m') →
  mwp (commit_candidate tx reboot) m p
    (λ o m' _, agent_coherent m' ∧ match o with UpdateCommitted _ => steady m' | _ => True end)
    (λ _ _, False) C.
Proof.
  intros Hj Hac Hph Hnr HC. pose proof Hac as Hac0. unfold agent_coherent in Hac. rewrite Hj in Hac.
  destruct Hac as (Hni & Hv & i & Hi & Hst).
  assert (at_candidate tx m) as Hat by (unfold stage in Hst; destruct Hph as [Hp|Hp]; rewrite Hp in Hst; apply Hst).
  unfold commit_candidate, recover_on_error, recover_on_error_tx.
  apply mwp_bind, mwp_now_unix; [intros now|by apply HC].
  apply mwp_bind, mwp_attempt, mwp_commit_installed;
    [intros _ Hc|intros er; by apply mwp_ret|by apply HC].
  set (s := committed_state tx now). set (m1 := set_installed (Some s) m).
  assert (on_candidate tx s) as Hon.
  { unfold on_candidate, matches_candidate, matches_rollback_guard. simpl.
    rewrite !bool_decide_eq_true_2 by done. split; [done|]. eexists. split; [done|]. simpl.
    by rewrite !bool_decide_eq_true_2 by done. }
  assert (agent_coherent m1) as Hac1.
  { unfold agent_coherent. simpl. rewrite Hj. split_and!; [done|done|]. exists s. split; [done|].
    unfold stage. destruct Hph as [Hp|Hp]; rewrite Hp; auto. }
  split_and!; [|intros er; by apply mwp_ret|by apply HC].
  apply mwp_bind, mwp_advance; [intros er; by apply mwp_ret|].
  intros tx' Hadv. split_and!; [intros er; by apply mwp_ret|by apply HC|].
  intros Hv' _. apply advance_Ok in Hadv as (_ & _ & ->).
  set (tx' := set_phase Committed tx) in *.
  assert (agent_coherent (set_journal (Some tx') m1)) as Hac2.
  { eapply agent_coherent_journal; [done|done|done|]. unfold stage. simpl. split_and!; [done|done|].
    destruct Hon as (_ & g & Hg & Hm). intros g' Hg'.
    assert (Some g' = Some g) as [= ->] by (rewrite <-Hg; by rewrite <-Hg'). done. }
  split; [|by apply HC]. intros [[]|er]; [|by apply mwp_ret].
  assert (agent_coherent (set_journal None m1)) as Hac3 by (intros j [= <-]; done).
  apply mwp_bind, mwp_attempt, mwp_clear_journal.
  - intros _. split_and!; [by apply mwp_ret|intros er; by apply mwp_ret|by apply HC].
  - intros er. apply mwp_ret. by split.
  - by apply HC.
Qed.

Lemma reject_then_recover_coherent tx m p E C :
  m_journal m = Some tx → agent_coherent m →
  (∀ i, m_installed m = Some i → on_previous tx i) → (∀ m', agent_coherent m' → C m') →
  mwp (reject_then_recover tx) m p (λ o m' _, agent_coherent m' ∧ o = RollbackPending) E C.
Proof.
  intros Hj Hac Hon HC. unfold reject_then_recover, require_candidate_rejection.
  apply mwp_bind, mwp_attempt. apply mwp_bind.
  apply (mwp_mono _ m p (λ _ m' _, agent_coherent m') _ (λ m' _, agent_coherent m') _
           agent_coherent); [|intros _ m' p' Hac'|intros m' p' Hac' er; by apply mwp_ret|done].
  - destruct (tx_candidate_rejection_required tx); [by apply mwp_ret|].
    unfold agent_coherent in Hac. pose proof Hac as Hac0. rewrite Hj in Hac.
    destruct Hac as (Hni & Hv & i & Hi & Hst).
    apply mwp_write_journal; [|done|done]. intros Hv' _.
    assert (agent_coherent (set_journal (Some (set_rejection_required true tx)) m))
      by (eapply agent_coherent_journal; [done|done|exact Hi|];
          specialize (Hon i Hi); unfold stage in *; simpl; destruct (tx_phase tx); naive_solver).
    done.
  - apply mwp_reject_deployment.
    + intros g p1 _. by apply mwp_ret.
    + intros g p1 _ er. by apply mwp_ret.
    + intros er. by apply mwp_ret.
    + intros g _. by apply HC.
Qed.

(** Advancing a forward journal the pointer and record already agree with. *)
Lemma advance_forward_coherent tx next m p C (Q : Transaction * result unit → machine → Rejections → Prop) :
  m_journal m = Some tx → agent_coherent m → (∀ m', agent_coherent m' → C m') →
  (∀ i, m_installed m = Some i → stage tx m i → stage (set_phase next tx) m i) →
  (∀ tx' er m', agent_coherent m' → Q (tx', Err er) m' p) →
  (Transaction_validate (set_phase next tx) = Ok tt →
   agent_coherent (set_journal (Some (set_phase next tx)) m) →
   Q (set_phase next tx, Ok tt) (set_journal (Some (set_phase next tx)) m) p) →
  mwp (advance_transaction tx next) m p Q (λ _ _, False) C.
Proof.
  intros Hj Hac HC Hst Herr Hok. pose proof Hac as Hac0. unfold agent_coherent in Hac.
  rewrite Hj in Hac. destruct Hac as (Hni & Hv & i & Hi & Hsi).
  apply mwp_advance; [auto|]. intros tx' (_ & _ & ->)%advance_Ok.
  split_and!; [auto|by apply HC|]. intros Hv' _.
  assert (agent_coherent (set_journal (Some (set_phase next tx)) m)) as Hac'.
  { eapply agent_coherent_journal; [done|done|exact Hi|]. by apply (Hst i). }
  split; [|by apply HC]. intros [[]|er]; auto.
Qed.

(** From a prepared transaction every state a switchover leaves is coherent. *)
Lemma switch_over_coherent tx m p :
  m_journal m = Some tx → tx_phase tx = Prepared → agent_coherent m →
  mwp (switch_over health_successes tx) m p
    (λ o m' _, agent_coherent m' ∧ match o with UpdateCommitted _ => steady m' | _ => True end)
    (λ _ _, False) agent_coherent.
Proof.
  intros Hj Hp Hac. pose proof Hac as Hac0. unfold agent_coherent in Hac. rewrite Hj in Hac.
  destruct Hac as (Hni & Hv & i & Hi & Hst).
  assert (∀ m' p', agent_coherent m' → mwp (mret RollbackPending) m' p'
    (λ o m' _, agent_coherent m' ∧ match o with UpdateCommitted _ => steady m' | _ => True end)
    (λ _ _, False) agent_coherent) as Hrb by (intros; by apply mwp_ret).
  assert (tx_candidate_rejection_required tx = false) as Hnr.
  { apply Transaction_validate_Ok in Hv as [_ Hev]. revert Hev.
    unfold phase_evidence_is_valid, evidence_possible. rewrite Hp.
    by destruct (tx_candidate_rejection_required tx). }
  assert (on_previous tx i) as Hon by (unfold stage in Hst; rewrite Hp in Hst; apply Hst).
  assert (∀ t m' p', m_journal m' = Some t → agent_coherent m' →
    (∀ i, m_installed m' = Some i → on_previous t i) → mwp (reject_then_recover t) m' p'
    (λ o m' _, agent_coherent m' ∧ match o with UpdateCommitted _ => steady m' | _ => True end)
    (λ _ _, False) agent_coherent) as Hrej.
  { intros t m' p' Hj' Ha' Ho'. apply (mwp_mono _ m' p' (λ o m' _, agent_coherent m' ∧ o = RollbackPending) _
             (λ _ _, False) _ agent_coherent); [by apply reject_then_recover_coherent| |done|done].
    by intros ? ? ? [? ->]. }
  unfold switch_over, recover_on_error, recover_on_error_tx.
  set (m1 := set_active (Some (tx_candidate_release tx)) m).
  assert (agent_coherent m1) as Hac1.
  { unfold agent_coherent. simpl. rewrite Hj. split_and!; [done|done|]. exists i. split; [done|].
    unfold stage in *. rewrite Hp in *. split; [apply Hst|]. by right. }
  apply mwp_bind, mwp_attempt, mwp_activate; [|by auto|done].
  split_and!; [|by auto|done].
  apply mwp_bind. eapply (advance_forward_coherent tx Activated m1 p); [done|done|by auto| |by auto|].
  { intros i' Hi'. unfold stage. rewrite Hp. simpl. intros [? _]. by split. }
  intros Hv2 Hac2. set (tx2 := set_phase Activated tx) in *.
  set (m2 := set_journal (Some tx2) m1) in *.
  apply mwp_bind, mwp_next_hook; [|done].
  assert (∀ j, m_installed m = Some j → on_previous tx j) as Hon' by (intros; by simplify_eq).
  intros [reboot|k|k|]; [|by apply Hrej|by apply Hrb|by apply mwp_die].
  apply mwp_bind. eapply (advance_forward_coherent tx2 Converged m2 p); [done|done|by auto| |by auto|].
  { intros i' Hi'. unfold stage. simpl. intros [? ?]. auto. }
  intros Hv3 Hac3. set (tx3 := set_phase Converged tx2) in *.
  set (m3 := set_journal (Some tx3) m2) in *.
  destruct reboot; [apply commit_candidate_coherent; auto|].
  apply mwp_bind, mwp_became_healthy; [|done].
  intros []; [|by apply Hrej|by apply Hrb].
  apply mwp_bind. eapply (advance_forward_coherent tx3 Verified m3 p); [done|done|by auto| |by auto|].
  { intros i' Hi'. unfold stage. simpl. naive_solver. }
  intros Hv4 Hac4. apply commit_candidate_coherent; auto.
Qed.

(** ** Clearing a journal *)

Lemma clear_coherent p m :
  agent_coherent m → (∀ tx, m_journal m = Some tx → may_discard p m tx = true) →
  (∀ tx, m_journal m = Some tx → tx_phase tx = Prepared → at_previous tx m) →
  agent_coherent (set_journal None m).
Proof.
  unfold agent_coherent at 1. destruct (m_journal m) as [tx|] eqn:Hj; [|by intros].
  intros (_ & Hv & i & Hi & Hst) Hd Hprep. specialize (Hd tx eq_refl). specialize (Hprep tx eq_refl).
  intros i' Hi'. simpl in *. assert (i' = i) as -> by congruence.
  unfold may_discard in Hd. apply andb_true_iff in Hd as [_ Hd]. rewrite Hi in Hd. simpl in Hd.
  unfold stage in Hst. destruct (tx_phase tx) eqn:Hp; try done.
  - destruct Hst as [[Hm _] _]. apply matches_previous_runs in Hm as (-> & _ & _). by apply Hprep.
  - apply forward_commit_is_durable_inv in Hd as [Hm _].
    apply matches_candidate_runs in Hm as (-> & _). apply Hst.
  - apply forward_commit_is_durable_inv in Hd as [Hm _].
    apply matches_candidate_runs in Hm as (-> & _). apply Hst.
  - destruct Hst as ((-> & _) & Hat & _). done.
  - bool_to_prop. match goal with Hm : matches_previous _ _ = true |- _ =>
      apply matches_previous_runs in Hm as (-> & _ & _) end. done.
Qed.

Lemma execute_update_coherent cand arch lin rec m p :
  agent_coherent m →
  mwp (execute_update health_successes cand arch lin rec) m p
    (λ o m' _, agent_coherent m' ∧ match o with UpdateCommitted _ => steady m' | _ => True end)
    (λ m' _, agent_coherent m') agent_coherent.
Proof.
  intros Hac. unfold execute_update. apply mwp_bind, mwp_journal; [|done|done].
  apply mwp_bind.
  apply (mwp_mono _ m p (λ _ m' _, agent_coherent m' ∧ m_journal m' = None) _
           (λ m' _, agent_coherent m') _ agent_coherent); [|intros _ m1 p1 [Hac1 Hj1]|done|done].
  { destruct (m_journal m) as [tx|] eqn:Hj; [|by apply mwp_ret].
    destruct (drives_rollback tx) eqn:Hdr; simpl; [by apply mwp_throw|].
    apply mwp_clear_journal; [|done|done]. intros Hd.
    assert (agent_coherent (set_journal None m)); [|done]. apply (clear_coherent p); [done|done|].
    intros tx' Hj' Hp. assert (tx' = tx) as -> by congruence. exfalso.
    unfold agent_coherent in Hac. rewrite Hj in Hac.
    destruct Hac as (_ & [_ Hev]%Transaction_validate_Ok & _).
    by rewrite drives_rollback_phase, Hp in Hdr by done. }
  apply mwp_bind, mwp_installed; [|done|done].
  destruct (m_installed m1) as [i|] eqn:Hi; [|by apply mwp_throw].
  apply mwp_bind, mwp_lift. destruct (check_supported rec) as [[]|]; [|done].
  apply mwp_bind, mwp_lift. destruct (check_supported (st_reconciler i)) as [[]|]; [|done].
  destruct (candidate_rejection_sha256 _ _ _ _) as [rj|]; [|by apply mwp_throw].
  apply mwp_bind, mwp_token; [intros id|done|done].
  apply mwp_bind, mwp_io_step; [|done|done].
  set (tx := mkTransaction id _ _ _ _ _ _ _ _ _ _ _ _).
  apply mwp_bind, mwp_write_journal; [|done|done]. intros Hv Hw.
  assert (agent_coherent (set_journal (Some tx) m1)) as Hac2.
  { unfold may_write_journal, may_start, guard_starts, update_starts in Hw.
    rewrite Hj1, Hi in Hw. unfold agent_coherent in Hac1. rewrite Hj1 in Hac1.
    apply andb_true_iff in Hw as [[Hni _]%andb_true_iff Hw]. apply bool_decide_eq_true in Hni.
    eapply agent_coherent_journal; [done|done|exact Hi|]. unfold stage. simpl.
    destruct (st_rollback_guard i) as [g|] eqn:Hg; simpl in Hw; [by rewrite ?andb_false_r in Hw|].
    bool_to_prop. split; [by split|]. left. by apply Hac1. }
  split_and!; [|done|done].
  eapply mwp_mono; [by apply switch_over_coherent|done|done|done].
Qed.

(** ** What a boot derives from a coherent machine *)

Definition situation_of (m : machine) (i : InstalledState) : Situation :=
  mkSituation (Present i) (m_active m) (m_journal m).

Lemma plan_boot_not_failed m i : p_fail_closed (plan_boot (situation_of m i)) = false.
Proof.
  unfold plan_boot, reconcile_transaction, enforce_installed. simpl.
  repeat case_match; simplify_eq; done.
Qed.

Lemma predecessor_not_active m i :
  m_active m = Some (st_release i) → predecessor_is_active (situation_of m i) = false.
Proof.
  intros Ha. unfold predecessor_is_active. simpl. rewrite Ha.
  destruct (st_rollback_guard i) as [g|]; simpl; [|done].
  case_bool_decide; [done|]. by rewrite bool_decide_eq_false_2 by congruence.
Qed.

(** The recovery direction at each coherent stage. *)
Lemma stage_recovery tx m i :
  phase_evidence_is_valid tx = true → stage tx m i →
  match journal_recovery tx (m_active m) (Some i) with
  | RecoveryCommitted => m_active m = Some (st_release i)
  | NeverSwapped => at_previous tx m ∧ (tx_phase tx = Prepared ∨ tx_phase tx = RolledBack)
  | RestorePredecessor => tx_phase tx ≠ Committed ∧ tx_phase tx ≠ RolledBack
  end.
Proof.
  intros Hev Hst. unfold journal_recovery, classify_recovery. simpl.
  rewrite drives_rollback_phase by done. unfold stage in Hst.
  destruct (tx_phase tx) eqn:Hp; simpl in *;
    rewrite ?(bool_decide_eq_true_2 (m_active m = Some (tx_candidate_release tx))) by naive_solver;
    simpl.
  - case_bool_decide; by auto.
  - done.
  - destruct (matches_candidate tx i) eqn:Hm; simpl; [|done].
    apply matches_candidate_runs in Hm as (-> & _). apply Hst.
  - destruct (matches_candidate tx i) eqn:Hm; simpl; [|done].
    apply matches_candidate_runs in Hm as (-> & _). apply Hst.
  - destruct Hst as ((-> & _) & Hat & _). by destruct (matches_candidate tx i).
  - done.
  - done.
  - done.
  - done.
  - rewrite bool_decide_eq_true_2 by apply Hst. split; [apply Hst|]. by right.
Qed.

Lemma boot_derivation m i :
  agent_coherent m → m_installed m = Some i →
  let s := situation_of m i in
  match recovery_transaction s with
  | Some t =>
      m_journal m = Some t ∧ tx_phase t ≠ Committed ∧ tx_phase t ≠ RolledBack
      ∧ p_release (plan_boot s) = FixActivate (tx_previous_release t)
      ∧ p_commit (plan_boot s) = (if is_rollback t then Some (predecessor_of t) else None)
      ∧ p_clear_journal (plan_boot s) = true
  | None =>
      p_release (plan_boot s) = FixNone
      ∧ p_clear_journal (plan_boot s) = bool_decide (is_Some (m_journal m))
      ∧ (∀ c, p_commit (plan_boot s) = Some c →
           ∃ tx, m_journal m = Some tx ∧ tx_phase tx = RolledBack ∧ c = predecessor_of tx)
      ∧ (∀ tx, m_journal m = Some tx → tx_phase tx = Prepared → at_previous tx m)
  end.
Proof.
  intros Hac Hi s.
  destruct (plan_boot_cases s i eq_refl) as [Hplan Hwin]. unfold recovery_transaction. simpl in *.
  unfold agent_coherent in Hac. destruct (m_journal m) as [tx|].
  - destruct Hac as (_ & [_ Hev]%Transaction_validate_Ok & i' & Hi' & Hst).
    assert (i' = i) as -> by congruence. pose proof (stage_recovery tx m i Hev Hst) as Hr.
    destruct Hplan as [Hclear Hplan].
    destruct (journal_recovery tx (m_active m) (Some i)).
    + pose proof (predecessor_not_active m i Hr) as Hna. fold s in Hna.
      unfold confirmation_window_rollback. rewrite Hna in *. simpl.
      destruct (Hwin eq_refl) as [Hc Hrel]. rewrite Hc, Hrel.
      rewrite bool_decide_eq_true_2 by done. split_and!; [done|done|done|].
      intros tx' [= <-] Hp. unfold stage in Hst. rewrite Hp in Hst.
      destruct Hst as [[Hm _] [?|Hat]]; [done|]. unfold at_previous. rewrite Hr.
      by apply matches_previous_runs in Hm as (-> & _).
    + destruct Hplan as [Hrel Hc], Hr as [Hat Hph]. rewrite Hrel, Hc. split_and!; [done|done| |].
      * intros c Hcc. exists tx. destruct Hph as [Hp|Hp]; unfold is_rollback in Hcc; rewrite Hp in Hcc;
          [done|]. split_and!; [done|done|]. simpl in Hcc. congruence.
      * by intros tx' [= <-] _.
    + destruct Hplan, Hr. by split_and!.
  - specialize (Hac i Hi). pose proof (predecessor_not_active m i Hac) as Hna. fold s in Hna.
    unfold confirmation_window_rollback. rewrite Hna in *. simpl.
    destruct (Hwin I) as [Hc Hrel]. rewrite Hc, Hrel, Hplan.
    rewrite bool_decide_eq_true_2 by done. by split_and!.
Qed.

(** ** The rollback a boot owes

    What its first steps need of the machine; a pointer already back on the predecessor of a
    forward journal, where a repair of the record's own bytes puts it, satisfies it too. *)
Record owes (t : Transaction) (m : machine) (i : InstalledState) : Prop := {
  ow_recovery : recovery_transaction (situation_of m i) = Some t;
  ow_journal : m_journal m = Some t;
  ow_install : m_install m = None;
  ow_valid : Transaction_validate t = Ok tt;
  ow_installed : m_installed m = Some i;
  ow_open : tx_phase t ≠ Committed ∧ tx_phase t ≠ RolledBack;
  ow_release : p_release (plan_boot (situation_of m i)) = FixActivate (tx_previous_release t);
  ow_commit : p_commit (plan_boot (situation_of m i))
              = (if is_rollback t then Some (predecessor_of t) else None);
  ow_clear : p_clear_journal (plan_boot (situation_of m i)) = true;
  ow_head : on_previous t i ∨ (is_rollback t = true ∧ on_candidate t i);
  ow_pointer : at_previous t m ∨ at_candidate t m;
  ow_restored : recovery_pending t Restored = false → is_rollback t = true → at_previous t m;
}.

(** The head of a forward journal that is to be rolled back. *)
Lemma recovery_head m i t :
  m_journal m = Some t → stage t m i → recovery_transaction (situation_of m i) = Some t →
  tx_phase t ≠ Committed → is_rollback t = false → on_previous t i.
Proof.
  intros Hj Hst Hrt Hnc Hr. unfold recovery_transaction in Hrt. simpl in Hrt. rewrite Hj in Hrt.
  unfold is_rollback in Hr. unfold stage, at_candidate in Hst.
  unfold journal_recovery, classify_recovery in Hrt.
  destruct (tx_phase t) eqn:Hp; try done; try (by apply Hst).
  all: destruct Hst as [[?|[[Hm Hg] Hq]] Hat]; [done|]; simpl in Hrt;
    rewrite bool_decide_eq_true_2, Hm in Hrt by done; simpl in Hrt;
    apply matches_candidate_runs in Hm as (Hrl & _);
    unfold confirmation_window_rollback in Hrt;
    rewrite predecessor_not_active in Hrt by congruence; done.
Qed.

Lemma stage_pointer t m i : stage t m i → at_previous t m ∨ at_candidate t m.
Proof. unfold stage. destruct (tx_phase t); naive_solver. Qed.

Lemma rollback_restored t m i :
  stage t m i → recovery_pending t Restored = false → is_rollback t = true → at_previous t m.
Proof. unfold stage, recovery_pending, is_rollback. destruct (tx_phase t); try done; naive_solver. Qed.

Lemma coherent_owes m i t :
  agent_coherent m → m_installed m = Some i → recovery_transaction (situation_of m i) = Some t →
  owes t m i.
Proof.
  intros Hac Hi Hrt. pose proof (boot_derivation m i Hac Hi) as Hd. cbv zeta in Hd.
  rewrite Hrt in Hd. destruct Hd as (Hj & Hnc & Hnr & Hrel & Hc & Hcl).
  unfold agent_coherent in Hac. rewrite Hj in Hac. destruct Hac as (Hni & Hv & i' & Hi' & Hst).
  assert (i' = i) as -> by congruence.
  split; try done; [|by eapply stage_pointer|by eapply rollback_restored].
  destruct (is_rollback t) eqn:Hr; [|left; by eapply recovery_head].
  unfold stage, is_rollback in *. destruct (tx_phase t); try done; naive_solver.
Qed.

(** A forward journal whose pointer is back on the predecessor it has not left. *)
Definition returned (m : machine) : Prop :=
  ∃ tx i, m_journal m = Some tx ∧ m_install m = None ∧ Transaction_validate tx = Ok tt
    ∧ m_installed m = Some i ∧ on_previous tx i ∧ at_previous tx m
    ∧ (tx_phase tx = Activated ∨ tx_phase tx = Converged ∨ tx_phase tx = Verified).

(** A valid transaction changes the package, so no record is both of its ends. *)
Lemma candidate_is_not_previous tx i :
  Transaction_validate tx = Ok tt → matches_previous tx i = true →
  matches_candidate tx i = false.
Proof.
  intros [Hid _]%Transaction_validate_Ok Hm. unfold matches_candidate.
  destruct (bool_decide (tx_candidate_release tx = st_release i)) eqn:Hr;
    [|by rewrite andb_false_r].
  destruct (bool_decide (tx_candidate_archive_sha256 tx = st_archive_sha256 i)) eqn:Ha;
    [|by rewrite andb_false_r]. exfalso. unfold matches_previous in Hm. bool_to_prop.
  revert Hid. unfold identity_validate, candidate_rejection_sha256.
  rewrite !bool_decide_eq_true_2 by congruence. simpl. intros Hid. by result_inv.
Qed.

Lemma returned_owes m : returned m → ∃ tx i, owes tx m i.
Proof.
  intros (tx & i & Hj & Hni & Hv & Hi & Hon & Hat & Hp). exists tx, i.
  pose proof Hv as [_ Hev]%Transaction_validate_Ok.
  assert (journal_recovery tx (m_active m) (Some i) = RestorePredecessor) as Hjr.
  { unfold journal_recovery, classify_recovery. simpl.
    rewrite (candidate_is_not_previous tx i Hv), andb_false_r by apply Hon.
    rewrite drives_rollback_phase by done. by destruct Hp as [-> | [-> | ->]]. }
  assert (is_rollback tx = false) as Hr by (unfold is_rollback; by destruct Hp as [-> | [-> | ->]]).
  destruct (plan_boot_cases (situation_of m i) i eq_refl) as [Hpc _]. simpl in Hpc.
  rewrite Hj, Hjr in Hpc. destruct Hpc as (Hcl & Hrel & Hc).
  split; try done; [|by destruct Hp as [-> | [-> | ->]]|by left|by left].
  unfold recovery_transaction. simpl. by rewrite Hj, Hjr.
Qed.

(** ** Driving a rollback

    The transaction a boot holds in memory may be ahead of the journal on disk (a retried
    step whose write failed), but is always the same transaction on the rollback path. *)
Definition recovering (t : Transaction) (m : machine) : Prop :=
  agent_coherent m ∧ is_rollback t = true
  ∧ (recovery_pending t Restored = false → at_previous t m)
  ∧ ∃ td, m_journal m = Some td ∧ same_identity td t ∧ is_rollback td = true.

Lemma same_identity_sym t u : same_identity t u → same_identity u t.
Proof. unfold same_identity. intuition congruence. Qed.

Lemma same_identity_stage t u m i :
  same_identity t u →
  (on_previous t i ↔ on_previous u i) ∧ (on_candidate t i ↔ on_candidate u i)
  ∧ (at_previous t m ↔ at_previous u m) ∧ (at_candidate t m ↔ at_candidate u m)
  ∧ predecessor_of t = predecessor_of u.
Proof.
  unfold same_identity, on_previous, on_candidate, at_previous, at_candidate, matches_previous,
    matches_candidate, matches_rollback_guard, predecessor_of.
  intros (E1 & E2 & E3 & E4 & E5 & E6 & E7 & E8 & E9 & E10).
  by rewrite ?E1, ?E2, ?E3, ?E4, ?E5, ?E6, ?E7, ?E8, ?E9, ?E10.
Qed.

(** The head and pointer of a journal on the rollback path. *)
Lemma rollback_stage t m i :
  is_rollback t = true →
  stage t m i ↔ (on_previous t i ∨ on_candidate t i)
                ∧ (at_previous t m ∨ (recovery_pending t Restored = true ∧ at_candidate t m)).
Proof.
  unfold is_rollback, stage, recovery_pending. destruct (tx_phase t); simpl; try done; naive_solver.
Qed.

(** Writing the next record of a rollback. *)
Lemma recovering_write t t' m p :
  recovering t m → same_identity t t' → is_rollback t' = true →
  Transaction_validate t' = Ok tt → may_write_journal p m t' = true →
  (recovery_pending t' Restored = false → at_previous t m) →
  recovering t' (set_journal (Some t') m).
Proof.
  intros (Hac & Hr & _ & td & Hj & Hid & Hrd) Hid' Hr' Hv _ Hat.
  unfold agent_coherent in Hac. rewrite Hj in Hac. destruct Hac as (Hni & _ & i & Hi & Hst).
  assert (same_identity td t') as Hidd by (by eapply same_identity_trans).
  destruct (same_identity_stage td t' m i Hidd) as (Hop & Hoc & Hap & Hacd & _).
  destruct (same_identity_stage t t' m i Hid') as (_ & _ & Hap' & _).
  apply rollback_stage in Hst as [Hh Hpt]; [|done].
  split_and!; [|done|intros Hres; by apply Hap', Hat|exists t'; split_and!; [done|by unfold same_identity|done]].
  eapply agent_coherent_journal; [done|done|exact Hi|]. apply rollback_stage; [done|].
  split; [naive_solver|]. destruct (recovery_pending t' Restored) eqn:Hres.
  - destruct Hpt as [?|[_ ?]]; [left; by apply Hap|right; split; [done|by apply Hacd]].
  - left. by apply Hap', Hat.
Qed.

(** Advancing a rollback in memory, whether or not its write lands. *)
Lemma mwp_advance_recovering t next m p E C
    (Q : Transaction * result unit → machine → Rejections → Prop) :
  recovering t m → is_rollback (set_phase next t) = true →
  (recovery_pending (set_phase next t) Restored = false → at_previous t m) →
  (∀ m', agent_coherent m' → C m') →
  (∀ er, Q (t, Err er) m p) →
  (∀ er, recovering (set_phase next t) m → Q (set_phase next t, Err er) m p) →
  (∀ r, recovering (set_phase next t) (set_journal (Some (set_phase next t)) m) →
        Q (set_phase next t, r) (set_journal (Some (set_phase next t)) m) p) →
  mwp (advance_transaction t next) m p Q E C.
Proof.
  intros Hrec Hr' Hat HC Hsame Herr Hok. pose proof Hrec as (Hac & Hr & Hres & td & Hj & Hid & Hrd).
  apply mwp_advance; [done|]. intros t' (_ & _ & ->)%advance_Ok.
  split_and!; [|by apply HC|].
  - intros er. apply Herr. split_and!; [done|done|done|]. by exists td.
  - intros Hv Hw. assert (recovering (set_phase next t) (set_journal (Some (set_phase next t)) m)) as Hn.
    { by eapply (recovering_write t). }
    split; [auto|]. apply HC, Hn.
Qed.

(** Moving the pointer back keeps every rollback coherent. *)
Lemma recovering_activate t m :
  recovering t m →
  recovering t (set_active (Some (tx_previous_release t)) m).
Proof.
  intros (Hac & Hr & Hres & td & Hj & Hid & Hrd). unfold agent_coherent in Hac. rewrite Hj in Hac.
  destruct Hac as (Hni & Hv & i & Hi & Hst).
  split_and!; [|done|done|by exists td]. unfold agent_coherent. simpl. rewrite Hj.
  split_and!; [done|done|]. exists i. split; [done|].
  apply rollback_stage in Hst as [Hh _]; [|done]. apply rollback_stage; [done|]. split; [done|].
  left. by destruct (same_identity_stage td t (set_active (Some (tx_previous_release t)) m) i Hid)
    as (_ & _ & -> & _).
Qed.

(** A head that is the rollback's predecessor, or the confirmed same head, is coherent. *)
Lemma recovering_commit t m :
  recovering t m → at_previous t m →
  recovering t (set_installed (Some (predecessor_of t)) m).
Proof.
  intros (Hac & Hr & Hres & td & Hj & Hid & Hrd) Hat. unfold agent_coherent in Hac.
  rewrite Hj in Hac. destruct Hac as (Hni & Hv & i & Hi & Hst).
  split_and!; [|done|done|by exists td]. unfold agent_coherent. simpl. rewrite Hj.
  split_and!; [done|done|]. exists (predecessor_of t). split; [done|].
  apply rollback_stage; [done|].
  destruct (same_identity_stage td t m (predecessor_of t) Hid) as (-> & _ & Hap & _).
  split; [left|left; by apply Hap]. split; [|done]. unfold matches_previous, predecessor_of. simpl.
  by rewrite !bool_decide_eq_true_2 by done.
Qed.

Lemma recovering_prove t m i :
  recovering t m → m_installed m = Some i →
  recovering t (set_installed (Some (prove_provisional i).1) m).
Proof.
  intros (Hac & Hr & Hres & td & Hj & Hid & Hrd) Hi. unfold agent_coherent in Hac.
  rewrite Hj in Hac. destruct Hac as (Hni & Hv & i' & Hi' & Hst).
  assert (i' = i) as -> by congruence.
  split_and!; [|done|done|by exists td]. unfold agent_coherent. simpl. rewrite Hj.
  split_and!; [done|done|]. exists (prove_provisional i).1. split; [done|]. exact Hst.
Qed.

Lemma coherent_prove m i :
  agent_coherent m → m_installed m = Some i →
  agent_coherent (set_installed (Some (prove_provisional i).1) m).
Proof.
  unfold agent_coherent. simpl. destruct (m_journal m) as [tx|].
  - intros (Hni & Hv & i' & Hi' & Hst) Hi. assert (i' = i) as -> by congruence.
    split_and!; [done|done|]. exists (prove_provisional i).1. split; [done|]. exact Hst.
  - intros Ha Hi i' [= <-]. exact (Ha i Hi).
Qed.

Lemma mwp_reject_all l m p (P : machine → Prop) E C (Q : unit → machine → Rejections → Prop) :
  (∀ m g, P m → P (set_ledger g m)) → P m →
  (∀ m p, P m → Q tt m p ∧ E m p ∧ C m) → mwp (reject_all l) m p Q E C.
Proof.
  intros Hcl HP Hall. revert m p HP. induction l as [|[lin h] l IH]; intros m p HP; simpl.
  - apply mwp_ret. by apply Hall.
  - apply mwp_bind, mwp_record_rejection.
    + intros g p' _ _. by apply IH, Hcl.
    + intros g p' _. by apply Hall, Hcl.
    + by apply Hall.
    + intros g _. by apply (Hall _ p), Hcl.
Qed.

(** ** The boot's steps *)

Definition ac (m : machine) (_ : Rejections) : Prop := agent_coherent m.

Lemma recovering_ac t m p : recovering t m → ac m p ∧ agent_coherent m.
Proof. intros [? _]. done. Qed.

(** Compensation: on success the candidate's compensation is behind the transaction. *)
Lemma compensation_coherent t0 t m p :
  same_identity t0 t → recovering t m →
  mwp (recover_through_transients complete_candidate_compensation (Some t)) m p
    (λ out m' _, ∃ t', out.1 = Some t' ∧ same_identity t0 t' ∧ recovering t' m'
                       ∧ recovery_pending t' CandidateCompensated = false)
    ac agent_coherent.
Proof.
  intros Hid Hrec.
  apply (mwp_retry (λ s m p, ∃ t, s = Some t ∧ same_identity t0 t ∧ recovering t m));
    [|intros ? ? ? (? & _ & _ & ?); by eapply recovering_ac|by exists t].
  clear t m p Hid Hrec. intros s m p (t & -> & Hid & Hrec).
  unfold complete_candidate_compensation.
  destruct (recovery_pending t CandidateCompensated) eqn:Hpend; simpl; [|apply mwp_ret; by exists t].
  assert (t_restored : recovery_pending t Restored = true).
  { revert Hpend. unfold recovery_pending, phase_pending. by destruct (tx_phase t). }
  apply mwp_bind, mwp_attempt, mwp_run_reconciler_mutation;
    [|intros er; apply mwp_ret; by exists t|apply Hrec].
  intros reboot. apply mwp_bind.
  apply mwp_advance_recovering; [done|done|done|done|..].
  - intros er. apply mwp_ret. by exists t.
  - intros er Hr. apply mwp_ret. by exists (set_phase CandidateCompensated t).
  - intros [[]|er] Hr; apply mwp_ret; by exists (set_phase CandidateCompensated t).
Qed.

(** The plan's durable half under a rollback: the pointer ends on the predecessor. *)
Lemma boot_plan_coherent plan defer t m p :
  recovering t m → recovery_pending t CandidateCompensated = false →
  p_release plan = FixActivate (tx_previous_release t) →
  (defer = false → p_commit plan = None) →
  mwp (recover_through_transients (stateless (execute_boot_plan plan defer (Some t))) tt) m p
    (λ _ m' _, recovering t m' ∧ at_previous t m') ac agent_coherent.
Proof.
  intros Hrec Hcomp Hrel Hcommit.
  apply (mwp_retry_stateless (λ m _, recovering t m));
    [|intros ? ? ?; by eapply recovering_ac|done].
  clear m p Hrec. intros m p Hrec. unfold execute_boot_plan, execute_store_plan.
  apply mwp_bind, mwp_bind.
  apply (mwp_mono _ m p (λ _ m' _, recovering t m' ∧ at_previous t m') _
           (λ m' _, recovering t m') _ agent_coherent); [|intros _ m1 p1 [Hr1 Ha1]|done|done].
  - unfold activates_release. rewrite Hcomp, Hrel. simpl.
    destruct (recovery_pending t Restored) eqn:Hres.
    + apply mwp_activate; [|done|apply Hrec].
      pose proof (recovering_activate t m Hrec) as Hr. split; [by split|]. split; [done|apply Hr].
    + apply mwp_ret. split; [done|]. by apply Hrec.
  - apply mwp_bind.
    apply (mwp_mono _ m1 p1 (λ _ m' _, recovering t m' ∧ at_previous t m') _
             (λ m' _, recovering t m') _ agent_coherent); [|intros _ m2 p2 [Hr2 Ha2]|done|done].
    { destruct defer; simpl; [by apply mwp_ret|]. rewrite Hcommit by done. by apply mwp_ret. }
    apply (mwp_reject_all _ _ _ (λ m, recovering t m ∧ at_previous t m)); [done|done|].
    intros m3 p3 [Hr3 Ha3]. split_and!; [|done|apply Hr3].
    unfold installed_rollback_guard. apply mwp_bind, mwp_installed; [by apply mwp_ret|done|apply Hr3].
Qed.

(** The predecessor's convergence: on success the pointer is still on it. *)
Lemma activation_coherent t0 t m p :
  same_identity t0 t → recovering t m → at_previous t m →
  mwp (recover_through_transients complete_recovery_activation (Some t)) m p
    (λ out m' _, ∃ t', out.1 = Some t' ∧ same_identity t0 t' ∧ recovering t' m'
                       ∧ at_previous t' m')
    ac agent_coherent.
Proof.
  intros Hid Hrec Hat.
  apply (mwp_retry (λ s m p, ∃ t, s = Some t ∧ same_identity t0 t ∧ recovering t m
                                  ∧ at_previous t m));
    [|intros ? ? ? (? & _ & _ & ? & _); by eapply recovering_ac|by exists t].
  clear t m p Hid Hrec Hat. intros s m p (t & -> & Hid & Hrec & Hat).
  unfold complete_recovery_activation.
  destruct (negb _); [apply mwp_ret; by exists t|].
  apply mwp_bind, mwp_attempt, mwp_run_reconciler_mutation;
    [|intros er; apply mwp_ret; by exists t|apply Hrec].
  intros reboot. destruct (recovery_pending t Restored); [|apply mwp_ret; by exists t].
  apply mwp_bind, mwp_advance_recovering; [done|done|done|done|..].
  - intros er. apply mwp_ret. by exists t.
  - intros er Hr. apply mwp_ret. by exists (set_phase Restored t).
  - intros [[]|er] Hr; apply mwp_ret; by exists (set_phase Restored t).
Qed.

(** What holds when the gate has been asked: a rollback with the pointer restored, or no
    recovery and a journal only boot's own clearing may remove. *)
Definition settling (plan : Plan) (defer : bool) (recovery : option Transaction) (m : machine)
    : Prop :=
  match recovery with
  | Some t =>
      recovering t m ∧ at_previous t m ∧ p_clear_journal plan = true
      ∧ (∀ c, p_commit plan = Some c → c = predecessor_of t)
  | None =>
      agent_coherent m ∧ defer = false
      ∧ (∀ tx, m_journal m = Some tx → tx_phase tx = Prepared → at_previous tx m)
      ∧ (p_clear_journal plan = false → m_journal m = None)
  end.

Lemma settling_ac plan defer recovery m : settling plan defer recovery m → agent_coherent m.
Proof. destruct recovery; [intros [[? _] _]|intros [? _]]; done. Qed.

Lemma settling_identity plan defer t t' m m' :
  settling plan defer (Some t) m → same_identity t t' → recovering t' m' → at_previous t' m' →
  settling plan defer (Some t') m'.
Proof.
  intros (_ & _ & Hcl & Hc) Hid Hr Ha. split_and!; [done|done|done|].
  intros c Hcc. rewrite (Hc c Hcc). by apply (same_identity_stage t t' m (predecessor_of t)).
Qed.

Lemma settling_prove plan defer recovery m i :
  settling plan defer recovery m → m_installed m = Some i →
  settling plan defer recovery (set_installed (Some (prove_provisional i).1) m).
Proof.
  destruct recovery as [t|].
  - intros (Hr & Ha & Hc & Hcl) Hi. split_and!; [by apply recovering_prove|done..].
  - intros (Hac & Hd & Hp & Hj) Hi. split_and!; [by apply coherent_prove|done..].
Qed.

(** A permitted write of the next rollback record while settling. *)
Lemma settling_advance plan defer t next m p
    (Q : Transaction → machine → Rejections → Prop) :
  settling plan defer (Some t) m → is_rollback (set_phase next t) = true →
  (∀ m', settling plan defer (Some (set_phase next t)) m' →
     m_journal m' = Some (set_phase next t) → Q (set_phase next t) m' p) →
  mwp (propagate (advance_transaction t next)) m p Q ac agent_coherent.
Proof.
  intros Hs Hr HQ. pose proof Hs as (Hrec & Hat & _). unfold propagate.
  apply mwp_bind, mwp_advance_recovering; [done|done|done|done|..].
  - intros er. apply mwp_throw, Hrec.
  - intros er _. apply mwp_throw, Hrec.
  - intros [[]|er] Hn; [|apply mwp_throw, Hn]. apply mwp_ret, HQ; [|done].
    eapply settling_identity; [exact Hs|by unfold same_identity|done|done].
Qed.

(** ** Answering a failed gate *)

Lemma rollback_of_guarded_on head g b :
  st_rollback_guard head = Some g → on_candidate (rollback_of_guarded head g b) head.
Proof.
  intros Hg. unfold on_candidate, matches_candidate, matches_rollback_guard. simpl.
  rewrite Hg, !bool_decide_eq_true_2 by done. split; [done|]. exists g. split; [done|].
  by rewrite !bool_decide_eq_true_2 by done.
Qed.

(** Starting the rollback an installed guard names. *)
Lemma start_rollback_coherent p m head g b :
  agent_coherent m → m_installed m = Some head → st_rollback_guard head = Some g →
  (∀ tx, m_journal m = Some tx → tx_phase tx = Prepared → at_previous tx m) →
  let tx := rollback_of_guarded head g b in
  Transaction_validate tx = Ok tt → may_write_journal p m tx = true →
  agent_coherent (set_journal (Some tx) m).
Proof.
  intros Hac Hi Hg Hprep tx Hv Hw.
  assert (m_install m = None) as Hni by (unfold may_write_journal in Hw; by bool_to_prop).
  eapply agent_coherent_journal; [done|done|exact Hi|].
  apply rollback_stage; [done|]. split; [right; by apply rollback_of_guarded_on|].
  destruct (m_journal m) as [ex|] eqn:Hj.
  - destruct (decide (tx_id ex = tx_id tx)) as [Hid|Hid].
    + apply (may_write_journal_same p m ex tx Hj Hid) in Hw as (Hs%rewrite_step_identity & _).
      unfold agent_coherent in Hac. rewrite Hj in Hac. destruct Hac as (_ & _ & i & Hii & Hst).
      destruct (same_identity_stage ex tx m i Hs) as (_ & _ & Hap & Hacd & _).
      unfold stage in Hst. destruct (tx_phase ex); naive_solver.
    + assert (may_discard p m ex = true) as Hd.
      { unfold may_write_journal in Hw. rewrite Hj in Hw.
        rewrite (bool_decide_eq_false_2 (tx_id ex = _)) in Hw by done. by bool_to_prop. }
      right. split; [done|].
      assert (agent_coherent (set_journal None m)) as Hn; [|by apply (Hn head)].
      apply (clear_coherent p); [done| |by rewrite Hj].
      intros tx' Htx'. rewrite Hj in Htx'. by injection Htx' as <-.
  - right. split; [done|]. unfold agent_coherent in Hac. rewrite Hj in Hac. by apply Hac.
Qed.

Lemma revert_coherent head b m p :
  agent_coherent m → m_installed m = Some head →
  (∀ tx, m_journal m = Some tx → tx_phase tx = Prepared → at_previous tx m) →
  mwp (revert_guarded_head head b) m p (λ _ m' _, agent_coherent m') ac agent_coherent.
Proof.
  intros Hac Hi Hprep. unfold revert_guarded_head.
  destruct (st_rollback_guard head) as [g|] eqn:Hg; [|by apply mwp_die].
  set (tx := rollback_of_guarded head g (negb b)).
  apply mwp_bind, mwp_journal; [|done|done]. apply mwp_bind.
  apply (mwp_mono _ m p (λ _ m' _, agent_coherent m' ∧ m_installed m' = Some head
           ∧ ∀ tx, m_journal m' = Some tx → tx_phase tx = Prepared → at_previous tx m') _
           ac _ agent_coherent); [|intros _ m1 p1 (Hac1 & Hi1 & Hp1)|done|done].
  - destruct (m_journal m) as [ex|] eqn:Hj; [|apply mwp_ret; by rewrite Hj].
    apply mwp_bind, mwp_active_release; [|done|done].
    case_bool_decide; [|apply mwp_ret; by rewrite Hj].
    apply mwp_clear_journal; [|done|done]. intros Hd.
    assert (agent_coherent (set_journal None m)); [|done].
    apply (clear_coherent p); [done|done|by rewrite Hj].
  - apply mwp_bind, mwp_write_journal; [|done|done]. intros Hv Hw.
    assert (agent_coherent (set_journal (Some tx) m1)) as Hac2
      by (by eapply (start_rollback_coherent p1 m1 head g)).
    split_and!; [|done|done].
    destruct (tx_candidate_rejection_required tx); [|by apply mwp_ret].
    by apply mwp_reject_deployment; intros.
Qed.

(** Counting one more failed gate, or settling on the predecessor. *)
Lemma bound_coherent plan defer t m p :
  settling plan defer (Some t) m →
  mwp (bound_unhealthy_rollback t) m p
    (λ out m' _, settling plan defer (Some out.1) m') ac agent_coherent.
Proof.
  intros Hs. pose proof Hs as (Hrec & Hat & _). unfold bound_unhealthy_rollback.
  apply mwp_bind, mwp_lift.
  destruct (record_rollback_health_failure t) as [[t1 n]|er] eqn:Hf; [|apply Hrec].
  apply record_rollback_health_failure_Ok in Hf as (Hph & _ & _ & ->).
  set (t1 := set_health_failures n t).
  assert (is_rollback t1 = true) as Hr1 by (unfold is_rollback; simpl; by destruct Hph as [-> | ->]).
  assert (Transaction_validate t1 = Ok tt → may_write_journal p m t1 = true →
          settling plan defer (Some t1) (set_journal (Some t1) m)) as Hs1.
  { intros Hv Hw. assert (recovering t1 (set_journal (Some t1) m)) by (by eapply (recovering_write t)).
    eapply settling_identity; [exact Hs|by unfold same_identity|done|done]. }
  assert (∀ k, (∀ m1, settling plan defer (Some t1) m1 →
     mwp k m1 p (λ out m' _, settling plan defer (Some out.1) m') ac agent_coherent) →
    mwp (_ ← persist_transaction t1; k) m p
      (λ out m' _, settling plan defer (Some (out : Transaction * RollbackHealthOutcome).1) m')
      ac agent_coherent) as Hpersist.
  { intros k Hk. apply mwp_bind, mwp_write_journal; [|apply Hrec|apply Hrec].
    intros Hv Hw. specialize (Hs1 Hv Hw).
    split_and!; [by apply Hk|by apply settling_ac in Hs1|by apply settling_ac in Hs1]. }
  destruct (_ <=? _)%N; apply Hpersist; intros m1 Hm1; [|by apply mwp_ret].
  destruct (recovery_pending t1 RolledBack); [|by apply mwp_ret].
  pose proof Hm1 as (Hrec1 & Hat1 & _).
  apply mwp_bind, mwp_advance_recovering; [done|done|done|done|..].
  - intros er. apply mwp_bind, mwp_lift, Hrec1.
  - intros er _. apply mwp_bind, mwp_lift, Hrec1.
  - intros [[]|er] Hn; apply mwp_bind, mwp_lift; [|apply Hn].
    apply mwp_ret. eapply settling_identity; [exact Hm1|by unfold same_identity|done|done].
Qed.

Lemma failed_gate_coherent plan defer recovery head b m p :
  settling plan defer recovery m → m_installed m = Some head →
  mwp (answer_failed_gate plan recovery head b) m p
    (λ recovery' m' _, settling plan defer recovery' m') ac agent_coherent.
Proof.
  intros Hs Hi. unfold answer_failed_gate. apply mwp_bind. destruct recovery as [t|].
  - pose proof Hs as ((_ & Hr & _) & _). rewrite Hr. apply mwp_bind.
    eapply mwp_mono; [by apply bound_coherent| |done|done].
    intros [t1 [n|]] m1 p1 Hs1; [apply mwp_throw; by apply settling_ac in Hs1|].
    change (settling plan defer (Some t1) m1) in Hs1. pose proof (settling_ac _ _ _ _ Hs1). pose proof Hs1 as (_ & _ & _ & Hc).
    destruct (p_commit plan) as [c|]; [|by apply mwp_throw].
    apply mwp_ret. rewrite (Hc c eq_refl). unfold plan_gate_failure. simpl. by apply mwp_ret.
  - apply mwp_ret. pose proof Hs as (Hac & _ & Hp & _).
    destruct (plan_gate_failure head).
    + apply mwp_bind. eapply mwp_mono; [by apply revert_coherent| |done|done].
      intros [] m1 p1 ?. by apply mwp_throw.
    + unfold reject_provisional_head. apply mwp_bind, mwp_reject_deployment; try by intros.
      intros g p' _. by apply mwp_throw.
    + by apply mwp_ret.
Qed.

(** ** Settling a boot *)

(** Clearing at the end of a boot. *)
Lemma settling_clear plan defer recovery m p :
  settling plan defer recovery m →
  (∀ tx, m_journal m = Some tx → may_discard p m tx = true) →
  agent_coherent (set_journal None m).
Proof.
  intros Hs Hd. pose proof (settling_ac _ _ _ _ Hs) as Hac. apply (clear_coherent p); [done|done|].
  intros tx Hj Hp. destruct recovery as [t|].
  - destruct Hs as ((_ & _ & _ & td & Hj' & _ & Hr) & _).
    assert (td = tx) as -> by congruence. unfold is_rollback in Hr. by rewrite Hp in Hr.
  - by apply Hs.
Qed.

(** The end of a boot: the deferred commit and the journal's removal. *)
Lemma settle_end_coherent plan defer pending recovery passed m p :
  settling plan defer recovery m →
  mwp (pending' ← (if defer
                   then match p_commit plan with
                        | Some state => _ ← commit_installed state; installed_rollback_guard
                        | None => mret pending
                        end
                   else mret pending);
       _ ← (if p_clear_journal plan || defer then clear_journal else mret tt);
       mret (BootRunning pending' passed)) m p
    (λ r m' _, agent_coherent m' ∧ m_journal m' = None
               ∧ ∃ g b, r = BootRunning g b) ac agent_coherent.
Proof.
  intros Hs. apply mwp_bind.
  apply (mwp_mono _ m p (λ _ m' _, settling plan defer recovery m') _ ac _ agent_coherent);
    [|intros pending' m1 p1 Hs1|done|done].
  - pose proof (settling_ac _ _ _ _ Hs) as Hac.
    destruct defer; [|by apply mwp_ret]. destruct recovery as [t|]; [|by destruct Hs as (_ & ? & _)].
    pose proof Hs as (Hr & Ha & Hcl & Hc).
    destruct (p_commit plan) as [c|] eqn:Hpc; [|by apply mwp_ret].
    rewrite (Hc c eq_refl). pose proof (recovering_commit t m Hr Ha) as Hr1.
    apply mwp_bind, mwp_commit_installed; [intros _ _|done|done].
    split_and!; [|apply Hr1|apply Hr1]. unfold installed_rollback_guard.
    apply mwp_bind, mwp_installed; [|apply Hr1|apply Hr1]. apply mwp_ret.
    split_and!; [done|done|done|]. by rewrite Hpc.
  - pose proof (settling_ac _ _ _ _ Hs1) as Hac1. apply mwp_bind.
    destruct (p_clear_journal plan || defer) eqn:Hcl.
    + apply mwp_clear_journal; [|done|done]. intros Hd.
      pose proof (settling_clear _ _ _ _ _ Hs1 Hd). split_and!; [|done|done].
      apply mwp_ret. split_and!; [done|done|eauto].
    + bool_to_prop. destruct recovery as [t|].
      { destruct Hs1 as (_ & _ & ? & _). congruence. }
      apply mwp_ret, mwp_ret. split_and!; [done|by apply Hs1|eauto].
Qed.

Lemma settle_boot_coherent plan defer pending recovery passed m p :
  settling plan defer recovery m →
  mwp (settle_boot plan defer pending recovery passed) m p
    (λ r m' _, agent_coherent m' ∧ m_journal m' = None
               ∧ ∃ g b, r = BootRunning g b) ac agent_coherent.
Proof.
  intros Hs. unfold settle_boot. apply mwp_bind.
  apply (mwp_mono _ m p (λ _ m' _, settling plan defer recovery m') _ ac _ agent_coherent);
    [|intros [] m1 p1 Hs1|done|done].
  { destruct passed; [|by apply mwp_ret].
    apply (mwp_retry_stateless (λ m _, settling plan defer recovery m)); [|intros ? ? Hx; by apply settling_ac in Hx|done].
    intros m0 p0 Hs0. apply mwp_prove_provisional; [done|done|by apply settling_ac in Hs0|].
    intros i Hi. pose proof (settling_prove _ _ _ _ _ Hs0 Hi) as Hx.
    split_and!; [done|done|by apply settling_ac in Hx]. }
  apply mwp_bind.
  apply (mwp_mono _ m1 p1 (λ r m' _, settling plan defer r m') _ ac _ agent_coherent);
    [|intros r2 m2 p2 Hs2|done|done].
  { destruct recovery as [t|]; [|by apply mwp_ret].
    destruct (recovery_pending t RollbackVerified); [|by apply mwp_ret].
    apply mwp_bind, (settling_advance plan defer); [done|done|].
    intros m' Hs' _. by apply mwp_ret. }
  apply mwp_bind.
  apply (mwp_mono _ m2 p2 (λ _ m' _, ∃ r, settling plan defer r m') _ ac _ agent_coherent);
    [|intros [] m3 p3 [r3 Hs3]; by eapply settle_end_coherent|done|done].
  destruct r2 as [t|]; [|apply mwp_ret; by eexists].
  destruct (recovery_pending t RolledBack); [|apply mwp_ret; by eexists].
  apply mwp_bind, (settling_advance plan defer); [done|done|].
  intros m' Hs' _. apply mwp_ret. by eexists.
Qed.

(** ** The whole boot *)

(** A boot with no recovery: the plan commits at most a finished rollback's predecessor. *)
Lemma quiet_plan_coherent plan m p :
  agent_coherent m → p_release plan = FixNone →
  (∀ c, p_commit plan = Some c →
     ∃ tx, m_journal m = Some tx ∧ tx_phase tx = RolledBack ∧ c = predecessor_of tx) →
  (p_clear_journal plan = false → m_journal m = None) →
  (∀ tx, m_journal m = Some tx → tx_phase tx = Prepared → at_previous tx m) →
  mwp (recover_through_transients (stateless (execute_boot_plan plan false None)) tt) m p
    (λ _ m' _, settling plan false None m') ac agent_coherent.
Proof.
  intros Hac Hrel Hc Hcl Hp.
  assert (∃ j, m_journal m = j) as [j Hj0] by eauto.
  assert (settling plan false None m) as Hs0 by (by split_and!). rewrite Hj0 in Hc.
  apply (mwp_retry_stateless (λ m _, settling plan false None m ∧ m_journal m = j));
    [|intros ? ? [Hx _]; by apply settling_ac in Hx|done].
  clear m p Hac Hcl Hp Hj0 Hs0. intros m p (Hs & Hj). pose proof Hs as (Hac & _ & Hp & Hcl).
  unfold execute_boot_plan, execute_store_plan, activates_release. rewrite Hrel.
  apply mwp_bind, mwp_bind, mwp_ret, mwp_bind.
  apply (mwp_mono _ m p (λ _ m' _, settling plan false None m' ∧ m_journal m' = j) _
           (λ m' _, settling plan false None m' ∧ m_journal m' = j) _ agent_coherent);
    [|intros [] m1 p1 Hs1|done|done].
  - destruct (p_commit plan) as [c|]; simpl; [|by apply mwp_ret].
    destruct (Hc c eq_refl) as (tx & Htx & Hph & ->). rewrite <-Hj in Htx.
    assert (recovering tx m) as Hr.
    { unfold agent_coherent in Hac. pose proof Hac as Hac0. rewrite Htx in Hac.
      destruct Hac as (_ & _ & i & _ & Hst). unfold stage in Hst. rewrite Hph in Hst.
      split_and!; [done|unfold is_rollback; by rewrite Hph|intros _; apply Hst|].
      exists tx. split_and!; [done|by unfold same_identity|unfold is_rollback; by rewrite Hph]. }
    apply mwp_commit_installed; [intros _ _|done|done].
    assert (settling plan false None (set_installed (Some (predecessor_of tx)) m)).
    { split_and!; [|done|done|done]. apply recovering_commit; [done|].
      apply Hr. unfold recovery_pending. by rewrite Hph. }
    split_and!; try done; by apply settling_ac in H3.
  - apply (mwp_reject_all _ _ _ (λ m, settling plan false None m ∧ m_journal m = j)); [done|done|].
    intros m3 p3 [Hs3 Hj3]. pose proof (settling_ac _ _ _ _ Hs3). split_and!; [|done|done|done].
    unfold installed_rollback_guard. apply mwp_bind, mwp_installed; [by apply mwp_ret|by split|done].
Qed.

Definition booted (r : boot_end) (m : machine) : Prop :=
  agent_coherent m ∧ match r with BootRunning _ _ => m_journal m = None | BootReboot => True end.

Lemma settled_booted plan defer pending recovery passed m p :
  settling plan defer recovery m →
  mwp (settle_boot plan defer pending recovery passed) m p (λ r m' _, booted r m') ac agent_coherent.
Proof.
  intros Hs. eapply mwp_mono; [by apply settle_boot_coherent| |done|done].
  intros r m' p' (? & ? & g & b & ->). by split.
Qed.

Lemma boot_gate_coherent plan defer b pending recovery head conv m p :
  settling plan defer recovery m → m_installed m = Some head →
  mwp (boot_gate health_successes plan defer b pending recovery head conv) m p
    (λ r m' _, booted r m') ac agent_coherent.
Proof.
  intros Hs Hi. pose proof (settling_ac _ _ _ _ Hs) as Hac. unfold boot_gate.
  assert (mwp (r ← answer_failed_gate plan recovery head b; settle_boot plan defer pending r false)
            m p (λ r m' _, booted r m') ac agent_coherent) as Hfail.
  { apply mwp_bind. eapply mwp_mono; [by eapply failed_gate_coherent| |done|done].
    intros r m1 p1 Hs1. by apply settled_booted. }
  destruct conv as [[]|].
  - by apply mwp_ret.
  - apply mwp_bind, mwp_became_healthy; [|done]. intros []; [by apply settled_booted|done|done].
  - by apply mwp_bind, mwp_ret.
Qed.

(** From the predecessor's convergence on, the recovery being settled. *)
Lemma boot_tail_coherent plan defer b pending recovery m p :
  settling plan defer recovery m →
  mwp (head ← recover_through_transients (stateless read_boot_head) tt;
       convergence ← (match recovery with
                      | None => r ← recover_through_transients (stateless boot_converge) tt;
                                mret r.2
                      | Some _ => mret (Some false)
                      end);
       boot_gate health_successes plan defer b pending recovery head.2 convergence) m p
    (λ r m' _, booted r m') ac agent_coherent.
Proof.
  intros Hs. apply mwp_bind.
  apply (mwp_retry_stateless (λ m _, settling plan defer recovery m));
    [|intros ? ? Hx; by apply settling_ac in Hx|done].
  clear m p Hs. intros m p Hs. pose proof (settling_ac _ _ _ _ Hs) as Hac.
  unfold read_boot_head. apply mwp_bind, mwp_installed; [|done|done].
  destruct (m_installed m) as [head|] eqn:Hi; [|by apply mwp_throw].
  apply mwp_ret. apply mwp_bind. destruct recovery as [t|].
  - apply mwp_ret. by apply boot_gate_coherent.
  - apply mwp_bind.
    apply (mwp_retry_stateless (λ m _, settling plan defer None m ∧ m_installed m = Some head));
      [|intros ? ? [Hx _]; by apply settling_ac in Hx|done].
    clear m p Hs Hi Hac. intros m p [Hs Hi]. pose proof (settling_ac _ _ _ _ Hs) as Hac.
    unfold boot_converge. apply mwp_bind, mwp_next_hook; [|done].
    intros []; [| |by apply mwp_throw|by apply mwp_die]; apply mwp_ret, mwp_ret;
      by apply boot_gate_coherent.
Qed.

Lemma begin_recovery_coherent t m i p :
  owes t m i →
  mwp (begin_recovery (situation_of m i) (Some t)) m p
    (λ r m' _, ∃ t', r = Some t' ∧ same_identity t t' ∧ recovering t' m')
    (λ m' _, agent_coherent m' ∨ m' = m) (λ m', agent_coherent m' ∨ m' = m).
Proof.
  intros [_ Hj Hni Hv Hi Hop _ _ _ Hh Hpt Hres]. unfold begin_recovery. simpl. rewrite Hj.
  rewrite (bool_decide_eq_true_2 (Some t = Some t)), andb_false_r by done.
  apply mwp_bind, mwp_ret. destruct (is_rollback t) eqn:Hrt; simpl.
  - apply mwp_ret. exists t. split_and!; [done|by unfold same_identity|].
    split_and!; [|done|auto|by exists t; unfold same_identity].
    unfold agent_coherent. rewrite Hj. split_and!; [done|done|]. exists i. split; [done|].
    apply rollback_stage; [done|]. split; [naive_solver|].
    destruct (recovery_pending t Restored) eqn:Hp; [naive_solver|]. left. by apply Hres.
  - apply mwp_bind. unfold propagate. apply mwp_bind, mwp_advance; [intros; apply mwp_throw; by right|].
    intros t' (_ & _ & ->)%advance_Ok. split_and!; [intros; apply mwp_throw; by right|by right|].
    intros Hv' _.
    assert (recovering (set_phase RollbackPlanned t)
              (set_journal (Some (set_phase RollbackPlanned t)) m)) as Hn.
    { split_and!; [|done|done|by eexists; unfold same_identity].
      eapply agent_coherent_journal; [done|done|exact Hi|]. apply rollback_stage; [done|].
      split; [|unfold recovery_pending; simpl; naive_solver].
      left. destruct Hh as [?|[? _]]; [done|congruence]. }
    split; [|left; apply Hn]. intros [[]|er]; [|apply mwp_throw; left; apply Hn].
    apply mwp_ret, mwp_ret. eexists. split_and!; [done|by unfold same_identity|done].
Qed.

(** A boot that owes a rollback; before its first write the machine is as it was. *)
Lemma boot_owed t b m i p :
  owes t m i →
  mwp (boot health_successes b) m p (λ r m' _, booted r m')
    (λ m' _, agent_coherent m' ∨ m' = m) (λ m', agent_coherent m' ∨ m' = m).
Proof.
  intros Ho. pose proof Ho as [Hrt Hj Hni Hv Hi Hop Hrel Hc Hcl Hh Hpt Hres].
  assert (∀ {A} (f : M A) m1 p1 Q, mwp f m1 p1 Q ac agent_coherent →
    mwp f m1 p1 Q (λ m' _, agent_coherent m' ∨ m' = m) (λ m', agent_coherent m' ∨ m' = m)) as Hweak.
  { intros A f m1 p1 Q Hf. eapply mwp_mono; [exact Hf|done|by left|by left]. }
  unfold boot, gather_situation.
  apply mwp_bind, mwp_bind, mwp_active_release; [|by right..].
  apply mwp_bind, mwp_installed; [|by right..]. apply mwp_bind, mwp_journal; [|by right..].
  apply mwp_ret. rewrite Hi. fold (situation_of m i). rewrite plan_boot_not_failed, Hrt.
  set (plan := plan_boot (situation_of m i)) in *.
  apply mwp_bind. eapply mwp_mono; [by apply begin_recovery_coherent| |done|done].
  intros ? m1 p1 (t1 & -> & Hid1 & Hr1). apply Hweak.
  apply mwp_bind, mwp_io_step; [|apply Hr1|apply Hr1].
  apply mwp_bind. eapply mwp_mono; [by apply (compensation_coherent t)| |done|done].
  intros [? [|]] m2 p2 (t2 & Heq & Hid2 & Hr2 & Hcomp); simpl in Heq; subst.
  { apply mwp_ret. split; [apply Hr2|done]. }
  destruct (same_identity_stage t t2 m2 i Hid2) as (_ & _ & _ & _ & Hpo).
  apply mwp_bind. eapply mwp_mono; [apply (boot_plan_coherent _ _ t2); [done|done| |]| |done|done].
  { rewrite Hrel. destruct Hid2 as (_ & -> & _). done. }
  { rewrite Hc. by destruct (is_rollback t). }
  intros pending m3 p3 [Hr3 Ha3].
  apply mwp_bind. eapply mwp_mono; [by apply (activation_coherent t)| |done|done].
  intros [? [|]] m4 p4 (t4 & Heq & Hid4 & Hr4 & Ha4); simpl in Heq; subst.
  { apply mwp_ret. split; [apply Hr4|done]. }
  apply (boot_tail_coherent plan _ b pending.2 (Some t4)).
  destruct (same_identity_stage t t4 m4 i Hid4) as (_ & _ & _ & _ & Hpo4).
  split_and!; [done|done|done|]. intros c Hcc. rewrite Hcc in Hc.
  destruct (is_rollback t); [|done]. by injection Hc as ->.
Qed.

(** A boot without one. *)
Lemma boot_quiet b m i p :
  agent_coherent m → m_installed m = Some i → recovery_transaction (situation_of m i) = None →
  mwp (boot health_successes b) m p (λ r m' _, booted r m') ac agent_coherent.
Proof.
  intros Hac Hi Hrt. pose proof (boot_derivation m i Hac Hi) as Hd. cbv zeta in Hd.
  rewrite Hrt in Hd. unfold boot, gather_situation.
  apply mwp_bind, mwp_bind, mwp_active_release; [|done|done].
  apply mwp_bind, mwp_installed; [|done|done]. apply mwp_bind, mwp_journal; [|done|done].
  apply mwp_ret. rewrite Hi. fold (situation_of m i). rewrite plan_boot_not_failed, Hrt.
  set (plan := plan_boot (situation_of m i)) in *.
  destruct Hd as (Hrel & Hcl & Hc & Hp). simpl.
  apply mwp_bind, mwp_ret, mwp_bind, mwp_io_step; [|done|done].
  apply mwp_bind, (mwp_retry (λ s m' _, s = None ∧ m' = m)); [|by intros ? ? ? [_ ->]|done].
  intros ? ? p1 [-> ->]. apply mwp_ret.
  apply mwp_bind. eapply mwp_mono; [apply quiet_plan_coherent; try done| |done|done].
  { rewrite Hcl. intros Hn. bool_to_prop. by apply eq_None_not_Some. }
  intros pending m3 p3 Hs3. pose proof (settling_ac _ _ _ _ Hs3) as Hac3.
  apply mwp_bind, (mwp_retry (λ s m' _, s = None ∧ m' = m3)); [|by intros ? ? ? [_ ->]|done].
  intros ? ? p4 [-> ->]. apply mwp_ret. by apply (boot_tail_coherent plan _ b pending.2 None).
Qed.

(** Without a record there is nothing to boot. *)
Lemma boot_recordless b m p :
  m_installed m = None →
  mwp (boot health_successes b) m p (λ _ _ _, False) (λ m' _, m' = m) (λ m', m' = m).
Proof.
  intros Hi. unfold boot, gather_situation.
  apply mwp_bind, mwp_bind, mwp_active_release; [|done|done].
  apply mwp_bind, mwp_installed; [|done|done]. apply mwp_bind, mwp_journal; [|done|done].
  apply mwp_ret. rewrite Hi. by apply mwp_throw.
Qed.

Lemma boot_coherent b m p :
  agent_coherent m →
  mwp (boot health_successes b) m p (λ r m' _, booted r m') ac agent_coherent.
Proof.
  intros Hac. destruct (m_installed m) as [i|] eqn:Hi.
  - destruct (recovery_transaction (situation_of m i)) as [t|] eqn:Hrt; [|by eapply boot_quiet].
    eapply mwp_mono; [eapply boot_owed; by apply coherent_owes|done|..].
    + by intros m' p' [?| ->].
    + by intros m' [?| ->].
  - eapply mwp_mono; [by apply boot_recordless|done|by intros m' ? ->|by intros m' ->].
Qed.

(** A boot from a pointer that returned early: as from a coherent machine, once it has written. *)
Lemma boot_returned b m p :
  returned m →
  mwp (boot health_successes b) m p (λ r m' _, booted r m')
    (λ m' _, agent_coherent m' ∨ returned m') (λ m', agent_coherent m' ∨ returned m').
Proof.
  intros Hre. destruct (returned_owes m Hre) as (tx & i & Ho).
  eapply mwp_mono; [by apply (boot_owed tx b m i)|done|..]; naive_solver.
Qed.

(** ** Steady state *)

Lemma disarm_coherent m p E :
  agent_coherent m → steady m →
  mwp disarm_update_rollback m p (λ _ m' _, agent_coherent m' ∧ steady m') E agent_coherent.
Proof.
  intros Hac Hs. unfold disarm_update_rollback.
  apply mwp_bind, mwp_attempt, mwp_installed; [|intros er; by apply mwp_ret|done].
  destruct (m_installed m) as [i|] eqn:Hi; [|by apply mwp_ret].
  simpl. destruct (negb _); [by apply mwp_ret|].
  apply mwp_bind, mwp_attempt, mwp_commit_installed; [|intros er; by apply mwp_ret|done].
  intros _ _. set (i' := mkInstalledState _ _ _ _ None _).
  assert (agent_coherent (set_installed (Some i') m)) as Hac'.
  { unfold agent_coherent, steady in *. simpl. destruct (m_journal m) as [tx|].
    - destruct Hac as (Hni & Hv & j & Hj & Hst). assert (j = i) as -> by congruence.
      split_and!; [done|done|]. exists i'. split; [done|]. unfold stage in *. rewrite Hs in *.
      split_and!; [apply Hst|apply Hst|done].
    - intros j [= <-]. exact (Hac i Hi). }
  split_and!; [by apply mwp_ret|intros er; by apply mwp_ret|done].
Qed.

Lemma rebind_coherent lineage m p :
  agent_coherent m → steady m →
  mwp (rebind_lineage lineage) m p (λ _ m' _, agent_coherent m' ∧ steady m') ac agent_coherent.
Proof.
  intros Hac Hs. unfold rebind_lineage. apply mwp_bind, mwp_installed; [|done|done].
  destruct (m_installed m) as [i|] eqn:Hi; [|by apply mwp_ret].
  unfold rebind_if_same_artifact. destruct (_ && _); [|by apply mwp_ret].
  set (i' := mkInstalledState lineage _ _ _ _ _).
  assert (agent_coherent (set_installed (Some i') m)) as Hac'.
  { unfold agent_coherent, steady in *. simpl. destruct (m_journal m) as [tx|].
    - destruct Hac as (Hni & Hv & j & Hj & Hst). assert (j = i) as -> by congruence.
      split_and!; [done|done|]. exists i'. split; [done|]. unfold stage in *. rewrite Hs in *.
      split_and!; apply Hst.
    - intros j [= <-]. exact (Hac i Hi). }
  by apply mwp_commit_installed.
Qed.

(** [main.rs]'s answer to a failed confirmation gate. *)
Definition revert_confirmed_head : M unit :=
  i ← installed;
  match i with
  | Present head => revert_guarded_head head false
  | _ => throw (IoError InvalidData "a verified installed release is required")
  end.

(** ** The life of an agent *)

Inductive agent_call : Type :=
| CallBoot (bytes_repaired : bool)
| CallUpdate (candidate : ReleaseId) (archive : string) (lineage : RepositoryLineage)
    (reconciler : ReconcilerRelease)
| CallDisarm
| CallRebind (lineage : RepositoryLineage)
| CallRevert.

(** One call, returning whether the agent keeps running. *)
Definition exec_call (c : agent_call) : M bool :=
  match c with
  | CallBoot b =>
      r ← boot health_successes b;
      mret (match r with BootRunning _ _ => true | BootReboot => false end)
  | CallUpdate cand arch lin rec =>
      o ← execute_update health_successes cand arch lin rec;
      mret (match o with UpdateCommitted reboot => negb reboot | RollbackPending => false end)
  | CallDisarm => _ ← disarm_update_rollback; mret true
  | CallRebind lineage => _ ← rebind_lineage lineage; mret true
  | CallRevert => _ ← revert_confirmed_head; mret false
  end.

(** A process boots first; everything else is a running agent's. *)
Definition call_allowed (running : bool) (c : agent_call) : bool :=
  match c with CallBoot _ => negb running | _ => running end.

Lemma exec_call_coherent running c m p :
  agent_coherent m → (running = true → steady m) → call_allowed running c = true →
  mwp (exec_call c) m p (λ k m' _, agent_coherent m' ∧ (k = true → steady m')) ac agent_coherent.
Proof.
  intros Hac Hs Hc. destruct c as [b|cand arch lin rec| |lin|]; simpl.
  - apply mwp_bind. eapply mwp_mono; [by apply boot_coherent| |done|done].
    intros r m' p' [Ha Hj]. apply mwp_ret. split; [done|].
    destruct r; [done|]. intros _. unfold steady. by rewrite Hj.
  - apply mwp_bind. eapply mwp_mono; [by apply execute_update_coherent| |done|done].
    intros o m' p' [Ha Hj]. apply mwp_ret. split; [done|]. by destruct o.
  - simpl in Hc. subst. apply mwp_bind. eapply mwp_mono; [apply disarm_coherent; auto| |done|done].
    intros o m' p' [Ha Hj]. apply mwp_ret. auto.
  - simpl in Hc. subst. apply mwp_bind. eapply mwp_mono; [apply rebind_coherent; auto| |done|done].
    intros o m' p' [Ha Hj]. apply mwp_ret. auto.
  - simpl in Hc. subst. apply mwp_bind. unfold revert_confirmed_head.
    apply mwp_bind, mwp_installed; [|done|done].
    destruct (m_installed m) as [head|] eqn:Hi; [|by apply mwp_throw].
    eapply mwp_mono; [apply revert_coherent; [done|done|]|..|done|done].
    + intros tx Hj Hp. specialize (Hs eq_refl). unfold steady in Hs. rewrite Hj in Hs. congruence.
    + intros [] m' p' Ha. by apply mwp_ret.
Qed.

Inductive agent_run : bool * (Disk * Rejections) → bool * (Disk * Rejections) → Prop :=
| agent_returns c run d p e k w :
    call_allowed run c = true → exec_call c (World d p e) = (Done k, w) →
    agent_run (run, (d, p)) (k, (disk w, proc w))
| agent_fails c run d p e er w :
    call_allowed run c = true → exec_call c (World d p e) = (Failed er, w) →
    agent_run (run, (d, p)) (false, (disk w, proc w))
| agent_dies c run d p e w p' e' w' :
    call_allowed run c = true → exec_call c (World d p e) = (Died, w) →
    load (World (disk w) p' e') = (Done tt, w') →
    agent_run (run, (d, p)) (false, (disk w', proc w'))
| agent_restarts run d p p' e' w' :
    load (World d p' e') = (Done tt, w') → agent_run (run, (d, p)) (false, (disk w', proc w')).

Definition agent_ok (x : bool * (Disk * Rejections)) : Prop :=
  ∃ m, represents x.2.1 m ∧ ledger_inv x.2.1 x.2.2 ∧ agent_coherent m
       ∧ (x.1 = true → steady m).

Lemma agent_run_ok x y : agent_run x y → agent_ok x → agent_ok y.
Proof.
  intros Hrun (m & Hrep & Hinv & Hac & Hs).
  destruct Hrun as [c run d p e k w Hc Hex|c run d p e er w Hc Hex|c run d p e w p' e' w' Hc Hex Hl
                   |run d p p' e' w' Hl]; simpl in *.
  1-3: pose proof (exec_call_coherent run c m p Hac Hs Hc d e Hrep Hinv) as Hw;
    unfold wp in Hw; rewrite Hex in Hw.
  - destruct Hw as (m' & ? & ? & ? & ?). by exists m'.
  - destruct Hw as (m' & ? & ? & ?). by exists m'.
  - destruct Hw as (m' & ? & ?). apply load_inv in Hl as (-> & ? & _). by exists m'.
  - apply load_inv in Hl as (-> & ? & _). by exists m.
Qed.

(** Crash safety of the whole agent: through every sequence of boots, updates, reverts
    and confirmations, with any hook answers, health verdicts, I/O failures, crashes and
    restarts, the durable files always decode, and the active pointer, the installed record
    and the journal always agree in one of the combinations boot recovery handles; whenever
    the agent is running no unfinished transaction is on disk. *)
Lemma agent_is_crash_safe x y : rtc agent_run x y → agent_ok x → agent_ok y.
Proof. induction 1; eauto using agent_run_ok. Qed.

(** A switchover reports no error of its own and claims success only when it owes
    nothing: it returns [RollbackPending] or [UpdateCommitted], and after the latter the
    journal is gone or terminal, with the pointer on the committed candidate. *)
Lemma switch_over_is_total tx d p e m o w :
  represents d m → ledger_inv d p → agent_coherent m →
  m_journal m = Some tx → tx_phase tx = Prepared →
  switch_over health_successes tx (World d p e) = (o, w) →
  ∃ m', represents (disk w) m' ∧ agent_coherent m'
        ∧ match o with
          | Done (UpdateCommitted _) => steady m'
          | Done RollbackPending | Died => True
          | Failed _ => False
          end.
Proof.
  intros Hrep Hinv Hac Hj Hp Hex.
  pose proof (switch_over_coherent tx m p Hj Hp Hac d e Hrep Hinv) as Hw.
  unfold wp in Hw. rewrite Hex in Hw.
  destruct o as [o|er|]; destruct Hw as (m' & Hw); exists m'; [|naive_solver|naive_solver].
  destruct o; naive_solver.
Qed.

End agent_proofs.
