(* ===== verification/Recovery.v ===== *)
(** * Recovery: boot recovery completes

    Safety alone is also satisfied by an agent that never finishes.  This file shows the
    other half: in an undisturbed environment (no I/O faults, successful hooks, healthy
    probes) recovery and its health gate, entered from any coherent state, end running, with the
    journal gone and the pointer, the record and the rejection ledger settled on one release.
    [InstallSafety.v] places this behind the steps every boot takes before it. *)
From S2P Require Import Prelude Identity State Transaction Install World Reject Store.
From S2P Require Import StoreSpec StoreRefine Boot Update AgentLogic Agent.

(** Nothing goes wrong any more. *)
Definition calm (e : Env) : Prop :=
  faults e = [] ∧ hooks e = [] ∧ gates e = [] ∧ patience e = [] ∧ ∀ n, intact e n = true.

Lemma gate_all_ok n : gate_verdict n (repeat ProbeOk (N.to_nat (N.max n 1))) = Ready.
Proof.
  unfold gate_verdict, Readiness_new.
  assert (∀ k c last, (c + N.of_nat (S k) = N.max n 1)%N →
    gate_loop (mkReadiness (N.max n 1) c) last (repeat ProbeOk (S k)) = Ready) as Hloop.
  { induction k as [|k IH]; intros c last Hc; simpl.
    - by rewrite (proj2 (N.leb_le _ _)) by lia.
    - destruct (N.leb_spec (N.max n 1) (c + 1)); [done|]. apply (IH (c + 1)%N (Some ProbeOk)). lia. }
  destruct (N.to_nat (N.max n 1)) as [|k] eqn:Hk; [lia|]. apply Hloop. lia.
Qed.

Section liveness.
Context `{Sha256} `{Semver} `{Codec} `{!ReleaseFits}.
Context (health_successes : N).

(** Every valid record serialises within its limit: they hold only bounded strings. *)
Class CodecTotal : Prop := {
  encodes_transaction : ∀ t, Transaction_validate t = Ok tt →
    is_Some (encode JOURNAL_RECORD_MAX_BYTES t);
  encodes_installed : ∀ s, InstalledState_validate s = Ok tt →
    is_Some (encode INSTALLED_RECORD_MAX_BYTES s);
  encodes_release : ∀ r, ReleaseId_validate r = Ok tt → is_Some (to_vec r);
}.
Context `{!CodecTotal}.

(** Running [f] from [m] in a calm environment returns, in a state satisfying [Q]. *)
Definition runs {A} (f : M A) (m : machine) (p : Rejections)
    (Q : A → machine → Rejections → Prop) : Prop :=
  ∀ d e, represents d m → ledger_inv d p → calm e →
  ∃ a d' p' m', f (World d p e) = (Done a, World d' p' e)
    ∧ represents d' m' ∧ ledger_inv d' p' ∧ Q a m' p'.

Lemma runs_bind {A B} (f : M B) (k : B → M A) m p Q :
  runs f m p (λ b m' p', runs (k b) m' p' Q) → runs (f ≫= k) m p Q.
Proof.
  intros Hf d e Hr Hl Hc. destruct (Hf d e Hr Hl Hc) as (b & d1 & p1 & m1 & Heq & Hr1 & Hl1 & Hk).
  unfold mbind, M_bind. rewrite Heq. by apply Hk.
Qed.

Lemma runs_ret {A} (a : A) m p (Q : A → machine → Rejections → Prop) :
  Q a m p → runs (mret a) m p Q.
Proof. intros HQ d e Hr Hl Hc. by exists a, d, p, m. Qed.

Lemma runs_mono {A} (f : M A) m p (Q Q' : A → machine → Rejections → Prop) :
  runs f m p Q → (∀ a m' p', Q a m' p' → Q' a m' p') → runs f m p Q'.
Proof.
  intros Hf HQ d e Hr Hl Hc. destruct (Hf d e Hr Hl Hc) as (a & d1 & p1 & m1 & ? & ? & ? & ?).
  exists a, d1, p1, m1. auto.
Qed.

Lemma runs_attempt {A} (f : M A) m p (Q : result A → machine → Rejections → Prop) :
  runs f m p (λ a, Q (Ok a)) → runs (attempt f) m p Q.
Proof.
  intros Hf d e Hr Hl Hc. destruct (Hf d e Hr Hl Hc) as (a & d1 & p1 & m1 & Heq & ? & ? & ?).
  exists (Ok a), d1, p1, m1. unfold attempt. by rewrite Heq.
Qed.

Lemma runs_evals {A} (f : M A) m p v (Q : A → machine → Rejections → Prop) :
  (∀ d, represents d m → evals f d p (Ok v)) → Q v m p → runs f m p Q.
Proof.
  intros Hf HQ d e Hr Hl Hc. exists v, d, p, m. split; [|done].
  destruct (Hf d Hr e) as [(e' & He & ->)|[Hn _]]; [|by destruct Hn; apply Hc].
  rewrite He by apply Hc. done.
Qed.

Lemma runs_journal m p (Q : option Transaction → machine → Rejections → Prop) :
  Q (m_journal m) m p → runs journal m p Q.
Proof. apply runs_evals. intros. by apply journal_rep. Qed.

Lemma runs_installed m p (Q : Installed → machine → Rejections → Prop) :
  Q (match m_installed m with Some s => Present s | None => Missing end) m p →
  runs installed m p Q.
Proof. apply runs_evals. intros. by apply installed_rep. Qed.

Lemma runs_active_release m p (Q : option ReleaseId → machine → Rejections → Prop) :
  Q (m_active m) m p → runs active_release m p Q.
Proof. apply runs_evals. intros. by apply active_release_rep. Qed.

Lemma runs_record op m p (Q : unit → machine → Rejections → Prop) :
  record_allowed p m op = true → Q tt (record_effect op m) p → runs (exec_record op) m p Q.
Proof.
  intros Hg HQ d e Hr Hl Hc. destruct (record_changes op d p m Hr) as (d' & Hch & Hr').
  exists tt, d', p, (record_effect op m). destruct (Hch e) as [(e' & He & Hout)|[Hn _]];
    [|by destruct Hn; apply Hc].
  rewrite Hg in Hout. rewrite He in Hout by apply Hc.
  split_and!; [done|by apply Hr'| |done].
  eapply ledger_inv_rep; [exact Hl|exact Hr|by apply Hr'|by destruct op].
Qed.

Lemma runs_write_journal tx m p (Q : unit → machine → Rejections → Prop) :
  Transaction_validate tx = Ok tt → may_write_journal p m tx = true →
  Q tt (set_journal (Some tx) m) p → runs (write_journal tx) m p Q.
Proof.
  intros Hv Hw. apply (runs_record (OpWriteJournal tx)). simpl. rewrite Hv, Hw. simpl.
  apply bool_decide_eq_true. by apply encodes_transaction.
Qed.

Lemma runs_commit s m p (Q : unit → machine → Rejections → Prop) :
  InstalledState_validate s = Ok tt → may_commit p m s = true →
  Q tt (set_installed (Some s) m) p → runs (commit_installed s) m p Q.
Proof.
  intros Hv Hw. apply (runs_record (OpCommit s)). simpl. rewrite Hv, Hw. simpl.
  apply bool_decide_eq_true. by apply encodes_installed.
Qed.

Lemma runs_clear_journal m p (Q : unit → machine → Rejections → Prop) :
  (∀ tx, m_journal m = Some tx → may_discard p m tx = true) →
  Q tt (set_journal None m) p → runs clear_journal m p Q.
Proof.
  intros Hd. apply (runs_record OpClearJournal). simpl.
  destruct (m_journal m) as [tx|]; auto.
Qed.

Lemma runs_activate rel m p (Q : unit → machine → Rejections → Prop) :
  ReleaseId_validate rel = Ok tt → Q tt (set_active (Some rel) m) p → runs (activate rel) m p Q.
Proof.
  intros Hv HQ d e Hr Hl Hc. destruct (activate_outcome d p rel e) as (_ & _ & Hq).
  destruct (encodes_release rel Hv) as [b Hb].
  rewrite Hv, Hb in Hq. simpl in Hq. rewrite Hq; [|apply Hc|done|apply Hc].
  pose proof (rep_write_active d m rel b Hr Hv Hb).
  eexists tt, _, p, _. split_and!; [done|done|by eapply ledger_inv_rep|done].
Qed.

(** A rejection with room in the ledger is recorded. *)
Lemma runs_reject k m p (Q : unit → machine → Rejections → Prop) :
  is_rejection_key k = true →
  (N.of_nat (length (hashes p)) < MAX_REJECTION_KEYS)%N →
  (∀ l p', is_durably_rejected p' k = true →
           (∀ k', is_durably_rejected p k' = true → is_durably_rejected p' k' = true) →
           Q tt (set_ledger l m) p') →
  runs (reject k) m p Q.
Proof.
  intros Hk Hlen HQ d e Hr Hl Hc.
  assert (∃ d' p', reject k (World d p e) = (Done tt, World d' p' e)) as (d' & p' & Heq).
  { unfold reject. rewrite (proj2 (digest_key_Some k k)) by done.
    assert (∀ r, ledger_ok (hashes r) → ∃ d' p', persist (World d r e) = (Done tt, World d' p' e)) as Hpersist.
    { intros r (_ & Hks & Hrl). unfold persist, save, mbind, M_bind, attempt. simpl.
      rewrite (proj2 (N.ltb_ge _ _)).
      2:{ rewrite render_length by done. unfold MAX_REJECTION_RECORD_BYTES, MAX_REJECTION_KEYS in *. lia. }
      unfold atomic_write_managed. rewrite durable_change_quiet by apply Hc. simpl. by eexists _, _. }
    destruct Hl as (Hok & _). unfold mbind, M_bind. simpl.
    destruct (set_contains k (hashes p)); [destruct (dirty p); [by apply Hpersist|by exists d, p]|].
    rewrite (proj2 (N.leb_gt _ _)) by done.
    apply Hpersist. simpl. destruct Hok as (Hs & Hks & _).
    split_and!; [by apply set_insert_ascending| |pose proof (set_insert_length k (hashes p)); lia].
    rewrite Forall_forall in *. intros x [->|?]%set_insert_elem; auto. }
  pose proof (wp_reject k d p e Hl) as Hw. unfold wp in Hw. rewrite Heq in Hw. simpl in Hw.
  destruct Hw as (Hl' & Hgrow & Hdur & (hs & hs' & Hd & Hd' & Hsub) & Ho).
  exists tt, d', p', (set_ledger hs' m). split_and!; [done|by eapply rep_ledger_grows|done|].
  apply HQ; [done|]. intros k'. unfold is_durably_rejected, is_rejected in *.
  apply andb_true_iff in Hdur as [-> _]. simpl. rewrite andb_true_iff.
  destruct (digest_key k'); [|naive_solver]. intros [_ Hin]. unfold set_contains in *. bool_to_prop.
  apply bool_decide_eq_true. by apply Hgrow.
Qed.

(** ** Undisturbed decisions *)

Lemma runs_run_reconciler_mutation m p (Q : bool → machine → Rejections → Prop) :
  Q false m p → runs run_reconciler_mutation m p Q.
Proof.
  intros HQ d e Hr Hl Hc. exists false, d, p, m. split; [|done].
  unfold run_reconciler_mutation, next_hook, mbind, M_bind. simpl.
  destruct Hc as (_ & -> & _). done.
Qed.

Lemma runs_boot_converge m p (Q : option bool → machine → Rejections → Prop) :
  Q (Some false) m p → runs boot_converge m p Q.
Proof.
  intros HQ d e Hr Hl Hc. exists (Some false), d, p, m. split; [|done].
  unfold boot_converge, next_hook, mbind, M_bind. simpl. destruct Hc as (_ & -> & _). done.
Qed.

Lemma runs_became_healthy m p (Q : Health → machine → Rejections → Prop) :
  Q Ready m p → runs (became_healthy health_successes) m p Q.
Proof.
  intros HQ d e Hr Hl Hc. exists Ready, d, p, m. split; [|done].
  unfold became_healthy, next_gate, mbind, M_bind. simpl. destruct Hc as (_ & _ & -> & _).
  unfold mret, M_ret. by rewrite gate_all_ok.
Qed.

Lemma runs_io_step m p (Q : unit → machine → Rejections → Prop) :
  Q tt m p → runs io_step m p Q.
Proof.
  intros HQ d e Hr Hl Hc. exists tt, d, p, m. split; [|done].
  unfold io_step, next_fault, mbind, M_bind. simpl. destruct Hc as (-> & _). done.
Qed.

Lemma runs_retry {S A} (step : S → M (S * result A)) s m p
    (Q : S * A → machine → Rejections → Prop) :
  runs (step s) m p (λ out m' p', ∃ s' a, out = (s', Ok a) ∧ Q (s', a) m' p') →
  runs (recover_through_transients step s) m p Q.
Proof.
  intros Hs. unfold recover_through_transients. apply runs_bind.
  intros d e Hr Hl Hc. exists 0, d, p, m. split_and!; [|done|done|].
  { unfold next_patience. simpl. destruct Hc as (_ & _ & _ & -> & _). done. }
  simpl. apply runs_bind. eapply runs_mono; [exact Hs|].
  intros out m' p' (s' & a & -> & HQ). by apply runs_ret.
Qed.

Lemma runs_retry_stateless {A} (f : M A) m p (Q : unit * A → machine → Rejections → Prop) :
  runs f m p (λ a m' p', Q (tt, a) m' p') →
  runs (recover_through_transients (stateless f) tt) m p Q.
Proof.
  intros Hf. apply runs_retry. unfold stateless. apply runs_bind, runs_attempt.
  eapply runs_mono; [exact Hf|]. intros a m' p' HQ. apply runs_ret. by exists tt, a.
Qed.

(** ** A rollback in progress, its journal in step with memory *)

Record live (t : Transaction) (m : machine) (i : InstalledState) : Prop := {
  live_journal : m_journal m = Some t;
  live_install : m_install m = None;
  live_valid : Transaction_validate t = Ok tt;
  live_installed : m_installed m = Some i;
  live_head_valid : InstalledState_validate i = Ok tt;
  live_head : on_previous t i ∨ on_candidate t i;
}.

Lemma rollback_evidence t next :
  Transaction_validate t = Ok tt → phase_is_rollback next = true →
  (tx_rollback_health_failures t = 0%N ∨ match next with Restored | RollbackVerified | RolledBack => True | _ => False end) →
  Transaction_validate (set_phase next t) = Ok tt.
Proof.
  rewrite !Transaction_validate_Ok. intros [Hid Hev] Hr Hn.
  split; [by rewrite <-(identity_validate_same t) by (by unfold same_identity)|].
  unfold phase_evidence_is_valid, evidence_possible in *. simpl.
  destruct (N.eqb_spec (tx_rollback_health_failures t) 0) as [Hz|Hz].
  { destruct next; try done; by rewrite orb_true_r. }
  destruct Hn as [?|Hn]; [done|]. apply andb_true_iff in Hev as [_ Hev].
  destruct (tx_phase t); try done; simpl in *; destruct next; try done; by rewrite orb_true_r, Hev.
Qed.

Lemma valid_failures t :
  Transaction_validate t = Ok tt → recovery_pending t Restored = true ∨ is_rollback t = false →
  tx_rollback_health_failures t = 0%N.
Proof.
  rewrite Transaction_validate_Ok. intros [_ Hev] Hp. revert Hev.
  unfold phase_evidence_is_valid, evidence_possible, recovery_pending, is_rollback in *.
  rewrite andb_true_iff, !orb_true_iff, N.eqb_eq.
  destruct (tx_phase t); simpl in *; intros [_ [?|?]]; try done; by destruct Hp.
Qed.

Lemma may_advance t next m p :
  m_journal m = Some t → m_install m = None → tx_phase t ≠ Committed → next ≠ Committed →
  phase_edge (tx_phase t) next = true → phase_evidence_is_valid (set_phase next t) = true →
  may_write_journal p m (set_phase next t) = true.
Proof.
  intros Hj Hni Hc Hn He Hev. unfold may_write_journal. rewrite Hni, Hj. simpl.
  rewrite (bool_decide_eq_true_2 (tx_id t = tx_id t)) by done.
  rewrite (bool_decide_eq_false_2 (next = Committed)) by done.
  rewrite (bool_decide_eq_false_2 (tx_phase t = Committed)) by done. simpl.
  rewrite andb_true_r. apply permits_replacement_complete. by constructor.
Qed.

(** One durable step of the rollback. *)
Lemma runs_advance t next m i p (Q : Transaction * result unit → machine → Rejections → Prop) :
  live t m i → tx_phase t ≠ Committed → phase_is_rollback next = true →
  phase_edge (tx_phase t) next = true → Transaction_validate (set_phase next t) = Ok tt →
  (live (set_phase next t) (set_journal (Some (set_phase next t)) m) i →
   Q (set_phase next t, Ok tt) (set_journal (Some (set_phase next t)) m) p) →
  runs (advance_transaction t next) m p Q.
Proof.
  intros Hl Hc Hr He Hv HQ. pose proof Hv as [_ Hev]%Transaction_validate_Ok.
  unfold advance_transaction.
  rewrite (proj2 (advance_Ok next t _) (conj He (conj Hev eq_refl))).
  apply runs_bind, runs_attempt, runs_write_journal; [done| |].
  - apply may_advance; try done; [apply Hl|apply Hl|by destruct next].
  - apply runs_ret, HQ. destruct Hl. by split.
Qed.

(** Confirming the head: afterwards it is proven. *)
Lemma runs_prove m i p (Q : bool → machine → Rejections → Prop) :
  m_installed m = Some i → InstalledState_validate i = Ok tt →
  (is_proven i = false → m_active m = Some (st_release i)) →
  (∀ b, Q b (set_installed (Some (prove_provisional i).1) m) p) →
  runs store_prove_provisional m p Q.
Proof.
  intros Hi Hv Ha HQ. unfold store_prove_provisional. apply runs_bind, runs_installed.
  rewrite Hi. destruct (prove_provisional i) as [i' changed] eqn:Hp.
  injection Hp as Hi' Hch. case_bool_decide as Hm; subst changed; simpl.
  - assert (is_proven i = false) as Hnp by (unfold is_proven; by rewrite Hm).
    assert (st_rollback_guard i = None) as Hg.
    { destruct (st_rollback_guard i) as [g|] eqn:Hg; [|done].
      destruct (validate_guard i g Hv Hg). congruence. }
    apply runs_bind, runs_commit; [subst i'; by apply (prove_provisional_valid i)| |].
    + unfold may_commit. rewrite Hi. subst i'. simpl. rewrite (Ha Hnp).
      rewrite bool_decide_eq_true_2 by done. simpl.
      unfold metadata_transition_is_authorized. simpl. rewrite Hg.
      case_bool_decide; [done|]. rewrite !bool_decide_eq_true_2 by done. simpl.
      unfold is_proven. simpl. by rewrite Hm.
    + apply runs_ret, HQ.
  - apply runs_ret. destruct (st_maturity i) eqn:Hmi; [done|]. specialize (HQ false). simpl in HQ.
    assert (i' = i) as -> by (subst i'; destruct i; simpl in *; by subst).
    replace (set_installed (Some i) m) with m in HQ; [done|]. destruct m; simpl in *; by subst.
Qed.

(** ** Settling *)

Lemma transaction_parts t :
  Transaction_validate t = Ok tt →
  ReleaseId_validate (tx_previous_release t) = Ok tt
  ∧ InstalledState_validate (predecessor_of t) = Ok tt
  ∧ is_rejection_key (rejection_key (tx_candidate_repository_lineage t)
                        (tx_candidate_rejection_sha256 t)) = true
  ∧ lineage_validate (tx_candidate_repository_lineage t) = true
  ∧ is_canonical_sha256 (tx_candidate_rejection_sha256 t) = true.
Proof.
  intros [Hid _]%Transaction_validate_Ok. unfold identity_validate in Hid.
  apply result_bind_Ok in Hid as ([] & _ & Hid). apply result_bind_Ok in Hid as ([] & Hprev & Hid).
  apply result_bind_Ok in Hid as ([] & _ & Hid). apply result_bind_Ok in Hid as ([] & Har & Hid).
  apply result_bind_Ok in Hid as ([] & Hli & Hid).
  destruct (candidate_rejection_sha256 _ _ _ _) as [rj|]; [|done].
  apply result_bind_Ok in Hid as ([] & Hrj & Hrec). autorewrite with upd in *. bool_to_prop.
  split_and!; [done| | |done|done].
  - unfold InstalledState_validate, predecessor_of, InstalledState_proven; simpl.
    result_ok ltac:(done).
  - unfold is_rejection_key, rejection_key. rewrite split_once_canonical by done. by apply andb_true_iff.
Qed.

(** The machine a completed boot leaves: no journal, and the pointer on the proven head. *)
Definition settled_on (m : machine) (j : InstalledState) : Prop :=
  m_journal m = None ∧ m_installed m = Some j ∧ m_active m = Some (st_release j)
  ∧ is_proven j = true.

Lemma live_head_state t m i :
  live t m i → at_previous t m →
  (is_proven i = false → m_active m = Some (st_release i))
  ∧ live t (set_installed (Some (prove_provisional i).1) m) (prove_provisional i).1.
Proof.
  intros Hl Ha. split.
  - intros Hn. destruct (live_head _ _ _ Hl) as [[Hm _]|[_ (g & Hg & _)]].
    + rewrite Ha. by apply matches_previous_runs in Hm as (-> & _).
    + destruct (validate_guard i g (live_head_valid _ _ _ Hl) Hg). congruence.
  - destruct Hl. split; try done. by apply (prove_provisional_valid i).
Qed.

(** The commit of the predecessor is authorised at the end of its rollback. *)
Lemma may_commit_predecessor t m i p :
  live t m i → at_previous t m → tx_phase t = RolledBack →
  may_commit p m (predecessor_of t) = true.
Proof.
  intros Hl Ha Hp. unfold may_commit. rewrite Ha, (live_installed _ _ _ Hl), (live_journal _ _ _ Hl).
  simpl. rewrite bool_decide_eq_true_2 by done. simpl.
  destruct (live_head _ _ _ Hl) as [[Hm Hg]|[Hm _]].
  - unfold matches_previous in Hm. bool_to_prop. unfold metadata_transition_is_authorized.
    case_bool_decide as Heq; [done|]. simpl. rewrite Hg.
    rewrite !bool_decide_eq_true_2 by (simpl; congruence). simpl.
    destruct (st_maturity i) eqn:Hmi; unfold is_proven; simpl; rewrite Hmi; [done|].
    destruct Heq. unfold predecessor_of, InstalledState_proven. destruct i; simpl in *; congruence.
  - rewrite orb_true_iff. right. unfold journal_authorizes. rewrite Hp. simpl. rewrite Hm. simpl.
    unfold matches_previous, predecessor_of. simpl. by rewrite !bool_decide_eq_true_2 by done.
Qed.

Lemma may_discard_rolled_back t m i p :
  live t m i → at_previous t m → tx_phase t = RolledBack → on_previous t i →
  (tx_candidate_rejection_required t = true →
   rejection_is_durable p (tx_candidate_repository_lineage t) (tx_candidate_rejection_sha256 t) = true) →
  may_discard p m t = true.
Proof.
  intros Hl Ha Hp [Hon _] Hr. unfold may_discard. rewrite Hp, Ha, (live_installed _ _ _ Hl). simpl.
  rewrite Hon, bool_decide_eq_true_2 by done. simpl. rewrite andb_true_r.
  destruct (tx_candidate_rejection_required t); simpl; auto.
Qed.

Lemma runs_propagate_advance t next m i p (Q : Transaction → machine → Rejections → Prop) :
  live t m i → tx_phase t ≠ Committed → phase_is_rollback next = true →
  phase_edge (tx_phase t) next = true → Transaction_validate (set_phase next t) = Ok tt →
  (live (set_phase next t) (set_journal (Some (set_phase next t)) m) i →
   Q (set_phase next t) (set_journal (Some (set_phase next t)) m) p) →
  runs (propagate (advance_transaction t next)) m p Q.
Proof.
  intros Hl Hc Hr He Hv HQ. unfold propagate. apply runs_bind. eapply runs_advance; try done.
  intros Hl'. by apply runs_ret, HQ.
Qed.

(** The last two phases of a rollback whose predecessor passed its gate. *)
Lemma runs_finish_phases t m i p {A} (k : option Transaction → M A)
    (Q : A → machine → Rejections → Prop) :
  live t m i → tx_phase t = Restored ∨ tx_phase t = RollbackVerified →
  (∀ t', same_identity t t' → tx_phase t' = RolledBack →
     tx_candidate_rejection_required t' = tx_candidate_rejection_required t →
     live t' (set_journal (Some t') m) i → ∀ r, runs (k r) (set_journal (Some t') m) p Q) →
  runs (recovery ← (if recovery_pending t RollbackVerified
                    then tx ← propagate (advance_transaction t RollbackVerified); mret (Some tx)
                    else mret (Some t));
        _ ← (match recovery with
             | Some tx =>
                 if recovery_pending tx RolledBack
                 then _ ← propagate (advance_transaction tx RolledBack); mret tt
                 else mret tt
             | None => mret tt
             end);
        k recovery) m p Q.
Proof.
  intros Hl Hph Hk.
  assert (∀ t1 m1 r, live t1 m1 i → tx_phase t1 = RollbackVerified →
    (∀ t', t' = set_phase RolledBack t1 → live t' (set_journal (Some t') m1) i →
           runs (k r) (set_journal (Some t') m1) p Q) →
    runs (_ ← (if recovery_pending t1 RolledBack
               then _ ← propagate (advance_transaction t1 RolledBack); mret tt else mret tt);
          k r) m1 p Q) as Hlast.
  { intros t1 m1 r Hl1 Hp1 Hk1. unfold recovery_pending. rewrite Hp1. simpl.
    apply runs_bind, runs_bind, (runs_propagate_advance t1 RolledBack m1 i); rewrite ?Hp1; try done.
    - apply rollback_evidence; [apply Hl1|done|by right].
    - intros Hl2. apply runs_ret. by apply (Hk1 (set_phase RolledBack t1)). }
  destruct (recovery_pending t RollbackVerified) eqn:Hpend; unfold recovery_pending in Hpend;
    destruct Hph as [Hp|Hp]; rewrite Hp in Hpend; try done.
  - apply runs_bind, runs_bind, (runs_propagate_advance t RollbackVerified m i); rewrite ?Hp; try done.
    + apply rollback_evidence; [apply Hl|done|by right].
    + intros Hl1. apply runs_ret. apply Hlast; [done|done|]. intros t' -> Hl2.
      apply (Hk (set_phase RolledBack (set_phase RollbackVerified t))); done.
  - apply runs_bind, runs_ret. apply Hlast; [done|done|]. intros t' -> Hl2.
    by apply (Hk (set_phase RolledBack t)).
Qed.

Lemma runs_settle_rollback plan (defer : bool) t m i p :
  live t m i → at_previous t m → tx_phase t = Restored ∨ tx_phase t = RollbackVerified →
  (tx_candidate_rejection_required t = true →
   rejection_is_durable p (tx_candidate_repository_lineage t) (tx_candidate_rejection_sha256 t) = true) →
  p_clear_journal plan = true →
  (if defer then p_commit plan = Some (predecessor_of t) else on_previous t i) →
  runs (settle_boot plan defer (st_rollback_guard i) (Some t) true) m p
    (λ r m' _, ∃ j, r = BootRunning (st_rollback_guard j) true ∧ settled_on m' j
                    ∧ runs_previous t j).
Proof.
  intros Hl Ha Hph Hrj Hcl Hdef. unfold settle_boot.
  destruct (live_head_state t m i Hl Ha) as [Hact Hl1]. set (i1 := (prove_provisional i).1) in *.
  apply runs_bind, runs_retry_stateless, (runs_prove m i);
    [apply Hl|apply Hl|done|intros _].
  set (m1 := set_installed (Some i1) m) in *.
  apply (runs_finish_phases t m1 i1); [done|done|].
  intros t2 Hid Hp2 Hrj2 Hl2 _. set (m2 := set_journal (Some t2) m1) in *.
  assert (at_previous t2 m2) as Ha2.
  { destruct (same_identity_stage t t2 m2 i1 Hid) as (_ & _ & Hx & _). by apply Hx. }
  destruct (transaction_parts t2 (live_valid _ _ _ Hl2)) as (_ & Hpv & _).
  destruct (same_identity_stage t t2 m2 i1 Hid) as (Hop & _ & _ & _ & Hpo).
  assert (∀ j, live t2 (set_installed (Some j) m2) j → on_previous t2 j → is_proven j = true →
    runs (_ ← (if p_clear_journal plan || defer then clear_journal else mret tt);
          mret (BootRunning (st_rollback_guard j) true)) (set_installed (Some j) m2) p
      (λ r m' _, ∃ j, r = BootRunning (st_rollback_guard j) true ∧ settled_on m' j
                      ∧ runs_previous t j)) as Hclear.
  { intros j Hlj Hon Hpr. rewrite Hcl. simpl. apply runs_bind, runs_clear_journal.
    - intros tx [= <-]. eapply may_discard_rolled_back; [exact Hlj|done|done|done|].
      rewrite Hrj2. destruct Hid as (_ & _ & _ & _ & _ & _ & <- & <- & _). done.
    - apply runs_ret. exists j. split; [done|].
      destruct (same_identity_stage t t2 m2 j Hid) as (Hopj & _ & _ & _ & _).
      apply Hopj in Hon as [Hm _]. apply matches_previous_runs in Hm as Hrun.
      split; [|done]. split_and!; [done|done| |done]. simpl. unfold runs_previous in Hrun.
      destruct Hrun as (-> & _). exact Ha. }
  destruct defer.
  - rewrite Hdef, Hpo. apply runs_bind, runs_bind, runs_commit; [done|by eapply may_commit_predecessor|].
    unfold installed_rollback_guard. apply runs_bind, runs_installed. apply runs_ret.
    assert (on_previous t2 (predecessor_of t2)) as Hon.
    { split; [|done]. unfold matches_previous. simpl. by rewrite !bool_decide_eq_true_2 by done. }
    apply (Hclear (predecessor_of t2)); [|done|done]. destruct Hl2. split; try done. by left.
  - apply runs_bind, runs_ret. apply (Hclear i1); [|by apply Hop|done].
    destruct Hl2. by split.
Qed.

(** ** Driving the rollback *)

(** [t] is a later record of [t0]'s rollback, durable in [m]. *)
Definition driven (t0 t : Transaction) (m : machine) (i : InstalledState) : Prop :=
  same_identity t0 t ∧ live t m i ∧ is_rollback t = true ∧ tx_phase t ≠ RolledBack
  ∧ tx_candidate_rejection_required t = tx_candidate_rejection_required t0.

Lemma runs_compensation t0 t m i p :
  driven t0 t m i → (recovery_pending t Restored = false → at_previous t m) →
  runs (recover_through_transients complete_candidate_compensation (Some t)) m p
    (λ out m' p', p' = p ∧ ∃ t', out = (Some t', false) ∧ driven t0 t' m' i
       ∧ recovery_pending t' CandidateCompensated = false
       ∧ (recovery_pending t' Restored = false → at_previous t' m')).
Proof.
  intros (Hid & Hl & Hr & Hn & Hrq) Hres. apply runs_retry.
  unfold complete_candidate_compensation.
  destruct (recovery_pending t CandidateCompensated) eqn:Hpend; simpl.
  - assert (tx_phase t = RollbackPlanned) as Hp.
    { revert Hpend. unfold recovery_pending, phase_pending. by destruct (tx_phase t). }
    apply runs_bind, runs_attempt, runs_run_reconciler_mutation.
    apply runs_bind, (runs_advance t CandidateCompensated m i); rewrite ?Hp; try done.
    + apply rollback_evidence; [apply Hl|done|left]. apply valid_failures; [apply Hl|left].
      unfold recovery_pending. by rewrite Hp.
    + intros Hl'. apply runs_ret. eexists _, false. split; [done|]. split; [done|].
      eexists. split; [done|]. split_and!; try done.
  - apply runs_ret. exists (Some t), false. split; [done|]. split; [done|]. by exists t.
Qed.

(** Recording the one verdict a plan may carry. *)
Lemma runs_plan_rejects t m p (Q : unit → machine → Rejections → Prop) :
  Transaction_validate t = Ok tt → (N.of_nat (length (hashes p)) < MAX_REJECTION_KEYS)%N →
  (∀ l p', (tx_candidate_rejection_required t = true →
            rejection_is_durable p' (tx_candidate_repository_lineage t)
              (tx_candidate_rejection_sha256 t) = true) →
     Q tt (set_ledger l m) p') →
  runs (reject_all (if tx_candidate_rejection_required t
                    then [(tx_candidate_repository_lineage t, tx_candidate_rejection_sha256 t)]
                    else [])) m p Q.
Proof.
  intros Hv Hlen HQ. destruct (transaction_parts t Hv) as (_ & _ & Hk & Hlin & Hcan).
  destruct (tx_candidate_rejection_required t); simpl.
  - apply runs_bind. unfold reject_artifact, record_rejection, store_rejection_key.
    rewrite Hlin, Hcan. simpl. apply runs_bind, runs_ret, runs_reject; [done|done|].
    intros l p' Hd _. apply runs_ret, HQ. intros _. unfold rejection_is_durable, store_rejection_key.
    by rewrite Hlin, Hcan.
  - apply runs_ret. specialize (HQ (m_ledger m) p). destruct m. by apply HQ.
Qed.

Lemma runs_boot_plan plan (defer : bool) t0 t m i p :
  driven t0 t m i → recovery_pending t CandidateCompensated = false →
  (recovery_pending t Restored = false → at_previous t m) →
  (N.of_nat (length (hashes p)) < MAX_REJECTION_KEYS)%N →
  p_release plan = FixActivate (tx_previous_release t0) →
  (defer = false → p_commit plan = None) →
  p_reject_candidate plan = (if tx_candidate_rejection_required t0
    then [(tx_candidate_repository_lineage t0, tx_candidate_rejection_sha256 t0)] else []) →
  runs (recover_through_transients (stateless (execute_boot_plan plan defer (Some t))) tt) m p
    (λ out m' p', out = (tt, st_rollback_guard i) ∧ driven t0 t m' i ∧ at_previous t m'
       ∧ (tx_candidate_rejection_required t = true →
          rejection_is_durable p' (tx_candidate_repository_lineage t)
            (tx_candidate_rejection_sha256 t) = true)).
Proof.
  intros Hd Hcomp Hres Hlen Hrel Hc Hrj. pose proof Hd as (Hid & Hl & Hr & Hn & Hrq).
  apply runs_retry_stateless. unfold execute_boot_plan, execute_store_plan, activates_release.
  rewrite Hcomp, Hrel. simpl.
  destruct (transaction_parts t (live_valid _ _ _ Hl)) as (Hpv & _ & _).
  assert (tx_previous_release t0 = tx_previous_release t) as Hprev by apply Hid.
  apply runs_bind, runs_bind.
  apply (runs_mono _ m p (λ _ m' p', p' = p ∧ driven t0 t m' i ∧ at_previous t m')).
  { destruct (recovery_pending t Restored); [|apply runs_ret; auto].
    rewrite Hprev. apply runs_activate; [done|]. split_and!; try done.
    destruct Hl. by split. }
  intros [] m1 p1 (-> & Hd1 & Ha1). apply runs_bind.
  apply (runs_mono _ m1 p (λ _ m' p', p' = p ∧ m' = m1)).
  { destruct defer; simpl; [by apply runs_ret|]. rewrite Hc by done. by apply runs_ret. }
  intros [] m2 p2 [-> ->]. rewrite Hrj.
  pose proof Hd1 as (_ & Hl1 & _).
  assert (tx_candidate_repository_lineage t0 = tx_candidate_repository_lineage t
          ∧ tx_candidate_rejection_sha256 t0 = tx_candidate_rejection_sha256 t) as [-> ->]
    by (split; apply Hid).
  rewrite <-Hrq. apply runs_plan_rejects; [apply Hl1|done|]. intros l p' Hdur.
  unfold installed_rollback_guard. apply runs_bind, runs_installed. simpl.
  rewrite (live_installed _ _ _ Hl1). apply runs_ret.
  split_and!; try done. destruct Hl1. by split.
Qed.

Lemma runs_activation t0 t m i p :
  driven t0 t m i → recovery_pending t CandidateCompensated = false → at_previous t m →
  runs (recover_through_transients complete_recovery_activation (Some t)) m p
    (λ out m' p', p' = p ∧ ∃ t', out = (Some t', false) ∧ driven t0 t' m' i
       ∧ at_previous t' m' ∧ (tx_phase t' = Restored ∨ tx_phase t' = RollbackVerified)).
Proof.
  intros (Hid & Hl & Hr & Hn & Hrq) Hcomp Ha. apply runs_retry.
  unfold complete_recovery_activation.
  assert (recovery_pending t RolledBack = true) as ->.
  { unfold recovery_pending, is_rollback in *. by destruct (tx_phase t). }
  simpl. apply runs_bind, runs_attempt, runs_run_reconciler_mutation.
  destruct (recovery_pending t Restored) eqn:Hpend.
  - assert (tx_phase t = CandidateCompensated) as Hp.
    { revert Hpend Hcomp. unfold recovery_pending, phase_pending. by destruct (tx_phase t). }
    apply runs_bind, (runs_advance t Restored m i); rewrite ?Hp; try done.
    + apply rollback_evidence; [apply Hl|done|by right].
    + intros Hl'. apply runs_ret. eexists _, false. split; [done|]. split; [done|].
      eexists. split; [done|]. split_and!; try done. by left.
  - apply runs_ret. exists (Some t), false. split; [done|]. split; [done|]. exists t.
    split; [done|]. split_and!; try done.
    revert Hpend. unfold recovery_pending, is_rollback in *. destruct (tx_phase t); auto; done.
Qed.

(** ** The end of a boot without a rollback to drive *)

Lemma runs_plain_tail plan b m head p :
  m_installed m = Some head → InstalledState_validate head = Ok tt →
  m_active m = Some (st_release head) →
  (if p_clear_journal plan
   then ∀ tx, m_journal m = Some tx →
        may_discard p (set_installed (Some (prove_provisional head).1) m) tx = true
   else m_journal m = None) →
  runs (head' ← recover_through_transients (stateless read_boot_head) tt;
        convergence ← (r ← recover_through_transients (stateless boot_converge) tt; mret r.2);
        boot_gate health_successes plan false b (st_rollback_guard head) None head'.2 convergence)
    m p
    (λ r m' _, ∃ j, r = BootRunning (st_rollback_guard j) true ∧ settled_on m' j ∧ same_unit head j).
Proof.
  intros Hi Hv Ha Hcl. apply runs_bind, runs_retry_stateless. unfold read_boot_head.
  apply runs_bind, runs_installed. rewrite Hi. apply runs_ret.
  apply runs_bind, runs_bind, runs_retry_stateless, runs_boot_converge, runs_ret.
  unfold boot_gate. apply runs_bind, runs_became_healthy. unfold settle_boot.
  apply runs_bind, runs_retry_stateless, (runs_prove m head); [done|done|done|intros _].
  apply runs_bind, runs_ret, runs_bind, runs_ret, runs_bind, runs_ret. rewrite orb_false_r.
  set (j := (prove_provisional head).1) in *.
  assert (∀ m', m_journal m' = None → m_installed m' = Some j → m_active m' = m_active m →
    ∃ j0, BootRunning (st_rollback_guard head) true = BootRunning (st_rollback_guard j0) true
          ∧ settled_on m' j0 ∧ same_unit head j0) as Hend.
  { intros m' Hj' Hi' Ha'. exists j. split; [done|]. split; [|done].
    split_and!; [done|done|by rewrite Ha', Ha|done]. }
  destruct (p_clear_journal plan).
  - apply runs_bind, runs_clear_journal; [done|]. apply runs_ret. by apply Hend.
  - apply runs_bind, runs_ret, runs_ret. by apply Hend.
Qed.

Definition recovered (m : machine) (i : InstalledState) (r : boot_end) (m' : machine) : Prop :=
  ∃ j, r = BootRunning (st_rollback_guard j) true ∧ settled_on m' j
       ∧ (same_unit i j ∨ ∃ tx, m_journal m = Some tx ∧ runs_previous tx j).

Lemma runs_boot_rollback b m p i t :
  owes t m i → InstalledState_validate i = Ok tt →
  (N.of_nat (length (hashes p)) < MAX_REJECTION_KEYS)%N →
  runs (boot health_successes b) m p (λ r m' _, recovered m i r m').
Proof.
  intros [Hrt Hj Hni Hv Hi [Hnc Hnr] Hrel Hc Hcl Hhead Hpt Hres] Hvi Hlen.
  pose proof (plan_boot_rejects (situation_of m i) i eq_refl) as Hrj. simpl in Hrj. rewrite Hj in Hrj.
  unfold boot, gather_situation.
  apply runs_bind, runs_bind, runs_active_release, runs_bind, runs_installed, runs_bind, runs_journal.
  apply runs_ret. rewrite Hi. fold (situation_of m i). rewrite Hrt.
  rewrite plan_boot_not_failed.
  set (plan := plan_boot (situation_of m i)) in *.
  apply runs_bind. unfold begin_recovery. simpl. rewrite Hj.
  rewrite (bool_decide_eq_true_2 (Some t = Some t)), andb_false_r by done.
  apply runs_bind, runs_ret.
  apply (runs_mono _ m p (λ r m' p', p' = p ∧ ∃ t', r = Some t' ∧ driven t t' m' i
           ∧ (recovery_pending t' Restored = false → at_previous t' m'))).
  { assert (live t m i) as Hl by (split; naive_solver).
    destruct (is_rollback t) eqn:Hr; simpl.
    - apply runs_ret. split; [done|]. exists t. split; [done|]. split; [by split_and!|auto].
    - apply runs_bind, (runs_propagate_advance t RollbackPlanned m i); try done.
      + unfold is_rollback in Hr. by destruct (tx_phase t).
      + apply rollback_evidence; [done|done|left]. apply valid_failures; auto.
      + intros Hl'. apply runs_ret. split; [done|]. eexists. split; [done|]. split; [|done].
        split_and!; done. }
  intros ? m1 p1 (-> & t1 & -> & Hd1 & Hres1).
  apply runs_bind, runs_io_step, runs_bind.
  eapply runs_mono; [by apply (runs_compensation t)|].
  intros ? m2 p2 (-> & t2 & -> & Hd2 & Hcomp2 & Hres2). apply runs_bind.
  eapply runs_mono; [apply (runs_boot_plan plan (is_rollback t) t t2 m2 i); try done|].
  { intros Hdf. rewrite Hc. by rewrite Hdf. }
  intros ? m3 p3 (-> & Hd3 & Ha3 & Hdur3). apply runs_bind.
  eapply runs_mono; [by apply (runs_activation t)|].
  intros ? m4 p4 (-> & t4 & -> & Hd4 & Ha4 & Hph4). pose proof Hd4 as (Hid4 & Hl4 & Hr4 & Hn4 & Hrq4).
  apply runs_bind, runs_retry_stateless. unfold read_boot_head.
  apply runs_bind, runs_installed. rewrite (live_installed _ _ _ Hl4). apply runs_ret.
  apply runs_bind, runs_ret. simpl. apply runs_bind, runs_became_healthy.
  pose proof Hd3 as (Hid3 & _ & _ & _ & Hrq3).
  destruct (same_identity_stage t t4 m4 i Hid4) as (Hop4 & _ & _ & _ & Hpo4).
  eapply runs_mono; [apply (runs_settle_rollback plan (is_rollback t) t4 m4 i); try done|].
  - rewrite Hrq4. rewrite Hrq3 in Hdur3.
    assert (tx_candidate_repository_lineage t4 = tx_candidate_repository_lineage t2) as ->
      by (transitivity (tx_candidate_repository_lineage t); [symmetry; apply Hid4|apply Hid3]).
    assert (tx_candidate_rejection_sha256 t4 = tx_candidate_rejection_sha256 t2) as ->
      by (transitivity (tx_candidate_rejection_sha256 t); [symmetry; apply Hid4|apply Hid3]).
    done.
  - rewrite Hc, <-Hpo4. destruct (is_rollback t) eqn:Hr; [done|]. apply Hop4. naive_solver.
  - intros r m' p' (j & -> & Hs & Hrun). exists j. split; [done|]. split; [done|]. right.
    exists t. split; [done|]. destruct (same_identity_runs t t4 j Hid4) as (Hx & _). by apply Hx.
Qed.

(** The plan's durable half when nothing is to be driven. *)
Lemma runs_plain_plan plan m i p :
  m_installed m = Some i → InstalledState_validate i = Ok tt →
  (N.of_nat (length (hashes p)) < MAX_REJECTION_KEYS)%N →
  p_release plan = FixNone →
  match m_journal m with
  | None => p_reject_candidate plan = [] ∧ p_commit plan = None
  | Some tx =>
      Transaction_validate tx = Ok tt
      ∧ p_reject_candidate plan = (if tx_candidate_rejection_required tx
          then [(tx_candidate_repository_lineage tx, tx_candidate_rejection_sha256 tx)] else [])
      ∧ (p_commit plan = None
         ∨ (p_commit plan = Some (predecessor_of tx) ∧ may_commit p m (predecessor_of tx) = true))
  end →
  runs (recover_through_transients (stateless (execute_boot_plan plan false None)) tt) m p
    (λ out m' p', ∃ j l, out = (tt, st_rollback_guard j)
       ∧ m' = set_ledger l (set_installed (Some j) m) ∧ InstalledState_validate j = Ok tt
       ∧ (p_commit plan = None → j = i) ∧ (∀ c, p_commit plan = Some c → j = c)
       ∧ (∀ tx, m_journal m = Some tx → tx_candidate_rejection_required tx = true →
          rejection_is_durable p' (tx_candidate_repository_lineage tx)
            (tx_candidate_rejection_sha256 tx) = true)).
Proof.
  intros Hi Hvi Hlen Hrel Hplan. apply runs_retry_stateless.
  unfold execute_boot_plan, execute_store_plan, activates_release. rewrite Hrel.
  apply runs_bind, runs_bind, runs_ret, runs_bind.
  apply (runs_mono _ m p (λ _ m' p', p' = p ∧ ∃ j, m' = set_installed (Some j) m
    ∧ InstalledState_validate j = Ok tt ∧ (p_commit plan = None → j = i)
    ∧ (∀ c, p_commit plan = Some c → j = c))).
  { assert (m = set_installed (Some i) m) as Hm by (destruct m; simpl in *; by subst).
    destruct (p_commit plan) as [c|] eqn:Hc; simpl; [|apply runs_ret; split; [done|]; by exists i].
    destruct (m_journal m) as [tx|]; [|by destruct Hplan].
    destruct Hplan as (Hv & _ & [?|[[= ->] Hmay]]); [done|].
    apply runs_commit; [by apply transaction_parts|done|]. split; [done|].
    exists (predecessor_of tx). split_and!; [done|by apply transaction_parts|done|]. by intros c [= <-]. }
  intros [] m1 p1 (-> & j & -> & Hvj & Hn & Hs).
  assert (∀ l p', (∀ tx, m_journal m = Some tx → tx_candidate_rejection_required tx = true →
            rejection_is_durable p' (tx_candidate_repository_lineage tx)
              (tx_candidate_rejection_sha256 tx) = true) →
    runs installed_rollback_guard (set_ledger l (set_installed (Some j) m)) p'
      (λ a m' p', ∃ j l, (tt, a) = (tt, st_rollback_guard j)
       ∧ m' = set_ledger l (set_installed (Some j) m) ∧ InstalledState_validate j = Ok tt
       ∧ (p_commit plan = None → j = i) ∧ (∀ c, p_commit plan = Some c → j = c)
       ∧ (∀ tx, m_journal m = Some tx → tx_candidate_rejection_required tx = true →
          rejection_is_durable p' (tx_candidate_repository_lineage tx)
            (tx_candidate_rejection_sha256 tx) = true))) as Hend.
  { intros l p' Hdur. unfold installed_rollback_guard. apply runs_bind, runs_installed.
    apply runs_ret. by exists j, l. }
  destruct (m_journal m) as [tx|].
  - destruct Hplan as (Hv & -> & _). apply runs_plan_rejects; [done|done|].
    intros l p' Hdur. apply Hend. by intros ? [= <-].
  - destruct Hplan as [-> _]. apply runs_ret. by apply (Hend (m_ledger m)).
Qed.

Lemma on_candidate_durable tx i :
  on_candidate tx i → tx_candidate_rejection_required tx = false →
  forward_commit_is_durable tx i = true.
Proof.
  intros (Hm & g & Hg & Hb) Hr. unfold forward_commit_is_durable. rewrite Hr, Hm, Hg. done.
Qed.

(** The journals a boot has nothing to drive for. *)
Lemma plain_cases m i tx :
  agent_coherent m → m_installed m = Some i → m_journal m = Some tx →
  (tx_phase tx = Committed → forward_commit_is_durable tx i = true) →
  recovery_transaction (situation_of m i) = None →
  (tx_phase tx = Prepared ∧ on_previous tx i ∧ at_previous tx m)
  ∨ (forward_commit_is_durable tx i = true ∧ at_candidate tx m
     ∧ (tx_phase tx = Converged ∨ tx_phase tx = Verified ∨ tx_phase tx = Committed))
  ∨ (tx_phase tx = RolledBack ∧ (on_previous tx i ∨ on_candidate tx i) ∧ at_previous tx m
     ∧ p_commit (plan_boot (situation_of m i)) = Some (predecessor_of tx)).
Proof.
  intros Hac Hi Hj Hnw Hrt. pose proof (boot_derivation m i Hac Hi) as Hd. cbv zeta in Hd.
  rewrite Hrt in Hd. destruct Hd as (_ & _ & _ & Hprep).
  destruct (plan_boot_cases (situation_of m i) i eq_refl) as [Hpc _].
  unfold agent_coherent in Hac. rewrite Hj in Hac. destruct Hac as (_ & Hv & i' & Hi' & Hst).
  assert (i' = i) as -> by congruence. pose proof Hv as [_ Hev]%Transaction_validate_Ok.
  unfold recovery_transaction in Hrt. simpl in Hrt, Hpc. rewrite Hj in Hrt, Hpc.
  destruct Hpc as [_ Hpc].
  assert (∀ P : Prop, journal_recovery tx (m_active m) (Some i) = RestorePredecessor → P) as Hno
    by (intros P Hx; by rewrite Hx in Hrt).
  unfold journal_recovery, classify_recovery in Hno, Hpc.
  rewrite drives_rollback_phase in Hno, Hpc by done. unfold stage in Hst.
  destruct (tx_phase tx) eqn:Hp; simpl in *; try (by apply Hno).
  - left. split_and!; [done|apply Hst|by apply (Hprep tx)].
  - right. left. destruct Hst as [[[Hm _]|[Hoc Hq]] Hat].
    + apply Hno. by rewrite (candidate_is_not_previous tx i Hv Hm), andb_false_r.
    + split_and!; [by apply on_candidate_durable|done|by left].
  - right. left. destruct Hst as [[[Hm _]|[Hoc Hq]] Hat].
    + apply Hno. by rewrite (candidate_is_not_previous tx i Hv Hm), andb_false_r.
    + split_and!; [by apply on_candidate_durable|done|by right; left].
  - right. left. split_and!; [by apply Hnw|apply Hst|by right; right].
  - right. right. rewrite bool_decide_eq_true_2 in Hpc by apply Hst.
    destruct Hpc as [_ Hpc]. split_and!; [done|apply Hst|apply Hst|].
    rewrite Hpc. unfold is_rollback. by rewrite Hp.
Qed.

(** What such a boot's head is, and that its journal may then be cleared. *)
Lemma plain_discard m i tx j l p :
  agent_coherent m → m_installed m = Some i → m_journal m = Some tx →
  (tx_phase tx = Committed → forward_commit_is_durable tx i = true) →
  recovery_transaction (situation_of m i) = None →
  (p_commit (plan_boot (situation_of m i)) = None → j = i) →
  (∀ c, p_commit (plan_boot (situation_of m i)) = Some c → j = c) →
  (tx_candidate_rejection_required tx = true →
   rejection_is_durable p (tx_candidate_repository_lineage tx)
     (tx_candidate_rejection_sha256 tx) = true) →
  m_active m = Some (st_release j)
  ∧ (same_unit i j ∨ ∃ tx, m_journal m = Some tx ∧ runs_previous tx j)
  ∧ may_discard p (set_installed (Some (prove_provisional j).1)
                     (set_ledger l (set_installed (Some j) m))) tx = true.
Proof.
  intros Hac Hi Hj Hnw Hrt Hjn Hjs Hdur.
  pose proof (boot_derivation m i Hac Hi) as Hd. cbv zeta in Hd.
  rewrite Hrt in Hd. destruct Hd as (_ & _ & Hc & _).
  assert (tx_phase tx ≠ RolledBack → j = i) as Hsame.
  { intros Hne. destruct (p_commit _) as [c|]; [|by apply Hjn].
    destruct (Hc c eq_refl) as (tx' & Htx' & Hp & _). congruence. }
  assert (negb (tx_candidate_rejection_required tx)
          || rejection_is_durable p (tx_candidate_repository_lineage tx)
               (tx_candidate_rejection_sha256 tx) = true) as Hrj.
  { destruct (tx_candidate_rejection_required tx); simpl; auto. }
  unfold may_discard. rewrite Hrj. simpl.
  destruct (plain_cases m i tx Hac Hi Hj Hnw Hrt)
    as [(Hp & [Hm _] & Hat)|[(Hfd & Hat & Hp)|(Hp & _ & Hat & Hcm)]].
  - rewrite Hp in *. rewrite Hsame by done. apply matches_previous_runs in Hm as (-> & _).
    split_and!; [done|by left|done].
  - rewrite Hsame by (destruct Hp as [-> | [-> | ->]]; done).
    pose proof Hfd as (Hm & _)%forward_commit_is_durable_inv.
    apply matches_candidate_runs in Hm as (Hrl & _).
    split_and!; [by rewrite Hrl|by left|]. destruct Hp as [-> | [-> | ->]]; exact Hfd.
  - rewrite (Hjs _ Hcm), Hp. split_and!; [done|right; by exists tx|].
    rewrite bool_decide_eq_true_2 by done. unfold matches_previous. simpl.
    by rewrite !bool_decide_eq_true_2 by done.
Qed.

Lemma runs_boot_plain b m p i :
  agent_coherent m → m_installed m = Some i → InstalledState_validate i = Ok tt →
  (∀ tx, m_journal m = Some tx → tx_phase tx = Committed →
         forward_commit_is_durable tx i = true) →
  (N.of_nat (length (hashes p)) < MAX_REJECTION_KEYS)%N →
  recovery_transaction (situation_of m i) = None →
  runs (boot health_successes b) m p (λ r m' _, recovered m i r m').
Proof.
  intros Hac Hi Hvi Hnw Hlen Hrt. pose proof (boot_derivation m i Hac Hi) as Hd. cbv zeta in Hd.
  rewrite Hrt in Hd. destruct Hd as (Hrel & Hcl & Hc & _).
  pose proof (plan_boot_rejects (situation_of m i) i eq_refl) as Hrj. simpl in Hrj.
  unfold boot, gather_situation.
  apply runs_bind, runs_bind, runs_active_release, runs_bind, runs_installed, runs_bind, runs_journal.
  apply runs_ret. rewrite Hi. fold (situation_of m i). rewrite Hrt, plan_boot_not_failed.
  set (plan := plan_boot (situation_of m i)) in *.
  apply runs_bind, runs_ret, runs_bind, runs_io_step, runs_bind, runs_retry, runs_ret.
  exists None, false. split; [done|]. apply runs_bind.
  eapply runs_mono; [apply (runs_plain_plan plan m i); try done|].
  { destruct (m_journal m) as [tx|] eqn:Hj.
    - pose proof Hac as Hac0. unfold agent_coherent in Hac0. rewrite Hj in Hac0.
      destruct Hac0 as (Hni & Hv & i' & Hi' & Hst). assert (i' = i) as -> by congruence.
      split_and!; [done|done|]. destruct (p_commit plan) as [c|]; [right|by left].
      destruct (Hc c eq_refl) as (tx' & [= <-] & Hp & ->). split; [done|].
      unfold stage in Hst. rewrite Hp in Hst. destruct Hst as [Hh Hat].
      apply (may_commit_predecessor tx m i); [by split|done|done].
    - split; [done|]. destruct (p_commit plan) as [c|]; [|done]. by destruct (Hc c eq_refl) as (? & ? & _). }
  intros ? m1 p1 (j & l & -> & -> & Hvj & Hjn & Hjs & Hdur).
  apply runs_bind, runs_retry, runs_ret. exists None, false. split; [done|].
  assert (m_active m = Some (st_release j)
          ∧ (same_unit i j ∨ ∃ tx, m_journal m = Some tx ∧ runs_previous tx j)) as [Ha Hunit].
  { destruct (m_journal m) as [tx|] eqn:Hj.
    - destruct (plain_discard m i tx j l p1) as (? & Hu & _); try done; [by apply Hnw|by apply Hdur|].
      split; [done|]. destruct Hu as [?|(t & Ht & ?)]; [by left|right]. exists t. split; congruence.
    - assert (j = i) as ->; [|split; [|by left]].
      + apply Hjn. destruct (p_commit plan) as [c|]; [|done]. by destruct (Hc c eq_refl) as (? & ? & _).
      + unfold agent_coherent in Hac. rewrite Hj in Hac. by apply Hac. }
  eapply runs_mono; [apply (runs_plain_tail plan b (set_ledger l (set_installed (Some j) m)) j); try done|].
  - rewrite Hcl. case_bool_decide as Hsome; [|by apply eq_None_not_Some].
    intros tx Htx. simpl in Htx. by apply (plain_discard m i tx j l p1); auto.
  - intros r m' p' (j' & -> & Hs & Hu). exists j'. split; [done|]. split; [done|].
    destruct Hunit as [Hu0|(tx & Htx & Hrun)].
    + left. unfold same_unit in *. intuition congruence.
    + right. exists tx. split; [done|]. unfold runs_previous, same_unit in *. intuition congruence.
Qed.

(** From every coherent machine whose committed journal, if any, still has its rollback guard, and
    from a pointer that returned early, with room in the rejection ledger. *)
Lemma boot_recovers b m i p :
  agent_coherent m ∨ returned m → m_installed m = Some i → InstalledState_validate i = Ok tt →
  (∀ tx, m_journal m = Some tx → tx_phase tx = Committed →
         forward_commit_is_durable tx i = true) →
  (N.of_nat (length (hashes p)) < MAX_REJECTION_KEYS)%N →
  runs (boot health_successes b) m p (λ r m' _, recovered m i r m').
Proof.
  intros Hm Hi Hv Hnw Hlen. destruct Hm as [Hac|Hre].
  - destruct (recovery_transaction (situation_of m i)) as [t|] eqn:Hrt;
      [eapply runs_boot_rollback; [by apply coherent_owes|done|done]|by apply runs_boot_plain].
  - destruct (returned_owes m Hre) as (t & i' & Ho). pose proof (ow_installed _ _ _ Ho).
    assert (i' = i) as -> by congruence. by eapply runs_boot_rollback.
Qed.

End liveness.
