(* ===== verification/AgentHistory.v ===== *)
(** * AgentHistory: the agent acts only through the store's specification

    Every program of [Update.v], however its environment ends it, leaves files that decode
    to a machine reached by a history of [StoreSpec.v]'s steps.  So each invariant proved
    of those histories holds of the agent, and a state the specification never leaves is
    one no sequence of agent calls can leave. *)
From S2P Require Import Prelude Identity State Transaction Install World Reject Store.
From S2P Require Import StoreSpec StoreRefine Boot Update AgentLogic Agent.

Create HintDb historic.

Section historic.
Context `{Sha256} `{Semver} `{Codec} `{!ReleaseFits}.
Context (health_successes : N).

Definition follows (m : machine) (w : world) : Prop :=
  ∃ m', represents (disk w) m' ∧ ledger_inv (disk w) (proc w) ∧ history m m'.

Definition historic {A} (f : M A) : Prop :=
  ∀ d p e m, represents d m → ledger_inv d p →
  wp f (λ _, follows m) (λ _, follows m)
     (λ d', ∃ m', represents d' m' ∧ history m m') (World d p e).

Lemma history_trans m1 m2 m3 : history m1 m2 → history m2 m3 → history m1 m3.
Proof. induction 1; eauto using history. Qed.

(** ** Structure *)

Lemma historic_bind {A B} (f : M B) (k : B → M A) :
  historic f → (∀ b, historic (k b)) → historic (f ≫= k).
Proof.
  intros Hf Hk d p e m Hr Hl. apply wp_bind. eapply wp_mono; [by apply Hf|..]; [|done|done].
  intros b [d' p' e'] (m' & Hr' & Hl' & Hh). eapply wp_mono; [by apply Hk|..].
  - intros a w (m2 & ? & ? & ?). exists m2. eauto using history_trans.
  - intros er w (m2 & ? & ? & ?). exists m2. eauto using history_trans.
  - intros d2 (m2 & ? & ?). exists m2. eauto using history_trans.
Qed.

Lemma historic_env {A} (f : M A) :
  (∀ w, disk (f w).2 = disk w ∧ proc (f w).2 = proc w) → historic f.
Proof.
  intros Hf d p e m Hr Hl. unfold wp. specialize (Hf (World d p e)).
  destruct (f (World d p e)) as [[a|er|] [d' p' e']]; simpl in *; destruct Hf; subst;
    exists m; eauto using history.
Qed.

Lemma historic_ret {A} (a : A) : historic (mret a).
Proof. by apply historic_env. Qed.
Lemma historic_throw {A} er : historic (throw er : M A).
Proof. by apply historic_env. Qed.
Lemma historic_die {A} : historic (die : M A).
Proof. by apply historic_env. Qed.
Lemma historic_lift {A} (r : result A) : historic (lift r).
Proof. apply historic_env. by destruct r. Qed.
Lemma historic_next_fault : historic next_fault.
Proof. apply historic_env. intros [? ? e]. unfold next_fault; simpl. by destruct (faults e). Qed.
Lemma historic_next_hook : historic next_hook.
Proof. apply historic_env. intros [? ? e]. unfold next_hook; simpl. by destruct (hooks e) as [|[]]. Qed.
Lemma historic_next_gate n : historic (next_gate n).
Proof. apply historic_env. intros [? ? e]. unfold next_gate; simpl. by destruct (gates e) as [|[]]. Qed.
Lemma historic_now_unix : historic now_unix.
Proof. apply historic_env. intros [? ? e]. unfold now_unix; simpl. by destruct (clock e). Qed.
Lemma historic_token : historic token.
Proof. apply historic_env. intros [? ? e]. unfold token; simpl. by destruct (tokens e). Qed.
Lemma historic_next_patience : historic next_patience.
Proof. apply historic_env. intros [? ? e]. unfold next_patience; simpl. by destruct (patience e). Qed.

Lemma historic_attempt {A} (f : M A) : historic f → historic (attempt f).
Proof.
  intros Hf d p e m Hr Hl. apply wp_attempt. eapply wp_mono; [by apply Hf|done|done|done].
Qed.

(** ** The store's calls *)

Lemma historic_evals {A} (f : M A) :
  (∀ d p m, represents d m → ∃ r, evals f d p r) → historic f.
Proof.
  intros Hf d p e m Hr Hl. unfold wp. destruct (Hf d p m Hr) as [r Hev].
  destruct (Hev e) as [(e' & _ & ->)|(_ & e' & [[k ->]| ->])]; simpl;
    [destruct r; simpl| |]; exists m; eauto using history.
Qed.

Lemma historic_installed : historic installed.
Proof. apply historic_evals. eauto using installed_rep. Qed.
Lemma historic_journal : historic journal.
Proof. apply historic_evals. eauto using journal_rep. Qed.
Lemma historic_active_release : historic active_release.
Proof. apply historic_evals. eauto using active_release_rep. Qed.

Lemma historic_exec op : historic (exec op).
Proof.
  intros d p e m Hr Hl.
  assert (∀ d', one_step p m d' → ∃ m', represents d' m' ∧ history m m') as Hone.
  { intros d' (m' & Hr' & Hs). exists m'. split; [done|]. destruct Hs as [->|Hs]; [constructor|].
    eapply history_step; [by eapply ledger_live|done|constructor]. }
  eapply wp_mono; [by apply exec_step|..]; [| |done].
  - intros a w [Ho ?]. destruct (Hone _ Ho) as (m' & ? & ?). by exists m'.
  - intros er w [Ho ?]. destruct (Hone _ Ho) as (m' & ? & ?). by exists m'.
Qed.

Lemma historic_commit_installed s : historic (commit_installed s).
Proof. apply (historic_exec (OpRecord (OpCommit s))). Qed.
Lemma historic_write_journal tx : historic (write_journal tx).
Proof. apply (historic_exec (OpRecord (OpWriteJournal tx))). Qed.
Lemma historic_clear_journal : historic clear_journal.
Proof. apply (historic_exec (OpRecord OpClearJournal)). Qed.
Lemma historic_activate rel : historic (activate rel).
Proof. apply (historic_exec (OpActivate rel)). Qed.
Lemma historic_reject_artifact l a : historic (reject_artifact l a).
Proof. apply (historic_exec (OpReject l a)). Qed.
Lemma historic_reject_deployment l a : historic (reject_deployment l a).
Proof. apply (historic_exec (OpRejectDeployment l a)). Qed.

Lemma historic_retry {S A} n (step : S → M (S * result A)) s :
  (∀ s, historic (step s)) → historic (retry_loop n step s).
Proof.
  intros Hstep. revert s. induction n as [|n IH]; intros s; simpl; apply historic_bind; auto;
    intros [s' [a|er]]; auto using historic_ret, historic_throw.
  destruct (is_node_local_transient er); auto using historic_throw.
Qed.

Lemma historic_recover {S A} (step : S → M (S * result A)) s :
  (∀ s, historic (step s)) → historic (recover_through_transients step s).
Proof.
  intros Hstep. apply historic_bind; [apply historic_next_patience|]. intros n. by apply historic_retry.
Qed.

End historic.

#[export] Hint Resolve historic_ret historic_throw historic_die historic_lift historic_next_fault
  historic_next_hook historic_next_gate historic_now_unix historic_token historic_installed
  historic_journal historic_active_release historic_commit_installed historic_write_journal
  historic_clear_journal historic_activate historic_reject_artifact historic_reject_deployment
  : historic.

(** Walk a program: its binds, branches, attempts and retries, down to known calls. *)
Ltac historic :=
  repeat first
    [ progress auto with historic nocore
    | apply historic_recover; intros
    | apply historic_bind; [|intros]
    | apply historic_attempt
    | case_goal ].

Section agent.
Context `{Sha256} `{Semver} `{Codec} `{!ReleaseFits}.
Context (health_successes : N).

Lemma historic_io_step : historic io_step.
Proof. unfold io_step, os_fail. historic. Qed.

Lemma historic_became_healthy : historic (became_healthy health_successes).
Proof. unfold became_healthy. historic. Qed.

Lemma historic_advance_transaction tx p : historic (advance_transaction tx p).
Proof. unfold advance_transaction, persist_transaction. historic. Qed.

Lemma historic_prove : historic store_prove_provisional.
Proof. unfold store_prove_provisional. historic. Qed.
#[local] Hint Resolve historic_io_step historic_became_healthy historic_advance_transaction
  historic_prove : historic.

Lemma historic_switch_over tx : historic (switch_over health_successes tx).
Proof.
  unfold switch_over, commit_candidate, reject_then_recover, require_candidate_rejection,
    recover_on_error, recover_on_error_tx. historic.
Qed.
#[local] Hint Resolve historic_switch_over : historic.

Lemma historic_execute_update c a l r : historic (execute_update health_successes c a l r).
Proof. unfold execute_update, persist_transaction. historic. Qed.

Lemma historic_revert_guarded_head i b : historic (revert_guarded_head i b).
Proof. unfold revert_guarded_head, persist_transaction. historic. Qed.
#[local] Hint Resolve historic_revert_guarded_head : historic.

Lemma historic_run_reconciler_mutation : historic run_reconciler_mutation.
Proof. unfold run_reconciler_mutation. historic. Qed.
#[local] Hint Resolve historic_run_reconciler_mutation : historic.

Lemma historic_complete_candidate_compensation r : historic (complete_candidate_compensation r).
Proof. unfold complete_candidate_compensation. historic. Qed.

Lemma historic_complete_recovery_activation r : historic (complete_recovery_activation r).
Proof. unfold complete_recovery_activation. historic. Qed.
#[local] Hint Resolve historic_complete_candidate_compensation
  historic_complete_recovery_activation : historic.

Lemma historic_reject_all l : historic (reject_all l).
Proof. induction l as [|[] l IH]; simpl; historic. Qed.
#[local] Hint Resolve historic_reject_all : historic.

Lemma historic_installed_rollback_guard : historic installed_rollback_guard.
Proof. unfold installed_rollback_guard. historic. Qed.
#[local] Hint Resolve historic_installed_rollback_guard : historic.

Lemma historic_execute_boot_plan plan b r : historic (execute_boot_plan plan b r).
Proof. unfold execute_boot_plan, execute_store_plan. historic. Qed.

Lemma historic_begin_recovery s r : historic (begin_recovery s r).
Proof. unfold begin_recovery, propagate, persist_transaction. historic. Qed.

Lemma historic_answer_failed_gate plan r i b : historic (answer_failed_gate plan r i b).
Proof.
  unfold answer_failed_gate, bound_unhealthy_rollback, reject_provisional_head, persist_transaction.
  historic.
Qed.

Lemma historic_settle_boot plan b g r k : historic (settle_boot plan b g r k).
Proof. unfold settle_boot, propagate, stateless. historic. Qed.
#[local] Hint Resolve historic_execute_boot_plan historic_begin_recovery
  historic_answer_failed_gate historic_settle_boot : historic.

Lemma historic_boot b : historic (boot health_successes b).
Proof.
  unfold boot, boot_gate, gather_situation, stateless, read_boot_head, boot_converge. historic.
Qed.
#[local] Hint Resolve historic_execute_update historic_boot : historic.

Lemma historic_call c : historic (exec_call health_successes c).
Proof.
  destruct c; unfold exec_call, disarm_update_rollback, rebind_lineage, revert_confirmed_head; historic.
Qed.

(** ** The life of an agent *)

(** The files determine the machine they represent. *)
Lemma represents_inj d m m' : represents d m → represents d m' → m = m'.
Proof.
  intros [Hi Hj Hn Ha Hl He] [Hi' Hj' Hn' Ha' Hl' He']. destruct m, m'; simpl in *.
  rewrite Hi in Hi'. rewrite Hj in Hj'. rewrite Hn in Hn'. rewrite Ha in Ha'.
  rewrite Hl in Hl'. rewrite He in He'. repeat case_match; simplify_eq; done.
Qed.

Lemma agent_run_history x y m :
  agent_run health_successes x y → represents x.2.1 m → ledger_inv x.2.1 x.2.2 →
  follows m (World y.2.1 y.2.2 (mkEnv [] [] [] [] [] [] (λ _, true))).
Proof.
  intros Hrun Hrep Hinv.
  destruct Hrun as [c run d p e k w Hc Hex|c run d p e er w Hc Hex|c run d p e w p' e' w' Hc Hex Hl
                   |run d p p' e' w' Hl]; simpl in *.
  1-3: pose proof (historic_call c d p e m Hrep Hinv) as Hw; unfold wp in Hw; rewrite Hex in Hw.
  - done.
  - done.
  - destruct Hw as (m' & ? & ?). apply load_inv in Hl as (-> & ? & _). by exists m'.
  - apply load_inv in Hl as (-> & ? & _). exists m. eauto using history.
Qed.

(** A life of the agent: any sequence of calls, crashes and restarts. *)
Definition agent_life : relation (bool * (Disk * Rejections)) := rtc (agent_run health_successes).

Lemma agent_runs_history x y m :
  agent_life x y → represents x.2.1 m → ledger_inv x.2.1 x.2.2 →
  ∃ m', represents y.2.1 m' ∧ ledger_inv y.2.1 y.2.2 ∧ history m m'.
Proof.
  intros Hrun. revert m. induction Hrun as [x|x y z Hxy _ IH]; intros m Hr Hl.
  { exists m. eauto using history. }
  destruct (agent_run_history x y m Hxy Hr Hl) as (m1 & Hr1 & Hl1 & Hh1).
  destruct (IH m1 Hr1 Hl1) as (m2 & ? & ? & ?). exists m2. eauto using history_trans.
Qed.

(** The whole agent refines the store's specification: through every sequence of boots,
    updates, reverts, rebinds and confirmations, under every fault and crash, the files
    decode to a machine reached by the specification's own steps alone. *)
Lemma agent_follows_store_spec x y m :
  agent_life x y → represents x.2.1 m → ledger_inv x.2.1 x.2.2 →
  ∃ m', represents y.2.1 m' ∧ history m m'.
Proof. intros. destruct (agent_runs_history x y m) as (m' & ? & _ & ?); eauto. Qed.

(** A verdict the agent has journalled against a release outlives everything the agent
    does: after any life of the agent the verdict's key is in the rejection file, or the
    journal on disk still owes it. *)
Lemma agent_keeps_owed_verdicts x y m tx :
  agent_life x y → represents x.2.1 m → ledger_inv x.2.1 x.2.2 →
  m_journal m = Some tx → tx_candidate_rejection_required tx = true →
  ∃ m', represents y.2.1 m' ∧ verdict_kept tx m'.
Proof.
  intros Hrun Hr Hl Hj Hrq. destruct (agent_runs_history x y m) as (m' & ? & _ & Hh); [done..|].
  exists m'. split; [done|]. apply (history_invariant (verdict_kept tx) m m'); [|done|].
  - intros r m1 m2. apply machine_step_verdict.
  - right. by exists tx.
Qed.

(** A wedged installation: stopped, coherent, with the journal that cannot be discarded. *)
Definition wedged_agent (tx : Transaction) (x : bool * (Disk * Rejections)) : Prop :=
  x.1 = false ∧ ∃ m, represents x.2.1 m ∧ ledger_inv x.2.1 x.2.2 ∧ agent_coherent m ∧ wedged tx m.

Lemma wedged_run tx x y :
  agent_run health_successes x y → wedged_agent tx x → wedged_agent tx y.
Proof.
  intros Hrun (Hx & m & Hr & Hl & Hac & Hw).
  destruct (agent_run_history x y m Hrun Hr Hl) as (m' & Hr' & Hl' & Hh).
  assert (wedged tx m') as Hw'
    by (eapply (history_invariant (wedged tx)); [intros ? ? ? _; apply wedged_step|done|done]).
  assert (agent_ok y) as (m2 & Hr2 & _ & Hac2 & _).
  { apply (agent_run_ok health_successes x y Hrun). exists m. rewrite Hx. by split_and!. }
  rewrite (represents_inj _ _ _ Hr2 Hr') in Hac2. split; [|by exists m'].
  destruct Hrun as [c run d p e k w Hc Hex|c run d p e er w Hc Hex|c run d p e w p' e' w' Hc Hex Hld
                   |run d p p' e' w' Hld]; simpl in *; try done.
  subst run. destruct c as [b|?|?|?|?]; try done. simpl in Hex. destruct k; [|done].
  pose proof (boot_coherent health_successes b m p Hac d e Hr Hl) as Hb.
  unfold wp in Hb. unfold mbind, M_bind in Hex.
  destruct (boot health_successes b (World d p e)) as [[[|g ok]|er|] w1]; try done.
  injection Hex as <-. destruct Hb as (m3 & Hr3 & _ & _ & Hj3).
  rewrite (represents_inj _ _ _ Hr3 Hr') in Hj3. destruct Hw' as (Hj' & _). congruence.
Qed.

(** Once a confirmation has dropped the rollback guard while the committed journal was
    still on disk, a stopped agent never runs again: every boot, under every environment,
    fails, dies or asks for another reboot, however often it is restarted. *)
Lemma wedged_agent_never_runs tx d p m y :
  represents d m → ledger_inv d p → agent_coherent m → wedged tx m →
  agent_life (false, (d, p)) y → y.1 = false.
Proof.
  intros Hr Hl Hac Hw Hrun.
  assert (wedged_agent tx (false, (d, p))) as Hx by (split; [done|by exists m]).
  clear Hr Hl Hac Hw. induction Hrun as [x|x z y Hxz _ IH]; [apply Hx|]. apply IH.
  by eapply wedged_run.
Qed.

End agent.

(** ** A stranded rollback

    A rollback that has put the pointer back never looks at it again: once something moves it to
    the candidate under such a journal, no boot moves it back, commits the predecessor or clears
    the journal. *)
Section stranded.
Context `{Sha256} `{Semver} `{Codec} `{!ReleaseFits}.
Context (health_successes : N).

Definition past_restore (t : Transaction) : bool :=
  match tx_phase t with Restored | RollbackVerified | RolledBack => true | _ => false end.

Record stranded_by (t : Transaction) (m : machine) : Prop := {
  sb_journal : m_journal m = Some t;
  sb_install : m_install m = None;
  sb_valid : Transaction_validate t = Ok tt;
  sb_record : ∃ i, m_installed m = Some i ∧ on_candidate t i;
  sb_pointer : at_candidate t m ∧ ¬ at_previous t m;
  sb_phase : past_restore t = true;
}.

Definition stranded (m : machine) : Prop := ∃ t, stranded_by t m.
Definition st (m : machine) (_ : Rejections) : Prop := stranded m.

Lemma stranded_ledger t m g : stranded_by t m → stranded_by t (set_ledger g m).
Proof. by intros []. Qed.

Lemma stranded_prove t m i :
  stranded_by t m → m_installed m = Some i → stranded_by t (set_installed (Some (prove_provisional i).1) m).
Proof.
  intros [? ? ? (i' & Hi' & Hon) ? ?] Hi. assert (i' = i) as -> by congruence. split; try done.
  exists (prove_provisional i).1. by split.
Qed.

Lemma stranded_write t t' m :
  stranded_by t m → same_identity t t' → past_restore t' = true → Transaction_validate t' = Ok tt →
  stranded_by t' (set_journal (Some t') m).
Proof.
  intros [? ? ? (i & Hi & Hon) [Hat Hna] ?] Hid Hp Hv.
  destruct (same_identity_stage t t' m i Hid) as (_ & Hoc & Hap & Hac & _).
  split; [done|done|done|exists i; split; [done|by apply Hoc]|split; [by apply Hac|]|done].
  intros Hx. by apply Hna, Hap.
Qed.

Lemma stranded_no_commit t m p : stranded_by t m → may_commit p m (predecessor_of t) = true → False.
Proof.
  intros [_ _ _ _ [_ Hna] _] Hc. unfold may_commit in Hc. bool_to_prop. by apply Hna.
Qed.

Lemma stranded_no_clear t m p : stranded_by t m → may_discard p m t = true → False.
Proof.
  intros [_ _ _ _ [_ Hna] Hp] Hd. unfold may_discard, past_restore in *.
  apply andb_true_iff in Hd as [_ Hd]. destruct (tx_phase t); try done. bool_to_prop. by apply Hna.
Qed.

(** Nor can another journal take its place, the record's own revert included. *)
Lemma stranded_no_rewrite t m p i g b :
  stranded_by t m → m_installed m = Some i →
  may_write_journal p m (rollback_of_guarded i g b) = true → False.
Proof.
  intros Hs Hi Hw. pose proof Hs as [Hj _ _ _ _ Hp].
  destruct (decide (tx_id t = tx_id (rollback_of_guarded i g b))) as [Hid|Hid].
  - apply (may_write_journal_same p m t _ Hj Hid) in Hw as (Hw & _). unfold past_restore in Hp.
    assert (tx_phase (rollback_of_guarded i g b) = RollbackPlanned) as Hph by done.
    destruct Hw as [|ph Hedge _|Hc|[Hc|Hc] _|[Hc|Hc] _]; simpl in *; try (by rewrite Hph in Hp);
      try (by rewrite Hc in Hp); try congruence.
    simpl in Hph. subst ph. by destruct (tx_phase t).
  - unfold may_write_journal in Hw. rewrite Hj in Hw.
    rewrite (bool_decide_eq_false_2 (tx_id t = _)) in Hw by done. bool_to_prop. by eapply stranded_no_clear.
Qed.

(** How a boot that met a stranded rollback may stand before its last steps. *)
Definition holding (plan : Plan) (defer : bool) (recovery : option Transaction) (t : Transaction) : Prop :=
  match recovery with
  | Some t' => t' = t ∧ defer = true ∧ p_commit plan = Some (predecessor_of t)
  | None => defer = false ∧ p_clear_journal plan = true
  end.

Lemma holding_identity plan defer t t' :
  holding plan defer (Some t) t → same_identity t t' → holding plan defer (Some t') t'.
Proof.
  intros (_ & Hd & Hc) Hid. split_and!; [done|done|].
  destruct (same_identity_stage t t' (mkMachine None None None None [] false) (predecessor_of t) Hid)
    as (_ & _ & _ & _ & Hpo). by rewrite <-Hpo.
Qed.

(** One more record of the rollback. *)
Lemma stranded_advance t next m p (Q : Transaction → machine → Rejections → Prop) :
  stranded_by t m → past_restore (set_phase next t) = true →
  (∀ m', stranded_by (set_phase next t) m' → Q (set_phase next t) m' p) →
  mwp (propagate (advance_transaction t next)) m p Q st stranded.
Proof.
  intros Hs Hp HQ. assert (stranded m) as Hm by (by exists t). unfold propagate.
  apply mwp_bind, mwp_advance; [intros er; by apply mwp_throw|].
  intros t' (_ & _ & ->)%advance_Ok. split_and!; [intros er; by apply mwp_throw|done|]. intros Hv _.
  assert (stranded_by (set_phase next t) (set_journal (Some (set_phase next t)) m)) as Hs'
    by (by eapply (stranded_write t)).
  split; [|by exists (set_phase next t)].
  intros [[]|er]; [by apply mwp_ret, HQ|apply mwp_throw; by exists (set_phase next t)].
Qed.

Lemma settle_end_stranded plan defer pending recovery passed t m p :
  stranded_by t m → holding plan defer recovery t →
  mwp (pending' ← (if defer
                   then match p_commit plan with
                        | Some state => _ ← commit_installed state; installed_rollback_guard
                        | None => mret pending
                        end
                   else mret pending);
       _ ← (if p_clear_journal plan || defer then clear_journal else mret tt);
       mret (BootRunning pending' passed)) m p (λ _ _ _, False) st stranded.
Proof.
  intros Hs Hh. assert (stranded m) as Hm by (by exists t). apply mwp_bind. destruct recovery as [t'|].
  - destruct Hh as (-> & -> & ->). apply mwp_bind, mwp_commit_installed; [|done|done].
    intros _ Hc. by destruct (stranded_no_commit t m p).
  - destruct Hh as [-> ->]. simpl. apply mwp_ret, mwp_bind, mwp_clear_journal; [|done|done].
    intros Hd. destruct (stranded_no_clear t m p); [done|]. apply Hd, Hs.
Qed.

Lemma settle_stranded plan defer pending recovery passed t m p :
  stranded_by t m → holding plan defer recovery t →
  mwp (settle_boot plan defer pending recovery passed) m p (λ _ _ _, False) st stranded.
Proof.
  intros Hs Hh. unfold settle_boot. apply mwp_bind.
  apply (mwp_mono _ m p (λ _ m' _, stranded_by t m') _ st _ stranded); [|intros [] m1 p1 Hs1|done|done].
  { destruct passed; [|by apply mwp_ret].
    apply (mwp_retry_stateless (λ m _, stranded_by t m)); [|by intros; split; exists t|done].
    intros m0 p0 Hs0. apply mwp_prove_provisional; [done|done|by exists t|].
    intros i Hi. pose proof (stranded_prove _ _ _ Hs0 Hi). split_and!; [done|done|by exists t]. }
  apply mwp_bind.
  apply (mwp_mono _ m1 p1 (λ r m' _, ∃ t', stranded_by t' m' ∧ holding plan defer r t') _ st _ stranded);
    [|intros r2 m2 p2 (t2 & Hs2 & Hh2)|done|done].
  { destruct recovery as [t'|]; [|apply mwp_ret; by exists t]. pose proof Hh as (-> & _).
    destruct (recovery_pending t RollbackVerified); [|apply mwp_ret; by exists t].
    apply mwp_bind, (stranded_advance t); [done|done|]. intros m' Hs'. apply mwp_ret.
    exists (set_phase RollbackVerified t). split; [done|]. by apply (holding_identity _ _ t). }
  apply mwp_bind.
  apply (mwp_mono _ m2 p2 (λ _ m' _, ∃ t' r, stranded_by t' m' ∧ holding plan defer r t') _ st _ stranded);
    [|intros [] m3 p3 (t3 & r3 & Hs3 & Hh3); by eapply settle_end_stranded|done|done].
  destruct r2 as [t'|]; [|apply mwp_ret; by exists t2, None]. pose proof Hh2 as (-> & _).
  destruct (recovery_pending t2 RolledBack); [|apply mwp_ret; by exists t2, (Some t2)].
  apply mwp_bind, (stranded_advance t2); [done|done|]. intros m' Hs'. apply mwp_ret.
  exists (set_phase RolledBack t2), (Some (set_phase RolledBack t2)). split; [done|].
  by apply (holding_identity _ _ t2).
Qed.

Lemma bound_stranded t m p :
  stranded_by t m →
  mwp (bound_unhealthy_rollback t) m p
    (λ out m' _, stranded_by out.1 m' ∧ same_identity t out.1) st stranded.
Proof.
  intros Hs. assert (stranded m) as Hm by (by exists t). unfold bound_unhealthy_rollback.
  apply mwp_bind, mwp_lift. destruct (record_rollback_health_failure t) as [[t1 n]|er] eqn:Hf; [|done].
  apply record_rollback_health_failure_Ok in Hf as (Hph & _ & _ & ->). set (t1 := set_health_failures n t).
  assert (past_restore t1 = true) as Hp1 by (unfold past_restore; simpl; by destruct Hph as [-> | ->]).
  assert (∀ k, (∀ m1, stranded_by t1 m1 →
     mwp k m1 p (λ out m' _, stranded_by out.1 m' ∧ same_identity t out.1) st stranded) →
    mwp (_ ← persist_transaction t1; k) m p
      (λ out m' _, stranded_by (out : Transaction * RollbackHealthOutcome).1 m' ∧ same_identity t out.1)
      st stranded) as Hpersist.
  { intros k Hk. apply mwp_bind, mwp_write_journal; [|done|done]. intros Hv _.
    assert (stranded_by t1 (set_journal (Some t1) m)) by (by apply (stranded_write t)).
    split_and!; [by apply Hk|by exists t1|by exists t1]. }
  destruct (_ <=? _)%N; apply Hpersist; intros m1 Hm1; [|by apply mwp_ret].
  destruct (recovery_pending t1 RolledBack); [|by apply mwp_ret].
  assert (stranded m1) as Hm1' by (by exists t1).
  apply mwp_bind, mwp_advance; [intros er; by apply mwp_bind, mwp_lift|].
  intros t2 (_ & _ & ->)%advance_Ok. split_and!; [intros er; by apply mwp_bind, mwp_lift|done|]. intros Hv _.
  assert (stranded_by (set_phase RolledBack t1) (set_journal (Some (set_phase RolledBack t1)) m1)) as Hs2
    by (by apply (stranded_write t1)).
  split; [|by exists (set_phase RolledBack t1)].
  intros [[]|er]; apply mwp_bind, mwp_lift; [by apply mwp_ret|by exists (set_phase RolledBack t1)].
Qed.

Lemma gate_stranded plan defer b pending recovery head conv t m p :
  stranded_by t m → holding plan defer recovery t → m_installed m = Some head →
  (recovery = None → journal_recovery t (m_active m) (Some head) = RecoveryCommitted) →
  mwp (boot_gate health_successes plan defer b pending recovery head conv) m p
    (λ r m' _, r = BootReboot ∧ stranded m') st stranded.
Proof.
  intros Hs Hh Hi Hjr. assert (stranded m) as Hm by (by exists t). unfold boot_gate.
  assert (∀ passed recovery t m p, stranded_by t m → holding plan defer recovery t →
    mwp (settle_boot plan defer pending recovery passed) m p (λ r m' _, r = BootReboot ∧ stranded m') st stranded)
    as Hsettle.
  { intros. eapply mwp_mono; [by eapply settle_stranded|done|done|done]. }
  assert (mwp (r ← answer_failed_gate plan recovery head b; settle_boot plan defer pending r false) m p
    (λ r m' _, r = BootReboot ∧ stranded m') st stranded) as Hfail.
  { apply mwp_bind. unfold answer_failed_gate. apply mwp_bind. destruct recovery as [t'|].
    - pose proof Hh as (-> & Hd & Hc). rewrite Hc.
      assert (is_rollback t = true) as ->.
      { pose proof (sb_phase _ _ Hs) as Hp. unfold past_restore, is_rollback in *. by destruct (tx_phase t). }
      apply mwp_bind. eapply mwp_mono; [by apply bound_stranded| |done|done].
      intros [t1 [n|]] m1 p1 [Hs1 Hid]; simpl in Hs1, Hid; [apply mwp_throw; by exists t1|].
      apply mwp_ret, mwp_ret. apply (Hsettle false (Some t1) t1); [done|]. by apply (holding_identity _ _ t).
    - apply mwp_ret. destruct (plan_gate_failure head).
      + apply mwp_bind. unfold revert_guarded_head.
        destruct (st_rollback_guard head); [|by apply mwp_die].
        apply mwp_bind, mwp_journal; [|done|done]. rewrite (sb_journal _ _ Hs).
        apply mwp_bind, mwp_bind, mwp_active_release; [|done|done].
        rewrite bool_decide_eq_true_2 by auto. apply mwp_clear_journal; [|done|done].
        intros Hd. destruct (stranded_no_clear t m p); [done|]. apply Hd, Hs.
      + unfold reject_provisional_head.
        assert (∀ g, stranded (set_ledger g m)) as Hg by (intros g; exists t; by apply stranded_ledger).
        apply mwp_bind, mwp_reject_deployment; [intros g p' _; apply mwp_throw|intros g p' _| |intros g _]; auto; apply Hg.
      + apply mwp_ret. by apply (Hsettle false None t). }
  destruct conv as [[]|].
  - by apply mwp_ret.
  - apply mwp_bind, mwp_became_healthy; [|done]. intros []; [by eapply Hsettle|done|done].
  - by apply mwp_bind, mwp_ret.
Qed.

(** What a boot derives from it: the same rollback, or nothing but a journal to clear. *)
Lemma stranded_plan t m i :
  stranded_by t m → m_installed m = Some i →
  let s := situation_of m i in
  if bool_decide (tx_phase t = RolledBack)
  then recovery_transaction s = None ∧ p_release (plan_boot s) = FixNone ∧ p_commit (plan_boot s) = None
       ∧ p_clear_journal (plan_boot s) = true
       ∧ journal_recovery t (m_active m) (Some i) = RecoveryCommitted
  else recovery_transaction s = Some t ∧ p_commit (plan_boot s) = Some (predecessor_of t).
Proof.
  intros [Hj _ Hv (i' & Hi' & Hm & _) [Hat Hna] Hp] Hi s. assert (i' = i) as -> by congruence.
  assert (m_active m = Some (st_release i)) as Ha by (apply matches_candidate_runs in Hm as (-> & _); done).
  pose proof Hv as [_ Hev]%Transaction_validate_Ok.
  pose proof (predecessor_not_active m i Ha) as Hpn. fold s in Hpn.
  destruct (plan_boot_cases s i eq_refl) as [Hpc Hwin]. simpl in Hpc, Hwin. rewrite Hj in Hpc, Hwin.
  unfold recovery_transaction. simpl. rewrite Hj.
  assert (journal_recovery t (m_active m) (Some i)
    = if bool_decide (tx_phase t = RolledBack) then RecoveryCommitted else RestorePredecessor) as Hjr.
  { unfold journal_recovery, classify_recovery. rewrite drives_rollback_phase by done. unfold past_restore in Hp.
    destruct (tx_phase t) eqn:Hph; try done; simpl. by rewrite (bool_decide_eq_false_2 (m_active m = _)). }
  rewrite Hjr in *. case_bool_decide as Hrb.
  - rewrite Hpn in Hwin. destruct (Hwin eq_refl) as [Hc Hr], Hpc as [Hcl _].
    unfold confirmation_window_rollback. rewrite Hpn. split_and!; try done.
    rewrite Hr. by rewrite bool_decide_eq_true_2.
  - destruct Hpc as (_ & _ & Hc). split; [done|]. rewrite Hc. unfold past_restore, is_rollback in *.
    by destruct (tx_phase t).
Qed.

Lemma boot_plan_stranded plan defer recovery t m p :
  stranded_by t m →
  (if activates_release recovery then p_release plan = FixNone else True) →
  (defer = false → p_commit plan = None) →
  mwp (recover_through_transients (stateless (execute_boot_plan plan defer recovery)) tt) m p
    (λ _ m' _, stranded_by t m' ∧ m_active m' = m_active m ∧ m_installed m' = m_installed m) st stranded.
Proof.
  intros Hs Ha Hc.
  set (inv := λ m', stranded_by t m' ∧ m_active m' = m_active m ∧ m_installed m' = m_installed m).
  apply (mwp_retry_stateless (λ m' _, inv m')); [|intros ? ? [? _]; split; by exists t|done].
  intros m0 p0 Hinv0. unfold execute_boot_plan, execute_store_plan. apply mwp_bind, mwp_bind.
  assert (∀ Q : unit → machine → Rejections → Prop, Q tt m0 p0 →
    mwp (if activates_release recovery
         then match p_release plan with FixNone => mret tt | FixActivate release => activate release end
         else mret tt) m0 p0 Q (λ m' _, inv m') stranded) as Hact.
  { intros Q HQ. destruct (activates_release recovery); [rewrite Ha|]; by apply mwp_ret. }
  apply Hact, mwp_bind.
  assert (∀ Q : unit → machine → Rejections → Prop, Q tt m0 p0 →
    mwp (if negb defer then match p_commit plan with Some state => commit_installed state | None => mret tt end
         else mret tt) m0 p0 Q (λ m' _, inv m') stranded) as Hcom.
  { intros Q HQ. destruct defer; simpl; [|rewrite Hc by done]; by apply mwp_ret. }
  apply Hcom. apply (mwp_reject_all _ _ _ inv); [|done|].
  { intros m1 g (? & ? & ?). split_and!; [by apply stranded_ledger|done|done]. }
  intros m1 p1 Hi1. pose proof Hi1 as (Hs1 & _). assert (stranded m1) by (by exists t). split_and!; [|done|done].
  unfold installed_rollback_guard. apply mwp_bind, mwp_installed; [by apply mwp_ret|done|done].
Qed.

(** From the predecessor's convergence on. *)
Lemma boot_tail_stranded plan defer b pending recovery t m p :
  stranded_by t m → holding plan defer recovery t →
  (recovery = None → ∀ i, m_installed m = Some i → journal_recovery t (m_active m) (Some i) = RecoveryCommitted) →
  mwp (head ← recover_through_transients (stateless read_boot_head) tt;
       convergence ← (match recovery with
                      | None => r ← recover_through_transients (stateless boot_converge) tt;
                                mret r.2
                      | Some _ => mret (Some false)
                      end);
       boot_gate health_successes plan defer b pending recovery head.2 convergence) m p
    (λ r m' _, r = BootReboot ∧ stranded m') st stranded.
Proof.
  intros Hs Hh Hjr. assert (stranded m) as Hm by (by exists t). apply mwp_bind.
  apply (mwp_retry_stateless (λ m' _, m' = m)); [|by intros ? ? ->|done].
  intros ? p1 ->. unfold read_boot_head. apply mwp_bind, mwp_installed; [|done|done].
  destruct (m_installed m) as [head|] eqn:Hi; [|by apply mwp_throw].
  apply mwp_ret, mwp_bind. destruct recovery as [t'|].
  - apply mwp_ret. by eapply gate_stranded.
  - apply mwp_bind, (mwp_retry_stateless (λ m' _, m' = m)); [|by intros ? ? ->|done].
    intros ? p2 ->. unfold boot_converge. apply mwp_bind, mwp_next_hook; [|done].
    intros []; [| |by apply mwp_throw|by apply mwp_die]; apply mwp_ret, mwp_ret;
      eapply gate_stranded; eauto.
Qed.

(** No boot gets past it: whatever the hooks, the probes and the disk answer, it fails, dies or asks
    for a reboot, and leaves the rollback stranded. *)
Lemma boot_stranded b m p :
  stranded m →
  mwp (boot health_successes b) m p (λ r m' _, r = BootReboot ∧ stranded m') st stranded.
Proof.
  intros [t Hs]. assert (stranded m) as Hm by (by exists t). pose proof (sb_record _ _ Hs) as (i & Hi & _).
  pose proof (stranded_plan t m i Hs Hi) as Hpl. cbv zeta in Hpl. unfold boot, gather_situation.
  apply mwp_bind, mwp_bind, mwp_active_release; [|done|done].
  apply mwp_bind, mwp_installed; [|done|done]. apply mwp_bind, mwp_journal; [|done|done].
  apply mwp_ret. rewrite Hi. fold (situation_of m i). rewrite plan_boot_not_failed.
  set (plan := plan_boot (situation_of m i)) in *. pose proof (sb_phase _ _ Hs) as Hph.
  case_bool_decide as Hrb.
  - destruct Hpl as (-> & Hrel & Hc & Hcl & Hjr). simpl.
    apply mwp_bind, mwp_ret, mwp_bind, mwp_io_step; [|done|done].
    apply mwp_bind, (mwp_retry (λ s m' _, s = None ∧ m' = m)); [|by intros ? ? ? [_ ->]|done].
    intros ? ? p1 [-> ->]. apply mwp_ret. apply mwp_bind.
    eapply mwp_mono; [by apply (boot_plan_stranded plan false None t)| |done|done].
    intros pending m3 p3 (Hs3 & Ha3 & Hi3). assert (stranded m3) as Hm3 by (by exists t).
    apply mwp_bind, (mwp_retry (λ s m' _, s = None ∧ m' = m3)); [|by intros ? ? ? [_ ->]|done].
    intros ? ? p4 [-> ->]. apply mwp_ret. apply (boot_tail_stranded plan false b pending.2 None t); [done|done|].
    intros _ j Hj. rewrite Ha3. congruence.
  - destruct Hpl as (-> & Hc).
    assert (is_rollback t = true ∧ recovery_pending t CandidateCompensated = false
      ∧ recovery_pending t Restored = false ∧ recovery_pending t RolledBack = true) as (Hr & Hcc & Hres & Hrp).
    { unfold past_restore, is_rollback, recovery_pending in *. by destruct (tx_phase t). }
    apply mwp_bind. unfold begin_recovery. simpl. rewrite (sb_journal _ _ Hs).
    rewrite (bool_decide_eq_true_2 (Some t = Some t)), andb_false_r, Hr by done. simpl.
    apply mwp_bind, mwp_ret, mwp_ret, mwp_bind, mwp_io_step; [|done|done].
    apply mwp_bind, (mwp_retry (λ s m' _, s = Some t ∧ m' = m)); [|by intros ? ? ? [_ ->]|done].
    intros ? ? p1 [-> ->]. unfold complete_candidate_compensation. rewrite Hcc. simpl. apply mwp_ret.
    apply mwp_bind. eapply mwp_mono; [apply (boot_plan_stranded plan true (Some t) t); [done| |done]| |done|done].
    { unfold activates_release. by rewrite Hcc, Hres. }
    intros pending m3 p3 (Hs3 & _ & _). assert (stranded m3) as Hm3 by (by exists t).
    apply mwp_bind, (mwp_retry (λ s m' _, s = Some t ∧ m' = m3)); [|by intros ? ? ? [_ ->]|done].
    intros ? ? p4 [-> ->]. unfold complete_recovery_activation. rewrite Hrp, Hres. simpl.
    apply mwp_bind, mwp_attempt, mwp_run_reconciler_mutation; [|intros er; by apply mwp_ret|done].
    intros [|]; apply mwp_ret; [by apply mwp_ret|].
    by apply (boot_tail_stranded plan true b pending.2 (Some t) t).
Qed.

End stranded.
