(* ===== verification/Maps.v ===== *)
(** * Maps: ordered maps and sets of the control plane

    [BTreeMap<String, V>] as a finite map whose iteration runs in ascending key order, and
    the lemmas on it the planner's components share. *)
From S2P Require Import Prelude.

Abbreviation BTreeMap := (gmap string).
Abbreviation BTreeSet := (gset string).

Section btree.
Context {V : Type}.
Implicit Types (m : BTreeMap V).

Definition entry_le (x y : string * V) : Prop := String.leb x.1 y.1 = true.

#[export] Instance entry_le_dec x y : Decision (entry_le x y).
Proof. unfold entry_le. apply _. Defined.

(** [m.iter()], [m.keys()] and [m.values()]. *)
Definition bt_iter m : list (string * V) := merge_sort entry_le (map_to_list m).
Definition bt_keys m : list string := (bt_iter m).*1.
Definition bt_values m : list V := (bt_iter m).*2.

(** [m.contains_key(k)]. *)
Definition contains_key (k : string) m : bool := bool_decide (is_Some (m !! k)).

Lemma bt_iter_perm m : bt_iter m ≡ₚ map_to_list m.
Proof. apply merge_sort_Permutation. Qed.

Lemma elem_of_bt_iter m k v : (k, v) ∈ bt_iter m ↔ m !! k = Some v.
Proof. rewrite bt_iter_perm. apply elem_of_map_to_list. Qed.

Lemma elem_of_bt_keys m k : k ∈ bt_keys m ↔ is_Some (m !! k).
Proof.
  unfold bt_keys. rewrite list_elem_of_fmap. split.
  - intros ([k' v] & -> & Hin). exists v. by apply elem_of_bt_iter.
  - intros [v Hv]. exists (k, v). split; [done|]. by apply elem_of_bt_iter.
Qed.

Lemma elem_of_bt_values m v : v ∈ bt_values m ↔ ∃ k, m !! k = Some v.
Proof.
  unfold bt_values. rewrite list_elem_of_fmap. split.
  - intros ([k v'] & -> & Hin). exists k. by apply elem_of_bt_iter.
  - intros [k Hv]. exists (k, v). split; [done|]. by apply elem_of_bt_iter.
Qed.

Lemma NoDup_bt_keys m : NoDup (bt_keys m).
Proof.
  unfold bt_keys. rewrite bt_iter_perm. apply NoDup_fst_map_to_list.
Qed.

Lemma contains_key_true k m : contains_key k m = true ↔ is_Some (m !! k).
Proof. apply bool_decide_eq_true. Qed.

Lemma contains_key_false k m : contains_key k m = false ↔ m !! k = None.
Proof. unfold contains_key. rewrite bool_decide_eq_false. symmetry. apply eq_None_not_Some. Qed.

End btree.

(** [s.iter()] of a [BTreeSet]. *)
Definition key_le (a b : string) : Prop := String.leb a b = true.

#[export] Instance key_le_dec a b : Decision (key_le a b).
Proof. unfold key_le. apply _. Defined.

Definition bt_elements (s : BTreeSet) : list string := merge_sort key_le (elements s).

#[export] Hint Rewrite @contains_key_true @contains_key_false : upd.

(** [list.iter().any(p)], [.all(p)] and [.filter(p).count()]. *)
Definition count_if {A} (p : A → bool) (l : list A) : nat := length (filter (λ x, p x = true) l).

Lemma forallb_elem {A} (p : A → bool) l : forallb p l = true ↔ ∀ x, x ∈ l → p x = true.
Proof.
  rewrite forallb_forall. setoid_rewrite list_elem_of_In. done.
Qed.

Lemma existsb_elem {A} (p : A → bool) l : existsb p l = true ↔ ∃ x, x ∈ l ∧ p x = true.
Proof. rewrite existsb_exists. setoid_rewrite list_elem_of_In. done. Qed.

(** Counting. *)
Lemma count_if_pos {A} (p : A → bool) l : (0 < count_if p l)%nat ↔ ∃ x, x ∈ l ∧ p x = true.
Proof.
  unfold count_if. split.
  - destruct (filter _ l) as [|x k] eqn:Hf; simpl; [lia|]. intros _. exists x.
    assert (x ∈ filter (λ x, p x = true) l) as Hx by (rewrite Hf; constructor).
    apply list_elem_of_filter in Hx. naive_solver.
  - intros (x & Hx & Hp). assert (x ∈ filter (λ x, p x = true) l) as Hf by (by apply list_elem_of_filter).
    destruct (filter _ l); [by apply not_elem_of_nil in Hf|simpl; lia].
Qed.

Lemma count_if_ext {A} (p q : A → bool) l :
  (∀ x, x ∈ l → p x = q x) → count_if p l = count_if q l.
Proof.
  unfold count_if. induction l as [|x l IH]; intros Heq; [done|]. rewrite !filter_cons.
  rewrite (Heq x) by constructor. specialize (IH ltac:(intros; apply Heq; by constructor)).
  destruct (q x); simpl; congruence.
Qed.

Lemma count_if_le {A} (p q : A → bool) l :
  (∀ x, q x = true → p x = true) →
  (count_if q l ≤ count_if p l)%nat
  ∧ (count_if p l = count_if q l ↔ ∀ x, x ∈ l → p x = true → q x = true).
Proof.
  intros Hqp. unfold count_if. induction l as [|x l [IH1 IH2]]; [split; [done|set_solver]|].
  rewrite !filter_cons. destruct (p x) eqn:Hp, (q x) eqn:Hq; simpl.
  - split; [lia|]. rewrite Nat.succ_inj_wd, IH2. set_solver.
  - split; [lia|]. split; [lia|]. intros Ha. exfalso.
    specialize (Ha x ltac:(constructor) Hp). congruence.
  - rewrite (Hqp x Hq) in Hp. done.
  - split; [lia|]. rewrite IH2. split; [|set_solver].
    intros Ha y [->|Hy]%elem_of_cons; [congruence|auto].
Qed.

Lemma count_if_or {A} (p q r : A → bool) l :
  (∀ x, x ∈ l → p x = true → q x = true ∨ r x = true) →
  (count_if p l ≤ count_if q l + count_if r l)%nat.
Proof.
  unfold count_if. induction l as [|x l IH]; intros Hall; [done|]. rewrite !filter_cons.
  specialize (IH ltac:(intros; apply Hall; [by constructor|done])).
  specialize (Hall x ltac:(constructor)).
  destruct (p x), (q x), (r x); simpl; lia.
Qed.

Lemma filter_ext_elem {A} (P Q : A → Prop) `{∀ x, Decision (P x)} `{∀ x, Decision (Q x)} (l : list A) :
  (∀ x, x ∈ l → (P x ↔ Q x)) → filter P l = filter Q l.
Proof.
  induction l as [|x l IH]; intros Heq; [done|]. rewrite !filter_cons.
  rewrite IH by (intros; apply Heq; by constructor). specialize (Heq x ltac:(constructor)).
  destruct (decide (P x)), (decide (Q x)); tauto.
Qed.

(** ** Key order *)

#[export] Instance key_le_trans : Transitive key_le.
Proof.
  unfold key_le, String.leb. intros a. induction a as [|x a IH]; intros [|y b] [|z c]; simpl; try done.
  unfold Ascii.compare.
  destruct (N.compare_spec (N_of_ascii x) (N_of_ascii y)) as [Hxy|Hxy|Hxy];
    destruct (N.compare_spec (N_of_ascii y) (N_of_ascii z)) as [Hyz|Hyz|Hyz]; try done;
    destruct (N.compare_spec (N_of_ascii x) (N_of_ascii z)) as [Hxz|Hxz|Hxz]; try done; try lia.
  apply IH.
Qed.

#[export] Instance key_le_antisym : AntiSymm (=) key_le.
Proof. intros a b. apply String.leb_antisym. Qed.

Lemma Sorted_bt_keys {V} (m : BTreeMap V) : Sorted key_le (bt_keys m).
Proof.
  apply (Sorted_fmap fst entry_le); [done|]. apply Sorted_merge_sort. intros x y. apply String.leb_total.
Qed.

(** Maps over the same keys iterate over them in the same order. *)
Lemma bt_keys_ext {V W} (m : BTreeMap V) (m' : BTreeMap W) :
  (∀ k, is_Some (m !! k) ↔ is_Some (m' !! k)) → bt_keys m = bt_keys m'.
Proof.
  intros Heq. apply (Sorted_unique key_le); [apply Sorted_bt_keys|apply Sorted_bt_keys|].
  apply NoDup_Permutation; [apply NoDup_bt_keys|apply NoDup_bt_keys|].
  intros k. by rewrite !elem_of_bt_keys.
Qed.
