(* ===== verification/Releases.v ===== *)
(** * Releases: the release graph and its routes

    Models [updated-contracts/src/releases.rs] with the package reference it validates
    ([artifact.rs], [path.rs]): the graph of exact upgrade and return edges between releases,
    and the breadth-first search for the route a node takes from what it runs to the target.
    The semver crate is the class parameter [SemverOrder].  A [Result] with a formatted
    message is a sum whose left side names the message and its arguments; [None] is a panic, or
    fuel that ran out, and the theorems show that neither happens. *)
From S2P Require Import Prelude Identity Maps.

(** ** Versions *)

Class SemverOrder : Type := {
  SemVersion : Type;
  semver_parse : string → option SemVersion;
  semver_to_string : SemVersion → string;
  cmp_precedence : SemVersion → SemVersion → comparison;
}.

Definition parse_release_version `{SemverOrder} (value : string) : option SemVersion :=
  if (MAX_RELEASE_VERSION_BYTES <? String.length value)%nat || string_existsb is_ascii_uppercase value
  then None else semver_parse value.

(** ** Package references *)

(** [char::is_control] over the bytes of valid UTF-8: C0, DEL, and C1 behind its lead byte. *)
Fixpoint has_control (s : string) : bool :=
  match s with
  | EmptyString => false
  | String c rest =>
      let n := nat_of_ascii c in
      (n <? 32)%nat || (n =? 127)%nat
      || ((n =? 194)%nat && match rest with
                            | String d _ => (nat_of_ascii d <? 160)%nat
                            | EmptyString => false
                            end)
      || has_control rest
  end.

Definition is_safe_component (segment : string) : bool :=
  negb (bool_decide (segment = EmptyString))
  && negb (bool_decide (segment = "."%string)) && negb (bool_decide (segment = ".."%string))
  && negb (string_existsb (λ c, bool_decide (c ∈ ["/"; "\"; ":"]%char)) segment)
  && negb (has_control segment).

Fixpoint split_on (sep : ascii) (cur s : string) : list string :=
  match s with
  | EmptyString => [cur]
  | String c s =>
      if bool_decide (c = sep) then cur :: split_on sep EmptyString s
      else split_on sep (String.append cur (String c EmptyString)) s
  end.

(** Every component of a path whose split segments are all safe is a normal one, so the
    cross-check against the platform's path parser is the split's own answer. *)
Definition is_confined_relative (path : string) : bool :=
  negb (bool_decide (path = EmptyString))
  && negb (string_existsb (λ c, bool_decide (c = "\"%char)) path)
  && forallb is_safe_component (split_on "/"%char EmptyString path).

Lemma concat_split s : ∀ cur, String.concat "/" (split_on "/"%char cur s) = String.append cur s.
Proof.
  induction s as [|c s IH]; intros cur; cbn [split_on].
  - simpl. by rewrite append_empty_r.
  - case_bool_decide as Hc.
    + subst c. destruct (split_on "/" EmptyString s) as [|x l] eqn:Hs.
      * exfalso. revert Hs. clear. generalize EmptyString. induction s as [|c s IH]; intros cur; simpl; [done|].
        case_bool_decide; [done|]. apply IH.
      * change (String.append cur (String.append "/" (String.concat "/" (x :: l))) = String.append cur (String "/" s)).
        by rewrite <-Hs, IH.
    + rewrite IH, <-append_assoc. done.
Qed.

(** [bundle::InstallError]: a verdict on the bytes, and one on this node at this moment. *)
Inductive InstallError : Type := IArchive (source : io_error) | IStorage (source : io_error).

Record TargetReference : Type := mkTargetReference { tr_path : string; tr_sha256 : string }.

Definition MAX_PATH_BYTES : nat := 1024.

Definition TargetReference_is_valid (r : TargetReference) : bool :=
  (String.length (tr_path r) <=? MAX_PATH_BYTES)%nat && is_confined_relative (tr_path r)
  && is_canonical_sha256 (tr_sha256 r).

(** ** The graph *)

Definition MAX_RELEASES : nat := 128.

Record Release : Type := mkRelease {
  rl_package : TargetReference;
  rl_upgrade_from : BTreeSet;
  rl_rollback_from : BTreeSet;
  rl_installable : bool;
}.

Record ReleaseGraph : Type := mkReleaseGraph {
  rg_target : string;
  rg_releases : BTreeMap Release;
}.

Inductive Direction : Type := Upgrade | Rollback.

Inductive ReleaseError : Type :=
| EReleaseCount
| ETargetNotDeclared (target : string)
| EInvalidVersion (version : string)
| EBadPackage (version : string)
| EUndeclaredPredecessor (version from : string)
| EBadEdge (from version : string)
| ESourceNotDeclared (version target : string)
| ESourceBytesDiffer (version target : string)
| ENoUpgradePath (version : string)
| ENoRoute (installed : option string) (target : string).

Definition predecessors (d : Direction) (r : Release) : BTreeSet :=
  match d with Upgrade => rl_upgrade_from r | Rollback => rl_rollback_from r end.

Section graph.
Context `{SemverOrder}.

Definition permits (d : Direction) (from to : SemVersion) : bool :=
  match d, cmp_precedence from to with
  | Upgrade, Lt | Rollback, Gt => true
  | _, _ => false
  end.

Section one_graph.
Context (g : ReleaseGraph).

Definition target_reference : ReleaseError + TargetReference :=
  match rg_releases g !! rg_target g with
  | Some release => inr (rl_package release)
  | None => inl (ETargetNotDeclared (rg_target g))
  end.

(** The edges of one release, in the order the validator visits them. *)
Definition release_edges (r : Release) : list (Direction * string) :=
  ((λ from, (Upgrade, from)) <$> bt_elements (rl_upgrade_from r))
  ++ ((λ from, (Rollback, from)) <$> bt_elements (rl_rollback_from r)).

Definition check_edge (version : string) (parsed : SemVersion) (x : Direction * string)
    : option ReleaseError :=
  match (if contains_key x.2 (rg_releases g) then parse_release_version x.2 else None) with
  | None => Some (EUndeclaredPredecessor version x.2)
  | Some source => if permits x.1 source parsed then None else Some (EBadEdge x.2 version)
  end.

Definition check_release (packages : BTreeSet) (version : string) (r : Release)
    : option ReleaseError :=
  match parse_release_version version with
  | Some parsed =>
      if negb (bool_decide (semver_to_string parsed = version)) then Some (EInvalidVersion version)
      else if negb (TargetReference_is_valid (rl_package r))
              || bool_decide (tr_sha256 (rl_package r) ∈ packages)
      then Some (EBadPackage version)
      else head (omap (check_edge version parsed) (release_edges r))
  | None => Some (EInvalidVersion version)
  end.

Fixpoint check_releases (packages : BTreeSet) (l : list (string * Release)) : option ReleaseError :=
  match l with
  | [] => None
  | (version, r) :: l =>
      match check_release packages version r with
      | Some e => Some e
      | None => check_releases ({[ tr_sha256 (rl_package r) ]} ∪ packages) l
      end
  end.

Definition graph_validate : ReleaseError + unit :=
  if bool_decide (rg_releases g = ∅) || (MAX_RELEASES <? size (rg_releases g))%nat
  then inl EReleaseCount
  else match target_reference with
       | inl e => inl e
       | inr _ =>
           match check_releases ∅ (bt_iter (rg_releases g)) with
           | Some e => inl e
           | None => inr tt
           end
       end.

Definition check_source (version sha256 : string) : ReleaseError + unit :=
  match rg_releases g !! version with
  | None => inl (ESourceNotDeclared version (rg_target g))
  | Some source =>
      if digests_match (tr_sha256 (rl_package source)) sha256 then inr tt
      else inl (ESourceBytesDiffer version (rg_target g))
  end.

(** [direction]; [None] is the panic of its [expect]s. *)
Definition direction (installed : option string) : option Direction :=
  match installed with
  | None => Some Upgrade
  | Some version =>
      from ← parse_release_version version;
      to ← parse_release_version (rg_target g);
      Some (if permits Rollback from to then Rollback else Upgrade)
  end.

(** ** Routes *)

Abbreviation Parents := (BTreeMap (option string)).

(** The inner loop: [version]'s unvisited allowed successors, in key order. *)
Definition visit (d : Direction) (allowed : BTreeSet) (version : string)
    (acc : Parents * list string) (x : string * Release) : Parents * list string :=
  let '(parents, queue) := acc in
  if bool_decide (x.1 ∈ allowed) && negb (contains_key x.1 parents)
     && bool_decide (version ∈ predecessors d x.2)
  then (<[x.1 := Some version]> parents, queue ++ [x.1])
  else acc.

Definition expand (d : Direction) (allowed : BTreeSet) (version : string)
    (parents : Parents) (queue : list string) : Parents * list string :=
  foldl (visit d allowed version) (parents, queue) (bt_iter (rg_releases g)).

(** The outer loop: the parents when the target is reached, or [inl] when the queue is empty. *)
Fixpoint search (fuel : nat) (d : Direction) (allowed : BTreeSet) (parents : Parents)
    (queue : list string) : option (unit + Parents) :=
  match queue with
  | [] => Some (inl tt)
  | version :: queue =>
      if bool_decide (version = rg_target g) then Some (inr parents)
      else match fuel with
           | O => None
           | S fuel =>
               let '(parents, queue) := expand d allowed version parents queue in
               search fuel d allowed parents queue
           end
  end.

(** The walk back to the start, as the code pushes it; [parents[current]] may panic. *)
Fixpoint trace (fuel : nat) (parents : Parents) (current : string) : option (list string) :=
  match fuel with
  | O => None
  | S fuel =>
      parent ← parents !! current;
      match parent with
      | None => Some [current]
      | Some parent => rest ← trace fuel parents parent; Some (current :: rest)
      end
  end.

Definition starts (installed : option string) (allowed : BTreeSet) : list string :=
  match installed with
  | Some version => [version]
  | None =>
      (filter (λ x : string * Release, rl_installable x.2 = true ∧ x.1 ∈ allowed)
         (bt_iter (rg_releases g))).*1
  end.

Definition allowed_versions (available : string → Release → bool) : BTreeSet :=
  dom (filter (λ x : string * Release, available x.1 x.2 = true) (rg_releases g)).

(** An installed version the graph does not declare. *)
Definition undeclared (installed : option string) : bool :=
  match installed with Some version => negb (contains_key version (rg_releases g)) | None => false end.

(** Each version is queued at most once, so the number of releases bounds both loops. *)
Definition route (installed : option string) (available : string → Release → bool)
    : option (ReleaseError + list string) :=
  match graph_validate with
  | inl e => Some (inl e)
  | inr _ =>
      if undeclared installed then
        Some (inl (ENoUpgradePath (default EmptyString installed)))
      else if bool_decide (installed = Some (rg_target g)) then Some (inr [])
      else
        d ← direction installed;
        let allowed := allowed_versions available in
        let queue := starts installed allowed in
        let parents : Parents := list_to_map ((λ v, (v, None)) <$> queue) in
        let fuel := size (rg_releases g) in
        found ← search fuel d allowed parents queue;
        match found with
        | inl _ => Some (inl (ENoRoute installed (rg_target g)))
        | inr parents =>
            back ← trace (S fuel) parents (rg_target g);
            Some (inr (rev (filter (λ v, Some v ≠ installed) back)))
        end
  end.

(** ** What a route is *)

(** A hop the graph declares, onto an allowed release. *)
Definition edge (d : Direction) (allowed : BTreeSet) (u v : string) : Prop :=
  v ∈ allowed ∧ ∃ r, rg_releases g !! v = Some r ∧ u ∈ predecessors d r.

Fixpoint chain (d : Direction) (allowed : BTreeSet) (u : string) (path : list string) : Prop :=
  match path with
  | [] => True
  | v :: path => edge d allowed u v ∧ chain d allowed v path
  end.

(** The routes from an installed release, or from an installable one on a fresh machine. *)
Definition is_route (d : Direction) (allowed : BTreeSet) (installed : option string)
    (path : list string) : Prop :=
  match installed with
  | Some s => chain d allowed s path ∧ last (s :: path) = Some (rg_target g)
  | None => ∃ s p, path = s :: p ∧ s ∈ starts None allowed ∧ chain d allowed s p
                   ∧ last (s :: p) = Some (rg_target g)
  end.

Section bfs.
Context (d : Direction) (allowed : BTreeSet) (roots : list string).

Inductive walk : nat → string → Prop :=
| walk_root v : v ∈ roots → walk 0 v
| walk_hop n u v : walk n u → edge d allowed u v → walk (S n) v.

Lemma chain_snoc s p u v :
  chain d allowed s p → last (s :: p) = Some u → edge d allowed u v → chain d allowed s (p ++ [v]).
Proof.
  revert s. induction p as [|x p IH]; intros s; [by intros _ [= ->]|].
  intros [? ?] Hl ?. split; [done|]. by apply IH.
Qed.

Lemma chain_walk s p n : walk n s → chain d allowed s p →
  ∃ v, last (s :: p) = Some v ∧ walk (n + length p) v.
Proof.
  revert s n. induction p as [|x p IH]; intros s n Hw Hc.
  - exists s. simpl. rewrite Nat.add_0_r. done.
  - destruct Hc as [He Hc]. destruct (IH x (S n)) as (v & Hl & Hv); [by econstructor|done|].
    exists v. split; [done|]. simpl. by rewrite Nat.add_succ_r.
Qed.

(** ** One expansion *)

Lemma visits_spec version l : ∀ parents queue,
  NoDup l.*1 →
  ∃ fresh parents',
    foldl (visit d allowed version) (parents, queue) l = (parents', queue ++ fresh)
    ∧ NoDup fresh
    ∧ (∀ v, v ∈ fresh ↔ parents !! v = None ∧ v ∈ allowed
                        ∧ ∃ r, (v, r) ∈ l ∧ version ∈ predecessors d r)
    ∧ (∀ v, parents' !! v = if decide (v ∈ fresh) then Some (Some version) else parents !! v).
Proof.
  induction l as [|[k r] l IH]; intros parents queue Hnd; cbn [foldl].
  { exists [], parents. rewrite app_nil_r. split_and!; [done|constructor|set_solver|].
    intros v. by rewrite decide_False by set_solver. }
  rewrite fmap_cons in Hnd. apply NoDup_cons in Hnd as [Hk Hnd]. simpl in Hk.
  assert (∀ r', (k, r') ∉ l) as Hkl by (intros r' Hin; apply Hk; by apply (list_elem_of_fmap_2 fst) in Hin).
  unfold visit at 2. cbn [fst snd]. destruct (_ && _) eqn:Hc.
  - rewrite !andb_true_iff, negb_true_iff, contains_key_false in Hc. destruct Hc as [[Ha Hp] Hv].
    bool_to_prop.
    destruct (IH (<[k := Some version]> parents) (queue ++ [k]) Hnd) as (fresh & parents' & -> & Hf & Hin & Hlook).
    assert (k ∉ fresh) as Hkf.
    { intros (Hnone & _)%Hin. by rewrite lookup_insert_eq in Hnone. }
    exists (k :: fresh), parents'. split_and!.
    + by rewrite <-app_assoc.
    + by constructor.
    + intros v. rewrite elem_of_cons, Hin. destruct (decide (v = k)) as [->|Hne].
      * split; [|by left]. intros _. split_and!; [done|done|]. exists r. split; [constructor|done].
      * rewrite lookup_insert_ne by done. setoid_rewrite elem_of_cons. naive_solver.
    + intros v. rewrite Hlook. destruct (decide (v = k)) as [->|Hne].
      * rewrite decide_False, decide_True, lookup_insert_eq by (done || constructor). done.
      * rewrite lookup_insert_ne by done.
        destruct (decide (v ∈ fresh)), (decide (v ∈ k :: fresh)); set_solver.
  - destruct (IH parents queue Hnd) as (fresh & parents' & Hrun & Hf & Hin & Hlook).
    exists fresh, parents'. split_and!; [done|done| |done].
    intros v. rewrite Hin. setoid_rewrite elem_of_cons. split; [naive_solver|].
    intros (Hnone & Ha & r' & [[= -> ->]|Hr'] & Hv); [|naive_solver].
    rewrite !andb_false_iff, negb_false_iff, contains_key_true, !bool_decide_eq_false in Hc.
    destruct Hc as [[Hc|[? Hc]]|Hc]; [done|congruence|done].
Qed.

Lemma expand_spec version parents queue :
  ∃ fresh parents',
    expand d allowed version parents queue = (parents', queue ++ fresh)
    ∧ NoDup fresh
    ∧ (∀ v, v ∈ fresh ↔ parents !! v = None ∧ edge d allowed version v)
    ∧ (∀ v, parents' !! v = if decide (v ∈ fresh) then Some (Some version) else parents !! v).
Proof.
  destruct (visits_spec version (bt_iter (rg_releases g)) parents queue)
    as (fresh & parents' & Hrun & Hnd & Hin & Hlook); [apply (NoDup_bt_keys (rg_releases g))|].
  exists fresh, parents'. split_and!; try done. intros v. rewrite Hin. unfold edge.
  setoid_rewrite elem_of_bt_iter. naive_solver.
Qed.

(** ** The search *)

Abbreviation seen parents v := (is_Some (parents !! v)).

(** The search's invariant; [depth] is the number of hops the search reached a release with. *)
Record bfs_inv (parents : BTreeMap (option string)) (queue : list string)
    (depth : string → nat) : Prop := {
  inv_declared : ∀ v, seen parents v → is_Some (rg_releases g !! v);
  inv_roots : ∀ v, v ∈ roots → parents !! v = Some None;
  inv_root : ∀ v, parents !! v = Some None → v ∈ roots ∧ depth v = 0%nat;
  inv_parent : ∀ v u, parents !! v = Some (Some u) →
    seen parents u ∧ edge d allowed u v ∧ depth v = S (depth u);
  inv_queue : NoDup queue ∧ ∀ v, v ∈ queue → seen parents v;
  inv_closed : ∀ u v, seen parents u → u ∉ queue → edge d allowed u v →
    seen parents v ∧ (depth v ≤ S (depth u))%nat;
  inv_done : ∀ u, seen parents u → u ∉ queue →
    u ≠ rg_target g ∧ ∀ x, x ∈ queue → (depth u ≤ depth x)%nat;
  inv_sorted : ∀ i j x y, (i ≤ j)%nat → queue !! i = Some x → queue !! j = Some y →
    (depth x ≤ depth y)%nat;
  inv_span : ∀ x y, x ∈ queue → y ∈ queue → (depth y ≤ S (depth x))%nat;
}.

Lemma inv_head_min parents h queue depth x :
  bfs_inv parents (h :: queue) depth → x ∈ h :: queue → (depth h ≤ depth x)%nat.
Proof.
  intros Hi [j Hj]%list_elem_of_lookup_1. eapply (inv_sorted _ _ _ Hi 0 j); [lia|done|done].
Qed.

(** Popping and expanding a release that is not the target keeps the invariant. *)
Lemma inv_expand parents h queue depth fresh parents' :
  bfs_inv parents (h :: queue) depth → h ≠ rg_target g →
  NoDup fresh →
  (∀ v, v ∈ fresh ↔ parents !! v = None ∧ edge d allowed h v) →
  (∀ v, parents' !! v = if decide (v ∈ fresh) then Some (Some h) else parents !! v) →
  bfs_inv parents' (queue ++ fresh) (λ v, if decide (v ∈ fresh) then S (depth h) else depth v).
Proof.
  intros Hi Ht Hnd Hf Hlook. pose proof (inv_head_min _ _ _ _ h Hi) as _.
  assert (∀ x, x ∈ queue → (depth h ≤ depth x ≤ S (depth h))%nat) as Hq.
  { intros x Hx. split; [eapply inv_head_min; [done|by constructor]|].
    apply (inv_span _ _ _ Hi); [constructor|by constructor]. }
  assert (∀ v, v ∈ fresh → parents !! v = None) as Hnone by (intros v Hv; by apply Hf in Hv as [? _]).
  assert (∀ v, seen parents v → v ∉ fresh) as Hold.
  { intros v [x Hx] Hv. rewrite (Hnone v Hv) in Hx. done. }
  assert (∀ v, seen parents' v ↔ seen parents v ∨ v ∈ fresh) as Hseen.
  { intros v. rewrite Hlook. destruct (decide (v ∈ fresh)) as [?|?]; [|naive_solver].
    split; [by right|by eexists]. }
  destruct (inv_queue _ _ _ Hi) as [[Hh Hndq]%NoDup_cons Hqs].
  assert (∀ x, x ∈ queue → x ∉ fresh) as Hqf by (intros x Hx; apply Hold, Hqs; by constructor).
  assert (∀ v, v ∉ fresh → (if decide (v ∈ fresh) then S (depth h) else depth v) = depth v) as Ho
    by (intros v Hv; by rewrite decide_False).
  assert (∀ v, v ∈ fresh → (if decide (v ∈ fresh) then S (depth h) else depth v) = S (depth h)) as Hn
    by (intros v Hv; by rewrite decide_True).
  assert (∀ u, seen parents' u → u ∉ queue ++ fresh →
    u = h ∨ (seen parents u ∧ u ∉ h :: queue)) as Hpopped.
  { intros u Hu%Hseen [Huq Huf]%not_elem_of_app. destruct (decide (u = h)); [by left|right].
    split; [naive_solver|]. by apply not_elem_of_cons. }
  assert (seen parents h) as Hsh by (apply Hqs; constructor).
  split.
  - intros v [Hv|Hv]%Hseen; [by apply (inv_declared _ _ _ Hi)|].
    apply Hf in Hv as (_ & _ & r & Hr & _). by eexists.
  - intros v Hv. pose proof (inv_roots _ _ _ Hi v Hv) as Hr. rewrite Hlook, decide_False; [done|].
    apply Hold. by eexists.
  - intros v. rewrite Hlook. destruct (decide (v ∈ fresh)); [done|]. apply (inv_root _ _ _ Hi).
  - intros v u. rewrite Hlook. destruct (decide (v ∈ fresh)) as [Hv|Hv].
    + intros [= <-]. rewrite Hseen, Ho by auto. split_and!; [by left|by apply Hf|done].
    + intros (Hu & He & Hd)%(inv_parent _ _ _ Hi). rewrite Hseen, Ho by auto. auto.
  - split; [apply NoDup_app; auto|]. intros v [Hv|Hv]%elem_of_app; apply Hseen; [left|by right].
    apply Hqs. by constructor.
  - intros u v Hu Huq He. rewrite Hseen. destruct (Hpopped u Hu Huq) as [->|[Hu' Huq']].
    + rewrite (Ho h) by auto. destruct (decide (v ∈ fresh)) as [Hv|Hv]; [split; [by right|done]|].
      assert (seen parents v) as Hv'.
      { apply not_eq_None_Some. intros Hnv. apply Hv, Hf. done. }
      split; [by left|]. destruct (decide (v ∈ h :: queue)) as [Hvq|Hvq].
      * apply elem_of_cons in Hvq as [->|Hvq]; [lia|]. apply Hq in Hvq. lia.
      * apply (inv_done _ _ _ Hi) in Hvq as [_ Hle]; [|done]. specialize (Hle h ltac:(constructor)). lia.
    + rewrite (Ho u) by auto. destruct (inv_closed _ _ _ Hi u v Hu' Huq' He) as [Hv Hle].
      rewrite (Ho v) by auto. auto.
  - intros u Hu Huq. destruct (Hpopped u Hu Huq) as [->|[Hu' Huq']].
    + split; [done|]. rewrite (Ho h) by auto.
      intros x [Hx|Hx]%elem_of_app; [rewrite Ho by auto; by apply Hq|rewrite Hn by done; lia].
    + destruct (inv_done _ _ _ Hi u Hu' Huq') as [Hne Hle]. split; [done|]. rewrite (Ho u) by auto.
      intros x [Hx|Hx]%elem_of_app; [rewrite Ho by auto; apply Hle; by constructor|].
      rewrite Hn by done. specialize (Hle h ltac:(constructor)). lia.
  - intros i j x y Hij Hx Hy. apply lookup_app_Some in Hx as [Hx|[Hlx Hx]], Hy as [Hy|[Hly Hy]].
    + rewrite !Ho by (eapply Hqf, list_elem_of_lookup_2; done).
      by apply (inv_sorted _ _ _ Hi (S i) (S j)); [lia|..].
    + apply list_elem_of_lookup_2 in Hx, Hy. rewrite Ho, Hn by auto. by apply Hq.
    + apply lookup_lt_Some in Hy. lia.
    + apply list_elem_of_lookup_2 in Hx, Hy. by rewrite !Hn by done.
  - intros x y [Hx|Hx]%elem_of_app [Hy|Hy]%elem_of_app.
    + rewrite !Ho by auto. apply Hq in Hx, Hy. lia.
    + rewrite (Ho x), (Hn y) by auto. apply Hq in Hx. lia.
    + rewrite (Hn x), (Ho y) by auto. apply Hq in Hy. lia.
    + rewrite !Hn by auto. lia.
Qed.

Lemma seen_size parents queue depth :
  bfs_inv parents queue depth → (size parents ≤ size (rg_releases g))%nat.
Proof.
  intros Hi. rewrite <-!(size_dom (D := gset string)). apply subseteq_size. intros v.
  rewrite !elem_of_dom. apply (inv_declared _ _ _ Hi).
Qed.

Lemma fresh_size (parents parents' : BTreeMap (option string)) h (fresh : list string) :
  NoDup fresh → (∀ v, v ∈ fresh → parents !! v = None) →
  (∀ v, parents' !! v = if decide (v ∈ fresh) then Some (Some h) else parents !! v) →
  size parents' = (size parents + length fresh)%nat.
Proof.
  intros Hnd Hnone Hlook. rewrite <-!(size_dom (D := gset string)).
  rewrite <-(size_list_to_set (C := gset string) fresh Hnd), <-size_union.
  - f_equal. apply set_eq. intros v.
    rewrite elem_of_union, !elem_of_dom, elem_of_list_to_set, Hlook.
    destruct (decide (v ∈ fresh)); [|naive_solver]. split; [by right|by eexists].
  - intros v [x Hx]%elem_of_dom Hv%elem_of_list_to_set. rewrite Hnone in Hx; done.
Qed.

(** The fuel is enough: the search ends at the target, or with nothing left to expand. *)
Lemma search_spec fuel : ∀ parents queue depth,
  bfs_inv parents queue depth →
  (size (rg_releases g) + length queue ≤ fuel + size parents)%nat →
  ∃ found, search fuel d allowed parents queue = Some found
    ∧ match found with
      | inl _ => ∃ parents' depth', bfs_inv parents' [] depth'
      | inr parents' => ∃ queue' depth', bfs_inv parents' (rg_target g :: queue') depth'
      end.
Proof.
  induction fuel as [|fuel IH]; intros parents [|h queue] depth Hi Hfuel; cbn [search].
  1,3: exists (inl tt); split; [done|]; eauto.
  - pose proof (seen_size _ _ _ Hi). simpl in Hfuel. lia.
  - case_bool_decide as Ht; [subst h; eexists (inr _); split; [done|]; eauto|].
    destruct (expand_spec h parents queue) as (fresh & parents' & -> & Hnd & Hf & Hlook).
    apply (IH _ _ (λ v, if decide (v ∈ fresh) then S (depth h) else depth v)).
    + by eapply inv_expand.
    + rewrite (fresh_size parents parents' h fresh Hnd), length_app; [simpl in Hfuel; lia| |done].
      intros v Hv. by apply Hf in Hv as [? _].
Qed.

(** Every walk is at least as long as the search's, or leads past the head of the queue. *)
Lemma walk_bound parents queue depth n v :
  bfs_inv parents queue depth → walk n v →
  (seen parents v ∧ (depth v ≤ n)%nat) ∨ ∃ h, head queue = Some h ∧ (depth h < n)%nat.
Proof.
  intros Hi. induction 1 as [v Hv|n u v Hw IH He].
  - left. pose proof (inv_roots _ _ _ Hi v Hv) as Hr. split; [by eexists|].
    apply (inv_root _ _ _ Hi) in Hr as [_ ->]. done.
  - destruct IH as [[Hu Hle]|(h & ? & ?)]; [|right; exists h; split; [done|lia]].
    destruct (decide (u ∈ queue)) as [Hq|Hq].
    + right. destruct queue as [|h queue]; [by apply not_elem_of_nil in Hq|].
      exists h. split; [done|]. pose proof (inv_head_min _ _ _ _ u Hi Hq). lia.
    + left. destruct (inv_closed _ _ _ Hi u v Hu Hq He). split; [done|lia].
Qed.

Lemma depth_bound parents queue depth v :
  bfs_inv parents queue depth → seen parents v → (depth v < size parents)%nat.
Proof.
  intros Hi Hv.
  assert (∀ n v, depth v = n → seen parents v →
    ∃ l, NoDup l ∧ length l = S n ∧ ∀ x, x ∈ l → seen parents x ∧ (depth x ≤ n)%nat) as Hanc.
  { intros n. induction n as [|n IH]; intros w Hw Hs.
    - exists [w]. split_and!; [apply NoDup_singleton|done|].
      intros x ->%list_elem_of_singleton. split; [done|lia].
    - destruct Hs as [[u|] Hu].
      + destruct (inv_parent _ _ _ Hi w u Hu) as (Hsu & _ & Hdu).
        destruct (IH u) as (l & Hnd & Hlen & Hl); [lia|done|]. exists (w :: l).
        split_and!; [|simpl; lia|].
        * constructor; [|done]. intros Hin. apply Hl in Hin as [_ ?]. lia.
        * intros x [->|Hx]%elem_of_cons; [split; [by eexists|lia]|].
          apply Hl in Hx as [? ?]. split; [done|lia].
      + apply (inv_root _ _ _ Hi) in Hu as [_ ?]. lia. }
  destruct (Hanc (depth v) v eq_refl Hv) as (l & Hnd & Hlen & Hl).
  assert (length l ≤ size parents)%nat; [|lia].
  rewrite <-(size_list_to_set (C := gset string) l Hnd), <-(size_dom (D := gset string) parents).
  apply subseteq_size. intros x Hx%elem_of_list_to_set. apply elem_of_dom. by apply Hl.
Qed.

(** The walk back spells out a chain from a root, as long as the depth. *)
Lemma trace_spec parents queue depth : bfs_inv parents queue depth → ∀ fuel v,
  seen parents v → (depth v < fuel)%nat →
  ∃ s p, trace fuel parents v = Some (rev (s :: p)) ∧ s ∈ roots ∧ chain d allowed s p
    ∧ last (s :: p) = Some v ∧ length p = depth v
    ∧ ∀ i x, (s :: p) !! i = Some x → depth x = i.
Proof.
  intros Hi fuel. induction fuel as [|fuel IH]; intros v Hv Hlt; [lia|]. cbn [trace].
  destruct Hv as [[u|] Hu]; rewrite Hu; cbn [mbind option_bind].
  - destruct (inv_parent _ _ _ Hi v u Hu) as (Hsu & He & Hd).
    destruct (IH u Hsu) as (s & p & -> & Hs & Hc & Hl & Hlen & Hdepth); [lia|]. cbn [mbind option_bind].
    exists s, (p ++ [v]). split_and!.
    + f_equal. by rewrite app_comm_cons, rev_app_distr.
    + done.
    + by eapply chain_snoc.
    + by rewrite app_comm_cons, last_snoc.
    + rewrite length_app. simpl. lia.
    + intros i x. rewrite app_comm_cons. intros [Hx|[Hi' Hx]]%lookup_app_Some; [by apply Hdepth|].
      apply list_lookup_singleton_Some in Hx as [Hz <-]. simpl in Hi', Hz. lia.
  - apply (inv_root _ _ _ Hi) in Hu as [Hr Hd]. exists v, []. split_and!; try done.
    by intros i x [-> <-]%list_lookup_singleton_Some.
Qed.

Lemma search_roots_inv :
  NoDup roots → (∀ v, v ∈ roots → is_Some (rg_releases g !! v)) →
  bfs_inv (list_to_map ((λ v, (v, None)) <$> roots)) roots (λ _, 0%nat)
  ∧ size (list_to_map ((λ v, (v, None)) <$> roots) : BTreeMap (option string)) = length roots.
Proof.
  intros Hnd Hdecl. set (parents := list_to_map _ : BTreeMap (option string)).
  assert (NoDup ((λ v, (v, @None string)) <$> roots).*1) as Hnd'.
  { rewrite <-list_fmap_compose. simpl. by rewrite list_fmap_id. }
  assert (∀ v x, parents !! v = Some x ↔ x = None ∧ v ∈ roots) as Hlook.
  { intros v x. unfold parents. rewrite <-elem_of_list_to_map by done.
    rewrite list_elem_of_fmap. naive_solver. }
  assert (∀ v, is_Some (parents !! v) ↔ v ∈ roots) as Hseen.
  { intros v. unfold is_Some. setoid_rewrite Hlook. naive_solver. }
  split.
  - split; try done.
    + intros v Hv%Hseen. by apply Hdecl.
    + intros v Hv. by apply Hlook.
    + intros v [_ ?]%Hlook. done.
    + intros v u [? _]%Hlook. done.
    + split; [done|]. intros v. by rewrite Hseen.
    + intros u v Hu%Hseen. done.
    + intros u Hu%Hseen. done.
    + intros. lia.
  - rewrite <-(size_dom (D := gset string)), <-(size_list_to_set (C := gset string) roots Hnd).
    f_equal. apply set_eq. intros v. by rewrite elem_of_dom, Hseen, elem_of_list_to_set.
Qed.

End bfs.

(** ** Validated graphs *)

Lemma check_releases_parse l : ∀ packages version r,
  check_releases packages l = None → (version, r) ∈ l → is_Some (parse_release_version version).
Proof.
  induction l as [|[k x] l IH]; intros packages version r; cbn [check_releases]; [set_solver|].
  destruct (check_release packages k x) eqn:Hk; [done|]. intros Hl [[= -> ->]|Hin]%elem_of_cons; [|eauto].
  unfold check_release in Hk. by destruct (parse_release_version k).
Qed.

Lemma validate_parse version r :
  graph_validate = inr tt → rg_releases g !! version = Some r →
  is_Some (parse_release_version version).
Proof.
  unfold graph_validate. destruct (_ || _); [done|]. destruct target_reference; [done|].
  destruct (check_releases _ _) eqn:Hc; [done|]. intros _ Hv.
  eapply check_releases_parse; [exact Hc|]. by apply elem_of_bt_iter.
Qed.

Lemma validate_target : graph_validate = inr tt → is_Some (rg_releases g !! rg_target g).
Proof.
  unfold graph_validate, target_reference. destruct (_ || _); [done|].
  destruct (rg_releases g !! rg_target g); [by eexists|done].
Qed.

Lemma direction_total installed :
  graph_validate = inr tt → undeclared installed = false → is_Some (direction installed).
Proof.
  intros Hv Hu. destruct installed as [version|]; [|by eexists]. unfold direction, undeclared in *.
  rewrite negb_false_iff, contains_key_true in Hu. destruct Hu as [r Hr].
  destruct (validate_parse version r Hv Hr) as [from ->]. destruct (validate_target Hv) as [t Ht].
  destruct (validate_parse _ t Hv Ht) as [to ->]. by eexists.
Qed.

Lemma starts_spec installed allowed :
  undeclared installed = false →
  NoDup (starts installed allowed)
  ∧ ∀ v, v ∈ starts installed allowed → is_Some (rg_releases g !! v).
Proof.
  intros Hu. unfold starts. destruct installed as [version|].
  - split; [apply NoDup_singleton|]. intros v ->%list_elem_of_singleton.
    unfold undeclared in Hu. by rewrite negb_false_iff, contains_key_true in Hu.
  - split.
    + eapply sublist_NoDup; [apply (NoDup_bt_keys (rg_releases g))|].
      apply fmap_sublist, sublist_filter.
    + intros v ([k r] & -> & [_ Hin]%list_elem_of_filter)%list_elem_of_fmap.
      apply elem_of_bt_iter in Hin. by eexists.
Qed.

(** A chain from a root, as the code returns it. *)
Lemma route_of_chain d allowed installed depth s p :
  s ∈ starts installed allowed → chain d allowed s p → last (s :: p) = Some (rg_target g) →
  (∀ v, v ∈ starts installed allowed → depth v = 0%nat) → (∀ x, x ∈ p → (0 < depth x)%nat) →
  is_route d allowed installed (rev (filter (λ v, Some v ≠ installed) (rev (s :: p))))
  ∧ length (rev (filter (λ v, Some v ≠ installed) (rev (s :: p))))
    = (length p + match installed with Some _ => 0 | None => 1 end)%nat.
Proof.
  intros Hs Hc Hl Hroot Hpos.
  assert (rev (filter (λ v, Some v ≠ installed) (rev (s :: p)))
          = match installed with Some _ => p | None => s :: p end) as ->.
  2:{ destruct installed as [version|]; simpl.
      - unfold starts in Hs. apply list_elem_of_singleton in Hs as ->. split; [done|lia].
      - split; [by exists s, p|lia]. }
  assert (∀ l : list string, (∀ x, x ∈ l → Some x ≠ installed) → filter (λ v, Some v ≠ installed) l = l) as Hall.
  { intros l Hl'. induction l as [|x l IH]; [done|]. rewrite filter_cons_True by (apply Hl'; constructor).
    f_equal. apply IH. intros y Hy. apply Hl'. by constructor. }
  destruct installed as [version|].
  - apply list_elem_of_singleton in Hs as ->. simpl. rewrite filter_app, Hall.
    + rewrite filter_cons_False by (intros Hne; by apply Hne). rewrite filter_nil, app_nil_r. apply rev_involutive.
    + intros x Hx [= ->]. apply list_elem_of_In, in_rev, list_elem_of_In in Hx.
      specialize (Hpos version Hx). rewrite Hroot in Hpos; [lia|]. by apply list_elem_of_singleton.
  - rewrite Hall; [apply rev_involutive|done].
Qed.

Lemma is_route_walk d allowed installed path :
  is_route d allowed installed path →
  ∃ n, walk d allowed (starts installed allowed) n (rg_target g)
    ∧ length path = (n + match installed with Some _ => 0 | None => 1 end)%nat.
Proof.
  destruct installed as [version|]; simpl.
  - intros [Hc Hl].
    destruct (chain_walk d allowed [version] version path 0) as (v & Hv & Hw); [|done|].
    { apply walk_root, list_elem_of_singleton. done. }
    rewrite Hl in Hv. injection Hv as <-. exists (length path). split; [done|lia].
  - intros (s & p & -> & Hs & Hc & Hl).
    destruct (chain_walk d allowed _ s p 0 (walk_root d allowed _ s Hs) Hc) as (v & Hv & Hw).
    rewrite Hl in Hv. injection Hv as <-. exists (length p). split; [done|simpl; lia].
Qed.

(** Totality, soundness, completeness and minimality of the search, in one statement. *)
Lemma route_spec installed available :
  graph_validate = inr tt → undeclared installed = false →
  ∃ d, direction installed = Some d ∧
    let allowed := allowed_versions available in
    if bool_decide (installed = Some (rg_target g)) then route installed available = Some (inr [])
    else match route installed available with
         | Some (inr path) =>
             is_route d allowed installed path
             ∧ (∀ path', is_route d allowed installed path' → (length path ≤ length path')%nat)
             ∧ NoDup path
         | Some (inl e) =>
             e = ENoRoute installed (rg_target g) ∧ ∀ path', ~ is_route d allowed installed path'
         | None => False
         end.
Proof.
  intros Hv Hu. destruct (direction_total installed Hv Hu) as [d Hd]. exists d. split; [done|].
  intros allowed. unfold route. rewrite Hv, Hu. case_bool_decide as Ht; [done|].
  rewrite Hd. cbn [mbind option_bind]. fold allowed.
  destruct (starts_spec installed allowed Hu) as [Hnd Hdecl].
  destruct (search_roots_inv d allowed (starts installed allowed) Hnd Hdecl) as [Hinv Hsize].
  destruct (search_spec d allowed _ (size (rg_releases g)) _ _ _ Hinv) as (found & -> & Hfound).
  { rewrite Hsize. lia. }
  cbn [mbind option_bind]. destruct found as [_|parents].
  - destruct Hfound as (parents & depth & Hi). split; [done|].
    intros path' (n & Hw & _)%is_route_walk.
    destruct (walk_bound _ _ _ _ _ _ _ _ Hi Hw) as [[Hs _]|(h & ? & _)]; [|done].
    destruct (inv_done _ _ _ _ _ _ Hi _ Hs) as [? _]; [apply not_elem_of_nil|done].
  - destruct Hfound as (queue & depth & Hi).
    assert (is_Some (parents !! rg_target g)) as Hs by (apply (inv_queue _ _ _ _ _ _ Hi); constructor).
    destruct (trace_spec _ _ _ _ _ _ Hi (S (size (rg_releases g))) _ Hs)
      as (s & p & -> & Hsr & Hc & Hl & Hlen & Hdepth).
    { pose proof (depth_bound _ _ _ _ _ _ _ Hi Hs). pose proof (seen_size _ _ _ _ _ _ Hi). lia. }
    cbn [mbind option_bind].
    destruct (route_of_chain d allowed installed depth s p Hsr Hc Hl) as [Hr Hlr].
    { intros v Hr. pose proof (inv_roots _ _ _ _ _ _ Hi v Hr) as Hp. by apply (inv_root _ _ _ _ _ _ Hi) in Hp as [_ ?]. }
    { intros x [i Hx]%list_elem_of_lookup_1. rewrite (Hdepth (S i) x Hx). lia. }
    split_and!; [done| |].
    2:{ apply NoDup_ListNoDup, List.NoDup_rev, NoDup_ListNoDup, NoDup_filter.
        apply NoDup_ListNoDup, List.NoDup_rev, NoDup_ListNoDup, NoDup_alt.
        intros i j x Hx Hy. by rewrite <-(Hdepth i x Hx), <-(Hdepth j x Hy). }
    intros path' (n & Hw & ->)%is_route_walk. rewrite Hlr, Hlen.
    destruct (walk_bound _ _ _ _ _ _ _ _ Hi Hw) as [[_ ?]|(h & [= <-] & ?)]; lia.
Qed.

(** The route search is total, sound, complete and shortest: on a valid graph and a
    declared source it returns, without panicking, no hop at the target, otherwise a route of
    declared edges through available releases that no other such route is shorter than and that lands on no
    release twice, or the
    no-route error exactly when there is none. *)
Lemma route_is_shortest installed available :
  graph_validate = inr tt → undeclared installed = false →
  ∃ d, direction installed = Some d ∧
    let allowed := allowed_versions available in
    if bool_decide (installed = Some (rg_target g)) then route installed available = Some (inr [])
    else match route installed available with
         | Some (inr path) =>
             is_route d allowed installed path
             ∧ (∀ path', is_route d allowed installed path' → (length path ≤ length path')%nat)
             ∧ NoDup path
         | Some (inl e) =>
             e = ENoRoute installed (rg_target g) ∧ ∀ path', ~ is_route d allowed installed path'
         | None => False
         end.
Proof. apply route_spec. Qed.

End one_graph.
End graph.
