(* ===== verification/Routes.v ===== *)
(** * Routes: every version a node may land on

    Models [ReleaseGraph::route_versions] of [updated-contracts/src/releases.rs]: the versions on
    some complete route from a source, found by one backward and one forward breadth-first
    flood.  Each version is queued at most once, so the number of releases bounds the fuel of
    both floods; [None] is a panic, or fuel that ran out, and the theorem shows neither
    happens on a graph whose route search succeeded. *)
From S2P Require Import Prelude Identity Maps Releases.

(** ** Floods *)

Section flood.
Context (next : string → option (list string)).

Definition discover (acc : BTreeSet * list string) (n : string) : BTreeSet * list string :=
  let '(seen, queue) := acc in
  if bool_decide (n ∈ seen) then acc else ({[ n ]} ∪ seen, queue ++ [n]).

Fixpoint flood (fuel : nat) (seen : BTreeSet) (queue : list string) : option BTreeSet :=
  match queue with
  | [] => Some seen
  | version :: queue =>
      match fuel with
      | O => None
      | S fuel =>
          successors ← next version;
          let '(seen, queue) := foldl discover (seen, queue) successors in
          flood fuel seen queue
      end
  end.

Definition step (u v : string) : Prop := ∃ l, next u = Some l ∧ v ∈ l.

Lemma discover_spec l : ∀ seen queue,
  ∃ fresh, foldl discover (seen, queue) l = (seen ∪ list_to_set fresh, queue ++ fresh)
    ∧ NoDup fresh ∧ (∀ v, v ∈ fresh ↔ v ∈ l ∧ v ∉ seen).
Proof.
  induction l as [|n l IH]; intros seen queue; cbn [foldl].
  { exists []. rewrite app_nil_r. split_and!; [f_equal; set_solver|constructor|set_solver]. }
  unfold discover at 2. case_bool_decide as Hn.
  - destruct (IH seen queue) as (fresh & -> & Hnd & Hin). exists fresh. split_and!; [done|done|set_solver].
  - destruct (IH ({[ n ]} ∪ seen) (queue ++ [n])) as (fresh & -> & Hnd & Hin). exists (n :: fresh).
    split_and!.
    + f_equal; [set_solver|by rewrite <-app_assoc].
    + constructor; [|done]. rewrite Hin. set_solver.
    + intros v. rewrite elem_of_cons, Hin. destruct (decide (v = n)); set_solver.
Qed.

Context (universe : BTreeSet) (roots : list string).
Context (next_total : ∀ v, v ∈ universe → is_Some (next v)).
Context (next_closed : ∀ u v, u ∈ universe → step u v → v ∈ universe).

Record flood_inv (seen : BTreeSet) (queue : list string) : Prop := {
  fi_universe : seen ⊆ universe;
  fi_roots : ∀ v, v ∈ roots → v ∈ seen;
  fi_queue : NoDup queue ∧ ∀ v, v ∈ queue → v ∈ seen;
  fi_sound : ∀ v, v ∈ seen → ∃ r, r ∈ roots ∧ rtc step r v;
  fi_closed : ∀ u v, u ∈ seen → u ∉ queue → step u v → v ∈ seen;
}.

(** The fuel is enough, and the flood is exactly the reachable set. *)
Lemma flood_spec fuel : ∀ seen queue,
  flood_inv seen queue → (size universe + length queue ≤ fuel + size seen)%nat →
  ∃ seen', flood fuel seen queue = Some seen'
    ∧ ∀ v, v ∈ seen' ↔ ∃ r, r ∈ roots ∧ rtc step r v.
Proof.
  induction fuel as [|fuel IH]; intros seen [|h queue] Hi Hfuel; cbn [flood].
  1,3: exists seen; split; [done|]; intros v; split; [apply (fi_sound _ _ Hi)|];
    intros (r & Hr & Hrtc); apply (fi_roots _ _ Hi) in Hr; clear Hfuel;
    induction Hrtc as [|x y z Hxy _ IHr]; [done|];
    apply IHr, (fi_closed _ _ Hi x y); [done|apply not_elem_of_nil|done].
  - pose proof (subseteq_size _ _ (fi_universe _ _ Hi)). simpl in Hfuel. lia.
  - destruct (fi_queue _ _ Hi) as [[Hh Hnd]%NoDup_cons Hq].
    assert (h ∈ seen) as Hhs by (apply Hq; constructor).
    assert (h ∈ universe) as Hhu by by apply (fi_universe _ _ Hi).
    destruct (next_total h Hhu) as [l Hl]. rewrite Hl. cbn [mbind option_bind].
    destruct (discover_spec l seen queue) as (fresh & -> & Hndf & Hfresh).
    assert (∀ v, v ∈ fresh → step h v) as Hstep by (intros v [Hv _]%Hfresh; by exists l).
    apply IH.
    + split.
      * intros v [Hv|Hv%elem_of_list_to_set]%elem_of_union; [by apply (fi_universe _ _ Hi)|].
        apply (next_closed h v Hhu), Hstep, Hv.
      * intros v Hv%(fi_roots _ _ Hi). set_solver.
      * split; [|set_solver]. apply NoDup_app. split_and!; [done| |done].
        intros v Hv [_ Hns]%Hfresh. apply Hns, Hq. by constructor.
      * intros v [Hv|Hv%elem_of_list_to_set]%elem_of_union; [by apply (fi_sound _ _ Hi)|].
        destruct (fi_sound _ _ Hi h Hhs) as (r & Hr & Hrtc). exists r. split; [done|].
        eapply rtc_r; [done|]. by apply Hstep.
      * intros u v Hu Huq Huv. apply elem_of_union. destruct (decide (u = h)) as [->|Hne].
        -- destruct (decide (v ∈ seen)); [by left|right]. apply elem_of_list_to_set, Hfresh.
           destruct Huv as (l' & Hl' & Hv). split; [congruence|done].
        -- left. apply (fi_closed _ _ Hi u v); [set_solver|set_solver|done].
    + assert (size (seen ∪ list_to_set fresh) = size seen + length fresh)%nat as ->.
      { rewrite size_union by (intros v Hv [_ ?]%elem_of_list_to_set%Hfresh; done).
        by rewrite size_list_to_set. }
      rewrite length_app. simpl in Hfuel. lia.
Qed.

Lemma flood_roots :
  NoDup roots → (∀ v, v ∈ roots → v ∈ universe) →
  ∃ seen, flood (size universe) (list_to_set roots) roots = Some seen
    ∧ ∀ v, v ∈ seen ↔ ∃ r, r ∈ roots ∧ rtc step r v.
Proof.
  intros Hnd Hu. apply flood_spec.
  - split; [set_solver|set_solver|set_solver| |set_solver].
    intros v Hv%elem_of_list_to_set. exists v. split; [done|constructor].
  - rewrite size_list_to_set by done. lia.
Qed.

End flood.

(** ** The versions on a complete route *)

Section route_versions.
Context `{!SemverOrder} (g : ReleaseGraph).

(** The predecessors of a release; the index panics on an undeclared one. *)
Definition backward (d : Direction) (version : string) : option (list string) :=
  release ← rg_releases g !! version;
  Some (bt_elements (predecessors d release)).

Definition forward (d : Direction) (version : string) : option (list string) :=
  Some (filter (λ x : string * Release, version ∈ predecessors d x.2) (bt_iter (rg_releases g))).*1.

Definition installable_versions : list string :=
  (filter (λ x : string * Release, rl_installable x.2 = true) (bt_iter (rg_releases g))).*1.

(** The start of the routes; the [expect] panics on an undeclared source. *)
Definition source_versions (installed : option string) : option (list string) :=
  match installed with
  | Some version => if contains_key version (rg_releases g) then Some [version] else None
  | None => Some installable_versions
  end.

Definition route_versions (installed : option string) : option (ReleaseError + BTreeSet) :=
  routed ← route g installed (λ _ _, true);
  match routed with
  | inl e => Some (inl e)
  | inr _ =>
      d ← direction g installed;
      if bool_decide (installed = Some (rg_target g)) then Some (inr ∅)
      else
        let fuel := size (rg_releases g) in
        reaches_target ← flood (backward d) fuel {[ rg_target g ]} [rg_target g];
        starts ← source_versions installed;
        reachable ← flood (forward d) fuel (list_to_set starts) starts;
        Some (inr (filter (λ version, Some version ≠ installed) (reachable ∩ reaches_target)))
  end.

(** ** Correctness *)

Abbreviation all := (allowed_versions g (λ _ _, true)).

Lemma elem_of_all v : v ∈ all ↔ is_Some (rg_releases g !! v).
Proof.
  unfold allowed_versions. rewrite elem_of_dom. unfold is_Some. setoid_rewrite map_lookup_filter_Some.
  naive_solver.
Qed.

Lemma edge_all d u v :
  edge g d all u v ↔ ∃ r, rg_releases g !! v = Some r ∧ u ∈ predecessors d r.
Proof.
  unfold edge. rewrite elem_of_all. unfold is_Some. naive_solver.
Qed.

Lemma forward_step d u v : step (forward d) u v ↔ edge g d all u v.
Proof.
  rewrite edge_all. unfold step, forward. split.
  - intros (l & [= <-] & Hv). apply list_elem_of_fmap in Hv as ([k r] & -> & Hin).
    apply list_elem_of_filter in Hin as [Hu Hin]. apply elem_of_bt_iter in Hin. by exists r.
  - intros (r & Hr & Hu). eexists. split; [done|]. apply list_elem_of_fmap. exists (v, r).
    split; [done|]. apply list_elem_of_filter. split; [done|]. by apply elem_of_bt_iter.
Qed.

Lemma backward_step d u v : step (backward d) v u ↔ edge g d all u v.
Proof.
  rewrite edge_all. unfold step, backward. destruct (rg_releases g !! v) as [r|]; simpl.
  - split.
    + intros (l & [= <-] & Hu). exists r. split; [done|].
      unfold bt_elements in Hu. by rewrite merge_sort_Permutation, elem_of_elements in Hu.
    + intros (r' & [= <-] & Hu). eexists. split; [done|].
      unfold bt_elements. by rewrite merge_sort_Permutation, elem_of_elements.
  - split; [by intros (l & ? & _)|by intros (r & ? & _)].
Qed.

(** Every edge of a valid graph starts at a declared release. *)
Lemma check_releases_edges l : ∀ packages version r d from,
  check_releases g packages l = None → (version, r) ∈ l → from ∈ predecessors d r →
  is_Some (rg_releases g !! from).
Proof.
  induction l as [|[k x] l IH]; intros packages version r d from; cbn [check_releases]; [set_solver|].
  destruct (check_release g packages k x) eqn:Hk; [done|].
  intros Hl [[= -> ->]|Hin]%elem_of_cons Hf; [|eauto].
  unfold check_release in Hk. destruct (parse_release_version k) as [parsed|]; [|done].
  destruct (negb _); [done|]. destruct (_ || _); [done|].
  assert ((d, from) ∈ release_edges x) as He.
  { unfold release_edges, bt_elements. destruct d; apply elem_of_app; [left|right];
      apply list_elem_of_fmap; exists from; by rewrite merge_sort_Permutation, elem_of_elements. }
  destruct (omap _ _) as [|e es] eqn:Ho; [|done].
  assert (check_edge g k parsed (d, from) = None) as Hce.
  { destruct (check_edge g k parsed (d, from)) as [e|] eqn:Hce; [|done].
    assert (e ∈ omap (check_edge g k parsed) (release_edges x)) as Hin by (apply list_elem_of_omap; eauto).
    rewrite Ho in Hin. by apply not_elem_of_nil in Hin. }
  unfold check_edge in Hce. simpl in Hce. destruct (contains_key from (rg_releases g)) eqn:Hc; [|done].
  by apply contains_key_true in Hc.
Qed.

Lemma validate_edges d u v :
  graph_validate g = inr tt → edge g d all u v → is_Some (rg_releases g !! u).
Proof.
  unfold graph_validate. destruct (_ || _); [done|]. destruct (target_reference g); [done|].
  destruct (check_releases g ∅ _) eqn:Hc; [done|]. intros _ (r & Hr & Hu)%edge_all.
  eapply check_releases_edges; [exact Hc| |exact Hu]. by apply elem_of_bt_iter.
Qed.

(** Chains are the closure of edges. *)
Lemma chain_rtc d s p v :
  chain g d all s p → last (s :: p) = Some v → rtc (edge g d all) s v.
Proof.
  revert s. induction p as [|x p IH]; intros s; [by intros _ [= ->]|].
  intros [He Hc] Hl. eapply rtc_l; [done|]. by apply IH.
Qed.

Lemma rtc_chain d s v :
  rtc (edge g d all) s v → ∃ p, chain g d all s p ∧ last (s :: p) = Some v.
Proof.
  induction 1 as [s|s x v He _ (p & Hc & Hl)]; [by exists []|]. exists (x :: p). done.
Qed.

Lemma chain_app d s p q v :
  chain g d all s p → last (s :: p) = Some v → chain g d all v q → chain g d all s (p ++ q).
Proof.
  revert s. induction p as [|x p IH]; intros s; [by intros _ [= ->]|].
  intros [? ?] Hl ?. split; [done|]. by apply (IH x).
Qed.

Lemma chain_split d s p v :
  chain g d all s p → v ∈ s :: p →
  rtc (edge g d all) s v ∧ ∃ q, chain g d all v q ∧ last (v :: q) = last (s :: p).
Proof.
  revert s. induction p as [|x p IH]; intros s Hc Hv.
  - apply list_elem_of_singleton in Hv as ->. split; [done|]. by exists [].
  - apply elem_of_cons in Hv as [->|Hv]; [split; [done|]; by exists (x :: p)|].
    destruct Hc as [He Hc]. destruct (IH x Hc Hv) as (Hr & q & Hq & Hl). split; [by eapply rtc_l|].
    exists q. split; [done|]. by rewrite Hl.
Qed.

(** Being between a start and the target is being on a complete route. *)
Lemma between_chain d s v :
  (rtc (edge g d all) s v ∧ rtc (edge g d all) v (rg_target g)) ↔
  ∃ p, chain g d all s p ∧ last (s :: p) = Some (rg_target g) ∧ v ∈ s :: p.
Proof.
  split.
  - intros [(p & Hp & Hl)%rtc_chain (q & Hq & Hlq)%rtc_chain]. exists (p ++ q).
    split_and!; [by eapply chain_app| |].
    + destruct q as [|y q]; [by rewrite app_nil_r; simplify_eq/=|].
      rewrite app_comm_cons, last_app. change (last (y :: q) = Some (rg_target g)) in Hlq. by rewrite Hlq.
    + rewrite app_comm_cons. apply elem_of_app. left. by apply last_Some_elem_of.
  - intros (p & Hp & Hl & Hv). destruct (chain_split _ _ _ _ Hp Hv) as (Hr & q & Hq & Hlq).
    split; [done|]. eapply chain_rtc; [done|congruence].
Qed.

Lemma backward_rtc d v : rtc (step (backward d)) (rg_target g) v ↔ rtc (edge g d all) v (rg_target g).
Proof.
  split; induction 1 as [|x y z Hxy _ IH]; try done.
  - eapply rtc_r; [exact IH|]. by apply backward_step.
  - eapply rtc_r; [exact IH|]. by apply backward_step.
Qed.

Lemma forward_rtc d u v : rtc (step (forward d)) u v ↔ rtc (edge g d all) u v.
Proof.
  split; induction 1 as [|x y z Hxy _ IH]; try done; (eapply rtc_l; [|exact IH]); by apply forward_step.
Qed.

Lemma edge_declared d u v : edge g d all u v → v ∈ dom (rg_releases g).
Proof. intros (r & Hr & _)%edge_all. by apply elem_of_dom. Qed.

Lemma starts_all installed :
  undeclared g installed = false → source_versions installed = Some (starts g installed all).
Proof.
  intros Hu. destruct installed as [version|]; simpl.
  - simpl in Hu. apply negb_false_iff in Hu. by rewrite Hu.
  - f_equal. unfold installable_versions. f_equal. apply filter_ext_elem. intros [k r] Hin. simpl.
    apply elem_of_bt_iter in Hin. rewrite elem_of_all, Hin. naive_solver.
Qed.

Lemma is_route_some d installed path :
  is_route g d all installed path ↔
  ∃ s p, s ∈ starts g installed all ∧ chain g d all s p ∧ last (s :: p) = Some (rg_target g)
    ∧ path = match installed with Some _ => p | None => s :: p end.
Proof.
  destruct installed as [version|]; simpl.
  - setoid_rewrite list_elem_of_singleton. naive_solver.
  - split; [intros (s & p & -> & ?); exists s, p; naive_solver|].
    intros (s & p & Hs & Hc & Hl & ->). by exists s, p.
Qed.

(** The versions a node may land on are exactly those on some complete route: on a valid
    graph and a declared source the search never panics, refuses exactly when there is no route
    at all, and otherwise returns the executable versions of all complete routes, dead ends and
    the installed source excluded. *)
Lemma route_versions_are_the_landings installed :
  graph_validate g = inr tt → undeclared g installed = false →
  ∃ d, direction g installed = Some d ∧
    match route_versions installed with
    | None => False
    | Some (inl e) =>
        installed ≠ Some (rg_target g) ∧ ∀ path, ~ is_route g d all installed path
    | Some (inr versions) =>
        if bool_decide (installed = Some (rg_target g)) then versions = ∅
        else ∀ v, v ∈ versions ↔
          Some v ≠ installed ∧ ∃ path, is_route g d all installed path ∧ v ∈ path
    end.
Proof.
  intros Hv Hu. destruct (route_spec g installed (λ _ _, true) Hv Hu) as (d & Hd & Hr).
  exists d. split; [done|]. unfold route_versions. case_bool_decide as Ht.
  { rewrite Hr. simpl. rewrite Hd. done. }
  destruct (route g installed (λ _ _, true)) as [[e|p]|]; simpl; [|clear p Hr|done].
  { split; [done|]. apply Hr. }
  rewrite Hd. simpl.
  pose proof (validate_target g Hv) as Htarget. rewrite <-(size_dom (D := gset string)).
  destruct (flood_roots (backward d) (dom (rg_releases g)) [rg_target g]) as (back & Hback & Hin).
  { intros v [r Hr]%elem_of_dom. unfold backward. rewrite Hr. by eexists. }
  { intros u v _ He%backward_step. apply elem_of_dom. by eapply validate_edges. }
  { apply NoDup_singleton. }
  { intros v ->%list_elem_of_singleton. by apply elem_of_dom. }
  simpl in Hback. rewrite (right_id_L ∅ (∪)) in Hback. rewrite Hback. simpl.
  rewrite (starts_all installed Hu). simpl. destruct (starts_spec g installed all Hu) as [Hnd Hs].
  destruct (flood_roots (forward d) (dom (rg_releases g)) (starts g installed all)) as (fwd & Hfwd & Hinf).
  { intros v _. by eexists. }
  { intros u v _ He%forward_step. by eapply edge_declared. }
  { done. }
  { intros v Hin'. by apply elem_of_dom, Hs. }
  rewrite Hfwd. simpl. intros v. rewrite elem_of_filter, elem_of_intersection, Hin, Hinf.
  setoid_rewrite is_route_some. setoid_rewrite forward_rtc.
  assert ((∃ r, r ∈ [rg_target g] ∧ rtc (step (backward d)) r v) ↔ rtc (edge g d all) v (rg_target g)) as ->.
  { setoid_rewrite list_elem_of_singleton. rewrite <-backward_rtc. naive_solver. }
  split.
  - intros (Hne & (s & Hsr & Hrtc) & Hto). split; [done|].
    destruct (proj1 (between_chain d s v) (conj Hrtc Hto)) as (p & Hc & Hl & Hvp).
    eexists. split; [by exists s, p|]. destruct installed as [w|]; [|done].
    apply list_elem_of_singleton in Hsr as ->. apply elem_of_cons in Hvp as [->|]; [|done]. by destruct Hne.
  - intros (Hne & path & (s & p & Hsr & Hc & Hl & ->) & Hvp). split; [done|].
    destruct (proj2 (between_chain d s v)) as [? ?]; [|by split; [exists s|]].
    exists p. split_and!; [done|done|]. destruct installed; [by constructor|done].
Qed.

End route_versions.
