(* ===== verification/Dataflow.v ===== *)
(** * Dataflow: the file snapshots wired between groups

    Models [updated-contracts/src/dataflow.rs] with the byte bound every contract document
    crosses ([bounded.rs]) and the URL shapes a capability may have ([endpoint.rs]).  A group's
    inputs travel as one bounded snapshot of named opaque files; the signed assignment carries
    only its selection, a keyed generation and the digest of the exact private object.  Base64,
    HMAC and URL parsing are outside the repository: they are the classes [Base64], [Hmac] and
    [Urls]. *)
From S2P Require Import Prelude Identity Maps Releases.

(** ** Errors, one constructor per message *)

Inductive ContractError : Type :=
| EPastLimit (what : string) (bytes limit : N)
| EEncoding (what : string)
| EDecoding (what : string)
| ESerde
| EMessage (text : string)
| EFileName (name : string)
| EUnsupportedSchema (schema : N)
| ELocation (field : string) (error : string)
| ERelease (error : ReleaseError)
| EInterval (field : string) (seconds maximum : N)
| ERootPastLimit (limit bytes : N)
| EInputs (error : ContractError)
| EGraceTooShort (grace minimum : N).

Section bounded.
Context {T : Type} `{!Serde T}.

(** [bounded::check], [encode] and [decode]. *)
Definition bounded_check (length : N) (what : string) (limit : N) : ContractError + unit :=
  demand (length <=? limit)%N (EPastLimit what length limit).

Definition bounded_encode (value : T) (what : string) (limit : N) : ContractError + string :=
  bytes ← ok_or (to_vec value) (EEncoding what);
  _ ← bounded_check (str_len bytes) what limit;
  inr bytes.

Definition bounded_decode (bytes what : string) (limit : N) : ContractError + T :=
  _ ← bounded_check (str_len bytes) what limit;
  ok_or (from_slice bytes) (EDecoding what).

(** What one side emits within its bound the other side accepts. *)
Lemma bounded_roundtrip value what limit bytes :
  bounded_encode value what limit = inr bytes → bounded_decode bytes what limit = inr value.
Proof.
  unfold bounded_encode, bounded_decode. intros Henc. sum_inv.
  match goal with Hv : to_vec _ = Some _, Hb : bounded_check _ _ _ = _ |- _ =>
    rewrite Hb; simpl; by rewrite (serde_roundtrip _ _ Hv) end.
Qed.

Lemma bounded_encode_inr value what limit bytes :
  bounded_encode value what limit = inr bytes ↔ to_vec value = Some bytes ∧ (str_len bytes ≤ limit)%N.
Proof.
  unfold bounded_encode, bounded_check. destruct (to_vec value) as [b|]; simpl.
  - rewrite sum_bind_inr. setoid_rewrite demand_inr. setoid_rewrite N.leb_le.
    split; [by intros ([] & ? & [= <-]) | intros [[= <-] ?]; by exists tt].
  - split; [done | by intros [? _]].
Qed.
End bounded.

(** ** URL shapes *)

(** The [url] crate. *)
Class Urls : Type := {
  Url : Type;
  url_parse : string → option Url;
  url_scheme : Url → string;
  url_host : Url → option string;
  url_username : Url → string;
  url_password : Url → option string;
  url_query : Url → option string;
  url_fragment : Url → option string;
  url_path : Url → string;
  url_cannot_be_a_base : Url → bool;
  url_from_directory_path : string → option Url;
  url_to_file_path : Url → bool;
}.

Inductive QueryPolicy : Type := QForbidden | QRequired.
Inductive EndpointTransport : Type := HttpsOnly | HttpOrHttps.

Section endpoint.
Context `{!Urls}.

Definition has_unambiguous_shape (url : Url) (query : QueryPolicy) : bool :=
  let query_allowed :=
    match query, url_query url with
    | QForbidden, None => true
    | QForbidden, Some _ => false
    | QRequired, Some value => negb (bool_decide (value = EmptyString))
    | QRequired, None => false
    end in
  bool_decide (url_username url = EmptyString) && bool_decide (url_password url = None)
  && bool_decide (url_fragment url = None) && query_allowed.

Definition network_endpoint (value : string) (transport : EndpointTransport) : option Url :=
  parsed ← url_parse value;
  let scheme_allowed :=
    match transport with
    | HttpsOnly => bool_decide (url_scheme parsed = "https")
    | HttpOrHttps => bool_decide (url_scheme parsed ∈ ["http"; "https"])
    end in
  if negb scheme_allowed || bool_decide (url_host parsed = None)
     || negb (has_unambiguous_shape parsed QForbidden)
  then None else Some parsed.

Definition https_origin (value : string) : option Url :=
  parsed ← network_endpoint value HttpsOnly;
  if url_cannot_be_a_base parsed || negb (bool_decide (url_path parsed = "/"))
  then None else Some parsed.

Definition validate_https_url (value : string) (query : QueryPolicy) : option Url :=
  parsed ← url_parse value;
  if negb (bool_decide (url_scheme parsed = "https")) || bool_decide (url_host parsed = None)
     || negb (has_unambiguous_shape parsed query)
  then None else Some parsed.

Definition upload_action_url (value : string) : ContractError + Url :=
  ok_or (validate_https_url value QForbidden)
    (EMessage "object-store upload action must be an absolute HTTPS URL without credentials, query material, or a fragment").

Definition capability_url (value : string) : ContractError + Url :=
  ok_or (validate_https_url value QRequired)
    (EMessage "object-store capability must be an absolute HTTPS URL with bearer query material").
End endpoint.

(** ** Slash trimming *)

Fixpoint trim_start_matches (c : ascii) (s : string) : string :=
  match s with
  | EmptyString => EmptyString
  | String a rest => if bool_decide (a = c) then trim_start_matches c rest else s
  end.

Fixpoint trim_end_matches (c : ascii) (s : string) : string :=
  match s with
  | EmptyString => EmptyString
  | String a rest =>
      match trim_end_matches c rest with
      | EmptyString => if bool_decide (a = c) then EmptyString else String a EmptyString
      | rest => String a rest
      end
  end.

Definition trim_matches (c : ascii) (s : string) : string :=
  trim_end_matches c (trim_start_matches c s).

(** ** Limits *)

Definition MAX_DATAFLOW_BODY_BYTES : N := 512 * 1024.
Definition MAX_CAPABILITY_BODY_BYTES : N := 16 * 1024.
Definition GATEWAY_AUTHORIZATION_MEMO_TTL : N := 30.
Definition GATEWAY_REQUEST_TIMEOUT : N := 30.
Definition OBJECT_CAPABILITY_TTL : N := 60.
Definition PRIVATE_OBJECT_RETIREMENT_GRACE : N := OBJECT_CAPABILITY_TTL * 2.
Definition OBJECT_CAPABILITY_DRAIN : N :=
  GATEWAY_AUTHORIZATION_MEMO_TTL + GATEWAY_REQUEST_TIMEOUT + OBJECT_CAPABILITY_TTL.

Definition INPUTS_PATH : string := "/v1/node/inputs".
Definition OUTPUTS_PATH : string := "/v1/node/outputs".
Definition REPORT_PATH : string := "/v1/node/report".

Definition inputs_url (base assignment_sha256 : string) : ContractError + string :=
  _ ← demand (is_canonical_sha256 assignment_sha256)
        (EMessage "assigned-input URL requires a canonical assignment SHA-256");
  inr (String.append (trim_end_matches "/" base)
         (String.append INPUTS_PATH (String.append "/" assignment_sha256))).

Definition outputs_url (base : string) : string :=
  String.append (trim_end_matches "/" base) OUTPUTS_PATH.

Definition report_url (base : string) : string :=
  String.append (trim_end_matches "/" base) REPORT_PATH.

(** ** Files and snapshots *)

(** The standard-alphabet engine of the [base64] crate. *)
Class Base64 : Type := {
  base64_encode : string → string;
  base64_decode : string → option string;
  base64_roundtrip : ∀ b, base64_decode (base64_encode b) = Some b;
}.

(** HMAC-SHA256 (aws-lc-rs) in the hexadecimal spelling of its 32 bytes. *)
Class Hmac : Type := {
  hmac_sha256 : string → string → string;
  hmac_canonical : ∀ key message, is_canonical_sha256 (hmac_sha256 key message) = true;
}.

Record FileValue : Type := mkFileValue { fv_base64 : string }.

#[export] Instance FileValue_eq_dec : EqDecision FileValue.
Proof. solve_decision. Defined.

Definition FileValue_MAX_BYTES : N := 64 * 1024.
Definition MAX_FILES : nat := 64.

Record FileSnapshot : Type := mkFileSnapshot { fs_files : BTreeMap FileValue }.

#[export] Instance FileSnapshot_eq_dec : EqDecision FileSnapshot.
Proof. solve_decision. Defined.

Record InputSelection : Type := mkInputSelection {
  is_generation : string;
  is_object_sha256 : string;
  is_files : BTreeSet;
}.

#[export] Instance InputSelection_eq_dec : EqDecision InputSelection.
Proof. solve_decision. Defined.

Definition InputSelection_default : InputSelection := mkInputSelection EmptyString EmptyString ∅.

Record InputPublication : Type := mkInputPublication {
  ip_schema : N;
  ip_generation : string;
  ip_blinding : string;
  ip_snapshot : FileSnapshot;
}.

Record OutputPublication : Type := mkOutputPublication {
  op_schema : N;
  op_node : string;
  op_deployment : string;
  op_assignment_sha256 : string;
  op_archive_sha256 : string;
  op_snapshot : FileSnapshot;
}.

Record DownloadCapability : Type := mkDownloadCapability {
  dc_schema : N;
  dc_url : string;
  dc_sha256 : string;
}.

Record UploadCapability : Type := mkUploadCapability {
  uc_schema : N;
  uc_url : string;
  uc_fields : BTreeMap string;
}.

(** The JSON of the dataflow documents. *)
Class DataflowJson : Type := {
  json_snapshot :: Serde FileSnapshot;
  json_input_publication :: Serde InputPublication;
  json_output_publication :: Serde OutputPublication;
  json_download :: Serde DownloadCapability;
  json_upload :: Serde UploadCapability;
}.

Section dataflow.
Context `{!Sha256} `{!Base64} `{!Hmac} `{!Urls} `{!DataflowJson}.

Definition bounded_json {T} `{!Serde T} (value : T) (what : string) : ContractError + string :=
  bounded_encode value what MAX_DATAFLOW_BODY_BYTES.

Definition FileValue_from_bytes (bytes : string) : ContractError + FileValue :=
  _ ← demand (str_len bytes <=? FileValue_MAX_BYTES)%N
        (EPastLimit "dataflow file" (str_len bytes) FileValue_MAX_BYTES);
  inr (mkFileValue (base64_encode bytes)).

Definition FileValue_bytes (v : FileValue) : ContractError + string :=
  bytes ← ok_or (base64_decode (fv_base64 v)) (EMessage "dataflow file is not canonical base64");
  _ ← demand (negb ((FileValue_MAX_BYTES <? str_len bytes)%N
                    || negb (bool_decide (base64_encode bytes = fv_base64 v))))
        (EMessage "dataflow file is oversized or not canonical base64");
  inr bytes.

Definition FileSnapshot_is_empty (s : FileSnapshot) : bool := bool_decide (fs_files s = ∅).

Definition valid_name (name : string) : bool := is_segment name.

Definition FileSnapshot_check_file (x : string * FileValue) : ContractError + unit :=
  _ ← demand (valid_name x.1) (EFileName x.1);
  _ ← FileValue_bytes x.2;
  inr tt.

Definition FileSnapshot_validate (s : FileSnapshot) : ContractError + unit :=
  _ ← demand (size (fs_files s) <=? MAX_FILES)%nat
        (EPastLimit "dataflow snapshot" (N.of_nat (size (fs_files s))) (N.of_nat MAX_FILES));
  _ ← each FileSnapshot_check_file (bt_iter (fs_files s));
  _ ← bounded_json s "dataflow snapshot";
  inr tt.

Definition InputSelection_is_empty (s : InputSelection) : bool := bool_decide (is_files s = ∅).

Definition InputSelection_validate (s : InputSelection) : ContractError + unit :=
  let generation_is_canonical := is_canonical_sha256 (is_generation s) in
  let object_sha256_is_canonical := is_canonical_sha256 (is_object_sha256 s) in
  let empty := InputSelection_is_empty s in
  demand (negb ((MAX_FILES <? size (is_files s))%nat
                || existsb (λ name, negb (valid_name name)) (bt_elements (is_files s))
                || negb (Bool.eqb empty (bool_decide (is_generation s = EmptyString)))
                || negb (Bool.eqb empty (bool_decide (is_object_sha256 s = EmptyString)))
                || (negb empty && (negb generation_is_canonical || negb object_sha256_is_canonical))))
    (EMessage "dataflow input selection is invalid").

Definition validate_selection (s : FileSnapshot) (selection : InputSelection) : ContractError + unit :=
  _ ← InputSelection_validate selection;
  _ ← FileSnapshot_validate s;
  demand (bool_decide (dom (fs_files s) = is_files selection))
    (EMessage "dataflow snapshot does not match the signed input selection").

Definition KEY_BYTES : N := 32.

Definition opaque_generation (s : FileSnapshot) (key : string) : ContractError + string :=
  _ ← demand (KEY_BYTES <=? str_len key)%N
        (EMessage "dataflow generation key must be at least 32 bytes");
  _ ← FileSnapshot_validate s;
  encoded ← ok_or (to_vec s) ESerde;
  inr (hmac_sha256 key encoded).

(** ** Publications *)

Definition InputPublication_SCHEMA : N := 1.
Definition BLINDING_DOMAIN : string :=
  String.append "updated-input-publication-v1" (String Ascii.zero EmptyString).

Definition InputPublication_validate (p : InputPublication) : ContractError + unit :=
  _ ← demand (negb (negb (ip_schema p =? InputPublication_SCHEMA)%N
                    || negb (is_canonical_sha256 (ip_generation p))
                    || negb (is_canonical_sha256 (ip_blinding p))
                    || FileSnapshot_is_empty (ip_snapshot p)))
        (EMessage "dataflow input publication identity is invalid");
  _ ← FileSnapshot_validate (ip_snapshot p);
  _ ← bounded_json p "dataflow input publication";
  inr tt.

Definition from_snapshot (snapshot : FileSnapshot) (key : string) : ContractError + InputPublication :=
  _ ← demand (negb (FileSnapshot_is_empty snapshot))
        (EMessage "an empty input snapshot has no private publication");
  _ ← demand (KEY_BYTES <=? str_len key)%N
        (EMessage "dataflow generation key must be at least 32 bytes");
  _ ← FileSnapshot_validate snapshot;
  encoded ← ok_or (to_vec snapshot) ESerde;
  generation ← opaque_generation snapshot key;
  let blinding := hmac_sha256 key (String.append BLINDING_DOMAIN encoded) in
  let publication := mkInputPublication InputPublication_SCHEMA generation blinding snapshot in
  _ ← InputPublication_validate publication;
  inr publication.

Definition InputPublication_to_bounded_body (p : InputPublication) : ContractError + string :=
  _ ← InputPublication_validate p;
  bounded_json p "dataflow input publication".

Definition selection (p : InputPublication) : ContractError + InputSelection :=
  body ← InputPublication_to_bounded_body p;
  inr (mkInputSelection (ip_generation p) (sha256_bytes body) (dom (fs_files (ip_snapshot p)))).

Definition from_bounded_body (bytes : string) (sel : InputSelection) : ContractError + InputPublication :=
  _ ← InputSelection_validate sel;
  _ ← demand (negb (InputSelection_is_empty sel
                    || (MAX_DATAFLOW_BODY_BYTES <? str_len bytes)%N
                    || negb (bool_decide (sha256_bytes bytes = is_object_sha256 sel))))
        (EMessage "dataflow input publication does not match the signed selection");
  publication ← ok_or (from_slice bytes) (EDecoding "dataflow input publication");
  _ ← InputPublication_validate publication;
  _ ← demand (bool_decide (ip_generation publication = is_generation sel))
        (EMessage "dataflow input publication generation does not match the signed selection");
  _ ← validate_selection (ip_snapshot publication) sel;
  inr publication.

Definition OutputPublication_SCHEMA : N := 2.

Definition OutputPublication_validate (p : OutputPublication) (node : string) : ContractError + unit :=
  _ ← demand (negb (negb (op_schema p =? OutputPublication_SCHEMA)%N
                    || negb (bool_decide (op_node p = node))
                    || negb (is_segment (op_deployment p))
                    || negb (is_canonical_sha256 (op_assignment_sha256 p))
                    || negb (is_canonical_sha256 (op_archive_sha256 p))))
        (EMessage "dataflow output publication identity is invalid");
  _ ← FileSnapshot_validate (op_snapshot p);
  _ ← bounded_json p "dataflow output publication";
  inr tt.

Definition OutputPublication_to_bounded_body (p : OutputPublication) : ContractError + string :=
  _ ← OutputPublication_validate p (op_node p);
  bounded_json p "dataflow output publication".

(** ** Capabilities *)

Definition DownloadCapability_SCHEMA : N := 1.

Definition DownloadCapability_bounded_json (c : DownloadCapability) : ContractError + string :=
  _ ← demand (dc_schema c =? DownloadCapability_SCHEMA)%N
        (EMessage "object download capability schema is unsupported");
  _ ← capability_url (dc_url c);
  _ ← demand (is_canonical_sha256 (dc_sha256 c))
        (EMessage "object download capability sha256 must be 64 lowercase hexadecimal characters");
  bounded_encode c "object download capability" MAX_CAPABILITY_BODY_BYTES.

Definition DownloadCapability_validate (c : DownloadCapability) : ContractError + unit :=
  _ ← DownloadCapability_bounded_json c; inr tt.

Definition DownloadCapability_from_bounded_json (bytes : string) : ContractError + DownloadCapability :=
  capability ← bounded_decode bytes "object download capability" MAX_CAPABILITY_BODY_BYTES;
  _ ← DownloadCapability_validate capability;
  inr capability.

Definition UploadCapability_SCHEMA : N := 1.
Definition REQUIRED : list string :=
  ["key"; "policy"; "x-amz-algorithm"; "x-amz-credential"; "x-amz-date"; "x-amz-signature"].

(** The check over the six required fields; [None] is the panic of an absent index. *)
Definition upload_fields_malformed (fields : BTreeMap string) : option bool :=
  algorithm ← fields !! "x-amz-algorithm";
  key ← fields !! "key";
  policy ← fields !! "policy";
  credential ← fields !! "x-amz-credential";
  date ← fields !! "x-amz-date";
  signature ← fields !! "x-amz-signature";
  Some (negb (bool_decide (algorithm = "AWS4-HMAC-SHA256"))
        || negb (is_confined_relative key)
        || (1024 <? str_len key)%N
        || (8 * 1024 <? str_len policy)%N
        || (1024 <? str_len credential)%N
        || negb (str_len date =? 16)%N
        || negb (is_canonical_sha256 signature)
        || match fields !! "x-amz-security-token" with
           | Some token => bool_decide (token = EmptyString) || (8 * 1024 <? str_len token)%N
           | None => false
           end).

Definition UploadCapability_validate (c : UploadCapability) : option (ContractError + unit) :=
  let fields := uc_fields c in
  if negb (uc_schema c =? UploadCapability_SCHEMA)%N
  then Some (inl (EMessage "object-store capability schema is unsupported"))
  else match upload_action_url (uc_url c) with
  | inl e => Some (inl e)
  | inr _ =>
      if (size fields <? length REQUIRED)%nat || (length REQUIRED + 1 <? size fields)%nat
         || existsb (λ field, negb (bool_decide (field ∈ REQUIRED))
                              && negb (bool_decide (field = "x-amz-security-token"))) (bt_keys fields)
         || existsb (λ field, match fields !! field with
                              | Some value => bool_decide (value = EmptyString)
                              | None => true
                              end) REQUIRED
      then Some (inl (EMessage "object-store upload capability has an invalid field set"))
      else
        malformed ← upload_fields_malformed fields;
        if (malformed : bool)
        then Some (inl (EMessage "object-store upload capability fields are malformed"))
        else
          policy ← fields !! "policy";
          Some (_ ← ok_or (base64_decode policy)
                      (EMessage "object-store upload capability policy is invalid base64");
                _ ← bounded_encode c "object-store upload capability" MAX_CAPABILITY_BODY_BYTES;
                inr tt)
  end.

(** ** Lemmas *)

Lemma is_canonical_nonempty v : is_canonical_sha256 v = true → v ≠ EmptyString.
Proof. by intros Hc ->. Qed.

Lemma elem_of_bt_elements (X : BTreeSet) x : x ∈ bt_elements X ↔ x ∈ X.
Proof. unfold bt_elements. rewrite merge_sort_Permutation. apply elem_of_elements. Qed.

(** What a validated snapshot holds. *)
Record snapshot_ok (s : FileSnapshot) : Prop := {
  so_size : (size (fs_files s) ≤ MAX_FILES)%nat;
  so_names : ∀ name v, fs_files s !! name = Some v → valid_name name = true;
  so_files : ∀ name v, fs_files s !! name = Some v →
    ∃ bytes, FileValue_bytes v = inr bytes ∧ (str_len bytes ≤ FileValue_MAX_BYTES)%N;
  so_encodes : ∃ bytes, to_vec s = Some bytes ∧ (str_len bytes ≤ MAX_DATAFLOW_BODY_BYTES)%N;
}.

Lemma FileValue_bytes_bound v bytes :
  FileValue_bytes v = inr bytes →
  (str_len bytes ≤ FileValue_MAX_BYTES)%N ∧ fv_base64 v = base64_encode bytes.
Proof.
  unfold FileValue_bytes. intros Hb. sum_inv. bool_to_prop. rewrite N.ltb_ge in *. done.
Qed.

(** A file value is exactly the bytes it was made from. *)
Lemma FileValue_roundtrip bytes v :
  FileValue_from_bytes bytes = inr v → FileValue_bytes v = inr bytes.
Proof.
  unfold FileValue_from_bytes, FileValue_bytes. intros Hf. sum_inv. simpl.
  rewrite base64_roundtrip. simpl. rewrite bool_decide_true by done. simpl.
  match goal with Hl : (_ <=? _)%N = true |- _ => apply N.leb_le in Hl end.
  by rewrite (proj2 (N.ltb_ge _ _)).
Qed.

Lemma FileSnapshot_validate_inr s u : FileSnapshot_validate s = inr u ↔ snapshot_ok s.
Proof.
  destruct u. unfold FileSnapshot_validate, FileSnapshot_check_file. split.
  - intros Hv. sum_inv. rename select (∀ x, _ → _) into Hall.
    rename select (bounded_json _ _ = _) into Henc. apply bounded_encode_inr in Henc.
    split; [by apply Nat.leb_le| | |by eexists].
    + intros name v Hn%elem_of_bt_iter%Hall. sum_inv. done.
    + intros name v Hn%elem_of_bt_iter%Hall. sum_inv. eexists. split; [done|].
      by eapply FileValue_bytes_bound.
  - intros [Hs Hn Hf (bytes & Hv & Hb)]. sum_ok ltac:(by apply Nat.leb_le).
    rewrite (proj2 (each_inr _ _ tt)); cbn.
    + unfold bounded_json. by rewrite (proj2 (bounded_encode_inr s _ _ bytes)).
    + intros [name v] Hin%elem_of_bt_iter. cbn. sum_ok ltac:(by eapply Hn).
      destruct (Hf _ _ Hin) as (b & -> & _). done.
Qed.

(** The empty file, the witness the input-name grammar is asked through. *)
Lemma FileValue_from_bytes_empty :
  FileValue_from_bytes EmptyString = inr (mkFileValue (base64_encode EmptyString)).
Proof. done. Qed.

Lemma InputSelection_validate_inr s u :
  InputSelection_validate s = inr u ↔
  s = InputSelection_default
  ∨ (is_files s ≠ ∅ ∧ (size (is_files s) ≤ MAX_FILES)%nat
     ∧ (∀ name, name ∈ is_files s → valid_name name = true)
     ∧ is_canonical_sha256 (is_generation s) = true
     ∧ is_canonical_sha256 (is_object_sha256 s) = true).
Proof.
  unfold InputSelection_validate, InputSelection_is_empty. rewrite demand_inr. split.
  - intros Hv. bool_to_prop. rename select (existsb _ _ = false) into Hnames.
    repeat match goal with Hb : _ && _ = false |- _ => apply andb_false_iff in Hb | Hb : Bool.eqb _ _ = true |- _ => apply eqb_prop in Hb end.
    case_bool_decide as He.
    + left. destruct s as [g o f]. simpl in *. subst f.
      repeat match goal with Hb : true = bool_decide _ |- _ => symmetry in Hb end. bool_to_prop. by subst.
    + right. rename select (negb _ = false ∨ _) into Hc. destruct Hc as [?|Hc]; [done|]. bool_to_prop.
      split_and!; [done|by apply Nat.ltb_ge| |done|done].
      intros name Hn%elem_of_bt_elements. destruct (valid_name name) eqn:Hvn; [done|].
      rewrite <-Hnames. apply existsb_elem. exists name. by rewrite Hvn.
  - intros [->|(He & Hs & Hn & Hg & Ho)]; [by vm_compute|].
    rewrite (bool_decide_false _ He), Hg, Ho, !bool_decide_false by (by apply is_canonical_nonempty).
    rewrite (proj2 (Nat.ltb_ge _ _) Hs). simpl.
    destruct (existsb _ _) eqn:Hex; [|done]. apply existsb_elem in Hex as (x & Hx & Hnx).
    rewrite elem_of_bt_elements in Hx. by rewrite (Hn x Hx) in Hnx.
Qed.

Lemma InputPublication_validate_inr p u :
  InputPublication_validate p = inr u ↔
  ip_schema p = InputPublication_SCHEMA ∧ is_canonical_sha256 (ip_generation p) = true
  ∧ is_canonical_sha256 (ip_blinding p) = true ∧ fs_files (ip_snapshot p) ≠ ∅
  ∧ snapshot_ok (ip_snapshot p)
  ∧ ∃ body, to_vec p = Some body ∧ (str_len body ≤ MAX_DATAFLOW_BODY_BYTES)%N.
Proof.
  destruct u. unfold InputPublication_validate, FileSnapshot_is_empty, bounded_json. split.
  - intros Hv. sum_inv. bool_to_prop. rewrite FileSnapshot_validate_inr, N.eqb_eq in *.
    rename select (bounded_encode _ _ _ = _) into Henc. apply bounded_encode_inr in Henc.
    split_and!; try done. by eexists.
  - intros (Hs & Hg & Hb & Hne & Hok%(FileSnapshot_validate_inr _ tt) & body & Hbody).
    rewrite Hs, Hg, Hb, N.eqb_refl, (bool_decide_false _ Hne). simpl. rewrite Hok. simpl.
    by rewrite (proj2 (bounded_encode_inr p _ _ body)).
Qed.

Lemma to_bounded_body_inr p body :
  InputPublication_to_bounded_body p = inr body ↔
  InputPublication_validate p = inr tt ∧ to_vec p = Some body.
Proof.
  unfold InputPublication_to_bounded_body, bounded_json. split.
  - intros Hb. sum_inv. apply bounded_encode_inr in Hb. tauto.
  - intros [Hv Hb]. rewrite Hv. simpl. apply bounded_encode_inr. split; [done|].
    apply InputPublication_validate_inr in Hv as (_ & _ & _ & _ & _ & b & Hb' & Hl). congruence.
Qed.

Lemma from_snapshot_inr snapshot key p :
  from_snapshot snapshot key = inr p →
  ip_snapshot p = snapshot ∧ InputPublication_validate p = inr tt.
Proof. unfold from_snapshot. intros Hf. sum_inv. done. Qed.

Lemma selection_inr p sel :
  selection p = inr sel ↔
  ∃ body, InputPublication_to_bounded_body p = inr body
    ∧ sel = mkInputSelection (ip_generation p) (sha256_bytes body) (dom (fs_files (ip_snapshot p))).
Proof.
  unfold selection. rewrite sum_bind_inr. split; intros (body & ? & Heq); exists body; naive_solver.
Qed.

(** The selection of a publication is one a signed assignment may carry. *)
Lemma selection_validates p sel :
  selection p = inr sel → InputSelection_validate sel = inr tt ∧ is_files sel ≠ ∅.
Proof.
  intros (body & [Hv _]%to_bounded_body_inr & ->)%selection_inr.
  apply InputPublication_validate_inr in Hv as (_ & Hg & _ & Hne & Hok & _).
  assert (dom (fs_files (ip_snapshot p)) ≠ ∅) as Hdom by by rewrite dom_empty_iff_L.
  split; [|done]. apply InputSelection_validate_inr. right. simpl. split_and!; try done.
  - rewrite size_dom. by apply so_size.
  - intros name [v Hn]%elem_of_dom. by eapply so_names.
  - apply sha256_canonical.
Qed.

Lemma from_bounded_body_inr bytes sel p :
  from_bounded_body bytes sel = inr p ↔
  InputSelection_validate sel = inr tt ∧ is_files sel ≠ ∅
  ∧ (str_len bytes ≤ MAX_DATAFLOW_BODY_BYTES)%N ∧ sha256_bytes bytes = is_object_sha256 sel
  ∧ from_slice bytes = Some p ∧ InputPublication_validate p = inr tt
  ∧ ip_generation p = is_generation sel ∧ dom (fs_files (ip_snapshot p)) = is_files sel.
Proof.
  unfold from_bounded_body, validate_selection, InputSelection_is_empty. split.
  - intros Hb. sum_inv. bool_to_prop. rewrite N.ltb_ge in *. tauto.
  - intros (Hsel & Hne & Hlen & Hsha & Hp & Hv & Hg & Hd). rewrite Hsel. simpl.
    rewrite (bool_decide_false _ Hne), (proj2 (N.ltb_ge _ _) Hlen), (bool_decide_true _ Hsha). simpl.
    rewrite Hp. simpl. rewrite Hv. simpl. rewrite (bool_decide_true _ Hg). simpl.
    apply InputPublication_validate_inr in Hv as (_ & _ & _ & _ & Hok%(FileSnapshot_validate_inr _ tt) & _).
    rewrite Hok. simpl. by rewrite (bool_decide_true _ Hd).
Qed.

(** Input publications are exact.  The body and the selection of a publication the
    controller made exist, the selection is one a signed assignment may carry, the node reads
    back from the body under it the very publication with the controller's snapshot, and any
    other body the node accepts under that selection is a SHA-256 collision with it. *)
Lemma input_publication_is_exact snapshot key p :
  from_snapshot snapshot key = inr p →
  ∃ body sel,
    InputPublication_to_bounded_body p = inr body ∧ selection p = inr sel
    ∧ InputSelection_validate sel = inr tt ∧ ip_snapshot p = snapshot
    ∧ from_bounded_body body sel = inr p
    ∧ ∀ bytes q, from_bounded_body bytes sel = inr q →
        q = p ∨ (bytes ≠ body ∧ sha256_bytes bytes = sha256_bytes body).
Proof.
  intros [Hsnap Hv]%from_snapshot_inr.
  pose proof (proj1 (InputPublication_validate_inr _ _) Hv) as (_ & _ & _ & _ & _ & body & Hbody & Hlen).
  assert (InputPublication_to_bounded_body p = inr body) as Hto by by apply to_bounded_body_inr.
  set (sel := mkInputSelection (ip_generation p) (sha256_bytes body) (dom (fs_files (ip_snapshot p)))).
  assert (selection p = inr sel) as Hsel by (apply selection_inr; by exists body).
  destruct (selection_validates _ _ Hsel) as [Hvs Hne]. exists body, sel. split_and!; try done.
  - apply from_bounded_body_inr. split_and!; try done. by apply serde_roundtrip.
  - intros bytes q (_ & _ & _ & Hsha & Hq & _)%from_bounded_body_inr.
    destruct (decide (bytes = body)) as [->|]; [|by right].
    rewrite (serde_roundtrip _ _ Hbody) in Hq. left. congruence.
Qed.

(** An upload capability is judged without a panic: every index it takes was required. *)
Lemma UploadCapability_validate_total c : is_Some (UploadCapability_validate c).
Proof.
  unfold UploadCapability_validate. destruct (negb _); [by eexists|].
  destruct (upload_action_url _); [by eexists|]. destruct (_ || _ || _ || _) eqn:Hf; [by eexists|].
  bool_to_prop. rename select (existsb _ REQUIRED = false) into Hreq.
  assert (∀ k, k ∈ REQUIRED → is_Some (uc_fields c !! k)) as Hall.
  { intros k Hk. destruct (uc_fields c !! k) eqn:Hl; [by eexists|]. rewrite <-not_true_iff_false in Hreq.
    destruct Hreq. apply existsb_elem. exists k. by rewrite Hl. }
  unfold upload_fields_malformed.
  repeat match goal with |- context [uc_fields c !! ?k] =>
    match k with "x-amz-security-token" => fail 1 | _ =>
    destruct (Hall k ltac:(unfold REQUIRED; set_solver)) as [? ->] end end.
  cbn. destruct (_ || _); by eexists.
Qed.

End dataflow.
