(* ===== verification/Telemetry.v ===== *)
(** * Telemetry: node reports and what the control plane may believe of them

    Models the report half of [updated-contracts/src/telemetry.rs] (shape, freshness,
    convergence, attribution) and [updatec/src/evidence.rs] (the cache of authenticity
    verdicts and the cross-pass memory of rejections).  Signature verification, base64 and
    JSON are outside the repository: they are the parameters of the class [Signed].  The
    sub-records a report embeds are seen only through their own validators: [ReportParts]. *)
From S2P Require Import Prelude Identity Maps.

(** ** Reports *)

Class ReportParts : Type := {
  Attention : Type;
  attention_valid : Attention → bool;
  HelperSupport : Type;
  helper_valid : HelperSupport → bool;
  LastReconciliation : Type;
  lr_version : LastReconciliation → string;
  lr_archive_sha256 : LastReconciliation → string;
  lr_definition_sha256 : LastReconciliation → string;
}.

Record Fingerprint : Type := mkFingerprint {
  fp_definition_sha256 : string;
  fp_output_sha256 : string;
}.

Definition Fingerprint_is_wellformed (f : Fingerprint) : bool :=
  is_canonical_sha256 (fp_definition_sha256 f) && is_canonical_sha256 (fp_output_sha256 f).

Section reports.
Context `{ReportParts} `{Semver}.

Record NodeReport : Type := mkNodeReport {
  nr_attention : option Attention;
  nr_helper : option HelperSupport;
  nr_schema : N;
  nr_node : string;
  nr_deployment : string;
  nr_assignment_sha256 : string;
  nr_version : string;
  nr_archive_sha256 : string;
  nr_definition_sha256 : string;
  nr_healthy : bool;
  nr_updating : bool;
  nr_rejected : bool;
  nr_reported_at_ms : N;
  nr_fingerprint : option Fingerprint;
  nr_output_sha256 : option string;
  nr_reconciliation : option LastReconciliation;
}.

Definition SCHEMA : N := 12.

Definition is_empty (s : string) : bool := bool_decide (s = EmptyString).

Definition option_some_and {A} (p : A → bool) (o : option A) : bool :=
  match o with Some a => p a | None => false end.

Definition shape_error (r : NodeReport) : option string :=
  if option_some_and (λ a, nr_healthy r || negb (attention_valid a)) (nr_attention r)
  then Some "invalid operator attention report"%string
  else if option_some_and (λ h, negb (helper_valid h)) (nr_helper r)
  then Some "invalid helper capability report"%string
  else if negb (nr_schema r =? SCHEMA)%N then Some "unknown schema"%string
  else if negb (is_segment (nr_deployment r)) then Some "invalid deployment identity"%string
  else if (nr_reported_at_ms r =? 0)%N then Some "missing report timestamp"%string
  else if negb (Bool.eqb (is_empty (nr_version r)) (is_empty (nr_archive_sha256 r)))
  then Some "version and archive identity are incomplete"%string
  else if negb (is_empty (nr_version r)) && negb (is_release_version (nr_version r))
  then Some "invalid release version"%string
  else if negb (Bool.eqb (is_empty (nr_archive_sha256 r)) (is_empty (nr_definition_sha256 r)))
  then Some "archive and execution identity are incomplete"%string
  else if nr_healthy r && is_empty (nr_archive_sha256 r)
  then Some "healthy report has no installed release"%string
  else if nr_healthy r && nr_updating r then Some "report is both healthy and updating"%string
  else if negb (is_empty (nr_archive_sha256 r)) && negb (is_canonical_sha256 (nr_archive_sha256 r))
  then Some "invalid archive digest"%string
  else if negb (is_empty (nr_definition_sha256 r))
          && negb (is_canonical_sha256 (nr_definition_sha256 r))
  then Some "invalid execution definition digest"%string
  else if negb (is_empty (nr_assignment_sha256 r))
          && negb (is_canonical_sha256 (nr_assignment_sha256 r))
  then Some "invalid assignment digest"%string
  else if option_some_and (λ f, negb (Fingerprint_is_wellformed f)) (nr_fingerprint r)
  then Some "invalid fingerprint"%string
  else if option_some_and (λ d, negb (is_canonical_sha256 d)) (nr_output_sha256 r)
  then Some "invalid output digest"%string
  else if negb (nr_healthy r)
          && (bool_decide (is_Some (nr_fingerprint r)) || bool_decide (is_Some (nr_output_sha256 r)))
  then Some "unhealthy report carries healthy-only evidence"%string
  else match nr_reconciliation r with
       | None =>
           if is_empty (nr_version r) || bool_decide (is_Some (nr_attention r)) then None
           else Some "installed release has no reconciliation evidence"%string
       | Some record =>
           if is_empty (nr_version r)
           then Some "reconciliation evidence has no installed release"%string
           else if negb (bool_decide (lr_version record = nr_version r))
                   || negb (bool_decide (lr_archive_sha256 record = nr_archive_sha256 r))
                   || negb (bool_decide (lr_definition_sha256 record = nr_definition_sha256 r))
           then Some "reconciliation evidence names a different release"%string
           else None
       end.

Definition is_wellformed (r : NodeReport) : bool := bool_decide (shape_error r = None).

(** Both windows are sixty seconds, in milliseconds. *)
Definition REPORT_FRESHNESS : N := 60000.
Definition REPORT_MAX_SKEW : N := 60000.

Definition is_fresh (r : NodeReport) (now_ms : N) : bool :=
  negb (now_ms =? 0)%N
  && (nr_reported_at_ms r <=? saturating_add u64_max now_ms REPORT_MAX_SKEW)%N
  && (now_ms - nr_reported_at_ms r <=? REPORT_FRESHNESS)%N.

Definition is_converged_to (r : NodeReport) (assignment_sha256 archive_sha256 : string) : bool :=
  is_wellformed r && nr_healthy r && negb (nr_rejected r)
  && bool_decide (nr_assignment_sha256 r = assignment_sha256)
  && bool_decide (nr_archive_sha256 r = archive_sha256).

(** [AuthenticReport::fresh] and [AuthenticReport::rejected_assignment]: the only two reads. *)
Definition authentic_fresh (r : NodeReport) (now_ms : N) : option NodeReport :=
  if is_fresh r now_ms then Some r else None.

Definition authentic_rejected (r : NodeReport) : option string :=
  if nr_rejected r then Some (nr_assignment_sha256 r) else None.

(** ** Authentication *)

(** A signed envelope, the pinned keys, whether some signature of the envelope verifies its
    decoded payload under a key, and the payload's JSON. *)
Class Signed : Type := {
  Envelope : Type;
  Envelope_eq_dec :: EqDecision Envelope;
  P256PublicKey : Type;
  P256PublicKey_eq_dec :: EqDecision P256PublicKey;
  decode_report_payload : Envelope → option string;
  signature_verifies : Envelope → P256PublicKey → string → bool;
  report_from_slice : string → option NodeReport;
}.
Context `{Signed}.

Definition parse_attributed_payload (payload node : string) : option NodeReport :=
  report ← report_from_slice payload;
  if bool_decide (nr_node report = node) && is_wellformed report then Some report else None.

Definition authenticate_report (envelope : Envelope) (expected_node : string)
    (public_key : P256PublicKey) : option NodeReport :=
  payload ← decode_report_payload envelope;
  if signature_verifies envelope public_key payload
  then parse_attributed_payload payload expected_node
  else None.

(** ** The cache of authenticity verdicts *)

Record VerifiedEntry : Type := mkVerifiedEntry {
  ve_key : P256PublicKey;
  ve_envelope : Envelope;
  ve_report : option NodeReport;
}.

Record VerifiedReports : Type := mkVerifiedReports {
  entries : gmap string VerifiedEntry;
  verifications : N;
}.

Definition entry_matches (envelope : Envelope) (key : P256PublicKey) (e : VerifiedEntry) : bool :=
  bool_decide (ve_envelope e = envelope) && bool_decide (ve_key e = key).

Definition authentic (v : VerifiedReports) (node : string) (envelope : Envelope)
    (key : P256PublicKey) : option NodeReport :=
  entry ← entries v !! node;
  if entry_matches envelope key entry then ve_report entry else None.

Definition verified_fresh (v : VerifiedReports) (node : string) (envelope : Envelope)
    (key : P256PublicKey) (now_ms : N) : option NodeReport :=
  report ← authentic v node envelope key;
  authentic_fresh report now_ms.

Definition verified_rejected_assignment (v : VerifiedReports) (node : string)
    (envelope : Envelope) (key : P256PublicKey) : option string :=
  report ← authentic v node envelope key;
  authentic_rejected report.

(** What [verify_fleet] has to verify: a report and a pinned key, not already cached. *)
Definition pending_verdict (v : VerifiedReports) (public_keys : gmap string P256PublicKey)
    (node : string) (envelope : Envelope) : option VerifiedEntry :=
  key ← public_keys !! node;
  if option_some_and (entry_matches envelope key) (entries v !! node) then None
  else Some (mkVerifiedEntry key envelope (authenticate_report envelope node key)).

Definition verify_fleet (reports : gmap string Envelope)
    (public_keys : gmap string P256PublicKey) (v : VerifiedReports) : VerifiedReports :=
  let pending := map_imap (pending_verdict v public_keys) reports in
  mkVerifiedReports (pending ∪ entries v) (verifications v + N.of_nat (size pending)).

Definition verified_prune_nodes (fleet : string → bool) (v : VerifiedReports) : VerifiedReports :=
  mkVerifiedReports (filter (λ x, fleet x.1 = true) (entries v)) (verifications v).

(** Every cached verdict is the one its own bytes, key and node give. *)
Definition cache_sound (v : VerifiedReports) : Prop :=
  ∀ node e, entries v !! node = Some e →
  ve_report e = authenticate_report (ve_envelope e) node (ve_key e).

Lemma entry_matches_true envelope key e :
  entry_matches envelope key e = true ↔ ve_envelope e = envelope ∧ ve_key e = key.
Proof. unfold entry_matches. by rewrite andb_true_iff, !bool_decide_eq_true. Qed.

Lemma pending_lookup reports public_keys v node :
  map_imap (pending_verdict v public_keys) reports !! node
  = reports !! node ≫= pending_verdict v public_keys node.
Proof. apply map_lookup_imap. Qed.

Lemma verify_fleet_sound reports public_keys v :
  cache_sound v → cache_sound (verify_fleet reports public_keys v).
Proof.
  intros Hs node e. unfold verify_fleet. simpl. rewrite lookup_union_Some_raw, pending_lookup.
  intros [Hp|[_ He]]; [|by apply Hs].
  destruct (reports !! node) as [env|]; simpl in Hp; [|done]. unfold pending_verdict in Hp.
  destruct (public_keys !! node) as [key|]; simpl in Hp; [|done].
  destruct (option_some_and _ _); [done|]. by injection Hp as <-.
Qed.

Lemma verify_fleet_warm reports public_keys v node env key :
  reports !! node = Some env → public_keys !! node = Some key →
  ∃ e, entries (verify_fleet reports public_keys v) !! node = Some e
       ∧ entry_matches env key e = true.
Proof.
  intros Hr Hk. unfold verify_fleet. simpl.
  destruct (pending_verdict v public_keys node env) as [e|] eqn:Hp.
  - exists e. split.
    + apply lookup_union_Some_raw. left. by rewrite pending_lookup, Hr.
    + unfold pending_verdict in Hp. rewrite Hk in Hp. simpl in Hp.
      destruct (option_some_and _ _); [done|]. injection Hp as <-. by apply entry_matches_true.
  - unfold pending_verdict in Hp. rewrite Hk in Hp. simpl in Hp.
    destruct (entries v !! node) as [e|] eqn:He; simpl in Hp; [|done].
    destruct (entry_matches env key e) eqn:Hm; [|done]. exists e. split; [|done].
    apply lookup_union_Some_raw. right. split; [|done]. rewrite pending_lookup, Hr. simpl.
    unfold pending_verdict. rewrite Hk, He. simpl. by rewrite Hm.
Qed.

(** The verdict cache is invisible: after a pass's one verification, reading any node
    that has a report and a pinned key answers exactly what authenticating its current bytes
    under its current key answers, whatever the cache held before; the cache stays sound, and
    verifying the same fleet again verifies nothing. *)
Lemma verified_reports_are_transparent reports public_keys v :
  cache_sound v →
  cache_sound (verify_fleet reports public_keys v)
  ∧ (∀ node env key, reports !! node = Some env → public_keys !! node = Some key →
       authentic (verify_fleet reports public_keys v) node env key
       = authenticate_report env node key)
  ∧ verifications (verify_fleet reports public_keys (verify_fleet reports public_keys v))
    = verifications (verify_fleet reports public_keys v).
Proof.
  intros Hs. split_and!; [by apply verify_fleet_sound|..].
  - intros node env key Hr Hk.
    destruct (verify_fleet_warm reports public_keys v node env key Hr Hk) as (e & He & Hm).
    unfold authentic. rewrite He. simpl. rewrite Hm.
    apply entry_matches_true in Hm as [<- <-]. by apply (verify_fleet_sound reports public_keys v).
  - set (v' := verify_fleet reports public_keys v).
    assert (map_imap (pending_verdict v' public_keys) reports = ∅) as Hnone.
    2:{ change (verifications v' + N.of_nat (size (map_imap (pending_verdict v' public_keys) reports))
                = verifications v')%N. rewrite Hnone, map_size_empty. lia. }
    apply map_empty. intros node. rewrite pending_lookup.
    destruct (reports !! node) as [env|] eqn:Hr; [|done]. cbn [mbind option_bind].
    unfold pending_verdict. destruct (public_keys !! node) as [key|] eqn:Hk; [|done].
    destruct (verify_fleet_warm reports public_keys v node env key Hr Hk) as (e & He & Hm).
    fold v' in He. cbn [mbind option_bind]. rewrite He. cbn. by rewrite Hm.
Qed.

(** ** Cross-pass memory *)

Record ObservationLog : Type := mkObservationLog {
  reported : BTreeSet;
  rejections : gset (string * string);
}.

Definition note_reported (nodes : list string) (o : ObservationLog) : ObservationLog :=
  mkObservationLog (reported o ∪ list_to_set nodes) (rejections o).

Definition has_reported (node : string) (o : ObservationLog) : bool :=
  bool_decide (node ∈ reported o).

Definition note_rejection (node identity : string) (o : ObservationLog) : ObservationLog :=
  mkObservationLog (reported o) ({[ (node, identity) ]} ∪ rejections o).

Definition provers (identity : string) (o : ObservationLog) : BTreeSet :=
  set_map fst (filter (λ x : string * string, x.2 = identity) (rejections o)).

Definition prune_identities (live : string → bool) (o : ObservationLog) : ObservationLog :=
  mkObservationLog (reported o) (filter (λ x : string * string, live x.2 = true) (rejections o)).

Definition prune_nodes (fleet : string → bool) (o : ObservationLog) : ObservationLog :=
  mkObservationLog (filter (λ n, fleet n = true) (reported o))
    (filter (λ x : string * string, fleet x.1 = true) (rejections o)).

Lemma elem_of_provers node identity o :
  node ∈ provers identity o ↔ (node, identity) ∈ rejections o.
Proof.
  unfold provers. rewrite elem_of_map. split.
  - intros ([n i] & -> & Hf). apply elem_of_filter in Hf as [Hi ?]. simpl in *. by subst.
  - intros Hin. exists (node, identity). split; [done|]. by apply elem_of_filter.
Qed.

End reports.

Arguments NodeReport : clear implicits.
Arguments NodeReport {_}.
