(* ===== verification/Window.v ===== *)
(** * Window: rollout schedules

    Models [updatec/src/window.rs]: recurring UTC windows and dated calendars.  Dates are day
    numbers since 1970-01-01 (a Thursday); parsing a date and the range of representable
    dates are chrono's, the class parameter [Chrono].  Date arithmetic that chrono refuses
    outside that range is refused here too. *)
From S2P Require Import Prelude Identity.

#[local] Open Scope Z_scope.

(** ** Dates and instants *)

Class Chrono : Type := {
  DATE_MIN : Z;
  DATE_MAX : Z;
  parse_date : string → option Z;
  parse_date_range : ∀ s d, parse_date s = Some d → DATE_MIN ≤ d ≤ DATE_MAX;
}.

(** A [DateTime<Utc>]: its date and its second of the day. *)
Record instant : Type := mkInstant { i_date : Z; i_second : Z }.

Definition minute_of_day (now : instant) : Z := i_second now / 60.
Definition naive_utc (now : instant) : Z := i_date now * 86400 + i_second now.

Inductive Weekday : Type := Monday | Tuesday | Wednesday | Thursday | Friday | Saturday | Sunday.

#[export] Instance Weekday_eq_dec : EqDecision Weekday.
Proof. solve_decision. Defined.

Definition num_days_from_monday (d : Z) : Z := (d + 3) mod 7.

Definition weekday_of (d : Z) : Weekday :=
  match num_days_from_monday d with
  | 0 => Monday | 1 => Tuesday | 2 => Wednesday | 3 => Thursday | 4 => Friday | 5 => Saturday
  | _ => Sunday
  end.

(** ** Times of day *)

(** [str::parse::<u32>]: an optional plus sign, then at least one digit, within range. *)
Fixpoint parse_digits (acc : Z) (s : string) : option Z :=
  match s with
  | EmptyString => Some acc
  | String c s =>
      if is_ascii_digit c then
        let acc := 10 * acc + Z.of_nat (Ascii.nat_of_ascii c - 48) in
        if acc <=? 4294967295 then parse_digits acc s else None
      else None
  end.

Definition parse_u32 (s : string) : option Z :=
  match s with
  | EmptyString => None
  | String "+"%char EmptyString => None
  | String "+"%char s => parse_digits 0 s
  | s => parse_digits 0 s
  end.

Definition parse_minute (raw : string) : option Z :=
  match split_once ":"%char raw with
  | None => None
  | Some (hh, mm) =>
      hours ← parse_u32 hh;
      minutes ← parse_u32 mm;
      if (60 <=? minutes) || (24 <? hours) || ((hours =? 24) && negb (minutes =? 0)) then None
      else Some (hours * 60 + minutes)
  end.

Section windows.
Context `{Chrono}.

(** ** Recurring windows *)

Record RolloutWindow : Type := mkRolloutWindow {
  rw_weekdays : list Weekday;
  rw_interval_weeks : option Z;
  rw_anchor_week : option string;
  rw_start : string;
  rw_end : string;
}.

(** [date.checked_sub_signed(Duration::days(n))] for [n] of at most a week. *)
Definition checked_sub_days (d n : Z) : option Z :=
  if DATE_MIN <=? d - n then Some (d - n) else None.

Definition monday_of_week (d : Z) : option Z := checked_sub_days d (num_days_from_monday d).

Definition weeks_between (anchor d : Z) : option Z :=
  md ← monday_of_week d;
  ma ← monday_of_week anchor;
  Some (Z.quot (md - ma) 7).

Definition has_week_phase (w : RolloutWindow) : bool :=
  match rw_interval_weeks w with Some n => 1 <? n | None => false end
  || bool_decide (is_Some (rw_anchor_week w)).

Definition is_active_day (w : RolloutWindow) (d : Z) : bool :=
  match rw_weekdays w with
  | [] => negb (has_week_phase w)
  | days =>
      if negb (bool_decide (weekday_of d ∈ days)) then false
      else match rw_interval_weeks w with
           | None | Some 0 | Some 1 => true
           | Some interval =>
               match rw_anchor_week w ≫= parse_date with
               | None => false
               | Some anchor =>
                   match weeks_between anchor d with
                   | Some weeks => weeks mod interval =? 0
                   | None => false
                   end
               end
           end
  end.

Definition is_active (w : RolloutWindow) (now : instant) : bool :=
  match parse_minute (rw_start w), parse_minute (rw_end w) with
  | Some start, Some stop =>
      let today := i_date now in
      let minute := minute_of_day now in
      if start <? stop then
        is_active_day w today && ((start <=? minute) && (minute <? stop))
      else if start =? stop then is_active_day w today
      else ((start <=? minute) && is_active_day w today)
           || ((minute <? stop)
               && match checked_sub_days today 1 with
                  | Some yesterday => is_active_day w yesterday
                  | None => false
                  end)
  | _, _ => false
  end.

Definition is_open (windows : list RolloutWindow) (now : instant) : bool :=
  match windows with [] => true | _ => existsb (λ w, is_active w now) windows end.

(** ** Dated calendars *)

Record CalendarEntry : Type := mkCalendarEntry {
  ce_date : string;
  ce_start : string;
  ce_end : string;
}.

(** [midnight.checked_add_signed(Duration::minutes(m))], in seconds. *)
Definition checked_add_minutes (d m : Z) : option Z :=
  if d + m / 1440 <=? DATE_MAX then Some (d * 86400 + m * 60) else None.

Definition span (e : CalendarEntry) : option (Z * Z) :=
  d ← parse_date (ce_date e);
  start ← parse_minute (ce_start e);
  stop ← parse_minute (ce_end e);
  if stop <=? start then None
  else
    s ← checked_add_minutes d start;
    t ← checked_add_minutes d stop;
    Some (s, t).

Definition usable_spans (calendar : list CalendarEntry) : list (Z * Z) := omap span calendar.

Definition ran_out (calendar : list CalendarEntry) (spans : list (Z * Z)) (now : Z) : bool :=
  (length spans =? length calendar)%nat
  && negb (bool_decide (spans = []))
  && forallb (λ x : Z * Z, x.2 <=? now) spans.

Definition calendar_open (calendar : list CalendarEntry) (now : instant) : bool :=
  match calendar with
  | [] => true
  | _ =>
      let spans := usable_spans calendar in
      existsb (λ x : Z * Z, (x.1 <=? naive_utc now) && (naive_utc now <? x.2)) spans
      || ran_out calendar spans (naive_utc now)
  end.

Definition calendar_exhausted (calendar : list CalendarEntry) (now : instant) : bool :=
  ran_out calendar (usable_spans calendar) (naive_utc now).

(** ** Properties *)

(** Minutes since the epoch, for an instant with a valid second of the day. *)
Definition valid_instant (now : instant) : Prop := 0 ≤ i_second now < 86400.
Definition epoch_minute (now : instant) : Z := i_date now * 1440 + minute_of_day now.

Lemma minute_range now : valid_instant now → 0 ≤ minute_of_day now < 1440.
Proof. unfold valid_instant, minute_of_day. intros. split; [apply Z.div_pos; lia|]. apply Z.div_lt_upper_bound; lia. Qed.

Lemma parse_digits_nonneg s : ∀ acc r, 0 ≤ acc → parse_digits acc s = Some r → 0 ≤ r.
Proof.
  induction s as [|c s IH]; simpl; intros acc r Ha; [by intros [= <-]|].
  destruct (is_ascii_digit c); [|done]. destruct (_ <=? _); [|done]. apply IH. lia.
Qed.

Lemma parse_u32_nonneg s r : parse_u32 s = Some r → 0 ≤ r.
Proof.
  destruct s as [|c s]; [done|].
  assert (∀ t, parse_digits 0 t = Some r → 0 ≤ r) as Hd by (intros t; apply parse_digits_nonneg; lia).
  unfold parse_u32. repeat case_match; first [done | apply Hd].
Qed.

Lemma parse_minute_range s m : parse_minute s = Some m → 0 ≤ m ≤ 1440.
Proof.
  unfold parse_minute. destruct (split_once _ _) as [[hh mm]|]; [|done].
  destruct (parse_u32 hh) as [h|] eqn:Hh; simpl; [|done].
  destruct (parse_u32 mm) as [k|] eqn:Hk; simpl; [|done].
  apply parse_u32_nonneg in Hh, Hk.
  destruct (Z.leb_spec 60 k), (Z.ltb_spec 24 h), (Z.eqb_spec h 24), (Z.eqb_spec k 0); simpl; try done;
    intros [= <-]; lia.
Qed.

(** A window whose bounds differ is active exactly inside the spans its selected days
    open: from [start] on a selected day up to [end], on the next day when the span wraps past
    midnight.  With equal bounds it is active for the whole of each selected calendar day,
    whatever the bound. *)
Lemma window_active_iff_in_span w now start stop :
  valid_instant now → parse_minute (rw_start w) = Some start → parse_minute (rw_end w) = Some stop →
  (start ≠ stop →
   is_active w now = true ↔
   ∃ day, is_active_day w day = true ∧ (day = i_date now ∨ DATE_MIN ≤ day)
          ∧ day * 1440 + start ≤ epoch_minute now
            < day * 1440 + (if start <? stop then stop else stop + 1440))
  ∧ (start = stop → is_active w now = is_active_day w (i_date now)).
Proof.
  intros Hn Hs Ht. pose proof (minute_range now Hn) as Hm. unfold is_active, epoch_minute.
  rewrite Hs, Ht. apply parse_minute_range in Hs, Ht.
  split; [|intros ->; by rewrite Z.ltb_irrefl, Z.eqb_refl]. intros Hne.
  destruct (Z.ltb_spec start stop) as [Hlt|Hge].
  - rewrite !andb_true_iff, Z.leb_le, Z.ltb_lt. split.
    + intros [Hd ?]. exists (i_date now). split_and!; [done|by left|lia|lia].
    + intros (day & Hd & _ & ?). assert (day = i_date now) as -> by lia. split; [done|lia].
  - rewrite (proj2 (Z.eqb_neq start stop)) by done.
    rewrite orb_true_iff, !andb_true_iff, Z.leb_le, Z.ltb_lt. unfold checked_sub_days. split.
    + intros [[? Hd]|[? Hd]].
      * exists (i_date now). split_and!; [done|by left|lia|lia].
      * destruct (Z.leb_spec DATE_MIN (i_date now - 1)); [|done].
        exists (i_date now - 1). split_and!; [done|by right|lia|lia].
    + intros (day & Hd & Hr & ?). assert (day = i_date now ∨ day = i_date now - 1) as [->| ->] by lia.
      * destruct (Z.le_gt_cases start (minute_of_day now)); [by left|]. lia.
      * right. split; [lia|]. destruct Hr as [?|Hr]; [lia|].
        by rewrite (proj2 (Z.leb_le _ _) Hr).
Qed.

(** An every-Nth-week window repeats with its period. *)
Lemma monday_shift d k : 0 ≤ k → monday_of_week d ≠ None →
  monday_of_week (d + 7 * k) = (λ m, m + 7 * k) <$> monday_of_week d.
Proof.
  unfold monday_of_week, checked_sub_days, num_days_from_monday. intros Hk.
  replace (d + 7 * k + 3) with (d + 3 + k * 7) by lia. rewrite Z.mod_add by lia.
  destruct (Z.leb_spec DATE_MIN (d - (d + 3) mod 7)); [|done]. intros _.
  rewrite (proj2 (Z.leb_le _ _)) by lia. simpl. f_equal. lia.
Qed.

Lemma monday_aligned d m : monday_of_week d = Some m → ∃ q, m + 3 = 7 * q.
Proof.
  unfold monday_of_week, checked_sub_days, num_days_from_monday.
  destruct (_ <=? _); [|done]. intros [= <-]. exists ((d + 3) / 7).
  pose proof (Z.div_mod (d + 3) 7). lia.
Qed.

Lemma weeks_between_shift anchor d k weeks :
  0 ≤ k → weeks_between anchor d = Some weeks → weeks_between anchor (d + 7 * k) = Some (weeks + k).
Proof.
  unfold weeks_between. intros Hk.
  destruct (monday_of_week d) as [md|] eqn:Hd; simpl; [|done].
  destruct (monday_of_week anchor) as [ma|] eqn:Ha; simpl; [|done]. intros [= <-].
  rewrite monday_shift, Hd by (done || congruence). simpl. f_equal.
  apply monday_aligned in Hd as [q Hq], Ha as [r Hr].
  replace (md + 7 * k - ma) with ((q - r + k) * 7) by lia.
  replace (md - ma) with ((q - r) * 7) by lia. rewrite !Z.quot_mul by lia. lia.
Qed.

(** An every-[k]-weeks window recurs with exactly that period: a representable day is
    selected if and only if the same weekday [k] weeks later is. *)
Lemma window_recurs w d k :
  rw_interval_weeks w = Some k → 1 < k → monday_of_week d ≠ None →
  is_active_day w (d + 7 * k) = is_active_day w d.
Proof.
  intros Hi Hk Hd. unfold is_active_day.
  assert (weekday_of (d + 7 * k) = weekday_of d) as ->.
  { unfold weekday_of, num_days_from_monday.
    replace (d + 7 * k + 3) with (d + 3 + k * 7) by lia. by rewrite Z.mod_add by lia. }
  destruct (rw_weekdays w) as [|x days]; [done|]. destruct (negb _); [done|]. rewrite Hi.
  assert (∀ A (a b : A), match Some k with None | Some 0 | Some 1 => a | Some _ => b end = b) as Hm.
  { intros A a b. destruct k as [|[]|]; try done; lia. }
  rewrite !(Hm bool). clear Hm.
  destruct (rw_anchor_week w ≫= parse_date) as [anchor|]; [|done].
  destruct (weeks_between anchor d) as [weeks|] eqn:Hw.
  - rewrite (weeks_between_shift anchor d k weeks) by (done || lia).
    replace (weeks + k) with (weeks + 1 * k) by lia. by rewrite Z.mod_add by lia.
  - unfold weeks_between in *. rewrite monday_shift by (done || lia).
    destruct (monday_of_week d); [|done]. simpl in *.
    by destruct (monday_of_week anchor).
Qed.

(** Exhaustion is permanent: a calendar that has run out stays run out. *)
Lemma calendar_exhausted_mono calendar now later :
  naive_utc now ≤ naive_utc later → calendar_exhausted calendar now = true →
  calendar_exhausted calendar later = true.
Proof.
  unfold calendar_exhausted, ran_out. intros Hle Hr. bool_to_prop.
  rewrite !andb_true_iff. split_and!; [done|by apply negb_true_iff, bool_decide_eq_false|].
  rewrite forallb_forall in *. intros x Hx. apply Z.leb_le.
  match goal with Hall : ∀ x, In x _ → _ |- _ => specialize (Hall x Hx); apply Z.leb_le in Hall end. lia.
Qed.

End windows.
