(* ===== verification/Rollout.v ===== *)
(** * Rollout: what the control plane observes of its fleet

    Models the data of [updatec/src/rollout.rs] and its [Observations]: the evidence one
    node's telemetry gives, where a node is, and the one walk of a group's nodes behind both
    the reported verdict and the concurrency-slot question.  The assignment document
    ([updated-contracts/src/assignment.rs]) is seen through the interface [Deployments]: its
    content identity, its name, the archive it installs and its return edge. *)
From S2P Require Import Prelude Identity Maps Releases Dataflow Telemetry Window.

(** ** Deployments *)

Class Deployments : Type := {
  DesiredDeployment : Type;
  DesiredDeployment_eq_dec :: EqDecision DesiredDeployment;
  deployment_identity : DesiredDeployment → option string;
  deployment_name : DesiredDeployment → string;
  target_sha256 : DesiredDeployment → string;
  rollback_to : DesiredDeployment → DesiredDeployment → option DesiredDeployment;
}.

Inductive RegressionResponse : Type := RHalt | RRollback.

#[export] Instance RegressionResponse_eq_dec : EqDecision RegressionResponse.
Proof. solve_decision. Defined.

Record VetoedDeployment : Type := mkVetoed { vd_deployment : string; vd_evidence : nat }.

Record HaltedDeployment : Type := mkHalted {
  hd_deployment : string;
  hd_evidence : nat;
  hd_rolled_back : bool;
}.

Definition DEFAULT_GROUP : string := "default".

Inductive GroupProgress : Type :=
| PHeld | PRolling | PBlocked | PSettled | PFailed | PUnobservable.

#[export] Instance GroupProgress_eq_dec : EqDecision GroupProgress.
Proof. solve_decision. Defined.

Definition satisfies_dependency (p : GroupProgress) : bool := bool_decide (p = PSettled).
Definition is_advancing (p : GroupProgress) : bool := bool_decide (p = PRolling).

Record GroupObservation : Type := mkGroupObservation {
  go_moving : bool;
  go_failed : bool;
  go_blocked : bool;
  go_observable : bool;
  go_halted : bool;
}.

Definition GroupObservation_default : GroupObservation :=
  mkGroupObservation false false false false false.

Definition verdict (o : GroupObservation) : GroupProgress :=
  match go_moving o, go_failed o, go_blocked o, go_observable o with
  | true, _, _, _ => PRolling
  | false, true, _, _ => PFailed
  | false, false, true, _ => PBlocked
  | false, false, false, true => PSettled
  | false, false, false, false => PUnobservable
  end.

(** [GroupObservation::holds_slot] *)
Definition observation_holds_slot (o : GroupObservation) : bool :=
  negb (go_halted o) && bool_decide (verdict o = PRolling).

Inductive NodeEvidence : Type := EHealthy | EBroken | ESilent | EBlind.

#[export] Instance NodeEvidence_eq_dec : EqDecision NodeEvidence.
Proof. solve_decision. Defined.

Definition unavailable (e : NodeEvidence) : bool :=
  match e with EBroken | ESilent => true | EHealthy | EBlind => false end.

Record GroupOutputReference : Type := mkGroupOutputReference { gor_group : string; gor_output : string }.

#[export] Instance GroupOutputReference_eq_dec : EqDecision GroupOutputReference.
Proof. solve_decision. Defined.

Section rollout.
Context `{!ReportParts} `{!Semver} `{!Signed} `{!Deployments} `{!Chrono}.

Record AdmittedDeployment : Type := mkAdmitted {
  ad_current : DesiredDeployment;
  ad_previous : list DesiredDeployment;
}.

Record ResolvedGroup : Type := mkResolvedGroup {
  gr_name : string;
  gr_match_labels : BTreeMap string;
  gr_depends_on : list string;
  gr_inputs : BTreeMap GroupOutputReference;
  gr_input_snapshot : option FileSnapshot;
  gr_deployment : DesiredDeployment;
  gr_max_unavailable : nat;
  gr_emergency_correction : bool;
}.

Definition inputs_ready (g : ResolvedGroup) : bool :=
  bool_decide (gr_inputs g = ∅) || bool_decide (is_Some (gr_input_snapshot g)).

(** The set's name and the fields of its specification the planner reads. *)
Record UpdateGroupSet : Type := mkUpdateGroupSet {
  us_name : string;
  us_match_labels : BTreeMap string;
  us_max_concurrent : option nat;
  us_rollout_windows : list RolloutWindow;
  us_calendar : list CalendarEntry;
  us_max_regressions : option nat;
  us_on_regression : RegressionResponse;
}.

(** [requested.clamp(1, ceiling)] *)
Definition effective_max_concurrent (s : UpdateGroupSet) (members : nat) : nat :=
  let ceiling := Nat.max (members - 1) 1 in
  let requested := default ceiling (us_max_concurrent s) in
  if (requested <? 1)%nat then 1%nat else if (ceiling <? requested)%nat then ceiling else requested.

Definition selector_matches (expected labels : BTreeMap string) : bool :=
  forallb (λ kv, bool_decide (labels !! kv.1 = Some kv.2)) (bt_iter expected).

(** ** Observations *)

Record Observations : Type := mkObservations {
  o_node_groups : BTreeMap string;
  o_reports : gmap string Envelope;
  o_public_keys : gmap string P256PublicKey;
  o_published : BTreeMap string;
  o_cordons : BTreeSet;
  o_now_ms : N;
  o_verified : VerifiedReports;
}.

Section observe.
Context (o : Observations).

(** [Observations::report] *)
Definition report (node : string) : option NodeReport :=
  match o_reports o !! node, o_public_keys o !! node with
  | Some envelope, Some key => verified_fresh (o_verified o) node envelope key (o_now_ms o)
  | _, _ => None
  end.

Definition evidence (node identity : string) : NodeEvidence :=
  if negb (contains_key node (o_public_keys o)) then EBlind
  else match report node with
       | Some r =>
           if bool_decide (nr_assignment_sha256 r = identity)
           then (if nr_healthy r then EHealthy else EBroken)
           else ESilent
       | None => ESilent
       end.

(** [Observations::nodes] *)
Definition nodes (group : string) : list string :=
  (filter (λ kv, kv.2 = group) (bt_iter (o_node_groups o))).*1.

Definition any_node_published (group : string) : bool :=
  existsb (λ n, contains_key n (o_published o)) (nodes group).

Definition placement (node : string) : option string :=
  match o_published o !! node with
  | Some identity => Some identity
  | None => nr_assignment_sha256 <$> report node
  end.

Definition advanced (node identity : string) : bool :=
  option_some_and (λ last, bool_decide (last = identity)) (o_published o !! node)
  || option_some_and (λ r, bool_decide (nr_assignment_sha256 r = identity)) (report node).

Definition converged (node identity : string) (d : DesiredDeployment) : bool :=
  option_some_and (λ r, is_converged_to r identity (target_sha256 d)) (report node).

Definition claims_rejection (node : string) : option string :=
  match o_reports o !! node, o_public_keys o !! node with
  | Some envelope, Some key => verified_rejected_assignment (o_verified o) node envelope key
  | _, _ => None
  end.

(** The movement verdict: per-node rejection proofs, and every refused identity. *)
Record MovementVerdict : Type := mkMovementVerdict {
  mv_proofs : BTreeMap BTreeSet;
  mv_blocked : BTreeSet;
}.

(** What one node contributes to the walk. *)
Definition sight (identity : string) (current : DesiredDeployment) (mv : MovementVerdict)
    (node : string) : GroupObservation :=
  let see moving failed blocked observable :=
    mkGroupObservation moving failed blocked observable false in
  if bool_decide (node ∈ o_cordons o) then see false false false false
  else if option_some_and (λ ns : BTreeSet, bool_decide (node ∈ ns)) (mv_proofs mv !! identity)
  then see false true false true
  else if negb (advanced node identity)
  then (if bool_decide (identity ∈ mv_blocked mv) then see false false true false
        else see true false false false)
  else match evidence node identity with
       | EHealthy =>
           if converged node identity current then see false false false true
           else see true false false true
       | EBroken | ESilent => see true false false true
       | EBlind => see false false false false
       end.

Definition saw (acc seen : GroupObservation) : GroupObservation :=
  mkGroupObservation (go_moving acc || go_moving seen) (go_failed acc || go_failed seen)
    (go_blocked acc || go_blocked seen) (go_observable acc || go_observable seen) (go_halted acc).

Definition observe (group : string) (state : AdmittedDeployment) (mv : MovementVerdict)
    : GroupObservation :=
  match deployment_identity (ad_current state) with
  | None => GroupObservation_default
  | Some identity =>
      foldl (λ acc node, saw acc (sight identity (ad_current state) mv node))
        (mkGroupObservation false false false false (bool_decide (identity ∈ mv_blocked mv)))
        (nodes group)
  end.

Definition progress (group : string) (state : AdmittedDeployment) (mv : MovementVerdict)
    : GroupProgress :=
  verdict (observe group state mv).

Definition fully_handed (group : string) (d : DesiredDeployment) : bool :=
  match deployment_identity d with
  | None => false
  | Some identity =>
      forallb (λ n, advanced n identity)
        (filter (λ n, n ∉ o_cordons o) (nodes group))
  end.

Definition placed_anywhere (d : DesiredDeployment) : bool :=
  match deployment_identity d with
  | None => false
  | Some identity => existsb (λ n, advanced n identity) (bt_keys (o_node_groups o))
  end.

(** [classify]: the operator-facing verdict of one group. *)
Definition classify (name : string) (desired : BTreeMap DesiredDeployment)
    (admitted : BTreeMap AdmittedDeployment) (mv : MovementVerdict) : GroupProgress :=
  match admitted !! name with
  | Some state =>
      if bool_decide (desired !! name = Some (ad_current state)) then progress name state mv
      else PHeld
  | None => PHeld
  end.

Definition holds_slot (admitted : BTreeMap AdmittedDeployment) (mv : MovementVerdict)
    (name : string) : bool :=
  option_some_and (λ state, observation_holds_slot (observe name state mv)) (admitted !! name).

(** ** Lemmas *)

Lemma elem_of_nodes group n : n ∈ nodes group ↔ o_node_groups o !! n = Some group.
Proof.
  unfold nodes. rewrite list_elem_of_fmap. split.
  - intros ([k g] & -> & Hin). apply list_elem_of_filter in Hin as [Hg Hin]. simpl in *. subst.
    by apply elem_of_bt_iter.
  - intros Hn. exists (n, group). split; [done|]. apply list_elem_of_filter. split; [done|].
    by apply elem_of_bt_iter.
Qed.

Lemma NoDup_nodes group : NoDup (nodes group).
Proof.
  unfold nodes. eapply sublist_NoDup; [apply (NoDup_bt_keys (o_node_groups o))|].
  unfold bt_keys. apply fmap_sublist, sublist_filter.
Qed.

Lemma placement_advanced n identity : placement n = Some identity → advanced n identity = true.
Proof.
  unfold placement, advanced. destruct (o_published o !! n) as [p|]; simpl.
  - intros [= <-]. by rewrite bool_decide_eq_true_2.
  - destruct (report n) as [r|]; simpl; [|done]. intros [= <-]. by rewrite bool_decide_eq_true_2.
Qed.

(** Evidence of health on an identity is a report acting on that identity. *)
Lemma evidence_advanced n identity :
  evidence n identity = EHealthy ∨ evidence n identity = EBroken → advanced n identity = true.
Proof.
  unfold evidence, advanced. destruct (negb _); [naive_solver|].
  destruct (report n) as [r|]; [|naive_solver]. simpl. case_bool_decide; [|naive_solver].
  intros _. apply orb_true_r.
Qed.

(** The walk is the disjunction of what each node shows. *)
Lemma foldl_saw (f : string → GroupObservation) l acc :
  let r := foldl (λ acc n, saw acc (f n)) acc l in
  go_moving r = go_moving acc || existsb (λ n, go_moving (f n)) l
  ∧ go_failed r = go_failed acc || existsb (λ n, go_failed (f n)) l
  ∧ go_blocked r = go_blocked acc || existsb (λ n, go_blocked (f n)) l
  ∧ go_observable r = go_observable acc || existsb (λ n, go_observable (f n)) l
  ∧ go_halted r = go_halted acc.
Proof.
  revert acc. induction l as [|n l IH]; intros acc; simpl.
  { by rewrite !orb_false_r. }
  destruct (IH (saw acc (f n))) as (-> & -> & -> & -> & ->). simpl. by rewrite !orb_assoc.
Qed.

Lemma verdict_settled ob :
  verdict ob = PSettled ↔
  go_moving ob = false ∧ go_failed ob = false ∧ go_blocked ob = false ∧ go_observable ob = true.
Proof. unfold verdict. destruct ob as [[] [] [] [] h]; naive_solver. Qed.

Lemma existsb_false {A} (p : A → bool) l : existsb p l = false ↔ ∀ x, x ∈ l → p x = false.
Proof.
  rewrite <-not_true_iff_false, existsb_elem. split.
  - intros Hn x Hx. apply not_true_iff_false. eauto.
  - intros Ha (x & Hx & Hp). rewrite Ha in Hp by done. done.
Qed.

(** What a node must show for its group to be settled. *)
Definition node_settled (mv : MovementVerdict) (identity : string) (d : DesiredDeployment)
    (n : string) : Prop :=
  (∀ ns, mv_proofs mv !! identity = Some ns → n ∉ ns)
  ∧ advanced n identity = true
  ∧ (evidence n identity = EBlind ∨ (evidence n identity = EHealthy ∧ converged n identity d = true)).

Lemma sight_settled mv identity d n :
  n ∉ o_cordons o →
  (go_moving (sight identity d mv n) = false ∧ go_failed (sight identity d mv n) = false
   ∧ go_blocked (sight identity d mv n) = false)
  ↔ node_settled mv identity d n.
Proof.
  intros Hc. unfold sight, node_settled. rewrite bool_decide_eq_false_2 by done.
  destruct (option_some_and _ _) eqn:Hp.
  { split; [naive_solver|]. intros (Hno & _). destruct (mv_proofs mv !! identity) as [ns|]; [|done].
    simpl in Hp. bool_to_prop. by destruct (Hno ns). }
  assert (∀ ns, mv_proofs mv !! identity = Some ns → n ∉ ns) as Hno.
  { intros ns Hns. rewrite Hns in Hp. simpl in Hp. by bool_to_prop. }
  destruct (advanced n identity); simpl; [|by destruct (bool_decide _); naive_solver].
  destruct (evidence n identity), (converged n identity d); naive_solver.
Qed.

Lemma sight_observable mv identity d n :
  go_failed (sight identity d mv n) = false → go_moving (sight identity d mv n) = false →
  go_observable (sight identity d mv n) = true →
  n ∉ o_cordons o ∧ evidence n identity = EHealthy ∧ converged n identity d = true.
Proof.
  unfold sight. case_bool_decide; [done|]. destruct (option_some_and _ _); [done|].
  destruct (negb _); [by destruct (bool_decide _)|].
  destruct (evidence n identity); try done. by destruct (converged n identity d).
Qed.

(** A group is reported settled exactly when its admitted deployment has an identity,
    every node that is not cordoned was handed it, has not durably rejected it and either
    cannot be observed at all or proves by a fresh authentic report that it is healthy on
    that assignment and executing that archive, and at least one node proves it. *)
Lemma settled_iff_converged group state mv :
  progress group state mv = PSettled ↔
  ∃ identity, deployment_identity (ad_current state) = Some identity
    ∧ (∀ n, n ∈ nodes group → n ∉ o_cordons o → node_settled mv identity (ad_current state) n)
    ∧ ∃ n, n ∈ nodes group ∧ n ∉ o_cordons o ∧ evidence n identity = EHealthy
           ∧ converged n identity (ad_current state) = true.
Proof.
  unfold progress, observe. destruct (deployment_identity (ad_current state)) as [identity|];
    [|split; [done|naive_solver]].
  rewrite verdict_settled. set (d := ad_current state).
  destruct (foldl_saw (sight identity d mv) (nodes group)
    (mkGroupObservation false false false false (bool_decide (identity ∈ mv_blocked mv))))
    as (-> & -> & -> & -> & _). simpl. rewrite !existsb_false, existsb_elem. split.
  - intros (Hm & Hf & Hb & n & Hn & Hob). exists identity. split_and!; [done| |].
    + intros k Hk Hc. apply sight_settled; auto.
    + exists n. split; [done|]. apply sight_observable in Hob; auto.
  - intros (? & [= <-] & Hall & n & Hn & Hc & He & Hcv).
    assert (∀ k, k ∈ nodes group →
      go_moving (sight identity d mv k) = false ∧ go_failed (sight identity d mv k) = false
      ∧ go_blocked (sight identity d mv k) = false) as Hs.
    { intros k Hk. destruct (decide (k ∈ o_cordons o)) as [Hck|Hck].
      - unfold sight. by rewrite bool_decide_eq_true_2.
      - apply sight_settled; auto. }
    split_and!; [by intros; apply Hs..|]. exists n. split; [done|].
    destruct (Hall n Hn Hc) as (Hno & Ha & _). unfold sight.
    rewrite bool_decide_eq_false_2 by done. destruct (option_some_and _ _); [done|].
    by rewrite Ha, He, Hcv.
Qed.

End observe.
End rollout.

Arguments AdmittedDeployment : clear implicits.
Arguments AdmittedDeployment {_}.
Arguments Observations : clear implicits.
Arguments Observations {_ _}.
Arguments ResolvedGroup : clear implicits.
Arguments ResolvedGroup {_}.
