(* ===== verification/Assign.v ===== *)
(** * Assign: which deployment each node is handed

    Models [assign_nodes] of [updatec/src/rollout.rs].  One pass decides, for every node of
    every admitted group, whether it is handed the group's current deployment, held on what
    it already runs, or left out of the generation.  The loop body's early exits are the
    constructors of [disposition]; the budgeted second loop spends at most the group's
    [maxUnavailable] on the staged nodes, broken ones first. *)
From S2P Require Import Prelude Identity Maps Telemetry Window Rollout.

Section assign.
Context `{!ReportParts} `{!Semver} `{!Signed} `{!Deployments} `{!Chrono}.

(** [bodies_by_identity]: the last body collected for an identity wins, as in [collect]. *)
Definition bodies (states : list AdmittedDeployment) : list (string * DesiredDeployment) :=
  omap (λ d, (λ i, (i, d)) <$> deployment_identity d)
    (states ≫= λ s, ad_current s :: ad_previous s).

Definition bodies_by_identity (states : list AdmittedDeployment) : gmap string DesiredDeployment :=
  foldl (λ acc x, <[x.1 := x.2]> acc) ∅ (bodies states).

(** How the first loop leaves one node; the flag says whether it counts as unavailable. *)
Inductive disposition : Type :=
| LeftOut (counts : bool)
| Delivered (counts : bool)
| Staged (e : NodeEvidence) (hold : option DesiredDeployment) (counts : bool).

Definition counts (x : disposition) : bool :=
  match x with LeftOut c | Delivered c | Staged _ _ c => c end.

(** The first predecessor this node has been handed. *)
Fixpoint find_advanced (o : Observations) (node : string)
    (previous : list (string * DesiredDeployment)) : option (string * DesiredDeployment) :=
  match previous with
  | [] => None
  | x :: previous => if advanced o node x.1 then Some x else find_advanced o node previous
  end.

Section group.
Context (o : Observations) (holds : BTreeSet) (running : gmap string DesiredDeployment)
  (current_id : string) (previous : list (string * DesiredDeployment)) (blocked_now : bool).

Definition node_disposition (node : string) : disposition :=
  if bool_decide (node ∈ holds) then
    LeftOut (negb (bool_decide (node ∈ o_cordons o))
             && option_some_and (λ identity, unavailable (evidence o node identity))
                  (placement o node))
  else if bool_decide (node ∈ o_cordons o) && negb blocked_now then Delivered false
  else if advanced o node current_id then Delivered (unavailable (evidence o node current_id))
  else match find_advanced o node previous with
       | Some (id, body) =>
           let e := evidence o node id in Staged e (Some body) (unavailable e)
       | None =>
           match placement o node with
           | Some id =>
               let e := evidence o node id in Staged e (running !! id) (unavailable e)
           | None =>
               match previous with
               | [] => if blocked_now then LeftOut false
                       else Delivered (unavailable (evidence o node current_id))
               | _ => Staged ESilent None false
               end
           end
       end.

End group.

(** The first loop: what is delivered, how many count as unavailable, what is staged. *)
Record walk : Type := mkWalk {
  w_out : BTreeMap DesiredDeployment;
  w_unavailable : nat;
  w_staged : list (string * NodeEvidence * option DesiredDeployment);
}.

Definition walk_node (disp : string → disposition) (current : DesiredDeployment) (w : walk)
    (node : string) : walk :=
  let unavailable := (w_unavailable w + if counts (disp node) then 1 else 0)%nat in
  match disp node with
  | LeftOut _ => mkWalk (w_out w) unavailable (w_staged w)
  | Delivered _ => mkWalk (<[node := current]> (w_out w)) unavailable (w_staged w)
  | Staged e hold _ => mkWalk (w_out w) unavailable (w_staged w ++ [(node, e, hold)])
  end.

(** One staged node of the second loop. *)
Definition move_node (rescue_pass blocked_now : bool) (budget : nat) (current : DesiredDeployment)
    (acc : nat * BTreeMap DesiredDeployment)
    (x : string * NodeEvidence * option DesiredDeployment) : nat * BTreeMap DesiredDeployment :=
  let '(moved, out) := acc in
  let '(node, e, hold) := x in
  if negb (Bool.eqb (bool_decide (e = EBroken)) rescue_pass) then acc
  else
    let '(moved, deployment) :=
      if blocked_now then (moved, hold)
      else if (moved <? budget)%nat then (S moved, Some current)
      else (moved, hold) in
    match deployment with
    | Some deployment => (moved, <[node := deployment]> out)
    | None => (moved, out)
    end.

Definition move_staged (blocked_now : bool) (max_unavailable : nat) (current : DesiredDeployment)
    (w : walk) : nat * BTreeMap DesiredDeployment :=
  let capacity := (max_unavailable - w_unavailable w)%nat in
  let rescued :=
    foldl (move_node true blocked_now max_unavailable current) (0%nat, w_out w) (w_staged w) in
  foldl (move_node false blocked_now capacity current) rescued (w_staged w).

Definition identified (l : list DesiredDeployment) : list (string * DesiredDeployment) :=
  omap (λ d, (λ i, (i, d)) <$> deployment_identity d) l.

(** One group of the outer loop. *)
Definition assign_group (o : Observations) (holds movement_blocks : BTreeSet)
    (running : gmap string DesiredDeployment) (name : string) (max_unavailable : nat)
    (state : AdmittedDeployment) (out : BTreeMap DesiredDeployment)
    : BTreeMap DesiredDeployment :=
  match deployment_identity (ad_current state) with
  | None => out
  | Some current_id =>
      let previous := identified (ad_previous state) in
      let blocked_now := bool_decide (current_id ∈ movement_blocks) in
      let disp := node_disposition o holds running current_id previous blocked_now in
      let w := foldl (walk_node disp (ad_current state)) (mkWalk out 0 []) (nodes o name) in
      (move_staged blocked_now max_unavailable (ad_current state) w).2
  end.

(** The outer loop's body: a group awaiting its first admission publishes nothing. *)
Definition assign_step (admitted : BTreeMap AdmittedDeployment) (o : Observations)
    (holds movement_blocks : BTreeSet) (running : gmap string DesiredDeployment)
    (out : BTreeMap DesiredDeployment) (x : string * ResolvedGroup)
    : BTreeMap DesiredDeployment :=
  match admitted !! x.1 with
  | None => out
  | Some state =>
      assign_group o holds movement_blocks running x.1 (gr_max_unavailable x.2) state out
  end.

Definition assign_nodes (groups : BTreeMap ResolvedGroup)
    (admitted held : BTreeMap AdmittedDeployment) (o : Observations)
    (holds movement_blocks : BTreeSet) : BTreeMap DesiredDeployment :=
  let running := bodies_by_identity (bt_values admitted ++ bt_values held) in
  foldl (assign_step admitted o holds movement_blocks running) ∅ (bt_iter groups).

(** ** The first loop *)

Definition staged_of (disp : string → disposition) (l : list string)
    : list (string * NodeEvidence * option DesiredDeployment) :=
  omap (λ n, match disp n with Staged e h _ => Some (n, e, h) | _ => None end) l.

Definition unavailable_of (disp : string → disposition) (l : list string) : nat :=
  count_if (λ n, counts (disp n)) l.

Lemma elem_of_staged_of disp l n e h :
  (n, e, h) ∈ staged_of disp l ↔ n ∈ l ∧ ∃ c, disp n = Staged e h c.
Proof.
  unfold staged_of. rewrite list_elem_of_omap. split.
  - intros (k & Hk & Heq). destruct (disp k) as [| |e' h' c] eqn:Hd; simplify_eq/=. eauto.
  - intros (Hn & c & Hd). exists n. by rewrite Hd.
Qed.

Lemma NoDup_staged_of disp l : NoDup l → NoDup (staged_of disp l).*1.*1.
Proof.
  induction 1 as [|n l Hn _ IH]; [constructor|]. unfold staged_of in *. simpl.
  destruct (disp n) as [| |e h c] eqn:Hd; [done|done|]. simpl. constructor; [|done].
  intros Hin. apply Hn. apply list_elem_of_fmap in Hin as ([k e'] & -> & Hin).
  apply list_elem_of_fmap in Hin as ([[k' e''] h'] & [= -> ->] & Hin).
  by apply (elem_of_staged_of disp l) in Hin as [? _].
Qed.

Lemma walk_spec disp current l : ∀ w0,
  w_staged (foldl (walk_node disp current) w0 l) = w_staged w0 ++ staged_of disp l
  ∧ w_unavailable (foldl (walk_node disp current) w0 l)
    = (w_unavailable w0 + unavailable_of disp l)%nat
  ∧ ∀ n, w_out (foldl (walk_node disp current) w0 l) !! n
         = match disp n with
           | Delivered _ => if decide (n ∈ l) then Some current else w_out w0 !! n
           | _ => w_out w0 !! n
           end.
Proof.
  unfold unavailable_of, count_if, staged_of. induction l as [|k l IH]; intros w0; simpl.
  { rewrite app_nil_r, Nat.add_0_r. split_and!; [done|done|]. intros n. by destruct (disp n). }
  destruct (IH (walk_node disp current w0 k)) as (-> & -> & Hout). rewrite filter_cons.
  split_and!.
  - unfold walk_node. destruct (disp k); simpl; by rewrite <-?app_assoc.
  - unfold walk_node. destruct (disp k) as [[]|[]|? ? []]; simpl; lia.
  - intros n. rewrite Hout. unfold walk_node. destruct (decide (n = k)) as [->|Hne].
    + rewrite (decide_True (P := k ∈ k :: l)) by set_solver.
      destruct (disp k) as [| |]; simpl; rewrite ?lookup_insert_eq; by destruct (decide (k ∈ l)).
    + replace (if decide (n ∈ k :: l) then _ else _) with (if decide (n ∈ l) then Some current else w_out w0 !! n)
        by (destruct (decide (n ∈ l)), (decide (n ∈ k :: l)); set_solver).
      destruct (disp k); simpl; rewrite ?lookup_insert_ne by done; done.
Qed.

(** ** The second loop *)

(** One pass over the staged nodes: the nodes it moves, and what happens to the others. *)
Definition pass_outcome (rescue_pass blocked_now : bool) (budget : nat)
    (current : DesiredDeployment) (st : list (string * NodeEvidence * option DesiredDeployment))
    (moved : nat) (out : BTreeMap DesiredDeployment) (moved' : nat)
    (out' : BTreeMap DesiredDeployment) (chosen : list string) : Prop :=
  (∀ n, n ∈ chosen → ∃ e h, (n, e, h) ∈ st ∧ bool_decide (e = EBroken) = rescue_pass)
  ∧ NoDup chosen
  ∧ moved' = (moved + length chosen)%nat
  ∧ (chosen ≠ [] → blocked_now = false ∧ (moved' ≤ budget)%nat)
  ∧ (blocked_now = false → (moved < budget)%nat →
     (∃ n e h, (n, e, h) ∈ st ∧ bool_decide (e = EBroken) = rescue_pass) → chosen ≠ [])
  ∧ (∀ n, n ∈ chosen → out' !! n = Some current)
  ∧ (∀ n e h, (n, e, h) ∈ st → bool_decide (e = EBroken) = rescue_pass → n ∉ chosen →
     out' !! n = match h with Some d => Some d | None => out !! n end)
  ∧ (∀ n, (∀ e h, (n, e, h) ∈ st → bool_decide (e = EBroken) ≠ rescue_pass) → out' !! n = out !! n).

(** A staged node outside the pass, or one the pass leaves held, changes no other node. *)
Lemma pass_skip rescue_pass blocked_now budget current st k e h moved out out0 moved' out' chosen :
  (∀ e' h', (k, e', h') ∉ st) →
  pass_outcome rescue_pass blocked_now budget current st moved out moved' out' chosen →
  (∀ n, n ≠ k → out !! n = out0 !! n) →
  (if bool_decide (bool_decide (e = EBroken) = rescue_pass)
   then out !! k = match h with Some d => Some d | None => out0 !! k end
        ∧ (blocked_now = true ∨ (budget ≤ moved)%nat)
   else out !! k = out0 !! k) →
  pass_outcome rescue_pass blocked_now budget current ((k, e, h) :: st) moved out0 moved' out' chosen.
Proof.
  intros Hfresh (Hc & Hnd & Hm & Hb & Hp & Hcur & Hhold & Hother) Hout Hk.
  assert (k ∉ chosen) as Hkc by (intros (e' & h' & Hin & _)%Hc; by apply (Hfresh e' h')).
  assert (out' !! k = out !! k) as Hk' by (apply Hother; intros e' h' Hin; by destruct (Hfresh e' h')).
  split_and!; [|done|done|done| |done|..].
  - intros n (e' & h' & Hin & ?)%Hc. exists e', h'. split; [by constructor|done].
  - intros Hnb Hlt (n & e' & h' & Hin & He). apply Hp; [done|done|].
    apply elem_of_cons in Hin as [[= -> -> ->]|Hin]; [|eauto].
    rewrite bool_decide_eq_true_2 in Hk by done. destruct Hk as [_ [?|?]]; [congruence|lia].
  - intros n e' h' Hin He Hn. apply elem_of_cons in Hin as [[= -> -> ->]|Hin].
    + rewrite Hk'. rewrite bool_decide_eq_true_2 in Hk by done. by destruct Hk as [-> _].
    + rewrite (Hhold n e' h') by done. destruct h'; [done|].
      apply Hout. intros ->. by apply (Hfresh e' None).
  - intros n Hn. destruct (decide (n = k)) as [->|Hne].
    + rewrite Hk'. rewrite bool_decide_eq_false_2 in Hk; [done|]. apply (Hn e h). constructor.
    + rewrite Hother; [by apply Hout|]. intros e' h' Hin. apply (Hn e' h'). by constructor.
Qed.

(** The pass moves one more node. *)
Lemma pass_move rescue_pass budget current st k e h moved out0 moved' out' chosen :
  (∀ e' h', (k, e', h') ∉ st) → bool_decide (e = EBroken) = rescue_pass → (moved < budget)%nat →
  pass_outcome rescue_pass false budget current st (S moved) (<[k := current]> out0) moved' out'
    chosen →
  pass_outcome rescue_pass false budget current ((k, e, h) :: st) moved out0 moved' out'
    (k :: chosen).
Proof.
  intros Hfresh He Hlt (Hc & Hnd & Hm & Hb & Hp & Hcur & Hhold & Hother).
  assert (k ∉ chosen) as Hkc by (intros (e' & h' & Hin & _)%Hc; by apply (Hfresh e' h')).
  assert (out' !! k = Some current) as Hk'.
  { rewrite Hother; [apply lookup_insert_eq|]. intros e' h' Hin; by destruct (Hfresh e' h'). }
  split_and!.
  - intros n [->|Hin]%elem_of_cons; [exists e, h; split; [constructor|done]|].
    destruct (Hc n Hin) as (e' & h' & ? & ?). exists e', h'. split; [by constructor|done].
  - by constructor.
  - simpl. lia.
  - intros _. split; [done|]. destruct chosen; [simpl in Hm; lia|]. by apply Hb.
  - done.
  - intros n [->|Hin]%elem_of_cons; auto.
  - intros n e' h' Hin He' Hn. apply elem_of_cons in Hin as [[= -> -> ->]|Hin].
    + by destruct Hn; constructor.
    + rewrite (Hhold n e' h'); [|done|done|by intros ?; apply Hn; constructor].
      destruct h'; [done|]. apply lookup_insert_ne. intros ->. by apply (Hfresh e' None).
  - intros n Hn. destruct (decide (n = k)) as [->|Hne].
    + exfalso. apply (Hn e h); [constructor|done].
    + rewrite Hother; [by apply lookup_insert_ne|]. intros e' h' Hin. apply (Hn e' h'). by constructor.
Qed.

Lemma pass_spec rescue_pass blocked_now budget current st : ∀ moved out,
  NoDup st.*1.*1 →
  ∃ chosen,
    pass_outcome rescue_pass blocked_now budget current st moved out
      (foldl (move_node rescue_pass blocked_now budget current) (moved, out) st).1
      (foldl (move_node rescue_pass blocked_now budget current) (moved, out) st).2 chosen.
Proof.
  induction st as [|[[k e] h] st IH]; intros moved out Hnd; simpl.
  { exists []. split_and!; [set_solver|constructor|simpl; lia|done| |set_solver|set_solver|done].
    intros _ _ (n & e & h & Hin & _). set_solver. }
  inversion Hnd as [|? ? Hk Hnd']; subst.
  assert (∀ e' h', (k, e', h') ∉ st) as Hfresh.
  { intros e' h' Hin. apply Hk. apply list_elem_of_fmap. exists (k, e'). split; [done|].
    apply list_elem_of_fmap. by exists (k, e', h'). }
  destruct (Bool.eqb (bool_decide (e = EBroken)) rescue_pass) eqn:He; simpl.
  2:{ destruct (IH moved out Hnd') as [chosen Hch]. exists chosen.
      eapply pass_skip; [done|exact Hch|done|].
      rewrite bool_decide_eq_false_2; [done|]. intros Heq. rewrite Heq, eqb_reflx in He. done. }
  apply eqb_prop in He.
  assert (blocked_now = true ∨ (budget ≤ moved)%nat →
    ∃ chosen, pass_outcome rescue_pass blocked_now budget current ((k, e, h) :: st) moved out
      (foldl (move_node rescue_pass blocked_now budget current)
         (match h with Some d => (moved, <[k := d]> out) | None => (moved, out) end) st).1
      (foldl (move_node rescue_pass blocked_now budget current)
         (match h with Some d => (moved, <[k := d]> out) | None => (moved, out) end) st).2 chosen)
    as Hskip.
  { intros Hwhy. destruct h as [d|].
    - destruct (IH moved (<[k := d]> out) Hnd') as [chosen Hch]. exists chosen.
      eapply pass_skip; [done|exact Hch|intros; by apply lookup_insert_ne|].
      rewrite bool_decide_eq_true_2 by done. by rewrite lookup_insert_eq.
    - destruct (IH moved out Hnd') as [chosen Hch]. exists chosen.
      eapply pass_skip; [done|exact Hch|done|]. by rewrite bool_decide_eq_true_2. }
  destruct blocked_now; [by apply Hskip; left|].
  destruct (Nat.ltb_spec moved budget) as [Hlt|Hge]; [|by apply Hskip; right].
  destruct (IH (S moved) (<[k := current]> out) Hnd') as [chosen Hch].
  exists (k :: chosen). by eapply pass_move.
Qed.

(** ** One group *)

(** What both loops do to one group's nodes [l], before and after: [rescued] and [filled] are
    the staged nodes moved onto [current], broken ones and others. *)
Record group_outcome (disp : string → disposition) (l : list string) (blocked_now : bool)
    (max_unavailable : nat) (current : DesiredDeployment)
    (before after : BTreeMap DesiredDeployment) (rescued filled : list string) : Prop := {
  out_rescued : ∀ n, n ∈ rescued → n ∈ l ∧ ∃ h c, disp n = Staged EBroken h c;
  out_filled : ∀ n, n ∈ filled → n ∈ l ∧ ∃ e h c, disp n = Staged e h c ∧ e ≠ EBroken;
  out_nodup : NoDup rescued ∧ NoDup filled;
  out_rescue_budget : (length rescued ≤ max_unavailable)%nat;
  out_fill_budget :
    filled ≠ [] →
    (length rescued + length filled + unavailable_of disp l ≤ max_unavailable)%nat;
  out_blocked : blocked_now = true → rescued = [] ∧ filled = [];
  out_progress :
    blocked_now = false → (unavailable_of disp l < max_unavailable)%nat ∨
      ((0 < max_unavailable)%nat ∧ ∃ n h c, n ∈ l ∧ disp n = Staged EBroken h c) →
    (∃ n e h c, n ∈ l ∧ disp n = Staged e h c) → rescued ++ filled ≠ [];
  out_lookup : ∀ n, n ∈ l →
    after !! n = match disp n with
                 | LeftOut _ => before !! n
                 | Delivered _ => Some current
                 | Staged _ h _ =>
                     if decide (n ∈ rescued ++ filled) then Some current
                     else match h with Some d => Some d | None => before !! n end
                 end;
  out_other : ∀ n, n ∉ l → after !! n = before !! n;
}.

Lemma staged_unique disp l n e h c e' h' :
  disp n = Staged e h c → (n, e', h') ∈ staged_of disp l → e' = e ∧ h' = h.
Proof. intros Hd (_ & c' & Hd')%elem_of_staged_of. naive_solver congruence. Qed.

(** The map after both passes, node by node. *)
Lemma passes_lookup disp l blocked_now b1 b2 current w0 m0 out0 m1 out1 m2 out2 rescued filled n :
  staged_of disp l = w0 →
  pass_outcome true blocked_now b1 current w0 m0 out0 m1 out1 rescued →
  pass_outcome false blocked_now b2 current w0 m1 out1 m2 out2 filled →
  out2 !! n = match disp n with
              | Staged _ h _ =>
                  if decide (n ∈ l) then
                    if decide (n ∈ rescued ++ filled) then Some current
                    else match h with Some d => Some d | None => out0 !! n end
                  else out0 !! n
              | _ => out0 !! n
              end.
Proof.
  intros <- (Hc1 & _ & _ & _ & _ & Hcur1 & Hhold1 & Hoth1) (Hc2 & _ & _ & _ & _ & Hcur2 & Hhold2 & Hoth2).
  assert ((∀ e h, (n, e, h) ∉ staged_of disp l) → out2 !! n = out0 !! n) as Hnone.
  { intros Hno. rewrite Hoth2, Hoth1; [done|..]; intros e h Hin; by destruct (Hno e h). }
  destruct (disp n) as [c|c|e h c] eqn:Hd.
  1,2: apply Hnone; intros e' h' (_ & c' & Hd')%elem_of_staged_of; congruence.
  destruct (decide (n ∈ l)) as [Hl|Hl];
    [|apply Hnone; by intros e' h' (? & _)%elem_of_staged_of].
  assert ((n, e, h) ∈ staged_of disp l) as Hin by (apply elem_of_staged_of; eauto).
  assert (∀ (b : bool) (ch : list string), (∀ k, k ∈ ch → ∃ e h, (k, e, h) ∈ staged_of disp l ∧ bool_decide (e = EBroken) = b) →
            n ∈ ch → bool_decide (e = EBroken) = b) as Hside.
  { intros b ch Hch Hn. destruct (Hch n Hn) as (e' & h' & Hin' & <-).
    by destruct (staged_unique disp l n e h c e' h' Hd Hin') as [-> _]. }
  assert (∀ b, (∀ e' h', (n, e', h') ∈ staged_of disp l → bool_decide (e' = EBroken) ≠ b) ↔
            bool_decide (e = EBroken) ≠ b) as Hout.
  { intros b. split; [eauto|]. intros Hne e' h' Hin'.
    by destruct (staged_unique disp l n e h c e' h' Hd Hin') as [-> _]. }
  destruct (decide (n ∈ rescued ++ filled)) as [Hch|Hch].
  - apply elem_of_app in Hch as [Hr|Hf]; [|by apply Hcur2].
    rewrite Hoth2; [by apply Hcur1|]. apply Hout. by rewrite (Hside true rescued Hc1 Hr).
  - apply not_elem_of_app in Hch as [Hr Hf]. destruct (bool_decide (e = EBroken)) eqn:He.
    + rewrite Hoth2; [by apply (Hhold1 n e h)|]. apply Hout. congruence.
    + rewrite (Hhold2 n e h) by done. destruct h; [done|]. apply Hoth1. apply Hout. congruence.
Qed.

Lemma group_spec disp l blocked_now max_unavailable current before :
  NoDup l →
  ∃ rescued filled,
    group_outcome disp l blocked_now max_unavailable current before
      (move_staged blocked_now max_unavailable current
         (foldl (walk_node disp current) (mkWalk before 0 []) l)).2 rescued filled.
Proof.
  intros Hnd. destruct (walk_spec disp current l (mkWalk before 0 [])) as (Hst & Hun & Hout).
  unfold move_staged. set (w := foldl _ _ _) in *. simpl in Hst, Hun. rewrite Hst, Hun.
  pose proof (NoDup_staged_of disp l Hnd) as Hnds.
  destruct (pass_spec true blocked_now max_unavailable current (staged_of disp l) 0 (w_out w) Hnds)
    as [rescued Hr].
  destruct (foldl (move_node true _ _ _) _ _) as [m1 out1]. simpl in Hr.
  destruct (pass_spec false blocked_now (max_unavailable - unavailable_of disp l) current
              (staged_of disp l) m1 out1 Hnds) as [filled Hf].
  exists rescued, filled. set (after := (foldl _ _ _).2) in *. set (m2 := (foldl _ _ _).1) in *.
  pose proof Hr as (Hc1 & Hn1 & Hm1 & Hb1 & Hp1 & _). pose proof Hf as (Hc2 & Hn2 & Hm2 & Hb2 & Hp2 & _).
  assert (∀ (ch : list string) b n, (∀ k, k ∈ ch → ∃ e h, (k, e, h) ∈ staged_of disp l ∧ bool_decide (e = EBroken) = b) →
            n ∈ ch → n ∈ l ∧ ∃ e h c, disp n = Staged e h c ∧ bool_decide (e = EBroken) = b) as Hsrc.
  { intros ch b n Hch Hn. destruct (Hch n Hn) as (e & h & (? & c & ?)%elem_of_staged_of & ?).
    split; [done|]. by exists e, h, c. }
  split.
  - intros n Hn. destruct (Hsrc _ _ n Hc1 Hn) as (? & e & h & c & Hd & He). bool_to_prop. subst. eauto.
  - intros n Hn. destruct (Hsrc _ _ n Hc2 Hn) as (? & e & h & c & Hd & He). bool_to_prop. eauto 10.
  - done.
  - destruct rescued; [simpl; lia|]. destruct Hb1 as [_ ?]; [done|]. lia.
  - intros Hne. destruct (Hb2 Hne) as [_ ?]. destruct filled; [done|]. simpl in *. lia.
  - intros Hb. split; [destruct rescued|destruct filled]; try done;
      [destruct Hb1 as [? _]|destruct Hb2 as [? _]]; done || congruence.
  - intros Hnb Hcap (n & e & h & c & Hn & Hd) Hnil.
    apply app_eq_nil in Hnil as [-> ->]. simpl in *.
    assert ((n, e, h) ∈ staged_of disp l) as Hin by (apply elem_of_staged_of; eauto).
    assert (0 < max_unavailable)%nat as Hmu by (destruct Hcap as [?|[? _]]; lia).
    destruct (bool_decide (e = EBroken)) eqn:He.
    + by apply Hp1; eauto.
    + destruct Hcap as [Hcap|[? (k & h' & c' & Hk & Hdk)]]; [apply Hp2; [done|lia|eauto|done]|].
      apply Hp1; [done|done| |done]. exists k, EBroken, h'. split; [apply elem_of_staged_of; eauto|done].
  - intros n Hn. rewrite (passes_lookup disp l _ _ _ _ _ _ _ _ _ _ _ rescued filled n eq_refl Hr Hf), Hout.
    by destruct (disp n); simpl; rewrite ?(decide_True (P := n ∈ l)) by done.
  - intros n Hn. rewrite (passes_lookup disp l _ _ _ _ _ _ _ _ _ _ _ rescued filled n eq_refl Hr Hf), Hout.
    by destruct (disp n); simpl; rewrite ?(decide_False (P := n ∈ l)) by done.
Qed.

(** ** The whole pass *)

Lemma bodies_by_identity_sound states i d :
  bodies_by_identity states !! i = Some d → deployment_identity d = Some i.
Proof.
  unfold bodies_by_identity.
  assert (∀ x, x ∈ bodies states → deployment_identity x.2 = Some x.1) as Hall.
  { intros x (b & _ & Hb)%list_elem_of_omap.
    destruct (deployment_identity b) eqn:Hi; simpl in Hb; [|done]. by injection Hb as <-. }
  assert (∀ i d, (∅ : gmap string DesiredDeployment) !! i = Some d → deployment_identity d = Some i)
    as Hacc by done.
  revert Hall Hacc. generalize (∅ : gmap string DesiredDeployment).
  induction (bodies states) as [|x l IH]; intros acc Hall Hacc; simpl; [apply Hacc|].
  apply IH; [intros; apply Hall; by constructor|]. intros i' d'.
  destruct (decide (x.1 = i')) as [<-|Hne].
  - rewrite lookup_insert_eq. intros [= <-]. apply Hall. constructor.
  - rewrite lookup_insert_ne by done. apply Hacc.
Qed.

(** Where the first loop finds a node of group [g]: [running], the predecessors and the verdict
    are the ones [assign_nodes] computes. *)
Definition group_disposition (admitted held : BTreeMap AdmittedDeployment) (o : Observations)
    (holds movement_blocks : BTreeSet) (state : AdmittedDeployment) (current_id : string)
    : string → disposition :=
  node_disposition o holds (bodies_by_identity (bt_values admitted ++ bt_values held)) current_id
    (identified (ad_previous state)) (bool_decide (current_id ∈ movement_blocks)).

Lemma assign_group_spec o holds movement_blocks running name max_unavailable state out current_id :
  deployment_identity (ad_current state) = Some current_id →
  ∃ rescued filled,
    group_outcome
      (node_disposition o holds running current_id (identified (ad_previous state))
         (bool_decide (current_id ∈ movement_blocks)))
      (nodes o name) (bool_decide (current_id ∈ movement_blocks)) max_unavailable
      (ad_current state) out
      (assign_group o holds movement_blocks running name max_unavailable state out) rescued filled.
Proof. intros Hid. unfold assign_group. rewrite Hid. apply group_spec, NoDup_nodes. Qed.

Lemma assign_group_other o holds movement_blocks running name max_unavailable state out n :
  n ∉ nodes o name →
  assign_group o holds movement_blocks running name max_unavailable state out !! n = out !! n.
Proof.
  intros Hn. destruct (deployment_identity (ad_current state)) as [id|] eqn:Hid.
  - destruct (assign_group_spec o holds movement_blocks running name max_unavailable state out id Hid)
      as (r & f & Hg). by apply Hg.
  - unfold assign_group. by rewrite Hid.
Qed.

Lemma assign_steps_other admitted o holds movement_blocks running l n :
  (∀ g gr, (g, gr) ∈ l → is_Some (admitted !! g) → n ∉ nodes o g) →
  ∀ out, foldl (assign_step admitted o holds movement_blocks running) out l !! n = out !! n.
Proof.
  induction l as [|[g gr] l IH]; intros Hl out; simpl; [done|].
  rewrite IH; [|intros g' gr' ? ?; apply (Hl g' gr'); [by constructor|done]].
  unfold assign_step. simpl. destruct (admitted !! g) as [state|] eqn:Ha; [|done].
  apply assign_group_other, (Hl g gr); [constructor|by eexists].
Qed.

Lemma nodes_disjoint o g g' n : n ∈ nodes o g → n ∈ nodes o g' → g = g'.
Proof. rewrite !elem_of_nodes. congruence. Qed.

(** A planned, admitted group's nodes get exactly what its own two loops give them. *)
Lemma assign_nodes_outcome groups admitted held o holds movement_blocks g gr state current_id :
  groups !! g = Some gr → admitted !! g = Some state →
  deployment_identity (ad_current state) = Some current_id →
  ∃ before rescued filled,
    (∀ n, n ∈ nodes o g → before !! n = None) ∧
    group_outcome (group_disposition admitted held o holds movement_blocks state current_id)
      (nodes o g) (bool_decide (current_id ∈ movement_blocks)) (gr_max_unavailable gr)
      (ad_current state) before (assign_nodes groups admitted held o holds movement_blocks)
      rescued filled.
Proof.
  intros Hg Ha Hid. unfold assign_nodes, group_disposition. set (running := bodies_by_identity _).
  pose proof (proj2 (elem_of_bt_iter groups g gr) Hg) as (l1 & l2 & Hl)%list_elem_of_split.
  pose proof (NoDup_bt_keys groups) as Hnd. unfold bt_keys in Hnd. rewrite Hl in Hnd |- *.
  rewrite fmap_app, fmap_cons in Hnd. apply NoDup_app in Hnd as (_ & Hd1 & Hnd).
  apply NoDup_cons in Hnd as [Hd2 _]. rewrite foldl_app. simpl.
  unfold assign_step at 2. simpl. rewrite Ha.
  set (out1 := foldl _ ∅ l1).
  destruct (assign_group_spec o holds movement_blocks running g (gr_max_unavailable gr) state out1
              current_id Hid) as (rescued & filled & Hout).
  set (out2 := assign_group _ _ _ _ _ _ _ _) in *.
  assert (∀ n, n ∈ nodes o g → out1 !! n = None) as Hb1.
  { intros n Hn. unfold out1. rewrite assign_steps_other; [done|].
    intros g' gr' Hin _ Hn'. rewrite <-(nodes_disjoint o g g' n Hn Hn') in Hin.
    apply (Hd1 g); [|constructor]. by apply (list_elem_of_fmap_2 fst) in Hin. }
  assert (∀ n, n ∈ nodes o g →
    foldl (assign_step admitted o holds movement_blocks running) out2 l2 !! n = out2 !! n) as Hb2.
  { intros n Hn. apply assign_steps_other. intros g' gr' Hin _ Hn'.
    rewrite <-(nodes_disjoint o g g' n Hn Hn') in Hin. apply Hd2.
    by apply (list_elem_of_fmap_2 fst) in Hin. }
  set (after := foldl _ out2 l2) in *.
  exists (filter (λ x, x.1 ∉ nodes o g) after), rescued, filled. split.
  { intros n Hn. apply map_lookup_filter_None. right. intros d _ Hno. by apply Hno. }
  destruct Hout. split; try done.
  - intros n Hn. rewrite Hb2, out_lookup0, Hb1 by done.
    replace (filter _ after !! n) with (@None DesiredDeployment); [done|].
    symmetry. apply map_lookup_filter_None. right. intros d _ Hno. by apply Hno.
  - intros n Hn. destruct (after !! n) as [d|] eqn:Hd; symmetry.
    + by apply map_lookup_filter_Some.
    + apply map_lookup_filter_None. by left.
Qed.

Lemma assign_nodes_only groups admitted held o holds movement_blocks n d :
  assign_nodes groups admitted held o holds movement_blocks !! n = Some d →
  ∃ g gr state current_id, o_node_groups o !! n = Some g ∧ groups !! g = Some gr
    ∧ admitted !! g = Some state ∧ deployment_identity (ad_current state) = Some current_id.
Proof.
  unfold assign_nodes. set (running := bodies_by_identity _). generalize running. clear running.
  intros running.
  assert (∀ g gr, (g, gr) ∈ bt_iter groups → groups !! g = Some gr) as Hl
    by (intros g gr; apply elem_of_bt_iter).
  assert ((∅ : BTreeMap DesiredDeployment) !! n = Some d → False) as Hout by done.
  revert Hl Hout. generalize (∅ : BTreeMap DesiredDeployment).
  induction (bt_iter groups) as [|[g gr] l IH]; intros out Hl Hout Hn; simpl in Hn;
    [by apply Hout in Hn|].
  destruct (admitted !! g) as [state|] eqn:Ha;
    unfold assign_step at 2 in Hn; simpl in Hn; rewrite Ha in Hn;
    [|by eapply IH, Hn; [intros; apply Hl; by constructor|]].
  destruct (deployment_identity (ad_current state)) as [id|] eqn:Hid.
  - destruct (decide (n ∈ nodes o g)) as [Hng|Hng].
    { exists g, gr, state, id. split_and!; [by apply elem_of_nodes|apply Hl; constructor|done|done]. }
    eapply IH, Hn; [intros; apply Hl; by constructor|]. by rewrite assign_group_other.
  - eapply IH, Hn; [intros; apply Hl; by constructor|]. unfold assign_group. by rewrite Hid.
Qed.

(** ** What a disposition says of a node *)

Lemma find_advanced_Some o n previous x :
  find_advanced o n previous = Some x → x ∈ previous ∧ advanced o n x.1 = true.
Proof.
  induction previous as [|y previous IH]; simpl; [done|].
  destruct (advanced o n y.1) eqn:Ha.
  - intros [= <-]. split; [constructor|done].
  - intros [? ?]%IH. split; [by constructor|done].
Qed.

Lemma elem_of_identified l i d :
  (i, d) ∈ identified l ↔ d ∈ l ∧ deployment_identity d = Some i.
Proof.
  unfold identified. rewrite list_elem_of_omap. split.
  - intros (b & Hb & Heq). destruct (deployment_identity b) eqn:Hi; simpl in Heq; [|done].
    by injection Heq as -> ->.
  - intros [Hd Hi]. exists d. by rewrite Hi.
Qed.

Section dispositions.
Context (admitted held : BTreeMap AdmittedDeployment) (o : Observations)
  (holds movement_blocks : BTreeSet) (state : AdmittedDeployment) (current_id : string).

Abbreviation disp := (group_disposition admitted held o holds movement_blocks state current_id).

Lemma delivered_disposition n c :
  disp n = Delivered c →
  (n ∉ holds) ∧ (advanced o n current_id = true ∨ current_id ∉ movement_blocks).
Proof.
  unfold group_disposition, node_disposition. case_bool_decide; [done|]. intros Hd. split; [done|].
  destruct (bool_decide (current_id ∈ movement_blocks)) eqn:Hb;
    [|right; by bool_to_prop].
  rewrite andb_false_r in Hd. destruct (advanced o n current_id); [by left|].
  destruct (find_advanced _ _ _) as [[]|]; [done|]. destruct (placement o n); [done|].
  by destruct (identified (ad_previous state)).
Qed.

Lemma staged_disposition n e h c :
  disp n = Staged e h c →
  (n ∉ holds) ∧ advanced o n current_id = false
  ∧ (current_id ∉ movement_blocks → n ∉ o_cordons o)
  ∧ c = (unavailable e && bool_decide (is_Some (placement o n)))
  ∧ (∀ d, h = Some d → ∃ id, deployment_identity d = Some id ∧ advanced o n id = true).
Proof.
  unfold group_disposition, node_disposition. case_bool_decide; [done|].
  destruct (_ && _) eqn:Hc; [done|].
  assert (current_id ∉ movement_blocks → n ∉ o_cordons o) as Hcord.
  { intros Hb. rewrite (bool_decide_eq_false_2 (current_id ∈ _)), andb_true_r in Hc by done.
    by bool_to_prop. }
  destruct (advanced o n current_id) eqn:Ha; [done|].
  destruct (find_advanced _ _ _) as [[id body]|] eqn:Hf.
  { apply find_advanced_Some in Hf as [Hin Hadv]. simpl in *.
    apply elem_of_identified in Hin as [_ Hid]. intros [= <- <- <-]. split_and!; try done.
    - rewrite (bool_decide_eq_true_2 (is_Some _)), andb_true_r; [done|].
      unfold advanced in Hadv. unfold placement. destruct (o_published o !! n); [by eexists|].
      simpl in Hadv. destruct (report o n); [by eexists|done].
    - intros d [= <-]. eauto. }
  destruct (placement o n) as [p|] eqn:Hp.
  { intros [= <- <- <-]. split_and!; try done.
    - rewrite bool_decide_eq_true_2, andb_true_r by (by eexists). done.
    - intros d Hd%bodies_by_identity_sound. exists p. split; [done|]. by apply placement_advanced. }
  destruct (identified (ad_previous state)); [by destruct (bool_decide (current_id ∈ _))|].
  by intros [= <- <- <-].
Qed.

(** A node that is somewhere the control plane recognises is never left out, unless held. *)
Lemma left_out_disposition n c :
  disp n = LeftOut c → n ∈ holds ∨ (placement o n = None ∧ current_id ∈ movement_blocks).
Proof.
  unfold group_disposition, node_disposition. case_bool_decide; [by left|].
  destruct (_ && _); [done|]. destruct (advanced o n current_id); [done|].
  destruct (find_advanced _ _ _) as [[id body]|]; [done|].
  destruct (placement o n); [done|]. destruct (identified _); [|done].
  destruct (bool_decide _) eqn:Hb; [|done]. right. split; [done|]. by bool_to_prop.
Qed.

End dispositions.

(** ** The budget, in terms of what is observed *)

(** The machines of group [g] that run something, are in rotation, and are told to change. *)
Definition disturbed (out : BTreeMap DesiredDeployment) (o : Observations) (g : string)
    (current : DesiredDeployment) (current_id : string) : list string :=
  filter (λ n, out !! n = Some current ∧ advanced o n current_id = false
               ∧ (n ∉ o_cordons o) ∧ is_Some (placement o n)) (nodes o g).

Lemma disturbed_is_staged admitted held o holds movement_blocks g state current_id before after
    blocked_now max_unavailable rescued filled n :
  deployment_identity (ad_current state) = Some current_id →
  (∀ n, n ∈ nodes o g → before !! n = None) →
  group_outcome (group_disposition admitted held o holds movement_blocks state current_id)
    (nodes o g) blocked_now max_unavailable (ad_current state) before after rescued filled →
  n ∈ disturbed after o g (ad_current state) current_id → n ∈ rescued ++ filled.
Proof.
  intros Hid Hb Hout [(Hn & Ha & Hc & [p Hp]) Hl]%list_elem_of_filter.
  rewrite (out_lookup _ _ _ _ _ _ _ _ _ Hout n Hl) in Hn.
  destruct (group_disposition _ _ _ _ _ _ _ n) as [c|c|e h c] eqn:Hd.
  - rewrite Hb in Hn; done.
  - exfalso. unfold group_disposition, node_disposition in Hd. case_bool_decide; [done|].
    rewrite (bool_decide_eq_false_2 (n ∈ o_cordons o)), Ha, Hp in Hd by done. simpl in Hd.
    by destruct (find_advanced _ _ _) as [[]|].
  - destruct (decide (n ∈ rescued ++ filled)) as [?|_]; [done|]. exfalso.
    apply staged_disposition in Hd as (_ & _ & _ & _ & Hhold).
    destruct h as [d|]; [|rewrite Hb in Hn; done]. injection Hn as ->.
    destruct (Hhold _ eq_refl) as (id & Hid' & Hadv). congruence.
Qed.

(** Every assignment, by the disposition of its node. *)
Lemma assign_nodes_sound groups admitted held o holds movement_blocks n d :
  assign_nodes groups admitted held o holds movement_blocks !! n = Some d →
  (n ∉ holds) ∧
  ∃ g gr state id, o_node_groups o !! n = Some g ∧ groups !! g = Some gr
    ∧ admitted !! g = Some state ∧ deployment_identity d = Some id
    ∧ (advanced o n id = true ∨ (d = ad_current state ∧ id ∉ movement_blocks)).
Proof.
  intros Hn. pose proof Hn as (g & gr & state & id & Hg & Hgr & Ha & Hid)%assign_nodes_only.
  destruct (assign_nodes_outcome groups admitted held o holds movement_blocks g gr state id)
    as (before & rescued & filled & Hb & Hout); [done..|].
  apply elem_of_nodes in Hg as Hl. rewrite (out_lookup _ _ _ _ _ _ _ _ _ Hout n Hl) in Hn.
  destruct (group_disposition _ _ _ _ _ _ _ n) as [c|c|e h c] eqn:Hd.
  - rewrite Hb in Hn; done.
  - injection Hn as <-. apply delivered_disposition in Hd as [? Hadv]. split; [done|].
    exists g, gr, state, id. split_and!; try done. destruct Hadv; [by left|by right].
  - apply staged_disposition in Hd as (? & _ & _ & _ & Hhold). split; [done|].
    destruct (decide (n ∈ rescued ++ filled)) as [Hch|_].
    + injection Hn as <-. exists g, gr, state, id. split_and!; try done. right. split; [done|].
      destruct (bool_decide (id ∈ movement_blocks)) eqn:Hbl; [|by bool_to_prop].
      destruct (out_blocked _ _ _ _ _ _ _ _ _ Hout eq_refl) as [-> ->]. set_solver.
    + destruct h as [d'|]; [|rewrite Hb in Hn; done]. injection Hn as ->.
      destruct (Hhold _ eq_refl) as (id' & ? & ?). exists g, gr, state, id'. split_and!; try done. by left.
Qed.

(** Nothing but a permitted forward move ever reaches a machine: whatever the pass assigns
    to a node, the node is not held and belongs to a planned group that has been admitted, and
    the assignment either is what that node was already handed or reports acting on, or is its
    group's current deployment with an identity the movement verdict does not block. *)
Lemma assignments_stay_or_advance groups admitted held o holds movement_blocks n d :
  assign_nodes groups admitted held o holds movement_blocks !! n = Some d →
  (n ∉ holds) ∧
  ∃ g gr state id, o_node_groups o !! n = Some g ∧ groups !! g = Some gr
    ∧ admitted !! g = Some state ∧ deployment_identity d = Some id
    ∧ (advanced o n id = true ∨ (d = ad_current state ∧ id ∉ movement_blocks)).
Proof. apply assign_nodes_sound. Qed.

(** C32. A generation respects the group's [maxUnavailable]: the running, in-rotation machines
    it tells to change never exceed it, and as soon as one of them is not already broken, they
    fit in it together with every node the pass counts as unavailable. *)
Theorem moves_within_budget groups admitted held o holds movement_blocks g gr state current_id :
  groups !! g = Some gr → admitted !! g = Some state →
  deployment_identity (ad_current state) = Some current_id →
  let disp := group_disposition admitted held o holds movement_blocks state current_id in
  let moved := disturbed (assign_nodes groups admitted held o holds movement_blocks) o g
                 (ad_current state) current_id in
  (length moved ≤ gr_max_unavailable gr)%nat
  ∧ ((∃ n, n ∈ moved ∧ ∀ h c, disp n ≠ Staged EBroken h c) →
     (length moved + unavailable_of disp (nodes o g) ≤ gr_max_unavailable gr)%nat).
Proof.
  intros Hg Ha Hid disp moved.
  destruct (assign_nodes_outcome groups admitted held o holds movement_blocks g gr state current_id)
    as (before & rescued & filled & Hb & Hout); [done..|].
  assert (∀ n, n ∈ moved → n ∈ rescued ++ filled) as Hsub
    by (intros n; by eapply disturbed_is_staged).
  assert (NoDup moved) as Hnd by (apply NoDup_filter, NoDup_nodes).
  pose proof (out_rescue_budget _ _ _ _ _ _ _ _ _ Hout) as Hr.
  pose proof (out_fill_budget _ _ _ _ _ _ _ _ _ Hout) as Hf. fold disp in Hf.
  assert (length moved ≤ length rescued + length filled)%nat as Hle.
  { rewrite <-length_app. by apply submseteq_length, NoDup_submseteq. }
  split.
  - destruct filled; [simpl in *; lia|]. specialize (Hf ltac:(done)). simpl in *. lia.
  - intros (n & Hn & Hnb). destruct filled as [|k filled].
    + exfalso. apply Hsub in Hn. rewrite app_nil_r in Hn.
      apply (out_rescued _ _ _ _ _ _ _ _ _ Hout) in Hn as (_ & h & c & Hd). by destruct (Hnb h c).
    + specialize (Hf ltac:(done)). lia.
Qed.

(** No machine is taken backwards or lost sight of: of a planned and admitted group, every
    node not held that already advanced onto the current deployment is assigned it again, and
    every one placed on a body the control plane still has is assigned something. *)
Lemma placed_nodes_are_kept groups admitted held o holds movement_blocks g gr state current_id n :
  groups !! g = Some gr → admitted !! g = Some state →
  deployment_identity (ad_current state) = Some current_id →
  n ∈ nodes o g → n ∉ holds →
  (advanced o n current_id = true →
     assign_nodes groups admitted held o holds movement_blocks !! n = Some (ad_current state))
  ∧ (∀ p, placement o n = Some p →
       is_Some (bodies_by_identity (bt_values admitted ++ bt_values held) !! p) →
       is_Some (assign_nodes groups admitted held o holds movement_blocks !! n)).
Proof.
  intros Hg Ha Hid Hl Hnh.
  destruct (assign_nodes_outcome groups admitted held o holds movement_blocks g gr state current_id)
    as (before & rescued & filled & Hb & Hout); [done..|].
  rewrite (out_lookup _ _ _ _ _ _ _ _ _ Hout n Hl).
  unfold group_disposition, node_disposition. rewrite (bool_decide_eq_false_2 (n ∈ holds)) by done.
  split.
  - intros ->. by destruct (_ && _).
  - intros p -> [body Hbody]. destruct (_ && _); [by eexists|].
    destruct (advanced o n current_id); [by eexists|].
    destruct (find_advanced _ _ _) as [[id d]|].
    + destruct (decide _); by eexists.
    + rewrite Hbody. destruct (decide _); by eexists.
Qed.

(** C39. A permitted rollout never stalls: while a node that is neither cordoned nor held has not
    advanced onto an unblocked current deployment, any pass with a free unavailability slot, or, if
    the group may have any node unavailable at all, with a staged node that reports itself broken,
    hands that deployment to a node not yet on it.  A held node does not count: it keeps what it has
    however many slots are free. *)
Theorem every_pass_moves_a_node groups admitted held o holds movement_blocks g gr state current_id n :
  groups !! g = Some gr → admitted !! g = Some state →
  deployment_identity (ad_current state) = Some current_id →
  current_id ∉ movement_blocks →
  n ∈ nodes o g → n ∉ holds → n ∉ o_cordons o → advanced o n current_id = false →
  let disp := group_disposition admitted held o holds movement_blocks state current_id in
  ((unavailable_of disp (nodes o g) < gr_max_unavailable gr)%nat
   ∨ ((0 < gr_max_unavailable gr)%nat ∧ ∃ k h c, k ∈ nodes o g ∧ disp k = Staged EBroken h c)) →
  ∃ m, m ∈ nodes o g ∧ advanced o m current_id = false
    ∧ assign_nodes groups admitted held o holds movement_blocks !! m = Some (ad_current state).
Proof.
  intros Hg Ha Hid Hnb Hl Hnh Hnc Hadv disp Hcap.
  destruct (assign_nodes_outcome groups admitted held o holds movement_blocks g gr state current_id)
    as (before & rescued & filled & Hb & Hout); [done..|].
  rewrite (bool_decide_eq_false_2 (current_id ∈ _)) in Hout by done.
  destruct (disp n) as [c|c|e h c] eqn:Hd.
  - apply left_out_disposition in Hd as [?|[_ ?]]; done.
  - exists n. split_and!; [done|done|]. rewrite (out_lookup _ _ _ _ _ _ _ _ _ Hout n Hl).
    fold disp. by rewrite Hd.
  - destruct (rescued ++ filled) as [|m l] eqn:Hch.
    + destruct (out_progress _ _ _ _ _ _ _ _ _ Hout eq_refl Hcap); [by eexists n, e, h, c|done].
    + assert (m ∈ rescued ++ filled) as Hm by (rewrite Hch; constructor).
      assert (m ∈ nodes o g ∧ ∃ e h c, disp m = Staged e h c) as (Hml & e' & h' & c' & Hdm).
      { apply elem_of_app in Hm as [Hm|Hm].
        - apply (out_rescued _ _ _ _ _ _ _ _ _ Hout) in Hm as (? & h' & c' & ?). eauto 6.
        - apply (out_filled _ _ _ _ _ _ _ _ _ Hout) in Hm as (? & e' & h' & c' & ? & _). eauto 6. }
      exists m. split_and!; [done|by apply staged_disposition in Hdm as (_ & ? & _)|].
      rewrite (out_lookup _ _ _ _ _ _ _ _ _ Hout m Hml). fold disp. rewrite Hdm.
      by rewrite decide_True.
Qed.

End assign.
