(* ===== verification/Retention.v ===== *)
(** * Retention: which bodies survive a pass

    Models [retire_deleted_groups] and [finish_staged_rollouts] of [updatec/src/rollout.rs]:
    the entries of deleted groups, and the predecessors of a rollout, are kept exactly as long
    as a node is placed on them, because a body the control plane has forgotten is one it can
    neither recognise a node on nor hold a node on. *)
From S2P Require Import Prelude Identity Maps Telemetry Window Rollout.

Section retention.
Context `{!ReportParts} `{!Semver} `{!Signed} `{!Deployments} `{!Chrono}.

#[export] Instance AdmittedDeployment_eq_dec : EqDecision AdmittedDeployment.
Proof. solve_decision. Defined.

(** [std::iter::once(&state.current).chain(state.previous.iter())] *)
Definition lineage (state : AdmittedDeployment) : list DesiredDeployment :=
  ad_current state :: ad_previous state.

Definition retire_deleted_groups (desired : BTreeMap DesiredDeployment) (o : Observations)
    (admitted : BTreeMap AdmittedDeployment) : BTreeMap AdmittedDeployment :=
  map_imap (λ name state,
    if contains_key name desired then Some state
    else match filter (λ d, placed_anywhere o d = true) (lineage state) with
         | [] => None
         | current :: previous => Some (mkAdmitted current previous)
         end) admitted.

Definition provided (admitted : BTreeMap AdmittedDeployment) : gset string :=
  list_to_set (omap (λ state, deployment_identity (ad_current state)) (bt_values admitted)).

Definition needed (o : Observations) (provided : gset string) (d : DesiredDeployment) : bool :=
  placed_anywhere o d
  && negb (option_some_and (λ id, bool_decide (id ∈ provided)) (deployment_identity d)).

Definition finish_one (desired : BTreeMap DesiredDeployment) (o : Observations)
    (provided : gset string) (name : string) (state : AdmittedDeployment) : AdmittedDeployment :=
  if negb (contains_key name desired) || bool_decide (ad_previous state = []) then state
  else
    let live := filter (λ d, needed o provided d = true) (ad_previous state) in
    if fully_handed o name (ad_current state) then mkAdmitted (ad_current state) live
    else match live with
         | [] => mkAdmitted (ad_current state) (take 1 (ad_previous state))
         | _ => mkAdmitted (ad_current state) live
         end.

Definition finish_staged_rollouts (desired : BTreeMap DesiredDeployment) (o : Observations)
    (admitted : BTreeMap AdmittedDeployment) : BTreeMap AdmittedDeployment :=
  map_imap (λ name state, Some (finish_one desired o (provided admitted) name state)) admitted.

(** The identities some entry still has a body for. *)
Definition has_body (admitted : BTreeMap AdmittedDeployment) (id : string) : Prop :=
  ∃ name state d, admitted !! name = Some state ∧ d ∈ lineage state
    ∧ deployment_identity d = Some id.

Lemma retire_lookup desired o admitted name state :
  retire_deleted_groups desired o admitted !! name = Some state →
  ∃ state0, admitted !! name = Some state0
    ∧ (if contains_key name desired then state = state0
       else ∀ d, d ∈ lineage state ↔ d ∈ lineage state0 ∧ placed_anywhere o d = true).
Proof.
  unfold retire_deleted_groups. rewrite map_lookup_imap.
  destruct (admitted !! name) as [state0|]; simpl; [|done]. intros Hr. exists state0. split; [done|].
  destruct (contains_key name desired); [congruence|]. intros d.
  destruct (filter _ (lineage state0)) as [|c l] eqn:Hf; [done|]. injection Hr as <-.
  change (lineage (mkAdmitted c l)) with (c :: l). rewrite <-Hf, list_elem_of_filter. naive_solver.
Qed.

Lemma placed_anywhere_true o d :
  placed_anywhere o d = true ↔
  ∃ id n, deployment_identity d = Some id ∧ is_Some (o_node_groups o !! n) ∧ advanced o n id = true.
Proof.
  unfold placed_anywhere. destruct (deployment_identity d) as [id|].
  - rewrite existsb_elem. setoid_rewrite elem_of_bt_keys. naive_solver.
  - naive_solver.
Qed.

(** Pruning keeps a body for every identity a selected node is on. *)
Lemma retire_keeps_bodies desired o admitted id :
  has_body admitted id → (∃ n, is_Some (o_node_groups o !! n) ∧ advanced o n id = true) →
  has_body (retire_deleted_groups desired o admitted) id.
Proof.
  intros (name & state & d & Hs & Hd & Hid) (n & Hn & Ha).
  assert (placed_anywhere o d = true) as Hp by (apply placed_anywhere_true; eauto 6).
  unfold has_body, retire_deleted_groups. setoid_rewrite map_lookup_imap.
  exists name. rewrite Hs. simpl. destruct (contains_key name desired); [by eauto|].
  assert (d ∈ filter (λ d, placed_anywhere o d = true) (lineage state)) as Hf
    by (by apply list_elem_of_filter).
  destruct (filter _ (lineage state)) as [|c l]; [by apply not_elem_of_nil in Hf|].
  eexists _, d. by split_and!.
Qed.

Lemma elem_of_provided admitted id :
  id ∈ provided admitted ↔
  ∃ name state, admitted !! name = Some state ∧ deployment_identity (ad_current state) = Some id.
Proof.
  unfold provided. rewrite elem_of_list_to_set, list_elem_of_omap.
  setoid_rewrite elem_of_bt_values. naive_solver.
Qed.

Lemma finish_one_current desired o ids name state :
  ad_current (finish_one desired o ids name state) = ad_current state.
Proof.
  unfold finish_one. destruct (_ || _); [done|]. destruct (fully_handed _ _ _); [done|].
  by destruct (filter _ _).
Qed.

Lemma finish_one_needed desired o ids name state d :
  d ∈ ad_previous state → needed o ids d = true →
  d ∈ ad_previous (finish_one desired o ids name state).
Proof.
  intros Hd Hn. unfold finish_one. destruct (_ || _); [done|].
  assert (d ∈ filter (λ d, needed o ids d = true) (ad_previous state)) as Hf
    by (by apply list_elem_of_filter).
  destruct (fully_handed _ _ _); [done|]. destruct (filter _ _); [by apply not_elem_of_nil in Hf|done].
Qed.

Lemma finish_one_subset desired o ids name state d :
  d ∈ ad_previous (finish_one desired o ids name state) → d ∈ ad_previous state.
Proof.
  unfold finish_one. destruct (_ || _); [done|]. destruct (fully_handed _ _ _).
  { intros [_ ?]%list_elem_of_filter. done. }
  destruct (filter _ _) as [|x l] eqn:Hf; simpl.
  - destruct (ad_previous state); simpl; set_solver.
  - rewrite <-Hf. by intros [_ ?]%list_elem_of_filter.
Qed.

Lemma finish_keeps_bodies desired o admitted id :
  has_body admitted id → (∃ n, is_Some (o_node_groups o !! n) ∧ advanced o n id = true) →
  has_body (finish_staged_rollouts desired o admitted) id.
Proof.
  intros (name & state & d & Hs & Hd & Hid) (n & Hn & Ha).
  assert (∀ name state, admitted !! name = Some state →
    finish_staged_rollouts desired o admitted !! name
    = Some (finish_one desired o (provided admitted) name state)) as Hlook.
  { intros name' state' Hs'. unfold finish_staged_rollouts. by rewrite map_lookup_imap, Hs'. }
  destruct (decide (id ∈ provided admitted)) as [Hp|Hp].
  { apply elem_of_provided in Hp as (name' & state' & Hs' & Hid').
    eexists name', _, (ad_current state'). split_and!; [by apply Hlook| |done].
    unfold lineage. rewrite finish_one_current. constructor. }
  assert (d ∈ ad_previous state) as Hprev.
  { apply elem_of_cons in Hd as [->|?]; [|done]. destruct Hp. apply elem_of_provided. eauto. }
  eexists name, _, d. split_and!; [by apply Hlook| |done]. unfold lineage. right.
  apply finish_one_needed; [done|]. unfold needed. rewrite Hid. simpl.
  rewrite bool_decide_eq_false_2, andb_true_r by done. apply placed_anywhere_true. eauto 6.
Qed.

(** A pass never forgets a body a machine is on: pruning deleted groups and retired
    predecessors keeps, for every identity some selected node was handed or reports acting on,
    a body the admitted map had for it; a group still selected by the inventory keeps its
    entry and its current deployment, and a staging rollout keeps a predecessor. *)
Lemma placed_bodies_survive_pruning desired o admitted id :
  let pruned := finish_staged_rollouts desired o (retire_deleted_groups desired o admitted) in
  has_body admitted id → (∃ n, is_Some (o_node_groups o !! n) ∧ advanced o n id = true) →
  has_body pruned id
  ∧ ∀ g state, admitted !! g = Some state → is_Some (desired !! g) →
      ∃ state', pruned !! g = Some state' ∧ ad_current state' = ad_current state
        ∧ (ad_previous state ≠ [] → fully_handed o g (ad_current state) = false →
           ad_previous state' ≠ []).
Proof.
  intros pruned Hb Hn. split; [by apply finish_keeps_bodies, Hn; apply retire_keeps_bodies|].
  intros g state Hg Hd. assert (retire_deleted_groups desired o admitted !! g = Some state) as Hr.
  { unfold retire_deleted_groups. rewrite map_lookup_imap, Hg. simpl.
    by rewrite (proj2 (contains_key_true g desired)). }
  unfold pruned, finish_staged_rollouts. rewrite map_lookup_imap, Hr. eexists. split; [done|].
  split; [apply finish_one_current|]. intros Hp Hf. unfold finish_one.
  rewrite (proj2 (contains_key_true g desired)), bool_decide_eq_false_2, Hf by done. simpl.
  destruct (filter _ _); [|done]. by destruct (ad_previous state).
Qed.

End retention.
