(* ===== verification/Regression.v ===== *)
(** * Regression: proofs, halts and the rollback response

    Models [set_members], [named_identities], [regression_verdict], [rollback_groups],
    [rollback_target] and [rollback_response] of [updatec/src/rollout.rs].  A panic of the code
    ([expect], an index out of bounds) is [None]. *)
From S2P Require Import Prelude Identity Maps Telemetry Window Rollout Retention.

Section regression.
Context `{!ReportParts} `{!Semver} `{!Signed} `{!Deployments} `{!Chrono}.

Section inventory.
Context (desired : BTreeMap DesiredDeployment) (group_labels : BTreeMap (BTreeMap string)).

(** The keys come out ascending, so the code's [sort] leaves them where they are. *)
Definition set_members (set : UpdateGroupSet) : list string :=
  filter (λ name, option_some_and (selector_matches (us_match_labels set))
                    (group_labels !! name) = true) (bt_keys desired).

Definition named_identities (admitted : BTreeMap AdmittedDeployment) (group : string)
    : list string :=
  omap deployment_identity
    (option_list (ad_current <$> admitted !! group) ++ option_list (desired !! group)).

(** ** The verdict *)

Record Regressions : Type := mkRegressions {
  rg_proofs : BTreeMap BTreeSet;
  rg_halts : BTreeMap (string * nat);
}.

Definition candidates (admitted : BTreeMap AdmittedDeployment) : list DesiredDeployment :=
  (ad_current <$> bt_values admitted) ++ bt_values desired.

Definition note_candidate (observed : ObservationLog) (evidence : BTreeMap (string * BTreeSet))
    (target : DesiredDeployment) : BTreeMap (string * BTreeSet) :=
  match deployment_identity target with
  | None => evidence
  | Some id =>
      if contains_key id evidence then evidence
      else if bool_decide (provers id observed = ∅) then evidence
      else <[id := (deployment_name target, provers id observed)]> evidence
  end.

Definition set_threshold (set : UpdateGroupSet) : nat :=
  Nat.max (default 1%nat (us_max_regressions set)) 1.

(** What the threshold loop visits: every identity a member of a set names, with its bound. *)
Definition named_thresholds (sets : list UpdateGroupSet) (admitted : BTreeMap AdmittedDeployment)
    : list (string * nat) :=
  sets ≫= λ s, set_members s ≫= λ member,
    (λ id, (id, set_threshold s)) <$> named_identities admitted member.

Definition note_threshold (evidence : BTreeMap (string * BTreeSet)) (thresholds : BTreeMap nat)
    (x : string * nat) : BTreeMap nat :=
  if contains_key x.1 evidence
  then <[x.1 := Nat.min (default x.2 (thresholds !! x.1)) x.2]> thresholds
  else thresholds.

Definition regression_verdict (sets : list UpdateGroupSet)
    (admitted : BTreeMap AdmittedDeployment) (observed : ObservationLog)
    (vetoed : BTreeMap VetoedDeployment) : Regressions :=
  let evidence := foldl (note_candidate observed) ∅ (candidates admitted) in
  if bool_decide (evidence = ∅) && bool_decide (vetoed = ∅) then mkRegressions ∅ ∅
  else
    let thresholds := foldl (note_threshold evidence) ∅ (named_thresholds sets admitted) in
    let halts :=
      map_imap (λ id (x : string * BTreeSet),
        if (default 1%nat (thresholds !! id) <=? size x.2)%nat then Some (x.1, size x.2) else None)
        evidence in
    mkRegressions (snd <$> evidence)
      (halts ∪ ((λ veto, (vd_deployment veto, vd_evidence veto)) <$> vetoed)).

(** ** The rollback response *)

Definition note_policy (policies : BTreeMap (nat * nat)) (x : string * RegressionResponse)
    : BTreeMap (nat * nat) :=
  let '(governing, rollback) := default (0, 0)%nat (policies !! x.1) in
  <[x.1 := (S governing, if bool_decide (x.2 = RRollback) then S rollback else rollback)]> policies.

Definition rollback_groups (sets : list UpdateGroupSet) : BTreeSet :=
  let policies :=
    foldl note_policy ∅
      (sets ≫= λ s, (λ member, (member, us_on_regression s)) <$> set_members s) in
  dom (filter (λ x : string * (nat * nat), (0 < x.2.1)%nat ∧ x.2.1 = x.2.2) policies).

Fixpoint rollback_target_from (index : nat) (current : DesiredDeployment)
    (previous : list DesiredDeployment) (blocks : BTreeSet) : option (nat * DesiredDeployment) :=
  match previous with
  | [] => None
  | d :: rest =>
      let found :=
        previous_identity ← deployment_identity d;
        restored ← rollback_to current d;
        restored_identity ← deployment_identity restored;
        if negb (bool_decide (previous_identity ∈ blocks))
           && negb (bool_decide (restored_identity ∈ blocks))
        then Some (index, restored) else None in
      match found with
      | Some x => Some x
      | None => rollback_target_from (S index) current rest blocks
      end
  end.

Definition rollback_target (current : DesiredDeployment) (previous : list DesiredDeployment)
    (blocks : BTreeSet) : option (nat * DesiredDeployment) :=
  rollback_target_from 0 current previous blocks.

(** A prover of this group has recovered: moved off the body, or healthy and still stating
    its rejection. *)
Definition recovered (o : Observations) (id node : string) : bool :=
  match report o node with
  | Some r =>
      if bool_decide (nr_assignment_sha256 r = id) then nr_healthy r && nr_rejected r else true
  | None => false
  end.

Definition provers_recovered (o : Observations) (regressions : Regressions) (name id : string)
    : bool :=
  match rg_proofs regressions !! id with
  | None => true
  | Some provers =>
      forallb (recovered o id) (filter (λ n, n ∈ nodes o name) (elements provers))
  end.

Record rebase : Type := mkRebase {
  rb_name : string;
  rb_identity : string;
  rb_index : nat;
  rb_restored : DesiredDeployment;
}.

Definition plan_rebase (policies : BTreeSet) (o : Observations) (regressions : Regressions)
    (blocks : BTreeSet) (x : string * AdmittedDeployment) : option rebase :=
  let '(name, state) := x in
  if contains_key name desired && bool_decide (name ∈ policies) then
    id ← deployment_identity (ad_current state);
    if contains_key id (rg_halts regressions) then
      '(index, restored) ← rollback_target (ad_current state) (ad_previous state) blocks;
      if provers_recovered o regressions name id
      then Some (mkRebase name id index restored) else None
    else None
  else None.

(** The group's entry after its rebase: the halted body and the predecessor stay named. *)
Definition rebase_state (r : rebase) (state : AdmittedDeployment) : option AdmittedDeployment :=
  predecessor ← ad_previous state !! rb_index r;
  let previous := delete (rb_index r) (ad_previous state) in
  let previous :=
    if bool_decide (predecessor = rb_restored r) then previous else predecessor :: previous in
  Some (mkAdmitted (rb_restored r) (ad_current state :: previous)).

Definition apply_rebase (regressions : Regressions)
    (acc : BTreeMap AdmittedDeployment * BTreeMap VetoedDeployment) (r : rebase)
    : option (BTreeMap AdmittedDeployment * BTreeMap VetoedDeployment) :=
  let '(admitted, vetoed) := acc in
  state ← admitted !! rb_name r;
  state ← rebase_state r state;
  '(deployment, evidence) ← rg_halts regressions !! rb_identity r;
  Some (<[rb_name r := state]> admitted,
        if contains_key (rb_identity r) vetoed then vetoed
        else <[rb_identity r := mkVetoed deployment evidence]> vetoed).

Fixpoint apply_rebases (regressions : Regressions)
    (acc : BTreeMap AdmittedDeployment * BTreeMap VetoedDeployment) (l : list rebase)
    : option (BTreeMap AdmittedDeployment * BTreeMap VetoedDeployment) :=
  match l with
  | [] => Some acc
  | r :: l => acc ← apply_rebase regressions acc r; apply_rebases regressions acc l
  end.

Definition rollback_response (sets : list UpdateGroupSet) (o : Observations)
    (regressions : Regressions) (blocks : BTreeSet) (admitted : BTreeMap AdmittedDeployment)
    (vetoed : BTreeMap VetoedDeployment)
    : option (BTreeMap AdmittedDeployment * BTreeMap VetoedDeployment) :=
  if bool_decide (rg_halts regressions = ∅) then Some (admitted, vetoed)
  else
    apply_rebases regressions (admitted, vetoed)
      (omap (plan_rebase (rollback_groups sets) o regressions blocks) (bt_iter admitted)).

(** ** What the verdict says *)

(** The deployments the fleet still names. *)
Definition candidate (admitted : BTreeMap AdmittedDeployment) (id : string) : Prop :=
  ∃ d, d ∈ candidates admitted ∧ deployment_identity d = Some id.

(** Set [s] governs identity [id]: one of its members names it. *)
Definition governs (admitted : BTreeMap AdmittedDeployment) (s : UpdateGroupSet) (id : string)
    : Prop :=
  ∃ member, member ∈ set_members s ∧ id ∈ named_identities admitted member.

Lemma elem_of_set_members s name :
  name ∈ set_members s ↔
  is_Some (desired !! name) ∧
  ∃ labels, group_labels !! name = Some labels ∧ selector_matches (us_match_labels s) labels = true.
Proof.
  unfold set_members. rewrite list_elem_of_filter, elem_of_bt_keys.
  destruct (group_labels !! name); simpl; naive_solver.
Qed.

Lemma NoDup_set_members s : NoDup (set_members s).
Proof. apply NoDup_filter, NoDup_bt_keys. Qed.

Lemma candidate_evidence observed l : ∀ ev id,
  (∀ x, ev !! id = Some x → x.2 = provers id observed ∧ x.2 ≠ ∅) →
  match foldl (note_candidate observed) ev l !! id with
  | Some x => x.2 = provers id observed ∧ x.2 ≠ ∅
              ∧ (is_Some (ev !! id) ∨ ∃ d, d ∈ l ∧ deployment_identity d = Some id)
  | None => ev !! id = None
            ∧ ((∃ d, d ∈ l ∧ deployment_identity d = Some id) → provers id observed = ∅)
  end.
Proof.
  induction l as [|d l IH]; intros ev id Hev; cbn [foldl].
  { destruct (ev !! id) as [x|] eqn:Hx; [|split; [done|set_solver]].
    destruct (Hev x eq_refl). split_and!; [done|done|left; by eexists]. }
  assert (∀ x, note_candidate observed ev d !! id = Some x →
    x.2 = provers id observed ∧ x.2 ≠ ∅
    ∧ (is_Some (ev !! id) ∨ deployment_identity d = Some id)) as Hstep.
  { intros x. unfold note_candidate. destruct (deployment_identity d) as [i|]; [|naive_solver].
    destruct (contains_key i ev); [naive_solver|]. case_bool_decide; [naive_solver|].
    destruct (decide (i = id)) as [->|Hne].
    - rewrite lookup_insert_eq. intros [= <-]. naive_solver.
    - rewrite lookup_insert_ne by done. naive_solver. }
  specialize (IH (note_candidate observed ev d) id ltac:(naive_solver)).
  destruct (foldl _ _ l !! id) as [x|].
  - destruct IH as (? & ? & [[y Hy]|(d' & ? & ?)]); split_and!; try done.
    + destruct (Hstep y Hy) as (_ & _ & [?|?]); [by left|right]. exists d. split; [constructor|done].
    + right. exists d'. split; [by constructor|done].
  - destruct IH as [Hn Hl]. unfold note_candidate in Hn. split.
    + destruct (deployment_identity d) as [i|]; [|done]. destruct (contains_key i ev); [done|].
      case_bool_decide; [done|]. destruct (decide (i = id)) as [->|Hne];
        [by rewrite lookup_insert_eq in Hn|by rewrite lookup_insert_ne in Hn].
    + intros (d' & [->|Hd']%elem_of_cons & Hid); [|eauto]. rewrite Hid in Hn.
      destruct (contains_key id ev) eqn:Hc; [apply contains_key_true in Hc as [? ?]; congruence|].
      case_bool_decide; [done|]. by rewrite lookup_insert_eq in Hn.
Qed.

Lemma size_provers (ns : BTreeSet) : ns ≠ ∅ ↔ size ns ≠ 0%nat.
Proof. rewrite size_non_empty_iff. unfold_leibniz. done. Qed.

(** The evidence map, in closed form. *)
Lemma evidence_lookup observed admitted id ns :
  (snd <$> foldl (note_candidate observed) ∅ (candidates admitted)) !! id = Some ns ↔
  candidate admitted id ∧ ns = provers id observed ∧ ns ≠ ∅.
Proof.
  rewrite lookup_fmap.
  pose proof (candidate_evidence observed (candidates admitted) ∅ id ltac:(done)) as He.
  destruct (foldl _ _ _ !! id) as [x|]; simpl.
  - destruct He as (Hx & Hne & [[? ?]|Hc]); [done|]. split; [|intros (_ & -> & _); by rewrite <-Hx].
    intros [= <-]. done.
  - destruct He as [_ He]. split; [done|]. intros (Hc & -> & Hne). by rewrite He in Hne.
Qed.

(** The tightest threshold is reached exactly when some governing one is. *)
Lemma thresholds_reached evidence l id k : ∀ th,
  is_Some (evidence !! id) →
  (default 1%nat (foldl (note_threshold evidence) th l !! id) ≤ k)%nat ↔
  (∃ t, (id, t) ∈ l ∧ (t ≤ k)%nat) ∨
  (match th !! id with Some t => (t ≤ k)%nat | None => (1 ≤ k)%nat ∧ ∀ t, (id, t) ∉ l end).
Proof.
  intros th He. revert th. induction l as [|[i t] l IH]; intros th; cbn [foldl].
  { destruct (th !! id); simpl; set_solver. }
  rewrite IH. unfold note_threshold. cbn [fst snd].
  destruct (decide (i = id)) as [->|Hne].
  - rewrite (proj2 (contains_key_true id evidence) He), lookup_insert_eq. split.
    + intros [(t' & ? & ?)|Hm]; [left; exists t'; split; [by constructor|done]|].
      destruct (th !! id) as [t'|]; simpl in Hm.
      * destruct (Nat.le_gt_cases t' k); [by right|]. left. exists t. split; [constructor|lia].
      * left. exists t. split; [constructor|lia].
    + intros [(t' & [[= ->]|?]%elem_of_cons & ?)|Hm]; [|by left; eauto|].
      * right. destruct (th !! id); simpl; lia.
      * destruct (th !! id) as [t'|]; simpl; [right; lia|].
        destruct Hm as [_ Hm]. by destruct (Hm t); constructor.
  - assert ((if contains_key i evidence
             then <[i := Nat.min (default t (th !! i)) t]> th else th) !! id = th !! id) as ->
      by (destruct (contains_key i evidence); [by rewrite lookup_insert_ne|done]).
    destruct (th !! id); set_solver.
Qed.

Lemma elem_of_named_thresholds sets admitted id t :
  (id, t) ∈ named_thresholds sets admitted ↔
  ∃ s, s ∈ sets ∧ governs admitted s id ∧ t = set_threshold s.
Proof.
  unfold named_thresholds, governs. rewrite list_elem_of_bind. split.
  - intros (s & Hin & Hs). apply list_elem_of_bind in Hin as (m & Hin & Hm).
    apply list_elem_of_fmap in Hin as (i & [= -> ->] & Hi). eauto 6.
  - intros (s & Hs & (m & Hm & Hi) & ->). exists s. split; [|done].
    apply list_elem_of_bind. exists m. split; [|done]. apply list_elem_of_fmap. eauto.
Qed.

(** The verdict without its early exit. *)
Lemma regression_verdict_unfold sets admitted observed vetoed :
  let evidence := foldl (note_candidate observed) ∅ (candidates admitted) in
  let thresholds := foldl (note_threshold evidence) ∅ (named_thresholds sets admitted) in
  rg_proofs (regression_verdict sets admitted observed vetoed) = snd <$> evidence
  ∧ rg_halts (regression_verdict sets admitted observed vetoed)
    = map_imap (λ id (x : string * BTreeSet),
        if (default 1%nat (thresholds !! id) <=? size x.2)%nat then Some (x.1, size x.2) else None)
        evidence ∪ ((λ veto, (vd_deployment veto, vd_evidence veto)) <$> vetoed).
Proof.
  intros evidence thresholds. unfold regression_verdict. fold evidence. fold thresholds.
  destruct (_ && _) eqn:He; [|done]. apply andb_true_iff in He as [He Hv]. bool_to_prop.
  rewrite He, Hv, !fmap_empty, map_union_empty. done.
Qed.

(** The halts, in terms of the evidence. *)
Lemma halts_lookup sets admitted observed vetoed id :
  is_Some (rg_halts (regression_verdict sets admitted observed vetoed) !! id) ↔
  is_Some (vetoed !! id) ∨
  (candidate admitted id ∧ (1 ≤ size (provers id observed))%nat
   ∧ ((∀ s, s ∈ sets → ~ governs admitted s id)
      ∨ ∃ s, s ∈ sets ∧ governs admitted s id
             ∧ (set_threshold s ≤ size (provers id observed))%nat)).
Proof.
  destruct (regression_verdict_unfold sets admitted observed vetoed) as [_ Hh].
  rewrite Hh. set (evidence := foldl _ ∅ (candidates admitted)) in *.
  rewrite lookup_union_is_Some, map_lookup_imap, lookup_fmap, fmap_is_Some.
  pose proof (evidence_lookup observed admitted id) as He. fold evidence in He.
  rewrite lookup_fmap in He. destruct (evidence !! id) as [[name ns]|] eqn:Hev; simpl in *.
  - destruct (proj1 (He ns) eq_refl) as (Hc & -> & Hne).
    assert (1 ≤ size (provers id observed))%nat as Hone
      by (apply size_provers in Hne; lia).
    destruct (Nat.leb_spec (default 1%nat (foldl (note_threshold evidence) ∅
      (named_thresholds sets admitted) !! id)) (size (provers id observed))) as [Hle|Hgt].
    + apply thresholds_reached in Hle; [|by rewrite Hev]. rewrite lookup_empty in Hle.
      setoid_rewrite elem_of_named_thresholds in Hle.
      split; [intros _; right|intros _; left; by eexists]. split_and!; [done|done|].
      destruct Hle as [(t & (s & ? & ? & ->) & ?)|[_ Hno]]; [right; eauto|left].
      intros s Hs Hg. apply (Hno (set_threshold s)). eauto.
    + split; [intros [[? ?]|?]; [done|by left]|intros [?|(_ & _ & Hg)]; [by right|]].
      exfalso. apply Nat.lt_nge in Hgt. apply Hgt.
      apply thresholds_reached; [by rewrite Hev|]. rewrite lookup_empty.
      setoid_rewrite elem_of_named_thresholds. destruct Hg as [Hno|(s & ? & ? & ?)].
      * right. split; [done|]. intros t (s & Hs & Hg & _). by apply (Hno s).
      * left. eauto 6.
  - split; [intros [[? ?]|?]; [done|by left]|intros [?|(Hc & Hone & _)]; [by right|]].
    assert (provers id observed ≠ ∅) as Hne by (apply size_provers; lia).
    discriminate (proj2 (He (provers id observed)) (conj Hc (conj eq_refl Hne))).
Qed.

(** The regression verdict is a function of the standing evidence: an identity is halted
    exactly when a durable veto names it, or when the fleet still names it and the distinct
    nodes whose signed reports reject it reach the tightest threshold of the sets whose
    members name it, one when no set does; its proofs are precisely those nodes. *)
Lemma halted_iff_proven sets admitted observed vetoed id :
  let r := regression_verdict sets admitted observed vetoed in
  (is_Some (rg_halts r !! id) ↔
   is_Some (vetoed !! id) ∨
   (candidate admitted id ∧ (1 ≤ size (provers id observed))%nat
    ∧ ((∀ s, s ∈ sets → ~ governs admitted s id)
       ∨ ∃ s, s ∈ sets ∧ governs admitted s id
              ∧ (set_threshold s ≤ size (provers id observed))%nat)))
  ∧ ∀ ns, rg_proofs r !! id = Some ns ↔
          candidate admitted id ∧ ns = provers id observed ∧ ns ≠ ∅.
Proof.
  split; [apply halts_lookup|]. intros ns.
  destruct (regression_verdict_unfold sets admitted observed vetoed) as [-> _].
  apply evidence_lookup.
Qed.

(** ** What the rollback response does *)

Lemma policies_count l : ∀ policies name,
  foldl note_policy policies l !! name
  = let c := count_if (λ x : string * RegressionResponse, bool_decide (x.1 = name)) l in
    let r := count_if (λ x, bool_decide (x.1 = name) && bool_decide (x.2 = RRollback)) l in
    match policies !! name with
    | Some (g, k) => Some (g + c, k + r)%nat
    | None => if bool_decide (c = 0)%nat then None else Some (c, r)
    end.
Proof.
  unfold count_if. induction l as [|[m p] l IH]; intros policies name; cbn [foldl].
  { simpl. destruct (policies !! name) as [[]|]; [|done]. by rewrite !Nat.add_0_r. }
  rewrite IH. unfold note_policy. cbn [fst snd]. rewrite !filter_cons. cbn [fst snd].
  destruct (decide (m = name)) as [->|Hne].
  - rewrite (bool_decide_eq_true_2 (name = name)) by done. simpl.
    destruct (policies !! name) as [[g k]|] eqn:Hp; simpl; rewrite lookup_insert_eq;
      destruct (bool_decide (p = RRollback)); simpl; f_equal; f_equal; lia.
  - rewrite (bool_decide_eq_false_2 (m = name)) by done. simpl.
    destruct (default _ (policies !! m)). by rewrite lookup_insert_ne.
Qed.

(** Unanimity: at least one set governs the group, and every one that does says rollback. *)
Lemma elem_of_rollback_groups sets name :
  name ∈ rollback_groups sets ↔
  (∃ s, s ∈ sets ∧ name ∈ set_members s)
  ∧ ∀ s, s ∈ sets → name ∈ set_members s → us_on_regression s = RRollback.
Proof.
  unfold rollback_groups. set (l := sets ≫= _).
  assert (∀ m p, (m, p) ∈ l ↔ ∃ s, s ∈ sets ∧ m ∈ set_members s ∧ p = us_on_regression s) as Hl.
  { intros m p. unfold l. rewrite list_elem_of_bind. setoid_rewrite list_elem_of_fmap. naive_solver. }
  destruct (count_if_le (λ x : string * RegressionResponse, bool_decide (x.1 = name))
    (λ x, bool_decide (x.1 = name) && bool_decide (x.2 = RRollback)) l) as [_ Heq].
  { intros x. destruct (bool_decide (x.1 = name)); done. }
  pose proof (count_if_pos (λ x : string * RegressionResponse, bool_decide (x.1 = name)) l) as Hpos.
  rewrite elem_of_dom. unfold is_Some. setoid_rewrite map_lookup_filter_Some.
  rewrite policies_count, lookup_empty. cbn zeta. split.
  - intros ([c r] & Hs & Hc & He). case_bool_decide; [done|]. injection Hs as <- <-. simpl in *.
    apply Hpos in Hc as ([m p] & Hin & Hm). bool_to_prop. simpl in Hm. subst m. split.
    + apply Hl in Hin as (s & ? & ? & _). eauto.
    + intros s Hs Hm. pose proof (proj1 Heq He (name, us_on_regression s)) as Hx. simpl in Hx.
      rewrite (bool_decide_eq_true_2 (name = name)) in Hx by done. simpl in Hx.
      specialize (Hx ltac:(apply Hl; eauto) eq_refl). by bool_to_prop.
  - intros ((s & Hs & Hm) & Hall).
    assert (0 < count_if (λ x : string * RegressionResponse, bool_decide (x.1 = name)) l)%nat as Hc.
    { apply Hpos. exists (name, us_on_regression s). split; [apply Hl; eauto|].
      by apply bool_decide_eq_true. }
    case_bool_decide; [lia|]. eexists. split; [done|]. simpl. split; [done|]. apply Heq.
    intros [m p] Hin Hmn. simpl in *. rewrite Hmn. bool_to_prop. subst m.
    apply Hl in Hin as (s' & ? & ? & ->). by rewrite (Hall s').
Qed.

Lemma rollback_target_from_spec current previous blocks : ∀ index i restored,
  rollback_target_from index current previous blocks = Some (i, restored) →
  ∃ d id, previous !! (i - index)%nat = Some d ∧ (index ≤ i)%nat
    ∧ rollback_to current d = Some restored
    ∧ deployment_identity restored = Some id ∧ (id ∉ blocks)
    ∧ (∀ pid, deployment_identity d = Some pid → pid ∉ blocks).
Proof.
  induction previous as [|d previous IH]; intros index i restored; cbn [rollback_target_from]; [done|].
  destruct (_ ≫= _) as [x|] eqn:Hf.
  - intros [= ->]. destruct (deployment_identity d) as [pid|] eqn:Hpid; simpl in Hf; [|done].
    destruct (rollback_to current d) as [res|] eqn:Hr; simpl in Hf; [|done].
    destruct (deployment_identity res) as [rid|] eqn:Hrid; simpl in Hf; [|done].
    destruct (_ && _) eqn:Hb; [|done]. injection Hf as <- <-.
    apply andb_true_iff in Hb as [Hb1 Hb2]. rewrite negb_true_iff in Hb1, Hb2. bool_to_prop.
    exists d, rid. rewrite Nat.sub_diag. split_and!; try done. naive_solver.
  - intros (d' & id & Hd & Hle & ?)%IH. exists d', id. split; [|naive_solver lia].
    by replace (i - index)%nat with (S (i - S index)) by lia.
Qed.

Lemma elem_of_delete_app {A} (l : list A) i x y :
  l !! i = Some x → y ∈ l → y = x ∨ y ∈ delete i l.
Proof.
  intros Hi Hy. pose proof (delete_Permutation l i x Hi) as Hp. rewrite Hp in Hy.
  by apply elem_of_cons in Hy.
Qed.

Lemma rebase_state_lineage r state state' :
  rebase_state r state = Some state' →
  ad_current state' = rb_restored r ∧ ∀ d, d ∈ lineage state → d ∈ lineage state'.
Proof.
  unfold rebase_state. destruct (ad_previous state !! rb_index r) as [p|] eqn:Hp; simpl; [|done].
  intros [= <-]. split; [done|]. unfold lineage. simpl. intros d [->|Hd]%elem_of_cons; [set_solver|].
  destruct (elem_of_delete_app _ _ _ _ Hp Hd) as [->|?]; case_bool_decide; set_solver.
Qed.

Lemma apply_rebases_spec regressions l : ∀ admitted vetoed,
  NoDup (rb_name <$> l) →
  (∀ r, r ∈ l → is_Some (admitted !! rb_name r ≫= rebase_state r)
                ∧ is_Some (rg_halts regressions !! rb_identity r)) →
  ∃ admitted' vetoed',
    apply_rebases regressions (admitted, vetoed) l = Some (admitted', vetoed')
    ∧ (∀ id v, vetoed !! id = Some v → vetoed' !! id = Some v)
    ∧ (∀ id, is_Some (vetoed' !! id) →
         is_Some (vetoed !! id) ∨ is_Some (rg_halts regressions !! id))
    ∧ (∀ r, r ∈ l → is_Some (vetoed' !! rb_identity r))
    ∧ (∀ g, g ∉ rb_name <$> l → admitted' !! g = admitted !! g)
    ∧ (∀ r, r ∈ l → admitted' !! rb_name r = admitted !! rb_name r ≫= rebase_state r).
Proof.
  induction l as [|r l IH]; intros admitted vetoed Hnd Hl; cbn [apply_rebases].
  { exists admitted, vetoed. split_and!; try done; set_solver. }
  destruct (Hl r ltac:(constructor)) as [[state' Hst] [[dep ev] Hh]].
  destruct (admitted !! rb_name r) as [state|] eqn:Hs; simpl in Hst; [|done].
  apply NoDup_cons in Hnd as [Hr Hnd]. unfold apply_rebase. rewrite Hs. simpl. rewrite Hst. simpl.
  rewrite Hh. simpl. set (vetoed1 := if contains_key _ _ then _ else _).
  assert (∀ r', r' ∈ l → rb_name r' ≠ rb_name r) as Hne.
  { intros r' Hr' Heq. apply Hr. rewrite <-Heq. by apply list_elem_of_fmap_2. }
  assert (is_Some (vetoed1 !! rb_identity r)) as Hv1.
  { unfold vetoed1. destruct (contains_key _ _) eqn:Hc; [by apply contains_key_true|].
    rewrite lookup_insert_eq. by eexists. }
  assert (∀ id v, vetoed !! id = Some v → vetoed1 !! id = Some v) as Hmono.
  { intros id v Hv. unfold vetoed1. destruct (contains_key _ _) eqn:Hc; [done|].
    apply contains_key_false in Hc. rewrite lookup_insert_ne; [done|]. intros <-. congruence. }
  assert (∀ id, is_Some (vetoed1 !! id) →
    is_Some (vetoed !! id) ∨ is_Some (rg_halts regressions !! id)) as Hsub.
  { intros id. unfold vetoed1. destruct (contains_key _ _); [by left|].
    destruct (decide (rb_identity r = id)) as [<-|?]; [right; by eexists|].
    rewrite lookup_insert_ne by done. by left. }
  destruct (IH (<[rb_name r := state']> admitted) vetoed1 Hnd)
    as (A & V & Hrun & Hm & Hs' & Hid & Hoth & Heach).
  { intros r' Hr'. rewrite lookup_insert_ne by (symmetry; auto). apply Hl. by constructor. }
  exists A, V. split_and!; [done|by eauto| | | |].
  - intros id Hv. destruct (Hs' id Hv) as [?|?]; [by apply Hsub|by right].
  - intros r' [->|Hr']%elem_of_cons; [|by apply Hid]. destruct Hv1 as [v Hv]. eexists. by apply Hm.
  - intros g Hg. rewrite Hoth by set_solver. apply lookup_insert_ne. set_solver.
  - intros r' [->|Hr']%elem_of_cons.
    + rewrite Hoth, lookup_insert_eq, Hs by done. done.
    + rewrite Heach, lookup_insert_ne by (done || (symmetry; auto)). done.
Qed.

Lemma plan_rebase_spec policies o regressions blocks name state r :
  plan_rebase policies o regressions blocks (name, state) = Some r →
  rb_name r = name ∧ is_Some (desired !! name) ∧ name ∈ policies
  ∧ deployment_identity (ad_current state) = Some (rb_identity r)
  ∧ is_Some (rg_halts regressions !! rb_identity r)
  ∧ rollback_target (ad_current state) (ad_previous state) blocks = Some (rb_index r, rb_restored r)
  ∧ provers_recovered o regressions name (rb_identity r) = true.
Proof.
  unfold plan_rebase. destruct (_ && _) eqn:Hc; [|done].
  apply andb_true_iff in Hc as [Hd Hp]. apply contains_key_true in Hd. bool_to_prop.
  destruct (deployment_identity (ad_current state)) as [id|]; simpl; [|done].
  destruct (contains_key id _) eqn:Hh; [|done]. apply contains_key_true in Hh.
  destruct (rollback_target _ _ _) as [[i d]|]; simpl; [|done].
  destruct (provers_recovered _ _ _ _) eqn:Hr; [|done]. by intros [= <-].
Qed.

Lemma plan_rebase_applies policies o regressions blocks name state r :
  plan_rebase policies o regressions blocks (name, state) = Some r →
  is_Some (rebase_state r state).
Proof.
  intros (_ & _ & _ & _ & _ & Ht & _)%plan_rebase_spec.
  apply rollback_target_from_spec in Ht as (d & id & Hd & _).
  rewrite Nat.sub_0_r in Hd. unfold rebase_state. rewrite Hd. by eexists.
Qed.

Lemma NoDup_rebases policies o regressions blocks admitted :
  NoDup (rb_name <$> omap (plan_rebase policies o regressions blocks) (bt_iter admitted)).
Proof.
  pose proof (NoDup_bt_keys admitted) as Hnd. unfold bt_keys in Hnd. revert Hnd.
  induction (bt_iter admitted) as [|[name state] l IH]; [constructor|].
  rewrite fmap_cons. intros [Hn Hnd]%NoDup_cons. cbn [omap list_omap].
  destruct (plan_rebase _ _ _ _ (name, state)) as [r|] eqn:Hr; [|by apply IH].
  rewrite fmap_cons. constructor; [|by apply IH].
  apply plan_rebase_spec in Hr as (-> & _). simpl in Hn. intros Hin. apply Hn.
  apply list_elem_of_fmap in Hin as (r' & -> & Hin).
  apply list_elem_of_omap in Hin as ([name' state'] & Hin & Hr').
  apply plan_rebase_spec in Hr' as (-> & _). by apply (list_elem_of_fmap_2 fst) in Hin.
Qed.

(** The response applies the rebases it planned, each of which is applicable. *)
Lemma rollback_response_spec sets o regressions blocks admitted vetoed :
  ∃ (l : list rebase) admitted' vetoed',
    rollback_response sets o regressions blocks admitted vetoed = Some (admitted', vetoed')
    ∧ (∀ id v, vetoed !! id = Some v → vetoed' !! id = Some v)
    ∧ (∀ id, is_Some (vetoed' !! id) →
         is_Some (vetoed !! id) ∨ is_Some (rg_halts regressions !! id))
    ∧ (∀ r, r ∈ l → is_Some (vetoed' !! rb_identity r))
    ∧ (∀ g, g ∉ rb_name <$> l → admitted' !! g = admitted !! g)
    ∧ (∀ r, r ∈ l → admitted' !! rb_name r = admitted !! rb_name r ≫= rebase_state r)
    ∧ (∀ r, r ∈ l → ∃ state, admitted !! rb_name r = Some state ∧
         plan_rebase (rollback_groups sets) o regressions blocks (rb_name r, state) = Some r).
Proof.
  unfold rollback_response. case_bool_decide as Hh.
  { exists [], admitted, vetoed. split_and!; try done; [by left|..]; set_solver. }
  set (l := omap _ (bt_iter admitted)).
  assert (∀ r, r ∈ l → ∃ state, admitted !! rb_name r = Some state ∧
    plan_rebase (rollback_groups sets) o regressions blocks (rb_name r, state) = Some r) as Hl.
  { intros r ([name state] & Hin & Hr)%list_elem_of_omap. exists state.
    pose proof (plan_rebase_spec _ _ _ _ _ _ _ Hr) as (-> & _). split; [|done].
    by apply elem_of_bt_iter. }
  destruct (apply_rebases_spec regressions l admitted vetoed) as (A & V & Hspec).
  { apply NoDup_rebases. }
  { intros r (state & -> & Hr)%Hl. simpl. split; [by eapply plan_rebase_applies|].
    by apply plan_rebase_spec in Hr as (_ & _ & _ & _ & ? & _). }
  exists l, A, V. naive_solver.
Qed.

(** C36. The automatic rollback is total and conservative: it always returns, never withdraws
    a veto and mints one only for a halted identity; and it changes a group's entry only if
    every set governing the group, and at least one, says rollback, its admitted deployment is
    halted, and each prover the group itself selects is past it: its fresh report names another
    assignment, in whatever health, or it is healthy again and still states the rejection.  Provers of
    other groups are not waited for.  It then moves the group to the restoration of a predecessor
    with an unblocked identity, vetoes the halted identity, and keeps every body the group named. *)
Theorem rollback_only_restores sets o regressions blocks admitted vetoed :
  ∃ admitted' vetoed',
    rollback_response sets o regressions blocks admitted vetoed = Some (admitted', vetoed')
    ∧ (∀ id v, vetoed !! id = Some v → vetoed' !! id = Some v)
    ∧ (∀ id, is_Some (vetoed' !! id) →
         is_Some (vetoed !! id) ∨ is_Some (rg_halts regressions !! id))
    ∧ ∀ g, admitted' !! g = admitted !! g ∨
        ∃ state state' halted id,
          admitted !! g = Some state ∧ admitted' !! g = Some state' ∧ is_Some (desired !! g)
          ∧ (∃ s, s ∈ sets ∧ g ∈ set_members s)
          ∧ (∀ s, s ∈ sets → g ∈ set_members s → us_on_regression s = RRollback)
          ∧ deployment_identity (ad_current state) = Some halted
          ∧ is_Some (rg_halts regressions !! halted) ∧ is_Some (vetoed' !! halted)
          ∧ (∀ ns n, rg_proofs regressions !! halted = Some ns → n ∈ ns → n ∈ nodes o g →
               recovered o halted n = true)
          ∧ (∃ d, d ∈ ad_previous state
                  ∧ rollback_to (ad_current state) d = Some (ad_current state'))
          ∧ deployment_identity (ad_current state') = Some id ∧ id ∉ blocks
          ∧ ∀ d, d ∈ lineage state → d ∈ lineage state'.
Proof.
  destruct (rollback_response_spec sets o regressions blocks admitted vetoed)
    as (l & A & V & Hrun & Hm & Hs & Hid & Hoth & Heach & Hl).
  exists A, V. split_and!; try done. intros g.
  destruct (decide (g ∈ rb_name <$> l)) as [Hg|Hg]; [right|left; by apply Hoth].
  apply list_elem_of_fmap in Hg as (r & -> & Hr).
  destruct (Hl r Hr) as (state & Hst & Hplan). pose proof (Heach r Hr) as Hr'.
  rewrite Hst in Hr'. simpl in Hr'.
  destruct (plan_rebase_applies _ _ _ _ _ _ _ Hplan) as [state' Hst']. rewrite Hst' in Hr'.
  apply plan_rebase_spec in Hplan as (_ & Hd & Hpol & Hcur & Hhalt & Ht & Hrec).
  apply elem_of_rollback_groups in Hpol as [Hex Hall].
  apply rollback_target_from_spec in Ht as (d & id & Hd' & _ & Hto & Hrid & Hnb & _).
  apply rebase_state_lineage in Hst' as [Hc' Hlin].
  exists state, state', (rb_identity r), id. rewrite Hc'.
  split_and!; try done; [by apply Hid| |exists d; split; [|done]; by eapply list_elem_of_lookup_2].
  intros ns n Hns Hn Hng. unfold provers_recovered in Hrec. rewrite Hns in Hrec.
  eapply forallb_elem; [exact Hrec|]. apply list_elem_of_filter. split; [done|].
  by apply elem_of_elements.
Qed.

End inventory.
End regression.
