(* ===== verification/Admission.v ===== *)
(** * Admission: which groups change, and when

    Models [SetPlan], [build_set_plans] and [admit_pending] of [updatec/src/rollout.rs]: the
    concurrency slots and schedule of every set, and the one pass that admits pending groups
    through their gates.  A panic of the code (an absent key, an index out of bounds, a counter
    that underflows) is [None]. *)
From S2P Require Import Prelude Identity Maps Telemetry Window Rollout Retention Regression.

Section admission.
Context `{!ReportParts} `{!Semver} `{!Signed} `{!Deployments} `{!Chrono}.

Record SetPlan : Type := mkSetPlan {
  sp_members : list string;
  sp_max_concurrent : nat;
  sp_slots : nat;
  sp_frozen : bool;
}.

(** ** The plans of the sets *)

Section plans.
Context (desired : BTreeMap DesiredDeployment) (group_labels : BTreeMap (BTreeMap string))
  (admitted : BTreeMap AdmittedDeployment) (o : Observations) (mv : MovementVerdict)
  (now : instant).

Definition rolling_now (members : list string) : nat := count_if (holds_slot o admitted mv) members.

Definition set_plan (s : UpdateGroupSet) : SetPlan :=
  let members := set_members desired group_labels s in
  let max_concurrent :=
    match members with [] => 0%nat | _ => effective_max_concurrent s (length members) end in
  let open := is_open (us_rollout_windows s) now && calendar_open (us_calendar s) now in
  mkSetPlan members max_concurrent (max_concurrent - rolling_now members) (negb open).

(** [group_plans.entry(name).or_default().push(plan_idx)] *)
Definition push_plan (plan_idx : nat) (group_plans : BTreeMap (list nat)) (name : string)
    : BTreeMap (list nat) :=
  <[name := default [] (group_plans !! name) ++ [plan_idx]]> group_plans.

Definition add_set (acc : list SetPlan * BTreeMap (list nat)) (s : UpdateGroupSet)
    : list SetPlan * BTreeMap (list nat) :=
  let '(plans, group_plans) := acc in
  let plan := set_plan s in
  (plans ++ [plan], foldl (push_plan (length plans)) group_plans (sp_members plan)).

Definition build_set_plans (sets : list UpdateGroupSet) : list SetPlan * BTreeMap (list nat) :=
  foldl add_set ([], ∅) sets.

End plans.

(** ** Admission *)

Section admitting.
Context (groups : BTreeMap ResolvedGroup) (desired : BTreeMap DesiredDeployment)
  (group_plans : BTreeMap (list nat)) (o : Observations) (mv : MovementVerdict).

(** The deployments the nodes this admission has not moved yet are on. *)
Definition staged_away (d : DesiredDeployment) (entry : option AdmittedDeployment)
    : list DesiredDeployment :=
  match entry with
  | None => []
  | Some state =>
      foldl (λ previous x,
        if bool_decide (x = d) || bool_decide (x ∈ previous) then previous else previous ++ [x])
        [] (lineage state)
  end.

Definition admit_group (d : DesiredDeployment) (name : string) (admitted : BTreeMap AdmittedDeployment)
    : BTreeMap AdmittedDeployment :=
  <[name := mkAdmitted d (staged_away d (admitted !! name))]> admitted.

(** [for &i in indices { plans[i].slots -= 1; }] *)
Fixpoint take_slots (indices : list nat) (plans : list SetPlan) : option (list SetPlan) :=
  match indices with
  | [] => Some plans
  | i :: indices =>
      plan ← plans !! i;
      match sp_slots plan with
      | O => None
      | S slots =>
          take_slots indices
            (<[i := mkSetPlan (sp_members plan) (sp_max_concurrent plan) slots (sp_frozen plan)]> plans)
      end
  end.

(** A group every node of which was never published anything. *)
Definition greenfield (admitted : BTreeMap AdmittedDeployment) (name : string) : bool :=
  negb (contains_key name admitted) && negb (any_node_published o name).

Definition refused_by_verdict (d : DesiredDeployment) : bool :=
  option_some_and (λ id, bool_decide (id ∈ mv_blocked mv)) (deployment_identity d).

Definition prerequisites_settled (admitted : BTreeMap AdmittedDeployment) (g : ResolvedGroup)
    : bool :=
  forallb (λ dependency, satisfies_dependency (classify o dependency desired admitted mv))
    (gr_depends_on g).

(** The body of the loop over [pending]. *)
Definition admit_one (acc : list SetPlan * BTreeMap AdmittedDeployment) (name : string)
    : option (list SetPlan * BTreeMap AdmittedDeployment) :=
  let '(plans, admitted) := acc in
  group ← groups !! name;
  d ← desired !! name;
  if negb (inputs_ready group) then Some acc
  else if negb (prerequisites_settled admitted group) then Some acc
  else if refused_by_verdict d then Some acc
  else
    let rolling := holds_slot o admitted mv name in
    if greenfield admitted name then Some (plans, admit_group d name admitted)
    else
      match group_plans !! name with
      | None => Some (plans, admit_group d name admitted)
      | Some indices =>
          governing ← mapM (λ i, plans !! i) indices;
          if existsb sp_frozen governing && negb (gr_emergency_correction group) then Some acc
          else if rolling then Some (plans, admit_group d name admitted)
          else if forallb (λ plan, (0 <? sp_slots plan)%nat) governing then
            plans ← take_slots indices plans;
            Some (plans, admit_group d name admitted)
          else Some acc
      end.

Fixpoint admit_all (acc : list SetPlan * BTreeMap AdmittedDeployment) (pending : list string)
    : option (list SetPlan * BTreeMap AdmittedDeployment) :=
  match pending with
  | [] => Some acc
  | name :: pending => acc ← admit_one acc name; admit_all acc pending
  end.

Definition is_pending (admitted : BTreeMap AdmittedDeployment) (name : string) : bool :=
  match admitted !! name with
  | None => true
  | Some state => negb (bool_decide (desired !! name = Some (ad_current state)))
  end.

(** Most constrained first, then by name. *)
Definition plan_count (name : string) : nat :=
  match group_plans !! name with Some indices => length indices | None => 0%nat end.

Definition pending_le (a b : string) : Prop :=
  (plan_count b < plan_count a)%nat
  ∨ (plan_count b = plan_count a ∧ String.leb a b = true).

#[export] Instance pending_le_dec a b : Decision (pending_le a b).
Proof. unfold pending_le. apply _. Defined.

Definition pending (admitted : BTreeMap AdmittedDeployment) : list string :=
  merge_sort pending_le (filter (λ name, is_pending admitted name = true) (bt_keys desired)).

Definition admit_pending (plans : list SetPlan) (admitted : BTreeMap AdmittedDeployment)
    : option (list SetPlan * BTreeMap AdmittedDeployment) :=
  admit_all (plans, admitted) (pending admitted).

(** ** One step *)

Definition spend (plan : SetPlan) : SetPlan :=
  mkSetPlan (sp_members plan) (sp_max_concurrent plan) (sp_slots plan - 1) (sp_frozen plan).

Lemma take_slots_spec indices : ∀ plans,
  NoDup indices →
  (∀ i, i ∈ indices → ∃ plan, plans !! i = Some plan ∧ (0 < sp_slots plan)%nat) →
  ∃ plans', take_slots indices plans = Some plans' ∧
    ∀ i, plans' !! i = (if decide (i ∈ indices) then spend <$> plans !! i else plans !! i).
Proof.
  induction indices as [|i indices IH]; intros plans Hnd Hall; cbn [take_slots].
  { exists plans. split; [done|]. intros i. by rewrite decide_False by set_solver. }
  apply NoDup_cons in Hnd as [Hi Hnd]. destruct (Hall i ltac:(constructor)) as (plan & Hp & Hpos).
  rewrite Hp. cbn [mbind option_bind]. destruct (sp_slots plan) as [|slots] eqn:Hs; [lia|].
  destruct (IH (<[i := spend plan]> plans) Hnd) as (plans' & Hrun & Hlook).
  { intros j Hj. rewrite list_lookup_insert_ne by (intros ->; done). apply Hall. by constructor. }
  replace slots with (sp_slots plan - 1)%nat in * by lia. exists plans'. split; [exact Hrun|].
  intros j. rewrite Hlook. destruct (decide (j = i)) as [->|Hne].
  - rewrite decide_False, decide_True by (done || constructor).
    rewrite Hp, list_lookup_insert_eq by (by eapply lookup_lt_Some). done.
  - rewrite list_lookup_insert_ne by done.
    destruct (decide (j ∈ indices)), (decide (j ∈ i :: indices)); set_solver.
Qed.

(** The gates an admission has passed. *)
Record gated (plans : list SetPlan) (admitted : BTreeMap AdmittedDeployment) (name : string)
    (group : ResolvedGroup) (d : DesiredDeployment) : Prop := {
  gate_inputs : inputs_ready group = true;
  gate_prerequisites : prerequisites_settled admitted group = true;
  gate_verdict : refused_by_verdict d = false;
  gate_schedule :
    greenfield admitted name = true ∨
    ∀ indices i plan, group_plans !! name = Some indices → i ∈ indices → plans !! i = Some plan →
      sp_frozen plan = true → gr_emergency_correction group = true;
}.

(** Whether admitting [name] takes a slot of plan [i]. *)
Definition needs_slot (admitted : BTreeMap AdmittedDeployment) (i : nat) (name : string) : bool :=
  negb (greenfield admitted name) && negb (holds_slot o admitted mv name)
  && bool_decide (i ∈ default [] (group_plans !! name)).

(** The plans after charging [name]'s admission. *)
Definition charged_to (admitted : BTreeMap AdmittedDeployment) (name : string)
    (plans plans' : list SetPlan) : Prop :=
  ∀ i plan, plans !! i = Some plan →
    plans' !! i = Some (if needs_slot admitted i name then spend plan else plan)
    ∧ (needs_slot admitted i name = true → (0 < sp_slots plan)%nat).

Definition indices_in_range (plans : list SetPlan) (name : string) : Prop :=
  ∀ indices, group_plans !! name = Some indices →
    NoDup indices ∧ ∀ i, i ∈ indices → is_Some (plans !! i).

Lemma mapM_lookup_total (plans : list SetPlan) indices :
  (∀ i, i ∈ indices → is_Some (plans !! i)) →
  ∃ governing, mapM (λ i, plans !! i) indices = Some governing
    ∧ ∀ plan, plan ∈ governing ↔ ∃ i, i ∈ indices ∧ plans !! i = Some plan.
Proof.
  induction indices as [|i indices IH]; intros Hall.
  { exists []. split; [done|]. set_solver. }
  destruct (Hall i ltac:(constructor)) as [plan Hp].
  destruct IH as (governing & Hrun & Hin); [intros; apply Hall; by constructor|].
  exists (plan :: governing). split; [cbn; rewrite Hp; cbn; by rewrite Hrun|].
  intros plan'. rewrite elem_of_cons, Hin. split.
  - intros [->|(j & ? & ?)]; [exists i|exists j]; split; try done; [constructor|by constructor].
  - intros (j & [->|Hj]%elem_of_cons & Hj'); [left; congruence|right; eauto].
Qed.

Lemma uncharged admitted name plans :
  greenfield admitted name = true ∨ group_plans !! name = None ∨ holds_slot o admitted mv name = true →
  charged_to admitted name plans plans.
Proof.
  intros Hfree i plan Hp. assert (needs_slot admitted i name = false) as ->; [|done].
  unfold needs_slot. destruct Hfree as [->|[->| ->]]; [done| |by rewrite andb_false_r].
  by rewrite (bool_decide_eq_false_2 (i ∈ _)), andb_false_r by apply not_elem_of_nil.
Qed.

Lemma admit_one_spec plans admitted name group d :
  groups !! name = Some group → desired !! name = Some d → indices_in_range plans name →
  admit_one (plans, admitted) name = Some (plans, admitted)
  ∨ ∃ plans', admit_one (plans, admitted) name = Some (plans', admit_group d name admitted)
      ∧ gated plans admitted name group d ∧ charged_to admitted name plans plans'.
Proof.
  intros Hg Hd Hr. unfold admit_one. rewrite Hg. cbn [mbind option_bind]. rewrite Hd.
  cbn [mbind option_bind].
  destruct (inputs_ready group) eqn:Hin; cbn [negb]; [|by left].
  destruct (prerequisites_settled admitted group) eqn:Hpre; cbn [negb]; [|by left].
  destruct (refused_by_verdict d) eqn:Hv; [by left|].
  destruct (greenfield admitted name) eqn:Hgf.
  { right. exists plans. split; [done|]. split; [by split; auto|]. apply uncharged. by left. }
  destruct (group_plans !! name) as [indices|] eqn:Hgp.
  2:{ right. exists plans. split; [done|]. split; [|apply uncharged; by right; left].
      split; try done. right. congruence. }
  destruct (Hr indices Hgp) as [Hnd Hrange].
  destruct (mapM_lookup_total plans indices Hrange) as (governing & Hm & Hgov).
  rewrite Hm. cbn [mbind option_bind]. destruct (_ && _) eqn:Hfz; [by left|].
  assert (gated plans admitted name group d) as Hgate.
  { split; try done. right. intros ix i plan His Hi Hp Hf. rewrite Hgp in His. injection His as <-.
    destruct (gr_emergency_correction group); [done|]. rewrite andb_true_r in Hfz.
    rewrite existsb_false in Hfz. rewrite Hfz in Hf; [done|]. apply Hgov. eauto. }
  destruct (holds_slot o admitted mv name) eqn:Hs.
  { right. exists plans. split; [done|]. split; [done|]. apply uncharged. auto. }
  destruct (forallb _ governing) eqn:Hfree; [|by left]. rewrite forallb_elem in Hfree.
  assert (∀ i, i ∈ indices → ∃ plan, plans !! i = Some plan ∧ (0 < sp_slots plan)%nat) as Hpos.
  { intros i Hi. destruct (Hrange i Hi) as [plan Hp]. exists plan. split; [done|].
    apply Nat.ltb_lt, Hfree, Hgov. eauto. }
  destruct (take_slots_spec indices plans Hnd Hpos) as (plans' & Ht & Hlook).
  rewrite Ht. right. exists plans'. split; [done|]. split; [done|]. intros i plan Hp.
  assert (needs_slot admitted i name = bool_decide (i ∈ indices)) as ->
    by (unfold needs_slot; by rewrite Hgf, Hs, Hgp).
  rewrite Hlook, Hp. case_bool_decide as Hi; [rewrite decide_True by done|by rewrite decide_False by done].
  split; [done|]. intros _. destruct (Hpos i Hi) as (plan' & ? & ?). congruence.
Qed.

(** ** The whole loop *)

Lemma admit_lookup d name admitted g :
  admit_group d name admitted !! g
  = if decide (g = name) then Some (mkAdmitted d (staged_away d (admitted !! name)))
    else admitted !! g.
Proof.
  unfold admit_group. destruct (decide (g = name)) as [->|Hne];
    [apply lookup_insert_eq|by apply lookup_insert_ne].
Qed.

Lemma is_pending_changes admitted name d :
  desired !! name = Some d → is_pending admitted name = true →
  admit_group d name admitted !! name ≠ admitted !! name.
Proof.
  intros Hd. unfold is_pending. rewrite admit_lookup, decide_True by done.
  destruct (admitted !! name) as [state|]; [|done]. rewrite negb_true_iff. intros Hp. bool_to_prop.
  intros Heq. apply Hp. rewrite Hd. by injection Heq as <-.
Qed.

(** What one group's entry decides depends on that entry only. *)
Lemma needs_slot_local admitted admitted' i name :
  admitted !! name = admitted' !! name → needs_slot admitted i name = needs_slot admitted' i name.
Proof. intros He. unfold needs_slot, greenfield, contains_key, holds_slot. by rewrite He. Qed.

Lemma settled_not_pending admitted name :
  satisfies_dependency (classify o name desired admitted mv) = true →
  is_pending admitted name = false.
Proof.
  unfold satisfies_dependency, classify, is_pending. intros Hs. bool_to_prop. revert Hs.
  destruct (admitted !! name) as [state|]; [|done]. by destruct (bool_decide _).
Qed.

(** Whether [name] was admitted in going from [admitted] to [admitted'], charging plan [i]. *)
Definition newly_charged (admitted admitted' : BTreeMap AdmittedDeployment) (i : nat)
    (name : string) : bool :=
  negb (bool_decide (admitted' !! name = admitted !! name)) && needs_slot admitted i name.

(** What the loop makes of the groups [l]: who is admitted through which gates, and what each
    plan is charged. *)
Record loop_outcome (l : list string) (plans : list SetPlan)
    (admitted : BTreeMap AdmittedDeployment) (plans' : list SetPlan)
    (admitted' : BTreeMap AdmittedDeployment) : Prop := {
  loop_other : ∀ g, g ∉ l → admitted' !! g = admitted !! g;
  loop_admitted : ∀ g, g ∈ l → admitted' !! g ≠ admitted !! g →
    ∃ group d, groups !! g = Some group ∧ desired !! g = Some d
      ∧ admitted' !! g = Some (mkAdmitted d (staged_away d (admitted !! g)))
      ∧ inputs_ready group = true ∧ prerequisites_settled admitted' group = true
      ∧ refused_by_verdict d = false
      ∧ (greenfield admitted g = true ∨
         ∀ indices i plan, group_plans !! g = Some indices → i ∈ indices →
           plans !! i = Some plan → sp_frozen plan = true → gr_emergency_correction group = true);
  loop_slots : ∀ i plan, plans !! i = Some plan →
    ∃ plan', plans' !! i = Some plan' ∧ sp_members plan' = sp_members plan
      ∧ sp_max_concurrent plan' = sp_max_concurrent plan ∧ sp_frozen plan' = sp_frozen plan
      ∧ sp_slots plan = (sp_slots plan' + count_if (newly_charged admitted admitted' i) l)%nat;
}.

(** Prerequisites that are settled stay settled while other groups are admitted. *)
Lemma prerequisites_stable admitted admitted' group (l : list string) :
  (∀ g, g ∉ l → admitted' !! g = admitted !! g) →
  (∀ g, g ∈ l → is_pending admitted g = true) →
  prerequisites_settled admitted group = true → prerequisites_settled admitted' group = true.
Proof.
  intros Hoth Hpend. unfold prerequisites_settled. rewrite !forallb_elem. intros Hall g Hg.
  rewrite <-(Hall g Hg). f_equal. unfold classify. rewrite Hoth; [done|].
  intros Hin. apply Hpend in Hin. rewrite settled_not_pending in Hin; [done|by apply Hall].
Qed.

Lemma loop_skip name l plans admitted plans' admitted' :
  name ∉ l →
  loop_outcome l plans admitted plans' admitted' →
  loop_outcome (name :: l) plans admitted plans' admitted'.
Proof.
  intros Hn [Ho Ha Hs]. assert (admitted' !! name = admitted !! name) as Heq by (by apply Ho). split.
  - intros g Hg. apply Ho. set_solver.
  - intros g [->|Hg]%elem_of_cons Hne; [done|by apply Ha].
  - intros i plan Hp. destruct (Hs i plan Hp) as (plan' & ? & ? & ? & ? & Hc). exists plan'.
    split_and!; try done. rewrite Hc. unfold count_if. rewrite filter_cons.
    assert (newly_charged admitted admitted' i name = false) as ->; [|done].
    unfold newly_charged. by rewrite Heq, bool_decide_eq_true_2.
Qed.

Lemma loop_admit name group d l plans admitted plans1 plans' admitted' :
  name ∉ l → groups !! name = Some group → desired !! name = Some d →
  (∀ g, g ∈ name :: l → is_pending admitted g = true) →
  gated plans admitted name group d → charged_to admitted name plans plans1 →
  loop_outcome l plans1 (admit_group d name admitted) plans' admitted' →
  loop_outcome (name :: l) plans admitted plans' admitted'.
Proof.
  intros Hn Hg Hd Hpend [Hin Hpre Hv Hsch] Hch [Ho Ha Hs].
  assert (∀ g, g ≠ name → admit_group d name admitted !! g = admitted !! g) as Hsame.
  { intros g Hne. by rewrite admit_lookup, decide_False. }
  assert (∀ g, g ∉ name :: l → admitted' !! g = admitted !! g) as Ho'.
  { intros g Hg'. rewrite Ho, Hsame by set_solver. done. }
  assert (admitted' !! name = Some (mkAdmitted d (staged_away d (admitted !! name)))) as Hname.
  { rewrite Ho, admit_lookup, decide_True by done. done. }
  split; [done| |].
  - intros g [->|Hgl]%elem_of_cons Hne.
    + exists group, d. split_and!; try done. by eapply prerequisites_stable.
    + assert (g ≠ name) as Hgn by (intros ->; done). rewrite <-Hsame in Hne by done.
      destruct (Ha g Hgl Hne) as (group' & d' & ? & ? & ? & ? & ? & ? & Hsch').
      rewrite Hsame in * by done. exists group', d'. split_and!; try done.
      destruct Hsch' as [Hgf|Hf]; [left|right].
      * revert Hgf. unfold greenfield, contains_key. by rewrite Hsame.
      * intros indices i plan Hi Hii Hp Hfz. destruct (Hch i plan Hp) as [Hp1 _].
        eapply Hf; [done|done|exact Hp1|]. by destruct (needs_slot _ _ _).
  - intros i plan Hp. destruct (Hch i plan Hp) as [Hp1 Hpos].
    destruct (Hs i _ Hp1) as (plan' & Hp' & Hm & Hx & Hf & Hc). exists plan'.
    assert (count_if (newly_charged (admit_group d name admitted) admitted' i) l
            = count_if (newly_charged admitted admitted' i) l) as Hext.
    { apply count_if_ext. intros g Hgl. assert (g ≠ name) as Hgn by (intros ->; done).
      unfold newly_charged. rewrite Hsame by done. f_equal. by apply needs_slot_local, Hsame. }
    assert (newly_charged admitted admitted' i name = needs_slot admitted i name) as Hnc.
    { unfold newly_charged. rewrite bool_decide_eq_false_2; [done|]. rewrite Ho by done.
      apply is_pending_changes; [done|]. apply Hpend. constructor. }
    unfold count_if in *. rewrite filter_cons, Hnc. rewrite Hext in Hc.
    destruct (needs_slot admitted i name); simpl in *; (split_and!; [done..|]);
      [specialize (Hpos eq_refl)|]; lia.
Qed.

Lemma admit_all_spec l : ∀ plans admitted,
  NoDup l →
  (∀ g, g ∈ l → is_Some (groups !! g) ∧ is_Some (desired !! g)
                ∧ is_pending admitted g = true ∧ indices_in_range plans g) →
  ∃ plans' admitted', admit_all (plans, admitted) l = Some (plans', admitted')
    ∧ loop_outcome l plans admitted plans' admitted'.
Proof.
  induction l as [|name l IH]; intros plans admitted Hnd Hl; cbn [admit_all].
  { exists plans, admitted. split; [done|]. split; [done|set_solver|].
    intros i plan Hp. exists plan. unfold count_if. simpl. by rewrite Nat.add_0_r. }
  apply NoDup_cons in Hnd as [Hn Hnd].
  destruct (Hl name ltac:(constructor)) as ([group Hg] & [d Hd] & Hp & Hr).
  destruct (admit_one_spec plans admitted name group d Hg Hd Hr) as [->|(plans1 & -> & Hgate & Hch)].
  - destruct (IH plans admitted Hnd) as (plans' & admitted' & Hrun & Hout).
    { intros g Hgl. apply Hl. by constructor. }
    exists plans', admitted'. split; [done|]. by apply loop_skip.
  - destruct (IH plans1 (admit_group d name admitted) Hnd) as (plans' & admitted' & Hrun & Hout).
    { intros g Hgl. assert (g ≠ name) as Hgn by (intros ->; done).
      destruct (Hl g ltac:(by constructor)) as (? & ? & Hpg & Hrg). split_and!; [done|done| |].
      - revert Hpg. unfold is_pending. by rewrite admit_lookup, decide_False.
      - intros indices Hi. destruct (Hrg indices Hi) as [? Hrange]. split; [done|].
        intros i Hii. destruct (Hrange i Hii) as [plan Hplan].
        destruct (Hch i plan Hplan) as [-> _]. by eexists. }
    exists plans', admitted'. split; [done|]. eapply loop_admit; try done.
    intros g Hgl. by apply Hl.
Qed.

End admitting.
(** ** The plans and the loop together *)

Section pass.
Context (groups : BTreeMap ResolvedGroup) (group_labels : BTreeMap (BTreeMap string))
  (admitted : BTreeMap AdmittedDeployment) (o : Observations) (mv : MovementVerdict)
  (now : instant) (sets : list UpdateGroupSet).

(** [desired], as [plan_rollouts] derives it from the groups. *)
Definition desired_of : BTreeMap DesiredDeployment := gr_deployment <$> groups.

Abbreviation members := (set_members desired_of group_labels).
Abbreviation plans_of := (build_set_plans desired_of group_labels admitted o mv now).

(** [build_set_plans] and [admit_pending], as [plan_rollouts] runs them. *)
Definition admission_pass : option (list SetPlan * BTreeMap AdmittedDeployment) :=
  let '(plans, group_plans) := plans_of sets in
  admit_pending groups desired_of group_plans o mv plans admitted.

Lemma push_plans_lookup k l : ∀ group_plans name,
  NoDup l →
  foldl (push_plan k) group_plans l !! name
  = if decide (name ∈ l) then Some (default [] (group_plans !! name) ++ [k])
    else group_plans !! name.
Proof.
  induction l as [|m l IH]; intros group_plans name Hnd; cbn [foldl].
  { by rewrite decide_False by set_solver. }
  apply NoDup_cons in Hnd as [Hm Hnd]. rewrite IH by done. unfold push_plan.
  destruct (decide (name = m)) as [->|Hne].
  - rewrite decide_False, decide_True by (done || constructor). by rewrite lookup_insert_eq.
  - rewrite lookup_insert_ne by done.
    destruct (decide (name ∈ l)), (decide (name ∈ m :: l)); set_solver.
Qed.

(** The plans are the sets' plans, and a group's indices are the sets it is a member of. *)
Lemma build_set_plans_spec l :
  (plans_of l).1 = set_plan desired_of group_labels admitted o mv now <$> l
  ∧ ∀ name, NoDup (default [] ((plans_of l).2 !! name))
      ∧ ∀ i, i ∈ default [] ((plans_of l).2 !! name) ↔
             ∃ s, l !! i = Some s ∧ name ∈ members s.
Proof.
  induction l as [|s l [IH1 IH2]] using rev_ind.
  { split; [done|]. intros name. split; [constructor|]. set_solver. }
  unfold build_set_plans in *. rewrite foldl_app. cbn [foldl].
  destruct (foldl _ _ l) as [plans gps]. cbn [fst snd add_set] in *. split.
  { by rewrite IH1, fmap_app. }
  intros name. destruct (IH2 name) as [Hnd Hin].
  assert (length plans = length l) as Hlen by (rewrite IH1; apply length_fmap).
  rewrite push_plans_lookup by apply NoDup_set_members.
  destruct (decide (name ∈ sp_members _)) as [Hm|Hm]; cbn [default from_option id]; simpl in Hm.
  - split.
    + apply NoDup_app. split_and!; [done| |apply NoDup_singleton].
      intros i Hi ->%list_elem_of_singleton. apply Hin in Hi as (s' & Hs' & _).
      apply lookup_lt_Some in Hs'. lia.
    + intros i. rewrite elem_of_app, list_elem_of_singleton, Hin, Hlen. split.
      * intros [(s' & ? & ?)| ->].
        -- exists s'. split; [|done]. by apply lookup_app_l_Some.
        -- exists s. split; [|done]. by apply list_lookup_middle.
      * intros (s' & [Hs'|[Hle Hs']]%lookup_app_Some & Hm'); [left; eauto|right].
        apply list_lookup_singleton_Some in Hs' as [? _]. lia.
  - split; [done|]. intros i. rewrite Hin. split.
    + intros (s' & ? & ?). exists s'. split; [|done]. by apply lookup_app_l_Some.
    + intros (s' & [Hs'|[Hle Hs']]%lookup_app_Some & Hm'); [eauto|].
      apply list_lookup_singleton_Some in Hs' as [_ ->]. done.
Qed.

Lemma elem_of_staged_away d entry x :
  x ∈ staged_away d entry ↔ x ≠ d ∧ ∃ state, entry = Some state ∧ x ∈ lineage state.
Proof.
  unfold staged_away. destruct entry as [state|]; [|set_solver].
  assert (∀ l acc, x ∈ foldl (λ previous y,
      if bool_decide (y = d) || bool_decide (y ∈ previous) then previous else previous ++ [y]) acc l
    ↔ x ∈ acc ∨ (x ≠ d ∧ x ∈ l)) as Hl.
  { induction l as [|y l IH]; intros acc; cbn [foldl]; [set_solver|].
    rewrite IH, elem_of_cons. destruct (bool_decide (y = d)) eqn:Hy; [bool_to_prop; naive_solver|].
    destruct (bool_decide (y ∈ acc)) eqn:Hya; bool_to_prop; [naive_solver|].
    simpl. rewrite elem_of_app, list_elem_of_singleton. naive_solver. }
  rewrite Hl. set_solver.
Qed.

Lemma pending_spec group_plans :
  NoDup (pending desired_of group_plans admitted)
  ∧ ∀ g, g ∈ pending desired_of group_plans admitted ↔
         is_Some (groups !! g) ∧ is_pending desired_of admitted g = true.
Proof.
  unfold pending. split.
  - rewrite merge_sort_Permutation. apply NoDup_filter, NoDup_bt_keys.
  - intros g. rewrite merge_sort_Permutation, list_elem_of_filter, elem_of_bt_keys.
    unfold desired_of. rewrite lookup_fmap, fmap_is_Some. naive_solver.
Qed.

(** The pass never panics, and its outcome is the loop's. *)
Lemma admission_pass_spec :
  ∃ plans' admitted', admission_pass = Some (plans', admitted')
    ∧ loop_outcome groups desired_of (plans_of sets).2 o mv
        (pending desired_of (plans_of sets).2 admitted) (plans_of sets).1 admitted plans' admitted'.
Proof.
  unfold admission_pass. destruct (build_set_plans_spec sets) as [Hpl Hgp].
  destruct (plans_of sets) as [plans gps]. cbn [fst snd] in *. unfold admit_pending.
  destruct (pending_spec gps) as [Hnd Hin].
  apply admit_all_spec; [done|]. intros g [[group Hg] Hp]%Hin. split_and!; [by eexists| |done|].
  - unfold desired_of. rewrite lookup_fmap, Hg. by eexists.
  - intros indices Hi. destruct (Hgp g) as [Hd Hr]. rewrite Hi in Hd, Hr. split; [done|].
    intros i (s & Hs & _)%Hr. rewrite Hpl, list_lookup_fmap, Hs. by eexists.
Qed.

(** C33. Admission is gated and cannot panic: whenever it changes a group's entry, the group's
    inputs are resolved, all its prerequisites are settled on their desired deployments, also
    once the whole pass is over, its desired identity is not blocked by the movement verdict,
    and either none of its nodes was ever published anything or every set governing it is
    inside its schedule, unless the operator declared an emergency.  The entry then names the
    desired deployment, and stages away from exactly the other bodies it named before. *)
Theorem admission_is_gated :
  ∃ plans' admitted', admission_pass = Some (plans', admitted')
    ∧ ∀ g, admitted' !! g ≠ admitted !! g →
      ∃ group, groups !! g = Some group
        ∧ (∃ previous, admitted' !! g = Some (mkAdmitted (gr_deployment group) previous)
             ∧ ∀ d, d ∈ previous ↔ d ≠ gr_deployment group
                                   ∧ ∃ state, admitted !! g = Some state ∧ d ∈ lineage state)
        ∧ inputs_ready group = true
        ∧ (∀ dependency, dependency ∈ gr_depends_on group →
             classify o dependency desired_of admitted' mv = PSettled)
        ∧ (∀ id, deployment_identity (gr_deployment group) = Some id → id ∉ mv_blocked mv)
        ∧ (greenfield o admitted g = true ∨ gr_emergency_correction group = true
           ∨ ∀ s, s ∈ sets → g ∈ members s →
               is_open (us_rollout_windows s) now = true ∧ calendar_open (us_calendar s) now = true).
Proof.
  destruct admission_pass_spec as (plans' & admitted' & Hrun & [Ho Ha _]).
  destruct (build_set_plans_spec sets) as [Hpl Hgp].
  exists plans', admitted'. split; [done|]. intros g Hne.
  destruct (decide (g ∈ pending desired_of (plans_of sets).2 admitted)) as [Hg|Hg];
    [|by rewrite Ho in Hne].
  destruct (Ha g Hg Hne) as (group & d & Hgr & Hd & Hst & Hin & Hpre & Hv & Hsch).
  unfold desired_of in Hd. rewrite lookup_fmap, Hgr in Hd. injection Hd as <-.
  exists group. split_and!; try done.
  - eexists. split; [exact Hst|]. apply elem_of_staged_away.
  - intros dep Hdep. unfold prerequisites_settled in Hpre. rewrite forallb_elem in Hpre.
    specialize (Hpre dep Hdep). unfold satisfies_dependency in Hpre. by bool_to_prop.
  - intros id Hid. unfold refused_by_verdict in Hv. rewrite Hid in Hv. simpl in Hv. by bool_to_prop.
  - destruct Hsch as [?|Hf]; [by left|right]. destruct (gr_emergency_correction group); [by left|right].
    intros s [i Hi]%list_elem_of_lookup_1 Hm. destruct (Hgp g) as [_ Hr].
    assert (i ∈ default [] ((plans_of sets).2 !! g)) as Hix by (apply Hr; eauto).
    destruct ((plans_of sets).2 !! g) as [indices|]; [|by apply not_elem_of_nil in Hix].
    apply andb_true_iff, not_false_iff_true. intros Hcl.
    specialize (Hf indices i (set_plan desired_of group_labels admitted o mv now s) eq_refl Hix).
    rewrite Hpl, list_lookup_fmap, Hi in Hf. specialize (Hf eq_refl). simpl in Hf.
    rewrite Hcl in Hf. by discriminate Hf.
Qed.

(** The loop's charges, counted over a set's members. *)
Lemma charges_by_member i s admitted' :
  sets !! i = Some s →
  (∀ g, g ∉ pending desired_of (plans_of sets).2 admitted → admitted' !! g = admitted !! g) →
  count_if (newly_charged (plans_of sets).2 o mv admitted admitted' i)
    (pending desired_of (plans_of sets).2 admitted)
  = count_if (newly_charged (plans_of sets).2 o mv admitted admitted' i) (members s).
Proof.
  intros Hs Ho. destruct (build_set_plans_spec sets) as [_ Hgp].
  destruct (pending_spec (plans_of sets).2) as [Hnd _].
  unfold count_if. apply Permutation_length, NoDup_Permutation;
    [by apply NoDup_filter|by apply NoDup_filter, NoDup_set_members|].
  intros g. rewrite !list_elem_of_filter. unfold newly_charged, needs_slot.
  rewrite !andb_true_iff, negb_true_iff, !bool_decide_eq_true, bool_decide_eq_false.
  split; intros ((Hch & Hfree & Hi) & Hg); (split; [done|]).
  - apply Hgp in Hi as (s' & Hs' & Hm). congruence.
  - destruct (decide (g ∈ pending desired_of (plans_of sets).2 admitted)) as [?|Hno]; [done|].
    by destruct Hch; apply Ho.
Qed.

(** C34. Concurrency is bounded per set, even when a group is governed by several: after
    admission the members of a set that occupy one of its slots, apart from groups admitted
    this pass none of whose nodes was ever published anything, are no more than its effective
    limit, or than were already rolling if that was more. *)
Theorem concurrency_is_bounded :
  ∃ plans' admitted', admission_pass = Some (plans', admitted')
    ∧ ∀ s, s ∈ sets →
        (count_if (λ g, holds_slot o admitted' mv g && negb (greenfield o admitted g)) (members s)
         ≤ Nat.max (effective_max_concurrent s (length (members s)))
             (count_if (holds_slot o admitted mv) (members s)))%nat.
Proof.
  destruct admission_pass_spec as (plans' & admitted' & Hrun & [Ho _ Hs]).
  destruct (build_set_plans_spec sets) as [Hpl Hgp].
  exists plans', admitted'. split; [done|]. intros s [i Hi]%list_elem_of_lookup_1.
  destruct (Hs i (set_plan desired_of group_labels admitted o mv now s)) as (plan' & _ & _ & _ & _ & Hc).
  { by rewrite Hpl, list_lookup_fmap, Hi. }
  rewrite (charges_by_member i s admitted' Hi Ho) in Hc. cbn [sp_slots set_plan] in Hc.
  transitivity (count_if (holds_slot o admitted mv) (members s)
    + count_if (newly_charged (plans_of sets).2 o mv admitted admitted' i) (members s))%nat.
  - apply count_if_or. intros g Hg [Hh Hgf]%andb_true_iff.
    destruct (holds_slot o admitted mv g) eqn:Hold; [by left|right].
    unfold newly_charged, needs_slot. rewrite Hgf, Hold. simpl.
    rewrite andb_true_iff, negb_true_iff, bool_decide_eq_false, bool_decide_eq_true. split.
    + intros Heq. unfold holds_slot in Hold, Hh. congruence.
    + apply Hgp. eauto.
  - unfold rolling_now in Hc. destruct (members s); [simpl in *; lia|]. lia.
Qed.

End pass.
End admission.
