(* ===== verification/Plan.v ===== *)
(** * Plan: one pass of the rollout planner

    Models [plan_rollouts] and [build_statuses] of [updatec/src/rollout.rs]: the composition of
    verification, pruning, the regression verdict, the rollback response, admission, the status
    projections and node assignment, over the durable state the caller stores between passes. *)
From S2P Require Import Prelude Identity Maps Telemetry Window Rollout Assign Retention Regression.
From S2P Require Import Admission.

Section plan.
Context `{!ReportParts} `{!Semver} `{!Signed} `{!Deployments} `{!Chrono}.

Record RolloutInputs : Type := mkRolloutInputs {
  ri_groups : BTreeMap ResolvedGroup;
  ri_group_labels : BTreeMap (BTreeMap string);
  ri_node_groups : BTreeMap string;
  ri_reports : gmap string Envelope;
  ri_public_keys : gmap string P256PublicKey;
  ri_published : BTreeMap string;
  ri_held : BTreeMap AdmittedDeployment;
  ri_holds : BTreeSet;
  ri_cordons : BTreeSet;
  ri_blocked_deployments : BTreeSet;
  ri_default_deployment : DesiredDeployment;
}.

Record GroupNodes : Type := mkGroupNodes {
  gn_total : nat;
  gn_on_target : nat;
  gn_fresh : nat;
  gn_observable : nat;
  gn_held : nat;
  gn_target : option string;
}.

Record SetStatus : Type := mkSetStatus {
  ss_name : string;
  ss_member_count : nat;
  ss_max_concurrent : nat;
  ss_rolling : list string;
  ss_settled : list string;
  ss_failed : list string;
  ss_unobservable : list string;
  ss_shared : list string;
  ss_emergency : list string;
  ss_frozen : bool;
  ss_calendar_exhausted : bool;
  ss_halted : list HaltedDeployment;
}.

Record RolloutPlan : Type := mkRolloutPlan {
  rp_sets : list SetStatus;
  rp_node_deployments : BTreeMap DesiredDeployment;
  rp_groups : BTreeMap GroupProgress;
  rp_node_counts : BTreeMap GroupNodes;
  rp_halted_groups : BTreeMap HaltedDeployment;
  rp_blocked : BTreeSet;
}.

(** What the caller loads before a pass and stores after it. *)
Record durable : Type := mkDurable {
  du_admitted : BTreeMap AdmittedDeployment;
  du_vetoed : BTreeMap VetoedDeployment;
  du_observed : ObservationLog;
  du_verified : VerifiedReports;
}.

(** ** Statuses *)

(** The list one member of a set is reported on, by its verdict and its slot. *)
Definition listed_rolling (progress : option GroupProgress) (slot : bool) : bool :=
  match progress with
  | Some (PHeld | PRolling | PBlocked) => slot
  | _ => false
  end.

Definition set_status (group_plans : BTreeMap (list nat)) (group_progress : BTreeMap GroupProgress)
    (slot_holders emergency : BTreeSet) (now : instant) (s : UpdateGroupSet) (plan : SetPlan)
    (halted : list HaltedDeployment) : SetStatus :=
  let reads name p := bool_decide (group_progress !! name = Some p) in
  let those q := filter (λ name, q name = true) (sp_members plan) in
  mkSetStatus (us_name s) (length (sp_members plan)) (sp_max_concurrent plan)
    (those (λ name, listed_rolling (group_progress !! name) (bool_decide (name ∈ slot_holders))))
    (those (λ name, reads name PSettled))
    (those (λ name, reads name PFailed))
    (those (λ name, reads name PUnobservable))
    (those (λ name, (1 <? plan_count group_plans name)%nat))
    (those (λ name, bool_decide (name ∈ emergency)))
    (sp_frozen plan) (calendar_exhausted (us_calendar s) now) halted.

Definition build_statuses (sets : list UpdateGroupSet) (plans : list SetPlan)
    (group_plans : BTreeMap (list nat)) (group_progress : BTreeMap GroupProgress)
    (slot_holders emergency : BTreeSet) (halts : list (list HaltedDeployment)) (now : instant)
    : list SetStatus :=
  zip_with (λ s x, set_status group_plans group_progress slot_holders emergency now s x.1 x.2)
    sets (zip plans halts).

(** ** Halt projections *)

Definition halted_deployment (vetoed : BTreeMap VetoedDeployment) (id : string)
    (x : string * nat) : HaltedDeployment :=
  mkHalted x.1 x.2 (contains_key id vetoed).

(** The first named identity the verdict halts. *)
Definition first_halt (halts : BTreeMap (string * nat)) (vetoed : BTreeMap VetoedDeployment)
    (ids : list string) : option HaltedDeployment :=
  head (omap (λ id, halted_deployment vetoed id <$> halts !! id) ids).

(** Every planned group, and the default cohort under its reserved name. *)
Definition halted_groups (halts : BTreeMap (string * nat)) (vetoed : BTreeMap VetoedDeployment)
    (desired : BTreeMap DesiredDeployment) (admitted : BTreeMap AdmittedDeployment)
    (default_deployment : DesiredDeployment) : BTreeMap HaltedDeployment :=
  let named :=
    map_imap (λ name _, first_halt halts vetoed (named_identities desired admitted name)) desired in
  match first_halt halts vetoed (option_list (deployment_identity default_deployment)) with
  | Some h => <[DEFAULT_GROUP := h]> named
  | None => named
  end.

Definition set_halts (halts : BTreeMap (string * nat)) (vetoed : BTreeMap VetoedDeployment)
    (desired : BTreeMap DesiredDeployment) (admitted : BTreeMap AdmittedDeployment)
    (plan : SetPlan) : list HaltedDeployment :=
  let named := sp_members plan ≫= named_identities desired admitted in
  (λ x, halted_deployment vetoed x.1 x.2) <$> filter (λ x, x.1 ∈ named) (bt_iter halts).

(** ** Node accounting *)

Definition group_nodes (inputs : RolloutInputs) (admitted : BTreeMap AdmittedDeployment)
    (observed : ObservationLog) (o : Observations) (name : string) : GroupNodes :=
  let all := nodes o name in
  let judged := filter (λ n, n ∉ ri_cordons inputs) all in
  let target := admitted !! name ≫= λ state, deployment_identity (ad_current state) in
  mkGroupNodes (length all)
    (match target with Some id => count_if (λ n, advanced o n id) all | None => 0%nat end)
    (count_if (λ n, bool_decide (is_Some (report o n))) judged)
    (count_if (λ n, contains_key n (ri_public_keys inputs) && has_reported n observed) judged)
    (count_if (λ n, bool_decide (n ∈ ri_holds inputs)) all)
    target.

(** ** The pass *)

(** [now.timestamp_millis().max(0)], of the instant and its milliseconds. *)
Definition timestamp_millis (now : instant) (millis : Z) : N :=
  Z.to_N (naive_utc now * 1000 + millis).

Definition observations (inputs : RolloutInputs) (verified : VerifiedReports) (now_ms : N)
    : Observations :=
  mkObservations (ri_node_groups inputs) (ri_reports inputs) (ri_public_keys inputs)
    (ri_published inputs) (ri_cordons inputs) now_ms verified.

Definition note_claim (o : Observations) (observed : ObservationLog) (node : string)
    : ObservationLog :=
  match claims_rejection o node with
  | Some id => note_rejection node id observed
  | None => observed
  end.

Definition live_identities (desired : BTreeMap DesiredDeployment)
    (admitted : BTreeMap AdmittedDeployment) : gset string :=
  list_to_set (omap deployment_identity
    ((bt_values admitted ≫= lineage) ++ bt_values desired)).

(** The state admission starts from, and the verdict it reads. *)
Record judged : Type := mkJudged {
  jd_observations : Observations;
  jd_verified : VerifiedReports;
  jd_admitted : BTreeMap AdmittedDeployment;
  jd_vetoed : BTreeMap VetoedDeployment;
  jd_observed : ObservationLog;
  jd_regressions : Regressions;
  jd_blocked : BTreeSet;
}.

(** From the start of the pass to the movement verdict. *)
Definition judge (sets : list UpdateGroupSet) (inputs : RolloutInputs) (st : durable)
    (now : instant) (millis : Z) : judged :=
  let desired := desired_of (ri_groups inputs) in
  let verified := verify_fleet (ri_reports inputs) (ri_public_keys inputs) (du_verified st) in
  let o := observations inputs verified (timestamp_millis now millis) in
  let admitted := retire_deleted_groups desired o (du_admitted st) in
  let admitted := finish_staged_rollouts desired o admitted in
  let observed := note_reported (elements (dom (ri_reports inputs))) (du_observed st) in
  let observed := foldl (note_claim o) observed (bt_keys (ri_node_groups inputs)) in
  let live := live_identities desired admitted in
  let observed := prune_identities (λ id, bool_decide (id ∈ live)) observed in
  let vetoed := filter (λ x, x.1 ∈ live) (du_vetoed st) in
  let regressions :=
    regression_verdict desired (ri_group_labels inputs) sets admitted observed vetoed in
  mkJudged o verified admitted vetoed observed regressions
    (ri_blocked_deployments inputs ∪ dom (rg_halts regressions)).

Definition plan_rollouts (sets : list UpdateGroupSet) (inputs : RolloutInputs) (st : durable)
    (now : instant) (millis : Z) : option (RolloutPlan * durable) :=
  let groups := ri_groups inputs in
  let desired := desired_of groups in
  let j := judge sets inputs st now millis in
  let o := jd_observations j in
  let halts := rg_halts (jd_regressions j) in
  '(admitted, vetoed) ← rollback_response desired (ri_group_labels inputs) sets o
      (jd_regressions j) (jd_blocked j) (jd_admitted j) (jd_vetoed j);
  let movement := mkMovementVerdict (rg_proofs (jd_regressions j)) (jd_blocked j) in
  let group_plans :=
    (build_set_plans desired (ri_group_labels inputs) admitted o movement now sets).2 in
  '(plans, admitted) ←
      admission_pass groups (ri_group_labels inputs) admitted o movement now sets;
  let group_progress :=
    map_imap (λ name _, Some (classify o name desired admitted movement)) desired in
  let emergency := dom (filter (λ x : string * ResolvedGroup, gr_emergency_correction x.2 = true) groups) in
  let slot_holders :=
    dom (filter (λ x : string * DesiredDeployment, holds_slot o admitted movement x.1 = true) desired) in
  let plan :=
    mkRolloutPlan
      (build_statuses sets plans group_plans group_progress slot_holders emergency
         (set_halts halts vetoed desired admitted <$> plans) now)
      (assign_nodes groups admitted (ri_held inputs) o (ri_holds inputs) (jd_blocked j))
      group_progress
      (<[DEFAULT_GROUP := group_nodes inputs admitted (jd_observed j) o DEFAULT_GROUP]>
         (map_imap (λ name _, Some (group_nodes inputs admitted (jd_observed j) o name)) desired))
      (halted_groups halts vetoed desired admitted (ri_default_deployment inputs))
      (jd_blocked j) in
  Some (plan, mkDurable admitted vetoed (jd_observed j) (jd_verified j)).

(** ** The planner's promises *)

Lemma note_claims_rejections o l node id : ∀ observed,
  (node, id) ∈ rejections (foldl (note_claim o) observed l) ↔
  (node, id) ∈ rejections observed ∨ (node ∈ l ∧ claims_rejection o node = Some id).
Proof.
  induction l as [|k l IH]; intros observed; cbn [foldl]; [set_solver|].
  rewrite IH, elem_of_cons. unfold note_claim.
  destruct (claims_rejection o k) as [i|] eqn:Hc; simpl; [|naive_solver congruence].
  rewrite elem_of_union, elem_of_singleton. naive_solver congruence.
Qed.

Lemma elem_of_live_identities desired admitted id :
  candidate desired admitted id → id ∈ live_identities desired admitted.
Proof.
  intros (d & [Hd|Hd]%elem_of_app & Hid); unfold live_identities;
    rewrite elem_of_list_to_set, list_elem_of_omap; exists d; (split; [|done]);
    rewrite elem_of_app; [left|by right].
  apply list_elem_of_fmap in Hd as (state & -> & Hs). apply list_elem_of_bind.
  exists state. split; [constructor|done].
Qed.

(** The pass always yields a plan; its parts are the ones of the components. *)
Lemma plan_rollouts_spec sets inputs st now millis :
  let j := judge sets inputs st now millis in
  ∃ plan st', plan_rollouts sets inputs st now millis = Some (plan, st')
    ∧ rp_blocked plan = jd_blocked j
    ∧ rp_node_deployments plan
      = assign_nodes (ri_groups inputs) (du_admitted st') (ri_held inputs) (jd_observations j)
          (ri_holds inputs) (jd_blocked j)
    ∧ (∀ id v, jd_vetoed j !! id = Some v → du_vetoed st' !! id = Some v)
    ∧ (∀ id, is_Some (du_vetoed st' !! id) →
         is_Some (jd_vetoed j !! id) ∨ is_Some (rg_halts (jd_regressions j) !! id)).
Proof.
  intros j. unfold plan_rollouts. fold j.
  destruct (rollback_response_spec (desired_of (ri_groups inputs)) (ri_group_labels inputs) sets
    (jd_observations j) (jd_regressions j) (jd_blocked j) (jd_admitted j) (jd_vetoed j))
    as (l & A & V & -> & Hm & Hs & _). cbn [mbind option_bind].
  destruct (admission_pass_spec (ri_groups inputs) (ri_group_labels inputs) A (jd_observations j)
    (mkMovementVerdict (rg_proofs (jd_regressions j)) (jd_blocked j)) now sets)
    as (plans' & A' & -> & _). cbn [mbind option_bind].
  eexists _, _. split; [done|]. done.
Qed.

Lemma rejection_is_evidence sets inputs st now millis node id :
  let j := judge sets inputs st now millis in
  let desired := desired_of (ri_groups inputs) in
  is_Some (ri_node_groups inputs !! node) → candidate desired (jd_admitted j) id →
  claims_rejection (jd_observations j) node = Some id ∨ (node, id) ∈ rejections (du_observed st) →
  node ∈ provers id (jd_observed j).
Proof.
  intros j desired Hn Hc Hr. apply elem_of_provers. apply elem_of_filter. split.
  { apply bool_decide_eq_true. by apply elem_of_live_identities. }
  apply note_claims_rejections. destruct Hr as [Hr|Hr]; [right|by left].
  split; [by apply elem_of_bt_keys|done].
Qed.

(** The planner is total, and no plan takes a machine onto a refused body: whatever a plan
    hands a node, the node was already handed it or reports acting on it, or its identity is
    outside the plan's published refusals.  Those contain every external compliance block,
    every veto stored after the pass, and every identity the fleet names that a planned node's
    authentic report, now or remembered, rejects while no set grants it a tolerance; and a
    stored veto is dropped only when no group names its identity any more. *)
Lemma plan_never_hands_out_refused_bodies sets inputs st now millis :
  let j := judge sets inputs st now millis in
  let o := jd_observations j in
  let desired := desired_of (ri_groups inputs) in
  ∃ plan st', plan_rollouts sets inputs st now millis = Some (plan, st')
    ∧ (∀ n d id, rp_node_deployments plan !! n = Some d → deployment_identity d = Some id →
         advanced o n id = true ∨ id ∉ rp_blocked plan)
    ∧ ri_blocked_deployments inputs ⊆ rp_blocked plan
    ∧ (∀ id, is_Some (du_vetoed st' !! id) → id ∈ rp_blocked plan)
    ∧ (∀ id v, du_vetoed st !! id = Some v → id ∈ live_identities desired (jd_admitted j) →
         du_vetoed st' !! id = Some v)
    ∧ (∀ node id, is_Some (ri_node_groups inputs !! node) →
         claims_rejection o node = Some id ∨ (node, id) ∈ rejections (du_observed st) →
         candidate desired (jd_admitted j) id →
         (∀ s, s ∈ sets → ~ governs desired (ri_group_labels inputs) (jd_admitted j) s id) →
         id ∈ rp_blocked plan).
Proof.
  intros j o desired.
  destruct (plan_rollouts_spec sets inputs st now millis) as (plan & st' & Hrun & Hb & Hnd & Hm & Hs).
  fold j in Hb, Hnd, Hm, Hs. fold o in Hnd. exists plan, st'. rewrite Hb, Hnd.
  assert (∀ id, is_Some (rg_halts (jd_regressions j) !! id) → id ∈ jd_blocked j) as Hhalt.
  { intros id Hh. apply elem_of_union_r. by apply elem_of_dom. }
  assert (∀ id, is_Some (jd_vetoed j !! id) → is_Some (rg_halts (jd_regressions j) !! id)) as Hveto.
  { intros id Hv. apply halts_lookup. by left. }
  split_and!; [done| |apply union_subseteq_l| | |].
  - intros n d id (_ & g & gr & state & id' & _ & _ & _ & Hid & Hwhy)%assign_nodes_sound Hd.
    rewrite Hid in Hd. injection Hd as ->. naive_solver.
  - intros id [Hv|Hv]%Hs; auto.
  - intros id v Hv Hlive. apply Hm. by apply map_lookup_filter_Some.
  - intros node id Hn Hr Hc Hg. apply Hhalt, halts_lookup. right. split_and!; [done| |by left].
    assert (node ∈ provers id (jd_observed j)) as Hp by (by eapply rejection_is_evidence).
    assert (provers id (jd_observed j) ≠ ∅) as Hne by set_solver.
    exact (proj1 (Nat.neq_0_lt_0 _) (proj1 (size_provers _) Hne)).
Qed.

(** A slot holder's verdict is one that can be listed as rolling. *)
Lemma listed_rolling_holds o admitted mv desired name :
  is_Some (desired !! name) →
  listed_rolling (Some (classify o name desired admitted mv)) (holds_slot o admitted mv name)
  = holds_slot o admitted mv name.
Proof.
  intros Hd. destruct (holds_slot o admitted mv name) eqn:Hh; [|by destruct (classify _ _ _ _ _)].
  unfold holds_slot, classify in *. destruct (admitted !! name) as [state|]; [|done].
  destruct (bool_decide _); [|done]. unfold option_some_and, observation_holds_slot in Hh.
  apply andb_true_iff in Hh as [_ Hv]. bool_to_prop. unfold progress. by rewrite Hv.
Qed.

(** A set's status accounts for its slots: in every plan, each set's status lists as
    rolling exactly the members that occupy one of its concurrency slots after admission, by
    the same test the slot gate counts with, and as settled exactly those whose desired
    deployment is admitted and settled. *)
Lemma statuses_list_the_slot_holders sets inputs st now millis :
  let j := judge sets inputs st now millis in
  let o := jd_observations j in
  let movement := mkMovementVerdict (rg_proofs (jd_regressions j)) (jd_blocked j) in
  let desired := desired_of (ri_groups inputs) in
  ∃ plan st', plan_rollouts sets inputs st now millis = Some (plan, st')
    ∧ ∀ i s, sets !! i = Some s →
      ∃ status, rp_sets plan !! i = Some status
        ∧ ss_rolling status
          = filter (λ g, holds_slot o (du_admitted st') movement g = true)
              (set_members desired (ri_group_labels inputs) s)
        ∧ ss_settled status
          = filter (λ g, classify o g desired (du_admitted st') movement = PSettled)
              (set_members desired (ri_group_labels inputs) s).
Proof.
  intros j o movement desired. unfold plan_rollouts. fold j. fold o. fold movement. fold desired.
  destruct (rollback_response_spec desired (ri_group_labels inputs) sets o (jd_regressions j)
    (jd_blocked j) (jd_admitted j) (jd_vetoed j)) as (l & A & V & -> & _). cbn [mbind option_bind].
  destruct (admission_pass_spec (ri_groups inputs) (ri_group_labels inputs) A o movement now sets)
    as (plans' & A' & -> & [_ _ Hslots]). cbn [mbind option_bind]. fold desired in Hslots.
  destruct (build_set_plans_spec (ri_groups inputs) (ri_group_labels inputs) A o movement now sets)
    as [Hpl _]. fold desired in Hpl.
  eexists _, _. split; [done|]. intros i s Hi. cbn [rp_sets du_admitted].
  destruct (Hslots i (set_plan desired (ri_group_labels inputs) A o movement now s))
    as (plan' & Hp' & Hmem & _); [by rewrite Hpl, list_lookup_fmap, Hi|]. simpl in Hmem.
  eexists. split.
  { unfold build_statuses. rewrite lookup_zip_with, Hi. cbn [mbind option_bind].
    rewrite lookup_zip_with, Hp'. cbn [mbind option_bind]. rewrite list_lookup_fmap, Hp'. done. }
  cbn [ss_rolling ss_settled set_status fst snd]. rewrite Hmem.
  split; apply filter_ext_elem; intros g [Hd _]%elem_of_set_members;
    destruct Hd as [d Hd]; rewrite map_lookup_imap, Hd; cbn [mbind option_bind].
  - assert (bool_decide (g ∈ dom (filter (λ x : string * DesiredDeployment,
      holds_slot o A' movement x.1 = true) desired)) = holds_slot o A' movement g) as ->.
    { destruct (holds_slot o A' movement g) eqn:Hh.
      - apply bool_decide_eq_true, elem_of_dom. exists d. by apply map_lookup_filter_Some.
      - apply bool_decide_eq_false. intros [x Hx]%elem_of_dom.
        apply map_lookup_filter_Some in Hx as [_ Hx]. simpl in Hx. congruence. }
    by rewrite listed_rolling_holds by (by eexists).
  - rewrite bool_decide_eq_true. split; [by intros [=]|by intros ->].
Qed.

End plan.
