(* ===== verification/Bodies.v ===== *)
(** * Bodies: the planner forgets no body a machine is on

    What a whole pass of [Plan.v] does to the durable bodies, for the reconciliation around it:
    a body some selected node is on survives the pass, an entry outside the plan only shrinks,
    and every body the pass hands out is one it still holds. *)
From S2P Require Import Prelude Identity Maps Telemetry Window Rollout Assign Retention Regression.
From S2P Require Import Admission Plan.

Section bodies.
Context `{!ReportParts} `{!Semver} `{!Signed} `{!Deployments} `{!Chrono}.

Lemma bodies_elem states x :
  x ∈ bodies states ↔ deployment_identity x.2 = Some x.1 ∧ ∃ s, s ∈ states ∧ x.2 ∈ lineage s.
Proof.
  unfold bodies. rewrite list_elem_of_omap. setoid_rewrite list_elem_of_bind. destruct x as [i d]. simpl. split.
  - intros (d' & (s & Hd & Hs) & Hi). destruct (deployment_identity d') eqn:Hid; simpl in Hi; [|done].
    injection Hi as -> ->. split; [done|]. by exists s.
  - intros [Hid (s & Hs & Hd)]. exists d. rewrite Hid. split; [|done]. by exists s.
Qed.

Lemma bodies_by_identity_lookup states i :
  is_Some (bodies_by_identity states !! i) ↔ ∃ d, (i, d) ∈ bodies states.
Proof.
  unfold bodies_by_identity.
  assert (∀ (l : list (string * DesiredDeployment)) (acc : gmap string DesiredDeployment),
    is_Some (foldl (λ acc x, <[x.1 := x.2]> acc) acc l !! i) ↔ is_Some (acc !! i) ∨ ∃ d, (i, d) ∈ l) as Hl.
  { induction l as [|[k d] l IH]; intros acc; simpl.
    - split; [by left|]. intros [?|[? Hx]]; [done|by apply not_elem_of_nil in Hx].
    - rewrite IH, lookup_insert_is_Some. setoid_rewrite elem_of_cons. destruct (decide (k = i)) as [->|]; naive_solver. }
  rewrite Hl, lookup_empty. split; [intros [[? ?]|?]; [done|done]|by right].
Qed.

Lemma bodies_of_map admitted i :
  is_Some (bodies_by_identity (bt_values admitted) !! i) ↔ has_body admitted i.
Proof.
  rewrite bodies_by_identity_lookup. setoid_rewrite bodies_elem. setoid_rewrite elem_of_bt_values.
  unfold has_body. simpl. naive_solver.
Qed.

Lemma bodies_by_identity_elem states i d :
  bodies_by_identity states !! i = Some d → (i, d) ∈ bodies states.
Proof.
  unfold bodies_by_identity.
  assert (∀ (l : list (string * DesiredDeployment)) (acc : gmap string DesiredDeployment),
    foldl (λ acc x, <[x.1 := x.2]> acc) acc l !! i = Some d → acc !! i = Some d ∨ (i, d) ∈ l) as Hl.
  { induction l as [|[k x] l IH]; intros acc; simpl; [by left|].
    intros [Hacc|?]%IH; [|right; by constructor]. apply lookup_insert_Some in Hacc as [[-> ->]|[_ ?]];
      [right; constructor|by left]. }
  intros [?|?]%Hl; done.
Qed.

(** The bodies handed out are the group's own, or the one the node is placed on. *)
Lemma assign_nodes_body groups admitted held o holds movement_blocks n d :
  assign_nodes groups admitted held o holds movement_blocks !! n = Some d →
  (∃ state, state ∈ bt_values admitted ∧ d ∈ lineage state)
  ∨ ∃ id, placement o n = Some id ∧ (id, d) ∈ bodies (bt_values admitted ++ bt_values held).
Proof.
  intros Hn. pose proof Hn as (g & gr & state & id & Hg & Hgr & Ha & Hid)%assign_nodes_only.
  destruct (assign_nodes_outcome groups admitted held o holds movement_blocks g gr state id)
    as (before & rescued & filled & Hb & Hout); [done..|].
  apply elem_of_nodes in Hg as Hl. rewrite (out_lookup _ _ _ _ _ _ _ _ _ Hout n Hl) in Hn.
  assert (state ∈ bt_values admitted) as Hst by (apply elem_of_bt_values; eauto).
  destruct (group_disposition _ _ _ _ _ _ _ n) as [c|c|e h c] eqn:Hd.
  - rewrite Hb in Hn; done.
  - injection Hn as <-. left. exists state. split; [done|constructor].
  - destruct (decide (n ∈ rescued ++ filled)) as [Hch|_].
    { injection Hn as <-. left. exists state. split; [done|constructor]. }
    destruct h as [d'|]; [|rewrite Hb in Hn; done]. injection Hn as ->.
    clear Hout. unfold group_disposition, node_disposition in Hd.
    destruct (bool_decide (n ∈ holds)); [done|].
    destruct (_ && _) in Hd; [done|]. destruct (advanced o n id); [done|].
    destruct (find_advanced _ _ _) as [[i body]|] eqn:Hf.
    + injection Hd as _ -> _. apply find_advanced_Some in Hf as [Hf _].
      apply elem_of_identified in Hf as [Hf _]. left. exists state. split; [done|]. by right.
    + destruct (placement o n) as [p|]; [|destruct (identified _); [by destruct (bool_decide _)|congruence]].
      injection Hd as _ Hrun _. right. exists p. split; [done|]. by apply bodies_by_identity_elem.
Qed.

(** ** One pass *)

Section pass.
Context (sets : list UpdateGroupSet) (inputs : RolloutInputs) (st : durable) (now : instant) (millis : Z).
Let j := judge sets inputs st now millis.
Let desired := desired_of (ri_groups inputs).

Lemma plan_parts plan st' :
  plan_rollouts sets inputs st now millis = Some (plan, st') →
  rp_blocked plan = jd_blocked j
  ∧ rp_node_deployments plan
    = assign_nodes (ri_groups inputs) (du_admitted st') (ri_held inputs) (jd_observations j)
        (ri_holds inputs) (jd_blocked j)
  ∧ (∀ id, is_Some (du_vetoed st' !! id) → id ∈ jd_blocked j).
Proof.
  intros Hp. destruct (plan_rollouts_spec sets inputs st now millis)
    as (plan' & st'' & Hp' & Hb & Hn & _ & Hs). rewrite Hp in Hp'. injection Hp' as <- <-.
  split_and!; [done|done|]. intros id [Hv|Hv]%Hs; apply elem_of_union_r, elem_of_dom; [|done].
  apply halts_lookup. by left.
Qed.

(** Each step after pruning keeps the lineage of every entry. *)
Lemma plan_lineage plan st' :
  plan_rollouts sets inputs st now millis = Some (plan, st') →
  (∀ name state, jd_admitted j !! name = Some state →
     ∃ state', du_admitted st' !! name = Some state' ∧ ∀ d, d ∈ lineage state → d ∈ lineage state')
  ∧ (∀ name, desired !! name = None → du_admitted st' !! name = jd_admitted j !! name).
Proof.
  unfold plan_rollouts. fold j. fold desired.
  destruct (rollback_response_spec desired (ri_group_labels inputs) sets (jd_observations j)
    (jd_regressions j) (jd_blocked j) (jd_admitted j) (jd_vetoed j))
    as (l & A & V & -> & _ & _ & _ & Hother & Hreb & Hfrom). cbn [mbind option_bind].
  destruct (admission_pass_spec (ri_groups inputs) (ri_group_labels inputs) A (jd_observations j)
    (mkMovementVerdict (rg_proofs (jd_regressions j)) (jd_blocked j)) now sets)
    as (plans' & A' & -> & [Ho Ha _]). cbn [mbind option_bind]. fold desired in Ho, Ha.
  intros [= <- <-]. cbn [du_admitted].
  assert (∀ g, ~ is_Some (desired !! g) → A' !! g = A !! g) as Hundes.
  { intros g Hg. apply Ho. intros Hin. apply Hg.
    apply (proj2 (pending_spec (ri_groups inputs) A _)) in Hin as [[gr Hgr] _].
    unfold desired, desired_of. rewrite lookup_fmap, Hgr. by eexists. }
  assert (∀ g, g ∈ rb_name <$> l → is_Some (desired !! g)) as Hdes.
  { intros g (r & -> & Hr)%list_elem_of_fmap. destruct (Hfrom r Hr) as (state & _ & Hpr).
    by apply plan_rebase_spec in Hpr as (_ & ? & _). }
  split.
  - intros name state Hs.
    assert (∃ state1, A !! name = Some state1 ∧ ∀ d, d ∈ lineage state → d ∈ lineage state1) as (s1 & Hs1 & Hl1).
    { destruct (decide (name ∈ rb_name <$> l)) as [Hin|Hin]; [|rewrite Hother by done; eauto].
      apply list_elem_of_fmap in Hin as (r & -> & Hr). destruct (Hfrom r Hr) as (s0 & Hs0 & Hpr).
      rewrite Hs in Hs0. injection Hs0 as <-. destruct (plan_rebase_applies _ _ _ _ _ _ _ _ Hpr) as [s1 Hs1].
      exists s1. rewrite (Hreb r Hr), Hs. split; [done|]. by apply (rebase_state_lineage r). }
    destruct (decide (A' !! name = A !! name)) as [Heq|Hne]; [rewrite Heq; eauto|].
    match type of Ho with ∀ g, g ∉ ?p → _ =>
      destruct (decide (name ∈ p)) as [Hin|Hin]; [|by rewrite Ho in Hne] end.
    destruct (Ha name Hin Hne) as (gr & d & _ & _ & -> & _). eexists. split; [done|].
    intros x Hx%Hl1. unfold lineage. simpl. destruct (decide (x = d)) as [->|Hxd]; [constructor|right].
    apply elem_of_staged_away. rewrite Hs1. eauto.
  - intros name Hn. rewrite Hundes by (rewrite Hn; by intros [? ?]).
    apply Hother. intros Hin%Hdes. rewrite Hn in Hin. by destruct Hin.
Qed.

(** A body a selected node was handed, or acts on, survives the pass. *)
Lemma plan_keeps_bodies plan st' id :
  plan_rollouts sets inputs st now millis = Some (plan, st') →
  has_body (du_admitted st) id →
  (∃ n, is_Some (ri_node_groups inputs !! n) ∧ advanced (jd_observations j) n id = true) →
  has_body (du_admitted st') id.
Proof.
  intros [Hkeep _]%plan_lineage Hb Hn.
  assert (has_body (jd_admitted j) id) as (name & state & d & Hs & Hd & Hid).
  { apply finish_keeps_bodies; [|done]. by apply retire_keeps_bodies. }
  destruct (Hkeep name state Hs) as (state' & ? & Hl). exists name, state', d. auto.
Qed.

(** An entry the plan does not name only loses bodies. *)
Lemma plan_shrinks_undesired plan st' name state' :
  plan_rollouts sets inputs st now millis = Some (plan, st') →
  ri_groups inputs !! name = None → du_admitted st' !! name = Some state' →
  ∃ state, du_admitted st !! name = Some state ∧ ∀ d, d ∈ lineage state' → d ∈ lineage state.
Proof.
  intros [_ Hsame]%plan_lineage Hg Hs.
  assert (desired !! name = None) as Hd by (unfold desired, desired_of; by rewrite lookup_fmap, Hg).
  rewrite Hsame in Hs by done. unfold j, judge in Hs. cbn [jd_admitted] in Hs. fold desired in Hs.
  unfold finish_staged_rollouts in Hs. rewrite map_lookup_imap in Hs.
  destruct (retire_deleted_groups _ _ _ !! name) as [s1|] eqn:Hr; [|done]. simpl in Hs.
  assert (contains_key name desired = false) as Hc by by apply contains_key_false.
  unfold finish_one in Hs. rewrite Hc in Hs. simpl in Hs. injection Hs as <-.
  apply retire_lookup in Hr as (s0 & Hs0 & Hr). rewrite Hc in Hr. exists s0. split; [done|].
  intros d Hd'. by apply Hr.
Qed.

End pass.

End bodies.
