(* ===== verification/Assignment.v ===== *)
(** * Assignment: the signed desired-state document

    Models [updated-contracts/src/assignment.rs] and the conversion of an operator's
    [DeploymentSpec] into it ([updatec/src/lib.rs]): the document's validation, its bounded
    canonical bytes, the identity those bytes give it, and the document an automatic rollback
    restores.  It closes with the instance of [Deployments] through which the rollout planner
    reads it.  JSON values, the document's JSON and URL parsing are outside the repository: the
    classes [JsonValues], [AssignmentJson] and [Urls].  An install root is its UTF-8 spelling,
    and the platform is Unix. *)
From S2P Require Import Prelude Identity Maps Releases Dataflow Telemetry Window Rollout.

(** ** Data *)

Record ManagedRepositoryLimits : Type := mkManagedRepositoryLimits {
  ml_metadata_limit : N;
  ml_target_limit : N;
  ml_transport_timeout_seconds : N;
}.

Record ManagedStorage : Type := mkManagedStorage {
  ms_inactive_releases : N;
  ms_inactive_bytes : N;
  ms_inactive_repository_caches : N;
}.

Record ManagedTimeouts : Type := mkManagedTimeouts {
  mt_check_interval_seconds : N;
  mt_health_grace_seconds : N;
  mt_health_successes : N;
  mt_health_interval_seconds : N;
  mt_refresh_retry_seconds : N;
  mt_confirmation_window_seconds : N;
}.

Record ManagedRuntime : Type := mkManagedRuntime {
  mr_product : string;
  mr_channel : string;
  mr_install_root : string;
  mr_inputs : InputSelection;
  mr_repository : ManagedRepositoryLimits;
  mr_storage : ManagedStorage;
  mr_timeouts : ManagedTimeouts;
}.

#[export] Instance ManagedRuntime_eq_dec : EqDecision ManagedRuntime.
Proof.
  assert (EqDecision ManagedRepositoryLimits) by solve_decision.
  assert (EqDecision ManagedStorage) by solve_decision.
  assert (EqDecision ManagedTimeouts) by solve_decision. solve_decision.
Defined.

#[export] Instance ReleaseGraph_eq_dec : EqDecision ReleaseGraph.
Proof.
  assert (EqDecision TargetReference) by solve_decision.
  assert (EqDecision Release) by solve_decision. solve_decision.
Defined.

(** [serde_json::Value]; a value is exact when it holds no floating-point number, the only
    JSON value serde_json may read back differently. *)
Class JsonValues : Type := {
  JsonValue : Type;
  JsonValue_eq_dec :: EqDecision JsonValue;
  json_is_object : JsonValue → bool;
  json_is_exact : JsonValue → bool;
  json_to_vec : JsonValue → option string;
  json_from_str : string → option JsonValue;
}.

Section assignment.
Context `{!JsonValues}.

Record RepositoryAssignment : Type := mkRepositoryAssignment {
  ra_schema : N;
  ra_deployment : string;
  ra_metadata_url : string;
  ra_targets_url : string;
  ra_application : ReleaseGraph;
  ra_release_root : JsonValue;
  ra_runtime : ManagedRuntime;
}.

#[export] Instance RepositoryAssignment_eq_dec : EqDecision RepositoryAssignment.
Proof. solve_decision. Defined.

(** An empty selection is not serialised and reads back as the default one, so only a document
    whose empty selection is the default one is promised to read back. *)
Class AssignmentJson : Type := {
  assignment_to_vec : RepositoryAssignment → option string;
  assignment_from_slice : string → option RepositoryAssignment;
  assignment_json_roundtrip : ∀ a b,
    json_is_exact (ra_release_root a) = true →
    (is_files (mr_inputs (ra_runtime a)) = ∅ → mr_inputs (ra_runtime a) = InputSelection_default) →
    assignment_to_vec a = Some b → assignment_from_slice b = Some a;
}.

Context `{!Sha256} `{!SemverOrder} `{!Urls} `{!AssignmentJson}.

(** ** Limits *)

Definition RepositoryAssignment_SCHEMA : N := 6.
Definition MAX_DOCUMENT_BYTES : N := MAX_DATAFLOW_BODY_BYTES + 1024 * 1024.
Definition MAX_INTERVAL_SECONDS : N := 30 * 24 * 60 * 60.
Definition MAX_REPOSITORY_METADATA_BYTES : N := 64 * 1024 * 1024.
Definition MAX_REPOSITORY_TARGET_BYTES : N := 2 * 1024 * 1024 * 1024.
Definition REPORT_CADENCE_JITTER_PERCENT : N := 20.
(** [REPORT_FRESHNESS] is in milliseconds. *)
Definition MAX_CHECK_INTERVAL_SECONDS : N :=
  REPORT_FRESHNESS / 1000 * 100 / (3 * (100 + REPORT_CADENCE_JITTER_PERCENT)).

(** ** The runtime policy *)

Definition is_ascii_alphabetic (c : ascii) : bool := is_ascii_lowercase c || is_ascii_uppercase c.

Definition is_absolute_install_root (path : string) : bool :=
  match path with
  | String "/"%char _ => true
  | String drive (String ":"%char (String sep _)) =>
      is_ascii_alphabetic drive && bool_decide (sep ∈ ["/"; "\"]%char)
  | _ => false
  end.

Definition within_interval (x : string * N) : ContractError + unit :=
  demand (x.2 <=? MAX_INTERVAL_SECONDS)%N (EInterval x.1 x.2 MAX_INTERVAL_SECONDS).

Definition within_cadence (x : string * N) : ContractError + unit :=
  demand (x.2 <=? MAX_CHECK_INTERVAL_SECONDS)%N (EInterval x.1 x.2 MAX_CHECK_INTERVAL_SECONDS).

Definition ManagedRuntime_validate (r : ManagedRuntime) : ContractError + unit :=
  let repository := mr_repository r in
  let timeouts := mr_timeouts r in
  _ ← demand (is_segment (mr_product r) && is_segment (mr_channel r))
        (EMessage "managed runtime product/channel identity is invalid");
  _ ← demand (is_absolute_install_root (mr_install_root r))
        (EMessage "managed runtime install_root is not an absolute node path");
  _ ← demand (negb ((ml_metadata_limit repository =? 0)%N
                    || (ml_target_limit repository =? 0)%N
                    || (ml_transport_timeout_seconds repository =? 0)%N
                    || (ms_inactive_bytes (mr_storage r) =? 0)%N
                    || (mt_check_interval_seconds timeouts =? 0)%N
                    || (mt_health_grace_seconds timeouts =? 0)%N
                    || (mt_health_successes timeouts =? 0)%N
                    || (mt_health_interval_seconds timeouts =? 0)%N
                    || (mt_refresh_retry_seconds timeouts =? 0)%N
                    || (mt_confirmation_window_seconds timeouts =? 0)%N))
        (EMessage "managed runtime limits and timeouts must be non-zero");
  _ ← demand (negb ((MAX_REPOSITORY_METADATA_BYTES <? ml_metadata_limit repository)%N
                    || (MAX_REPOSITORY_TARGET_BYTES <? ml_target_limit repository)%N))
        (EMessage "managed repository limits exceed the metadata or target ceiling");
  _ ← each within_interval
        [("repository.transport_timeout_seconds", ml_transport_timeout_seconds repository);
         ("timeouts.health_grace_seconds", mt_health_grace_seconds timeouts);
         ("timeouts.health_interval_seconds", mt_health_interval_seconds timeouts);
         ("timeouts.confirmation_window_seconds", mt_confirmation_window_seconds timeouts)];
  _ ← each within_cadence
        [("timeouts.check_interval_seconds", mt_check_interval_seconds timeouts);
         ("timeouts.refresh_retry_seconds", mt_refresh_retry_seconds timeouts)];
  _ ← map_err EInputs (InputSelection_validate (mr_inputs r));
  let min_grace := saturating_mul u64_max (mt_health_successes timeouts - 1)%N
                     (mt_health_interval_seconds timeouts) in
  demand (min_grace <=? mt_health_grace_seconds timeouts)%N
    (EGraceTooShort (mt_health_grace_seconds timeouts) min_grace).

Definition validate_for_current_platform (r : ManagedRuntime) : ContractError + unit :=
  _ ← ManagedRuntime_validate r;
  demand (match mr_install_root r with String "/"%char _ => true | _ => false end)
    (EMessage "managed runtime install_root is not absolute on this node").

(** ** Repository locations *)

Definition ends_with (c : ascii) (s : string) : bool := bool_decide (string_last s = Some c).

Definition canonical_repository_base (value : string) : string + Url :=
  url ← (match value with
         | String "/"%char _ =>
             _ ← demand (ends_with "/" value) "absolute offline directory must end in a path separator"%string;
             ok_or (url_from_directory_path value)
               "absolute offline directory cannot be represented as a file URL"%string
         | _ => ok_or (url_parse value) "must be an HTTPS/file base URL or absolute directory"%string
         end);
  _ ← demand (has_unambiguous_shape url QForbidden)
        "must not contain credentials, a query, or a fragment"%string;
  _ ← demand (negb (url_cannot_be_a_base url || negb (ends_with "/" (url_path url))))
        "must identify a base directory ending with '/'"%string;
  if bool_decide (url_scheme url = "https") then
    (if bool_decide (is_Some (url_host url)) then inr url
     else inl "HTTPS repository base must name a host"%string)
  else if bool_decide (url_scheme url = "file") then
    (if bool_decide (is_Some (url_host url))
     then inl "file repository base must not name a remote host"%string
     else if url_to_file_path url then inr url
     else inl "file repository base is not an absolute directory on this platform"%string)
  else inl (String.append "uses unsupported " (String.append (url_scheme url) " scheme")).

(** ** The document *)

Definition check_location (x : string * string) : ContractError + unit :=
  _ ← map_err (ELocation x.1) (canonical_repository_base x.2); inr tt.

Definition RepositoryAssignment_validate (a : RepositoryAssignment) : ContractError + unit :=
  _ ← demand (ra_schema a =? RepositoryAssignment_SCHEMA)%N (EUnsupportedSchema (ra_schema a));
  _ ← demand (is_segment (ra_deployment a))
        (EMessage "repository assignment deployment identity is invalid");
  _ ← each check_location [("metadataUrl", ra_metadata_url a); ("targetsUrl", ra_targets_url a)];
  _ ← map_err ERelease (graph_validate (ra_application a));
  _ ← demand (json_is_object (ra_release_root a))
        (EMessage "repository assignment releaseRoot must be a JSON object");
  _ ← ManagedRuntime_validate (ra_runtime a);
  root_bytes ← ok_or (json_to_vec (ra_release_root a)) (EEncoding "repository assignment release_root");
  demand (str_len root_bytes <=? ml_metadata_limit (mr_repository (ra_runtime a)))%N
    (ERootPastLimit (ml_metadata_limit (mr_repository (ra_runtime a))) (str_len root_bytes)).

Definition RepositoryAssignment_to_bounded_json (a : RepositoryAssignment) : ContractError + string :=
  _ ← RepositoryAssignment_validate a;
  bytes ← ok_or (assignment_to_vec a) (EEncoding "repository assignment");
  _ ← bounded_check (str_len bytes) "repository assignment" MAX_DOCUMENT_BYTES;
  inr bytes.

Definition publication (a : RepositoryAssignment) : ContractError + (string * string) :=
  bytes ← RepositoryAssignment_to_bounded_json a;
  inr (bytes, sha256_bytes bytes).

Definition RepositoryAssignment_from_bounded_json (bytes : string) : ContractError + RepositoryAssignment :=
  _ ← bounded_check (str_len bytes) "repository assignment" MAX_DOCUMENT_BYTES;
  assignment ← ok_or (assignment_from_slice bytes) (EDecoding "repository assignment");
  _ ← RepositoryAssignment_validate assignment;
  inr assignment.

(** The restored document: the previous one under the current catalog. *)
Definition restored_assignment (self previous : RepositoryAssignment) : RepositoryAssignment :=
  mkRepositoryAssignment (ra_schema previous) (ra_deployment previous) (ra_metadata_url previous)
    (ra_targets_url previous)
    (mkReleaseGraph (rg_target (ra_application previous)) (rg_releases (ra_application self)))
    (ra_release_root previous) (ra_runtime previous).

(** [rollback_to] up to its route search. *)
Definition checked_restoration (self previous : RepositoryAssignment)
    : ContractError + RepositoryAssignment :=
  let version := rg_target (ra_application previous) in
  baseline ← map_err ERelease (target_reference (ra_application previous));
  _ ← map_err ERelease (check_source (ra_application self) version (tr_sha256 baseline));
  let restored := restored_assignment self previous in
  _ ← RepositoryAssignment_validate restored;
  inr restored.

(** [RepositoryAssignment::rollback_to]; [None] is a panic of the route search. *)
Definition assignment_rollback_to (self previous : RepositoryAssignment)
    : option (ContractError + RepositoryAssignment) :=
  match checked_restoration self previous with
  | inl e => Some (inl e)
  | inr restored =>
      hops ← route (ra_application restored) (Some (rg_target (ra_application self))) (λ _ _, true);
      Some (_ ← map_err ERelease hops; inr restored)
  end.

(** ** Operator specifications *)

Record DeploymentSpec : Type := mkDeploymentSpec {
  ds_name : string;
  ds_metadata_url : string;
  ds_targets_url : string;
  ds_root_json : string;
  ds_application : ReleaseGraph;
  ds_product : string;
  ds_channel : string;
  ds_install_root : string;
  ds_repository : ManagedRepositoryLimits;
  ds_storage : ManagedStorage;
  ds_timeouts : ManagedTimeouts;
}.

(** [TryFrom<DeploymentSpec> for DesiredDeployment] *)
Definition deployment_try_from (s : DeploymentSpec) : ContractError + RepositoryAssignment :=
  release_root ← ok_or (json_from_str (ds_root_json s)) (EDecoding "releaseRepository.rootJson");
  let desired :=
    mkRepositoryAssignment RepositoryAssignment_SCHEMA (ds_name s) (ds_metadata_url s)
      (ds_targets_url s) (ds_application s) release_root
      (mkManagedRuntime (ds_product s) (ds_channel s) (ds_install_root s) InputSelection_default
         (ds_repository s) (ds_storage s) (ds_timeouts s)) in
  _ ← RepositoryAssignment_validate desired;
  inr desired.

(** ** Lemmas *)

(** What a validated runtime promises the node's timers. *)
Record runtime_ok (r : ManagedRuntime) : Prop := {
  ro_inputs : InputSelection_validate (mr_inputs r) = inr tt;
  ro_positive : Forall (λ n, 0 < n)%N
    [ml_metadata_limit (mr_repository r); ml_target_limit (mr_repository r);
     ml_transport_timeout_seconds (mr_repository r); ms_inactive_bytes (mr_storage r);
     mt_check_interval_seconds (mr_timeouts r); mt_health_grace_seconds (mr_timeouts r);
     mt_health_successes (mr_timeouts r); mt_health_interval_seconds (mr_timeouts r);
     mt_refresh_retry_seconds (mr_timeouts r); mt_confirmation_window_seconds (mr_timeouts r)];
  ro_ceilings : (ml_metadata_limit (mr_repository r) ≤ MAX_REPOSITORY_METADATA_BYTES
    ∧ ml_target_limit (mr_repository r) ≤ MAX_REPOSITORY_TARGET_BYTES)%N;
  ro_intervals : Forall (λ n, n ≤ MAX_INTERVAL_SECONDS)%N
    [ml_transport_timeout_seconds (mr_repository r); mt_health_grace_seconds (mr_timeouts r);
     mt_health_interval_seconds (mr_timeouts r); mt_confirmation_window_seconds (mr_timeouts r)];
  ro_cadence : (mt_check_interval_seconds (mr_timeouts r) ≤ MAX_CHECK_INTERVAL_SECONDS
    ∧ mt_refresh_retry_seconds (mr_timeouts r) ≤ MAX_CHECK_INTERVAL_SECONDS)%N;
  ro_grace : (saturating_mul u64_max (mt_health_successes (mr_timeouts r) - 1)
                (mt_health_interval_seconds (mr_timeouts r))
              ≤ mt_health_grace_seconds (mr_timeouts r))%N;
}.

Lemma ManagedRuntime_validate_ok r : ManagedRuntime_validate r = inr tt → runtime_ok r.
Proof.
  unfold ManagedRuntime_validate, within_interval, within_cadence. intros Hv. sum_inv. bool_to_prop.
  repeat match goal with
  | Hx : (_ =? 0)%N = false |- _ => apply N.eqb_neq in Hx
  | Hx : (_ <? _)%N = false |- _ => apply N.ltb_ge in Hx
  | Hx : (_ <=? _)%N = true |- _ => apply N.leb_le in Hx
  end.
  repeat match goal with Hall : ∀ x : string * N, x ∈ _ → _ |- _ =>
    apply Forall_forall in Hall; rewrite !Forall_cons, Forall_nil in Hall; cbn in Hall;
    rewrite !demand_inr, !N.leb_le in Hall end.
  split; repeat constructor; try done; try tauto; lia.
Qed.

Lemma RepositoryAssignment_validate_graph a :
  RepositoryAssignment_validate a = inr tt → graph_validate (ra_application a) = inr tt.
Proof. unfold RepositoryAssignment_validate. intros Hv. by sum_inv. Qed.

Lemma RepositoryAssignment_validate_runtime a :
  RepositoryAssignment_validate a = inr tt → ManagedRuntime_validate (ra_runtime a) = inr tt.
Proof. unfold RepositoryAssignment_validate. intros Hv. by sum_inv. Qed.

Lemma to_bounded_json_inr a bytes :
  RepositoryAssignment_to_bounded_json a = inr bytes ↔
  RepositoryAssignment_validate a = inr tt ∧ assignment_to_vec a = Some bytes
  ∧ (str_len bytes ≤ MAX_DOCUMENT_BYTES)%N.
Proof.
  unfold RepositoryAssignment_to_bounded_json, bounded_check. split.
  - intros Hb. sum_inv. rewrite N.leb_le in *. done.
  - intros (Hv & Hb & Hl%N.leb_le). rewrite Hv. simpl. rewrite Hb. simpl. by rewrite Hl.
Qed.

Lemma publication_inr a bytes id :
  publication a = inr (bytes, id) ↔
  RepositoryAssignment_to_bounded_json a = inr bytes ∧ id = sha256_bytes bytes.
Proof.
  unfold publication. rewrite sum_bind_inr. split.
  - intros (b & ? & [= -> <-]). done.
  - intros [? ->]. by exists bytes.
Qed.

(** A valid document reads back from the bytes it is published as. *)
Lemma publication_reads_back a bytes id :
  json_is_exact (ra_release_root a) = true → publication a = inr (bytes, id) →
  RepositoryAssignment_from_bounded_json bytes = inr a.
Proof.
  intros Hexact [(Hv & Hb & Hl)%to_bounded_json_inr ->]%publication_inr.
  pose proof (ro_inputs _ (ManagedRuntime_validate_ok _ (RepositoryAssignment_validate_runtime _ Hv))) as Hin.
  unfold RepositoryAssignment_from_bounded_json, bounded_check. rewrite (proj2 (N.leb_le _ _) Hl). simpl.
  rewrite (assignment_json_roundtrip a bytes Hexact); [|by apply InputSelection_validate_inr in Hin as [?|[? _]]|done].
  simpl. by rewrite Hv.
Qed.

(** A deployment's identity is its content.  The node reads back from the published bytes
    exactly the document the publisher signed, its digest of those bytes is the identity the
    planner knows it by, and two documents under one identity are one document or a SHA-256
    collision. *)
Lemma identity_is_content a bytes id :
  json_is_exact (ra_release_root a) = true → publication a = inr (bytes, id) →
  RepositoryAssignment_from_bounded_json bytes = inr a ∧ sha256_bytes bytes = id
  ∧ ∀ a' bytes', json_is_exact (ra_release_root a') = true → publication a' = inr (bytes', id) →
      a' = a ∨ (bytes' ≠ bytes ∧ sha256_bytes bytes' = sha256_bytes bytes).
Proof.
  intros Hexact Hp. pose proof (proj1 (publication_inr _ _ _) Hp) as [_ ->].
  pose proof (publication_reads_back _ _ _ Hexact Hp) as Hr. split_and!; [done..|].
  intros a' bytes' Hexact' Hp'. pose proof (proj1 (publication_inr _ _ _) Hp') as [_ Hid].
  destruct (decide (bytes' = bytes)) as [->|]; [left|by right].
  pose proof (publication_reads_back _ _ _ Hexact' Hp') as Hr'. congruence.
Qed.

(** A validated runtime cannot defeat the node's timers: the health streak fits in the
    grace window and its product never saturates, three jittered report gaps fit in the
    readers' freshness window at the steady and at the retry cadence, and no interval is zero
    or past thirty days. *)
Lemma validated_runtime_keeps_time r :
  ManagedRuntime_validate r = inr tt →
  let t := mr_timeouts r in
  ((mt_health_successes t - 1) * mt_health_interval_seconds t ≤ mt_health_grace_seconds t)%N
  ∧ (∀ base, base ∈ [mt_check_interval_seconds t; mt_refresh_retry_seconds t] →
      0 < base
      ∧ 3 * (base * 1000 + base * 1000 * REPORT_CADENCE_JITTER_PERCENT / 100) ≤ REPORT_FRESHNESS)%N
  ∧ (∀ seconds, seconds ∈ [ml_transport_timeout_seconds (mr_repository r); mt_check_interval_seconds t;
        mt_health_grace_seconds t; mt_health_interval_seconds t; mt_refresh_retry_seconds t;
        mt_confirmation_window_seconds t] → 0 < seconds ≤ MAX_INTERVAL_SECONDS)%N.
Proof.
  intros [_ Hpos _ Hmax Hcad Hgrace]%ManagedRuntime_validate_ok. intros t. subst t.
  repeat rewrite Forall_cons in Hpos. repeat rewrite Forall_cons in Hmax. cbv beta in Hpos, Hmax.
  assert (MAX_CHECK_INTERVAL_SECONDS = 16)%N as Hc by done.
  assert (MAX_INTERVAL_SECONDS = 2592000)%N as Hm by done.
  assert (REPORT_CADENCE_JITTER_PERCENT = 20)%N as -> by done.
  assert (REPORT_FRESHNESS = 60000)%N as -> by done. rewrite Hc in Hcad. rewrite Hm in *.
  split_and!.
  - unfold saturating_mul in Hgrace. unfold u64_max in Hgrace. lia.
  - intros base Hb. assert (0 < base ≤ 16)%N as Hbase.
    { rewrite !elem_of_cons, elem_of_nil in Hb. lia. }
    split; [lia|]. assert (base * 1000 * 20 = base * 200 * 100)%N as -> by lia.
    rewrite N.div_mul by done. lia.
  - intros seconds Hs. rewrite !elem_of_cons, elem_of_nil in Hs. lia.
Qed.

(** ** The restored document *)

Lemma route_total g installed available :
  graph_validate g = inr tt → undeclared g installed = false →
  is_Some (route g installed available)
  ∧ (∀ path, route g installed available = Some (inr path) →
      ∃ d, direction g installed = Some d
        ∧ (installed = Some (rg_target g) ∧ path = []
           ∨ is_route g d (allowed_versions g available) installed path))
  ∧ (∀ e, route g installed available = Some (inl e) →
      installed ≠ Some (rg_target g)
      ∧ ∃ d, direction g installed = Some d
        ∧ ∀ path, ~ is_route g d (allowed_versions g available) installed path).
Proof.
  intros Hv Hu. destruct (route_spec g installed available Hv Hu) as (d & Hd & Hr). simpl in Hr.
  case_bool_decide as Ht.
  - rewrite Hr. split_and!; [by eexists| |done]. intros path [= <-]. exists d. auto.
  - destruct (route g installed available) as [[e|path]|]; [| |done].
    + split_and!; [by eexists|done|]. intros e' _. split; [done|]. exists d. by split; [|apply Hr].
    + split_and!; [by eexists| |done]. intros p [= <-]. exists d. split; [done|]. right. by apply Hr.
Qed.

Lemma target_reference_inr g r :
  target_reference g = inr r ↔ ∃ release, rg_releases g !! rg_target g = Some release ∧ r = rl_package release.
Proof.
  unfold target_reference. destruct (rg_releases g !! rg_target g) as [release|].
  - split; [intros [= <-]; by eexists|]. by intros (? & [= <-] & ->).
  - split; [done|]. by intros (? & ? & _).
Qed.

Lemma check_source_inr g version sha256 u :
  check_source g version sha256 = inr u ↔
  ∃ release, rg_releases g !! version = Some release
    ∧ tr_sha256 (rl_package release) = sha256 ∧ is_canonical_sha256 sha256 = true.
Proof.
  destruct u. unfold check_source. destruct (rg_releases g !! version) as [release|].
  - destruct (digests_match _ _) eqn:Hm; unfold digests_match in Hm.
    + bool_to_prop. split; [|done]. intros _. exists release. naive_solver.
    + split; [done|]. intros (r & [= <-] & <- & Hc). rewrite Hc, bool_decide_true in Hm; done.
  - split; [done|]. by intros (? & ? & _).
Qed.

Lemma checked_restoration_inr self previous restored :
  checked_restoration self previous = inr restored →
  restored = restored_assignment self previous
  ∧ RepositoryAssignment_validate restored = inr tt
  ∧ ∃ old new,
      rg_releases (ra_application previous) !! rg_target (ra_application previous) = Some old
      ∧ rg_releases (ra_application self) !! rg_target (ra_application previous) = Some new
      ∧ tr_sha256 (rl_package new) = tr_sha256 (rl_package old).
Proof.
  unfold checked_restoration. intros Hb. sum_inv.
  rename select (target_reference _ = _) into Ht. apply target_reference_inr in Ht as (old & Hold & ->).
  rename select (check_source _ _ _ = _) into Hc. apply check_source_inr in Hc as (new & Hnew & Heq & _).
  split_and!; [done..|]. by exists old, new.
Qed.

(** The automatic rollback restores exactly the previous deployment: it never panics when
    the current catalog declares its own target, and a document it returns is valid, is the
    previous one in everything but its catalog, installs the very bytes the previous one
    installed, and is reachable from the current target by the edges the current catalog
    declares. *)
Lemma rollback_restores_previous self previous :
  RepositoryAssignment_validate self = inr tt →
  match assignment_rollback_to self previous with
  | None => False
  | Some (inl _) => True
  | Some (inr restored) =>
      RepositoryAssignment_validate restored = inr tt
      ∧ restored = restored_assignment self previous
      ∧ (∃ old new, target_reference (ra_application previous) = inr old
          ∧ target_reference (ra_application restored) = inr new ∧ tr_sha256 new = tr_sha256 old)
      ∧ ∃ d path, direction (ra_application restored) (Some (rg_target (ra_application self))) = Some d
          ∧ (rg_target (ra_application self) = rg_target (ra_application previous) ∧ path = []
             ∨ is_route (ra_application restored) d
                 (allowed_versions (ra_application restored) (λ _ _, true))
                 (Some (rg_target (ra_application self))) path)
  end.
Proof.
  intros Hself. unfold assignment_rollback_to.
  destruct (checked_restoration self previous) as [|restored'] eqn:Hb; [done|].
  apply checked_restoration_inr in Hb as (-> & Hv & old & new & Hold & Hnew & Hsha).
  set (restored := restored_assignment self previous) in *.
  destruct (route_total (ra_application restored) (Some (rg_target (ra_application self))) (λ _ _, true))
    as ([[e|path] Hr] & Hroute & _).
  { by apply RepositoryAssignment_validate_graph. }
  { unfold undeclared. apply negb_false_iff, contains_key_true.
    by apply (validate_target (ra_application self)), RepositoryAssignment_validate_graph. }
  all: rewrite Hr; cbn; try done. split_and!; [done..| |].
  - exists (rl_package old), (rl_package new). rewrite !target_reference_inr. split_and!; [by eexists|by eexists|done].
  - destruct (Hroute path Hr) as (d & Hd & Hp). exists d, path. split; [done|].
    destruct Hp as [[[= Ht] ->]|Hp]; [by left|by right].
Qed.

(** ** The planner's view *)

(** [crate::deployment_identity] *)
Definition assignment_identity (a : RepositoryAssignment) : option string := snd <$> ok_of (publication a).

(** [application.target_reference().expect("validated release graph").sha256]. *)
Definition assignment_target_sha256 (a : RepositoryAssignment) : option string :=
  tr_sha256 <$> ok_of (target_reference (ra_application a)).

(** A document with an identity has a target, so the [expect] behind an identity is safe. *)
Lemma identity_has_target a id :
  assignment_identity a = Some id → is_Some (assignment_target_sha256 a).
Proof.
  unfold assignment_identity, assignment_target_sha256. rewrite fmap_Some.
  intros ([bytes id'] & Hp%ok_of_Some & ->).
  apply publication_inr in Hp as [(Hv & _)%to_bounded_json_inr ->].
  apply RepositoryAssignment_validate_graph, validate_target in Hv as [r Hr].
  unfold target_reference. rewrite Hr. by eexists.
Qed.

#[export] Instance assignment_deployments : Deployments := {|
  DesiredDeployment := RepositoryAssignment;
  deployment_identity := assignment_identity;
  deployment_name := ra_deployment;
  target_sha256 := λ a, default EmptyString (assignment_target_sha256 a);
  rollback_to := λ self previous, r ← assignment_rollback_to self previous; ok_of r;
|}.

End assignment.
