(* ===== verification/Groups.v ===== *)
(** * Groups: the dependency graph of node groups and the routing of nodes

    Models the group half of [updatec/src/lib.rs] and [dependency_order] of
    [updatec/src/domain.rs]: the depth-first validation of the dependency graph, the per-group
    classification of its violations, the order inputs are resolved in, and the selection of a
    node's one group.  [None] is a panic, or fuel that ran out; the theorems show that neither
    happens. *)
From S2P Require Import Prelude Identity Maps Releases Dataflow Telemetry Window Rollout.

(** ** Errors *)

(** The messages of a refused release preflight. *)
Inductive PreflightMessage : Type :=
| MRoute (e : ReleaseError)
| MNoBaseline
| MRollback (e : ReleaseError)
| MUnverifiedSource (target : string)
| MMissingBody
| MInFlight (landing : string) (e : ReleaseError).

Inductive PlanError : Type :=
| EmptySelector (group : string)
| DuplicateGroup (group : string)
| ReservedGroupName
| RoutingLoss (nodes : list string)
| UnknownPlacement (node group : string)
| DuplicateNode (node : string)
| MissingDependency (group dependency : string)
| DependencyCycle (cycle : list string)
| InvalidDependencyInput (group input : string)
| TooManyDependencyInputs (group : string) (inputs : nat)
| AmbiguousNode (node : string) (groups : list string)
| InvalidNodeName
| InvalidPrefix
| InvalidDeployment (e : ContractError)
| ReleasePreflight (node : string) (message : PreflightMessage)
| NodeDeploymentMismatch
| Serialize (e : ContractError).

(** ** Resource names *)

Definition MAX_DNS_SUBDOMAIN_BYTES : nat := 253.

Definition dns_label_byte (c : ascii) : bool :=
  is_ascii_lowercase c || is_ascii_digit c || bool_decide (c = "-"%char).

Definition is_dns_label (label : string) : bool :=
  match label with
  | EmptyString => false
  | String first _ =>
      (String.length label <=? 63)%nat && string_forallb dns_label_byte label
      && is_ascii_alphanumeric first
      && match string_last label with Some l => is_ascii_alphanumeric l | None => false end
  end.

(** [ResourceName::new(value).is_ok()]. *)
Definition is_dns_subdomain (value : string) : bool :=
  negb (bool_decide (value = EmptyString))
  && (String.length value <=? MAX_DNS_SUBDOMAIN_BYTES)%nat
  && forallb is_dns_label (split_on "."%char EmptyString value).

Section groups.
Context `{!Base64} `{!DataflowJson} `{!Deployments}.

Record ResolvedNode : Type := mkResolvedNode {
  rn_name : string;
  rn_labels : BTreeMap string;
}.

Definition is_output_name (name : string) : bool :=
  match FileValue_from_bytes EmptyString with
  | inr value => succeeds (FileSnapshot_validate (mkFileSnapshot {[ name := value ]}))
  | inl _ => false
  end.

(** The first input whose name, output or group is refused. *)
Definition bad_input (g : ResolvedGroup) : option (string * GroupOutputReference) :=
  snd <$> list_find (λ x : string * GroupOutputReference,
            is_output_name x.1 = false ∨ is_output_name (gor_output x.2) = false
            ∨ (gor_group x.2 ∉ gr_depends_on g)) (bt_iter (gr_inputs g)).

(** ** The depth-first validation *)

Section validate.
Context (groups : BTreeMap ResolvedGroup) (quarantined : BTreeSet).

(** The walk's state: 1 while a group is on the stack, 2 once it is done. *)
Abbreviation Walk := (BTreeMap N * list string)%type.

Fixpoint visit_dependencies (visit : string → Walk → option (PlanError + Walk)) (name : string)
    (dependencies : list string) (w : Walk) : option (PlanError + Walk) :=
  match dependencies with
  | [] => Some (inr w)
  | dependency :: dependencies =>
      if bool_decide (dependency ∈ quarantined) then visit_dependencies visit name dependencies w
      else if negb (contains_key dependency groups)
      then Some (inl (MissingDependency name dependency))
      else
        r ← visit dependency w;
        match r with
        | inl e => Some (inl e)
        | inr w => visit_dependencies visit name dependencies w
        end
  end.

(** The checks of a group's inputs. *)
Definition check_inputs (name : string) (g : ResolvedGroup) : PlanError + unit :=
  _ ← demand (size (gr_inputs g) <=? MAX_FILES)%nat (TooManyDependencyInputs name (size (gr_inputs g)));
  match bad_input g with
  | Some (input, _) => inl (InvalidDependencyInput name input)
  | None => inr tt
  end.

Fixpoint visit (fuel : nat) (name : string) (w : Walk) : option (PlanError + Walk) :=
  let '(state, stack) := w in
  match state !! name with
  | Some 2%N => Some (inr w)
  | Some 1%N =>
      let start := default 0%nat (fst <$> list_find (λ entry, entry = name) stack) in
      Some (inl (DependencyCycle (drop start stack ++ [name])))
  | _ =>
      match fuel with
      | O => None
      | S fuel =>
          group ← groups !! name;
          r ← visit_dependencies (visit fuel) name (gr_depends_on group)
                (<[name := 1%N]> state, stack ++ [name]);
          match r with
          | inl e => Some (inl e)
          | inr (state, stack) =>
              match check_inputs name group with
              | inl e => Some (inl e)
              | inr _ => Some (inr (<[name := 2%N]> state, removelast stack))
              end
          end
      end
  end.

(** The roots, in key order; a stack of pairwise distinct groups bounds the depth. *)
Fixpoint visit_roots (names : list string) (w : Walk) : option (PlanError + Walk) :=
  match names with
  | [] => Some (inr w)
  | name :: names =>
      r ← visit (size groups) name w;
      match r with
      | inl e => Some (inl e)
      | inr w => visit_roots names w
      end
  end.

Definition validate_dependency_graph : option (PlanError + unit) :=
  r ← visit_roots (bt_keys groups) (∅, []);
  match r with
  | inl e => Some (inl e)
  | inr _ => Some (inr tt)
  end.

End validate.

(** ** Violations, per group *)

(** The reason shown to the operator, with its arguments. *)
Inductive Violation : Type :=
| VTooManyInputs (inputs : nat)
| VBadInput (input group : string)
| VMissing (dependency : string)
| VCycle (cycle : list string).

Definition local_violation (groups : BTreeMap ResolvedGroup) (quarantined : BTreeSet)
    (g : ResolvedGroup) : option Violation :=
  if (MAX_FILES <? size (gr_inputs g))%nat then Some (VTooManyInputs (size (gr_inputs g)))
  else match bad_input g with
  | Some (input, reference) => Some (VBadInput input (gor_group reference))
  | None =>
      match list_find (λ dependency, dependency ∉ quarantined ∧ groups !! dependency = None) (gr_depends_on g) with
      | Some (_, dependency) => Some (VMissing dependency)
      | None => None
      end
  end.

Definition or_insert (cycle : list string) (violations : BTreeMap Violation) (member : string)
    : BTreeMap Violation :=
  if contains_key member violations then violations else <[member := VCycle cycle]> violations.

Fixpoint cycle_violations (fuel : nat) (groups : BTreeMap ResolvedGroup) (quarantined : BTreeSet)
    (violations : BTreeMap Violation) : option (BTreeMap Violation) :=
  let remaining := filter (λ x : string * ResolvedGroup, violations !! x.1 = None) groups in
  let skip := quarantined ∪ dom violations in
  r ← validate_dependency_graph remaining skip;
  match r with
  | inr _ => Some violations
  | inl (DependencyCycle cycle) =>
      match fuel with
      | O => None
      | S fuel => cycle_violations fuel groups quarantined (foldl (or_insert cycle) violations cycle)
      end
  | inl _ => None
  end.

Definition dependency_violations (groups : BTreeMap ResolvedGroup) (quarantined : BTreeSet)
    : option (BTreeMap Violation) :=
  cycle_violations (size groups) groups quarantined (omap (local_violation groups quarantined) groups).

(** ** Routing *)

Fixpoint index_groups (indexed : BTreeMap ResolvedGroup) (groups : list ResolvedGroup)
    : PlanError + BTreeMap ResolvedGroup :=
  match groups with
  | [] => inr indexed
  | group :: groups =>
      let name := gr_name group in
      _ ← demand (negb (bool_decide (gr_match_labels group = ∅))) (EmptySelector name);
      _ ← demand (negb (bool_decide (name = DEFAULT_GROUP))) ReservedGroupName;
      _ ← demand (negb (contains_key name indexed)) (DuplicateGroup name);
      index_groups (<[name := group]> indexed) groups
  end.

Definition matching_groups (indexed : BTreeMap ResolvedGroup) (node : ResolvedNode) : list string :=
  (filter (λ x : string * ResolvedGroup, selector_matches (gr_match_labels x.2) (rn_labels node) = true)
     (bt_iter indexed)).*1.

Fixpoint route_nodes (indexed : BTreeMap ResolvedGroup) (node_groups : BTreeMap string)
    (nodes : list ResolvedNode) : PlanError + BTreeMap string :=
  match nodes with
  | [] => inr node_groups
  | node :: nodes =>
      let name := rn_name node in
      if negb (is_dns_subdomain name) || contains_key name node_groups
      then inl (if contains_key name node_groups then DuplicateNode name else InvalidNodeName)
      else
        let matches := matching_groups indexed node in
        selected ← (match matches with
                    | [] => inr DEFAULT_GROUP
                    | [only] => inr only
                    | _ => inl (AmbiguousNode name matches)
                    end);
        route_nodes indexed (<[name := selected]> node_groups) nodes
  end.

Definition resolve_node_groups (groups : list ResolvedGroup) (nodes : list ResolvedNode)
    : PlanError + BTreeMap string :=
  indexed ← index_groups ∅ groups;
  route_nodes indexed ∅ nodes.

(** ** Dependency order *)

Section order.
Context (groups : BTreeMap ResolvedGroup).

(** [placed] and [ordered] of the code are one list here: every name is pushed to both. *)
Definition place (ordered : list string) (x : string * ResolvedGroup) : list string :=
  if bool_decide (x.1 ∈ ordered) then ordered
  else if forallb (λ dependency, bool_decide (dependency ∈ ordered)
                                 || negb (contains_key dependency groups)) (gr_depends_on x.2)
  then ordered ++ [x.1] else ordered.

Definition placement_pass (ordered : list string) : list string :=
  foldl place ordered (bt_iter groups).

Definition dependency_order : list string :=
  let ordered := Nat.iter (size groups) placement_pass [] in
  ordered ++ filter (λ name, name ∉ ordered) (bt_keys groups).

End order.

End groups.
