(* ===== verification/GroupGraph.v ===== *)
(** * GroupGraph: the dependency validation is exact

    The theorems of [Groups.v] about the dependency graph: the depth-first walk accepts exactly
    the graphs whose groups are well wired and acyclic, every error it reports is true of the
    graph, and the per-group classification always leaves a graph it accepts. *)
From S2P Require Import Prelude Identity Maps Releases Dataflow Telemetry Window Rollout Groups.

Section graph.
Context `{!Base64} `{!DataflowJson} `{!Deployments}.

(** ** What the graph promises *)

Section one.
Context (groups : BTreeMap ResolvedGroup) (quarantined : BTreeSet).

(** [u] waits for [v]. *)
Definition depends (u v : string) : Prop :=
  ∃ g, groups !! u = Some g ∧ v ∈ gr_depends_on g ∧ v ∉ quarantined.

Definition inputs_ok (g : ResolvedGroup) : Prop :=
  (size (gr_inputs g) ≤ MAX_FILES)%nat
  ∧ ∀ input reference, gr_inputs g !! input = Some reference →
      is_output_name input = true ∧ is_output_name (gor_output reference) = true
      ∧ gor_group reference ∈ gr_depends_on g.

Definition wired (name : string) (g : ResolvedGroup) : Prop :=
  inputs_ok g ∧ ∀ v, depends name v → is_Some (groups !! v).

(** Consecutive entries wait for one another. *)
Fixpoint path (l : list string) : Prop :=
  match l with
  | u :: ((v :: _) as l') => depends u v ∧ path l'
  | _ => True
  end.

(** A path of at least one edge that ends where it starts. *)
Definition cycle (l : list string) : Prop :=
  path l ∧ (2 ≤ length l)%nat ∧ head l = last l.

(** What each error says of the graph. *)
Definition error_true (e : PlanError) : Prop :=
  match e with
  | MissingDependency name d => depends name d ∧ groups !! d = None
  | DependencyCycle l => cycle l ∧ ∀ v, v ∈ l → is_Some (groups !! v)
  | TooManyDependencyInputs name n =>
      ∃ g, groups !! name = Some g ∧ n = size (gr_inputs g) ∧ (MAX_FILES < n)%nat
  | InvalidDependencyInput name input =>
      ∃ g reference, groups !! name = Some g ∧ gr_inputs g !! input = Some reference
        ∧ (is_output_name input = false ∨ is_output_name (gor_output reference) = false
           ∨ (gor_group reference ∉ gr_depends_on g))
  | _ => False
  end.

(** ** Paths *)

Lemma path_app l1 u l2 : path (l1 ++ [u]) → path (u :: l2) → path (l1 ++ u :: l2).
Proof.
  induction l1 as [|x l1 IH]; [done|]. destruct l1 as [|y l1]; simpl.
  - intros [? _] ?. done.
  - intros [? ?] ?. split; [done|]. by apply IH.
Qed.

Lemma path_snoc l v : path l → (∀ u, last l = Some u → depends u v) → path (l ++ [v]).
Proof.
  intros Hp Hl. destruct l as [|u l _] using rev_ind; [done|]. rewrite <-app_assoc.
  apply path_app; [done|]. split; [|done]. apply Hl. by rewrite last_snoc.
Qed.

Lemma path_drop n l : path l → path (drop n l).
Proof.
  revert l. induction n as [|n IH]; intros l Hp; [done|]. destruct l as [|u l]; [done|].
  apply IH. destruct l; [done|]. by destruct Hp.
Qed.

Lemma path_tc u l v : path (u :: l) → l ≠ [] → last (u :: l) = Some v → tc depends u v.
Proof.
  revert u. induction l as [|x l IH]; intros u Hp Hne Hl; [done|]. destruct Hp as [Hd Hp].
  destruct l as [|y l]; [injection Hl as ->; by constructor|].
  eapply tc_l; [done|]. by apply IH.
Qed.

Lemma cycle_tc l v : cycle l → head l = Some v → tc depends v v.
Proof.
  intros (Hp & Hlen & Hhl) Hh. destruct l as [|u l]; [done|]. injection Hh as ->.
  apply (path_tc v l); [done| |by rewrite <-Hhl]. destruct l; simpl in *; [lia|done].
Qed.

Lemma tc_head u v : tc depends u v → ∃ d, depends u d ∧ rtc depends d v.
Proof. destruct 1 as [? ? Hd|? d ? Hd Ht]; [by exists y|]. exists d. split; [done|]. by apply tc_rtc. Qed.

(** ** Inputs *)

Lemma bad_input_None g : bad_input g = None ↔
  ∀ input reference, gr_inputs g !! input = Some reference →
    is_output_name input = true ∧ is_output_name (gor_output reference) = true
    ∧ gor_group reference ∈ gr_depends_on g.
Proof.
  unfold bad_input. rewrite fmap_None. split.
  - intros Hf input reference Hi%elem_of_bt_iter. rewrite list_find_None, Forall_forall in Hf.
    specialize (Hf _ Hi). simpl in Hf.
    destruct (is_output_name input), (is_output_name (gor_output reference)), (decide (gor_group reference ∈ gr_depends_on g)); tauto.
  - intros Hall. apply list_find_None, Forall_forall. intros [input reference] Hi%elem_of_bt_iter. simpl.
    destruct (Hall _ _ Hi) as (-> & -> & ?). intros [?|[?|?]]; done.
Qed.

Lemma bad_input_Some g input reference : bad_input g = Some (input, reference) →
  gr_inputs g !! input = Some reference
  ∧ (is_output_name input = false ∨ is_output_name (gor_output reference) = false
     ∨ (gor_group reference ∉ gr_depends_on g)).
Proof.
  unfold bad_input. intros ([i x] & (Hl & Hp & _)%list_find_Some & Hx)%fmap_Some. simpl in Hx. subst x.
  split; [|done]. apply elem_of_bt_iter. by eapply list_elem_of_lookup_2.
Qed.

Lemma check_inputs_spec name g : groups !! name = Some g →
  match check_inputs name g with inr _ => inputs_ok g | inl e => error_true e end.
Proof.
  intros Hg. unfold check_inputs. destruct (Nat.leb_spec (size (gr_inputs g)) MAX_FILES); simpl.
  - destruct (bad_input g) as [[input reference]|] eqn:Hb.
    + apply bad_input_Some in Hb as [? ?]. by exists g, reference.
    + split; [done|]. by apply bad_input_None.
  - by exists g.
Qed.

(** ** The walk *)

Record walk_inv (state : BTreeMap N) (stack : list string) : Prop := {
  wi_stack : ∀ v, state !! v = Some 1%N ↔ v ∈ stack;
  wi_marks : ∀ v n, state !! v = Some n → n = 1%N ∨ n = 2%N;
  wi_nodup : NoDup stack;
  wi_declared : ∀ v, v ∈ stack → is_Some (groups !! v);
  wi_path : path stack;
  wi_done : ∀ v, state !! v = Some 2%N →
    (∃ g, groups !! v = Some g ∧ wired v g)
    ∧ (∀ d, depends v d → state !! d = Some 2%N) ∧ ~ tc depends v v;
}.

(** What one call does to the walk: the group is done, the stack is as before. *)
Definition visited (names : list string) (w w' : BTreeMap N * list string) : Prop :=
  walk_inv w'.1 w'.2 ∧ w'.2 = w.2
  ∧ (∀ v, w.1 !! v = Some 2%N → w'.1 !! v = Some 2%N)
  ∧ (∀ v, v ∈ names → w'.1 !! v = Some 2%N).

Definition visit_ok (names : list string) (w : BTreeMap N * list string)
    (r : option (PlanError + (BTreeMap N * list string))) : Prop :=
  match r with
  | None => False
  | Some (inl e) => error_true e
  | Some (inr w') => visited names w w'
  end.

Lemma visit_dependencies_ok (f : string → BTreeMap N * list string → option (PlanError + (BTreeMap N * list string)))
    name g stack :
  groups !! name = Some g → last stack = Some name →
  (∀ d state, walk_inv state stack → depends name d → is_Some (groups !! d) →
     visit_ok [d] (state, stack) (f d (state, stack))) →
  ∀ ds state, (∀ d, d ∈ ds → d ∈ gr_depends_on g) → walk_inv state stack →
  visit_ok (filter (λ d, d ∉ quarantined) ds) (state, stack)
    (visit_dependencies groups quarantined f name ds (state, stack)).
Proof.
  intros Hg Hlast Hf ds. induction ds as [|d ds IH]; intros state Hds Hi; cbn [visit_dependencies].
  { split_and!; [done..|]. intros v Hv. by apply not_elem_of_nil in Hv. }
  assert (∀ x, x ∈ ds → x ∈ gr_depends_on g) as Hds' by (intros; apply Hds; by constructor).
  case_bool_decide as Hq.
  { rewrite filter_cons_False by (intros ?; done). by apply IH. }
  rewrite filter_cons_True by done.
  assert (depends name d) as Hd by (exists g; split_and!; [done|apply Hds; constructor|done]).
  destruct (contains_key d groups) eqn:Hc; simpl.
  2:{ apply contains_key_false in Hc. done. }
  apply contains_key_true in Hc. specialize (Hf d state Hi Hd Hc).
  destruct (f d (state, stack)) as [[e|[state' stack']]|]; simpl; [done| |done].
  destruct Hf as (Hi' & Hs & Hmono & Hin). simpl in *. subst stack'.
  specialize (IH state' Hds' Hi').
  destruct (visit_dependencies _ _ _ _ _ _) as [[e|w'']|]; [done| |done].
  destruct IH as (Hi'' & Hs & Hmono' & Hin'). simpl in *. split_and!; [done|done|auto|].
  intros v [->|Hv]%elem_of_cons; [|by apply Hin']. apply Hmono', Hin. constructor.
Qed.

(** Marking a fresh group as being walked, and as done. *)
Lemma walk_inv_push state stack name :
  walk_inv state stack → state !! name = None → is_Some (groups !! name) →
  (∀ u, last stack = Some u → depends u name) →
  walk_inv (<[name := 1%N]> state) (stack ++ [name]).
Proof.
  intros Hi Hn Hd Hlast.
  assert (name ∉ stack) as Hns by (intros Hin%(wi_stack _ _ Hi); congruence).
  split.
  - intros v. rewrite elem_of_app, list_elem_of_singleton, <-(wi_stack _ _ Hi).
    destruct (decide (v = name)) as [->|Hne]; [rewrite lookup_insert_eq|rewrite lookup_insert_ne by done]; naive_solver.
  - intros v n. rewrite lookup_insert_Some. intros [[_ <-]|[_ ?]]; [by left|by eapply wi_marks].
  - apply NoDup_app. split_and!; [by eapply wi_nodup|set_solver|apply NoDup_singleton].
  - intros v [Hv| ->%list_elem_of_singleton]%elem_of_app; [by eapply wi_declared|done].
  - apply path_snoc; [by eapply wi_path|done].
  - intros v Hv. assert (v ≠ name) as Hne by (intros ->; by rewrite lookup_insert_eq in Hv).
    rewrite lookup_insert_ne in Hv by done. destruct (wi_done _ _ Hi v Hv) as (? & Hall & ?).
    split_and!; [done| |done]. intros d Hdep. specialize (Hall d Hdep).
    rewrite lookup_insert_ne; [done|]. intros ->. congruence.
Qed.

Lemma walk_inv_pop state stack name g :
  walk_inv state (stack ++ [name]) → groups !! name = Some g → wired name g →
  (∀ d, depends name d → state !! d = Some 2%N) →
  walk_inv (<[name := 2%N]> state) stack.
Proof.
  intros Hi Hg Hw Hall.
  assert (state !! name = Some 1%N) as Hn by (apply (wi_stack _ _ Hi); set_solver).
  pose proof (wi_nodup _ _ Hi) as (Hnd & Hdis & _)%NoDup_app.
  assert (name ∉ stack) as Hns by (intros Hin; apply (Hdis _ Hin); constructor).
  assert (∀ v, tc depends name v → state !! v = Some 2%N) as Hreach.
  { intros v Ht. apply tc_head in Ht as (d & Hd & Hr). specialize (Hall d Hd).
    clear Hd. induction Hr as [|x y z Hxy _ IH]; [done|]. apply IH.
    by apply (wi_done _ _ Hi x Hall). }
  split.
  - intros v. rewrite lookup_insert_Some, (wi_stack _ _ Hi), elem_of_app, list_elem_of_singleton. naive_solver.
  - intros v n. rewrite lookup_insert_Some. intros [[_ <-]|[_ ?]]; [by right|by eapply wi_marks].
  - done.
  - intros v Hv. apply (wi_declared _ _ Hi). set_solver.
  - pose proof (wi_path _ _ Hi) as Hp. clear -Hp. induction stack as [|u stack IH]; [done|].
    destruct stack; simpl in *; [done|]. destruct Hp. split; [done|]. by apply IH.
  - assert (∀ d, state !! d = Some 2%N → <[name := 2%N]> state !! d = Some 2%N) as Hkeep.
    { intros d Hd. destruct (decide (d = name)) as [->|]; [by rewrite lookup_insert_eq|by rewrite lookup_insert_ne]. }
    intros v Hv2. apply lookup_insert_Some in Hv2 as [[<- _]|[Hne Hv]].
    + split_and!; [by exists g|intros d Hd; apply Hkeep; by apply Hall|].
      intros Ht%Hreach. congruence.
    + destruct (wi_done _ _ Hi v Hv) as (? & Hd & ?). split_and!; [done| |done].
      intros d Hdep. apply Hkeep. by apply Hd.
Qed.

Lemma stack_bound state stack name :
  walk_inv state stack → state !! name = None → is_Some (groups !! name) →
  (length stack < size groups)%nat.
Proof.
  intros Hi Hn Hd. assert (name ∉ stack) as Hns by (intros Hin%(wi_stack _ _ Hi); congruence).
  assert (NoDup (name :: stack)) as Hnd by (constructor; [done|by eapply wi_nodup]).
  rewrite <-(size_dom (D := gset string)).
  change (length (name :: stack) ≤ size (dom groups))%nat.
  rewrite <-(size_list_to_set (C := gset string) _ Hnd). apply subseteq_size.
  intros v Hv%elem_of_list_to_set. apply elem_of_dom.
  apply elem_of_cons in Hv as [->|Hv]; [done|by eapply wi_declared].
Qed.

(** The cycle the walk reports is the stack from the group it met again. *)
Lemma reported_cycle state stack name :
  walk_inv state stack → state !! name = Some 1%N → (∀ u, last stack = Some u → depends u name) →
  error_true (DependencyCycle (drop (default 0%nat (fst <$> list_find (λ entry, entry = name) stack)) stack ++ [name])).
Proof.
  intros Hi Hn Hlast. apply (wi_stack _ _ Hi) in Hn as Hin.
  destruct (list_find_elem_of (λ entry, entry = name) stack name Hin eq_refl) as [[i x] Hf].
  rewrite Hf. simpl. apply list_find_Some in Hf as (Hl & -> & _).
  apply lookup_lt_Some in Hl as Hlt. split; [|].
  - split_and!.
    + apply path_snoc; [apply path_drop; by eapply wi_path|]. intros u Hu. apply Hlast.
      by rewrite <-(take_drop i stack), last_app, Hu.
    + rewrite length_app, length_drop. simpl. lia.
    + rewrite last_snoc. rewrite (drop_S stack name i Hl). done.
  - intros v [Hv| ->%list_elem_of_singleton]%elem_of_app.
    + apply (wi_declared _ _ Hi). apply list_elem_of_lookup_1 in Hv as [j Hj].
      rewrite lookup_drop in Hj. by eapply list_elem_of_lookup_2.
    + by apply (wi_declared _ _ Hi).
Qed.

Lemma visit_spec fuel : ∀ name state stack,
  walk_inv state stack → is_Some (groups !! name) →
  (∀ u, last stack = Some u → depends u name) →
  (size groups ≤ fuel + length stack)%nat →
  visit_ok [name] (state, stack) (visit groups quarantined fuel name (state, stack)).
Proof.
  induction fuel as [|fuel IH]; intros name state stack Hi Hd Hlast Hfuel; cbn [visit].
  all: destruct (state !! name) as [n|] eqn:Hn.
  1,3: destruct (wi_marks _ _ Hi name n Hn) as [-> | ->];
    [by apply (reported_cycle state)|]; split_and!; [done..|];
    intros v ->%list_elem_of_singleton; done.
  - pose proof (stack_bound _ _ _ Hi Hn Hd). lia.
  - destruct Hd as [g Hg]. rewrite Hg. cbn [mbind option_bind].
    assert (walk_inv (<[name := 1%N]> state) (stack ++ [name])) as Hpush by (by apply walk_inv_push).
    pose proof (visit_dependencies_ok (visit groups quarantined fuel) name g (stack ++ [name]) Hg) as Hdeps.
    rewrite last_snoc in Hdeps. specialize (Hdeps eq_refl).
    ospecialize (Hdeps _ (gr_depends_on g) (<[name := 1%N]> state) _ Hpush).
    { intros d st Hst Hdep Hdecl. apply IH; [done|done| |rewrite length_app; simpl; lia].
      rewrite last_snoc. intros u [= <-]. done. }
    { done. }
    destruct (visit_dependencies _ _ _ _ _ _) as [[e|[state' stack']]|]; cbn; [done| |done].
    destruct Hdeps as (Hi' & Hs & Hmono & Hin). simpl in Hi', Hs, Hmono, Hin. subst stack'.
    pose proof (check_inputs_spec name g Hg) as Hc. destruct (check_inputs name g) as [e|[]]; [done|].
    rewrite removelast_last.
    assert (∀ d, depends name d → state' !! d = Some 2%N) as Hall.
    { intros d (g' & Hg' & Hdg & Hdq). apply Hin, list_elem_of_filter. split; [done|congruence]. }
    assert (walk_inv (<[name := 2%N]> state') stack) as Hpop.
    { apply (walk_inv_pop _ _ _ g); [done|done| |done]. split; [done|].
      intros d Hdep. destruct (wi_done _ _ Hi' d (Hall d Hdep)) as ((gd & ? & _) & _). by eexists. }
    split_and!; [done|done| |].
    + intros v Hv. simpl in *. destruct (decide (v = name)) as [->|Hne]; [by rewrite lookup_insert_eq|].
      rewrite lookup_insert_ne by done. apply Hmono. by rewrite lookup_insert_ne.
    + intros v ->%list_elem_of_singleton. simpl. by rewrite lookup_insert_eq.
Qed.

Lemma visit_roots_spec names : ∀ state,
  (∀ v, v ∈ names → is_Some (groups !! v)) → walk_inv state [] →
  visit_ok names (state, []) (visit_roots groups quarantined names (state, [])).
Proof.
  induction names as [|name names IH]; intros state Hd Hi; cbn [visit_roots].
  { split_and!; [done..|]. intros v Hv. by apply not_elem_of_nil in Hv. }
  opose proof (visit_spec (size groups) name state [] Hi _ _ _) as Hvisit; [apply Hd; constructor|done|simpl; lia|].
  destruct (visit _ _ _ _ _) as [[e|[state' stack']]|]; cbn; [done| |done].
  destruct Hvisit as (Hi' & Hs & Hmono & Hin). simpl in *. subst stack'.
  specialize (IH state' ltac:(intros; apply Hd; by constructor) Hi').
  destruct (visit_roots _ _ _ _) as [[e|w'']|]; [done| |done].
  destruct IH as (Hi'' & Hs & Hmono' & Hin'). simpl in *. split_and!; [done|done|auto|].
  intros v [->|Hv]%elem_of_cons; [|by apply Hin']. apply Hmono', Hin. constructor.
Qed.

Lemma walk_inv_empty : walk_inv ∅ [].
Proof.
  split; [|done|constructor| |done|done].
  - intros v. rewrite lookup_empty. split; [done|]. intros Hv. by apply not_elem_of_nil in Hv.
  - intros v Hv. by apply not_elem_of_nil in Hv.
Qed.

(** The whole validation: total, truthful, and accepting exactly the wired acyclic graphs. *)
Lemma validate_spec :
  ∃ r, validate_dependency_graph groups quarantined = Some r
    ∧ match r with
      | inl e => error_true e
      | inr _ => (∀ name g, groups !! name = Some g → wired name g) ∧ ∀ v, ~ tc depends v v
      end.
Proof.
  unfold validate_dependency_graph.
  pose proof (visit_roots_spec (bt_keys groups) ∅) as Hr.
  ospecialize (Hr _ walk_inv_empty); [by intros v Hv%elem_of_bt_keys|].
  destruct (visit_roots _ _ _ _) as [[e|w]|]; cbn; [by eexists| |done].
  destruct Hr as (Hi & _ & _ & Hin). eexists. split; [done|]. split.
  - intros name g Hg. destruct (wi_done _ _ Hi name) as ((g' & Hg' & Hw) & _).
    { apply Hin, elem_of_bt_keys. by eexists. }
    congruence.
  - intros v Ht. apply tc_head in Ht as Hx. destruct Hx as (d & (g & Hg & _) & _).
    destruct (wi_done _ _ Hi v) as (_ & _ & Hac); [|done]. apply Hin, elem_of_bt_keys. by eexists.
Qed.

Lemma error_refutes e :
  error_true e → ~ ((∀ name g, groups !! name = Some g → wired name g) ∧ ∀ v, ~ tc depends v v).
Proof.
  intros He [Hw Hac]. destruct e; try done; simpl in He.
  - destruct He as [Hd Hn]. pose proof Hd as (g & Hg & _).
    destruct (Hw _ _ Hg) as [_ Hall]. destruct (Hall _ Hd). congruence.
  - destruct He as [Hc _]. destruct cycle0 as [|v l]; [destruct Hc as (_ & Hl & _); simpl in Hl; lia|].
    by eapply Hac, cycle_tc.
  - destruct He as (g & r & Hg & Hi & Hbad). destruct (Hw _ _ Hg) as [[_ Hall] _].
    destruct (Hall _ _ Hi) as (H1' & H2' & H3'). rewrite H1', H2' in Hbad. naive_solver.
  - destruct He as (g & Hg & -> & Hlt). destruct (Hw _ _ Hg) as [[Hle _] _]. lia.
Qed.

End one.

(** ** Classification *)

Section classify.
Context (groups : BTreeMap ResolvedGroup) (quarantined : BTreeSet).

Abbreviation remaining vs :=
  (filter (λ x : string * ResolvedGroup, (vs : BTreeMap Violation) !! x.1 = None) groups).

(** What a recorded violation says of the group it quarantines. *)
Definition violation_true (name : string) (v : Violation) : Prop :=
  match v with
  | VTooManyInputs n => ∃ g, groups !! name = Some g ∧ n = size (gr_inputs g) ∧ (MAX_FILES < n)%nat
  | VBadInput input group =>
      ∃ g reference, groups !! name = Some g ∧ gr_inputs g !! input = Some reference
        ∧ gor_group reference = group
        ∧ (is_output_name input = false ∨ is_output_name (gor_output reference) = false
           ∨ (group ∉ gr_depends_on g))
  | VMissing d => depends groups quarantined name d ∧ groups !! d = None
  | VCycle l => cycle groups quarantined l ∧ name ∈ l
  end.

Lemma local_violation_true name g v :
  groups !! name = Some g → local_violation groups quarantined g = Some v → violation_true name v.
Proof.
  intros Hg. unfold local_violation. destruct (Nat.ltb_spec MAX_FILES (size (gr_inputs g))).
  { intros [= <-]. by exists g. }
  destruct (bad_input g) as [[input reference]|] eqn:Hb.
  { intros [= <-]. apply bad_input_Some in Hb as [? ?]. by exists g, reference. }
  destruct (list_find _ _) as [[i d]|] eqn:Hf; intros [= <-].
  apply list_find_Some in Hf as (Hl & [Hq Hn] & _). split; [|done]. exists g. split_and!; [done| |done].
  by eapply list_elem_of_lookup_2.
Qed.

Lemma local_violation_None g :
  local_violation groups quarantined g = None →
  inputs_ok g ∧ ∀ d, d ∈ gr_depends_on g → d ∉ quarantined → is_Some (groups !! d).
Proof.
  unfold local_violation. destruct (Nat.ltb_spec MAX_FILES (size (gr_inputs g))) as [|Hle]; [done|].
  destruct (bad_input g) as [[? ?]|] eqn:Hb; [done|].
  destruct (list_find _ _) as [[i d]|] eqn:Hf; [done|]. intros _. split.
  - split; [lia|]. by apply bad_input_None.
  - intros d Hd Hq. apply list_find_None in Hf. rewrite Forall_forall in Hf.
    apply not_eq_None_Some. intros Hn. by apply (Hf d Hd).
Qed.

Definition classified (vs : BTreeMap Violation) : Prop :=
  (∀ name v, vs !! name = Some v → violation_true name v ∧ is_Some (groups !! name))
  ∧ ∀ name g, groups !! name = Some g → is_Some (local_violation groups quarantined g) →
      is_Some (vs !! name).

Lemma remaining_lookup vs name g :
  remaining vs !! name = Some g ↔ groups !! name = Some g ∧ vs !! name = None.
Proof. rewrite map_lookup_filter_Some. done. Qed.

Lemma depends_remaining vs u v :
  depends (remaining vs) (quarantined ∪ dom vs) u v →
  depends groups quarantined u v ∧ vs !! u = None ∧ vs !! v = None.
Proof.
  intros (g & [Hg Hn]%remaining_lookup & Hd & Hq). rewrite elem_of_union, elem_of_dom in Hq.
  split_and!; [|done|apply eq_None_not_Some; tauto]. exists g. split_and!; [done|done|tauto].
Qed.

Lemma path_remaining vs l :
  path (remaining vs) (quarantined ∪ dom vs) l → path groups quarantined l.
Proof.
  induction l as [|u l IH]; [done|]. destruct l as [|v l]; [done|]. intros [[? _]%depends_remaining ?].
  split; [done|]. by apply IH.
Qed.

(** The only error left to the remainder is a cycle: the loop's other arm is unreachable. *)
Lemma remaining_error vs e :
  classified vs → error_true (remaining vs) (quarantined ∪ dom vs) e →
  ∃ l, e = DependencyCycle l ∧ cycle groups quarantined l
    ∧ ∀ v, v ∈ l → is_Some (groups !! v) ∧ vs !! v = None.
Proof.
  intros [_ Hcl] He.
  assert (∀ name g, remaining vs !! name = Some g →
    inputs_ok g ∧ ∀ d, d ∈ gr_depends_on g → d ∉ quarantined → is_Some (groups !! d)) as Hok.
  { intros name g [Hg Hn]%remaining_lookup. apply local_violation_None, eq_None_not_Some.
    intros Hs. destruct (Hcl name g Hg Hs). congruence. }
  destruct e as [| | | | | |name d|l|name input|name n| | | | | | |]; try done; simpl in He.
  - destruct He as [Hd Hn]. pose proof Hd as (g & Hg & Hdg & Hdq).
    apply depends_remaining in Hd as (_ & _ & Hv). destruct (Hok _ _ Hg) as [_ Hall].
    destruct (Hall d Hdg) as [g' Hg']; [set_solver|].
    exfalso. apply eq_None_not_Some in Hn. apply Hn. exists g'. by apply remaining_lookup.
  - exists l. destruct He as [(Hp & Hlen & Hh) Hall]. split_and!; [done| |].
    + split_and!; [by eapply path_remaining|done|done].
    + intros v (g & [? ?]%remaining_lookup)%Hall. split; [by eexists|done].
  - destruct He as (g & r & Hg & Hi & Hbad). destruct (Hok _ _ Hg) as [[_ Hin] _].
    destruct (Hin _ _ Hi) as (H1' & H2' & H3'). rewrite H1', H2' in Hbad. naive_solver.
  - destruct He as (g & Hg & -> & Hlt). destruct (Hok _ _ Hg) as [[Hle _] _]. lia.
Qed.

Lemma or_insert_lookup c l : ∀ vs name,
  foldl (or_insert c) vs l !! name =
  match vs !! name with
  | Some v => Some v
  | None => if decide (name ∈ l) then Some (VCycle c) else None
  end.
Proof.
  induction l as [|m l IH]; intros vs name; cbn [foldl].
  { rewrite decide_False by apply not_elem_of_nil. by destruct (vs !! name). }
  rewrite IH. unfold or_insert. destruct (contains_key m vs) eqn:Hc.
  - apply contains_key_true in Hc as [v Hv]. destruct (vs !! name) as [w|] eqn:Hn; [done|].
    assert (name ≠ m) by congruence.
    destruct (decide (name ∈ l)), (decide (name ∈ m :: l)); set_solver.
  - apply contains_key_false in Hc. destruct (decide (name = m)) as [->|Hne].
    + rewrite lookup_insert_eq, Hc, decide_True by constructor. done.
    + rewrite lookup_insert_ne by done. destruct (vs !! name); [done|].
      destruct (decide (name ∈ l)), (decide (name ∈ m :: l)); set_solver.
Qed.

(** Recording a reported cycle keeps the record true and strictly grows it. *)
Lemma classified_cycle vs l :
  classified vs → cycle groups quarantined l → (∀ v, v ∈ l → is_Some (groups !! v) ∧ vs !! v = None) →
  classified (foldl (or_insert l) vs l) ∧ (size vs < size (foldl (or_insert l) vs l))%nat.
Proof.
  intros [Ht Hcl] Hc Hl. split; [split|].
  - intros name v. rewrite or_insert_lookup. destruct (vs !! name) as [w|] eqn:Hn.
    + intros [= <-]. by apply Ht.
    + destruct (decide (name ∈ l)) as [Hin|]; [|done]. intros [= <-]. split; [done|]. by apply Hl.
  - intros name g Hg Hs. destruct (Hcl name g Hg Hs) as [v Hv]. rewrite or_insert_lookup, Hv. by eexists.
  - destruct Hc as (_ & Hlen & _). destruct l as [|m l]; [simpl in Hlen; lia|].
    rewrite <-!(size_dom (D := gset string)). apply subset_size. split.
    + intros x. rewrite !elem_of_dom, or_insert_lookup. intros [v ->]. by eexists.
    + intros Hsub. destruct (Hl m) as [_ Hm]; [constructor|].
      assert (m ∈ dom (foldl (or_insert (m :: l)) vs (m :: l))) as Hin%Hsub%elem_of_dom.
      { apply elem_of_dom. rewrite or_insert_lookup, Hm, decide_True by constructor. by eexists. }
      destruct Hin. congruence.
Qed.

Lemma cycle_violations_spec fuel : ∀ vs,
  classified vs → (size groups ≤ fuel + size vs)%nat →
  ∃ vs', cycle_violations fuel groups quarantined vs = Some vs' ∧ classified vs'
    ∧ validate_dependency_graph (remaining vs') (quarantined ∪ dom vs') = Some (inr tt).
Proof.
  induction fuel as [|fuel IH]; intros vs Hcl Hfuel; cbn [cycle_violations];
    destruct (validate_spec (remaining vs) (quarantined ∪ dom vs)) as (r & Hr & Hspec); rewrite Hr; cbn;
    (destruct r as [e|[]]; [|by exists vs]);
    destruct (remaining_error _ _ Hcl Hspec) as (l & -> & Hc & Hl).
  - exfalso. destruct l as [|m l]; [destruct Hc as (_ & Hlen & _); simpl in Hlen; lia|].
    destruct (Hl m) as [Hm Hvm]; [constructor|].
    assert (size vs < size groups)%nat; [|lia]. rewrite <-!(size_dom (D := gset string)). apply subset_size. split.
    + intros x [v Hv]%elem_of_dom. apply elem_of_dom. by apply (proj1 Hcl x v Hv).
    + intros Hsub. apply elem_of_dom in Hm. apply Hsub, elem_of_dom in Hm as [? ?]. congruence.
  - destruct (classified_cycle vs l Hcl Hc Hl) as [Hcl' Hlt]. apply IH; [done|lia].
Qed.

End classify.

(** The classification, and the graph it leaves. *)
Lemma dependency_violations_spec groups quarantined :
  ∃ vs, dependency_violations groups quarantined = Some vs
    ∧ (∀ name v, vs !! name = Some v →
        violation_true groups quarantined name v ∧ is_Some (groups !! name))
    ∧ validate_dependency_graph
        (filter (λ x : string * ResolvedGroup, vs !! x.1 = None) groups)
        (quarantined ∪ dom vs) = Some (inr tt).
Proof.
  unfold dependency_violations.
  destruct (cycle_violations_spec groups quarantined (size groups)
              (omap (local_violation groups quarantined) groups)) as (vs & Hvs & [Ht _] & Hok).
  - split.
    + intros name v. rewrite lookup_omap. intros (g & Hg & Hv)%bind_Some.
      split; [by eapply local_violation_true|by eexists].
    + intros name g Hg [v Hv]. exists v. by rewrite lookup_omap, Hg.
  - lia.
  - by exists vs.
Qed.

(** Quarantine is per group and sufficient: the classification never panics, each group it
    names violates the wiring or lies on a real dependency cycle, and what it leaves passes the
    whole-graph validation, so no group's edit can fail the generation of the others. *)
Lemma dependency_violations_leave_a_valid_graph groups quarantined :
  ∃ vs, dependency_violations groups quarantined = Some vs
    ∧ (∀ name v, vs !! name = Some v →
        violation_true groups quarantined name v ∧ is_Some (groups !! name))
    ∧ validate_dependency_graph
        (filter (λ x : string * ResolvedGroup, vs !! x.1 = None) groups)
        (quarantined ∪ dom vs) = Some (inr tt).
Proof. apply dependency_violations_spec. Qed.

(** The dependency validation is exact: it never panics, accepts exactly the graphs whose
    groups are wired to declared dependencies through valid inputs and in which no group waits
    for itself, and every error it reports, a cycle included, is true of the graph. *)
Lemma validate_dependency_graph_is_exact groups quarantined :
  match validate_dependency_graph groups quarantined with
  | None => False
  | Some (inl e) => error_true groups quarantined e
  | Some (inr _) => True
  end
  ∧ (validate_dependency_graph groups quarantined = Some (inr tt) ↔
     (∀ name g, groups !! name = Some g → wired groups quarantined name g)
     ∧ ∀ v, ~ tc (depends groups quarantined) v v).
Proof.
  destruct (validate_spec groups quarantined) as (r & -> & Hr). destruct r as [e|[]].
  - split; [done|]. split; [done|]. intros Hok. by destruct (error_refutes _ _ e Hr).
  - split; [done|]. split; [by intros _|done].
Qed.

End graph.
