(* ===== verification/GroupRouting.v ===== *)
(** * GroupRouting: every node has one group, every producer comes first

    The theorems of [Groups.v] about routing and ordering: a node is routed to the one group
    that selects it or to the default, every refusal is true of the inventory, and the order
    inputs are resolved in puts every dependency before its dependents. *)
From S2P Require Import Prelude Identity Maps Releases Dataflow Telemetry Window Rollout Groups GroupGraph.

Section routing.
Context `{!Base64} `{!DataflowJson} `{!Deployments}.

Implicit Types (groups : list ResolvedGroup) (nodes : list ResolvedNode).

(** The group's selector selects the node. *)
Definition selects (g : ResolvedGroup) (node : ResolvedNode) : Prop :=
  selector_matches (gr_match_labels g) (rn_labels node) = true.

Definition plannable groups : Prop :=
  NoDup (gr_name <$> groups)
  ∧ ∀ g, g ∈ groups → gr_match_labels g ≠ ∅ ∧ gr_name g ≠ DEFAULT_GROUP.

(** The node's one group. *)
Definition routed groups (node : ResolvedNode) (selected : string) : Prop :=
  (selected = DEFAULT_GROUP ∧ ∀ g, g ∈ groups → ~ selects g node)
  ∨ ∃ g, g ∈ groups ∧ gr_name g = selected ∧ selects g node
         ∧ ∀ g', g' ∈ groups → selects g' node → g' = g.

(** What each refusal says of the inventory. *)
Definition routing_error_true groups nodes (e : PlanError) : Prop :=
  match e with
  | EmptySelector name => ∃ g, g ∈ groups ∧ gr_name g = name ∧ gr_match_labels g = ∅
  | ReservedGroupName => ∃ g, g ∈ groups ∧ gr_name g = DEFAULT_GROUP
  | DuplicateGroup name => ~ NoDup (gr_name <$> groups)
  | DuplicateNode name => ~ NoDup (rn_name <$> nodes)
  | InvalidNodeName => ∃ node, node ∈ nodes ∧ is_dns_subdomain (rn_name node) = false
  | AmbiguousNode name matches =>
      ∃ node g g', node ∈ nodes ∧ rn_name node = name ∧ g ∈ groups ∧ g' ∈ groups
        ∧ selects g node ∧ selects g' node ∧ gr_name g ≠ gr_name g'
  | _ => False
  end.

Lemma NoDup_fmap_app_dup {A} (f : A → string) l x l' y :
  y ∈ l → f y = f x → ~ NoDup (f <$> l ++ x :: l').
Proof.
  intros Hy Hf. rewrite fmap_app, fmap_cons. intros (_ & Hd & _)%NoDup_app.
  apply (Hd (f x)); [|constructor]. rewrite <-Hf. by apply list_elem_of_fmap_2.
Qed.

Lemma index_groups_spec groups : ∀ done indexed,
  plannable done → (∀ k g, indexed !! k = Some g ↔ g ∈ done ∧ gr_name g = k) →
  match index_groups indexed groups with
  | inl e => routing_error_true (done ++ groups) [] e
  | inr m => plannable (done ++ groups) ∧ ∀ k g, m !! k = Some g ↔ g ∈ done ++ groups ∧ gr_name g = k
  end.
Proof.
  induction groups as [|x groups IH]; intros done' indexed Hp Hin; cbn [index_groups].
  { rewrite app_nil_r. done. }
  destruct (bool_decide (gr_match_labels x = ∅)) eqn:He; bool_to_prop; simpl.
  { exists x. split_and!; [set_solver|done|done]. }
  destruct (bool_decide (gr_name x = DEFAULT_GROUP)) eqn:Hd; bool_to_prop; simpl.
  { exists x. split_and!; [set_solver|done]. }
  destruct (contains_key (gr_name x) indexed) eqn:Hc; simpl.
  { apply contains_key_true in Hc as [y [Hy Hn]%Hin]. by eapply NoDup_fmap_app_dup. }
  apply contains_key_false in Hc.
  assert (gr_name x ∉ gr_name <$> done') as Hfresh.
  { intros (y & Hn & Hy)%list_elem_of_fmap. assert (indexed !! gr_name x = Some y) by by apply Hin. congruence. }
  rewrite cons_middle, app_assoc. apply IH.
  - destruct Hp as [Hnd Hall]. split.
    + rewrite fmap_app. apply NoDup_app. split_and!; [done| |apply NoDup_singleton].
      intros k Hk ->%list_elem_of_singleton. done.
    + intros g [Hg|Hg]%elem_of_app; [by apply Hall|]. apply list_elem_of_singleton in Hg as ->. done.
  - intros k g. rewrite lookup_insert_Some, Hin, elem_of_app, list_elem_of_singleton. split.
    + intros [[<- <-]|[_ ?]]; naive_solver.
    + intros [[Hg| ->] Hk]; [|by left]. right. split; [|done]. intros Heq. apply Hfresh.
      rewrite Heq, <-Hk. by apply list_elem_of_fmap_2.
Qed.

Lemma elem_of_matching_groups groups (indexed : BTreeMap ResolvedGroup) node k :
  (∀ k g, indexed !! k = Some g ↔ g ∈ groups ∧ gr_name g = k) →
  k ∈ matching_groups indexed node ↔ ∃ g, g ∈ groups ∧ gr_name g = k ∧ selects g node.
Proof.
  intros Hin. unfold matching_groups. rewrite list_elem_of_fmap. split.
  - intros ([k' g] & -> & Hg). apply list_elem_of_filter in Hg as [Hs Hg].
    apply elem_of_bt_iter, Hin in Hg as [? ?]. by exists g.
  - intros (g & Hg & Hn & Hs). exists (k, g). split; [done|]. apply list_elem_of_filter.
    split; [done|]. by apply elem_of_bt_iter, Hin.
Qed.

Lemma NoDup_matching_groups indexed node : NoDup (matching_groups indexed node).
Proof.
  unfold matching_groups. eapply sublist_NoDup; [apply (NoDup_bt_keys indexed)|].
  apply fmap_sublist, sublist_filter.
Qed.

Lemma plannable_unique groups g g' :
  plannable groups → g ∈ groups → g' ∈ groups → gr_name g = gr_name g' → g = g'.
Proof.
  intros [Hnd _] [i Hi]%list_elem_of_lookup_1 [j Hj]%list_elem_of_lookup_1 Heq.
  assert (i = j) as ->; [|congruence].
  eapply (NoDup_lookup _ _ _ (gr_name g) Hnd); rewrite list_lookup_fmap; [by rewrite Hi|by rewrite Hj, Heq].
Qed.

(** The selection of one node. *)
Lemma selection_spec groups indexed node :
  plannable groups → (∀ k g, indexed !! k = Some g ↔ g ∈ groups ∧ gr_name g = k) →
  match matching_groups indexed node with
  | [] => routed groups node DEFAULT_GROUP
  | [only] => routed groups node only
  | k :: k' :: _ => ∃ g g', g ∈ groups ∧ g' ∈ groups ∧ selects g node ∧ selects g' node ∧ gr_name g ≠ gr_name g'
  end.
Proof.
  intros Hp Hin. pose proof (λ k, elem_of_matching_groups groups indexed node k Hin) as Hm.
  pose proof (NoDup_matching_groups indexed node) as Hnd.
  destruct (matching_groups indexed node) as [|k [|k' l]].
  - left. split; [done|]. intros g Hg Hs.
    assert (gr_name g ∈ @nil string) as Hx by (apply Hm; by exists g). by apply not_elem_of_nil in Hx.
  - destruct (proj1 (Hm k)) as (g & Hg & Hn & Hs); [constructor|]. right. exists g. split_and!; [done..|].
    intros g' Hg' Hs'. apply (plannable_unique groups); [done..|].
    assert (gr_name g' ∈ [k]) as Hk by (apply Hm; by exists g'). apply list_elem_of_singleton in Hk. congruence.
  - destruct (proj1 (Hm k)) as (g & Hg & Hn & Hs); [constructor|].
    destruct (proj1 (Hm k')) as (g' & Hg' & Hn' & Hs'); [do 2 constructor|].
    exists g, g'. split_and!; [done..|]. apply NoDup_cons in Hnd as [Hk _]. rewrite Hn, Hn'.
    intros ->. apply Hk. constructor.
Qed.

(** The routing table of a prefix of the inventory. *)
Record table groups nodes (m : BTreeMap string) : Prop := {
  tb_nodup : NoDup (rn_name <$> nodes);
  tb_names : ∀ n, n ∈ nodes → is_dns_subdomain (rn_name n) = true;
  tb_routed : ∀ n, n ∈ nodes → ∃ s, m !! rn_name n = Some s ∧ routed groups n s;
  tb_only : ∀ k, is_Some (m !! k) → k ∈ rn_name <$> nodes;
}.

Lemma table_snoc groups nodes m x s :
  table groups nodes m → m !! rn_name x = None → is_dns_subdomain (rn_name x) = true →
  routed groups x s → table groups (nodes ++ [x]) (<[rn_name x := s]> m).
Proof.
  intros [Hnd Hdns Hr Ho] Hm Hx Hs.
  assert (∀ n, n ∈ nodes → rn_name n ≠ rn_name x) as Hne.
  { intros n Hn Heq. destruct (Hr n Hn) as (? & ? & _). congruence. }
  split.
  - rewrite fmap_app. apply NoDup_app. split_and!; [done| |apply NoDup_singleton].
    intros k (n & -> & Hn)%list_elem_of_fmap Hk. apply list_elem_of_singleton in Hk. by eapply Hne.
  - intros n [Hn|Hn]%elem_of_app; [auto|]. by apply list_elem_of_singleton in Hn as ->.
  - intros n [Hn|Hn]%elem_of_app.
    + rewrite lookup_insert_ne by (symmetry; by apply Hne). auto.
    + apply list_elem_of_singleton in Hn as ->. exists s. by rewrite lookup_insert_eq.
  - intros k [y [[<- _]|[_ Hy]]%lookup_insert_Some]; rewrite fmap_app; apply elem_of_app; [right; set_solver|left; eauto].
Qed.

Lemma route_nodes_spec groups indexed nodes :
  plannable groups → (∀ k g, indexed !! k = Some g ↔ g ∈ groups ∧ gr_name g = k) →
  ∀ done m, table groups done m →
  match route_nodes indexed m nodes with
  | inl e => routing_error_true groups (done ++ nodes) e
  | inr m' => table groups (done ++ nodes) m'
  end.
Proof.
  intros Hp Hin. induction nodes as [|x nodes IH]; intros done' m Ht; cbn [route_nodes].
  { by rewrite app_nil_r. }
  destruct (contains_key (rn_name x) m) eqn:Hc.
  { rewrite orb_true_r. apply contains_key_true, (tb_only _ _ _ Ht) in Hc.
    apply list_elem_of_fmap in Hc as (n & Hn & Hin'). by eapply NoDup_fmap_app_dup. }
  rewrite orb_false_r. destruct (is_dns_subdomain (rn_name x)) eqn:Hdn; simpl.
  2:{ exists x. split; [set_solver|done]. }
  apply contains_key_false in Hc. pose proof (selection_spec groups indexed x Hp Hin) as Hsel.
  rewrite cons_middle, app_assoc.
  destruct (matching_groups indexed x) as [|k [|k' l]]; simpl.
  1,2: apply IH; by apply table_snoc.
  destruct Hsel as (g & g' & ?). exists x, g, g'. split; [set_solver|]. tauto.
Qed.

Lemma resolve_node_groups_spec groups nodes :
  match resolve_node_groups groups nodes with
  | inl e => routing_error_true groups nodes e
  | inr m =>
      plannable groups ∧ NoDup (rn_name <$> nodes)
      ∧ (∀ node, node ∈ nodes → is_dns_subdomain (rn_name node) = true
          ∧ ∃ selected, m !! rn_name node = Some selected ∧ routed groups node selected)
      ∧ ∀ k, is_Some (m !! k) ↔ k ∈ rn_name <$> nodes
  end.
Proof.
  unfold resolve_node_groups. pose proof (index_groups_spec groups [] ∅) as Hi.
  specialize (Hi ltac:(split; [constructor|set_solver])).
  specialize (Hi ltac:(intros k g; rewrite lookup_empty; set_solver)). simpl in Hi.
  destruct (index_groups ∅ groups) as [e|indexed]; simpl.
  { destruct e; try done; simpl in Hi.
    - destruct Hi. constructor.
    - destruct Hi as (? & ? & ? & Hx & _). by apply not_elem_of_nil in Hx.
    - destruct Hi as (? & Hx & _). by apply not_elem_of_nil in Hx. }
  destruct Hi as [Hp Hin].
  pose proof (route_nodes_spec groups indexed nodes Hp Hin [] ∅) as Hr.
  specialize (Hr ltac:(split; [constructor|set_solver|set_solver|by intros k [? ?]])). simpl in Hr.
  destruct (route_nodes indexed ∅ nodes) as [e|m]; [done|]. destruct Hr as [Hnd Hdns Hrt Ho].
  split_and!; [done|done|auto|]. intros k. split; [apply Ho|].
  intros (n & -> & Hn)%list_elem_of_fmap. destruct (Hrt n Hn) as (s & ? & _). by eexists.
Qed.

(** Routing is a function of the inventory: when it is accepted, node names are valid and
    distinct, group names are distinct, non-reserved and carry a selector, and every node is
    routed to the one group that selects it, or to the default when none does; when it is
    refused, the reason given is true of the inventory. *)
Lemma routing_is_the_unique_selection groups nodes :
  match resolve_node_groups groups nodes with
  | inl e => routing_error_true groups nodes e
  | inr m =>
      plannable groups ∧ NoDup (rn_name <$> nodes)
      ∧ (∀ node, node ∈ nodes → is_dns_subdomain (rn_name node) = true
          ∧ ∃ selected, m !! rn_name node = Some selected ∧ routed groups node selected)
      ∧ ∀ k, is_Some (m !! k) ↔ k ∈ rn_name <$> nodes
  end.
Proof. apply resolve_node_groups_spec. Qed.

End routing.

(** ** Dependency order *)

Section order.
Context `{!Base64} `{!DataflowJson} `{!Deployments} (groups : BTreeMap ResolvedGroup).

(** Every declared dependency of a listed group comes before it. *)
Definition dependencies_first (l : list string) : Prop :=
  ∀ i name g d, l !! i = Some name → groups !! name = Some g → d ∈ gr_depends_on g →
    is_Some (groups !! d) → ∃ j, (j < i)%nat ∧ l !! j = Some d.

Definition placeable (ordered : list string) (g : ResolvedGroup) : Prop :=
  ∀ d, d ∈ gr_depends_on g → is_Some (groups !! d) → d ∈ ordered.

Lemma placeable_mono l l' g : (∀ d, d ∈ l → d ∈ l') → placeable l g → placeable l' g.
Proof. unfold placeable. eauto. Qed.

Lemma place_spec ordered name g :
  ((name ∉ ordered) ∧ placeable ordered g ∧ place groups ordered (name, g) = ordered ++ [name])
  ∨ ((name ∈ ordered ∨ ~ placeable ordered g) ∧ place groups ordered (name, g) = ordered).
Proof.
  unfold place. cbn [fst snd]. case_bool_decide as Hin; [right; auto|].
  destruct (forallb _ _) eqn:Hf.
  - left. split_and!; [done| |done]. intros d Hd Hs. rewrite forallb_elem in Hf. specialize (Hf d Hd).
    apply orb_true_iff in Hf as [Hf|Hf]; bool_to_prop; [done|].
    apply contains_key_false in Hf. destruct Hs. congruence.
  - right. split; [|done]. right. intros Hp. rewrite <-not_true_iff_false in Hf. apply Hf, forallb_elem.
    intros d Hd. apply orb_true_iff. destruct (contains_key d groups) eqn:Hc; [left|by right].
    apply bool_decide_eq_true, Hp; [done|]. by apply contains_key_true.
Qed.

(** What every prefix of the order keeps. *)
Record order_inv (l : list string) : Prop := {
  oi_nodup : NoDup l;
  oi_declared : ∀ name, name ∈ l → is_Some (groups !! name);
  oi_first : dependencies_first l;
}.

Lemma order_inv_snoc l name g :
  order_inv l → groups !! name = Some g → name ∉ l → placeable l g → order_inv (l ++ [name]).
Proof.
  intros [Hnd Hd Hf] Hg Hn Hp. split.
  - apply NoDup_app. split_and!; [done| |apply NoDup_singleton]. set_solver.
  - intros x [Hx|Hx]%elem_of_app; [auto|]. apply list_elem_of_singleton in Hx as ->. by eexists.
  - intros i x gx d Hi Hgx Hdx Hs. apply lookup_app_Some in Hi as [Hi|[Hle Hi]].
    + destruct (Hf i x gx d Hi Hgx Hdx Hs) as (j & Hj & Hl). exists j. split; [done|].
      by apply lookup_app_l_Some.
    + apply list_lookup_singleton_Some in Hi as [Hi <-]. assert (gx = g) as -> by congruence.
      destruct (list_elem_of_lookup_1 l d (Hp d Hdx Hs)) as [j Hj]. exists j.
      split; [apply lookup_lt_Some in Hj; lia|]. by apply lookup_app_l_Some.
Qed.

Lemma places_spec l : (∀ x, x ∈ l → groups !! x.1 = Some x.2) → ∀ ordered,
  order_inv ordered →
  order_inv (foldl (place groups) ordered l)
  ∧ (∃ extra, foldl (place groups) ordered l = ordered ++ extra)
  ∧ ∀ name g, (name, g) ∈ l → placeable ordered g → name ∈ foldl (place groups) ordered l.
Proof.
  induction l as [|[name g] l IH]; intros Hl ordered Hi; cbn [foldl].
  { split_and!; [done|exists []; by rewrite app_nil_r|]. intros ? ? Hx. by apply not_elem_of_nil in Hx. }
  assert (groups !! name = Some g) as Hg by (apply (Hl (name, g)); constructor).
  specialize (IH ltac:(intros; apply Hl; by constructor)).
  destruct (place_spec ordered name g) as [(Hn & Hp & ->)|[Hno ->]].
  - destruct (IH (ordered ++ [name])) as (Hi' & [extra He] & Hin); [by eapply order_inv_snoc|].
    split_and!; [done|exists (name :: extra); by rewrite He, <-app_assoc|].
    intros x gx [[= -> ->]|Hx]%elem_of_cons Hpx; [rewrite He; set_solver|].
    apply (Hin x gx Hx). eapply placeable_mono; [|done]. set_solver.
  - destruct (IH ordered Hi) as (Hi' & [extra He] & Hin). split_and!; [done|by exists extra|].
    intros x gx [[= -> ->]|Hx]%elem_of_cons Hpx; [|by eapply Hin].
    destruct Hno as [Hno|Hno]; [rewrite He; set_solver|done].
Qed.

Lemma passes_inv n : order_inv (Nat.iter n (placement_pass groups) []).
Proof.
  induction n as [|n IH]; simpl.
  - split; [constructor|set_solver|]. intros i name g d Hl. done.
  - apply places_spec; [|done]. intros [k g] Hk. by apply elem_of_bt_iter.
Qed.

(** The order lists every group exactly once, whatever the graph. *)
Lemma dependency_order_perm : dependency_order groups ≡ₚ bt_keys groups.
Proof.
  unfold dependency_order. destruct (passes_inv (size groups)) as [Hnd Hd _].
  apply NoDup_Permutation; [|apply NoDup_bt_keys|].
  - apply NoDup_app. split_and!; [done| |apply NoDup_filter, NoDup_bt_keys].
    intros x Hx [Hno _]%list_elem_of_filter. done.
  - intros x. rewrite elem_of_app, list_elem_of_filter, elem_of_bt_keys.
    destruct (decide (x ∈ Nat.iter (size groups) (placement_pass groups) [])); naive_solver.
Qed.

(** [u] waits for a declared [v]. *)
Definition waits (u v : string) : Prop := depends groups ∅ u v ∧ is_Some (groups !! v).

Context (acyclic : ∀ v, ~ tc waits v v).

(** Among the groups not yet placed one has all its dependencies placed. *)
Lemma next_placeable ordered name :
  is_Some (groups !! name) → name ∉ ordered →
  ∃ x g, groups !! x = Some g ∧ (x ∉ ordered) ∧ placeable ordered g.
Proof.
  assert (sn waits name) as Hsn.
  { apply tc_finite_sn; [by intros x Hx%acyclic|]. exists (bt_keys groups).
    intros y Hy. apply elem_of_bt_keys. by induction Hy as [x y [_ ?]|]. }
  induction Hsn as [x _ IH]. intros [g Hg] Hn.
  destruct (decide (Exists (λ d, is_Some (groups !! d) ∧ d ∉ ordered) (gr_depends_on g))) as [Hex|Hno].
  - apply Exists_exists in Hex as (d & Hd & Hs & Hnd). apply (IH d); [|done|done].
    split; [|done]. exists g. split_and!; [done|done|set_solver].
  - exists x, g. split_and!; [done|done|]. intros d Hd Hs. destruct (decide (d ∈ ordered)); [done|].
    destruct Hno. apply Exists_exists. by exists d.
Qed.

Lemma passes_spec n :
  let l := Nat.iter n (placement_pass groups) [] in
  order_inv l ∧ ((∀ name, is_Some (groups !! name) → name ∈ l) ∨ (n ≤ length l)%nat).
Proof.
  induction n as [|n [Hi Hn]]; simpl.
  { split; [apply (passes_inv 0)|right; simpl; lia]. }
  set (l := Nat.iter n (placement_pass groups) []) in *.
  destruct (places_spec (bt_iter groups)) with (ordered := l) as (Hi' & [extra He] & Hin); [|done|].
  { intros [k g] Hk. by apply elem_of_bt_iter. }
  split; [done|]. unfold placement_pass. destruct Hn as [Hall|Hlen]; [left; rewrite He; set_solver|].
  destruct (decide (Forall (λ name, name ∈ l) (bt_keys groups))) as [Hall|Hsome].
  - left. intros name Hs%elem_of_bt_keys. rewrite Forall_forall in Hall. rewrite He. set_solver.
  - right. apply not_Forall_Exists, Exists_exists in Hsome as (name & Hk%elem_of_bt_keys & Hnl); [|apply _].
    destruct (next_placeable l name Hk Hnl) as (x & g & Hg & Hx & Hp).
    specialize (Hin x g (proj2 (elem_of_bt_iter _ _ _) Hg) Hp). rewrite He in Hin |- *.
    rewrite length_app. destruct extra; [rewrite app_nil_r in Hin; done|]. simpl. lia.
Qed.

End order.

Section ordered.
Context `{!Base64} `{!DataflowJson} `{!Deployments}.

(** Quarantined groups are absent from the plan, so the validated graph has no waiting cycle. *)
Lemma validated_acyclic groups quarantined :
  (∀ q, q ∈ quarantined → groups !! q = None) →
  validate_dependency_graph groups quarantined = Some (inr tt) → ∀ v, ~ tc (waits groups) v v.
Proof.
  intros Hq Hv v Ht. destruct (validate_spec groups quarantined) as (r & Hr & Hspec).
  rewrite Hv in Hr. injection Hr as <-. apply (proj2 Hspec v).
  assert (∀ x y, waits groups x y → depends groups quarantined x y) as Hstep.
  { intros x y [(g & Hg & Hd & _) [g' Hg']]. exists g. split_and!; [done|done|]. intros Hin%Hq. congruence. }
  assert (∀ x y, tc (waits groups) x y → tc (depends groups quarantined) x y) as Htc; [|by apply Htc].
  induction 1; [apply tc_once; auto|eapply tc_l; eauto].
Qed.

(** Inputs are resolved in dependency order: on a validated graph the order lists every
    group exactly once, and no group before a group it depends on. *)
Lemma ordered_groups groups quarantined :
  (∀ q, q ∈ quarantined → groups !! q = None) →
  validate_dependency_graph groups quarantined = Some (inr tt) →
  dependency_order groups ≡ₚ bt_keys groups ∧ dependencies_first groups (dependency_order groups).
Proof.
  intros Hq Hv. split; [apply dependency_order_perm|].
  destruct (passes_spec groups (validated_acyclic _ _ Hq Hv) (size groups)) as [Hi Hcov].
  unfold dependency_order.
  set (l := Nat.iter (size groups) (placement_pass groups) []) in *. destruct Hi as [Hnd Hd Hf].
  assert (∀ name, is_Some (groups !! name) → name ∈ l) as Hall.
  { destruct Hcov as [?|Hlen]; [done|]. intros name Hs.
    assert (list_to_set l =@{gset string} dom groups) as Heq.
    { apply set_subseteq_size_eq.
      - intros x Hx%elem_of_list_to_set. by apply elem_of_dom, Hd.
      - by rewrite size_dom, size_list_to_set. }
    rewrite <-elem_of_dom, <-Heq, elem_of_list_to_set in Hs. done. }
  assert (filter (λ name, name ∉ l) (bt_keys groups) = []) as ->.
  { destruct (filter _ _) as [|x k] eqn:Hx; [done|].
    assert (x ∈ filter (λ name, name ∉ l) (bt_keys groups)) as Hin by (rewrite Hx; constructor).
    apply list_elem_of_filter in Hin as [Hno Hk%elem_of_bt_keys]. by destruct Hno; auto. }
  by rewrite app_nil_r.
Qed.

End ordered.
