(* ===== verification/Publication.v ===== *)
(** * Publication: the signed generation a plan compiles to

    Models [build_publication_plan] of [updatec/src/lib.rs] with the agent document
    ([updated-contracts/src/artifact.rs]) and the object layout
    ([updated-contracts/src/telemetry.rs]): one content-addressed configuration per distinct
    deployment, one agent document per node that names it, and the digest of the whole. *)
From S2P Require Import Prelude Identity Maps Releases Dataflow Telemetry Window Rollout Assignment Groups.

(** ** Object layout *)

Definition ASSIGNMENT_AGENTS_SEGMENT : string := "/agents/".
Definition ASSIGNMENT_CONFIGS_SEGMENT : string := "/configs/".

Definition assignment_object_key (prefix node : string) : string :=
  String.append (trim_matches "/" prefix)
    (String.append ASSIGNMENT_AGENTS_SEGMENT (String.append node ".json")).

Definition config_object_key (prefix id : string) : string :=
  String.append (trim_matches "/" prefix)
    (String.append ASSIGNMENT_CONFIGS_SEGMENT (String.append id ".json")).

Fixpoint strip_prefix (pat s : string) : option string :=
  match pat, s with
  | EmptyString, s => Some s
  | String a pat, String b s => if bool_decide (a = b) then strip_prefix pat s else None
  | String _ _, EmptyString => None
  end.

Fixpoint strip_suffix (pat s : string) : option string :=
  if bool_decide (s = pat) then Some EmptyString
  else match s with
       | EmptyString => None
       | String c s => String c <$> strip_suffix pat s
       end.

(** [s.rsplit_once(pat)]: around the last occurrence of a non-empty pattern. *)
Fixpoint rsplit_once (pat s : string) : option (string * string) :=
  match s with
  | EmptyString => None
  | String c rest =>
      match rsplit_once pat rest with
      | Some (a, b) => Some (String c a, b)
      | None => (λ b, (EmptyString, b)) <$> strip_prefix pat s
      end
  end.

Definition split_assignment_path (assignment : string) : option (string * string) :=
  stem ← strip_suffix ".json" assignment;
  '(prefix, node) ← rsplit_once ASSIGNMENT_AGENTS_SEGMENT stem;
  if negb (bool_decide (prefix = EmptyString)) && is_dns_subdomain node
  then Some (prefix, node) else None.

(** object_store's path of a string, which percent-encodes what a key may not hold. *)
Class ObjectPaths : Type := { path_from : string → string }.

Definition object_key `{!ObjectPaths} (prefix relative : string) : string :=
  path_from (String.concat "/"
    (filter (λ part, part ≠ EmptyString) [trim_matches "/" prefix; relative])).

(** ** Agent documents *)

Record AgentDocument : Type := mkAgentDocument { doc_schema : N; doc_config : TargetReference }.

Definition AgentDocument_MAX_BYTES : N := 4 * 1024.

Section agent_document.
Context `{!Serde AgentDocument}.

Definition AgentDocument_validate (d : AgentDocument) : ContractError + unit :=
  _ ← demand (doc_schema d =? 1)%N (EUnsupportedSchema (doc_schema d));
  demand (TargetReference_is_valid (doc_config d))
    (EMessage "agent document config reference is invalid").

Definition AgentDocument_to_bounded_json (d : AgentDocument) : ContractError + string :=
  _ ← AgentDocument_validate d;
  bounded_encode d "agent document" AgentDocument_MAX_BYTES.

Definition AgentDocument_from_bounded_json (bytes : string) : ContractError + AgentDocument :=
  document ← bounded_decode bytes "agent document" AgentDocument_MAX_BYTES;
  _ ← AgentDocument_validate document;
  inr document.

Lemma AgentDocument_roundtrip d bytes :
  AgentDocument_to_bounded_json d = inr bytes → AgentDocument_from_bounded_json bytes = inr d.
Proof.
  unfold AgentDocument_to_bounded_json, AgentDocument_from_bounded_json. intros Hb. sum_inv.
  rewrite (bounded_roundtrip _ _ _ _ Hb). simpl.
  match goal with Hv : AgentDocument_validate d = _ |- _ => by rewrite Hv end.
Qed.
End agent_document.

(** ** The plan *)

Record PublicationTarget : Type := mkPublicationTarget {
  pt_path : string;
  pt_bytes : string;
  pt_sha256 : string;
}.

Record PublicationPlan : Type := mkPublicationPlan {
  pp_targets : list PublicationTarget;
  pp_node_groups : BTreeMap string;
  pp_node_assignments : BTreeMap string;
  pp_digest : string;
}.

Section publication.
Context `{!JsonValues} `{!Sha256} `{!SemverOrder} `{!Urls} `{!AssignmentJson} `{!Serde AgentDocument}.

(** The fields of an [UpdateRepositorySpec] the planner reads. *)
Record UpdateRepositorySpec : Type := mkUpdateRepositorySpec {
  rs_default_deployment : DeploymentSpec;
  rs_assignment_prefix : string;
}.

Definition target (path bytes : string) : PublicationTarget :=
  mkPublicationTarget path bytes (sha256_bytes bytes).

Definition path_le (a b : PublicationTarget) : Prop := String.leb (pt_path a) (pt_path b) = true.

#[export] Instance path_le_dec a b : Decision (path_le a b).
Proof. unfold path_le. apply _. Defined.

(** The incremental digest of the targets in order; the hasher's digest of its updates is that
    of their concatenation. *)
Definition NUL : string := String Ascii.zero EmptyString.

Definition publication_digest (targets : list PublicationTarget) : string :=
  sha256_bytes (foldr (λ t rest, String.append (pt_path t) (String.append NUL
                                   (String.append (pt_bytes t) (String.append NUL rest))))
                  EmptyString targets).

(** The loop's state: the targets, the reference of each published body, the assignments. *)
Record Compiling : Type := mkCompiling {
  cp_targets : list PublicationTarget;
  cp_references : BTreeMap TargetReference;
  cp_assignments : BTreeMap string;
}.

Definition publish_config (prefix id bytes : string) (c : Compiling) : Compiling :=
  if contains_key id (cp_references c) then c
  else
    let config := target (config_object_key prefix id) bytes in
    mkCompiling (cp_targets c ++ [config])
      (<[id := mkTargetReference (pt_path config) (pt_sha256 config)]> (cp_references c))
      (cp_assignments c).

(** One node; [None] is the panic of an absent reference. *)
Definition publish_node (prefix node : string) (deployment : RepositoryAssignment) (c : Compiling)
    : option (PlanError + Compiling) :=
  match publication deployment with
  | inl e => Some (inl (InvalidDeployment e))
  | inr (bytes, id) =>
      let c := publish_config prefix id bytes c in
      reference ← cp_references c !! id;
      match AgentDocument_to_bounded_json (mkAgentDocument 1 reference) with
      | inl e => Some (inl (Serialize e))
      | inr document =>
          Some (inr (mkCompiling (cp_targets c ++ [target (assignment_object_key prefix node) document])
                       (cp_references c) (<[node := id]> (cp_assignments c))))
      end
  end.

Fixpoint publish_nodes (prefix : string) (l : list (string * RepositoryAssignment)) (c : Compiling)
    : option (PlanError + Compiling) :=
  match l with
  | [] => Some (inr c)
  | (node, deployment) :: l =>
      r ← publish_node prefix node deployment c;
      match r with
      | inl e => Some (inl e)
      | inr c => publish_nodes prefix l c
      end
  end.

Definition build_publication_plan (repository : UpdateRepositorySpec) (node_groups : BTreeMap string)
    (node_deployments : BTreeMap RepositoryAssignment) : option (PlanError + PublicationPlan) :=
  let prefix := trim_matches "/" (rs_assignment_prefix repository) in
  if negb (is_confined_relative prefix) then Some (inl InvalidPrefix)
  else if negb (bool_decide (bt_keys node_groups = bt_keys node_deployments))
  then Some (inl NodeDeploymentMismatch)
  else
    r ← publish_nodes prefix (bt_iter node_deployments) (mkCompiling [] ∅ ∅);
    match r with
    | inl e => Some (inl e)
    | inr c =>
        let targets := merge_sort path_le (cp_targets c) in
        Some (inr (mkPublicationPlan targets node_groups (cp_assignments c) (publication_digest targets)))
    end.

(** ** Lemmas *)

(** What a node's two objects are. *)
Definition config_target (prefix id bytes : string) : PublicationTarget :=
  target (config_object_key prefix id) bytes.

Definition node_document (prefix id : string) : AgentDocument :=
  mkAgentDocument 1 (mkTargetReference (config_object_key prefix id) id).

Lemma append_inj_r (t : string) : ∀ a b : string, String.append a t = String.append b t → a = b.
Proof.
  assert (∀ (a : string) c, t ≠ String c (String.append a t)) as Hlen.
  { intros a c Heq. apply (f_equal String.length) in Heq. simpl in Heq.
    rewrite length_append in Heq. lia. }
  induction a as [|c a IH]; intros [|c' b] Heq; simpl in Heq; [done| | |].
  - by apply Hlen in Heq.
  - by symmetry in Heq; apply Hlen in Heq.
  - injection Heq as -> Heq. by rewrite (IH b).
Qed.

Lemma config_object_key_inj p a b : config_object_key p a = config_object_key p b → a = b.
Proof.
  unfold config_object_key. intros Heq. do 2 apply (inj (String.append _)) in Heq. by apply append_inj_r in Heq.
Qed.

Lemma assignment_object_key_inj p a b : assignment_object_key p a = assignment_object_key p b → a = b.
Proof.
  unfold assignment_object_key. intros Heq. do 2 apply (inj (String.append _)) in Heq. by apply append_inj_r in Heq.
Qed.

Lemma object_keys_differ p id node : config_object_key p id ≠ assignment_object_key p node.
Proof. unfold config_object_key, assignment_object_key. intros Heq%(inj (String.append _)). done. Qed.

(** The loop's state once the configurations of [configs] and the documents of [nodes] are
    published. *)
Record compiled (prefix : string) (configs nodes : list (string * RepositoryAssignment))
    (c : Compiling) : Prop := {
  co_references : ∀ id r, cp_references c !! id = Some r →
    r = mkTargetReference (config_object_key prefix id) id
    ∧ ∃ bytes, config_target prefix id bytes ∈ cp_targets c ∧ sha256_bytes bytes = id;
  co_configs : ∀ node d, (node, d) ∈ configs → ∃ bytes id,
    publication d = inr (bytes, id) ∧ is_Some (cp_references c !! id);
  co_nodes : ∀ node d, (node, d) ∈ nodes → ∃ bytes id document,
    publication d = inr (bytes, id) ∧ cp_assignments c !! node = Some id
    ∧ AgentDocument_to_bounded_json (node_document prefix id) = inr document
    ∧ target (assignment_object_key prefix node) document ∈ cp_targets c;
  co_assigned : ∀ node, is_Some (cp_assignments c !! node) → node ∈ nodes.*1;
  co_targets : ∀ t, t ∈ cp_targets c →
    (∃ id bytes node d, t = config_target prefix id bytes ∧ is_Some (cp_references c !! id)
       ∧ (node, d) ∈ configs ∧ publication d = inr (bytes, id))
    ∨ ∃ node document, t = target (assignment_object_key prefix node) document ∧ node ∈ nodes.*1;
  co_paths : NoDup (pt_path <$> cp_targets c);
}.

Lemma compiled_empty prefix : compiled prefix [] [] (mkCompiling [] ∅ ∅).
Proof. split; simpl; [done|set_solver|set_solver|by intros ? [? ?]|set_solver|constructor]. Qed.

(** A target whose path is new keeps the paths distinct. *)
Lemma paths_snoc ts t :
  NoDup (pt_path <$> ts) → (∀ x, x ∈ ts → pt_path x ≠ pt_path t) → NoDup (pt_path <$> ts ++ [t]).
Proof.
  intros Hnd Hne. rewrite fmap_app. apply NoDup_app. split_and!; [done| |apply NoDup_singleton].
  intros k (x & -> & Hx)%list_elem_of_fmap Hk. apply list_elem_of_singleton in Hk. by eapply Hne.
Qed.

Lemma publish_config_ok prefix configs nodes c node d bytes id :
  compiled prefix configs nodes c → publication d = inr (bytes, id) →
  compiled prefix (configs ++ [(node, d)]) nodes (publish_config prefix id bytes c).
Proof.
  intros [Hr Hcf Hn Ha Ht Hp] Hpub. pose proof (proj1 (publication_inr _ _ _) Hpub) as [_ Hid].
  unfold publish_config. destruct (contains_key id (cp_references c)) eqn:Hc.
  - apply contains_key_true in Hc. split; try done.
    + intros n x [Hx|Hx]%elem_of_app; [by apply (Hcf n)|].
      apply list_elem_of_singleton in Hx as [= -> ->]. by exists bytes, id.
    + intros t [(i & b & n & x & ? & ? & ? & ?)|?]%Ht; [|by right]. left. exists i, b, n, x. set_solver.
  - apply contains_key_false in Hc. split; cbn [cp_references cp_targets cp_assignments pt_path pt_sha256 target].
    + intros i r Hi. apply lookup_insert_Some in Hi as [[<- <-]|[Hne Hi]].
      * rewrite <-Hid. split; [done|]. exists bytes. split; [|done]. set_solver.
      * destruct (Hr i r Hi) as (-> & b & ? & ?). split; [done|]. exists b. set_solver.
    + intros n x [Hx|Hx]%elem_of_app.
      * destruct (Hcf n x Hx) as (b & i & ? & ?). exists b, i. split; [done|].
        apply lookup_insert_is_Some. destruct (decide (id = i)); auto.
      * apply list_elem_of_singleton in Hx as [= -> ->]. exists bytes, id. split; [done|].
        rewrite lookup_insert_eq. by eexists.
    + intros n x Hx. destruct (Hn n x Hx) as (b & i & doc & ? & ? & ? & ?). exists b, i, doc. set_solver.
    + done.
    + intros t [Hin|Hin]%elem_of_app.
      * destruct (Ht t Hin) as [(i & b & n & x & ? & Hi & ? & ?)|?]; [left|by right].
        exists i, b, n, x. split_and!; [done| |set_solver|done].
        apply lookup_insert_is_Some. destruct (decide (id = i)); auto.
      * apply list_elem_of_singleton in Hin as ->. left. exists id, bytes, node, d.
        split_and!; [done|rewrite lookup_insert_eq; by eexists|set_solver|done].
    + apply paths_snoc; [done|]. intros x [(i & b & n & y & -> & Hi & _)|(n & doc & -> & _)]%Ht; simpl.
      * intros Heq%config_object_key_inj. subst i. destruct Hi. congruence.
      * intros Heq. by eapply object_keys_differ.
Qed.

Lemma publish_node_ok prefix done' c node d :
  compiled prefix done' done' c → node ∉ done'.*1 →
  match publish_node prefix node d c with
  | None => False
  | Some (inl e) => (∃ ce, e = InvalidDeployment ce ∧ publication d = inl ce) ∨ ∃ ce, e = Serialize ce
  | Some (inr c') => compiled prefix (done' ++ [(node, d)]) (done' ++ [(node, d)]) c'
  end.
Proof.
  intros Hc Hfresh. unfold publish_node.
  destruct (publication d) as [e|[bytes id]] eqn:Hpub; [left; by exists e|].
  pose proof (publish_config_ok prefix done' done' c node d bytes id Hc Hpub) as Hc'.
  set (c1 := publish_config prefix id bytes c) in *. destruct Hc' as [Hr Hcf Hn Ha Ht Hp].
  destruct (Hcf node d) as (bytes' & id' & Hpub' & [r Hl]); [set_solver|].
  rewrite Hpub in Hpub'. injection Hpub' as <- <-. rewrite Hl. cbn [mbind option_bind].
  destruct (Hr id r Hl) as [-> _]. fold (node_document prefix id).
  destruct (AgentDocument_to_bounded_json (node_document prefix id)) as [e|document] eqn:Hdoc; [right; by exists e|].
  split; cbn [cp_references cp_targets cp_assignments].
  - intros i r Hi. destruct (Hr i r Hi) as (-> & b & ? & ?). split; [done|]. exists b. set_solver.
  - done.
  - intros n x [Hx|Hx]%elem_of_app.
    + destruct (Hn n x Hx) as (b & i & doc & ? & ? & ? & ?). exists b, i, doc.
      split_and!; [done| |done|set_solver]. rewrite lookup_insert_ne; [done|]. intros ->. apply Hfresh.
      by apply (list_elem_of_fmap_2 fst) in Hx.
    + apply list_elem_of_singleton in Hx as [= -> ->]. exists bytes, id, document.
      split_and!; [done|by rewrite lookup_insert_eq|done|set_solver].
  - intros n [i [[<- _]|[_ Hi]]%lookup_insert_Some]; rewrite fmap_app; apply elem_of_app; [right; set_solver|left].
    apply Ha. by eexists.
  - intros t [Hin|Hin]%elem_of_app.
    + destruct (Ht t Hin) as [?|(n & doc & ? & ?)]; [by left|right]. exists n, doc. rewrite fmap_app. set_solver.
    + apply list_elem_of_singleton in Hin as ->. right. exists node, document. rewrite fmap_app. set_solver.
  - apply paths_snoc; [done|]. intros x [(i & b & n & y & -> & _)|(n & doc & -> & Hdone)]%Ht; simpl.
    + apply object_keys_differ.
    + intros Heq%assignment_object_key_inj. by subst.
Qed.

Lemma publish_nodes_ok prefix l : ∀ done' c,
  compiled prefix done' done' c → NoDup (done' ++ l).*1 →
  match publish_nodes prefix l c with
  | None => False
  | Some (inl e) => (∃ node d ce, (node, d) ∈ l ∧ e = InvalidDeployment ce ∧ publication d = inl ce)
                    ∨ ∃ ce, e = Serialize ce
  | Some (inr c') => compiled prefix (done' ++ l) (done' ++ l) c'
  end.
Proof.
  induction l as [|[node d] l IH]; intros done' c Hc Hnd; cbn [publish_nodes]; [by rewrite app_nil_r|].
  assert (node ∉ done'.*1) as Hfresh.
  { rewrite fmap_app in Hnd. apply NoDup_app in Hnd as (_ & Hd & _). intros Hin. apply (Hd _ Hin). constructor. }
  pose proof (publish_node_ok prefix done' c node d Hc Hfresh) as Hn.
  destruct (publish_node prefix node d c) as [[e|c']|]; cbn [mbind option_bind]; [| |done].
  - destruct Hn as [(ce & -> & ?)|?]; [|by right]. left. exists node, d, ce. split_and!; [constructor|done|done].
  - rewrite cons_middle, app_assoc in Hnd. specialize (IH _ c' Hn Hnd).
    destruct (publish_nodes prefix l c') as [[e|c'']|]; [| |done].
    + destruct IH as [(n & x & ce & ? & ?)|?]; [left|by right]. exists n, x, ce. split; [by constructor|done].
    + by rewrite cons_middle, app_assoc.
Qed.

Lemma bt_iter_keys {V} (m : BTreeMap V) : NoDup (bt_iter m).*1.
Proof. apply (NoDup_bt_keys m). Qed.

(** What a compiled plan publishes. *)
Lemma build_publication_plan_ok repository node_groups node_deployments :
  let prefix := trim_matches "/" (rs_assignment_prefix repository) in
  match build_publication_plan repository node_groups node_deployments with
  | None => False
  | Some (inl e) =>
      e = InvalidPrefix ∨ e = NodeDeploymentMismatch
      ∨ (∃ node d ce, node_deployments !! node = Some d ∧ e = InvalidDeployment ce ∧ publication d = inl ce)
      ∨ ∃ ce, e = Serialize ce
  | Some (inr plan) =>
      pp_node_groups plan = node_groups ∧ bt_keys node_groups = bt_keys node_deployments
      ∧ (∃ c, compiled prefix (bt_iter node_deployments) (bt_iter node_deployments) c
          ∧ pp_targets plan ≡ₚ cp_targets c ∧ pp_node_assignments plan = cp_assignments c)
      ∧ Sorted path_le (pp_targets plan) ∧ pp_digest plan = publication_digest (pp_targets plan)
  end.
Proof.
  unfold build_publication_plan. simpl. set (prefix := trim_matches _ _).
  destruct (negb (is_confined_relative prefix)); [by left|].
  destruct (negb (bool_decide _)) eqn:Hk; [by right; left|]. bool_to_prop.
  pose proof (publish_nodes_ok prefix (bt_iter node_deployments) [] _ (compiled_empty prefix)
                (bt_iter_keys _)) as Hp. simpl in Hp.
  destruct (publish_nodes prefix _ _) as [[e|c]|]; cbn; [| |done].
  - destruct Hp as [(n & d & ce & Hin%elem_of_bt_iter & ?)|?]; [|by do 3 right]. right; right; left.
    by exists n, d, ce.
  - split_and!; [done|done| | |done].
    + exists c. split_and!; [done|apply merge_sort_Permutation|done].
    + apply Sorted_merge_sort. intros x y. unfold path_le. apply String.leb_total.
Qed.

(** A generation hands every node its own deployment.  In a compiled plan the assigned,
    routed and deployed nodes are the same, no two targets share a path, and each node's agent
    document reads back to a reference to a published configuration whose digest is the
    recorded assignment, the identity of the node's deployment, and whose bytes read back to
    that deployment, unless they are a SHA-256 collision with it. *)
Lemma generation_hands_out_deployments repository node_groups node_deployments plan :
  build_publication_plan repository node_groups node_deployments = Some (inr plan) →
  let prefix := trim_matches "/" (rs_assignment_prefix repository) in
  NoDup (pt_path <$> pp_targets plan)
  ∧ pp_node_groups plan = node_groups ∧ dom node_groups = dom node_deployments
  ∧ dom (pp_node_assignments plan) = dom node_deployments
  ∧ ∀ node d, node_deployments !! node = Some d → ∃ body id document bytes config,
      publication d = inr (body, id) ∧ pp_node_assignments plan !! node = Some id
      ∧ target (assignment_object_key prefix node) bytes ∈ pp_targets plan
      ∧ AgentDocument_from_bounded_json bytes = inr document
      ∧ config ∈ pp_targets plan ∧ tr_path (doc_config document) = pt_path config
      ∧ tr_sha256 (doc_config document) = id ∧ sha256_bytes (pt_bytes config) = id
      ∧ (json_is_exact (ra_release_root d) = true →
         RepositoryAssignment_from_bounded_json (pt_bytes config) = inr d
         ∨ (pt_bytes config ≠ body ∧ sha256_bytes (pt_bytes config) = sha256_bytes body)).
Proof.
  intros Hb prefix. pose proof (build_publication_plan_ok repository node_groups node_deployments) as Hok.
  rewrite Hb in Hok. destruct Hok as (-> & Hkeys & (c & [Hr Hcf Hn Ha _ Hp] & Hperm & ->) & _ & _).
  fold prefix in Hr, Hcf, Hn.
  assert (∀ node, is_Some (node_deployments !! node) ↔ node ∈ (bt_iter node_deployments).*1) as Hdom
    by (intros node; by rewrite <-elem_of_bt_keys).
  split_and!; [by rewrite Hperm|done| | |].
  - apply set_eq. intros n. by rewrite !elem_of_dom, <-!elem_of_bt_keys, Hkeys.
  - apply set_eq. intros n. rewrite !elem_of_dom, Hdom. split; [apply Ha|].
    intros ([k d] & -> & Hin)%list_elem_of_fmap. destruct (Hn k d Hin) as (? & id & ? & _ & ? & _). by eexists.
  - intros node d Hd%elem_of_bt_iter.
    destruct (Hn node d Hd) as (body & id & bytes & Hpub & Hasg & Hdoc & Hin).
    destruct (Hcf node d Hd) as (body' & id' & Hpub' & [r Href]). rewrite Hpub in Hpub'. injection Hpub' as <- <-.
    destruct (Hr id r Href) as (_ & config & Hconf & Hsha).
    exists body, id, (node_document prefix id), bytes, (config_target prefix id config).
    rewrite !Hperm. split_and!; try done; [by apply AgentDocument_roundtrip|].
    intros Hexact. pose proof (proj1 (publication_inr _ _ _) Hpub) as [_ Hid]. simpl.
    destruct (decide (config = body)) as [->|]; [left; by eapply publication_reads_back|right].
    split; [done|congruence].
Qed.

End publication.

(** ** The layout reads back *)

(** A string with fewer than two slashes holds no agents segment. *)
Fixpoint slashes (s : string) : nat :=
  match s with
  | EmptyString => 0
  | String c s => (if bool_decide (c = "/"%char) then 1 else 0) + slashes s
  end.

Lemma slashes_app a b : slashes (String.append a b) = (slashes a + slashes b)%nat.
Proof. induction a as [|c a IH]; simpl; [done|]. rewrite IH. lia. Qed.

Lemma strip_prefix_Some pat s rest : strip_prefix pat s = Some rest ↔ s = String.append pat rest.
Proof.
  revert s. induction pat as [|a pat IH]; intros s; simpl; [naive_solver|].
  destruct s as [|b s]; [done|]. case_bool_decide as Hab; [subst; rewrite IH; naive_solver|naive_solver].
Qed.

Lemma rsplit_once_few s : (slashes s < 2)%nat → rsplit_once ASSIGNMENT_AGENTS_SEGMENT s = None.
Proof.
  induction s as [|c s IH]; [done|]. intros Hlt. cbn [rsplit_once].
  rewrite IH by (simpl in Hlt; lia).
  destruct (strip_prefix ASSIGNMENT_AGENTS_SEGMENT (String c s)) as [rest|] eqn:Hs; [|done].
  apply strip_prefix_Some in Hs. rewrite Hs, slashes_app in Hlt. simpl in Hlt. lia.
Qed.

Lemma rsplit_once_agents p node :
  slashes node = 0%nat →
  rsplit_once ASSIGNMENT_AGENTS_SEGMENT (String.append p (String.append ASSIGNMENT_AGENTS_SEGMENT node))
  = Some (p, node).
Proof.
  intros Hn. induction p as [|c p IH].
  - cbn [String.append]. change (String.append ASSIGNMENT_AGENTS_SEGMENT node)
      with (String "/" (String.append "agents/" node)). cbn [rsplit_once].
    rewrite rsplit_once_few by (rewrite slashes_app, Hn; simpl; lia).
    by rewrite (proj2 (strip_prefix_Some _ _ node)).
  - cbn [String.append rsplit_once]. by rewrite IH.
Qed.

Lemma strip_suffix_app pat s : strip_suffix pat (String.append s pat) = Some s.
Proof.
  induction s as [|c s IH]; cbn [String.append strip_suffix].
  - destruct pat; [done|]. cbn [strip_suffix]. by rewrite bool_decide_true.
  - rewrite bool_decide_false; [by rewrite IH|]. intros Heq.
    apply (f_equal String.length) in Heq. simpl in Heq. rewrite length_append in Heq. lia.
Qed.

Lemma strip_suffix_Some pat x y : strip_suffix pat x = Some y → x = String.append y pat.
Proof.
  revert y. induction x as [|c x IH]; intros y; cbn [strip_suffix]; case_bool_decide as Heq.
  - intros [= <-]. by subst pat.
  - done.
  - intros [= <-]. by subst pat.
  - destruct (strip_suffix pat x) as [y'|]; [|done]. intros [= <-]. simpl. f_equal. by apply IH.
Qed.

Lemma label_slashes s : string_forallb dns_label_byte s = true → slashes s = 0%nat.
Proof.
  induction s as [|c s IH]; simpl; [done|]. intros [Hc Hs]%andb_true_iff. rewrite (IH Hs).
  case_bool_decide as Heq; [|done]. by subst c.
Qed.

Lemma labels_slashes s : ∀ cur,
  forallb is_dns_label (split_on "." cur s) = true → (slashes cur + slashes s = 0)%nat.
Proof.
  assert (∀ l, is_dns_label l = true → slashes l = 0%nat) as Hlabel.
  { intros [|c l]; [done|]. unfold is_dns_label. intros Hl. bool_to_prop. by apply label_slashes. }
  induction s as [|c s IH]; intros cur; cbn [split_on]; [|case_bool_decide as Hc].
  - simpl. intros [Hl _]%andb_true_iff. rewrite (Hlabel _ Hl). done.
  - cbn [forallb]. intros [Hl Hs]%andb_true_iff. specialize (IH _ Hs). rewrite (Hlabel _ Hl). by subst c.
  - intros Hs%IH. rewrite slashes_app in Hs. simpl in *. lia.
Qed.

Lemma dns_slashes name : is_dns_subdomain name = true → slashes name = 0%nat.
Proof. unfold is_dns_subdomain. intros Hd. bool_to_prop. by apply (labels_slashes name EmptyString). Qed.

(** The object layout reads back: for every node identity the path the control plane
    publishes its assignment at splits into the trimmed prefix and exactly that node. *)
Lemma assignment_path_roundtrip prefix node :
  is_dns_subdomain node = true → trim_matches "/" prefix ≠ EmptyString →
  split_assignment_path (assignment_object_key prefix node) = Some (trim_matches "/" prefix, node).
Proof.
  intros Hn Hp. unfold split_assignment_path, assignment_object_key.
  rewrite (append_assoc ASSIGNMENT_AGENTS_SEGMENT), append_assoc, strip_suffix_app. cbn [mbind option_bind].
  rewrite rsplit_once_agents by by apply dns_slashes. simpl. by rewrite bool_decide_false, Hn.
Qed.
