(* ===== verification/Inputs.v ===== *)
(** * Inputs: outputs of healthy producers become inputs of their consumers

    Models [resolve_group_inputs] and [resolve_one] of [updatec/src/domain.rs]: a group's input
    is the one value every producer node states in an output object its own signed report
    commits to, and the resolved snapshot changes the deployment the group is published as.
    [None] is a panic, and the theorems show that none occurs. *)
From S2P Require Import Prelude Identity Maps Releases Dataflow Telemetry Window Rollout Assignment.
From S2P Require Import Groups GroupGraph GroupRouting.

(** A stored output object with the digest of its exact bytes. *)
Record ExactOutputPublication : Type := mkExactOutputPublication {
  xo_sha256 : string;
  xo_publication : OutputPublication;
}.

Section inputs.
Context `{!ReportParts} `{!Semver} `{!Signed} `{!Chrono}.
Context `{!JsonValues} `{!Sha256} `{!SemverOrder} `{!Urls} `{!AssignmentJson}.
Context `{!Base64} `{!Hmac} `{!DataflowJson}.

(** [ExactOutputPublication::decode] *)
Definition ExactOutputPublication_decode (body node : string) : ContractError + ExactOutputPublication :=
  _ ← demand (str_len body <=? MAX_DATAFLOW_BODY_BYTES)%N
        (EPastLimit "dataflow output publication" (str_len body) MAX_DATAFLOW_BODY_BYTES);
  publication ← ok_or (from_slice body) (EDecoding "dataflow output publication");
  _ ← OutputPublication_validate publication node;
  inr (mkExactOutputPublication (sha256_bytes body) publication).

Record InputResolution : Type := mkInputResolution {
  ir_node_groups : BTreeMap string;
  ir_reports : gmap string Envelope;
  ir_outputs : gmap string ExactOutputPublication;
  ir_public_keys : gmap string P256PublicKey;
  ir_verified : VerifiedReports;
  ir_cordons : BTreeSet;
  ir_now_ms : N;
  ir_dataflow_key : string;
}.

(** [group.deployment.runtime.inputs = selection; group.input_snapshot = snapshot]. *)
Definition with_runtime_inputs (a : RepositoryAssignment) (sel : InputSelection) : RepositoryAssignment :=
  let r := ra_runtime a in
  mkRepositoryAssignment (ra_schema a) (ra_deployment a) (ra_metadata_url a) (ra_targets_url a)
    (ra_application a) (ra_release_root a)
    (mkManagedRuntime (mr_product r) (mr_channel r) (mr_install_root r) sel (mr_repository r)
       (mr_storage r) (mr_timeouts r)).

Definition with_inputs (g : ResolvedGroup) (sel : InputSelection) (snapshot : option FileSnapshot)
    : ResolvedGroup :=
  mkResolvedGroup (gr_name g) (gr_match_labels g) (gr_depends_on g) (gr_inputs g) snapshot
    (with_runtime_inputs (gr_deployment g) sel) (gr_max_unavailable g) (gr_emergency_correction g).

Section resolve.
Context (context : InputResolution).

Definition producers (group : string) : list string :=
  filter (λ node, (node ∉ ir_cordons context) ∧ is_Some (ir_public_keys context !! node))
    (filter (λ x : string * string, x.2 = group) (bt_iter (ir_node_groups context))).*1.

(** The value one producer node states, when it may be believed. *)
Definition stated_value (producer : ResolvedGroup) (output node : string) : option FileValue :=
  let identity := deployment_identity (gr_deployment producer) in
  envelope ← ir_reports context !! node;
  key ← ir_public_keys context !! node;
  report ← verified_fresh (ir_verified context) node envelope key (ir_now_ms context);
  if negb (option_some_and (λ identity, is_converged_to report identity
                                          (target_sha256 (gr_deployment producer))) identity)
  then None
  else
    exact ← ir_outputs context !! node;
    let publication := xo_publication exact in
    if negb (succeeds (OutputPublication_validate publication node))
       || negb (bool_decide (op_deployment publication = ra_deployment (gr_deployment producer)))
       || negb (bool_decide (op_assignment_sha256 publication = nr_assignment_sha256 report))
       || negb (bool_decide (op_archive_sha256 publication = nr_archive_sha256 report))
       || negb (bool_decide (nr_output_sha256 report = Some (xo_sha256 exact)))
    then None
    else fs_files (op_snapshot publication) !! output.

(** The loop over the producers: [None] when the input is not ready. *)
Fixpoint agreement (producer : ResolvedGroup) (output : string) (nodes : list string)
    (unanimous : option FileValue) : option (option FileValue) :=
  match nodes with
  | [] => Some unanimous
  | node :: nodes =>
      value ← stated_value producer output node;
      match unanimous with
      | Some agreed =>
          if bool_decide (agreed = value) then agreement producer output nodes unanimous else None
      | None => agreement producer output nodes (Some value)
      end
  end.

(** One binding: the outer [None] is the panic of the [expect], the inner one not ready. *)
Definition resolve_input (resolved : BTreeMap ResolvedGroup) (reference : GroupOutputReference)
    : option (option FileValue) :=
  let nodes := producers (gor_group reference) in
  if bool_decide (nodes = []) then Some None
  else match resolved !! gor_group reference with
       | None => Some None
       | Some producer =>
           match agreement producer (gor_output reference) nodes None with
           | None => Some None
           | Some None => None
           | Some (Some value) => Some (Some value)
           end
       end.

(** [group.inputs.iter().all(...)], collecting the values. *)
Fixpoint gather (resolved : BTreeMap ResolvedGroup) (l : list (string * GroupOutputReference))
    (values : BTreeMap FileValue) : option (option (BTreeMap FileValue)) :=
  match l with
  | [] => Some (Some values)
  | (input, reference) :: l =>
      value ← resolve_input resolved reference;
      match value with
      | None => Some None
      | Some value => gather resolved l (<[input := value]> values)
      end
  end.

Definition unresolved (g : ResolvedGroup) : ResolvedGroup := with_inputs g InputSelection_default None.

Definition resolve_one (g : ResolvedGroup) (resolved : BTreeMap ResolvedGroup) : option ResolvedGroup :=
  if bool_decide (gr_inputs g = ∅) then Some (unresolved g)
  else
    values ← gather resolved (bt_iter (gr_inputs g)) ∅;
    match values with
    | None => Some (unresolved g)
    | Some values =>
        let snapshot := mkFileSnapshot values in
        match from_snapshot snapshot (ir_dataflow_key context) with
        | inl _ => Some (unresolved g)
        | inr publication =>
            match selection publication with
            | inl _ => Some (unresolved g)
            | inr sel => Some (with_inputs g sel (Some snapshot))
            end
        end
    end.

Fixpoint resolve_in_order (groups : BTreeMap ResolvedGroup) (names : list string)
    (resolved : BTreeMap ResolvedGroup) : option (BTreeMap ResolvedGroup) :=
  match names with
  | [] => Some resolved
  | name :: names =>
      group ← groups !! name;
      group ← resolve_one group resolved;
      resolve_in_order groups names (<[name := group]> resolved)
  end.

Definition resolve_group_inputs (groups : BTreeMap ResolvedGroup) : option (BTreeMap ResolvedGroup) :=
  resolve_in_order groups (dependency_order groups) ∅.

End resolve.

(** ** Lemmas *)

Section lemmas.
Context (context : InputResolution).

Lemma elem_of_producers group node :
  node ∈ producers context group ↔
  ir_node_groups context !! node = Some group ∧ (node ∉ ir_cordons context)
  ∧ is_Some (ir_public_keys context !! node).
Proof.
  unfold producers. rewrite list_elem_of_filter, list_elem_of_fmap. split.
  - intros ([? ?] & [k x] & -> & Hin). apply list_elem_of_filter in Hin as [Hx Hin%elem_of_bt_iter].
    simpl in *. by subst.
  - intros (Hg & ? & ?). split; [done|]. exists (node, group). split; [done|].
    apply list_elem_of_filter. split; [done|]. by apply elem_of_bt_iter.
Qed.

Lemma agreement_Some producer output nodes a u :
  agreement context producer output nodes (Some a) = Some u ↔
  u = Some a ∧ ∀ node, node ∈ nodes → stated_value context producer output node = Some a.
Proof.
  induction nodes as [|n nodes IH]; cbn [agreement].
  { split; [intros [= <-]; split; [done|]; intros ? Hx; by apply not_elem_of_nil in Hx|by intros [-> _]]. }
  setoid_rewrite elem_of_cons. destruct (stated_value context producer output n) as [v|] eqn:Hv; cbn.
  - case_bool_decide as Heq; [subst v; rewrite IH; naive_solver|]. split; [done|].
    intros [_ Hall]. specialize (Hall n (or_introl eq_refl)). congruence.
  - split; [done|]. intros [_ Hall]. specialize (Hall n (or_introl eq_refl)). congruence.
Qed.

Lemma agreement_None producer output nodes u : nodes ≠ [] →
  agreement context producer output nodes None = Some u ↔
  ∃ a, u = Some a ∧ ∀ node, node ∈ nodes → stated_value context producer output node = Some a.
Proof.
  intros Hne. destruct nodes as [|n nodes]; [done|]. cbn [agreement]. setoid_rewrite elem_of_cons.
  destruct (stated_value context producer output n) as [v|] eqn:Hv; cbn.
  - rewrite agreement_Some. split.
    + intros [-> Hall]. exists v. naive_solver.
    + intros (a & -> & Hall). pose proof (Hall n (or_introl eq_refl)) as Ha. rewrite Hv in Ha.
      injection Ha as <-. naive_solver.
  - split; [done|]. intros (a & _ & Hall). specialize (Hall n (or_introl eq_refl)). congruence.
Qed.

(** The value of a binding: what every producer states. *)
Definition input_value (resolved : BTreeMap ResolvedGroup) (reference : GroupOutputReference)
    (v : FileValue) : Prop :=
  producers context (gor_group reference) ≠ []
  ∧ ∃ producer, resolved !! gor_group reference = Some producer
    ∧ ∀ node, node ∈ producers context (gor_group reference) →
        stated_value context producer (gor_output reference) node = Some v.

Lemma resolve_input_spec resolved reference :
  ∃ r, resolve_input context resolved reference = Some r
    ∧ ∀ v, r = Some v ↔ input_value resolved reference v.
Proof.
  unfold resolve_input, input_value. case_bool_decide as Hne.
  { exists None. split; [done|]. intros v. split; [done|]. by intros [? _]. }
  destruct (resolved !! gor_group reference) as [producer|].
  2:{ exists None. split; [done|]. intros v. split; [done|]. by intros (_ & ? & ? & _). }
  destruct (agreement _ _ _ _ _) as [[a|]|] eqn:Ha.
  - eexists. split; [done|]. apply agreement_None in Ha as (b & [= <-] & Hall); [|done].
    intros v. split; [intros [= <-]; eauto|]. intros (_ & p & [= <-] & Hall').
    destruct (producers context (gor_group reference)) as [|n l]; [done|].
    rewrite <-(Hall n), <-(Hall' n); [done|constructor|constructor].
  - apply agreement_None in Ha as (b & ? & _); done.
  - eexists. split; [done|]. intros v. split; [done|]. intros (_ & p & [= <-] & Hall).
    assert (agreement context producer (gor_output reference) (producers context (gor_group reference)) None
            = Some (Some v)) by (apply agreement_None; eauto). congruence.
Qed.

Lemma gather_spec resolved l : ∀ values,
  NoDup l.*1 → (∀ k, k ∈ l.*1 → values !! k = None) →
  ∃ r, gather context resolved l values = Some r
    ∧ match r with
      | None => ∃ input reference, (input, reference) ∈ l ∧ ∀ v, ~ input_value resolved reference v
      | Some values' =>
          (∀ input reference, (input, reference) ∈ l →
             ∃ v, values' !! input = Some v ∧ input_value resolved reference v)
          ∧ ∀ k, k ∉ l.*1 → values' !! k = values !! k
      end.
Proof.
  induction l as [|[input reference] l IH]; intros values Hnd Hnone; cbn [gather].
  { exists (Some values). split; [done|]. split; [|done]. intros ? ? Hx. by apply not_elem_of_nil in Hx. }
  rewrite fmap_cons in Hnd. apply NoDup_cons in Hnd as [Hin Hnd]. cbn [fst] in Hin.
  destruct (resolve_input_spec resolved reference) as (r & -> & Hr). cbn [mbind option_bind].
  destruct r as [v|].
  - destruct (IH (<[input := v]> values) Hnd) as (r & -> & Hspec).
    { intros k Hk. rewrite lookup_insert_ne by congruence. apply Hnone. rewrite fmap_cons. by constructor. }
    exists r. split; [done|]. destruct r as [values'|].
    + destruct Hspec as [Hall Hrest]. split.
      * intros i x [[= -> ->]|Hx]%elem_of_cons; [|by apply Hall]. exists v.
        rewrite Hrest, lookup_insert_eq by done. split; [done|]. by apply Hr.
      * intros k Hk. rewrite fmap_cons in Hk. apply not_elem_of_cons in Hk as [Hki Hk]. cbn [fst] in Hki.
        rewrite Hrest by done. by rewrite lookup_insert_ne.
    + destruct Hspec as (i & x & Hx & ?). exists i, x. split; [by constructor|done].
  - exists None. split; [done|]. exists input, reference. split; [constructor|]. intros v Hv%Hr. done.
Qed.

(** What resolving one group yields. *)
Definition resolution (g : ResolvedGroup) (resolved : BTreeMap ResolvedGroup) (g' : ResolvedGroup) : Prop :=
  g' = unresolved g
  ∨ ∃ values publication sel,
      g' = with_inputs g sel (Some (mkFileSnapshot values))
      ∧ gr_inputs g ≠ ∅ ∧ dom values = dom (gr_inputs g)
      ∧ (∀ input reference, gr_inputs g !! input = Some reference →
           ∃ v, values !! input = Some v ∧ input_value resolved reference v)
      ∧ from_snapshot (mkFileSnapshot values) (ir_dataflow_key context) = inr publication
      ∧ selection publication = inr sel.

Lemma resolve_one_spec g resolved :
  ∃ g', resolve_one context g resolved = Some g' ∧ resolution g resolved g'.
Proof.
  unfold resolve_one, resolution. case_bool_decide as Hne; [by eexists; split; [|left]|].
  destruct (gather_spec resolved (bt_iter (gr_inputs g)) ∅) as (r & -> & Hr).
  { apply (NoDup_bt_keys (gr_inputs g)). }
  { done. }
  cbn [mbind option_bind]. destruct r as [values|]; [|by eexists; split; [|left]].
  destruct (from_snapshot _ _) as [e|publication] eqn:Hp; [by eexists; split; [|left]|].
  destruct (selection publication) as [e|sel] eqn:Hs; [by eexists; split; [|left]|].
  eexists. split; [done|]. right. exists values, publication, sel. destruct Hr as [Hall Hrest].
  split_and!; [done|done| |by intros i x Hi%elem_of_bt_iter%Hall|done|done].
  apply set_eq. intros k. rewrite !elem_of_dom. rewrite <-(elem_of_bt_keys (gr_inputs g)).
  destruct (decide (k ∈ bt_keys (gr_inputs g))) as [Hk|Hk].
  - split; [done|]. intros _. apply list_elem_of_fmap in Hk as ([i x] & -> & Hin).
    destruct (Hall i x Hin) as (v & ? & _). by eexists.
  - split; [|done]. rewrite (Hrest k Hk). by intros [? ?].
Qed.

(** Resolution reads only the producers the group names. *)
Lemma resolve_one_ext g m m' :
  (∀ input reference, gr_inputs g !! input = Some reference →
     m !! gor_group reference = m' !! gor_group reference) →
  resolve_one context g m = resolve_one context g m'.
Proof.
  intros Heq. unfold resolve_one. case_bool_decide; [done|].
  assert (∀ l values, (∀ x, x ∈ l → m !! gor_group x.2 = m' !! gor_group x.2) →
    gather context m l values = gather context m' l values) as ->; [|done|].
  - induction l as [|[i r] l IH]; intros values Hl; cbn [gather]; [done|]. unfold resolve_input.
    pose proof (Hl (i, r) ltac:(constructor)) as Hir. cbn [snd] in Hir. rewrite Hir.
    assert (∀ vs, gather context m l vs = gather context m' l vs) as IH'.
    { intros vs. apply IH. intros. apply Hl. by constructor. }
    destruct (if bool_decide _ then _ else _) as [[v|]|]; cbn; [apply IH'|done|done].
  - intros [i r] Hin%elem_of_bt_iter. by eapply Heq.
Qed.

(** The loop: each name resolved once, against what precedes it. *)
Lemma resolve_in_order_spec groups names : ∀ before resolved,
  NoDup (before ++ names) → (∀ x, x ∈ names → is_Some (groups !! x)) →
  (∀ k, is_Some (resolved !! k) ↔ k ∈ before) →
  ∃ final, resolve_in_order context groups names resolved = Some final
    ∧ resolved ⊆ final ∧ (∀ k, is_Some (final !! k) ↔ k ∈ before ++ names)
    ∧ ∀ i name, names !! i = Some name → ∃ g g' m, groups !! name = Some g
        ∧ final !! name = Some g' ∧ resolve_one context g m = Some g' ∧ m ⊆ final
        ∧ ∀ k, is_Some (m !! k) ↔ k ∈ before ++ take i names.
Proof.
  induction names as [|name names IH]; intros before resolved Hnd Hdecl Hdom; cbn [resolve_in_order].
  { exists resolved. rewrite app_nil_r. split_and!; [done..|]. by intros i name. }
  destruct (Hdecl name) as [g Hg]; [constructor|]. rewrite Hg. cbn [mbind option_bind].
  destruct (resolve_one_spec g resolved) as (g' & Hr & _). rewrite Hr. cbn [mbind option_bind].
  assert (name ∉ before) as Hfresh.
  { apply NoDup_app in Hnd as (_ & Hd & _). intros Hin. apply (Hd _ Hin). constructor. }
  assert (resolved !! name = None) as Hno by (apply eq_None_not_Some; by rewrite Hdom).
  destruct (IH (before ++ [name]) (<[name := g']> resolved)) as (final & Hf & Hsub & Hfd & Hall).
  { by rewrite <-app_assoc. }
  { intros x Hx. apply Hdecl. by constructor. }
  { intros k. rewrite lookup_insert_is_Some, Hdom, elem_of_app, list_elem_of_singleton.
    destruct (decide (name = k)); naive_solver. }
  rewrite <-app_assoc in Hfd. exists final. split_and!; [done| |done|].
  - etrans; [by apply insert_subseteq|done].
  - intros [|i] x Hx; simpl in Hx.
    + injection Hx as <-. exists g, g', resolved. split_and!; [done| |done| |].
      * eapply lookup_weaken; [|done]. by rewrite lookup_insert_eq.
      * etrans; [by apply insert_subseteq|done].
      * intros k. by rewrite Hdom, app_nil_r.
    + destruct (Hall i x Hx) as (gx & gx' & m & ? & ? & ? & ? & Hm). exists gx, gx', m.
      split_and!; [done..|]. intros k. by rewrite Hm, <-app_assoc.
Qed.

End lemmas.

(** Resolution never panics, and resolves every group. *)
Lemma resolve_group_inputs_total context groups :
  ∃ final, resolve_group_inputs context groups = Some final
    ∧ ∀ name, match groups !! name with
              | Some g => ∃ sel snapshot, final !! name = Some (with_inputs g sel snapshot)
              | None => final !! name = None
              end.
Proof.
  unfold resolve_group_inputs.
  assert (∀ x, x ∈ dependency_order groups ↔ is_Some (groups !! x)) as Hin
    by (intros x; by rewrite dependency_order_perm, elem_of_bt_keys).
  destruct (resolve_in_order_spec context groups (dependency_order groups) [] ∅)
    as (final & Hf & _ & Hdom & Hall); simpl.
  { rewrite dependency_order_perm. apply NoDup_bt_keys. }
  { intros x. by rewrite Hin. }
  { intros k. rewrite lookup_empty. split; [by intros [? ?]|intros Hk; by apply not_elem_of_nil in Hk]. }
  exists final. split; [done|]. intros name. destruct (groups !! name) as [g|] eqn:Hg.
  - destruct (list_elem_of_lookup_1 (dependency_order groups) name) as [i Hi]; [apply Hin; by eexists|].
    destruct (Hall i name Hi) as (g0 & g' & m & Hg0 & -> & Hr & _). assert (g0 = g) as -> by congruence.
    destruct (resolve_one_spec context g m) as (g'' & Hr' & Hres). rewrite Hr in Hr'. injection Hr' as <-.
    destruct Hres as [->|(? & ? & ? & -> & _)]; by eexists _, _.
  - apply eq_None_not_Some. rewrite Hdom, Hin, Hg. by intros [? ?].
Qed.

(** What a producer node proves when its stated value is used. *)
Definition proven_output (context : InputResolution) (producer : ResolvedGroup) (output node : string)
    (v : FileValue) : Prop :=
  ∃ envelope key report identity exact,
    ir_reports context !! node = Some envelope ∧ ir_public_keys context !! node = Some key
    ∧ verified_fresh (ir_verified context) node envelope key (ir_now_ms context) = Some report
    ∧ deployment_identity (gr_deployment producer) = Some identity
    ∧ is_converged_to report identity (target_sha256 (gr_deployment producer)) = true
    ∧ ir_outputs context !! node = Some exact ∧ nr_output_sha256 report = Some (xo_sha256 exact)
    ∧ op_node (xo_publication exact) = node
    ∧ op_assignment_sha256 (xo_publication exact) = identity
    ∧ fs_files (op_snapshot (xo_publication exact)) !! output = Some v.

Lemma stated_value_proven context producer output node v :
  stated_value context producer output node = Some v → proven_output context producer output node v.
Proof.
  unfold stated_value. intros Hs.
  destruct (ir_reports context !! node) as [envelope|] eqn:Henv; cbn [mbind option_bind negb] in Hs; [|done].
  destruct (ir_public_keys context !! node) as [key|] eqn:Hkey; cbn [mbind option_bind negb] in Hs; [|done].
  destruct (verified_fresh _ _ _ _ _) as [report|] eqn:Hrep; cbn [mbind option_bind negb] in Hs; [|done].
  destruct (deployment_identity (gr_deployment producer)) as [identity|] eqn:Hid; cbn [option_some_and negb] in Hs; [|done].
  destruct (is_converged_to report identity _) eqn:Hc; cbn [mbind option_bind negb] in Hs; [|done].
  destruct (ir_outputs context !! node) as [exact|] eqn:Hout; cbn [mbind option_bind negb] in Hs; [|done].
  destruct (_ || _) eqn:Hchk in Hs; [done|]. bool_to_prop.
  exists envelope, key, report, identity, exact. split_and!; try done.
  - rename select (succeeds _ = true) into Hval.
    destruct (OutputPublication_validate (xo_publication exact) node) as [|u] eqn:Hv; [done|].
    unfold OutputPublication_validate in Hv. sum_inv. by bool_to_prop.
  - unfold is_converged_to in Hc. bool_to_prop. congruence.
Qed.

(** C38. Input resolution is a fixpoint on proof: on a validated graph it never panics, and every
    group comes out resolved against the resolved groups themselves, whatever the length of the
    chain.  A group with a snapshot holds exactly its declared inputs, each the value that every
    reachable producer node, one at least, states in an output object its own fresh signed report
    commits to while converged to the producer's resolved deployment, and it is published under
    the selection of exactly that snapshot; any other group is published with no inputs. *)
Theorem input_resolution_is_a_proven_fixpoint context groups quarantined :
  (∀ q, q ∈ quarantined → groups !! q = None) →
  validate_dependency_graph groups quarantined = Some (inr tt) →
  ∃ final, resolve_group_inputs context groups = Some final ∧ dom final = dom groups
    ∧ ∀ name g, groups !! name = Some g → ∃ g', final !! name = Some g'
        ∧ resolve_one context g final = Some g'
        ∧ (g' = unresolved g
           ∨ ∃ snapshot publication sel,
               g' = with_inputs g sel (Some snapshot)
               ∧ dom (fs_files snapshot) = dom (gr_inputs g)
               ∧ from_snapshot snapshot (ir_dataflow_key context) = inr publication
               ∧ selection publication = inr sel
               ∧ ∀ input reference, gr_inputs g !! input = Some reference →
                   ∃ v producer, fs_files snapshot !! input = Some v
                     ∧ final !! gor_group reference = Some producer
                     ∧ producers context (gor_group reference) ≠ []
                     ∧ ∀ node, ir_node_groups context !! node = Some (gor_group reference) →
                         node ∉ ir_cordons context → is_Some (ir_public_keys context !! node) →
                         proven_output context producer (gor_output reference) node v).
Proof.
  intros Hq Hv. unfold resolve_group_inputs.
  destruct (ordered_groups groups quarantined Hq Hv) as [Hperm Hfirst].
  assert (∀ x, x ∈ dependency_order groups ↔ is_Some (groups !! x)) as Hin
    by (intros x; by rewrite Hperm, elem_of_bt_keys).
  destruct (resolve_in_order_spec context groups (dependency_order groups) [] ∅)
    as (final & Hf & _ & Hdom & Hall); simpl.
  { rewrite Hperm. apply NoDup_bt_keys. }
  { intros x. by rewrite Hin. }
  { intros k. rewrite lookup_empty. split; [by intros [? ?]|intros Hk; by apply not_elem_of_nil in Hk]. }
  exists final. split_and!; [done|apply set_eq; intros k; by rewrite !elem_of_dom, Hdom, Hin|].
  intros name g Hg. destruct (list_elem_of_lookup_1 (dependency_order groups) name) as [i Hi].
  { apply Hin. by eexists. }
  destruct (Hall i name Hi) as (g0 & g' & m & Hg0 & Hg' & Hr & Hsub & Hm).
  assert (g0 = g) as -> by congruence. exists g'. split; [done|].
  destruct (validate_spec groups quarantined) as (r & Hvr & Hspec). rewrite Hv in Hvr. injection Hvr as <-.
  destruct Hspec as [Hwired _]. destruct (Hwired name g Hg) as [[_ Hinp] _].
  rewrite (resolve_one_ext context g m final) in Hr.
  2:{ intros input reference Hir. destruct (Hinp _ _ Hir) as (_ & _ & Hdep).
      destruct (final !! gor_group reference) as [p|] eqn:Hp.
      - assert (is_Some (groups !! gor_group reference)) as Hs by (apply Hin, Hdom; by eexists).
        destruct (Hfirst i name g _ Hi Hg Hdep Hs) as (j & Hj & Hlj).
        assert (is_Some (m !! gor_group reference)) as [p' Hp'].
        { apply Hm. apply list_elem_of_lookup_2 with j. cbn [app]. by rewrite lookup_take_lt. }
        rewrite Hp'. eapply lookup_weaken in Hp'; [|done]. congruence.
      - by eapply lookup_weaken_None. }
  split; [done|]. destruct (resolve_one_spec context g final) as (g'' & Hr' & Hres).
  rewrite Hr in Hr'. injection Hr' as <-.
  destruct Hres as [->|(values & publication & sel & -> & _ & Hd & Hvals & Hp & Hs)]; [by left|right].
  exists (mkFileSnapshot values), publication, sel. split_and!; [done..|].
  intros input reference Hir. destruct (Hvals _ _ Hir) as (v & Hlv & Hne & producer & Hpr & Hst).
  exists v, producer. split_and!; [done..|]. intros node Hng Hc Hk.
  apply stated_value_proven, Hst. by apply elem_of_producers.
Qed.

End inputs.
