(* ===== verification/Reconcile.v ===== *)
(** * Reconcile: from desired inventory and telemetry to one signed generation

    Models [plan_reconcile] of [updatec/src/domain.rs]: validation, routing, input resolution,
    the rollout planner, the withheld default cohort, the carry-forward of nodes whose group
    cannot be planned, the routing-loss backstop, and the publication, over the state the
    controller stores between passes.  The outer [None] is a panic, and the theorems of
    [Fleet.v] show that none occurs. *)
From S2P Require Import Prelude Identity Maps Releases Dataflow Telemetry Window Rollout Assign.
From S2P Require Import Retention Regression Admission Plan Assignment Groups GroupGraph GroupRouting.
From S2P Require Import Publication Inputs.

Section reconcile.
Context `{!ReportParts} `{!Semver} `{!Signed} `{!Chrono}.
Context `{!JsonValues} `{!Sha256} `{!SemverOrder} `{!Urls} `{!AssignmentJson}.
Context `{!Base64} `{!Hmac} `{!DataflowJson} `{!Serde AgentDocument}.

Record DesiredState : Type := mkDesiredState {
  de_repository : UpdateRepositorySpec;
  de_groups : BTreeMap ResolvedGroup;
  de_group_labels : BTreeMap (BTreeMap string);
  de_sets : list UpdateGroupSet;
  de_nodes : list ResolvedNode;
  de_quarantined : BTreeMap (BTreeMap string);
  de_holds : BTreeSet;
  de_cordons : BTreeSet;
  de_blocked_deployments : BTreeSet;
  de_held : BTreeMap AdmittedDeployment;
}.

(** The clock is an instant and its milliseconds. *)
Record ObservedState : Type := mkObservedState {
  ob_reports : gmap string Envelope;
  ob_outputs : gmap string ExactOutputPublication;
  ob_dataflow_key : string;
  ob_public_keys : gmap string P256PublicKey;
  ob_admitted : BTreeMap AdmittedDeployment;
  ob_vetoed : BTreeMap VetoedDeployment;
  ob_routing : BTreeMap string;
  ob_assignments : BTreeMap string;
  ob_now : instant;
  ob_millis : Z;
}.

Record ReconcilePlan : Type := mkReconcilePlan {
  rc_publication : PublicationPlan;
  rc_desired_deployments : BTreeMap RepositoryAssignment;
  rc_blocked : BTreeSet;
  rc_input_snapshots : BTreeMap FileSnapshot;
  rc_admitted : BTreeMap AdmittedDeployment;
  rc_vetoed : BTreeMap VetoedDeployment;
  rc_routing : BTreeMap string;
  rc_assignments : BTreeMap string;
  rc_set_statuses : list SetStatus;
  rc_groups : BTreeMap GroupProgress;
  rc_node_counts : BTreeMap GroupNodes;
  rc_halted_groups : BTreeMap HaltedDeployment;
}.

(** [DesiredState::quarantined_group] *)
Definition quarantined_group (desired : DesiredState) (node : ResolvedNode) (selected : string)
    : option string :=
  if negb (bool_decide (selected = DEFAULT_GROUP)) then None
  else (λ x, x.2.1) <$> list_find (λ x : string * BTreeMap string,
         x.2 ≠ ∅ ∧ selector_matches x.2 (rn_labels node) = true) (bt_iter (de_quarantined desired)).

(** The nodes a quarantined group captures; the index panics on an unrouted node. *)
Fixpoint quarantined_nodes (desired : DesiredState) (node_groups : BTreeMap string)
    (nodes : list ResolvedNode) : option (BTreeMap string) :=
  match nodes with
  | [] => Some ∅
  | node :: nodes =>
      selected ← node_groups !! rn_name node;
      rest ← quarantined_nodes desired node_groups nodes;
      Some (match quarantined_group desired node selected with
            | Some group => if contains_key (rn_name node) rest then rest else <[rn_name node := group]> rest
            | None => rest
            end)
  end.

(** The unmatched nodes that follow the repository default this pass. *)
Definition follows_default (desired : DesiredState) (quarantined : BTreeMap string)
    (default_blocked : bool) (node selected : string) : bool :=
  bool_decide (selected = DEFAULT_GROUP) && negb (contains_key node quarantined)
  && negb (bool_decide (node ∈ de_holds desired)) && negb default_blocked.

Definition hand_default (desired : DesiredState) (quarantined : BTreeMap string)
    (default_blocked : bool) (default : RepositoryAssignment) (node_groups : BTreeMap string)
    (node_deployments : BTreeMap RepositoryAssignment) : BTreeMap RepositoryAssignment :=
  foldl (λ out x, if follows_default desired quarantined default_blocked x.1 x.2
                  then <[x.1 := default]> out else out)
    node_deployments (bt_iter node_groups).

(** The durable pins of quarantined groups, the reserved key excepted. *)
Definition restore_held (held admitted : BTreeMap AdmittedDeployment) : BTreeMap AdmittedDeployment :=
  foldl (λ admitted x, if bool_decide (x.1 = DEFAULT_GROUP) then admitted else <[x.1 := x.2]> admitted)
    admitted (bt_iter held).

(** The default's body, recorded under the reserved key as a group's is. *)
Definition record_default (default : RepositoryAssignment) (default_identity : option string)
    (default_blocked : bool) (admitted : BTreeMap AdmittedDeployment) : BTreeMap AdmittedDeployment :=
  if default_blocked then admitted
  else match default_identity with
  | None => admitted
  | Some identity =>
      match admitted !! DEFAULT_GROUP with
      | None => <[DEFAULT_GROUP := mkAdmitted default []]> admitted
      | Some state =>
          if bool_decide (deployment_identity (ad_current state) = Some identity) then admitted
          else
            let superseded := ad_current state in
            let previous := if bool_decide (superseded ∈ ad_previous state) then ad_previous state
                            else superseded :: ad_previous state in
            <[DEFAULT_GROUP := mkAdmitted default previous]> admitted
      end
  end.

Definition placed_deployment (assigned : option string) (bodies : gmap string RepositoryAssignment)
    : option RepositoryAssignment :=
  id ← assigned; bodies !! id.

(** ** The carry-forward *)

Section carry.
Context (desired : DesiredState) (observed : ObservedState) (quarantined : BTreeMap string)
  (default : RepositoryAssignment) (default_blocked : bool)
  (admitted : BTreeMap AdmittedDeployment) (bodies : gmap string RepositoryAssignment).

(** The last routing a node is carried on, when its group cannot be planned. *)
Definition last_routing (planned : bool) (node group : string) : option string :=
  last ← ob_routing observed !! node;
  if negb planned
     || (bool_decide (group = DEFAULT_GROUP)
         && option_some_and (λ selector : BTreeMap string, bool_decide (selector = ∅))
              (de_quarantined desired !! last))
  then Some last else None.

(** The node is frozen on exactly the body its recorded assignment names. *)
Definition frozen_on (node last : string) : bool :=
  contains_key node quarantined
  || bool_decide (node ∈ de_holds desired)
  || (default_blocked && bool_decide (last = DEFAULT_GROUP))
  || (negb (bool_decide (last = DEFAULT_GROUP)) && contains_key last admitted).

Definition carried (planned : bool) (node group : string)
    : PlanError + option (string * RepositoryAssignment) :=
  match last_routing planned node group with
  | Some last =>
      if frozen_on node last then
        deployment ← ok_or (placed_deployment (ob_assignments observed !! node) bodies)
                       (UnknownPlacement node last);
        inr (Some (last, deployment))
      else if bool_decide (last = DEFAULT_GROUP) then inr (Some (last, default))
      else inr None
  | None => inr None
  end.

Abbreviation Generation := (BTreeMap RepositoryAssignment * BTreeMap string)%type.

(** One node: the deployments handed out and the routing published. *)
Definition carry_node (acc : Generation) (x : string * string) : PlanError + Generation :=
  let '(node_deployments, published_nodes) := acc in
  let '(node, group) := x in
  c ← carried (contains_key node node_deployments) node group;
  inr (match c with
       | Some (last, deployment) =>
           (<[node := deployment]> node_deployments, <[node := last]> published_nodes)
       | None =>
           if contains_key node node_deployments
           then (node_deployments, <[node := group]> published_nodes) else acc
       end).

Fixpoint carry_nodes (l : list (string * string)) (acc : Generation) : PlanError + Generation :=
  match l with
  | [] => inr acc
  | x :: l => acc ← carry_node acc x; carry_nodes l acc
  end.

End carry.

Definition dropped (observed : ObservedState) (node_groups published_nodes : BTreeMap string)
    : list string :=
  filter (λ node, is_Some (node_groups !! node) ∧ published_nodes !! node = None)
    (bt_keys (ob_routing observed)).

Definition input_snapshots (groups : BTreeMap ResolvedGroup) : BTreeMap FileSnapshot :=
  foldl (λ acc x, <[x.1 := x.2]> acc) ∅
    (omap (λ g, (λ snapshot, (is_generation (mr_inputs (ra_runtime (gr_deployment g))), snapshot))
                  <$> gr_input_snapshot g) (bt_values groups)).

(** ** The pass *)

Definition input_resolution (desired : DesiredState) (observed : ObservedState)
    (node_groups : BTreeMap string) (verified : VerifiedReports) : InputResolution :=
  mkInputResolution node_groups (ob_reports observed) (ob_outputs observed) (ob_public_keys observed)
    verified (de_cordons desired) (timestamp_millis (ob_now observed) (ob_millis observed))
    (ob_dataflow_key observed).

Definition rollout_inputs (desired : DesiredState) (observed : ObservedState)
    (groups : BTreeMap ResolvedGroup) (node_groups : BTreeMap string) (default : RepositoryAssignment)
    : RolloutInputs :=
  mkRolloutInputs groups (de_group_labels desired) node_groups (ob_reports observed)
    (ob_public_keys observed) (ob_assignments observed) (de_held desired) (de_holds desired)
    (de_cordons desired) (de_blocked_deployments desired) default.

(** After the planner: the generation its plan is compiled to. *)
Definition compile (desired : DesiredState) (observed : ObservedState)
    (groups : BTreeMap ResolvedGroup) (node_groups : BTreeMap string) (default : RepositoryAssignment)
    (rollout : RolloutPlan) (st : durable) : option (PlanError + ReconcilePlan) :=
  let default_identity := deployment_identity default in
  let default_blocked :=
    option_some_and (λ identity, bool_decide (identity ∈ rp_blocked rollout)) default_identity in
  quarantined ← quarantined_nodes desired node_groups (de_nodes desired);
  let node_deployments :=
    hand_default desired quarantined default_blocked default node_groups (rp_node_deployments rollout) in
  let admitted := restore_held (de_held desired) (du_admitted st) in
  let admitted := record_default default default_identity default_blocked admitted in
  let bodies := bodies_by_identity (bt_values admitted) in
  match carry_nodes desired observed quarantined default default_blocked admitted bodies
          (bt_iter node_groups) (node_deployments, ∅) with
  | inl e => Some (inl e)
  | inr (node_deployments, published_nodes) =>
      if negb (bool_decide (dropped observed node_groups published_nodes = []))
      then Some (inl (RoutingLoss (dropped observed node_groups published_nodes)))
      else
        r ← build_publication_plan (de_repository desired) published_nodes node_deployments;
        match r with
        | inl e => Some (inl e)
        | inr publication =>
            Some (inr (mkReconcilePlan publication (gr_deployment <$> groups) (rp_blocked rollout)
                         (input_snapshots groups) admitted (du_vetoed st)
                         (pp_node_groups publication) (pp_node_assignments publication)
                         (rp_sets rollout) (rp_groups rollout) (rp_node_counts rollout)
                         (rp_halted_groups rollout)))
        end
  end.

(** The checks that precede any verification. *)
Definition validated_routing (desired : DesiredState) : option (PlanError + BTreeMap string) :=
  valid ← validate_dependency_graph (de_groups desired) (dom (de_quarantined desired));
  Some (_ ← valid; resolve_node_groups (bt_values (de_groups desired)) (de_nodes desired)).

(** [plan_reconcile]: the verdict, and the observation log and verification cache as the call
    leaves them, which an error does not roll back. *)
Definition plan_reconcile (desired : DesiredState) (observed : ObservedState)
    (attempts : ObservationLog) (verified : VerifiedReports)
    : option ((PlanError + ReconcilePlan) * (ObservationLog * VerifiedReports)) :=
  routing ← validated_routing desired;
  match routing with
  | inl e => Some (inl e, (attempts, verified))
  | inr node_groups =>
      let verified := verify_fleet (ob_reports observed) (ob_public_keys observed) verified in
      groups ← resolve_group_inputs (input_resolution desired observed node_groups verified)
                 (de_groups desired);
      match deployment_try_from (rs_default_deployment (de_repository desired)) with
      | inl e => Some (inl (InvalidDeployment e), (attempts, verified))
      | inr default =>
          '(rollout, st) ← plan_rollouts (de_sets desired)
              (rollout_inputs desired observed groups node_groups default)
              (mkDurable (ob_admitted observed) (ob_vetoed observed) attempts verified)
              (ob_now observed) (ob_millis observed);
          r ← compile desired observed groups node_groups default rollout st;
          Some (r, (du_observed st, du_verified st))
      end
  end.

(** What the controller promises of the inventory it plans from. *)
Record sound_inventory (desired : DesiredState) (admitted : BTreeMap AdmittedDeployment) : Prop := {
  si_keyed : ∀ name g, de_groups desired !! name = Some g → gr_name g = name;
  si_disjoint : ∀ name, is_Some (de_quarantined desired !! name) → de_groups desired !! name = None;
  si_held : ∀ name, is_Some (de_held desired !! name) → is_Some (de_quarantined desired !! name);
  si_pinned : ∀ name state, de_held desired !! name = Some state → admitted !! name = Some state;
}.

End reconcile.
