(* ===== verification/Inventory.v ===== *)
(** * Inventory: from the cluster's resources to the planner's inputs

    Models the part of [reconcile_once] ([updatec/src/runtime/reconcile.rs]) that decides what
    the planner sees: each [UpdateGroup] is planned or quarantined with a reason and its durable
    pin, dependency violations quarantine the groups they name, malformed agents leave the
    inventory, and holds, cordons and pinned keys are read off the agents.  Status patches are
    recorded in the order they are sent; a patch the API server refuses ends the pass before
    anything is planned. *)
From S2P Require Import Prelude Identity Maps Releases Dataflow Telemetry Window Rollout Assign.
From S2P Require Import Retention Regression Admission Plan Assignment Groups GroupGraph GroupRouting.
From S2P Require Import Publication Inputs Reconcile.

(** ** Pinned keys *)

Definition hex_digit (c : ascii) : option N :=
  let n := N_of_ascii c in
  if is_ascii_digit c then Some (n - 48)%N
  else if byte_in 97 102 c then Some (n - 87)%N
  else if byte_in 65 70 c then Some (n - 55)%N
  else None.

(** [hex::decode], which takes either case. *)
Fixpoint hex_decode (s : string) : option string :=
  match s with
  | EmptyString => Some EmptyString
  | String a (String b rest) =>
      high ← hex_digit a;
      low ← hex_digit b;
      decoded ← hex_decode rest;
      Some (String (ascii_of_N (16 * high + low)) decoded)
  | String _ EmptyString => None
  end.

Definition hex_char (n : N) : ascii := ascii_of_N (if (n <? 10)%N then 48 + n else 87 + n).

Fixpoint hex_encode (s : string) : string :=
  match s with
  | EmptyString => EmptyString
  | String c rest =>
      let n := N_of_ascii c in
      String (hex_char (n / 16)) (String (hex_char (n mod 16)) (hex_encode rest))
  end.

Inductive P256KeyError : Type :=
| NotCanonicalHex
| NotUncompressedPoint (len : nat)
| NotOnCurve.

(** AWS-LC's point parser, and the key it admits. *)
Class Curve `{!ReportParts} `{!Semver} `{!Signed} : Type := {
  parse_point : string → option P256PublicKey;
}.

(** ** Resources *)

Inductive AgentIdentityKind : Type := Manual | Reserved | Enrolled.

Record AgentIdentity : Type := mkAgentIdentity {
  ai_kind : AgentIdentityKind;
  ai_registration_sha256 : option string;
  ai_public_key : option string;
}.

(** An [UpdateAgent] of the repository: its name and the fields the controller reads. *)
Record UpdateAgent : Type := mkUpdateAgent {
  ua_name : string;
  ua_identity : AgentIdentity;
  ua_labels : BTreeMap string;
  ua_hold : bool;
  ua_cordon : bool;
}.

(** An [UpdateGroup]: its name, metadata labels and specification. *)
Record UpdateGroup : Type := mkUpdateGroup {
  ug_name : string;
  ug_labels : BTreeMap string;
  ug_repository : string;
  ug_selector : BTreeMap string;
  ug_depends_on : list string;
  ug_inputs : BTreeMap GroupOutputReference;
  ug_deployment : DeploymentSpec;
  ug_max_unavailable : option nat;
  ug_emergency_correction : bool;
}.

(** Why a group was quarantined, as its status says it. *)
Inductive GroupRefusal : Type :=
| RReservedName
| REmptySelector
| RInvalidDeployment (e : ContractError)
| RInvalidMaxUnavailable
| RInvalidDependencies (v : Violation).

Inductive AgentRefusal : Type := RInvalidIdentity | RInvalidName.

Section inventory.
Context `{!ReportParts} `{!Semver} `{!Signed} `{!Chrono} `{!Curve}.
Context `{!JsonValues} `{!Sha256} `{!SemverOrder} `{!Urls} `{!AssignmentJson}.
Context `{!Base64} `{!Hmac} `{!DataflowJson} `{!Serde AgentDocument}.

Definition from_point (point : string) : P256KeyError + P256PublicKey :=
  match point with
  | String first rest =>
      if (String.length point =? 65)%nat && bool_decide (N_of_ascii first = 4%N)
         && negb (string_forallb (λ c, bool_decide (c = Ascii.zero)) rest)
      then ok_or (parse_point point) NotOnCurve
      else inl (NotUncompressedPoint (String.length point))
  | EmptyString => inl (NotUncompressedPoint 0)
  end.

Definition parse_hex (encoded : string) : P256KeyError + P256PublicKey :=
  point ← ok_or (hex_decode encoded) NotCanonicalHex;
  _ ← demand (bool_decide (hex_encode point = encoded)) NotCanonicalHex;
  from_point point.

Definition node_object_digest (node : string) : string := sha256_bytes node.

(** [AgentIdentity::is_well_formed_for] *)
Definition is_well_formed_for (i : AgentIdentity) (node : string) : bool :=
  let public_key_is_valid := option_some_and (λ encoded, succeeds (parse_hex encoded)) (ai_public_key i) in
  match ai_kind i with
  | Manual => bool_decide (ai_registration_sha256 i = None) && public_key_is_valid
  | Reserved => bool_decide (ai_registration_sha256 i = None) && bool_decide (ai_public_key i = None)
  | Enrolled =>
      option_some_and (λ digest, bool_decide (digest = node_object_digest node)) (ai_registration_sha256 i)
      && public_key_is_valid
  end.

(** ** Groups *)

(** What the loops over the groups build. *)
Record GroupInventory : Type := mkGroupInventory {
  gi_groups : BTreeMap ResolvedGroup;
  gi_group_labels : BTreeMap (BTreeMap string);
  gi_quarantined : BTreeMap (BTreeMap string);
  gi_held : BTreeMap AdmittedDeployment;
  gi_patches : list (string * GroupRefusal);
}.

(** [quarantine_invalid_group] *)
Definition quarantine_invalid_group (admitted : BTreeMap AdmittedDeployment) (group : UpdateGroup)
    (reason : GroupRefusal) (i : GroupInventory) : GroupInventory :=
  let name := ug_name group in
  mkGroupInventory (gi_groups i) (gi_group_labels i)
    (<[name := ug_selector group]> (gi_quarantined i))
    (match admitted !! name with Some state => <[name := state]> (gi_held i) | None => gi_held i end)
    (gi_patches i ++ [(name, reason)]).

(** The checks of one group, in order, and the planner's view of it. *)
Definition resolved_group (group : UpdateGroup) : GroupRefusal + ResolvedGroup :=
  _ ← demand (negb (bool_decide (ug_name group = DEFAULT_GROUP))) RReservedName;
  _ ← demand (negb (bool_decide (ug_selector group = ∅))) REmptySelector;
  deployment ← map_err RInvalidDeployment (deployment_try_from (ug_deployment group));
  max_unavailable ← (match ug_max_unavailable group with
                     | Some O => inl RInvalidMaxUnavailable
                     | value => inr (default 1%nat value)
                     end);
  inr (mkResolvedGroup (ug_name group) (ug_selector group) (ug_depends_on group) (ug_inputs group)
         None (deployment : RepositoryAssignment) max_unavailable (ug_emergency_correction group)).

Definition take_group (admitted : BTreeMap AdmittedDeployment) (i : GroupInventory)
    (group : UpdateGroup) : GroupInventory :=
  match resolved_group group with
  | inl reason => quarantine_invalid_group admitted group reason i
  | inr resolved =>
      mkGroupInventory (<[ug_name group := resolved]> (gi_groups i))
        (<[ug_name group := ug_labels group]> (gi_group_labels i))
        (gi_quarantined i) (gi_held i) (gi_patches i)
  end.

(** One dependency violation: the group it names leaves the plan. *)
Definition refuse_dependencies (admitted : BTreeMap AdmittedDeployment) (resources : list UpdateGroup)
    (i : GroupInventory) (x : string * Violation) : GroupInventory :=
  match list_find (λ group, ug_name group = x.1) resources with
  | None => i
  | Some (_, group) =>
      let i := quarantine_invalid_group admitted group (RInvalidDependencies x.2) i in
      mkGroupInventory (delete x.1 (gi_groups i)) (delete x.1 (gi_group_labels i))
        (gi_quarantined i) (gi_held i) (gi_patches i)
  end.

(** The groups of one repository; [None] is the panic of an unclassified violation. *)
Definition take_groups (admitted : BTreeMap AdmittedDeployment) (resources : list UpdateGroup)
    : option GroupInventory :=
  let i := foldl (take_group admitted) (mkGroupInventory ∅ ∅ ∅ ∅ []) resources in
  violations ← dependency_violations (gi_groups i) (dom (gi_quarantined i));
  Some (foldl (refuse_dependencies admitted resources) i (bt_iter violations)).

(** ** Agents *)

Definition agent_refusal (agent : UpdateAgent) : option AgentRefusal :=
  if negb (is_well_formed_for (ua_identity agent) (ua_name agent)) then Some RInvalidIdentity
  else if negb (is_dns_subdomain (ua_name agent)) then Some RInvalidName
  else None.

Definition quarantine_patches (agents : list UpdateAgent) : list (string * AgentRefusal) :=
  omap (λ agent, (λ reason, (ua_name agent, reason)) <$> agent_refusal agent) agents.

(** The agents no patch of this pass names. *)
Definition retained_agents (agents : list UpdateAgent) : list UpdateAgent :=
  filter (λ agent, ua_name agent ∉ (quarantine_patches agents).*1) agents.

Definition resolved_nodes (agents : list UpdateAgent) : list ResolvedNode :=
  (λ agent, mkResolvedNode (ua_name agent) (ua_labels agent)) <$> agents.

Definition names_where (p : UpdateAgent → bool) (agents : list UpdateAgent) : BTreeSet :=
  list_to_set (ua_name <$> filter (λ agent, p agent = true) agents).

Definition public_keys (agents : list UpdateAgent) : gmap string P256PublicKey :=
  foldl (λ keys agent,
    match (encoded ← ai_public_key (ua_identity agent); ok_of (parse_hex encoded)) with
    | Some key => <[ua_name agent := key]> keys
    | None => keys
    end) ∅ agents.

(** The [DesiredState] of one pass: cordons are read before the quarantine, holds after it. *)
Definition desired_state (repository_name : string) (repository : UpdateRepositorySpec)
    (sets : list UpdateGroupSet) (groups : list UpdateGroup) (agents : list UpdateAgent)
    (blocked : BTreeSet) (admitted : BTreeMap AdmittedDeployment) : option DesiredState :=
  let cordons := names_where ua_cordon agents in
  let resources := filter (λ group, ug_repository group = repository_name) groups in
  i ← take_groups admitted resources;
  let agents := retained_agents agents in
  Some (mkDesiredState repository (gi_groups i) (gi_group_labels i) sets (resolved_nodes agents)
          (gi_quarantined i) (names_where ua_hold agents) cordons blocked (gi_held i)).

(** ** Every group is planned or quarantined *)

Section groups.
Context (admitted : BTreeMap AdmittedDeployment).

Definition find_group (resources : list UpdateGroup) (name : string) : option UpdateGroup :=
  snd <$> list_find (λ group, ug_name group = name) resources.

Lemma find_group_Some resources name group :
  find_group resources name = Some group → group ∈ resources ∧ ug_name group = name.
Proof.
  unfold find_group. intros ([n g] & (Hl & Hn & _)%list_find_Some & ->)%fmap_Some.
  split; [by eapply list_elem_of_lookup_2|done].
Qed.

Lemma find_group_unique resources group :
  NoDup (ug_name <$> resources) → group ∈ resources → find_group resources (ug_name group) = Some group.
Proof.
  intros Hnd Hin. destruct (find_group resources (ug_name group)) as [g|] eqn:Hf.
  - apply find_group_Some in Hf as [Hg Hn]. f_equal.
    apply list_elem_of_lookup_1 in Hin as [i Hi]. apply list_elem_of_lookup_1 in Hg as [j Hj].
    assert (i = j) as ->; [|congruence].
    eapply (NoDup_lookup _ _ _ (ug_name group)); [exact Hnd| |].
    + by rewrite list_lookup_fmap, Hi.
    + rewrite list_lookup_fmap, Hj. simpl. by rewrite Hn.
  - unfold find_group in Hf. apply fmap_None, list_find_None in Hf.
    rewrite Forall_forall in Hf. by destruct (Hf group Hin).
Qed.

Lemma find_group_snoc resources group name :
  ug_name group ∉ ug_name <$> resources →
  find_group (resources ++ [group]) name =
  if decide (name = ug_name group) then Some group else find_group resources name.
Proof.
  intros Hn. unfold find_group. induction resources as [|g resources IH]; simpl.
  { destruct (decide (ug_name group = name)) as [->|Hne]; [by rewrite decide_True|].
    by rewrite decide_False. }
  apply not_elem_of_cons in Hn as [Hg Hn]. destruct (decide (ug_name g = name)) as [<-|Hne]; simpl.
  - by rewrite decide_False.
  - specialize (IH Hn). destruct (decide (name = ug_name group)) as [->|Hne'].
    + by destruct (list_find _ (resources ++ _)) as [[? ?]|].
    + by destruct (list_find _ (resources ++ _)) as [[? ?]|], (list_find _ resources) as [[? ?]|].
Qed.

(** How one group stands in the inventory. *)
Definition stands (i : GroupInventory) (name : string) (plan : option (UpdateGroup * option ResolvedGroup)) : Prop :=
  match plan with
  | Some (group, Some resolved) =>
      gi_groups i !! name = Some resolved ∧ gi_group_labels i !! name = Some (ug_labels group)
      ∧ gi_quarantined i !! name = None
  | Some (group, None) =>
      gi_groups i !! name = None ∧ gi_group_labels i !! name = None
      ∧ gi_quarantined i !! name = Some (ug_selector group)
  | None => gi_groups i !! name = None ∧ gi_group_labels i !! name = None ∧ gi_quarantined i !! name = None
  end.

Definition pins (i : GroupInventory) : Prop :=
  ∀ name, gi_held i !! name = match gi_quarantined i !! name with Some _ => admitted !! name | None => None end.

Lemma quarantine_pins group reason i :
  pins i → pins (quarantine_invalid_group admitted group reason i).
Proof.
  intros Hp name. specialize (Hp name). simpl. destruct (decide (name = ug_name group)) as [->|Hne].
  - rewrite lookup_insert_eq. destruct (admitted !! ug_name group) eqn:Ha; [by rewrite lookup_insert_eq|].
    rewrite Hp. by destruct (gi_quarantined i !! ug_name group).
  - rewrite lookup_insert_ne by done. destruct (admitted !! ug_name group); [by rewrite lookup_insert_ne|done].
Qed.

Lemma take_group_stands i group name plan :
  stands i name plan → name ≠ ug_name group → stands (take_group admitted i group) name plan.
Proof.
  intros Hs Hne. unfold take_group. destruct (resolved_group group); unfold stands in *; simpl;
    rewrite !lookup_insert_ne by done; done.
Qed.

Lemma take_group_own i group :
  stands i (ug_name group) None →
  stands (take_group admitted i group) (ug_name group) (Some (group, ok_of (resolved_group group))).
Proof.
  intros (Hg & Hl & Hq). unfold take_group. destruct (resolved_group group); simpl;
    rewrite !lookup_insert_eq; done.
Qed.

Definition taken (resources : list UpdateGroup) (i : GroupInventory) : Prop :=
  (∀ name, stands i name ((λ group, (group, ok_of (resolved_group group))) <$> find_group resources name))
  ∧ pins i.

Lemma foldl_taken resources :
  NoDup (ug_name <$> resources) →
  taken resources (foldl (take_group admitted) (mkGroupInventory ∅ ∅ ∅ ∅ []) resources).
Proof.
  induction resources as [|group resources IH] using rev_ind; intros Hnd; [done|].
  rewrite fmap_app, NoDup_app in Hnd. destruct Hnd as (Hnd & Hdis & _). specialize (IH Hnd) as [Hs Hp].
  assert (ug_name group ∉ ug_name <$> resources) as Hn.
  { intros Hin. apply (Hdis _ Hin). simpl. constructor. }
  rewrite foldl_app. simpl. set (i := foldl _ _ resources) in *. split.
  - intros name. rewrite find_group_snoc by done. specialize (Hs name). destruct (decide _) as [->|Hne].
    + apply take_group_own. destruct (find_group resources (ug_name group)) eqn:Hf; [exfalso|done].
      apply find_group_Some in Hf as [Hin Heq]. apply Hn. rewrite <-Heq. by apply list_elem_of_fmap_2.
    + by apply take_group_stands.
  - unfold take_group. destruct (resolved_group group); [by apply quarantine_pins|exact Hp].
Qed.

(** The violations quarantine the groups they name, and no other. *)
Lemma refuse_stands resources l : ∀ i,
  (∀ x, x ∈ l → is_Some (find_group resources x.1)) → pins i →
  let i' := foldl (refuse_dependencies admitted resources) i l in
  pins i' ∧ ∀ name,
    if decide (name ∈ l.*1)
    then ∃ group, find_group resources name = Some group ∧ stands i' name (Some (group, None))
    else ∀ plan, stands i name plan → stands i' name plan.
Proof.
  induction l as [|x l IH] using rev_ind; intros i Hl Hp; cbv zeta.
  { split; [done|]. intros name. rewrite decide_False by apply not_elem_of_nil. auto. }
  destruct (IH i) as [Hp' Hs']; [intros; apply Hl, elem_of_app; by left|done|]. rewrite foldl_app. cbn [foldl].
  set (i' := foldl _ i l) in *.
  destruct (Hl x) as [group Hg]; [apply elem_of_app; right; constructor|].
  pose proof Hg as [_ Hn]%find_group_Some.
  unfold refuse_dependencies. pose proof Hg as Hf. unfold find_group in Hf.
  destruct (list_find _ resources) as [[n g]|]; [|done]. simpl in Hf. injection Hf as ->. rewrite <-Hn.
  split; [by apply (quarantine_pins group (RInvalidDependencies x.2)) in Hp'|]. intros name. specialize (Hs' name).
  destruct (decide (name = ug_name group)) as [->|Hne].
  - rewrite decide_True by (rewrite fmap_app, Hn; apply elem_of_app; right; constructor).
    exists group. rewrite Hn. split; [done|]. simpl. by rewrite Hn, !lookup_delete_eq, lookup_insert_eq.
  - destruct (decide (name ∈ (l ++ [x]).*1)) as [Hin|Hin].
    + rewrite decide_True in Hs'.
      * destruct Hs' as (group' & ? & ?). exists group'. split; [done|]. unfold stands in *. simpl.
        by rewrite !lookup_delete_ne, lookup_insert_ne by done.
      * rewrite fmap_app, elem_of_app in Hin. destruct Hin as [?|Hin]; [done|].
        apply list_elem_of_singleton in Hin. congruence.
    + rewrite decide_False in Hs' by (intros ?; apply Hin; rewrite fmap_app; apply elem_of_app; by left).
      intros plan Hst%Hs'. unfold stands in *. simpl.
      rewrite !lookup_delete_ne, lookup_insert_ne by done. done.
Qed.

(** The whole loop: a group stays planned unless a check or the wiring refuses it. *)
Lemma take_groups_spec resources :
  NoDup (ug_name <$> resources) →
  ∃ i (violations : BTreeMap Violation), take_groups admitted resources = Some i ∧ pins i
    ∧ (∀ name, stands i name
         (group ← find_group resources name;
          Some (group, if contains_key name violations then None else ok_of (resolved_group group))))
    ∧ (∀ name, is_Some (violations !! name) →
         ∃ group, find_group resources name = Some group ∧ succeeds (resolved_group group) = true)
    ∧ validate_dependency_graph (gi_groups i) (dom (gi_quarantined i)) = Some (inr tt).
Proof.
  intros Hnd. destruct (foldl_taken resources Hnd) as [Hs Hp]. unfold take_groups.
  set (i := foldl _ _ resources) in *.
  destruct (dependency_violations_spec (gi_groups i) (dom (gi_quarantined i))) as (vs & -> & Hvs & Hok).
  cbn [mbind option_bind].
  assert (∀ name, is_Some (vs !! name) →
    ∃ group, find_group resources name = Some group ∧ succeeds (resolved_group group) = true) as Hnamed.
  { intros name [v Hv]. destruct (Hvs name v Hv) as [_ [g Hg]]. specialize (Hs name).
    destruct (find_group resources name) as [group|]; [|by destruct Hs as [? _]; congruence]. exists group. split; [done|].
    simpl in Hs. destruct (resolved_group group); [by destruct Hs as [? _]; congruence|done]. }
  destruct (refuse_stands resources (bt_iter vs) i) as [Hp' Hs']; [|done|].
  { intros [name v] Hin%elem_of_bt_iter. cbn [fst]. destruct (Hnamed name) as (group & -> & _); [by eexists|by eexists]. }
  set (i' := foldl _ i (bt_iter vs)) in *.
  assert (∀ name, stands i' name (group ← find_group resources name;
    Some (group, if contains_key name vs then None else ok_of (resolved_group group)))) as Hall.
  { intros name. specialize (Hs name). specialize (Hs' name). destruct (contains_key name vs) eqn:Hc.
    - rewrite contains_key_true in Hc. rewrite decide_True in Hs' by by apply elem_of_bt_keys.
      destruct Hs' as (group & -> & ?). done.
    - rewrite contains_key_false in Hc. rewrite decide_False in Hs'
        by (intros [? ?]%elem_of_bt_keys; congruence).
      destruct (find_group resources name); by apply Hs'. }
  exists i', vs. split_and!; [done|done|done|done|].
  assert (gi_groups i' = filter (λ x : string * ResolvedGroup, vs !! x.1 = None) (gi_groups i)) as ->.
  { apply map_eq. intros name. apply option_eq. intros g. rewrite map_lookup_filter_Some. cbn [fst].
    specialize (Hs name). specialize (Hall name). unfold contains_key in Hall.
    destruct (find_group resources name) as [group|]; simpl in *.
    - destruct (vs !! name) as [v|] eqn:Hv; simpl in Hall; [destruct Hall as [-> _]; naive_solver|].
      destruct (resolved_group group); simpl in *; destruct Hall as [-> _], Hs as [-> _]; naive_solver.
    - destruct Hall as [-> _], Hs as [-> _]. naive_solver. }
  assert (dom (gi_quarantined i') = dom (gi_quarantined i) ∪ dom vs) as ->; [|done].
  apply set_eq. intros name. rewrite elem_of_union, !elem_of_dom. specialize (Hs name). specialize (Hall name).
  specialize (Hnamed name). unfold contains_key in Hall.
  destruct (find_group resources name) as [group|]; simpl in *.
  - destruct (vs !! name) as [v|] eqn:Hv; simpl in Hall.
    + destruct Hall as (_ & _ & ->). split; [intros _; right; by eexists|by eexists].
    + destruct (resolved_group group); simpl in *; destruct Hall as (_ & _ & ->), Hs as (_ & _ & ->);
        split; [by left|intros [?|[? ?]]; done|by left|intros [?|[? ?]]; done].
  - destruct Hall as (_ & _ & ->), Hs as (_ & _ & ->). split; [by left|].
    intros [?|Hv]; [done|]. by destruct (Hnamed Hv) as (? & ? & _).
Qed.

End groups.

(** ** What the planner is given *)

Lemma resolved_group_ok group resolved :
  resolved_group group = inr resolved →
  gr_name resolved = ug_name group ∧ gr_name resolved ≠ DEFAULT_GROUP ∧ gr_match_labels resolved ≠ ∅.
Proof.
  unfold resolved_group. intros Hr. sum_inv. bool_to_prop. destruct (ug_max_unavailable group) as [[|?]|]; sum_inv; done.
Qed.

Lemma resolved_group_selector group resolved :
  resolved_group group = inr resolved → gr_match_labels resolved = ug_selector group.
Proof.
  unfold resolved_group. intros Hr. sum_inv. destruct (ug_max_unavailable group) as [[|?]|]; sum_inv; done.
Qed.

Lemma retained_agents_ok agents agent :
  agent ∈ retained_agents agents → agent ∈ agents ∧ agent_refusal agent = None.
Proof.
  unfold retained_agents. intros [Hn Hin]%list_elem_of_filter. split; [done|].
  destruct (agent_refusal agent) as [r|] eqn:Hr; [exfalso; apply Hn|done].
  apply list_elem_of_fmap. exists (ua_name agent, r). split; [done|]. apply list_elem_of_omap. exists agent. by rewrite Hr.
Qed.

Lemma NoDup_fmap_filter {A} (f : A → string) (P : A → Prop) `{!∀ x, Decision (P x)} l :
  NoDup (f <$> l) → NoDup (f <$> filter P l).
Proof.
  induction l as [|x l IH]; simpl; [done|]. rewrite filter_cons. intros [Hx Hl]%NoDup_cons.
  destruct (decide (P x)); [|auto]. simpl. apply NoDup_cons. split; [|auto].
  intros (y & Hy & [_ Hin]%list_elem_of_filter)%list_elem_of_fmap. apply Hx. rewrite Hy. by apply list_elem_of_fmap_2.
Qed.

(** What the planner may rely on. *)
Record inventory_sound (desired : DesiredState) (admitted : BTreeMap AdmittedDeployment) : Prop := {
  is_sound : sound_inventory desired admitted;
  is_graph : validate_dependency_graph (de_groups desired) (dom (de_quarantined desired)) = Some (inr tt);
  is_plannable : plannable (bt_values (de_groups desired));
  is_unique : NoDup (rn_name <$> de_nodes desired);
  is_named : ∀ node, node ∈ de_nodes desired → is_dns_subdomain (rn_name node) = true;
}.

Lemma plannable_keyed (groups : BTreeMap ResolvedGroup) :
  (∀ name g, groups !! name = Some g → gr_name g = name ∧ gr_name g ≠ DEFAULT_GROUP ∧ gr_match_labels g ≠ ∅) →
  plannable (bt_values groups).
Proof.
  intros Hk. split.
  - assert (gr_name <$> bt_values groups = bt_keys groups) as ->; [|apply NoDup_bt_keys].
    unfold bt_values, bt_keys. rewrite <-list_fmap_compose. apply list_fmap_ext. intros i [name g] Hi.
    apply list_elem_of_lookup_2, elem_of_bt_iter, Hk in Hi. simpl. naive_solver.
  - intros g (name & Hg)%elem_of_bt_values. destruct (Hk name g Hg) as (_ & ? & ?). done.
Qed.

Lemma desired_state_spec repository_name repository sets groups agents blocked admitted :
  NoDup (ug_name <$> groups) → NoDup (ua_name <$> agents) →
  ∃ desired, desired_state repository_name repository sets groups agents blocked admitted = Some desired
    ∧ inventory_sound desired admitted
    ∧ ∀ group, group ∈ groups → ug_repository group = repository_name →
        (∃ resolved, resolved_group group = inr resolved ∧ de_groups desired !! ug_name group = Some resolved)
        ∨ (de_groups desired !! ug_name group = None
           ∧ de_quarantined desired !! ug_name group = Some (ug_selector group)
           ∧ de_held desired !! ug_name group = admitted !! ug_name group).
Proof.
  intros Hg Ha. unfold desired_state. set (resources := filter _ groups).
  pose proof (NoDup_fmap_filter ug_name (λ group, ug_repository group = repository_name) groups Hg) as Hnd.
  fold resources in Hnd. destruct (take_groups_spec admitted resources Hnd) as (i & vs & -> & Hp & Hs & _ & Hok).
  cbn [mbind option_bind]. eexists. split; [done|]. split; [split; cbn|].
  - assert (∀ name g, gi_groups i !! name = Some g → ∃ group, find_group resources name = Some group
      ∧ gi_quarantined i !! name = None ∧ resolved_group group = inr g) as Hin.
    { intros name g Hl. specialize (Hs name). destruct (find_group resources name) as [group|]; [|by destruct Hs; congruence].
      exists group. split; [done|]. cbn in Hs. destruct (contains_key name vs); [by destruct Hs; congruence|].
      destruct (resolved_group group); simpl in Hs; destruct Hs as (? & _ & ?); [congruence|]. split; congruence. }
    split; cbn.
    + intros name g (group & [_ <-]%find_group_Some & _ & Hr)%Hin. by apply resolved_group_ok in Hr as [? _].
    + intros name [sel Hq]. destruct (gi_groups i !! name) as [g|] eqn:Hl; [|done].
      apply Hin in Hl as (? & _ & ? & _). congruence.
    + intros name Hh. rewrite Hp in Hh. destruct (gi_quarantined i !! name); [by eexists|by destruct Hh].
    + intros name state. rewrite Hp. by destruct (gi_quarantined i !! name).
  - done.
  - apply plannable_keyed. intros name g Hl. specialize (Hs name).
    destruct (find_group resources name) as [group|] eqn:Hf; [|by destruct Hs; congruence].
    apply find_group_Some in Hf as [_ <-]. cbn in Hs. destruct (contains_key _ vs); [by destruct Hs; congruence|].
    destruct (resolved_group group) as [|rg] eqn:Hr; simpl in Hs; destruct Hs as [Hl' _]; [congruence|].
    rewrite Hl in Hl'. injection Hl' as <-. by apply resolved_group_ok.
  - unfold resolved_nodes. rewrite <-list_fmap_compose. by apply (NoDup_fmap_filter ua_name).
  - intros node (agent & -> & [_ Hr]%retained_agents_ok)%list_elem_of_fmap. simpl. unfold agent_refusal in Hr.
    destruct (negb _) in Hr; [done|]. by destruct (is_dns_subdomain (ua_name agent)).
  - intros group Hin Hrep. specialize (Hs (ug_name group)).
    assert (group ∈ resources) as Hres by (by apply list_elem_of_filter).
    rewrite (find_group_unique resources group Hnd Hres) in Hs. cbn in Hs.
    destruct (contains_key _ vs); [right|destruct (resolved_group group) as [e|rg]; [right|left]].
    + destruct Hs as (? & _ & Hq). by rewrite Hp, Hq.
    + destruct Hs as (? & _ & Hq). by rewrite Hp, Hq.
    + destruct Hs as (? & _ & _). by exists rg.
Qed.

(** Everything planned is some resource's. *)
Lemma desired_state_sources repository_name repository sets groups agents blocked admitted desired :
  NoDup (ug_name <$> groups) →
  desired_state repository_name repository sets groups agents blocked admitted = Some desired →
  de_repository desired = repository
  ∧ (∀ g, g ∈ bt_values (de_groups desired) → ∃ group, group ∈ groups ∧ resolved_group group = inr g)
  ∧ ∀ node, node ∈ de_nodes desired →
      ∃ agent, agent ∈ agents ∧ rn_name node = ua_name agent ∧ rn_labels node = ua_labels agent.
Proof.
  intros Hg. unfold desired_state. set (resources := filter _ groups).
  pose proof (NoDup_fmap_filter ug_name (λ group, ug_repository group = repository_name) groups Hg) as Hnd.
  fold resources in Hnd. destruct (take_groups_spec admitted resources Hnd) as (i & vs & -> & _ & Hs & _).
  cbn [mbind option_bind]. intros [= <-]. cbn. split_and!; [done| |].
  - intros g (name & Hl)%elem_of_bt_values. specialize (Hs name).
    destruct (find_group resources name) as [group|] eqn:Hf; [|by destruct Hs; congruence].
    apply find_group_Some in Hf as [[_ Hin]%list_elem_of_filter _]. exists group. split; [done|].
    cbn in Hs. destruct (contains_key name vs); [by destruct Hs; congruence|].
    destruct (resolved_group group) as [|rg]; simpl in Hs; destruct Hs as [Hl' _]; congruence.
  - intros node (agent & -> & [Hin _]%retained_agents_ok)%list_elem_of_fmap. by exists agent.
Qed.

(** C37. One bad resource cannot stop the fleet.  Whatever the cluster's groups and agents say, as
    long as their names are unique, the pass builds an inventory without panicking: every group of
    the repository is planned as its specification resolves or quarantined under its own selector
    with its durable pin, and the inventory satisfies everything the planner validates: a wired
    acyclic graph, named non-empty selectors, and distinct well-named nodes. *)
Theorem inventory_isolates_each_resource repository_name repository sets groups agents blocked admitted :
  NoDup (ug_name <$> groups) → NoDup (ua_name <$> agents) →
  ∃ desired, desired_state repository_name repository sets groups agents blocked admitted = Some desired
    ∧ inventory_sound desired admitted
    ∧ ∀ group, group ∈ groups → ug_repository group = repository_name →
        (∃ resolved, resolved_group group = inr resolved ∧ de_groups desired !! ug_name group = Some resolved)
        ∨ (de_groups desired !! ug_name group = None
           ∧ de_quarantined desired !! ug_name group = Some (ug_selector group)
           ∧ de_held desired !! ug_name group = admitted !! ug_name group).
Proof. apply desired_state_spec. Qed.

End inventory.
