(* ===== verification/Fleet.v ===== *)
(** * Fleet: what a generation may do to the machines

    The theorems about [Reconcile.v]: the pass never panics, a generation loses no routing,
    hands no refused body to a machine not already on it and freezes held and quarantined nodes
    on their recorded bodies, and, pass after pass, the controller can always resolve the body
    every recorded assignment names. *)
From S2P Require Import Prelude Identity Maps Releases Dataflow Telemetry Window Rollout Assign.
From S2P Require Import Retention Regression Admission Plan Bodies Assignment Groups GroupGraph.
From S2P Require Import GroupRouting Publication Inputs Reconcile.

Section fleet.
Context `{!ReportParts} `{!Semver} `{!Signed} `{!Chrono}.
Context `{!JsonValues} `{!Sha256} `{!SemverOrder} `{!Urls} `{!AssignmentJson}.
Context `{!Base64} `{!Hmac} `{!DataflowJson} `{!Serde AgentDocument}.

(** ** The steps *)

(** A loop over the entries of a map that writes under the entry's own key. *)
Lemma foldl_entries {A V} (f : string * A → bool) (v : string * A → V) (l : list (string * A)) k :
  NoDup l.*1 → ∀ m : BTreeMap V,
  (∀ a, (k, a) ∈ l →
     foldl (λ acc x, if f x then <[x.1 := v x]> acc else acc) m l !! k
     = if f (k, a) then Some (v (k, a)) else m !! k)
  ∧ (k ∉ l.*1 → foldl (λ acc x, if f x then <[x.1 := v x]> acc else acc) m l !! k = m !! k).
Proof.
  induction l as [|[i b] l IH]; intros Hnd m.
  { split; [|done]. intros a Ha. by apply not_elem_of_nil in Ha. }
  rewrite fmap_cons in Hnd |- *. apply NoDup_cons in Hnd as [Hi Hnd]. cbn [foldl fst] in *.
  destruct (IH Hnd (if f (i, b) then <[i := v (i, b)]> m else m)) as [Hin Hout]. split.
  - intros a [[= -> ->]|Ha]%elem_of_cons.
    + rewrite Hout by done. destruct (f (i, b)); [by rewrite lookup_insert_eq|done].
    + rewrite (Hin a Ha). assert (k ≠ i) as Hne.
      { intros ->. apply Hi. by apply (list_elem_of_fmap_2 fst) in Ha. }
      destruct (f (i, b)); [by rewrite lookup_insert_ne|done].
  - intros [Hki Hk]%not_elem_of_cons. rewrite (Hout Hk). destruct (f (i, b)); [by rewrite lookup_insert_ne|done].
Qed.

Lemma foldl_map_lookup {A V} (f : string * A → bool) (v : string * A → V) (src : BTreeMap A) (m : BTreeMap V) k :
  foldl (λ acc x, if f x then <[x.1 := v x]> acc else acc) m (bt_iter src) !! k
  = match src !! k with Some a => if f (k, a) then Some (v (k, a)) else m !! k | None => m !! k end.
Proof.
  destruct (foldl_entries f v (bt_iter src) k (NoDup_bt_keys src) m) as [Hin Hout].
  destruct (src !! k) as [a|] eqn:Ha; [apply Hin; by apply elem_of_bt_iter|].
  apply Hout. intros Hk%elem_of_bt_keys. rewrite Ha in Hk. by destruct Hk.
Qed.

Lemma hand_default_lookup desired quarantined blocked default node_groups out node :
  hand_default desired quarantined blocked default node_groups out !! node =
  match node_groups !! node with
  | Some selected =>
      if follows_default desired quarantined blocked node selected then Some default else out !! node
  | None => out !! node
  end.
Proof.
  exact (foldl_map_lookup (λ x, follows_default desired quarantined blocked x.1 x.2)
           (λ _, default) node_groups out node).
Qed.

Lemma restore_held_lookup held admitted name :
  restore_held held admitted !! name =
  match held !! name with
  | Some state => if bool_decide (name = DEFAULT_GROUP) then admitted !! name else Some state
  | None => admitted !! name
  end.
Proof.
  unfold restore_held.
  assert (∀ l m, foldl (λ admitted x, if bool_decide (x.1 = DEFAULT_GROUP) then admitted else <[x.1 := x.2]> admitted) m l
    = foldl (λ admitted x, if negb (bool_decide (x.1 = DEFAULT_GROUP)) then <[x.1 := x.2]> admitted else admitted) m l) as ->.
  { induction l as [|x l IH]; intros m; [done|]. simpl. rewrite IH. by destruct (bool_decide _). }
  rewrite (foldl_map_lookup (λ x, negb (bool_decide (x.1 = DEFAULT_GROUP))) snd). simpl.
  destruct (held !! name); [|done]. by destruct (bool_decide _).
Qed.

(** Recording the default keeps every entry's bodies, and holds the default's. *)
Lemma record_default_keeps default id blocked admitted name state :
  admitted !! name = Some state →
  ∃ state', record_default default id blocked admitted !! name = Some state'
    ∧ ∀ d, d ∈ lineage state → d ∈ lineage state'.
Proof.
  intros Hs. unfold record_default. destruct blocked; [eauto|]. destruct id as [id|]; [|eauto].
  destruct (decide (name = DEFAULT_GROUP)) as [->|Hne].
  - rewrite Hs. case_bool_decide; [eauto|]. rewrite lookup_insert_eq. eexists. split; [done|].
    intros d Hd. unfold lineage in *. simpl. apply elem_of_cons in Hd as [->|Hd]; right; case_bool_decide; set_solver.
  - destruct (admitted !! DEFAULT_GROUP); [case_bool_decide; [eauto|]|]; rewrite lookup_insert_ne by done; eauto.
Qed.

Lemma record_default_holds default id admitted :
  deployment_identity default = Some id →
  has_body (record_default default (Some id) false admitted) id.
Proof.
  intros Hid. unfold record_default, has_body. destruct (admitted !! DEFAULT_GROUP) as [state|] eqn:Hs.
  - case_bool_decide as Hc.
    + exists DEFAULT_GROUP, state, (ad_current state). split_and!; [done|constructor|done].
    + eexists DEFAULT_GROUP, _, default. rewrite lookup_insert_eq. split_and!; [done|constructor|done].
  - eexists DEFAULT_GROUP, _, default. rewrite lookup_insert_eq. split_and!; [done|constructor|done].
Qed.

(** The carry-forward, node by node. *)
Lemma carry_nodes_spec desired observed quarantined default blocked admitted bodies l : ∀ nd pub,
  NoDup l.*1 →
  match carry_nodes desired observed quarantined default blocked admitted bodies l (nd, pub) with
  | inl e => ∃ node group, (node, group) ∈ l
      ∧ carried desired observed quarantined default blocked admitted bodies (contains_key node nd) node group = inl e
  | inr (nd', pub') =>
      (∀ node group, (node, group) ∈ l →
         match carried desired observed quarantined default blocked admitted bodies (contains_key node nd) node group with
         | inl _ => False
         | inr (Some (last, d)) => nd' !! node = Some d ∧ pub' !! node = Some last
         | inr None => nd' !! node = nd !! node
                       ∧ pub' !! node = if contains_key node nd then Some group else pub !! node
         end)
      ∧ ∀ node, node ∉ l.*1 → nd' !! node = nd !! node ∧ pub' !! node = pub !! node
  end.
Proof.
  induction l as [|[x g] l IH]; intros nd pub Hnd; cbn [carry_nodes].
  { split; [|done]. intros ? ? Hx. by apply not_elem_of_nil in Hx. }
  rewrite fmap_cons in Hnd. apply NoDup_cons in Hnd as [Hx Hnd]. cbn [fst] in Hx.
  assert (∀ y h, (y, h) ∈ l → y ≠ x) as Hother.
  { intros y h Hy ->. apply Hx. by apply (list_elem_of_fmap_2 fst) in Hy. }
  unfold carry_node. destruct (carried _ _ _ _ _ _ _ (contains_key x nd) x g) as [e|c] eqn:Hc; simpl.
  { exists x, g. split; [constructor|done]. }
  set (acc := match c with Some (last, deployment) => _ | None => _ end).
  assert (∀ y, y ≠ x → acc.1 !! y = nd !! y ∧ acc.2 !! y = pub !! y) as Hacc.
  { intros y Hy. unfold acc. destruct c as [[last d]|]; simpl; [by rewrite !lookup_insert_ne by done|].
    destruct (contains_key x nd); simpl; [by rewrite lookup_insert_ne by done|done]. }
  assert (∀ y, y ≠ x → contains_key y acc.1 = contains_key y nd) as Hck.
  { intros y Hy. unfold contains_key. by rewrite (proj1 (Hacc y Hy)). }
  specialize (IH acc.1 acc.2 Hnd). rewrite <-surjective_pairing in IH.
  destruct (carry_nodes _ _ _ _ _ _ _ l acc) as [e|[nd' pub']].
  - destruct IH as (y & h & Hy & He). exists y, h. split; [by constructor|].
    by rewrite Hck in He by by eapply Hother.
  - destruct IH as [Hin Hout]. split.
    + intros y h [[= -> ->]|Hy]%elem_of_cons.
      * rewrite Hc. destruct (Hout x Hx) as [-> ->]. unfold acc. destruct c as [[last d]|]; simpl.
        -- by rewrite !lookup_insert_eq.
        -- destruct (contains_key x nd) eqn:Hk; simpl; [by rewrite lookup_insert_eq|done].
      * pose proof (Hother y h Hy) as Hne. specialize (Hin y h Hy). rewrite Hck in Hin by done.
        destruct (carried _ _ _ _ _ _ _ _ y h) as [e|[[last d]|]]; [done|done|].
        destruct (Hacc y Hne) as [H1' H2']. by rewrite H1', H2' in Hin.
    + intros y Hy. apply not_elem_of_cons in Hy as [Hyx Hy].
      destruct (Hout y Hy) as [-> ->]. by apply Hacc.
Qed.

Lemma quarantined_nodes_spec desired node_groups nodes :
  (∀ n, n ∈ nodes → is_Some (node_groups !! rn_name n)) → NoDup (rn_name <$> nodes) →
  ∃ q, quarantined_nodes desired node_groups nodes = Some q
    ∧ (∀ n selected, n ∈ nodes → node_groups !! rn_name n = Some selected →
         q !! rn_name n = quarantined_group desired n selected)
    ∧ ∀ k, is_Some (q !! k) → k ∈ rn_name <$> nodes.
Proof.
  induction nodes as [|x nodes IH]; intros Hr Hnd; cbn [quarantined_nodes].
  { exists ∅. split_and!; [done| |by intros k [? ?]]. intros ? ? Hx. by apply not_elem_of_nil in Hx. }
  rewrite fmap_cons in Hnd |- *. apply NoDup_cons in Hnd as [Hx Hnd].
  destruct (Hr x) as [selected Hs]; [constructor|]. rewrite Hs. cbn [mbind option_bind].
  destruct IH as (q & -> & Hq & Honly); [intros; apply Hr; by constructor|done|]. cbn [mbind option_bind].
  assert (q !! rn_name x = None) as Hno.
  { apply eq_None_not_Some. intros Hin%Honly. done. }
  assert (contains_key (rn_name x) q = false) as Hck by by apply contains_key_false. rewrite Hck.
  eexists. split; [done|]. split.
  - intros n sel [->|Hn]%elem_of_cons Hsel.
    + rewrite Hs in Hsel. injection Hsel as <-.
      destruct (quarantined_group desired x selected); [by rewrite lookup_insert_eq|done].
    + rewrite <-(Hq n sel Hn Hsel). destruct (quarantined_group desired x selected); [|done].
      rewrite lookup_insert_ne; [done|]. intros Heq. apply Hx. rewrite Heq. by apply list_elem_of_fmap_2.
  - intros k. destruct (quarantined_group desired x selected).
    + rewrite lookup_insert_is_Some. intros [->|[_ Hk]]; [constructor|right; auto].
    + intros Hk. right. auto.
Qed.

(** ** One pass *)

Definition now_ms (observed : ObservedState) : N :=
  timestamp_millis (ob_now observed) (ob_millis observed).

Definition pass_verified (observed : ObservedState) (verified : VerifiedReports) : VerifiedReports :=
  verify_fleet (ob_reports observed) (ob_public_keys observed) verified.

(** The machine was last handed the identity, or its fresh authentic report acts on it. *)
Definition acts_on (observed : ObservedState) (verified : VerifiedReports) (node id : string) : Prop :=
  ob_assignments observed !! node = Some id
  ∨ ∃ envelope key report, ob_reports observed !! node = Some envelope
      ∧ ob_public_keys observed !! node = Some key
      ∧ verified_fresh (pass_verified observed (pass_verified observed verified)) node envelope key
          (now_ms observed) = Some report
      ∧ nr_assignment_sha256 report = id.

Section pass.
Context (desired : DesiredState) (observed : ObservedState) (attempts : ObservationLog)
  (verified : VerifiedReports).

(** The parts of a pass that planned. *)
Record parts : Type := mkParts {
  pa_node_groups : BTreeMap string;
  pa_groups : BTreeMap ResolvedGroup;
  pa_default : RepositoryAssignment;
  pa_rollout : RolloutPlan;
  pa_durable : durable;
  pa_quarantined : BTreeMap string;
}.

Definition pa_inputs (p : parts) : RolloutInputs :=
  rollout_inputs desired observed (pa_groups p) (pa_node_groups p) (pa_default p).

Definition pa_start : durable :=
  mkDurable (ob_admitted observed) (ob_vetoed observed) attempts (pass_verified observed verified).

Definition pa_default_blocked (p : parts) : bool :=
  option_some_and (λ id, bool_decide (id ∈ rp_blocked (pa_rollout p))) (deployment_identity (pa_default p)).

Definition pa_handed (p : parts) : BTreeMap RepositoryAssignment :=
  hand_default desired (pa_quarantined p) (pa_default_blocked p) (pa_default p) (pa_node_groups p)
    (rp_node_deployments (pa_rollout p)).

Definition pa_admitted (p : parts) : BTreeMap AdmittedDeployment :=
  record_default (pa_default p) (deployment_identity (pa_default p)) (pa_default_blocked p)
    (restore_held (de_held desired) (du_admitted (pa_durable p))).

Definition pa_carry (p : parts) (node group : string) : PlanError + option (string * RepositoryAssignment) :=
  carried desired observed (pa_quarantined p) (pa_default p) (pa_default_blocked p) (pa_admitted p)
    (bodies_by_identity (bt_values (pa_admitted p))) (contains_key node (pa_handed p)) node group.

Record planned (p : parts) : Prop := {
  pl_valid : validate_dependency_graph (de_groups desired) (dom (de_quarantined desired)) = Some (inr tt);
  pl_routing : resolve_node_groups (bt_values (de_groups desired)) (de_nodes desired) = inr (pa_node_groups p);
  pl_groups : resolve_group_inputs (input_resolution desired observed (pa_node_groups p)
                (pass_verified observed verified)) (de_groups desired) = Some (pa_groups p);
  pl_default : deployment_try_from (rs_default_deployment (de_repository desired)) = inr (pa_default p);
  pl_rollout : plan_rollouts (de_sets desired) (pa_inputs p) pa_start (ob_now observed) (ob_millis observed)
               = Some (pa_rollout p, pa_durable p);
  pl_quarantined : quarantined_nodes desired (pa_node_groups p) (de_nodes desired) = Some (pa_quarantined p);
}.

(** How each routed node came out. *)
Definition carried_as (p : parts) (nd : BTreeMap RepositoryAssignment) (pub : BTreeMap string) : Prop :=
  ∀ node, match pa_node_groups p !! node with
          | None => nd !! node = None ∧ pub !! node = None
          | Some group =>
              match pa_carry p node group with
              | inl _ => False
              | inr (Some (last, d)) => nd !! node = Some d ∧ pub !! node = Some last
              | inr None => nd !! node = pa_handed p !! node
                            ∧ pub !! node = if contains_key node (pa_handed p) then Some group else None
              end
          end.

Lemma routing_spec p : planned p →
  plannable (bt_values (de_groups desired))
  ∧ NoDup (rn_name <$> de_nodes desired)
  ∧ (∀ node, node ∈ de_nodes desired → ∃ selected, pa_node_groups p !! rn_name node = Some selected
       ∧ routed (bt_values (de_groups desired)) node selected)
  ∧ ∀ k, is_Some (pa_node_groups p !! k) ↔ k ∈ rn_name <$> de_nodes desired.
Proof.
  intros Hp. pose proof (resolve_node_groups_spec (bt_values (de_groups desired)) (de_nodes desired)) as Hr.
  rewrite (pl_routing _ Hp) in Hr. destruct Hr as (? & ? & Hn & ?). split_and!; [done|done| |done].
  intros node Hin. by apply Hn.
Qed.

Lemma groups_resolved p name : planned p →
  match de_groups desired !! name with
  | Some g => ∃ sel snapshot, pa_groups p !! name = Some (with_inputs g sel snapshot)
  | None => pa_groups p !! name = None
  end.
Proof.
  intros Hp. destruct (resolve_group_inputs_total (input_resolution desired observed (pa_node_groups p)
    (pass_verified observed verified)) (de_groups desired)) as (final & Hf & Hall).
  rewrite (pl_groups _ Hp) in Hf. injection Hf as ->. apply Hall.
Qed.

(** Only routed nodes of planned groups, or of the default, are handed anything. *)
Lemma handed_routed p node : planned p → is_Some (pa_handed p !! node) → is_Some (pa_node_groups p !! node).
Proof.
  intros Hp [d Hd]. unfold pa_handed in Hd. rewrite hand_default_lookup in Hd.
  destruct (pa_node_groups p !! node) as [g|] eqn:Hg; [by eexists|].
  destruct (plan_parts _ _ _ _ _ _ _ (pl_rollout _ Hp)) as (_ & Hn & _). rewrite Hn in Hd.
  pose proof (assign_nodes_only _ _ _ _ _ _ _ _ Hd) as (g & ? & ? & ? & Hng & _). simpl in Hng. congruence.
Qed.

(** The pass, case by case. *)
Inductive outcome : PlanError + ReconcilePlan → Prop :=
| OutInvalid e : error_true (de_groups desired) (dom (de_quarantined desired)) e → outcome (inl e)
| OutUnroutable e :
    routing_error_true (bt_values (de_groups desired)) (de_nodes desired) e → outcome (inl e)
| OutDefault e :
    deployment_try_from (rs_default_deployment (de_repository desired)) = inl e →
    outcome (inl (InvalidDeployment e))
| OutUnknown p node group e :
    planned p → pa_node_groups p !! node = Some group → pa_carry p node group = inl e → outcome (inl e)
| OutLoss p lost :
    planned p → lost ≠ [] →
    (∀ node, node ∈ lost → is_Some (ob_routing observed !! node) ∧ is_Some (pa_node_groups p !! node)) →
    outcome (inl (RoutingLoss lost))
| OutUnpublished p nd pub e :
    planned p → carried_as p nd pub →
    build_publication_plan (de_repository desired) pub nd = Some (inl e) → outcome (inl e)
| OutPlan p nd pub plan :
    planned p → carried_as p nd pub →
    (∀ node, is_Some (ob_routing observed !! node) → is_Some (pa_node_groups p !! node) → is_Some (pub !! node)) →
    build_publication_plan (de_repository desired) pub nd = Some (inr (rc_publication plan)) →
    rc_routing plan = pp_node_groups (rc_publication plan) →
    rc_assignments plan = pp_node_assignments (rc_publication plan) →
    rc_admitted plan = pa_admitted p → rc_blocked plan = rp_blocked (pa_rollout p) →
    rc_vetoed plan = du_vetoed (pa_durable p) →
    outcome (inr plan).

Lemma compile_outcome p :
  planned p →
  ∃ r, compile desired observed (pa_groups p) (pa_node_groups p) (pa_default p) (pa_rollout p) (pa_durable p) = Some r
    ∧ outcome r.
Proof.
  intros Hp. unfold compile. rewrite (pl_quarantined _ Hp). cbn [mbind option_bind].
  fold (pa_default_blocked p). fold (pa_handed p). fold (pa_admitted p).
  pose proof (carry_nodes_spec desired observed (pa_quarantined p) (pa_default p) (pa_default_blocked p)
    (pa_admitted p) (bodies_by_identity (bt_values (pa_admitted p))) (bt_iter (pa_node_groups p)) (pa_handed p) ∅
    (NoDup_bt_keys (pa_node_groups p))) as Hc.
  destruct (carry_nodes _ _ _ _ _ _ _ _ _) as [e|[nd pub]].
  { eexists. split; [done|]. destruct Hc as (node & group & Hin%elem_of_bt_iter & He). by eapply OutUnknown. }
  destruct Hc as [Hin Hout].
  assert (carried_as p nd pub) as Hcar.
  { intros node. destruct (pa_node_groups p !! node) as [group|] eqn:Hg.
    - specialize (Hin node group ltac:(by apply elem_of_bt_iter)). fold (pa_carry p node group) in Hin.
      destruct (pa_carry p node group) as [|[[? ?]|]]; try done.
    - destruct (Hout node) as [-> ->]; [intros [? ?]%elem_of_bt_keys; congruence|]. split; [|done].
      apply eq_None_not_Some. intros [? ?]%(handed_routed p node Hp). congruence. }
  destruct (bool_decide (dropped observed (pa_node_groups p) pub = [])) eqn:Hd; bool_to_prop; simpl.
  2:{ eexists. split; [done|]. apply (OutLoss p); [done|done|]. intros node Hn.
      unfold dropped in Hn. apply list_elem_of_filter in Hn as [[? _] ?%elem_of_bt_keys]. done. }
  pose proof (build_publication_plan_ok (de_repository desired) pub nd) as Hb.
  destruct (build_publication_plan (de_repository desired) pub nd) as [[e|publication]|] eqn:Hpub; cbn; [| |done].
  - eexists. split; [done|]. by eapply OutUnpublished.
  - eexists. split; [done|]. eapply OutPlan; try done. intros node Hr%elem_of_bt_keys Hng.
    destruct (pub !! node) eqn:Hn; [by eexists|]. exfalso.
    assert (node ∈ dropped observed (pa_node_groups p) pub) as Hx by (unfold dropped; by apply list_elem_of_filter).
    rewrite Hd in Hx. by apply not_elem_of_nil in Hx.
Qed.

(** The pass never panics, and every verdict has its reason. *)
Lemma plan_reconcile_outcome :
  ∃ r memory, plan_reconcile desired observed attempts verified = Some (r, memory) ∧ outcome r.
Proof.
  unfold plan_reconcile, validated_routing.
  destruct (validate_spec (de_groups desired) (dom (de_quarantined desired))) as (v & Hv & Hvs).
  rewrite Hv. cbn [mbind option_bind]. destruct v as [e|[]]; cbn [mbind sum_bind].
  { eexists _, _. split; [done|]. by apply OutInvalid. }
  pose proof (resolve_node_groups_spec (bt_values (de_groups desired)) (de_nodes desired)) as Hr.
  destruct (resolve_node_groups _ _) as [e|node_groups] eqn:Hroute.
  { eexists _, _. split; [done|]. by apply OutUnroutable. }
  fold (pass_verified observed verified).
  destruct (resolve_group_inputs_total (input_resolution desired observed node_groups
    (pass_verified observed verified)) (de_groups desired)) as (groups & Hg & _).
  rewrite Hg. cbn [mbind option_bind].
  destruct (deployment_try_from _) as [e|default] eqn:Hdef.
  { eexists _, _. split; [done|]. by apply OutDefault. }
  fold pa_start.
  destruct (plan_rollouts_spec (de_sets desired) (rollout_inputs desired observed groups node_groups default)
    pa_start (ob_now observed) (ob_millis observed)) as (rollout & st & Hplan & _). rewrite Hplan.
  cbn [mbind option_bind].
  destruct (quarantined_nodes_spec desired node_groups (de_nodes desired)) as (q & Hq & _).
  { destruct Hr as (_ & _ & Hn & _). intros n Hin. destruct (Hn n Hin) as (_ & s & ? & _). by eexists. }
  { by destruct Hr as (_ & ? & _). }
  destruct (compile_outcome (mkParts node_groups groups default rollout st q)) as (r & Hc & Ho); [done|].
  cbn in Hc. rewrite Hc. cbn [mbind option_bind]. by eexists _, _.
Qed.

(** ** What a planned node is handed *)

Lemma carried_inr p node group r :
  pa_carry p node group = inr r →
  match r with
  | Some (last, d) =>
      ob_routing observed !! node = Some last
      ∧ ((frozen_on desired (pa_quarantined p) (pa_default_blocked p) (pa_admitted p) node last = true
          ∧ ∃ id, ob_assignments observed !! node = Some id
              ∧ bodies_by_identity (bt_values (pa_admitted p)) !! id = Some d)
         ∨ (frozen_on desired (pa_quarantined p) (pa_default_blocked p) (pa_admitted p) node last = false
            ∧ last = DEFAULT_GROUP ∧ d = pa_default p))
  | None => True
  end.
Proof.
  unfold pa_carry, carried. destruct (last_routing _ _ _ node group) as [last|] eqn:Hl; [|by intros [= <-]].
  assert (ob_routing observed !! node = Some last) as Hr.
  { unfold last_routing in Hl. destruct (ob_routing observed !! node); simpl in Hl; [|done].
    destruct (_ || _); [congruence|done]. }
  destruct (frozen_on _ _ _ _ node last) eqn:Hf.
  - intros Hc. sum_inv. split; [done|]. left. split; [done|].
    rename select (placed_deployment _ _ = _) into Hp. unfold placed_deployment in Hp.
    destruct (ob_assignments observed !! node) as [id|]; simpl in Hp; [by exists id|done].
  - case_bool_decide as Hd; [|by intros [= <-]]. intros [= <-]. split; [done|]. by right.
Qed.

Lemma carried_inl p node group e :
  pa_carry p node group = inl e →
  ∃ last, e = UnknownPlacement node last ∧ ob_routing observed !! node = Some last
    ∧ placed_deployment (ob_assignments observed !! node) (bodies_by_identity (bt_values (pa_admitted p))) = None.
Proof.
  unfold pa_carry, carried. destruct (last_routing _ _ _ node group) as [last|] eqn:Hl; [|done].
  assert (ob_routing observed !! node = Some last) as Hr.
  { unfold last_routing in Hl. destruct (ob_routing observed !! node); simpl in Hl; [|done].
    destruct (_ || _); [congruence|done]. }
  destruct (frozen_on _ _ _ _ node last); [|by case_bool_decide].
  destruct (placed_deployment _ _) eqn:Hp; simpl; [done|]. intros [= <-]. by exists last.
Qed.

(** Why a node is handed a body: it is its recorded one, the default it may follow, or the
    planner's. *)
Definition reason (p : parts) (node : string) (d : RepositoryAssignment) : Prop :=
  (∃ id, ob_assignments observed !! node = Some id
     ∧ bodies_by_identity (bt_values (pa_admitted p)) !! id = Some d)
  ∨ (d = pa_default p ∧ pa_default_blocked p = false ∧ (node ∉ de_holds desired)
     ∧ pa_quarantined p !! node = None)
  ∨ (rp_node_deployments (pa_rollout p) !! node = Some d).

Lemma follows_default_true q blocked node selected :
  follows_default desired q blocked node selected = true ↔
  selected = DEFAULT_GROUP ∧ q !! node = None ∧ (node ∉ de_holds desired) ∧ blocked = false.
Proof.
  unfold follows_default. rewrite !andb_true_iff, !negb_true_iff, contains_key_false, bool_decide_eq_true,
    bool_decide_eq_false. tauto.
Qed.

Lemma handed_reason p nd pub node d :
  carried_as p nd pub → nd !! node = Some d → reason p node d.
Proof.
  intros Hc Hd. specialize (Hc node). destruct (pa_node_groups p !! node) as [group|] eqn:Hg; [|naive_solver].
  destruct (pa_carry p node group) as [e|[[last d']|]] eqn:Hcarry; [done| |].
  - destruct Hc as [Hd' _]. rewrite Hd in Hd'. injection Hd' as <-.
    apply carried_inr in Hcarry as [_ [[_ Hid]|(Hf & -> & ->)]]; [by left|]. right; left.
    unfold frozen_on in Hf. rewrite !orb_false_iff, contains_key_false in Hf.
    destruct Hf as [[[Hq Hh] Hb] _]. rewrite bool_decide_true, andb_true_r in Hb by done. by bool_to_prop.
  - destruct Hc as [Hd' _]. rewrite Hd in Hd'. symmetry in Hd'. unfold pa_handed in Hd'.
    rewrite hand_default_lookup, Hg in Hd'.
    destruct (follows_default _ _ _ node group) eqn:Hf; [|by right; right].
    injection Hd' as <-. apply follows_default_true in Hf as (_ & ? & ? & ?). by right; left.
Qed.

Lemma assignment_published nd pub plan node id :
  build_publication_plan (de_repository desired) pub nd = Some (inr plan) →
  pp_node_assignments plan !! node = Some id ↔ ∃ d, nd !! node = Some d ∧ assignment_identity d = Some id.
Proof.
  intros Hb. pose proof (build_publication_plan_ok (de_repository desired) pub nd) as Hok.
  rewrite Hb in Hok. destruct Hok as (_ & _ & (c & [_ _ Hn Ha _ _] & _ & ->) & _).
  assert (∀ d bytes i, publication d = inr (bytes, i) → assignment_identity d = Some i) as Hid.
  { intros d bytes i Hp. unfold assignment_identity. by rewrite Hp. }
  split.
  - intros Hi. assert (node ∈ (bt_iter nd).*1) as Hin by (apply Ha; by eexists).
    apply list_elem_of_fmap in Hin as ([k d] & Hk & Hin). simpl in Hk. subst k.
    destruct (Hn node d Hin) as (bytes & i & doc & Hp & Hi' & _). exists d.
    split; [by apply elem_of_bt_iter|]. rewrite (Hid d bytes i Hp). congruence.
  - intros (d & Hd%elem_of_bt_iter & Hi). destruct (Hn node d Hd) as (bytes & i & doc & Hp & Hi' & _).
    rewrite (Hid d bytes i Hp) in Hi. congruence.
Qed.

Lemma published_dom nd pub plan :
  build_publication_plan (de_repository desired) pub nd = Some (inr plan) →
  pp_node_groups plan = pub ∧ ∀ node, is_Some (pp_node_assignments plan !! node) ↔ is_Some (nd !! node).
Proof.
  intros Hb. pose proof (build_publication_plan_ok (de_repository desired) pub nd) as Hok.
  rewrite Hb in Hok. destruct Hok as (-> & _ & (c & [_ _ Hn Ha _ _] & _ & ->) & _). split; [done|].
  intros node. split.
  - intros Hin%Ha. by apply elem_of_bt_keys.
  - intros [d Hd%elem_of_bt_iter]. destruct (Hn node d Hd) as (? & i & ? & _ & ? & _). by eexists.
Qed.

Lemma carried_dom p nd pub :
  carried_as p nd pub → ∀ node, is_Some (pub !! node) ↔ is_Some (nd !! node).
Proof.
  intros Hc node. specialize (Hc node). destruct (pa_node_groups p !! node) as [group|]; [|by destruct Hc as [-> ->]].
  destruct (pa_carry p node group) as [e|[[last d]|]]; [done| |]; destruct Hc as [-> ->]; [by split; eexists|].
  destruct (contains_key node (pa_handed p)) eqn:Hk; [rewrite contains_key_true in Hk|rewrite contains_key_false in Hk; rewrite Hk].
  - by split; [|eexists].
  - by split; intros [? ?].
Qed.

End pass.

(** C28. A generation accounts for every node.  The reconciliation never panics; when it yields a
    plan, the nodes with a route and the nodes with an assignment are the same nodes of the
    inventory, and every node of the inventory that was ever routed still is; and it never
    refuses for a mismatch between the two. *)
Theorem generation_loses_no_node desired observed attempts verified :
  ∃ r memory, plan_reconcile desired observed attempts verified = Some (r, memory)
    ∧ match r with
      | inl e => e ≠ NodeDeploymentMismatch
      | inr plan =>
          dom (rc_routing plan) = dom (rc_assignments plan)
          ∧ (∀ node, is_Some (rc_routing plan !! node) → node ∈ rn_name <$> de_nodes desired)
          ∧ ∀ node, is_Some (ob_routing observed !! node) → node ∈ rn_name <$> de_nodes desired →
              is_Some (rc_routing plan !! node)
      end.
Proof.
  destruct (plan_reconcile_outcome desired observed attempts verified) as (r & memory & -> & Ho).
  exists r, memory. split; [done|]. destruct Ho as [e He|e He|e|p node group e _ _ Hc|p lost|p nd pub e Hp Hc Hb|p nd pub plan Hp Hc Hkeep Hb Hr Ha _ _ _].
  - by intros ->.
  - by intros ->.
  - done.
  - apply carried_inl in Hc as (last & -> & _). done.
  - done.
  - intros ->. unfold build_publication_plan in Hb. destruct (negb _) in Hb; [done|].
    rewrite bool_decide_true in Hb by (apply bt_keys_ext, (carried_dom _ _ _ _ _ Hc)).
    cbn [negb] in Hb. destruct (publish_nodes _ _ _) as [[e|c]|] eqn:Hn; cbn in Hb; [|done|done].
    injection Hb as ->. pose proof (publish_nodes_ok (trim_matches "/" (rs_assignment_prefix (de_repository desired)))
      (bt_iter nd) [] _ (compiled_empty _) (bt_iter_keys _)) as Hok. simpl in Hok. rewrite Hn in Hok.
    by destruct Hok as [(? & ? & ? & _ & ? & _)|[? ?]].
  - destruct (published_dom _ _ _ _ Hb) as [Hpub Hdom]. rewrite Hr, Ha, Hpub.
    destruct (routing_spec _ _ _ _ _ Hp) as (_ & _ & _ & Hinv).
    pose proof (carried_dom _ _ _ _ _ Hc) as Hcd. split_and!.
    + apply set_eq. intros n. by rewrite !elem_of_dom, Hdom, Hcd.
    + intros n Hn. apply Hinv. specialize (Hc n). destruct (pa_node_groups p !! n) as [g|]; [by eexists|].
      destruct Hc as [_ Hc]. rewrite Hc in Hn. by destruct Hn.
    + intros n Hn Hin. apply Hkeep; [done|]. by apply Hinv.
Qed.

(** ** Plans *)

Lemma reconciled_inv desired observed attempts verified plan memory :
  plan_reconcile desired observed attempts verified = Some (inr plan, memory) →
  ∃ p nd pub, planned desired observed attempts verified p
    ∧ carried_as desired observed p nd pub
    ∧ build_publication_plan (de_repository desired) pub nd = Some (inr (rc_publication plan))
    ∧ rc_routing plan = pub ∧ rc_assignments plan = pp_node_assignments (rc_publication plan)
    ∧ rc_admitted plan = pa_admitted desired p ∧ rc_blocked plan = rp_blocked (pa_rollout p)
    ∧ rc_vetoed plan = du_vetoed (pa_durable p).
Proof.
  intros Hr. destruct (plan_reconcile_outcome desired observed attempts verified) as (r & m & Hr' & Ho).
  rewrite Hr in Hr'. injection Hr' as <- <-. inversion Ho as [| | | | | |p nd pub pl Hp Hc _ Hb Hro Ha Had Hbl Hv]; subst.
  exists p, nd, pub. destruct (published_dom _ _ _ _ Hb) as [Hpub _]. rewrite Hpub in Hro. done.
Qed.

(** A body found by identity has that identity. *)
Lemma body_identity states i (d : RepositoryAssignment) :
  bodies_by_identity states !! i = Some d → assignment_identity d = Some i.
Proof. exact (bodies_by_identity_sound states i d). Qed.

(** The planner's view of a machine is the pass's. *)
Lemma advanced_acts_on desired observed attempts verified p node id :
  advanced (jd_observations (judge (de_sets desired) (pa_inputs desired observed p)
    (pa_start observed attempts verified) (ob_now observed) (ob_millis observed))) node id = true ↔
  acts_on observed verified node id.
Proof.
  unfold advanced, acts_on, report, judge. cbn. rewrite orb_true_iff. split.
  - intros [Hl|Hr].
    + left. destruct (ob_assignments observed !! node); simpl in Hl; [|done]. bool_to_prop. congruence.
    + right. destruct (ob_reports observed !! node) as [envelope|]; [|done].
      destruct (ob_public_keys observed !! node) as [key|]; [|done].
      destruct (verified_fresh _ node envelope key _) as [r|] eqn:Hf; simpl in Hr; [|done]. bool_to_prop.
      by exists envelope, key, r.
  - intros [Hl|(envelope & key & r & He & Hk & Hf & Hid)].
    + left. rewrite Hl. simpl. by apply bool_decide_eq_true.
    + right. rewrite He, Hk. unfold pass_verified, now_ms in *. rewrite Hf. simpl. by apply bool_decide_eq_true.
Qed.

(** C11. No generation takes a machine onto a refused body: whatever identity a plan publishes for
    a node, default cohort included, the machine was last handed it or a fresh authentic report
    shows it acting on it, or the identity is outside the plan's refusals; and those contain every
    external block and every veto the pass stores. *)
Theorem generation_never_hands_out_refused_bodies desired observed attempts verified plan memory :
  plan_reconcile desired observed attempts verified = Some (inr plan, memory) →
  (∀ node id, rc_assignments plan !! node = Some id →
     acts_on observed verified node id ∨ id ∉ rc_blocked plan)
  ∧ de_blocked_deployments desired ⊆ rc_blocked plan
  ∧ ∀ id, is_Some (rc_vetoed plan !! id) → id ∈ rc_blocked plan.
Proof.
  intros (p & nd & pub & Hp & Hc & Hb & _ & Ha & _ & Hbl & Hv)%reconciled_inv.
  destruct (plan_parts _ _ _ _ _ _ _ (pl_rollout _ _ _ _ _ Hp)) as (Hblocked & Hnd & Hveto).
  rewrite Hbl, Hv, Ha, Hblocked. split_and!; [|apply union_subseteq_l|done].
  intros node id (d & Hd & Hid)%(assignment_published _ _ _ _ _ _ Hb).
  destruct (handed_reason _ _ _ _ _ _ _ Hc Hd) as [(i & Hi & Hbody)|[(-> & Hdb & _)|Hroll]].
  - left. left. rewrite (body_identity _ _ _ Hbody) in Hid. congruence.
  - right. change (option_some_and (λ id, bool_decide (id ∈ rp_blocked (pa_rollout p)))
      (assignment_identity (pa_default p)) = false) in Hdb.
    rewrite Hid in Hdb. simpl in Hdb. bool_to_prop. by rewrite <-Hblocked.
  - rewrite Hnd in Hroll. pose proof (assign_nodes_sound _ _ _ _ _ _ _ _ Hroll) as (_ & g & gr & state & id' & _ & _ & _ & Hid' & Hwhy).
    change (assignment_identity d = Some id') in Hid'. assert (id' = id) as -> by congruence.
    destruct Hwhy as [Hadv|[_ ?]]; [left; by apply advanced_acts_on in Hadv|by right].
Qed.

(** ** Frozen nodes *)

(** The node selects a quarantined group and no other. *)
Definition captured (desired : DesiredState) (node : ResolvedNode) : Prop :=
  (∀ g, g ∈ bt_values (de_groups desired) → ~ selects g node)
  ∧ ∃ q selector, de_quarantined desired !! q = Some selector ∧ selector ≠ ∅
      ∧ selector_matches selector (rn_labels node) = true.

Lemma captured_quarantined desired observed attempts verified p node :
  planned desired observed attempts verified p → node ∈ de_nodes desired → captured desired node →
  pa_node_groups p !! rn_name node = Some DEFAULT_GROUP ∧ is_Some (pa_quarantined p !! rn_name node).
Proof.
  intros Hp Hin [Hno (q & selector & Hq & Hne & Hm)].
  destruct (routing_spec _ _ _ _ _ Hp) as (_ & Hnd & Hr & Hdom).
  destruct (Hr node Hin) as (selected & Hs & [[-> _]|(g & Hg & _ & Hsel & _)]); [|by destruct (Hno g)].
  split; [done|].
  destruct (quarantined_nodes_spec desired (pa_node_groups p) (de_nodes desired)) as (qs & Hqs & Hall & _); [|done|].
  { intros n Hn. destruct (Hr n Hn) as (s & ? & _). by eexists. }
  rewrite (pl_quarantined _ _ _ _ _ Hp) in Hqs. injection Hqs as <-. rewrite (Hall node DEFAULT_GROUP Hin Hs).
  unfold quarantined_group. rewrite bool_decide_true by done. simpl. rewrite fmap_is_Some.
  eapply list_find_elem_of; [by apply elem_of_bt_iter|done].
Qed.

(** Nothing plans for a frozen node, so it is carried or left out. *)
Lemma unplanned_frozen desired observed attempts verified p node group :
  planned desired observed attempts verified p →
  pa_node_groups p !! node = Some group →
  (node ∈ de_holds desired ∨ is_Some (pa_quarantined p !! node)) →
  rp_node_deployments (pa_rollout p) !! node = None → pa_handed desired p !! node = None.
Proof.
  intros Hp Hg Hf Hn. unfold pa_handed. rewrite hand_default_lookup, Hg.
  destruct (follows_default _ _ _ node group) eqn:Hfd; [|exact Hn].
  apply follows_default_true in Hfd as (_ & Hq & Hh & _). destruct Hf as [?|[? ?]]; [done|congruence].
Qed.

Lemma frozen_carry desired observed p node group :
  pa_node_groups p !! node = Some group → pa_handed desired p !! node = None →
  (node ∈ de_holds desired ∨ is_Some (pa_quarantined p !! node)) →
  pa_carry desired observed p node group =
  match ob_routing observed !! node with
  | Some last =>
      match placed_deployment (ob_assignments observed !! node)
              (bodies_by_identity (bt_values (pa_admitted desired p))) with
      | Some d => inr (Some (last, d))
      | None => inl (UnknownPlacement node last)
      end
  | None => inr None
  end.
Proof.
  intros Hg Hh Hf. unfold pa_carry, carried, last_routing.
  assert (contains_key node (pa_handed desired p) = false) as -> by by apply contains_key_false. simpl.
  destruct (ob_routing observed !! node) as [last|]; simpl; [|done].
  assert (frozen_on desired (pa_quarantined p) (pa_default_blocked p) (pa_admitted desired p) node last = true) as ->.
  { unfold frozen_on. destruct Hf as [Hf|Hf].
    - rewrite (bool_decide_true _ Hf), orb_true_r. done.
    - rewrite (proj2 (contains_key_true _ _) Hf). done. }
  by destruct (placed_deployment _ _).
Qed.

(** C16. Holds and quarantine freeze machines.  Whatever a plan publishes for a node the operator
    holds, or for a node that selects only a quarantined group, is exactly the identity its last
    assignment recorded, under its last routing; such a node that was never published is left
    out of the generation. *)
Theorem frozen_nodes_keep_their_assignment desired observed attempts verified plan memory node :
  sound_inventory desired (ob_admitted observed) →
  plan_reconcile desired observed attempts verified = Some (inr plan, memory) →
  node ∈ de_nodes desired → rn_name node ∈ de_holds desired ∨ captured desired node →
  rc_routing plan !! rn_name node = ob_routing observed !! rn_name node
  ∧ (is_Some (ob_routing observed !! rn_name node) →
     rc_assignments plan !! rn_name node = ob_assignments observed !! rn_name node).
Proof.
  intros Hsi (p & nd & pub & Hp & Hc & Hb & Hr & Ha & _)%reconciled_inv Hin Hf.
  destruct (plan_parts _ _ _ _ _ _ _ (pl_rollout _ _ _ _ _ Hp)) as (_ & Hnd & _).
  destruct (routing_spec _ _ _ _ _ Hp) as (Hplan & _ & Hrt & _).
  destruct (Hrt node Hin) as (group & Hg & _).
  assert (rn_name node ∈ de_holds desired ∨ is_Some (pa_quarantined p !! rn_name node)) as Hfz.
  { destruct Hf as [?|Hcap]; [by left|right]. by eapply captured_quarantined. }
  assert (rp_node_deployments (pa_rollout p) !! rn_name node = None) as Hno.
  { destruct (rp_node_deployments (pa_rollout p) !! rn_name node) as [d|] eqn:Hd; [exfalso|done].
    rewrite Hnd in Hd. pose proof (assign_nodes_sound _ _ _ _ _ _ _ _ Hd) as (Hnh & g & gr & _ & _ & Hng & Hgr & _).
    destruct Hf as [?|Hcap]; [done|]. destruct (captured_quarantined _ _ _ _ _ _ Hp Hin Hcap) as [Hdef _].
    simpl in Hng, Hgr. rewrite Hdef in Hng. injection Hng as <-.
    pose proof (groups_resolved _ _ _ _ _ DEFAULT_GROUP Hp) as Hgroups.
    destruct (de_groups desired !! DEFAULT_GROUP) as [g0|] eqn:Hg0; [|congruence].
    destruct Hplan as [_ Hplan]. destruct (Hplan g0) as [_ Hname]; [by apply elem_of_bt_values; eexists|].
    by rewrite (si_keyed _ _ Hsi _ _ Hg0) in Hname. }
  pose proof (unplanned_frozen _ _ _ _ _ _ _ Hp Hg Hfz Hno) as Hh.
  pose proof (Hc (rn_name node)) as Hcn. rewrite Hg, (frozen_carry _ _ _ _ _ Hg Hh Hfz) in Hcn.
  rewrite Hr, Ha. destruct (ob_routing observed !! rn_name node) as [last|] eqn:Hlast.
  - destruct (placed_deployment _ _) as [d|] eqn:Hpd; [|done]. destruct Hcn as [Hnd' Hpub]. split; [done|].
    intros _. unfold placed_deployment in Hpd.
    destruct (ob_assignments observed !! rn_name node) as [id|]; simpl in Hpd; [|done].
    apply (assignment_published _ _ _ _ _ _ Hb). exists d. split; [done|]. by eapply body_identity.
  - destruct Hcn as [_ ->]. split; [|by intros [? ?]]. by rewrite (proj2 (contains_key_false _ _) Hh).
Qed.

End fleet.
