(* ===== verification/Shared.v ===== *)
(** * Shared: named objects that several processes change

    The API server and the object store as the control plane sees them: objects under names, each
    with the version of its last write, a clock, and other processes that act between any two calls
    of this one.  A call may fail before it took effect, or after it.  [elapse] is what happens
    around one call; a list of turns fixes all of it, so that a program runs. *)
From S2P Require Import Prelude Maps.

(** ** State and calls *)

Inductive delivery : Type :=
| Delivered
| Unsent      (** the request never took effect *)
| Unanswered. (** it took effect, and the answer was lost *)

(** [kube::Error] and [object_store::Error], as far as the callers tell them apart. *)
Inductive ApiError : Type :=
| ENotFound
| EConflict
| EUnavailable
| EElapsed.    (** the caller's own deadline passed *)

#[export] Instance ApiError_eq_dec : EqDecision ApiError.
Proof. solve_decision. Defined.

Record shared (V : Type) : Type := mkShared {
  sh_objects : BTreeMap (N * V);
  sh_next : N;
  sh_clock : Z;
}.
Arguments mkShared {V} _ _ _.
Arguments sh_objects {V} _.
Arguments sh_next {V} _.
Arguments sh_clock {V} _.

(** What passes before a call is served: time, and the steps of the other processes. *)
Record turn (V : Type) : Type := mkTurn {
  tu_elapsed : N;
  tu_others : shared V → shared V;
  tu_delivery : delivery;
}.
Arguments mkTurn {V} _ _ _.
Arguments tu_elapsed {V} _.
Arguments tu_others {V} _ _.
Arguments tu_delivery {V} _.

(** The shared state, what is still to come, and the changes this process made, latest first. *)
Record cluster (V : Type) : Type := mkCluster {
  cl_shared : shared V;
  cl_turns : list (turn V);
  cl_made : list (shared V * shared V);
}.
Arguments mkCluster {V} _ _ _.
Arguments cl_shared {V} _.
Arguments cl_turns {V} _.
Arguments cl_made {V} _.

(** A process that starts. *)
Definition starts {V} (s : shared V) (turns : list (turn V)) : cluster V := mkCluster s turns [].

(** A program of one process. *)
Definition Sh (V T : Type) : Type := cluster V → T * cluster V.

#[export] Instance Sh_ret {V} : MRet (Sh V) := λ _ t c, (t, c).
#[export] Instance Sh_bind {V} : MBind (Sh V) := λ _ _ f m c, let '(t, c) := m c in f t c.

(** [let x = m?; k] *)
Definition sh_try {V E A B} (m : Sh V (E + A)) (k : A → Sh V (E + B)) : Sh V (E + B) :=
  r ← m; match r with inr a => k a | inl e => mret (inl e) end.

Notation "x '←?' m ; k" := (sh_try m (λ x, k))
  (at level 20, m at level 100, k at level 200, only parsing) : updatedc_scope.
Notation "' p '←?' m ; k" := (sh_try m (λ x, match x with p => k end))
  (at level 20, p pattern, m at level 100, k at level 200, only parsing) : updatedc_scope.

Fixpoint sh_each {V E A} (f : A → Sh V (E + unit)) (l : list A) : Sh V (E + unit) :=
  match l with
  | [] => mret (inr tt)
  | x :: l => _ ←? f x; sh_each f l
  end.

(** [?] on a value that needs no call. *)
Definition lift {V E A} (r : E + A) : Sh V (E + A) := mret r.

Section calls.
Context {V : Type}.
Implicit Types (s : shared V) (c : cluster V).

Definition elapse (t : turn V) s : shared V :=
  let s' := tu_others t s in
  mkShared (sh_objects s') (sh_next s') (sh_clock s + Z.of_N (tu_elapsed t)).

Definition pass_turn : Sh V delivery := λ c,
  match cl_turns c with
  | [] => (Delivered, c)
  | t :: turns => (tu_delivery t, mkCluster (elapse t (cl_shared c)) turns (cl_made c))
  end.

Definition peek {T} (f : shared V → T) : Sh V T := λ c, (f (cl_shared c), c).

(** [Utc::now()] *)
Definition now : Sh V Z := _ ← pass_turn; peek sh_clock.

(** The object under the next version. *)
Definition put_object (name : string) (v : V) s : shared V :=
  mkShared (<[name := (sh_next s, v)]> (sh_objects s)) (N.succ (sh_next s)) (sh_clock s).

Definition drop_object (name : string) s : shared V :=
  mkShared (delete name (sh_objects s)) (sh_next s) (sh_clock s).

Definition version_of (name : string) s : option N := fst <$> sh_objects s !! name.

(** A read of the shared objects. *)
Definition read {T} (f : shared V → ApiError + T) : Sh V (ApiError + T) :=
  d ← pass_turn;
  match d with Delivered => peek f | _ => mret (inl EUnavailable) end.

(** A request that reached the server. *)
Definition serve (d : delivery) (allowed : shared V → ApiError + unit) (effect : shared V → shared V)
    : Sh V (ApiError + N) := λ c,
  match allowed (cl_shared c) with
  | inl e => (inl e, c)
  | inr _ =>
      (match d with Delivered => inr (sh_next (cl_shared c)) | _ => inl EUnavailable end,
       mkCluster (effect (cl_shared c)) (cl_turns c) ((cl_shared c, effect (cl_shared c)) :: cl_made c))
  end.

(** A change the server may refuse; its answer is the version the object was given. *)
Definition change (allowed : shared V → ApiError + unit) (effect : shared V → shared V)
    : Sh V (ApiError + N) :=
  d ← pass_turn;
  match d with Unsent => mret (inl EUnavailable) | _ => serve d allowed effect end.

Definition get_opt (name : string) : Sh V (ApiError + option (N * V)) :=
  read (λ s, inr (sh_objects s !! name)).

Definition get (name : string) : Sh V (ApiError + (N * V)) :=
  read (λ s, ok_or (sh_objects s !! name) ENotFound).

Definition list_objects : Sh V (ApiError + list (string * (N * V))) :=
  read (λ s, inr (bt_iter (sh_objects s))).

(** [Api::create], and a put with [PutMode::Create]. *)
Definition create (name : string) (v : V) : Sh V (ApiError + N) :=
  change (λ s, demand (bool_decide (sh_objects s !! name = None)) EConflict) (put_object name v).

(** [Api::replace] of an object read at a version, and a put with [PutMode::Update]. *)
Definition replace (name : string) (version : N) (v : V) : Sh V (ApiError + N) :=
  change (λ s, match version_of name s with
               | None => inl ENotFound
               | Some current => demand (bool_decide (current = version)) EConflict
               end) (put_object name v).

(** An unconditional put. *)
Definition overwrite (name : string) (v : V) : Sh V (ApiError + N) :=
  change (λ _, inr tt) (put_object name v).

Definition advance (d : Z) s : shared V := mkShared (sh_objects s) (sh_next s) (sh_clock s + d).

Definition advance_clock (d : Z) : Sh V unit := λ c,
  (tt, mkCluster (advance d (cl_shared c)) (cl_turns c) (cl_made c)).

Definition sleep (d : Z) : Sh V unit := _ ← pass_turn; advance_clock d.

(** A call under [timeout]: past the deadline it is not sent, or its answer is not waited for. *)
Definition bounded {T} (deadline : Z) (m : Sh V (ApiError + T)) : Sh V (ApiError + T) :=
  t ← peek sh_clock;
  if (deadline <=? t)%Z then mret (inl EElapsed)
  else
    r ← m;
    t ← peek sh_clock;
    mret (if (deadline <=? t)%Z then inl EElapsed else r).

Lemma bind_run {T U} (m : Sh V T) (f : T → Sh V U) c t c' : m c = (t, c') → (m ≫= f) c = f t c'.
Proof. intros Hm. unfold mbind, Sh_bind. by rewrite Hm. Qed.

(** Time only passes. *)
Definition passes {T} (d : Z) (m : Sh V T) : Prop :=
  ∀ c t c', m c = (t, c') → (sh_clock (cl_shared c) + d ≤ sh_clock (cl_shared c'))%Z.

Lemma passes_bind {T U} d d' (m : Sh V T) (f : T → Sh V U) :
  passes d m → (∀ t, passes d' (f t)) → passes (d + d') (m ≫= f).
Proof.
  intros Hm Hf c u c'. unfold mbind, Sh_bind. destruct (m c) as [t c1] eqn:E. intros Hr.
  specialize (Hm _ _ _ E). specialize (Hf _ _ _ _ Hr). lia.
Qed.

Lemma passes_turn : passes 0 pass_turn.
Proof.
  intros c d c'. unfold pass_turn. destruct (cl_turns c); intros [= <- <-]; simpl; lia.
Qed.

Lemma passes_peek {T} (f : shared V → T) : passes 0 (peek f).
Proof. intros c t c' [= <- <-]. lia. Qed.

Lemma passes_ret {T} (t : T) : passes 0 (mret t).
Proof. intros c t' c' [= <- <-]. lia. Qed.

Lemma passes_now : passes 0 now.
Proof. apply (passes_bind 0 0); [apply passes_turn|intros; apply passes_peek]. Qed.

Lemma passes_sleep d : passes d (sleep d).
Proof. apply (passes_bind 0 d); [apply passes_turn|]. intros _ c t c' [= <- <-]. simpl. lia. Qed.

Lemma passes_read {T} (f : shared V → ApiError + T) : passes 0 (read f).
Proof. apply (passes_bind 0 0); [apply passes_turn|]. intros []; [apply passes_peek|apply passes_ret..]. Qed.

Lemma passes_change allowed effect :
  (∀ s, sh_clock (effect s) = sh_clock s) → passes 0 (change allowed effect).
Proof.
  intros He. apply (passes_bind 0 0); [apply passes_turn|].
  assert (∀ d, passes 0 (serve d allowed effect)) as Hs.
  { intros d c t c'. unfold serve. destruct (allowed _); intros [= <- <-]; simpl; rewrite ?He; lia. }
  intros []; [apply Hs|apply passes_ret|apply Hs].
Qed.

Lemma passes_bounded {T} deadline (m : Sh V (ApiError + T)) : passes 0 m → passes 0 (bounded deadline m).
Proof.
  intros Hm. apply (passes_bind 0 0); [apply passes_peek|]. intros t. destruct (_ <=? _)%Z; [apply passes_ret|].
  apply (passes_bind 0 0); [done|]. intros r. apply (passes_bind 0 0); [apply passes_peek|intros; apply passes_ret].
Qed.

(** A call nothing comes before. *)
Lemma read_quiet {T} (f : shared V → ApiError + T) s made :
  read f (mkCluster s [] made) = (f s, mkCluster s [] made).
Proof. done. Qed.

Lemma change_quiet allowed effect s made :
  change allowed effect (mkCluster s [] made) =
  match allowed s with
  | inl e => (inl e, mkCluster s [] made)
  | inr _ => (inr (sh_next s), mkCluster (effect s) [] ((s, effect s) :: made))
  end.
Proof. done. Qed.

(** Versions in use are behind the next one. *)
Definition versioned (s : shared V) : Prop := ∀ k o, sh_objects s !! k = Some o → (o.1 < sh_next s)%N.

Lemma versioned_put s k v : versioned s → versioned (put_object k v s).
Proof.
  intros Hv k' o. simpl. intros [[<- <-]|[_ Ho]]%lookup_insert_Some; cbn [fst]; [lia|].
  specialize (Hv k' o Ho). lia.
Qed.

End calls.

(** ** Rely and guarantee

    [R] is what this process may rely on between its calls, and [G] what it guarantees of each
    change it makes.  Each process's guarantee is to be within every other's rely. *)

Section rely.
Context {V : Type} (R G : relation (shared V)) `{!Reflexive R}.
Implicit Types (s : shared V) (c : cluster V).

Definition honest (turns : list (turn V)) : Prop := Forall (λ t, ∀ s, R s (elapse t s)) turns.

Definition guaranteed (made : list (shared V * shared V)) : Prop := Forall (λ x, G x.1 x.2) made.

(** Run among honest others from a state of [P], every change [m] makes is guaranteed, and it ends
    in an outcome of [Q]. *)
Definition runs {T} (P : shared V → Prop) (m : Sh V T) (Q : shared V → T → shared V → Prop) : Prop :=
  ∀ c t c', honest (cl_turns c) → guaranteed (cl_made c) → P (cl_shared c) → m c = (t, c') →
    honest (cl_turns c') ∧ guaranteed (cl_made c') ∧ Q (cl_shared c) t (cl_shared c').

Lemma sh_ret {T} P (t : T) (Q : _ → _ → _ → Prop) :
  (∀ s, P s → Q s t s) → runs P (mret t) Q.
Proof. intros HQ c t' c' Hh Hg HP [= <- <-]. auto. Qed.

Lemma runs_weaken {T} (P P' : shared V → Prop) (m : Sh V T) (Q Q' : _ → _ → _ → Prop) :
  runs P' m Q' → (∀ s, P s → P' s) → (∀ s t s', P s → Q' s t s' → Q s t s') → runs P m Q.
Proof. intros Hm HP HQ c t c' Hh Hg Hs Hr. destruct (Hm c t c') as (? & ? & ?); auto. Qed.

(** The state between the two halves is one the first half reached. *)
Lemma sh_bind {T U} P (m : Sh V T) (f : T → Sh V U) (Q1 : _ → _ → _ → Prop) (Q : _ → _ → _ → Prop) :
  runs P m Q1 →
  (∀ s t, P s → runs (λ s', Q1 s t s') (f t) (λ _ u s'', Q s u s'')) →
  runs P (m ≫= f) Q.
Proof.
  intros Hm Hf c u c'' Hh Hg Hs. unfold mbind, Sh_bind. destruct (m c) as [t c'] eqn:E.
  destruct (Hm c t c' Hh Hg Hs E) as (Hh' & Hg' & HQ). intros Hr.
  destruct (Hf (cl_shared c) t Hs c' u c'' Hh' Hg' HQ Hr) as (? & ? & ?). auto.
Qed.

Lemma runs_try {E A B} P (m : Sh V (E + A)) (k : A → Sh V (E + B)) (Q1 Q : _ → _ → _ → Prop) :
  runs P m Q1 →
  (∀ s e s', P s → Q1 s (inl e) s' → Q s (inl e) s') →
  (∀ s a, P s → runs (λ s', Q1 s (inr a) s') (k a) (λ _ u s'', Q s u s'')) →
  runs P (sh_try m k) Q.
Proof.
  intros Hm He Hk. apply (sh_bind _ _ _ Q1); [done|]. intros s [e|a] Hs; [|by apply Hk].
  apply sh_ret. eauto.
Qed.

(** A pure step. *)
Lemma runs_lift {E A B} P (r : E + A) (k : A → Sh V (E + B)) (Q : _ → _ → _ → Prop) :
  (∀ e s, r = inl e → P s → Q s (inl e) s) → (∀ a, r = inr a → runs P (k a) Q) → runs P (sh_try (lift r) k) Q.
Proof.
  intros He Hk. destruct r as [e|a]; [|by apply Hk]. intros c t c' Hh Hg HP [= <- <-]. auto.
Qed.

Lemma runs_pass P : runs P pass_turn (λ s _ s', R s s').
Proof.
  intros c d c' Hh Hg _. unfold pass_turn. destruct (cl_turns c) as [|t turns] eqn:Ht.
  - intros [= <- <-]. rewrite Ht. split; [done|]. split; [done|]. reflexivity.
  - intros [= <- <-]. apply Forall_cons in Hh as [H1 H2]. auto.
Qed.

Lemma runs_peek {T} P (f : shared V → T) : runs P (peek f) (λ s t s', s' = s ∧ t = f s).
Proof. intros c t c' Hh Hg _ [= <- <-]. auto. Qed.

Lemma runs_now P : runs P now (λ s t s', R s s' ∧ t = sh_clock s').
Proof.
  unfold now. eapply sh_bind; [apply runs_pass|]. intros s d _. eapply runs_weaken; [apply runs_peek|done|].
  intros s' t s'' HR [-> ->]. auto.
Qed.

(** What a read can answer. *)
Lemma runs_read {T} P (f : shared V → ApiError + T) :
  runs P (read f) (λ s t s', R s s' ∧ (t = inl EUnavailable ∨ t = f s')).
Proof.
  unfold read. eapply sh_bind; [apply runs_pass|]. intros s [] _; [|apply sh_ret; auto..].
  eapply runs_weaken; [apply runs_peek|done|]. intros s' t s'' HR [-> ->]. auto.
Qed.

(** What a change can do: nothing, or its whole effect on the state it was allowed in. *)
Definition changed (allowed : shared V → ApiError + unit) (effect : shared V → shared V) s1
    (t : ApiError + N) s' : Prop :=
  (s' = s1 ∧ (t = inl EUnavailable ∨ ∃ e, allowed s1 = inl e ∧ t = inl e))
  ∨ (allowed s1 = inr tt ∧ s' = effect s1 ∧ (t = inl EUnavailable ∨ t = inr (sh_next s1))).

Lemma runs_change (P : shared V → Prop) allowed effect :
  (∀ s s1, P s → R s s1 → allowed s1 = inr tt → G s1 (effect s1)) →
  runs P (change allowed effect) (λ s t s', ∃ s1, R s s1 ∧ changed allowed effect s1 t s').
Proof.
  intros HG. unfold change. eapply sh_bind; [apply runs_pass|].
  assert (∀ s d, P s → runs (λ s', R s s') (serve d allowed effect)
    (λ _ t s', ∃ s1, R s s1 ∧ changed allowed effect s1 t s')) as Hserve.
  { intros s d Hs c t c' Hh Hg HR. unfold serve, changed.
    destruct (allowed (cl_shared c)) as [e|[]] eqn:Ha; intros [= <- <-]; (split; [done|]); (split; [|
      exists (cl_shared c); (split; [done|])]); [done|by left; eauto| |].
    - apply Forall_cons. split; [|done]. by apply (HG s).
    - right. rewrite Ha. destruct d; auto. }
  intros s [] Hs; [by apply Hserve| |by apply Hserve]. apply sh_ret. intros s' HR. exists s'. unfold changed. auto.
Qed.

Lemma runs_sleep P d : runs P (sleep d) (λ s _ s', ∃ s1, R s s1 ∧ s' = advance d s1).
Proof.
  unfold sleep. eapply sh_bind; [apply runs_pass|]. intros s _ Hs c [] c' Hh Hg HR [= <-]. simpl. eauto.
Qed.

(** A call under a deadline is sent before it or not at all. *)
Lemma runs_bounded {T} (P : shared V → Prop) deadline (m : Sh V (ApiError + T)) (Q Q' : _ → _ → _ → Prop) :
  (∀ s, P s → Q' s (inl EElapsed) s) →
  runs (λ s, P s ∧ (sh_clock s < deadline)%Z) m Q →
  (∀ s r s', P s → (sh_clock s < deadline)%Z → Q s r s' → Q' s (inl EElapsed) s') →
  (∀ s r s', P s → (sh_clock s < deadline)%Z → Q s r s' → (sh_clock s' < deadline)%Z → Q' s r s') →
  runs P (bounded deadline m) Q'.
Proof.
  intros Hno Hm Hlate Hin. unfold bounded.
  eapply sh_bind; [apply runs_peek|]. intros s t Hs. destruct (Z.leb_spec deadline t) as [Hle|Hlt].
  - apply sh_ret. intros s' [-> ->]. auto.
  - eapply sh_bind.
    + eapply runs_weaken; [exact Hm| |].
      * intros s' [-> ->]. auto.
      * intros s' r s'' [-> _] HQ. exact HQ.
    + intros s1 r [-> ->]. eapply sh_bind; [apply runs_peek|]. intros s2 t HQ. apply sh_ret. intros s3 [-> ->].
      destruct (Z.leb_spec deadline (sh_clock s2)); eauto.
Qed.

Lemma runs_bounded_read {T} P deadline (f : shared V → ApiError + T) :
  runs P (bounded deadline (read f))
    (λ s r s', R s s' ∧ (r = inl EElapsed ∨ r = inl EUnavailable ∨ r = f s')).
Proof.
  eapply runs_bounded; [|apply runs_read|..].
  - intros s _. split; [reflexivity|by left].
  - intros s r s' _ _ [HR _]. auto.
  - intros s r s' _ _ [HR Hr] _. auto.
Qed.

Lemma runs_bounded_change (P : shared V → Prop) deadline allowed effect :
  (∀ s s1, P s → (sh_clock s < deadline)%Z → R s s1 → allowed s1 = inr tt → G s1 (effect s1)) →
  runs P (bounded deadline (change allowed effect)) (λ s r s', ∃ s1, R s s1
    ∧ ((s' = s1 ∧ ∃ e, r = inl e) ∨ (allowed s1 = inr tt ∧ s' = effect s1))).
Proof.
  intros HG. eapply runs_bounded; [|apply runs_change|..].
  - intros s _. exists s. split; [reflexivity|]. left. eauto.
  - intros s s1 [Hs Hc]. by apply HG.
  - intros s r s' _ _ (s1 & HR & Hch). exists s1. split; [done|].
    destruct Hch as [[-> _]|(Ha & -> & _)]; [left; eauto|by right].
  - intros s r s' _ _ (s1 & HR & Hch) _. exists s1. split; [done|].
    destruct Hch as [[-> [->|(e & _ & ->)]]|(Ha & -> & _)]; [left; eauto..|by right].
Qed.

End rely.

#[global] Arguments elapse : simpl never.

(** ** A store of one's own

    A directory under this process's lock: the others leave it alone, so a program is judged by the
    contents it starts from and may leave behind, whichever of its calls fail. *)

Section exclusive.
Context {V : Type}.
Implicit Types (P : BTreeMap V → Prop).

Definition contents (s : shared V) : BTreeMap V := snd <$> sh_objects s.

Definition exclusive (turns : list (turn V)) : Prop := honest (λ s s', contents s' = contents s) turns.

Definition loc {T} P (m : Sh V T) (Q : T → BTreeMap V → Prop) : Prop :=
  ∀ c t c', exclusive (cl_turns c) → P (contents (cl_shared c)) → m c = (t, c') →
    exclusive (cl_turns c') ∧ Q t (contents (cl_shared c')).

Lemma loc_ret {T} P (t : T) (Q : T → BTreeMap V → Prop) : (∀ m, P m → Q t m) → loc P (mret t) Q.
Proof. intros HQ c t' c' Hx HP [= <- <-]. auto. Qed.

Lemma loc_weaken {T} P P' (m : Sh V T) (Q Q' : T → BTreeMap V → Prop) :
  loc P' m Q' → (∀ f, P f → P' f) → (∀ t f, Q' t f → Q t f) → loc P m Q.
Proof. intros Hm HP HQ c t c' Hx Hc Hr. destruct (Hm c t c') as [? ?]; auto. Qed.

Lemma loc_bind {T U} P (m : Sh V T) (k : T → Sh V U) (Q1 : T → BTreeMap V → Prop) (Q : U → BTreeMap V → Prop) :
  loc P m Q1 → (∀ t, loc (Q1 t) (k t) Q) → loc P (m ≫= k) Q.
Proof.
  intros Hm Hk c u c'' Hx Hc. unfold mbind, Sh_bind. destruct (m c) as [t c'] eqn:E.
  destruct (Hm c t c' Hx Hc E) as [Hx' HQ]. intros Hr. exact (Hk t c' u c'' Hx' HQ Hr).
Qed.

Lemma loc_try {E A B} P (m : Sh V (E + A)) (k : A → Sh V (E + B)) (Q1 Q : _ → BTreeMap V → Prop) :
  loc P m Q1 → (∀ e f, Q1 (inl e) f → Q (inl e) f) → (∀ a, loc (Q1 (inr a)) (k a) Q) → loc P (sh_try m k) Q.
Proof. intros Hm He Hk. eapply loc_bind; [exact Hm|]. intros [e|a]; [apply loc_ret; auto|apply Hk]. Qed.

Lemma loc_pass P : loc P pass_turn (λ _ f, P f).
Proof.
  intros c d c' Hx HP. unfold pass_turn. destruct (cl_turns c) as [|t turns] eqn:Ht.
  - intros [= <- <-]. by rewrite Ht.
  - intros [= <- <-]. apply Forall_cons in Hx as [H1 H2]. simpl. split; [done|]. by rewrite H1.
Qed.

Lemma loc_peek {T} P (f : shared V → T) (g : BTreeMap V → T) :
  (∀ s, f s = g (contents s)) → loc P (peek f) (λ t m, P m ∧ t = g m).
Proof. intros Hf c t c' Hx HP [= <- <-]. auto. Qed.

Lemma loc_now P : loc P now (λ _ f, P f).
Proof.
  eapply loc_bind; [apply loc_pass|]. intros _ c t c' Hx HP [= <- <-]. auto.
Qed.

Lemma loc_read {T} P (f : shared V → ApiError + T) (g : BTreeMap V → ApiError + T) :
  (∀ s, f s = g (contents s)) → loc P (read f) (λ t m, P m ∧ (t = inl EUnavailable ∨ t = g m)).
Proof.
  intros Hf. eapply loc_bind; [apply loc_pass|]. intros []; [|apply loc_ret; auto..].
  eapply loc_weaken; [by apply loc_peek|done|]. naive_solver.
Qed.

(** A read that only looks for one name. *)
Lemma loc_get P k :
  loc P (get k) (λ t m, P m ∧ (t = inl EUnavailable ∨ (t = inl ENotFound ∧ m !! k = None)
                               ∨ ∃ v b, t = inr (v, b) ∧ m !! k = Some b)).
Proof.
  eapply loc_bind; [apply loc_pass|]. intros d.
  destruct d; [|apply loc_ret; auto..]. intros c t c' Hx HP [= <- <-]. split; [done|]. split; [done|]. right.
  unfold contents. rewrite lookup_fmap. destruct (sh_objects (cl_shared c) !! k) as [[v b]|]; simpl; eauto.
Qed.

(** An unconditional change: not made, made, or made without a word. *)
Lemma loc_effect P (effect : shared V → shared V) (g : BTreeMap V → BTreeMap V) (Q : _ → _ → Prop) :
  (∀ s, contents (effect s) = g (contents s)) →
  (∀ m, P m → Q (inl EUnavailable) m) → (∀ m r, P m → (∀ e, r = inl e → e = EUnavailable) → Q r (g m)) →
  loc P (change (λ _, inr tt) effect) Q.
Proof.
  intros Hg Hno Hyes. eapply loc_bind; [apply loc_pass|].
  intros d. destruct d; [| |];
    [|apply loc_ret; auto|]; (intros c t c' Hx HP [= <- <-]; split; [done|]; simpl; rewrite Hg;
      apply Hyes; [done|]; by intros e [= <-] || by intros e).
Qed.

Lemma loc_overwrite P k y (Q : _ → _ → Prop) :
  (∀ m, P m → Q (inl EUnavailable) m) →
  (∀ m r, P m → (∀ e, r = inl e → e = EUnavailable) → Q r (<[k := y]> m)) →
  loc P (overwrite k y) Q.
Proof. apply loc_effect. intros s. unfold contents, put_object. simpl. by rewrite fmap_insert. Qed.

End exclusive.

(** ** Loops and pure steps *)

Section loops.
Context {V E A : Type} (f : A → Sh V (E + unit)).

(** A loop's invariant counts the rounds done; a round that fails ends it in [X]. *)
Lemma loc_each (I : nat → BTreeMap V → Prop) (X : BTreeMap V → Prop) l :
  (∀ k x, l !! k = Some x → loc (I k) (f x) (λ r m, match r with inr _ => I (S k) m | inl _ => X m end)) →
  loc (I 0%nat) (sh_each f l) (λ r m, match r with inr _ => I (length l) m | inl _ => X m end).
Proof.
  revert I. induction l as [|x l IH]; intros I Hf; cbn [sh_each]; [by apply loc_ret|].
  eapply loc_try; [by apply (Hf 0%nat x)|done|]. intros [].
  exact (IH (λ k, I (S k)) (λ k y Hy, Hf (S k) y Hy)).
Qed.
(** A loop whose rounds keep [P]. *)
Lemma loc_each_same (P : BTreeMap V → Prop) l :
  (∀ x, loc P (f x) (λ _ m, P m)) → loc P (sh_each f l) (λ _ m, P m).
Proof.
  intros Hf. eapply loc_weaken; [apply (loc_each (λ _, P) P)|done|by intros [] m].
  intros k x _. eapply loc_weaken; [apply Hf|done|by intros [] m].
Qed.

(** A pure step. *)
Lemma loc_lift_try {B T} (P : BTreeMap V → Prop) (r : E + B) (k : B → Sh V (E + T)) (Q : _ → _ → Prop) :
  (∀ e m, P m → Q (inl e) m) → (∀ b, r = inr b → loc P (k b) Q) → loc P (sh_try (lift r) k) Q.
Proof. intros He Hk. destruct r as [e|b]; [|by apply Hk]. intros c t c' Hx HP [= <- <-]. auto. Qed.

(** What the precondition says of anything but the files. *)
Lemma loc_pure {T} (P : BTreeMap V → Prop) (m : Sh V T) (Q : _ → _ → Prop) (φ : Prop) :
  (∀ f, P f → φ) → (φ → loc P m Q) → loc P m Q.
Proof. intros Hφ Hm c t c' Hx HP. apply (Hm (Hφ _ HP)); done. Qed.
End loops.
