(* ===== verification/Durable.v ===== *)
(** * Durable: the controller's rollout state and its stored document

    Models the data half of [updatec/src/runtime/admitted.rs]: the state a publication records,
    its one validation, the inverted stored form of the assignments, and the bounded document
    prepared for storage.  A [String] error is its constructor.  The document's JSON is the
    [Serde] instance of [StoredDurableRolloutState]. *)
From S2P Require Import Prelude Identity Maps Releases Dataflow Telemetry Window Rollout Assignment Groups.

Section durable_state.
Context `{!JsonValues} `{!Sha256} `{!Semver} `{!SemverOrder} `{!Urls} `{!AssignmentJson}.
Context `{!Base64} `{!DataflowJson}.

Record DurableRolloutState : Type := mkDurableRolloutState {
  dr_admitted : BTreeMap AdmittedDeployment;
  dr_vetoed : BTreeMap VetoedDeployment;
  dr_routing : BTreeMap string;
  dr_assignments : BTreeMap string;
}.

#[export] Instance DurableRolloutState_eq_dec : EqDecision DurableRolloutState.
Proof.
  assert (EqDecision AdmittedDeployment) by solve_decision.
  assert (EqDecision VetoedDeployment) by solve_decision. solve_decision.
Defined.

Record StoredDurableRolloutState : Type := mkStoredDurableRolloutState {
  sd_admitted : BTreeMap AdmittedDeployment;
  sd_vetoed : BTreeMap VetoedDeployment;
  sd_routing : BTreeMap string;
  sd_assignments : BTreeMap (list string);
}.

Inductive DurableError : Type :=
| DGroup (group : string)
| DCurrent (group : string) (e : ContractError)
| DPrevious (group : string) (e : ContractError)
| DVeto (identity : string)
| DRoute (node group : string)
| DAssignment (node : string)
| DStoredIdentity (identity : string)
| DStoredNode (node : string)
| DDuplicate (node : string)
| DSerialize
| DCapacity (bytes capacity : N).

Definition validate_admitted (x : string * AdmittedDeployment) : DurableError + unit :=
  let '(group, admitted) := x in
  _ ← demand (is_dns_subdomain group) (DGroup group);
  _ ← map_err (DCurrent group) (RepositoryAssignment_validate (ad_current admitted));
  each (λ previous : RepositoryAssignment,
          map_err (DPrevious group) (RepositoryAssignment_validate previous)) (ad_previous admitted).

Definition validate_veto (x : string * VetoedDeployment) : DurableError + unit :=
  demand (is_canonical_sha256 x.1 && is_segment (vd_deployment x.2)
          && negb (vd_evidence x.2 =? 0)%nat) (DVeto x.1).

(** [DurableRolloutState::validate] *)
Definition durable_validate (s : DurableRolloutState) : DurableError + unit :=
  _ ← each validate_admitted (bt_iter (dr_admitted s));
  _ ← each validate_veto (bt_iter (dr_vetoed s));
  _ ← each (λ x : string * string, demand (is_dns_subdomain x.1 && is_dns_subdomain x.2) (DRoute x.1 x.2))
        (bt_iter (dr_routing s));
  each (λ x : string * string, demand (is_dns_subdomain x.1 && is_canonical_sha256 x.2) (DAssignment x.1))
    (bt_iter (dr_assignments s)).

(** ** The stored form *)

Definition push_assignment (inverted : BTreeMap (list string)) (x : string * string)
    : BTreeMap (list string) :=
  <[x.2 := default [] (inverted !! x.2) ++ [x.1]]> inverted.

Definition encode_assignments (assignments : BTreeMap string) : BTreeMap (list string) :=
  foldl push_assignment ∅ (bt_iter assignments).

Fixpoint decode_nodes (identity : string) (nodes : list string) (assignments : BTreeMap string)
    : DurableError + BTreeMap string :=
  match nodes with
  | [] => inr assignments
  | node :: nodes =>
      _ ← demand (is_dns_subdomain node) (DStoredNode node);
      _ ← demand (negb (contains_key node assignments)) (DDuplicate node);
      decode_nodes identity nodes (<[node := identity]> assignments)
  end.

Fixpoint decode_entries (entries : list (string * list string)) (assignments : BTreeMap string)
    : DurableError + BTreeMap string :=
  match entries with
  | [] => inr assignments
  | (identity, nodes) :: entries =>
      _ ← demand (is_canonical_sha256 identity) (DStoredIdentity identity);
      assignments ← decode_nodes identity nodes assignments;
      decode_entries entries assignments
  end.

Definition decode_assignments (stored : BTreeMap (list string)) : DurableError + BTreeMap string :=
  decode_entries (bt_iter stored) ∅.

(** [From<&DurableRolloutState>] and [TryFrom<StoredDurableRolloutState>] *)
Definition stored_from (s : DurableRolloutState) : StoredDurableRolloutState :=
  mkStoredDurableRolloutState (dr_admitted s) (dr_vetoed s) (dr_routing s)
    (encode_assignments (dr_assignments s)).

Definition durable_try_from (stored : StoredDurableRolloutState) : DurableError + DurableRolloutState :=
  assignments ← decode_assignments (sd_assignments stored);
  let state := mkDurableRolloutState (sd_admitted stored) (sd_vetoed stored) (sd_routing stored) assignments in
  _ ← durable_validate state;
  inr state.

(** ** The prepared document *)

Definition MAX_ADMITTED_STATE_SHARDS : N := 64.
Definition ADMITTED_STATE_SHARD_MAX_BYTES : N := 768 * 1024.

(** A repository's durable-state width, [AdmittedShardLimit::new]. *)
Definition shard_limit (configured : N) : option N :=
  if (1 <=? configured)%N && (configured <=? MAX_ADMITTED_STATE_SHARDS)%N then Some configured else None.

Record PreparedAdmittedState : Type := mkPreparedAdmittedState {
  pr_encoded : string;
  pr_revision_sha256 : string;
  pr_max_shards : N;
}.

Context `{!Serde StoredDurableRolloutState}.

Definition prepare_admitted_state (s : DurableRolloutState) (max_shards : N)
    : DurableError + PreparedAdmittedState :=
  _ ← durable_validate s;
  encoded ← ok_or (to_vec (stored_from s)) DSerialize;
  let capacity := (max_shards * ADMITTED_STATE_SHARD_MAX_BYTES)%N in
  _ ← demand (str_len encoded <=? capacity)%N (DCapacity (str_len encoded) capacity);
  inr (mkPreparedAdmittedState encoded (sha256_bytes encoded) max_shards).

(** What a load makes of the document's bytes. *)
Definition decode_state (encoded : string) : option DurableRolloutState :=
  stored ← from_slice encoded;
  ok_of (durable_try_from stored).

(** ** The inversion *)

(** The pairs a stored form stands for. *)
Definition pairs_of (l : list (string * list string)) : list (string * string) :=
  l ≫= λ x, (λ node, (node, x.1)) <$> x.2.

Lemma pairs_of_perm l l' : l ≡ₚ l' → pairs_of l ≡ₚ pairs_of l'.
Proof. intros Hl. unfold pairs_of. by rewrite Hl. Qed.

Lemma push_assignment_pairs inverted x :
  pairs_of (map_to_list (push_assignment inverted x)) ≡ₚ x :: pairs_of (map_to_list inverted).
Proof.
  destruct x as [node id]. unfold push_assignment. cbn [fst snd].
  destruct (inverted !! id) as [nodes|] eqn:Hi; simpl.
  - rewrite <-insert_delete_eq.
    rewrite (pairs_of_perm _ _ (map_to_list_insert _ _ _ (lookup_delete_eq _ _))).
    rewrite (pairs_of_perm _ _ (symmetry (map_to_list_delete _ _ _ Hi))). unfold pairs_of. simpl.
    rewrite fmap_app. simpl. rewrite <-(assoc (++)). symmetry. apply Permutation_middle.
  - by rewrite (pairs_of_perm _ _ (map_to_list_insert _ _ _ Hi)).
Qed.

Lemma encode_pairs m : pairs_of (bt_iter (encode_assignments m)) ≡ₚ bt_iter m.
Proof.
  rewrite (pairs_of_perm _ _ (bt_iter_perm _)). unfold encode_assignments.
  induction (bt_iter m) as [|x l IH] using rev_ind; [cbn [foldl]; by rewrite map_to_list_empty|].
  rewrite foldl_app. cbn [foldl]. rewrite push_assignment_pairs, IH. by rewrite <-Permutation_cons_append.
Qed.

Lemma decode_nodes_spec id nodes : ∀ acc,
  Forall (λ node, is_dns_subdomain node = true) nodes → NoDup nodes → (∀ n, n ∈ nodes → acc !! n = None) →
  ∃ acc', decode_nodes id nodes acc = inr acc'
    ∧ ∀ n i, acc' !! n = Some i ↔ (n ∈ nodes ∧ i = id) ∨ acc !! n = Some i.
Proof.
  induction nodes as [|node nodes IH]; intros acc Hd Hnd Hno; cbn [decode_nodes].
  { exists acc. split; [done|]. intros n i. rewrite elem_of_nil. naive_solver. }
  apply Forall_cons in Hd as [Hn Hd]. apply NoDup_cons in Hnd as [Hni Hnd].
  assert (acc !! node = None) as Hacc by (apply Hno; constructor).
  rewrite Hn. unfold demand at 1. cbn [mbind sum_bind]. unfold contains_key. rewrite Hacc. cbn [mbind sum_bind demand].
  destruct (IH (<[node := id]> acc) Hd Hnd) as (acc' & Hdec & Hacc').
  { intros n Hin. rewrite lookup_insert_ne; [apply Hno; by constructor|]. by intros ->. }
  exists acc'. split; [exact Hdec|]. intros n i. rewrite Hacc', elem_of_cons.
  destruct (decide (n = node)) as [->|Hne].
  - rewrite lookup_insert_eq. naive_solver.
  - rewrite lookup_insert_ne by done. naive_solver.
Qed.

Lemma elem_of_pairs n i l : (n, i) ∈ pairs_of l ↔ ∃ nodes, (i, nodes) ∈ l ∧ n ∈ nodes.
Proof.
  unfold pairs_of. rewrite list_elem_of_bind. split.
  - intros ([id nodes] & (n' & Heq & Hn)%list_elem_of_fmap & Hl). simpl in *. injection Heq as -> ->. eauto.
  - intros (nodes & Hl & Hn). exists (i, nodes). split; [|done]. simpl. apply list_elem_of_fmap. eauto.
Qed.

Lemma decode_entries_spec l : ∀ acc,
  (∀ n i, (n, i) ∈ pairs_of l → is_dns_subdomain n = true) →
  Forall (λ x, is_canonical_sha256 x.1 = true) l →
  NoDup (pairs_of l).*1 → (∀ n, n ∈ (pairs_of l).*1 → acc !! n = None) →
  ∃ acc', decode_entries l acc = inr acc'
    ∧ ∀ n i, acc' !! n = Some i ↔ (n, i) ∈ pairs_of l ∨ acc !! n = Some i.
Proof.
  induction l as [|[id nodes] l IH]; intros acc Hd Hc Hnd Hno; cbn [decode_entries].
  { exists acc. split; [done|]. intros n i. unfold pairs_of. simpl. rewrite elem_of_nil. naive_solver. }
  apply Forall_cons in Hc as [Hid Hc]. cbn [fst] in Hid. rewrite Hid. cbn [mbind sum_bind demand].
  assert (pairs_of ((id, nodes) :: l) = ((λ node, (node, id)) <$> nodes) ++ pairs_of l) as Hp by done.
  assert (∀ n, n ∈ nodes ↔ n ∈ ((λ node, (node, id)) <$> nodes).*1) as Hfst.
  { intros n. rewrite <-list_fmap_compose. simpl. by rewrite list_fmap_id. }
  rewrite Hp, fmap_app in Hnd. apply NoDup_app in Hnd as (Hnd1 & Hdis & Hnd2).
  rewrite <-list_fmap_compose in Hnd1. simpl in Hnd1. rewrite list_fmap_id in Hnd1.
  destruct (decode_nodes_spec id nodes acc) as (acc1 & -> & H1').
  { apply Forall_forall. intros n Hn. apply (Hd n id), elem_of_pairs. exists nodes. split; [constructor|done]. }
  { done. }
  { intros n Hn. apply Hno. rewrite Hp, fmap_app, elem_of_app, <-Hfst. by left. }
  cbn [mbind sum_bind]. destruct (IH acc1) as (acc2 & Hdec & H2').
  { intros n i Hin. apply (Hd n i). rewrite Hp. apply elem_of_app. by right. }
  { done. } { done. }
  { intros n Hn. apply eq_None_not_Some. intros [i [[Hin _]|Hacc]%H1'].
    - apply (Hdis n); [by apply Hfst|done].
    - rewrite Hno in Hacc; [done|]. rewrite Hp, fmap_app, elem_of_app. by right. }
  exists acc2. split; [exact Hdec|]. intros n i. rewrite H2', H1', Hp, elem_of_app, list_elem_of_fmap. naive_solver.
Qed.

Lemma validate_assignments s :
  durable_validate s = inr tt →
  ∀ node id, dr_assignments s !! node = Some id → is_dns_subdomain node = true ∧ is_canonical_sha256 id = true.
Proof.
  unfold durable_validate. intros Hv node id Hn. sum_inv.
  rename select (∀ x, x ∈ bt_iter (dr_assignments s) → _) into He.
  specialize (He (node, id) (proj2 (elem_of_bt_iter _ _ _) Hn)). cbn in He. sum_inv. by bool_to_prop.
Qed.

Lemma assignments_roundtrip s :
  durable_validate s = inr tt →
  decode_assignments (encode_assignments (dr_assignments s)) = inr (dr_assignments s).
Proof.
  intros Hv. pose proof (validate_assignments s Hv) as Ha. set (m := dr_assignments s) in *.
  assert (∀ n i, (n, i) ∈ pairs_of (bt_iter (encode_assignments m)) ↔ m !! n = Some i) as Hp.
  { intros n i. by rewrite encode_pairs, elem_of_bt_iter. }
  destruct (decode_entries_spec (bt_iter (encode_assignments m)) ∅) as (m' & Hdec & Hm').
  - intros n i Hin%Hp. by destruct (Ha n i Hin).
  - apply Forall_forall. intros [id nodes] Hin. simpl. destruct nodes as [|n nodes].
    + exfalso. apply elem_of_bt_iter in Hin. unfold encode_assignments in Hin. revert Hin.
      induction (bt_iter m) as [|x l IH] using rev_ind; [done|]. rewrite foldl_app. cbn [foldl]. unfold push_assignment.
      intros [[_ Heq]|[_ ?]]%lookup_insert_Some; [by destruct (default _ _)|auto].
    + assert (m !! n = Some id) as Hn.
      { apply Hp, elem_of_pairs. exists (n :: nodes). split; [done|constructor]. }
      by destruct (Ha n id Hn).
  - rewrite encode_pairs. apply NoDup_bt_keys.
  - done.
  - unfold decode_assignments. rewrite Hdec. f_equal. apply map_eq. intros n. apply option_eq. intros i.
    rewrite Hm', Hp. naive_solver.
Qed.

Lemma durable_roundtrip s : durable_validate s = inr tt → durable_try_from (stored_from s) = inr s.
Proof.
  intros Hv. unfold durable_try_from. cbn [sd_assignments stored_from]. rewrite assignments_roundtrip by done.
  cbn [mbind sum_bind]. destruct s. cbn in *. by rewrite Hv.
Qed.

Lemma prepared_decodes s max_shards prepared :
  prepare_admitted_state s max_shards = inr prepared →
  decode_state (pr_encoded prepared) = Some s
  ∧ durable_validate s = inr tt
  ∧ pr_revision_sha256 prepared = sha256_bytes (pr_encoded prepared)
  ∧ pr_max_shards prepared = max_shards
  ∧ (str_len (pr_encoded prepared) <= max_shards * ADMITTED_STATE_SHARD_MAX_BYTES)%N.
Proof.
  unfold prepare_admitted_state. intros Hp. sum_inv. bool_to_prop.
  rename select (durable_validate s = _) into Hv. rename select (to_vec _ = _) into He.
  assert (durable_validate s = inr tt) as Hv' by (destruct (durable_validate s) as [|[]]; congruence).
  split_and!; [|done..|by apply N.leb_le]. simpl. unfold decode_state. rewrite (serde_roundtrip _ _ He). cbn [mbind option_bind].
  by rewrite durable_roundtrip.
Qed.

End durable_state.
