(* ===== verification/Lease.v ===== *)
(** * Lease: the single-writer lease

    Models [updatec/src/runtime/lease.rs].  Several controller replicas compete for one Lease object
    of the API server; the one that holds it publishes.  Instants are microseconds, the precision of
    a [MicroTime].  Every replica reads a clock of its own, ahead of a common time by an offset of its
    own; the theorems say what a bound on those offsets buys.  Instants so large that adding a
    lease's duration leaves chrono's range are not considered. *)
From S2P Require Import Prelude Identity Maps Shared.

#[local] Open Scope Z_scope.

Definition i32_max : Z := 2147483647.
Definition LEASE_SECONDS : Z := 15.
Definition micros (seconds : Z) : Z := seconds * 1000000.

Record LeaseSpec : Type := mkLeaseSpec {
  ls_holder_identity : option string;
  ls_lease_duration_seconds : option Z;
  ls_acquire_time : option Z;
  ls_renew_time : option Z;
  ls_lease_transitions : option Z;
  ls_preferred_holder : option string;
  ls_strategy : option string;
}.

#[export] Instance LeaseSpec_eq_dec : EqDecision LeaseSpec.
Proof. solve_decision. Defined.

(** A Lease is the specification it may carry. *)
Abbreviation Lease := (option LeaseSpec).

Definition lease_default : LeaseSpec := mkLeaseSpec None None None None None None None.

Definition publisher_lease_name `{!Sha256} (repository : string) : string :=
  String.append "updatec-publisher-" (String.substring 0 32 (sha256_bytes repository)).

Definition new_lease_spec (identity : string) (now transitions : Z) : LeaseSpec :=
  mkLeaseSpec (Some identity) (Some LEASE_SECONDS) (Some now) (Some now) (Some transitions) None None.

(** When a lease renewed at an instant lapses. *)
Definition lease_deadline (spec : LeaseSpec) (renewed : Z) : Z :=
  renewed + micros (Z.max (default 0 (ls_lease_duration_seconds spec)) 0).

Definition lease_expired (spec : LeaseSpec) (now : Z) : bool :=
  match ls_renew_time spec with
  | None => true
  | Some renewed => lease_deadline spec renewed <=? now
  end.

(** A conflict is an ordinary follower outcome. *)
Definition won (r : ApiError + N) : ApiError + bool :=
  match r with
  | inr _ => inr true
  | inl EConflict => inr false
  | inl e => inl e
  end.

(** The specification a candidate writes over the one it read, if the lease is its to take. *)
Definition next_spec (spec : LeaseSpec) (identity : string) (now : Z) : option LeaseSpec :=
  let held_by_us := bool_decide (ls_holder_identity spec = Some identity) in
  if negb held_by_us && negb (lease_expired spec now) then None
  else
    let transitions := Z.min i32_max (default 0 (ls_lease_transitions spec) + (if held_by_us then 0 else 1)) in
    let next := new_lease_spec identity now transitions in
    Some (if held_by_us then
            match ls_acquire_time spec with
            | Some acquire =>
                mkLeaseSpec (ls_holder_identity next) (ls_lease_duration_seconds next) (Some acquire)
                  (ls_renew_time next) (ls_lease_transitions next) (ls_preferred_holder next) (ls_strategy next)
            | None => next
            end
          else next).

(** [chrono::Utc::now()] of a replica whose clock is [ahead] of the common time. *)
Definition utc_now (ahead : Z) : Sh Lease Z := t ← now; mret (t + ahead).

(** [acquire_or_renew_lease] *)
Definition acquire_or_renew_lease (ahead : Z) (name identity : string) : Sh Lease (ApiError + bool) :=
  t ← utc_now ahead;
  o ←? get_opt name;
  match o with
  | None => r ← create name (Some (new_lease_spec identity t 0)); mret (won r)
  | Some (version, lease) =>
      match next_spec (default lease_default lease) identity t with
      | None => mret (inr false)
      | Some spec => r ← replace name version (Some spec); mret (won r)
      end
  end.

(** [holds_lease] *)
Definition holds_lease (ahead : Z) (name identity : string) : Sh Lease (ApiError + bool) :=
  o ←? get_opt name;
  match o with
  | None | Some (_, None) => mret (inr false)
  | Some (_, Some spec) =>
      t ← utc_now ahead;
      mret (inr (bool_decide (ls_holder_identity spec = Some identity) && negb (lease_expired spec t)))
  end.

Definition acquire_or_renew_publisher_lease `{!Sha256} (ahead : Z) (repository identity : string) : Sh Lease (ApiError + bool) :=
  acquire_or_renew_lease ahead (publisher_lease_name repository) identity.

Definition holds_publisher_lease `{!Sha256} (ahead : Z) (repository identity : string) : Sh Lease (ApiError + bool) :=
  holds_lease ahead (publisher_lease_name repository) identity.

(** ** What the candidates rely on *)

Section law.
Context (name : string).
(** The common time is that of the slowest clock; no other is more than [apart] ahead of it. *)
Context (apart : Z).
Implicit Types (s : shared Lease) (spec : LeaseSpec).

(** [A] holds the lease, which does not lapse before [e]. *)
Definition held_until s (A : string) (e : Z) : Prop :=
  ∃ version spec renewed, sh_objects s !! name = Some (version, Some spec) ∧ ls_holder_identity spec = Some A
    ∧ ls_renew_time spec = Some renewed ∧ e ≤ lease_deadline spec renewed.

(** What candidate [I] relies on: time and versions advance, nobody takes a lease that has not
    lapsed on the fastest clock, and nobody else writes a lease for [I]. *)
Record lease_rely (I : string) s s' : Prop := mkLeaseRely {
  lr_clock : sh_clock s ≤ sh_clock s';
  lr_next : (sh_next s ≤ sh_next s')%N;
  lr_fresh o : sh_objects s' !! name = Some o →
    sh_objects s !! name = Some o ∨ (sh_next s ≤ o.1 < sh_next s')%N;
  lr_kept A e : held_until s A e → sh_clock s' + apart < e → held_until s' A e;
  lr_mine version spec : sh_objects s' !! name = Some (version, Some spec) →
    ls_holder_identity spec = Some I → sh_objects s !! name = Some (version, Some spec);
}.

#[export] Instance lease_rely_preorder I : PreOrder (lease_rely I).
Proof.
  split.
  - intros s. split; auto; lia.
  - intros s1 s2 s3 [] []. split; [lia..| | |].
    + intros o Ho. destruct (lr_fresh1 o Ho) as [Ho2|?]; [|right; lia].
      destruct (lr_fresh0 o Ho2) as [?|?]; [by left|right; lia].
    + intros A e Hh Hc. apply lr_kept1; [|done]. apply lr_kept0; [done|lia].
    + intros v spec Hs Hi. eauto.
Qed.

(** The state of a process that only ever wrote [new_lease_spec]s of its clock's readings for itself. *)
Record lease_wf (I : string) (ahead : Z) s : Prop := mkLeaseWf {
  lw_version o : sh_objects s !! name = Some o → (o.1 < sh_next s)%N;
  lw_mine e : held_until s I e → e ≤ sh_clock s + ahead + micros LEASE_SECONDS;
}.

Lemma lease_wf_rely I ahead s s' : lease_wf I ahead s → lease_rely I s s' → lease_wf I ahead s'.
Proof.
  intros [Hv Hm] []. split.
  - intros o [Ho|?]%lr_fresh0; [|lia]. specialize (Hv o Ho). lia.
  - intros e (v & spec & r & Ho & Hh & Hr & He). specialize (lr_mine0 v spec Ho Hh).
    transitivity (sh_clock s + ahead + micros LEASE_SECONDS); [|lia]. apply Hm. unfold held_until. eauto 10.
Qed.

(** ** One write *)

(** What [J] guarantees is what every other candidate relies on. *)
Definition lease_guarantee (J : string) s s' : Prop :=
  ∀ I, I ≠ J → lease_rely I s s'.

Lemma write_lease_rely I J s spec t :
  I ≠ J → ls_holder_identity spec = Some J → ls_renew_time spec = Some t →
  (∀ A e, held_until s A e → sh_clock s + apart < e → A = J ∧ e ≤ lease_deadline spec t) →
  lease_rely I s (put_object name (Some spec) s).
Proof.
  intros Hne Hh Hr Hk. split; cbn [put_object sh_objects sh_next sh_clock]; [lia..| | |].
  - intros o. rewrite lookup_insert_eq. intros [= <-]. right. cbn [fst]. lia.
  - intros A e He Hc. destruct (Hk A e He Hc) as [-> ?].
    exists (sh_next s), spec, t. simpl. rewrite lookup_insert_eq. auto.
  - intros v spec'. rewrite lookup_insert_eq. intros [= _ <-]. congruence.
Qed.

Lemma next_spec_Some spec J t spec' :
  next_spec spec J t = Some spec' →
  (ls_holder_identity spec = Some J ∨ lease_expired spec t = true)
  ∧ ls_holder_identity spec' = Some J ∧ ls_renew_time spec' = Some t
  ∧ lease_deadline spec' t = t + micros LEASE_SECONDS.
Proof.
  unfold next_spec. case_bool_decide as Hj; simpl.
  - intros [= <-]. split; [by left|]. destruct (ls_acquire_time spec); done.
  - destruct (lease_expired spec t) eqn:He; simpl; [|done]. intros [= <-]. auto.
Qed.

(** The candidate: its clock, which is not the fastest by more than the bound. *)
Context (ahead : Z) (Hahead : ahead ≤ apart).

(** Whoever may write over what was read: its holder, or anyone once it lapsed. *)
Lemma takeable_lease J s v lease t spec' :
  sh_objects s !! name = Some (v, lease) → t ≤ sh_clock s + ahead →
  next_spec (default lease_default lease) J t = Some spec' →
  (∀ e, held_until s J e → e ≤ t + micros LEASE_SECONDS) →
  ∀ A e, held_until s A e → sh_clock s + apart < e → A = J ∧ e ≤ lease_deadline spec' t.
Proof.
  intros Ho Ht (Hcase & _ & _ & ->)%next_spec_Some Hmine A e Hheld Hc.
  pose proof Hheld as (v' & spec & r & Ho' & Hh & Hr & He). rewrite Ho in Ho'. injection Ho' as -> ->. simpl in Hcase.
  destruct Hcase as [Hj|Hx].
  - assert (A = J) as -> by congruence. auto.
  - unfold lease_expired in Hx. rewrite Hr in Hx. apply Z.leb_le in Hx. lia.
Qed.

(** ** The candidates *)

(** Nothing that has not lapsed on the fastest clock by the end changed hands. *)
Definition leases_kept s s' : Prop :=
  ∀ A e, held_until s A e → sh_clock s' + apart < e → held_until s' A e.

Definition call_outcome (J : string) s (t : Z) (r : ApiError + bool) s' : Prop :=
  lease_wf J ahead s' ∧ sh_clock s ≤ sh_clock s' ∧ leases_kept s s'
  ∧ (r = inr true → held_until s' J (t + micros LEASE_SECONDS)).

Lemma rely_outcome J s t r s' :
  lease_wf J ahead s → lease_rely J s s' → r ≠ inr true → call_outcome J s t r s'.
Proof.
  intros Hw HR Hr. split; [by eapply lease_wf_rely|]. split; [by apply HR|]. split; [|done].
  intros A e. apply HR.
Qed.

Lemma write_outcome J s s1 t spec r :
  lease_wf J ahead s → lease_rely J s s1 → t ≤ sh_clock s1 + ahead →
  ls_holder_identity spec = Some J → ls_renew_time spec = Some t →
  lease_deadline spec t = t + micros LEASE_SECONDS →
  (∀ A e, held_until s1 A e → sh_clock s1 + apart < e → A = J ∧ e ≤ lease_deadline spec t) →
  call_outcome J s t r (put_object name (Some spec) s1).
Proof.
  intros Hw HR Ht Hh Hr Hd Hk.
  assert (held_until (put_object name (Some spec) s1) J (t + micros LEASE_SECONDS)) as Hnow.
  { exists (sh_next s1), spec, t. simpl. rewrite lookup_insert_eq, Hd. auto using Z.le_refl. }
  split; [split|split; [|split]].
  - intros o. simpl. rewrite lookup_insert_eq. intros [= <-]. cbn [fst]. lia.
  - intros e (v & spec' & r' & Ho & _ & Hr' & He). simpl in Ho. rewrite lookup_insert_eq in Ho.
    injection Ho as <- <-. rewrite Hr in Hr'. injection Hr' as <-. simpl. lia.
  - simpl. by apply HR.
  - intros A e Ha Hc. simpl in Hc. apply lr_kept with (I := J) (s' := s1) in Ha; [|done|lia].
    destruct (Hk A e Ha) as [-> Hle]; [lia|]. destruct Hnow as (v & spec' & r' & ? & ? & ? & ?).
    exists v, spec', r'. split_and!; [done..|lia].
  - done.
Qed.

(** The write that takes or renews the lease, when it may. *)
Lemma runs_write J allowed spec t (P : shared Lease → Prop) :
  ls_holder_identity spec = Some J → ls_renew_time spec = Some t →
  lease_deadline spec t = t + micros LEASE_SECONDS →
  (∀ s, P s → lease_wf J ahead s ∧ t ≤ sh_clock s + ahead) →
  (∀ s s1, P s → lease_rely J s s1 → allowed s1 = inr tt →
     ∀ A e, held_until s1 A e → sh_clock s1 + apart < e → A = J ∧ e ≤ lease_deadline spec t) →
  runs (lease_rely J) (lease_guarantee J) P
    (r ← change allowed (put_object name (Some spec)); mret (won r)) (λ s r s', call_outcome J s t r s').
Proof.
  intros Hh Hr Hd HP Hk. eapply sh_bind.
  - apply runs_change; [apply _|]. intros s s1 Hs HR Ha I Hne. by eapply write_lease_rely; eauto.
  - intros s r Hs. apply sh_ret. intros s' (s1 & HR & Hch). destruct (HP s Hs) as [Hw Ht].
    destruct Hch as [[-> Hfail]|(Ha & -> & _)].
    + apply rely_outcome; [done..|]. destruct Hfail as [->|(e & _ & ->)]; [done|]. by destruct e.
    + eapply write_outcome; eauto. destruct HR. lia.
Qed.

Lemma lease_of_version J s s1 v lease o :
  lease_wf J ahead s → lease_rely J s s1 → sh_objects s !! name = Some (v, lease) →
  sh_objects s1 !! name = Some (v, o) → o = lease.
Proof.
  intros Hw HR Ho Ho1. destruct (lr_fresh _ _ _ HR (v, o) Ho1) as [?|Hf]; [congruence|].
  pose proof (lw_version _ _ _ Hw _ Ho) as Hv. simpl in *. lia.
Qed.

Lemma held_rely J s s1 e : lease_rely J s s1 → held_until s1 J e → held_until s J e.
Proof.
  intros HR (v & spec & r & Ho & Hh & Hr & He). exists v, spec, r. split; [|done].
  by eapply lr_mine.
Qed.

Lemma runs_utc_now J P :
  runs (lease_rely J) (lease_guarantee J) P (utc_now ahead) (λ s t s', lease_rely J s s' ∧ t = sh_clock s' + ahead).
Proof.
  unfold utc_now. eapply sh_bind; [apply runs_now, _|]. intros s t _. apply sh_ret. by intros s' [HR ->].
Qed.

Lemma acquire_or_renew_runs J :
  runs (lease_rely J) (lease_guarantee J) (lease_wf J ahead) (acquire_or_renew_lease ahead name J)
    (λ s r s', ∃ t, sh_clock s ≤ t ∧ call_outcome J s (t + ahead) r s').
Proof.
  unfold acquire_or_renew_lease.
  eapply sh_bind; [apply runs_utc_now|]. intros s t Hw.
  eapply runs_weaken with (Q' := λ s1 r s', sh_clock s + ahead ≤ t ∧ call_outcome J s1 t r s');
    [|intros s1 Hs1; exact Hs1|].
  2:{ intros s1 r s' [HR ->] (Hle & Hw' & Hc & Hk & Ht). exists (sh_clock s1). split; [lia|].
      split; [done|]. destruct HR. split; [lia|]. split; [|done]. intros A e He Hlt. apply Hk; [|done].
      apply lr_kept0; [done|lia]. }
  eapply runs_try; [apply runs_read, _|..].
  - intros s1 e s2 [HR ->] [HR2 _]. split; [destruct HR; lia|]. apply rely_outcome; [|done|done].
    by eapply lease_wf_rely.
  - intros s1 o [HR ->]. simpl. pose proof (lease_wf_rely _ _ _ _ Hw HR) as Hw1.
    eapply runs_weaken with (P' := λ s2, lease_rely J s1 s2 ∧ o = sh_objects s2 !! name)
      (Q' := λ s2 r s', call_outcome J s2 (sh_clock s1 + ahead) r s'); [|by intros s2 [? [[=]|[= ->]]]|].
    2:{ intros s2 r s' [HR2 _] (Hw' & Hc & Hk & Ht). split; [destruct HR; lia|]. split; [done|].
        destruct HR2. split; [lia|]. split; [|done]. intros A e He Hlt. apply Hk; [|done].
        apply lr_kept0; [done|lia]. }
    assert (∀ s2, lease_rely J s1 s2 ∧ o = sh_objects s2 !! name →
      lease_wf J ahead s2 ∧ sh_clock s1 + ahead ≤ sh_clock s2 + ahead) as HP.
    { intros s2 [HR2 _]. split; [by eapply lease_wf_rely|destruct HR2; lia]. }
    destruct o as [[v lease]|]; [destruct (next_spec _ J _) as [spec|] eqn:Hn|].
    + pose proof (next_spec_Some _ _ _ _ Hn) as (_ & ? & ? & ?). apply runs_write; [done..|].
      intros s2 s3 [HR2 Ho] HR3 Ha. unfold version_of in Ha.
      destruct (sh_objects s3 !! name) as [[v' lease']|] eqn:Ho3; simpl in Ha; [|done].
      apply demand_inr, bool_decide_eq_true in Ha as ->.
      assert (lease' = lease) as ->. { eapply (lease_of_version J s2 s3); eauto. by apply HP. }
      assert (lease_rely J s1 s3) as HR13 by (by etrans).
      eapply takeable_lease; eauto; [destruct HR13; lia|].
      intros e He. eapply lw_mine; [exact Hw1|]. by eapply held_rely.
    + apply sh_ret. intros s2 Hs2. apply rely_outcome; [by apply HP|reflexivity|done].
    + apply runs_write; [done..|]. intros s2 s3 _ _ Ha%demand_inr A e (v & spec & r & Ho & _).
      apply bool_decide_eq_true in Ha. congruence.
Qed.

Lemma holds_lease_runs J :
  runs (lease_rely J) (lease_guarantee J) (lease_wf J ahead) (holds_lease ahead name J)
    (λ s r s', lease_rely J s s' ∧ (r = inr true → ∃ e, sh_clock s' + ahead < e
       ∧ (sh_clock s' + apart < e → held_until s' J e))).
Proof.
  unfold holds_lease. eapply runs_try; [apply runs_read, _|..].
  - intros s e s' Hw [HR _]. by split.
  - intros s o Hw. destruct o as [[v [spec|]]|]; [|apply sh_ret; by intros s' [HR _]..].
    eapply sh_bind; [apply runs_utc_now|]. intros s1 t [HR1 [[=]|[= Ho]]]. apply sh_ret. intros s2 [HR2 ->].
    split; [by etrans|]. intros [= Hb]. bool_to_prop. unfold lease_expired in *.
    destruct (ls_renew_time spec) as [renewed|] eqn:Hr; [|done].
    match goal with H : (_ <=? _) = false |- _ => apply Z.leb_gt in H end.
    exists (lease_deadline spec renewed). split; [done|]. intros Hlt. eapply lr_kept; [exact HR2| |done].
    exists v, spec, renewed. auto using Z.le_refl.
Qed.

(** Left alone, a candidate gets the lease exactly when it is free, its own, or lapsed on its clock. *)
Lemma acquire_alone J s :
  ∃ c, acquire_or_renew_lease ahead name J (starts s []) =
    (inr (match sh_objects s !! name with
          | None => true
          | Some (_, lease) =>
              let spec := default lease_default lease in
              bool_decide (ls_holder_identity spec = Some J) || lease_expired spec (sh_clock s + ahead)
          end), c).
Proof.
  unfold acquire_or_renew_lease, utc_now, sh_try, mbind, Sh_bind, mret, Sh_ret, get_opt, starts. simpl.
  destruct (sh_objects s !! name) as [[v lease]|] eqn:Ho.
  - destruct (next_spec _ J _) as [spec|] eqn:Hn.
    + apply next_spec_Some in Hn as [Hcase _]. unfold replace. rewrite change_quiet. unfold version_of. rewrite Ho.
      simpl. rewrite bool_decide_true by done. simpl. eexists. repeat f_equal. symmetry.
      destruct Hcase as [?| ->]; [by rewrite bool_decide_true|by rewrite orb_true_r].
    + unfold next_spec in Hn. destruct (bool_decide (_ = Some J)) eqn:Hb; simpl in Hn; [done|].
      destruct (lease_expired _ _); simpl in Hn; [done|]. simpl. eauto.
  - unfold create. rewrite change_quiet, bool_decide_true by done. simpl. eauto.
Qed.

End law.

(** ** The publisher's lease *)

Section publisher.
Context `{!Sha256} (repository identity : string).
Let name := publisher_lease_name repository.

(** C20. One publisher at a time, up to the clocks.  Every replica compares the instants others wrote
    with its own clock.  Measure time by the slowest of those clocks, let this replica's be [ahead]
    of it, constantly, and every one at most [apart].  Among replicas that keep to the lease's law,
    a replica that acquires or renews writes only what the law of every other replica allows: no lease
    changes hands while its deadline is more than [apart] away.  A replica told that it won holds the
    lease for fifteen seconds from a reading of its clock during the call; one told right before
    publishing that it holds the lease reads it as unlapsed on its own clock, and is its holder at
    that moment if the deadline is still more than [apart] away.  With clocks that agree ([apart]
    and [ahead] zero) the replica told so is the unlapsed holder; with clocks that differ, the lease
    alone leaves a window of [apart] before each deadline in which another may already have taken it. *)
Theorem one_publisher_at_a_time apart ahead s turns r c :
  ahead ≤ apart → lease_wf name identity ahead s → honest (lease_rely name apart identity) turns →
  (acquire_or_renew_publisher_lease ahead repository identity (starts s turns) = (r, c) →
     guaranteed (lease_guarantee name apart identity) (cl_made c)
     ∧ lease_wf name identity ahead (cl_shared c)
     ∧ leases_kept name apart s (cl_shared c)
     ∧ (r = inr true → ∃ t, sh_clock s ≤ t ∧ held_until name (cl_shared c) identity (t + ahead + micros LEASE_SECONDS)))
  ∧ (holds_publisher_lease ahead repository identity (starts s turns) = (r, c) →
     r = inr true → ∃ e, sh_clock (cl_shared c) + ahead < e
       ∧ (sh_clock (cl_shared c) + apart < e → held_until name (cl_shared c) identity e)).
Proof.
  intros Ha Hw Hh. split; intros Hr.
  - destruct (acquire_or_renew_runs name apart ahead Ha identity (starts s turns) _ _ Hh (Forall_nil_2 _) Hw Hr) as (_ & Hg & t & Ht & Ho).
    destruct Ho as (Hw' & _ & Hk & Hwon). split_and!; [done..|]. intros Heq. eauto.
  - destruct (holds_lease_runs name apart ahead identity (starts s turns) _ _ Hh (Forall_nil_2 _) Hw Hr) as (_ & _ & _ & Hq). by apply Hq.
Qed.

End publisher.
