(* ===== verification/Gateway.v ===== *)
(** * Gateway: who a client certificate is, and what its identity may do

    Models the pure half of the mTLS gateway: the node identity a leaf carries
    ([updatec/src/join.rs]), the one classification of a leaf ([gateway/identity.rs]), the
    authorization policy over the live [UpdateAgent] ([gateway/data.rs]) and the memo of recent
    decisions ([gateway/state.rs]).  X.509 and CSR parsing and signing are parameters. *)
From S2P Require Import Prelude Identity Maps Releases Dataflow Telemetry Window Rollout Assign.
From S2P Require Import Assignment Groups Publication Inputs Inventory.

(** ** The identity in a leaf *)

Definition TRUST_DOMAIN : string := "updated.fleet".
Definition LEAF_CERT_TTL_DAYS : Z := 90.

Record NodeSpiffeId : Type := mkNodeSpiffeId { sp_repository : string; sp_node : string }.

#[export] Instance NodeSpiffeId_eq_dec : EqDecision NodeSpiffeId.
Proof. solve_decision. Defined.

Definition NodeSpiffeId_new (repository node : string) : option NodeSpiffeId :=
  if is_dns_subdomain repository && is_dns_subdomain node then Some (mkNodeSpiffeId repository node) else None.

Definition spiffe_scope : string :=
  String.append "spiffe://" (String.append TRUST_DOMAIN "/scope/").

Definition spiffe_uri (id : NodeSpiffeId) : string :=
  String.append spiffe_scope (String.append (sp_repository id) (String.append "/node/" (sp_node id))).

(** [s.split_once(pat)], around the first occurrence of a non-empty pattern. *)
Fixpoint split_once_str (pat s : string) : option (string * string) :=
  match strip_prefix pat s with
  | Some b => Some (EmptyString, b)
  | None =>
      match s with
      | EmptyString => None
      | String c s => (λ x : string * string, (String c x.1, x.2)) <$> split_once_str pat s
      end
  end.

Definition spiffe_parse (uri : string) : option NodeSpiffeId :=
  rest ← strip_prefix spiffe_scope uri;
  '(repository, node) ← split_once_str "/node/" rest;
  NodeSpiffeId_new repository node.

(** ** Certificates *)

Inductive GeneralName : Type := GUri (uri : string) | GOther (encoded : string).

(** A parsed certificate: its common names, of which one may not be text; its subject alternative
    names, if the extension parses; and its key. *)
Record Certificate : Type := mkCertificate {
  ce_common_names : list (option string);
  ce_subject_alternative_name : option (option (list GeneralName));
  ce_public_key : string;
}.

(** What a leaf is signed with. *)
Record LeafParams : Type := mkLeafParams {
  lp_common_name : string;
  lp_uri : string;
  lp_not_before : Z;
  lp_not_after : Z;
}.

(** rcgen and x509-parser. A signed leaf parses to what it was signed with and to the key of its
    CSR. *)
Class Certificates : Type := {
  csr_point : string → option string;
  signed_by : LeafParams → string → option string;
  parse_x509_certificate : string → option (string * Certificate);
  signed_parses params csr leaf : signed_by params csr = Some leaf →
    ∃ point, csr_point csr = Some point
      ∧ parse_x509_certificate leaf = Some (EmptyString,
          mkCertificate [Some (lp_common_name params)] (Some (Some [GUri (lp_uri params)])) point);
}.

Inductive ClientIdentity : Type :=
| Anonymous
| Enrollment (common_name : string)
| Node (id : NodeSpiffeId) (public_key : string).

Definition node_in (i : ClientIdentity) (repository : string) : option string :=
  match i with
  | Node id _ => if bool_decide (sp_repository id = repository) then Some (sp_node id) else None
  | _ => None
  end.

Definition enrollment_name (i : ClientIdentity) : option string :=
  match i with Enrollment common_name => Some common_name | _ => None end.

Definition node_public_key (i : ClientIdentity) : option string :=
  match i with Node _ public_key => Some public_key | _ => None end.

Definition is_enrollment_identity (i : ClientIdentity) (enrollment_client_cn : string) : bool :=
  negb (bool_decide (enrollment_client_cn = EmptyString))
  && bool_decide (enrollment_name i = Some enrollment_client_cn).

Definition is_distinct_from_bootstrap_identity (name enrollment_client_cn : string) : bool :=
  negb (bool_decide (enrollment_client_cn = EmptyString)) && negb (bool_decide (name = enrollment_client_cn)).

(** ** Live identities *)

(** An [UpdateAgent] as the gateway reads it; the metadata it never looks at is not kept. *)
Record AgentObject : Type := mkAgentObject {
  ao_name : option string;
  ao_deletion_timestamp : option Z;
  ao_repository : string;
  ao_identity : AgentIdentity;
  ao_hold : bool;
  ao_cordon : bool;
  ao_labels : BTreeMap string;
  ao_backend_address : option string;
  ao_enrollment_object_key : option string;
}.

Section gateway.
Context `{!ReportParts} `{!Semver} `{!Signed} `{!Curve} `{!Sha256} `{!Certificates}.

(** [certificate_identity] *)
Definition certificate_identity (leaf : string) : ClientIdentity :=
  match parse_x509_certificate leaf with
  | Some (EmptyString, cert) =>
      match ce_common_names cert with
      | [Some common_name] =>
          if bool_decide (common_name = EmptyString) then Anonymous
          else
            match ce_subject_alternative_name cert with
            | None => Anonymous
            | Some None => Enrollment common_name
            | Some (Some [GUri uri]) =>
                match spiffe_parse uri with
                | Some id =>
                    if bool_decide (sp_node id = common_name)
                    then Node id (hex_encode (ce_public_key cert)) else Anonymous
                | None => Anonymous
                end
            | Some (Some _) => Anonymous
            end
      | _ => Anonymous
      end
  | _ => Anonymous
  end.

(** [csr_public_key], to its hexadecimal spelling. *)
Definition csr_public_key (csr : string) : option string :=
  point ← csr_point csr;
  _ ← ok_of (from_point point);
  Some (hex_encode point).

(** [IssuingCa::sign_client_csr], on a day. *)
Definition sign_client_csr (today : Z) (scope name csr : string) : option string :=
  _ ← csr_point csr;
  id ← NodeSpiffeId_new scope name;
  signed_by (mkLeafParams name (spiffe_uri id) today (today + LEAF_CERT_TTL_DAYS)%Z) csr.

Definition agent_has_live_identity (agent : AgentObject) (repository node : string) : bool :=
  bool_decide (ao_deletion_timestamp agent = None)
  && bool_decide (ao_name agent = Some node)
  && bool_decide (ao_repository agent = repository)
  && is_well_formed_for (ao_identity agent) node.

Definition provisioned (kind : AgentIdentityKind) : bool :=
  match kind with Manual | Enrolled => true | Reserved => false end.

Definition agent_authorizes_key (agent : AgentObject) (repository node public_key : string) : bool :=
  agent_has_live_identity agent repository node
  && provisioned (ai_kind (ao_identity agent))
  && bool_decide (ai_public_key (ao_identity agent) = Some public_key).

Definition authorized_identity (i : ClientIdentity) (agent : AgentObject) (repository : string) : bool :=
  match node_in i repository, node_public_key i with
  | Some node, Some public_key => agent_authorizes_key agent repository node public_key
  | _, _ => false
  end.

(** ** The memo of recent decisions *)

Definition AUTHORIZATION_MEMO_TTL : Z := 30 * 1000000.

Record AuthorizedAssignment : Type := mkAuthorizedAssignment {
  aa_assignment_sha256 : string;
  aa_input_object_sha256 : option string;
}.

(** An entry's last moment, and the decision. *)
Definition AuthorizationMemo : Type := BTreeMap (Z * AuthorizedAssignment).

Definition memo_key (node : string) (i : ClientIdentity) : option string :=
  public_key ← node_public_key i;
  Some (String.append node (String "/"%char public_key)).

Definition memo_get (memo : AuthorizationMemo) (node : string) (i : ClientIdentity)
    (expected : option string) (now : Z) : option AuthorizedAssignment * AuthorizationMemo :=
  match memo_key node i with
  | None => (None, memo)
  | Some key =>
      match memo !! key with
      | Some (expires, assignment) =>
          if (now <? expires)%Z
             && match expected with
                | Some e => bool_decide (e = aa_assignment_sha256 assignment)
                | None => true
                end
          then (Some assignment, memo) else (None, delete key memo)
      | None => (None, memo)
      end
  end.

Definition memo_insert (memo : AuthorizationMemo) (node : string) (i : ClientIdentity)
    (assignment : AuthorizedAssignment) (now : Z) : AuthorizationMemo :=
  match memo_key node i with
  | None => memo
  | Some key =>
      <[key := (now + AUTHORIZATION_MEMO_TTL, assignment)%Z]>
        (filter (λ x : string * (Z * AuthorizedAssignment), (now < x.2.1)%Z) memo)
  end.

End gateway.

(** ** The identity in a leaf reads back *)

Lemma strip_prefix_slash a s : slashes a = 0%nat → a ≠ EmptyString →
  strip_prefix "/node/" (String.append a s) = None.
Proof.
  destruct a as [|c a]; [done|]. simpl. intros Hs _.
  case_bool_decide as Hc; [|by rewrite bool_decide_false]. simpl in Hs. lia.
Qed.

Lemma split_once_node a b :
  slashes a = 0%nat → split_once_str "/node/" (String.append a (String.append "/node/" b)) = Some (a, b).
Proof.
  induction a as [|c a IH]; intros Hs; [done|].
  pose proof (strip_prefix_slash (String c a) (String.append "/node/" b) Hs ltac:(done)) as Hp.
  cbn [String.append split_once_str] in *. rewrite Hp, IH by (simpl in Hs; lia). done.
Qed.

Lemma split_once_str_Some pat s a b :
  split_once_str pat s = Some (a, b) → s = String.append a (String.append pat b).
Proof.
  revert a. induction s as [|c s IH]; intros a; cbn [split_once_str].
  - destruct (strip_prefix pat EmptyString) as [b'|] eqn:Hp; [|done]. intros [= <- <-].
    by apply strip_prefix_Some in Hp.
  - destruct (strip_prefix pat (String c s)) as [b'|] eqn:Hp.
    + intros [= <- <-]. by apply strip_prefix_Some in Hp.
    + destruct (split_once_str pat s) as [[a' b']|]; [|done]. intros [= <- <-]. simpl. by rewrite (IH a').
Qed.

(** A URI names a node identity exactly when it is the one that identity is written as. *)
Lemma spiffe_parse_uri uri id :
  spiffe_parse uri = Some id ↔ NodeSpiffeId_new (sp_repository id) (sp_node id) = Some id ∧ uri = spiffe_uri id.
Proof.
  unfold spiffe_parse. split.
  - destruct (strip_prefix spiffe_scope uri) as [rest|] eqn:Hp; [|done]. apply strip_prefix_Some in Hp as ->.
    simpl. destruct (split_once_str "/node/" rest) as [[r n]|] eqn:Hs; [|done].
    apply split_once_str_Some in Hs as ->. simpl. unfold NodeSpiffeId_new.
    destruct (_ && _) eqn:Hd; [|done]. intros [= <-]. simpl. by rewrite Hd.
  - intros [Hn ->]. unfold spiffe_uri. rewrite (proj2 (strip_prefix_Some _ _ _) eq_refl). cbn [mbind option_bind].
    assert (is_dns_subdomain (sp_repository id) = true) as Hr.
    { unfold NodeSpiffeId_new in Hn. destruct (is_dns_subdomain (sp_repository id)); done. }
    rewrite split_once_node by by apply dns_slashes. done.
Qed.

Lemma NodeSpiffeId_new_Some r n id :
  NodeSpiffeId_new r n = Some id ↔
  is_dns_subdomain r = true ∧ is_dns_subdomain n = true ∧ id = mkNodeSpiffeId r n.
Proof. unfold NodeSpiffeId_new. destruct (is_dns_subdomain r), (is_dns_subdomain n); simpl; naive_solver. Qed.

Section gateway.
Context `{!ReportParts} `{!Semver} `{!Signed} `{!Curve} `{!Sha256} `{!Certificates}.

(** A leaf the fleet's authority signed is its own node, with the key of its request, and nothing
    else: never the enrollment identity, and no other repository's node. *)
Lemma issued_leaf_identity today scope name csr leaf :
  sign_client_csr today scope name csr = Some leaf →
  ∃ point, csr_point csr = Some point
    ∧ certificate_identity leaf = Node (mkNodeSpiffeId scope name) (hex_encode point).
Proof.
  unfold sign_client_csr. destruct (csr_point csr) as [point|] eqn:Hp; [|done]. simpl.
  destruct (NodeSpiffeId_new scope name) as [id|] eqn:Hn; [|done]. simpl.
  intros (point' & Hp' & Hparse)%signed_parses. rewrite Hp in Hp'. injection Hp' as <-.
  exists point. split; [done|]. unfold certificate_identity. rewrite Hparse. simpl.
  pose proof (proj1 (NodeSpiffeId_new_Some _ _ _) Hn) as (_ & Hd & ->).
  rewrite bool_decide_false. 2:{ intros ->. done. }
  rewrite (proj2 (spiffe_parse_uri _ (mkNodeSpiffeId scope name)) (conj Hn eq_refl)). simpl. by rewrite bool_decide_true.
Qed.

(** Nothing but a well-formed leaf is a node: one common name, one URI that names that node. *)
Lemma certificate_node leaf id key :
  certificate_identity leaf = Node id key →
  ∃ cert, parse_x509_certificate leaf = Some (EmptyString, cert)
    ∧ ce_common_names cert = [Some (sp_node id)]
    ∧ ce_subject_alternative_name cert = Some (Some [GUri (spiffe_uri id)])
    ∧ key = hex_encode (ce_public_key cert)
    ∧ NodeSpiffeId_new (sp_repository id) (sp_node id) = Some id.
Proof.
  unfold certificate_identity. destruct (parse_x509_certificate leaf) as [[[] cert]|]; [|done..].
  destruct (ce_common_names cert) as [|[cn|] [|]] eqn:Hc; try done. case_bool_decide; [done|].
  destruct (ce_subject_alternative_name cert) as [[[|[uri|] [|]]|]|] eqn:Hs; try done.
  destruct (spiffe_parse uri) as [id'|] eqn:Hp; [|done]. case_bool_decide as Hn; [|done]. intros [= -> <-].
  apply spiffe_parse_uri in Hp as [Hnew ->]. rewrite <-Hn in Hc. eauto 10.
Qed.

(** ** The memo *)

Lemma slash_split a b a' b' :
  slashes a = 0%nat → slashes a' = 0%nat →
  String.append a (String "/" b) = String.append a' (String "/" b') → a = a' ∧ b = b'.
Proof.
  revert a'. induction a as [|c a IH]; intros [|c' a']; simpl.
  - by intros _ _ [= ->].
  - intros _ Hs [= <- _]. simpl in Hs. lia.
  - intros Hs _ [= -> _]. simpl in Hs. lia.
  - intros Hs Hs' [= -> Heq]. destruct (IH a') as [-> ->]; [lia..|done|done].
Qed.

(** Two requests share an entry only if they are one node with one key. *)
Lemma memo_key_inj node i node' i' key :
  is_dns_subdomain node = true → is_dns_subdomain node' = true →
  memo_key node i = Some key → memo_key node' i' = Some key →
  node = node' ∧ node_public_key i = node_public_key i'.
Proof.
  unfold memo_key. intros Hn Hn' Hk Hk'.
  destruct (node_public_key i) as [pk|], (node_public_key i') as [pk'|]; simpl in *; try done.
  injection Hk as <-. injection Hk' as Heq. apply slash_split in Heq as [-> ->]; auto using dns_slashes.
Qed.

End gateway.
