(* ===== verification/Enroll.v ===== *)
(** * Enroll: claiming a node's name

    Models [updatec/src/gateway/enroll.rs] and the identity decisions of [gateway/data.rs] over the
    API server shared with the other gateways, the controller and the operators: the enrollment
    lock, the transaction that creates or completes one [UpdateAgent], and the certificate it ends
    in.  The whole-request deadline of the router only cuts a run short, and every theorem holds of
    each change as it is made. *)
From S2P Require Import Prelude Identity Maps Releases Dataflow Telemetry Window Rollout Assign.
From S2P Require Import Assignment Groups Publication Inputs Inventory Shared Lease Gateway.

#[local] Open Scope Z_scope.

(** ** Resources *)

Inductive EnrollmentMode : Type := Open | ReservedOnly.

#[export] Instance EnrollmentMode_eq_dec : EqDecision EnrollmentMode.
Proof. solve_decision. Defined.

(** An [UpdateRepository], as far as the gateway reads it. *)
Record RepositoryObject : Type := mkRepositoryObject {
  ro_deletion_timestamp : option Z;
  ro_mode : EnrollmentMode;
  ro_labels : BTreeMap string;
}.

Inductive resource : Type :=
| RLease (l : Lease)
| RAgent (a : AgentObject)
| RRepository (r : RepositoryObject).

Definition lease_key (name : string) : string := String.append "leases/" name.
Definition agent_key (name : string) : string := String.append "updateagents/" name.
Definition repository_key (name : string) : string := String.append "updaterepositories/" name.

Inductive StatusCode : Type :=
| BAD_REQUEST
| FORBIDDEN
| CONFLICT
| TOO_MANY_REQUESTS
| INTERNAL_SERVER_ERROR
| SERVICE_UNAVAILABLE
| GATEWAY_TIMEOUT.

Definition MAX_BACKEND_INVENTORY_MEMBERS : nat := 10000.
Definition at_enrollment_capacity (count : nat) : bool := (MAX_BACKEND_INVENTORY_MEMBERS <=? count)%nat.

Definition ENROLLMENT_TRANSACTION_TIMEOUT : Z := micros 60.
Definition ENROLLMENT_LOCK_SECONDS : Z := 120.
Definition ENROLLMENT_LOCK_WAIT : Z := micros 10.
Definition ENROLLMENT_LOCK_RETRY : Z := 50000.

(** ** Typed calls *)

Definition agent_at (s : shared resource) (name : string) : option (N * AgentObject) :=
  match sh_objects s !! agent_key name with Some (v, RAgent a) => Some (v, a) | _ => None end.

Definition get_agent (name : string) : Sh resource (ApiError + (N * AgentObject)) :=
  read (λ s, ok_or (agent_at s name) ENotFound).

Definition get_opt_agent (name : string) : Sh resource (ApiError + option (N * AgentObject)) :=
  read (λ s, inr (agent_at s name)).

Definition get_repository (name : string) : Sh resource (ApiError + RepositoryObject) :=
  read (λ s, match sh_objects s !! repository_key name with Some (_, RRepository r) => inr r | _ => inl ENotFound end).

Definition get_lease (name : string) : Sh resource (ApiError + (N * Lease)) :=
  read (λ s, match sh_objects s !! lease_key name with Some (v, RLease l) => inr (v, l) | _ => inl ENotFound end).

(** The agents of a repository. *)
Definition member (repository : string) (x : string * (N * resource)) : bool :=
  match x.2.2 with RAgent a => bool_decide (ao_repository a = repository) | _ => false end.

Definition members (repository : string) (s : shared resource) : nat :=
  size (filter (λ x, member repository x = true) (sh_objects s)).

Definition count_agents (repository : string) : Sh resource (ApiError + nat) :=
  read (λ s, inr (members repository s)).

(** ** The enrollment lock *)

Definition release_enrollment_lock_spec (spec : LeaseSpec) (holder : string) (now : Z) : option LeaseSpec :=
  if negb (bool_decide (ls_holder_identity spec = Some holder)) then None
  else Some (mkLeaseSpec None (Some ENROLLMENT_LOCK_SECONDS) (ls_acquire_time spec) (Some now)
               (ls_lease_transitions spec) (ls_preferred_holder spec) (ls_strategy spec)).

Definition enrollment_lock_available (spec : LeaseSpec) (now : Z) : bool :=
  match ls_holder_identity spec with
  | None | Some EmptyString => true
  | Some _ => lease_expired spec now
  end.

Definition enrollment_lock_spec (holder : string) (now transitions : Z) : LeaseSpec :=
  mkLeaseSpec (Some holder) (Some ENROLLMENT_LOCK_SECONDS) (Some now) (Some now) (Some transitions) None None.

Inductive LockError : Type := LockTimedOut | LockFailed (e : ApiError).

(** The retry loop; a fuel of two hundred tries outlasts the deadline. *)
Fixpoint lock_loop (fuel : nat) (deadline : Z) (lock holder : string) : Sh resource (LockError + unit) :=
  match fuel with
  | O => mret (inl LockTimedOut)
  | S fuel =>
      read ← bounded deadline (get_lease lock);
      match read with
      | inl EElapsed => mret (inl LockTimedOut)
      | inl e => mret (inl (LockFailed e))
      | inr (version, lease) =>
          t ← now;
          let spec := default lease_default lease in
          if negb (enrollment_lock_available spec t)
          then _ ← sleep ENROLLMENT_LOCK_RETRY; lock_loop fuel deadline lock holder
          else
            let transitions := Z.min i32_max (default 0 (ls_lease_transitions spec) + 1) in
            written ← bounded deadline
              (replace (lease_key lock) version (RLease (Some (enrollment_lock_spec holder t transitions))));
            match written with
            | inr _ => mret (inr tt)
            | inl EConflict => _ ← sleep ENROLLMENT_LOCK_RETRY; lock_loop fuel deadline lock holder
            | inl EElapsed => mret (inl LockTimedOut)
            | inl e => mret (inl (LockFailed e))
            end
      end
  end.

Definition lock_tries : nat := 201.

(** [acquire_enrollment_lock], for a fresh token. *)
Definition acquire_enrollment_lock (lock holder : string) : Sh resource (LockError + unit) :=
  t ← peek sh_clock;
  lock_loop lock_tries (t + ENROLLMENT_LOCK_WAIT) lock holder.

(** [EnrollmentLock::release] *)
Definition release (lock holder : string) : Sh resource (ApiError + unit) :=
  '(version, lease) ←? get_lease lock;
  match lease with
  | None => mret (inr tt)
  | Some spec =>
      t ← now;
      match release_enrollment_lock_spec spec holder t with
      | None => mret (inr tt)
      | Some spec =>
          r ← replace (lease_key lock) version (RLease (Some spec));
          mret (match r with inr _ | inl EConflict => inr tt | inl e => inl e end)
      end
  end.

(** ** Capabilities *)

Definition ENROLLMENT_OBJECT_ROOT : string := "enrollments".

(** The object store a gateway serves from: its prefix, and the signer of a key's download URL,
    which may not answer in time or may fail. *)
Record Destination : Type := mkDestination {
  dn_prefix : string;
  dn_signed_url : string → option (option string);
}.

Section capabilities.
Context `{!Sha256} `{!Urls} `{!DataflowJson} `{!ObjectPaths}.

Definition enrollment_object_sha256_for_node (relative node : string) : option string :=
  match split_on "/"%char EmptyString relative with
  | [root; node_digest; generation_digest; file] =>
      bundle_digest ← strip_suffix ".json" file;
      if bool_decide (root = ENROLLMENT_OBJECT_ROOT) && bool_decide (node_digest = node_object_digest node)
         && is_canonical_sha256 generation_digest && is_canonical_sha256 bundle_digest
      then Some bundle_digest else None
  | _ => None
  end.

Definition signed_object_url (d : Destination) (key : string) : StatusCode + string :=
  match dn_signed_url d key with
  | None => inl GATEWAY_TIMEOUT
  | Some None => inl SERVICE_UNAVAILABLE
  | Some (Some url) => if succeeds (capability_url url) then inr url else inl SERVICE_UNAVAILABLE
  end.

Definition exact_download_capability (d : Destination) (key sha256 : string) : StatusCode + DownloadCapability :=
  _ ← demand (is_canonical_sha256 sha256) SERVICE_UNAVAILABLE;
  url ← signed_object_url d key;
  let capability := mkDownloadCapability DownloadCapability_SCHEMA url sha256 in
  _ ← map_err (λ _, SERVICE_UNAVAILABLE) (DownloadCapability_validate capability);
  inr capability.

Definition enrollment_download_capability (d : Destination) (agent : AgentObject) : StatusCode + DownloadCapability :=
  let node := default EmptyString (ao_name agent) in
  relative ← ok_or (ao_enrollment_object_key agent) SERVICE_UNAVAILABLE;
  sha256 ← ok_or (enrollment_object_sha256_for_node relative node) SERVICE_UNAVAILABLE;
  exact_download_capability d (object_key (dn_prefix d) relative) sha256.

End capabilities.

(** ** The transaction *)

Section enroll.
Context `{!ReportParts} `{!Semver} `{!Signed} `{!Curve} `{!Sha256} `{!Certificates}.
Context `{!Urls} `{!DataflowJson} `{!ObjectPaths}.
Context (repository : string).

Record EnrollmentClaim : Type := mkEnrollmentClaim {
  cl_name : string;
  cl_public_key : string;
  cl_registration_sha256 : string;
}.

Definition claim_matches (claim : EnrollmentClaim) (agent : AgentObject) : bool :=
  agent_authorizes_key agent repository (cl_name claim) (cl_public_key claim)
  && bool_decide (ai_registration_sha256 (ao_identity agent) = Some (cl_registration_sha256 claim)).

Definition claimed_identity (claim : EnrollmentClaim) : AgentIdentity :=
  mkAgentIdentity Enrolled (Some (cl_registration_sha256 claim)) (Some (cl_public_key claim)).

(** [EnrollmentClaim::desired] *)
Definition desired_agent (claim : EnrollmentClaim) (labels : BTreeMap string) : AgentObject :=
  mkAgentObject (Some (cl_name claim)) None repository (claimed_identity claim) false false labels None None.

Definition adopts_preapproval (existing desired : AgentObject) : bool :=
  match ai_kind (ao_identity existing) with
  | Reserved =>
      match ao_name desired with
      | Some node => agent_has_live_identity existing (ao_repository desired) node
      | None => false
      end
  | _ => false
  end.

(** The object the operator created, with only its identity stamped. *)
Definition complete_agent (existing desired : AgentObject) : AgentObject :=
  mkAgentObject (ao_name existing) (ao_deletion_timestamp existing) (ao_repository existing)
    (ao_identity desired) (ao_hold existing) (ao_cordon existing) (ao_labels existing)
    (ao_backend_address existing) (ao_enrollment_object_key existing).

(** The status an API error becomes; a call past the transaction's deadline ends it. *)
Definition status_of (otherwise : StatusCode) (e : ApiError) : StatusCode :=
  match e with EElapsed => SERVICE_UNAVAILABLE | _ => otherwise end.

Definition with_status {T} (otherwise : StatusCode) (m : Sh resource (ApiError + T)) : Sh resource (StatusCode + T) :=
  r ← m; mret (map_err (status_of otherwise) r).

(** [identity_object] *)
Definition identity_object (e : ApiError) : StatusCode :=
  match e with ENotFound => FORBIDDEN | _ => SERVICE_UNAVAILABLE end.

(** [live_repository] *)
Definition live_repository (deadline : option Z) : Sh resource (StatusCode + RepositoryObject) :=
  r ← (match deadline with Some d => bounded d (get_repository repository) | None => get_repository repository end);
  mret (object ← map_err identity_object r;
        _ ← demand (bool_decide (ro_deletion_timestamp object = None)) FORBIDDEN;
        inr object).

(** [accept_existing_agent] *)
Definition accept_existing_agent (deadline : Z) (desired : AgentObject) (version : N) (existing : AgentObject)
    (claim : EnrollmentClaim) : Sh resource (StatusCode + unit) :=
  if claim_matches claim existing then mret (inr tt)
  else if negb (adopts_preapproval existing desired) then mret (inl CONFLICT)
  else
    r ← bounded deadline (replace (agent_key (cl_name claim)) version (RAgent (complete_agent existing desired)));
    match r with
    | inr _ => mret (inr tt)
    | inl EConflict =>
        '(_, current) ←? with_status INTERNAL_SERVER_ERROR (bounded deadline (get_agent (cl_name claim)));
        mret (if claim_matches claim current then inr tt else inl CONFLICT)
    | inl e => mret (inl (status_of INTERNAL_SERVER_ERROR e))
    end.

(** [create_agent_idempotent] *)
Definition create_agent_idempotent (deadline : Z) (desired : AgentObject) (claim : EnrollmentClaim)
    : Sh resource (StatusCode + unit) :=
  r ← bounded deadline (create (agent_key (cl_name claim)) (RAgent desired));
  match r with
  | inr _ => mret (inr tt)
  | inl EConflict =>
      '(version, existing) ←? with_status INTERNAL_SERVER_ERROR (bounded deadline (get_agent (cl_name claim)));
      accept_existing_agent deadline desired version existing claim
  | inl e => mret (inl (status_of INTERNAL_SERVER_ERROR e))
  end.

(** What runs under the lock. *)
Definition enrollment_transaction (claim : EnrollmentClaim) : Sh resource (StatusCode + unit) :=
  t ← peek sh_clock;
  let deadline := t + ENROLLMENT_TRANSACTION_TIMEOUT in
  live ←? live_repository (Some deadline);
  let desired := desired_agent claim (ro_labels live) in
  existing ←? with_status INTERNAL_SERVER_ERROR (bounded deadline (get_opt_agent (cl_name claim)));
  match existing with
  | Some (version, existing) => accept_existing_agent deadline desired version existing claim
  | None =>
      if bool_decide (ro_mode live = ReservedOnly) then mret (inl FORBIDDEN)
      else
        count ←? with_status INTERNAL_SERVER_ERROR (bounded deadline (count_agents repository));
        if at_enrollment_capacity count then mret (inl TOO_MANY_REQUESTS)
        else create_agent_idempotent deadline desired claim
  end.

(** What the node is given at the end: the pointer its bundle is published under, and a leaf. *)
Definition enrollment_grant (content : Destination) (today : Z)
    (claim : EnrollmentClaim) (csr : string) (agent : AgentObject) : StatusCode + (DownloadCapability * string) :=
  _ ← demand (claim_matches claim agent) CONFLICT;
  bundle_download ← enrollment_download_capability content agent;
  leaf ← ok_or (sign_client_csr today repository (cl_name claim) csr) BAD_REQUEST;
  inr (bundle_download, leaf).

(** [register_enrollment] *)
Definition register_enrollment (content : Destination) (today : Z)
    (lock holder name csr : string) : Sh resource (StatusCode + (DownloadCapability * string)) :=
  match csr_public_key csr with
  | None => mret (inl BAD_REQUEST)
  | Some public_key =>
      let claim := mkEnrollmentClaim name public_key (node_object_digest name) in
      locked ← acquire_enrollment_lock lock holder;
      match locked with
      | inl _ => mret (inl SERVICE_UNAVAILABLE)
      | inr _ =>
          registration ← enrollment_transaction claim;
          released ← release lock holder;
          match released, registration with
          | inl _, inr _ => mret (inl SERVICE_UNAVAILABLE)
          | _, inl status => mret (inl status)
          | inr _, inr _ =>
              r ← get_agent name;
              mret ('(_, agent) ← map_err (λ _, SERVICE_UNAVAILABLE) r;
                    enrollment_grant content today claim csr agent)
          end
      end
  end.

(** [enroll], past the request's parsing. *)
Definition enroll (content : Destination) (today : Z)
    (lock holder enrollment_client_cn : string) (i : ClientIdentity) (name csr : string)
    : Sh resource (StatusCode + (DownloadCapability * string)) :=
  if negb (is_enrollment_identity i enrollment_client_cn) then mret (inl FORBIDDEN)
  else if negb (is_dns_subdomain name) || negb (is_distinct_from_bootstrap_identity name enrollment_client_cn)
  then mret (inl BAD_REQUEST)
  else register_enrollment content today lock holder name csr.

(** [authorize_identity] *)
Definition authorize_identity (i : ClientIdentity) : Sh resource (StatusCode + (string * AgentObject)) :=
  match node_in i repository with
  | None => mret (inl FORBIDDEN)
  | Some node =>
      r ← get_agent node;
      match map_err identity_object r with
      | inl status => mret (inl status)
      | inr (_, agent) =>
          if negb (authorized_identity i agent repository) then mret (inl FORBIDDEN)
          else
            _ ←? live_repository None;
            mret (inr (node, agent))
      end
  end.

(** [renew] *)
Definition renew (today : Z) (i : ClientIdentity) (csr : string) : Sh resource (StatusCode + string) :=
  '(node, agent) ←? authorize_identity i;
  mret (public_key ← ok_or (csr_public_key csr) BAD_REQUEST;
        _ ← demand (agent_authorizes_key agent repository node public_key) FORBIDDEN;
        ok_or (sign_client_csr today repository node csr) BAD_REQUEST).

End enroll.
