(* ===== verification/EnrollSafety.v ===== *)
(** * EnrollSafety: what enrollment can change, and how far it can grow the fleet

    Theorems of [Enroll.v].  Every gateway relies on the other gateways holding the enrollment lock
    while they grow the inventory, and on requests being served within thirty seconds of being
    sent; operators and the controller may change anything else, but neither grow the inventory
    nor take the lock. *)
From S2P Require Import Prelude Identity Maps Releases Dataflow Telemetry Window Rollout Assign.
From S2P Require Import Assignment Groups Publication Inputs Inventory Shared Lease Gateway Enroll.

#[local] Open Scope Z_scope.

Definition SERVED_WITHIN : Z := micros 30.

Section law.
Context (repository lock : string).
Implicit Types (s : shared resource) (h : string).

(** The holder's lock, which does not lapse before [e]. *)
Definition locked_until s h (e : Z) : Prop :=
  ∃ version spec renewed, sh_objects s !! lease_key lock = Some (version, RLease (Some spec))
    ∧ ls_holder_identity spec = Some h ∧ ls_renew_time spec = Some renewed ∧ e ≤ lease_deadline spec renewed.

(** What the gateway whose token is [h] relies on. *)
Record enroll_rely h s s' : Prop := mkEnrollRely {
  er_clock : sh_clock s ≤ sh_clock s';
  er_next : (sh_next s ≤ sh_next s')%N;
  er_fresh k o : sh_objects s' !! k = Some o → sh_objects s !! k = Some o ∨ (sh_next s ≤ o.1 < sh_next s')%N;
  er_lock e : locked_until s h e → sh_clock s' < e → locked_until s' h e;
  er_mine version spec : sh_objects s' !! lease_key lock = Some (version, RLease (Some spec)) →
    ls_holder_identity spec = Some h → sh_objects s !! lease_key lock = Some (version, RLease (Some spec));
  er_count e : locked_until s' h e → sh_clock s' < e → (members repository s' ≤ members repository s)%nat;
  er_cap : (members repository s ≤ MAX_BACKEND_INVENTORY_MEMBERS)%nat →
    (members repository s' ≤ MAX_BACKEND_INVENTORY_MEMBERS)%nat;
}.

Lemma locked_back h s s' e : enroll_rely h s s' → locked_until s' h e → locked_until s h e.
Proof. intros HR (v & spec & r & Ho & Hh & Hr). exists v, spec, r. split; [|done]. by eapply er_mine. Qed.

#[export] Instance enroll_rely_preorder h : PreOrder (enroll_rely h).
Proof.
  split.
  - intros s. split; auto; lia.
  - intros s1 s2 s3 HR1 HR2. pose proof HR1 as []. pose proof HR2 as []. split; [lia..| | | | |].
    + intros k o Ho. destruct (er_fresh1 k o Ho) as [Ho2|?]; [|right; lia].
      destruct (er_fresh0 k o Ho2) as [?|?]; [by left|right; lia].
    + intros e Hl Hc. apply er_lock1; [|done]. apply er_lock0; [done|lia].
    + eauto.
    + intros e Hl Hc. etrans; [by eapply er_count1|]. eapply er_count0; [by eapply locked_back|lia].
    + auto.
Qed.

(** One turn. *)
Definition enroll_turn h s s' : Prop := enroll_rely h s s' ∧ sh_clock s' ≤ sh_clock s + SERVED_WITHIN.

#[export] Instance enroll_turn_refl h : Reflexive (enroll_turn h).
Proof. intros s. split; [done|]. unfold SERVED_WITHIN, micros. lia. Qed.

Lemma versioned_enroll h s s' : versioned s → enroll_rely h s s' → versioned s'.
Proof.
  intros Hv HR k o Ho. destruct (er_fresh _ _ _ HR k o Ho) as [Hs|?]; [|lia].
  specialize (Hv k o Hs). pose proof (er_next _ _ _ HR). lia.
Qed.

Lemma same_version h s s' k v x y :
  versioned s → enroll_rely h s s' → sh_objects s !! k = Some (v, x) → sh_objects s' !! k = Some (v, y) → y = x.
Proof.
  intros Hv HR Ho Ho'. destruct (er_fresh _ _ _ HR k _ Ho') as [?|Hf]; [congruence|].
  specialize (Hv k _ Ho). simpl in *. lia.
Qed.

(** ** Keys *)

Lemma lease_agent_keys a b : lease_key a ≠ agent_key b.
Proof. done. Qed.

Lemma agent_key_inj a b : agent_key a = agent_key b → a = b.
Proof. unfold agent_key. intros Heq. by apply (inj (String.append _)) in Heq. Qed.

(** ** Members *)

Lemma members_put_same s k v x y :
  sh_objects s !! k = Some (v, x) → member repository (k, (sh_next s, y)) = member repository (k, (v, x)) →
  members repository (put_object k y s) = members repository s.
Proof.
  intros Ho Hm. unfold members. simpl. destruct (member repository (k, (v, x))) eqn:Hx.
  - rewrite map_filter_insert_True by done. rewrite map_size_insert_Some; [done|].
    exists (v, x). by apply map_lookup_filter_Some.
  - rewrite map_filter_insert_not'; [done|by rewrite Hm|].
    intros y' Hy'. rewrite Ho in Hy'. injection Hy' as <-. by rewrite Hx.
Qed.

Lemma members_put_new s k y :
  sh_objects s !! k = None → (members repository (put_object k y s) ≤ S (members repository s))%nat.
Proof.
  intros Ho. unfold members. simpl. destruct (member repository (k, (sh_next s, y))) eqn:Hx.
  - rewrite map_filter_insert_True by done. rewrite map_size_insert_None; [done|].
    apply map_lookup_filter_None. by left.
  - rewrite map_filter_insert_not' by (rewrite ?Hx; congruence). lia.
Qed.

(** ** One write, as the others see it *)

Lemma locked_put_elsewhere s k y h e :
  k ≠ lease_key lock → locked_until (put_object k y s) h e ↔ locked_until s h e.
Proof. intros Hk. unfold locked_until. simpl. by rewrite lookup_insert_ne by done. Qed.

Lemma put_fresh s k y k' o :
  sh_objects (put_object k y s) !! k' = Some o →
  sh_objects s !! k' = Some o ∨ (sh_next s ≤ o.1 < sh_next (put_object k y s))%N.
Proof. simpl. intros [[<- <-]|[Hne Ho]]%lookup_insert_Some; [right; cbn [fst]; lia|by left]. Qed.

Lemma put_elsewhere_rely h s k y :
  k ≠ lease_key lock →
  (∀ e, locked_until s h e → sh_clock s < e → (members repository (put_object k y s) ≤ members repository s)%nat) →
  ((members repository s ≤ MAX_BACKEND_INVENTORY_MEMBERS)%nat →
     (members repository (put_object k y s) ≤ MAX_BACKEND_INVENTORY_MEMBERS)%nat) →
  enroll_rely h s (put_object k y s).
Proof.
  intros Hk Hcount Hcap. split; cbn [put_object sh_clock sh_next sh_objects]; [lia..| | | | |done].
  - intros k' o. apply put_fresh.
  - intros e Hl _. by apply locked_put_elsewhere.
  - intros v spec. by rewrite lookup_insert_ne.
  - intros e Hl%locked_put_elsewhere; [|done]. by apply Hcount.
Qed.

Lemma put_lock_rely h s version lease spec :
  sh_objects s !! lease_key lock = Some (version, RLease lease) →
  ls_holder_identity spec ≠ Some h →
  (∀ e, locked_until s h e → sh_clock s < e → False) →
  enroll_rely h s (put_object (lease_key lock) (RLease (Some spec)) s).
Proof.
  intros Ho Hne Hfree.
  assert (members repository (put_object (lease_key lock) (RLease (Some spec)) s) = members repository s) as Hm
    by (by eapply members_put_same).
  split; rewrite ?Hm; cbn [put_object sh_clock sh_next sh_objects]; [lia..| | | |lia|done].
  - intros k' o. apply put_fresh.
  - intros e Hl Hc. by destruct (Hfree e).
  - intros v spec'. rewrite lookup_insert_eq. intros [= _ <-] ?. done.
Qed.

(** ** What an enrollment writes *)

Section claim.
Context `{!ReportParts} `{!Semver} `{!Signed} `{!Curve} `{!Sha256} `{!Certificates}.
Context `{!Urls} `{!DataflowJson} `{!ObjectPaths}.
Context (claim : EnrollmentClaim) (h : string).

(** Every change an enrollment can make: take the free lock, free its own lock, create the absent
    name with its own claim, or stamp that claim on a name the operator reserved. *)
Inductive enrollment_change s : shared resource → Prop :=
| TakeLock version lease t transitions :
    sh_objects s !! lease_key lock = Some (version, RLease lease) →
    enrollment_lock_available (default lease_default lease) t = true → t ≤ sh_clock s →
    enrollment_change s (put_object (lease_key lock) (RLease (Some (enrollment_lock_spec h t transitions))) s)
| FreeLock version spec t spec' :
    sh_objects s !! lease_key lock = Some (version, RLease (Some spec)) →
    release_enrollment_lock_spec spec h t = Some spec' →
    enrollment_change s (put_object (lease_key lock) (RLease (Some spec')) s)
| CreateAgent labels :
    sh_objects s !! agent_key (cl_name claim) = None →
    enrollment_change s (put_object (agent_key (cl_name claim)) (RAgent (desired_agent repository claim labels)) s)
| CompleteAgent version existing labels :
    agent_at s (cl_name claim) = Some (version, existing) →
    adopts_preapproval existing (desired_agent repository claim labels) = true →
    enrollment_change s (put_object (agent_key (cl_name claim))
      (RAgent (complete_agent existing (desired_agent repository claim labels))) s).

(** What this enrollment guarantees: its changes are of these kinds, and every other gateway may
    rely on them. *)
Definition enroll_guarantee s s' : Prop :=
  enrollment_change s s' ∧ ∀ h', h' ≠ h → h' ≠ EmptyString → enroll_rely h' s s'.

Lemma take_lock_guarantee s version lease t transitions :
  sh_objects s !! lease_key lock = Some (version, RLease lease) →
  enrollment_lock_available (default lease_default lease) t = true → t ≤ sh_clock s →
  enroll_guarantee s (put_object (lease_key lock) (RLease (Some (enrollment_lock_spec h t transitions))) s).
Proof.
  intros Ho Ha Ht. split; [by econstructor|]. intros h' Hne Hh'. eapply put_lock_rely; [done|simpl; congruence|].
  intros e (v & spec & r & Ho' & Hh & Hr & He) Hc. rewrite Ho in Ho'. injection Ho' as -> ->. simpl in Ha.
  unfold enrollment_lock_available in Ha. rewrite Hh in Ha. destruct h' as [|c h']; [done|].
  unfold lease_expired in Ha. rewrite Hr in Ha. apply Z.leb_le in Ha. lia.
Qed.

Lemma free_lock_guarantee s version spec t spec' :
  sh_objects s !! lease_key lock = Some (version, RLease (Some spec)) →
  release_enrollment_lock_spec spec h t = Some spec' →
  enroll_guarantee s (put_object (lease_key lock) (RLease (Some spec')) s).
Proof.
  intros Ho Hr. split; [by econstructor|]. intros h' Hne Hh'. unfold release_enrollment_lock_spec in Hr.
  destruct (bool_decide (ls_holder_identity spec = Some h)) eqn:Hb; simpl in Hr; [|done]. injection Hr as <-.
  apply bool_decide_eq_true in Hb. eapply put_lock_rely; [done|done|].
  intros e (v & spec' & r & Ho' & Hh & _) _. rewrite Ho in Ho'. injection Ho' as -> ->. congruence.
Qed.

Lemma create_agent_guarantee s labels e :
  sh_objects s !! agent_key (cl_name claim) = None →
  locked_until s h e → (members repository s < MAX_BACKEND_INVENTORY_MEMBERS)%nat →
  enroll_guarantee s (put_object (agent_key (cl_name claim)) (RAgent (desired_agent repository claim labels)) s).
Proof.
  intros Ho Hl Hm. split; [by econstructor|]. intros h' Hne _. apply put_elsewhere_rely; [done| |].
  - intros e' (v & spec & r & Ho' & Hh & _) _. destruct Hl as (v2 & spec2 & r2 & Ho2 & Hh2 & _).
    rewrite Ho' in Ho2. injection Ho2 as -> ->. congruence.
  - intros _. pose proof (members_put_new s _ (RAgent (desired_agent repository claim labels)) Ho). lia.
Qed.

Lemma agent_at_Some s n v a : agent_at s n = Some (v, a) ↔ sh_objects s !! agent_key n = Some (v, RAgent a).
Proof. unfold agent_at. destruct (sh_objects s !! agent_key n) as [[v' []]|]; naive_solver. Qed.

Lemma complete_agent_guarantee s version existing labels :
  agent_at s (cl_name claim) = Some (version, existing) →
  adopts_preapproval existing (desired_agent repository claim labels) = true →
  enroll_guarantee s (put_object (agent_key (cl_name claim))
    (RAgent (complete_agent existing (desired_agent repository claim labels))) s).
Proof.
  intros Ho Ha. split; [by econstructor|]. apply agent_at_Some in Ho. intros h' _ _.
  assert (members repository (put_object (agent_key (cl_name claim))
    (RAgent (complete_agent existing (desired_agent repository claim labels))) s) = members repository s) as Hm
    by (by eapply members_put_same).
  apply put_elsewhere_rely; [done|rewrite Hm; lia..].
Qed.

(** ** The programs *)

Abbreviation enrolls P m Q := (runs (enroll_turn h) enroll_guarantee P m Q).

Lemma turn_rely s s' : enroll_turn h s s' → enroll_rely h s s'.
Proof. by intros []. Qed.

Lemma locked_now s t transitions :
  locked_until (put_object (lease_key lock) (RLease (Some (enrollment_lock_spec h t transitions))) s) h
    (t + micros ENROLLMENT_LOCK_SECONDS).
Proof.
  exists (sh_next s), (enrollment_lock_spec h t transitions), t. simpl. rewrite lookup_insert_eq.
  split_and!; [done..|]. apply Z.le_refl.
Qed.

Lemma versioned_turn s s' : versioned s → enroll_turn h s s' → versioned s'.
Proof. intros Hv HR. by eapply versioned_enroll; [|apply turn_rely]. Qed.

Lemma after_change s s' (r : ApiError + N) (allowed : shared resource → ApiError + unit) k y :
  versioned s →
  (∃ s1, enroll_turn h s s1 ∧ ((s' = s1 ∧ ∃ e, r = inl e) ∨ (allowed s1 = inr tt ∧ s' = put_object k y s1))) →
  versioned s'.
Proof.
  intros Hv (s1 & HR & Hs1). pose proof (versioned_turn _ _ Hv HR).
  destruct Hs1 as [[-> _]|[_ ->]]; [done|by apply versioned_put].
Qed.

Lemma change_runs (P : shared resource → Prop) deadline allowed k y :
  (∀ s, P s → versioned s) →
  (∀ s s1, P s → sh_clock s < deadline → enroll_turn h s s1 → allowed s1 = inr tt →
     enroll_guarantee s1 (put_object k y s1)) →
  enrolls P (bounded deadline (change allowed (put_object k y))) (λ _ _ s', versioned s').
Proof.
  intros HP HG. eapply runs_weaken; [apply runs_bounded_change; [apply _|exact HG]|done|].
  intros s r s' Hs Hs'. eapply after_change; [|exact Hs']. auto.
Qed.

(** A taken lock outlives the transaction it is taken for. *)
Definition lock_taken s : Prop :=
  ∃ t, locked_until s h (t + micros ENROLLMENT_LOCK_SECONDS) ∧ sh_clock s ≤ t + SERVED_WITHIN.

Lemma lock_loop_runs fuel deadline :
  enrolls versioned (lock_loop fuel deadline lock h)
    (λ _ r s', versioned s' ∧ (r = inr tt → lock_taken s')).
Proof.
  induction fuel as [|fuel IH]; cbn [lock_loop]; [by apply sh_ret|].
  assert (∀ P : shared resource → Prop, (∀ s, P s → versioned s) →
    enrolls P (_ ← sleep ENROLLMENT_LOCK_RETRY; lock_loop fuel deadline lock h)
      (λ _ r s', versioned s' ∧ (r = inr tt → lock_taken s'))) as Hretry.
  { intros P HP. eapply sh_bind; [apply runs_sleep, _|]. intros s [] Hs.
    eapply runs_weaken; [exact IH| |by intros].
    intros s' (s1 & HR & ->) k o Ho. simpl in *. by eapply (versioned_turn s s1); eauto. }
  eapply sh_bind; [apply runs_bounded_read, _|]. intros s [e|[version lease]] Hv.
  { destruct e; apply sh_ret; intros s' [HR _]; (split; [|done]); by eapply versioned_turn. }
  eapply sh_bind; [apply runs_now, _|]. intros s1 t [HR1 Hread]. destruct Hread as [[=]|[[=]|Hread]].
  destruct (sh_objects s1 !! lease_key lock) as [[v [l| |]]|] eqn:Ho; try done. injection Hread as -> ->.
  pose proof (versioned_turn _ _ Hv HR1) as Hv1.
  destruct (enrollment_lock_available _ t) eqn:Ha; simpl.
  2:{ apply Hretry. intros s2 [HR2 ->]. by eapply versioned_turn. }
  eapply sh_bind.
  - apply runs_bounded_change; [apply _|]. intros s2 s3 [HR2 ->] _ HR3 Hal. unfold version_of in Hal.
    destruct (sh_objects s3 !! lease_key lock) as [[v' x]|] eqn:Ho3; simpl in Hal; [|done].
    apply demand_inr, bool_decide_eq_true in Hal as ->.
    assert (enroll_rely h s1 s3) as HR13 by (by etrans; apply turn_rely).
    assert (x = RLease l) as -> by (by eapply same_version).
    eapply take_lock_guarantee; [done|done|]. apply turn_rely, er_clock in HR3. lia.
  - intros s2 [e|n] [HR2 ->].
    + destruct e; try (apply sh_ret; intros s' Hs'; split; [|done];
        eapply (after_change _ _ (inl _)); [by eapply versioned_turn; eauto|exact Hs']).
      apply Hretry. intros s' Hs'. eapply (after_change _ _ (inl _)); [by eapply versioned_turn; eauto|exact Hs'].
    + apply sh_ret. intros s' Hs'. split.
      { eapply (after_change _ _ (inr n)); [by eapply versioned_turn; eauto|exact Hs']. }
      destruct Hs' as (s3 & HR3 & [[_ [e [=]]]|[_ ->]]).
      intros _. exists (sh_clock s2). split; [apply locked_now|].
      simpl. by destruct HR3.
Qed.

(** Under the lock: versions are sound, and the lock is held until [E]. *)
Definition under_lock (E : Z) s : Prop := versioned s ∧ (sh_clock s < E → locked_until s h E).

Lemma under_lock_turn E s s' : under_lock E s → enroll_turn h s s' → under_lock E s'.
Proof.
  intros [Hv Hl] HR. split; [by eapply versioned_turn|]. intros Hc. destruct HR as [[] _].
  apply er_lock0; [|done]. apply Hl. lia.
Qed.

Lemma members_turn E n s s' :
  under_lock E s → (sh_clock s < E → (members repository s ≤ n)%nat) → enroll_turn h s s' →
  sh_clock s' < E → (members repository s' ≤ n)%nat.
Proof.
  intros Hu Hn HR Hc. destruct (under_lock_turn _ _ _ Hu HR) as [_ Hl]. destruct HR as [[] _].
  etrans; [by eapply er_count0; [apply Hl|]|]. apply Hn. lia.
Qed.

Lemma status_runs {T} P Q otherwise (m : Sh resource (ApiError + T)) :
  enrolls P m (λ s r s', Q s (map_err (status_of otherwise) r) s') → enrolls P (with_status otherwise m) Q.
Proof. intros Hm. eapply sh_bind; [exact Hm|]. intros s r Hs. by apply sh_ret. Qed.

Lemma accept_existing_agent_runs deadline labels version existing s0 :
  versioned s0 → agent_at s0 (cl_name claim) = Some (version, existing) →
  enrolls (λ s, enroll_rely h s0 s)
    (accept_existing_agent repository deadline (desired_agent repository claim labels) version existing claim)
    (λ _ _ s', versioned s').
Proof.
  intros Hv Ho. unfold accept_existing_agent.
  assert (∀ s, enroll_rely h s0 s → versioned s) as HP by (intros; by eapply versioned_enroll).
  destruct (claim_matches _ _ _); [by apply sh_ret|].
  destruct (adopts_preapproval _ _) eqn:Ha; simpl; [|by apply sh_ret].
  eapply sh_bind.
  - apply change_runs; [done|]. intros s1 s2 HR1 _ HR2 Hal. unfold version_of in Hal.
    destruct (sh_objects s2 !! agent_key (cl_name claim)) as [[v x]|] eqn:Ho2; simpl in Hal; [|done].
    apply demand_inr, bool_decide_eq_true in Hal as ->. apply agent_at_Some in Ho.
    assert (x = RAgent existing) as ->.
    { eapply (same_version h s0 s2); eauto. etrans; [done|by apply turn_rely]. }
    eapply complete_agent_guarantee; [by apply agent_at_Some|done].
  - intros s1 r HR1.
    destruct r as [[]|n]; [by apply sh_ret| |by apply sh_ret..].
    eapply runs_try with (Q1 := λ _ _ s', versioned s').
    + apply status_runs. eapply runs_weaken; [apply runs_bounded_read, _|intros s' Hs'; exact Hs'|].
      intros s2 r s3 Hs2 [HR3 _]. by eapply versioned_turn.
    + done.
    + intros s2 [v current] _. apply sh_ret. by intros.
Qed.

Lemma create_agent_idempotent_runs deadline labels E count :
  deadline + SERVED_WITHIN ≤ E → (count < MAX_BACKEND_INVENTORY_MEMBERS)%nat →
  enrolls (λ s, under_lock E s ∧ (sh_clock s < E → (members repository s ≤ count)%nat))
    (create_agent_idempotent repository deadline (desired_agent repository claim labels) claim)
    (λ _ _ s', versioned s').
Proof.
  intros HE Hcount. unfold create_agent_idempotent. eapply sh_bind.
  - apply change_runs; [by intros s1 [[? _] _]|]. intros s1 s2 [Hu Hm] Hd HR2 Hal%demand_inr.
    apply bool_decide_eq_true in Hal. pose proof (under_lock_turn _ _ _ Hu HR2) as [_ Hl].
    assert (sh_clock s2 < E) as Hc by (destruct HR2; lia).
    eapply create_agent_guarantee; [done|by apply Hl|].
    pose proof (members_turn _ _ _ _ Hu Hm HR2 Hc). lia.
  - intros s1 r [[Hv _] _].
    destruct r as [[]|n]; [by apply sh_ret| |by apply sh_ret..].
    eapply runs_try with (Q1 := λ _ r s', versioned s' ∧ ∀ v a, r = inr (v, a) → agent_at s' (cl_name claim) = Some (v, a)).
    + apply status_runs. eapply runs_weaken; [apply runs_bounded_read, _|intros s' Hs'; exact Hs'|].
      intros s2 r s3 Hs2 [HR3 Hr]. split; [by eapply versioned_turn|].
      intros v a Heq. destruct Hr as [->|[->| ->]]; [done..|].
      destruct (agent_at s3 (cl_name claim)) as [[]|]; [|done]. by injection Heq as -> ->.
    + by intros s2 e s3 _ [? _].
    + intros s2 [v existing] _ c t c' Hh Hg [Hvs Ho] Hr.
      destruct (accept_existing_agent_runs deadline labels v existing (cl_shared c) Hvs (Ho v existing eq_refl)
        c t c' Hh Hg) as (? & ? & ?); [reflexivity|done|done].
Qed.

Lemma live_repository_runs E deadline :
  enrolls (under_lock E) (live_repository repository deadline) (λ _ _ s', under_lock E s').
Proof.
  unfold live_repository. eapply sh_bind with (Q1 := λ _ _ s', under_lock E s'); [|intros; by apply sh_ret].
  destruct deadline as [d|].
  - eapply runs_weaken; [apply runs_bounded_read, _|done|]. intros s r s' Hs [HR _]. by eapply under_lock_turn.
  - eapply runs_weaken; [apply runs_read, _|done|]. intros s r s' Hs [HR _]. by eapply under_lock_turn.
Qed.

Lemma enrollment_transaction_runs :
  enrolls (λ s, versioned s ∧ lock_taken s) (enrollment_transaction repository claim) (λ _ _ s', versioned s').
Proof.
  unfold enrollment_transaction. eapply sh_bind; [apply runs_peek|]. intros s t [Hv (t0 & Hl & Ht0)].
  set (E := t0 + micros ENROLLMENT_LOCK_SECONDS).
  eapply runs_weaken with (P' := λ s', s' = s ∧ t = sh_clock s) (Q' := λ _ _ s', versioned s'); [|done|done].
  eapply runs_weaken with (P' := λ s', under_lock E s' ∧ t = sh_clock s) (Q' := λ _ _ s', versioned s');
    [|intros s' [-> ->]; split; [by split|done]|done].
  eapply runs_try with (Q1 := λ _ _ s', under_lock E s' ∧ t = sh_clock s).
  - intros c r c' Hh Hg [Hu ->] Hr. destruct (live_repository_runs E _ c r c' Hh Hg Hu Hr) as (? & ? & ?). auto.
  - by intros s1 e s2 _ [[? _] _].
  - intros s1 live _. eapply runs_try with (Q1 := λ _ r s', under_lock E s' ∧ t = sh_clock s
      ∧ ∀ v a, r = inr (Some (v, a)) → agent_at s' (cl_name claim) = Some (v, a)).
    + apply status_runs. eapply runs_weaken; [apply runs_bounded_read, _|intros s' Hs'; exact Hs'|].
      intros s2 r s3 [Hu ->] [HR3 Hr]. split; [by eapply under_lock_turn|]. split; [done|].
      intros v a Heq. destruct Hr as [->|[->| ->]]; [done..|]. by injection Heq.
    + by intros s2 e s3 _ [[? _] _].
    + intros s2 [[v existing]|] _.
      * intros c r c' Hh Hg ([Hvs _] & _ & Ho) Hr.
        destruct (accept_existing_agent_runs (t + ENROLLMENT_TRANSACTION_TIMEOUT) (ro_labels live) v existing
          (cl_shared c) Hvs (Ho v existing eq_refl) c r c' Hh Hg) as (? & ? & ?); [reflexivity|done|done].
      * destruct (bool_decide _); [apply sh_ret; by intros s3 [[? _] _]|].
        eapply runs_try with (Q1 := λ _ r s', under_lock E s' ∧ t = sh_clock s
          ∧ ∀ n, r = inr n → members repository s' = n).
        -- apply status_runs. eapply runs_weaken; [apply runs_bounded_read, _|intros s' Hs'; exact Hs'|].
           intros s3 r s4 (Hu & -> & _) [HR4 Hr]. split; [by eapply under_lock_turn|]. split; [done|].
           intros n Heq. destruct Hr as [->|[->| ->]]; [done..|]. by injection Heq.
        -- by intros s3 e s4 _ [[? _] _].
        -- intros s3 count _. destruct (at_enrollment_capacity count) eqn:Hcap;
             [apply sh_ret; by intros s4 [[? _] _]|].
           apply Nat.leb_gt in Hcap.
           intros c r c' Hh Hg (Hu & Ht & Hn) Hr.
           destruct (create_agent_idempotent_runs (t + ENROLLMENT_TRANSACTION_TIMEOUT) (ro_labels live) E count)
             with (c := c) (t := r) (c' := c') as (? & ? & ?); [|done|done|done| |done|done].
           ++ unfold E. rewrite Ht. unfold ENROLLMENT_TRANSACTION_TIMEOUT, ENROLLMENT_LOCK_SECONDS, SERVED_WITHIN, micros in *.
              lia.
           ++ split; [done|]. intros _. by rewrite (Hn count).
Qed.

Lemma release_runs : enrolls versioned (release lock h) (λ _ _ s', versioned s').
Proof.
  unfold release. eapply runs_try with (Q1 := λ _ r s', versioned s' ∧ ∀ v l, r = inr (v, l) →
    sh_objects s' !! lease_key lock = Some (v, RLease l)).
  - eapply runs_weaken; [apply runs_read, _|done|]. intros s r s' Hv [HR Hr].
    split; [by eapply versioned_turn|]. intros v l Heq. destruct Hr as [->| ->]; [done|].
    destruct (sh_objects s' !! lease_key lock) as [[v' [l'| |]]|]; try done. by injection Heq as -> ->.
  - by intros s e s' _ [? _].
  - intros s [version [spec|]] Hv; [|apply sh_ret; by intros s' [? _]].
    eapply sh_bind; [apply runs_now, _|]. intros s1 t [Hv1 Ho]. specialize (Ho version (Some spec) eq_refl).
    destruct (release_enrollment_lock_spec spec h t) as [spec'|] eqn:Hrel.
    2:{ apply sh_ret. intros s2 [HR2 _]. by eapply versioned_turn. }
    eapply sh_bind.
    + apply runs_change; [apply _|]. intros s2 s3 [HR2 _] HR3 Hal. unfold version_of in Hal.
      destruct (sh_objects s3 !! lease_key lock) as [[v x]|] eqn:Ho3; simpl in Hal; [|done].
      apply demand_inr, bool_decide_eq_true in Hal as ->.
      assert (enroll_rely h s1 s3) as HR13 by (by etrans; apply turn_rely).
      assert (x = RLease (Some spec)) as -> by (by eapply same_version).
      by eapply free_lock_guarantee.
    + intros s2 r [HR2 _]. apply sh_ret. intros s' (s3 & HR3 & Hch).
      assert (versioned s3) as Hv3 by (eapply versioned_turn; [by eapply versioned_turn|done]).
      destruct Hch as [[-> _]|(_ & -> & _)]; [done|by apply versioned_put].
Qed.

End claim.

End law.

(** ** The retry loop ends by its deadline *)

Lemma lock_loop_enough lock h deadline n : ∀ k c,
  deadline - sh_clock (cl_shared c) ≤ Z.of_nat n * ENROLLMENT_LOCK_RETRY →
  lock_loop (S n + k) deadline lock h c = lock_loop (S n) deadline lock h c.
Proof.
  induction n as [|n IH]; intros k c Hd; rewrite Nat.add_succ_l; cbn [lock_loop];
    destruct (bounded deadline (get_lease lock) c) as [r c1] eqn:E1; rewrite !(bind_run _ _ _ _ _ E1).
  { assert (r = inl EElapsed) as ->; [|done]. unfold bounded, peek, mbind, Sh_bind in E1.
    destruct (Z.leb_spec deadline (sh_clock (cl_shared c))); [by injection E1|]. simpl in Hd. lia. }
  destruct r as [e|[version lease]]; [done|].
  pose proof (passes_bounded _ _ (passes_read _) _ _ _ E1) as Hc1.
  destruct (now c1) as [t c2] eqn:E2. rewrite !(bind_run _ _ _ _ _ E2). pose proof (passes_now _ _ _ E2) as Hc2.
  assert (∀ c', sh_clock (cl_shared c) ≤ sh_clock (cl_shared c') →
    (_ ← sleep ENROLLMENT_LOCK_RETRY; lock_loop (S n + k) deadline lock h) c'
    = (_ ← sleep ENROLLMENT_LOCK_RETRY; lock_loop (S n) deadline lock h) c') as Hretry.
  { intros c' Hc'. destruct (sleep ENROLLMENT_LOCK_RETRY c') as [u c3] eqn:E3. rewrite !(bind_run _ _ _ _ _ E3).
    pose proof (passes_sleep _ _ _ _ E3) as Hc3. apply IH. unfold ENROLLMENT_LOCK_RETRY in *. lia. }
  destruct (negb _); [apply Hretry; lia|].
  match goal with |- context [bounded deadline ?m ≫= _] => destruct (bounded deadline m c2) as [w c4] eqn:E4 end.
  rewrite !(bind_run _ _ _ _ _ E4).
  assert (sh_clock (cl_shared c2) + 0 ≤ sh_clock (cl_shared c4)) as Hc4.
  { eapply passes_bounded; [|exact E4]. by apply passes_change. }
  destruct w as [[]|]; [done| |done..]. apply Hretry. lia.
Qed.

(** The lock's fuel is enough: with more, the loop answers the same. *)
Lemma acquire_enrollment_lock_fuel lock h k s turns :
  lock_loop (lock_tries + k) (sh_clock s + ENROLLMENT_LOCK_WAIT) lock h (starts s turns)
  = acquire_enrollment_lock lock h (starts s turns).
Proof.
  unfold acquire_enrollment_lock. rewrite (bind_run (peek sh_clock) _ _ (sh_clock s) (starts s turns)) by done.
  change lock_tries with (S 200). rewrite lock_loop_enough; [done|].
  cbn [cl_shared starts]. unfold ENROLLMENT_LOCK_WAIT, ENROLLMENT_LOCK_RETRY, micros. lia.
Qed.

(** ** Enrollment *)

Section enrollment.
Context `{!ReportParts} `{!Semver} `{!Signed} `{!Curve} `{!Sha256} `{!Certificates}.
Context `{!Urls} `{!DataflowJson} `{!ObjectPaths}.
Context (repository lock h : string) (content : Destination) (today : Z) (name csr public_key : string).
Hypothesis csr_key : csr_public_key csr = Some public_key.

Definition claim_of : EnrollmentClaim := mkEnrollmentClaim name public_key (node_object_digest name).

(** What a node is granted: the leaf of its own request, while its name is pinned to that key. *)
Definition granted (r : StatusCode + (DownloadCapability * string)) (s' : shared resource) : Prop :=
  ∀ capability leaf, r = inr (capability, leaf) →
    (∃ version agent, agent_at s' name = Some (version, agent) ∧ claim_matches repository claim_of agent = true)
    ∧ sign_client_csr today repository name csr = Some leaf.

Lemma register_enrollment_runs :
  runs (enroll_turn repository lock h) (enroll_guarantee repository lock claim_of h) versioned
    (register_enrollment repository content today lock h name csr) (λ _ r s', granted r s').
Proof.
  unfold register_enrollment. rewrite csr_key. fold claim_of.
  eapply sh_bind with (Q1 := λ _ r s', versioned s' ∧ (r = inr tt → lock_taken lock h s')).
  { unfold acquire_enrollment_lock. eapply sh_bind; [apply runs_peek|]. intros s t Hv.
    eapply runs_weaken; [apply lock_loop_runs|by intros s' [-> _]|done]. }
  intros s [e|[]] _; [by apply sh_ret|].
  eapply sh_bind with (Q1 := λ _ _ s', versioned s').
  { eapply runs_weaken; [apply enrollment_transaction_runs| |done]. intros s' [? Hl]. auto. }
  intros s1 registration _. eapply sh_bind; [apply release_runs|]. intros s2 released _.
  destruct released as [e|[]], registration as [status|[]]; [by apply sh_ret..|].
  eapply sh_bind; [apply runs_read, _|]. intros s3 r Hv3. apply sh_ret. intros s4 [HR Hr] capability leaf.
  destruct Hr as [->| ->]; [done|]. destruct (agent_at s4 name) as [[version agent]|] eqn:Ha; [|done]. simpl.
  unfold enrollment_grant. intros Hg. sum_inv. split; [eauto|done].
Qed.

End enrollment.

(** A name in use, with its key pinned or its registration made, is left as it is. *)
Definition identities_kept (s s' : shared resource) : Prop :=
  ∀ n version agent, agent_at s n = Some (version, agent) → ai_kind (ao_identity agent) ≠ Reserved →
    agent_at s' n = Some (version, agent).

Section theorems.
Context `{!ReportParts} `{!Semver} `{!Signed} `{!Curve} `{!Sha256} `{!Certificates}.
Context `{!Urls} `{!DataflowJson} `{!ObjectPaths}.
Context (repository lock h : string) (content : Destination) (today : Z).

Lemma agent_at_put_elsewhere k y (s : shared resource) n :
  k ≠ agent_key n → agent_at (put_object k y s) n = agent_at s n.
Proof. intros Hk. unfold agent_at. simpl. by rewrite lookup_insert_ne. Qed.

Lemma enrollment_change_keeps_identities claim s s' :
  enrollment_change repository lock claim h s s' → identities_kept s s'.
Proof.
  intros Hch n v a Ha Hk. destruct Hch as [| |labels Ho|v' existing labels Ho Had];
    [by rewrite agent_at_put_elsewhere..| |].
  - rewrite agent_at_put_elsewhere; [done|]. intros Heq. apply agent_at_Some in Ha. congruence.
  - rewrite agent_at_put_elsewhere; [done|]. intros Heq%agent_key_inj. rewrite Heq in Ho. rewrite Ho in Ha. injection Ha as -> ->.
    unfold adopts_preapproval in Had. by destruct (ai_kind (ao_identity a)).
Qed.

Lemma enroll_runs enrollment_client_cn i name csr s turns r c :
  versioned s → honest (enroll_turn repository lock h) turns →
  enroll repository content today lock h enrollment_client_cn i name csr (starts s turns) = (r, c) →
  (cl_made c = [] ∧ ∃ status, r = inl status)
  ∨ ∃ public_key, csr_public_key csr = Some public_key ∧ is_dns_subdomain name = true
      ∧ guaranteed (enroll_guarantee repository lock (claim_of name public_key) h) (cl_made c)
      ∧ granted repository today name csr public_key r (cl_shared c).
Proof.
  intros Hv Hh. unfold enroll. destruct (negb _); [intros [= <- <-]; left; eauto|].
  destruct (is_dns_subdomain name); simpl; [|intros [= <- <-]; left; eauto].
  destruct (negb _); [intros [= <- <-]; left; eauto|].
  destruct (csr_public_key csr) as [public_key|] eqn:Hk.
  - intros Hr. right. exists public_key. do 2 (split; [done|]).
    destruct (register_enrollment_runs repository lock h content today name csr public_key Hk
      (starts s turns) r c Hh (Forall_nil_2 _) Hv Hr) as (_ & ? & ?). done.
  - unfold register_enrollment. rewrite Hk. intros [= <- <-]. left. eauto.
Qed.

(** C17. Enrollment never seizes a name.  Among gateways that keep to the enrollment lock, every
    change an enrollment makes leaves each name that has an identity exactly as it was: it only
    creates its own absent name, or stamps its own claim on a name the operator reserved.  A
    certificate it hands out is signed for the requested name while that name's live object pins
    the request's key, and it is classified as that node of that repository and nothing else. *)
Theorem enrollment_never_seizes_a_name enrollment_client_cn i name csr s turns r c :
  versioned s → honest (enroll_turn repository lock h) turns →
  enroll repository content today lock h enrollment_client_cn i name csr (starts s turns) = (r, c) →
  (∀ s1 s2, (s1, s2) ∈ cl_made c → identities_kept s1 s2
     ∧ ∃ public_key, csr_public_key csr = Some public_key
         ∧ enrollment_change repository lock (claim_of name public_key) h s1 s2)
  ∧ ∀ capability leaf, r = inr (capability, leaf) →
      ∃ public_key version agent, csr_public_key csr = Some public_key
        ∧ agent_at (cl_shared c) name = Some (version, agent)
        ∧ agent_authorizes_key agent repository name public_key = true
        ∧ certificate_identity leaf = Node (mkNodeSpiffeId repository name) public_key.
Proof.
  intros Hv Hh Hr. destruct (enroll_runs _ _ _ _ _ _ _ _ Hv Hh Hr) as [[-> [status ->]]|(pk & Hk & _ & Hg & Hgr)].
  - split; [by intros s1 s2 ?%not_elem_of_nil|done].
  - split.
    + intros s1 s2 Hin. unfold guaranteed in Hg. rewrite Forall_forall in Hg. destruct (Hg (s1, s2) Hin) as [Hch _].
      split; [by eapply enrollment_change_keeps_identities|eauto].
    + intros capability leaf Heq. destruct (Hgr capability leaf Heq) as [(v & a & Ha & Hm) Hs].
      unfold claim_matches in Hm. apply andb_true_iff in Hm as [Hm _]. simpl in Hm.
      exists pk, v, a. split_and!; [done..|].
      destruct (issued_leaf_identity _ _ _ _ _ Hs) as (point & Hp & ->). unfold csr_public_key in Hk. rewrite Hp in Hk.
      simpl in Hk. destruct (ok_of (from_point point)); simpl in Hk; [|done]. by injection Hk as ->.
Qed.

(** Enrollment respects the fleet's ceiling.  If requests are served within thirty seconds,
    every change an enrollment makes is one every other gateway may rely on: it never grows the
    inventory past its ceiling, never grows it while another gateway holds the enrollment lock, and
    never takes that lock before it lapses. *)
Lemma enrollment_respects_the_ceiling enrollment_client_cn i name csr s turns r c :
  versioned s → honest (enroll_turn repository lock h) turns →
  enroll repository content today lock h enrollment_client_cn i name csr (starts s turns) = (r, c) →
  ∀ s1 s2, (s1, s2) ∈ cl_made c →
    ((members repository s1 ≤ MAX_BACKEND_INVENTORY_MEMBERS)%nat →
       (members repository s2 ≤ MAX_BACKEND_INVENTORY_MEMBERS)%nat)
    ∧ ∀ h', h' ≠ h → h' ≠ EmptyString → enroll_rely repository lock h' s1 s2.
Proof.
  intros Hv Hh Hr s1 s2 Hin.
  destruct (enroll_runs _ _ _ _ _ _ _ _ Hv Hh Hr) as [[Hm _]|(pk & _ & _ & Hg & _)];
    [rewrite Hm in Hin; by apply not_elem_of_nil in Hin|].
  unfold guaranteed in Hg. rewrite Forall_forall in Hg. destruct (Hg (s1, s2) Hin) as [_ Hrely]. simpl in Hrely.
  split; [|done]. apply (er_cap repository lock (String.append h "0")). apply Hrely.
  - intros Heq%(f_equal String.length). rewrite length_append in Heq. simpl in Heq. lia.
  - by destruct h.
Qed.

End theorems.
