(* ===== verification/Publish.v ===== *)
(** * Publish: mirroring a signed generation to the object store

    Models [publish_repository] and its helpers of [updatec/src/runtime/publish.rs] over an object
    store other publishers may be writing to: the local repository is a map from relative paths to
    bytes, an object is its bytes under a version, and a put creates, replaces one version, or
    overwrites.  A stream and its declared size are the object's bytes; a multipart upload is one
    put, which a failing part prevents.  Paths are text. *)
From S2P Require Import Prelude Identity Maps Releases Dataflow Telemetry Window Rollout Assignment Groups.
From S2P Require Import Publication Shared.

(** serde_json's access to a parsed document. *)
Class JsonPointers `{!JsonValues} : Type := {
  json_pointer : JsonValue → string → option JsonValue;
  json_as_u64 : JsonValue → option N;
  json_as_str : JsonValue → option string;
}.

Definition LOCAL_TUF_METADATA_MAX_BYTES : N := 16 * 1024 * 1024.
Definition OBJECT_BYTES_LIMIT : N := 8 * 1024 * 1024.

Inductive PublishError : Type :=
| PStore (e : ApiError)
| PTooLarge
| PPath (relative : string)
| PRetained (relative : string)
| PNoTimestamp
| PNoRoot
| PTwoRoots
| PTarget (relative : string)
| POutside (relative : string)
| PUnreadable (relative : string)
| PNoVersion
| PRollback (remote local : N)
| PSameVersion (version : N)
| PFence
| POnlineMetadataConflict (relative : string)
| PImmutableConflict (relative : string)
| PVerify (relative : string).

(** The local files of a repository, by relative path. *)
Abbreviation Files := (BTreeMap string).

Record PublicationFiles : Type := mkPublicationFiles {
  pf_uploads : list string;
  pf_retained : list (string * N);
}.

(** The components of a relative path, if all are normal. *)
Definition path_components (path : string) : option (list string) :=
  match split_on "/"%char EmptyString path with
  | first :: rest =>
      if bool_decide (path = EmptyString) then Some []
      else if bool_decide (first = EmptyString) || bool_decide (first = ".") then None
      else
        let parts := first :: filter (λ part, part ≠ EmptyString ∧ part ≠ ".") rest in
        if bool_decide (".." ∈ parts) then None else Some parts
  | [] => None
  end.

Definition ROOT : string := "metadata/root.json".
Definition TIMESTAMP : string := "metadata/timestamp.json".

(** [path.strip_prefix(dir)] and [path.starts_with(dir)] for a single directory. *)
Definition below (dir path : string) : option string :=
  if bool_decide (path = dir) then Some EmptyString else strip_prefix (String.append dir "/") path.

(** [str::parse::<u64>]: an optional plus sign, then at least one digit, within range. *)
Fixpoint parse_u64_digits (acc : N) (s : string) : option N :=
  match s with
  | EmptyString => Some acc
  | String c s =>
      if is_ascii_digit c then
        let acc := (10 * acc + (N_of_ascii c - 48))%N in
        if (acc <=? u64_max)%N then parse_u64_digits acc s else None
      else None
  end.

Definition parse_u64 (s : string) : option N :=
  match s with
  | EmptyString => None
  | String "+"%char EmptyString => None
  | String "+"%char s => parse_u64_digits 0 s
  | s => parse_u64_digits 0 s
  end.

Definition split_last {A} (l : list A) : option (list A * A) :=
  x ← last l; Some (removelast l, x).

(** Which put a conditional write issues. *)
Inductive PutMode : Type := PutCreate | PutUpdate (version : N).

Record ConditionalPublicationFile : Type := mkConditionalPublicationFile {
  cf_bytes : string;
  cf_previous : option string;
  cf_mode : PutMode;
}.

Section publish.
Context `{!JsonValues} `{!JsonPointers} `{!Sha256} `{!ObjectPaths}.
Context (prefix : string) (files : Files).

Definition signed_version (bytes : string) : option N :=
  value ← json_from_str bytes;
  version ← json_pointer value "/signed/version";
  json_as_u64 version.

Definition repository_object_key (relative : string) : PublishError + string :=
  parts ← ok_or (path_components relative) (PPath relative);
  _ ← demand (negb (bool_decide (parts = []))) (PPath relative);
  inr (object_key prefix (String.concat "/" parts)).

(** [read_local_bounded] of a repository file. *)
Definition read_local (relative : string) (limit : N) : PublishError + string :=
  bytes ← ok_or (files !! relative) (PUnreadable relative);
  _ ← demand (str_len bytes <=? limit)%N (PUnreadable relative);
  inr bytes.

(** The object's bytes, within a limit. *)
Definition within_limit (limit : N) (bytes : string) : PublishError + string :=
  _ ← demand (str_len bytes <=? limit)%N PTooLarge; inr bytes.

Definition content_addressed_target_digest (relative : string) : PublishError + option string :=
  match below "targets" relative with
  | None => inr None
  | Some target =>
      '(digest, _) ← ok_or (split_once "."%char target) (PTarget relative);
      _ ← demand (is_canonical_sha256 digest) (PTarget relative);
      inr (Some digest)
  end.

Definition verify_remote_target (key relative digest : string) (length : N) : Sh string (PublishError + unit) :=
  r ← get key;
  mret ('(_, bytes) ← map_err PStore r;
        demand (bool_decide (str_len bytes = length) && bool_decide (sha256_bytes bytes = digest)) (PVerify relative)).

Definition verify_retained (target : string * N) : Sh string (PublishError + unit) :=
  let '(relative, length) := target in
  key ←? lift (repository_object_key relative);
  digest ←? lift (content_addressed_target_digest relative);
  digest ←? lift (ok_or digest (PRetained relative));
  verify_remote_target key relative digest length.

(** What the first loop over the uploads collects: the root, and each target's length. *)
Record Checked : Type := mkChecked { ck_root : bool; ck_targets : BTreeMap N }.

Definition check_upload (ck : Checked) (relative : string) : PublishError + Checked :=
  if bool_decide (relative = ROOT) then
    _ ← demand (negb (ck_root ck)) PTwoRoots;
    inr (mkChecked true (ck_targets ck))
  else
    digest ← content_addressed_target_digest relative;
    match digest with
    | Some expected =>
        bytes ← ok_or (files !! relative) (PUnreadable relative);
        _ ← demand (bool_decide (sha256_bytes bytes = expected)) (PTarget relative);
        inr (mkChecked (ck_root ck) (<[relative := str_len bytes]> (ck_targets ck)))
    | None =>
        _ ← demand (bool_decide (is_Some (below "metadata" relative))) (POutside relative);
        inr ck
    end.

Fixpoint check_uploads (ck : Checked) (uploads : list string) : PublishError + Checked :=
  match uploads with
  | [] => inr ck
  | relative :: uploads => ck ← check_upload ck relative; check_uploads ck uploads
  end.

(** [prepare_conditional_publication_file] *)
Definition prepare_conditional_publication_file (key relative : string)
    : Sh string (PublishError + ConditionalPublicationFile) :=
  bytes ←? lift (read_local relative LOCAL_TUF_METADATA_MAX_BYTES);
  r ← get key;
  match r with
  | inr (version, current) =>
      previous ←? lift (within_limit LOCAL_TUF_METADATA_MAX_BYTES current);
      mret (inr (mkConditionalPublicationFile bytes (Some previous) (PutUpdate version)))
  | inl ENotFound => mret (inr (mkConditionalPublicationFile bytes None PutCreate))
  | inl e => mret (inl (PStore e))
  end.

Definition validate_timestamp_transition (write : ConditionalPublicationFile) : PublishError + unit :=
  local_version ← ok_or (signed_version (cf_bytes write)) PNoVersion;
  match cf_previous write with
  | None => inr tt
  | Some previous =>
      remote_version ← ok_or (signed_version previous) PNoVersion;
      _ ← demand (remote_version <=? local_version)%N (PRollback remote_version local_version);
      demand (negb (bool_decide (remote_version = local_version) && negb (bool_decide (previous = cf_bytes write))))
        (PSameVersion local_version)
  end.

(** [commit_conditional_publication_file] *)
Definition commit_conditional_publication_file (key : string) (write : ConditionalPublicationFile)
    : Sh string (PublishError + unit) :=
  if bool_decide (cf_previous write = Some (cf_bytes write)) then mret (inr tt)
  else
    r ← (match cf_mode write with
         | PutCreate => create key (cf_bytes write)
         | PutUpdate version => replace key version (cf_bytes write)
         end);
    mret (match r with
          | inr _ => inr tt
          | inl EConflict => inl PFence
          | inl e => inl (PStore e)
          end).

(** Whether a metadata conflict can be answered by signing a later generation. *)
Definition is_online_role (relative : string) : bool :=
  match (name ← last (split_on "/"%char EmptyString relative); split_once "."%char name) with
  | Some (version, role) =>
      bool_decide (is_Some (parse_u64 version))
      && (bool_decide (role = "targets.json") || bool_decide (role = "snapshot.json"))
  | None => false
  end.

(** [publish_immutable_metadata] *)
Definition publish_immutable_metadata (key relative : string) : Sh string (PublishError + unit) :=
  bytes ←? lift (read_local relative LOCAL_TUF_METADATA_MAX_BYTES);
  r ← create key bytes;
  match r with
  | inr _ => mret (inr tt)
  | inl EConflict =>
      r ← get key;
      mret ('(_, existing) ← map_err PStore r;
            existing ← within_limit LOCAL_TUF_METADATA_MAX_BYTES existing;
            demand (bool_decide (existing = bytes))
              (if is_online_role relative then POnlineMetadataConflict relative else PImmutableConflict relative))
  | inl e => mret (inl (PStore e))
  end.

(** [publish_content_addressed_target] *)
Definition publish_content_addressed_target (key relative digest : string) (length : N)
    : Sh string (PublishError + unit) :=
  r ← get key;
  match r with
  | inr _ => verify_remote_target key relative digest length
  | inl ENotFound =>
      bytes ←? lift (ok_or (files !! relative) (PUnreadable relative));
      r ← overwrite key bytes;
      match r with
      | inr _ => verify_remote_target key relative digest length
      | inl e => mret (inl (PStore e))
      end
  | inl e => mret (inl (PStore e))
  end.

Definition publish_upload (targets : BTreeMap N) (relative : string) : Sh string (PublishError + unit) :=
  if bool_decide (relative = ROOT) then mret (inr tt)
  else
    key ←? lift (repository_object_key relative);
    match targets !! relative with
    | Some length =>
        digest ←? lift (content_addressed_target_digest relative);
        digest ←? lift (ok_or digest (PTarget relative));
        publish_content_addressed_target key relative digest length
    | None => publish_immutable_metadata key relative
    end.

(** [publish_repository] *)
Definition publish_repository (plan : PublicationFiles) : Sh string (PublishError + unit) :=
  _ ←? sh_each verify_retained (pf_retained plan);
  '(uploads, timestamp) ←? lift (ok_or (split_last (pf_uploads plan)) PNoTimestamp);
  _ ←? lift (demand (bool_decide (timestamp = TIMESTAMP)) PNoTimestamp);
  timestamp_key ←? lift (repository_object_key timestamp);
  ck ←? lift (check_uploads (mkChecked false ∅) uploads);
  _ ←? lift (demand (ck_root ck) PNoRoot);
  let root_key := object_key prefix ROOT in
  timestamp_write ←? prepare_conditional_publication_file timestamp_key timestamp;
  _ ←? lift (validate_timestamp_transition timestamp_write);
  root_write ←? prepare_conditional_publication_file root_key ROOT;
  _ ←? sh_each (publish_upload (ck_targets ck)) uploads;
  _ ←? commit_conditional_publication_file root_key root_write;
  commit_conditional_publication_file timestamp_key timestamp_write.

(** [store_published_version] *)
Definition store_published_version : Sh string (PublishError + option N) :=
  r ← get (object_key prefix TIMESTAMP);
  mret (match r with
        | inl ENotFound => inr None
        | inl e => inl (PStore e)
        | inr (_, bytes) =>
            bytes ← within_limit OBJECT_BYTES_LIMIT bytes;
            version ← ok_or (signed_version bytes) PNoVersion;
            inr (Some version)
        end).

End publish.
