(* ===== verification/PublishSafety.v ===== *)
(** * PublishSafety: a generation becomes visible whole, and never moves back

    Theorems of [Publish.v].  Publishers rely on each other for what [publish_rely] says of the
    store they share, and each guarantees it of every object it writes. *)
From S2P Require Import Prelude Identity Maps Releases Dataflow Telemetry Window Rollout Assignment Groups.
From S2P Require Import Publication Shared Publish.

(** A path that is its own normal form. *)
Definition plain (relative : string) : Prop :=
  ∃ parts, path_components relative = Some parts ∧ parts ≠ [] ∧ String.concat "/" parts = relative.

Section law.
Context `{!JsonValues} `{!JsonPointers} `{!Sha256} `{!ObjectPaths}.
Context (prefix : string).
Implicit Types (s : shared string).
Abbreviation key := (object_key prefix).

(** The bytes and the generation the store serves. *)
Definition timestamp_of s : option string := snd <$> sh_objects s !! key TIMESTAMP.
Definition served s : option N := timestamp_of s ≫= signed_version.

(** A role document that has its version in its name. *)
Definition immutable (relative : string) : Prop :=
  plain relative ∧ is_Some (below "metadata" relative) ∧ relative ≠ ROOT ∧ relative ≠ TIMESTAMP.

Definition holds_target s (relative digest : string) : Prop :=
  ∃ version bytes, sh_objects s !! key relative = Some (version, bytes) ∧ sha256_bytes bytes = digest.

Record publish_rely s s' : Prop := mkPublishRely {
  pr_next : (sh_next s ≤ sh_next s')%N;
  pr_fresh k o : sh_objects s' !! k = Some o → sh_objects s !! k = Some o ∨ (sh_next s ≤ o.1 < sh_next s')%N;
  pr_generation b v : timestamp_of s = Some b → signed_version b = Some v →
    ∃ b' v', timestamp_of s' = Some b' ∧ signed_version b' = Some v' ∧ (v ≤ v')%N ∧ (v' = v → b' = b);
  pr_metadata a o : immutable a → sh_objects s !! key a = Some o → sh_objects s' !! key a = Some o;
  pr_target a d : plain a → content_addressed_target_digest a = inr (Some d) →
    holds_target s a d → holds_target s' a d;
}.

#[export] Instance publish_rely_preorder : PreOrder publish_rely.
Proof.
  split.
  - intros s. split; [lia|auto| |auto..]. intros b v Hb Hv. exists b, v. auto using N.le_refl.
  - intros s1 s2 s3 [] []. split; [lia| | |auto..].
    + intros k o Ho. destruct (pr_fresh1 k o Ho) as [Ho2|?]; [|right; lia].
      destruct (pr_fresh0 k o Ho2) as [?|?]; [by left|right; lia].
    + intros b v Hb Hv. destruct (pr_generation0 b v Hb Hv) as (b' & v' & Hb' & Hv' & Hle & Heq).
      destruct (pr_generation1 b' v' Hb' Hv') as (b2 & v2 & ? & ? & ? & Heq2).
      exists b2, v2. split_and!; [done..|lia|]. intros ->. assert (v' = v) as -> by lia. by rewrite Heq2, Heq.
Qed.

Lemma versioned_publish s s' : versioned s → publish_rely s s' → versioned s'.
Proof.
  intros Hv HR k o Ho. destruct (pr_fresh _ _ HR k o Ho) as [Hs|?]; [|lia].
  specialize (Hv k o Hs). pose proof (pr_next _ _ HR). lia.
Qed.

Lemma same_object s s' k v b b' :
  versioned s → publish_rely s s' → sh_objects s !! k = Some (v, b) → sh_objects s' !! k = Some (v, b') → b' = b.
Proof.
  intros Hv HR Ho Ho'. destruct (pr_fresh _ _ HR k _ Ho') as [?|Hf]; [congruence|].
  specialize (Hv k _ Ho). simpl in *. lia.
Qed.

(** ** Kinds of paths *)

Lemma below_Some dir a rest :
  below dir a = Some rest → (a = dir ∧ rest = EmptyString) ∨ a = String.append dir (String "/" rest).
Proof.
  unfold below. case_bool_decide; [intros [= <-]; by left|]. intros Hs%strip_prefix_Some. right.
  rewrite Hs, <-append_assoc. done.
Qed.

Lemma target_not_metadata a d :
  content_addressed_target_digest a = inr (Some d) → below "metadata" a = None.
Proof.
  unfold content_addressed_target_digest. destruct (below "targets" a) as [t|] eqn:Ht; [|done]. intros _.
  destruct (below "metadata" a) as [m|] eqn:Hm; [|done].
  apply below_Some in Ht as [[-> _]| ->]; apply below_Some in Hm as [[Heq _]|Heq]; done.
Qed.

(** ** One write *)

Section write.
Hypothesis distinct_keys : ∀ a b, plain a → plain b → key a = key b → a = b.

(** A put somewhere else than the timestamp, which keeps what was whole there. *)
Lemma put_rely s a bytes :
  plain a → a ≠ TIMESTAMP → plain TIMESTAMP →
  (immutable a → sh_objects s !! key a = None) →
  (∀ d, content_addressed_target_digest a = inr (Some d) → sha256_bytes bytes = d) →
  publish_rely s (put_object (key a) bytes s).
Proof.
  intros Hp Ht HT Him Htg. split; cbn [put_object sh_next sh_objects].
  - lia.
  - intros k o [[<- <-]|[Hne Ho]]%lookup_insert_Some; [right; cbn [fst]; lia|by left].
  - intros b v Hb Hv. exists b, v. split_and!; [|done|lia|done]. unfold timestamp_of in *. simpl.
    rewrite lookup_insert_ne; [done|]. intros Heq. by apply distinct_keys in Heq.
  - intros a' o Ha' Ho. destruct (decide (a = a')) as [<-|Hne]; [rewrite Him in Ho; done|].
    rewrite lookup_insert_ne; [done|]. intros Heq. apply distinct_keys in Heq; [done..|by destruct Ha'].
  - intros a' d Ha' Hd (v & b & Ho & Hsha). destruct (decide (a = a')) as [<-|Hne].
    + exists (sh_next s), bytes. simpl. rewrite lookup_insert_eq. auto.
    + exists v, b. simpl. rewrite lookup_insert_ne; [done|]. intros Heq. by apply distinct_keys in Heq.
Qed.

(** A put of the timestamp, over nothing or over a generation it may follow. *)
Lemma put_timestamp_rely s bytes :
  plain TIMESTAMP →
  (∀ b v, timestamp_of s = Some b → signed_version b = Some v →
     ∃ v', signed_version bytes = Some v' ∧ (v ≤ v')%N ∧ (v' = v → bytes = b)) →
  publish_rely s (put_object (key TIMESTAMP) bytes s).
Proof.
  intros HT Hg. split; cbn [put_object sh_next sh_objects].
  - lia.
  - intros k o [[<- <-]|[Hne Ho]]%lookup_insert_Some; [right; cbn [fst]; lia|by left].
  - intros b v Hb Hv. destruct (Hg b v Hb Hv) as (v' & ? & ? & ?). exists bytes, v'.
    unfold timestamp_of. simpl. rewrite lookup_insert_eq. auto.
  - intros a o Ha Ho. rewrite lookup_insert_ne; [done|]. intros Heq. apply distinct_keys in Heq; [|done|by destruct Ha].
    destruct Ha as (_ & _ & _ & ?). done.
  - intros a d Ha Hd (v & b & Ho & Hsha). exists v, b. simpl. rewrite lookup_insert_ne; [done|].
    intros Heq. apply distinct_keys in Heq as <-; done.
Qed.

End write.

(** ** What a publisher guarantees *)

Section publisher.
Context (files : Files) (plan : PublicationFiles).
Hypothesis distinct_keys : ∀ a b, plain a → plain b → key a = key b → a = b.
Hypothesis plain_uploads : ∀ a, a ∈ pf_uploads plan → plain a.
Hypothesis plain_retained : ∀ a l, (a, l) ∈ pf_retained plan → plain a.
Hypothesis one_timestamp : TIMESTAMP ∉ removelast (pf_uploads plan).

Lemma plain_TIMESTAMP : plain TIMESTAMP.
Proof. exists ["metadata"; "timestamp.json"]. done. Qed.

Lemma plain_ROOT : plain ROOT.
Proof. exists ["metadata"; "root.json"]. done. Qed.

(** An upload is at its place: a target with the digest of its name, metadata byte for byte. *)
Definition uploaded s (a : string) : Prop :=
  match content_addressed_target_digest a with
  | inr (Some d) => holds_target s a d
  | _ => ∃ version bytes, files !! a = Some bytes ∧ sh_objects s !! key a = Some (version, bytes)
  end.

Definition retained s (a : string) : Prop :=
  ∃ d, content_addressed_target_digest a = inr (Some d) ∧ holds_target s a d.

(** Everything the generation needs is there; the root pointer is apart. *)
Definition complete s : Prop :=
  (∀ a l, (a, l) ∈ pf_retained plan → retained s a)
  ∧ ∀ a, a ∈ removelast (pf_uploads plan) → a ≠ ROOT → uploaded s a.

Definition publish_guarantee s s' : Prop :=
  publish_rely s s' ∧ (timestamp_of s' ≠ timestamp_of s → complete s').

(** From a state of [P], among honest publishers: every write is guaranteed, and the outcome is one
    of [Q]. *)
Definition pub {T} (P : shared string → Prop) (m : Sh string T) (Q : T → shared string → Prop) : Prop :=
  runs publish_rely publish_guarantee (λ s, versioned s ∧ P s) m
    (λ s r s', versioned s' ∧ publish_rely s s' ∧ Q r s').

Definition stable (P : shared string → Prop) : Prop := ∀ s s', P s → publish_rely s s' → P s'.

Lemma pub_ret {T} (P : shared string → Prop) (t : T) (Q : _ → _ → Prop) :
  (∀ s, P s → Q t s) → pub P (mret t) Q.
Proof. intros HQ. apply sh_ret. intros s [Hv HP]. split_and!; [done|reflexivity|auto]. Qed.

Lemma pub_weaken {T} (P P' : shared string → Prop) (m : Sh string T) (Q Q' : _ → _ → Prop) :
  pub P' m Q' → (∀ s, P s → P' s) → (∀ t s, Q' t s → Q t s) → pub P m Q.
Proof.
  intros Hm HP HQ. eapply runs_weaken; [exact Hm|naive_solver|]. intros s t s' _ (? & ? & ?). auto.
Qed.

Lemma pub_bind {T U} P (m : Sh string T) (f : T → Sh string U) (Q1 Q : _ → _ → Prop) :
  pub P m Q1 → (∀ t, pub (Q1 t) (f t) Q) → pub P (m ≫= f) Q.
Proof.
  intros Hm Hf. eapply sh_bind; [exact Hm|]. intros s t _ c u c' Hh Hg (Hv & HR & HQ) Hr.
  destruct (Hf t c u c' Hh Hg (conj Hv HQ) Hr) as (? & ? & ? & ? & ?). split_and!; [done..|by etrans|done].
Qed.

Lemma pub_try {E A B} P (m : Sh string (E + A)) (k : A → Sh string (E + B)) (Q1 Q : _ → _ → Prop) :
  pub P m Q1 → (∀ e s, Q1 (inl e) s → Q (inl e) s) → (∀ a, pub (Q1 (inr a)) (k a) Q) → pub P (sh_try m k) Q.
Proof. intros Hm He Hk. eapply pub_bind; [exact Hm|]. intros [e|a]; [|apply Hk]. apply pub_ret. auto. Qed.

Lemma pub_lift {E A B} P (r : E + A) (k : A → Sh string (E + B)) (Q : _ → _ → Prop) :
  (∀ e s, r = inl e → P s → Q (inl e) s) → (∀ a, r = inr a → pub P (k a) Q) → pub P (sh_try (lift r) k) Q.
Proof.
  intros He Hk. apply runs_lift; [|done]. intros e s -> [Hv HP]. split_and!; [done|reflexivity|auto].
Qed.

(** A fact the others keep is still true after any run. *)
Lemma pub_frame {T} (F P : shared string → Prop) (m : Sh string T) (Q : _ → _ → Prop) :
  stable F → pub P m Q → pub (λ s, P s ∧ F s) m (λ t s, Q t s ∧ F s).
Proof.
  intros HF Hm. eapply runs_weaken; [exact Hm|naive_solver|]. intros s t s' [_ [_ Hs]] (? & ? & ?). eauto.
Qed.

Lemma pub_get P k : stable P →
  pub P (get k) (λ r s, P s ∧ (r = inl EUnavailable ∨ r = ok_or (sh_objects s !! k) ENotFound)).
Proof.
  intros HP. eapply runs_weaken; [apply runs_read, _|naive_solver|]. intros s r s' [Hv Hs] [HR Hr].
  split; [by eapply versioned_publish|]. eauto.
Qed.

(** A write leaves its bytes, if it is known to have landed. *)
Lemma pub_change (P : shared string → Prop) allowed k y : stable P →
  (∀ s, versioned s → P s → allowed s = inr tt → publish_guarantee s (put_object k y s)) →
  pub P (change allowed (put_object k y))
    (λ r s', P s' ∧ ∀ n, r = inr n → ∃ version, sh_objects s' !! k = Some (version, y)).
Proof.
  intros HP HG. eapply runs_weaken; [apply runs_change; [apply _|]|intros s Hs; exact Hs|].
  - intros s s1 [Hv Hs] HR Ha. apply HG; [by eapply versioned_publish|eauto|done].
  - intros s r s' [Hv Hs] (s1 & HR & Hch). pose proof (versioned_publish _ _ Hv HR) as Hv1.
    destruct Hch as [[-> Hr]|(Ha & -> & _)].
    + split_and!; [done..|eauto|]. intros n ->. destruct Hr as [[=]|(e & _ & [=])].
    + destruct (HG s1 Hv1 (HP _ _ Hs HR) Ha) as [HR2 _].
      split_and!; [by eapply versioned_publish|by etrans|by eapply HP; [eapply HP|]|].
      intros n _. exists (sh_next s1). simpl. by rewrite lookup_insert_eq.
Qed.

Lemma pub_each {A} (P : shared string → Prop) (D : A → shared string → Prop) (f : A → Sh string (PublishError + unit)) l :
  stable P → (∀ x, x ∈ l → stable (D x)) →
  (∀ x, x ∈ l → pub P (f x) (λ r s, P s ∧ (r = inr tt → D x s))) →
  pub P (sh_each f l) (λ r s, P s ∧ (r = inr tt → ∀ x, x ∈ l → D x s)).
Proof.
  intros HP HD Hf. induction l as [|x l IH]; cbn [sh_each].
  - apply pub_ret. intros s Hs. split; [done|]. intros _ x []%not_elem_of_nil.
  - eapply pub_try; [apply Hf; constructor|naive_solver|]. intros [].
    eapply pub_weaken.
    + apply (pub_frame (D x)); [apply HD; constructor|].
      apply IH; [intros; apply HD; by constructor|intros; apply Hf; by constructor].
    + intros s [Hs Hx]. auto.
    + intros r s [[Hs Hall] Hx]. split; [done|]. intros Hr y [->|Hy]%elem_of_cons; auto.
Qed.

(** ** The stages *)

Lemma stable_target a d : plain a → content_addressed_target_digest a = inr (Some d) →
  stable (λ s, holds_target s a d).
Proof. intros Ha Hd s s' Hs HR. by eapply pr_target. Qed.

Lemma stable_retained a : plain a → stable (λ s, retained s a).
Proof. intros Ha s s' (d & Hd & Hs) HR. exists d. split; [done|]. by eapply pr_target. Qed.

Lemma key_of relative k : plain relative → repository_object_key prefix relative = inr k → k = key relative.
Proof.
  intros (parts & Hp & Hne & Hc). unfold repository_object_key. rewrite Hp. simpl.
  rewrite bool_decide_false by done. simpl. intros [= <-]. by rewrite Hc.
Qed.

Lemma verify_remote_target_pub P relative digest length : stable P →
  pub P (verify_remote_target (key relative) relative digest length)
    (λ r s, P s ∧ (r = inr tt → holds_target s relative digest)).
Proof.
  intros HP. eapply pub_bind; [by apply pub_get|]. intros r. apply pub_ret. intros s [Hs Hr].
  split; [done|]. intros Hok. destruct Hr as [->| ->]; [done|].
  destruct (sh_objects s !! key relative) as [[v b]|] eqn:Ho; [|done]. simpl in Hok. apply demand_inr in Hok.
  bool_to_prop. by exists v, b.
Qed.

Lemma verify_retained_pub P a l : stable P → (a, l) ∈ pf_retained plan →
  pub P (verify_retained prefix (a, l)) (λ r s, P s ∧ (r = inr tt → retained s a)).
Proof.
  intros HP Hin. unfold verify_retained. apply pub_lift; [naive_solver|]. intros k Hk%key_of; [|by eapply plain_retained].
  apply pub_lift; [naive_solver|]. intros [d|] Hd; (apply pub_lift; [naive_solver|]); [|done]. intros d' [= <-]. subst k.
  eapply pub_weaken; [by apply verify_remote_target_pub|done|]. intros r s [Hs Hr]. split; [done|].
  intros Hok. exists d. auto.
Qed.

(** The first loop leaves only targets whose bytes are what their name says, and metadata. *)
Definition upload_ok (ck : Checked) (a : string) : Prop :=
  (∃ d bytes, content_addressed_target_digest a = inr (Some d) ∧ files !! a = Some bytes
     ∧ sha256_bytes bytes = d ∧ is_Some (ck_targets ck !! a))
  ∨ (content_addressed_target_digest a = inr None ∧ is_Some (below "metadata" a) ∧ ck_targets ck !! a = None).

Lemma check_upload_mono ck a ck' b :
  check_upload files ck a = inr ck' → upload_ok ck b → upload_ok ck' b.
Proof.
  unfold check_upload. intros Hc Hb. case_bool_decide as Hr; [sum_inv; exact Hb|].
  apply sum_bind_inr in Hc as (d & Hd & Hc). destruct d as [d|]; [|sum_inv; exact Hb].
  apply sum_bind_inr in Hc as (bytes & Hf & Hc). apply sum_bind_inr in Hc as (u & Hs & [= <-]).
  destruct Hb as [(d' & bytes' & ? & ? & ? & [n Hn])|(Hd' & ? & Hn)].
  - left. exists d', bytes'. simpl. split_and!; [done..|]. destruct (decide (a = b)) as [->|];
      [rewrite lookup_insert_eq; eauto|rewrite lookup_insert_ne; eauto].
  - right. split_and!; [done..|]. simpl. rewrite lookup_insert_ne; [done|]. intros ->. congruence.
Qed.

Lemma check_upload_self ck a ck' :
  check_upload files ck a = inr ck' → a ≠ ROOT → (∀ b, is_Some (ck_targets ck !! b) → upload_ok ck b) → upload_ok ck' a.
Proof.
  unfold check_upload. intros Hc Hr Hinv. rewrite bool_decide_false in Hc by done.
  apply sum_bind_inr in Hc as (d & Hd & Hc). destruct d as [d|].
  - apply sum_bind_inr in Hc as (bytes & Hf & Hc). apply sum_bind_inr in Hc as (u & Hs & [= <-]). sum_inv. bool_to_prop.
    left. exists d, bytes. simpl. rewrite lookup_insert_eq. eauto.
  - apply sum_bind_inr in Hc as (u & Hs & [= <-]). sum_inv. bool_to_prop. right. split_and!; [done..|].
    destruct (ck_targets ck !! a) eqn:Hn; [|done]. destruct (Hinv a) as [(d & ? & ? & _)|(_ & _ & ?)]; [eauto|congruence|congruence].
Qed.

Lemma check_upload_targets ck a ck' :
  check_upload files ck a = inr ck' → (∀ b, is_Some (ck_targets ck !! b) → upload_ok ck b) →
  ∀ b, is_Some (ck_targets ck' !! b) → upload_ok ck' b.
Proof.
  intros Hc Hinv b Hb. destruct (decide (is_Some (ck_targets ck !! b))) as [Hs|Hs].
  { eapply check_upload_mono; [done|auto]. }
  destruct (decide (a = ROOT)) as [->|Hr].
  { unfold check_upload in Hc. rewrite bool_decide_true in Hc by done. sum_inv. done. }
  destruct (decide (a = b)) as [<-|Hne]; [by eapply check_upload_self|].
  unfold check_upload in Hc. rewrite bool_decide_false in Hc by done.
  apply sum_bind_inr in Hc as (d & Hd & Hc). destruct d as [d|]; [|sum_inv; done].
  apply sum_bind_inr in Hc as (bytes & Hf & Hc). apply sum_bind_inr in Hc as (u & _ & [= <-]).
  simpl in Hb. by rewrite lookup_insert_ne in Hb.
Qed.

Lemma check_uploads_ok uploads ck ck' :
  (∀ b, is_Some (ck_targets ck !! b) → upload_ok ck b) → check_uploads files ck uploads = inr ck' →
  (∀ b, upload_ok ck b → upload_ok ck' b) ∧ ∀ a, a ∈ uploads → a ≠ ROOT → upload_ok ck' a.
Proof.
  revert ck. induction uploads as [|a uploads IH]; intros ck Hinv; cbn [check_uploads].
  - intros [= <-]. split; [done|]. intros a []%not_elem_of_nil.
  - intros (ck1 & Hc & Hrest)%sum_bind_inr. destruct (IH ck1) as [Hm Hall]; [by eapply check_upload_targets|done|].
    split; [intros b Hb; apply Hm; by eapply check_upload_mono|].
    intros b [->|Hb]%elem_of_cons Hr; [|by apply Hall]. apply Hm. by eapply check_upload_self.
Qed.

Lemma upload_plain a : a ∈ removelast (pf_uploads plan) → plain a ∧ a ≠ TIMESTAMP.
Proof.
  intros Hin. split; [|by intros ->]. apply plain_uploads. clear -Hin.
  induction (pf_uploads plan) as [|x l IH]; [done|]. destruct l as [|y l]; [by apply not_elem_of_nil in Hin|].
  cbn [removelast] in Hin. apply elem_of_cons in Hin as [->|Hin]; [by constructor|]. apply elem_of_cons. auto.
Qed.

Lemma stable_uploaded ck a :
  a ∈ removelast (pf_uploads plan) → a ≠ ROOT → upload_ok ck a → stable (λ s, uploaded s a).
Proof.
  intros [Hp Ht]%upload_plain Hr Hok s s' Hs HR. unfold uploaded in *.
  destruct Hok as [(d & bytes & Hd & _)|(Hd & Hb & _)]; rewrite Hd in *; [by eapply pr_target|].
  destruct Hs as (v & bytes & Hf & Ho). exists v, bytes. split; [done|]. by eapply pr_metadata.
Qed.

(** A write anywhere but at the timestamp is guaranteed if the others may rely on it. *)
Lemma elsewhere_guarantee s a bytes :
  plain a → a ≠ TIMESTAMP → publish_rely s (put_object (key a) bytes s) →
  publish_guarantee s (put_object (key a) bytes s).
Proof.
  intros Hp Ht HR. split; [done|]. intros []. unfold timestamp_of. simpl. rewrite lookup_insert_ne; [done|].
  intros Heq. apply distinct_keys in Heq; [done|done|apply plain_TIMESTAMP].
Qed.

Lemma publish_target_pub P a d bytes length : stable P →
  plain a → a ≠ TIMESTAMP → content_addressed_target_digest a = inr (Some d) →
  files !! a = Some bytes → sha256_bytes bytes = d →
  pub P (publish_content_addressed_target files (key a) a d length) (λ r s, P s ∧ (r = inr tt → uploaded s a)).
Proof.
  intros HP Hp Ht Hd Hf Hs.
  assert (pub P (verify_remote_target (key a) a d length) (λ r s, P s ∧ (r = inr tt → uploaded s a))) as Hverify.
  { eapply pub_weaken; [by apply verify_remote_target_pub|done|]. intros r s [Hs' Hr]. split; [done|].
    intros Hok. unfold uploaded. rewrite Hd. auto. }
  unfold publish_content_addressed_target. eapply pub_bind; [by apply pub_get|].
  intros [e|x]; [|eapply pub_weaken; [exact Hverify|naive_solver|done]].
  destruct e; try (apply pub_ret; naive_solver). apply pub_lift; [naive_solver|]. intros bytes' Hb.
  rewrite Hf in Hb. injection Hb as <-. eapply pub_bind.
  { eapply pub_weaken; [apply (pub_change P (λ _, inr tt)); [done|]|naive_solver|intros r s Hq; exact Hq].
    intros s _ _ _. apply elsewhere_guarantee; [done..|].
    apply put_rely; [done..|apply plain_TIMESTAMP| |].
    - intros (_ & Hm & _). rewrite (target_not_metadata a d Hd) in Hm. by destruct Hm.
    - intros d' Hd'. rewrite Hd in Hd'. by injection Hd' as <-. }
  intros [e|n]; [apply pub_ret; naive_solver|]. eapply pub_weaken; [exact Hverify|naive_solver|done].
Qed.

Lemma publish_metadata_pub P a : stable P → immutable a → content_addressed_target_digest a = inr None →
  pub P (publish_immutable_metadata files (key a) a) (λ r s, P s ∧ (r = inr tt → uploaded s a)).
Proof.
  intros HP Him Hd. pose proof Him as (Hp & Hm & Hr & Ht). unfold publish_immutable_metadata.
  apply pub_lift; [naive_solver|]. intros bytes Hb. unfold read_local in Hb. sum_inv.
  eapply pub_bind.
  { apply (pub_change P); [done|]. intros s _ _ Ha%demand_inr. bool_to_prop. apply elsewhere_guarantee; [done..|].
    apply put_rely; [done..|apply plain_TIMESTAMP|done|]. intros d' Hd'. congruence. }
  intros [e|n].
  - destruct e; try (apply pub_ret; naive_solver). eapply pub_bind.
    { eapply pub_weaken; [by apply (pub_get P)|naive_solver|intros r s Hq; exact Hq]. }
    intros r. apply pub_ret. intros s [Hs Hr']. split; [done|]. intros Hok.
    destruct Hr' as [->| ->]; [done|]. destruct (sh_objects s !! key a) as [[v b]|] eqn:Ho; [|done].
    simpl in Hok. apply sum_bind_inr in Hok as (b' & Hb' & Hok). unfold within_limit in Hb'. sum_inv. bool_to_prop. subst.
    unfold uploaded. rewrite Hd. eauto.
  - apply pub_ret. intros s [Hs Hw]. split; [done|]. intros _. destruct (Hw n eq_refl) as [v Hv].
    unfold uploaded. rewrite Hd. eauto.
Qed.

Lemma publish_upload_pub P ck a : stable P →
  a ∈ removelast (pf_uploads plan) → (a ≠ ROOT → upload_ok ck a) →
  pub P (publish_upload prefix files (ck_targets ck) a)
    (λ r s, P s ∧ (r = inr tt → a ≠ ROOT → uploaded s a)).
Proof.
  intros HP Hin Hok. pose proof (upload_plain a Hin) as [Hp Ht]. unfold publish_upload.
  case_bool_decide as Hr; [apply pub_ret; naive_solver|]. specialize (Hok Hr).
  apply pub_lift; [naive_solver|]. intros k Hk%key_of; [|done]. subst k.
  destruct Hok as [(d & bytes & Hd & Hf & Hs & [n Hn])|(Hd & Hm & Hn)]; rewrite Hn.
  - rewrite Hd. apply pub_lift; [naive_solver|]. intros d' [= <-]. apply pub_lift; [naive_solver|]. intros d' [= <-].
    eapply pub_weaken; [by apply (publish_target_pub P a d bytes n)|done|naive_solver].
  - eapply pub_weaken; [apply (publish_metadata_pub P a); [done|by split_and!|done]|done|naive_solver].
Qed.

(** ** The two pointers *)

(** What a conditional write was prepared from. *)
Definition prepared_at (k : string) (w : ConditionalPublicationFile) s : Prop :=
  match cf_mode w with
  | PutCreate => cf_previous w = None
  | PutUpdate version => ∃ b, cf_previous w = Some b ∧ sh_objects s !! k = Some (version, b)
  end.

Definition since_prepared (k : string) (w : ConditionalPublicationFile) s : Prop :=
  ∃ s0, versioned s0 ∧ publish_rely s0 s ∧ prepared_at k w s0.

Lemma stable_since k w : stable (since_prepared k w).
Proof. intros s s' (s0 & ? & ? & ?) HR. exists s0. split_and!; [done|by etrans|done]. Qed.

Lemma prepare_pub P a : stable P →
  pub P (prepare_conditional_publication_file files (key a) a)
    (λ r s, P s ∧ ∀ w, r = inr w → files !! a = Some (cf_bytes w) ∧ since_prepared (key a) w s).
Proof.
  intros HP. unfold prepare_conditional_publication_file. apply pub_lift; [naive_solver|].
  intros bytes Hb. unfold read_local in Hb. sum_inv.
  eapply (pub_bind _ _ _ (λ r s, (P s ∧ (r = inl EUnavailable ∨ r = ok_or (sh_objects s !! key a) ENotFound)) ∧ versioned s)).
  { eapply runs_weaken; [by apply (pub_get P)|done|]. intros s r s' _ (? & ? & ?). auto. }
  intros r. destruct r as [e|[v b]].
  - destruct e; try (apply pub_ret; naive_solver). apply pub_ret. intros s [[Hs _] Hv]. split; [done|].
    intros w [= <-]. split; [done|]. exists s. split_and!; [done|reflexivity|done].
  - apply pub_lift; [naive_solver|]. intros previous Hprev. unfold within_limit in Hprev. sum_inv. apply pub_ret.
    intros s [[Hs Hr] Hv]. split; [done|]. intros w [= <-]. split; [done|]. exists s. split_and!; [done|reflexivity|].
    destruct Hr as [[=]|Hr]. destruct (sh_objects s !! key a) as [[v' b']|] eqn:Ho; [|done]. injection Hr as -> ->.
    by exists b'.
Qed.

(** The object a prepared write may land on is the one it was prepared from. *)
Lemma prepared_object k w s v :
  since_prepared k w s → cf_mode w = PutUpdate v → version_of k s = Some v →
  ∃ b, cf_previous w = Some b ∧ sh_objects s !! k = Some (v, b).
Proof.
  intros (s0 & Hv & HR & Hp) Hm Hver. unfold prepared_at in Hp. rewrite Hm in Hp. destruct Hp as (b & Hb & Ho).
  unfold version_of in Hver. destruct (sh_objects s !! k) as [[v' b']|] eqn:Ho'; [|done]. injection Hver as ->.
  exists b. split; [done|]. by rewrite (same_object _ _ _ _ _ _ Hv HR Ho Ho').
Qed.

(** A commit writes if it may, and leaves its bytes if they were not there already. *)
Lemma commit_pub P k w : stable P →
  (∀ s, versioned s → P s → cf_mode w = PutCreate → sh_objects s !! k = None →
     publish_guarantee s (put_object k (cf_bytes w) s)) →
  (∀ s v, versioned s → P s → cf_mode w = PutUpdate v → version_of k s = Some v →
     publish_guarantee s (put_object k (cf_bytes w) s)) →
  pub P (commit_conditional_publication_file k w)
    (λ r s, P s ∧ (r = inr tt → cf_previous w = Some (cf_bytes w)
                                ∨ ∃ version, sh_objects s !! k = Some (version, cf_bytes w))).
Proof.
  intros HP Hcreate Hupdate. unfold commit_conditional_publication_file.
  case_bool_decide as Hsame; [apply pub_ret; naive_solver|].
  eapply (pub_bind _ _ _ (λ r s, P s ∧ ∀ n, r = inr n → ∃ version, sh_objects s !! k = Some (version, cf_bytes w))).
  - destruct (cf_mode w) as [|v] eqn:Hm.
    + apply pub_change; [done|]. intros s Hv Hs Ha%demand_inr. bool_to_prop. auto.
    + apply pub_change; [done|]. intros s Hv Hs Ha. destruct (version_of k s) as [v'|] eqn:Hver; [|done].
      apply demand_inr in Ha. bool_to_prop. subst. eauto.
  - intros [e|n]; apply pub_ret; intros s [Hs Hw]; (split; [done|]); [by destruct e|]. intros _. right. eauto.
Qed.

Lemma commit_root_pub P w : stable P →
  pub P (commit_conditional_publication_file (key ROOT) w) (λ _ s, P s).
Proof.
  intros HP. assert (∀ s, publish_guarantee s (put_object (key ROOT) (cf_bytes w) s)) as Hput.
  { intros s. apply elsewhere_guarantee; [apply plain_ROOT|done|].
    apply put_rely; [done|apply plain_ROOT|done|apply plain_TIMESTAMP| |done].
    intros (_ & _ & ? & _). done. }
  eapply pub_weaken; [apply (commit_pub P); auto|done|naive_solver].
Qed.

(** The generation that the local timestamp carries, or a later one, is served. *)
Definition generation_served (bytes : string) s : Prop :=
  ∃ v b' v', signed_version bytes = Some v ∧ timestamp_of s = Some b' ∧ signed_version b' = Some v' ∧ (v ≤ v')%N.

Lemma commit_timestamp_pub w :
  (∃ u, validate_timestamp_transition w = inr u) →
  stable complete →
  pub (λ s, complete s ∧ since_prepared (key TIMESTAMP) w s)
    (commit_conditional_publication_file (key TIMESTAMP) w)
    (λ r s, r = inr tt → complete s ∧ generation_served (cf_bytes w) s).
Proof.
  intros [u Hval] Hst. unfold validate_timestamp_transition in Hval.
  apply sum_bind_inr in Hval as (v & Hv & Hval). apply ok_or_inr in Hv.
  set (P := λ s, complete s ∧ since_prepared (key TIMESTAMP) w s).
  assert (stable P) as HP.
  { intros s s' [Hc Hs] HR. split; [by eapply Hst|by eapply stable_since]. }
  assert (∀ s, P s → (∀ b v0, timestamp_of s = Some b → signed_version b = Some v0 →
    ∃ v', signed_version (cf_bytes w) = Some v' ∧ (v0 ≤ v')%N ∧ (v' = v0 → cf_bytes w = b)) →
    publish_guarantee s (put_object (key TIMESTAMP) (cf_bytes w) s)) as Hput.
  { intros s [Hc Hs] Hnext. pose proof (put_timestamp_rely distinct_keys s (cf_bytes w) plain_TIMESTAMP Hnext) as HR.
    split; [done|]. intros _. by eapply Hst. }
  eapply pub_weaken; [apply (commit_pub P); [done| |]|done|].
  - intros s _ Hs _ Hno. apply Hput; [done|]. intros b v0 Hb _. unfold timestamp_of in Hb. by rewrite Hno in Hb.
  - intros s ver _ Hs Hm Hver. apply Hput; [done|]. destruct Hs as [_ Hs].
    destruct (prepared_object _ _ _ _ Hs Hm Hver) as (b0 & Hb0 & Ho). intros b v0 Hb Hv0.
    unfold timestamp_of in Hb. rewrite Ho in Hb. injection Hb as <-. rewrite Hb0, Hv0 in Hval. simpl in Hval.
    apply sum_bind_inr in Hval as ([] & Hle & Hsame). apply demand_inr, N.leb_le in Hle. apply demand_inr in Hsame.
    exists v. split; [done|]. split; [done|]. intros ->. rewrite bool_decide_true in Hsame by done. simpl in Hsame.
    by bool_to_prop.
  - intros r s [[Hc Hs] Hr] Hok. split; [done|]. destruct (Hr Hok) as [Hprev|[ver Ho]].
    + destruct Hs as (s0 & _ & HR & Hp). unfold prepared_at in Hp. destruct (cf_mode w) as [|ver]; [congruence|].
      destruct Hp as (b & Hb & Ho). assert (b = cf_bytes w) as -> by congruence.
      destruct (pr_generation _ _ HR (cf_bytes w) v) as (b' & v' & ? & ? & ? & _); [|done|].
      { unfold timestamp_of. by rewrite Ho. }
      exists v, b', v'. auto.
    + exists v, (cf_bytes w), v. split_and!; [done| |done|lia]. unfold timestamp_of. by rewrite Ho.
Qed.

Lemma publish_repository_pub :
  pub (λ _, True) (publish_repository prefix files plan)
    (λ r s, r = inr tt → complete s ∧ ∃ bytes, files !! TIMESTAMP = Some bytes ∧ generation_served bytes s).
Proof.
  unfold publish_repository.
  set (Pr := λ s, ∀ a l, (a, l) ∈ pf_retained plan → retained s a).
  assert (stable Pr) as HPr.
  { intros s s' Hs HR a l Hin. by eapply stable_retained; eauto using plain_retained. }
  eapply pub_try with (Q1 := λ r s, r = inr tt → Pr s).
  { eapply pub_weaken; [apply (pub_each (λ _, True) (λ x s, retained s x.1))|done|].
    - done.
    - intros [a l] Hin. by eapply stable_retained, plain_retained.
    - intros [a l] Hin. by apply verify_retained_pub.
    - intros r s [_ Hall] Hr a l Hin. by apply (Hall Hr (a, l)). }
  { done. }
  set (Q := λ (r : PublishError + unit) s, r = inr tt →
    complete s ∧ ∃ bytes, files !! TIMESTAMP = Some bytes ∧ generation_served bytes s).
  intros [].
  eapply pub_weaken with (P' := Pr) (Q' := Q); [|by intros s Hs; apply Hs|done].
  apply pub_lift; [done|]. intros [uploads timestamp] Hsplit.
  assert (uploads = removelast (pf_uploads plan)) as ->.
  { unfold split_last in Hsplit. apply ok_or_inr in Hsplit. by destruct (last (pf_uploads plan)); simplify_eq/=. }
  apply pub_lift; [done|]. intros [] Hts. apply demand_inr in Hts. bool_to_prop. subst timestamp.
  apply pub_lift; [done|]. intros k Hk%key_of; [subst k|apply plain_TIMESTAMP].
  apply pub_lift; [done|]. intros ck Hck. apply pub_lift; [done|]. intros [] _.
  destruct (check_uploads_ok (removelast (pf_uploads plan)) (mkChecked false ∅) ck) as [_ Hok];
    [intros b [n Hn]; simpl in Hn; by rewrite lookup_empty in Hn|done|].
  eapply pub_try; [by apply (prepare_pub Pr)|by intros e s _ [=]|]. intros tw.
  apply pub_lift; [by intros e s _ _ [=]|]. intros u Hval.
  set (Pt := λ s, (Pr s ∧ files !! TIMESTAMP = Some (cf_bytes tw)) ∧ since_prepared (key TIMESTAMP) tw s).
  assert (stable Pt) as HPt.
  { intros s s' [[Hs ?] Hp] HR. split; [split; [by eapply HPr|done]|by eapply stable_since]. }
  eapply pub_try with (Q1 := λ _ s, Pt s); [|by intros e s _ [=]|].
  { eapply pub_weaken; [by apply (prepare_pub Pt)| |by intros r s [? _]].
    intros s [Hs Hw]. destruct (Hw tw eq_refl) as [? ?]. by split. }
  intros rw. eapply pub_try with (Q1 := λ r s, Pt s ∧ (r = inr tt →
      ∀ a, a ∈ removelast (pf_uploads plan) → a ≠ ROOT → uploaded s a)); [|by intros e s _ [=]|].
  { apply (pub_each Pt (λ a s, a ≠ ROOT → uploaded s a)); [done| |].
    - intros a Hin s s' Hs HR Hr. eapply stable_uploaded; eauto.
    - intros a Hin. apply publish_upload_pub; auto. }
  intros []. set (Pc := λ s, (complete s ∧ since_prepared (key TIMESTAMP) tw s) ∧ files !! TIMESTAMP = Some (cf_bytes tw)).
  assert (stable complete) as Hst.
  { intros s s' [Hr Hu] HR. split; [by eapply HPr|]. intros a Hin Hne. eapply stable_uploaded; eauto. }
  assert (stable Pc) as HPc.
  { intros s s' [[Hs Hp] ?] HR. split; [split; [by eapply Hst|by eapply stable_since]|done]. }
  eapply pub_try with (Q1 := λ _ s, Pc s); [|by intros e s _ [=]|].
  { eapply pub_weaken; [by apply (commit_root_pub Pc)| |done].
    intros s [[[Hr Hf] Hp] Hu]. split; [split; [split; [done|by apply Hu]|done]|done]. }
  intros []. eapply pub_weaken.
  - apply (pub_frame (λ _, files !! TIMESTAMP = Some (cf_bytes tw))); [by intros s s' ? _|].
    apply commit_timestamp_pub; [eauto|done].
  - intros s Hs. exact Hs.
  - intros r s [Hr Hf] Hdone. destruct (Hr Hdone) as [? ?]. eauto.
Qed.

End publisher.

End law.

(** ** Publication *)

Section theorem.
Context `{!JsonValues} `{!JsonPointers} `{!Sha256} `{!ObjectPaths}.

(** Distinct normal paths are distinct objects: object_store's paths encode injectively, and the
    prefix is normal. *)
Definition distinct_keys (prefix : string) : Prop :=
  ∀ a b, plain a → plain b → object_key prefix a = object_key prefix b → a = b.

(** A plan names normal paths, and the timestamp only as its last. *)
Record well_formed_plan (plan : PublicationFiles) : Prop := mkWellFormedPlan {
  wp_uploads a : a ∈ pf_uploads plan → plain a;
  wp_retained a l : (a, l) ∈ pf_retained plan → plain a;
  wp_timestamp : TIMESTAMP ∉ removelast (pf_uploads plan);
}.

Lemma publish_repository_runs prefix files plan :
  distinct_keys prefix → well_formed_plan plan →
  pub prefix files plan (λ _, True) (publish_repository prefix files plan)
    (λ r s, r = inr tt → complete prefix files plan s
       ∧ ∃ bytes, files !! TIMESTAMP = Some bytes ∧ generation_served prefix bytes s).
Proof. intros Hk []. by apply publish_repository_pub. Qed.

(** C9. A generation becomes visible whole and never moves back.  Whatever the other publishers do
    within the same law, and whichever calls fail, every object a publisher writes keeps the law:
    the served generation never decreases, a generation number never gets other bytes, versioned
    metadata is never replaced, and a target keeps the content its name says.  When a write changes
    what is served, everything the new generation needs is already there; and when publication
    succeeds, all of it is there and the store serves this generation or a later one. *)
Theorem generation_becomes_visible_whole prefix files plan s turns r c :
  distinct_keys prefix → well_formed_plan plan → versioned s → honest (publish_rely prefix) turns →
  publish_repository prefix files plan (starts s turns) = (r, c) →
  (∀ s1 s2, (s1, s2) ∈ cl_made c → publish_rely prefix s1 s2
     ∧ (timestamp_of prefix s2 ≠ timestamp_of prefix s1 → complete prefix files plan s2))
  ∧ publish_rely prefix s (cl_shared c)
  ∧ (r = inr tt → complete prefix files plan (cl_shared c)
       ∧ ∃ bytes, files !! TIMESTAMP = Some bytes ∧ generation_served prefix bytes (cl_shared c)).
Proof.
  intros Hk Hp Hv Hh Hr.
  destruct (publish_repository_runs prefix files plan Hk Hp (starts s turns) r c Hh (Forall_nil_2 _)
    (conj Hv I) Hr) as (_ & Hg & _ & HR & HQ).
  split; [|done]. intros s1 s2 Hin. unfold guaranteed in Hg. rewrite Forall_forall in Hg. exact (Hg (s1, s2) Hin).
Qed.

End theorem.
