(* ===== verification/Authoring.v ===== *)
(** * Authoring: the signed repository on the publisher's disk

    Models [updated-tuf/src/repo.rs] over the directory of one repository, which only the
    publisher writes: the files below [metadata/] and [targets/] by relative path.  Publishing a
    file is one atomic replacement that may fail before or after it took effect; what happens in
    the staging area leaves those files alone.  tough's reader and editor, its key parsing and its
    root signer are parameters.  Instants are microseconds. *)
From stdpp Require Import pretty.
From S2P Require Import Prelude Identity Maps Releases Dataflow Telemetry Window Rollout Assignment Groups.
From S2P Require Import Publication Inventory Shared Lease Publish.

#[local] Open Scope N_scope.

(** ** Documents *)

Inductive RoleType : Type := RoleRoot | RoleTargets | RoleSnapshot | RoleTimestamp.

Record RoleKeys : Type := mkRoleKeys {
  rk_keyids : list string;
  rk_threshold : N;
  rk_extra : string;
}.

(** The role map of a root. *)
Record Roles : Type := mkRoles {
  rl_root : option RoleKeys;
  rl_targets : option RoleKeys;
  rl_snapshot : option RoleKeys;
  rl_timestamp : option RoleKeys;
}.

Definition role (roles : Roles) (r : RoleType) : option RoleKeys :=
  match r with
  | RoleRoot => rl_root roles
  | RoleTargets => rl_targets roles
  | RoleSnapshot => rl_snapshot roles
  | RoleTimestamp => rl_timestamp roles
  end.

(** A root role, its key map by key identifier. *)
Record Root : Type := mkRoot {
  ro_spec_version : string;
  ro_consistent_snapshot : bool;
  ro_version : N;
  ro_expires : Z;
  ro_keys : BTreeMap string;
  ro_roles : Roles;
  ro_extra : string;
}.

(** A signed target: its raw digest, length and custom metadata. *)
Record Target : Type := mkTarget {
  tg_sha256 : string;
  tg_length : N;
  tg_custom : BTreeMap string;
}.

(** A repository as tough reads it, and as its editor signs it. *)
Record Repository : Type := mkRepository {
  re_targets : BTreeMap Target;
  re_targets_version : N;
  re_snapshot_version : N;
  re_timestamp_version : N;
}.

Definition root_name (version : N) : string := String.append (pretty version) ".root.json".
Definition targets_name (version : N) : string := String.append (pretty version) ".targets.json".
Definition snapshot_name (version : N) : string := String.append (pretty version) ".snapshot.json".
Definition timestamp_name : string := "timestamp.json".

(** The files of [metadata/], by name. *)
Abbreviation Metadata := (string → option string).

(** What of the metadata directory the reader looks at, past the chain of roots. *)
Definition read_names (r : Repository) : list string :=
  [timestamp_name; snapshot_name (re_snapshot_version r); targets_name (re_targets_version r)].

(** The reader's default size limits. *)
Definition loadable (file : string * string) : Prop :=
  str_len file.2 ≤ (if bool_decide (file.1 = timestamp_name) then 1024 * 1024 else 10 * 1024 * 1024).

(** tough and its schema. *)
Class ToughOps : Type := {
  tuf_key : string → option string;
  key_id : string → option string;
  target_name : string → option string;
  root_from_slice : string → option Root;
  sign_root : Root → list string → option string;
  tough_load : string → Metadata → option Repository;
  tough_sign : string → Repository → Z → list string → option (list (string * string));
}.

(** A directory that holds no later root than its anchor. *)
Definition anchored `{!ToughOps} (root : string) (f : Metadata) : Prop :=
  ∃ r, root_from_slice root = Some r ∧ ∀ n, ro_version r < n → f (root_name n) = None.

(** What is relied on.  A signed root reads back, and a target name without dot segments is its own
    resolution.  The reader follows the timestamp to the snapshot
    and the targets it names, so it answers the same on directories that agree there; the editor
    writes these three roles and the root it was opened with, each with the version it was given,
    and the reader accepts them in a directory anchored at that root. *)
Class Tough `{!JsonValues} `{!JsonPointers} `{!ToughOps} : Prop := {
  sign_root_reads root sources bytes : sign_root root sources = Some bytes → root_from_slice bytes = Some root;
  target_name_safe name : forallb is_safe_component (split_on "/"%char EmptyString name) = true →
    target_name name = Some name;
  load_frame root f g r : tough_load root f = Some r → anchored root f → anchored root g →
    (∀ name, name ∈ read_names r → g name = f name) → tough_load root g = Some r;
  load_timestamp root f r : tough_load root f = Some r →
    ∃ bytes, f timestamp_name = Some bytes ∧ signed_version bytes = Some (re_timestamp_version r)
      ∧ loadable (timestamp_name, bytes);
  sign_names root r expires keys signed : tough_sign root r expires keys = Some signed →
    ∃ anchor, root_from_slice root = Some anchor
      ∧ signed.*1 ≡ₚ root_name (ro_version anchor) :: read_names r;
  sign_loads root r expires keys signed f : tough_sign root r expires keys = Some signed →
    anchored root f → (∀ name bytes, (name, bytes) ∈ signed → f name = Some bytes ∧ loadable (name, bytes)) →
    tough_load root f = Some r;
  sign_timestamp root r expires keys signed bytes : tough_sign root r expires keys = Some signed →
    (timestamp_name, bytes) ∈ signed → signed_version bytes = Some (re_timestamp_version r);
}.

Inductive RepoError : Type :=
| RIo (what : string) (e : ApiError)
| RTooLarge
| RLoad
| RParse
| RSign (what : string)
| RExhausted (role : string)
| RExpiryDays
| RExpiryRange
| RUnsafeTarget (name : string)
| RTargetName (name : string)
| RKeyUnreadable (path : string)
| RKeyTooLarge
| RKey
| RSameKey (existing slot : string)
| RDuplicateSlot (slot : string)
| RMissingSlot (slot : string)
| RUnexpectedSlots (slots : list string)
| RNoRole (r : RoleType)
| RNoRoleKey (r : RoleType)
| RNoContinuity
| RNotRetained (path : string)
| RNotFresh
| RThreshold (needed supplied : N)
| RNoTimestamp
| RNotAFile (path : string)
| RRootChain
| RNoRoot
| RAbsent (name : string)
| RMismatch (signed : string).

Definition AUTHORING_METADATA_MAX_BYTES : N := 64 * 1024 * 1024.
Definition SIGNING_KEY_MAX_BYTES : N := 1024 * 1024.
Definition MAX_ROOT_CHAIN_FILES : nat := 1025.
Definition KEY_FILE_NAMES : list string :=
  ["root.pk8"; "root.next.pk8"; "targets.pk8"; "snapshot.pk8"; "timestamp.pk8"].

Definition in_metadata (name : string) : string := String.append "metadata/" name.
Definition in_targets (name : string) : string := String.append "targets/" name.

(** ** Versions, names and expiry *)

Definition next_version (current : N) (role : string) : RepoError + N :=
  if current <? u64_max then inr (current + 1) else inl (RExhausted role).

Definition i64_max : Z := 9223372036854775807.

(** jiff's last instant. *)
Definition TIMESTAMP_MAX : Z := 253402207200999999.

Definition expiry (now days : Z) : RepoError + Z :=
  _ ← demand (0 <? days)%Z RExpiryDays;
  _ ← demand (days * 24 <=? i64_max)%Z RExpiryRange;
  _ ← demand (days * 24 * 3600 <=? i64_max)%Z RExpiryRange;
  _ ← demand (now + micros (days * 24 * 3600) <=? TIMESTAMP_MAX)%Z RExpiryRange;
  inr (now + micros (days * 24 * 3600))%Z.

Definition known_layout (parts : list string) : bool :=
  match parts with
  | first :: rest =>
      ((length parts =? 6)%nat && bool_decide (first = "products"))
      || match rest with
         | [segment; file] =>
             bool_decide (first = "assignments")
             && (bool_decide (segment = "agents") || bool_decide (segment = "configs"))
             && bool_decide (is_Some (strip_suffix ".json" file))
         | _ => false
         end
  | [] => false
  end.

Definition validate_target_name (name : string) : RepoError + unit :=
  let parts := split_on "/"%char EmptyString name in
  demand (known_layout parts && forallb is_safe_component parts) (RUnsafeTarget name).

(** ** Signing keys *)

(** A key directory: an absent file, an unreadable one, or its bytes. *)
Abbreviation Keyring := (string → option (option string)).

Record Keys : Type := mkKeys {
  ky_roots : list string;
  ky_targets : string;
  ky_snapshot : string;
  ky_timestamp : string;
}.

Section keys.
Context `{!ToughOps}.
Context (keyring : Keyring).

Definition signing_key_id (bytes : string) : RepoError + string :=
  _ ← demand (str_len bytes <=? SIGNING_KEY_MAX_BYTES) RKeyTooLarge;
  key ← ok_or (tuf_key bytes) RKey;
  ok_or (key_id key) RKey.

Definition validate_signing_key_bytes (bytes : string) : RepoError + unit :=
  _ ← signing_key_id bytes; inr tt.

(** [BoundedKeySource::load] and [read_signing_key_bytes] *)
Definition load_key (path : string) : RepoError + string :=
  bytes ← ok_or (mjoin (keyring path)) (RKeyUnreadable path);
  _ ← validate_signing_key_bytes bytes;
  inr bytes.

(** The slot each key was given to, by key identifier. *)
Abbreviation DistinctSigningKeys := (BTreeMap string).

Definition insert_id (distinct : DistinctSigningKeys) (slot id : string) : RepoError + DistinctSigningKeys :=
  match distinct !! id with
  | Some existing => inl (RSameKey existing slot)
  | None => inr (<[id := slot]> distinct)
  end.

Definition insert_key (distinct : DistinctSigningKeys) (slot bytes : string) : RepoError + DistinctSigningKeys :=
  id ← signing_key_id bytes; insert_id distinct slot id.

Fixpoint insert_keys (distinct : DistinctSigningKeys) (keys : list (string * string)) : RepoError + DistinctSigningKeys :=
  match keys with
  | [] => inr distinct
  | (slot, bytes) :: keys => distinct ← insert_key distinct slot bytes; insert_keys distinct keys
  end.

Definition validate_distinct_signing_keys (keys : list (string * string)) : RepoError + unit :=
  _ ← insert_keys ∅ keys; inr tt.

Fixpoint supply (supplied : BTreeMap string) (keys : list (string * string)) : RepoError + BTreeMap string :=
  match keys with
  | [] => inr supplied
  | (slot, bytes) :: keys =>
      _ ← demand (bool_decide (supplied !! slot = None)) (RDuplicateSlot slot);
      supply (<[slot := bytes]> supplied) keys
  end.

Fixpoint take_slots (supplied : BTreeMap string) (slots : list string)
    : RepoError + (list (string * string) * BTreeMap string) :=
  match slots with
  | [] => inr ([], supplied)
  | slot :: slots =>
      bytes ← ok_or (supplied !! slot) (RMissingSlot slot);
      '(material, rest) ← take_slots (delete slot supplied) slots;
      inr ((slot, bytes) :: material, rest)
  end.

Definition validate_complete_signing_key_set (keys : list (string * string)) : RepoError + unit :=
  supplied ← supply ∅ keys;
  '(material, rest) ← take_slots supplied KEY_FILE_NAMES;
  _ ← demand (bool_decide (rest = ∅)) (RUnexpectedSlots (bt_keys rest));
  validate_distinct_signing_keys material.

(** [Keys::in_dir] *)
Definition keys_in_dir : RepoError + Keys :=
  roots ← match keyring "root.next.pk8" with
          | None => inr ["root.pk8"]
          | Some _ => _ ← load_key "root.next.pk8"; inr ["root.pk8"; "root.next.pk8"]
          end;
  inr (mkKeys roots "targets.pk8" "snapshot.pk8" "timestamp.pk8").

Definition online (keys : Keys) : list (RoleType * string) :=
  [(RoleTargets, ky_targets keys); (RoleSnapshot, ky_snapshot keys); (RoleTimestamp, ky_timestamp keys)].

End keys.

(** ** The repository's files *)

Section repository.
Context `{!ToughOps} `{!Sha256}.
Implicit Types (files : Files).

Abbreviation Repo := (λ T, Sh string (RepoError + T)).

Definition io {T} (what : string) (m : Sh string (ApiError + T)) : Repo T :=
  r ← m; mret (map_err (RIo what) r).

(** Work outside [metadata/] and [targets/]: the staging area and the sources of the targets. *)
Definition aside (what : string) : Repo unit := io what (read (λ _, inr tt)).

Definition metadata_of files : Metadata := λ name, files !! in_metadata name.

(** [publish_file], and the commit of a staged target. *)
Definition publish_file (path bytes : string) : Repo unit :=
  _ ←? io "committing published file" (overwrite path bytes); mret (inr tt).

Definition root_bytes : Repo string :=
  '(_, bytes) ←? io "reading root.json" (get (in_metadata "root.json"));
  lift (_ ← demand (str_len bytes <=? AUTHORING_METADATA_MAX_BYTES) RTooLarge; inr bytes).

Definition load_local : Repo Repository :=
  root ←? root_bytes;
  metadata ←? io "loading repository" (read (λ s, inr (metadata_of (contents s))));
  lift (ok_or (tough_load root metadata) RLoad).

Definition is_timestamp (file : string * string) : bool := bool_decide (file.1 = timestamp_name).

Definition publish_role (file : string * string) : Repo unit :=
  _ ←? lift (demand (str_len file.2 <=? AUTHORING_METADATA_MAX_BYTES) RTooLarge);
  publish_file (in_metadata file.1) file.2.

(** [publish_metadata]: the timestamp last. *)
Definition publish_metadata (signed : list (string * string)) : Repo unit :=
  _ ←? aside "staging signed metadata";
  let files := merge_sort entry_le signed in
  _ ←? sh_each publish_role (filter (λ file, is_timestamp file = false) files);
  timestamp ←? lift (ok_or (snd <$> list_find (λ file, is_timestamp file = true) files) RNoTimestamp);
  publish_role timestamp.

(** ** Releases *)

(** A target to publish, with the bytes of its source. *)
Record PublishTarget : Type := mkPublishTarget {
  pt_name : string;
  pt_source : string;
  pt_custom : BTreeMap string;
}.

(** Digests of bytes, raw; hexadecimal text is what objects are named by. *)
Definition raw_sha256 (bytes : string) : string := default EmptyString (hex_decode (sha256_bytes bytes)).

Definition target_from (t : PublishTarget) : Target :=
  mkTarget (raw_sha256 (pt_source t)) (str_len (pt_source t)) (pt_custom t).

Definition add_targets (targets : list PublishTarget) (m : BTreeMap Target) : BTreeMap Target :=
  foldl (λ m t, <[pt_name t := target_from t]> m) m targets.

(** The generation that follows a loaded one. *)
Definition next_generation (r : Repository) (targets : list PublishTarget) (replace_targets : bool)
    : RepoError + Repository :=
  next_targets ← next_version (re_targets_version r) "targets";
  next_snapshot ← next_version (re_snapshot_version r) "snapshot";
  next_timestamp ← next_version (re_timestamp_version r) "timestamp";
  inr (mkRepository (add_targets targets (if replace_targets then ∅ else re_targets r))
         next_targets next_snapshot next_timestamp).

Definition object_name (digest name : string) : string := String.append digest (String "." name).

(** The object of a target to publish: its path, and its bytes. *)
Definition target_object (t : PublishTarget) : RepoError + (string * string) :=
  name ← ok_or (target_name (pt_name t)) (RTargetName (pt_name t));
  inr (in_targets (object_name (hex_encode (raw_sha256 (pt_source t))) name), pt_source t).

Fixpoint target_objects (targets : list PublishTarget) : RepoError + list (string * string) :=
  match targets with
  | [] => inr []
  | t :: targets => o ← target_object t; os ← target_objects targets; inr (o :: os)
  end.

Definition online_sources (keyring : Keyring) (keys : Keys) : RepoError + list string :=
  targets ← load_key keyring (ky_targets keys);
  snapshot ← load_key keyring (ky_snapshot keys);
  timestamp ← load_key keyring (ky_timestamp keys);
  _ ← validate_distinct_signing_keys [("targets.pk8", targets); ("snapshot.pk8", snapshot); ("timestamp.pk8", timestamp)];
  inr [targets; snapshot; timestamp].

Definition publish_release (keyring : Keyring) (keys : Keys) (targets : list PublishTarget) (expiry_days : Z)
    (replace_targets : bool) : Repo unit :=
  _ ←? aside "creating publish staging directory";
  _ ←? lift (each (λ t, validate_target_name (pt_name t)) targets);
  _ ←? sh_each (λ _, aside "staging target artifact") targets;
  repo ←? load_local;
  next ←? lift (next_generation repo targets replace_targets);
  t ← now;
  expires ←? lift (expiry t expiry_days);
  root ←? root_bytes;
  sources ←? lift (online_sources keyring keys);
  signed ←? lift (ok_or (tough_sign root next expires sources) (RSign "release"));
  objects ←? lift (target_objects targets);
  _ ←? sh_each (λ o, publish_file o.1 o.2) objects;
  publish_metadata signed.

Definition add_release (keyring : Keyring) (keys : Keys) (targets : list PublishTarget) (expiry_days : Z) : Repo unit :=
  publish_release keyring keys targets expiry_days false.

Definition replace_release (keyring : Keyring) (keys : Keys) (targets : list PublishTarget) (expiry_days : Z) : Repo unit :=
  publish_release keyring keys targets expiry_days true.

(** ** Reading the repository *)

Definition current_version : Repo N :=
  repo ←? load_local; mret (inr (re_timestamp_version repo)).

Definition target_sha256_if_present (name : string) : Repo (option string) :=
  _ ←? lift (validate_target_name name);
  repo ←? load_local;
  _ ←? lift (ok_or (target_name name) (RTargetName name));
  mret (inr ((λ t, hex_encode (tg_sha256 t)) <$> re_targets repo !! name)).

Definition target_sha256 (name : string) : Repo string :=
  digest ←? target_sha256_if_present name;
  lift (ok_or digest (RAbsent name)).

Definition verify_target_reference (path sha256 : string) : Repo unit :=
  signed ←? target_sha256 path;
  lift (demand (bool_decide (signed = sha256)) (RMismatch signed)).

(** Whether a file of [metadata/] belongs to the root chain. *)
Definition is_root_file (name : string) : bool :=
  bool_decide (name = "root.json")
  || match (version ← strip_suffix ".root.json" name; parse_u64 version) with
     | Some version => 0 <? version
     | None => false
     end.

(** The names directly below [metadata/]. *)
Definition metadata_entries files : list string :=
  omap (λ path, name ← strip_prefix "metadata/" path;
                if bool_decide (slashes name = 0%nat) then Some name else None) (bt_keys files).

(** The order of paths is the order of their components. *)
Fixpoint components_leb (a b : list string) : bool :=
  match a, b with
  | [], _ => true
  | _ :: _, [] => false
  | x :: a, y :: b => if bool_decide (x = y) then components_leb a b else String.leb x y
  end.

Definition path_order {A} (path : A → string) (a b : A) : Prop :=
  components_leb (split_on "/"%char EmptyString (path a)) (split_on "/"%char EmptyString (path b)) = true.

#[export] Instance path_order_dec {A} (path : A → string) (a b : A) : Decision (path_order path a b).
Proof. unfold path_order. apply _. Defined.

Definition require_publication_file files (path : string) : RepoError + string :=
  if bool_decide (is_Some (files !! path)) then inr path else inl (RNotAFile path).

(** The targets of a generation: those at hand, and those only the destination has. *)
Fixpoint split_targets files (targets : list (string * Target)) : RepoError + (list string * list (string * N)) :=
  match targets with
  | [] => inr ([], [])
  | (name, t) :: targets =>
      _ ← validate_target_name name;
      resolved ← ok_or (target_name name) (RTargetName name);
      '(here, retained) ← split_targets files targets;
      let path := in_targets (object_name (hex_encode (tg_sha256 t)) resolved) in
      inr (if bool_decide (is_Some (files !! path)) then (path :: here, retained)
           else (here, (path, tg_length t) :: retained))
  end.

Definition publication_files (r : Repository) files : RepoError + PublicationFiles :=
  '(targets, retained) ← split_targets files (bt_iter (re_targets r));
  let roots := in_metadata <$> filter (λ name, is_root_file name = true) (metadata_entries files) in
  _ ← demand (length roots <=? MAX_ROOT_CHAIN_FILES)%nat RRootChain;
  _ ← demand (bool_decide (in_metadata "root.json" ∈ roots)) RNoRoot;
  current_targets ← require_publication_file files (in_metadata (targets_name (re_targets_version r)));
  current_snapshot ← require_publication_file files (in_metadata (snapshot_name (re_snapshot_version r)));
  timestamp ← require_publication_file files (in_metadata timestamp_name);
  inr (mkPublicationFiles
         (merge_sort (path_order (λ x, x)) targets ++ merge_sort (path_order (λ x, x)) roots
            ++ [current_targets; current_snapshot; timestamp])
         (merge_sort (path_order fst) retained)).

(** [current_publication_plan] *)
Definition current_publication_plan : Repo PublicationFiles :=
  repo ←? load_local;
  plan ←? io "reading metadata directory" (read (λ s, inr (publication_files repo (contents s))));
  lift plan.

End repository.

(** ** Roots *)

Section roots.
Context `{!ToughOps} `{!Sha256}.
Context (keyring : Keyring).

Abbreviation Repo := (λ T, Sh string (RepoError + T)).

(** What the loops over the keys build: the key map, the identifiers and sources in order, and the
    slots in use. *)
Record Gathered : Type := mkGathered {
  ga_keys : BTreeMap string;
  ga_keyids : list string;
  ga_sources : list string;
  ga_distinct : BTreeMap string;
}.

(** A key given to a role. *)
Definition gather (g : Gathered) (path : string) : RepoError + Gathered :=
  bytes ← load_key keyring path;
  distinct ← insert_key (ga_distinct g) path bytes;
  key ← ok_or (tuf_key bytes) RKey;
  keyid ← ok_or (key_id key) RKey;
  inr (mkGathered (<[keyid := key]> (ga_keys g)) (ga_keyids g ++ [keyid]) (ga_sources g ++ [bytes]) distinct).

Fixpoint gather_all (g : Gathered) (paths : list string) : RepoError + Gathered :=
  match paths with
  | [] => inr g
  | path :: paths => g ← gather g path; gather_all g paths
  end.

Definition single_key (keyid : string) : RoleKeys := mkRoleKeys [keyid] 1 EmptyString.

(** The first root: every root key at threshold one, and one key for each online role. *)
Definition first_root (keys : Keys) (start : N) (expires : Z) : RepoError + (Root * list string * list string) :=
  roots ← gather_all (mkGathered ∅ [] [] ∅) (ky_roots keys);
  all ← gather_all (mkGathered (ga_keys roots) [] [] (ga_distinct roots)) ((online keys).*2);
  match ga_keyids all with
  | [targets; snapshot; timestamp] =>
      inr (mkRoot "1.0.0" true start expires (ga_keys all)
             (mkRoles (Some (mkRoleKeys (ga_keyids roots) 1 EmptyString)) (Some (single_key targets))
                (Some (single_key snapshot)) (Some (single_key timestamp))) EmptyString,
           ga_sources roots, ga_sources all)
  | _ => inl RKey
  end.

(** [init_from_version] *)
Definition init_from_version (keys : Keys) (expiry_days : Z) (start_version : N) : Repo unit :=
  let start := N.max start_version 1 in
  _ ←? aside "creating metadata dir";
  t ← now;
  expires ←? lift (expiry t expiry_days);
  '(root, root_sources, sources) ←? lift (first_root keys start expires);
  bytes ←? lift (ok_or (sign_root root root_sources) (RSign "root"));
  _ ←? publish_file (in_metadata (root_name start)) bytes;
  _ ←? publish_file (in_metadata "root.json") bytes;
  anchor ←? root_bytes;
  signed ←? lift (ok_or (tough_sign anchor (mkRepository ∅ start start start) expires sources)
                    (RSign "initial metadata"));
  publish_metadata signed.

Definition init (keys : Keys) (expiry_days : Z) : Repo unit := init_from_version keys expiry_days 1.

(** The successor of a root, with the key map, role map and signers a ceremony answers with. *)
Definition republish_root (expiry_days : Z)
    (plan : Root → RoleKeys → RepoError + (BTreeMap string * Roles * list string)) : Repo unit :=
  _ ←? aside "creating publish staging directory";
  bytes ←? root_bytes;
  old ←? lift (ok_or (root_from_slice bytes) RParse);
  old_root_role ←? lift (ok_or (rl_root (ro_roles old)) (RNoRole RoleRoot));
  '(keys, roles, sources) ←? lift (plan old old_root_role);
  version ←? lift (next_version (ro_version old) "root");
  t ← now;
  expires ←? lift (expiry t expiry_days);
  let next := mkRoot (ro_spec_version old) (ro_consistent_snapshot old) version expires keys roles (ro_extra old) in
  signed ←? lift (ok_or (sign_root next sources) (RSign "republished root"));
  _ ←? publish_file (in_metadata (root_name version)) signed;
  publish_file (in_metadata "root.json") signed.

Definition online_roles : list RoleType := [RoleTargets; RoleSnapshot; RoleTimestamp].

(** The online keys of a root, each in a slot of its own; [keep] keeps them in the new key map. *)
Definition carry_key (old : Root) (r : RoleType) (keep : bool) (g : BTreeMap string * BTreeMap string) (keyid : string)
    : RepoError + (BTreeMap string * BTreeMap string) :=
  let '(keys, distinct) := g in
  key ← (if keep then ok_or (ro_keys old !! keyid) (RNoRoleKey r) else inr EmptyString);
  distinct ← insert_id distinct "current" keyid;
  inr (if keep then <[keyid := key]> keys else keys, distinct).

Fixpoint carry_keys (old : Root) (r : RoleType) (keep : bool) (g : BTreeMap string * BTreeMap string) (keyids : list string)
    : RepoError + (BTreeMap string * BTreeMap string) :=
  match keyids with
  | [] => inr g
  | keyid :: keyids => g ← carry_key old r keep g keyid; carry_keys old r keep g keyids
  end.

Fixpoint carry_roles (old : Root) (keep : bool) (g : BTreeMap string * BTreeMap string) (rs : list RoleType)
    : RepoError + (BTreeMap string * BTreeMap string) :=
  match rs with
  | [] => inr g
  | r :: rs =>
      role_keys ← ok_or (role (ro_roles old) r) (RNoRole r);
      g ← carry_keys old r keep g (rk_keyids role_keys);
      carry_roles old keep g rs
  end.

(** Whether the key gathered last is one of the current root's. *)
Definition last_listed (old_root_role : RoleKeys) (g : Gathered) : bool :=
  match last (ga_keyids g) with
  | Some keyid => bool_decide (keyid ∈ rk_keyids old_root_role)
  | None => false
  end.

Fixpoint gather_retained (old_root_role : RoleKeys) (g : Gathered) (paths : list string) : RepoError + Gathered :=
  match paths with
  | [] => inr g
  | path :: paths =>
      g ← gather g path;
      _ ← demand (last_listed old_root_role g) (RNotRetained path);
      gather_retained old_root_role g paths
  end.

(** The plan of a rotation. *)
Definition rotation (retained : list string) (new_root_key : string) (old : Root) (old_root_role : RoleKeys)
    : RepoError + (BTreeMap string * Roles * list string) :=
  '(keys, distinct) ← carry_roles old true (∅, ∅) online_roles;
  kept ← gather_retained old_root_role (mkGathered keys [] [] distinct) retained;
  fresh ← gather kept new_root_key;
  _ ← demand (negb (last_listed old_root_role fresh)) RNotFresh;
  inr (ga_keys fresh,
       mkRoles (Some (mkRoleKeys (ga_keyids fresh) (rk_threshold old_root_role) (rk_extra old_root_role)))
         (rl_targets (ro_roles old)) (rl_snapshot (ro_roles old)) (rl_timestamp (ro_roles old)),
       ga_sources fresh).

Definition rotate_root (retained : list string) (new_root_key : string) (expiry_days : Z) : Repo unit :=
  _ ←? lift (demand (negb (bool_decide (retained = []))) RNoContinuity);
  republish_root expiry_days (rotation retained new_root_key).

(** The supplied keys the current root lists. *)
Fixpoint gather_listed (old_root_role : RoleKeys) (distinct : BTreeMap string) (paths : list string) : RepoError + list string :=
  match paths with
  | [] => inr []
  | path :: paths =>
      bytes ← load_key keyring path;
      keyid ← signing_key_id bytes;
      if bool_decide (keyid ∈ rk_keyids old_root_role) then
        distinct ← insert_id distinct path keyid;
        sources ← gather_listed old_root_role distinct paths;
        inr (bytes :: sources)
      else gather_listed old_root_role distinct paths
  end.

(** The plan of a renewal. *)
Definition renewal (root_keys : list string) (old : Root) (old_root_role : RoleKeys)
    : RepoError + (BTreeMap string * Roles * list string) :=
  '(_, distinct) ← carry_roles old false (∅, ∅) online_roles;
  sources ← gather_listed old_root_role distinct root_keys;
  let supplied := N.of_nat (length sources) in
  _ ← demand (rk_threshold old_root_role <=? supplied) (RThreshold (rk_threshold old_root_role) supplied);
  inr (ro_keys old, ro_roles old, sources).

Definition renew_root (root_keys : list string) (expiry_days : Z) : Repo unit :=
  republish_root expiry_days (renewal root_keys).

End roots.
