(* ===== verification/AuthoringSafety.v ===== *)
(** * AuthoringSafety: signing a generation is atomic, and what it publishes is well formed

    Theorems of [Authoring.v].  The publisher holds the lock of its repository directory, so only
    its own writes, and their failures, change it. *)
From Stdlib Require Import Ascii.
From stdpp Require Import pretty.
From S2P Require Import Prelude Identity Maps Releases Dataflow Telemetry Window Rollout Assignment Groups.
From S2P Require Import Publication Inventory Shared Lease Publish PublishSafety Authoring.

#[local] Open Scope N_scope.

(** ** Names and digests as text *)

Lemma pretty_go_digits x : ∀ s, string_forallb is_ascii_digit s = true →
  string_forallb is_ascii_digit (pretty_N_go x s) = true.
Proof.
  induction (N.lt_wf_0 x) as [x _ IH]; intros s Hs.
  assert (x = 0 ∨ 0 < x) as [->|Hx] by lia; [by rewrite pretty_N_go_0|].
  rewrite pretty_N_go_step by done. apply IH; [by apply N.div_lt|]. cbn [string_forallb]. rewrite Hs, andb_true_r.
  unfold pretty_N_char. by repeat case_match.
Qed.

Lemma pretty_digits (n : N) : string_forallb is_ascii_digit (pretty n) = true.
Proof. unfold pretty, pretty_N. case_decide; [done|]. by apply pretty_go_digits. Qed.

Lemma split_pretty (n : N) rest : split_once "."%char (String.append (pretty n) (String "." rest)) = Some (pretty n, rest).
Proof.
  apply split_once_app. eapply string_forallb_impl; [|apply pretty_digits].
  intros c Hc. apply negb_true_iff, bool_decide_eq_false. by intros ->.
Qed.

Lemma pretty_name_inj (n m : N) a b :
  String.append (pretty n) (String "." a) = String.append (pretty m) (String "." b) → n = m ∧ a = b.
Proof.
  intros Heq. pose proof (split_pretty n a) as Hn. rewrite Heq, split_pretty in Hn. injection Hn as Hp ->.
  by apply (inj pretty) in Hp as ->.
Qed.

Lemma pretty_name_ne (n : N) a b : split_once "."%char b = Some (a, "json"%string) → is_ascii_digit (default "x"%char (String.get 0 a)) = false →
  ∀ rest, String.append (pretty n) (String "." rest) ≠ b.
Proof.
  intros Hb Ha rest <-. rewrite split_pretty in Hb. injection Hb as <- _. pose proof (pretty_digits n) as Hd.
  destruct (pretty n) as [|c p] eqn:Hp; simpl in *; [|by rewrite andb_true_iff, Ha in Hd; destruct Hd].
  unfold pretty, pretty_N in Hp. case_decide as Hz; [done|].
  assert (∀ x s, s ≠ EmptyString → pretty_N_go x s ≠ EmptyString) as Hne.
  { intros x. induction (N.lt_wf_0 x) as [x _ IH]; intros s Hs.
    assert (x = 0 ∨ 0 < x) as [->|Hx] by lia; [by rewrite pretty_N_go_0|].
    rewrite pretty_N_go_step by done. apply IH; [by apply N.div_lt|done]. }
  rewrite pretty_N_go_step in Hp by lia. by apply Hne in Hp.
Qed.

(** A version of a role is not another role, the anchor, or the timestamp. *)
Lemma root_not_targets n m : root_name n ≠ targets_name m.
Proof. by intros [_ [=]]%(pretty_name_inj n m "root.json" "targets.json"). Qed.
Lemma root_not_snapshot n m : root_name n ≠ snapshot_name m.
Proof. by intros [_ [=]]%(pretty_name_inj n m "root.json" "snapshot.json"). Qed.
Lemma targets_not_snapshot n m : targets_name n ≠ snapshot_name m.
Proof. by intros [_ [=]]%(pretty_name_inj n m "targets.json" "snapshot.json"). Qed.
Lemma root_name_inj n m : root_name n = root_name m → n = m.
Proof. by intros [? _]%(pretty_name_inj n m "root.json" "root.json"). Qed.
Lemma targets_name_inj n m : targets_name n = targets_name m → n = m.
Proof. by intros [? _]%(pretty_name_inj n m "targets.json" "targets.json"). Qed.
Lemma snapshot_name_inj n m : snapshot_name n = snapshot_name m → n = m.
Proof. by intros [? _]%(pretty_name_inj n m "snapshot.json" "snapshot.json"). Qed.

Lemma pretty_not_timestamp (n : N) rest : String.append (pretty n) (String "." rest) ≠ timestamp_name.
Proof. by apply (pretty_name_ne n "timestamp"). Qed.
Lemma pretty_not_root (n : N) rest : String.append (pretty n) (String "." rest) ≠ "root.json"%string.
Proof. by apply (pretty_name_ne n "root"). Qed.

(** Hexadecimal digests decode to what encodes to them. *)
Lemma hex_byte_digit c : is_hex_byte c = true → ∃ n, n < 16 ∧ hex_digit c = Some n ∧ hex_char n = c.
Proof.
  intros Hc. exists (default 0 (hex_digit c)).
  destruct c as [[] [] [] [] [] [] [] []]; vm_compute in Hc; try discriminate Hc; vm_compute; auto.
Qed.

Lemma hex_roundtrip s : string_forallb is_hex_byte s = true → Nat.Even (String.length s) →
  ∃ raw, hex_decode s = Some raw ∧ hex_encode raw = s.
Proof.
  assert (∀ n s, (String.length s <= n)%nat → string_forallb is_hex_byte s = true → Nat.Even (String.length s) →
    ∃ raw, hex_decode s = Some raw ∧ hex_encode raw = s) as Hgo; [|by apply (Hgo (String.length s))].
  clear s. induction n as [|n IH]; intros [|a [|b s]] Hn Hh He; simpl in Hn; try lia; [by exists EmptyString..| |].
  { destruct He as [k He]. simpl in He. lia. }
  cbn [string_forallb] in Hh. apply andb_true_iff in Hh as [Ha Hh]. apply andb_true_iff in Hh as [Hb Hh].
  destruct (hex_byte_digit a Ha) as (h & Hh16 & Hdh & Hch). destruct (hex_byte_digit b Hb) as (l & Hl16 & Hdl & Hcl).
  destruct (IH s) as (raw & Hd & Hraw); [lia|done|destruct He as [k He]; exists (k - 1)%nat; simpl in He; lia|].
  exists (String (ascii_of_N (16 * h + l)) raw). cbn [hex_decode]. rewrite Hdh, Hdl, Hd. split; [done|].
  cbn [hex_encode]. rewrite N_ascii_embedding by lia.
  assert ((16 * h + l) / 16 = h) as -> by (symmetry; apply (N.div_unique _ _ _ l); lia).
  assert ((16 * h + l) mod 16 = l) as -> by (symmetry; apply (N.mod_unique _ _ h); lia).
  by rewrite Hch, Hcl, Hraw.
Qed.

Lemma hex_encode_raw `{!Sha256} bytes : hex_encode (raw_sha256 bytes) = sha256_bytes bytes.
Proof.
  pose proof (sha256_canonical bytes) as [Hl%Nat.eqb_eq Hh]%andb_true_iff.
  destruct (hex_roundtrip _ Hh) as (raw & Hd & Hr); [by rewrite Hl; exists 32%nat|].
  unfold raw_sha256. by rewrite Hd.
Qed.

(** ** Paths *)

Lemma plain_parts path :
  (∀ part, part ∈ split_on "/"%char EmptyString path → part ≠ EmptyString ∧ part ≠ "."%string ∧ part ≠ ".."%string) →
  plain path.
Proof.
  intros Hp. exists (split_on "/"%char EmptyString path).
  assert (split_on "/"%char EmptyString path ≠ []) as Hne.
  { clear. generalize EmptyString. induction path as [|c path IH]; intros cur; simpl; [done|]. case_bool_decide; [done|]. apply IH. }
  split_and!; [|done|apply concat_split]. unfold path_components.
  destruct (split_on "/"%char EmptyString path) as [|first rest] eqn:Hs; [done|].
  rewrite bool_decide_false. 2:{ intros ->. cbn in Hs. injection Hs as <- <-. destruct (Hp EmptyString) as [? _]; [constructor|done]. }
  destruct (Hp first) as (? & ? & ?); [constructor|]. rewrite !bool_decide_false by done. cbn [orb].
  assert (filter (λ part, part ≠ EmptyString ∧ part ≠ "."%string) rest = rest) as ->.
  { clear Hne Hs. induction rest as [|x rest IH]; [done|]. rewrite filter_cons_True.
    - rewrite IH; [done|]. intros part Hin. apply Hp. set_solver.
    - destruct (Hp x) as (? & ? & ?); [set_solver|done]. }
  rewrite bool_decide_false; [done|]. intros Hin. by destruct (Hp _ Hin) as (_ & _ & ?).
Qed.

Lemma safe_parts path part :
  forallb is_safe_component (split_on "/"%char EmptyString path) = true → part ∈ split_on "/"%char EmptyString path →
  part ≠ EmptyString ∧ part ≠ "."%string ∧ part ≠ ".."%string.
Proof.
  intros Hf Hin. rewrite forallb_forall in Hf. specialize (Hf part). rewrite list_elem_of_In in Hin.
  specialize (Hf Hin). unfold is_safe_component in Hf. bool_to_prop. done.
Qed.

Section repository.
Context `{!JsonValues} `{!JsonPointers} `{!ToughOps} `{!Sha256} `{!Tough}.
Implicit Types (files : Files).

(** ** What a directory stands for *)

(** The directory reads as a repository, and its anchor is its last root. *)
Definition reads_at files (root : string) (r : Repository) : Prop :=
  files !! in_metadata "root.json" = Some root ∧ anchored root (metadata_of files)
  ∧ tough_load root (metadata_of files) = Some r.

Definition reads_as files (r : Repository) : Prop := ∃ root, reads_at files root r.

(** Every target object is what its name says. *)
Definition faithful files : Prop :=
  ∀ path digest bytes, content_addressed_target_digest path = inr (Some digest) →
    files !! path = Some bytes → sha256_bytes bytes = digest.

(** Whatever is signed for a generation, the reader's limits allow. *)
Definition fits (r : Repository) : Prop :=
  ∀ root expires keys signed, tough_sign root r expires keys = Some signed → Forall loadable signed.

Lemma in_metadata_inj a b : in_metadata a = in_metadata b → a = b.
Proof. apply (inj (String.append "metadata/")). Qed.

Lemma metadata_insert files name bytes n :
  metadata_of (<[in_metadata name := bytes]> files) n = if bool_decide (n = name) then Some bytes else metadata_of files n.
Proof.
  unfold metadata_of. case_bool_decide as Hn.
  - subst. by rewrite lookup_insert_eq.
  - rewrite lookup_insert_ne; [done|]. intros Heq%in_metadata_inj. by subst.
Qed.

(** Files the reader does not look at may change. *)
Lemma reads_at_frame files files' root r :
  reads_at files root r → files' !! in_metadata "root.json" = Some root → anchored root (metadata_of files') →
  (∀ name, name ∈ read_names r → metadata_of files' name = metadata_of files name) → reads_at files' root r.
Proof. intros (_ & Ha & Hl) Hr Ha' Hn. split_and!; [done..|]. by eapply load_frame. Qed.

Lemma reads_at_target files root r path bytes :
  reads_at files root r → reads_at (<[in_targets path := bytes]> files) root r.
Proof.
  intros Hr. assert (∀ name, metadata_of (<[in_targets path := bytes]> files) name = metadata_of files name) as Hsame.
  { intros name. unfold metadata_of. by rewrite lookup_insert_ne. }
  eapply (reads_at_frame files); [done| | |auto].
  - rewrite lookup_insert_ne by done. by apply Hr.
  - destruct Hr as (_ & (a & Ha & Hn) & _). exists a. split; [done|]. intros n Hlt. rewrite Hsame. auto.
Qed.

(** A role the reader does not look at, or the anchor's own version again. *)
Lemma reads_at_role files root r name bytes a :
  reads_at files root r → root_from_slice root = Some a → name ∉ read_names r → name ≠ "root.json"%string →
  (∀ n, name = root_name n → n ≤ ro_version a) → reads_at (<[in_metadata name := bytes]> files) root r.
Proof.
  intros Hr Ha Hn Hne Hv. eapply (reads_at_frame files); [done| | |].
  - rewrite lookup_insert_ne; [by apply Hr|]. by intros ?%in_metadata_inj.
  - destruct Hr as (_ & (a' & Ha' & Hnone) & _). exists a'. split; [done|]. intros n Hlt. rewrite metadata_insert.
    rewrite Ha in Ha'. injection Ha' as <-. case_bool_decide as Heq; [|auto]. specialize (Hv n (eq_sym Heq)). lia.
  - intros n Hin. rewrite metadata_insert. case_bool_decide; [by subst|done].
Qed.

Lemma faithful_metadata files name bytes : faithful files → faithful (<[in_metadata name := bytes]> files).
Proof.
  intros Hf path digest b Hd. rewrite lookup_insert_ne; [by apply Hf|]. intros <-.
  apply target_not_metadata in Hd. unfold below in Hd. case_bool_decide; [done|].
  unfold in_metadata in Hd. by rewrite (proj2 (strip_prefix_Some _ _ _) eq_refl) in Hd.
Qed.

Lemma object_digest bytes name :
  content_addressed_target_digest (in_targets (object_name (hex_encode (raw_sha256 bytes)) name))
  = inr (Some (sha256_bytes bytes)).
Proof.
  unfold content_addressed_target_digest, below, in_targets. rewrite bool_decide_false by done.
  rewrite (proj2 (strip_prefix_Some _ _ _) eq_refl). rewrite hex_encode_raw. unfold object_name.
  pose proof (sha256_canonical bytes) as Hc. rewrite split_once_app.
  - simpl. by rewrite Hc.
  - apply andb_true_iff in Hc as [_ Hc]. revert Hc. apply string_forallb_impl. intros c Hc.
    apply negb_true_iff, bool_decide_eq_false. by intros ->.
Qed.

Lemma faithful_target files t o : target_object t = inr o → faithful files → faithful (<[o.1 := o.2]> files).
Proof.
  unfold target_object. intros Ho Hf. sum_inv. intros path digest bytes Hd. cbn [fst snd].
  intros [[<- <-]|[_ Hb]]%lookup_insert_Some; [|by eapply Hf]. rewrite object_digest in Hd. by injection Hd.
Qed.

(** ** The programs' steps *)

Lemma loc_io {T} (P : Files → Prop) what (m : Sh string (ApiError + T)) (Q : _ → _ → Prop) :
  loc P m (λ r f, Q (map_err (RIo what) r) f) → loc P (io what m) Q.
Proof. intros Hm. eapply loc_bind; [exact Hm|]. intros r. by apply loc_ret. Qed.

Lemma loc_aside (P : Files → Prop) what : loc P (aside what) (λ _ f, P f).
Proof. apply loc_io. eapply loc_weaken; [by apply (loc_read _ _ (λ _, inr tt))|done|]. by intros r f [? _]. Qed.

Lemma loc_lift {T} (P : Files → Prop) (r : RepoError + T) : loc P (lift r) (λ r' f, P f ∧ r' = r).
Proof. by apply loc_ret. Qed.

(** A published file is not there, there, or there without a word. *)
Lemma loc_publish_file (P : Files → Prop) path bytes (Q : _ → _ → Prop) :
  (∀ f e, P f → Q (inl e) f) → (∀ f r, P f → Q r (<[path := bytes]> f)) → loc P (publish_file path bytes) Q.
Proof.
  intros Hno Hyes. eapply (loc_try _ _ _ (λ r f, match r with inl e => Q (inl e) f | inr _ => Q (inr tt) f end)).
  - apply loc_io, loc_overwrite; [intros f HP; by apply Hno|]. intros f r HP _. destruct r; simpl; auto.
  - done.
  - intros n. by apply loc_ret.
Qed.

Lemma loc_root_bytes (P : Files → Prop) :
  loc P root_bytes (λ r f, P f ∧ ∀ b, r = inr b → f !! in_metadata "root.json" = Some b).
Proof.
  eapply (loc_try _ _ _ (λ r f, P f ∧ ∀ v b, r = inr (v, b) → f !! in_metadata "root.json" = Some b)).
  - apply loc_io. eapply loc_weaken; [apply loc_get|done|]. intros r f [HP Hr]. split; [done|]. intros v b.
    destruct Hr as [->|[[-> _]|(v' & b' & -> & Hb)]]; [done..|]. simpl. by intros [= <- <-].
  - intros e f [HP _]. by split.
  - intros [v b]. apply loc_ret. intros f [HP Hb]. split; [done|]. intros b' Hr. sum_inv. eauto.
Qed.

Lemma loc_load_local (P : Files → Prop) :
  loc P load_local (λ r f, P f ∧ ∀ repo, r = inr repo →
    ∃ root, f !! in_metadata "root.json" = Some root ∧ tough_load root (metadata_of f) = Some repo).
Proof.
  eapply loc_try; [apply loc_root_bytes|by intros e f [HP _]|]. intros root.
  eapply (loc_try _ _ _ (λ r f, (P f ∧ f !! in_metadata "root.json" = Some root) ∧ ∀ g, r = inr g → g = metadata_of f)).
  - apply loc_io. eapply loc_weaken; [by apply (loc_read _ _ (λ f, inr (metadata_of f)))|intros f Hf; exact Hf|].
    intros r f [[HP Hb] Hr]. split; [auto|]. intros g. destruct Hr as [->| ->]; [done|]. by intros [= <-].
  - by intros e f [[? _] _].
  - intros g. apply loc_ret. intros f [[HP Hb] Hg]. split; [done|]. intros repo Hr. specialize (Hg g eq_refl) as ->.
    sum_inv. eauto.
Qed.

(** ** Signing a generation *)

Section signing.
Context (root : string) (anchor : Root) (r next : Repository) (expires : Z) (sources : list string).
Context (signed objects : list (string * string)).
Hypothesis anchor_is : root_from_slice root = Some anchor.
Hypothesis signed_is : tough_sign root next expires sources = Some signed.
Hypothesis later_snapshot : re_snapshot_version next ≠ re_snapshot_version r.
Hypothesis later_targets : re_targets_version next ≠ re_targets_version r.

(** Every file of the new generation is in place. *)
Definition whole files : Prop :=
  files !! in_metadata "root.json" = Some root ∧ anchored root (metadata_of files)
  ∧ ∀ name bytes, (name, bytes) ∈ signed → metadata_of files name = Some bytes.

Definition holds_objects files : Prop := ∀ o, o ∈ objects → is_Some (files !! o.1).

Lemma whole_reads files : whole files → fits next → reads_at files root next.
Proof.
  intros (Hr & Ha & Hs) Hf. split_and!; [done..|]. eapply sign_loads; [done..|]. intros name bytes Hin. split; [auto|].
  specialize (Hf _ _ _ _ signed_is). rewrite Forall_forall in Hf. by apply Hf.
Qed.

Lemma signed_names : signed.*1 ≡ₚ root_name (ro_version anchor) :: read_names next.
Proof.
  destruct (sign_names _ _ _ _ _ signed_is) as (a & Ha & Hn). rewrite anchor_is in Ha. by injection Ha as <-.
Qed.

Lemma signed_names_nodup : NoDup signed.*1.
Proof.
  rewrite signed_names. unfold read_names. repeat (apply NoDup_cons_2); try apply NoDup_nil_2;
    rewrite ?elem_of_cons, ?elem_of_nil; intros Hin.
  - destruct Hin as [Hin|[Hin|[Hin|[]]]]; revert Hin;
      [apply pretty_not_timestamp|apply root_not_snapshot|apply root_not_targets].
  - destruct Hin as [Hin|[Hin|[]]]; symmetry in Hin; revert Hin; apply pretty_not_timestamp.
  - destruct Hin as [Hin|[]]; symmetry in Hin; revert Hin; apply targets_not_snapshot.
  - done.
Qed.

Lemma signed_unique name bytes bytes' : (name, bytes) ∈ signed → (name, bytes') ∈ signed → bytes = bytes'.
Proof.
  intros (i & Hi)%list_elem_of_lookup (j & Hj)%list_elem_of_lookup. pose proof signed_names_nodup as Hnd.
  assert (i = j) as <-; [|congruence]. eapply NoDup_lookup; [exact Hnd|..]; rewrite list_lookup_fmap, ?Hi, ?Hj; done.
Qed.

Lemma signed_not_anchor name bytes : (name, bytes) ∈ signed →
  name ≠ "root.json"%string ∧ ∀ n, name = root_name n → n ≤ ro_version anchor.
Proof.
  intros Hin. assert (name ∈ signed.*1) as Hn by (apply list_elem_of_fmap; by exists (name, bytes)).
  rewrite signed_names in Hn. unfold read_names in Hn. rewrite !elem_of_cons, elem_of_nil in Hn.
  destruct Hn as [->|[->|[->|[->|[]]]]]; (split; [by try apply pretty_not_root|]); intros n Heq.
  - apply root_name_inj in Heq. lia.
  - symmetry in Heq. by apply pretty_not_timestamp in Heq.
  - symmetry in Heq. by apply root_not_snapshot in Heq.
  - symmetry in Heq. by apply root_not_targets in Heq.
Qed.

Lemma signed_unread name bytes : (name, bytes) ∈ signed → name ≠ timestamp_name → name ∉ read_names r.
Proof.
  intros Hin Ht. assert (name ∈ signed.*1) as Hn by (apply list_elem_of_fmap; by exists (name, bytes)).
  rewrite signed_names in Hn. unfold read_names in *. rewrite !elem_of_cons, elem_of_nil in *.
  intros Hr. destruct Hn as [->|[->|[->|[->|[]]]]]; destruct Hr as [Hr|[Hr|[Hr|[]]]]; try done.
  - by apply root_not_snapshot in Hr.
  - by apply root_not_targets in Hr.
  - by apply snapshot_name_inj in Hr.
  - symmetry in Hr. by apply targets_not_snapshot in Hr.
  - by apply targets_not_snapshot in Hr.
  - by apply targets_name_inj in Hr.
Qed.

Lemma holds_objects_metadata files name bytes : holds_objects files → holds_objects (<[in_metadata name := bytes]> files).
Proof. intros Hh o Ho. apply lookup_insert_is_Some'. right. by apply Hh. Qed.

(** Before the timestamp: still the old generation, with some of the new roles beside it. *)
Definition beside (l : list (string * string)) (k : nat) files : Prop :=
  reads_at files root r ∧ faithful files ∧ holds_objects files
  ∧ ∀ j x, (j < k)%nat → l !! j = Some x → metadata_of files x.1 = Some x.2.

Lemma beside_put l k x files :
  (∀ x, x ∈ l → x ∈ signed ∧ x.1 ≠ timestamp_name) → l !! k = Some x → beside l k files →
  beside l (S k) (<[in_metadata x.1 := x.2]> files).
Proof.
  intros Hl Hk (Hr & Hf & Ho & Hd). destruct x as [name bytes]. cbn [fst snd].
  destruct (Hl (name, bytes)) as [Hin Ht]; [by eapply list_elem_of_lookup_2|].
  destruct (signed_not_anchor _ _ Hin) as [Hne Hv]. split_and!.
  - eapply reads_at_role; [done..| |done|done]. by eapply signed_unread.
  - by apply faithful_metadata.
  - by apply holds_objects_metadata.
  - intros j [name' bytes'] Hj Hx. cbn [fst snd]. rewrite metadata_insert. case_bool_decide as Heq.
    + subst name'. f_equal. eapply signed_unique; [exact Hin|]. by apply (Hl (name, bytes')), list_elem_of_lookup_2 with j.
    + apply (Hd j (name', bytes')); [|done]. assert (j ≠ k) by (intros ->; congruence). lia.
Qed.

(** What signing may leave behind. *)
Definition either (res : RepoError + unit) files : Prop :=
  faithful files ∧ (reads_at files root r ∨ (whole files ∧ holds_objects files))
  ∧ (res = inr tt → whole files ∧ holds_objects files).

Lemma publish_metadata_loc :
  loc (λ f, reads_at f root r ∧ faithful f ∧ holds_objects f) (publish_metadata signed) either.
Proof.
  set (sorted := merge_sort entry_le signed). set (others := filter (λ file, is_timestamp file = false) sorted).
  assert (∀ x, x ∈ sorted ↔ x ∈ signed) as Hsorted by (intros x; unfold sorted; by rewrite merge_sort_Permutation).
  assert (∀ x, x ∈ others → x ∈ signed ∧ x.1 ≠ timestamp_name) as Hothers.
  { intros x [Ht Hx]%list_elem_of_filter. split; [by apply Hsorted|]. by apply bool_decide_eq_false in Ht. }
  unfold publish_metadata. eapply loc_try; [apply loc_aside|intros e f (? & ? & _); split_and!; [done|by left|done]|].
  intros []. fold sorted. fold others.
  eapply (loc_try _ _ _ (λ r f, match r with inr _ => beside others (length others) f | inl _ => beside others 0 f end)).
  - eapply loc_weaken; [apply (loc_each _ (beside others) (beside others 0%nat))| |done].
    + intros k [name bytes] Hk. unfold publish_role. eapply loc_try; [apply loc_lift| |].
      * intros e f [(? & ? & ? & _) _]. split_and!; [done..|]. intros. lia.
      * intros []. apply loc_publish_file.
        -- intros f e [(? & ? & ? & _) _]. split_and!; [done..|]. intros. lia.
        -- intros f res [Hb _]. apply (beside_put _ _ _ _ Hothers Hk) in Hb. destruct res; [|done].
           destruct Hb as (? & ? & ? & _). split_and!; [done..|]. intros. lia.
    + intros f (? & ? & ?). split_and!; [done..|]. intros. lia.
  - intros e f (? & ? & ? & _). split_and!; [done|by left|done].
  - intros []. eapply loc_try; [apply loc_lift|intros e f [(? & ? & ? & _) _]; split_and!; [done|by left|done]|].
    intros [name bytes]. unfold publish_role.
    eapply loc_try; [apply loc_lift|intros e f [[(? & ? & ? & _) _] _]; split_and!; [done|by left|done]|].
    intros []. apply loc_publish_file; [intros f e [[(? & ? & ? & _) _] _]; split_and!; [done|by left|done]|].
    intros f res [[Hb Hts] _]. cbn [fst snd].
    symmetry in Hts. apply ok_or_inr, fmap_Some in Hts as ((i & x) & (Hi & Ht & _)%list_find_Some & Hx). simpl in Hx. subst x.
    apply bool_decide_eq_true in Ht. simpl in Ht. subst name.
    assert ((timestamp_name, bytes) ∈ signed) as Hin by (apply Hsorted; by eapply list_elem_of_lookup_2).
    destruct Hb as (Hr & Hf & Ho & Hd). assert (whole (<[in_metadata timestamp_name := bytes]> f)) as Hw.
    { destruct Hr as (Hrt & (a & Ha & Hn) & _). split_and!.
      - rewrite lookup_insert_ne; [done|]. by intros ?%in_metadata_inj.
      - exists a. split; [done|]. intros n Hlt. rewrite metadata_insert, bool_decide_false; [auto|]. apply pretty_not_timestamp.
      - intros name' bytes' Hin'. rewrite metadata_insert. case_bool_decide as Heq; [subst; f_equal; by eapply signed_unique|].
        assert ((name', bytes') ∈ others) as (j & Hj)%list_elem_of_lookup.
        { apply list_elem_of_filter. split; [by apply bool_decide_eq_false|]. by apply Hsorted. }
        apply (Hd j (name', bytes')); [by eapply lookup_lt_Some|done]. }
    pose proof (holds_objects_metadata _ timestamp_name bytes Ho) as Ho'.
    split_and!; [by apply faithful_metadata|by right|done].
Qed.

End signing.

Lemma next_generation_inr r targets replace_targets next :
  next_generation r targets replace_targets = inr next →
  re_targets next = add_targets targets (if replace_targets then ∅ else re_targets r)
  ∧ re_targets_version next = re_targets_version r + 1
  ∧ re_snapshot_version next = re_snapshot_version r + 1
  ∧ re_timestamp_version next = re_timestamp_version r + 1.
Proof.
  unfold next_generation, next_version. intros Hn.
  destruct (re_targets_version r <? _); [|discriminate Hn]. destruct (re_snapshot_version r <? _); [|discriminate Hn].
  destruct (re_timestamp_version r <? _); [|discriminate Hn]. by injection Hn as <-.
Qed.

(** The object a target is published as. *)
Definition object_path (t : PublishTarget) : string :=
  in_targets (object_name (sha256_bytes (pt_source t)) (pt_name t)).

Lemma target_object_path t o :
  validate_target_name (pt_name t) = inr tt → target_object t = inr o → o = (object_path t, pt_source t).
Proof.
  unfold validate_target_name, target_object, object_path. intros Hv%demand_inr Ho. bool_to_prop.
  rewrite target_name_safe in Ho by done. simpl in Ho. injection Ho as <-. by rewrite hex_encode_raw.
Qed.

Lemma target_objects_in targets objects o :
  target_objects targets = inr objects → o ∈ objects ↔ ∃ t, t ∈ targets ∧ target_object t = inr o.
Proof.
  revert objects. induction targets as [|t targets IH]; intros objects; cbn [target_objects].
  - intros [= <-]. rewrite elem_of_nil. split; [done|]. intros (t & Ht & _). by apply not_elem_of_nil in Ht.
  - intros Ho. sum_inv. rewrite elem_of_cons, IH by done. split.
    + intros [->|(t' & ? & ?)]; [exists t; split; [by left|done]|exists t'; split; [by right|done]].
    + intros (t' & [->|Hin]%elem_of_cons & Ho'); [left; congruence|right; eauto].
Qed.

(** The generation after [r] with these targets is in place. *)
Definition advanced (r : Repository) (targets : list PublishTarget) (replace_targets : bool) (root : string) files : Prop :=
  ∃ next, next_generation r targets replace_targets = inr next
    ∧ (fits next → reads_at files root next)
    ∧ ∀ t, t ∈ targets → is_Some (files !! object_path t).

Definition released (r : Repository) (targets : list PublishTarget) (replace_targets : bool) (root : string)
    (res : RepoError + unit) files : Prop :=
  faithful files ∧ (reads_at files root r ∨ advanced r targets replace_targets root files)
  ∧ (res = inr tt → advanced r targets replace_targets root files).

Lemma publish_objects_loc root r targets objects :
  target_objects targets = inr objects →
  let P f := reads_at f root r ∧ faithful f in
  loc P (sh_each (λ o, publish_file o.1 o.2) objects)
    (λ res f, match res with inr _ => P f ∧ holds_objects objects f | inl _ => P f end).
Proof.
  intros Hobjects P.
  eapply loc_weaken; [apply (loc_each _ (λ k f, P f ∧ ∀ j o, (j < k)%nat → objects !! j = Some o → is_Some (f !! o.1)) P)| |].
  - intros k o Ho. apply list_elem_of_lookup_2 in Ho as Hin.
    assert (∃ t', target_object t' = inr o) as (t' & Ht') by (apply (target_objects_in _ _ _ Hobjects) in Hin; naive_solver).
    assert (∀ f, P f → P (<[o.1 := o.2]> f)) as Hput.
    { intros f [Hr Hf]. split; [|by eapply faithful_target]. unfold target_object in Ht'. sum_inv. by apply reads_at_target. }
    apply loc_publish_file; [by intros f e [? _]|]. intros f [e|[]] [HP Hd]; [by apply Hput|]. split; [by apply Hput|].
    intros j o' Hj Ho'. destruct (decide (j = k)) as [->|].
    + rewrite Ho in Ho'. injection Ho' as <-. by rewrite lookup_insert_eq.
    + apply lookup_insert_is_Some'. right. apply (Hd j); [lia|done].
  - intros f HP. split; [done|]. intros. lia.
  - intros [e|[]] f; [done|]. intros [HP Hd]. split; [done|]. intros o (j & Hj)%list_elem_of_lookup.
    apply (Hd j); [by eapply lookup_lt_Some|done].
Qed.

Lemma whole_advanced root r next targets replace_targets expires sources signed objects files :
  tough_sign root next expires sources = Some signed → next_generation r targets replace_targets = inr next →
  (∀ t, t ∈ targets → validate_target_name (pt_name t) = inr tt) → target_objects targets = inr objects →
  whole root signed files → holds_objects objects files → advanced r targets replace_targets root files.
Proof.
  intros Hs Hnext Hnames Hobjects Hw Ho. exists next. split_and!; [done|by apply (whole_reads root next expires sources signed)|].
  intros t' Ht'. specialize (Hnames t' Ht').
  assert (∃ o, target_object t' = inr o) as (o & Hto).
  { unfold target_object. pose proof Hnames as Hsafe. unfold validate_target_name in Hsafe. apply demand_inr in Hsafe.
    bool_to_prop. rewrite target_name_safe by done. simpl. eauto. }
  pose proof (target_object_path _ _ Hnames Hto) as Heq. subst o.
  apply (Ho (object_path t', pt_source t')). apply (target_objects_in _ _ _ Hobjects). eauto.
Qed.

Lemma publish_release_loc keyring keys targets expiry_days replace_targets root r :
  loc (λ f, reads_at f root r ∧ faithful f) (publish_release keyring keys targets expiry_days replace_targets)
    (released r targets replace_targets root).
Proof.
  set (P := λ f : Files, reads_at f root r ∧ faithful f).
  assert (∀ e f, P f → released r targets replace_targets root (inl e) f) as Hstay.
  { intros e f [? ?]. split_and!; [done|by left|done]. }
  unfold publish_release. eapply loc_try; [apply (loc_aside P)|by apply Hstay|]. intros [].
  apply loc_lift_try; [auto|]. intros [] Hnames. rewrite each_inr in Hnames.
  eapply loc_try; [apply (loc_each_same _ P); intros; apply loc_aside|by apply Hstay|]. intros [].
  eapply loc_try; [apply loc_load_local|intros e f [? _]; by apply Hstay|]. intros repo.
  apply loc_pure with (repo = r). { intros f [[(Hroot & _ & Hl) _] Hrepo]. destruct (Hrepo repo eq_refl) as (root' & ? & ?). congruence. }
  intros ->. eapply loc_weaken with (P' := P); [|by intros f [? _]|by intros t f Hf; exact Hf].
  apply loc_lift_try; [auto|]. intros next Hnext. eapply loc_bind; [apply (loc_now P)|]. intros t.
  apply loc_lift_try; [auto|]. intros expires _.
  eapply loc_try; [apply loc_root_bytes|intros e f [? _]; by apply Hstay|]. intros root'.
  apply loc_pure with (root' = root ∧ ∃ a, root_from_slice root = Some a).
  { intros f [[(Hroot & (a & Ha & _) & Hl) _] Hrepo]. specialize (Hrepo _ eq_refl). split; [congruence|eauto]. }
  intros [-> (a & Ha)]. eapply loc_weaken with (P' := P); [|by intros f [? _]|by intros ? f Hf; exact Hf].
  apply loc_lift_try; [auto|]. intros sources _. apply loc_lift_try; [auto|]. intros signed Hs%ok_or_inr.
  apply loc_lift_try; [auto|]. intros objects Hobjects.
  destruct (next_generation_inr _ _ _ _ Hnext) as (_ & Htv & Hsv & _).
  eapply loc_try; [by apply (publish_objects_loc root r targets)|by apply Hstay|].
  intros []. eapply loc_weaken; [eapply (publish_metadata_loc root a r next expires sources signed objects Ha Hs); [lia..]| |].
  - intros f [[? ?] ?]. done.
  - assert (∀ f, whole root signed f ∧ holds_objects objects f → advanced r targets replace_targets root f) as Hadv
      by (intros f [? ?]; by eapply whole_advanced).
    intros res f (Hf & Hcase & Hok). split_and!; [done|destruct Hcase; auto|auto].
Qed.


(** ** The publication plan *)

Lemma split_on_cur x : ∀ cur, ∃ first rest, split_on "/"%char EmptyString x = first :: rest
  ∧ split_on "/"%char cur x = String.append cur first :: rest.
Proof.
  induction x as [|c x IH]; intros cur; cbn [split_on].
  - exists EmptyString, []. by rewrite append_empty_r.
  - case_bool_decide; [exists EmptyString; eexists; by rewrite append_empty_r|].
    destruct (IH (String.append cur (String c EmptyString))) as (f & rest & Hs & ->).
    destruct (IH (String c EmptyString)) as (f' & rest' & Hs' & Heq). rewrite Hs in Hs'. injection Hs' as <- <-.
    exists (String c f), rest. split; [exact Heq|]. by rewrite <-append_assoc.
Qed.

Lemma split_on_app a x cur : slashes a = 0%nat →
  split_on "/"%char cur (String.append a x) = split_on "/"%char (String.append cur a) x.
Proof.
  revert cur. induction a as [|c a IH]; intros cur Hs; [by rewrite append_empty_r|].
  simpl in Hs. cbn [String.append split_on]. case_bool_decide; [lia|]. rewrite IH by lia. by rewrite <-append_assoc.
Qed.

Lemma hex_encode_slashes x : slashes (hex_encode x) = 0%nat.
Proof.
  induction x as [|c x IH]; [done|]. cbn [hex_encode slashes]. rewrite IH.
  by destruct c as [[] [] [] [] [] [] [] []]; vm_compute.
Qed.

Lemma plain_object digest name : slashes digest = 0%nat →
  forallb is_safe_component (split_on "/"%char EmptyString name) = true → plain (in_targets (object_name digest name)).
Proof.
  intros Hd Hn. apply plain_parts.
  assert (∃ first rest, split_on "/"%char EmptyString name = first :: rest
    ∧ split_on "/"%char EmptyString (in_targets (object_name digest name))
      = "targets"%string :: String.append digest (String "." first) :: rest) as (first & rest & Hs & ->).
  { destruct (split_on_cur name (String.append digest ".")) as (f & rest & Hs & Heq). exists f, rest. split; [done|].
    change (split_on "/"%char EmptyString (in_targets (object_name digest name)))
      with ("targets"%string :: split_on "/"%char EmptyString (String.append digest (String.append "." name))).
    rewrite split_on_app by done. cbn [String.append]. rewrite (split_on_app "." name) by done. rewrite Heq. f_equal. f_equal.
    by rewrite <-append_assoc. }
  intros part [->|[->|Hin]%elem_of_cons]%elem_of_cons; [done| |].
  - destruct (safe_parts name first Hn) as (Hne & Hdot & _); [rewrite Hs; constructor|].
    destruct digest as [|c digest]; simpl; [split_and!; [done|congruence|congruence]|].
    split_and!; [done|..]; intros [= _ Heq]; apply (f_equal String.length) in Heq; rewrite length_append in Heq; simpl in Heq;
      destruct first; simpl in Heq; [done|lia|done|lia].
  - apply (safe_parts name); [done|]. rewrite Hs. by constructor.
Qed.

Lemma plain_metadata name : slashes name = 0%nat → name ≠ EmptyString → name ≠ "."%string → name ≠ ".."%string →
  plain (in_metadata name).
Proof.
  intros Hs ? ? ?. apply plain_parts.
  assert (split_on "/"%char EmptyString (in_metadata name) = ["metadata"%string; name]) as ->.
  { change (split_on "/"%char EmptyString (in_metadata name)) with ("metadata"%string :: split_on "/"%char EmptyString name). f_equal.
    rewrite <-(append_empty_r name) at 1. by rewrite split_on_app. }
  intros part Hin. rewrite !elem_of_cons, elem_of_nil in Hin. by destruct Hin as [->|[->|[]]].
Qed.

Lemma pretty_slashes (n : N) rest : slashes (String.append (pretty n) rest) = slashes rest.
Proof.
  rewrite slashes_app. pose proof (pretty_digits n) as Hd. revert Hd. generalize (pretty n) as p.
  induction p as [|c p IH]; [done|]. cbn [string_forallb slashes String.append]. intros [Hc Hp]%andb_true_iff.
  rewrite bool_decide_false by (by intros ->). simpl. by apply IH.
Qed.

(** What the loop over the targets answers. *)
Definition target_path (name : string) (t : Target) : string := in_targets (object_name (hex_encode (tg_sha256 t)) name).

Lemma split_targets_inr files l here retained :
  split_targets files l = inr (here, retained) →
  (∀ name t, (name, t) ∈ l → validate_target_name name = inr tt
     ∧ (target_path name t ∈ here ∨ (target_path name t, tg_length t) ∈ retained))
  ∧ (∀ path, path ∈ here → is_Some (files !! path) ∧ ∃ name t, (name, t) ∈ l ∧ path = target_path name t)
  ∧ (∀ path n, (path, n) ∈ retained → ∃ name t, (name, t) ∈ l ∧ path = target_path name t).
Proof.
  revert here retained. induction l as [|[name t] l IH]; intros here retained; cbn [split_targets].
  { intros [= <- <-]. split_and!; [by intros ? ? ?%not_elem_of_nil|by intros ? ?%not_elem_of_nil|by intros ? ? ?%not_elem_of_nil]. }
  destruct (validate_target_name name) as [e|[]] eqn:Hv; [done|]. pose proof Hv as Hsafe.
  unfold validate_target_name in Hsafe. apply demand_inr in Hsafe. bool_to_prop. rewrite target_name_safe by done.
  destruct (split_targets files l) as [e|[here' retained']] eqn:Hl; [done|].
  destruct (IH _ _ eq_refl) as (IH1 & IH2 & IH3). cbn. fold (target_path name t). intros [= Hpair].
  case_bool_decide as Hp; injection Hpair as <- <-.
  - split_and!.
    + intros name' t' [[= -> ->]|Hin]%elem_of_cons; [split; [done|left; by left]|].
      destruct (IH1 _ _ Hin) as [? [?|?]]; (split; [done|]); [left; by right|by right].
    + intros path [->|Hin]%elem_of_cons; [split; [done|]; exists name, t; split; [by left|done]|].
      destruct (IH2 _ Hin) as (? & n' & t' & ? & ?). split; [done|]. exists n', t'. split; [by right|done].
    + intros path n Hin. destruct (IH3 _ _ Hin) as (n' & t' & ? & ?). exists n', t'. split; [by right|done].
  - split_and!.
    + intros name' t' [[= -> ->]|Hin]%elem_of_cons; [split; [done|right; by left]|].
      destruct (IH1 _ _ Hin) as [? [?|?]]; (split; [done|]); [by left|right; by right].
    + intros path Hin. destruct (IH2 _ Hin) as (? & n' & t' & ? & ?). split; [done|]. exists n', t'. split; [by right|done].
    + intros path n [[= -> ->]|Hin]%elem_of_cons; [exists name, t; split; [by left|done]|].
      destruct (IH3 _ _ Hin) as (n' & t' & ? & ?). exists n', t'. split; [by right|done].
Qed.


(** A plan for the generation [r] of a directory. *)
Record plans (r : Repository) files (plan : PublicationFiles) : Prop := mkPlans {
  pl_well_formed : well_formed_plan plan;
  pl_timestamp : last (pf_uploads plan) = Some TIMESTAMP;
  pl_root : ROOT ∈ pf_uploads plan;
  pl_here a : a ∈ pf_uploads plan → is_Some (files !! a);
  pl_roots n : 0 < n → n ≤ u64_max → is_Some (files !! in_metadata (root_name n)) → in_metadata (root_name n) ∈ pf_uploads plan;
  pl_roles : in_metadata (targets_name (re_targets_version r)) ∈ pf_uploads plan
    ∧ in_metadata (snapshot_name (re_snapshot_version r)) ∈ pf_uploads plan;
  pl_targets name t : re_targets r !! name = Some t →
    target_path name t ∈ pf_uploads plan ∨ (target_path name t, tg_length t) ∈ pf_retained plan;
}.

Lemma metadata_entries_in files name :
  name ∈ metadata_entries files ↔ is_Some (files !! in_metadata name) ∧ slashes name = 0%nat.
Proof.
  unfold metadata_entries. rewrite list_elem_of_omap. split.
  - intros (path & Hp & Hn). destruct (strip_prefix "metadata/" path) as [n|] eqn:Hs; [|done]. simpl in Hn.
    case_bool_decide; [|done]. injection Hn as ->. apply strip_prefix_Some in Hs as ->. by apply elem_of_bt_keys in Hp.
  - intros [Hp Hs]. exists (in_metadata name). split; [by apply elem_of_bt_keys|]. unfold in_metadata.
    rewrite (proj2 (strip_prefix_Some _ _ _) eq_refl). simpl. by rewrite bool_decide_true.
Qed.

Lemma root_file_plain name : is_root_file name = true → slashes name = 0%nat →
  plain (in_metadata name) ∧ in_metadata name ≠ TIMESTAMP.
Proof.
  intros Hr Hs. split; [|by intros ->%in_metadata_inj].
  unfold is_root_file in Hr. apply orb_true_iff in Hr as [->%bool_decide_eq_true|Hr]; [by apply plain_metadata|].
  destruct (strip_suffix ".root.json" name) as [v|] eqn:Hv; [|done]. apply strip_suffix_Some in Hv as ->.
  apply plain_metadata; [done|..]; intros Heq%(f_equal String.length); rewrite length_append in Heq; simpl in Heq; lia.
Qed.

Lemma parse_pretty_go x : ∀ rest, x ≤ u64_max → parse_u64_digits 0 (pretty_N_go x rest) = parse_u64_digits x rest.
Proof.
  induction (N.lt_wf_0 x) as [x _ IH]; intros rest Hx.
  assert (x = 0 ∨ 0 < x) as [->|Hpos] by lia; [by rewrite pretty_N_go_0|].
  rewrite pretty_N_go_step by done. pose proof (N.div_mod x 10 ltac:(done)) as Hdm. pose proof (N.mod_lt x 10 ltac:(done)) as Hm.
  rewrite IH; [|by apply N.div_lt|etrans; [|exact Hx]; apply N.Div0.div_le_upper_bound; lia]. cbn [parse_u64_digits].
  assert (is_ascii_digit (pretty_N_char (x mod 10)) = true ∧ N_of_ascii (pretty_N_char (x mod 10)) - 48 = x mod 10) as [-> ->].
  { assert (∀ d, d < 10 → is_ascii_digit (pretty_N_char d) = true ∧ N_of_ascii (pretty_N_char d) - 48 = d) as Hd; [|by apply Hd].
    intros d Hd. assert (d = 0 ∨ d = 1 ∨ d = 2 ∨ d = 3 ∨ d = 4 ∨ d = 5 ∨ d = 6 ∨ d = 7 ∨ d = 8 ∨ d = 9) as Hcases by lia.
    by repeat destruct Hcases as [->|Hcases]; [..|subst]. }
  rewrite <-Hdm. by rewrite (proj2 (N.leb_le _ _)).
Qed.

Lemma parse_pretty (n : N) : n ≤ u64_max → parse_u64 (pretty n) = Some n.
Proof.
  intros Hn. assert (parse_u64 (pretty n) = parse_u64_digits 0 (pretty n)) as ->.
  { pose proof (pretty_digits n) as Hd. destruct (pretty n) as [|c p] eqn:Hp.
    - exfalso. destruct (pretty_name_ne n EmptyString ".json"%string eq_refl eq_refl "json"). by rewrite Hp.
    - simpl in Hd. apply andb_true_iff in Hd as [Hc _]. unfold parse_u64.
      by destruct c as [[] [] [] [] [] [] [] []]; vm_compute in Hc. }
  unfold pretty, pretty_N. case_decide; [by subst|]. by rewrite parse_pretty_go.
Qed.

Lemma root_name_is_root n : 0 < n → n ≤ u64_max → is_root_file (root_name n) = true.
Proof.
  intros Hn Hmax. unfold is_root_file, root_name. rewrite strip_suffix_app. simpl. rewrite parse_pretty by done.
  apply orb_true_iff. right. by apply N.ltb_lt.
Qed.

Lemma plain_pretty (n : N) rest : slashes rest = 0%nat → (2 < String.length rest)%nat →
  plain (in_metadata (String.append (pretty n) rest)).
Proof.
  intros Hs Hl. apply plain_metadata; [by rewrite pretty_slashes|..]; intros Heq%(f_equal String.length);
    rewrite length_append in Heq; simpl in Heq; lia.
Qed.

Lemma publication_files_plans r files plan : publication_files r files = inr plan → plans r files plan.
Proof.
  unfold publication_files. destruct (split_targets files _) as [e|[here retained]] eqn:Hs; [done|].
  set (roots := in_metadata <$> filter _ _). cbn. destruct (split_targets_inr _ _ _ _ Hs) as (Hl1 & Hl2 & Hl3).
  assert (∀ a, a ∈ roots → is_Some (files !! a) ∧ plain a ∧ a ≠ TIMESTAMP) as Hroots.
  { intros a (name & -> & (Hr & (Hf & Hsl)%metadata_entries_in)%list_elem_of_filter)%list_elem_of_fmap.
    split; [done|]. by apply root_file_plain. }
  assert (∀ a, a ∈ here → plain a ∧ a ≠ TIMESTAMP) as Hhere.
  { intros a (_ & name & t & Hin & ->)%Hl2. destruct (Hl1 _ _ Hin) as [Hsafe _]. apply demand_inr in Hsafe. bool_to_prop.
    split; [|done]. apply plain_object; [apply hex_encode_slashes|done]. }
  unfold require_publication_file. intros Hp. sum_inv. repeat case_bool_decide; try discriminate. sum_inv.
  set (uploads := merge_sort _ here ++ merge_sort _ roots ++ [_; _; _]).
  assert (∀ a, a ∈ uploads ↔ a ∈ here ∨ a ∈ roots ∨ a = in_metadata (targets_name (re_targets_version r))
    ∨ a = in_metadata (snapshot_name (re_snapshot_version r)) ∨ a = TIMESTAMP) as Hin.
  { intros a. unfold uploads. rewrite !elem_of_app, !merge_sort_Permutation, !elem_of_cons, elem_of_nil. naive_solver. }
  assert (uploads = (merge_sort (path_order (λ x, x)) here ++ merge_sort (path_order (λ x, x)) roots
    ++ [in_metadata (targets_name (re_targets_version r)); in_metadata (snapshot_name (re_snapshot_version r))]) ++ [TIMESTAMP]) as Hup
    by (unfold uploads; by rewrite <-!app_assoc).
  assert (∀ a, a ∈ uploads → plain a) as Hplain.
  { intros a [?|[?|[->|[->| ->]]]]%Hin; [by apply Hhere|by apply Hroots|apply (plain_pretty _ ".targets.json"); [done|simpl; lia]|
      apply (plain_pretty _ ".snapshot.json"); [done|simpl; lia]|by apply plain_metadata]. }
  split.
  - split; cbn [pf_uploads pf_retained]; [done| |].
    + intros a l. rewrite merge_sort_Permutation. intros (name & t & Hl & ->)%Hl3. destruct (Hl1 _ _ Hl) as [Hsafe _].
      apply demand_inr in Hsafe. bool_to_prop. apply plain_object; [apply hex_encode_slashes|done].
    + rewrite Hup, removelast_last, !elem_of_app, !merge_sort_Permutation, !elem_of_cons, elem_of_nil.
      intros [Ht|[Ht|[Ht|[Ht|[]]]]]; [by apply Hhere in Ht as [_ ?]|by apply Hroots in Ht as (_ & _ & ?)|..];
        apply in_metadata_inj in Ht; symmetry in Ht; by apply pretty_not_timestamp in Ht.
  - cbn [pf_uploads]. by rewrite Hup, last_snoc.
  - apply Hin. right. by left.
  - intros a [Ha|[Ha|[->|[->| ->]]]]%Hin; [by apply Hl2 in Ha as [? _]|by apply Hroots in Ha as [? _]|done..].
  - intros n Hn Hmax Hf. apply Hin. right. left. apply list_elem_of_fmap. exists (root_name n). split; [done|].
    apply list_elem_of_filter. split; [by apply root_name_is_root|]. apply metadata_entries_in. split; [done|].
    unfold root_name. by rewrite pretty_slashes.
  - cbn [pf_uploads]. rewrite !Hin. split; naive_solver.
  - intros name t Ht%elem_of_bt_iter. cbn [pf_uploads pf_retained]. rewrite Hin, merge_sort_Permutation.
    destruct (Hl1 _ _ Ht) as [_ [?|?]]; auto.
Qed.

Lemma current_publication_plan_loc (P : Files → Prop) :
  loc P current_publication_plan (λ res f, P f ∧ ∀ plan, res = inr plan → ∃ root r,
    f !! in_metadata "root.json" = Some root ∧ tough_load root (metadata_of f) = Some r ∧ plans r f plan).
Proof.
  unfold current_publication_plan. eapply loc_try; [apply loc_load_local|by intros e f [? _]|]. intros r.
  eapply (loc_try _ _ _ (λ res f, (P f ∧ ∃ root, f !! in_metadata "root.json" = Some root ∧ tough_load root (metadata_of f) = Some r)
    ∧ ∀ p, res = inr p → p = publication_files r f)).
  - apply loc_io. eapply loc_weaken; [by apply (loc_read _ _ (λ f, inr (publication_files r f)))|intros f Hf; exact Hf|].
    intros res f [[HP Hl] Hr]. split; [split; [done|by apply Hl]|]. intros p. destruct Hr as [->| ->]; [done|]. by intros [= <-].
  - by intros e f [[? _] _].
  - intros p. apply loc_ret. intros f [[HP (root & Hroot & Hl)] Hp]. specialize (Hp p eq_refl) as ->. split; [done|].
    intros plan Hplan. exists root, r. split_and!; [done..|]. by apply publication_files_plans.
Qed.

(** ** The timestamp *)

Definition stamp files : option string := files !! in_metadata timestamp_name.

(** The second timestamp carries the version after the first one's. *)
Definition next_stamp (o o' : option string) : Prop :=
  ∃ v b, o ≫= signed_version = Some v ∧ o' = Some b ∧ signed_version b = Some (v + 1).

Lemma load_stamp_bytes root files r : tough_load root (metadata_of files) = Some r →
  ∃ b, stamp files = Some b ∧ signed_version b = Some (re_timestamp_version r) ∧ str_len b ≤ 1024 * 1024.
Proof. intros (b & Hb & Hv & Hl)%load_timestamp. by exists b. Qed.

Lemma load_stamp root files r : tough_load root (metadata_of files) = Some r →
  stamp files ≫= signed_version = Some (re_timestamp_version r).
Proof. intros (b & Hb & Hv & _)%load_stamp_bytes. by rewrite Hb. Qed.

(** Work that leaves the timestamp alone, and may end early. *)
Lemma loc_publish_elsewhere o path bytes : path ≠ in_metadata timestamp_name →
  loc (λ f, stamp f = o) (publish_file path bytes) (λ _ f, stamp f = o).
Proof. intros Hne. apply loc_publish_file; [done|]. intros f _ Hf. unfold stamp. by rewrite lookup_insert_ne. Qed.

(** Signing moves the timestamp to the next version, or leaves it alone. *)
Definition restamped (o : option string) (res : RepoError + unit) files : Prop :=
  (stamp files = o ∨ next_stamp o (stamp files)) ∧ (res = inr tt → next_stamp o (stamp files)).

Lemma publish_metadata_stamp o v root next expires sources signed :
  tough_sign root next expires sources = Some signed → o ≫= signed_version = Some v → re_timestamp_version next = v + 1 →
  loc (λ f, stamp f = o) (publish_metadata signed) (restamped o).
Proof.
  intros Hs Ho Hv. set (P := λ f, stamp f = o). assert (∀ e f, P f → restamped o (inl e) f) as Hstay by by split; [left|].
  unfold publish_metadata. eapply loc_try; [apply (loc_aside P)|by apply Hstay|]. intros [].
  eapply (loc_try _ _ _ (λ _, P)).
  - eapply loc_weaken; [apply (loc_each _ (λ _, P) P)|done|by intros [] f].
    intros k [name bytes] [Ht _]%list_elem_of_lookup_2%list_elem_of_filter. apply bool_decide_eq_false in Ht.
    unfold publish_role. apply loc_lift_try; [done|]. intros [] _.
    eapply loc_weaken; [apply loc_publish_elsewhere|done|by intros [] f]. by intros ?%in_metadata_inj.
  - by apply Hstay.
  - intros []. apply loc_lift_try; [auto|]. intros [name bytes] Hf%ok_or_inr%fmap_Some.
    destruct Hf as ((i & x) & (Hi & Ht & _)%list_find_Some & Hx). simpl in Hx. subst x.
    apply bool_decide_eq_true in Ht. simpl in Ht. subst name.
    apply list_elem_of_lookup_2 in Hi. rewrite merge_sort_Permutation in Hi.
    unfold publish_role. apply loc_lift_try; [auto|]. intros [] _. apply loc_publish_file; [auto|].
    intros f res _. assert (next_stamp o (stamp (<[in_metadata timestamp_name := bytes]> f))); [|by split; [right|]].
    exists v, bytes. unfold stamp. rewrite lookup_insert_eq. split_and!; [done..|]. rewrite <-Hv. by eapply sign_timestamp.
Qed.

Lemma publish_release_stamp keyring keys targets expiry_days replace_targets o :
  loc (λ f, stamp f = o) (publish_release keyring keys targets expiry_days replace_targets) (restamped o).
Proof.
  set (P := λ f, stamp f = o). assert (∀ e f, P f → restamped o (inl e) f) as Hstay by by split; [left|].
  unfold publish_release. eapply loc_try; [apply (loc_aside P)|by apply Hstay|]. intros [].
  apply loc_lift_try; [auto|]. intros [] _.
  eapply loc_try; [apply (loc_each_same _ P); intros; apply loc_aside|by apply Hstay|]. intros [].
  eapply loc_try; [apply loc_load_local|intros e f [? _]; by apply Hstay|]. intros repo.
  apply loc_pure with (o ≫= signed_version = Some (re_timestamp_version repo)).
  { intros f [Hf Hl]. destruct (Hl repo eq_refl) as (root & _ & Hld). unfold P in Hf. rewrite <-Hf. by eapply load_stamp. }
  intros Hrv. eapply loc_weaken with (P' := P); [|by intros f [? _]|by intros t f Hf; exact Hf].
  apply loc_lift_try; [auto|]. intros next (_ & _ & _ & Hnext)%next_generation_inr. eapply loc_bind; [apply (loc_now P)|]. intros t.
  apply loc_lift_try; [auto|]. intros expires _.
  eapply loc_try; [apply loc_root_bytes|intros e f [? _]; by apply Hstay|]. intros root.
  eapply loc_weaken with (P' := P); [|by intros f [? _]|by intros ? f Hf; exact Hf].
  apply loc_lift_try; [auto|]. intros sources _. apply loc_lift_try; [auto|]. intros signed Hs%ok_or_inr.
  apply loc_lift_try; [auto|]. intros objects Hobjects.
  eapply (loc_try _ _ _ (λ _, P)); [|by apply Hstay|intros []; by eapply publish_metadata_stamp].
  eapply loc_weaken; [apply (loc_each _ (λ _, P) P)|done|by intros [] f].
  intros k x Hx%list_elem_of_lookup_2. apply (target_objects_in _ _ _ Hobjects) in Hx as (t' & _ & Ht').
  eapply loc_weaken; [apply loc_publish_elsewhere|done|by intros [] f]. unfold target_object in Ht'. by sum_inv.
Qed.

(** C22. Signing a release is atomic.  In a repository directory of its own that reads as a
    generation and whose target objects are what their names say, whichever calls fail, a release
    leaves the directory reading as that generation, or advanced to the next one, with all three
    online versions one higher, its targets added or replaced and every new object in place; it
    reports success only in the second case.  Advanced means that the directory reads as the next
    generation if its signed roles are within what a reader accepts (one MiB of timestamp,
    ten MiB of any other): signing itself only refuses roles of more than 64 MiB, so a
    generation too large for its readers is signed and reported as a success. *)
Theorem signing_is_atomic keyring keys targets expiry_days replace_targets root r s turns res c :
  exclusive turns → reads_at (contents s) root r → faithful (contents s) →
  publish_release keyring keys targets expiry_days replace_targets (starts s turns) = (res, c) →
  released r targets replace_targets root res (contents (cl_shared c)).
Proof.
  intros Hx Hr Hf Hrun. by destruct (publish_release_loc keyring keys targets expiry_days replace_targets root r
    (starts s turns) res c Hx (conj Hr Hf) Hrun).
Qed.

(** The publication plan is the signed generation: a plan the directory answers with names only
    normal paths, uploads the timestamp last and the root pointer and every root of the chain and
    both versioned roles before it, all of them files that are there, and covers every signed target
    with an upload or with a retained object of the signed length. *)
Lemma plan_covers_the_generation s turns plan c :
  exclusive turns → current_publication_plan (starts s turns) = (inr plan, c) →
  contents (cl_shared c) = contents s
  ∧ ∃ root r, contents s !! in_metadata "root.json" = Some root
      ∧ tough_load root (metadata_of (contents s)) = Some r ∧ plans r (contents s) plan.
Proof.
  intros Hx Hrun. destruct (current_publication_plan_loc (λ f, f = contents s) (starts s turns) (inr plan) c Hx eq_refl Hrun)
    as (_ & Hc & Hp). rewrite Hc in Hp. eauto.
Qed.

End repository.

(** ** Reissued roots *)

Section roots.
Context `{!JsonValues} `{!JsonPointers} `{!ToughOps} `{!Sha256} `{!Tough}.
Context (keyring : Keyring).
Implicit Types (files : Files).

Abbreviation ceremony := (Root → RoleKeys → RepoError + (BTreeMap string * Roles * list string)).

(** The root a ceremony makes of the directory's. *)
Definition reissue files (plan : ceremony) (old : Root) (role : RoleKeys) (next : Root) (bytes : string) : Prop :=
  ∃ old_bytes keys roles sources expires,
    files !! in_metadata "root.json" = Some old_bytes ∧ root_from_slice old_bytes = Some old
    ∧ rl_root (ro_roles old) = Some role ∧ plan old role = inr (keys, roles, sources)
    ∧ next = mkRoot (ro_spec_version old) (ro_consistent_snapshot old) (ro_version old + 1) expires keys roles (ro_extra old)
    ∧ sign_root next sources = Some bytes.

Definition add_version files (next : Root) (bytes : string) : Files := <[in_metadata (root_name (ro_version next)) := bytes]> files.

(** Nothing, the versioned root alone, or both names of the root. *)
Definition reissued files (plan : ceremony) (res : RepoError + unit) files' : Prop :=
  (files' = files ∧ ∃ e, res = inl e)
  ∨ ∃ old role next bytes, reissue files plan old role next bytes
      ∧ ((files' = add_version files next bytes ∧ ∃ e, res = inl e)
         ∨ files' = <[in_metadata "root.json" := bytes]> (add_version files next bytes)).

Lemma next_version_inr n role m : next_version n role = inr m → m = n + 1.
Proof. unfold next_version. by destruct (n <? _); [intros [= <-]|]. Qed.

Lemma republish_root_loc files expiry_days plan :
  loc (λ f, f = files) (republish_root expiry_days plan) (reissued files plan).
Proof.
  assert (∀ e f, f = files → reissued files plan (inl e) f) as Hstay by (left; eauto).
  unfold republish_root. eapply loc_try; [apply (loc_aside (λ f, f = files))|by apply Hstay|]. intros [].
  eapply loc_try; [apply loc_root_bytes|intros e f [? _]; by apply Hstay|]. intros old_bytes.
  apply loc_pure with (files !! in_metadata "root.json" = Some old_bytes); [by intros f [-> Hb]; apply Hb|]. intros Hb.
  eapply loc_weaken with (P' := λ f, f = files); [|by intros f [? _]|by intros ? f Hf; exact Hf].
  apply loc_lift_try; [auto|]. intros old Hold%ok_or_inr. apply loc_lift_try; [auto|]. intros role Hrole%ok_or_inr.
  apply loc_lift_try; [auto|]. intros [[keys roles] sources] Hplan.
  apply loc_lift_try; [auto|]. intros version ->%next_version_inr.
  eapply loc_bind; [apply (loc_now (λ f, f = files))|]. intros t. apply loc_lift_try; [auto|]. intros expires _.
  apply loc_lift_try; [auto|]. intros bytes Hs%ok_or_inr. set (next := mkRoot _ _ _ _ _ _ _) in *.
  assert (reissue files plan old role next bytes) as Hre by (unfold reissue; naive_solver).
  assert (∀ e f, f = add_version files next bytes → reissued files plan (inl e) f) as Hhalf by (right; naive_solver).
  eapply (loc_try _ _ _ (λ res f, match res with inl e => reissued files plan (inl e) f | inr _ => f = add_version files next bytes end)).
  - apply loc_publish_file; [auto|]. intros f [e|[]] ->; [by apply Hhalf|done].
  - done.
  - intros []. apply loc_publish_file; [auto|]. intros f res ->. right. exists old, role, next, bytes. split; [done|by right].
Qed.

Lemma republish_root_stamp o expiry_days plan : loc (λ f, stamp f = o) (republish_root expiry_days plan) (λ _ f, stamp f = o).
Proof.
  intros c res c' Hx Hv Hrun. destruct (republish_root_loc _ expiry_days plan c res c' Hx eq_refl Hrun) as [Hx' Hr].
  split; [done|]. unfold stamp in *. destruct Hr as [[-> _]|(old & role & next & bytes & _ & [[-> _]| ->])]; [done|..]; unfold add_version.
  - rewrite lookup_insert_ne; [done|]. intros ?%in_metadata_inj. by eapply pretty_not_timestamp.
  - rewrite lookup_insert_ne by (by intros ?%in_metadata_inj). rewrite lookup_insert_ne; [done|].
    intros ?%in_metadata_inj. by eapply pretty_not_timestamp.
Qed.

(** ** The keys of a ceremony *)

Lemma signing_key_id_inr bytes id : signing_key_id bytes = inr id → ∃ key, tuf_key bytes = Some key ∧ key_id key = Some id.
Proof. unfold signing_key_id. intros H'. sum_inv. eauto. Qed.

Lemma insert_id_inr distinct slot id distinct' :
  insert_id distinct slot id = inr distinct' → distinct !! id = None ∧ distinct' = <[id := slot]> distinct.
Proof. unfold insert_id. destruct (distinct !! id); [done|]. by intros [= <-]. Qed.

Lemma gather_inr g path g' : gather keyring g path = inr g' → ∃ keyid key bytes,
  key_id key = Some keyid ∧ ga_distinct g !! keyid = None
  ∧ g' = mkGathered (<[keyid := key]> (ga_keys g)) (ga_keyids g ++ [keyid]) (ga_sources g ++ [bytes]) (<[keyid := path]> (ga_distinct g)).
Proof.
  unfold gather, insert_key. intros Hg. sum_inv. rename select (signing_key_id _ = _) into Hid.
  rename select (insert_id _ _ _ = _) into Hins. apply insert_id_inr in Hins as [Hno ->].
  apply signing_key_id_inr in Hid as (key & Hk & Hid). simplify_eq. eauto 10.
Qed.

(** What gathering keeps, from the key map [K0] and the slots [D0] it starts with. *)
Record gathered (K0 D0 : BTreeMap string) (g : Gathered) : Prop := mkGatheredOk {
  gt_nodup : NoDup (ga_keyids g);
  gt_apart k : k ∈ ga_keyids g → D0 !! k = None;
  gt_slots k : ga_distinct g !! k = None ↔ D0 !! k = None ∧ k ∉ ga_keyids g;
  gt_before k : is_Some (D0 !! k) → ga_keys g !! k = K0 !! k;
  gt_keys k : k ∈ ga_keyids g → ∃ key, ga_keys g !! k = Some key ∧ key_id key = Some k;
}.

Lemma gathered_start K0 D0 : gathered K0 D0 (mkGathered K0 [] [] D0).
Proof. split; cbn; [by apply NoDup_nil_2|by intros k ?%not_elem_of_nil| |done|by intros k ?%not_elem_of_nil]. intros k. set_solver. Qed.

Lemma gathered_step K0 D0 g path g' : gather keyring g path = inr g' → gathered K0 D0 g →
  gathered K0 D0 g' ∧ ∃ keyid, ga_keyids g' = ga_keyids g ++ [keyid].
Proof.
  intros (keyid & key & bytes & Hid & Hno & ->)%gather_inr []. cbn. split; [|eauto].
  apply gt_slots0 in Hno as [Hd Hk]. split; cbn.
  - apply NoDup_app. split_and!; [done| |apply NoDup_singleton]. set_solver.
  - intros k [Hin| ->%list_elem_of_singleton]%elem_of_app; auto.
  - intros k. rewrite lookup_insert_None, gt_slots0, elem_of_app, list_elem_of_singleton. naive_solver.
  - intros k Hk'. rewrite lookup_insert_ne; [auto|]. intros ->. rewrite Hd in Hk'. by destruct Hk'.
  - intros k [Hin| ->%list_elem_of_singleton]%elem_of_app; [|rewrite lookup_insert_eq; eauto].
    destruct (decide (k = keyid)) as [->|Hne]; [done|]. rewrite lookup_insert_ne by done. auto.
Qed.

Lemma gather_retained_inr K0 D0 role paths : ∀ g g',
  gather_retained keyring role g paths = inr g' → gathered K0 D0 g → Forall (λ k, k ∈ rk_keyids role) (ga_keyids g) →
  gathered K0 D0 g' ∧ Forall (λ k, k ∈ rk_keyids role) (ga_keyids g') ∧ length (ga_keyids g') = (length (ga_keyids g) + length paths)%nat.
Proof.
  induction paths as [|path paths IH]; intros g g'; cbn [gather_retained].
  { intros [= <-] Hg Hf. split_and!; [done..|]. simpl. lia. }
  intros Hr Hg Hf. apply sum_bind_inr in Hr as (g1 & Hg1 & Hr). apply sum_bind_inr in Hr as ([] & Hl%demand_inr & Hr).
  destruct (gathered_step _ _ _ _ _ Hg1 Hg) as [Hok (keyid & Hids)].
  unfold last_listed in Hl. rewrite Hids, last_snoc in Hl. apply bool_decide_eq_true in Hl.
  destruct (IH _ _ Hr Hok) as (? & ? & Hlen); [by rewrite Hids; apply Forall_app_2; [|constructor]|].
  split_and!; [done..|]. rewrite Hlen, Hids, length_app. simpl. lia.
Qed.

Lemma carry_keys_inr old r ids : ∀ g g',
  carry_keys old r true g ids = inr g' → (∀ k, is_Some (g.2 !! k) → g.1 !! k = ro_keys old !! k ∧ is_Some (ro_keys old !! k)) →
  (∀ k, is_Some (g'.2 !! k) → g'.1 !! k = ro_keys old !! k ∧ is_Some (ro_keys old !! k))
  ∧ (∀ k, is_Some (g.2 !! k) ∨ k ∈ ids → is_Some (g'.2 !! k)).
Proof.
  induction ids as [|id ids IH]; intros g g'; cbn [carry_keys].
  { intros [= <-] Hg. split; [done|]. by intros k [?|?%not_elem_of_nil]. }
  intros Hr Hg. apply sum_bind_inr in Hr as ([keys distinct] & Hk & Hr). unfold carry_key in Hk. destruct g as [keys0 distinct0].
  sum_inv. rename select (insert_id _ _ _ = _) into Hins. apply insert_id_inr in Hins as [Hno ->]. cbn [fst snd] in *.
  destruct (IH _ _ Hr) as [Hinv Hall].
  - cbn. intros k. destruct (decide (k = id)) as [->|Hne]; [rewrite !lookup_insert_eq; eauto|]. rewrite !lookup_insert_ne by done. auto.
  - split; [done|]. intros k Hk. apply Hall. cbn. rewrite lookup_insert_is_Some'. destruct Hk as [?|[->|?]%elem_of_cons]; auto.
Qed.

Lemma carry_roles_inr old rs : ∀ g g',
  carry_roles old true g rs = inr g' → (∀ k, is_Some (g.2 !! k) → g.1 !! k = ro_keys old !! k ∧ is_Some (ro_keys old !! k)) →
  (∀ k, is_Some (g'.2 !! k) → g'.1 !! k = ro_keys old !! k ∧ is_Some (ro_keys old !! k))
  ∧ (∀ k, is_Some (g.2 !! k) → is_Some (g'.2 !! k))
  ∧ ∀ r, r ∈ rs → ∃ rk, role (ro_roles old) r = Some rk ∧ ∀ k, k ∈ rk_keyids rk → is_Some (g'.2 !! k).
Proof.
  induction rs as [|r rs IH]; intros g g'; cbn [carry_roles].
  { intros [= <-] Hg. split_and!; [done..|]. by intros r ?%not_elem_of_nil. }
  intros Hr Hg. apply sum_bind_inr in Hr as (rk & Hrk%ok_or_inr & Hr). apply sum_bind_inr in Hr as (g1 & Hk & Hr).
  destruct (carry_keys_inr _ _ _ _ _ Hk Hg) as [Hinv Hall]. destruct (IH _ _ Hr Hinv) as (Hinv' & Hmono & Hroles).
  split_and!; [done|auto|]. intros r' [->|Hin]%elem_of_cons; [exists rk; auto|by apply Hroles].
Qed.

(** A root that succeeds another: the same online roles and keys, and of the root keys at least one
    of the old ones and a new one, the threshold unchanged. *)
Record succeeds (old next : Root) (role : RoleKeys) : Prop := mkSucceeds {
  su_version : ro_version next = ro_version old + 1;
  su_online r : r ∈ online_roles → ∃ rk, Authoring.role (ro_roles old) r = Some rk ∧ Authoring.role (ro_roles next) r = Some rk
    ∧ ∀ k, k ∈ rk_keyids rk → is_Some (ro_keys next !! k) ∧ ro_keys next !! k = ro_keys old !! k;
  su_root : ∃ kept fresh, rl_root (ro_roles next) = Some (mkRoleKeys (kept ++ [fresh]) (rk_threshold role) (rk_extra role))
    ∧ kept ≠ [] ∧ NoDup (kept ++ [fresh]) ∧ (∀ k, k ∈ kept → k ∈ rk_keyids role) ∧ (fresh ∉ rk_keyids role)
    ∧ (∀ k, k ∈ kept ++ [fresh] → ∃ key, ro_keys next !! k = Some key ∧ key_id key = Some k)
    ∧ (∀ r rk k, r ∈ online_roles → Authoring.role (ro_roles next) r = Some rk → k ∈ rk_keyids rk → k ∉ kept ++ [fresh]);
}.

Lemma rotation_succeeds retained new_root_key old role keys roles sources version expires :
  retained ≠ [] → rotation keyring retained new_root_key old role = inr (keys, roles, sources) → version = ro_version old + 1 →
  succeeds old (mkRoot (ro_spec_version old) (ro_consistent_snapshot old) version expires keys roles (ro_extra old)) role.
Proof.
  intros Hne Hrot ->. unfold rotation in Hrot. apply sum_bind_inr in Hrot as ([K0 D0] & Hc & Hrot).
  apply sum_bind_inr in Hrot as (kept & Hk & Hrot). apply sum_bind_inr in Hrot as (fresh & Hf & Hrot).
  apply sum_bind_inr in Hrot as ([] & Hl%demand_inr & Hrot). injection Hrot as <- <- <-.
  destruct (carry_roles_inr old online_roles (∅, ∅) _ Hc) as (Hinv & _ & Hroles); [by intros k [? ?]|]. cbn in Hinv, Hroles.
  destruct (gather_retained_inr K0 D0 role retained _ _ Hk) as (Hg & Hold & Hlen); [apply gathered_start|constructor|].
  destruct (gathered_step _ _ _ _ _ Hf Hg) as [[] (keyid & Hids)]. rewrite Hids in *.
  unfold last_listed in Hl. rewrite Hids, last_snoc in Hl. apply negb_true_iff, bool_decide_eq_false in Hl.
  split; cbn; [done| |].
  - intros r Hr. destruct (Hroles r Hr) as (rk & Hrk & Hks). exists rk. split_and!; [done| |].
    + unfold online_roles in Hr. rewrite !elem_of_cons, elem_of_nil in Hr. by destruct Hr as [->|[->|[->|[]]]].
    + intros k Hkin. destruct (Hinv k (Hks k Hkin)) as [Heq Hs]. rewrite (gt_before0 k (Hks k Hkin)), Heq. done.
  - exists (ga_keyids kept), keyid. rewrite Forall_forall in Hold. split_and!; [done| |done|done|done|done|].
    + intros Hnil. rewrite Hnil in Hlen. simpl in Hlen. destruct retained; [done|]. simpl in Hlen. lia.
    + intros r rk k Hr Hrk Hkin Hin. destruct (Hroles r Hr) as (rk' & Hrk' & Hks).
      assert (rk' = rk) as ->. { unfold online_roles in Hr. rewrite !elem_of_cons, elem_of_nil in Hr.
        destruct Hr as [->|[->|[->|[]]]]; cbn in *; congruence. }
      specialize (Hks k Hkin). rewrite (gt_apart0 k Hin) in Hks. by destruct Hks.
Qed.

(** C29. A root rotation keeps the chain of trust.  Whichever calls fail, the root pointer is the old
    one, or a root of the next version, also filed under its version, which keeps every online role
    with its keys, keeps the threshold, and lists at least one of the old root's own keys and exactly
    one new key, each once and none of them an online key; success means the second, and no other
    file changes. *)
Theorem rotation_keeps_continuity retained new_root_key expiry_days s turns res c :
  exclusive turns → rotate_root keyring retained new_root_key expiry_days (starts s turns) = (res, c) →
  let files := contents s in let files' := contents (cl_shared c) in
  (files' !! in_metadata "root.json" = files !! in_metadata "root.json" ∧ ∃ e, res = inl e)
  ∨ ∃ old_bytes bytes old next role,
      files !! in_metadata "root.json" = Some old_bytes ∧ root_from_slice old_bytes = Some old
      ∧ rl_root (ro_roles old) = Some role
      ∧ files' !! in_metadata "root.json" = Some bytes ∧ root_from_slice bytes = Some next
      ∧ files' !! in_metadata (root_name (ro_version next)) = Some bytes ∧ succeeds old next role
      ∧ ∀ path, path ≠ in_metadata "root.json" → path ≠ in_metadata (root_name (ro_version next)) → files' !! path = files !! path.
Proof.
  intros Hx. unfold rotate_root, sh_try, lift, mbind, Sh_bind, mret, Sh_ret. case_bool_decide as Hne; simpl.
  { intros [= <- <-]. left. eauto. }
  intros Hrun. destruct (republish_root_loc (contents s) expiry_days (rotation keyring retained new_root_key)
    (starts s turns) res c Hx eq_refl Hrun) as [_ [[-> ?]|(old & role & next & bytes & Hre & [[-> ?]| ->])]]; [by left|..].
  - left. split; [|done]. unfold add_version. rewrite lookup_insert_ne; [done|]. intros ?%in_metadata_inj. by eapply pretty_not_root.
  - right. destruct Hre as (old_bytes & keys & roles & sources & expires & Hf & Hold & Hrole & Hplan & -> & Hs).
    exists old_bytes, bytes, old, (mkRoot (ro_spec_version old) (ro_consistent_snapshot old) (ro_version old + 1) expires keys roles (ro_extra old)), role.
    split_and!; [done..|by rewrite lookup_insert_eq|by eapply sign_root_reads| |by eapply rotation_succeeds|].
    + rewrite lookup_insert_ne; [|intros Heq%in_metadata_inj; symmetry in Heq; by eapply pretty_not_root]. apply lookup_insert_eq.
    + intros path Hp Hp'. rewrite lookup_insert_ne by done. unfold add_version. by rewrite lookup_insert_ne.
Qed.

(** An interrupted renewal: the versioned root is there and the pointer is the old one.  Once that
    root has been published, a renewal that signs the same version again blocks publication for good. *)
Lemma half_renewed_root_blocks_publication `{!ObjectPaths} prefix files plan old role next bytes plan' old' role' next' bytes' r paths
    version s turns res c :
  let orphaned := add_version files next bytes in
  let renewed := <[in_metadata "root.json" := bytes']> (add_version orphaned next' bytes') in
  reissue files plan old role next bytes → reissue orphaned plan' old' role' next' bytes' → ro_expires next' ≠ ro_expires next →
  ro_version next ≤ u64_max → publication_files r renewed = inr paths →
  sh_objects s !! object_key prefix (in_metadata (root_name (ro_version next))) = Some (version, bytes) →
  distinct_keys prefix → versioned s → honest (publish_rely prefix) turns →
  publish_repository prefix renewed paths (starts s turns) = (res, c) → res ≠ inr tt.
Proof.
  intros orphaned renewed (ob & ks & rs & src & ex & Hf & Hold & Hrole & _ & -> & Hs) Hre' Hexp Hmax Hplans Hobj Hk Hv Hh Hrun ->.
  destruct Hre' as (ob' & ks' & rs' & src' & ex' & Hf' & Hold' & _ & _ & -> & Hs'). cbn in *.
  unfold orphaned, add_version in Hf'. rewrite lookup_insert_ne in Hf'.
  2:{ intros Heq%in_metadata_inj. by eapply pretty_not_root. }
  assert (old' = old) as -> by congruence.
  assert (bytes' ≠ bytes) as Hne.
  { intros ->. apply sign_root_reads in Hs, Hs'. congruence. }
  pose proof (publication_files_plans _ _ _ Hplans) as Hpl. set (path := in_metadata (root_name (ro_version old + 1))) in *.
  assert (renewed !! path = Some bytes') as Hat.
  { unfold renewed, add_version. rewrite lookup_insert_ne; [by apply lookup_insert_eq|].
    intros Heq%in_metadata_inj. symmetry in Heq. by eapply pretty_not_root. }
  destruct (publish_repository_runs prefix renewed paths Hk (pl_well_formed _ _ _ Hpl) (starts s turns) (inr tt) c Hh (Forall_nil_2 _)
    (conj Hv I) Hrun) as (_ & _ & _ & HR & HQ). destruct (HQ eq_refl) as [[_ Hup] _].
  assert (path ∈ removelast (pf_uploads paths)) as Hin.
  { pose proof (pl_timestamp _ _ _ Hpl) as Hlast. pose proof (pl_roots _ _ _ Hpl (ro_version old + 1)) as Hroots.
    assert (path ∈ pf_uploads paths) as Hin by (apply Hroots; [lia|done|eexists; exact Hat]).
    destruct (last_Some (pf_uploads paths) TIMESTAMP) as [Hl _]. destruct (Hl Hlast) as (l & Hl'). rewrite Hl' in *.
    rewrite removelast_last. apply elem_of_app in Hin as [?|Heq%list_elem_of_singleton]; [done|].
    apply in_metadata_inj in Heq. exfalso. by eapply pretty_not_timestamp. }
  assert (immutable path) as Himm.
  { split_and!; [apply (plain_pretty _ ".root.json"); [done|simpl; lia]| |intros ?%in_metadata_inj; by eapply pretty_not_root|
      intros ?%in_metadata_inj; by eapply pretty_not_timestamp].
    unfold below. case_bool_decide; [by eexists|]. unfold path, in_metadata. rewrite (proj2 (strip_prefix_Some _ _ _) eq_refl). by eexists. }
  pose proof (pr_metadata _ _ _ HR _ _ Himm Hobj) as Hkept.
  specialize (Hup path Hin). unfold uploaded in Hup. destruct Himm as (_ & _ & Hnr & _). specialize (Hup Hnr).
  assert (content_addressed_target_digest path = inr None) as Hnone.
  { destruct (content_addressed_target_digest path) as [e|[d|]] eqn:Hd; [|apply target_not_metadata in Hd|done].
    - unfold content_addressed_target_digest, below in Hd. case_bool_decide; done.
    - unfold below in Hd. case_bool_decide; [done|]. unfold path, in_metadata in Hd. by rewrite (proj2 (strip_prefix_Some _ _ _) eq_refl) in Hd. }
  rewrite Hnone in Hup. destruct Hup as (v' & b & Hb & Hs2). congruence.
Qed.

End roots.
