(* ===== verification/InputData.v ===== *)
(** * InputData: private inputs before the generation that names them

    Models [updatec/src/input_data.rs] and the input half of [updatec/src/dataflow.rs]: the
    immutable private object of each assignment, written before the signed generation commits to
    its bytes, and the retirement of objects no live assignment names.  An object carries the
    instant the store last wrote it.  The gateway and the nodes write elsewhere in the store. *)
From S2P Require Import Prelude Identity Maps Releases Dataflow Telemetry Window Rollout Assignment Groups.
From S2P Require Import Publication Inputs Inventory Shared Lease Publish Enroll.

#[local] Open Scope Z_scope.

Record Stored : Type := mkStored {
  so_modified : Z;
  so_body : string;
}.

(** [object_store::Error], with the store's own invalid-object error. *)
Inductive DataflowError : Type :=
| DStore (e : ApiError)
| DTooLarge
| DKey (digest : string)
| DContract (e : ContractError)
| DDifferent (digest : string)
| DNamespace
| DTimedOut
| DKeyBytes.

Inductive InputDataError : Type :=
| IInvalid (e : ContractError)
| INoTarget (digest : string)
| IMismatch
| IStorage (e : DataflowError).

Definition GENERATION_KEY_OBJECT : string := "internal/dataflow/generation.key".
Definition INPUT_ROOT : string := "internal/dataflow/inputs".
Definition OUTPUT_ROOT : string := "internal/dataflow/outputs".
Definition REPORT_ROOT : string := "internal/telemetry/nodes".
Definition GENERATION_KEY_BYTES : N := 32.
Definition OBJECT_STORE_MAINTENANCE_TIMEOUT : Z := micros 30.

Section dataflow.
Context `{!ObjectPaths} `{!Sha256} (prefix : string).

Definition output_key (node : string) : string :=
  object_key prefix (String.append OUTPUT_ROOT (String "/" (String.append (node_object_digest node) ".json"))).
Definition input_key (assignment_sha256 : string) : string :=
  object_key prefix (String.append INPUT_ROOT (String "/" (String.append assignment_sha256 ".json"))).
Definition report_key (node : string) : string :=
  object_key prefix (String.append REPORT_ROOT (String "/" (String.append (node_object_digest node) ".json"))).
Definition input_root : string := object_key prefix INPUT_ROOT.

Definition object_in_namespace (root object : string) : bool :=
  bool_decide (object = root)
  || match strip_prefix root object with
     | Some rest => bool_decide (is_Some (strip_prefix "/" rest))
     | None => false
     end.

(** [read_object_bounded] *)
Definition read_object_bounded (key : string) (limit : N) : Sh Stored (DataflowError + string) :=
  r ← get key;
  mret ('(_, o) ← map_err DStore r;
        _ ← demand (str_len (so_body o) <=? limit)%N DTooLarge;
        inr (so_body o)).

(** A put with [PutMode::Create]. *)
Definition put_new (key body : string) : Sh Stored (ApiError + N) :=
  change (λ s, demand (bool_decide (sh_objects s !! key = None)) EConflict)
    (λ s, put_object key (mkStored (sh_clock s) body) s).

Definition decode_generation_key (bytes : string) : DataflowError + string :=
  _ ← demand (bool_decide (str_len bytes = GENERATION_KEY_BYTES)) DKeyBytes; inr bytes.

(** [generation_key], with the bytes the generator would yield. *)
Definition generation_key (generated : string) : Sh Stored (DataflowError + string) :=
  let object := object_key prefix GENERATION_KEY_OBJECT in
  r ← read_object_bounded object GENERATION_KEY_BYTES;
  match r with
  | inr bytes => mret (decode_generation_key bytes)
  | inl (DStore ENotFound) =>
      w ← put_new object generated;
      match w with
      | inr _ => mret (inr generated)
      | inl EConflict =>
          bytes ←? read_object_bounded object GENERATION_KEY_BYTES;
          lift (decode_generation_key bytes)
      | inl e => mret (inl (DStore e))
      end
  | inl e => mret (inl e)
  end.

Section inputs.
Context `{!Base64} `{!Hmac} `{!DataflowJson}.

Definition put_inputs (assignment_sha256 : string) (publication : InputPublication) (selection : InputSelection)
    : Sh Stored (DataflowError + unit) :=
  _ ←? lift (demand (is_canonical_sha256 assignment_sha256) (DKey assignment_sha256));
  body ←? lift (map_err DContract (InputPublication_to_bounded_body publication));
  _ ←? lift (map_err DContract (from_bounded_body body selection));
  let object := input_key assignment_sha256 in
  r ← put_new object body;
  match r with
  | inr _ => mret (inr tt)
  | inl EConflict =>
      existing ←? read_object_bounded object MAX_DATAFLOW_BODY_BYTES;
      lift (demand (bool_decide (existing = body)) (DDifferent assignment_sha256))
  | inl e => mret (inl (DStore e))
  end.

Definition inputs (assignment_sha256 : string) (selection : InputSelection) : Sh Stored (DataflowError + InputPublication) :=
  _ ←? lift (demand (is_canonical_sha256 assignment_sha256) (DKey assignment_sha256));
  body ←? read_object_bounded (input_key assignment_sha256) MAX_DATAFLOW_BODY_BYTES;
  lift (map_err DContract (from_bounded_body body selection)).

(** ** Publication *)

Context `{!JsonValues} `{!SemverOrder} `{!Urls} `{!AssignmentJson}.

(** The assignments a plan names, by digest. *)
Fixpoint collect_assignments (plan : PublicationPlan) (assignment_prefix : string)
    (acc : BTreeMap RepositoryAssignment) (digests : list string) : InputDataError + BTreeMap RepositoryAssignment :=
  match digests with
  | [] => inr acc
  | digest :: digests =>
      if contains_key digest acc then collect_assignments plan assignment_prefix acc digests
      else
        let path := config_object_key assignment_prefix digest in
        target ← ok_or (snd <$> list_find (λ t, pt_path t = path ∧ pt_sha256 t = digest) (pp_targets plan)) (INoTarget digest);
        assignment ← map_err IInvalid (RepositoryAssignment_from_bounded_json (pt_bytes target));
        collect_assignments plan assignment_prefix (<[digest := assignment]> acc) digests
  end.

Definition assignments (plan : PublicationPlan) (assignment_prefix : string) : InputDataError + BTreeMap RepositoryAssignment :=
  collect_assignments plan assignment_prefix ∅ (bt_values (pp_node_assignments plan)).

Definition as_storage {T} (m : Sh Stored (DataflowError + T)) : Sh Stored (InputDataError + T) :=
  r ← m; mret (map_err IStorage r).

Definition publish_input (input_snapshots : BTreeMap FileSnapshot) (dataflow_key : string)
    (entry : string * RepositoryAssignment) : Sh Stored (InputDataError + unit) :=
  let '(digest, assignment) := entry in
  let selected := mr_inputs (ra_runtime assignment) in
  if InputSelection_is_empty selected then mret (inr tt)
  else
    publication ←? (match input_snapshots !! is_generation selected with
                    | Some snapshot => lift (map_err IInvalid (from_snapshot snapshot dataflow_key))
                    | None => as_storage (inputs digest selected)
                    end);
    _ ←? lift (map_err IInvalid (validate_selection (ip_snapshot publication) selected));
    stated ←? lift (map_err IInvalid (selection publication));
    _ ←? lift (demand (bool_decide (stated = selected)) IMismatch);
    as_storage (put_inputs digest publication selected).

(** [input_data::publish] *)
Definition publish_inputs (plan : PublicationPlan) (assignment_prefix : string)
    (input_snapshots : BTreeMap FileSnapshot) (dataflow_key : string) : Sh Stored (InputDataError + unit) :=
  all ←? lift (assignments plan assignment_prefix);
  sh_each (publish_input input_snapshots dataflow_key) (bt_iter all).

End inputs.

(** ** Retirement *)

(** One listed object: counted, and deleted when it is past the cutoff and nobody's. *)
Definition sweep_entry (active : BTreeSet) (cutoff deadline : Z) (entry : string * (N * Stored))
    : Sh Stored (DataflowError + nat) :=
  let '(location, (_, o)) := entry in
  if negb (object_in_namespace input_root location) then mret (inr 0%nat)
  else if (so_modified o <=? cutoff) && negb (bool_decide (location ∈ active)) then
    r ← bounded deadline (change (λ s, demand (bool_decide (sh_objects s !! location ≠ None)) ENotFound) (drop_object location));
    mret (match r with
          | inr _ | inl ENotFound => inr 1%nat
          | inl EElapsed => inl DTimedOut
          | inl e => inl (DStore e)
          end)
  else mret (inr 0%nat).

Fixpoint sweep_entries (active : BTreeSet) (cutoff deadline : Z) (count removed : nat)
    (entries : list (string * (N * Stored))) : Sh Stored (DataflowError + nat) :=
  match entries with
  | [] => mret (inr removed)
  | entry :: entries =>
      if (MAX_BACKEND_INVENTORY_MEMBERS <=? count)%nat then mret (inl DNamespace)
      else
        n ←? sweep_entry active cutoff deadline entry;
        sweep_entries active cutoff deadline (S count) (removed + n) entries
  end.

(** [sweep_inputs_before]; the listing is the byte prefix's. *)
Definition sweep_inputs_before (active_assignment_sha256 : list string) (cutoff : Z) : Sh Stored (DataflowError + nat) :=
  _ ←? lift (each (λ digest, demand (is_canonical_sha256 digest) (DKey digest)) active_assignment_sha256);
  let active := list_to_set (input_key <$> active_assignment_sha256) in
  t ← peek sh_clock;
  let deadline := t + OBJECT_STORE_MAINTENANCE_TIMEOUT in
  r ← bounded deadline list_objects;
  match r with
  | inl EElapsed => mret (inl DTimedOut)
  | inl e => mret (inl (DStore e))
  | inr objects =>
      sweep_entries active cutoff deadline 0 0
        (filter (λ entry, String.prefix input_root entry.1 = true) objects)
  end.

End dataflow.

(** ** What publication and retirement do to the private objects *)

Section safety.
Context `{!ObjectPaths} `{!Sha256} (prefix : string) `{!Base64} `{!Hmac} `{!DataflowJson}.
Context `{!JsonValues} `{!SemverOrder} `{!Urls} `{!AssignmentJson}.
Implicit Types (s : shared Stored).

(** Nobody else writes the inputs of assignments. *)
Definition inputs_rely s s' : Prop :=
  ∀ digest, is_canonical_sha256 digest = true → sh_objects s' !! input_key prefix digest = sh_objects s !! input_key prefix digest.

#[export] Instance inputs_rely_preorder : PreOrder inputs_rely.
Proof. split; [by intros s d|]. intros s1 s2 s3 H12 H23 d Hd. by rewrite H23, H12. Qed.

(** An input object of an assignment, with what its selection commits to. *)
Definition holds_inputs (digest : string) (selected : InputSelection) s : Prop :=
  ∃ version o publication, sh_objects s !! input_key prefix digest = Some (version, o)
    ∧ from_bounded_body (so_body o) selected = inr publication.

(** The one change publication makes: an object where there was none. *)
Definition input_created s s' : Prop :=
  ∃ digest body, is_canonical_sha256 digest = true ∧ sh_objects s !! input_key prefix digest = None
    ∧ s' = put_object (input_key prefix digest) (mkStored (sh_clock s) body) s.

Lemma holds_created digest selected s s' : input_created s s' → holds_inputs digest selected s → holds_inputs digest selected s'.
Proof.
  intros (d & b & _ & Hn & ->) (v & o & p & Ho & Hp). exists v, o, p. split; [|done]. simpl.
  rewrite lookup_insert_ne; [done|]. intros Heq. congruence.
Qed.

Abbreviation inputs_run P m Q := (runs inputs_rely input_created P m Q).

Lemma read_object_runs P key limit :
  inputs_run P (read_object_bounded key limit) (λ s r s', inputs_rely s s'
    ∧ ∀ body, r = inr body → ∃ v o, sh_objects s' !! key = Some (v, o) ∧ so_body o = body).
Proof.
  eapply sh_bind; [apply runs_read, _|]. intros s r Hs. apply sh_ret. intros s' [HR Hr]. split; [done|]. intros body Hb.
  destruct Hr as [->| ->]; [done|]. destruct (sh_objects s' !! key) as [[v o]|] eqn:Ho; [|done]. simpl in Hb.
  sum_inv. eauto.
Qed.

(** What publication keeps: the inputs already held. *)
Definition inputs_kept s s' : Prop :=
  ∀ d sel, is_canonical_sha256 d = true → holds_inputs d sel s → holds_inputs d sel s'.

#[local] Instance inputs_kept_preorder : PreOrder inputs_kept.
Proof. split; [by intros s d sel|]. intros s1 s2 s3 H12 H23 d sel Hd Hh. eauto. Qed.

Lemma rely_kept s s' : inputs_rely s s' → inputs_kept s s'.
Proof. intros HR d sel Hd (v & o & p & Ho & Hp). exists v, o, p. by rewrite HR. Qed.

Lemma created_kept s s' : input_created s s' → inputs_kept s s'.
Proof. intros Hc d sel _. by apply holds_created. Qed.

(** The create of an input object, whatever it answers. *)
Lemma put_new_runs P digest body :
  is_canonical_sha256 digest = true →
  inputs_run P (put_new (input_key prefix digest) body) (λ s r s', inputs_kept s s'
    ∧ ∀ n, r = inr n → ∃ v o, sh_objects s' !! input_key prefix digest = Some (v, o) ∧ so_body o = body).
Proof.
  intros Hd. eapply runs_weaken; [|intros s Hs; exact Hs|].
  - apply runs_change; [apply _|]. intros s s1 _ HR Ha%demand_inr%bool_decide_eq_true. by exists digest, body.
  - intros s r s' _ (s1 & HR%rely_kept & [[-> Hr]|(Ha & -> & _)]).
    + split; [done|]. intros n ->. destruct Hr as [[=]|(e & _ & [=])].
    + apply demand_inr, bool_decide_eq_true in Ha. split.
      * etrans; [exact HR|]. apply created_kept. by exists digest, body.
      * intros n _. exists (sh_next s1), (mkStored (sh_clock s1) body). simpl. by rewrite lookup_insert_eq.
Qed.

Lemma put_inputs_runs digest publication selected :
  inputs_run (λ _, True) (put_inputs prefix digest publication selected) (λ s r s', inputs_kept s s'
    ∧ (r = inr tt → is_canonical_sha256 digest = true ∧ holds_inputs digest selected s')).
Proof.
  unfold put_inputs. apply runs_lift; [done|]. intros [] Hd%demand_inr. apply runs_lift; [done|]. intros body _.
  apply runs_lift; [done|]. intros p Hf%map_err_inr.
  eapply sh_bind; [by apply put_new_runs|]. intros s r _.
  destruct r as [[]|n]; try (apply sh_ret; intros s' [Hk _]; done).
  - eapply runs_try.
    + eapply runs_weaken; [apply read_object_runs|intros s' Hs'; exact Hs'|].
      intros s' r s'' [Hk _] [HR%rely_kept Hr]. exact (conj (transitivity Hk HR) Hr).
    + by intros s' e s'' _ [Hk _].
    + intros s' existing _. apply sh_ret. intros s'' [Hk Hr]. split; [done|].
      intros Heq%demand_inr%bool_decide_eq_true. destruct (Hr existing eq_refl) as (v & o & Ho & Hbody).
      split; [done|]. exists v, o, p. by rewrite Hbody, Heq.
  - apply sh_ret. intros s' [Hk Hn]. split; [done|]. intros _. destruct (Hn n eq_refl) as (v & o & Ho & Hbody).
    split; [done|]. exists v, o, p. by rewrite Hbody.
Qed.

(** The inputs an assignment selects are held. *)
Definition input_held (entry : string * RepositoryAssignment) s : Prop :=
  let selected := mr_inputs (ra_runtime entry.2) in
  InputSelection_is_empty selected = false →
  is_canonical_sha256 entry.1 = true ∧ holds_inputs entry.1 selected s.

Lemma input_held_kept entry s s' : inputs_kept s s' → input_held entry s → input_held entry s'.
Proof. intros Hk Hh Hne. destruct (Hh Hne). auto. Qed.

Lemma as_storage_runs {T} P (m : Sh Stored (DataflowError + T)) (Q : _ → _ → _ → Prop) :
  inputs_run P m (λ s r s', Q s (map_err IStorage r) s') → inputs_run P (as_storage m) Q.
Proof. intros Hm. eapply sh_bind; [exact Hm|]. intros s r _. by apply sh_ret. Qed.

Lemma publish_input_runs input_snapshots dataflow_key entry :
  inputs_run (λ _, True) (publish_input prefix input_snapshots dataflow_key entry)
    (λ s r s', inputs_kept s s' ∧ (r = inr tt → input_held entry s')).
Proof.
  destruct entry as [digest a]. unfold publish_input.
  destruct (InputSelection_is_empty _) eqn:He.
  { apply sh_ret. intros s _. split; [reflexivity|]. intros _ Hne. simpl in Hne. congruence. }
  eapply (runs_try _ _ _ _ _ (λ s _ s', inputs_kept s s')).
  - destruct (input_snapshots !! _) as [snapshot|].
    + apply sh_ret. reflexivity.
    + apply as_storage_runs. unfold inputs. apply runs_lift; [reflexivity|]. intros [] _.
      eapply runs_try; [apply read_object_runs|by intros s e s' _ [HR _]; apply rely_kept|].
      intros s body _. apply sh_ret. intros s' [HR _]. by apply rely_kept.
  - by intros s e s' _ Hk.
  - intros s publication _. apply runs_lift; [done|]. intros [] _. apply runs_lift; [done|]. intros stated _.
    apply runs_lift; [done|]. intros [] _. apply as_storage_runs.
    eapply runs_weaken; [apply put_inputs_runs|done|]. intros s1 r s2 Hk [Hk2 Hr]. split; [by etrans|].
    intros Hok Hne. apply Hr. destruct r as [|[]]; [discriminate Hok|done].
Qed.

Lemma publish_entries_runs input_snapshots dataflow_key l :
  inputs_run (λ _, True) (sh_each (publish_input prefix input_snapshots dataflow_key) l)
    (λ s r s', inputs_kept s s' ∧ (r = inr tt → ∀ entry, entry ∈ l → input_held entry s')).
Proof.
  induction l as [|x l IH]; cbn [sh_each].
  - apply sh_ret. intros s _. split; [reflexivity|]. by intros _ entry Hin%elem_of_nil.
  - eapply runs_try; [apply publish_input_runs|by intros s e s' _ [Hk _]|].
    intros s [] _. eapply runs_weaken; [exact IH|done|]. intros s1 r s2 [Hk Hx] [Hk2 Hl].
    split; [by etrans|]. intros Hr entry [->|Hin]%elem_of_cons; [|by apply Hl].
    eapply input_held_kept; [exact Hk2|by apply Hx].
Qed.

(** ** The assignments of a plan *)

(** The target that carries an assignment, as the collection finds it. *)
Definition carries (plan : PublicationPlan) (assignment_prefix digest : string) (a : RepositoryAssignment) : Prop :=
  ∃ i target, list_find (λ t, pt_path t = config_object_key assignment_prefix digest ∧ pt_sha256 t = digest) (pp_targets plan) = Some (i, target)
    ∧ RepositoryAssignment_from_bounded_json (pt_bytes target) = inr a.

Lemma collect_assignments_sound plan assignment_prefix digests : ∀ acc all,
  collect_assignments plan assignment_prefix acc digests = inr all →
  acc ⊆ all ∧ ∀ digest, digest ∈ digests → contains_key digest acc = false →
    ∃ a, all !! digest = Some a ∧ carries plan assignment_prefix digest a.
Proof.
  induction digests as [|d digests IH]; intros acc all; cbn [collect_assignments].
  { intros [= <-]. split; [done|]. by intros digest Hin%elem_of_nil. }
  destruct (contains_key d acc) eqn:Hc.
  - intros [Hsub Hall]%IH. split; [done|]. intros digest [->|Hin]%elem_of_cons Hd; [congruence|auto].
  - intros Hcol. destruct (list_find _ _) as [[i target]|] eqn:Hf; [|done]. simpl in Hcol.
    destruct (map_err IInvalid _) as [|a] eqn:Ha; [done|]. apply map_err_inr in Ha. simpl in Hcol.
    apply contains_key_false in Hc. apply IH in Hcol as [Hsub Hall]. split.
    { etrans; [|exact Hsub]. by apply insert_subseteq. }
    assert (all !! d = Some a) as Hda by (eapply lookup_weaken; [apply lookup_insert_eq|done]).
    assert (carries plan assignment_prefix d a) as Hcar by (exists i, target; done).
    intros digest [->|Hin]%elem_of_cons Hd; [by eauto|]. destruct (decide (digest = d)) as [->|Hne]; [by eauto|].
    apply Hall; [done|]. apply contains_key_false. rewrite lookup_insert_ne by done. by apply contains_key_false.
Qed.

Lemma publish_inputs_runs plan assignment_prefix input_snapshots dataflow_key :
  inputs_run (λ _, True) (publish_inputs prefix plan assignment_prefix input_snapshots dataflow_key)
    (λ s r s', inputs_kept s s' ∧ (r = inr tt → ∀ node digest, pp_node_assignments plan !! node = Some digest →
       ∃ a, carries plan assignment_prefix digest a ∧ input_held (digest, a) s')).
Proof.
  unfold publish_inputs. apply runs_lift; [by intros; split; [reflexivity|]|].
  intros all [_ Hall]%collect_assignments_sound.
  eapply runs_weaken; [apply publish_entries_runs|done|]. intros s r s' _ [Hk Hr]. split; [done|].
  intros Hok node digest Hn. destruct (Hall digest) as (a & Ha & Hc).
  - apply elem_of_bt_values. eauto.
  - by apply contains_key_false, lookup_empty.
  - exists a. split; [done|]. apply Hr; [done|]. by apply elem_of_bt_iter.
Qed.

End safety.

(** ** What a sweep removes *)

Section sweep.
Context `{!ObjectPaths} (prefix : string) (active : BTreeSet) (cutoff : Z).
Implicit Types (s : shared Stored).

(** Nobody else writes in the namespace while it is swept. *)
Definition namespace_rely s s' : Prop :=
  ∀ k, object_in_namespace (input_root prefix) k = true → sh_objects s' !! k = sh_objects s !! k.

#[export] Instance namespace_rely_preorder : PreOrder namespace_rely.
Proof. split; [by intros s k|]. intros s1 s2 s3 H12 H23 k Hk. by rewrite H23, H12. Qed.

(** Past the cutoff, and nobody's. *)
Definition stale (k : string) (o : Stored) : Prop :=
  object_in_namespace (input_root prefix) k = true ∧ (k ∉ active) ∧ (so_modified o ≤ cutoff).

Definition removed_at k s s' : Prop :=
  ∃ v o, sh_objects s !! k = Some (v, o) ∧ stale k o ∧ (sh_objects s' !! k = None).

(** The namespace lost stale objects only. *)
Definition swept s s' : Prop :=
  ∀ k, object_in_namespace (input_root prefix) k = true → sh_objects s' !! k = sh_objects s !! k ∨ removed_at k s s'.

(** One deletion, of one stale object. *)
Definition retired s s' : Prop := ∃ k, removed_at k s s' ∧ s' = drop_object k s.

#[export] Instance swept_preorder : PreOrder swept.
Proof.
  split; [by left|]. intros s1 s2 s3 H12 H23 k Hk.
  destruct (H12 k Hk) as [E12|(v & o & Ho & Hs & Hn)], (H23 k Hk) as [E23|(v' & o' & Ho' & Hs' & Hn')].
  - left. congruence.
  - right. exists v', o'. by rewrite <- E12.
  - right. exists v, o. by rewrite E23.
  - congruence.
Qed.

Lemma rely_swept s s' : namespace_rely s s' → swept s s'.
Proof. intros HR k Hk. left. auto. Qed.

Lemma retired_swept s s' : retired s s' → swept s s'.
Proof.
  intros (k & Hr & ->) k' _. destruct (decide (k' = k)) as [->|Hne]; [by right|]. left. simpl. by rewrite lookup_delete_ne.
Qed.

Lemma swept_gone k s s' : object_in_namespace (input_root prefix) k = true → swept s s' → sh_objects s !! k = None → sh_objects s' !! k = None.
Proof. intros Hk Hsw Hn. destruct (Hsw k Hk) as [->|(v & o & Ho & _)]; congruence. Qed.

Abbreviation sweeps P m Q := (runs namespace_rely retired P m Q).

(** The deletion of an object the listing showed stale. *)
Lemma delete_runs s0 k v o deadline :
  sh_objects s0 !! k = Some (v, o) → stale k o →
  sweeps (swept s0) (bounded deadline (change (λ s, demand (bool_decide (sh_objects s !! k ≠ None)) ENotFound) (drop_object k)))
    (λ s r s', swept s s' ∧ (r = inl ENotFound ∨ (∃ n, r = inr n) → sh_objects s' !! k = None)).
Proof.
  intros Ho Hst. assert (∀ s s1, swept s0 s → namespace_rely s s1 →
      demand (bool_decide (sh_objects s1 !! k ≠ None)) ENotFound = inr tt → retired s1 (drop_object k s1)) as Hret.
  { intros s s1 Hsw HR Hp%demand_inr%bool_decide_eq_true. exists k. split; [|done]. exists v, o.
    split; [|split; [done|]; apply lookup_delete_eq].
    destruct (transitivity Hsw (rely_swept _ _ HR) k (proj1 Hst)) as [->|(v' & o' & _ & _ & Hn)]; congruence. }
  eapply runs_bounded.
  - intros s Hs. split; [reflexivity|]. by intros [?|[? ?]].
  - apply runs_change; [apply _|]. intros s s1 [Hsw _]. by apply Hret.
  - intros s r s' Hsw _ (s1 & HR & Hch). split; [|by intros [?|[? ?]]].
    destruct Hch as [[-> _]|(Ha & -> & _)]; [by apply rely_swept|].
    etrans; [by apply rely_swept|]. by eapply retired_swept, Hret.
  - intros s r s' Hsw _ (s1 & HR & Hch) _. destruct Hch as [[-> Hr]|(Ha & -> & _)].
    + split; [by apply rely_swept|]. intros Hans. destruct Hr as [->|(e & He & ->)]; [by destruct Hans as [?|[? ?]]|].
      unfold demand in He. destruct (bool_decide _) eqn:Hb; [done|]. by apply bool_decide_eq_false, dec_stable in Hb.
    + split; [|intros _; apply lookup_delete_eq]. etrans; [by apply rely_swept|]. by eapply retired_swept, Hret.
Qed.

Lemma sweep_entry_runs s0 k v o deadline :
  sh_objects s0 !! k = Some (v, o) →
  sweeps (swept s0) (sweep_entry prefix active cutoff deadline (k, (v, o)))
    (λ s r s', swept s s' ∧ ∀ n, r = inr n → (n ≤ 1)%nat ∧ (stale k o → sh_objects s' !! k = None)).
Proof.
  intros Ho. unfold sweep_entry. destruct (object_in_namespace _ k) eqn:Hns; simpl.
  2:{ apply sh_ret. intros s _. split; [reflexivity|]. intros n [= <-]. split; [lia|]. intros [Hk _]. congruence. }
  destruct (Z.leb_spec (so_modified o) cutoff) as [Hle|Hlt]; simpl.
  2:{ apply sh_ret. intros s _. split; [reflexivity|]. intros n [= <-]. split; [lia|]. intros (_ & _ & Hm). lia. }
  destruct (bool_decide (k ∈ active)) eqn:Ha; simpl.
  { apply sh_ret. intros s _. split; [reflexivity|]. intros n [= <-]. split; [lia|]. apply bool_decide_eq_true in Ha. by intros (_ & Hna & _). }
  apply bool_decide_eq_false in Ha. eapply sh_bind; [by eapply delete_runs|]. intros s r _. apply sh_ret.
  intros s' [Hsw Hg]. split; [done|]. intros n Hn. destruct r as [[]|m]; try done; injection Hn as <-; (split; [lia|]); intros _; eauto.
Qed.

Lemma sweep_entries_runs s0 deadline entries : ∀ count removed,
  (∀ k x, (k, x) ∈ entries → sh_objects s0 !! k = Some x) →
  sweeps (swept s0) (sweep_entries prefix active cutoff deadline count removed entries)
    (λ s r s', swept s s' ∧ ∀ n, r = inr n → (n ≤ removed + length entries)%nat
       ∧ ∀ k v o, (k, (v, o)) ∈ entries → stale k o → sh_objects s' !! k = None).
Proof.
  induction entries as [|[k [v o]] entries IH]; intros count removed Hl; cbn [sweep_entries].
  { apply sh_ret. intros s _. split; [reflexivity|]. intros n [= <-]. split; [simpl; lia|]. by intros k v o Hin%elem_of_nil. }
  destruct (_ <=? count)%nat. { apply sh_ret. intros s _. split; [reflexivity|]. by intros n [=]. }
  eapply runs_try; [apply sweep_entry_runs; apply Hl; by left|by intros s e s' _ [Hsw _]; split; [|intros n [=]]|].
  intros s n Hs. eapply runs_weaken; [apply IH|intros s' [Hsw _]; by etrans|].
  { intros k' x Hin. apply Hl. by right. }
  intros s1 r s2 [Hsw1 Hn] [Hsw2 Hr]. split; [by etrans|]. intros m Hm. destruct (Hr m Hm) as [Hle Hgone].
  destruct (Hn n eq_refl) as [Hn1 Hk]. split; [simpl; lia|]. intros k' v' o' [[= -> -> ->]|Hin]%elem_of_cons Hst; [|by eapply Hgone].
  eapply swept_gone; [apply Hst|exact Hsw2|auto].
Qed.

End sweep.

Lemma prefix_append a b : String.prefix a (String.append a b) = true.
Proof. induction a as [|x a IH]; [by destruct b|]. simpl. by destruct (Ascii.ascii_dec x x). Qed.

Lemma in_namespace_prefix root k : object_in_namespace root k = true → String.prefix root k = true.
Proof.
  unfold object_in_namespace. intros [->%bool_decide_eq_true|Hs]%orb_true_iff; [by rewrite <- (append_empty_r root) at 2; apply prefix_append|].
  destruct (strip_prefix root k) as [rest|] eqn:Hp; [|done]. apply strip_prefix_Some in Hp as ->. apply prefix_append.
Qed.

Section claims.
Context `{!ObjectPaths} `{!Sha256} (prefix : string) `{!Base64} `{!Hmac} `{!DataflowJson}.
Context `{!JsonValues} `{!SemverOrder} `{!Urls} `{!AssignmentJson}.
Implicit Types (s : shared Stored).

(** C35. Private inputs precede the generation that names them: while nobody else writes inputs, a
    publication that answers success leaves, for every node of the plan, a canonical assignment
    digest carried by one of the plan's targets and, where that assignment selects inputs, a
    private object that checks against the selection; whatever it answers, inputs that were held
    before are held after, and its only changes are the creation of missing input objects. *)
Theorem private_inputs_precede_the_generation plan assignment_prefix input_snapshots dataflow_key s turns r c' :
  honest (inputs_rely prefix) turns →
  publish_inputs prefix plan assignment_prefix input_snapshots dataflow_key (starts s turns) = (r, c') →
  guaranteed (input_created prefix) (cl_made c')
  ∧ inputs_kept prefix s (cl_shared c')
  ∧ (r = inr tt → ∀ node digest, pp_node_assignments plan !! node = Some digest →
       ∃ a, carries plan assignment_prefix digest a ∧ input_held prefix (digest, a) (cl_shared c')).
Proof.
  intros Hh Hrun. destruct (publish_inputs_runs prefix plan assignment_prefix input_snapshots dataflow_key
    (starts s turns) r c' Hh (Forall_nil_2 _) I Hrun) as (_ & Hg & Hk & Hr). auto.
Qed.

(** Retirement spares the living: while nobody else writes in the namespace, a sweep deletes only
    objects that no active assignment names and that the store last wrote at or before the cutoff;
    everything else of the namespace is as it was.  A sweep that answers success leaves no such
    object, and counts no more than it was shown. *)
Lemma retirement_spares_the_living live cutoff s turns r c' :
  honest (namespace_rely prefix) turns →
  sweep_inputs_before prefix live cutoff (starts s turns) = (r, c') →
  let active := list_to_set (input_key prefix <$> live) in
  guaranteed (retired prefix active cutoff) (cl_made c')
  ∧ swept prefix active cutoff s (cl_shared c')
  ∧ (∀ n, r = inr n → ∀ k v o, sh_objects (cl_shared c') !! k = Some (v, o) → ¬ stale prefix active cutoff k o).
Proof.
  intros Hh Hrun active.
  assert (runs (namespace_rely prefix) (retired prefix active cutoff) (λ _, True) (sweep_inputs_before prefix live cutoff)
    (λ s r s', swept prefix active cutoff s s' ∧ ∀ n, r = inr n → ∀ k v o, sh_objects s' !! k = Some (v, o) → ¬ stale prefix active cutoff k o)) as Hall.
  { unfold sweep_inputs_before. apply runs_lift; [by intros; split; [reflexivity|]|]. intros [] _.
    eapply sh_bind; [apply runs_peek|]. intros s0 t _. eapply sh_bind; [apply runs_bounded_read, _|].
    intros s1 [e|objects] [-> ->].
    - assert (swept prefix active cutoff s0 s0) by reflexivity.
      destruct e; apply sh_ret; intros s2 [HR%(rely_swept _ active cutoff) _]; done.
    - intros c t c2 Hhon Hgua [HR [[=]|[[=]|[= ->]]]] Hr. 
      destruct (sweep_entries_runs prefix active cutoff (cl_shared c) _ _ _ _ ltac:(
        by intros k x [_ Hx]%list_elem_of_filter; apply elem_of_bt_iter) c t c2 Hhon Hgua ltac:(reflexivity) Hr) as (H1' & H2' & Hsw & Hn).
      split_and!; [done..| |].
      + etrans; [by apply rely_swept|done].
      + intros n Ht k v o Ho Hst. destruct (Hn n Ht) as [_ Hgone].
        destruct (Hsw k (proj1 Hst)) as [Heq|(v' & o' & _ & _ & Hno)]; [|congruence].
        rewrite (Hgone k v o) in Ho; [done| |done]. apply list_elem_of_filter. split; [by apply in_namespace_prefix, Hst|].
        apply elem_of_bt_iter. congruence. }
  destruct (Hall (starts s turns) r c' Hh (Forall_nil_2 _) I Hrun) as (_ & Hg & Hsw & Hn). auto.
Qed.

End claims.
