(* ===== verification/FleetReports.v ===== *)
(** * FleetReports: the projection of all reports that load balancers read

    Models the fleet half of [updated-contracts/src/telemetry.rs]: the gate a stored report passes,
    the index of a generation, its bounded shards with the eviction that keeps them bounded, and the
    ingress buffer that does the same accounting one report at a time.  Sizes are of serialised
    bytes; serde_json is a parameter, with the sizes of its compact form.  Shard numbers are [u16]
    and stay below sixty-four.  A panic is [None]. *)
From stdpp Require Import pretty.
From S2P Require Import Prelude Identity Maps Releases Dataflow Telemetry Window Rollout Assign.
From S2P Require Import Assignment Groups Publication Inputs Inventory.

#[local] Open Scope N_scope.

Definition REPORT_NAMESPACE : string := "telemetry".
Definition FLEET_INDEX_OBJECT_KEY : string := "telemetry/fleet.json".
Definition MAX_FLEET_REPORT_SHARDS : nat := 64.
Definition MAX_FLEET_REPORT_SHARD_BYTES : N := 16 * 1024 * 1024.
Definition MAX_FLEET_INDEX_BYTES : N := 4 * 1024.
Definition MAX_REPORT_ENVELOPE_BYTES : N := 64 * 1024.
(** Two freshness windows, in milliseconds. *)
Definition FLEET_GENERATION_RETENTION : N := REPORT_FRESHNESS * 2.

Definition in_shard_range (shards : nat) : bool := (1 <=? shards)%nat && (shards <=? MAX_FLEET_REPORT_SHARDS)%nat.

(** A shard ceiling that passed the range check. *)
Record FleetShardLimit : Type := mkFleetShardLimit { shard_limit : nat }.

Definition FleetShardLimit_new (shards : nat) : option FleetShardLimit :=
  if in_shard_range shards then Some (mkFleetShardLimit shards) else None.

Definition DEFAULT_FLEET_REPORT_MAX_SHARDS : FleetShardLimit := mkFleetShardLimit 4.

(** ** Index and locations *)

Record FleetIndex : Type := mkFleetIndex {
  fi_schema : N;
  fi_generation : string;
  fi_max_shards : nat;
  fi_rebalance_to : option nat;
}.

Record FleetShardLocation : Type := mkFleetShardLocation {
  sl_generation : string;
  sl_shard : nat;
  sl_max_shards : nat;
}.

#[export] Instance FleetShardLocation_eq_dec : EqDecision FleetShardLocation.
Proof. solve_decision. Defined.

Definition FleetIndex_SCHEMA : N := 1.
Definition SHARD_SCHEMA : N := 1.

(** [{base.trim_end_matches('/')}/{relative}] *)
Definition below_base (base relative : string) : string :=
  String.append (trim_end_matches "/" base) (String "/" relative).

Definition fleet_index_url (base : string) : string := below_base base FLEET_INDEX_OBJECT_KEY.

(** [{:04x}] of a [u16]. *)
Definition hex4 (n : nat) : string :=
  hex_encode (String (ascii_of_N (N.of_nat n / 256)) (String (ascii_of_N (N.of_nat n mod 256)) EmptyString)).

Definition location_object_key (l : FleetShardLocation) : string :=
  String.append REPORT_NAMESPACE (String.append "/fleet/" (String.append (sl_generation l)
    (String "/" (String.append (hex4 (sl_shard l)) ".json")))).

Definition location_url (l : FleetShardLocation) (base : string) : string := below_base base (location_object_key l).

Definition shard_locations (i : FleetIndex) : list FleetShardLocation :=
  (λ shard, mkFleetShardLocation (fi_generation i) shard (fi_max_shards i)) <$> seq 0 (fi_max_shards i).

Section placement.
Context `{!Sha256}.

(** [u64::from_str_radix(_, 16)] of text that is hexadecimal throughout. *)
Fixpoint from_hex (acc : N) (s : string) : N :=
  match s with
  | EmptyString => acc
  | String c s => from_hex (16 * acc + default 0 (hex_digit c)) s
  end.

(** The shard of a node: the leading 64 bits of its digest, modulo the number of shards. *)
Definition shard_for (node : string) (shard_count : nat) : nat :=
  N.to_nat (from_hex 0 (String.substring 0 16 (node_object_digest node)) mod N.of_nat shard_count).

Definition shard_locations_for (i : FleetIndex) (nodes : list string) : list FleetShardLocation :=
  let wanted : gset nat := list_to_set ((λ node, shard_for node (fi_max_shards i)) <$> nodes) in
  filter (λ l, sl_shard l ∈ wanted) (shard_locations i).
End placement.

(** ** Reports *)

Section fleet.
Context `{!ReportParts} `{!Semver} `{!Signed} `{!Sha256} `{!JsonValues}.

Record AcceptedReport : Type := mkAcceptedReport {
  ar_node : string;
  ar_envelope : Envelope;
  ar_stored_at_ms : N;
}.

Record StoredReport : Type := mkStoredReport {
  sr_stored_at_ms : N;
  sr_envelope : Envelope;
}.

#[export] Instance AcceptedReport_eq_dec : EqDecision AcceptedReport.
Proof. solve_decision. Defined.

#[export] Instance StoredReport_eq_dec : EqDecision StoredReport.
Proof. solve_decision. Defined.

(** A shard as it is written, and as it is first read. *)
Record ShardDocument (V : Type) : Type := mkShardDocument {
  sd_schema : N;
  sd_generation : string;
  sd_shard : nat;
  sd_reports : BTreeMap V;
}.

(** serde_json on the fleet's documents.  Integers and strings always encode; the compact form puts
    one colon after a key and one comma between entries, and the fixed text of an empty shard
    document is fifty bytes, and thirty-two of its generation. *)
Class FleetJson : Type := {
  index_json :: Serde FleetIndex;
  envelope_json :: Serde Envelope;
  key_to_vec : string → string;
  stored_to_vec : StoredReport → string;
  stored_from_value : JsonValue → option StoredReport;
  shard_to_vec : ShardDocument StoredReport → string;
  shard_from_slice : string → option (ShardDocument JsonValue);
  shard_reads_back : ∀ schema generation shard reports, ∃ values,
    shard_from_slice (shard_to_vec (mkShardDocument _ schema generation shard reports))
      = Some (mkShardDocument _ schema generation shard values)
    ∧ omap stored_from_value values = reports;
  shard_header_len : ∀ generation shard, str_len generation = 32 → string_forallb is_hex_byte generation = true → (shard < 64)%nat →
    str_len (shard_to_vec (mkShardDocument _ SHARD_SCHEMA generation shard ∅))
      = 82 + str_len (pretty shard);
  shard_entries_len : ∀ schema generation shard reports,
    str_len (shard_to_vec (mkShardDocument _ schema generation shard reports))
      = str_len (shard_to_vec (mkShardDocument _ schema generation shard ∅))
        + map_fold (λ node stored n, str_len (key_to_vec node) + 1 + str_len (stored_to_vec stored) + n) 0 reports
        + (N.of_nat (size reports) - 1);
}.
Context `{!FleetJson}.

Abbreviation FleetReports := (BTreeMap StoredReport).

(** [accept_stored_report] *)
Definition accept_stored_report (body node : string) (stored_at : N) : option AcceptedReport :=
  envelope ← ok_of (bounded_decode body "node report envelope" MAX_REPORT_ENVELOPE_BYTES);
  payload ← decode_report_payload envelope;
  _ ← parse_attributed_payload payload node;
  Some (mkAcceptedReport node envelope stored_at).

Definition into_stored (a : AcceptedReport) : string * StoredReport :=
  (ar_node a, mkStoredReport (ar_stored_at_ms a) (ar_envelope a)).

(** [report_staleness_for_observability]; [claimed_payload] is the payload without its gate. *)
Definition report_staleness_for_observability (claimed_payload : Envelope → option string) (envelope : Envelope)
    (now_ms : N) : option bool :=
  payload ← claimed_payload envelope;
  report ← report_from_slice payload;
  Some (negb (is_fresh report now_ms)).

(** [FleetIndex::parse], [begin_rebalance] and [encode] *)
Definition generation_ok (generation : string) : bool :=
  (str_len generation =? 32) && string_forallb is_hex_byte generation.

Definition FleetIndex_valid (i : FleetIndex) : bool :=
  (fi_schema i =? FleetIndex_SCHEMA) && generation_ok (fi_generation i) && in_shard_range (fi_max_shards i)
  && match fi_rebalance_to i with
     | Some target => negb (target =? fi_max_shards i)%nat && in_shard_range target
     | None => true
     end.

Definition FleetIndex_parse (body : string) : option FleetIndex :=
  index ← ok_of (bounded_decode body "fleet report index" MAX_FLEET_INDEX_BYTES);
  if FleetIndex_valid index then Some index else None.

Definition FleetIndex_encode (i : FleetIndex) : ContractError + string :=
  bounded_encode i "fleet report index" MAX_FLEET_INDEX_BYTES.

Inductive RebalanceError : Type := AlreadyMarked | AlreadyAtLimit | EncodingIndex (e : ContractError).

Definition begin_rebalance (i : FleetIndex) (target : FleetShardLimit) : RebalanceError + (FleetIndex * string) :=
  _ ← demand (bool_decide (fi_rebalance_to i = None)) AlreadyMarked;
  _ ← demand (negb (fi_max_shards i =? shard_limit target)%nat) AlreadyAtLimit;
  let transition := mkFleetIndex (fi_schema i) (fi_generation i) (fi_max_shards i) (Some (shard_limit target)) in
  body ← map_err EncodingIndex (FleetIndex_encode transition);
  inr (transition, body).

(** ** Shards *)

(** What an entry of a shard must satisfy when it is read. *)
Definition entry_readable (location : FleetShardLocation) (node : string) (stored : StoredReport) : bool :=
  option_some_and (λ body, str_len body <=? MAX_REPORT_ENVELOPE_BYTES) (to_vec (sr_envelope stored))
  && bool_decide (is_Some (decode_report_payload (sr_envelope stored) ≫= λ payload, parse_attributed_payload payload node))
  && (shard_for node (sl_max_shards location) =? sl_shard location)%nat.

Definition read_entry (location : FleetShardLocation) (node : string) (value : JsonValue) : option StoredReport :=
  stored ← stored_from_value value;
  if entry_readable location node stored then Some stored else None.

Definition parse_shard (body : string) (location : FleetShardLocation) : option FleetReports :=
  if str_len body <=? MAX_FLEET_REPORT_SHARD_BYTES then
    document ← shard_from_slice body;
    if (sd_schema _ document =? SHARD_SCHEMA) && bool_decide (sd_generation _ document = sl_generation location)
       && (sd_shard _ document =? sl_shard location)%nat
    then Some (map_imap (read_entry location) (sd_reports _ document))
    else None
  else None.

Definition record (reports : FleetReports) (accepted : AcceptedReport) : FleetReports :=
  let '(node, stored) := into_stored accepted in <[node := stored]> reports.

Definition overlay (reports newer : FleetReports) : FleetReports := newer ∪ reports.

Definition remove (reports : FleetReports) (node : string) : option Envelope * FleetReports :=
  (sr_envelope <$> reports !! node, delete node reports).

Definition entry_len (node : string) (stored : StoredReport) : N :=
  str_len (key_to_vec node) + 1 + str_len (stored_to_vec stored).

(** The order entries are evicted in: by the instant the store recorded them, then by node. *)
Definition evict_le (x y : N * string) : Prop :=
  x.1 < y.1 ∨ (x.1 = y.1 ∧ key_le x.2 y.2).

#[export] Instance evict_le_dec x y : Decision (evict_le x y).
Proof. unfold evict_le. apply _. Defined.

Definition shard_document (location : FleetShardLocation) (reports : FleetReports) : ShardDocument StoredReport :=
  mkShardDocument _ SHARD_SCHEMA (sl_generation location) (sl_shard location) reports.

(** The eviction loop over the entries in order. *)
Fixpoint evict (entries : list (N * string * N)) (reports : FleetReports) (encoded_len : N) (evicted : nat)
    : FleetReports * nat :=
  match entries with
  | [] => (reports, evicted)
  | (_, node, len) :: entries =>
      if encoded_len <=? MAX_FLEET_REPORT_SHARD_BYTES then (reports, evicted)
      else evict entries (delete node reports)
             (encoded_len - (len + if (1 <? size reports)%nat then 1 else 0)) (S evicted)
  end.

Definition shard_entries (reports : FleetReports) : list (N * string * N) :=
  (λ x, (sr_stored_at_ms x.2, x.1, entry_len x.1 x.2)) <$> bt_iter reports.

Definition encoded_len_of (location : FleetShardLocation) (reports : FleetReports) : N :=
  str_len (shard_to_vec (shard_document location ∅))
  + foldr N.add 0 (snd <$> shard_entries reports)
  + (N.of_nat (length (shard_entries reports)) - 1).

(** What is left of a shard's reports, and how many were evicted. *)
Definition fit_shard (reports : FleetReports) (location : FleetShardLocation) : FleetReports * nat :=
  evict (merge_sort (λ x y, evict_le x.1 y.1) (shard_entries reports)) reports (encoded_len_of location reports) 0.

Definition encode_shard (reports : FleetReports) (location : FleetShardLocation) : string * nat :=
  let '(kept, evicted) := fit_shard reports location in (shard_to_vec (shard_document location kept), evicted).

(** ** Generations *)

Record FleetGeneration : Type := mkFleetGeneration {
  fg_index : FleetIndex;
  fg_index_body : string;
  fg_shards : list (FleetShardLocation * string);
  fg_evicted : nat;
}.

(** [bins[shard].insert(node, stored)] for every report. *)
Fixpoint place (shard_count : nat) (bins : list FleetReports) (reports : list (string * StoredReport))
    : option (list FleetReports) :=
  match reports with
  | [] => Some bins
  | (node, stored) :: reports =>
      let shard := shard_for node shard_count in
      bin ← bins !! shard;
      place shard_count (<[shard := <[node := stored]> bin]> bins) reports
  end.

Definition encode_bins (bins : list FleetReports) (locations : list FleetShardLocation)
    : list (FleetShardLocation * string) * nat :=
  foldr (λ x acc, let '(body, removed) := encode_shard x.1 x.2 in ((x.2, body) :: acc.1, (removed + acc.2)%nat))
    ([], 0%nat) (zip bins locations).

(** [rebalance], with the sixteen bytes the generator yields, when it does. *)
Definition rebalance (random : option string) (reports : FleetReports) (max_shards : FleetShardLimit)
    : option (ContractError + FleetGeneration) :=
  let max_shards := shard_limit max_shards in
  match random with
  | None => Some (inl (EEncoding "fleet report generation"))
  | Some random =>
      let generation := hex_encode random in
      bins ← place max_shards (replicate max_shards ∅) (bt_iter reports);
      let index := mkFleetIndex FleetIndex_SCHEMA generation max_shards None in
      Some (index_body ← FleetIndex_encode index;
            let '(shards, evicted) := encode_bins bins (shard_locations index) in
            inr (mkFleetGeneration index index_body shards evicted))
  end.

(** ** Updates of a current generation *)

Record FleetShardUpdate : Type := mkFleetShardUpdate {
  su_location : FleetShardLocation;
  su_reports : FleetReports;
}.

(** [into_shard_updates]: the shards that receive a report, ascending. *)
Definition into_shard_updates (reports : FleetReports) (i : FleetIndex) : list FleetShardUpdate :=
  let shard_count := fi_max_shards i in
  omap (λ location,
    let updates := filter (λ x, shard_for x.1 shard_count = sl_shard location) reports in
    if bool_decide (updates = ∅) then None else Some (mkFleetShardUpdate location updates))
    (shard_locations i).

Definition merge_update (u : FleetShardUpdate) (current : option string) : string * nat :=
  let reports := default ∅ (current ≫= λ body, parse_shard body (su_location u)) in
  encode_shard (overlay reports (su_reports u)) (su_location u).

(** ** The ingress buffer *)

Record BufferedFleetShard : Type := mkBufferedFleetShard {
  bs_encoded_len : N;
  bs_eviction_order : gset (N * string);
}.

Record FleetReportBuffer : Type := mkFleetReportBuffer {
  fb_reports : FleetReports;
  fb_max_shards : FleetShardLimit;
  fb_shards : list BufferedFleetShard;
}.

Definition accounting_generation : string := "00000000000000000000000000000000".

Definition buffer_new (max_shards : FleetShardLimit) : FleetReportBuffer :=
  let accounting_index := mkFleetIndex FleetIndex_SCHEMA accounting_generation (shard_limit max_shards) None in
  mkFleetReportBuffer ∅ max_shards
    ((λ location, mkBufferedFleetShard (str_len (encode_shard ∅ location).1) ∅) <$> shard_locations accounting_index).

Definition checked_sub (a b : N) : option N := if b <=? a then Some (a - b) else None.

(** [pop_first] *)
Definition pop_first (s : gset (N * string)) : option ((N * string) * gset (N * string)) :=
  match merge_sort evict_le (elements s) with
  | [] => None
  | x :: _ => Some (x, s ∖ {[x]})
  end.

(** The loop that evicts from one shard; every round takes an entry out of the order. *)
Fixpoint evict_oldest (fuel : nat) (reports : FleetReports) (shard : BufferedFleetShard) (evicted : nat)
    : option (FleetReports * BufferedFleetShard * nat) :=
  if bs_encoded_len shard <=? MAX_FLEET_REPORT_SHARD_BYTES then Some (reports, shard, evicted)
  else match fuel with
  | O => None
  | S fuel =>
      '((_, oldest), order) ← pop_first (bs_eviction_order shard);
      let entries_before := S (size order) in
      removed ← reports !! oldest;
      len ← checked_sub (bs_encoded_len shard)
              (entry_len oldest removed + if (1 <? entries_before)%nat then 1 else 0);
      evict_oldest fuel (delete oldest reports) (mkBufferedFleetShard len order) (S evicted)
  end.

Definition buffer_record (b : FleetReportBuffer) (accepted : AcceptedReport) : option (FleetReportBuffer * nat) :=
  let '(node, stored) := into_stored accepted in
  let shard_index := shard_for node (shard_limit (fb_max_shards b)) in
  shard ← fb_shards b !! shard_index;
  let entries_before := size (bs_eviction_order shard) in
  '(len, order) ←
    match fb_reports b !! node with
    | Some previous =>
        len ← checked_sub (bs_encoded_len shard) (entry_len node previous);
        Some (len, bs_eviction_order shard ∖ {[(sr_stored_at_ms previous, node)]})
    | None => Some (if (0 <? entries_before)%nat then bs_encoded_len shard + 1 else bs_encoded_len shard,
                    bs_eviction_order shard)
    end;
  let order := {[(sr_stored_at_ms stored, node)]} ∪ order in
  '(reports, shard, evicted) ←
    evict_oldest (size order) (<[node := stored]> (fb_reports b))
      (mkBufferedFleetShard (len + entry_len node stored) order) 0;
  Some (mkFleetReportBuffer reports (fb_max_shards b) (<[shard_index := shard]> (fb_shards b)), evicted).

Definition buffer_drain (b : FleetReportBuffer) : FleetReports * FleetReportBuffer :=
  (fb_reports b, buffer_new (fb_max_shards b)).

End fleet.

(** ** Sizes and eviction *)

Lemma foldr_add_perm l k : l ≡ₚ k → foldr N.add 0 l = foldr N.add 0 k.
Proof. induction 1; simpl in *; lia. Qed.

#[export] Instance evict_le_trans : Transitive evict_le.
Proof.
  intros [a k] [b k'] [c k''] [Hab|[Hab Hk]] [Hbc|[Hbc Hk']]; simpl in *; [left; simpl; lia..|].
  right. simpl. split; [lia|]. by etrans.
Qed.

#[export] Instance evict_le_total : Total evict_le.
Proof.
  intros [a k] [b k']. unfold evict_le. simpl. destruct (N.lt_trichotomy a b) as [?|[->|?]]; [tauto| |tauto].
  destruct (String.leb_total k k'); tauto.
Qed.

Section sizes.
Context `{!ReportParts} `{!Semver} `{!Signed} `{!Sha256} `{!JsonValues} `{!FleetJson}.
Abbreviation FleetReports := (BTreeMap StoredReport).
Implicit Types (m : FleetReports) (l : FleetShardLocation).

Definition sum_len m : N := map_fold (λ node stored n, entry_len node stored + n) 0 m.

Lemma sum_len_insert m node stored : m !! node = None →
  sum_len (<[node := stored]> m) = entry_len node stored + sum_len m.
Proof. intros Hm. unfold sum_len. rewrite map_fold_insert_L; [done| |done]. intros. lia. Qed.

Lemma sum_len_delete m node stored : m !! node = Some stored →
  sum_len m = entry_len node stored + sum_len (delete node m).
Proof. intros Hm. rewrite <- (insert_delete_id m node stored Hm) at 1. apply sum_len_insert, lookup_delete_eq. Qed.

(** The size of a shard, header and separators included. *)
Definition total_len l m : N :=
  str_len (shard_to_vec (shard_document l ∅)) + sum_len m + (N.of_nat (size m) - 1).

Lemma total_len_body l m : str_len (shard_to_vec (shard_document l m)) = total_len l m.
Proof. apply shard_entries_len. Qed.

Lemma total_len_delete l m node stored : m !! node = Some stored →
  total_len l m = total_len l (delete node m) + entry_len node stored + (if (1 <? size m)%nat then 1 else 0).
Proof.
  intros Hm. unfold total_len. rewrite (sum_len_delete _ _ _ Hm), map_size_delete_Some by (by rewrite Hm).
  pose proof (map_size_ne_0_lookup_2 m node) as Hne. rewrite Hm in Hne. specialize (Hne ltac:(eauto)).
  destruct (Nat.ltb_spec 1 (size m)); lia.
Qed.

Definition entry_of (x : string * StoredReport) : N * string * N := (sr_stored_at_ms x.2, x.1, entry_len x.1 x.2).

Lemma shard_entries_perm m : shard_entries m ≡ₚ entry_of <$> map_to_list m.
Proof. unfold shard_entries. by rewrite bt_iter_perm. Qed.

Lemma encoded_len_total l m : encoded_len_of l m = total_len l m.
Proof.
  unfold encoded_len_of, total_len. f_equal; [f_equal|].
  - transitivity (foldr N.add 0 (snd <$> (entry_of <$> map_to_list m))).
    + apply foldr_add_perm. by rewrite shard_entries_perm.
    + unfold sum_len. rewrite map_fold_foldr. induction (map_to_list m) as [|[node stored] k IH]; [done|].
      cbn [fmap list_fmap foldr]. by rewrite IH.
  - by rewrite shard_entries_perm, length_fmap, length_map_to_list.
Qed.

Lemma shard_entries_cons m t node len entries : shard_entries m ≡ₚ (t, node, len) :: entries →
  ∃ stored, m !! node = Some stored ∧ t = sr_stored_at_ms stored ∧ len = entry_len node stored
    ∧ shard_entries (delete node m) ≡ₚ entries.
Proof.
  intros Hp. assert ((t, node, len) ∈ shard_entries m) as Hin by (rewrite Hp; constructor).
  rewrite shard_entries_perm in Hin. apply list_elem_of_fmap in Hin as ([node' stored] & Heq & Hin).
  injection Heq as -> -> ->. apply elem_of_map_to_list in Hin. exists stored. split_and!; [done..|].
  apply (Permutation_cons_inv (a := entry_of (node', stored))). transitivity (shard_entries m); [|done].
  rewrite !shard_entries_perm. by rewrite <- (map_to_list_delete m _ _ Hin).
Qed.

(** What eviction leaves: it fits, nothing was dropped that could stay, and whatever was dropped
    comes before everything kept in the order of eviction. *)
Record fits l m kept (evicted : nat) : Prop := mkFits {
  fits_sub : kept ⊆ m;
  fits_count : (evicted + size kept = size m)%nat;
  fits_len : total_len l kept <= MAX_FLEET_REPORT_SHARD_BYTES;
  fits_all : total_len l m <= MAX_FLEET_REPORT_SHARD_BYTES → kept = m;
  fits_oldest : ∀ node stored node' stored', kept !! node = Some stored → m !! node' = Some stored' →
    kept !! node' = None → evict_le (sr_stored_at_ms stored', node') (sr_stored_at_ms stored, node);
}.

Lemma evict_fits l entries : ∀ m n,
  total_len l ∅ <= MAX_FLEET_REPORT_SHARD_BYTES → shard_entries m ≡ₚ entries →
  Sorted (λ x y : N * string * N, evict_le x.1 y.1) entries →
  ∃ kept evicted, evict entries m (total_len l m) n = (kept, (n + evicted)%nat) ∧ fits l m kept evicted.
Proof.
  induction entries as [|[[t node] len] entries IH]; intros m n Hbase Hp Hs.
  { assert (m = ∅) as ->.
    { apply map_to_list_empty_iff. apply Permutation_nil. rewrite shard_entries_perm in Hp.
      symmetry in Hp. apply Permutation_nil in Hp. by destruct (map_to_list m). }
    exists ∅, 0%nat. simpl. rewrite Nat.add_0_r. split; [done|]. by split. }
  cbn [evict]. destruct (N.leb_spec (total_len l m) MAX_FLEET_REPORT_SHARD_BYTES) as [Hle|Hgt].
  { exists m, 0%nat. rewrite Nat.add_0_r. split; [done|]. split; [done|lia|done|done|congruence]. }
  apply shard_entries_cons in Hp as (stored & Hm & -> & -> & Hp).
  pose proof (total_len_delete l m node stored Hm) as Hlen.
  destruct (IH (delete node m) (S n)) as (kept & evicted & He & Hf); [done|done|by inversion Hs|].
  exists kept, (S evicted). split.
  { replace (n + S evicted)%nat with (S n + evicted)%nat by lia. rewrite <- He. f_equal. lia. }
  destruct Hf as [Hsub Hcount Hl _ Hold]. split; [|..|done|lia|].
  - etrans; [done|]. apply delete_subseteq.
  - rewrite map_size_delete_Some in Hcount by (by rewrite Hm).
    pose proof (map_size_ne_0_lookup_2 m node) as Hne. rewrite Hm in Hne. specialize (Hne ltac:(eauto)). lia.
  - intros node1 stored1 node2 stored2 Hk1 Hk2 Hk3. destruct (decide (node2 = node)) as [->|Hne].
    + rewrite Hm in Hk2. injection Hk2 as <-.
      assert (delete node m !! node1 = Some stored1) as Hin by (eapply lookup_weaken; done).
      apply Sorted_StronglySorted in Hs; [|intros x y z; apply evict_le_trans].
      apply StronglySorted_inv in Hs as [_ Hall]. rewrite Forall_forall in Hall.
      apply (Hall (entry_of (node1, stored1))). rewrite <- Hp, shard_entries_perm.
      apply list_elem_of_fmap. exists (node1, stored1). split; [done|]. by apply elem_of_map_to_list.
    + apply (Hold _ _ node2 stored2 Hk1); [|done]. by rewrite lookup_delete_ne.
Qed.

(** ** Headers *)

Lemma total_len_empty l : str_len (sl_generation l) = 32 → string_forallb is_hex_byte (sl_generation l) = true → (sl_shard l < 64)%nat →
  total_len l ∅ = 82 + str_len (pretty (sl_shard l)).
Proof.
  intros Hlen Hhex Hn. unfold total_len, shard_document. rewrite shard_header_len by done.
  unfold sum_len. rewrite map_fold_empty, map_size_empty. lia.
Qed.

Lemma shard_digits (n : nat) : (n < 64)%nat → str_len (pretty n) <= 2.
Proof.
  intros Hn. assert (forallb (λ n : nat, str_len (pretty n) <=? 2) (seq 0 64) = true) as Hall by by vm_compute.
  rewrite forallb_forall in Hall. apply N.leb_le, Hall, in_seq. lia.
Qed.

(** The location of a shard in some well-formed index. *)
Definition sound_location l : Prop := generation_ok (sl_generation l) = true ∧ (sl_shard l < 64)%nat.

Lemma sound_location_base l : sound_location l → total_len l ∅ <= MAX_FLEET_REPORT_SHARD_BYTES.
Proof.
  intros [Hg Hn]. apply andb_true_iff in Hg as [Hlen Hhex]. apply N.eqb_eq in Hlen.
  rewrite total_len_empty by done. apply shard_digits in Hn. unfold MAX_FLEET_REPORT_SHARD_BYTES. lia.
Qed.

(** The header of a shard is as long in every generation. *)
Lemma total_len_generation l l' m : sound_location l → sound_location l' → sl_shard l = sl_shard l' →
  total_len l m = total_len l' m.
Proof.
  intros [[Hlen Hhex]%andb_true_iff Hn1] [[Hlen' Hhex']%andb_true_iff Hn2] Heq. apply N.eqb_eq in Hlen, Hlen'.
  assert (∀ l, total_len l m = total_len l ∅ + sum_len m + (N.of_nat (size m) - 1)) as Hsplit.
  { intros l0. unfold total_len. unfold sum_len at 2. rewrite map_fold_empty, map_size_empty. lia. }
  rewrite (Hsplit l), (Hsplit l'), !total_len_empty by done. by rewrite Heq.
Qed.

Lemma fit_shard_fits l m : sound_location l →
  ∃ kept evicted, fit_shard m l = (kept, evicted) ∧ fits l m kept evicted.
Proof.
  intros Hl. unfold fit_shard. rewrite encoded_len_total.
  destruct (evict_fits l (merge_sort (λ x y : N * string * N, evict_le x.1 y.1) (shard_entries m)) m 0)
    as (kept & evicted & He & Hf); [by apply sound_location_base|by rewrite merge_sort_Permutation| |by eauto].
  apply Sorted_merge_sort. intros x y. apply evict_le_total.
Qed.

(** ** Reading back *)

(** What a reader accepts of a shard's reports. *)
Definition readable l m : FleetReports := filter (λ x, entry_readable l x.1 x.2 = true) m.

Lemma read_entries l values m : omap stored_from_value values = m → map_imap (read_entry l) values = readable l m.
Proof.
  intros <-. apply map_eq. intros node. unfold readable. rewrite map_lookup_imap, map_lookup_filter, lookup_omap.
  destruct (values !! node) as [v|]; [|done]. simpl. unfold read_entry.
  destruct (stored_from_value v) as [stored|]; simpl; [|done]. by destruct (entry_readable l node stored).
Qed.

Lemma encode_shard_reads_back l m : sound_location l →
  ∃ kept evicted, fit_shard m l = (kept, evicted) ∧ fits l m kept evicted ∧ (encode_shard m l).2 = evicted
    ∧ str_len (encode_shard m l).1 <= MAX_FLEET_REPORT_SHARD_BYTES
    ∧ parse_shard (encode_shard m l).1 l = Some (readable l kept).
Proof.
  intros Hl. destruct (fit_shard_fits l m Hl) as (kept & evicted & He & Hf). exists kept, evicted.
  unfold encode_shard. rewrite He. simpl. rewrite total_len_body. pose proof (fits_len _ _ _ _ Hf) as Hlen.
  split_and!; [done..|]. unfold parse_shard. rewrite total_len_body. apply N.leb_le in Hlen as ->.
  destruct (shard_reads_back SHARD_SCHEMA (sl_generation l) (sl_shard l) kept) as (values & Hv & Hvalues).
  unfold shard_document. rewrite Hv. simpl. rewrite bool_decide_eq_true_2, Nat.eqb_refl by done. simpl.
  by rewrite (read_entries l values kept).
Qed.

End sizes.

(** ** Placement *)

Section placement.
Context `{!ReportParts} `{!Semver} `{!Signed} `{!Sha256} `{!JsonValues} `{!FleetJson}.
Abbreviation FleetReports := (BTreeMap StoredReport).
Implicit Types (m : FleetReports).

Lemma shard_for_lt node n : (0 < n)%nat → (shard_for node n < n)%nat.
Proof.
  intros Hn. unfold shard_for. pose proof (N.mod_lt (from_hex 0 (String.substring 0 16 (node_object_digest node))) (N.of_nat n)). lia.
Qed.

(** The digits the placement reads are all hexadecimal. *)
Lemma placement_digits node :
  String.length (String.substring 0 16 (node_object_digest node)) = 16%nat
  ∧ string_forallb (λ c, bool_decide (is_Some (hex_digit c))) (String.substring 0 16 (node_object_digest node)) = true.
Proof.
  unfold node_object_digest. pose proof (sha256_canonical node) as Hc. unfold is_canonical_sha256 in Hc.
  apply andb_true_iff in Hc as [Hlen Hhex]. apply Nat.eqb_eq in Hlen. revert Hlen Hhex. generalize (sha256_bytes node) as s.
  assert (∀ n s, (n <= String.length s)%nat → string_forallb is_hex_byte s = true →
    String.length (String.substring 0 n s) = n
    ∧ string_forallb (λ c, bool_decide (is_Some (hex_digit c))) (String.substring 0 n s) = true) as Hgo;
    [|intros s Hlen; apply Hgo; lia].
  induction n as [|n IH]; intros [|c s] Hn Hs; simpl in Hn; try lia; [done..|]. cbn [string_forallb] in Hs.
  apply andb_true_iff in Hs as [Hc Hs]. destruct (IH s ltac:(lia) Hs) as [Hl Hd]. cbn [String.substring String.length string_forallb].
  rewrite Hl, Hd. split; [done|]. rewrite andb_true_r. apply bool_decide_eq_true.
  destruct c as [[] [] [] [] [] [] [] []]; vm_compute in Hc; try discriminate Hc; vm_compute; eauto.
Qed.

(** The reports of one shard. *)
Definition bin (n i : nat) m : FleetReports := filter (λ x, shard_for x.1 n = i) m.

Lemma bin_lookup n i m node : bin n i m !! node = if decide (shard_for node n = i) then m !! node else None.
Proof. unfold bin. rewrite map_lookup_filter. destruct (m !! node) as [v|]; simpl; by repeat case_guard || case_decide. Qed.

Lemma bin_insert n i m node stored : shard_for node n = i → bin n i (<[node := stored]> m) = <[node := stored]> (bin n i m).
Proof. intros <-. unfold bin. by rewrite map_filter_insert_True. Qed.

Lemma bin_insert_ne n i m node stored : shard_for node n ≠ i → bin n i (<[node := stored]> m) = bin n i m.
Proof. intros Hne. unfold bin. rewrite map_filter_insert_False, map_filter_delete_not; naive_solver. Qed.

Lemma bin_delete n i m node : bin n i (delete node m) = delete node (bin n i m).
Proof. unfold bin. by rewrite map_filter_delete. Qed.

Lemma bin_delete_ne n i m node : shard_for node n ≠ i → bin n i (delete node m) = bin n i m.
Proof. intros Hne. unfold bin. rewrite map_filter_delete_not; naive_solver. Qed.

Lemma place_bins n l : ∀ bins m, (0 < n)%nat → NoDup l.*1 → (∀ x, x ∈ l → m !! x.1 = None) →
  length bins = n → (∀ i, (i < n)%nat → bins !! i = Some (bin n i m)) →
  ∃ bins', place n bins l = Some bins' ∧ length bins' = n
    ∧ ∀ i, (i < n)%nat → bins' !! i = Some (bin n i (list_to_map l ∪ m)).
Proof.
  induction l as [|[node stored] l IH]; intros bins m Hn Hnd Hfresh Hlen Hb; cbn [place].
  { exists bins. rewrite list_to_map_nil, (left_id_L ∅ (∪)). done. }
  pose proof (shard_for_lt node n Hn) as Hlt. rewrite (Hb _ Hlt). cbn [mbind option_bind].
  apply NoDup_cons in Hnd as [Hnot Hnd].
  destruct (IH (<[shard_for node n := <[node := stored]> (bin n (shard_for node n) m)]> bins) (<[node := stored]> m))
    as (bins' & Hp & Hl & Hb'); [done|done| |by rewrite length_insert| |].
  - intros [node' stored'] Hx. simpl. rewrite lookup_insert_ne; [apply (Hfresh (node', stored')); by constructor|].
    intros ->. apply Hnot, list_elem_of_fmap. by exists (node', stored').
  - intros i Hi. destruct (decide (shard_for node n = i)) as [Heq|Hne].
    + subst i. rewrite list_lookup_insert_eq by lia. by rewrite bin_insert.
    + rewrite list_lookup_insert_ne by done. rewrite bin_insert_ne by done. by apply Hb.
  - exists bins'. split_and!; [done..|]. intros i Hi. rewrite (Hb' i Hi). do 2 f_equal. simpl.
    rewrite <- insert_union_l, <- insert_union_r; [done|]. by apply not_elem_of_list_to_map.
Qed.

Lemma list_to_map_bt_iter {V} (m : BTreeMap V) : list_to_map (bt_iter m) = m.
Proof. apply map_eq. intros k. rewrite (list_to_map_proper _ (map_to_list m)); [by rewrite list_to_map_to_list|apply NoDup_bt_keys|apply bt_iter_perm]. Qed.

(** ** Generations *)

Lemma encode_bins_spec bins locations :
  encode_bins bins locations
  = ((λ x, (x.2, (encode_shard x.1 x.2).1)) <$> zip bins locations,
     sum_list ((λ x, (encode_shard x.1 x.2).2) <$> zip bins locations)).
Proof.
  unfold encode_bins. induction (zip bins locations) as [|[b l] k IH]; [done|].
  cbn [foldr fmap list_fmap sum_list fst snd]. rewrite IH. by destruct (encode_shard b l).
Qed.

(** The index of a new generation. *)
Definition fresh_index (random : string) (n : nat) : FleetIndex := mkFleetIndex FleetIndex_SCHEMA (hex_encode random) n None.

Definition shard_at (random : string) (n i : nat) : FleetShardLocation := mkFleetShardLocation (hex_encode random) i n.

Lemma hex_encode_ok random : String.length random = 16%nat → generation_ok (hex_encode random) = true.
Proof.
  intros Hr. unfold generation_ok. rewrite str_len_length.
  assert (∀ s, String.length (hex_encode s) = (2 * String.length s)%nat) as ->.
  { induction s as [|c s IH]; [done|]. cbn [hex_encode String.length]. rewrite IH. lia. }
  rewrite Hr. simpl. clear Hr. induction random as [|c s IH]; [done|]. cbn [hex_encode string_forallb]. rewrite IH, andb_true_r.
  destruct c as [[] [] [] [] [] [] [] []]; by vm_compute.
Qed.

Lemma fresh_index_valid random n : String.length random = 16%nat → in_shard_range n = true →
  FleetIndex_valid (fresh_index random n) = true.
Proof. intros Hr Hn. unfold FleetIndex_valid, fresh_index. simpl. by rewrite hex_encode_ok, Hn. Qed.

Lemma shard_at_sound random n i : String.length random = 16%nat → in_shard_range n = true → (i < n)%nat →
  sound_location (shard_at random n i).
Proof.
  intros Hr Hn Hi. split; [by apply hex_encode_ok|]. apply andb_true_iff in Hn as [_ Hn]. apply Nat.leb_le in Hn.
  unfold MAX_FLEET_REPORT_SHARDS in Hn. simpl. lia.
Qed.

Lemma rebalance_spec random m limit : String.length random = 16%nat → in_shard_range (shard_limit limit) = true →
  let n := shard_limit limit in
  match rebalance (Some random) m limit with
  | None => False
  | Some (inl e) => FleetIndex_encode (fresh_index random n) = inl e
  | Some (inr g) =>
      fg_index g = fresh_index random n ∧ FleetIndex_parse (fg_index_body g) = Some (fg_index g)
      ∧ fg_shards g = (λ i, (shard_at random n i, (encode_shard (bin n i m) (shard_at random n i)).1)) <$> seq 0 n
      ∧ fg_evicted g = sum_list ((λ i, (encode_shard (bin n i m) (shard_at random n i)).2) <$> seq 0 n)
  end.
Proof.
  intros Hr Hn n. unfold rebalance. fold n.
  assert (0 < n)%nat as Hpos by (apply andb_true_iff in Hn as [Hn _]; apply Nat.leb_le in Hn; unfold n; lia).
  destruct (place_bins n (bt_iter m) (replicate n ∅) ∅) as (bins & Hp & Hlen & Hb); [done|apply NoDup_bt_keys|done
    |by rewrite length_replicate|intros i Hi; rewrite lookup_replicate_2 by done; f_equal; symmetry; apply map_filter_empty|].
  rewrite Hp. cbn [mbind option_bind]. change (mkFleetIndex _ _ _ _) with (fresh_index random n).
  destruct (FleetIndex_encode (fresh_index random n)) as [e|body] eqn:He; [done|]. cbn [mbind sum_bind].
  rewrite encode_bins_spec.
  assert (zip bins (shard_locations (fresh_index random n)) = (λ i, (bin n i m, shard_at random n i)) <$> seq 0 n) as ->.
  { assert (bins = (λ i, bin n i m) <$> seq 0 n) as ->.
    - apply list_eq_same_length with n; [by rewrite length_fmap, length_seq|done|]. intros i x y Hi Hx Hy.
      rewrite Hb, list_to_map_bt_iter, (right_id_L ∅ (∪)) in Hx by done.
      rewrite list_lookup_fmap, lookup_seq_lt in Hy by done. simpl in Hy. congruence.
    - unfold shard_locations. cbn [fi_max_shards fi_generation fresh_index]. clear. induction (seq 0 n) as [|i k IH]; [done|]. cbn. f_equal. exact IH. }
  cbn [fg_index fg_index_body fg_shards fg_evicted]. split; [done|].
  rewrite <- !list_fmap_compose. split; [|by split].
  unfold FleetIndex_parse. unfold FleetIndex_encode in He. by rewrite (bounded_roundtrip _ _ _ _ He); simpl; rewrite fresh_index_valid.
Qed.

End placement.

(** ** The buffer keeps what the writer would keep *)

#[export] Instance evict_le_antisym : AntiSymm (=) evict_le.
Proof.
  intros [a k] [b k'] [H1|[H1 H1']] [H2|[H2 H2']]; simpl in *; try lia. f_equal; [done|]. by apply (anti_symm key_le).
Qed.

Lemma pop_first_min s x : x ∈ s → (∀ y, y ∈ s → evict_le x y) → pop_first s = Some (x, s ∖ {[x]}).
Proof.
  intros Hx Hmin. unfold pop_first. destruct (merge_sort evict_le (elements s)) as [|h k] eqn:Hs.
  { exfalso. apply elem_of_elements in Hx. rewrite <- (merge_sort_Permutation evict_le), Hs in Hx. by apply not_elem_of_nil in Hx. }
  assert (h = x) as ->; [|done]. assert (Sorted evict_le (h :: k)) as Hsorted by (rewrite <- Hs; by apply Sorted_merge_sort, _).
  apply Sorted_StronglySorted in Hsorted; [|apply _]. apply StronglySorted_inv in Hsorted as [_ Hall]. rewrite Forall_forall in Hall.
  assert (∀ y, y ∈ s ↔ y ∈ h :: k) as Hin by (intros y; by rewrite <- Hs, merge_sort_Permutation, elem_of_elements).
  apply (anti_symm evict_le); [|by apply Hmin, Hin; left]. apply Hin, elem_of_cons in Hx as [->|Hx]; [|by apply Hall].
  by destruct (total evict_le h h).
Qed.

Section buffer.
Context `{!ReportParts} `{!Semver} `{!Signed} `{!Sha256} `{!JsonValues} `{!FleetJson}.
Abbreviation FleetReports := (BTreeMap StoredReport).
Implicit Types (m : FleetReports) (l : FleetShardLocation) (b : FleetReportBuffer) (sh : BufferedFleetShard).

Definition order_of m : gset (N * string) := list_to_set ((λ x, (sr_stored_at_ms x.2, x.1)) <$> map_to_list m).

Lemma elem_of_order m t node : (t, node) ∈ order_of m ↔ ∃ stored, m !! node = Some stored ∧ t = sr_stored_at_ms stored.
Proof.
  unfold order_of. rewrite elem_of_list_to_set, list_elem_of_fmap. split.
  - intros ([node' stored] & [= -> ->] & Hin%elem_of_map_to_list). eauto.
  - intros (stored & Hin & ->). exists (node, stored). split; [done|]. by apply elem_of_map_to_list.
Qed.

Lemma size_order m : size (order_of m) = size m.
Proof.
  unfold order_of. rewrite size_list_to_set, length_fmap, length_map_to_list; [done|].
  apply (NoDup_fmap_1 snd). rewrite <- list_fmap_compose. apply NoDup_fst_map_to_list.
Qed.

Lemma order_delete m node stored : m !! node = Some stored →
  order_of (delete node m) = order_of m ∖ {[(sr_stored_at_ms stored, node)]}.
Proof.
  intros Hm. apply set_eq. intros [t k]. rewrite elem_of_difference, elem_of_singleton, !elem_of_order.
  setoid_rewrite lookup_delete_Some. split.
  - intros (s & [Hne Hk] & ->). split; [eauto|]. intros [= _ ->]. done.
  - intros [(s & Hk & ->) Hne]. exists s. split; [|done]. split; [|done]. intros ->. rewrite Hm in Hk. congruence.
Qed.

Lemma order_insert m node stored : m !! node = None →
  order_of (<[node := stored]> m) = {[(sr_stored_at_ms stored, node)]} ∪ order_of m.
Proof.
  intros Hm. apply set_eq. intros [t k]. rewrite elem_of_union, elem_of_singleton, !elem_of_order.
  setoid_rewrite lookup_insert_Some. split.
  - intros (s & [[<- <-]|[Hne Hk]] & ->); [by left|right; eauto].
  - intros [[= -> ->]|(s & Hk & ->)]; [eauto|]. exists s. split; [|done]. right. split; [|done]. congruence.
Qed.

(** The accounting of one shard. *)
Definition shard_ok l m sh : Prop :=
  bs_eviction_order sh = order_of m ∧ bs_encoded_len sh = total_len l m.

(** The first of the order is the first of the sorted entries. *)
Lemma pop_oldest m node stored entries : m !! node = Some stored →
  shard_entries m ≡ₚ entry_of (node, stored) :: entries →
  Sorted (λ x y : N * string * N, evict_le x.1 y.1) (entry_of (node, stored) :: entries) →
  pop_first (order_of m) = Some ((sr_stored_at_ms stored, node), order_of (delete node m)).
Proof.
  intros Hm Hp Hs. rewrite (order_delete _ _ _ Hm). apply pop_first_min; [apply elem_of_order; eauto|].
  intros [t k] Hin. apply Sorted_StronglySorted in Hs; [|intros x y z; apply evict_le_trans].
  apply StronglySorted_inv in Hs as [_ Hall]. rewrite Forall_forall in Hall. apply elem_of_order in Hin as (s & Hk & ->).
  assert (entry_of (k, s) ∈ entry_of (node, stored) :: entries) as Hin.
  { rewrite <- Hp, shard_entries_perm. apply list_elem_of_fmap. exists (k, s). split; [done|]. by apply elem_of_map_to_list. }
  apply elem_of_cons in Hin as [[= -> ->]|Hin]; [|by apply (Hall _ Hin)].
  by destruct (total evict_le (sr_stored_at_ms stored, node) (sr_stored_at_ms stored, node)).
Qed.

Lemma size_delete_S m node stored : m !! node = Some stored → S (size (delete node m)) = size m.
Proof.
  intros Hm. rewrite map_size_delete_Some by eauto. pose proof (map_size_ne_0_lookup_2 m node) as Hne.
  rewrite Hm in Hne. specialize (Hne ltac:(eauto)). lia.
Qed.

(** The loop over the ordered set is the writer's loop over the sorted entries. *)
Lemma evict_oldest_evict n l entries : ∀ fuel reports sh ev,
  sound_location l → shard_entries (bin n (sl_shard l) reports) ≡ₚ entries →
  Sorted (λ x y : N * string * N, evict_le x.1 y.1) entries → (length entries ≤ fuel)%nat →
  shard_ok l (bin n (sl_shard l) reports) sh →
  ∃ reports' sh' ev', evict_oldest fuel reports sh ev = Some (reports', sh', ev')
    ∧ evict entries (bin n (sl_shard l) reports) (total_len l (bin n (sl_shard l) reports)) ev = (bin n (sl_shard l) reports', ev')
    ∧ shard_ok l (bin n (sl_shard l) reports') sh' ∧ bs_encoded_len sh' <= MAX_FLEET_REPORT_SHARD_BYTES
    ∧ ∀ i, i ≠ sl_shard l → bin n i reports' = bin n i reports.
Proof.
  induction entries as [|[[t node] len] entries IH]; intros fuel reports sh ev Hl Hp Hs Hfuel [Ho Hlen].
  all: assert (bs_encoded_len sh <= MAX_FLEET_REPORT_SHARD_BYTES → ∃ reports' sh' ev', evict_oldest fuel reports sh ev = Some (reports', sh', ev')
    ∧ (bin n (sl_shard l) reports, ev) = (bin n (sl_shard l) reports', ev')
    ∧ shard_ok l (bin n (sl_shard l) reports') sh' ∧ bs_encoded_len sh' <= MAX_FLEET_REPORT_SHARD_BYTES
    ∧ ∀ i, i ≠ sl_shard l → bin n i reports' = bin n i reports) as Hstop
    by (intros Hle; exists reports, sh, ev; split; [destruct fuel; simpl; by apply N.leb_le in Hle as ->|by split_and!]).
  { cbn [evict]. apply Hstop. rewrite Hlen.
    assert (bin n (sl_shard l) reports = ∅) as ->; [|by apply sound_location_base].
    apply map_to_list_empty_iff. rewrite shard_entries_perm in Hp. symmetry in Hp. apply Permutation_nil in Hp.
    by destruct (map_to_list _). }
  cbn [evict]. rewrite <- Hlen. destruct (N.leb_spec (bs_encoded_len sh) MAX_FLEET_REPORT_SHARD_BYTES) as [Hle|Hgt]; [by apply Hstop|].
  clear Hstop. pose proof Hp as Hp0. apply shard_entries_cons in Hp as (stored & Hm & -> & -> & Hp).
  rewrite <- bin_delete in Hp. destruct fuel as [|fuel]; [simpl in Hfuel; lia|]. cbn [evict_oldest].
  apply N.leb_gt in Hgt as ->. rewrite Ho, (pop_oldest _ node stored entries) by done.
  cbn [mbind option_bind]. rewrite size_order. rewrite bin_lookup in Hm.
  destruct (decide (shard_for node n = sl_shard l)) as [Hshard|]; [|done]. rewrite Hm. cbn [mbind option_bind].
  assert (bin n (sl_shard l) reports !! node = Some stored) as Hb by (rewrite bin_lookup; by rewrite decide_True).
  pose proof (total_len_delete l _ _ _ Hb) as Htotal.
  pose proof (size_delete_S _ _ _ Hb) as Hsize.
  rewrite Hsize. unfold checked_sub. rewrite (proj2 (N.leb_le _ _)) by (rewrite Hlen; lia). cbn [mbind option_bind].
  destruct (IH fuel (delete node reports) (mkBufferedFleetShard
      (bs_encoded_len sh - (entry_len node stored + (if (1 <? size (bin n (sl_shard l) reports))%nat then 1 else 0)))
      (order_of (delete node (bin n (sl_shard l) reports)))) (S ev))
    as (reports' & sh' & ev' & He & Hw & Hok & Hle & Hothers); [done|done|by inversion Hs|simpl in Hfuel; lia| |].
  { split; simpl; rewrite bin_delete; [done|]. rewrite Hlen. lia. }
  exists reports', sh', ev'. split; [done|]. split.
  { rewrite <- Hw, bin_delete. f_equal. rewrite Hlen. lia. }
  split_and!; [done..|]. intros i Hi. rewrite Hothers by done. apply bin_delete_ne. congruence.
Qed.

(** ** Recording one report *)

Definition accounted (n i : nat) : FleetShardLocation := mkFleetShardLocation accounting_generation i n.

Lemma accounted_sound n i : in_shard_range n = true → (i < n)%nat → sound_location (accounted n i).
Proof.
  intros [_ Hn]%andb_true_iff Hi. apply Nat.leb_le in Hn. unfold MAX_FLEET_REPORT_SHARDS in Hn. split; [done|]. simpl. lia.
Qed.

(** Every shard is accounted for exactly, and fits. *)
Record buffer_ok b : Prop := mkBufferOk {
  bo_range : in_shard_range (shard_limit (fb_max_shards b)) = true;
  bo_length : length (fb_shards b) = shard_limit (fb_max_shards b);
  bo_shards : ∀ i sh, fb_shards b !! i = Some sh →
    shard_ok (accounted (shard_limit (fb_max_shards b)) i) (bin (shard_limit (fb_max_shards b)) i (fb_reports b)) sh
    ∧ bs_encoded_len sh <= MAX_FLEET_REPORT_SHARD_BYTES;
}.

Lemma buffer_new_ok limit : in_shard_range (shard_limit limit) = true → buffer_ok (buffer_new limit).
Proof.
  intros Hn. split; [done|by simpl; unfold shard_locations; rewrite !length_fmap, length_seq|].
  intros i sh Hi. simpl in *. unfold shard_locations in Hi. simpl in Hi. rewrite <- list_fmap_compose, list_lookup_fmap in Hi.
  apply fmap_Some in Hi as (j & Hj & ->). apply lookup_seq in Hj as [-> Hj]. cbn [compose].
  change (mkFleetShardLocation accounting_generation (0 + i) (shard_limit limit)) with (accounted (shard_limit limit) i).
  unfold bin. rewrite map_filter_empty. pose proof (accounted_sound _ _ Hn Hj) as Hl.
  destruct (encode_shard_reads_back (accounted (shard_limit limit) i) ∅ Hl) as (kept & ev & _ & Hf & _ & Hlen & _).
  split; [|exact Hlen]. split; [done|]. simpl. unfold encode_shard.
  destruct (fit_shard_fits (accounted (shard_limit limit) i) ∅ Hl) as (kept' & ev' & -> & Hf'). simpl.
  rewrite total_len_body. by rewrite (fits_all _ _ _ _ Hf' (sound_location_base _ Hl)).
Qed.

Lemma total_len_insert l m node stored : m !! node = None →
  total_len l (<[node := stored]> m) = (if (0 <? size m)%nat then total_len l m + 1 else total_len l m) + entry_len node stored.
Proof.
  intros Hm. unfold total_len. rewrite sum_len_insert, map_size_insert_None by done. destruct (Nat.ltb_spec 0 (size m)); lia.
Qed.

Lemma total_len_replace l m node previous stored : m !! node = Some previous →
  entry_len node previous <= total_len l m
  ∧ total_len l (<[node := stored]> m) = total_len l m - entry_len node previous + entry_len node stored.
Proof.
  intros Hm. rewrite <- (insert_delete_eq m). unfold total_len. rewrite sum_len_insert by apply lookup_delete_eq.
  rewrite (sum_len_delete _ _ _ Hm), map_size_insert_None by apply lookup_delete_eq.
  rewrite (size_delete_S _ _ _ Hm). lia.
Qed.

Lemma order_replace m node previous stored : m !! node = Some previous →
  order_of (<[node := stored]> m)
  = {[(sr_stored_at_ms stored, node)]} ∪ order_of m ∖ {[(sr_stored_at_ms previous, node)]}.
Proof. intros Hm. rewrite <- (insert_delete_eq m), order_insert by apply lookup_delete_eq. by rewrite (order_delete _ _ _ Hm). Qed.

(** Recording is eviction from a shard whose accounting covers the new report. *)
Lemma buffer_record_step b a sh :
  let n := shard_limit (fb_max_shards b) in let i := shard_for (ar_node a) n in
  let stored := (into_stored a).2 in let m := <[ar_node a := stored]> (bin n i (fb_reports b)) in
  fb_shards b !! i = Some sh → shard_ok (accounted n i) (bin n i (fb_reports b)) sh →
  buffer_record b a =
    '(reports, shard, evicted) ←
      evict_oldest (size (order_of m)) (<[ar_node a := stored]> (fb_reports b))
        (mkBufferedFleetShard (total_len (accounted n i) m) (order_of m)) 0;
    Some (mkFleetReportBuffer reports (fb_max_shards b) (<[i := shard]> (fb_shards b)), evicted).
Proof.
  intros n i stored m Hsh [Ho Hlen]. unfold buffer_record. cbn [into_stored]. fold n. fold i. rewrite Hsh. cbn [mbind option_bind].
  change (mkStoredReport (ar_stored_at_ms a) (ar_envelope a)) with stored. rewrite Ho, size_order.
  assert (fb_reports b !! ar_node a = bin n i (fb_reports b) !! ar_node a) as -> by (rewrite bin_lookup; by rewrite decide_True).
  destruct (bin n i (fb_reports b) !! ar_node a) as [previous|] eqn:Hm.
  - destruct (total_len_replace (accounted n i) _ _ _ stored Hm) as [Hsub Htotal]. unfold checked_sub.
    rewrite Hlen, (proj2 (N.leb_le _ _) Hsub). cbn [mbind option_bind].
    by rewrite <- Htotal, <- (order_replace _ _ _ stored Hm).
  - cbn [mbind option_bind]. by rewrite Hlen, <- (total_len_insert (accounted n i) _ _ stored Hm), <- (order_insert _ _ stored Hm).
Qed.

Lemma shard_for_in_range b a : buffer_ok b → (shard_for (ar_node a) (shard_limit (fb_max_shards b)) < shard_limit (fb_max_shards b))%nat.
Proof. intros Hb. apply shard_for_lt. destruct (proj1 (andb_true_iff _ _) (bo_range _ Hb)) as [Hr%Nat.leb_le _]. lia. Qed.

(** The buffer after one report, and what its shard keeps of it. *)
Lemma buffer_record_spec b a : buffer_ok b →
  let n := shard_limit (fb_max_shards b) in let i := shard_for (ar_node a) n in
  ∃ b' ev, buffer_record b a = Some (b', ev) ∧ buffer_ok b' ∧ fb_max_shards b' = fb_max_shards b
    ∧ fit_shard (<[ar_node a := (into_stored a).2]> (bin n i (fb_reports b))) (accounted n i) = (bin n i (fb_reports b'), ev)
    ∧ ∀ j, j ≠ i → bin n j (fb_reports b') = bin n j (fb_reports b).
Proof.
  intros Hb n i. pose proof (shard_for_in_range b a Hb) as Hi. fold n in Hi. fold i in Hi. destruct Hb as [Hrange Hlength Hshards].
  destruct (lookup_lt_is_Some_2 (fb_shards b) i) as [sh Hsh]; [by rewrite Hlength|].
  destruct (Hshards _ _ Hsh) as [Hok Hle]. pose proof (accounted_sound n i Hrange Hi) as Hl.
  rewrite (buffer_record_step b a sh Hsh Hok). fold n. fold i.
  set (stored := (into_stored a).2). set (m := <[ar_node a := stored]> (bin n i (fb_reports b))).
  assert (bin n i (<[ar_node a := stored]> (fb_reports b)) = m) as Hbin by by apply bin_insert.
  destruct (evict_oldest_evict n (accounted n i)
      (merge_sort (λ x y : N * string * N, evict_le x.1 y.1) (shard_entries m)) (size (order_of m))
      (<[ar_node a := stored]> (fb_reports b)) (mkBufferedFleetShard (total_len (accounted n i) m) (order_of m)) 0)
    as (reports' & sh' & ev & He & Hw & Hok' & Hle' & Hothers); [done|simpl; by rewrite Hbin, merge_sort_Permutation
    |apply Sorted_merge_sort; intros x y; apply evict_le_total
    |by rewrite merge_sort_Permutation, shard_entries_perm, length_fmap, length_map_to_list, size_order|simpl; by rewrite Hbin|].
  simpl in Hw, Hok', Hothers. rewrite Hbin in Hw. rewrite He. cbn [mbind option_bind].
  eexists _, ev. split; [done|]. simpl. split_and!; [|done|by unfold fit_shard; rewrite encoded_len_total|].
  - split; [done|by simpl; rewrite length_insert|]. simpl. intros j sh1 Hj. fold n. destruct (decide (i = j)) as [<-|Hne].
    + rewrite list_lookup_insert_eq in Hj by (rewrite Hlength; done). by injection Hj as <-.
    + rewrite list_lookup_insert_ne in Hj by done. apply Hshards in Hj. fold n in Hj. by rewrite Hothers, bin_insert_ne by done.
  - intros j Hj. rewrite Hothers by done. by apply bin_insert_ne.
Qed.

(** Any number of reports. *)
Fixpoint record_all (b : FleetReportBuffer) (accepted : list AcceptedReport) : option FleetReportBuffer :=
  match accepted with
  | [] => Some b
  | a :: accepted => '(b, _) ← buffer_record b a; record_all b accepted
  end.

Lemma record_all_ok accepted : ∀ b, buffer_ok b →
  ∃ b', record_all b accepted = Some b' ∧ buffer_ok b' ∧ fb_max_shards b' = fb_max_shards b.
Proof.
  induction accepted as [|a accepted IH]; intros b Hb; [by exists b|].
  destruct (buffer_record_spec b a Hb) as (b1 & ev & Hr & Hb1 & Hlimit & _). destruct (IH b1 Hb1) as (b2 & Hr2 & Hb2 & Hl2).
  exists b2. cbn [record_all]. rewrite Hr. cbn [mbind option_bind]. by rewrite Hl2.
Qed.

Lemma fit_shard_generation m l l' : sound_location l → sound_location l' → sl_shard l = sl_shard l' → fit_shard m l = fit_shard m l'.
Proof. intros. unfold fit_shard. rewrite !encoded_len_total. by rewrite (total_len_generation l l') by done. Qed.

Lemma buffered_shard_fits random b i : buffer_ok b → String.length random = 16%nat → (i < shard_limit (fb_max_shards b))%nat →
  fit_shard (bin (shard_limit (fb_max_shards b)) i (fb_reports b)) (shard_at random (shard_limit (fb_max_shards b)) i)
  = (bin (shard_limit (fb_max_shards b)) i (fb_reports b), 0%nat).
Proof.
  intros [Hrange Hlength Hshards] Hr Hi. destruct (lookup_lt_is_Some_2 (fb_shards b) i) as [sh Hsh]; [by rewrite Hlength|].
  destruct (Hshards _ _ Hsh) as [[_ Hlen] Hle]. rewrite Hlen in Hle.
  pose proof (shard_at_sound random _ i Hr Hrange Hi) as Hl. pose proof (accounted_sound _ i Hrange Hi) as Ha.
  rewrite (total_len_generation _ _ _ Ha Hl) in Hle by done.
  destruct (fit_shard_fits _ (bin (shard_limit (fb_max_shards b)) i (fb_reports b)) Hl) as (kept & ev & -> & Hf).
  pose proof (fits_all _ _ _ _ Hf Hle) as ->. pose proof (fits_count _ _ _ _ Hf). f_equal. lia.
Qed.

(** The ingress buffer agrees with the writer: recording reports one at a time never panics,
    each report leaves in its shard exactly the entries the writer's encoder would keep of that
    shard with the report in it and in every other shard what was there, it counts the same
    evictions, and the generation written from a drained buffer evicts nothing. *)
Lemma buffer_agrees_with_the_writer limit accepted :
  in_shard_range (shard_limit limit) = true →
  ∃ b, record_all (buffer_new limit) accepted = Some b ∧
    (∀ a, ∃ b' evicted, buffer_record b a = Some (b', evicted) ∧
      let n := shard_limit limit in let i := shard_for (ar_node a) n in
      (∀ random, String.length random = 16%nat →
         encode_shard (<[ar_node a := (into_stored a).2]> (bin n i (fb_reports b))) (shard_at random n i)
         = ((encode_shard (bin n i (fb_reports b')) (shard_at random n i)).1, evicted))
      ∧ ∀ j, j ≠ i → bin n j (fb_reports b') = bin n j (fb_reports b)) ∧
    (∀ random g, String.length random = 16%nat →
       rebalance (Some random) (buffer_drain b).1 limit = Some (inr g) → fg_evicted g = 0%nat).
Proof.
  intros Hrange. destruct (record_all_ok accepted (buffer_new limit)) as (b & Hb & Hok & Hlimit); [by apply buffer_new_ok|].
  simpl in Hlimit. exists b. split; [done|]. split.
  - intros a. destruct (buffer_record_spec b a Hok) as (b' & ev & Hr & Hok' & Hlimit' & Hfit & Hothers).
    rewrite Hlimit in *. exists b', ev. split; [done|]. split; [|done]. intros random Hrandom.
    pose proof (shard_for_in_range b a Hok) as Hi. rewrite Hlimit in Hi.
    pose proof (buffered_shard_fits random b' _ Hok' Hrandom ltac:(by rewrite Hlimit')) as Hkeep. rewrite Hlimit' in Hkeep.
    unfold encode_shard. rewrite Hkeep.
    rewrite (fit_shard_generation _ (shard_at random _ _) (accounted (shard_limit limit) (shard_for (ar_node a) (shard_limit limit))));
      [by rewrite Hfit|by apply shard_at_sound|by apply accounted_sound|done].
  - intros random g Hrandom Hg. pose proof (rebalance_spec random (fb_reports b) limit Hrandom Hrange) as Hspec.
    change (buffer_drain b).1 with (fb_reports b) in Hg. rewrite Hg in Hspec. destruct Hspec as (_ & _ & _ & ->). unfold encode_shard.
    assert (∀ k, (∀ i, i ∈ k → (i < shard_limit limit)%nat) → sum_list ((λ i, (encode_shard (bin (shard_limit limit) i (fb_reports b))
      (shard_at random (shard_limit limit) i)).2) <$> k) = 0%nat) as Hsum; [|apply Hsum; intros i Hi%elem_of_seq; lia].
    induction k as [|i k IH]; intros Hk; [done|]. cbn [fmap list_fmap sum_list]. rewrite IH by (intros; apply Hk; by constructor).
    unfold encode_shard. pose proof (buffered_shard_fits random b i Hok Hrandom) as Hkeep. rewrite Hlimit in Hkeep.
    rewrite Hkeep; [done|]. apply Hk. constructor.
Qed.

End buffer.
