(* ===== verification/IpAddr.v ===== *)
(** * IpAddr: addresses as the standard library reads and writes them

    [std::net::IpAddr]: the recursive-descent reader of [from_str], the canonical text of [Display]
    and the derived order.  Octets and segments are [N]. *)
From stdpp Require Import pretty.
From S2P Require Import Prelude Identity Maps.

#[local] Open Scope N_scope.

Inductive IpAddr : Type :=
| V4 (octets : list N)      (** four of them *)
| V6 (segments : list N).   (** eight of them *)

#[export] Instance IpAddr_eq_dec : EqDecision IpAddr.
Proof. solve_decision. Defined.

(** ** Reading *)

(** A reader consumes a prefix of the text, or fails and consumes nothing. *)
Definition Reader (A : Type) : Type := string → option (A * string).

Definition given_char (c : Ascii.ascii) : Reader unit := λ s,
  match s with
  | String d rest => if decide (d = c) then Some (tt, rest) else None
  | EmptyString => None
  end.

Definition digit_value (radix : N) (c : Ascii.ascii) : option N :=
  let n := Ascii.N_of_ascii c in
  let value := if (48 <=? n) && (n <=? 57) then Some (n - 48)
               else if (97 <=? n) && (n <=? 122) then Some (n - 87)
               else if (65 <=? n) && (n <=? 90) then Some (n - 55) else None in
  match value with Some v => if v <? radix then Some v else None | None => None end.

(** The digits of a number, at most [room] of them and at most [max] in value. *)
Fixpoint digits (radix max : N) (room : nat) (acc : N) (count : nat) (s : string) : option (N * nat * string) :=
  match s with
  | EmptyString => Some (acc, count, s)
  | String c rest =>
      match digit_value radix c with
      | None => Some (acc, count, s)
      | Some d =>
          match room with
          | O => None
          | S room =>
              if (acc * radix + d <=? max) then digits radix max room (acc * radix + d) (S count) rest else None
          end
      end
  end.

(** [read_number] *)
Definition read_number (radix max : N) (max_digits : nat) (allow_zero_prefix : bool) : Reader N := λ s,
  let leading_zero := match s with String "0"%char _ => true | _ => false end in
  match digits radix max max_digits 0 0 s with
  | Some (value, count, rest) =>
      if (count =? 0)%nat then None
      else if negb allow_zero_prefix && leading_zero && (1 <? count)%nat then None
      else Some (value, rest)
  | None => None
  end.

(** [read_separator]: the separator comes before every item but the first. *)
Definition read_separator {A} (sep : Ascii.ascii) (index : nat) (r : Reader A) : Reader A := λ s,
  match index with
  | O => r s
  | S _ => match given_char sep s with Some (_, rest) => r rest | None => None end
  end.

Fixpoint read_octets (index room : nat) (s : string) : option (list N * string) :=
  match room with
  | O => Some ([], s)
  | S room =>
      '(octet, rest) ← read_separator "." index (read_number 10 255 3 false) s;
      '(octets, rest) ← read_octets (S index) room rest;
      Some (octet :: octets, rest)
  end.

Definition read_ipv4_addr : Reader (list N) := read_octets 0 4.

(** [read_groups]: up to [limit] segments, the last two possibly as a dotted quad, and whether
    they were. *)
Fixpoint read_groups (limit index : nat) (s : string) : list N * bool * string :=
  match limit with
  | O => ([], false, s)
  | S limit' =>
      let quad := if (0 <? limit')%nat then read_separator ":" index read_ipv4_addr s else None in
      match quad with
      | Some ([a; b; c; d], rest) => ([256 * a + b; 256 * c + d], true, rest)
      | _ =>
          match read_separator ":" index (read_number 16 65535 4 true) s with
          | None => ([], false, s)
          | Some (group, rest) =>
              let '(groups, ipv4, rest) := read_groups limit' (S index) rest in (group :: groups, ipv4, rest)
          end
      end
  end.

Definition read_ipv6_addr : Reader (list N) := λ s,
  let '(head, head_ipv4, rest) := read_groups 8 0 s in
  if (length head =? 8)%nat then Some (head, rest)
  else if head_ipv4 then None
  else
    '(_, rest) ← given_char ":" rest;
    '(_, rest) ← given_char ":" rest;
    let '(tail, _, rest) := read_groups (8 - (length head + 1)) 0 rest in
    Some (head ++ replicate (8 - length head - length tail) 0 ++ tail, rest).

(** [parse_with]: the whole text must be consumed. *)
Definition parse_with {A} (r : Reader A) (s : string) : option A :=
  match r s with Some (a, EmptyString) => Some a | _ => None end.

Definition parse_ipv4 (s : string) : option (list N) :=
  if (15 <? String.length s)%nat then None else parse_with read_ipv4_addr s.

Definition parse_ipv6 (s : string) : option (list N) := parse_with read_ipv6_addr s.

Definition parse_ip (s : string) : option IpAddr :=
  parse_with (λ s, match read_ipv4_addr s with
                   | Some (octets, rest) => Some (V4 octets, rest)
                   | None => '(segments, rest) ← read_ipv6_addr s; Some (V6 segments, rest)
                   end) s.

(** ** Writing *)

Definition hex_nibble (n : N) : Ascii.ascii := Ascii.ascii_of_N (if n <? 10 then 48 + n else 87 + n).

(** [{:x}] of a [u16]. *)
Definition lower_hex (n : N) : string :=
  if n <? 16 then String (hex_nibble n) EmptyString
  else if n <? 256 then String (hex_nibble (n / 16)) (String (hex_nibble (n mod 16)) EmptyString)
  else if n <? 4096 then String (hex_nibble (n / 256)) (String (hex_nibble (n / 16 mod 16)) (String (hex_nibble (n mod 16)) EmptyString))
  else String (hex_nibble (n / 4096)) (String (hex_nibble (n / 256 mod 16))
         (String (hex_nibble (n / 16 mod 16)) (String (hex_nibble (n mod 16)) EmptyString))).

Definition display_ipv4 (octets : list N) : string := String.concat "." (pretty <$> octets).

(** The first longest run of zero segments: its start and its length. *)
Fixpoint longest_zeroes (index : nat) (longest current : nat * nat) (segments : list N) : nat * nat :=
  match segments with
  | [] => longest
  | segment :: segments =>
      if segment =? 0 then
        let current := (if (current.2 =? 0)%nat then index else current.1, S current.2) in
        longest_zeroes (S index) (if (longest.2 <? current.2)%nat then current else longest) current segments
      else longest_zeroes (S index) longest (0%nat, 0%nat) segments
  end.

Definition display_ipv6 (segments : list N) : string :=
  match segments with
  | [0; 0; 0; 0; 0; 65535; ab; cd] =>
      String.append "::ffff:" (display_ipv4 [ab / 256; ab mod 256; cd / 256; cd mod 256])
  | _ =>
      let '(start, len) := longest_zeroes 0 (0%nat, 0%nat) (0%nat, 0%nat) segments in
      let text := λ l, String.concat ":" (lower_hex <$> l) in
      if (1 <? len)%nat
      then String.append (text (take start segments)) (String.append "::" (text (drop (start + len) segments)))
      else text segments
  end.

Definition display_ip (ip : IpAddr) : string :=
  match ip with V4 octets => display_ipv4 octets | V6 segments => display_ipv6 segments end.

(** ** The derived order *)

Fixpoint octets_leb (a b : list N) : bool :=
  match a, b with
  | [], _ => true
  | _ :: _, [] => false
  | x :: a, y :: b => (x <? y) || ((x =? y) && octets_leb a b)
  end.

Definition ip_leb (a b : IpAddr) : bool :=
  match a, b with
  | V4 a, V4 b | V6 a, V6 b => octets_leb a b
  | V4 _, V6 _ => true
  | V6 _, V4 _ => false
  end.

(** ** Examples *)

Example ip_texts :
  (λ s, display_ip <$> parse_ip s) <$>
    ["10.0.0.7"; "10.0.0.07"; "1.2.3"; "::1"; "2001:DB8:0:0:1:0:0:1"; "::ffff:1.2.3.4"; "1:2:3:4:5:6:7:8"; "1::2::3";
     "::"; "fe80::1%0"; "1:2:3:4:5:6:1.2.3.4"; "01:0:0:0:0:0:0:0"; "256.1.1.1"]%string
  = [Some "10.0.0.7"; None; None; Some "::1"; Some "2001:db8::1:0:0:1"; Some "::ffff:1.2.3.4"; Some "1:2:3:4:5:6:7:8"; None;
     Some "::"; None; Some "1:2:3:4:5:6:102:304"; Some "1::"; None]%string.
Proof. by vm_compute. Qed.
