(* ===== verification/Backend.v ===== *)
(** * Backend: the inventory a load balancer is driven from

    Models [updated-contracts/src/backend.rs]: the members of a backend, their validation, the fixed
    split into shards and the assembly that refuses anything but one complete revision.  Text is
    UTF-8 bytes; JSON is a parameter. *)
From S2P Require Import Prelude Identity Maps Releases Dataflow Telemetry Window Rollout Assign.
From S2P Require Import Assignment Groups Publication Inputs Inventory Enroll Publish IpAddr.

#[local] Open Scope N_scope.

Definition BACKEND_INVENTORY_SCHEMA : N := 2.
Definition BACKEND_INVENTORY_SHARDS : nat := 8.
Definition BACKEND_INVENTORY_SHARD_MAX_BYTES : N := 900 * 1024.

(** ** Names and addresses *)

Definition is_ascii_whitespace (c : ascii) : bool := byte_in 9 13 c || byte_in 32 32 c.

(** The encodings of the other white space: U+0085, U+00A0; U+1680, U+2000 to U+200A, U+2028, U+2029,
    U+202F, U+205F and U+3000. *)
Definition two_byte_space (c d : ascii) : bool := byte_in 194 194 c && (byte_in 133 133 d || byte_in 160 160 d).
Definition three_byte_space (c d e : ascii) : bool :=
  (byte_in 225 225 c && byte_in 154 154 d && byte_in 128 128 e)
  || (byte_in 226 226 c && byte_in 128 128 d && (byte_in 128 138 e || byte_in 168 169 e || byte_in 175 175 e))
  || (byte_in 226 226 c && byte_in 129 129 d && byte_in 159 159 e)
  || (byte_in 227 227 c && byte_in 128 128 d && byte_in 128 128 e).

(** [contains(char::is_whitespace)] *)
Fixpoint contains_whitespace (s : string) : bool :=
  match s with
  | EmptyString => false
  | String c rest =>
      is_ascii_whitespace c
      || match rest with
         | String d (String e _) => two_byte_space c d || three_byte_space c d e
         | String d EmptyString => two_byte_space c d
         | EmptyString => false
         end
      || contains_whitespace rest
  end.

Definition is_balancer_safe (name : string) : bool :=
  negb (bool_decide (name = EmptyString))
  && negb (string_existsb (λ c, bool_decide (c = ";"%char)) name) && negb (contains_whitespace name).

Definition is_host_label (label : string) : bool :=
  negb (bool_decide (label = EmptyString)) && (String.length label <=? 63)%nat
  && string_forallb (λ c, is_ascii_alphanumeric c || bool_decide (c = "-"%char)) label
  && match String.get 0 label with Some c => is_ascii_alphanumeric c | None => false end
  && match string_last label with Some c => is_ascii_alphanumeric c | None => false end.

(** [routable_host] *)
Definition routable_host (address : string) : option string :=
  match parse_ip address with
  | Some ip => Some (display_ip ip)
  | None =>
      if string_existsb (λ c, bool_decide (c ∈ [":"; "["; "]"]%char)) address then None
      else
        let host := default address (strip_suffix "." address) in
        if negb (bool_decide (host = EmptyString)) && (String.length host <=? 253)%nat
           && forallb is_host_label (split_on "." EmptyString host)
           && negb (string_forallb (λ c, is_ascii_digit c || bool_decide (c = "."%char)) host)
        then Some host else None
  end.

(** [SocketAddr::from_str] for its port: [a.b.c.d:port] or [[ipv6]:port], the latter with an
    optional numeric scope. *)
Definition read_port : Reader N := λ s, '(_, rest) ← given_char ":" s; read_number 10 65535 (String.length s) true rest.

Definition read_scope : Reader unit := λ s,
  match given_char "%" s with
  | Some (_, rest) => match read_number 10 4294967295 (String.length s) true rest with Some (_, rest) => Some (tt, rest) | None => Some (tt, s) end
  | None => Some (tt, s)
  end.

Definition parse_socket_port (s : string) : option N :=
  parse_with (λ s,
    match ('(_, rest) ← read_ipv4_addr s; read_port rest) with
    | Some r => Some r
    | None =>
        '(_, rest) ← given_char "[" s;
        '(_, rest) ← read_ipv6_addr rest;
        '(_, rest) ← read_scope rest;
        '(_, rest) ← given_char "]" rest;
        read_port rest
    end) s.

(** [is_tcp_endpoint]; [port.parse::<u16>()] is the [u64] parser within range. *)
Definition is_tcp_endpoint (endpoint : string) : bool :=
  match parse_socket_port endpoint with
  | Some port => negb (port =? 0)
  | None =>
      match rsplit_once ":" endpoint with
      | None => false
      | Some (host, port) =>
          negb (string_existsb (λ c, bool_decide (c = ":"%char)) host)
          && match parse_u64 port with Some p => (p <=? 65535) && negb (p =? 0) | None => false end
          && bool_decide (is_Some (routable_host host))
      end
  end.

(** ** Members *)

Section backend.
Context `{!ReportParts} `{!Semver} `{!Signed} `{!Curve} `{!Sha256}.

Inductive BackendInventoryMember : Type :=
| Active (node address : string) (public_key : P256PublicKey)
| Cordoned (node : string).

#[export] Instance BackendInventoryMember_eq_dec : EqDecision BackendInventoryMember.
Proof. solve_decision. Defined.

Definition member_node (m : BackendInventoryMember) : string :=
  match m with Active node _ _ | Cordoned node => node end.
Definition is_cordoned (m : BackendInventoryMember) : bool :=
  match m with Cordoned _ => true | Active _ _ _ => false end.
Definition member_public_key (m : BackendInventoryMember) : option P256PublicKey :=
  match m with Active _ _ key => Some key | Cordoned _ => None end.
Definition member_address (m : BackendInventoryMember) : option string :=
  match m with Active _ address _ => Some address | Cordoned _ => None end.

Inductive BackendError : Type :=
| BNode (node : string)
| BUnroutable (node address : string)
| BNotCanonical (node address canonical : string)
| BPublicKey (node : string) (e : P256KeyError)
| BTooMany (members : nat)
| BUnordered (node prior : string)
| BShardEncoding (index : nat)
| BShardTooLarge (index : nat) (bytes : N)
| BShardCount (shards : nat)
| BMixedRevisions
| BWrongRevision.

Definition member_validate (m : BackendInventoryMember) : BackendError + BackendInventoryMember :=
  let node := member_node m in
  _ ← demand (is_balancer_safe node) (BNode node);
  match m with
  | Active _ address _ =>
      canonical ← ok_or (routable_host address) (BUnroutable node address);
      _ ← demand (bool_decide (canonical = address)) (BNotCanonical node address canonical);
      inr m
  | Cordoned _ => inr m
  end.

(** [active] and [cordoned]; a [ResourceName] is a DNS subdomain. *)
Definition member_active (node address public_key : string) : BackendError + BackendInventoryMember :=
  _ ← demand (is_dns_subdomain node) (BNode node);
  address ← ok_or (routable_host address) (BUnroutable node address);
  public_key ← map_err (BPublicKey node) (parse_hex public_key);
  member_validate (Active node address public_key).

Definition member_cordoned (node : string) : BackendError + BackendInventoryMember :=
  _ ← demand (is_dns_subdomain node) (BNode node);
  member_validate (Cordoned node).

(** ** Shards *)

Record BackendInventoryShard : Type := mkBackendInventoryShard {
  bi_version : N;
  bi_revision : string;
  bi_index : nat;
  bi_shards : nat;
  bi_members : list BackendInventoryMember;
}.

(** serde_json on inventories; a list of members always encodes. *)
Class BackendJson : Type := {
  members_to_vec : list BackendInventoryMember → string;
  members_to_vec_inj : ∀ a b, members_to_vec a = members_to_vec b → a = b;
  shard_json :: Serde BackendInventoryShard;
}.
Context `{!BackendJson}.

Definition backend_inventory_revision (members : list BackendInventoryMember) : string :=
  sha256_bytes (members_to_vec members).

(** The check of one member after the one before it. *)
Fixpoint validate_ordered (previous : option string) (members : list BackendInventoryMember) : BackendError + unit :=
  match members with
  | [] => inr tt
  | member :: members =>
      _ ← member_validate member;
      _ ← match previous with
          | Some prior => demand (String.ltb prior (member_node member)) (BUnordered (member_node member) prior)
          | None => inr tt
          end;
      validate_ordered (Some (member_node member)) members
  end.

Definition validate_backend_inventory_members (members : list BackendInventoryMember) : BackendError + unit :=
  _ ← demand (length members <=? MAX_BACKEND_INVENTORY_MEMBERS)%nat (BTooMany (length members));
  validate_ordered None members.

Definition div_ceil (a b : nat) : nat := ((a + b - 1) / b)%nat.

(** [members.get(range).unwrap_or_default()]: a range that starts past the end is no slice. *)
Definition shard_members (members : list BackendInventoryMember) (chunk_size index : nat) : list BackendInventoryMember :=
  let start := (index * chunk_size)%nat in let stop := Nat.min ((index + 1) * chunk_size) (length members) in
  if (start <=? stop)%nat then take (stop - start) (drop start members) else [].

Definition check_shard (shard : BackendInventoryShard) : BackendError + unit :=
  bytes ← ok_or (to_vec shard) (BShardEncoding (bi_index shard));
  demand (str_len bytes <=? BACKEND_INVENTORY_SHARD_MAX_BYTES) (BShardTooLarge (bi_index shard) (str_len bytes)).

Definition shard_backend_inventory (members : list BackendInventoryMember) : BackendError + list BackendInventoryShard :=
  _ ← validate_backend_inventory_members members;
  let revision := backend_inventory_revision members in
  let shard_count := BACKEND_INVENTORY_SHARDS in
  let chunk_size := Nat.max (div_ceil (length members) shard_count) 1 in
  let shards := (λ index, mkBackendInventoryShard BACKEND_INVENTORY_SCHEMA revision index shard_count
                            (shard_members members chunk_size index)) <$> seq 0 shard_count in
  _ ← each check_shard shards;
  inr shards.

Definition index_le (a b : BackendInventoryShard) : Prop := (bi_index a ≤ bi_index b)%nat.

#[export] Instance index_le_dec a b : Decision (index_le a b).
Proof. unfold index_le. apply _. Defined.

(** One shard of the sorted projection at its place. *)
Definition shard_in_place (revision : string) (x : nat * BackendInventoryShard) : bool :=
  (bi_version x.2 =? BACKEND_INVENTORY_SCHEMA) && (bi_index x.2 =? x.1)%nat
  && (bi_shards x.2 =? BACKEND_INVENTORY_SHARDS)%nat && bool_decide (bi_revision x.2 = revision).

(** [assemble_backend_inventory]; the sort is stable. *)
Definition assemble_backend_inventory (shards : list BackendInventoryShard) : BackendError + list BackendInventoryMember :=
  _ ← demand (length shards =? BACKEND_INVENTORY_SHARDS)%nat (BShardCount (length shards));
  let shards := merge_sort index_le shards in
  revision ← ok_or (bi_revision <$> head shards) (BShardCount 0);
  _ ← each (λ x, demand (shard_in_place revision x) BMixedRevisions) (zip (seq 0 (length shards)) shards);
  let members := shards ≫= bi_members in
  _ ← demand (bool_decide (backend_inventory_revision members = revision)) BWrongRevision;
  _ ← validate_backend_inventory_members members;
  inr members.

End backend.

(** ** The projection round trip *)

Section projection.
Context `{!ReportParts} `{!Semver} `{!Signed} `{!Curve} `{!Sha256} `{!BackendJson}.
Implicit Types (members : list BackendInventoryMember) (shards seen : list BackendInventoryShard).

Lemma shard_members_take members c n : (0 < c)%nat →
  (seq 0 n ≫= shard_members members c) = take (n * c) members.
Proof.
  intros Hc. induction n as [|n IH]; [done|].
  rewrite seq_S, bind_app, IH. cbn [mbind list_bind]. rewrite app_nil_r. unfold shard_members. simpl.
  replace (c + n * c)%nat with (n * c + c)%nat by lia. replace ((n + 1) * c)%nat with (n * c + c)%nat by lia.
  destruct (Nat.leb_spec (n * c) (Nat.min (n * c + c) (length members))) as [Hle|Hgt].
  - transitivity (take (Nat.min (n * c + c) (length members)) members).
    + rewrite take_take_drop. f_equal. lia.
    + destruct (Nat.min_spec (n * c + c) (length members)) as [[? ->]|[? ->]]; [done|]. by rewrite !take_ge by lia.
  - rewrite app_nil_r, !take_ge by lia. done.
Qed.

Lemma div_ceil_mul a b : (0 < b)%nat → (a ≤ b * div_ceil a b)%nat.
Proof.
  intros Hb. unfold div_ceil. pose proof (Nat.div_mod (a + b - 1) b ltac:(lia)). pose proof (Nat.mod_upper_bound (a + b - 1) b ltac:(lia)). lia.
Qed.

(** The shards of an inventory. *)
Definition shard_of members (index : nat) : BackendInventoryShard :=
  mkBackendInventoryShard BACKEND_INVENTORY_SCHEMA (backend_inventory_revision members) index BACKEND_INVENTORY_SHARDS
    (shard_members members (Nat.max (div_ceil (length members) BACKEND_INVENTORY_SHARDS) 1) index).

Lemma shard_backend_inventory_inr members shards :
  shard_backend_inventory members = inr shards →
  validate_backend_inventory_members members = inr tt ∧ shards = shard_of members <$> seq 0 BACKEND_INVENTORY_SHARDS.
Proof. unfold shard_backend_inventory. intros Hs. sum_inv. by destruct_and?. Qed.

Lemma shard_of_members members : (seq 0 BACKEND_INVENTORY_SHARDS ≫= λ i, bi_members (shard_of members i)) = members.
Proof.
  cbn [shard_of bi_members]. rewrite shard_members_take by lia. apply take_ge.
  pose proof (div_ceil_mul (length members) BACKEND_INVENTORY_SHARDS ltac:(unfold BACKEND_INVENTORY_SHARDS; lia)). nia.
Qed.

Lemma sorted_seq n : ∀ i, Sorted le (seq i n).
Proof.
  induction n as [|n IH]; intros i; [constructor|]. cbn [seq]. constructor; [apply IH|]. destruct n; constructor. lia.
Qed.

(** Shards in any order sort to the order they were split in. *)
Lemma sorted_shards members seen n : seen ≡ₚ shard_of members <$> seq 0 n →
  merge_sort index_le seen = shard_of members <$> seq 0 n.
Proof.
  intros Hp. rewrite <- (merge_sort_Permutation index_le seen) in Hp.
  assert (Sorted index_le (merge_sort index_le seen)) as Hs by (apply Sorted_merge_sort; intros x y; unfold index_le; lia).
  revert Hp Hs. generalize (merge_sort index_le seen) as k. intros k Hp Hs.
  assert (k = shard_of members <$> (bi_index <$> k)) as Hk.
  { assert (∀ x, x ∈ k → x = shard_of members (bi_index x)) as Hall.
    { intros x Hx. rewrite Hp in Hx. by apply list_elem_of_fmap in Hx as (i & -> & _). }
    clear Hp Hs. induction k as [|x k IH]; [done|]. simpl. f_equal; [apply Hall; by constructor|].
    apply IH. intros y Hy. apply Hall. by constructor. }
  rewrite Hk. f_equal. apply (Sorted_unique le).
  - by apply (Sorted_fmap bi_index index_le).
  - apply sorted_seq.
  - rewrite Hp, <- list_fmap_compose. by rewrite list_fmap_id.
Qed.

Lemma assemble_shards members seen : validate_backend_inventory_members members = inr tt →
  seen ≡ₚ shard_of members <$> seq 0 BACKEND_INVENTORY_SHARDS → assemble_backend_inventory seen = inr members.
Proof.
  intros Hv Hp. unfold assemble_backend_inventory.
  assert (length seen = BACKEND_INVENTORY_SHARDS) as -> by (by rewrite Hp, length_fmap, length_seq).
  rewrite (sorted_shards members seen BACKEND_INVENTORY_SHARDS Hp), length_fmap, length_seq.
  assert ((shard_of members <$> seq 0 BACKEND_INVENTORY_SHARDS) ≫= bi_members = members) as ->.
  { transitivity (seq 0 BACKEND_INVENTORY_SHARDS ≫= λ i, bi_members (shard_of members i)); [|apply shard_of_members].
    clear Hp. induction (seq 0 BACKEND_INVENTORY_SHARDS) as [|i k IH]; [done|].
    rewrite fmap_cons, !bind_cons. by rewrite IH. }
  change (head (shard_of members <$> seq 0 BACKEND_INVENTORY_SHARDS)) with (Some (shard_of members 0)).
  rewrite Nat.eqb_refl. cbn [demand fmap option_fmap option_map ok_or mbind sum_bind].
  rewrite (proj2 (each_inr _ _ tt)).
  - cbn. rewrite bool_decide_eq_true_2 by done. cbn. by rewrite Hv.
  - intros [i shard] Hx. apply demand_inr. unfold shard_in_place. simpl. apply elem_of_lookup_zip_with in Hx as (j & i' & s' & Heq & Hi & Hs).
    injection Heq as <- <-. apply lookup_seq in Hi as [-> Hj]. rewrite list_lookup_fmap, lookup_seq_lt in Hs by done.
    injection Hs as <-. simpl. by rewrite !Nat.eqb_refl, bool_decide_eq_true_2.
Qed.

(** What assembly accepts is one revision throughout. *)
Lemma assemble_inr seen members : assemble_backend_inventory seen = inr members →
  ∃ shard, shard ∈ seen ∧ bi_revision shard = backend_inventory_revision members.
Proof.
  unfold assemble_backend_inventory. intros Ha. sum_inv.
  match goal with Hh : _ <$> head _ = Some _ |- _ => apply fmap_Some in Hh as (shard & Hh & ->) end.
  exists shard. bool_to_prop. split; [|done]. rewrite <- (merge_sort_Permutation index_le seen).
  by apply head_Some_elem_of.
Qed.

(** A backend's inventory survives its projection and never tears: its shards, read back in
    any order, assemble to it; and whatever assembles from shards of several published inventories
    is one of them, unless two inventories that encode differently have the same SHA-256. *)
Lemma projected_inventory_never_tears (published : list (list BackendInventoryMember * list BackendInventoryShard)) :
  (∀ members shards, (members, shards) ∈ published → shard_backend_inventory members = inr shards) →
  (∀ members shards seen, (members, shards) ∈ published → seen ≡ₚ shards → assemble_backend_inventory seen = inr members) ∧
  (∀ seen members, (∀ shard, shard ∈ seen → ∃ p, p ∈ published ∧ shard ∈ p.2) → assemble_backend_inventory seen = inr members →
     ∃ p, p ∈ published ∧ (members = p.1 ∨
       (members_to_vec members ≠ members_to_vec p.1 ∧ sha256_bytes (members_to_vec members) = sha256_bytes (members_to_vec p.1)))).
Proof.
  intros Hpub. split.
  - intros members shards seen Hin Hp. apply Hpub, shard_backend_inventory_inr in Hin as [Hv ->]. by apply assemble_shards.
  - intros seen members Hall Ha. apply assemble_inr in Ha as (shard & Hin & Hrev).
    apply Hall in Hin as ([members' shards] & Hp & Hs). exists (members', shards). split; [done|]. simpl in *.
    apply Hpub, shard_backend_inventory_inr in Hp as [_ ->]. apply list_elem_of_fmap in Hs as (i & -> & _). simpl in Hrev.
    destruct (decide (members_to_vec members = members_to_vec members')) as [Heq|Hne]; [left; by apply members_to_vec_inj|by right].
Qed.

End projection.
