(* ===== verification/HealthProxy.v ===== *)
(** * HealthProxy: load-balancer membership from signed reports

    Models [updated-healthproxy/src/lib.rs]: the inventory it re-reads every cycle, the fleet
    projection it fetches, the last-known-good cache that bridges its own outages, and the loop that
    programs the balancer with the full membership each time.  A cycle is everything the outside
    decides in it: what the inventory files and the URLs answer, what the clocks read, and how the
    balancer behaves.  Instants are nanoseconds of a monotonic clock.  Log lines are not modelled. *)
From S2P Require Import Prelude Identity Maps Releases Dataflow Telemetry Window Rollout Assign.
From S2P Require Import Assignment Groups Publication Inputs Inventory FleetReports IpAddr Backend.

#[local] Open Scope N_scope.

Record Member : Type := mkMember {
  mb_node : string;
  mb_address : string;
  mb_ready : bool;
}.

#[export] Instance Member_eq_dec : EqDecision Member.
Proof. solve_decision. Defined.

(** A balancer whose membership is reconciled: its state, what its environment does during one
    call, and whether the call came back with success before its deadline. *)
Class LoadBalancer : Type := {
  lb_state : Type;
  lb_env : Type;
  lb_reconcile : lb_env → list Member → lb_state → bool * lb_state;
}.

(** ** The last known good value *)

(** [LastKnownGood<T>] *)
Abbreviation LastKnownGood T := (BTreeMap (T * N)).

Definition STALENESS : N := REPORT_FRESHNESS * 1000000.

Section last_known_good.
Context {T : Type}.

Definition lkg_resolve (key : string) (fresh : option T) (now : N) (entries : LastKnownGood T) : option T * LastKnownGood T :=
  match fresh with
  | Some value => (Some value, <[key := (value, now)]> entries)
  | None =>
      match entries !! key with
      | None => (None, entries)
      | Some (value, observed) =>
          if STALENESS <? now - observed then (None, delete key entries) else (Some value, entries)
      end
  end.

Definition lkg_retain (keep : string → bool) (entries : LastKnownGood T) : LastKnownGood T :=
  filter (λ x, keep x.1 = true) entries.
End last_known_good.

(** ** Edges *)

Inductive Transition : Type := FirstOutOfPool | Joined | Left.

#[export] Instance Transition_eq_dec : EqDecision Transition.
Proof. solve_decision. Defined.

Definition classify_transition (previous : option bool) (ready : bool) : option Transition :=
  match previous, ready with
  | None, false => Some FirstOutOfPool
  | Some was, now => if Bool.eqb was now then None else Some (if now then Joined else Left)
  | _, _ => None
  end.

Record ProxyMetrics : Type := mkProxyMetrics {
  pm_backends_up : nat;
  pm_backends_drained : nat;
  pm_reports_stale_total : N;
  pm_reconcile_timestamp_seconds : N;
  pm_reports_timestamp_seconds : N;
}.

Section proxy.
Context `{!ReportParts} `{!Semver} `{!Signed} `{!Curve} `{!Sha256} `{!JsonValues} `{!FleetJson} `{!BackendJson}.
Context `{LB : !LoadBalancer} (claimed_payload : Envelope → option string) (health_base : string).

(** ** Reports *)

Definition report_is_ready (node : string) (public_key : P256PublicKey) (envelope : Envelope) (now_ms : N) : bool :=
  match (report ← authenticate_report envelope node public_key; authentic_fresh report now_ms) with
  | Some report => nr_healthy report
  | None => false
  end.

Definition drain_is_stale (now_ms : N) (envelope : option Envelope) : bool :=
  match envelope with
  | None => true
  | Some envelope => default false (report_staleness_for_observability claimed_payload envelope now_ms)
  end.

(** The active members' names. *)
Definition active_nodes (inventory : list BackendInventoryMember) : list string :=
  member_node <$> filter (λ m, is_cordoned m = false) inventory.

(** A GET that answered within its budget and its bound. *)
Definition get_bounded (fetch : string → option string) (limit : N) (url : string) : option string :=
  body ← fetch url;
  if str_len body <=? limit then Some body else None.

Definition fetch_fleet_reports (fetch : string → option string) (inventory : list BackendInventoryMember)
    : option (BTreeMap StoredReport) :=
  if forallb is_cordoned inventory then Some ∅
  else
    body ← get_bounded fetch MAX_FLEET_INDEX_BYTES (fleet_index_url health_base);
    index ← FleetIndex_parse body;
    let locations := shard_locations_for index (active_nodes inventory) in
    let shards := omap (λ location,
      body ← get_bounded fetch MAX_FLEET_REPORT_SHARD_BYTES (location_url location health_base);
      parse_shard body location) locations in
    if (0 <? length shards)%nat || (length locations =? 0)%nat then Some (foldl overlay ∅ shards) else None.

(** ** Inventory *)

Inductive InventoryError : Type :=
| IRead (index : nat)
| ITooLarge (index : nat)
| IDecode (index : nat)
| IInventory (e : BackendError).

(** [decode_inventory_shard] *)
Definition decode_inventory_shard (index : nat) (bytes : string) : InventoryError + BackendInventoryShard :=
  _ ← demand (str_len bytes <=? BACKEND_INVENTORY_SHARD_MAX_BYTES) (ITooLarge index);
  ok_or (from_slice bytes) (IDecode index).

Fixpoint load_shards (files : nat → option string) (indices : list nat) : InventoryError + list BackendInventoryShard :=
  match indices with
  | [] => inr []
  | index :: indices =>
      bytes ← ok_or (files index) (IRead index);
      _ ← demand (str_len bytes <=? BACKEND_INVENTORY_SHARD_MAX_BYTES) (IRead index);
      shard ← decode_inventory_shard index bytes;
      shards ← load_shards files indices;
      inr (shard :: shards)
  end.

(** [parse_inventory] *)
Fixpoint parse_inventory (members : list BackendInventoryMember) : BackendError + list BackendInventoryMember :=
  match members with
  | [] => inr []
  | member :: members =>
      member ← member_validate member;
      members ← parse_inventory members;
      inr (member :: members)
  end.

Definition load_inventory (files : nat → option string) : InventoryError + list BackendInventoryMember :=
  shards ← load_shards files (seq 0 BACKEND_INVENTORY_SHARDS);
  members ← map_err IInventory (assemble_backend_inventory shards);
  map_err IInventory (parse_inventory members).

(** ** One cycle *)

(** Per node, the clocks when its readiness is resolved and when its drain is classified. *)
Record Cycle : Type := mkCycle {
  cy_files : nat → option string;
  cy_fetch : string → option string;
  cy_instant : string → N;
  cy_now_ms : string → N;
  cy_drain_instant : string → N;
  cy_drain_now_ms : string → N;
  cy_end_ms : N;
  cy_balancer : lb_env;
}.

Record Proxy : Type := mkProxy {
  px_inventory : list BackendInventoryMember;
  px_previous : BTreeMap bool;
  px_cache : LastKnownGood Envelope;
  px_reports_usable : bool;
  px_inventory_error : bool;
  px_prior_drained : BTreeSet;
  px_metrics : ProxyMetrics;
  px_balancer : lb_state;
}.

Definition drained_nodes (inventory : list BackendInventoryMember) : BTreeSet :=
  list_to_set (member_node <$> filter (λ m, is_cordoned m = true) inventory).

Definition resolve_readiness (node : string) (public_key : P256PublicKey) (fresh : option Envelope) (instant now_ms : N)
    (cache : LastKnownGood Envelope) : bool * LastKnownGood Envelope :=
  let '(envelope, cache) := lkg_resolve node fresh instant cache in
  (option_some_and (λ e, report_is_ready node public_key e now_ms) envelope, cache).

(** [resolve_members], with the reports fetched this cycle. *)
Fixpoint resolve_each (c : Cycle) (fetched : option (BTreeMap StoredReport)) (inventory : list BackendInventoryMember)
    (cache : LastKnownGood Envelope) : list Member * LastKnownGood Envelope :=
  match inventory with
  | [] => ([], cache)
  | Active node address public_key :: inventory =>
      let fresh := fetched ≫= λ reports, (remove reports node).1 in
      let fetched := (λ reports, (remove reports node).2) <$> fetched in
      let '(ready, cache) := resolve_readiness node public_key fresh (cy_instant c node) (cy_now_ms c node) cache in
      let '(members, cache) := resolve_each c fetched inventory cache in
      (mkMember node address ready :: members, cache)
  | Cordoned node :: inventory =>
      let '(members, cache) := resolve_each c fetched inventory cache in
      (mkMember node EmptyString false :: members, cache)
  end.

Definition resolve_members (c : Cycle) (inventory : list BackendInventoryMember) (cache : LastKnownGood Envelope)
    : list Member * bool * LastKnownGood Envelope :=
  let fetched := fetch_fleet_reports (cy_fetch c) inventory in
  let '(members, cache) := resolve_each c fetched inventory cache in
  (members, bool_decide (is_Some fetched), cache).

(** The edges of a cycle: what is remembered, and which drains were of stale reports. *)
Fixpoint note_members (c : Cycle) (drained : BTreeSet) (members : list Member)
    (previous : BTreeMap bool) (cache : LastKnownGood Envelope) (stale : N) : BTreeMap bool * LastKnownGood Envelope * N :=
  match members with
  | [] => (previous, cache, stale)
  | member :: members =>
      let node := mb_node member in
      let transition := classify_transition (previous !! node) (mb_ready member) in
      let previous := <[node := mb_ready member]> previous in
      if bool_decide (transition = Some Left ∨ transition = Some FirstOutOfPool) && negb (bool_decide (node ∈ drained)) then
        let '(body, cache) := lkg_resolve node None (cy_drain_instant c node) cache in
        note_members c drained members previous cache
          (if drain_is_stale (cy_drain_now_ms c node) body then stale + 1 else stale)
      else note_members c drained members previous cache stale
  end.

(** The inventory of this cycle, with what is forgotten of nodes that left it. *)
Definition refresh_inventory (c : Cycle) (p : Proxy) : Proxy :=
  match load_inventory (cy_files c) with
  | inr inventory =>
      mkProxy inventory
        (filter (λ x, x.1 ∈ member_node <$> inventory) (px_previous p))
        (lkg_retain (λ node, bool_decide (node ∈ active_nodes inventory)) (px_cache p))
        (px_reports_usable p) false (px_prior_drained p) (px_metrics p) (px_balancer p)
  | inl _ =>
      mkProxy (px_inventory p) (px_previous p) (px_cache p) (px_reports_usable p) true (px_prior_drained p)
        (px_metrics p) (px_balancer p)
  end.

(** One turn of the loop of [run]: the membership programmed, and the proxy after it. *)
Definition run_cycle (p : Proxy) (c : Cycle) : list Member * Proxy :=
  let p := refresh_inventory c p in
  let drained := drained_nodes (px_inventory p) in
  let '(members, observed, cache) := resolve_members c (px_inventory p) (px_cache p) in
  let '(previous, cache, stale) :=
    note_members c drained members (px_previous p) cache (pm_reports_stale_total (px_metrics p)) in
  let reports_timestamp := if observed then cy_end_ms c / 1000 else pm_reports_timestamp_seconds (px_metrics p) in
  let '(programmed, balancer) := lb_reconcile (cy_balancer c) members (px_balancer p) in
  let metrics :=
    if programmed then
      let up := length (filter (λ m, mb_ready m = true) members) in
      mkProxyMetrics up (length members - up) stale (cy_end_ms c / 1000) reports_timestamp
    else mkProxyMetrics (pm_backends_up (px_metrics p)) (pm_backends_drained (px_metrics p)) stale
           (pm_reconcile_timestamp_seconds (px_metrics p)) reports_timestamp in
  (members, mkProxy (px_inventory p) previous cache observed (px_inventory_error p) drained metrics balancer).

(** The process before its first cycle, with the inventory its configuration was built from. *)
Definition proxy_start (inventory : list BackendInventoryMember) (balancer : lb_state) : Proxy :=
  mkProxy inventory ∅ ∅ true false (drained_nodes inventory) (mkProxyMetrics 0 0 0 0 0) balancer.

Fixpoint run_cycles (p : Proxy) (cycles : list Cycle) : Proxy :=
  match cycles with
  | [] => p
  | c :: cycles => run_cycles (run_cycle p c).2 cycles
  end.

(** The drain on shutdown. *)
Definition shut_down (env : lb_env) (p : Proxy) : bool * lb_state := lb_reconcile env [] (px_balancer p).

End proxy.

(** ** Loaded inventories name each node once *)

Lemma compare_refl a : String.compare a a = Eq.
Proof. pose proof (String.compare_antisym a a) as Ha. by destruct (String.compare a a). Qed.

#[export] Instance ltb_trans : Transitive (λ a b, String.ltb a b = true).
Proof.
  assert (∀ a b, String.ltb a b = true → key_le a b ∧ a ≠ b) as Hlt.
  { intros a b. unfold key_le, String.ltb, String.leb. destruct (String.compare a b) eqn:Hc; try done. intros _.
    split; [done|]. intros ->. by rewrite compare_refl in Hc. }
  assert (∀ a b, key_le a b → a ≠ b → String.ltb a b = true) as Hle.
  { intros a b. unfold key_le, String.ltb, String.leb. destruct (String.compare a b) eqn:Hc; try done.
    by apply String.compare_eq_iff in Hc. }
  intros a b c [Hab Hne]%Hlt [Hbc Hne']%Hlt. apply Hle; [by etrans|]. intros ->. apply Hne. by apply (anti_symm key_le).
Qed.

Lemma ltb_irrefl a : String.ltb a a = false.
Proof. unfold String.ltb. by rewrite compare_refl. Qed.

Section inventories.
Context `{!ReportParts} `{!Semver} `{!Signed} `{!Curve} `{!Sha256} `{!BackendJson}.

Lemma validate_ordered_sorted members : ∀ previous, validate_ordered previous members = inr tt →
  Sorted (λ a b, String.ltb a b = true) (member_node <$> members)
  ∧ (∀ prior, previous = Some prior → HdRel (λ a b, String.ltb a b = true) prior (member_node <$> members)).
Proof.
  induction members as [|m members IH]; intros previous Hv; [by repeat constructor|].
  cbn [validate_ordered] in Hv. sum_inv. destruct (IH _ Hv) as [Hs Hh]. split.
  - cbn [fmap list_fmap]. constructor; [done|by apply Hh].
  - intros prior ->. sum_inv. by constructor.
Qed.

Lemma parse_inventory_id members members' : parse_inventory members = inr members' → members' = members.
Proof.
  revert members'. induction members as [|m members IH]; intros members' Hp; cbn [parse_inventory] in Hp; sum_inv; [done|].
  f_equal; [|by apply IH]. match goal with Hm : member_validate m = _ |- _ => unfold member_validate in Hm; sum_inv;
    destruct m; sum_inv; done end.
Qed.

Lemma load_inventory_nodup files inventory : load_inventory files = inr inventory → NoDup (member_node <$> inventory).
Proof.
  unfold load_inventory. intros Hl. sum_inv. apply parse_inventory_id in Hl. rewrite Hl. clear Hl.
  match goal with Ha : assemble_backend_inventory _ = _ |- _ => unfold assemble_backend_inventory in Ha; sum_inv end.
  match goal with Hv : validate_backend_inventory_members _ = _ |- _ => unfold validate_backend_inventory_members in Hv; sum_inv;
    apply validate_ordered_sorted in Hv as [Hs _] end.
  apply Sorted_StronglySorted in Hs; [|apply _]. revert Hs. match goal with |- _ → NoDup ?l => generalize l end. clear.
  induction 1 as [|a l Hs IH Hall]; constructor; [|done]. intros Ha. rewrite Forall_forall in Hall.
  apply Hall in Ha. by rewrite ltb_irrefl in Ha.
Qed.
End inventories.

(** ** What a membership is, from the history alone *)

Section evidence.
Context `{!ReportParts} `{!Semver} `{!Signed} `{!Curve} `{!Sha256} `{!JsonValues} `{!FleetJson} `{!BackendJson}.
Context `{LB : !LoadBalancer} (claimed_payload : Envelope → option string) (health_base : string).
Context (initial : list BackendInventoryMember).
Implicit Types (c : Cycle) (history : list Cycle) (inventory : list BackendInventoryMember).

(** The newest cycle is first in a history.  The inventory is the last one that could be read. *)
Fixpoint inventory_at history : list BackendInventoryMember :=
  match history with
  | [] => initial
  | c :: older => match load_inventory (cy_files c) with inr inventory => inventory | inl _ => inventory_at older end
  end.

(** The report of a node the newest cycle read. *)
Definition observed_in c inventory (node : string) : option Envelope :=
  reports ← fetch_fleet_reports health_base (cy_fetch c) inventory;
  sr_envelope <$> reports !! node.

(** The last report read of a node since it became active, with the instant it was read. *)
Fixpoint last_seen history (node : string) : option (Envelope * N) :=
  match history with
  | [] => None
  | c :: older =>
      let inventory := inventory_at history in
      if bool_decide (node ∈ active_nodes inventory) then
        match observed_in c inventory node with
        | Some envelope => Some (envelope, cy_instant c node)
        | None => last_seen older node
        end
      else None
  end.

(** Ready: the last report read is at most a window old, and is authentic, healthy and fresh now. *)
Definition ready_at c older (node : string) (public_key : P256PublicKey) : bool :=
  match last_seen (c :: older) node with
  | Some (envelope, seen) =>
      (cy_instant c node - seen <=? STALENESS) && report_is_ready node public_key envelope (cy_now_ms c node)
  | None => false
  end.

Definition member_at c older (m : BackendInventoryMember) : Member :=
  match m with
  | Active node address public_key => mkMember node address (ready_at c older node public_key)
  | Cordoned node => mkMember node EmptyString false
  end.

Definition membership_at c older : list Member := member_at c older <$> inventory_at (c :: older).

(** The clock does not run backwards. *)
Fixpoint chronological history : Prop :=
  match history with
  | [] => True
  | c :: older =>
      (∀ node, cy_instant c node ≤ cy_drain_instant c node)
      ∧ match older with
        | [] => True
        | c0 :: _ => ∀ node, cy_drain_instant c0 node ≤ cy_instant c node
        end
      ∧ chronological older
  end.

(** ** The cache tracks the history *)

Definition expired history (node : string) (seen : N) : Prop :=
  match history with [] => False | c :: _ => STALENESS < cy_drain_instant c node - seen end.

(** An entry is the last report seen, or is gone because that report is past its window. *)
Definition tracks history (node : string) (entry : option (Envelope * N)) : Prop :=
  match last_seen history node with
  | None => entry = None
  | Some (envelope, seen) => entry = Some (envelope, seen) ∨ (entry = None ∧ expired history node seen)
  end.

Record follows history (p : Proxy) : Prop := mkFollows {
  fo_inventory : px_inventory p = inventory_at history;
  fo_nodup : NoDup (member_node <$> px_inventory p);
  fo_cache : ∀ node, tracks history node (px_cache p !! node);
}.

(** A cache lookup after one resolution. *)
Definition lkg_entry (fresh : option Envelope) (now : N) (entry : option (Envelope * N)) : option (Envelope * N) :=
  match fresh, entry with
  | Some value, _ => Some (value, now)
  | None, Some (value, seen) => if STALENESS <? now - seen then None else Some (value, seen)
  | None, None => None
  end.

Lemma lkg_resolve_spec node fresh now (cache : LastKnownGood Envelope) :
  (lkg_resolve node fresh now cache).1 = fst <$> lkg_entry fresh now (cache !! node)
  ∧ ∀ k, (lkg_resolve node fresh now cache).2 !! k
         = if decide (k = node) then lkg_entry fresh now (cache !! node) else cache !! k.
Proof.
  unfold lkg_resolve, lkg_entry. destruct fresh as [v|]; simpl.
  - split; [done|]. intros k. case_decide; [subst; by rewrite lookup_insert_eq|by rewrite lookup_insert_ne].
  - destruct (cache !! node) as [[v seen]|] eqn:Hc; simpl.
    + destruct (STALENESS <? now - seen); simpl; (split; [done|]); intros k; case_decide; subst; try done.
      * by rewrite lookup_delete_eq.
      * by rewrite lookup_delete_ne.
    + split; [done|]. intros k. by case_decide; subst.
Qed.

Definition resolved_entry c (fetched : option (BTreeMap StoredReport)) (node : string) (entry : option (Envelope * N)) :=
  lkg_entry (reports ← fetched; sr_envelope <$> reports !! node) (cy_instant c node) entry.

Definition resolved_member c fetched (cache : LastKnownGood Envelope) (m : BackendInventoryMember) : Member :=
  match m with
  | Active node address public_key =>
      mkMember node address
        (option_some_and (λ x, report_is_ready node public_key x.1 (cy_now_ms c node)) (resolved_entry c fetched node (cache !! node)))
  | Cordoned node => mkMember node EmptyString false
  end.

Lemma resolve_each_spec c inventory : ∀ fetched cache, NoDup (member_node <$> inventory) →
  (resolve_each c fetched inventory cache).1 = resolved_member c fetched cache <$> inventory
  ∧ ∀ k, (resolve_each c fetched inventory cache).2 !! k
         = if decide (k ∈ active_nodes inventory) then resolved_entry c fetched k (cache !! k) else cache !! k.
Proof.
  induction inventory as [|m inventory IH]; intros fetched cache Hnd; [split; [done|]; intros k; by rewrite decide_False by apply not_elem_of_nil|].
  cbn [fmap list_fmap] in Hnd. apply NoDup_cons in Hnd as [Hnot Hnd].
  assert (∀ m', m' ∈ inventory → member_node m' ≠ member_node m) as Hother.
  { intros m' Hm' Heq. apply Hnot. rewrite <- Heq. by apply list_elem_of_fmap_2. }
  assert (member_node m ∉ active_nodes inventory) as Hactive.
  { unfold active_nodes. intros (m' & Heq & Hm')%list_elem_of_fmap. apply list_elem_of_filter in Hm' as [_ Hm'].
    by apply (Hother m' Hm'). }
  destruct m as [node address key|node]; cbn [resolve_each].
  - set (fetched' := (λ reports : BTreeMap StoredReport, (remove reports node).2) <$> fetched).
    assert (∀ k, k ≠ node → ∀ e, resolved_entry c fetched' k e = resolved_entry c fetched k e) as Hf.
    { intros k Hk e. unfold resolved_entry, fetched'. destruct fetched as [reports|]; [|done]. simpl. by rewrite lookup_delete_ne. }
    assert (resolved_entry c fetched node (cache !! node)
      = lkg_entry (fetched ≫= λ reports, (remove reports node).1) (cy_instant c node) (cache !! node)) as Hn by by destruct fetched.
    unfold resolve_readiness. destruct (lkg_resolve_spec node (fetched ≫= λ reports, (remove reports node).1) (cy_instant c node) cache) as [Hv Hc].
    destruct (lkg_resolve node _ _ cache) as [value cache'] eqn:Hl. cbn [fst snd] in Hv, Hc.
    destruct (IH fetched' cache' Hnd) as [IHm IHc]. destruct (resolve_each c fetched' inventory cache') as [members cache''].
    cbn [fst snd] in *. split.
    + cbn [fmap list_fmap]. f_equal.
      * cbn [resolved_member]. rewrite Hn, Hv. by destruct (lkg_entry _ _ _) as [[]|].
      * rewrite IHm. apply list_fmap_ext. intros i m' Hi. apply list_elem_of_lookup_2 in Hi.
        destruct m' as [node' address' key'|]; [|done]. cbn [resolved_member]. specialize (Hother _ Hi). simpl in Hother.
        rewrite Hc, decide_False by done. by rewrite Hf.
    + intros k. rewrite IHc, Hc. unfold active_nodes. rewrite filter_cons_True by done. cbn [fmap list_fmap member_node].
      fold (active_nodes inventory). destruct (decide (k = node)) as [->|Hk].
      * rewrite decide_False by done. rewrite decide_True by constructor. by rewrite Hn.
      * destruct (decide (k ∈ active_nodes inventory)); [rewrite decide_True by (by constructor); by rewrite Hf|].
        rewrite decide_False; [done|]. by rewrite elem_of_cons; intros [?|?].
  - destruct (IH fetched cache Hnd) as [IHm IHc]. destruct (resolve_each c fetched inventory cache) as [members cache''].
    cbn [fst snd] in *. split; [cbn [fmap list_fmap]; by rewrite IHm|]. intros k. rewrite IHc. unfold active_nodes.
    by rewrite filter_cons_False.
Qed.

(** Classifying drains only forgets reports past their window. *)
Lemma note_members_cache c drained members : ∀ previous cache stale node,
  let entry := cache !! node in
  let entry' := (note_members claimed_payload c drained members previous cache stale).1.2 !! node in
  entry' = entry ∨ (entry' = None ∧ ∃ e seen, entry = Some (e, seen) ∧ STALENESS < cy_drain_instant c node - seen).
Proof.
  induction members as [|m members IH]; intros previous cache stale node; [by left|]. cbn [note_members].
  destruct (_ && _); [|apply IH]. destruct (lkg_resolve_spec (mb_node m) None (cy_drain_instant c (mb_node m)) cache) as [_ Hc].
  destruct (lkg_resolve (mb_node m) None _ cache) as [body cache']. cbn [snd] in Hc.
  specialize (IH (<[mb_node m := mb_ready m]> previous) cache' (if drain_is_stale claimed_payload (cy_drain_now_ms c (mb_node m)) body then stale + 1 else stale) node).
  cbv zeta in *. rewrite Hc in IH. destruct (decide (node = mb_node m)) as [->|]; [|done].
  unfold lkg_entry in IH. destruct (cache !! mb_node m) as [[e seen]|] eqn:He; [|by left; destruct IH as [?|(? & ? & ? & ? & _)]].
  destruct (N.ltb_spec STALENESS (cy_drain_instant c (mb_node m) - seen)) as [Hlt|].
  - right. split; [|eauto]. destruct IH as [?|(? & ? & ? & ? & _)]; done.
  - done.
Qed.

(** One resolution follows the history by one cycle. *)
Lemma resolved_entry_tracks c history node entry : chronological (c :: history) → tracks history node entry →
  node ∈ active_nodes (inventory_at (c :: history)) →
  let entry' := resolved_entry c (fetch_fleet_reports health_base (cy_fetch c) (inventory_at (c :: history))) node entry in
  match last_seen (c :: history) node with
  | None => entry' = None
  | Some (e, seen) =>
      (entry' = Some (e, seen) ∧ cy_instant c node - seen ≤ STALENESS)
      ∨ (entry' = None ∧ STALENESS < cy_instant c node - seen)
  end.
Proof.
  intros (_ & Hnext & _) Ht Hactive. cbv zeta. cbn [last_seen]. rewrite bool_decide_eq_true_2 by done.
  unfold resolved_entry. fold (observed_in c (inventory_at (c :: history)) node).
  destruct (observed_in c (inventory_at (c :: history)) node) as [e|]; [left; split; [done|lia]|].
  unfold tracks in Ht. destruct (last_seen history node) as [[e seen]|]; [|by subst].
  destruct Ht as [->|[-> Hexp]]; simpl.
  - destruct (N.ltb_spec STALENESS (cy_instant c node - seen)); [by right|by left].
  - right. split; [done|]. destruct history as [|c0 older]; [done|]. simpl in Hexp. specialize (Hnext node). lia.
Qed.

Lemma refresh_inventory_follows c history p : follows history p →
  px_inventory (refresh_inventory c p) = inventory_at (c :: history)
  ∧ NoDup (member_node <$> px_inventory (refresh_inventory c p))
  ∧ ∀ node, px_cache (refresh_inventory c p) !! node
            = if decide (node ∈ active_nodes (inventory_at (c :: history))) then px_cache p !! node else None.
Proof.
  intros [Hi Hnd Hc]. unfold refresh_inventory. cbn [inventory_at]. destruct (load_inventory (cy_files c)) as [e|inventory] eqn:Hl; cbn.
  - split_and!; [done..|]. intros node. case_decide as Hactive; [done|]. specialize (Hc node). unfold tracks in Hc.
    destruct history as [|c0 older]; [done|]. cbn [last_seen] in Hc. by rewrite bool_decide_eq_false_2 in Hc.
  - split_and!; [done|by eapply load_inventory_nodup|]. intros node. unfold lkg_retain. rewrite map_lookup_filter.
    case_decide as Hactive; (destruct (px_cache p !! node); simpl; [|done]).
    + by rewrite option_guard_True by (by apply bool_decide_eq_true).
    + rewrite option_guard_False; [done|]. by rewrite bool_decide_eq_true.
Qed.

Lemma member_at_resolved c history p m : chronological (c :: history) → follows history p →
  m ∈ inventory_at (c :: history) →
  resolved_member c (fetch_fleet_reports health_base (cy_fetch c) (inventory_at (c :: history))) (px_cache (refresh_inventory c p)) m
  = member_at c history m.
Proof.
  intros Hch Hf Hm. destruct m as [node address key|node]; [|done]. cbn [resolved_member member_at]. f_equal.
  assert (node ∈ active_nodes (inventory_at (c :: history))) as Hactive.
  { apply list_elem_of_fmap. exists (Active node address key). split; [done|]. by apply list_elem_of_filter. }
  destruct (refresh_inventory_follows c history p Hf) as (_ & _ & Hc). rewrite Hc, decide_True by done.
  pose proof (resolved_entry_tracks c history node _ Hch (fo_cache _ _ Hf node) Hactive) as Ht. cbv zeta in Ht. unfold ready_at.
  destruct (last_seen (c :: history) node) as [[e seen]|]; [|by rewrite Ht].
  destruct Ht as [[-> Hle]|[-> Hgt]]; simpl; [by apply N.leb_le in Hle as ->|by apply N.leb_gt in Hgt as ->].
Qed.

Lemma run_cycle_follows c history p : chronological (c :: history) → follows history p →
  (run_cycle claimed_payload health_base p c).1 = membership_at c history
  ∧ follows (c :: history) (run_cycle claimed_payload health_base p c).2.
Proof.
  intros Hch Hf. destruct (refresh_inventory_follows c history p Hf) as (Hi & Hnd & Hcache).
  unfold run_cycle, resolve_members. rewrite Hi in *. set (fetched := fetch_fleet_reports _ _ _).
  destruct (resolve_each_spec c (inventory_at (c :: history)) fetched (px_cache (refresh_inventory c p)) Hnd) as [Hm Hc].
  destruct (resolve_each c fetched _ _) as [members cache]. cbn [fst snd] in Hm, Hc.
  pose proof (note_members_cache c (drained_nodes (inventory_at (c :: history))) members (px_previous (refresh_inventory c p)) cache
    (pm_reports_stale_total (px_metrics (refresh_inventory c p)))) as Hn.
  destruct (note_members _ _ _ _ _ _ _) as [[previous cache'] stale]. cbn [fst snd] in Hn.
  destruct (lb_reconcile _ _ _) as [programmed balancer]. cbn [fst snd]. split.
  - rewrite Hm. unfold membership_at. apply list_fmap_ext. intros i m Hlookup. apply list_elem_of_lookup_2 in Hlookup.
    by apply member_at_resolved.
  - split; [done|done|]. cbn [px_cache]. intros node. unfold tracks, expired. specialize (Hn node). cbv zeta in Hn.
    rewrite Hc, Hcache in Hn. destruct (decide (node ∈ active_nodes (inventory_at (c :: history)))) as [Hactive|Hnot].
    + pose proof (resolved_entry_tracks c history node _ Hch (fo_cache _ _ Hf node) Hactive) as Ht. cbv zeta in Ht. fold fetched in Ht.
      destruct Hch as (Hinst & _ & _). specialize (Hinst node). destruct (last_seen (c :: history) node) as [[e seen]|].
      * destruct Ht as [[Ht _]|[Ht Hexp]]; rewrite Ht in Hn.
        -- destruct Hn as [->|(-> & e' & seen' & [= <- <-] & Hexp)]; [by left|by right].
        -- destruct Hn as [->|(_ & ? & ? & [=] & _)]. right. split; [done|]. lia.
      * rewrite Ht in Hn. by destruct Hn as [->|(_ & ? & ? & [=] & _)].
    + cbn [last_seen]. rewrite bool_decide_eq_false_2 by done. by destruct Hn as [->|(_ & ? & ? & [=] & _)].
Qed.

Lemma run_cycles_follows balancer history : NoDup (member_node <$> initial) → chronological history →
  follows history (run_cycles claimed_payload health_base (proxy_start initial balancer) (rev history)).
Proof.
  intros Hnd. induction history as [|c history IH]; intros Hch; [by split|].
  assert (∀ p l c, run_cycles claimed_payload health_base p (l ++ [c])
    = (run_cycle claimed_payload health_base (run_cycles claimed_payload health_base p l) c).2) as Happ.
  { intros p l. revert p. induction l as [|x l IHl]; intros p c0; [done|]. cbn [app run_cycles]. apply IHl. }
  cbn [rev]. rewrite Happ. apply run_cycle_follows; [done|]. apply IH. by destruct Hch as (_ & _ & ?).
Qed.

(** An outage that is shorter than the window changes nothing: while a node stays active and no
    cycle reads a report of it, its last report remains the evidence. *)
Lemma outage_keeps_last_report (outage : list Cycle) c older node envelope :
  node ∈ active_nodes (inventory_at (c :: older)) → observed_in c (inventory_at (c :: older)) node = Some envelope →
  (∀ k, (k < length outage)%nat → node ∈ active_nodes (inventory_at (drop k outage ++ c :: older))
     ∧ ∀ c', outage !! k = Some c' → observed_in c' (inventory_at (drop k outage ++ c :: older)) node = None) →
  last_seen (outage ++ c :: older) node = Some (envelope, cy_instant c node).
Proof.
  intros Hactive Hobs. induction outage as [|c' outage IH]; intros Hout.
  - cbn [app last_seen]. rewrite bool_decide_eq_true_2 by done. by rewrite Hobs.
  - destruct (Hout 0%nat ltac:(simpl; lia)) as [Hin Hnone]. cbn [drop app] in Hin, Hnone. specialize (Hnone c' eq_refl).
    cbn [app last_seen]. rewrite bool_decide_eq_true_2 by done. rewrite Hnone. apply IH.
    intros k Hk. apply (Hout (S k)). simpl. lia.
Qed.

End evidence.

Section claims.
Context `{!ReportParts} `{!Semver} `{!Signed} `{!Curve} `{!Sha256} `{!JsonValues} `{!FleetJson} `{!BackendJson}.
Context `{LB : !LoadBalancer} (claimed_payload : Envelope → option string) (health_base : string).

(** C15. The membership every cycle programs is determined by the history of what was read: the last
    inventory that could be read, in its order, where a cordoned node is out with no address, and an
    active node is ready exactly when the last report read of it since it became active is at most
    one freshness window old and is authentic under its pinned key, healthy and fresh now.  Failed
    reads, forgotten cache entries and the balancer's own failures make no difference. *)
Theorem membership_follows_the_evidence files initial balancer (history : list Cycle) c :
  load_inventory files = inr initial → chronological (c :: history) →
  (run_cycle claimed_payload health_base
     (run_cycles claimed_payload health_base (proxy_start initial balancer) (rev history)) c).1
  = membership_at health_base initial c history.
Proof.
  intros Hl Hch. apply run_cycle_follows; [done|]. apply run_cycles_follows; [by eapply load_inventory_nodup|].
  by destruct Hch as (_ & _ & ?).
Qed.

End claims.
