(* ===== verification/LoadBalancers.v ===== *)
(** * LoadBalancers: HAProxy clusters and EndpointSlices

    Models [updated-healthproxy/src/haproxy.rs] and [endpointslice.rs]: the two implementations of
    the [LoadBalancer] interface.  HAProxy's Runtime API, the resolver and the API server are
    outside: the first is a class of documented laws, the others answer as their environment says.
    The two families' slices are one pair; labels, ports and log lines are not modelled. *)
From S2P Require Import Prelude Identity Maps Releases Dataflow Telemetry Window Rollout Assign.
From S2P Require Import Assignment Groups Publication Inputs Inventory IpAddr Backend FleetReports HealthProxy.

#[local] Open Scope N_scope.

(** ** HAProxy *)

Definition FANOUT_CONCURRENCY : nat := 32.
(** Milliseconds. *)
Definition RECONCILE_TIMEOUT : N := 10000.
Definition RUNTIME_API_TIMEOUT : N := 3000.
Definition HAPROXY_BUFSIZE : N := 16384.
Definition MAX_BATCH_BYTES : N := HAPROXY_BUFSIZE / 2.
Definition RUNTIME_API_RESPONSE_LIMIT : N := 8 * 1024.

Definition exchange_timeout (instances : nat) : N :=
  let waves := Nat.max (div_ceil instances FANOUT_CONCURRENCY) 1 in
  N.min RUNTIME_API_TIMEOUT (RECONCILE_TIMEOUT / N.of_nat waves).

Definition desired_state (ready : bool) : string := if ready then "ready" else "drain".

Definition line_bytes (batch : N) : N := batch + 1.

Definition SEPARATOR : string := "; ".

(** [set server {backend}/{node} state {state}] *)
Definition state_command (backend : string) (m : Member) : string :=
  String.append "set server " (String.append backend (String "/" (String.append (mb_node m)
    (String.append " state " (desired_state (mb_ready m)))))).

(** The batches, the last one first. *)
Fixpoint batch_commands (batches commands : list string) : list string :=
  match commands with
  | [] => batches
  | command :: commands =>
      batch_commands
        (match batches with
         | batch :: rest =>
             if line_bytes (str_len batch + str_len SEPARATOR + str_len command) <=? MAX_BATCH_BYTES
             then String.append batch (String.append SEPARATOR command) :: rest
             else command :: batches
         | [] => [command]
         end) commands
  end.

Definition state_batches (backend : string) (members : list Member) : list string :=
  rev (batch_commands [] (state_command backend <$> members)).

(** [str::trim] of every line leaves nothing: the text is white space throughout. *)
Fixpoint is_blank (s : string) : bool :=
  match s with
  | EmptyString => true
  | String c rest =>
      if is_ascii_whitespace c then is_blank rest
      else match rest with
           | EmptyString => false
           | String d rest =>
               if two_byte_space c d then is_blank rest
               else match rest with
                    | EmptyString => false
                    | String e rest => three_byte_space c d e && is_blank rest
                    end
           end
  end.

(** [response_error(response).is_some()] *)
Definition response_error (response : string) : bool := negb (is_blank response).

(** The Runtime API: what one line does to an instance and answers.  A semicolon ends a command;
    setting the state of a declared server answers nothing and changes that server alone; naming any
    other server is answered with a complaint in ASCII and changes nothing. *)
Class RuntimeApi : Type := {
  instance : Type;
  server_state : instance → string → string → option string;
  run_line : string → instance → string * instance;
  run_line_semicolon : ∀ first rest i, string_forallb (λ c, negb (bool_decide (c = ";"%char))) first = true →
    run_line (String.append first (String.append SEPARATOR rest)) i
    = let '(answer, i) := run_line first i in
      let '(answer', i) := run_line rest i in (String.append answer answer', i);
  run_line_declared : ∀ backend m i old, is_balancer_safe backend = true → is_balancer_safe (mb_node m) = true →
    server_state i backend (mb_node m) = Some old →
    (run_line (state_command backend m) i).1 = EmptyString
    ∧ ∀ b s, server_state (run_line (state_command backend m) i).2 b s
             = if decide (b = backend ∧ s = mb_node m) then Some (desired_state (mb_ready m)) else server_state i b s;
  run_line_undeclared : ∀ backend m i, is_balancer_safe backend = true → is_balancer_safe (mb_node m) = true →
    server_state i backend (mb_node m) = None →
    string_existsb (byte_in 33 126) (run_line (state_command backend m) i).1 = true
    ∧ ∀ b s, server_state (run_line (state_command backend m) i).2 b s = server_state i b s;
}.

Section haproxy.
Context `{!RuntimeApi} (backend : string).

(** One exchange: the line was run and its answer read, or the answer was lost, or it never ran. *)
Inductive exchange : Type := Answered | AnswerLost | NeverRan.

(** [run_commands]: batches in order until one exchange fails or the budget is spent; the answers,
    when all were read. *)
Fixpoint run_commands (exchanges : list exchange) (batches : list string) (i : instance) {struct batches} : option string * instance :=
  match batches with
  | [] => (Some EmptyString, i)
  | batch :: batches =>
      match exchanges with
      | Answered :: exchanges =>
          let '(answer, i) := run_line batch i in
          if str_len answer <=? RUNTIME_API_RESPONSE_LIMIT then
            let '(answers, i) := run_commands exchanges batches i in
            (String.append answer <$> answers, i)
          else (None, i)
      | AnswerLost :: _ => (None, (run_line batch i).2)
      | NeverRan :: _ | [] => (None, i)
      end
  end.

Record HAProxyLb : Type := mkHAProxyLb {
  ha_managed : BTreeSet;
  ha_instances : list instance;
}.

(** [desired_members] *)
Definition desired_members (managed : BTreeSet) (observed : list Member) : list Member * BTreeSet :=
  match observed with
  | [] => ((λ node, mkMember node EmptyString false) <$> bt_elements managed, managed)
  | _ :: _ => (observed, list_to_set (mb_node <$> observed))
  end.

(** Every instance is programmed, whatever happens to the others. *)
Definition program_instance (batches : list string) (x : list exchange * instance) : bool * instance :=
  let '(answers, i) := run_commands x.1 batches x.2 in
  (match answers with Some answers => negb (response_error answers) | None => false end, i).

(** [reconcile]; the environment is the exchanges with each instance. *)
Definition haproxy_reconcile (env : list (list exchange)) (members : list Member) (lb : HAProxyLb) : bool * HAProxyLb :=
  let '(desired, managed) := desired_members (ha_managed lb) members in
  let batches := state_batches backend desired in
  match batches with
  | [] => (true, mkHAProxyLb managed (ha_instances lb))
  | _ :: _ =>
      let exchanges := env ++ replicate (length (ha_instances lb) - length env) [] in
      let outcomes := program_instance batches <$> zip exchanges (ha_instances lb) in
      let ok := forallb fst outcomes in
      (ok, mkHAProxyLb (if ok && bool_decide (members = []) then ∅ else managed) (snd <$> outcomes))
  end.

#[export] Instance haproxy_balancer : LoadBalancer := {|
  lb_state := HAProxyLb; lb_env := list (list exchange); lb_reconcile := haproxy_reconcile |}.

End haproxy.

(** *** Batches *)

Definition no_semicolon (s : string) : bool := string_forallb (λ c, negb (bool_decide (c = ";"%char))) s.

Lemma safe_no_semicolon name : is_balancer_safe name = true → no_semicolon name = true.
Proof.
  unfold is_balancer_safe, string_existsb, no_semicolon. intros Hs. apply andb_true_iff in Hs as [Hs _].
  apply andb_true_iff in Hs as [_ Hs]. by rewrite negb_involutive in Hs.
Qed.

Lemma state_command_no_semicolon backend m : is_balancer_safe backend = true → is_balancer_safe (mb_node m) = true →
  no_semicolon (state_command backend m) = true.
Proof.
  intros Hb%safe_no_semicolon Hm%safe_no_semicolon. unfold no_semicolon, state_command in *.
  rewrite string_forallb_app. cbn [string_forallb]. rewrite !string_forallb_app, Hb. cbn [string_forallb].
  rewrite string_forallb_app, Hm, string_forallb_app. by destruct (mb_ready m).
Qed.

(** White space holds no printable byte. *)
Lemma space_not_printable c d e :
  (is_ascii_whitespace c = true → byte_in 33 126 c = false)
  ∧ (two_byte_space c d = true → byte_in 33 126 c = false ∧ byte_in 33 126 d = false)
  ∧ (three_byte_space c d e = true → byte_in 33 126 c = false ∧ byte_in 33 126 d = false ∧ byte_in 33 126 e = false).
Proof.
  assert (∀ lo hi c, (126 < lo)%nat ∨ (hi < 33)%nat → byte_in lo hi c = true → byte_in 33 126 c = false) as Hout.
  { unfold byte_in. intros lo hi x Hor [Hlo%Nat.leb_le Hhi%Nat.leb_le]%andb_true_iff. apply andb_false_iff.
    destruct Hor; [right; apply Nat.leb_gt; lia|left; apply Nat.leb_gt; lia]. }
  unfold is_ascii_whitespace, two_byte_space, three_byte_space.
  split_and!; rewrite ?orb_true_iff, ?andb_true_iff, ?orb_true_iff; intros; destruct_or?; destruct_and?; destruct_or?;
    split_and?; (eapply Hout; [|eassumption]; lia).
Qed.

Lemma blank_not_printable s : is_blank s = true → string_existsb (byte_in 33 126) s = false.
Proof.
  unfold string_existsb. intros Hs. apply negb_false_iff. revert Hs.
  assert (∀ n s, (String.length s ≤ n)%nat → is_blank s = true → string_forallb (λ c, negb (byte_in 33 126 c)) s = true) as Hgo;
    [|by apply (Hgo (String.length s))].
  clear s. induction n as [|n IH]; intros [|c s] Hn Hs; try done; simpl in Hn; [lia|]. cbn [is_blank] in Hs. cbn [string_forallb].
  destruct (is_ascii_whitespace c) eqn:Hc.
  { rewrite (proj1 (space_not_printable c c c) Hc). apply IH; [lia|done]. }
  destruct s as [|d s]; [done|]. simpl in Hn. cbn [string_forallb]. destruct (two_byte_space c d) eqn:Hd.
  { destruct (proj1 (proj2 (space_not_printable c d c)) Hd) as [-> ->]. apply IH; [lia|done]. }
  destruct s as [|e s]; [done|]. simpl in Hn. cbn [string_forallb]. apply andb_true_iff in Hs as [He Hs].
  destruct (proj2 (proj2 (space_not_printable c d e)) He) as (-> & -> & ->). apply IH; [lia|done].
Qed.

Lemma concat_snoc sep g x : g ≠ [] → String.concat sep (g ++ [x]) = String.append (String.concat sep g) (String.append sep x).
Proof.
  induction g as [|y g IH]; [done|]. intros _. destruct g as [|z g]; [done|].
  change (String.concat sep ((y :: z :: g) ++ [x])) with (String.append y (String.append sep (String.concat sep ((z :: g) ++ [x])))).
  rewrite IH by done. change (String.concat sep (y :: z :: g)) with (String.append y (String.append sep (String.concat sep (z :: g)))).
  by rewrite !append_assoc.
Qed.

(** A batch joins commands, and its line fits unless it is one command alone. *)
Definition joins (batch : string) (group : list string) : Prop :=
  batch = String.concat SEPARATOR group ∧ group ≠ []
  ∧ (line_bytes (str_len batch) <= MAX_BATCH_BYTES ∨ length group = 1%nat).

Lemma batch_commands_groups commands : ∀ batches groups, Forall2 joins batches groups →
  ∃ groups', Forall2 joins (batch_commands batches commands) groups' ∧ concat (rev groups') = concat (rev groups) ++ commands.
Proof.
  induction commands as [|command commands IH]; intros batches groups Hg; cbn [batch_commands].
  { exists groups. by rewrite app_nil_r. }
  assert (∀ groups1 batches1, Forall2 joins batches1 groups1 → concat (rev groups1) = concat (rev groups) ++ [command] →
    ∃ groups', Forall2 joins (batch_commands batches1 commands) groups' ∧ concat (rev groups') = concat (rev groups) ++ command :: commands)
    as Hnext.
  { intros groups1 batches1 H1 Hc. destruct (IH _ _ H1) as (groups' & H2 & Hc'). exists groups'. split; [done|].
    by rewrite Hc', Hc, <- app_assoc. }
  assert (Forall2 joins (command :: batches) ([command] :: groups)) as Hfresh by (constructor; [split_and!; auto|done]).
  assert (concat (rev ([command] :: groups)) = concat (rev groups) ++ [command]) as Hcfresh
    by (cbn [rev]; by rewrite concat_app).
  destruct Hg as [|batch group batches groups (-> & Hne & Hfit) Hg]; [by apply (Hnext [[command]])|].
  destruct (N.leb_spec (line_bytes (str_len (String.concat SEPARATOR group) + str_len SEPARATOR + str_len command)) MAX_BATCH_BYTES) as [Hle|_];
    [|by apply (Hnext ([command] :: group :: groups))].
  apply (Hnext ((group ++ [command]) :: groups)).
  - constructor; [|done]. split; [by rewrite concat_snoc|]. split; [by destruct group|]. left. by rewrite !str_len_app, N.add_assoc.
  - cbn [rev]. rewrite !concat_app. cbn [concat]. by rewrite !app_nil_r, <- app_assoc.
Qed.

Lemma state_batches_groups backend members :
  ∃ groups, Forall2 joins (state_batches backend members) groups ∧ concat groups = state_command backend <$> members.
Proof.
  destruct (batch_commands_groups (state_command backend <$> members) [] []) as (groups & Hg & Hc); [constructor|].
  exists (rev groups). split; [|done]. unfold state_batches. clear Hc. induction Hg as [|x y l k Hxy Hg IH]; [constructor|].
  cbn [rev]. apply Forall2_app; [done|]. constructor; [done|constructor].
Qed.

(** *** What lines do *)

Section programming.
Context `{!RuntimeApi} (backend : string) (Hbackend : is_balancer_safe backend = true).
Implicit Types (i : instance) (members : list Member).

(** Commands one after the other. *)
Fixpoint run_members members i : string * instance :=
  match members with
  | [] => (EmptyString, i)
  | m :: members =>
      let '(answer, i) := run_line (state_command backend m) i in
      let '(answers, i) := run_members members i in (String.append answer answers, i)
  end.

Definition safe_members members : Prop := ∀ m, m ∈ members → is_balancer_safe (mb_node m) = true.

Lemma run_members_app ms ms' i :
  run_members (ms ++ ms') i = let '(a, i) := run_members ms i in let '(b, i) := run_members ms' i in (String.append a b, i).
Proof.
  revert i. induction ms as [|m ms IH]; intros i; [cbn; by destruct (run_members ms' i)|]. cbn [app run_members].
  destruct (run_line _ i) as [a i1]. rewrite IH. destruct (run_members ms i1) as [b i2]. destruct (run_members ms' i2) as [c i3].
  by rewrite append_assoc.
Qed.

Lemma run_line_group members i : safe_members members → members ≠ [] →
  run_line (String.concat SEPARATOR (state_command backend <$> members)) i = run_members members i.
Proof.
  intros Hsafe Hne. revert i. induction members as [|m members IH]; [done|]. intros i.
  destruct members as [|m' members].
  { cbn. destruct (run_line _ i) as [a i']. by rewrite append_empty_r. }
  change (String.concat SEPARATOR (state_command backend <$> m :: m' :: members)) with
    (String.append (state_command backend m) (String.append SEPARATOR (String.concat SEPARATOR (state_command backend <$> m' :: members)))).
  rewrite run_line_semicolon by (apply state_command_no_semicolon; [done|apply Hsafe; by constructor]).
  cbn [run_members]. destruct (run_line (state_command backend m) i) as [a i']. rewrite IH; [done| |done].
  intros x Hx. apply Hsafe. by constructor.
Qed.

(** What commands leave: only the servers named are touched, each as its member says, and an answer
    without a printable byte means all of them were there. *)
Lemma run_members_effect members i : safe_members members →
  (∀ b s, (∀ m, m ∈ members → b = backend → s ≠ mb_node m) → server_state (run_members members i).2 b s = server_state i b s)
  ∧ (NoDup (mb_node <$> members) → ∀ m, m ∈ members →
       server_state (run_members members i).2 backend (mb_node m)
       = (λ _, desired_state (mb_ready m)) <$> server_state i backend (mb_node m))
  ∧ (string_existsb (byte_in 33 126) (run_members members i).1 = false →
       ∀ m, m ∈ members → is_Some (server_state i backend (mb_node m))).
Proof.
  revert i. induction members as [|m members IH]; intros i Hsafe; [split_and!; [done|set_solver..]|].
  cbn [run_members]. pose proof (Hsafe m ltac:(constructor)) as Hm.
  assert (safe_members members) as Hsafe' by (intros x Hx; apply Hsafe; by constructor).
  assert (∀ b s, server_state (run_line (state_command backend m) i).2 b s
    = if decide (b = backend ∧ s = mb_node m) then (λ _, desired_state (mb_ready m)) <$> server_state i b s else server_state i b s) as Hstep.
  { intros b s. destruct (server_state i backend (mb_node m)) as [old|] eqn:Hold.
    - rewrite (proj2 (run_line_declared backend m i old Hbackend Hm Hold)). case_decide as Hd; [|done]. destruct Hd as [-> ->]. by rewrite Hold.
    - rewrite (proj2 (run_line_undeclared backend m i Hbackend Hm Hold)). case_decide as Hd; [|done]. destruct Hd as [-> ->]. by rewrite Hold. }
  assert (string_existsb (byte_in 33 126) (run_line (state_command backend m) i).1 = false → is_Some (server_state i backend (mb_node m))) as Hans.
  { intros Hno. destruct (server_state i backend (mb_node m)) eqn:Hold; [done|].
    rewrite (proj1 (run_line_undeclared backend m i Hbackend Hm Hold)) in Hno. done. }
  destruct (run_line (state_command backend m) i) as [a i1]. cbn [fst snd] in Hstep, Hans.
  destruct (IH i1 Hsafe') as (Hother & Hset & Hall). destruct (run_members members i1) as [as_ i2]. cbn [fst snd] in *.
  split_and!.
  - intros b s Hns. rewrite Hother by (intros x Hx; apply Hns; by constructor). rewrite Hstep, decide_False; [done|].
    intros [-> ->]. by apply (Hns m ltac:(constructor)).
  - intros [Hnot Hnd]%NoDup_cons m' [->|Hin]%elem_of_cons.
    + rewrite Hother; [by rewrite Hstep, decide_True|]. intros x Hx _ Heq. apply Hnot. rewrite Heq. by apply list_elem_of_fmap_2.
    + rewrite Hset by done. rewrite Hstep, decide_False; [done|]. intros [_ Heq]. apply Hnot. rewrite <- Heq. by apply list_elem_of_fmap_2.
  - unfold string_existsb in *. rewrite string_forallb_app. intros Hno. apply negb_false_iff, andb_true_iff in Hno as [Ha Has].
    intros m' [->|Hin]%elem_of_cons; [apply Hans; by rewrite Ha|].
    specialize (Hall ltac:(by rewrite Has) m' Hin). rewrite Hstep in Hall. case_decide as Hd; [|done].
    destruct Hd as [_ Heq]. destruct (server_state i backend (mb_node m')); [done|by destruct Hall].
Qed.

(** Batches of members: some prefix of them is run, and all of them when every answer was read. *)
Definition batch_of (batch : string) (group : list Member) : Prop :=
  batch = String.concat SEPARATOR (state_command backend <$> group) ∧ group ≠ [] ∧ safe_members group.

Lemma run_commands_prefix batches groups : Forall2 batch_of batches groups → ∀ exchanges i,
  ∃ ran, ran `prefix_of` concat groups ∧ (run_commands exchanges batches i).2 = (run_members ran i).2
    ∧ ∀ answers, (run_commands exchanges batches i).1 = Some answers → ran = concat groups ∧ answers = (run_members ran i).1.
Proof.
  induction 1 as [|batch group batches groups (-> & Hne & Hsafe) Hg IH]; intros exchanges i.
  { exists []. split; [apply prefix_nil|]. split; [by destruct exchanges|]. intros answers. by destruct exchanges; intros [= <-]. }
  cbn [run_commands concat]. rewrite run_line_group by done.
  assert (∀ ran, ran `prefix_of` concat groups → group ++ ran `prefix_of` group ++ concat groups) as Hpre
    by (intros ran; apply prefix_app).
  destruct exchanges as [|[] exchanges].
  - exists []. cbn. split; [apply prefix_nil|done].
  - destruct (run_members group i) as [a i1] eqn:Hr. destruct (str_len a <=? RUNTIME_API_RESPONSE_LIMIT).
    + destruct (IH exchanges i1) as (ran & Hran & Hi & Ha). destruct (run_commands exchanges batches i1) as [answers i2].
      exists (group ++ ran). cbn [fst snd] in *. rewrite run_members_app, Hr. destruct (run_members ran i1) as [b i3]. cbn [fst snd] in *.
      split_and!; [by apply Hpre|done|]. intros x. destruct answers as [y|]; [|done]. intros [= <-].
      destruct (Ha y eq_refl) as [-> ->]. done.
    + exists group. cbn [fst snd]. rewrite Hr. split_and!; [by apply prefix_app_r|done|done].
  - exists group. split_and!; [by apply prefix_app_r|done|done].
  - exists []. cbn. split; [apply prefix_nil|done].
Qed.

(** An instance is programmed with its members and nothing else. *)
Record programmed members i i' (ok : bool) : Prop := mkProgrammed {
  pr_only : ∀ b s, server_state i' b s = server_state i b s
    ∨ ∃ m, m ∈ members ∧ b = backend ∧ s = mb_node m ∧ server_state i' b s = Some (desired_state (mb_ready m));
  pr_all : ok = true → ∀ m, m ∈ members → server_state i' backend (mb_node m) = Some (desired_state (mb_ready m));
}.

Lemma fmap_concat_groups {A B} (f : A → B) (groups : list (list B)) : ∀ l : list A, concat groups = f <$> l →
  ∃ gs : list (list A), groups = (λ g : list A, f <$> g) <$> gs ∧ concat gs = l.
Proof.
  induction groups as [|g groups IH]; intros l Hc; [exists []; by destruct l|]. cbn [concat] in Hc. symmetry in Hc.
  apply fmap_app_inv in Hc as (l1 & l2 & -> & Hc & ->). destruct (IH l2 Hc) as (gs & -> & <-). by exists (l1 :: gs).
Qed.

Lemma program_instance_programmed members exchanges i : safe_members members → NoDup (mb_node <$> members) →
  programmed members i (program_instance (state_batches backend members) (exchanges, i)).2
    (program_instance (state_batches backend members) (exchanges, i)).1.
Proof.
  intros Hsafe Hnd. destruct (state_batches_groups backend members) as (groups & Hg & Hc).
  apply fmap_concat_groups in Hc as (gs & -> & Hc).
  assert (Forall2 batch_of (state_batches backend members) gs) as Hb.
  { rewrite Forall2_fmap_r in Hg. assert (∀ g, g ∈ gs → safe_members g) as Hgs.
    { intros g Hin m Hm. apply Hsafe. rewrite <- Hc. apply list_elem_of_In, in_concat. exists g. by rewrite <- !list_elem_of_In. }
    clear Hc Hsafe Hnd. revert Hg Hgs. generalize (state_batches backend members). intros bs Hg Hgs.
    induction Hg as [|x g l k (-> & Hne & _) Hg IH]; constructor; [|apply IH; intros; apply Hgs; by constructor].
    split_and!; [done|by destruct g|apply Hgs; constructor]. }
  destruct (run_commands_prefix _ _ Hb exchanges i) as (ran & Hran & Hi & Ha). rewrite Hc in *.
  unfold program_instance. cbn [fst snd]. destruct (run_commands exchanges (state_batches backend members) i) as [answers i'].
  cbn [fst snd] in *. subst i'. destruct Hran as [rest Hrest].
  assert (safe_members ran) as Hsran by (intros m Hm; apply Hsafe; rewrite Hrest, elem_of_app; by left).
  assert (NoDup (mb_node <$> ran)) as Hndran by (rewrite Hrest, fmap_app in Hnd; by apply NoDup_app in Hnd as (? & _)).
  destruct (run_members_effect ran i Hsran) as (Hother & Hset & Hall). specialize (Hset Hndran). split.
  - intros b s. destruct (decide (b = backend ∧ s ∈ mb_node <$> ran)) as [[-> Hin]|Hnot].
    + apply list_elem_of_fmap in Hin as (m & -> & Hin). rewrite (Hset m Hin).
      destruct (server_state i backend (mb_node m)); [right|by left]. exists m. split_and!; [|done..]. rewrite Hrest, elem_of_app. by left.
    + left. apply Hother. intros m Hm -> ->. apply Hnot. split; [done|]. by apply list_elem_of_fmap_2.
  - destruct answers as [a|]; [|done]. intros Hok. apply negb_true_iff, negb_false_iff, blank_not_printable in Hok.
    destruct (Ha a eq_refl) as [-> ->]. intros m Hm. rewrite (Hset m Hm). by destruct (Hall Hok m Hm) as [old ->].
Qed.

(** C31. Reconciling an HAProxy cluster programs every instance with the desired members and nothing
    else, whichever exchanges fail: each server is left as it was or in the state its member calls
    for, and a reconcile that succeeds leaves every member's server in that state on every instance,
    the shutdown drain included.  Every line sent fits HAProxy's buffer or is a single command. *)
Theorem cluster_is_programmed_exactly env members (lb : HAProxyLb) :
  let desired := (desired_members (ha_managed lb) members).1 in
  safe_members desired → NoDup (mb_node <$> desired) →
  let '(ok, lb') := haproxy_reconcile backend env members lb in
  Forall2 (λ i i', programmed desired i i' ok) (ha_instances lb) (ha_instances lb')
  ∧ ∀ line, line ∈ state_batches backend desired →
      line_bytes (str_len line) <= MAX_BATCH_BYTES ∨ ∃ m, m ∈ desired ∧ line = state_command backend m.
Proof.
  intros desired Hsafe Hnd. unfold haproxy_reconcile. destruct (desired_members (ha_managed lb) members) as [d managed] eqn:Hd.
  cbn [fst] in desired. subst desired.
  assert (∀ line, line ∈ state_batches backend d → line_bytes (str_len line) <= MAX_BATCH_BYTES ∨ ∃ m, m ∈ d ∧ line = state_command backend m) as Hlines.
  { intros line Hin. destruct (state_batches_groups backend d) as (groups & Hg & Hc).
    apply list_elem_of_lookup in Hin as [k Hk]. destruct (Forall2_lookup_l _ _ _ _ _ Hg Hk) as (g & Hgk & -> & _ & [Hfit|Hone]); [by left|].
    right. destruct g as [|c [|]]; try done. assert (c ∈ state_command backend <$> d) as Hcin.
    { rewrite <- Hc. apply list_elem_of_In, in_concat. exists [c]. rewrite <- !list_elem_of_In. split; [by eapply list_elem_of_lookup_2|constructor]. }
    apply list_elem_of_fmap in Hcin as (m & -> & Hm). by exists m. }
  destruct (state_batches backend d) as [|line lines] eqn:Hb.
  - split; [|done]. assert (d = []) as ->.
    { destruct (state_batches_groups backend d) as (groups & Hg & Hc). rewrite Hb in Hg. inversion Hg; subst. by destruct d. }
    cbn [ha_instances]. induction (ha_instances lb) as [|x l IH]; constructor; [|done]. split; [by left|set_solver].
  - rewrite <- Hb in *. split; [|done]. set (outcomes := program_instance (state_batches backend d) <$> _).
    assert (Forall2 (λ i (o : bool * instance), programmed d i o.2 o.1) (ha_instances lb) outcomes) as Hout.
    { unfold outcomes. apply Forall2_fmap_r.
      assert (length (ha_instances lb) ≤ length (env ++ replicate (length (ha_instances lb) - length env) []))%nat as Hlen
        by (rewrite length_app, length_replicate; lia).
      revert Hlen. generalize (env ++ replicate (length (ha_instances lb) - length env) []) as es. generalize (ha_instances lb) as is_.
      induction is_ as [|i is_ IH]; intros [|e es] Hlen; simpl in Hlen; [constructor|constructor|lia|]. cbn [zip zip_with].
      constructor; [by apply program_instance_programmed|]. apply IH. lia. }
    cbn [ha_instances]. apply Forall2_fmap_r, Forall2_same_length_lookup_2; [by eapply Forall2_length|].
    intros k i o Hi Ho. destruct (Forall2_lookup_lr _ _ _ _ _ _ Hout Hi Ho) as [Honly Hall]. split; [done|].
    intros Hok. apply Hall. rewrite forallb_elem in Hok. by apply Hok, list_elem_of_lookup_2 with k.
Qed.

End programming.

(** ** EndpointSlices *)

Inductive AddressType : Type := Ipv4 | Ipv6 | Fqdn.

#[export] Instance AddressType_eq_dec : EqDecision AddressType.
Proof. solve_decision. Defined.

Definition address_type (address : string) : AddressType :=
  match parse_ipv4 address with
  | Some _ => Ipv4
  | None => match parse_ipv6 address with Some _ => Ipv6 | None => Fqdn end
  end.

Definition of_ip (ip : IpAddr) : AddressType := match ip with V4 _ => Ipv4 | V6 _ => Ipv6 end.

Definition BLOCKING_POOL_THREADS : nat := 512.
Definition NAME_LOOKUP_CONCURRENCY : nat := BLOCKING_POOL_THREADS - FANOUT_CONCURRENCY.
Definition fanout_width (wanted cap : nat) : nat := Nat.min (Nat.max wanted FANOUT_CONCURRENCY) cap.

(** Milliseconds. *)
Definition NAME_LOOKUP_TIMEOUT : N := 3000.
Definition RESOLVE_SHARE : N := 2.
Definition lookup_budget (deadline now : N) : N := N.min NAME_LOOKUP_TIMEOUT (deadline - now).

(** [min_by_key]: the preferred family first, then the lowest address. *)
Definition address_leb (preferred : AddressType) (a b : IpAddr) : bool :=
  match bool_decide (of_ip a = preferred), bool_decide (of_ip b = preferred) with
  | true, false => true
  | false, true => false
  | _, _ => ip_leb a b
  end.

Fixpoint pick_least (preferred : AddressType) (best : IpAddr) (addresses : list IpAddr) : IpAddr :=
  match addresses with
  | [] => best
  | a :: addresses => pick_least preferred (if address_leb preferred best a then best else a) addresses
  end.

Definition pick_address (addresses : list IpAddr) (preferred : AddressType) : option string :=
  match addresses with
  | [] => None
  | a :: addresses => Some (display_ip (pick_least preferred a addresses))
  end.

Definition family_majority (members : list Member) : option AddressType :=
  let ipv4 := length (filter (λ m, address_type (mb_address m) = Ipv4) members) in
  let ipv6 := length (filter (λ m, address_type (mb_address m) = Ipv6) members) in
  match ipv4, ipv6 with
  | O, O => None
  | _, _ => if (ipv4 <? ipv6)%nat then Some Ipv6 else Some Ipv4
  end.

Definition walk_start (cursor total : nat) : nat := if (total =? 0)%nat then 0%nat else (cursor mod total)%nat.

Definition next_start (start total : nat) (stopped : option nat) : nat :=
  match stopped with
  | Some rank => if (0 <? total)%nat then ((start + rank) mod total)%nat else 0%nat
  | None => 0%nat
  end.

(** What the outside makes of one lookup: no budget or no permit was left to start it, it failed or
    ran out of time, or it answered. *)
Inductive resolution : Type := NotStarted | NoAnswer | Resolved (addresses : list IpAddr).

Inductive Lookup : Type := LAnswered (address : string) | LUnanswered | LNotAttempted.

Definition lookup_one (r : resolution) (preferred : AddressType) : Lookup :=
  match r with
  | NotStarted => LNotAttempted
  | NoAnswer => LUnanswered
  | Resolved addresses => match pick_address addresses preferred with Some a => LAnswered a | None => LUnanswered end
  end.

Record NameResolver : Type := mkNameResolver {
  nr_known : LastKnownGood string;
  nr_cursor : nat;
}.

Definition NameResolver_new : NameResolver := mkNameResolver ∅ 0.

Definition is_hostname (m : Member) : bool := bool_decide (address_type (mb_address m) = Fqdn).

(** The indices of the hostname members. *)
Definition hostnames (members : list Member) : list nat :=
  (imap (λ index m, (index, m)) members ≫= λ x, if is_hostname x.2 then [x.1] else []).

(** The walk of one pass: the configured order, rotated. *)
Definition walk (cursor : nat) (names : list nat) : list nat :=
  let start := walk_start cursor (length names) in drop start names ++ take start names.

(** The first rank that was not attempted. *)
Definition not_attempted (l : Lookup) : bool := match l with LNotAttempted => true | _ => false end.

Definition stopped_at (lookups : list Lookup) : option nat :=
  fst <$> list_find (λ l, not_attempted l = true) lookups.

(** The address a lookup of this pass found for a member. *)
Definition fresh_address (order : list nat) (lookups : list Lookup) (index : nat) : option string :=
  foldr (λ x acc, if (x.1 =? index)%nat then match x.2 with LAnswered a => Some a | _ => acc end else acc)
    None (zip order lookups).

Fixpoint resolve_names (now : N) (known : LastKnownGood string) (members : list (Member * option string))
    : list Member * LastKnownGood string :=
  match members with
  | [] => ([], known)
  | (m, fresh) :: members =>
      if is_hostname m then
        let '(address, known) := lkg_resolve (mb_address m) fresh now known in
        let '(resolved, known) := resolve_names now known members in
        (match address with
         | Some address => mkMember (mb_node m) address (mb_ready m) :: resolved
         | None => resolved
         end, known)
      else
        let '(resolved, known) := resolve_names now known members in (m :: resolved, known)
  end.

(** [NameResolver::resolve], with what becomes of the lookup of each member. *)
Definition resolver_resolve (answers : nat → resolution) (now : N) (members : list Member) (preferred : AddressType)
    (r : NameResolver) : list Member * NameResolver :=
  let names := hostnames members in
  let order := walk (nr_cursor r) names in
  let lookups := (λ index, lookup_one (answers index) preferred) <$> order in
  let cursor := next_start (walk_start (nr_cursor r) (length names)) (length order) (stopped_at lookups) in
  let '(resolved, known) :=
    resolve_names now (nr_known r) (imap (λ index m, (m, fresh_address order lookups index)) members) in
  let present := mb_address <$> filter (λ m, is_hostname m = true) members in
  (resolved, mkNameResolver (lkg_retain (λ address, bool_decide (address ∈ present)) known) cursor).

(** An endpoint: its address, and whether it is ready and serving. *)
Definition Endpoint : Type := string * bool.

Definition build_slice (members : list Member) (family : AddressType) : list Endpoint :=
  (λ m, (mb_address m, mb_ready m)) <$> filter (λ m, address_type (mb_address m) = family) members.

(** The two slices of the Service, as the API server holds them. *)
Record Slices : Type := mkSlices {
  sl_ipv4 : option (list Endpoint);
  sl_ipv6 : option (list Endpoint);
}.

Definition slice_of (family : AddressType) (s : Slices) : option (list Endpoint) :=
  match family with Ipv4 => sl_ipv4 s | Ipv6 => sl_ipv6 s | Fqdn => None end.

Definition apply_slice (family : AddressType) (endpoints : list Endpoint) (s : Slices) : Slices :=
  match family with
  | Ipv4 => mkSlices (Some endpoints) (sl_ipv6 s)
  | Ipv6 => mkSlices (sl_ipv4 s) (Some endpoints)
  | Fqdn => s
  end.

Record EndpointSliceLb : Type := mkEndpointSliceLb {
  es_resolver : NameResolver;
  es_slices : Slices;
}.

(** One patch: applied and answered, applied with its answer lost, or never applied. *)
Inductive patch : Type := Applied | AppliedUnanswered | NotApplied.

Record SliceEnv : Type := mkSliceEnv {
  se_answers : nat → resolution;
  se_now : N;
  se_inactive : patch;
  se_active : patch;
}.

Definition patch_slice (p : patch) (family : AddressType) (endpoints : list Endpoint) (s : Slices) : bool * Slices :=
  match p with
  | Applied => (true, apply_slice family endpoints s)
  | AppliedUnanswered => (false, apply_slice family endpoints s)
  | NotApplied => (false, s)
  end.

(** The family a membership is programmed in, and its resolved members. *)
Definition plan_slices (env : SliceEnv) (members : list Member) (r : NameResolver) : AddressType * list Member * NameResolver :=
  let members := filter (λ m, mb_address m ≠ EmptyString) members in
  let configured := family_majority members in
  let '(resolved, r) := resolver_resolve (se_answers env) (se_now env) members (default Ipv4 configured) r in
  (default (default Ipv4 (family_majority resolved)) configured, resolved, r).

Definition endpointslice_reconcile (env : SliceEnv) (members : list Member) (lb : EndpointSliceLb) : bool * EndpointSliceLb :=
  let '(family, resolved, r) := plan_slices env members (es_resolver lb) in
  match family with
  | Fqdn => (false, mkEndpointSliceLb r (es_slices lb))
  | _ =>
      let inactive := match family with Ipv4 => Ipv6 | _ => Ipv4 end in
      let '(ok, slices) := patch_slice (se_inactive env) inactive [] (es_slices lb) in
      if ok then
        let '(ok, slices) := patch_slice (se_active env) family (build_slice resolved family) slices in
        (ok, mkEndpointSliceLb r slices)
      else (false, mkEndpointSliceLb r slices)
  end.

#[export] Instance endpointslice_balancer : LoadBalancer := {|
  lb_state := EndpointSliceLb; lb_env := SliceEnv; lb_reconcile := endpointslice_reconcile |}.

(** *** One family at a time *)

(** The other IP family. *)
Definition other_family (family : AddressType) : AddressType := match family with Ipv4 => Ipv6 | _ => Ipv4 end.

Lemma family_majority_ip members family : family_majority members = Some family → family = Ipv4 ∨ family = Ipv6.
Proof. unfold family_majority. intros Hf. repeat case_match; naive_solver. Qed.

Lemma plan_slices_family env members r : (plan_slices env members r).1.1 = Ipv4 ∨ (plan_slices env members r).1.1 = Ipv6.
Proof.
  unfold plan_slices. destruct (resolver_resolve _ _ _ _ _) as [resolved r']. simpl.
  destruct (family_majority (filter _ members)) as [f|] eqn:Hc; simpl; [by eapply family_majority_ip|].
  destruct (family_majority resolved) as [f|] eqn:Hr; simpl; [by eapply family_majority_ip|by left].
Qed.

Definition empty_slice (s : option (list Endpoint)) : Prop := s = None ∨ s = Some [].

(** At most one family routes. *)
Definition one_family (s : Slices) : Prop := empty_slice (sl_ipv4 s) ∨ empty_slice (sl_ipv6 s).

(** Reconciling EndpointSlices keeps one family routing at most, whichever patches fail: the other
    family's slice is left as it was or emptied, the family's own is left as it was or holds exactly
    the resolved members of that family with their readiness, and only once the other is empty.
    Success means both. *)
Lemma slices_route_one_family env members (lb : EndpointSliceLb) :
  let '(family, resolved, _) := plan_slices env members (es_resolver lb) in
  let '(ok, lb') := endpointslice_reconcile env members lb in
  let before := es_slices lb in let after := es_slices lb' in
  (one_family before → one_family after)
  ∧ (slice_of (other_family family) after = slice_of (other_family family) before ∨ slice_of (other_family family) after = Some [])
  ∧ (slice_of family after = slice_of family before
     ∨ (slice_of family after = Some (build_slice resolved family) ∧ slice_of (other_family family) after = Some []))
  ∧ (ok = true → slice_of family after = Some (build_slice resolved family) ∧ slice_of (other_family family) after = Some []).
Proof.
  unfold endpointslice_reconcile. pose proof (plan_slices_family env members (es_resolver lb)) as Hf.
  destruct (plan_slices env members (es_resolver lb)) as [[family resolved] r]. cbn [fst] in Hf.
  unfold one_family, empty_slice. destruct (es_slices lb) as [s4 s6]. destruct Hf as [-> | ->];
    (destruct (se_inactive env), (se_active env); cbn; intuition (done || congruence)).
Qed.

(** *** Every name is attempted *)

(** A sequence of passes over the same names: the cursor of each, and where it stopped. *)
Fixpoint cursors (total cursor : nat) (stops : list (option nat)) : list (nat * option nat) :=
  match stops with
  | [] => []
  | stop :: stops => (walk_start cursor total, stop) :: cursors total (next_start (walk_start cursor total) total stop) stops
  end.

(** A pass attempts the name [x] when it stops after the rank of [x] in its walk. *)
Definition attempts (total : nat) (pass : nat * option nat) (x : nat) : Prop :=
  match pass.2 with
  | None => True
  | Some stop => ((x + total - pass.1) mod total < stop)%nat
  end.

Lemma walk_start_lt cursor total : (0 < total)%nat → (walk_start cursor total < total)%nat.
Proof. intros Ht. unfold walk_start. destruct (Nat.eqb_spec total 0); [lia|]. by apply Nat.mod_upper_bound. Qed.

(** The rank of a name shrinks by what the pass before reached. *)
Lemma rank_shrinks total start stop x : (0 < total)%nat → (start < total)%nat → (x < total)%nat →
  (stop ≤ (x + total - start) mod total)%nat →
  ((x + total - walk_start (next_start start total (Some stop)) total) mod total
   = (x + total - start) mod total - stop)%nat.
Proof.
  intros Ht Hs Hx Hstop. unfold next_start. rewrite (proj2 (Nat.ltb_lt 0 total) Ht). unfold walk_start.
  destruct (Nat.eqb_spec total 0) as [|_]; [lia|]. rewrite Nat.Div0.mod_mod.
  assert (((x + total - start) mod total)%nat = if decide (start ≤ x)%nat then (x - start)%nat else (x + total - start)%nat) as Hr.
  { case_decide.
    - replace (x + total - start)%nat with ((x - start) + 1 * total)%nat by lia. rewrite Nat.Div0.mod_add. apply Nat.mod_small. lia.
    - apply Nat.mod_small. lia. }
  assert ((start + stop < 2 * total)%nat) as Hlt by (rewrite Hr in Hstop; case_decide; lia).
  assert (((start + stop) mod total)%nat = if decide (start + stop < total)%nat then (start + stop)%nat else (start + stop - total)%nat) as ->.
  { destruct (decide (start + stop < total)%nat); [by apply Nat.mod_small|].
    replace (start + stop)%nat with ((start + stop - total) + 1 * total)%nat at 1 by lia.
    rewrite Nat.Div0.mod_add. apply Nat.mod_small. lia. }
  rewrite Hr in *. clear Hr. destruct (decide (start ≤ x)%nat), (decide (start + stop < total)%nat); try lia.
  - replace (x + total - (start + stop))%nat with ((x - start - stop) + 1 * total)%nat by lia. rewrite Nat.Div0.mod_add. apply Nat.mod_small. lia.
  - rewrite Nat.mod_small; lia.
  - replace (x + total - (start + stop - total))%nat with ((x + total - start - stop) + 1 * total)%nat by lia.
    rewrite Nat.Div0.mod_add. apply Nat.mod_small. lia.
Qed.

Lemma attempted_within total k x : ∀ stops cursor, (0 < total)%nat → (x < total)%nat → (0 < k)%nat →
  Forall (λ stop, ∀ s, stop = Some s → (k ≤ s)%nat) stops →
  ((x + total - walk_start cursor total) mod total < length stops * k)%nat →
  ∃ pass, pass ∈ cursors total cursor stops ∧ attempts total pass x.
Proof.
  induction stops as [|stop stops IH]; intros cursor Ht Hx Hk Hall Hlen; [simpl in Hlen; lia|].
  apply Forall_cons in Hall as [Hs Hall]. cbn [cursors].
  assert (attempts total (walk_start cursor total, stop) x ∨ ¬ attempts total (walk_start cursor total, stop) x) as [Ha|Hn].
  { unfold attempts. simpl. destruct stop; [|by left]. lia. }
  { eexists. split; [by constructor|done]. }
  unfold attempts in Hn. simpl in Hn. destruct stop as [s|]; [|by destruct Hn]. specialize (Hs s eq_refl).
  assert (s ≤ (x + total - walk_start cursor total) mod total)%nat as Hle by lia.
  destruct (IH (next_start (walk_start cursor total) total (Some s)) Ht Hx Hk Hall) as (pass & Hin & Ha).
  { rewrite rank_shrinks by (done || by apply walk_start_lt). simpl in Hlen. lia. }
  exists pass. split; [by constructor|done].
Qed.

(** The name at [x] is at that rank of the walk. *)
Lemma walk_lookup cursor names x : (x < length names)%nat →
  walk cursor names !! ((x + length names - walk_start cursor (length names)) mod length names)%nat = names !! x.
Proof.
  intros Hx. pose proof (walk_start_lt cursor (length names) ltac:(lia)) as Hs. unfold walk.
  set (start := walk_start cursor (length names)) in *. destruct (decide (start ≤ x)%nat) as [Hle|Hgt].
  - replace (x + length names - start)%nat with ((x - start) + 1 * length names)%nat by lia.
    rewrite Nat.Div0.mod_add, Nat.mod_small by lia. rewrite lookup_app_l by (rewrite length_drop; lia).
    rewrite lookup_drop. f_equal. lia.
  - rewrite Nat.mod_small by lia. rewrite lookup_app_r by (rewrite length_drop; lia). rewrite length_drop.
    rewrite lookup_take_lt by lia. f_equal. lia.
Qed.

Lemma length_walk cursor names : length (walk cursor names) = length names.
Proof.
  unfold walk. rewrite length_app, length_drop, length_take. destruct names as [|n names]; [done|].
  pose proof (walk_start_lt cursor (length (n :: names)) ltac:(simpl; lia)). lia.
Qed.

Lemma lookup_one_attempted answer preferred : not_attempted (lookup_one answer preferred) = true ↔ answer = NotStarted.
Proof. destruct answer as [| |l]; simpl; try done. by destruct (pick_address l preferred). Qed.

(** Passes over the same members, each with what becomes of its lookups. *)
Fixpoint pass_trace (members : list Member) (preferred : AddressType) (r : NameResolver)
    (passes : list ((nat → resolution) * N)) : list (NameResolver * (nat → resolution)) :=
  match passes with
  | [] => []
  | (answers, now) :: passes =>
      (r, answers) :: pass_trace members preferred (resolver_resolve answers now members preferred r).2 passes
  end.

Definition pass_stop (members : list Member) (preferred : AddressType) (pass : NameResolver * (nat → resolution)) : option nat :=
  stopped_at ((λ index, lookup_one (pass.2 index) preferred) <$> walk (nr_cursor pass.1) (hostnames members)).

Lemma pass_attempts members preferred pass x index : hostnames members !! x = Some index →
  attempts (length (hostnames members)) (walk_start (nr_cursor pass.1) (length (hostnames members)), pass_stop members preferred pass) x →
  pass.2 index ≠ NotStarted.
Proof.
  intros Hx Ha Hnot. pose proof (lookup_lt_Some _ _ _ Hx) as Hlt. pose proof (walk_lookup (nr_cursor pass.1) _ _ Hlt) as Hw.
  rewrite Hx in Hw. unfold attempts in Ha. simpl in Ha. unfold pass_stop, stopped_at in Ha.
  set (rank := ((x + length (hostnames members) - walk_start (nr_cursor pass.1) (length (hostnames members))) mod length (hostnames members))%nat) in *.
  assert (((λ index, lookup_one (pass.2 index) preferred) <$> walk (nr_cursor pass.1) (hostnames members)) !! rank = Some LNotAttempted) as Hl.
  { by rewrite list_lookup_fmap, Hw; simpl; rewrite Hnot. }
  destruct (list_find _ _) as [[s y]|] eqn:Hf; simpl in Ha.
  - apply list_find_Some in Hf as (_ & _ & Hmin). by apply (Hmin _ _ Hl Ha).
  - apply list_find_None in Hf. rewrite Forall_forall in Hf. by apply (Hf LNotAttempted); [by eapply list_elem_of_lookup_2|].
Qed.

Lemma pass_trace_cursors members preferred passes : ∀ r,
  cursors (length (hostnames members)) (nr_cursor r) (pass_stop members preferred <$> pass_trace members preferred r passes)
  = (λ pass, (walk_start (nr_cursor pass.1) (length (hostnames members)), pass_stop members preferred pass))
      <$> pass_trace members preferred r passes.
Proof.
  induction passes as [|[answers now] passes IH]; intros r; [done|]. cbn [pass_trace fmap list_fmap cursors]. f_equal.
  rewrite <- IH. f_equal. unfold resolver_resolve. destruct (resolve_names _ _ _) as [resolved known]. cbn [snd nr_cursor].
  rewrite length_walk. done.
Qed.

(** No hostname is starved: when every pass gets to start the first [k] lookups of its walk,
    wherever the cursor stood and however the lookups end, [n] names are all attempted within
    [⌈n/k⌉] passes. *)
Lemma every_name_is_attempted members preferred r (passes : list ((nat → resolution) * N)) k index :
  (0 < k)%nat → index ∈ hostnames members → (length (hostnames members) ≤ length passes * k)%nat →
  (∀ pass rank i, pass ∈ pass_trace members preferred r passes → (rank < k)%nat →
     walk (nr_cursor pass.1) (hostnames members) !! rank = Some i → pass.2 i ≠ NotStarted) →
  ∃ pass, pass ∈ passes ∧ pass.1 index ≠ NotStarted.
Proof.
  intros Hk Hin Hlen Hstart. apply list_elem_of_lookup in Hin as [x Hx]. pose proof (lookup_lt_Some _ _ _ Hx) as Hlt.
  destruct (attempted_within (length (hostnames members)) k x (pass_stop members preferred <$> pass_trace members preferred r passes)
    (nr_cursor r)) as (p & Hp & Ha); [lia|done|done| | |].
  - apply Forall_fmap, Forall_forall. intros pass Hpass s Hs. unfold compose, pass_stop, stopped_at in Hs.
    apply fmap_Some in Hs as ([s' y] & Hs & ->). apply list_find_Some in Hs as (Hy & Hnot & _). simpl.
    rewrite list_lookup_fmap in Hy. apply fmap_Some in Hy as (i & Hi & ->). apply lookup_one_attempted in Hnot.
    destruct (decide (k ≤ s')%nat) as [|Hgt]; [done|]. exfalso. by apply (Hstart pass s' i Hpass ltac:(lia) Hi).
  - rewrite length_fmap. assert (length (pass_trace members preferred r passes) = length passes) as ->.
    { clear. revert r. induction passes as [|[a n] passes IH]; intros r; [done|]. cbn [pass_trace length]. by rewrite IH. }
    pose proof (Nat.mod_upper_bound (x + length (hostnames members) - walk_start (nr_cursor r) (length (hostnames members))) (length (hostnames members))). lia.
  - rewrite pass_trace_cursors in Hp. apply list_elem_of_fmap in Hp as (pass & -> & Hp).
    pose proof (pass_attempts members preferred pass x index Hx Ha) as Hdone.
    assert (∃ now, (pass.2, now) ∈ passes) as [now Hnow]; [|by exists (pass.2, now)].
    clear - Hp. revert r Hp. induction passes as [|[a n] passes IH]; intros r Hp; [by apply not_elem_of_nil in Hp|].
    cbn [pass_trace] in Hp. apply elem_of_cons in Hp as [->|Hp]; [exists n; constructor|].
    destruct (IH _ Hp) as [now Hnow]. exists now. by constructor.
Qed.
