(* ===== verification/Projection.v ===== *)
(** * Projection: what nodes store, as the controller sees it and as load balancers read it

    Models the rest of [updatec/src/dataflow.rs]: the caches of raw reports and outputs that a pass
    refreshes from one listing, the publication of the fleet projection, and the retirement of
    obsolete generations.  A listing shows each object with its ETag and the instant it was stored;
    the ETags an object store hands out are a parameter.  Warnings are not modelled. *)
From S2P Require Import Prelude Identity Maps Releases Dataflow Telemetry Window Rollout Assign Assignment Groups.
From S2P Require Import Publication Inputs Inventory Shared Lease Publish Enroll InputData FleetReports IpAddr Backend HealthProxy.

#[local] Open Scope Z_scope.

(** An absent ETag validates nothing. *)
Definition same_etag (cached current : option string) : bool :=
  match cached, current with
  | Some cached, Some current => bool_decide (cached = current)
  | _, _ => false
  end.

(** ** One scan of a private namespace

    [refresh] of both caches: [stamp] is what else of an object's metadata its entry is compared by,
    when it is usable, and [accept] what the object's bytes are accepted as. *)

Section scan.
Context {E S : Type} (e_tag : string → N → Stored → option string) (root : string) (limit : N).
Context (stamp : Stored → option S) (matches : E → option string → S → bool).
Context (accept : string → string → option string → S → option E).
Implicit Types (entries : BTreeMap E) (seen : BTreeSet).

(** The read of one changed object. *)
Definition read_changed (deadline : Z) (key : string) : Sh Stored (DataflowError + string) :=
  r ← bounded deadline (get key);
  mret (match r with
        | inl EElapsed => inl DTimedOut
        | inl e => inl (DStore e)
        | inr (_, o) => if (str_len (so_body o) <=? limit)%N then inr (so_body o) else inl DTooLarge
        end).

(** [retire_stale_object]: whether the scan ran out of time there. *)
Definition retire_stale_object (deadline : Z) (key : string) : Sh Stored bool :=
  r ← bounded deadline (change (λ s : shared Stored, demand (bool_decide (sh_objects s !! key ≠ None)) ENotFound) (drop_object key));
  mret (match r with inl EElapsed => false | _ => true end).

(** One listed object: the entries and what was seen, or the deadline passed. *)
Definition scan_object (wanted : BTreeMap string) (deadline : Z) (entries : BTreeMap E) (seen : BTreeSet)
    (listed : string * (N * Stored)) : Sh Stored (bool * BTreeMap E * BTreeSet) :=
  let '(key, (version, o)) := listed in
  if negb (object_in_namespace root key) then mret (true, entries, seen)
  else match wanted !! key with
  | None =>
      in_time ← retire_stale_object deadline key;
      mret (match in_time with true => (true, delete key entries, seen) | false => (false, entries, seen) end)
  | Some node =>
      let seen := {[key]} ∪ seen in
      let tag := e_tag key version o in
      match stamp o with
      | None => mret (true, delete key entries, seen)
      | Some st =>
          if option_some_and (λ e, matches e tag st) (entries !! key) then mret (true, entries, seen)
          else
            r ← read_changed deadline key;
            mret (match r with
                  | inl DTimedOut => (false, entries, seen)
                  | inl _ => (true, delete key entries, seen)
                  | inr body =>
                      match accept body node tag st with
                      | Some e => (true, <[key := e]> entries, seen)
                      | None => (true, delete key entries, seen)
                      end
                  end)
      end
  end.

Fixpoint scan_objects (wanted : BTreeMap string) (deadline : Z) (count : nat) entries seen
    (listing : list (string * (N * Stored))) : Sh Stored ((DataflowError + BTreeSet) * BTreeMap E) :=
  match listing with
  | [] => mret (inr seen, entries)
  | listed :: listing =>
      if (MAX_BACKEND_INVENTORY_MEMBERS <=? count)%nat then mret (inl DNamespace, entries)
      else
        '(in_time, entries, seen) ← scan_object wanted deadline entries seen listed;
        match in_time with
        | true => scan_objects wanted deadline (Datatypes.S count) entries seen listing
        | false => mret (inl DTimedOut, entries)
        end
  end.

(** The entries after a scan; one that failed leaves what it had done to them. *)
Definition scan (wanted : BTreeMap string) entries : Sh Stored ((DataflowError + unit) * BTreeMap E) :=
  t ← peek sh_clock;
  let deadline := t + OBJECT_STORE_MAINTENANCE_TIMEOUT in
  r ← bounded deadline list_objects;
  match r with
  | inl EElapsed => mret (inl DTimedOut, entries)
  | inl e => mret (inl (DStore e), entries)
  | inr objects =>
      '(r, entries) ← scan_objects wanted deadline 0 entries ∅ (filter (λ x, String.prefix root x.1 = true) objects);
      mret (match r with
            | inl e => (inl e, entries)
            | inr seen => (inr tt, filter (λ x, x.1 ∈ seen) entries)
            end)
  end.
End scan.

Section caches.
Context `{!ObjectPaths} `{!Sha256} (prefix : string) (e_tag : string → N → Stored → option string).
Context `{!ReportParts} `{!Semver} `{!Signed} `{!JsonValues} `{!FleetJson}.

(** [timestamp_millis] of a stored instant, which may not be before the epoch. *)
Definition stored_at (o : Stored) : option N := if 0 <=? so_modified o / 1000 then Some (Z.to_N (so_modified o / 1000)) else None.

Record CachedReport : Type := mkCachedReport {
  cr_etag : option string;
  cr_stored_at : N;
  cr_accepted : AcceptedReport;
}.

#[export] Instance CachedReport_eq_dec : EqDecision CachedReport.
Proof. solve_decision. Defined.

Record ReportCache : Type := mkReportCache {
  rc_entries : BTreeMap CachedReport;
  rc_initialized : bool;
}.

Definition report_matches (e : CachedReport) (tag : option string) (st : N) : bool :=
  same_etag (cr_etag e) tag && (cr_stored_at e =? st)%N.

Definition report_accept (body node : string) (tag : option string) (st : N) : option CachedReport :=
  accepted ← accept_stored_report body node st;
  Some (mkCachedReport tag st accepted).

Record ReportSnapshot : Type := mkReportSnapshot {
  rs_accepted : BTreeMap AcceptedReport;
  rs_changed : bool;
}.

(** The keys wanted, each with its node. *)
Definition wanted_of (key : string → string) (nodes : list string) : BTreeMap string :=
  list_to_map ((λ node, (key node, node)) <$> rev nodes).

Definition report_root : string := object_key prefix REPORT_ROOT.
Definition output_root : string := object_key prefix OUTPUT_ROOT.

Definition scan_reports (nodes : list string) (entries : BTreeMap CachedReport) :=
  scan e_tag report_root MAX_REPORT_ENVELOPE_BYTES stored_at report_matches report_accept
    (wanted_of (report_key prefix) nodes) entries.

(** The accepted reports of the wanted nodes. *)
Definition snapshot_accepted (nodes : list string) (entries : BTreeMap CachedReport) : BTreeMap AcceptedReport :=
  list_to_map (omap (λ x, (λ e, (x.2, cr_accepted e)) <$> entries !! x.1) (bt_iter (wanted_of (report_key prefix) nodes))).

(** [ReportCache::refresh] *)
Definition report_refresh (nodes : list string) (cache : ReportCache)
    : Sh Stored ((DataflowError + ReportSnapshot) * ReportCache) :=
  '(r, entries) ← scan_reports nodes (rc_entries cache);
  mret (match r with
        | inl e => (inl e, mkReportCache entries (rc_initialized cache))
        | inr _ =>
            (inr (mkReportSnapshot (snapshot_accepted nodes entries)
                    (negb (rc_initialized cache) || negb (bool_decide (entries = rc_entries cache)))),
             mkReportCache entries true)
        end).

(** [ReportSnapshot::into_envelopes] *)
Definition into_envelopes (s : ReportSnapshot) : BTreeMap Envelope := ar_envelope <$> rs_accepted s.

(** [OutputCache::refresh] *)
Context `{!Base64} `{!Hmac} `{!DataflowJson} `{!SemverOrder} `{!Urls} `{!AssignmentJson} `{!Chrono}.

Definition output_matches (e : option string * ExactOutputPublication) (tag : option string) (_ : unit) : bool := same_etag e.1 tag.

Definition output_accept (body node : string) (tag : option string) (_ : unit) : option (option string * ExactOutputPublication) :=
  publication ← ok_of (ExactOutputPublication_decode body node);
  Some (tag, publication).

Definition output_refresh (nodes : list string) (entries : BTreeMap (option string * ExactOutputPublication))
    : Sh Stored ((DataflowError + BTreeMap ExactOutputPublication) * BTreeMap (option string * ExactOutputPublication)) :=
  '(r, entries) ← scan e_tag output_root MAX_DATAFLOW_BODY_BYTES (λ _, Some tt) output_matches output_accept
                    (wanted_of (output_key prefix) nodes) entries;
  mret (match r with
        | inl e => (inl e, entries)
        | inr _ => (inr (list_to_map ((λ e, (op_node (xo_publication e.2), e.2)) <$> bt_values entries)), entries)
        end).
End caches.

(** ** The fleet projection *)

Section projection.
Context `{!ObjectPaths} `{!Sha256} (prefix : string).
Context `{!ReportParts} `{!Semver} `{!Signed} `{!JsonValues} `{!FleetJson}.

(** An unconditional put. *)
Definition put_any (key body : string) : Sh Stored (ApiError + N) :=
  change (λ _, inr tt) (λ s, put_object key (mkStored (sh_clock s) body) s).

Definition put_shard (shard : FleetShardLocation * string) : Sh Stored (DataflowError + unit) :=
  r ← put_any (object_key prefix (location_object_key shard.1)) shard.2;
  mret (match r with inr _ => inr tt | inl e => inl (DStore e) end).

(** The reports of a snapshot, recorded. *)
Definition fleet_of (accepted : BTreeMap AcceptedReport) : BTreeMap StoredReport :=
  foldl record ∅ (bt_values accepted).

(** [publish_report_projection], with what the random generator yields; [None] is a panic. *)
Definition publish_report_projection (random : option string) (accepted : BTreeMap AcceptedReport) (max_shards : FleetShardLimit)
    : Sh Stored (option (DataflowError + unit)) :=
  match rebalance random (fleet_of accepted) max_shards with
  | None => mret None
  | Some (inl e) => mret (Some (inl (DContract e)))
  | Some (inr g) =>
      r ← (_ ←? sh_each put_shard (fg_shards g);
           r ← put_any (object_key prefix FLEET_INDEX_OBJECT_KEY) (fg_index_body g);
           mret (match r with inr _ => inr tt | inl e => inl (DStore e) end));
      mret (Some r)
  end.

(** One listed object of the sweep. *)
Definition sweep_shard (active : BTreeSet) (cutoff deadline : Z) (listed : string * (N * Stored)) : Sh Stored (DataflowError + unit) :=
  let '(key, (_, o)) := listed in
  if String.prefix (String.append (object_key prefix "telemetry/fleet") "/") key
     && (so_modified o <=? cutoff) && negb (bool_decide (key ∈ active)) then
    r ← bounded deadline (change (λ s : shared Stored, demand (bool_decide (sh_objects s !! key ≠ None)) ENotFound) (drop_object key));
    mret (match r with
          | inr _ | inl ENotFound => inr tt
          | inl EElapsed => inl DTimedOut
          | inl e => inl (DStore e)
          end)
  else mret (inr tt).

(** [sweep_report_projections_before] *)
Definition sweep_report_projections_before (cutoff : Z) : Sh Stored (DataflowError + unit) :=
  r ← read_object_bounded (object_key prefix FLEET_INDEX_OBJECT_KEY) MAX_FLEET_INDEX_BYTES;
  match r with
  | inl (DStore ENotFound) => mret (inr tt)
  | inl e => mret (inl e)
  | inr body =>
      index ←? lift (ok_or (FleetIndex_parse body) DNamespace);
      let active : BTreeSet := list_to_set ((λ l, object_key prefix (location_object_key l)) <$> shard_locations index) in
      t ← peek sh_clock;
      let deadline := t + OBJECT_STORE_MAINTENANCE_TIMEOUT in
      listing ← bounded deadline list_objects;
      match listing with
      | inl EElapsed => mret (inl DTimedOut)
      | inl e => mret (inl (DStore e))
      | inr objects =>
          sh_each (sweep_shard active cutoff deadline)
            (filter (λ x, String.prefix (object_key prefix "telemetry/fleet") x.1 = true) objects)
      end
  end.
End projection.

(** ** What a reader finds *)

Lemma append_inj_len a b c d : String.length a = String.length b → String.append a c = String.append b d → a = b ∧ c = d.
Proof.
  revert b. induction a as [|x a IH]; intros [|y b] Hl; try done; simpl. intros [= -> He].
  destruct (IH b) as [-> ->]; [by injection Hl|done|done].
Qed.

Lemma hex4_inj i j : (i < 64)%nat → (j < 64)%nat → hex4 i = hex4 j → i = j.
Proof.
  assert (forallb (λ i, forallb (λ j, (i =? j)%nat || negb (String.eqb (hex4 i) (hex4 j))) (seq 0 64)) (seq 0 64) = true) as Hall
    by by vm_compute.
  intros Hi Hj He. rewrite forallb_forall in Hall. specialize (Hall i (proj2 (in_seq 64 0 i) ltac:(lia))).
  rewrite forallb_forall in Hall. specialize (Hall j (proj2 (in_seq 64 0 j) ltac:(lia))).
  rewrite He, String.eqb_refl, orb_false_r in Hall. by apply Nat.eqb_eq.
Qed.

Lemma location_object_key_inj l l' : sound_location l → sound_location l' → location_object_key l = location_object_key l' →
  sl_generation l = sl_generation l' ∧ sl_shard l = sl_shard l'.
Proof.
  intros [Hg Hs] [Hg' Hs']. unfold location_object_key.
  assert (String.length (hex4 (sl_shard l)) = String.length (hex4 (sl_shard l'))) as Hlen by done.
  pose proof (hex4_inj _ _ Hs Hs') as Hinj. revert Hinj Hlen. generalize (hex4 (sl_shard l)), (hex4 (sl_shard l')).
  intros h h' Hinj Hlen. simpl. intros [= He].
  apply andb_true_iff in Hg as [Hg%N.eqb_eq _], Hg' as [Hg'%N.eqb_eq _]. rewrite str_len_length in Hg, Hg'.
  apply append_inj_len in He as [-> [= He]]; [|lia]. split; [done|].
  apply append_inj_len in He as [He _]; auto.
Qed.

Section whole.
Context `{!ObjectPaths} `{!Sha256} (prefix : string).
Context `{!ReportParts} `{!Semver} `{!Signed} `{!JsonValues} `{!FleetJson}.
Implicit Types (s : shared Stored) (l : FleetShardLocation) (accepted : BTreeMap AcceptedReport).

Definition index_key : string := object_key prefix FLEET_INDEX_OBJECT_KEY.
Definition shard_key l : string := object_key prefix (location_object_key l).

(** The keys of the projection are told apart by the store, and the index is not below the shards. *)
Definition projection_keys : Prop :=
  (∀ l l', sound_location l → sound_location l' → shard_key l = shard_key l' → location_object_key l = location_object_key l')
  ∧ (∀ l, sound_location l → shard_key l ≠ index_key)
  ∧ String.prefix (String.append (object_key prefix "telemetry/fleet") "/") index_key = false.

(** Nobody else writes the projection. *)
Definition projection_rely s s' : Prop :=
  sh_objects s' !! index_key = sh_objects s !! index_key
  ∧ ∀ l, sound_location l → sh_objects s' !! shard_key l = sh_objects s !! shard_key l.

#[export] Instance projection_rely_refl : Reflexive projection_rely.
Proof. by intros s. Qed.

Definition body_at s (key : string) : option string := so_body ∘ snd <$> sh_objects s !! key.

(** The index that readers follow. *)
Definition visible s : option FleetIndex := body_at s index_key ≫= FleetIndex_parse.

(** A shard that reads as the one at its location. *)
Definition reads_at s l : Prop := is_Some (body_at s (shard_key l) ≫= λ body, parse_shard body l).

(** Every shard the visible index names is there. *)
Definition whole s : Prop := ∀ index l, visible s = Some index → l ∈ shard_locations index → reads_at s l.

(** A change of the projection from one whole state to another. *)
Definition keeps_whole s s' : Prop := whole s ∧ whole s'.

Lemma body_at_put s k o key :
  body_at (put_object k o s) key = if decide (key = k) then Some (so_body o) else body_at s key.
Proof.
  unfold body_at, put_object. cbn [sh_objects]. destruct (decide (key = k)) as [->|Hne].
  - by rewrite lookup_insert_eq.
  - by rewrite lookup_insert_ne by done.
Qed.

Lemma body_at_drop s k key : body_at (drop_object k s) key = if decide (key = k) then None else body_at s key.
Proof.
  unfold body_at, drop_object. cbn [sh_objects]. destruct (decide (key = k)) as [->|Hne].
  - by rewrite lookup_delete_eq.
  - by rewrite lookup_delete_ne by done.
Qed.

Lemma visible_sound s index l : visible s = Some index → l ∈ shard_locations index → sound_location l.
Proof.
  unfold visible, FleetIndex_parse. intros (body & _ & Hp)%bind_Some [i [-> Hi%elem_of_seq]]%list_elem_of_fmap.
  apply bind_Some in Hp as (index' & _ & Hv). destruct (FleetIndex_valid index') eqn:Hvalid; [|done]. injection Hv as ->.
  unfold FleetIndex_valid in Hvalid. rewrite !andb_true_iff in Hvalid. destruct Hvalid as [[[_ Hg] Hn] _].
  split; [done|]. apply andb_true_iff in Hn as [_ Hn%Nat.leb_le]. unfold MAX_FLEET_REPORT_SHARDS in Hn. simpl. lia.
Qed.

Lemma rely_visible s s' : projection_rely s s' → visible s' = visible s.
Proof. intros [Hi _]. unfold visible, body_at. by rewrite Hi. Qed.

Lemma rely_body s s' l : projection_rely s s' → sound_location l → body_at s' (shard_key l) = body_at s (shard_key l).
Proof. intros [_ Hs] Hl. unfold body_at. by rewrite Hs. Qed.

Lemma rely_whole s s' : projection_rely s s' → whole s → whole s'.
Proof.
  intros HR Hw index l. rewrite (rely_visible _ _ HR). intros Hv Hl. unfold reads_at.
  rewrite (rely_body _ _ _ HR) by (by eapply visible_sound). by apply (Hw index).
Qed.

(** What is read of a shard depends on its location's number of shards; whether it reads does not. *)
Lemma reads_same_place body l l' : sl_generation l = sl_generation l' → sl_shard l = sl_shard l' →
  is_Some (parse_shard body l) → is_Some (parse_shard body l').
Proof.
  intros Hg Hs. unfold parse_shard. destruct (_ <=? _)%N; [|done]. destruct (shard_from_slice body) as [d|]; [|done]. simpl.
  rewrite Hg, Hs. by destruct (_ && _).
Qed.

Context (Hkeys : projection_keys).

Lemma put_shard_whole s l body t : sound_location l → is_Some (parse_shard body l) →
  whole s → whole (put_object (shard_key l) (mkStored t body) s).
Proof.
  intros Hl Hb Hw index l'. destruct Hkeys as (Hinj & Hne & _). unfold visible. rewrite body_at_put.
  rewrite decide_False by (intros ?; by eapply Hne). intros Hv Hl'. unfold reads_at. rewrite body_at_put.
  pose proof (visible_sound s index l' Hv Hl') as Hsound.
  destruct (decide _) as [Hk|_]; [|by apply (Hw index)]. apply Hinj in Hk; [|done..].
  apply location_object_key_inj in Hk as [Hg Hs]; [|done..]. simpl. by eapply reads_same_place.
Qed.

Lemma put_index_whole s body t :
  (∀ index l, FleetIndex_parse body = Some index → l ∈ shard_locations index → reads_at s l) →
  whole (put_object index_key (mkStored t body) s).
Proof.
  intros Hall index l. unfold visible. rewrite body_at_put, decide_True by done. simpl. intros Hp Hl. unfold reads_at.
  rewrite body_at_put. rewrite decide_False; [by apply (Hall index)|]. destruct Hkeys as (_ & Hne & _). apply Hne.
  apply (visible_sound (put_object index_key (mkStored t body) s) index); [|done].
  unfold visible. by rewrite body_at_put, decide_True.
Qed.
Abbreviation prun := (runs projection_rely keeps_whole).

Definition holds_shard s (x : FleetShardLocation * string) : Prop := body_at s (shard_key x.1) = Some x.2.

Lemma holds_stable s s' shards : projection_rely s s' → Forall (λ x, sound_location x.1) shards →
  Forall (holds_shard s) shards → Forall (holds_shard s') shards.
Proof.
  intros HR Hs Hh. rewrite Forall_forall in Hs, Hh |- *. intros x Hx. unfold holds_shard.
  rewrite (rely_body s) by auto. by apply Hh.
Qed.

Definition shards_ok (shards : list (FleetShardLocation * string)) : Prop :=
  NoDup (shard_key ∘ fst <$> shards) ∧ Forall (λ x, sound_location x.1 ∧ is_Some (parse_shard x.2 x.1)) shards.

Lemma put_shard_runs x k : sound_location x.1 → is_Some (parse_shard x.2 x.1) →
  Forall (λ y, sound_location y.1 ∧ shard_key y.1 ≠ shard_key x.1) k →
  prun (λ s, whole s ∧ Forall (holds_shard s) k) (put_shard prefix x)
    (λ _ r s', whole s' ∧ (r = inr tt → Forall (holds_shard s') (x :: k))).
Proof.
  intros Hx Hb Hk. unfold put_shard, put_any.
  assert (∀ s1 t, Forall (holds_shard s1) k → Forall (holds_shard (put_object (shard_key x.1) (mkStored t x.2) s1)) (x :: k)) as Hput.
  { intros s1 t Hh. constructor; [by unfold holds_shard; rewrite body_at_put, decide_True|].
    rewrite Forall_forall in Hh, Hk |- *. intros y Hy. unfold holds_shard. rewrite body_at_put.
    rewrite decide_False by apply Hk, Hy. by apply Hh. }
  assert (Forall (λ y : FleetShardLocation * string, sound_location y.1) k) as Hsound by (eapply Forall_impl; [exact Hk|by intros y []]).
  eapply sh_bind; [apply runs_change; [apply _|]|].
  - intros s s1 [Hw _] HR _. split; [by eapply rely_whole|]. apply put_shard_whole; [done..|]. by eapply rely_whole.
  - intros s r [Hw Hh]. apply sh_ret. intros s' (s1 & HR & [[-> Hr]|(_ & -> & Hr)]).
    + split; [by eapply rely_whole|]. by destruct Hr as [->|(e & [=] & ->)].
    + split; [by apply put_shard_whole; [done..|eapply rely_whole]|]. intros _. apply Hput. by eapply holds_stable.
Qed.

Lemma put_shards_runs shards : ∀ k, shards_ok (shards ++ k) →
  prun (λ s, whole s ∧ Forall (holds_shard s) k) (sh_each (put_shard prefix) shards)
    (λ _ r s', whole s' ∧ (r = inr tt → Forall (holds_shard s') (shards ++ k))).
Proof.
  induction shards as [|x shards IH]; intros k [Hnd Hok]; cbn [sh_each].
  - apply sh_ret. tauto.
  - cbn in Hnd. apply NoDup_cons in Hnd as [Hx Hnd]. apply Forall_cons in Hok as [[Hl Hb] Hok].
    assert (∀ y, y ∈ shards ++ k → shard_key y.1 ≠ shard_key x.1) as Hne.
    { intros y Hy He. apply Hx. change (shard_key x.1) with ((shard_key ∘ fst) x). simpl. rewrite <- He.
      apply (list_elem_of_fmap_2 (shard_key ∘ fst)). done. }
    eapply runs_try; [apply (put_shard_runs x k Hl Hb)| |].
    + apply Forall_forall. intros y Hy. rewrite Forall_forall in Hok. split; [apply Hok; set_solver|apply Hne; set_solver].
    + intros s e s' _ [Hw _]. by split.
    + intros s [] _. eapply runs_weaken; [apply (IH (x :: k))| |].
      * split.
        -- rewrite <- Permutation_middle. cbn. by apply NoDup_cons.
        -- apply Forall_app. apply Forall_app in Hok as [? ?]. split; [done|by constructor].
      * intros s' [Hw Hh]. auto.
      * intros s1 r s' _ [Hw Hh]. split; [done|]. intros Hr. specialize (Hh Hr). by rewrite <- Permutation_middle in Hh.
Qed.

(** ** Publication and retirement *)

Definition published s random accepted limit : Prop :=
  ∃ g, rebalance (Some random) (fleet_of accepted) limit = Some (inr g)
    ∧ body_at s index_key = Some (fg_index_body g) ∧ Forall (holds_shard s) (fg_shards g).

Lemma generation_shards random m limit : String.length random = 16%nat → in_shard_range (shard_limit limit) = true →
  let n := shard_limit limit in
  shards_ok ((λ i, (shard_at random n i, (encode_shard (bin n i m) (shard_at random n i)).1)) <$> seq 0 n).
Proof.
  intros Hr Hn n. destruct Hkeys as (Hinj & _). split.
  - rewrite <- list_fmap_compose. apply NoDup_fmap_2_strong; [|apply NoDup_seq].
    intros i j Hi%elem_of_seq Hj%elem_of_seq He. pose proof (shard_at_sound random n i Hr Hn ltac:(lia)) as Hli.
    pose proof (shard_at_sound random n j Hr Hn ltac:(lia)) as Hlj.
    apply Hinj in He; [|done..]. by apply location_object_key_inj in He as [_ He].
  - apply Forall_fmap, Forall_forall. intros i Hi%elem_of_seq. pose proof (shard_at_sound random n i Hr Hn ltac:(lia)) as Hl.
    split; [done|]. destruct (encode_shard_reads_back _ (bin n i m) Hl) as (kept & ev & _ & _ & _ & _ & Hp). simpl. by rewrite Hp.
Qed.

(** A generation whose shards are in place reads throughout. *)
Lemma generation_reads s random accepted limit g index l :
  String.length random = 16%nat → in_shard_range (shard_limit limit) = true →
  rebalance (Some random) (fleet_of accepted) limit = Some (inr g) → Forall (holds_shard s) (fg_shards g) →
  FleetIndex_parse (fg_index_body g) = Some index → l ∈ shard_locations index → reads_at s l.
Proof.
  intros Hr Hn Hg Hh Hp Hl. pose proof (rebalance_spec random (fleet_of accepted) limit Hr Hn) as Hspec. rewrite Hg in Hspec.
  destruct Hspec as (Hi & Hparse & Hshards & _). destruct (generation_shards random (fleet_of accepted) limit Hr Hn) as [_ Hok].
  rewrite Hparse in Hp. injection Hp as <-. rewrite Hi in Hl. apply list_elem_of_fmap in Hl as (i & -> & Hlt).
  rewrite Hshards in Hh. rewrite Forall_fmap, Forall_forall in Hh. rewrite Forall_fmap, Forall_forall in Hok.
  specialize (Hh i Hlt). specialize (Hok i Hlt) as [_ Hb]. unfold holds_shard in Hh. cbn [compose fst snd] in Hh.
  unfold reads_at. cbn [fi_generation fi_max_shards fresh_index].
  change (mkFleetShardLocation _ _ _) with (shard_at random (shard_limit limit) i). rewrite Hh. exact Hb.
Qed.

Lemma publish_runs random accepted limit : String.length random = 16%nat → in_shard_range (shard_limit limit) = true →
  prun whole (publish_report_projection prefix (Some random) accepted limit)
    (λ _ r s', whole s' ∧ r ≠ None ∧ (r = Some (inr tt) → published s' random accepted limit)).
Proof.
  intros Hr Hn. unfold publish_report_projection.
  pose proof (rebalance_spec random (fleet_of accepted) limit Hr Hn) as Hspec.
  destruct (rebalance _ _ _) as [[e|g]|] eqn:Hg; [by apply sh_ret| |done].
  destruct Hspec as (Hi & Hparse & Hshards & _). pose proof (generation_shards random (fleet_of accepted) limit Hr Hn) as Hok.
  cbv zeta in Hok, Hshards. rewrite <- Hshards in Hok. destruct Hok as [Hnd Hok].
  assert (Forall (λ x : FleetShardLocation * string, sound_location x.1) (fg_shards g)) as Hsound by (eapply Forall_impl; [exact Hok|by intros y []]).
  eapply (sh_bind _ _ _ _ _ (λ _ r s', whole s' ∧ (r = inr tt → published s' random accepted limit))).
  2: { intros s r _. apply sh_ret. intros s' [Hw Hp]. split; [done|]. split; [done|]. intros [= ->]. auto. }
  eapply runs_try.
  - eapply runs_weaken; [apply (put_shards_runs _ []); by rewrite app_nil_r; split| |intros ? ? ? _ HQ; exact HQ]. intros s Hw. by split; [|constructor].
  - intros s e s' _ [Hw _]. by split.
  - intros s [] _. rewrite app_nil_r.
    assert (∀ s0 s1, projection_rely s0 s1 → (@inr DataflowError unit tt = inr tt → Forall (holds_shard s0) (fg_shards g)) →
      Forall (holds_shard s1) (fg_shards g)) as Hst by (intros; eapply holds_stable; eauto).
    assert (∀ s1, Forall (holds_shard s1) (fg_shards g) → ∀ index l,
      FleetIndex_parse (fg_index_body g) = Some index → l ∈ shard_locations index → reads_at s1 l) as Hread
      by (intros; eapply generation_reads; eauto).
    unfold put_any. eapply sh_bind; [apply runs_change; [apply _|]|].
    + intros s0 s1 [Hw Hh] HR _. split; [by eapply rely_whole|]. apply put_index_whole, Hread. eauto.
    + intros s0 r [Hw Hh]. apply sh_ret. intros s' (s1 & HR & [[-> Hr']|(_ & -> & Hr')]).
      * split; [by eapply rely_whole|]. by destruct Hr' as [->|(e & [=] & ->)].
      * split; [apply put_index_whole, Hread; eauto|]. intros _. exists g. split; [done|].
        split; [by rewrite body_at_put, decide_True|]. specialize (Hst _ _ HR Hh).
        rewrite Forall_forall in Hst, Hsound |- *. intros y Hy. unfold holds_shard. rewrite body_at_put, decide_False; [by apply Hst|].
        destruct Hkeys as (_ & Hne & _). auto.
Qed.
(** The generation readers follow is what it was. *)
Definition kept s0 s : Prop :=
  body_at s index_key = body_at s0 index_key
  ∧ ∀ index l, visible s0 = Some index → l ∈ shard_locations index → body_at s (shard_key l) = body_at s0 (shard_key l).

Lemma kept_whole s0 s : kept s0 s → whole s0 → whole s.
Proof.
  intros [Hi Hs] Hw index l. unfold visible, reads_at. rewrite Hi. intros Hv Hl. rewrite (Hs index) by done. by apply (Hw index).
Qed.

Lemma rely_keeps_generation s0 s s' : kept s0 s → projection_rely s s' → kept s0 s'.
Proof.
  intros [Hi Hs] HR. split.
  - destruct HR as [HR _]. unfold body_at in *. by rewrite HR.
  - intros index l Hv Hl. rewrite (rely_body s) by (done || by eapply visible_sound). by apply (Hs index).
Qed.

Definition active_keys (index : FleetIndex) : BTreeSet :=
  list_to_set ((λ l, object_key prefix (location_object_key l)) <$> shard_locations index).

Lemma drop_kept s0 s index key : visible s0 = Some index → key ≠ index_key → key ∉ active_keys index →
  kept s0 s → kept s0 (drop_object key s).
Proof.
  intros Hv Hne Hactive [Hi Hs]. split; [by rewrite body_at_drop, decide_False|].
  intros index' l Hv' Hl. rewrite body_at_drop. assert (index' = index) as -> by congruence.
  rewrite decide_False; [by apply (Hs index)|]. intros He. apply Hactive. unfold active_keys. rewrite elem_of_list_to_set.
  rewrite <- He. by apply (list_elem_of_fmap_2 (λ l, object_key prefix (location_object_key l))).
Qed.

Lemma sweep_shard_runs s0 index cutoff deadline x : whole s0 → visible s0 = Some index →
  prun (kept s0) (sweep_shard prefix (active_keys index) cutoff deadline x) (λ _ _ s', kept s0 s').
Proof.
  intros Hw Hv. destruct x as [key [version o]]. unfold sweep_shard.
  destruct (_ && _ && _) eqn:Hc; [|by apply sh_ret]. rewrite !andb_true_iff, negb_true_iff in Hc.
  destruct Hc as [[Hpre _] Hactive%bool_decide_eq_false].
  assert (key ≠ index_key) as Hne. { intros ->. destruct Hkeys as (_ & _ & Hk). by rewrite Hk in Hpre. }
  eapply sh_bind; [apply runs_bounded_change; [apply _|]|].
  - intros s s1 Hs _ HR _. assert (kept s0 s1) as Hs1 by by eapply rely_keeps_generation.
    split; [by eapply kept_whole|]. eapply kept_whole; [|done]. by eapply drop_kept.
  - intros s r Hs. apply sh_ret. intros s' (s1 & HR & [[-> _]|(_ & ->)]); [by eapply rely_keeps_generation|].
    eapply drop_kept; [done..|]. by eapply rely_keeps_generation.
Qed.

Lemma sh_each_runs {A E} (f : A → Sh Stored (E + unit)) (P : shared Stored → Prop) items :
  (∀ x, prun P (f x) (λ _ _ s', P s')) → prun P (sh_each f items) (λ _ _ s', P s').
Proof.
  intros Hf. induction items as [|x items IH]; cbn [sh_each]; [by apply sh_ret|].
  eapply runs_try; [apply Hf|done|]. intros s [] _. exact IH.
Qed.

Lemma read_object_bounded_runs P key limit :
  prun P (read_object_bounded key limit)
    (λ s r s', projection_rely s s' ∧ ∀ body, r = inr body → body_at s' key = Some body).
Proof.
  unfold read_object_bounded. eapply sh_bind; [apply runs_read; apply _|]. intros s r _. apply sh_ret.
  intros s' [HR Hr]. split; [done|]. intros body He. destruct Hr as [->| ->]; [done|]. unfold body_at.
  destruct (sh_objects s' !! key) as [[v o]|]; [|done]. simpl in *. unfold demand in He. destruct (_ <=? _)%N; [|done].
  simpl in He. congruence.
Qed.

Lemma sweep_runs s0 cutoff : whole s0 →
  prun (kept s0) (sweep_report_projections_before prefix cutoff) (λ _ _ s', kept s0 s').
Proof.
  intros Hw. unfold sweep_report_projections_before. eapply sh_bind; [apply read_object_bounded_runs|].
  intros s [e|body] Hs.
  { destruct e as [[]| | | | | | |]; apply sh_ret; intros s' [HR _]; by eapply rely_keeps_generation. }
  apply runs_lift; [intros e s' _ [HR _]; by eapply rely_keeps_generation|]. intros index Hindex%ok_or_inr.
  assert (∀ s', projection_rely s s' ∧ (∀ b, @inr DataflowError string body = inr b → body_at s' index_key = Some b) →
    kept s0 s' ∧ visible s0 = Some index) as Hread.
  { intros s' [HR Hb]. assert (kept s0 s') as Hk by by eapply rely_keeps_generation. split; [done|].
    unfold visible. destruct Hk as [<- _]. by rewrite (Hb body). }
  eapply runs_weaken with (P' := λ s', kept s0 s' ∧ visible s0 = Some index); [|exact Hread|intros ? ? ? _ HQ; exact HQ].
  eapply sh_bind; [apply runs_peek|]. intros s1 t [Hk Hv]. eapply sh_bind; [apply runs_bounded_read; apply _|].
  intros s2 [e|objects] [-> ->].
  { destruct e; apply sh_ret; intros s' [HR _]; by eapply rely_keeps_generation. }
  eapply runs_weaken; [apply sh_each_runs; intros x; by apply sweep_shard_runs| |by intros ? ? ? _ HQ].
  intros s' [HR _]. by eapply rely_keeps_generation.
Qed.
End whole.

(** ** The controller's part, and the reader's *)

Section projected.
Context `{!ObjectPaths} `{!Sha256} (prefix : string).
Context `{!ReportParts} `{!Semver} `{!Signed} `{!JsonValues} `{!FleetJson}.
Implicit Types (s : shared Stored) (accepted : BTreeMap AcceptedReport).

(** What the controller does to the projection. *)
Inductive projection_op : Type :=
| OpPublish (random : string) (accepted : BTreeMap AcceptedReport) (limit : FleetShardLimit)
| OpSweep (cutoff : Z).

Definition tend_one (op : projection_op) : Sh Stored unit :=
  match op with
  | OpPublish random accepted limit => _ ← publish_report_projection prefix (Some random) accepted limit; mret tt
  | OpSweep cutoff => _ ← sweep_report_projections_before prefix cutoff; mret tt
  end.

Fixpoint tend (ops : list projection_op) : Sh Stored unit :=
  match ops with
  | [] => mret tt
  | op :: ops => _ ← tend_one op; tend ops
  end.

Definition op_ok (op : projection_op) : Prop :=
  match op with
  | OpPublish random _ limit => String.length random = 16%nat ∧ in_shard_range (shard_limit limit) = true
  | OpSweep _ => True
  end.

Context (Hkeys : projection_keys prefix).
Abbreviation prun := (runs (projection_rely prefix) (keeps_whole prefix)).

Lemma sweep_whole cutoff : prun (whole prefix) (sweep_report_projections_before prefix cutoff) (λ s _ s', kept prefix s s').
Proof.
  intros c t c' Hh Hg Hw He. apply (sweep_runs prefix Hkeys (cl_shared c) cutoff Hw c t c'); [done..| |done]. done.
Qed.

Lemma tend_runs ops : Forall op_ok ops → prun (whole prefix) (tend ops) (λ _ _ s', whole prefix s').
Proof.
  induction 1 as [|op ops Hop _ IH]; cbn [tend]; [by apply sh_ret|].
  eapply (sh_bind _ _ _ _ _ (λ _ _ s', whole prefix s')); [|intros s [] _; exact IH].
  destruct op as [random accepted limit|cutoff]; cbn [tend_one].
  - destruct Hop as [Hr Hn]. eapply sh_bind; [by apply (publish_runs prefix Hkeys)|]. intros s r _. apply sh_ret. by intros s' [Hw _].
  - eapply sh_bind; [apply sweep_whole|]. intros s r Hw. apply sh_ret. intros s' Hk. by eapply kept_whole.
Qed.

(** C30. Every index a reader can see names a whole generation: whatever the controller publishes
    and retires, in any order, with any of its requests lost or unanswered and the store changed by
    others elsewhere in between, each change it makes leads from a state in which every shard the
    visible index names is there and reads as the shard it is named as to another such state. *)
Theorem visible_index_names_a_whole_generation ops s turns c :
  Forall op_ok ops → honest (projection_rely prefix) turns → whole prefix s →
  tend ops (starts s turns) = (tt, c) →
  whole prefix (cl_shared c) ∧ Forall (λ x, whole prefix x.1 ∧ whole prefix x.2) (cl_made c).
Proof.
  intros Hops Hh Hw He. destruct (tend_runs ops Hops (starts s turns) tt c) as (_ & Hg & Hw'); [done|constructor|done..].
Qed.

(** What the shard of a node keeps of the fleet. *)
Definition projected_reports (random : string) (n : nat) (fleet : BTreeMap StoredReport) (i : nat) : BTreeMap StoredReport :=
  (fit_shard (bin n i fleet) (shard_at random n i)).1.

(** serde_json writes an envelope, an object of strings, in its shortest form. *)
Class ShortestEnvelopes : Prop := envelope_shortest : ∀ body (e : Envelope),
  from_slice body = Some e → ∃ written, to_vec e = Some written ∧ (str_len written ≤ str_len body)%N.
Context `{!ShortestEnvelopes}.

(** Every report of a snapshot came through [accept_stored_report]. *)
Definition gated (accepted : BTreeMap AcceptedReport) : Prop :=
  ∀ key a, accepted !! key = Some a → ∃ body, accept_stored_report body (ar_node a) (ar_stored_at_ms a) = Some a.

Lemma fleet_of_lookup accepted node stored :
  fleet_of accepted !! node = Some stored → ∃ key a, accepted !! key = Some a ∧ into_stored a = (node, stored).
Proof.
  unfold fleet_of. assert (∀ l m, foldl record m l !! node = Some stored →
    m !! node = Some stored ∨ ∃ a, a ∈ l ∧ into_stored a = (node, stored)) as Hgo.
  { induction l as [|a l IH]; intros m Hm; cbn [foldl] in Hm; [by left|].
    destruct (IH _ Hm) as [Hr|(a' & ? & ?)]; [|right; exists a'; split; [by right|done]].
    unfold record in Hr. destruct (into_stored a) as [n' s'] eqn:Ha. apply lookup_insert_Some in Hr as [[<- <-]|[_ ?]]; [right|by left].
    exists a. split; [by left|done]. }
  intros [Hm|(a & Hin & Ha)]%Hgo; [by rewrite lookup_empty in Hm|]. apply elem_of_bt_values in Hin as [key Hk]. by exists key, a.
Qed.

(** A gated report passes the reader's own test. *)
Lemma gated_readable accepted l node stored :
  gated accepted → fleet_of accepted !! node = Some stored → shard_for node (sl_max_shards l) = sl_shard l →
  entry_readable l node stored = true.
Proof.
  intros Hg (key & a & Ha & Hs)%fleet_of_lookup Hshard. destruct (Hg key a Ha) as [body Hb]. injection Hs as <- <-.
  unfold accept_stored_report in Hb. apply bind_Some in Hb as (e & He%ok_of_Some & Hb).
  apply bind_Some in Hb as (payload & Hp & Hb). apply bind_Some in Hb as (report & Hr & Hb). injection Hb as <-. cbn [ar_node ar_envelope].
  unfold bounded_decode, bounded_check in He. destruct (str_len body <=? MAX_REPORT_ENVELOPE_BYTES)%N eqn:Hl; [|done].
  cbn [mbind sum_bind] in He. destruct (from_slice body) as [e'|] eqn:Hf; [|done]. assert (e' = e) as -> by (by injection He).
  destruct (envelope_shortest body e Hf) as (written & Hw & Hle). apply N.leb_le in Hl.
  unfold entry_readable. cbn [sr_envelope]. rewrite Hw, Hp. cbn [option_some_and mbind option_bind]. rewrite Hr.
  rewrite (proj2 (N.leb_le _ _)) by lia. cbn [ar_node] in Hshard. by rewrite Hshard, Nat.eqb_refl, bool_decide_true.
Qed.

(** So the reader takes everything a shard kept. *)
Lemma projected_readable random n accepted i :
  gated accepted → String.length random = 16%nat → in_shard_range n = true → (i < n)%nat →
  readable (shard_at random n i) (projected_reports random n (fleet_of accepted) i) = projected_reports random n (fleet_of accepted) i.
Proof.
  intros Hg Hr Hn Hi. unfold readable, projected_reports. apply map_filter_id. intros node stored Hk. cbn [fst snd].
  destruct (fit_shard_fits _ (bin n i (fleet_of accepted)) (shard_at_sound random n i Hr Hn Hi)) as (kept0 & ev & Hfit & Hf).
  rewrite Hfit in Hk. cbn [fst] in Hk. pose proof (lookup_weaken _ _ _ _ Hk (fits_sub _ _ _ _ Hf)) as Hb.
  rewrite bin_lookup in Hb. destruct (decide (shard_for node n = i)) as [He|]; [|done]. by eapply gated_readable.
Qed.

Lemma projected_elsewhere random n accepted i node :
  String.length random = 16%nat → in_shard_range n = true → (i < n)%nat →
  shard_for node n ≠ i → projected_reports random n (fleet_of accepted) i !! node = None.
Proof.
  intros Hr Hn Hi Hne. unfold projected_reports. apply eq_None_not_Some. intros [stored Hk].
  destruct (fit_shard_fits _ (bin n i (fleet_of accepted)) (shard_at_sound random n i Hr Hn Hi)) as (kept0 & ev & Hfit & Hf).
  rewrite Hfit in Hk. cbn [fst] in Hk. pose proof (lookup_weaken _ _ _ _ Hk (fits_sub _ _ _ _ Hf)) as Hb.
  rewrite bin_lookup in Hb. by destruct (decide (shard_for node n = i)).
Qed.

Lemma overlays_agree (x : option StoredReport) node (shards : list (BTreeMap StoredReport)) : ∀ acc,
  (∀ m, m ∈ acc :: shards → m !! node = None ∨ m !! node = x) → (∃ m, m ∈ acc :: shards ∧ m !! node = x) →
  foldl overlay acc shards !! node = x.
Proof.
  induction shards as [|m shards IH]; intros acc Hall (w & Hin & Hw); cbn [foldl].
  - apply list_elem_of_singleton in Hin as ->. done.
  - assert (overlay acc m !! node = None ∨ overlay acc m !! node = x) as Hov.
    { unfold overlay. rewrite lookup_union. destruct (Hall acc ltac:(left)) as [-> | ->], (Hall m ltac:(by right; left)) as [-> | ->];
        destruct x; simpl; auto. }
    apply IH.
    + intros m' [->|Hm']%elem_of_cons; [done|]. apply Hall. by right; right.
    + destruct x as [stored|].
      * apply elem_of_cons in Hin as [->|[->|Hin]%elem_of_cons]; [exists (overlay acc m)..|exists w; split; [by right|done]]; (split; [left|]);
          unfold overlay; rewrite lookup_union, Hw; [destruct (Hall m ltac:(by right; left)) as [-> | ->]|destruct (Hall acc ltac:(left)) as [-> | ->]]; done.
      * exists (overlay acc m). split; [left|]. tauto.
Qed.

Lemma get_bounded_served fetch limit url body : fetch url = Some body → (str_len body ≤ limit)%N → get_bounded fetch limit url = Some body.
Proof. intros Hf Hl. unfold get_bounded. rewrite Hf. simpl. by apply N.leb_le in Hl as ->. Qed.

Lemma index_within body index : FleetIndex_parse body = Some index → (str_len body ≤ MAX_FLEET_INDEX_BYTES)%N.
Proof.
  unfold FleetIndex_parse, bounded_decode, bounded_check. destruct (str_len body <=? MAX_FLEET_INDEX_BYTES)%N eqn:Hl; [by intros _; apply N.leb_le|].
  done.
Qed.

(** Every wanted shard of a publication is read as it was written. *)
Lemma fetched_shards s random accepted limit fetch base g (k : list FleetShardLocation) : let n := shard_limit limit in
  String.length random = 16%nat → in_shard_range n = true →
  gated accepted → rebalance (Some random) (fleet_of accepted) limit = Some (inr g) → Forall (holds_shard prefix s) (fg_shards g) →
  (∀ relative, fetch (below_base base relative) = body_at s (object_key prefix relative)) →
  (∀ l, l ∈ k → l ∈ shard_locations (fresh_index random n)) →
  omap (λ location, body ← get_bounded fetch MAX_FLEET_REPORT_SHARD_BYTES (location_url location base); parse_shard body location) k
  = projected_reports random n (fleet_of accepted) ∘ sl_shard <$> k.
Proof.
  intros n Hr Hn Hgate Hg Hh Hfetch. pose proof (rebalance_spec random (fleet_of accepted) limit Hr Hn) as Hspec. rewrite Hg in Hspec.
  destruct Hspec as (_ & _ & Hbodies & _). rewrite Hbodies in Hh. rewrite Forall_fmap, Forall_forall in Hh.
  induction k as [|l k IH]; intros Hk; [done|]. pose proof (Hk l ltac:(left)) as Hin.
  apply list_elem_of_fmap in Hin as (i & -> & Hi).
  assert (i < n)%nat as Hlt by (apply elem_of_seq in Hi; simpl in Hi; lia). specialize (Hh i Hi). unfold holds_shard in Hh. cbn [compose fst snd] in Hh.
  destruct (encode_shard_reads_back _ (bin n i (fleet_of accepted)) (shard_at_sound random n i Hr Hn Hlt))
    as (kept0 & ev & Hfit & _ & _ & Hlen & Hp).
  assert (get_bounded fetch MAX_FLEET_REPORT_SHARD_BYTES (location_url (shard_at random n i) base)
    = Some (encode_shard (bin n i (fleet_of accepted)) (shard_at random n i)).1) as Hget
    by (apply get_bounded_served; [unfold location_url; by rewrite Hfetch|done]).
  cbn [fi_generation fi_max_shards fresh_index] in *. change (mkFleetShardLocation _ _ _) with (shard_at random n i).
  cbn [omap list_omap fmap list_fmap]. rewrite Hget. cbn [mbind option_bind]. rewrite Hp. f_equal.
  - cbn [compose sl_shard shard_at]. change (mkFleetShardLocation _ _ _) with (shard_at random n i).
    pose proof (projected_readable random n accepted i Hgate Hr Hn Hlt) as Hread. unfold projected_reports in *. rewrite Hfit in *. exact Hread.
  - apply IH. intros l Hl. apply Hk. by right.
Qed.

(** The fleet projection, as it is fetched from a store that holds a publication. *)
Lemma fetched_projection s random accepted limit fetch base inventory :
  String.length random = 16%nat → in_shard_range (shard_limit limit) = true → gated accepted →
  published prefix s random accepted limit →
  (∀ relative, fetch (below_base base relative) = body_at s (object_key prefix relative)) →
  let n := shard_limit limit in
  ∃ reports, fetch_fleet_reports base fetch inventory = Some reports
    ∧ ∀ node, node ∈ active_nodes inventory → reports !! node = projected_reports random n (fleet_of accepted) (shard_for node n) !! node.
Proof.
  intros Hr Hn Hgate (g & Hg & Hindex & Hshards) Hfetch n. unfold fetch_fleet_reports.
  destruct (forallb is_cordoned inventory) eqn:Hc.
  { exists ∅. split; [done|]. intros node (m & -> & [Hm Hin]%list_elem_of_filter)%list_elem_of_fmap.
    rewrite forallb_forall in Hc. rewrite list_elem_of_In in Hin. by rewrite Hc in Hm. }
  pose proof (rebalance_spec random (fleet_of accepted) limit Hr Hn) as Hspec. rewrite Hg in Hspec.
  destruct Hspec as (Hi & Hparse & _). fold n in Hi.
  rewrite (get_bounded_served fetch _ (fleet_index_url base) (fg_index_body g)).
  2: { unfold fleet_index_url. by rewrite Hfetch. }
  2: { by eapply index_within. }
  cbn [mbind option_bind]. rewrite Hparse, Hi. cbn [mbind option_bind].
  set (locations := shard_locations_for (fresh_index random n) (active_nodes inventory)).
  assert (∀ l, l ∈ locations ↔ (∃ node, node ∈ active_nodes inventory ∧ sl_shard l = shard_for node n) ∧ l ∈ shard_locations (fresh_index random n)) as Hloc.
  { intros l. unfold locations, shard_locations_for. rewrite list_elem_of_filter, elem_of_list_to_set, list_elem_of_fmap. simpl. naive_solver. }
  rewrite (fetched_shards s random accepted limit fetch base g locations); [|done..|intros l Hl; by apply Hloc].
  rewrite length_fmap. fold n. assert ((0 <? length locations)%nat || (length locations =? 0)%nat = true) as ->
    by (destruct (length locations); done).
  eexists. split; [done|]. intros node Hnode. apply overlays_agree.
  - intros m [->|(l & -> & Hl)%list_elem_of_fmap]%elem_of_cons; [by left|]. simpl.
    destruct (decide (shard_for node n = sl_shard l)) as [<-|Hne]; [by right|]. left.
    apply Hloc in Hl as [_ Hl]. apply list_elem_of_fmap in Hl as (i & -> & Hlt%elem_of_seq). apply projected_elsewhere; [done..|simpl in *; lia|done].
  - eexists. split; [right; apply (list_elem_of_fmap_2 _ _ (shard_at random n (shard_for node n)))|done].
    apply Hloc. split; [by exists node|]. apply (list_elem_of_fmap_2 (λ i, shard_at random n i)), elem_of_seq.
    assert (0 < n)%nat as Hpos by (apply andb_true_iff in Hn as [Hn%Nat.leb_le _]; unfold n; lia).
    pose proof (shard_for_lt node n Hpos). simpl. lia.
Qed.

(** A publication, and the sweeps after it. *)
Definition publish_and_sweep (random : string) accepted (limit : FleetShardLimit) (cutoffs : list Z)
    : Sh Stored (option (DataflowError + unit)) :=
  r ← publish_report_projection prefix (Some random) accepted limit;
  _ ← tend (OpSweep <$> cutoffs);
  mret r.

Lemma sweeps_keep cutoffs : prun (whole prefix) (tend (OpSweep <$> cutoffs)) (λ s _ s', kept prefix s s').
Proof.
  induction cutoffs as [|cutoff cutoffs IH]; cbn [fmap list_fmap tend]; [by apply sh_ret|].
  eapply (sh_bind _ _ _ _ _ (λ s _ s', kept prefix s s' ∧ whole prefix s')).
  - cbn [tend_one]. eapply sh_bind; [apply sweep_whole|]. intros s r Hw. apply sh_ret. intros s' Hk. split; [done|]. by eapply kept_whole.
  - intros s [] Hw. eapply runs_weaken; [apply IH|by intros s' []|]. intros s1 [] s2 [[Hi Hs] _] [Hi' Hs']. split; [by rewrite Hi'|].
    intros index l Hv Hl. rewrite <- (Hs index l) by done. apply (Hs' index); [|done]. unfold visible. by rewrite Hi.
Qed.

Lemma kept_published s s' random accepted limit :
  String.length random = 16%nat → in_shard_range (shard_limit limit) = true →
  kept prefix s s' → published prefix s random accepted limit → published prefix s' random accepted limit.
Proof.
  intros Hr Hn [Hi Hs] (g & Hg & Hindex & Hh). exists g. split; [done|]. split; [by rewrite Hi|].
  pose proof (rebalance_spec random (fleet_of accepted) limit Hr Hn) as Hspec. rewrite Hg in Hspec.
  destruct Hspec as (Hfresh & Hparse & Hbodies & _). rewrite Forall_forall in Hh |- *. intros x Hx. unfold holds_shard.
  rewrite (Hs (fg_index g)); [by apply Hh| |].
  - unfold visible. by rewrite Hindex.
  - rewrite Hbodies in Hx. apply list_elem_of_fmap in Hx as (i & -> & Hi'). rewrite Hfresh. by apply (list_elem_of_fmap_2 (λ i, shard_at random (shard_limit limit) i)).
Qed.

End projected.

(** ** The caches read what a fresh scan would *)

Section quiet.
Context {V : Type}.
Implicit Types (s : shared V).

Lemma bounded_read_quiet {T} deadline (f : shared V → ApiError + T) s made : sh_clock s < deadline →
  bounded deadline (read f) (mkCluster s [] made) = (f s, mkCluster s [] made).
Proof.
  intros Hd. unfold bounded, peek, mbind, Sh_bind. cbn [cl_shared]. destruct (Z.leb_spec deadline (sh_clock s)); [lia|].
  rewrite read_quiet. cbn [cl_shared]. by destruct (Z.leb_spec deadline (sh_clock s)); [lia|].
Qed.

(** The deletion of an object that is there. *)
Lemma bounded_drop_quiet deadline key s made : sh_clock s < deadline → sh_objects s !! key ≠ None →
  bounded deadline (change (λ s : shared V, demand (bool_decide (sh_objects s !! key ≠ None)) ENotFound) (drop_object key)) (mkCluster s [] made)
  = (inr (sh_next s), mkCluster (drop_object key s) [] ((s, drop_object key s) :: made)).
Proof.
  intros Hd Hk. unfold bounded, peek, mbind, Sh_bind. cbn [cl_shared]. destruct (Z.leb_spec deadline (sh_clock s)); [lia|].
  rewrite change_quiet. rewrite bool_decide_eq_true_2 by done. cbn [demand cl_shared drop_object sh_clock].
  by destruct (Z.leb_spec deadline (sh_clock s)); [lia|].
Qed.
End quiet.

Section fresh.
Context {E S : Type} (e_tag : string → N → Stored → option string) (root : string) (limit : N).
Context (stamp : Stored → option S) (matches : E → option string → S → bool).
Context (accept : string → string → option string → S → option E).
Context (wanted : BTreeMap string).
Implicit Types (entries : BTreeMap E) (seen : BTreeSet) (s : shared Stored).

(** What reading one object anew yields. *)
Definition fresh_object (key node : string) (x : N * Stored) : option E :=
  st ← stamp x.2;
  if (str_len (so_body x.2) <=? limit)%N then accept (so_body x.2) node (e_tag key x.1 x.2) st else None.

(** What a cache that reads every object would hold. *)
Definition fresh_entries s : BTreeMap E :=
  map_imap (λ key node, x ← sh_objects s !! key; fresh_object key node x) wanted.

(** An entry that would be taken for current is current. *)
Definition current s entries (key : string) : Prop := ∀ v o node e st,
  sh_objects s !! key = Some (v, o) → wanted !! key = Some node → entries !! key = Some e → stamp o = Some st →
  matches e (e_tag key v o) st = true → fresh_object key node (v, o) = Some e.

(** What is left of the namespace: what is wanted of it. *)
Definition tidied s s' : Prop :=
  sh_clock s' = sh_clock s ∧ sh_objects s' = filter (λ x, object_in_namespace root x.1 = true → wanted !! x.1 ≠ None) (sh_objects s).

Lemma scan_object_quiet deadline entries seen key v o s made :
  sh_clock s < deadline → sh_objects s !! key = Some (v, o) → current s entries key →
  ∃ s' made', scan_object e_tag root limit stamp matches accept wanted deadline entries seen (key, (v, o)) (mkCluster s [] made)
    = ((true,
        if object_in_namespace root key then partial_alter (λ _, wanted !! key ≫= λ node, fresh_object key node (v, o)) key entries else entries,
        if object_in_namespace root key && bool_decide (wanted !! key ≠ None) then {[key]} ∪ seen else seen),
       mkCluster s' [] made')
    ∧ s' = (if object_in_namespace root key && bool_decide (wanted !! key = None) then drop_object key s else s).
Proof.
  intros Hd Ho Hcur. unfold scan_object. destruct (object_in_namespace root key) eqn:Hns; cbn [negb andb]; [|by eauto].
  destruct (wanted !! key) as [node|] eqn:Hw.
  - rewrite bool_decide_eq_true_2, bool_decide_eq_false_2 by done. cbn [mbind option_bind]. unfold fresh_object at 1. cbn [snd fst].
    destruct (stamp o) as [st|] eqn:Hst; cbn [mbind option_bind].
    2: { do 2 eexists. split; [|done]. reflexivity. }
    destruct (option_some_and _ (entries !! key)) eqn:Hm.
    + destruct (entries !! key) as [e|] eqn:He; [|done]. simpl in Hm.
      pose proof (Hcur v o node e st Ho Hw He Hst Hm) as Hf. unfold fresh_object in Hf. cbn [snd fst] in Hf. rewrite Hst in Hf.
      cbn [mbind option_bind] in Hf. rewrite Hf. do 2 eexists. split; [|done].
      rewrite <- (partial_alter_self entries key) at 1. rewrite He. done.
    + unfold read_changed, get, mbind, Sh_bind. rewrite bounded_read_quiet by done. rewrite Ho. cbn [ok_or mret Sh_ret].
      do 2 eexists. split; [|done]. destruct (_ <=? _)%N; [|done]. by destruct (accept _ _ _ _).
  - rewrite bool_decide_eq_false_2, bool_decide_eq_true_2 by (done || auto). cbn [mbind option_bind].
    unfold retire_stale_object, mbind, Sh_bind. rewrite bounded_drop_quiet by congruence. do 2 eexists. split; reflexivity.
Qed.

Abbreviation in_ns key := (object_in_namespace root key = true).

(** The scan of a listing, by what it leaves at each key. *)
Lemma scan_objects_quiet deadline listing : ∀ count entries seen s made,
  sh_clock s < deadline → NoDup listing.*1 → (∀ key x, (key, x) ∈ listing → sh_objects s !! key = Some x) →
  (count + length listing ≤ MAX_BACKEND_INVENTORY_MEMBERS)%nat → (∀ key, key ∈ listing.*1 → current s entries key) →
  ∃ seen' entries' s' made',
    scan_objects e_tag root limit stamp matches accept wanted deadline count entries seen listing (mkCluster s [] made)
      = ((inr seen', entries'), mkCluster s' [] made')
    ∧ (∀ key, key ∈ seen' ↔ key ∈ seen ∨ (key ∈ listing.*1 ∧ in_ns key ∧ wanted !! key ≠ None))
    ∧ (∀ key, key ∈ listing.*1 → in_ns key →
         entries' !! key = (node ← wanted !! key; x ← sh_objects s !! key; fresh_object key node x))
    ∧ sh_clock s' = sh_clock s
    ∧ (∀ key, sh_objects s' !! key
         = if decide (key ∈ listing.*1 ∧ in_ns key ∧ wanted !! key = None) then None else sh_objects s !! key)
    ∧ (∀ key, key ∉ listing.*1 → entries' !! key = entries !! key).
Proof.
  induction listing as [|[key [v o]] listing IH]; intros count entries seen s made Hd Hnd Hl Hcount Hcur; cbn [scan_objects].
  { do 4 eexists. split; [reflexivity|]. split_and!; set_solver. }
  assert ((MAX_BACKEND_INVENTORY_MEMBERS <=? count)%nat = false) as -> by (apply Nat.leb_gt; cbn [length] in Hcount; lia).
  cbn [fmap list_fmap fst] in *. apply NoDup_cons in Hnd as [Hkey Hnd].
  assert (sh_objects s !! key = Some (v, o)) as Ho by (apply Hl; left).
  destruct (scan_object_quiet deadline entries seen key v o s made Hd Ho (Hcur key ltac:(left))) as (s1 & made1 & Hone & Hs1).
  rewrite (bind_run _ _ _ _ _ Hone). clear Hone.
  set (entries1 := if object_in_namespace root key then partial_alter _ key entries else entries).
  set (seen1 := if object_in_namespace root key && _ then {[key]} ∪ seen else seen).
  assert (∀ k, k ≠ key → sh_objects s1 !! k = sh_objects s !! k ∧ entries1 !! k = entries !! k) as Hother.
  { clear IH. clearbody seen1. intros k Hne. subst s1. unfold entries1. split; [destruct (_ && _)|destruct (object_in_namespace root key)]; try done;
      [by apply lookup_delete_ne|by rewrite lookup_partial_alter_ne]. }
  destruct (IH (Datatypes.S count) entries1 seen1 s1 made1) as (seen' & entries' & s' & made' & Hrun & Hseen & Hent & Hclock & Hobj & Hrest).
  { clearbody seen1. subst s1. by destruct (_ && _). }
  { done. }
  { intros k x Hin. assert (k ≠ key) as Hne by (intros ->; apply Hkey, (list_elem_of_fmap_2 fst _ _ Hin)).
    rewrite (proj1 (Hother k Hne)). apply Hl. by right. }
  { cbn [length] in Hcount. lia. }
  { intros k Hin v' o' node e st Hk Hw He. assert (k ≠ key) as Hne by (by intros ->).
    rewrite (proj1 (Hother k Hne)) in Hk. rewrite (proj2 (Hother k Hne)) in He. by apply (Hcur k); [right|..]. }
  exists seen', entries', s', made'. split; [exact Hrun|]. split_and!.
  - intros k. rewrite Hseen, elem_of_cons. unfold seen1. destruct (object_in_namespace root key) eqn:Hns; cbn [andb].
    2: { split; [tauto|]. intros [?|([->|?] & ? & ?)]; [tauto|congruence|tauto]. }
    destruct (bool_decide_reflect (wanted !! key ≠ None)) as [Hw|Hw].
    + rewrite elem_of_union, elem_of_singleton. split; [intros [[->|?]|?]; tauto|]. intros [?|([->|?] & ? & ?)]; tauto.
    + split; [tauto|]. intros [?|([->|?] & ? & ?)]; tauto.
  - intros k [->|Hin]%elem_of_cons Hns.
    + rewrite Hrest by done. unfold entries1. rewrite Hns, lookup_partial_alter_eq, Ho. by destruct (wanted !! key).
    + rewrite (Hent k Hin Hns). by rewrite (proj1 (Hother k ltac:(by intros ->))).
  - rewrite Hclock. clearbody seen1. subst s1. by destruct (_ && _).
  - intros k. rewrite Hobj. destruct (decide (k = key)) as [->|Hne].
    + rewrite (decide_False (P := key ∈ listing.*1 ∧ _)) by tauto. subst s1. destruct (object_in_namespace root key) eqn:Hns; cbn [andb].
      * destruct (bool_decide_reflect (wanted !! key = None)) as [Hw|Hw].
        -- rewrite decide_True by (split; [left|done]). apply lookup_delete_eq.
        -- by rewrite decide_False by tauto.
      * rewrite decide_False; [done|]. intros (_ & ? & _). congruence.
    + rewrite (proj1 (Hother k Hne)). apply decide_ext. rewrite elem_of_cons. tauto.
  - intros k Hk. rewrite Hrest by (intros ?; apply Hk; by right). apply Hother. intros ->. apply Hk. left.
Qed.

(** The objects a scan is shown. *)
Definition listed s : list (string * (N * Stored)) := filter (λ x, String.prefix root x.1 = true) (bt_iter (sh_objects s)).

Lemma elem_of_listed s key : key ∈ (listed s).*1 ↔ String.prefix root key = true ∧ is_Some (sh_objects s !! key).
Proof.
  unfold listed. rewrite list_elem_of_fmap. split.
  - intros ([k x] & -> & [Hp Hin]%list_elem_of_filter). split; [done|]. apply elem_of_bt_iter in Hin. by eexists.
  - intros [Hp [x Hx]]. exists (key, x). split; [done|]. apply list_elem_of_filter. split; [done|]. by apply elem_of_bt_iter.
Qed.

Lemma NoDup_listed s : NoDup (listed s).*1.
Proof. unfold listed. eapply (sublist_NoDup _ (bt_iter (sh_objects s)).*1); [apply NoDup_bt_keys|]. apply fmap_sublist, sublist_filter. Qed.

Lemma scan_quiet entries s made :
  (∀ key node, wanted !! key = Some node → in_ns key) → (∀ key, current s entries key) →
  (length (listed s) ≤ MAX_BACKEND_INVENTORY_MEMBERS)%nat →
  ∃ s' made', scan e_tag root limit stamp matches accept wanted entries (mkCluster s [] made)
      = ((inr tt, fresh_entries s), mkCluster s' [] made')
    ∧ tidied s s'.
Proof.
  intros Hns Hcur Hlen. unfold scan. rewrite (bind_run (peek sh_clock) _ _ (sh_clock s) (mkCluster s [] made)) by done.
  set (deadline := sh_clock s + OBJECT_STORE_MAINTENANCE_TIMEOUT).
  assert (sh_clock s < deadline) as Hd by (unfold deadline; by apply Z.lt_add_pos_r).
  unfold list_objects. rewrite (bind_run _ _ _ _ _ (bounded_read_quiet deadline _ s made Hd)). fold (listed s).
  destruct (scan_objects_quiet deadline (listed s) 0 entries ∅ s made Hd (NoDup_listed s))
    as (seen & entries' & s' & made' & Hrun & Hseen & Hent & Hclock & Hobj & _); [|done|auto|].
  { intros key x Hin. apply elem_of_bt_iter. by apply list_elem_of_filter in Hin as [_ Hin]. }
  rewrite (bind_run _ _ _ _ _ Hrun). exists s', made'. split.
  - do 3 f_equal. apply map_eq. intros key. unfold fresh_entries. rewrite map_lookup_imap, map_lookup_filter.
    destruct (wanted !! key) as [node|] eqn:Hw; cbn [mbind option_bind].
    + pose proof (Hns _ _ Hw) as Hin. destruct (sh_objects s !! key) as [x|] eqn:Hx; cbn [mbind option_bind].
      * assert (key ∈ (listed s).*1) as Hl by (apply elem_of_listed; split; [by apply in_namespace_prefix|by eexists]).
        rewrite (Hent key Hl Hin), Hw, Hx. cbn [mbind option_bind]. destruct (fresh_object key node x); [|done]. cbn [mbind option_bind].
        rewrite option_guard_True; [done|]. apply Hseen. right. cbn [fst]. by rewrite Hw.
      * destruct (entries' !! key); [|done]. cbn [mbind option_bind]. rewrite option_guard_False; [done|]. cbn [fst].
        intros [?|(Hl & _)]%Hseen; [set_solver|]. apply elem_of_listed in Hl as [_ Hl]. rewrite Hx in Hl. by apply is_Some_None in Hl.
    + destruct (entries' !! key); [|done]. cbn [mbind option_bind]. rewrite option_guard_False; [done|]. cbn [fst].
      intros [?|(_ & _ & ?)]%Hseen; [set_solver|by rewrite Hw in *].
  - split; [done|]. apply map_eq. intros key. rewrite Hobj, map_lookup_filter. destruct (sh_objects s !! key) as [x|] eqn:Hx.
    2: { by destruct (decide _). }
    cbn [mbind option_bind fst]. destruct (decide _) as [(Hl & Hin & Hw)|Hno].
    + rewrite option_guard_False; [done|]. rewrite Hw. tauto.
    + rewrite option_guard_True; [done|]. intros Hin Hw. apply Hno. split; [|done]. apply elem_of_listed.
      split; [by apply in_namespace_prefix|by eexists].
Qed.
End fresh.

Section cached.
Context `{!ObjectPaths} `{!Sha256} (prefix : string) (e_tag : string → N → Stored → option string).
Context `{!ReportParts} `{!Semver} `{!Signed} `{!JsonValues} `{!FleetJson}.
Implicit Types (s : shared Stored) (nodes : list string).

(** A controller's passes: the fleet of each, what happened to the store before it, and all that
    happens around its calls. *)
Record Pass : Type := mkPass {
  ps_nodes : list string;
  ps_before : shared Stored → shared Stored;
  ps_turns : list (turn Stored);
}.

Fixpoint refresh_all (passes : list Pass) (cache : ReportCache) s : ReportCache * shared Stored :=
  match passes with
  | [] => (cache, s)
  | pass :: passes =>
      let '((_, cache), c) := report_refresh prefix e_tag (ps_nodes pass) cache (starts (ps_before pass s) (ps_turns pass)) in
      refresh_all passes cache (cl_shared c)
  end.

(** The report a controller that just started would accept from a node. *)
Definition stored_report s (node : string) : option AcceptedReport :=
  '(_, o) ← sh_objects s !! report_key prefix node;
  st ← stored_at o;
  if (str_len (so_body o) <=? MAX_REPORT_ENVELOPE_BYTES)%N then accept_stored_report (so_body o) node st else None.

(** Equal ETags of a key are of equal bodies. *)
Context (Htag : ∀ key v o v' o' tag, e_tag key v o = Some tag → e_tag key v' o' = Some tag → so_body o = so_body o').
(** Every node's key is its own and in the namespace. *)
Context (fleet : list string).
Context (Hkey : ∀ a b, a ∈ fleet → b ∈ fleet → report_key prefix a = report_key prefix b → a = b).
Context (Hspace : ∀ a, a ∈ fleet → object_in_namespace (report_root prefix) (report_key prefix a) = true).

Abbreviation fresh_report := (fresh_object e_tag MAX_REPORT_ENVELOPE_BYTES stored_at report_accept).

(** How the store moves on: time passes, and an object that is new is dated in a later millisecond
    than what it follows. *)
Definition store_rely s s' : Prop :=
  sh_clock s ≤ sh_clock s'
  ∧ ∀ key x, sh_objects s' !! key = Some x → sh_objects s !! key = Some x
      ∨ (sh_clock s / 1000 < so_modified x.2 / 1000 ∧ so_modified x.2 ≤ sh_clock s').

#[local] Instance store_rely_preorder : PreOrder store_rely.
Proof.
  split; [intros s; split; [lia|by left]|]. intros s1 s2 s3 [Hc Ho] [Hc' Ho']. split; [lia|].
  intros key x [Hx|[Hm Hle]]%Ho'; [destruct (Ho key x Hx) as [?|[? ?]]; [by left|right; lia]|]. right. split; [|done].
  pose proof (Z.div_le_mono (sh_clock s1) (sh_clock s2) 1000 ltac:(lia) Hc). lia.
Qed.

(** Nothing is dated in the future. *)
Definition dated s : Prop := ∀ key x, sh_objects s !! key = Some x → so_modified x.2 ≤ sh_clock s.

Lemma dated_rely s s' : dated s → store_rely s s' → dated s'.
Proof. intros Hd [Hc Ho] key x [Hx%Hd|[_ ?]]%Ho; lia. Qed.

Lemma stored_at_Some o st : stored_at o = Some st → Z.of_N st = so_modified o / 1000.
Proof. unfold stored_at. destruct (Z.leb_spec 0 (so_modified o / 1000)); [|done]. intros [= <-]. lia. Qed.

(** An entry no object of its key will be taken for again. *)
Definition stale s (key : string) (e : CachedReport) : Prop :=
  Z.of_N (cr_stored_at e) ≤ sh_clock s / 1000
  ∧ ∀ v o st, sh_objects s !! key = Some (v, o) → stored_at o = Some st → report_matches e (e_tag key v o) st = false.

(** Every entry is what some object of its key was accepted as, or is stale: the object changed
    between the listing and the read. *)
Definition entry_ok s (key : string) (e : CachedReport) : Prop :=
  (∃ node x, node ∈ fleet ∧ key = report_key prefix node ∧ fresh_report key node x = Some e) ∨ stale s key e.

Definition cached_ok s (entries : BTreeMap CachedReport) : Prop := ∀ key e, entries !! key = Some e → entry_ok s key e.

Lemma stale_rely s s' key e : stale s key e → store_rely s s' → stale s' key e.
Proof.
  intros [Hle Hno] [Hc Ho]. pose proof (Z.div_le_mono _ _ 1000 ltac:(lia) Hc) as Hd. split; [lia|].
  intros v o st [Hx|[Hm _]]%Ho Hst; [by apply Hno|]. apply stored_at_Some in Hst. cbn [snd] in Hm.
  unfold report_matches. apply andb_false_iff. right. apply N.eqb_neq. lia.
Qed.

Lemma cached_ok_rely s s' entries : cached_ok s entries → store_rely s s' → cached_ok s' entries.
Proof. intros Hok HR key e He. destruct (Hok key e He) as [?|?]; [by left|right; by eapply stale_rely]. Qed.

Lemma cached_ok_delete s entries key : cached_ok s entries → cached_ok s (delete key entries).
Proof. intros Hok k e [_ He]%lookup_delete_Some. by apply Hok. Qed.

(** What a listing showed stays the object, or its place is taken by later ones. *)
Definition listed_ok s (x : string * (N * Stored)) : Prop :=
  ∀ st, stored_at x.2.2 = Some st → Z.of_N st ≤ sh_clock s / 1000
    ∧ ∀ y, sh_objects s !! x.1 = Some y → y = x.2 ∨ Z.of_N st < so_modified y.2 / 1000.

Lemma listed_ok_rely s s' x : listed_ok s x → store_rely s s' → listed_ok s' x.
Proof.
  intros Hl [Hc Ho] st Hst. destruct (Hl st Hst) as [Hle Hy]. pose proof (Z.div_le_mono _ _ 1000 ltac:(lia) Hc) as Hd.
  split; [lia|]. intros y [?%Hy|[? _]]%Ho; [done|right; lia].
Qed.

Lemma listed_ok_now s key x : dated s → sh_objects s !! key = Some x → listed_ok s (key, x).
Proof.
  intros Hd Hx st Hst. apply stored_at_Some in Hst. cbn [fst snd] in *. split.
  - rewrite Hst. apply Z.div_le_mono; [lia|]. by apply (Hd key).
  - intros y Hy. left. congruence.
Qed.

Abbreviation srun := (runs store_rely (λ _ _, True)).
Abbreviation report_scan_object := (scan_object e_tag (report_root prefix) MAX_REPORT_ENVELOPE_BYTES stored_at report_matches report_accept).
Abbreviation report_scan_objects := (scan_objects e_tag (report_root prefix) MAX_REPORT_ENVELOPE_BYTES stored_at report_matches report_accept).

Section disturbed.
Context (wanted : BTreeMap string).
Context (Hwanted : ∀ key node, wanted !! key = Some node → key = report_key prefix node ∧ node ∈ fleet).

(** What is read of a listed object: its own body, or that of a later one. *)
Lemma read_entry_ok s key v o node st v' o' e :
  wanted !! key = Some node → stored_at o = Some st → listed_ok s (key, (v, o)) → sh_objects s !! key = Some (v', o') →
  (str_len (so_body o') <=? MAX_REPORT_ENVELOPE_BYTES)%N = true → report_accept (so_body o') node (e_tag key v o) st = Some e →
  entry_ok s key e.
Proof.
  intros Hw Hst Hl Hx Hlen Ha. destruct (Hwanted key node Hw) as [Hkn Hin]. destruct (Hl st Hst) as [Hle Hy].
  cbn [fst snd] in *. destruct (Hy (v', o') Hx) as [[= -> ->]|Hlt].
  - left. exists node, (v, o). split_and!; [done|done|]. unfold fresh_object. cbn [fst snd]. rewrite Hst. cbn [mbind option_bind]. by rewrite Hlen.
  - right. unfold report_accept in Ha. apply bind_Some in Ha as (a & _ & [= <-]). split; [done|]. cbn [cr_stored_at].
    intros v1 o1 st1 Hx1 Hst1%stored_at_Some. rewrite Hx in Hx1. injection Hx1 as <- <-. cbn [snd] in Hlt.
    unfold report_matches. cbn [cr_stored_at]. apply andb_false_iff. right. apply N.eqb_neq. lia.
Qed.

Lemma read_changed_runs (P : shared Stored → Prop) deadline key :
  srun P (read_changed MAX_REPORT_ENVELOPE_BYTES deadline key) (λ s r s', store_rely s s'
    ∧ ∀ body, r = inr body → ∃ v o, sh_objects s' !! key = Some (v, o) ∧ so_body o = body
        ∧ (str_len body <=? MAX_REPORT_ENVELOPE_BYTES)%N = true).
Proof.
  unfold read_changed, get. eapply sh_bind; [apply runs_bounded_read, _|]. intros s r _. apply sh_ret.
  intros s' [HR Hr]. split; [done|]. intros body. destruct Hr as [->|[->| ->]]; [done..|].
  destruct (sh_objects s' !! key) as [[v o]|]; cbn [ok_or]; [|done]. destruct (_ <=? _)%N eqn:Hl; [|done]. intros [= <-]. by exists v, o.
Qed.

Lemma retire_runs (P : shared Stored → Prop) deadline key :
  srun P (retire_stale_object deadline key) (λ s _ s', store_rely s s').
Proof.
  unfold retire_stale_object. eapply sh_bind; [apply runs_bounded_change; [apply _|done]|]. intros s r _. apply sh_ret.
  intros s' (s1 & HR & [[-> _]|(_ & ->)]); [done|]. etrans; [exact HR|]. split; [cbn; lia|].
  intros k x. cbn. intros [_ Hx]%lookup_delete_Some. by left.
Qed.

Lemma scan_object_runs deadline entries seen x :
  srun (λ s, cached_ok s entries ∧ listed_ok s x) (report_scan_object wanted deadline entries seen x)
    (λ s r s', store_rely s s' ∧ cached_ok s' r.1.2).
Proof.
  destruct x as [key [v o]]. unfold scan_object.
  assert (∀ (b : bool) m (sn : BTreeSet), (∀ s, cached_ok s entries → cached_ok s m) →
    srun (λ s, cached_ok s entries ∧ listed_ok s (key, (v, o))) (mret (b, m, sn)) (λ s r s', store_rely s s' ∧ cached_ok s' r.1.2)) as Hret.
  { intros b m sn Hm. apply sh_ret. intros s [Hok _]. split; [reflexivity|]. cbn [fst snd]. auto. }
  destruct (negb _); [by apply Hret|]. destruct (wanted !! key) as [node|] eqn:Hw.
  - destruct (stored_at o) as [st|] eqn:Hst; [|apply Hret; intros; by apply cached_ok_delete].
    destruct (option_some_and _ _); [by apply Hret|].
    eapply sh_bind; [apply read_changed_runs|]. intros s r [Hok Hl]. apply sh_ret. intros s' [HR Hr].
    pose proof (cached_ok_rely _ _ _ Hok HR) as Hok'. split; [done|].
    destruct r as [e|body]; [destruct e; cbn [fst snd]; try done; by apply cached_ok_delete|].
    destruct (report_accept body node (e_tag key v o) st) as [e|] eqn:Ha; cbn [fst snd]; [|by apply cached_ok_delete].
    destruct (Hr body eq_refl) as (v' & o' & Hx & <- & Hlen).
    intros k e' [[<- <-]|[_ ?]]%lookup_insert_Some; [|by apply Hok'].
    eapply (read_entry_ok s' key v o node st v' o'); [done|done|by eapply listed_ok_rely|done..].
  - eapply sh_bind; [apply retire_runs|]. intros s in_time [Hok _]. apply sh_ret. intros s' HR. split; [done|].
    pose proof (cached_ok_rely _ _ _ Hok HR). destruct in_time; cbn [fst snd]; [by apply cached_ok_delete|done].
Qed.

Lemma scan_objects_runs deadline listing : ∀ count entries seen,
  srun (λ s, cached_ok s entries ∧ ∀ x, x ∈ listing → listed_ok s x)
    (report_scan_objects wanted deadline count entries seen listing) (λ s r s', store_rely s s' ∧ cached_ok s' r.2).
Proof.
  induction listing as [|x listing IH]; intros count entries seen; cbn [scan_objects].
  { apply sh_ret. by intros s [Hok _]. }
  destruct (_ <=? count)%nat; [apply sh_ret; by intros s [Hok _]|].
  eapply sh_bind; [eapply runs_weaken; [apply (scan_object_runs deadline entries seen x)| |intros ? ? ? ? HQ; exact HQ]|].
  { intros s [Hok Hl]. split; [done|]. apply Hl. by left. }
  intros s [[in_time entries'] seen'] [_ Hl]. cbn [fst snd]. destruct in_time.
  - eapply runs_weaken; [apply IH| |].
    + intros s' [HR Hok']. split; [done|]. intros y Hy. eapply listed_ok_rely; [|exact HR]. apply Hl. by right.
    + intros s1 r s2 [HR _] [HR' ?]. split; [by etrans|done].
  - apply sh_ret. by intros s' [HR Hok'].
Qed.
End disturbed.

Lemma wanted_of_Some (f : string → string) nodes key node : wanted_of f nodes !! key = Some node → key = f node ∧ node ∈ nodes.
Proof.
  unfold wanted_of. intros Hin%elem_of_list_to_map_2. apply list_elem_of_fmap in Hin as (a & [= -> ->] & Ha).
  split; [done|]. by apply list_elem_of_In, in_rev, list_elem_of_In.
Qed.

Lemma wanted_of_node nodes node : (∀ a, a ∈ nodes → a ∈ fleet) → node ∈ nodes →
  wanted_of (report_key prefix) nodes !! report_key prefix node = Some node.
Proof.
  intros Hsub Hn. destruct (wanted_of _ _ !! _) as [a|] eqn:Hw.
  - apply wanted_of_Some in Hw as [Hk Ha]. f_equal. apply Hkey; auto.
  - apply not_elem_of_list_to_map in Hw. destruct Hw. rewrite <- list_fmap_compose.
    apply (list_elem_of_fmap_2 (report_key prefix)). by apply list_elem_of_In, in_rev; rewrite rev_involutive; apply list_elem_of_In.
Qed.

Lemma cached_current nodes s entries key : (∀ a, a ∈ nodes → a ∈ fleet) → cached_ok s entries →
  current e_tag MAX_REPORT_ENVELOPE_BYTES stored_at report_matches report_accept (wanted_of (report_key prefix) nodes) s entries key.
Proof.
  intros Hsub Hf v o node e st Hx Hw He Hst Hm.
  destruct (Hf _ _ He) as [(node0 & [v0 o0] & Hin & Hk & Hfresh)|[_ Hno]]; [|by rewrite (Hno v o st Hx Hst) in Hm].
  apply wanted_of_Some in Hw as [Hk' Hnode]. assert (node0 = node) as -> by (apply Hkey; [done|auto|congruence]).
  unfold fresh_object in *. cbn [fst snd] in *. rewrite Hst. cbn [mbind option_bind].
  apply bind_Some in Hfresh as (st0 & Hst0 & Hfresh). destruct (_ <=? _)%N eqn:Hlen in Hfresh; [|done].
  unfold report_accept in *. apply bind_Some in Hfresh as (a & Ha & [= <-]).
  unfold report_matches in Hm. cbn [cr_etag cr_stored_at] in Hm. apply andb_true_iff in Hm as [Htags Hst']. apply N.eqb_eq in Hst' as ->.
  destruct (e_tag key v0 o0) as [t0|] eqn:E0; [|done]. destruct (e_tag key v o) as [t|] eqn:E1; [|done]. simpl in Htags.
  apply bool_decide_eq_true in Htags as ->. rewrite <- (Htag _ _ _ _ _ _ E0 E1), Hlen, Ha. done.
Qed.

(** A pass, whatever happens during it, leaves a cache that will not be taken for what it is not. *)
Lemma report_refresh_runs nodes cache : (∀ a, a ∈ nodes → a ∈ fleet) →
  srun (λ s, dated s ∧ cached_ok s (rc_entries cache)) (report_refresh prefix e_tag nodes cache)
    (λ s r s', store_rely s s' ∧ cached_ok s' (rc_entries r.2)).
Proof.
  intros Hsub. unfold report_refresh, scan_reports, scan.
  assert (∀ key node, wanted_of (report_key prefix) nodes !! key = Some node → key = report_key prefix node ∧ node ∈ fleet) as Hwanted
    by (intros key node [? ?]%wanted_of_Some; auto).
  eapply (sh_bind _ _ _ _ _ (λ s r s', store_rely s s' ∧ cached_ok s' r.2)).
  2:{ intros s [r entries] _. apply sh_ret. intros s' [HR Hok]. split; [done|]. by destruct r. }
  eapply sh_bind; [apply runs_peek|]. intros s0 t Hs0.
  eapply sh_bind; [apply runs_bounded_read, _|]. intros s r [-> ->]. destruct Hs0 as [Hd Hok].
  assert (∀ s', store_rely s0 s' → cached_ok s' (rc_entries cache)) as Hkeep by (intros; by eapply cached_ok_rely).
  destruct r as [e|objects]; [destruct e; apply sh_ret; intros s' [HR _]; auto|].
  eapply (sh_bind _ _ _ _ _ (λ _ r s', store_rely s0 s' ∧ cached_ok s' r.2)).
  - eapply runs_weaken; [by apply (scan_objects_runs _ Hwanted)| |].
    + intros s' [HR Hr]. split; [auto|]. intros [key x] [_ Hin]%list_elem_of_filter. destruct Hr as [[=]|[[=]|[= ->]]].
      apply listed_ok_now; [by eapply dated_rely|by apply elem_of_bt_iter].
    + intros s1 r s2 [HR _] [HR' ?]. split; [by etrans|done].
  - intros s1 [r entries] _. apply sh_ret. intros s' [HR Hok']. split; [done|]. cbn [snd] in *. destruct r; [done|].
    intros key e [He _]%map_lookup_filter_Some. by apply Hok'.
Qed.

Lemma report_refresh_quiet nodes s cache :
  (∀ a, a ∈ nodes → a ∈ fleet) → (length (listed (report_root prefix) s) ≤ MAX_BACKEND_INVENTORY_MEMBERS)%nat → cached_ok s (rc_entries cache) →
  ∃ s' made', report_refresh prefix e_tag nodes cache (starts s [])
    = ((inr (mkReportSnapshot
               (snapshot_accepted prefix nodes (fresh_entries e_tag MAX_REPORT_ENVELOPE_BYTES stored_at report_accept (wanted_of (report_key prefix) nodes) s))
               (negb (rc_initialized cache) || negb (bool_decide (fresh_entries e_tag MAX_REPORT_ENVELOPE_BYTES stored_at report_accept
                  (wanted_of (report_key prefix) nodes) s = rc_entries cache)))),
        mkReportCache (fresh_entries e_tag MAX_REPORT_ENVELOPE_BYTES stored_at report_accept (wanted_of (report_key prefix) nodes) s) true),
       mkCluster s' [] made')
    ∧ tidied (report_root prefix) (wanted_of (report_key prefix) nodes) s s'.
Proof.
  intros Hsub Hlen Hf.
  destruct (scan_quiet e_tag (report_root prefix) MAX_REPORT_ENVELOPE_BYTES stored_at report_matches report_accept
    (wanted_of (report_key prefix) nodes) (rc_entries cache) s []) as (s' & made' & Hrun & Ht).
  - intros key node [-> Hin]%wanted_of_Some. auto.
  - intros key. by apply cached_current.
  - done.
  - exists s', made'. split; [|done]. unfold report_refresh, scan_reports, starts. by rewrite (bind_run _ _ _ _ _ Hrun).
Qed.

(** A pass of the history: nodes of the fleet, a store that moves on before it and around its calls,
    any of which may fail, be lost or run out of time. *)
Definition pass_ok (pass : Pass) : Prop :=
  (∀ a, a ∈ ps_nodes pass → a ∈ fleet) ∧ (∀ s, store_rely s (ps_before pass s)) ∧ honest store_rely (ps_turns pass).

Lemma refresh_all_ok passes : ∀ cache s, Forall pass_ok passes → dated s → cached_ok s (rc_entries cache) →
  store_rely s (refresh_all passes cache s).2
  ∧ cached_ok (refresh_all passes cache s).2 (rc_entries (refresh_all passes cache s).1).
Proof.
  induction passes as [|pass passes IH]; intros cache s Hp Hd Hok; [by split|].
  apply Forall_cons in Hp as [(Hsub & Hbefore & Hturns) Hp]. cbn [refresh_all]. set (s1 := ps_before pass s).
  destruct (report_refresh prefix e_tag (ps_nodes pass) cache (starts s1 (ps_turns pass))) as [[r cache'] c] eqn:Hrun.
  pose proof (Hbefore s) as HR1. fold s1 in HR1.
  destruct (report_refresh_runs (ps_nodes pass) cache Hsub (starts s1 (ps_turns pass)) (r, cache') c) as (_ & _ & HR2 & Hok2);
    [done|constructor|split; [by eapply dated_rely|by eapply cached_ok_rely]|done|]. cbn [starts cl_shared snd] in HR2, Hok2.
  destruct (IH cache' (cl_shared c) Hp) as [HR3 Hok3]; [eapply dated_rely, HR2; by eapply dated_rely|done|].
  split; [|done]. etrans; [exact HR1|]. by etrans.
Qed.

Lemma snapshot_fresh nodes s node : (∀ a, a ∈ nodes → a ∈ fleet) →
  snapshot_accepted prefix nodes (fresh_entries e_tag MAX_REPORT_ENVELOPE_BYTES stored_at report_accept (wanted_of (report_key prefix) nodes) s) !! node
  = if decide (node ∈ nodes) then stored_report s node else None.
Proof.
  intros Hsub. unfold snapshot_accepted. set (l := omap _ _).
  assert (∀ a accepted, (a, accepted) ∈ l ↔ a ∈ nodes ∧ stored_report s a = Some accepted) as Hl.
  { intros a accepted. unfold l. rewrite list_elem_of_omap. unfold stored_report. split.
    - intros ([key a'] & Hin%elem_of_bt_iter & (e & He & [= -> ->])%fmap_Some). cbn [fst snd] in *.
      unfold fresh_entries in He. rewrite map_lookup_imap, Hin in He. cbn [mbind option_bind] in He.
      apply wanted_of_Some in Hin as [-> Hin]. split; [done|]. destruct (sh_objects s !! _) as [[v o]|]; [|done].
      cbn [mbind option_bind] in *. unfold fresh_object in He. cbn [fst snd] in He. destruct (stored_at o) as [st|]; [|done].
      cbn [mbind option_bind] in *. destruct (_ <=? _)%N; [|done]. unfold report_accept in He. by apply bind_Some in He as (acc & -> & [= <-]).
    - intros [Hin Hs]. exists (report_key prefix a, a). split; [apply elem_of_bt_iter; by apply wanted_of_node|]. cbn [fst snd].
      unfold fresh_entries. rewrite map_lookup_imap, wanted_of_node by done. cbn [mbind option_bind].
      destruct (sh_objects s !! _) as [[v o]|]; [|done]. cbn [mbind option_bind] in *. unfold fresh_object. cbn [fst snd].
      destruct (stored_at o) as [st|]; [|done]. cbn [mbind option_bind] in *. destruct (_ <=? _)%N; [|done]. unfold report_accept.
      rewrite Hs. done. }
  destruct (list_to_map l !! node) as [accepted|] eqn:Hm.
  - apply elem_of_list_to_map_2, Hl in Hm as [Hin Hs]. by rewrite decide_True.
  - destruct (decide (node ∈ nodes)) as [Hin|]; [|done]. destruct (stored_report s node) as [accepted|] eqn:Hs; [|done].
    apply not_elem_of_list_to_map in Hm. destruct Hm. apply (list_elem_of_fmap_2 fst l (node, accepted)), Hl. done.
Qed.

End cached.
