(* ===== verification/StageSweep.v ===== *)
(** * StageSweep: private staging directories and who may remove them

    [Stage::create], its [Drop] and [sweep_abandoned] of [updated/src/bundle.rs], with the advisory
    lock of [updated/src/lock.rs], as the steps of any number of processes over one staging root.
    Every system call is a step of its own and may fail; a process may end at any point, and the
    kernel then releases its locks.  A lock belongs to the file that was opened, not to the name
    it had.  Tokens are fresh: no name in the root, and none a process holds, mentions them.  While
    no two sweeps overlap none removes a live stage, and one left alone clears the dead ones. *)
From S2P Require Import Prelude Identity Publication.

(** ** Names *)

Definition STAGE_PREFIX : string := "stage-".
Definition OWNER_SUFFIX : string := ".owner".
Definition CLAIM_PREFIX : string := ".".
Definition CLAIM_ATTEMPTS : nat := 4.

Definition stage_name (token : string) : string := String.append STAGE_PREFIX token.
Definition owner_name (n : string) : string := String.append n OWNER_SUFFIX.
Definition claim_name (n : string) : string := String.append CLAIM_PREFIX (owner_name n).

(** What the sweep takes an entry for. *)
Inductive Sighting : Type := Foreign | Bare (name : string) (claim : bool) | OwnerOf (attempt : string) (claim : bool).

Definition sighted (x : string) : Sighting :=
  let '(name, claim) := match strip_prefix CLAIM_PREFIX x with Some stem => (stem, true) | None => (x, false) end in
  match strip_prefix STAGE_PREFIX name with
  | None => Foreign
  | Some _ =>
      match strip_suffix OWNER_SUFFIX name with
      | None => Bare name claim
      | Some attempt => OwnerOf attempt claim
      end
  end.

(** ** The staging root and its processes *)

(** The entries a sweep has tries, with the type [read_dir] gave them. *)
Abbreviation Listing := (list (string * bool)).

Inductive Proc : Type :=
| Sweeping (todo : Listing)
| Discarding (x : string) (todo : Listing)
| Trying (x : string) (i : nat) (todo : Listing)
| Holding (x : string) (i : nat) (todo : Listing)
| Freed (x : string) (todo : Listing)
| Swept (x : string) (todo : Listing)
| Claiming (tries : nat)
| Opened (tries : nat) (n : string) (i : nat)
| Locked (tries : nat) (n : string) (i : nat)
| Renamed (n : string) (i : nat)
| Live (n : string) (i : nat)
| Dropping (n : string) (i : nat)
| Dropped (n : string).

Record root : Type := mkRoot {
  rt_files : gmap string nat;
  rt_dirs : gset string;
  rt_locks : gmap nat nat;
  rt_next : nat;
  rt_procs : gmap nat Proc;
}.

Definition present (s : root) (x : string) : bool := bool_decide (x ∈ dom (rt_files s)) || bool_decide (x ∈ rt_dirs s).

Definition set_proc (p : nat) (a : Proc) (s : root) : root :=
  mkRoot (rt_files s) (rt_dirs s) (rt_locks s) (rt_next s) (<[p := a]> (rt_procs s)).

(** The kernel closes what a process that ends has open. *)
Definition end_proc (p : nat) (s : root) : root :=
  mkRoot (rt_files s) (rt_dirs s) (filter (λ e, e.2 ≠ p) (rt_locks s)) (rt_next s) (delete p (rt_procs s)).

(** [open_lock_file] with [OpenOrCreate]. *)
Definition open_or_create (x : string) (s : root) : option (nat * root) :=
  if bool_decide (x ∈ rt_dirs s) then None
  else match rt_files s !! x with
       | Some i => Some (i, s)
       | None => Some (rt_next s, mkRoot (<[x := rt_next s]> (rt_files s)) (rt_dirs s) (rt_locks s) (S (rt_next s)) (rt_procs s))
       end.

Definition try_lock (i p : nat) (s : root) : option root :=
  match rt_locks s !! i with
  | None => Some (mkRoot (rt_files s) (rt_dirs s) (<[i := p]> (rt_locks s)) (rt_next s) (rt_procs s))
  | Some _ => None
  end.

Definition unlock (i : nat) (s : root) : root :=
  mkRoot (rt_files s) (rt_dirs s) (delete i (rt_locks s)) (rt_next s) (rt_procs s).

(** [discard] and [durable::remove_file]; what they fail at stays. *)
Definition discard (ok : bool) (x : string) (s : root) : root :=
  if ok then mkRoot (delete x (rt_files s)) (rt_dirs s ∖ {[ x ]}) (rt_locks s) (rt_next s) (rt_procs s) else s.

Definition remove_file (ok : bool) (x : string) (s : root) : root :=
  if ok then mkRoot (delete x (rt_files s)) (rt_dirs s) (rt_locks s) (rt_next s) (rt_procs s) else s.

(** ** Steps *)

(** One entry of [sweep_abandoned]. *)
Definition sweep_entry (ok : bool) (p : nat) (x : string) (is_file : bool) (todo : Listing) (s : root) : root :=
  match sighted x with
  | Foreign => set_proc p (Sweeping todo) s
  | Bare name claim =>
      if negb claim && negb (negb ok || present s (owner_name name)) then set_proc p (Discarding x todo) s
      else set_proc p (Sweeping todo) s
  | OwnerOf attempt claim =>
      if negb is_file then set_proc p (Discarding x todo) s
      else match (if ok then open_or_create x s else None) with
           | Some (i, s) => set_proc p (Trying x i todo) s
           | None => set_proc p (Sweeping todo) s
           end
  end.

Definition sweep_step (ok : bool) (p : nat) (a : Proc) (s : root) : option root :=
  match a with
  | Sweeping [] => Some (set_proc p (Claiming CLAIM_ATTEMPTS) s)
  | Sweeping ((x, is_file) :: todo) => Some (sweep_entry ok p x is_file todo s)
  | Discarding x todo => Some (set_proc p (Sweeping todo) (discard ok x s))
  | Trying x i todo =>
      match (if ok then try_lock i p s else None) with
      | Some s => Some (set_proc p (Holding x i todo) s)
      | None => Some (set_proc p (Sweeping todo) s)
      end
  | Holding x i todo => Some (set_proc p (Freed x todo) (unlock i s))
  | Freed x todo =>
      Some (set_proc p (Swept x todo)
              (match sighted x with OwnerOf attempt false => discard ok attempt s | _ => s end))
  | Swept x todo => Some (set_proc p (Sweeping todo) (remove_file ok x s))
  | _ => None
  end.

(** [Stage::create] after its sweep, and [Drop]; a process whose call fails is done. *)
Definition stage_step (ok : bool) (token : string) (p : nat) (a : Proc) (s : root) : option root :=
  match a with
  | Claiming O => Some (end_proc p s)
  | Claiming (S tries) =>
      let n := stage_name token in
      match (if ok then open_or_create (claim_name n) s else None) with
      | Some (i, s) => Some (set_proc p (Opened tries n i) s)
      | None => Some (end_proc p s)
      end
  | Opened tries n i =>
      match (if ok then try_lock i p s else None) with
      | Some s => Some (set_proc p (Locked tries n i) s)
      | None => Some (end_proc p s)
      end
  | Locked tries n i =>
      if negb ok then Some (end_proc p s)
      else match rt_files s !! claim_name n with
           | None => Some (set_proc p (Claiming tries) (unlock i s))
           | Some j =>
               Some (set_proc p (Renamed n i)
                 (mkRoot (<[owner_name n := j]> (delete (claim_name n) (rt_files s))) (rt_dirs s) (rt_locks s) (rt_next s) (rt_procs s)))
           end
  | Renamed n i =>
      if negb ok || present s n then Some (end_proc p s)
      else Some (set_proc p (Live n i) (mkRoot (rt_files s) ({[ n ]} ∪ rt_dirs s) (rt_locks s) (rt_next s) (rt_procs s)))
  | Live n i => Some (set_proc p (Dropping n i) (discard ok n s))
  | Dropping n i => Some (set_proc p (Dropped n) (unlock i s))
  | Dropped n => Some (end_proc p (remove_file ok (owner_name n) s))
  | _ => None
  end.

Definition todo_of (a : Proc) : Listing :=
  match a with
  | Sweeping todo | Discarding _ todo | Trying _ _ todo | Holding _ _ todo | Freed _ todo | Swept _ todo => todo
  | _ => []
  end.

Definition at_hand (a : Proc) : list string :=
  match a with Discarding x _ | Trying x _ _ | Holding x _ _ | Freed x _ | Swept x _ => [x] | _ => [] end.

Definition knows (a : Proc) : list string := at_hand a ++ (todo_of a).*1.

Definition held (a : Proc) : option string :=
  match a with Opened _ n _ | Locked _ n _ | Renamed n _ | Live n _ | Dropping n _ | Dropped n => Some n | _ => None end.

Definition sweeping (a : Proc) : bool :=
  match a with Sweeping _ | Discarding _ _ | Trying _ _ _ | Holding _ _ _ | Freed _ _ | Swept _ _ => true | _ => false end.

Definition lock_of (a : Proc) : option nat :=
  match a with Holding _ i _ | Locked _ _ i | Renamed _ i | Live _ i | Dropping _ i => Some i | _ => None end.

(** A token that occurs nowhere. *)
Definition unmentioned (s : root) (n : string) : bool :=
  forallb (λ x, negb (present s x) && forallb (λ e : nat * Proc, bool_decide (x ∉ knows e.2)) (map_to_list (rt_procs s)))
    [n; claim_name n; owner_name n; owner_name (owner_name n)]
  && forallb (λ e : nat * Proc, negb (bool_decide (held e.2 = Some n))) (map_to_list (rt_procs s)).

Inductive label : Type :=
| Start (p : nat) (listing : Listing)
| Step (p : nat) (ok : bool) (token : string)
| Kill (p : nat).

(** A listing of the root: some of its entries, each once, with their types. *)
Definition lists (s : root) (listing : Listing) : bool :=
  bool_decide (NoDup listing.*1)
  && forallb (λ e : string * bool, present s e.1 && Bool.eqb e.2 (bool_decide (e.1 ∈ dom (rt_files s)))) listing.

Definition exec (l : label) (s : root) : option root :=
  match l with
  | Start p listing =>
      if bool_decide (rt_procs s !! p = None) && lists s listing then Some (set_proc p (Sweeping listing) s) else None
  | Step p ok token =>
      match rt_procs s !! p with
      | None => None
      | Some (Claiming (S tries)) =>
          if is_canonical_sha256 token && unmentioned s (stage_name token) then stage_step ok token p (Claiming (S tries)) s else None
      | Some a => match sweep_step ok p a s with Some s => Some s | None => stage_step ok token p a s end
      end
  | Kill p => match rt_procs s !! p with Some _ => Some (end_proc p s) | None => None end
  end.

Fixpoint execs (ls : list label) (s : root) : option root :=
  match ls with
  | [] => Some s
  | l :: ls => s ← exec l s; execs ls s
  end.

(** ** Names apart *)

Fixpoint dots (s : string) : nat :=
  match s with EmptyString => 0 | String c s => (if bool_decide (c = "."%char) then 1 else 0) + dots s end.

Lemma dots_app a b : dots (String.append a b) = (dots a + dots b)%nat.
Proof. induction a as [|c a IH]; simpl; [done|]. rewrite IH. lia. Qed.

Lemma dots_owner n : dots (owner_name n) = S (dots n).
Proof. unfold owner_name. rewrite dots_app. simpl. lia. Qed.

Lemma dots_claim n : dots (claim_name n) = S (S (dots n)).
Proof. unfold claim_name. rewrite dots_app, dots_owner. done. Qed.

(** A name [Stage::create] may give. *)
Definition attempt (n : string) : Prop := ∃ token, is_canonical_sha256 token = true ∧ n = stage_name token.

Lemma attempt_dots n : attempt n → dots n = 0.
Proof.
  intros (token & Hc & ->). unfold stage_name. rewrite dots_app. simpl. unfold is_canonical_sha256 in Hc.
  apply andb_true_iff in Hc as [_ Hc]. induction token as [|c token IH]; [done|]. simpl in *. apply andb_true_iff in Hc as [Hh Hc].
  rewrite IH by done. case_bool_decide as Hd; [|done]. subst c. discriminate Hh.
Qed.

Lemma owner_name_inj n m : owner_name n = owner_name m → n = m.
Proof. apply append_inj_r. Qed.

Lemma claim_name_inj n m : claim_name n = claim_name m → n = m.
Proof. intros [= Heq]. by apply owner_name_inj. Qed.

(** The names that speak of an attempt are different from those of another. *)
Lemma names_apart n x : attempt n →
  n ≠ owner_name x ∧ n ≠ claim_name x ∧ owner_name n ≠ claim_name x ∧ owner_name (owner_name n) ≠ claim_name x
  ∧ owner_name n ≠ owner_name (owner_name x).
Proof.
  intros Hn. pose proof (attempt_dots n Hn) as Hd. split_and!.
  1,2,5: intros Heq%(f_equal dots); rewrite ?dots_owner, ?dots_claim in Heq; lia.
  all: destruct Hn as (token & _ & ->); by intros [=].
Qed.

Lemma sighted_bare x n : sighted x = Bare n false → x = n.
Proof.
  unfold sighted. destruct (strip_prefix CLAIM_PREFIX x) as [y|].
  - destruct (strip_prefix STAGE_PREFIX y), (strip_suffix OWNER_SUFFIX y); by intros [=].
  - destruct (strip_prefix STAGE_PREFIX x), (strip_suffix OWNER_SUFFIX x); by intros [=].
Qed.

Lemma sighted_owner x a claim : sighted x = OwnerOf a claim →
  x = (if claim then claim_name a else owner_name a) ∧ ∀ b, a ≠ claim_name b.
Proof.
  assert (∀ y stem, strip_prefix STAGE_PREFIX y = Some stem → strip_suffix OWNER_SUFFIX y = Some a →
    y = owner_name a ∧ ∀ b, a ≠ claim_name b) as Hy.
  { intros y stem Hp Hs%strip_suffix_Some. split; [done|]. intros b ->. subst y. by apply strip_prefix_Some in Hp. }
  unfold sighted. destruct (strip_prefix CLAIM_PREFIX x) as [y|] eqn:Hc.
  - apply strip_prefix_Some in Hc as ->. destruct (strip_prefix STAGE_PREFIX y) eqn:Hp, (strip_suffix OWNER_SUFFIX y) eqn:Hs; try done.
    intros [= -> <-]. destruct (Hy _ _ Hp Hs) as [-> ?]. done.
  - destruct (strip_prefix STAGE_PREFIX x) eqn:Hp, (strip_suffix OWNER_SUFFIX x) eqn:Hs; try done.
    intros [= -> <-]. by destruct (Hy _ _ Hp Hs) as [-> ?].
Qed.

(** The sweep recognises an attempt by its name. *)
Lemma sighted_attempt n : attempt n → sighted n = Bare n false.
Proof.
  intros Hn. pose proof (attempt_dots n Hn) as Hd. destruct Hn as (token & _ & ->). unfold sighted.
  assert (strip_prefix CLAIM_PREFIX (stage_name token) = None) as -> by done.
  assert (strip_prefix STAGE_PREFIX (stage_name token) = Some token) as -> by (by apply strip_prefix_Some).
  destruct (strip_suffix OWNER_SUFFIX (stage_name token)) as [a|] eqn:Hs; [|done].
  apply strip_suffix_Some in Hs. rewrite Hs, dots_app in Hd. simpl in Hd. lia.
Qed.

Lemma sighted_its_owner n : attempt n → sighted (owner_name n) = OwnerOf n false.
Proof.
  intros (token & _ & ->). unfold sighted. assert (strip_prefix CLAIM_PREFIX (owner_name (stage_name token)) = None) as -> by done.
  assert (strip_prefix STAGE_PREFIX (owner_name (stage_name token)) = Some (owner_name token)) as -> by (by apply strip_prefix_Some).
  unfold owner_name. by rewrite strip_suffix_app.
Qed.

(** ** The steps as a relation *)

Inductive step (s : root) : root → Prop :=
| st_start p listing :
    rt_procs s !! p = None → NoDup listing.*1 →
    (∀ x f, (x, f) ∈ listing → present s x = true ∧ f = bool_decide (x ∈ dom (rt_files s))) →
    step s (set_proc p (Sweeping listing) s)
| st_end p a : rt_procs s !! p = Some a → step s (end_proc p s)
| st_skip p a b :
    rt_procs s !! p = Some a → sweeping a = true → lock_of a = None → ((∃ todo, b = Sweeping todo) ∨ ∃ k, b = Claiming k) →
    todo_of b `suffix_of` (todo_of a) → step s (set_proc p b s)
| st_doom p x f todo :
    rt_procs s !! p = Some (Sweeping ((x, f) :: todo)) →
    (f = false ∧ (∃ a c, sighted x = OwnerOf a c)) ∨ (sighted x = Bare x false ∧ rt_files s !! owner_name x = None) →
    step s (set_proc p (Discarding x todo) s)
| st_discard p ok x todo : rt_procs s !! p = Some (Discarding x todo) → step s (set_proc p (Sweeping todo) (discard ok x s))
| st_open p x f todo i s1 :
    rt_procs s !! p = Some (Sweeping ((x, f) :: todo)) → open_or_create x s = Some (i, s1) → step s (set_proc p (Trying x i todo) s1)
| st_lock p x i todo s1 :
    rt_procs s !! p = Some (Trying x i todo) → try_lock i p s = Some s1 → step s (set_proc p (Holding x i todo) s1)
| st_unlock p x i todo : rt_procs s !! p = Some (Holding x i todo) → step s (set_proc p (Freed x todo) (unlock i s))
| st_clear p x y ok todo :
    rt_procs s !! p = Some (Freed x todo) → sighted x = OwnerOf y false → step s (set_proc p (Swept x todo) (discard ok y s))
| st_spare p x todo : rt_procs s !! p = Some (Freed x todo) → step s (set_proc p (Swept x todo) s)
| st_unlink p ok x todo : rt_procs s !! p = Some (Swept x todo) → step s (set_proc p (Sweeping todo) (remove_file ok x s))
| st_claim p tries n i s1 :
    rt_procs s !! p = Some (Claiming (S tries)) → attempt n → unmentioned s n = true → open_or_create (claim_name n) s = Some (i, s1) →
    step s (set_proc p (Opened tries n i) s1)
| st_acquire p tries n i s1 :
    rt_procs s !! p = Some (Opened tries n i) → try_lock i p s = Some s1 → step s (set_proc p (Locked tries n i) s1)
| st_retry p tries n i :
    rt_procs s !! p = Some (Locked tries n i) → rt_files s !! claim_name n = None → step s (set_proc p (Claiming tries) (unlock i s))
| st_publish p tries n i j :
    rt_procs s !! p = Some (Locked tries n i) → rt_files s !! claim_name n = Some j →
    step s (set_proc p (Renamed n i)
      (mkRoot (<[owner_name n := j]> (delete (claim_name n) (rt_files s))) (rt_dirs s) (rt_locks s) (rt_next s) (rt_procs s)))
| st_mkdir p n i :
    rt_procs s !! p = Some (Renamed n i) →
    step s (set_proc p (Live n i) (mkRoot (rt_files s) ({[ n ]} ∪ rt_dirs s) (rt_locks s) (rt_next s) (rt_procs s)))
| st_rmdir p ok n i : rt_procs s !! p = Some (Live n i) → step s (set_proc p (Dropping n i) (discard ok n s))
| st_release p n i : rt_procs s !! p = Some (Dropping n i) → step s (set_proc p (Dropped n) (unlock i s))
| st_done p ok n : rt_procs s !! p = Some (Dropped n) → step s (end_proc p (remove_file ok (owner_name n) s)).

Lemma lists_true s listing : lists s listing = true →
  NoDup listing.*1 ∧ ∀ x f, (x, f) ∈ listing → present s x = true ∧ f = bool_decide (x ∈ dom (rt_files s)).
Proof.
  intros [Hnd%bool_decide_eq_true Hall]%andb_true_iff. split; [done|]. rewrite forallb_forall in Hall. intros x f Hin.
  apply list_elem_of_In, Hall, andb_true_iff in Hin as [Hp Hf%Bool.eqb_prop]. done.
Qed.

Lemma sweep_entry_step ok p x f todo s :
  rt_procs s !! p = Some (Sweeping ((x, f) :: todo)) → step s (sweep_entry ok p x f todo s).
Proof.
  intros Hp. assert (step s (set_proc p (Sweeping todo) s)) as Hskip.
  { eapply st_skip; [exact Hp|done|done|by left; eexists|]. simpl. by exists [(x, f)]. }
  unfold sweep_entry. destruct (sighted x) as [|n c|a c] eqn:Hx; [done|..].
  - destruct c; [done|]. destruct (negb ok || present s (owner_name n)) eqn:Hpr; [done|]. simpl.
    pose proof (sighted_bare _ _ Hx) as ->. eapply st_doom; [exact Hp|right; split; [done|]].
    apply orb_false_iff in Hpr as [_ [Hf%bool_decide_eq_false _]%orb_false_iff]. by apply not_elem_of_dom.
  - destruct f; simpl; [|eapply st_doom; [exact Hp|left; split; eauto]].
    destruct ok; [|done]. destruct (open_or_create x s) as [[i s1]|] eqn:Ho; [|done]. by eapply st_open.
Qed.

(** Every step the machine makes is one of the relation's. *)
Lemma exec_is_step l s s' : exec l s = Some s' → step s s'.
Proof.
  destruct l as [p listing|p ok token|p]; cbn [exec].
  - destruct (bool_decide _ && _) eqn:Hb; [|done]. intros [= <-]. apply andb_true_iff in Hb as [Hn%bool_decide_eq_true Hl].
    apply lists_true in Hl as [? ?]. by apply st_start.
  - destruct (rt_procs s !! p) as [a|] eqn:Hp; [|done].
    destruct a as [[|[x f] todo]|x todo|x i todo|x i todo|x todo|x todo|[|tries]|tries n i|tries n i|n i|n i|n i|n]; cbn [sweep_step stage_step].
    + intros [= <-]. eapply st_skip; [exact Hp|done|done|by right; eexists|done].
    + intros [= <-]. by apply sweep_entry_step.
    + intros [= <-]. by apply st_discard.
    + destruct ok; [destruct (try_lock i p s) as [s1|] eqn:Ht|]; intros [= <-]; [by eapply st_lock|..];
        (eapply st_skip; [exact Hp|done|done|by left; eexists|done]).
    + intros [= <-]. by apply st_unlock.
    + intros [= <-]. destruct (sighted x) as [| |y []] eqn:Hx; try (by apply st_spare). by eapply st_clear.
    + intros [= <-]. by apply st_unlink.
    + intros [= <-]. by eapply st_end.
    + destruct (is_canonical_sha256 token && unmentioned s (stage_name token)) eqn:Hb; [|done].
      apply andb_true_iff in Hb as [Hc Hu]. destruct ok; [destruct (open_or_create _ s) as [[i s1]|] eqn:Ho|]; intros [= <-];
        [|by eapply st_end..]. eapply st_claim; [exact Hp|by exists token|done|done].
    + destruct ok; [destruct (try_lock i p s) as [s1|] eqn:Ht|]; intros [= <-]; [by eapply st_acquire|by eapply st_end..].
    + destruct ok; simpl; [destruct (rt_files s !! claim_name n) as [j|] eqn:Hj|]; intros [= <-];
        [by eapply st_publish|by eapply st_retry|by eapply st_end].
    + destruct (negb ok || present s n); intros [= <-]; [by eapply st_end|by eapply st_mkdir].
    + intros [= <-]. by eapply st_rmdir.
    + intros [= <-]. by eapply st_release.
    + intros [= <-]. by eapply st_done.
  - destruct (rt_procs s !! p) as [a|] eqn:Hp; [|done]. intros [= <-]. by eapply st_end.
Qed.

(** ** The invariant *)

(** No two sweeps overlap. *)
Definition one_sweep (s : root) : Prop :=
  ∀ p q a b, rt_procs s !! p = Some a → rt_procs s !! q = Some b → sweeping a = true → sweeping b = true → p = q.

(** A process about to remove what belongs to the attempt. *)
Definition threat (a : Proc) (n : string) : Prop :=
  match a with
  | Discarding x _ => x = n ∨ x = owner_name n
  | Holding x _ _ | Freed x _ | Swept x _ => x = owner_name n
  | _ => False
  end.

(** Names of an attempt that are not there yet. *)
Definition hidden (a : Proc) : list string :=
  match a with
  | Opened _ n _ | Locked _ n _ => [n; owner_name n; owner_name (owner_name n)]
  | Renamed n _ => [n; owner_name (owner_name n)]
  | Live n _ => [owner_name (owner_name n)]
  | _ => []
  end.

Definition absent (s : root) (x : string) : Prop :=
  rt_files s !! x = None ∧ (x ∉ rt_dirs s) ∧ ∀ q b, rt_procs s !! q = Some b → x ∉ knows b.

Record inv (s : root) : Prop := {
  iv_unique : ∀ p q a b n, rt_procs s !! p = Some a → rt_procs s !! q = Some b → held a = Some n → held b = Some n → p = q;
  iv_attempt : ∀ p a n, rt_procs s !! p = Some a → held a = Some n → attempt n;
  iv_lock : ∀ p a i, rt_procs s !! p = Some a → lock_of a = Some i → rt_locks s !! i = Some p;
  iv_nodup : ∀ p a, rt_procs s !! p = Some a → NoDup (knows a);
  iv_hidden : ∀ p a x, rt_procs s !! p = Some a → x ∈ hidden a → absent s x;
  iv_claim : ∀ p tries n i, rt_procs s !! p = Some (Opened tries n i) ∨ rt_procs s !! p = Some (Locked tries n i) →
    (claim_name n ∉ rt_dirs s)
    ∧ (rt_files s !! claim_name n = Some i
       ∨ rt_files s !! claim_name n = None ∧ ∀ q b, rt_procs s !! q = Some b → claim_name n ∉ (todo_of b).*1);
  iv_owner : ∀ p n i, rt_procs s !! p = Some (Renamed n i) ∨ rt_procs s !! p = Some (Live n i) →
    rt_files s !! owner_name n = Some i
    ∧ ∀ q b, rt_procs s !! q = Some b → (threat b n → False) ∧ ((owner_name n, false) ∉ todo_of b)
        ∧ ∀ j todo, b = Trying (owner_name n) j todo → j = i;
  iv_dir : ∀ p n i, rt_procs s !! p = Some (Live n i) → n ∈ rt_dirs s;
}.

(** ** Preservation *)

Lemma open_inv x s i s1 : open_or_create x s = Some (i, s1) →
  rt_procs s1 = rt_procs s ∧ rt_dirs s1 = rt_dirs s ∧ rt_locks s1 = rt_locks s ∧ (x ∉ rt_dirs s) ∧ rt_files s1 !! x = Some i
  ∧ (∀ y, y ≠ x → rt_files s1 !! y = rt_files s !! y) ∧ (rt_files s !! x = Some i ∨ rt_files s !! x = None).
Proof.
  unfold open_or_create. case_bool_decide; [done|]. destruct (rt_files s !! x) as [j|] eqn:Hx; intros [= <- <-]; simpl.
  - split_and!; try done. by left.
  - split_and!; try done; [apply lookup_insert_eq|intros y Hy; by apply lookup_insert_ne|by right].
Qed.

Lemma try_lock_inv i p s s1 : try_lock i p s = Some s1 →
  rt_procs s1 = rt_procs s ∧ rt_dirs s1 = rt_dirs s ∧ rt_files s1 = rt_files s ∧ rt_locks s !! i = None ∧ rt_locks s1 = <[i := p]> (rt_locks s).
Proof. unfold try_lock. destruct (rt_locks s !! i) eqn:Hl; [done|]. by intros [= <-]. Qed.

Lemma procs_discard ok x s : rt_procs (discard ok x s) = rt_procs s.
Proof. by destruct ok. Qed.
Lemma procs_remove_file ok x s : rt_procs (remove_file ok x s) = rt_procs s.
Proof. by destruct ok. Qed.
Lemma locks_discard ok x s : rt_locks (discard ok x s) = rt_locks s.
Proof. by destruct ok. Qed.
Lemma locks_remove_file ok x s : rt_locks (remove_file ok x s) = rt_locks s.
Proof. by destruct ok. Qed.
Lemma dirs_remove_file ok x s : rt_dirs (remove_file ok x s) = rt_dirs s.
Proof. by destruct ok. Qed.
Lemma dirs_discard ok x y s : y ∈ rt_dirs (discard ok x s) → y ∈ rt_dirs s.
Proof. destruct ok; simpl; set_solver. Qed.
Lemma dirs_discard_ne ok x y s : y ≠ x → y ∈ rt_dirs s → y ∈ rt_dirs (discard ok x s).
Proof. destruct ok; simpl; set_solver. Qed.
Lemma files_discard_ne ok x y s : y ≠ x → rt_files (discard ok x s) !! y = rt_files s !! y.
Proof. intros Hy. destruct ok; simpl; [|done]. by apply lookup_delete_ne. Qed.
Lemma files_remove_file_ne ok x y s : y ≠ x → rt_files (remove_file ok x s) !! y = rt_files s !! y.
Proof. intros Hy. destruct ok; simpl; [|done]. by apply lookup_delete_ne. Qed.
Lemma files_discard_eq ok x s : rt_files (discard ok x s) !! x = rt_files s !! x ∨ rt_files (discard ok x s) !! x = None.
Proof. destruct ok; simpl; [right; apply lookup_delete_eq|by left]. Qed.
Lemma files_remove_file_eq ok x s : rt_files (remove_file ok x s) !! x = rt_files s !! x ∨ rt_files (remove_file ok x s) !! x = None.
Proof. destruct ok; simpl; [right; apply lookup_delete_eq|by left]. Qed.

(** What a step does to the processes: one of them moves, starts or is gone. *)
Ltac step_state :=
  repeat match goal with
  | Ho : open_or_create _ _ = Some _ |- _ => apply open_inv in Ho as (? & ? & ? & ? & ? & ? & ?)
  | Hb : (∃ todo, _ = Sweeping todo) ∨ (∃ k, _ = Claiming k) |- _ => destruct Hb as [[? ->]|[? ->]]
  | Ht : try_lock _ _ _ = Some _ |- _ => apply try_lock_inv in Ht as (? & ? & ? & ? & ?)
  end;
  cbn [set_proc end_proc unlock rt_procs rt_files rt_dirs rt_locks] in *;
  rewrite ?procs_discard, ?procs_remove_file, ?locks_discard, ?locks_remove_file, ?dirs_remove_file in *;
  repeat match goal with
  | He : rt_procs ?s1 = rt_procs _ |- _ => rewrite He in *; clear He
  | He : rt_dirs ?s1 = rt_dirs _ |- _ => rewrite He in *; clear He
  | He : rt_files ?s1 = rt_files _ |- _ => rewrite He in *; clear He
  | He : rt_locks ?s1 = rt_locks _ |- _ => rewrite He in *; clear He
  | He : rt_locks ?s1 = <[_ := _]> _ |- _ => rewrite He in *; clear He
  end.

Ltac procs_in :=
  repeat match goal with
  | Hl : <[_ := _]> (rt_procs _) !! _ = Some _ |- _ => apply lookup_insert_Some in Hl as [[? ?]|[? ?]]; simplify_eq/=
  | Hl : delete _ (rt_procs _) !! _ = Some _ |- _ => apply lookup_delete_Some in Hl as [? ?]
  end.

Lemma unmentioned_true s n : unmentioned s n = true →
  (∀ x, x ∈ [n; claim_name n; owner_name n; owner_name (owner_name n)] → absent s x)
  ∧ ∀ q b, rt_procs s !! q = Some b → held b ≠ Some n.
Proof.
  unfold unmentioned. intros [Hx Hh]%andb_true_iff. rewrite forallb_forall in Hx. rewrite forallb_forall in Hh. split.
  - intros x Hin%list_elem_of_In%Hx. apply andb_true_iff in Hin as [Hp%negb_true_iff Hk]. rewrite forallb_forall in Hk.
    apply orb_false_iff in Hp as [Hf%bool_decide_eq_false Hd%bool_decide_eq_false].
    split_and!; [by apply not_elem_of_dom|done|]. intros q b Hq. specialize (Hk (q, b)).
    rewrite <-list_elem_of_In, elem_of_map_to_list in Hk. by apply Hk, bool_decide_eq_true in Hq.
  - intros q b Hq. specialize (Hh (q, b)). rewrite <-list_elem_of_In, elem_of_map_to_list in Hh.
    by apply Hh, negb_true_iff, bool_decide_eq_false in Hq.
Qed.

Lemma unique_step s s' : step s s' → inv s →
  ∀ p q a b n, rt_procs s' !! p = Some a → rt_procs s' !! q = Some b → held a = Some n → held b = Some n → p = q.
Proof.
  intros Hs Hi p' q a' b' m Hp' Hq Ha Hb. destruct Hs; step_state; procs_in; try done; try (by eapply (iv_unique s Hi)).
  all: match goal with Hu : unmentioned _ _ = true, Hq : rt_procs _ !! ?q = Some ?b, Hh : held ?b = Some _ |- _ =>
    by destruct (proj2 (unmentioned_true _ _ Hu) q b Hq) end.
Qed.

Lemma attempt_step s s' : step s s' → inv s → ∀ p a n, rt_procs s' !! p = Some a → held a = Some n → attempt n.
Proof.
  intros Hs Hi q b m Hq Hb. destruct Hs; step_state; procs_in; try done; by eapply (iv_attempt s Hi).
Qed.

Lemma lock_step s s' : step s s' → inv s →
  ∀ p a i, rt_procs s' !! p = Some a → lock_of a = Some i → rt_locks s' !! i = Some p.
Proof.
  intros Hs Hi q b j Hq Hb. destruct Hs; step_state; procs_in; try done; try (by eapply (iv_lock s Hi)).
  all: try (by apply lookup_insert_eq).
  all: match goal with Hi : inv ?s, Hq : rt_procs ?s !! ?q = Some ?b, Hb : lock_of ?b = Some ?j |- _ => pose proof (iv_lock s Hi q b j Hq Hb) as Hl end.
  all: try (apply map_lookup_filter_Some_2; [done|by simpl]).
  all: try (rewrite lookup_insert_ne; [done|congruence]).
  all: match goal with Hi : inv ?s, Hp : rt_procs ?s !! ?p = Some ?a |- context [delete ?i _] => pose proof (iv_lock s Hi p a i Hp eq_refl) as Hpl end.
  all: rewrite lookup_delete_ne; congruence.
Qed.

Lemma nodup_step s s' : step s s' → inv s → ∀ p a, rt_procs s' !! p = Some a → NoDup (knows a).
Proof.
  intros Hs Hi q b Hq. destruct Hs; step_state; procs_in; try (by constructor); try (by eapply (iv_nodup s Hi)); try done.
  all: match goal with Hi : inv ?s, Hp : rt_procs ?s !! ?p = Some ?a |- _ => pose proof (iv_nodup s Hi p a Hp) as Hn end.
  all: unfold knows in *; simpl in *; try done; try (by apply NoDup_cons in Hn as [_ Hn]).
  match goal with Hx : (_ `suffix_of` _) |- _ => destruct Hx as [k Hk] end. rewrite Hk, fmap_app in Hn. by apply NoDup_app in Hn as (_ & _ & (_ & _ & ?)%NoDup_app).
Qed.

(** What a process knows after a step it knew before, or it was listed. *)
Lemma knows_step s s' q b x : step s s' → rt_procs s' !! q = Some b → x ∈ knows b →
  present s x = true ∨ ∃ a, rt_procs s !! q = Some a ∧ x ∈ knows a.
Proof.
  intros Hs Hq Hx. destruct Hs; step_state; procs_in; try (by apply not_elem_of_nil in Hx); try (right; eexists; by split).
  all: try (right; eexists; split; [eassumption|]; unfold knows in *; simpl in *; set_solver).
  - unfold knows in Hx. simpl in Hx. apply list_elem_of_fmap in Hx as ([y f] & -> & Hin). left. by eapply H1.
  - right. eexists. split; [eassumption|]. unfold knows in *. simpl in *.
    match goal with Hy : (_ `suffix_of` _) |- _ => destruct Hy as [k Hk] end. rewrite Hk, fmap_app, !elem_of_app. eauto.
Qed.

Lemma todo_step s s' q b x : step s s' → rt_procs s' !! q = Some b → x ∈ todo_of b →
  (present s x.1 = true ∧ x.2 = bool_decide (x.1 ∈ dom (rt_files s))) ∨ ∃ a, rt_procs s !! q = Some a ∧ x ∈ todo_of a.
Proof.
  intros Hs Hq Hx. destruct Hs; step_state; procs_in; try (by apply not_elem_of_nil in Hx); try (right; eexists; by split).
  all: try (right; eexists; split; [eassumption|]; simpl in *; set_solver).
  - destruct x as [y f]. left. by apply H1.
  - right. eexists. split; [eassumption|]. match goal with Hy : (_ `suffix_of` _) |- _ => destruct Hy as [k Hk] end. rewrite Hk, elem_of_app. eauto.
Qed.

(** A name that is not there stays so, unless the step gives it. *)
Lemma absent_step s s' x : step s s' → absent s x → (∀ n, x ≠ claim_name n) →
  absent s' x ∨ (∃ p n i, rt_procs s' !! p = Some (Renamed n i) ∧ x = owner_name n)
  ∨ ∃ p n i, rt_procs s' !! p = Some (Live n i) ∧ x = n.
Proof.
  intros Hs (Hf & Hd & Hk) Hc. assert (present s x = false) as Hp.
  { apply orb_false_iff. rewrite !bool_decide_eq_false. split; [by apply not_elem_of_dom|done]. }
  assert (∀ q b, rt_procs s' !! q = Some b → x ∉ knows b) as Hk'.
  { intros q b Hq Hin. destruct (knows_step s s' q b x Hs Hq Hin) as [?|(a & Ha & Hxa)]; [congruence|]. by eapply Hk. }
  assert (∀ t, rt_files s' !! x = None → x ∉ t → rt_dirs s' = t → absent s' x) as Hmake by (intros t ? ? <-; by split_and!).
  destruct Hs; step_state; try (left; by eapply Hmake).
  - left. eapply Hmake; [|intros ?%dirs_discard; done|done].
    destruct (decide (x = x0)) as [->|?]; [|by rewrite files_discard_ne]. by destruct (files_discard_eq ok x0 s) as [->| ->].
  - left. eapply Hmake; [|done|done]. match goal with Hy : ∀ y, y ≠ x0 → _ |- _ => rewrite Hy; [done|] end.
    intros ->. eapply Hk; [eassumption|]. unfold knows. simpl. constructor.
  - left. eapply Hmake; [|intros ?%dirs_discard; done|done].
    destruct (decide (x = y)) as [->|?]; [|by rewrite files_discard_ne]. by destruct (files_discard_eq ok y s) as [->| ->].
  - left. eapply Hmake; [|done|done].
    destruct (decide (x = x0)) as [->|?]; [|by rewrite files_remove_file_ne]. by destruct (files_remove_file_eq ok x0 s) as [->| ->].
  - left. eapply Hmake; [|done|done]. match goal with Hy : ∀ y, y ≠ claim_name n → _ |- _ => by rewrite Hy end.
  - destruct (decide (x = owner_name n)) as [->|Hne]; [right; left; exists p, n, i; by rewrite lookup_insert_eq|left].
    eapply Hmake; [|done|done]. rewrite lookup_insert_ne by done. by rewrite lookup_delete_ne.
  - destruct (decide (x = n)) as [->|Hne]; [right; right; exists p, n, i; by rewrite lookup_insert_eq|left].
    eapply Hmake; [done| |done]. set_solver.
  - left. eapply Hmake; [|intros ?%dirs_discard; done|done].
    destruct (decide (x = n)) as [->|?]; [|by rewrite files_discard_ne]. by destruct (files_discard_eq ok n s) as [->| ->].
  - left. eapply Hmake; [|done|done]. destruct (decide (x = owner_name n)) as [->|?]; [|by rewrite files_remove_file_ne].
    by destruct (files_remove_file_eq ok (owner_name n) s) as [->| ->].
Qed.

(** The names an attempt hides. *)
Lemma hidden_names a x : x ∈ hidden a → ∃ n, held a = Some n ∧ (x = n ∨ x = owner_name n ∨ x = owner_name (owner_name n)).
Proof. destruct a; simpl; intros Hx; try (by apply not_elem_of_nil in Hx); eexists; (split; [done|]); set_solver. Qed.

Lemma hidden_before s s' q b x : step s s' → inv s → rt_procs s' !! q = Some b → x ∈ hidden b → absent s x.
Proof.
  intros Hs Hi Hq Hx. destruct Hs; step_state; procs_in; try (by apply not_elem_of_nil in Hx); try (by eapply (iv_hidden s Hi)).
  - match goal with Hu : unmentioned _ _ = true |- _ => apply (proj1 (unmentioned_true _ _ Hu)) end. set_solver.
  - eapply (iv_hidden s Hi); [eassumption|]. simpl. set_solver.
  - eapply (iv_hidden s Hi); [eassumption|]. simpl. set_solver.
Qed.

Lemma hidden_step s s' : step s s' → inv s → ∀ p a x, rt_procs s' !! p = Some a → x ∈ hidden a → absent s' x.
Proof.
  intros Hs Hi q b x Hq Hx. pose proof (hidden_before s s' q b x Hs Hi Hq Hx) as Hb. destruct (hidden_names b x Hx) as (n & Hn & Hnames).
  pose proof (attempt_step s s' Hs Hi q b n Hq Hn) as Hat.
  destruct (absent_step s s' x Hs Hb) as [?|[(p & m & i & Hp & ->)|(p & m & i & Hp & ->)]]; [|done|..].
  - intros m. destruct (names_apart n m Hat) as (? & ? & ? & ? & ?). by destruct Hnames as [->|[->| ->]].
  - pose proof (attempt_step s s' Hs Hi p _ m Hp eq_refl) as Hm. destruct (names_apart n m Hat) as (? & ? & ? & ? & ?).
    destruct (names_apart m n Hm) as (? & ? & ? & ? & ?). destruct Hnames as [?|[Heq|?]]; [congruence| |congruence].
    apply owner_name_inj in Heq as ->. pose proof (unique_step s s' Hs Hi q p b _ n Hq Hp Hn eq_refl) as ->.
    rewrite Hp in Hq. injection Hq as <-. simpl in Hx. set_solver.
  - pose proof (attempt_step s s' Hs Hi p _ m Hp eq_refl) as Hm. destruct (names_apart m n Hm) as (? & ? & ? & ? & ?).
    destruct (names_apart m (owner_name n) Hm) as (? & ? & ? & ? & ?).
    destruct Hnames as [->|[?|?]]; [|done|done]. pose proof (unique_step s s' Hs Hi q p b _ n Hq Hp Hn eq_refl) as ->.
    rewrite Hp in Hq. injection Hq as <-. simpl in Hx. apply list_elem_of_singleton in Hx. done.
Qed.

(** A sweep removes one of its names: nobody has it listed any more. *)
Lemma taken_unlisted s p a x : inv s → one_sweep s → rt_procs s !! p = Some a → sweeping a = true → at_hand a = [x] →
  ∀ q b, <[p := Sweeping (todo_of a)]> (rt_procs s) !! q = Some b → x ∉ (todo_of b).*1.
Proof.
  intros Hi Hone Hp Ha Hx q b [[<- <-]|[Hne Hq]]%lookup_insert_Some.
  - pose proof (iv_nodup s Hi p a Hp) as Hn. unfold knows in Hn. rewrite Hx in Hn. by apply NoDup_cons in Hn as [? _].
  - destruct (sweeping b) eqn:Hb; [by destruct (Hne (Hone p q a b Hp Hq Ha Hb))|]. destruct b; try done; apply not_elem_of_nil.
Qed.

(** The claim of a process that is still to publish it: its own file, or gone for good. *)
Definition claimed (s : root) (n : string) (i : nat) : Prop :=
  (claim_name n ∉ rt_dirs s)
  ∧ (rt_files s !! claim_name n = Some i
     ∨ rt_files s !! claim_name n = None ∧ ∀ q b, rt_procs s !! q = Some b → claim_name n ∉ (todo_of b).*1).

Lemma claimed_keeps s s' n i : claimed s n i → step s s' → rt_files s' !! claim_name n = rt_files s !! claim_name n →
  claim_name n ∉ rt_dirs s' → claimed s' n i.
Proof.
  intros [Hd Hc] Hs Hf Hd'. split; [done|]. rewrite Hf. destruct Hc as [?|[Hnone Hun]]; [by left|right]. split; [done|].
  intros q b Hq (e & Heq & Hin)%list_elem_of_fmap. destruct (todo_step s s' q b e Hs Hq Hin) as [[Hp _]|(a & Ha & Hea)].
  - rewrite <-Heq in Hp. apply orb_true_iff in Hp as [Hp%bool_decide_eq_true|Hp%bool_decide_eq_true]; [|done].
    by apply elem_of_dom in Hp as [? ?]; congruence.
  - apply (Hun q a Ha). rewrite Heq. by apply list_elem_of_fmap_2.
Qed.

Lemma claimed_step s s' q b b' n i : step s s' → inv s → one_sweep s → rt_procs s !! q = Some b → held b = Some n →
  rt_procs s' !! q = Some b' → (∃ tries, b' = Opened tries n i ∨ b' = Locked tries n i) → claimed s n i → claimed s' n i.
Proof.
  intros Hs Hi Hone Hq Hb Hq' Hb' Hcl. pose proof (claimed_keeps s s' n i Hcl Hs) as Hkeep.
  assert (∀ p a x m, rt_procs s !! p = Some a → held a = Some m → x = m ∨ x = owner_name m → claim_name n ≠ x) as Hapart.
  { intros p a x m Hp Ha Hx Heq. pose proof (iv_attempt s Hi p a m Hp Ha) as Hm. destruct (names_apart m n Hm) as (? & ? & ? & ? & ?).
    destruct Hx; congruence. }
  destruct Hcl as [Hd Hc]. destruct Hs; step_state; try (by apply Hkeep).
  - destruct (decide (claim_name n = x)) as [<-|Hne]; [|apply Hkeep; [by apply files_discard_ne|by intros ?%dirs_discard]].
    destruct (files_discard_eq ok (claim_name n) s) as [Heq|Heq]; [apply Hkeep; [done|by intros ?%dirs_discard]|].
    split; [by intros ?%dirs_discard|right]. split; [done|]. intros q0 b0. cbn [set_proc rt_procs]. rewrite procs_discard.
    by apply (taken_unlisted s p (Discarding (claim_name n) todo)).
  - destruct (decide (claim_name n = x)) as [<-|Hne]; [|apply Hkeep; [auto|done]]. destruct Hc as [Hc|[Hc Hun]].
    + apply Hkeep; [|done]. destruct_or!; congruence.
    + exfalso. apply (Hun p _ H). simpl. constructor.
  - assert (claim_name n ≠ y) as Hne.
    { match goal with Hx : sighted _ = _ |- _ => destruct (sighted_owner _ _ _ Hx) as [_ Hy] end. intros Heq. by apply (Hy n). }
   
    apply Hkeep; [by apply files_discard_ne|by intros ?%dirs_discard].
  - destruct (decide (claim_name n = x)) as [<-|Hne]; [|apply Hkeep; [by apply files_remove_file_ne|done]].
    destruct (files_remove_file_eq ok (claim_name n) s) as [Heq|Heq]; [apply Hkeep; done|].
    split; [cbn [set_proc rt_dirs]; by rewrite dirs_remove_file|right]. split; [done|].
    intros q0 b0. cbn [set_proc rt_procs]. rewrite procs_remove_file.
    by apply (taken_unlisted s p (Swept (claim_name n) todo)).
  - apply Hkeep; [|done]. match goal with Hy : ∀ y, y ≠ _ → _ |- _ => apply Hy end. intros Heq%claim_name_inj. subst n0.
    match goal with Hu : unmentioned _ _ = true |- _ => by destruct (proj2 (unmentioned_true _ _ Hu) q b Hq) end.
  - destruct (decide (n0 = n)) as [->|Hne].
    + match goal with Hp : rt_procs s !! p = Some _ |- _ => pose proof (iv_unique s Hi q p b _ n Hq Hp Hb eq_refl) as -> end.
      rewrite lookup_insert_eq in Hq'. injection Hq' as <-.
      destruct Hb' as (? & [?|?]); done.
    + apply Hkeep; [|done]. rewrite lookup_insert_ne by (intros Heq; by eapply (Hapart p _ (owner_name n0) n0); eauto).
      rewrite lookup_delete_ne; [done|]. by intros ?%claim_name_inj.
  - apply Hkeep; [done|]. intros [Hin%elem_of_singleton|?]%elem_of_union; [|done]. by eapply (Hapart p _ n0 n0); eauto.
  - apply Hkeep; [apply files_discard_ne; eapply (Hapart p _ n0 n0); eauto|by intros ?%dirs_discard].
  - apply Hkeep; [|done]. apply files_remove_file_ne. eapply (Hapart p _ (owner_name n0) n0); eauto.
Qed.

Lemma claim_step s s' : step s s' → inv s → one_sweep s →
  ∀ p tries n i, rt_procs s' !! p = Some (Opened tries n i) ∨ rt_procs s' !! p = Some (Locked tries n i) → claimed s' n i.
Proof.
  intros Hs Hi Hone q tries n i Hq.
  assert ((∃ b, rt_procs s !! q = Some b ∧ held b = Some n ∧ claimed s n i) → claimed s' n i) as Hold.
  { intros (b & Hb & Hn & Hc). destruct Hq as [Hq|Hq]; (eapply claimed_step; [done|done|done|exact Hb|done|exact Hq|eauto|done]). }
  assert (∀ tries, rt_procs s !! q = Some (Opened tries n i) ∨ rt_procs s !! q = Some (Locked tries n i) →
    ∃ b, rt_procs s !! q = Some b ∧ held b = Some n ∧ claimed s n i) as Hfrom.
  { intros tr Hb. pose proof (iv_claim s Hi q tr n i Hb). destruct Hb; eauto. }
  destruct Hs; step_state; (destruct Hq as [Hq|Hq]; procs_in); try (eapply Hold, Hfrom; by eauto).
  match goal with Hu : unmentioned _ _ = true |- _ => destruct (proj1 (unmentioned_true _ _ Hu) (claim_name n)) as (_ & Hd & _); [set_solver|] end.
  split; cbn [set_proc rt_dirs rt_files]; [congruence|by left].
Qed.

(** The owner file of an attempt that was published: locked by its process, and nobody is about to
    remove it or the directory. *)
Definition owned (s : root) (n : string) (i : nat) : Prop :=
  rt_files s !! owner_name n = Some i
  ∧ ∀ q b, rt_procs s !! q = Some b → (threat b n → False) ∧ ((owner_name n, false) ∉ todo_of b)
      ∧ ∀ j todo, b = Trying (owner_name n) j todo → j = i.

Section owned.
Context (s s' : root) (q : nat) (b : Proc) (n : string) (i : nat).
Hypothesis (Hs : step s s') (Hi : inv s) (Hq : rt_procs s !! q = Some b) (Hb : b = Renamed n i ∨ b = Live n i) (Hown : owned s n i).

Lemma owned_attempt : attempt n.
Proof. eapply (iv_attempt s Hi); [exact Hq|]. by destruct Hb as [->| ->]. Qed.

(** Another process has another attempt. *)
Lemma owned_alone p a m : rt_procs s !! p = Some a → held a = Some m → p ≠ q → m ≠ n.
Proof. intros Hp Ha Hne ->. apply Hne. eapply (iv_unique s Hi); [exact Hp|exact Hq|done|]. by destruct Hb as [->| ->]. Qed.

(** Nothing a sweep has at hand makes it clear this attempt. *)
Lemma owned_spared p x todo y : rt_procs s !! p = Some (Freed x todo) → sighted x = OwnerOf y false → y ≠ n ∧ y ≠ owner_name n.
Proof.
  intros Hp [-> _]%sighted_owner. destruct (proj2 Hown p _ Hp) as [Ht _]. split; intros ->.
  - by apply Ht.
  - assert (absent s (owner_name (owner_name n))) as (_ & _ & Hk).
    { eapply (iv_hidden s Hi); [exact Hq|]. destruct Hb as [->| ->]; simpl; set_solver. }
    apply (Hk p _ Hp). unfold knows. simpl. constructor.
Qed.

Lemma owned_file b' : rt_procs s' !! q = Some b' → held b' = Some n → rt_files s' !! owner_name n = Some i.
Proof.
  pose proof owned_attempt as Hat. pose proof owned_alone as Halone. pose proof owned_spared as Hspare. destruct Hown as [Hf Hall].
  intros Hq' Hb'. assert (∀ m, owner_name n ≠ claim_name m) as Hoc by (intros m; by destruct (names_apart n m Hat) as (_ & _ & ? & _)).
  destruct Hs; step_state; try done.
  - rewrite files_discard_ne; [done|]. intros Heq. destruct (Hall p _ H) as [Ht _]. apply Ht. by right.
  - destruct (decide (owner_name n = x)) as [<-|Hne]; [destruct_or!; congruence|]. by match goal with Hy : ∀ y, y ≠ x → _ |- _ => rewrite Hy end.
  - rewrite files_discard_ne; [done|]. by destruct (Hspare p x todo y H) as [_ ?].
  - rewrite files_remove_file_ne; [done|]. intros <-. by destruct (Hall p _ H) as [Ht _]; apply Ht.
  - by match goal with Hy : ∀ y, y ≠ _ → _ |- _ => rewrite Hy end.
  - rewrite lookup_insert_ne, lookup_delete_ne; [done|done|]. intros Heq%owner_name_inj. eapply Halone; [exact H|done| |done].
    intros ->. destruct Hb; congruence.
  - rewrite files_discard_ne; [done|]. intros Heq. pose proof (iv_attempt s Hi p _ n0 H eq_refl) as Hn0.
    by destruct (names_apart n0 n Hn0) as (? & _).
  - rewrite files_remove_file_ne; [done|]. intros Heq%owner_name_inj. eapply Halone; [exact H|done| |done].
    intros ->. destruct Hb; congruence.
Qed.

Lemma owned_quiet p a : rt_procs s' !! p = Some a → (threat a n → False) ∧ ((owner_name n, false) ∉ todo_of a)
  ∧ ∀ j todo, a = Trying (owner_name n) j todo → j = i.
Proof.
  pose proof owned_attempt as Hat. destruct Hown as [Hf Hall]. intros Hp.
  assert (∀ p a, rt_procs s !! p = Some a → threat a n → False) as Hth by (intros p0 a0 Ha0; apply (Hall p0 a0 Ha0)).
  assert (∀ p a, rt_procs s !! p = Some a → ∀ j todo, a = Trying (owner_name n) j todo → j = i) as Htry
    by (intros p0 a0 Ha0; apply (Hall p0 a0 Ha0)).
  split_and!.
  - intros Ht. destruct Hs; step_state; procs_in; try done;
      try (match goal with Hx : rt_procs _ !! _ = Some _ |- _ => first [exact (Hth _ _ Hx Ht)|exact (Hth _ _ Hx eq_refl)] end).
    + destruct (Hall p _ H) as (_ & Hno & _). destruct H0 as [[-> (a & c & Hx)]|[Hx Hn]].
      * destruct Ht as [->| ->]; [by rewrite sighted_attempt in Hx|]. apply Hno. simpl. constructor.
      * destruct Ht as [->| ->]; [congruence|]. by rewrite sighted_its_owner in Hx.
    + assert (i0 = i) as -> by (by eapply (Htry p)).
      assert (rt_locks s !! i = Some q) by (eapply (iv_lock s Hi); [exact Hq|]; by destruct Hb as [->| ->]). congruence.
  - intros Hin. destruct (todo_step s s' p a _ Hs Hp Hin) as [[_ Hfl]|(a0 & Ha0 & Hin0)]; [|by apply (Hall p a0 Ha0)].
    simpl in Hfl. symmetry in Hfl. apply bool_decide_eq_false, not_elem_of_dom in Hfl. congruence.
  - intros j todo ->. destruct Hs; step_state; procs_in;
      try (match goal with Hx : rt_procs _ !! _ = Some _ |- _ => exact (Htry _ _ Hx _ _ eq_refl) end).
    destruct_or!; congruence.
Qed.

Lemma owned_step b' : rt_procs s' !! q = Some b' → held b' = Some n → owned s' n i.
Proof. intros Hq' Hb'. split; [by eapply owned_file|]. intros p a Hp. by apply (owned_quiet p). Qed.

Lemma owned_dir : rt_procs s' !! q = Some (Live n i) → n ∈ rt_dirs s → n ∈ rt_dirs s'.
Proof.
  pose proof owned_attempt as Hat. pose proof owned_alone as Halone. pose proof owned_spared as Hspare. destruct Hown as [Hf Hall].
  intros Hq' Hd. destruct Hs; step_state; try done.
  - apply dirs_discard_ne; [|done]. intros ->. destruct (Hall p _ H) as [Ht _]. apply Ht. by left.
  - apply dirs_discard_ne; [|done]. by destruct (Hspare p x todo y H) as [? _].
  - set_solver.
  - apply dirs_discard_ne; [|done]. intros ->. destruct (decide (p = q)) as [->|Hne]; [by rewrite lookup_insert_eq in Hq'|].
    by eapply (Halone p).
Qed.
End owned.

(** ** Runs *)

Lemma inv_step s s' : step s s' → inv s → one_sweep s → inv s'.
Proof.
  intros Hs Hi Hone.
  assert (∀ p n i, rt_procs s' !! p = Some (Renamed n i) ∨ rt_procs s' !! p = Some (Live n i) →
    (∃ b, rt_procs s !! p = Some b ∧ (b = Renamed n i ∨ b = Live n i) ∧ owned s n i)
    ∨ ∃ tries, rt_procs s !! p = Some (Locked tries n i) ∧ rt_files s' !! owner_name n = rt_files s !! claim_name n
        ∧ (∃ j, rt_files s !! claim_name n = Some j) ∧ ∀ q b, rt_procs s' !! q = Some b → q ≠ p → rt_procs s !! q = Some b) as Hfrom.
  { intros p n i Hp. assert (∀ b, rt_procs s !! p = Some b → b = Renamed n i ∨ b = Live n i →
      ∃ b, rt_procs s !! p = Some b ∧ (b = Renamed n i ∨ b = Live n i) ∧ owned s n i) as Hold.
    { intros b Hb Hbn. exists b. split_and!; [done|done|]. apply (iv_owner s Hi p). destruct Hbn as [->| ->]; auto. }
    destruct Hs; step_state; (destruct Hp as [Hp|Hp]; procs_in); try (left; eapply Hold; [eassumption|by auto]).
    right. exists tries. split_and!; [done|by rewrite lookup_insert_eq|by eauto|]. intros q b Hq Hne. by rewrite lookup_insert_ne in Hq. }
  split.
  - by apply (unique_step s).
  - by apply (attempt_step s).
  - by apply (lock_step s).
  - by apply (nodup_step s).
  - by apply (hidden_step s).
  - by apply (claim_step s).
  - intros p n i Hp. destruct (Hfrom p n i Hp) as [(b & Hb & Hbn & Hown)|(tries & Hl & Hf & [j Hj] & Hothers)].
    + destruct Hp as [Hp|Hp]; by eapply (owned_step s s' p b n i Hs Hi Hb Hbn Hown).
    + destruct (iv_claim s Hi p tries n i (or_intror Hl)) as [_ [Hc|[Hc _]]]; [|congruence].
      assert (absent s (owner_name n)) as (_ & _ & Hk) by (eapply (iv_hidden s Hi); [exact Hl|]; simpl; set_solver).
      assert (absent s n) as (_ & _ & Hk') by (eapply (iv_hidden s Hi); [exact Hl|]; simpl; set_solver).
      split; [congruence|]. intros q b Hq. destruct (decide (q = p)) as [->|Hne].
      { destruct Hp as [Hp|Hp]; rewrite Hp in Hq; injection Hq as <-; (split_and!; [done|apply not_elem_of_nil|done]). }
      pose proof (Hothers q b Hq Hne) as Hb. specialize (Hk q b Hb). specialize (Hk' q b Hb). unfold knows in Hk, Hk'.
      split_and!.
      * intros Ht. destruct b; simpl in *; try done; try destruct Ht; subst; set_solver.
      * intros Hin. apply Hk, elem_of_app. right. by apply (list_elem_of_fmap_2 fst) in Hin.
      * intros j' todo ->. simpl in Hk. set_solver.
  - intros p n i Hp. destruct (Hfrom p n i (or_intror Hp)) as [(b & Hb & Hbn & Hown)|(tries & Hl & _)].
    + destruct Hbn as [->| ->]; [|eapply (owned_dir s s' p _ n i Hs Hi Hb (or_intror eq_refl) Hown Hp); by eapply (iv_dir s Hi)].
      destruct Hs; step_state; procs_in; try congruence. set_solver.
    + destruct Hs; step_state; procs_in; congruence.
Qed.

(** A staging root no process has open, whatever an earlier one left there. *)
Definition idle (s : root) : Prop := rt_procs s = ∅ ∧ rt_locks s = ∅.

(** The states the processes can reach while no two sweeps overlap. *)
Inductive reaches (s0 : root) : root → Prop :=
| rc_idle : idle s0 → reaches s0 s0
| rc_exec s l s' : reaches s0 s → exec l s = Some s' → one_sweep s' → reaches s0 s'.

Lemma reaches_inv s0 s : reaches s0 s → inv s ∧ one_sweep s.
Proof.
  induction 1 as [[Hp Hl]|s l s' _ [Hi Hone] He Hone'].
  - assert (∀ p a, rt_procs s0 !! p = Some a → False) as Hno by (intros p a; by rewrite Hp).
    split; [split|unfold one_sweep]; intros; exfalso; destruct_or?; eauto.
  - split; [|done]. eapply inv_step; [by eapply exec_is_step|done|done].
Qed.

(** C13. No sweep removes a live stage.  From any idle staging root, whatever is left in it,
    through every interleaving of processes that sweep, claim, publish and drop their stages, with
    failing calls and processes that end anywhere, as long as no two sweeps overlap: while a
    process has its stage, the stage's directory is there, and its owner file is the one whose
    lock that process holds. *)
Theorem a_live_stage_is_never_swept s0 s p n i :
  reaches s0 s → rt_procs s !! p = Some (Live n i) →
  n ∈ rt_dirs s ∧ rt_files s !! owner_name n = Some i ∧ rt_locks s !! i = Some p.
Proof.
  intros [Hi _]%reaches_inv Hp. split_and!; [by eapply (iv_dir s Hi)|apply (iv_owner s Hi p n i); by right|by eapply (iv_lock s Hi)].
Qed.

(** ** What one sweep clears *)

(** Entries of a staging attempt, whoever left them. *)
Definition leftover (x : string) : bool :=
  match sighted x with OwnerOf _ _ | Bare _ false => true | _ => false end.

Lemma sighted_bare_owner x : sighted x = Bare x false → sighted (owner_name x) = OwnerOf x false.
Proof.
  unfold sighted at 1. destruct (strip_prefix CLAIM_PREFIX x) as [y|] eqn:Hc.
  { destruct (strip_prefix STAGE_PREFIX y), (strip_suffix OWNER_SUFFIX y); by intros [=]. }
  destruct (strip_prefix STAGE_PREFIX x) as [rest|] eqn:Hp; [|done]. intros _. apply strip_prefix_Some in Hp as ->.
  unfold sighted. assert (strip_prefix CLAIM_PREFIX (owner_name (String.append STAGE_PREFIX rest)) = None) as -> by done.
  assert (strip_prefix STAGE_PREFIX (owner_name (String.append STAGE_PREFIX rest)) = Some (owner_name rest)) as -> by (by apply strip_prefix_Some).
  unfold owner_name. by rewrite strip_suffix_app.
Qed.

(** What an owner file guards is a staging entry itself. *)
Lemma guarded_leftover x a c : sighted x = OwnerOf a c → leftover a = true.
Proof.
  assert (∀ y stem, strip_prefix STAGE_PREFIX y = Some stem → strip_suffix OWNER_SUFFIX y = Some a → leftover a = true) as Hy.
  { intros y stem Hp Hs%strip_suffix_Some. subst y. apply strip_prefix_Some in Hp.
    assert (∃ rest, a = String.append STAGE_PREFIX rest) as [rest ->].
    { do 6 (destruct a as [|? a]; [by inversion Hp|]). exists a. unfold STAGE_PREFIX in *. simpl in *. by inversion Hp. }
    unfold leftover, sighted. assert (strip_prefix CLAIM_PREFIX (String.append STAGE_PREFIX rest) = None) as -> by done.
    rewrite (proj2 (strip_prefix_Some STAGE_PREFIX (String.append STAGE_PREFIX rest) rest) eq_refl). by destruct (strip_suffix _ _). }
  unfold sighted. destruct (strip_prefix CLAIM_PREFIX x) as [y|].
  - destruct (strip_prefix STAGE_PREFIX y) eqn:Hp, (strip_suffix OWNER_SUFFIX y) eqn:Hs; try done. intros [= -> _]. by eapply Hy.
  - destruct (strip_prefix STAGE_PREFIX x) eqn:Hp, (strip_suffix OWNER_SUFFIX x) eqn:Hs; try done. intros [= -> _]. by eapply Hy.
Qed.

(** A sweep alone in the root, with what it has left.  An attempt directory it has passed waits for
    its owner file, unless what stood under that name was a directory. *)
Record clearing (strays : gset string) (p : nat) (todo : Listing) (s : root) : Prop := {
  cl_procs : rt_procs s = {[ p := Sweeping todo ]};
  cl_locks : rt_locks s = ∅;
  cl_files : ∀ x, (x, true) ∈ todo → x ∉ rt_dirs s;
  cl_dirs : ∀ x, (x, false) ∈ todo → x ∈ strays;
  cl_owners : ∀ x a c, sighted x = OwnerOf a c → present s x = true → x ∈ todo.*1;
  cl_stages : ∀ x, sighted x = Bare x false → present s x = true →
    x ∈ todo.*1 ∨ (owner_name x, true) ∈ todo ∨ owner_name x ∈ strays;
}.

(** Entries that are no leftovers are as they were. *)
Definition spares (s s' : root) : Prop :=
  ∀ x, leftover x = false → rt_files s' !! x = rt_files s !! x ∧ (x ∈ rt_dirs s' ↔ x ∈ rt_dirs s).

Lemma present_iff s x : present s x = true ↔ is_Some (rt_files s !! x) ∨ x ∈ rt_dirs s.
Proof. unfold present. rewrite orb_true_iff, !bool_decide_eq_true, elem_of_dom. done. Qed.

(** The rest of the sweep, after one entry that is gone or stays as it is. *)
Lemma clearing_next strays p x f todo s s' :
  clearing strays p ((x, f) :: todo) s → rt_procs s' = {[ p := Sweeping todo ]} → rt_locks s' = ∅ →
  (∀ y, present s' y = true → present s y = true) → (∀ y, y ∈ rt_dirs s' → y ∈ rt_dirs s) →
  (∀ a c, sighted x = OwnerOf a c → present s' x = false) →
  (sighted x = Bare x false → present s' x = true → present s (owner_name x) = true) →
  (f = true → ∀ y, sighted y = Bare y false → owner_name y = x → present s' y = false) →
  clearing strays p todo s'.
Proof.
  intros [_ _ Hf Hd Ho Hst] Hp Hl Hsub Hdsub Hx Hbare Hguard. split; [done|done|..].
  - intros y Hin Hy%Hdsub. by apply (Hf y); [constructor|].
  - intros y Hin. apply Hd. by constructor.
  - intros y a c Hy Hpr. pose proof (Ho y a c Hy (Hsub y Hpr)) as Hin. simpl in Hin. apply elem_of_cons in Hin as [->|?]; [|done].
    by rewrite (Hx a c Hy) in Hpr.
  - intros y Hy Hpr.
    assert (∀ g, (owner_name y, g) ∈ (x, f) :: todo → (owner_name y, true) ∈ todo ∨ owner_name y ∈ strays) as Howner.
    { intros [] Hin; [|right; by apply Hd]. apply elem_of_cons in Hin as [[= <- <-]|Hin]; [|by left].
      by rewrite (Hguard eq_refl y Hy eq_refl) in Hpr. }
    destruct (Hst y Hy (Hsub y Hpr)) as [Hin|[Hin|Hin]]; [|right; by apply (Howner true)|by right; right].
    simpl in Hin. apply elem_of_cons in Hin as [->|?]; [|by left]. right.
    pose proof (Ho _ x false (sighted_bare_owner x Hy) (Hbare Hy Hpr)) as Hin. apply list_elem_of_fmap in Hin as ([z g] & Hz & Hin).
    simpl in Hz. rewrite <-Hz in Hin. by apply (Howner g).
Qed.

Definition turn (p : nat) (token : string) : label := Step p true token.

(** One entry that is no owner file. *)
Lemma clear_bare strays p token x f todo s : clearing strays p ((x, f) :: todo) s → (∀ a c, sighted x ≠ OwnerOf a c) →
  ∃ k s', execs (replicate k (turn p token)) s = Some s' ∧ clearing strays p todo s' ∧ spares s s'.
Proof.
  intros Hcl Hno. assert (∀ y, sighted y = Bare y false → owner_name y ≠ x) as Hny
    by (intros y Hy <-; by apply (Hno y false), sighted_bare_owner). pose proof (cl_procs _ _ _ _ Hcl) as Hp. pose proof (cl_locks _ _ _ _ Hcl) as Hl.
  assert (rt_procs s !! p = Some (Sweeping ((x, f) :: todo))) as Hpp by (by rewrite Hp, lookup_singleton_eq).
  assert (sweep_entry true p x f todo s = set_proc p (Sweeping todo) s → (sighted x = Bare x false → present s (owner_name x) = true) →
    ∃ k s', execs (replicate k (turn p token)) s = Some s' ∧ clearing strays p todo s' ∧ spares s s') as Hskip.
  { intros He Hb. exists 1, (set_proc p (Sweeping todo) s). split_and!.
    - cbn [replicate execs exec turn]. rewrite Hpp. cbn [sweep_step]. by rewrite He.
    - eapply clearing_next; [exact Hcl|simpl; rewrite Hp; apply insert_singleton_eq|done|done|done|intros a c Ha; by destruct (Hno a c)|by auto|by intros _ y Hy ?%(Hny y Hy)].
    - by intros y _. }
  destruct (sighted x) as [|n c|a c] eqn:Hx; [apply Hskip; [unfold sweep_entry; by rewrite Hx|done]| |by destruct (Hno a c)].
  destruct c; [apply Hskip; [unfold sweep_entry; by rewrite Hx|done]|]. pose proof (sighted_bare _ _ Hx) as <-.
  destruct (present s (owner_name x)) eqn:Hown; [apply Hskip; [unfold sweep_entry; by rewrite Hx, Hown|done]|].
  exists 2, (set_proc p (Sweeping todo) (discard true x (set_proc p (Discarding x todo) s))).
  assert (∀ y, y ≠ x → present (discard true x s) y = present s y) as Hpr.
  { intros y Hy. unfold present. simpl. f_equal; apply bool_decide_ext; [rewrite !elem_of_dom, lookup_delete_ne by done; done|set_solver]. }
  assert (present (discard true x s) x = false) as Hgone.
  { apply not_true_iff_false. rewrite present_iff. simpl. rewrite lookup_delete_eq. intros [[]|?]; [done|set_solver]. }
  split_and!.
  - cbn [replicate execs exec turn]. rewrite Hpp. cbn [sweep_step]. unfold sweep_entry. rewrite Hx, Hown. cbn [andb orb negb mbind option_bind].
    cbn [set_proc rt_procs]. rewrite lookup_insert_eq. done.
  - eapply clearing_next; [exact Hcl|simpl; rewrite Hp, !insert_singleton_eq; done|done|..].
    + intros y Hy. change (present (discard true x s) y = true) in Hy.
      destruct (decide (y = x)) as [->|Hne]; [by rewrite Hgone in Hy|by rewrite <-(Hpr y Hne)].
    + intros y. simpl. set_solver.
    + intros a c Ha. congruence.
    + intros _ Hy. change (present (discard true x s) x = true) in Hy. by rewrite Hgone in Hy.
    + by intros _ y Hy ?%(Hny y Hy).
  - intros y Hy. assert (y ≠ x) by (intros ->; unfold leftover in Hy; by rewrite Hx in Hy). simpl.
    rewrite lookup_delete_ne by done. split; [done|set_solver].
Qed.

(** A directory under an owner file's name goes unopened, and alone. *)
Lemma clear_stray strays p token x a c todo s : clearing strays p ((x, false) :: todo) s → sighted x = OwnerOf a c →
  ∃ k s', execs (replicate k (turn p token)) s = Some s' ∧ clearing strays p todo s' ∧ spares s s'.
Proof.
  intros Hcl Hx. pose proof (cl_procs _ _ _ _ Hcl) as Hp. pose proof (cl_locks _ _ _ _ Hcl) as Hl.
  exists 2, (set_proc p (Sweeping todo) (discard true x (set_proc p (Discarding x todo) s))). split_and!.
  - cbn [replicate execs exec turn]. rewrite Hp, lookup_singleton_eq. cbn [sweep_step]. unfold sweep_entry. rewrite Hx.
    cbn [negb mbind option_bind set_proc rt_procs]. rewrite lookup_insert_eq. done.
  - eapply clearing_next; [exact Hcl|simpl; rewrite Hp, !insert_singleton_eq; done|done|..].
    + intros y. rewrite !present_iff. simpl. intros [[i Hy%lookup_delete_Some]|Hy]; [left; eexists; apply Hy|right; set_solver].
    + intros y. simpl. set_solver.
    + intros ? ? _. apply not_true_iff_false. rewrite present_iff. simpl. rewrite lookup_delete_eq. intros [[]|?]; [done|set_solver].
    + intros Hb. congruence.
    + done.
  - intros y Hy. assert (y ≠ x) by (intros ->; unfold leftover in Hy; by rewrite Hx in Hy). simpl.
    rewrite lookup_delete_ne by done. split; [done|set_solver].
Qed.

(** One owner file: its lock is free, so it goes, with the directory it guards. *)
Lemma clear_owner strays p token x a c todo s : clearing strays p ((x, true) :: todo) s → sighted x = OwnerOf a c →
  ∃ k s', execs (replicate k (turn p token)) s = Some s' ∧ clearing strays p todo s' ∧ spares s s'.
Proof.
  intros Hcl Hx. pose proof (cl_procs _ _ _ _ Hcl) as Hp. pose proof (cl_locks _ _ _ _ Hcl) as Hl.
  assert (rt_procs s !! p = Some (Sweeping ((x, true) :: todo))) as Hpp by (by rewrite Hp, lookup_singleton_eq).
  assert (x ∉ rt_dirs s) as Hxd by (apply (cl_files _ _ _ _ Hcl); constructor). destruct (open_or_create x s) as [[i s1]|] eqn:Ho.
  2:{ unfold open_or_create in Ho. rewrite bool_decide_false in Ho by done. by destruct (rt_files s !! x). }
  destruct (open_inv _ _ _ _ Ho) as (Hp1 & Hd1 & Hl1 & _ & Hf1 & Hother & _).
  set (t := mkRoot (rt_files s1) (rt_dirs s1) (delete i (<[i := p]> (rt_locks s1))) (rt_next s1) (<[p := Freed x todo]> (<[p := Holding x i todo]> (<[p := Trying x i todo]> (rt_procs s1))))).
  set (u := if c then t else discard true a t).
  set (s' := mkRoot (delete x (rt_files u)) (rt_dirs u) (rt_locks u) (rt_next u) (<[p := Sweeping todo]> (<[p := Swept x todo]> (rt_procs u)))).
  exists 5, s'.
  assert (∀ y, rt_files s' !! y = rt_files s !! y ∨ rt_files s' !! y = None) as Hfs.
  { intros y. unfold s'. simpl. destruct (decide (y = x)) as [->|Hy]; [right; apply lookup_delete_eq|]. rewrite lookup_delete_ne by done.
    unfold u. destruct c; simpl; [left; by apply Hother|]. destruct (decide (y = a)) as [->|Ha]; [right; apply lookup_delete_eq|].
    rewrite lookup_delete_ne by done. left. by apply Hother. }
  assert (∀ y, y ∈ rt_dirs s' → y ∈ rt_dirs s ∧ (c = false → y ≠ a)) as Hds.
  { intros y. unfold s', u. destruct c; simpl; rewrite Hd1; set_solver. }
  assert (∀ y, y ≠ x → y ≠ a → rt_files s' !! y = rt_files s !! y ∧ (y ∈ rt_dirs s' ↔ y ∈ rt_dirs s)) as Hsame.
  { intros y Hy Hya. unfold s', u. simpl. rewrite lookup_delete_ne by done.
    destruct c; simpl; rewrite ?lookup_delete_ne by done; rewrite Hother, Hd1 by done; (split; [done|set_solver]). }
  split_and!.
  - unfold turn. cbn [replicate execs exec]. rewrite Hpp. cbn [sweep_step]. unfold sweep_entry. rewrite Hx. cbn [negb]. rewrite Ho. cbn [mbind option_bind].
    cbn [set_proc rt_procs]. rewrite lookup_insert_eq. cbn [sweep_step]. unfold try_lock. cbn [set_proc rt_locks]. rewrite Hl1, Hl, lookup_empty. cbn [mbind option_bind].
    cbn [set_proc rt_procs]. rewrite lookup_insert_eq. cbn [sweep_step mbind option_bind unlock set_proc rt_procs]. rewrite lookup_insert_eq.
    cbn [sweep_step mbind option_bind unlock set_proc rt_procs rt_files rt_dirs rt_locks rt_next]. rewrite Hx. unfold s', u, t. rewrite Hl1, Hl.
    destruct c; cbn [discard set_proc rt_procs rt_files rt_dirs rt_locks rt_next]; rewrite lookup_insert_eq; done.
  - eapply clearing_next; [exact Hcl|..].
    + unfold s', u, t. destruct c; simpl; rewrite Hp1, Hp, !insert_singleton_eq; done.
    + unfold s', u, t. destruct c; simpl; rewrite Hl1, Hl; by rewrite delete_insert_id by (by rewrite lookup_empty).
    + intros y. rewrite !present_iff. intros [Hy|Hy]; [left|right; by apply Hds]. destruct (Hfs y) as [Heq|Heq]; rewrite Heq in Hy; [done|by destruct Hy].
    + intros y Hy. by apply Hds.
    + intros a' c' _. apply not_true_iff_false. rewrite present_iff. unfold s'. simpl. rewrite lookup_delete_eq. intros [[]|Hy]; [done|].
      by apply Hxd, Hds.
    + intros Hb. congruence.
    + intros _ y Hy Heq. rewrite <-Heq, sighted_bare_owner in Hx by done. injection Hx as <- <-.
      apply not_true_iff_false. rewrite present_iff. intros [Hyp|Hyp]; [|by apply Hds in Hyp as [_ Hyp]; apply Hyp].
      assert (y ≠ x) as Hyx by (intros ->; rewrite <-Heq, sighted_bare_owner in Hy by congruence; congruence).
      unfold s', u in Hyp. simpl in Hyp. rewrite lookup_delete_ne, lookup_delete_eq in Hyp by done. by destruct Hyp.
  - intros y Hy. apply Hsame; intros ->; [unfold leftover in Hy; by rewrite Hx in Hy|by rewrite (guarded_leftover x a c Hx) in Hy].
Qed.

Lemma execs_app ls ms s : execs (ls ++ ms) s = s' ← execs ls s; execs ms s'.
Proof. revert s. induction ls as [|l ls IH]; intros s; simpl; [done|]. destruct (exec l s); simpl; [apply IH|done]. Qed.

Lemma clear_all strays p token todo : ∀ s, clearing strays p todo s →
  ∃ k s', execs (replicate k (turn p token)) s = Some s' ∧ rt_procs s' = {[ p := Claiming CLAIM_ATTEMPTS ]}
    ∧ (∀ x, present s' x = true → leftover x = true → sighted x = Bare x false ∧ owner_name x ∈ strays)
    ∧ spares s s'.
Proof.
  induction todo as [|[x f] todo IH]; intros s Hcl.
  - exists 1, (set_proc p (Claiming CLAIM_ATTEMPTS) s). pose proof (cl_procs _ _ _ _ Hcl) as Hp. split_and!.
    + cbn [replicate execs exec turn]. by rewrite Hp, lookup_singleton_eq.
    + simpl. by rewrite Hp, insert_singleton_eq.
    + intros x Hx. change (present s x = true) in Hx. unfold leftover. destruct (sighted x) as [|n []|a c] eqn:Hs; try done.
      * intros _. pose proof (sighted_bare _ _ Hs) as <-. split; [done|].
        destruct (cl_stages _ _ _ _ Hcl x Hs Hx) as [Hin|[Hin|?]]; [by apply not_elem_of_nil in Hin..|done].
      * apply (cl_owners _ _ _ _ Hcl x a c Hs) in Hx. by apply not_elem_of_nil in Hx.
    + by intros y _.
  - assert (∃ k s', execs (replicate k (turn p token)) s = Some s' ∧ clearing strays p todo s' ∧ spares s s') as (k & s1 & Hk & Hcl1 & Hsp1).
    { destruct (sighted x) as [|n c|a c] eqn:Hx; [by eapply (clear_bare strays p token x f); [done|congruence]..|].
      destruct f; [by eapply clear_owner|by eapply clear_stray]. }
    destruct (IH s1 Hcl1) as (k' & s' & Hk' & Hp' & Hleft & Hsp'). exists (k + k'), s'. rewrite replicate_add, execs_app, Hk. simpl.
    split_and!; [done|done|done|].
    intros y Hy. destruct (Hsp1 y Hy) as [He1 Hd1], (Hsp' y Hy) as [He2 Hd2]. split; [congruence|by rewrite Hd2].
Qed.

(** A name is one entry: a regular file or something else. *)
Definition single (s : root) : Prop := ∀ x, x ∈ rt_dirs s → rt_files s !! x = None.

(** C14. A sweep clears what the dead left.  In any staging root that no process has open, whatever is
    left there, one sweep that sees every entry and is not disturbed comes to its end and leaves
    every entry that is no staging attempt's as it was.  Every owner file and claim is gone, and
    every attempt directory too, but for one whose own owner file's name is taken by a directory: that
    directory goes, and it may have been there still when the sweep came to the attempt's.  No owner
    entry being left, such an attempt directory has lost its neighbour and the next sweep, to which
    the same applies, takes it. *)
Theorem a_sweep_clears_the_abandoned s0 p listing token :
  idle s0 → single s0 → lists s0 listing = true → (∀ x, present s0 x = true → x ∈ listing.*1) →
  ∃ k s', execs (Start p listing :: replicate k (turn p token)) s0 = Some s' ∧ rt_procs s' = {[ p := Claiming CLAIM_ATTEMPTS ]}
    ∧ (∀ x, present s' x = true → leftover x = true → sighted x = Bare x false ∧ owner_name x ∈ rt_dirs s0)
    ∧ spares s0 s'.
Proof.
  intros [Hp Hl] Hsingle Hli Hall. destruct (lists_true _ _ Hli) as [_ Hfl].
  destruct (clear_all (rt_dirs s0) p token listing (set_proc p (Sweeping listing) s0)) as (k & s' & Hk & Hp' & Hleft & Hsp).
  - split; [simpl; rewrite Hp; apply insert_empty|done|..].
    + intros x Hin Hd%Hsingle. destruct (Hfl x true Hin) as [_ Hf]. symmetry in Hf. apply bool_decide_eq_true, elem_of_dom in Hf as [? ?].
      congruence.
    + intros x Hin. destruct (Hfl x false Hin) as [Hpr Hf]. symmetry in Hf. apply bool_decide_eq_false in Hf.
      apply present_iff in Hpr as [Hs|?]; [by apply elem_of_dom in Hs|done].
    + intros x a c _. apply Hall.
    + intros x _ Hx. left. by apply Hall.
  - exists k, s'. split_and!; [|done|done|done]. cbn [execs exec]. by rewrite Hp, lookup_empty, bool_decide_true, Hli by done.
Qed.
