(* ===== verification/Tree.v ===== *)
(** * Tree: a directory tree under faults

    The part of a POSIX file system the bundle code works in: entries by path, the calls that read
    and change them, and the programs over such calls.  An environment answers every call; it may
    fail it, or end the process before or after it took effect.  A failing removal of a directory
    leaves what the environment chooses.  Reads of an archive's own file have answers of their own,
    because the code tells a device that failed from bytes that are wrong.  Symbolic links are
    entries that nothing here follows. *)
From S2P Require Import Prelude Identity Releases.

(** ** Trees *)

Abbreviation Path := (list string).

Inductive Node : Type :=
| NFile (bytes : string) (executable : bool)
| NDir
| NSymlink
| NOther.

#[export] Instance Node_eq : EqDecision Node.
Proof. solve_decision. Defined.

(** The entries below a root directory, which is there and has no entry of its own. *)
Abbreviation Tree :=
  (@gmap Path (@list_eq_dec string String.eq_dec) (@list_countable string String.eq_dec String.countable) Node).

Definition is_dir (t : Tree) (p : Path) : bool := bool_decide (p = []) || bool_decide (t !! p = Some NDir).

Fixpoint under (d p : Path) : option Path :=
  match d, p with
  | [], _ => Some p
  | x :: d, y :: p => if bool_decide (x = y) then under d p else None
  | _ :: _, [] => None
  end.

Definition child_of (d p : Path) : option string :=
  match under d p with Some [x] => Some x | _ => None end.

(** [fs::read_dir], whose order is the host's; here some fixed one. *)
Definition read_dir (t : Tree) (d : Path) : list string := omap (λ e, child_of d e.1) (map_to_list t).

(** What is left below [d] of an interrupted removal, with the directories it lies in. *)
Definition remains (keeps : Path → bool) (t : Tree) (d p : Path) : bool :=
  match under d p with
  | None => true
  | Some _ => existsb (λ e, keeps e.1 && bool_decide (p `prefix_of` e.1)) (map_to_list t)
  end.

Definition remove_some (keeps : Path → bool) (d : Path) (t : Tree) : Tree :=
  filter (λ e, remains keeps t d e.1 = true) t.

Definition remove_all (d : Path) (t : Tree) : Tree := filter (λ e, under d e.1 = None) t.

Definition moved (from to p : Path) : Path := match under from p with Some r => to ++ r | None => p end.

(** A rename onto a name that nothing but an empty directory holds. *)
Definition rename_tree (from to : Path) (t : Tree) : Tree :=
  list_to_map ((λ e, (moved from to e.1, e.2)) <$> map_to_list (remove_all to t)).

(** The components of a relative path, and back. *)
Definition components (path : string) : Path := split_on "/"%char EmptyString path.
Definition joined_path (p : Path) : string := String.concat "/" p.

(** ** Programs *)

Inductive fault : Type := Works | Errs (e : io_error) | Dies (after : bool).

(** A read of the archive's file: fine, failed and repeated inside the decoder, or failed for good. *)
Inductive read_fault : Type := ReadWorks | ReadRetried | ReadErrs (e : io_error) | ReadDies.

Record fs : Type := mkFs {
  fs_tree : Tree;
  fs_faults : list fault;
  fs_reads : list read_fault;
  fs_device : bool;
  fs_keeps : Path → bool;
}.

Inductive fin (E A : Type) : Type := FsOk (a : A) | FsErr (e : E) | FsDead.
Arguments FsOk {E A} _.
Arguments FsErr {E A} _.
Arguments FsDead {E A}.

Definition FS (E A : Type) : Type := fs → fin E A * fs.

#[export] Instance FS_ret {E} : MRet (FS E) := λ A a s, (FsOk a, s).
#[export] Instance FS_bind {E} : MBind (FS E) := λ A B f p s,
  match p s with
  | (FsOk a, s) => f a s
  | (FsErr e, s) => (FsErr e, s)
  | (FsDead, s) => (FsDead, s)
  end.

Definition raise {E A} (e : E) : FS E A := λ s, (FsErr e, s).

Definition of_sum {E A} (r : E + A) : FS E A := λ s, match r with inl e => (FsErr e, s) | inr a => (FsOk a, s) end.

Definition with_error {E F A} (g : E → F) (p : FS E A) : FS F A := λ s,
  match p s with
  | (FsOk a, s) => (FsOk a, s)
  | (FsErr e, s) => (FsErr (g e), s)
  | (FsDead, s) => (FsDead, s)
  end.

(** [p] with a cleanup on every way out but the end of the process. *)
Definition finally {E A} (p : FS E A) (cleanup : FS io_error unit) : FS E A := λ s,
  match p s with
  | (FsDead, s) => (FsDead, s)
  | (r, s) => match cleanup s with (FsDead, s) => (FsDead, s) | (_, s) => (r, s) end
  end.

Definition ignore {E} (p : FS E unit) : FS E unit := λ s,
  match p s with (FsDead, s) => (FsDead, s) | (_, s) => (FsOk tt, s) end.

Definition set_tree (t : Tree) (s : fs) : fs := mkFs t (fs_faults s) (fs_reads s) (fs_device s) (fs_keeps s).

Definition next_fault (s : fs) : fault * fs :=
  match fs_faults s with
  | [] => (Works, s)
  | f :: rest => (f, mkFs (fs_tree s) rest (fs_reads s) (fs_device s) (fs_keeps s))
  end.

(** One call: what it does to the tree when it is let through. *)
Definition act {A} (f : Tree → io_error + A * Tree) : FS io_error A := λ s,
  let '(fault, s) := next_fault s in
  match fault with
  | Errs e => (FsErr e, s)
  | Works => match f (fs_tree s) with inl e => (FsErr e, s) | inr (a, t) => (FsOk a, set_tree t s) end
  | Dies after =>
      (FsDead, match f (fs_tree s) with inr (_, t) => if after then set_tree t s else s | inl _ => s end)
  end.

Definition observe {A} (f : Tree → io_error + A) : FS io_error A :=
  act (λ t, match f t with inl e => inl e | inr a => inr (a, t) end).

(** ** Calls *)

Definition io_fail {A} (kind : ErrorKind) (message : string) : io_error + A := inl (IoError kind message).

(** One step of [fs::create_dir_all]. *)
Definition make_dir (p : Path) (last : bool) : FS io_error unit :=
  act (λ t, match t !! p with
            | None => inr (tt, <[p := NDir]> t)
            | Some NDir => inr (tt, t)
            | Some _ => io_fail (if last then AlreadyExists else NotADirectory) "not a directory"
            end).

(** [fs::create_dir] *)
Definition create_dir (p : Path) : FS io_error unit :=
  act (λ t, match t !! p with None => inr (tt, <[p := NDir]> t) | Some _ => io_fail AlreadyExists "file exists" end).

Fixpoint make_dirs (done rest : Path) : FS io_error unit :=
  match rest with
  | [] => mret tt
  | x :: rest =>
      _ ← make_dir (done ++ [x]) (bool_decide (rest = []));
      make_dirs (done ++ [x]) rest
  end.

Definition create_dir_all (p : Path) : FS io_error unit := make_dirs [] p.

(** [OpenOptions::new().write(true).create_new(true).open(path)] *)
Definition create_new (p : Path) : FS io_error unit :=
  act (λ t, match t !! p with
            | Some _ => io_fail AlreadyExists "file exists"
            | None => if is_dir t (take (pred (length p)) p) then inr (tt, <[p := NFile EmptyString false]> t)
                      else io_fail NotFound "no such directory"
            end).

Definition write_all (p : Path) (chunk : string) : FS io_error unit :=
  act (λ t, match t !! p with
            | Some (NFile bytes x) => inr (tt, <[p := NFile (String.append bytes chunk) x]> t)
            | _ => inr (tt, t)
            end).

Definition set_mode (p : Path) (executable : bool) : FS io_error unit :=
  act (λ t, match t !! p with
            | Some (NFile bytes _) => inr (tt, <[p := NFile bytes executable]> t)
            | _ => io_fail NotFound "no such file"
            end).

(** [sync_all], [sync_dir], [rewind] and the like: calls that may fail and change nothing. *)
Definition sync : FS io_error unit := act (λ t, inr (tt, t)).

(** [durable::remove_path] *)
Definition remove_path (d : Path) : FS io_error unit := λ s,
  let '(fault, s) := next_fault s in
  let left := set_tree (remove_some (fs_keeps s) d (fs_tree s)) s in
  match fault with
  | Works => (FsOk tt, set_tree (remove_all d (fs_tree s)) s)
  | Errs e => (FsErr e, left)
  | Dies _ => (FsDead, left)
  end.

(** [durable::replace] of a directory. *)
Definition rename (from to : Path) : FS io_error unit :=
  act (λ t, if negb (is_dir t from) || negb (is_dir t (take (pred (length to)) to)) then io_fail NotFound "no such directory"
            else match t !! to with
                 | None => inr (tt, rename_tree from to t)
                 | Some NDir => if bool_decide (read_dir t to = []) then inr (tt, rename_tree from to t)
                                else io_fail Uncategorized "directory not empty"
                 | Some _ => io_fail NotADirectory "not a directory"
                 end).

(** ** Lookups *)

Implicit Types (t : Tree) (d p q r from to : Path).

Lemma under_Some d p r : under d p = Some r ↔ p = d ++ r.
Proof.
  revert p. induction d as [|x d IH]; intros [|y p]; simpl; [naive_solver..|]. case_bool_decide as Hxy.
  - subst y. rewrite IH. split; [intros ->; done|by intros [= ->]].
  - split; [done|]. intros [= <- _]. done.
Qed.

Lemma under_app d r : under d (d ++ r) = Some r.
Proof. by apply under_Some. Qed.

Lemma under_None d p : under d p = None ↔ ∀ r, p ≠ d ++ r.
Proof.
  split; [intros Hu r ->; by rewrite under_app in Hu|]. intros Hn.
  destruct (under d p) as [r|] eqn:Hu; [|done]. apply under_Some in Hu. by destruct (Hn r).
Qed.

Lemma child_of_Some d p x : child_of d p = Some x ↔ p = d ++ [x].
Proof.
  unfold child_of. destruct (under d p) as [[|y [|z r]]|] eqn:Hu.
  - apply under_Some in Hu as ->. split; [done|]. intros H%app_inv_head. done.
  - apply under_Some in Hu as ->. split; [by intros [= ->]|]. intros H%app_inv_head. congruence.
  - apply under_Some in Hu as ->. split; [done|]. intros H%app_inv_head. congruence.
  - split; [done|]. intros ->. by rewrite under_app in Hu.
Qed.

Lemma elem_of_read_dir (t : Tree) d x : x ∈ read_dir t d ↔ is_Some (t !! (d ++ [x])).
Proof.
  unfold read_dir. rewrite list_elem_of_omap. split.
  - intros ([p n] & Hin%elem_of_map_to_list & Hc%child_of_Some). simpl in Hc. subst p. by eexists.
  - intros [n Hn]. exists (d ++ [x], n). split; [by apply elem_of_map_to_list|by apply child_of_Some].
Qed.

Lemma lookup_remove_all d t p : remove_all d t !! p = match under d p with Some _ => None | None => t !! p end.
Proof.
  unfold remove_all. destruct (t !! p) as [n|] eqn:Hn.
  - destruct (under d p) eqn:Hu; [apply map_lookup_filter_None_2; right; intros; simpl; congruence|].
    by apply map_lookup_filter_Some_2.
  - rewrite (proj2 (map_lookup_filter_None _ _ _)); [by destruct (under d p)|by left].
Qed.

Lemma lookup_remove_some_out (keeps : Path → bool) d t p : under d p = None → remove_some keeps d t !! p = t !! p.
Proof.
  intros Hu. unfold remove_some. destruct (t !! p) as [n|] eqn:Hn.
  - apply map_lookup_filter_Some_2; [done|]. unfold remains. simpl. by rewrite Hu.
  - apply map_lookup_filter_None_2. by left.
Qed.

Lemma lookup_remove_some (keeps : Path → bool) d t p n : remove_some keeps d t !! p = Some n → t !! p = Some n.
Proof. intros Hl. by apply map_lookup_filter_Some in Hl as [? _]. Qed.

Lemma lookup_rename from to t p :
  (∀ r, to ≠ from ++ r) → (∀ r, from ≠ to ++ r) →
  rename_tree from to t !! p
  = match under to p with
    | Some r => t !! (from ++ r)
    | None => match under from p with Some _ => None | None => t !! p end
    end.
Proof.
  intros Htf Hft. set (l := (λ e : Path * Node, (moved from to e.1, e.2)) <$> map_to_list (remove_all to t)).
  assert (∀ q, is_Some (remove_all to t !! q) → under to q = None ∧ remove_all to t !! q = t !! q) as Hout.
  { intros q [n Hq]. rewrite lookup_remove_all in *. by destruct (under to q). }
  assert (∀ q q' : Path, is_Some (remove_all to t !! q) → is_Some (remove_all to t !! q') →
    moved from to q = moved from to q' → q = q') as Hinj.
  { intros q q' [Hq _]%Hout [Hq' _]%Hout. unfold moved.
    destruct (under from q) as [r|] eqn:Hr, (under from q') as [r'|] eqn:Hr'.
    - apply under_Some in Hr as ->. apply under_Some in Hr' as ->. by intros ->%app_inv_head.
    - intros <-. by rewrite under_app in Hq'.
    - intros ->. by rewrite under_app in Hq.
    - done. }
  assert (NoDup l.*1) as Hnd.
  { unfold l. rewrite <-list_fmap_compose.
    replace (fst ∘ (λ e : Path * Node, (moved from to e.1, e.2))) with (moved from to ∘ @fst Path Node) by done.
    rewrite list_fmap_compose. apply NoDup_fmap_2_strong; [|apply NoDup_fst_map_to_list].
    intros q q' ([? n] & -> & Hq%elem_of_map_to_list)%list_elem_of_fmap
      ([? n'] & -> & Hq'%elem_of_map_to_list)%list_elem_of_fmap. simpl in *. apply Hinj; by eexists. }
  assert (∀ n, rename_tree from to t !! p = Some n
    ↔ ∃ q, moved from to q = p ∧ remove_all to t !! q = Some n) as Hspec.
  { intros n. unfold rename_tree. fold l. rewrite <-(elem_of_list_to_map l p n Hnd). unfold l. rewrite list_elem_of_fmap. split.
    - intros ([q n'] & [= -> ->] & Hin%elem_of_map_to_list). eauto.
    - intros (q & <- & Hq). exists (q, n). split; [done|]. by apply elem_of_map_to_list. }
  apply option_eq. intros n. rewrite Hspec. destruct (under to p) as [r|] eqn:Hu.
  - apply under_Some in Hu as ->. split.
    + intros (q & Hm & Hq). destruct (Hout q) as [Hqn Heq]; [by eexists|]. rewrite Heq in Hq. unfold moved in Hm.
      destruct (under from q) as [r'|] eqn:Hr; [|subst; by rewrite under_app in Hqn].
      apply under_Some in Hr as ->. by apply app_inv_head in Hm as ->.
    + intros Hn. exists (from ++ r). unfold moved. rewrite under_app. split; [done|]. rewrite lookup_remove_all.
      destruct (under to (from ++ r)) as [r'|] eqn:Hr; [|done]. apply under_Some in Hr.
      destruct (app_eq_inv _ _ _ _ Hr) as [(k & Hk & _)|(k & Hk & _)]; [by destruct (Hft k)|by destruct (Htf k)].
  - split.
    + intros (q & Hm & Hq). destruct (Hout q) as [Hqn Heq]; [by eexists|]. rewrite Heq in Hq. unfold moved in Hm.
      destruct (under from q) as [r'|] eqn:Hr; [subst; by rewrite under_app in Hu|]. subst. by rewrite Hr.
    + destruct (under from p) eqn:Hf; [done|]. intros Hn. exists p. unfold moved. rewrite Hf. split; [done|].
      rewrite lookup_remove_all. by rewrite Hu.
Qed.

(** ** Well-formed trees *)

(** A name of a directory entry. *)
Definition plain_name (x : string) : bool :=
  negb (bool_decide (x = EmptyString)) && string_forallb (λ c, negb (bool_decide (c = "/"%char))) x.

Record well_formed t : Prop := {
  wf_root : t !! [] = None;
  wf_names : ∀ p n, t !! p = Some n → Forall (λ x, plain_name x = true) p;
  wf_parent : ∀ p x n, t !! (p ++ [x]) = Some n → is_dir t p = true;
}.

Lemma is_dir_true t p : is_dir t p = true ↔ p = [] ∨ t !! p = Some NDir.
Proof. unfold is_dir. rewrite orb_true_iff, !bool_decide_eq_true. done. Qed.

Lemma take_pred_snoc p (x : string) : take (pred (length (p ++ [x]))) (p ++ [x]) = p.
Proof. rewrite length_app. simpl. rewrite Nat.add_comm. simpl. by rewrite take_app_length. Qed.

Lemma snoc_cases p : p = [] ∨ ∃ d x, p = d ++ [x].
Proof. destruct p as [|x p _] using rev_ind; eauto. Qed.

(** Writing an entry below a directory keeps the tree well formed. *)
Lemma well_formed_insert t p x n :
  well_formed t → is_dir t p = true → plain_name x = true → (t !! (p ++ [x]) = Some NDir → n = NDir) →
  well_formed (<[p ++ [x] := n]> t).
Proof.
  intros [Hr Hn Hp] Hd Hx Hkeep. split.
  - rewrite lookup_insert_ne; [done|]. by destruct p.
  - intros q m. destruct (decide (p ++ [x] = q)) as [<-|]; [|rewrite lookup_insert_ne by done; apply Hn]. intros _.
    apply Forall_app. split; [|by repeat constructor]. apply is_dir_true in Hd as [->|Hd]; [constructor|by eapply Hn].
  - intros q y m Hq. assert (is_dir t q = true) as Hqd.
    { destruct (decide (p ++ [x] = q ++ [y])) as [Heq|]; [by apply app_inj_tail in Heq as [<- _]|].
      rewrite lookup_insert_ne in Hq by done. by eapply Hp. }
    apply is_dir_true in Hqd as [->|Hqd]; [done|]. apply is_dir_true. right.
    destruct (decide (p ++ [x] = q)) as [<-|]; [|by rewrite lookup_insert_ne]. rewrite lookup_insert_eq. by rewrite Hkeep.
Qed.

Lemma well_formed_update t p n m :
  well_formed t → t !! p = Some n → n ≠ NDir → well_formed (<[p := m]> t).
Proof.
  intros Hwf Hp Hn. destruct (snoc_cases p) as [->|(d & x & ->)]; [by rewrite (wf_root t Hwf) in Hp|].
  apply well_formed_insert; [done|by eapply wf_parent| |congruence].
  pose proof (wf_names t Hwf _ _ Hp) as Hall. apply Forall_app in Hall as [_ Hall]. by inversion Hall.
Qed.

(** Keeping entries together with the directories they lie in. *)
Lemma well_formed_subtree t t' :
  well_formed t → (∀ p n, t' !! p = Some n → t !! p = Some n) →
  (∀ p x n, t' !! (p ++ [x]) = Some n → p ≠ [] → is_Some (t' !! p)) → well_formed t'.
Proof.
  intros [Hr Hn Hp] Hsub Hpar. split.
  - destruct (t' !! []) eqn:Ht; [|done]. apply Hsub in Ht. congruence.
  - intros p n Ht. by eapply Hn, Hsub.
  - intros p x n Ht. destruct p as [|y p]; [done|]. destruct (Hpar _ _ _ Ht) as [m Hm]; [done|].
    apply is_dir_true. right. rewrite Hm. apply Hsub in Hm. apply Hsub, Hp, is_dir_true in Ht as [?|Ht]; [done|congruence].
Qed.

Lemma under_parent d p (x : string) : under d (p ++ [x]) = None → under d p = None.
Proof. rewrite !under_None. intros Hn r ->. destruct (Hn (r ++ [x])). by rewrite app_assoc. Qed.

Lemma well_formed_remove_all d t : well_formed t → well_formed (remove_all d t).
Proof.
  intros Hwf. eapply (well_formed_subtree t); [done| |].
  - intros p n. rewrite lookup_remove_all. by destruct (under d p).
  - intros p x n. rewrite !lookup_remove_all. destruct (under d (p ++ [x])) eqn:Hu; [done|]. intros Ht Hne.
    rewrite (under_parent _ _ _ Hu). apply (wf_parent t Hwf), is_dir_true in Ht as [?|Ht]; [done|]. by eexists.
Qed.

Lemma well_formed_remove_some keeps d t : well_formed t → well_formed (remove_some keeps d t).
Proof.
  intros Hwf. eapply (well_formed_subtree t); [done|apply lookup_remove_some|].
  intros p x n Hl Hne. unfold remove_some in Hl. apply map_lookup_filter_Some in Hl as [Ht Hr].
  apply (wf_parent t Hwf), is_dir_true in Ht as [?|Ht]; [done|]. exists NDir.
  apply map_lookup_filter_Some_2; [done|]. simpl in *. unfold remains in *.
  destruct (under d p) as [r|] eqn:Hu; [|done]. apply under_Some in Hu as ->.
  rewrite <-app_assoc, under_app in Hr. apply existsb_exists in Hr as (e & Hin & [Hk Hpre]%andb_true_iff).
  apply existsb_exists. exists e. split; [done|]. rewrite Hk. simpl. apply bool_decide_eq_true in Hpre.
  apply bool_decide_eq_true. destruct Hpre as [k ->]. exists ([x] ++ k). by rewrite <-!app_assoc.
Qed.

Lemma well_formed_rename from to x t :
  well_formed t → (∀ r, to ++ [x] ≠ from ++ r) → (∀ r, from ≠ (to ++ [x]) ++ r) →
  t !! from = Some NDir → is_dir t to = true → plain_name x = true →
  well_formed (rename_tree from (to ++ [x]) t).
Proof.
  intros Hwf Htf Hft Hfrom Hto Hx. pose proof (lookup_rename from (to ++ [x]) t) as Hl.
  assert (∀ p, under (to ++ [x]) p = None → under from p = None → rename_tree from (to ++ [x]) t !! p = t !! p) as Hout.
  { intros p Hp Hq. by rewrite Hl, Hp, Hq. }
  assert (is_dir (rename_tree from (to ++ [x]) t) to = true) as Hd.
  { apply is_dir_true. apply is_dir_true in Hto as [->|Hto]; [by left|]. right. rewrite Hout; [done|..]; apply under_None.
    - intros r Hr. apply (f_equal length) in Hr. rewrite !length_app in Hr. simpl in Hr. lia.
    - intros r Hr. apply (Htf (r ++ [x])). by rewrite app_assoc, <-Hr. }
  split.
  - rewrite Hl by done. destruct to; simpl; (destruct from; [by rewrite (wf_root t Hwf) in Hfrom|simpl; apply (wf_root t Hwf)]).
  - intros p n. rewrite Hl by done. destruct (under (to ++ [x]) p) as [r|] eqn:Hu.
    + apply under_Some in Hu as ->. intros Hn%(wf_names t Hwf). apply Forall_app in Hn as [_ Hn].
      rewrite !Forall_app. split_and!; [|by repeat constructor|done].
      apply is_dir_true in Hto as [->|Hto]; [constructor|by eapply (wf_names t Hwf)].
    + destruct (under from p); [done|]. apply (wf_names t Hwf).
  - intros p y n. rewrite Hl by done. destruct (under (to ++ [x]) (p ++ [y])) as [r|] eqn:Hu.
    + apply under_Some in Hu. destruct (snoc_cases r) as [->|(r' & z & ->)].
      { rewrite app_nil_r in Hu. by apply app_inj_tail in Hu as [-> _]. }
      rewrite app_assoc in Hu. apply app_inj_tail in Hu as [-> ->]. rewrite app_assoc. intros Hn%(wf_parent t Hwf).
      apply is_dir_true. right. rewrite Hl, under_app by done. apply is_dir_true in Hn as [Hn|Hn]; [|done].
      by apply app_eq_nil in Hn as [-> ->]; rewrite (wf_root t Hwf) in Hfrom.
    + destruct (under from (p ++ [y])) eqn:Hf; [done|]. intros Hn%(wf_parent t Hwf). apply is_dir_true.
      apply is_dir_true in Hn as [->|Hn]; [by left|right]. rewrite Hout; [done|by eapply under_parent..].
Qed.

(** ** Reasoning about programs

    [sp p t I P]: from the tree [t], whatever the environment does, [p] ends in [P] when it returns
    and in [I] when it fails or the process ends. *)
Definition sp {E A} (p : FS E A) t (I : Tree → Prop) (P : A → Tree → Prop) : Prop :=
  ∀ s, fs_tree s = t → match p s with (FsOk a, s') => P a (fs_tree s') | (_, s') => I (fs_tree s') end.

Section rules.
Context {E : Type}.

Lemma sp_ret {A} (a : A) t (I : Tree → Prop) (P : A → Tree → Prop) : P a t → sp (mret a : FS E A) t I P.
Proof. by intros ? s <-. Qed.

Lemma sp_bind {A B} (p : FS E A) (f : A → FS E B) t (I : Tree → Prop) (P1 : A → Tree → Prop) (P : B → Tree → Prop) :
  sp p t I P1 → (∀ a t', P1 a t' → sp (f a) t' I P) → sp (p ≫= f) t I P.
Proof.
  intros Hp Hf s Hs. specialize (Hp s Hs). unfold mbind, FS_bind.
  destruct (p s) as [[a|e|] s']; [by eapply Hf|done|done].
Qed.

Lemma sp_mono {A} (p : FS E A) t (I I' : Tree → Prop) (P P' : A → Tree → Prop) :
  sp p t I P → (∀ t', I t' → I' t') → (∀ a t', P a t' → P' a t') → sp p t I' P'.
Proof. intros Hp HI HP s Hs. specialize (Hp s Hs). destruct (p s) as [[]]; eauto. Qed.

Lemma sp_raise {A} (e : E) t (I : Tree → Prop) (P : A → Tree → Prop) : I t → sp (raise e) t I P.
Proof. by intros ? s <-. Qed.

Lemma sp_of_sum {A} (r : E + A) t (I : Tree → Prop) (P : A → Tree → Prop) :
  I t → (∀ a, r = inr a → P a t) → sp (of_sum r) t I P.
Proof. intros HI HP s <-. unfold of_sum. destruct r; [done|]. by apply HP. Qed.

Lemma sp_with_error {F A} (g : F → E) (p : FS F A) t (I : Tree → Prop) (P : A → Tree → Prop) : sp p t I P → sp (with_error g p) t I P.
Proof. intros Hp s Hs. specialize (Hp s Hs). unfold with_error. by destruct (p s) as [[]]. Qed.

Lemma sp_ignore (p : FS E unit) t (I P : Tree → Prop) :
  sp p t (λ t', I t' ∧ P t') (λ _ t', P t') → sp (ignore p) t I (λ _, P).
Proof. intros Hp s Hs. specialize (Hp s Hs). unfold ignore. destruct (p s) as [[]]; naive_solver. Qed.

Lemma sp_finally {A} (p : FS E A) cleanup t (I I1 : Tree → Prop) (P P1 : A → Tree → Prop) :
  sp p t I1 P1 → (∀ t', I1 t' → I t') →
  (∀ t', I1 t' → sp cleanup t' I (λ _, I)) → (∀ a t', P1 a t' → sp cleanup t' (λ t'', I t'' ∧ P a t'') (λ _, P a)) →
  sp (finally p cleanup) t I P.
Proof.
  intros Hp HI Hbad Hgood s Hs. specialize (Hp s Hs). unfold finally. destruct (p s) as [[a|e|] s']; [| |by apply HI].
  - specialize (Hgood a (fs_tree s') Hp s' eq_refl). destruct (cleanup s') as [[]]; naive_solver.
  - specialize (Hbad (fs_tree s') Hp s' eq_refl). by destruct (cleanup s') as [[]].
Qed.
End rules.

Lemma next_fault_tree s : fs_tree (next_fault s).2 = fs_tree s.
Proof. unfold next_fault. by destruct (fs_faults s). Qed.

Lemma sp_act {A} (f : Tree → io_error + A * Tree) t (I : Tree → Prop) (P : A → Tree → Prop) :
  I t → (∀ a t', f t = inr (a, t') → I t' ∧ P a t') → sp (act f) t I P.
Proof.
  intros HI HP s <-. unfold act. pose proof (next_fault_tree s) as Hn. destruct (next_fault s) as [[|e|after] s1]; simpl in *.
  - rewrite Hn. destruct (f (fs_tree s)) as [e|[a t']] eqn:Hf; simpl; [by rewrite Hn|]. by apply HP.
  - by rewrite Hn.
  - rewrite Hn. destruct (f (fs_tree s)) as [e|[a t']] eqn:Hf; simpl; [by rewrite Hn|].
    destruct after; simpl; [by eapply HP|by rewrite Hn].
Qed.

Lemma sp_observe {A} (f : Tree → io_error + A) t (I : Tree → Prop) (P : A → Tree → Prop) :
  I t → (∀ a, f t = inr a → P a t) → sp (observe f) t I P.
Proof. intros HI HP. apply sp_act; [done|]. intros a t'. destruct (f t) eqn:Hf; [done|]. intros [= <- <-]. auto. Qed.

Lemma sp_sync t (I : Tree → Prop) (P : unit → Tree → Prop) : I t → P tt t → sp sync t I P.
Proof. intros HI HP. apply sp_act; [done|]. by intros a t' [= <- <-]. Qed.

Lemma sp_remove_path d t (I : Tree → Prop) (P : unit → Tree → Prop) :
  (∀ keeps, I (remove_some keeps d t)) → P tt (remove_all d t) → sp (remove_path d) t I P.
Proof.
  intros HI HP s <-. unfold remove_path. pose proof (next_fault_tree s) as Hn.
  destruct (next_fault s) as [[|e|after] s1]; simpl in *; by rewrite Hn.
Qed.

(** [ev p t a t']: left alone, [p] takes [t] to [t'] and returns [a]. *)
Definition ev {E A} (p : FS E A) t (a : A) t' : Prop :=
  ∀ keeps, p (mkFs t [] [] false keeps) = (FsOk a, mkFs t' [] [] false keeps).

Section undisturbed.
Context {E : Type}.

Lemma ev_ret {A} (a : A) t : ev (mret a : FS E A) t a t.
Proof. by intros keeps. Qed.

Lemma ev_bind {A B} (p : FS E A) (f : A → FS E B) t a t1 b t2 :
  ev p t a t1 → ev (f a) t1 b t2 → ev (p ≫= f) t b t2.
Proof. intros Hp Hf keeps. unfold mbind, FS_bind. rewrite Hp. apply Hf. Qed.

Lemma ev_of_sum {A} (r : E + A) t a : r = inr a → ev (of_sum r) t a t.
Proof. by intros -> keeps. Qed.

Lemma ev_with_error {F A} (g : F → E) (p : FS F A) t a t' : ev p t a t' → ev (with_error g p) t a t'.
Proof. intros Hp keeps. unfold with_error. by rewrite Hp. Qed.

Lemma ev_finally {A} (p : FS E A) cleanup t a t1 t2 : ev p t a t1 → ev cleanup t1 tt t2 → ev (finally p cleanup) t a t2.
Proof. intros Hp Hc keeps. unfold finally. by rewrite Hp, Hc. Qed.
End undisturbed.

Lemma ev_act {A} (f : Tree → io_error + A * Tree) t a t' : f t = inr (a, t') → ev (act f) t a t'.
Proof. intros Hf keeps. unfold act. simpl. by rewrite Hf. Qed.

Lemma ev_sync t : ev sync t tt t.
Proof. by apply ev_act. Qed.

Lemma ev_observe {A} (f : Tree → io_error + A) t a : f t = inr a → ev (observe f) t a t.
Proof. intros Hf. apply ev_act. by rewrite Hf. Qed.

Lemma ev_remove_path d t : ev (remove_path d) t tt (remove_all d t).
Proof. by intros keeps. Qed.
