(* ===== verification/Bundle.v ===== *)
(** * Bundle: the package format and its staging

    Models [updated/src/bundle.rs] on a Unix host: the manifest, the publisher's build of an archive
    from a source tree, extraction of an archive into a private directory, the exact verification
    of a committed release, and the staging of an archive to a release directory.  The name of the
    private directory comes from [Stage::create], which [StageSweep.v] models.  tar and zstd are
    the class [TarZst]: an archive decodes to members whose bodies arrive in chunks. *)
From S2P Require Import Prelude Identity Maps Releases Tree.

(** ** The manifest *)

Definition MANIFEST_FILE : string := "manifest.json".
Definition MANIFEST_SCHEMA : N := 2.
Definition MANIFEST_BYTES_LIMIT : N := 4194304.
Definition DEFAULT_ARCHIVE_BYTES_LIMIT : N := 536870912.
Definition BUNDLE_EXPANDED_BYTES_LIMIT : N := 1073741824.
Definition BUNDLE_FILE_BYTES_LIMIT : N := 536870912.
Definition BUNDLE_FILES_LIMIT : N := 16384.
Definition BUNDLE_PATH_BYTES_LIMIT : N := 1024.

Record ManifestFile : Type := mkManifestFile {
  mfl_path : string;
  mfl_sha256 : string;
  mfl_size : N;
  mfl_executable : bool;
}.

Record BundleManifest : Type := mkBundleManifest {
  bm_schema : N;
  bm_product : string;
  bm_version : string;
  bm_platform : string;
  bm_files : list ManifestFile;
}.

Record BundleLimits : Type := mkBundleLimits {
  bl_archive_bytes : N;
  bl_expanded_bytes : N;
  bl_file_bytes : N;
  bl_files : N;
  bl_path_bytes : N;
}.

Definition BundleLimits_default : BundleLimits :=
  mkBundleLimits DEFAULT_ARCHIVE_BYTES_LIMIT BUNDLE_EXPANDED_BYTES_LIMIT BUNDLE_FILE_BYTES_LIMIT
    BUNDLE_FILES_LIMIT BUNDLE_PATH_BYTES_LIMIT.

(** [BundleStore::with_target_limit] on the default limits. *)
Definition with_target_limit (limit : N) : BundleLimits :=
  mkBundleLimits limit BUNDLE_EXPANDED_BYTES_LIMIT BUNDLE_FILE_BYTES_LIMIT BUNDLE_FILES_LIMIT BUNDLE_PATH_BYTES_LIMIT.

Record ExpectedBundle : Type := mkExpectedBundle {
  eb_product : string;
  eb_version : string;
  eb_platform : string;
}.

(** [char::to_lowercase] over Unicode's tables. *)
Class Lowercase : Type := { to_lowercase : string → string }.

(** [str::from_utf8]. *)
Definition byte_in (lo hi : N) (c : ascii) : bool := (lo <=? N_of_ascii c)%N && (N_of_ascii c <=? hi)%N.

Fixpoint is_utf8 (s : string) : bool :=
  match s with
  | EmptyString => true
  | String a s =>
      if byte_in 0 127 a then is_utf8 s
      else match s with
      | EmptyString => false
      | String b s =>
          if byte_in 194 223 a && byte_in 128 191 b then is_utf8 s
          else match s with
          | EmptyString => false
          | String c s =>
              if (byte_in 224 224 a && byte_in 160 191 b || byte_in 225 236 a && byte_in 128 191 b
                  || byte_in 237 237 a && byte_in 128 159 b || byte_in 238 239 a && byte_in 128 191 b)
                 && byte_in 128 191 c
              then is_utf8 s
              else match s with
              | EmptyString => false
              | String d s =>
                  (byte_in 240 240 a && byte_in 144 191 b || byte_in 241 243 a && byte_in 128 191 b
                   || byte_in 244 244 a && byte_in 128 143 b)
                  && byte_in 128 191 c && byte_in 128 191 d && is_utf8 s
              end
          end
      end
  end.

Definition invalid (message : string) : io_error := IoError InvalidData message.

Fixpoint try_fold {E A B} (f : B → A → E + B) (b : B) (l : list A) : E + B :=
  match l with
  | [] => inr b
  | x :: l => b ← f b x; try_fold f b l
  end.

Section format.
Context `{!Semver} `{!Sha256} `{!Lowercase} `{!Serde BundleManifest}.

Definition validate_relative (path : string) (max : N) : io_error + unit :=
  _ ← demand (str_len path <=? max)%N (invalid "invalid bundle path");
  demand (is_confined_relative path) (invalid "bundle path is not a confined relative path").

Definition validate_digest (value : string) : io_error + unit :=
  demand (is_canonical_sha256 value) (invalid "invalid SHA-256 digest").

Definition validate_version (version : string) : io_error + unit :=
  demand (is_release_version version) (invalid "release version is not a bounded semantic version").

Definition validate_bundle_identity (product version platform : string) : io_error + unit :=
  _ ← demand (is_segment product && is_segment platform) (invalid "invalid package product or platform");
  validate_version version.

(** One file of [validate_shape], with the exact and the folded paths before it. *)
Definition validate_file (seen : gset string * gset string) (file : ManifestFile)
    : io_error + gset string * gset string :=
  _ ← validate_relative (mfl_path file) BUNDLE_PATH_BYTES_LIMIT;
  _ ← validate_digest (mfl_sha256 file);
  _ ← demand (mfl_size file <=? BUNDLE_FILE_BYTES_LIMIT)%N (invalid "bundle member exceeds file-size limit");
  _ ← demand (bool_decide (mfl_path file ∉ seen.1) && bool_decide (to_lowercase (mfl_path file) ∉ seen.2))
        (invalid "duplicate or case-colliding manifest path");
  inr ({[ mfl_path file ]} ∪ seen.1, {[ to_lowercase (mfl_path file) ]} ∪ seen.2).

Definition validate_shape (m : BundleManifest) : io_error + unit :=
  _ ← demand (bm_schema m =? MANIFEST_SCHEMA)%N (invalid "unsupported bundle manifest schema");
  _ ← demand (N.of_nat (length (bm_files m)) <? BUNDLE_FILES_LIMIT)%N (invalid "bundle exceeds file-count limit");
  _ ← demand (is_segment (bm_product m)) (invalid "bundle product is invalid");
  _ ← validate_version (bm_version m);
  _ ← demand (is_segment (bm_platform m)) (invalid "bundle platform is invalid");
  _ ← try_fold validate_file (∅, ∅) (bm_files m);
  inr tt.

Definition add_size (total : N) (size : N) : io_error + N :=
  ok_or (checked_add u64_max total size) (invalid "bundle size overflow").

Definition parse_shape (bytes : string) : io_error + BundleManifest :=
  _ ← demand (str_len bytes <=? MANIFEST_BYTES_LIMIT)%N (invalid "bundle manifest exceeds size limit");
  manifest ← ok_or (from_slice bytes) (invalid "malformed manifest");
  _ ← validate_shape manifest;
  expanded ← try_fold (λ total file, add_size total (mfl_size file)) (str_len bytes) (bm_files manifest);
  _ ← demand (expanded <=? BUNDLE_EXPANDED_BYTES_LIMIT)%N (invalid "bundle exceeds expanded-size limit");
  inr manifest.

Definition parse_manifest (bytes : string) (expected : ExpectedBundle) : io_error + BundleManifest :=
  manifest ← parse_shape bytes;
  _ ← demand (bool_decide (bm_product manifest = eb_product expected)
              && bool_decide (bm_version manifest = eb_version expected)
              && bool_decide (bm_platform manifest = eb_platform expected))
        (invalid "bundle manifest disagrees with authenticated metadata");
  inr manifest.

Definition manifest_id (m : BundleManifest) (bytes : string) : ReleaseId := mkReleaseId (bm_version m) (sha256_bytes bytes).

(** ** Verifying a committed release *)

Definition tree_depth (t : Tree) : nat := max_list (length ∘ fst <$> map_to_list t).

(** The walk below [root ++ d]; a level per unit of fuel. *)
Fixpoint collect_release_files (fuel : nat) (t : Tree) (root d : Path) : io_error + list string :=
  match fuel with
  | O => io_fail Other "unreachable depth"
  | S fuel =>
      found ← mapM (λ x,
        match t !! (root ++ d ++ [x]) with
        | Some NSymlink => inl (invalid "release tree contains a symlink")
        | Some NDir => collect_release_files fuel t root (d ++ [x])
        | Some (NFile _ _) =>
            _ ← demand (is_utf8 (joined_path (d ++ [x]))) (invalid "release path is not UTF-8");
            inr [joined_path (d ++ [x])]
        | Some NOther => inl (invalid "release tree contains a non-regular file")
        | None => io_fail NotFound "no such entry"
        end) (read_dir t (root ++ d));
      inr (concat found)
  end.

Definition verify_file (t : Tree) (directory : Path) (file : ManifestFile) : io_error + unit :=
  match t !! (directory ++ components (mfl_path file)) with
  | Some (NFile bytes executable) =>
      _ ← demand (str_len bytes =? mfl_size file)%N (invalid "release file type or size drifted");
      _ ← demand (digests_match (sha256_bytes bytes) (mfl_sha256 file)) (invalid "release file digest drifted");
      demand (Bool.eqb executable (mfl_executable file)) (invalid "release executable permission drifted")
  | Some _ => inl (invalid "release file type or size drifted")
  | None => io_fail NotFound "no such entry"
  end.

Definition verify_tree (t : Tree) (directory : Path) (manifest : BundleManifest) : io_error + unit :=
  actual ← collect_release_files (S (tree_depth t)) t directory [];
  _ ← demand (bool_decide (merge_sort key_le actual
                           = merge_sort key_le ((mfl_path <$> bm_files manifest) ++ [MANIFEST_FILE])))
        (invalid "release tree contains missing or unexpected files");
  each (verify_file t directory) (bm_files manifest).

(** [foundation::file::read_bounded_regular], not following a final link. *)
Definition read_bounded_regular (t : Tree) (p : Path) (limit : N) : io_error + string :=
  match t !! p with
  | Some (NFile bytes _) => _ ← demand (str_len bytes <=? limit)%N (invalid "file is over its limit"); inr bytes
  | Some _ => inl (invalid "not a regular file")
  | None => io_fail NotFound "no such file"
  end.

Definition read_release (t : Tree) (root : Path) (id : ReleaseId) : io_error + BundleManifest :=
  _ ← (match ReleaseId_validate id with Ok _ => inr tt | Err e => inl e end);
  let directory := root ++ [directory_name id] in
  _ ← (match t !! directory with
       | Some NDir => inr tt
       | Some _ => inl (invalid "release identity does not name a real directory")
       | None => io_fail NotFound "no such directory"
       end);
  bytes ← read_bounded_regular t (directory ++ [MANIFEST_FILE]) MANIFEST_BYTES_LIMIT;
  manifest ← parse_shape bytes;
  _ ← demand (bool_decide (bm_version manifest = version id) && digests_match (sha256_bytes bytes) (manifest_sha256 id))
        (invalid "release identity does not match its manifest");
  _ ← verify_tree t directory manifest;
  inr manifest.

End format.

(** ** Archives *)

(** A member as the archive reader hands it out: its type, its path, the size its header states and
    its body, in chunks until the reader reports the end. *)
Record Member : Type := mkMember {
  mb_regular : bool;
  mb_path : io_error + string;
  mb_size : N;
  mb_body : list (io_error + string);
}.

Record TarEntry : Type := mkTarEntry { te_path : string; te_executable : bool; te_bytes : string }.

(** A member that arrives as it was appended. *)
Definition arrives (entry : TarEntry) (m : Member) : Prop :=
  mb_regular m = true ∧ mb_path m = inr (te_path entry) ∧ mb_size m = str_len (te_bytes entry)
  ∧ ∃ chunks, mb_body m = inr <$> chunks ∧ EmptyString ∉ chunks ∧ foldr String.append EmptyString chunks = te_bytes entry.

(** tar through zstd: what was appended is what the reader iterates over. *)
Class TarZst : Type := {
  encode_archive : list TarEntry → string;
  decode_archive : string → io_error + list (io_error + Member);
  archive_roundtrip : ∀ entries, ∃ members,
    decode_archive (encode_archive entries) = inr (inr <$> members) ∧ Forall2 arrives entries members;
}.

Section staging.
Context `{!Semver} `{!Sha256} `{!Lowercase} `{!Serde BundleManifest} `{!TarZst}.

(** ** The publisher's build *)

Fixpoint collect_files (fuel : nat) (t : Tree) (root d : Path) (out : list string) (max_files max_path_bytes : N)
    : io_error + list string :=
  match fuel with
  | O => io_fail Other "unreachable depth"
  | S fuel =>
      try_fold (λ out x,
        match t !! (root ++ d ++ [x]) with
        | Some NSymlink => inl (invalid "bundle source contains a symlink")
        | Some NDir => collect_files fuel t root (d ++ [x]) out max_files max_path_bytes
        | Some (NFile _ _) =>
            let relative := joined_path (d ++ [x]) in
            _ ← demand (is_utf8 relative) (invalid "bundle path is not UTF-8");
            _ ← demand (negb (bool_decide (relative = MANIFEST_FILE))) (invalid "bundle source must not contain manifest.json");
            _ ← validate_relative relative max_path_bytes;
            _ ← demand (N.of_nat (length out) <? max_files)%N (invalid "bundle exceeds file-count limit");
            inr (out ++ [relative])
        | Some NOther => inl (invalid "bundle source contains a non-regular file")
        | None => io_fail NotFound "no such entry"
        end) out (merge_sort key_le (read_dir t (root ++ d)))
  end.

(** One file of the build: its manifest line, and its bytes in the archive. *)
Definition build_file (t : Tree) (source : Path) (limits : BundleLimits)
    (built : N * list ManifestFile * list TarEntry) (relative : string) : io_error + N * list ManifestFile * list TarEntry :=
  let '(expanded, files, entries) := built in
  match t !! (source ++ components relative) with
  | Some (NFile bytes executable) =>
      let size := str_len bytes in
      _ ← demand (size <=? bl_file_bytes limits)%N (invalid "bundle member exceeds file-size limit");
      expanded ← add_size expanded size;
      _ ← demand (expanded <=? bl_expanded_bytes limits)%N (invalid "bundle exceeds expanded-size limit");
      inr (expanded, files ++ [mkManifestFile relative (sha256_bytes bytes) size executable],
           entries ++ [mkTarEntry relative executable bytes])
  | Some _ => inl (invalid "not a regular file")
  | None => io_fail NotFound "no such file"
  end.

(** [create_bundle] up to the atomic replacement of the archive file. *)
Definition create_bundle (t : Tree) (source : Path) (product version platform : string) : io_error + string :=
  let limits := BundleLimits_default in
  _ ← validate_bundle_identity product version platform;
  _ ← demand (is_dir t source) (invalid "bundle source is not a regular directory");
  paths ← collect_files (S (tree_depth t)) t source [] [] (bl_files limits - 1) (bl_path_bytes limits);
  '(_, files, entries) ← try_fold (build_file t source limits) (0%N, [], []) (merge_sort key_le paths);
  let manifest := mkBundleManifest MANIFEST_SCHEMA product version platform files in
  manifest_bytes ← ok_or (to_vec manifest) (invalid "manifest");
  _ ← parse_manifest manifest_bytes (mkExpectedBundle product version platform);
  inr (encode_archive (entries ++ [mkTarEntry MANIFEST_FILE false manifest_bytes])).

(** ** Extraction *)

Definition archive_verdict (message : string) : InstallError := IArchive (invalid message).

Definition storage {A} (p : FS io_error A) : FS InstallError A := with_error IStorage p.

Definition classify_collision (error : io_error) : InstallError :=
  match err_kind error with
  | AlreadyExists | NotADirectory => archive_verdict "duplicate bundle member"
  | _ => IStorage error
  end.

(** [DeviceFault::classify] *)
Definition classify (device : bool) (error : io_error) : InstallError := if device then IStorage error else IArchive error.

Definition next_read (s : fs) : read_fault * fs :=
  match fs_reads s with
  | [] => (ReadWorks, s)
  | f :: rest => (f, mkFs (fs_tree s) (fs_faults s) rest (fs_device s) (fs_keeps s))
  end.

Definition flagged (s : fs) : fs := mkFs (fs_tree s) (fs_faults s) (fs_reads s) true (fs_keeps s).

(** One answer of the decompress/untar stack, over [ArchiveSource]. *)
Definition from_archive {A} (r : io_error + A) : FS InstallError A := λ s,
  let '(f, s) := next_read s in
  let structural s := match r with inr a => (FsOk a, s) | inl e => (FsErr (classify (fs_device s) e), s) end in
  match f with
  | ReadWorks => structural s
  | ReadRetried => structural (flagged s)
  | ReadErrs e => (FsErr (IStorage e), flagged s)
  | ReadDies => (FsDead, s)
  end.

Definition verdict {A} (message : string) : FS InstallError A := raise (archive_verdict message).
Definition require (b : bool) (message : string) : FS InstallError unit := if b then mret tt else verdict message.

(** The body of a member into its file: its bytes and how many were written. *)
Fixpoint copy_member (p : Path) (body : list (io_error + string)) (content : string) (written : N)
    : FS InstallError (string * N) :=
  match body with
  | [] => _ ← from_archive (inr tt); mret (content, written)
  | next :: body =>
      chunk ← from_archive next;
      if bool_decide (chunk = EmptyString) then mret (content, written)
      else
        _ ← storage (write_all p chunk);
        match checked_add u64_max written (str_len chunk) with
        | None => verdict "bundle member size overflow"
        | Some written => copy_member p body (String.append content chunk) written
        end
  end.

(** [Read::read_to_end] *)
Fixpoint read_to_end (body : list (io_error + string)) (content : string) : FS InstallError string :=
  match body with
  | [] => _ ← from_archive (inr tt); mret content
  | next :: body =>
      chunk ← from_archive next;
      if bool_decide (chunk = EmptyString) then mret content else read_to_end body (String.append content chunk)
  end.

Record Unpacked : Type := mkUnpacked {
  up_manifest : option string;
  up_extracted : gmap string (N * string);
  up_seen : N;
  up_expanded : N;
}.

(** The checks of one entry before anything is written: its path and the counters after it. *)
Definition admit_member (limits : BundleLimits) (up : Unpacked) (m : Member) : FS InstallError (string * N) :=
  _ ← require (mb_regular m) "bundle contains a non-regular archive entry";
  path ← from_archive (mb_path m);
  _ ← require (is_utf8 path) "bundle path is not UTF-8";
  _ ← of_sum (map_err IArchive (validate_relative path (bl_path_bytes limits)));
  _ ← require (up_seen up + 1 <=? bl_files limits)%N "bundle exceeds file-count limit";
  _ ← require (mb_size m <=? bl_file_bytes limits)%N "bundle member exceeds file-size limit";
  expanded ← of_sum (ok_or (checked_add u64_max (up_expanded up) (mb_size m)) (archive_verdict "bundle size overflow"));
  _ ← require (expanded <=? bl_expanded_bytes limits)%N "bundle exceeds expanded-size limit";
  mret (path, expanded).

Definition unpack_member (stage : Path) (limits : BundleLimits) (up : Unpacked) (m : Member) : FS InstallError Unpacked :=
  '(path, expanded) ← admit_member limits up m;
  let destination := stage ++ components path in
  _ ← with_error classify_collision (create_dir_all (take (pred (length destination)) destination));
  _ ← with_error classify_collision (create_new destination);
  if bool_decide (path = MANIFEST_FILE) then
    _ ← require (mb_size m <=? MANIFEST_BYTES_LIMIT)%N "bundle manifest exceeds size limit";
    bytes ← read_to_end (mb_body m) EmptyString;
    _ ← require (str_len bytes =? mb_size m)%N "truncated bundle member";
    _ ← storage (write_all destination bytes);
    _ ← storage sync;
    mret (mkUnpacked (Some bytes) (up_extracted up) (up_seen up + 1) expanded)
  else
    '(content, written) ← copy_member destination (mb_body m) EmptyString 0;
    _ ← require (written =? mb_size m)%N "truncated bundle member";
    _ ← storage sync;
    mret (mkUnpacked (up_manifest up) (<[path := (mb_size m, sha256_bytes content)]> (up_extracted up))
            (up_seen up + 1) expanded).

Fixpoint unpack_all (stage : Path) (limits : BundleLimits) (up : Unpacked) (entries : list (io_error + Member))
    : FS InstallError Unpacked :=
  match entries with
  | [] => _ ← from_archive (inr tt); mret up
  | entry :: entries =>
      m ← from_archive entry;
      up ← unpack_member stage limits up m;
      unpack_all stage limits up entries
  end.

(** A declared file: extracted with these bytes, and given its permission. *)
Definition settle_member (stage : Path) (extracted : gmap string (N * string)) (declared : ManifestFile)
    : FS InstallError unit :=
  _ ← require (match extracted !! mfl_path declared with
               | Some (size, digest) => (size =? mfl_size declared)%N && digests_match digest (mfl_sha256 declared)
               | None => false
               end) "bundle member does not match its manifest";
  storage (set_mode (stage ++ components (mfl_path declared)) (mfl_executable declared)).

Fixpoint settle_all (stage : Path) (extracted : gmap string (N * string)) (files : list ManifestFile)
    : FS InstallError unit :=
  match files with
  | [] => mret tt
  | declared :: files => _ ← settle_member stage extracted declared; settle_all stage extracted files
  end.

Definition extract (archive : string) (stage : Path) (expected : ExpectedBundle) (limits : BundleLimits)
    : FS InstallError (BundleManifest * string) :=
  entries ← from_archive (decode_archive archive);
  up ← unpack_all stage limits (mkUnpacked None ∅ 0 0) entries;
  bytes ← of_sum (ok_or (up_manifest up) (archive_verdict "bundle manifest is missing"));
  manifest ← of_sum (map_err IArchive (parse_manifest bytes expected));
  _ ← require (bool_decide (size (up_extracted up) = length (bm_files manifest))) "bundle files do not exactly match the manifest";
  _ ← settle_all stage (up_extracted up) (bm_files manifest);
  mret (manifest, bytes).

(** ** Staging *)

Definition ensure_real_directory (p : Path) : FS io_error unit :=
  _ ← create_dir_all p;
  observe (λ t, if is_dir t p then inr tt else inl (invalid "bundle storage root is not a real directory")).

(** [result.is_ok()] *)
Definition succeeded {E A} (p : FS E A) : FS E bool := λ s,
  match p s with
  | (FsOk _, s) => (FsOk true, s)
  | (FsErr _, s) => (FsOk false, s)
  | (FsDead, s) => (FsDead, s)
  end.

(** From the verified stage to the release directory. *)
Definition publish_stage (stage versions : Path) (id : ReleaseId) : FS InstallError ReleaseId :=
  let destination := versions ++ [directory_name id] in
  occupied ← storage (observe (λ t, inr (bool_decide (is_Some (t !! destination)))));
  reusable ← (if occupied : bool then succeeded (storage (observe (λ t, read_release t versions id))) else mret false);
  if reusable : bool then mret id
  else
    _ ← (if occupied : bool then _ ← ignore (storage (remove_path destination)); storage sync else mret tt);
    _ ← storage sync;
    _ ← storage (rename stage destination);
    _ ← storage sync;
    _ ← storage (observe (λ t, read_release t versions id));
    mret id.

(** [stage_bundle_file], with the private directory [Stage::create] claims. *)
Definition stage_bundle_file (archive : string) (claim : io_error + string) (staging_root versions_root : Path)
    (expected : ExpectedBundle) (limits : BundleLimits) : FS InstallError ReleaseId :=
  _ ← storage sync;
  _ ← storage sync;
  _ ← require (str_len archive <=? bl_archive_bytes limits)%N "bundle archive exceeds the target size limit";
  _ ← storage (ensure_real_directory staging_root);
  _ ← storage (ensure_real_directory versions_root);
  name ← of_sum (map_err IStorage claim);
  let stage := staging_root ++ [name] in
  _ ← storage (create_dir stage);
  finally ('(manifest, bytes) ← extract archive stage expected limits;
           publish_stage stage versions_root (manifest_id manifest bytes))
    (remove_path stage).

End staging.
