(* ===== verification/BundleSafety.v ===== *)
(** * BundleSafety: what staging a bundle can and cannot do

    A release directory is exactly what its manifest says, appears whole or not at all, and nothing
    outside it and the private stage is touched; a verdict on an archive is about its bytes; and
    what the publisher builds is what a node installs. *)
From S2P Require Import Prelude Identity Maps Releases Tree Bundle.

(** ** Paths *)

Definition plain_path (p : Path) : Prop := p ≠ [] ∧ Forall (λ x, plain_name x = true) p.

Lemma plain_name_iff x : plain_name x = true ↔ x ≠ EmptyString ∧ string_forallb (λ c, negb (bool_decide (c = "/"%char))) x = true.
Proof. unfold plain_name. rewrite andb_true_iff, negb_true_iff, bool_decide_eq_false. done. Qed.

Lemma joined_components path : joined_path (components path) = path.
Proof. apply concat_split. Qed.

Lemma split_on_rest x rest cur : string_forallb (λ c, negb (bool_decide (c = "/"%char))) x = true →
  split_on "/"%char cur (String.append x (String "/" rest)) = String.append cur x :: split_on "/"%char EmptyString rest.
Proof.
  revert cur. induction x as [|c x IH]; intros cur; simpl; [by rewrite append_empty_r|].
  intros [Hc Hx]%andb_true_iff. apply negb_true_iff in Hc. rewrite Hc, IH by done. by rewrite <-append_assoc.
Qed.

Lemma split_on_last x cur : string_forallb (λ c, negb (bool_decide (c = "/"%char))) x = true →
  split_on "/"%char cur x = [String.append cur x].
Proof.
  revert cur. induction x as [|c x IH]; intros cur; simpl; [by rewrite append_empty_r|].
  intros [Hc Hx]%andb_true_iff. apply negb_true_iff in Hc. rewrite Hc, IH by done. by rewrite <-append_assoc.
Qed.

Lemma components_joined p : plain_path p → components (joined_path p) = p.
Proof.
  intros [Hne Hp]. unfold components, joined_path. induction Hp as [|x p Hx Hp IH]; [done|].
  apply plain_name_iff in Hx as [_ Hx]. destruct p as [|y p]; [by apply split_on_last|].
  change (String.concat "/" (x :: y :: p)) with (String.append x (String "/" (String.concat "/" (y :: p)))).
  rewrite split_on_rest by done. by rewrite IH.
Qed.

Lemma components_inj a b : components a = components b → a = b.
Proof. intros Heq. by rewrite <-(joined_components a), <-(joined_components b), Heq. Qed.

Lemma joined_inj p q : plain_path p → plain_path q → joined_path p = joined_path q → p = q.
Proof. intros Hp Hq Heq. by rewrite <-(components_joined p), <-(components_joined q), Heq. Qed.

Lemma components_ne path : components path ≠ [].
Proof.
  unfold components. generalize EmptyString. induction path as [|c path IH]; intros cur; simpl; [done|].
  case_bool_decide; [done|]. apply IH.
Qed.

Lemma confined_plain path : is_confined_relative path = true → plain_path (components path).
Proof.
  intros Hc. split; [apply components_ne|]. unfold is_confined_relative in Hc. bool_to_prop.
  match goal with Hf : forallb _ _ = true |- _ => rename Hf into Hsafe end. rewrite forallb_forall in Hsafe.
  apply Forall_forall. intros x Hx. rewrite list_elem_of_In in Hx. specialize (Hsafe x Hx).
  unfold is_safe_component in Hsafe. bool_to_prop. apply plain_name_iff. split; [done|].
  match goal with Hs : string_existsb _ _ = false |- _ => unfold string_existsb in Hs; apply negb_false_iff in Hs;
    eapply string_forallb_impl; [|exact Hs] end.
  intros c Hc. simpl in *. apply negb_true_iff, bool_decide_eq_false in Hc. apply negb_true_iff, bool_decide_eq_false.
  intros ->. apply Hc. set_solver.
Qed.

Lemma validate_relative_inr path max :
  validate_relative path max = inr tt → (str_len path ≤ max)%N ∧ is_confined_relative path = true.
Proof. unfold validate_relative. intros Hv. sum_inv. split; [by apply N.leb_le|done]. Qed.

(** ** The walk of a release directory *)

Lemma mapM_inr {E A B} (f : A → E + B) l ys :
  mapM f l = inr ys ↔ Forall2 (λ x y, f x = inr y) l ys.
Proof.
  revert ys. induction l as [|x l IH]; intros ys; simpl.
  - split; [intros [= <-]; constructor|]. by inversion 1.
  - split.
    + intros Hm. apply sum_bind_inr in Hm as (y & Hy & Hm). apply sum_bind_inr in Hm as (k & Hk & Hm).
      injection Hm as <-. constructor; [done|]. by apply IH.
    + inversion 1 as [|? y ? k Hy Hk]; subst. rewrite Hy. simpl. by rewrite (proj2 (IH k) Hk).
Qed.

Lemma mapM_succeeds {E A B} (f : A → E + B) l : (∀ x, x ∈ l → ∃ y, f x = inr y) → ∃ ys, mapM f l = inr ys.
Proof.
  intros Hf. induction l as [|x l IH]; [by eexists|]. destruct (Hf x) as [y Hy]; [constructor|].
  destruct IH as [ys Hys]; [intros; apply Hf; by constructor|]. exists (y :: ys). simpl. by rewrite Hy, Hys.
Qed.

Lemma tree_depth_bound (t : Tree) p n : t !! p = Some n → (length p ≤ tree_depth t)%nat.
Proof.
  intros Hp. unfold tree_depth. apply max_list_elem_of_le. apply list_elem_of_fmap. exists (p, n).
  split; [done|]. by apply elem_of_map_to_list.
Qed.

Lemma wf_between (t : Tree) p q n : well_formed t → t !! (p ++ q) = Some n → q ≠ [] → is_dir t p = true.
Proof.
  intros Hwf. revert n. induction q as [|x q IH] using rev_ind; intros n Hn Hq; [done|].
  rewrite app_assoc in Hn. apply (wf_parent t Hwf) in Hn. destruct q as [|y q]; [by rewrite app_nil_r in Hn|].
  apply is_dir_true in Hn as [Hn|Hn]; [by destruct p|]. by eapply IH.
Qed.

Lemma NoDup_read_dir (t : Tree) d : NoDup (read_dir t d).
Proof.
  unfold read_dir. pose proof (NoDup_fst_map_to_list t) as Hnd. induction (map_to_list t) as [|[p n] l IH]; [constructor|].
  apply NoDup_cons in Hnd as [Hni Hnd]. simpl in *. destruct (child_of d p) as [x|] eqn:Hc; [|by apply IH].
  apply NoDup_cons. split; [|by apply IH]. intros ([p' n'] & Hin & Hc')%list_elem_of_omap. simpl in Hc'.
  apply child_of_Some in Hc as ->. apply child_of_Some in Hc' as ->. apply Hni, list_elem_of_fmap. by exists (d ++ [x], n').
Qed.

(** What a walk that succeeds has seen. *)
Definition walked (t : Tree) (root d : Path) (out : list string) : Prop :=
  (∀ r n, t !! (root ++ d ++ r) = Some n → r ≠ [] →
     n = NDir ∨ (∃ b x, n = NFile b x) ∧ is_utf8 (joined_path (d ++ r)) = true)
  ∧ NoDup out
  ∧ ∀ path, path ∈ out ↔ ∃ r b x, r ≠ [] ∧ t !! (root ++ d ++ r) = Some (NFile b x) ∧ path = joined_path (d ++ r).

(** What one entry of a walked directory contributes. *)
Lemma walked_entry (t : Tree) root d x part :
  well_formed t →
  match t !! (root ++ d ++ [x]) with
  | Some NDir => walked t root (d ++ [x]) part
  | Some (NFile _ _) => is_utf8 (joined_path (d ++ [x])) = true ∧ part = [joined_path (d ++ [x])]
  | _ => False
  end →
  (∀ r n, t !! (root ++ d ++ x :: r) = Some n →
     n = NDir ∨ (∃ b y, n = NFile b y) ∧ is_utf8 (joined_path (d ++ x :: r)) = true)
  ∧ NoDup part
  ∧ ∀ path, path ∈ part ↔ ∃ r b y, t !! (root ++ d ++ x :: r) = Some (NFile b y) ∧ path = joined_path (d ++ x :: r).
Proof.
  intros Hwf Hx. destruct (t !! (root ++ d ++ [x])) as [[b y| | |]|] eqn:Hn; [| |done..].
  - destruct Hx as [Hu ->]. assert (∀ r n, t !! (root ++ d ++ x :: r) = Some n → r = []) as Hleaf.
    { intros [|z r] n Hr; [done|]. exfalso.
      assert (is_dir t (root ++ d ++ [x]) = true) as Hd.
      { apply (wf_between t _ (z :: r) n); [done| |done]. by rewrite <-!app_assoc. }
      apply is_dir_true in Hd as [Hd|Hd]; [|congruence]. by destruct root, d. }
    split_and!; [|apply NoDup_singleton|].
    + intros r n Hr. pose proof (Hleaf r n Hr) as ->. right. rewrite Hn in Hr. injection Hr as <-. eauto.
    + intros path. rewrite list_elem_of_singleton. split.
      * intros ->. by exists [], b, y.
      * intros (r & b' & y' & Hr & ->). by rewrite (Hleaf r _ Hr).
  - destruct Hx as (Hplain & Hnd & Hin). split_and!; [|done|].
    + intros [|z r] n Hr; [left; congruence|]. specialize (Hplain (z :: r) n). rewrite <-!app_assoc in Hplain. by apply Hplain.
    + intros path. rewrite Hin. split.
      * intros (r & b & y & Hne & Hr & ->). exists r, b, y. rewrite <-app_assoc in Hr |- *. by split_and!.
      * intros (r & b & y & Hr & ->). exists r, b, y. rewrite <-!app_assoc. split_and!; try done.
        intros ->. congruence.
Qed.

Definition below (t : Tree) (root d : Path) (x path : string) : Prop :=
  ∃ r b y, t !! (root ++ d ++ x :: r) = Some (NFile b y) ∧ path = joined_path (d ++ x :: r).

Lemma below_first (t : Tree) root d x y path : well_formed t → below t root d x path → below t root d y path → x = y.
Proof.
  intros Hwf (r & b & e & Hr & ->) (r' & b' & e' & Hr' & Heq).
  apply (wf_names t Hwf) in Hr, Hr'. apply Forall_app in Hr as [_ Hr]. apply Forall_app in Hr' as [_ Hr'].
  apply joined_inj in Heq; [by apply app_inv_head in Heq as [= -> _]|..]; (split; [by destruct d|done]).
Qed.

Lemma walked_parts (t : Tree) root d names parts :
  well_formed t → NoDup names →
  Forall2 (λ x part, NoDup part ∧ ∀ path, path ∈ part ↔ below t root d x path) names parts →
  NoDup (concat parts) ∧ ∀ path, path ∈ concat parts ↔ ∃ x, x ∈ names ∧ below t root d x path.
Proof.
  intros Hwf Hnd Hall. induction Hall as [|x part names parts [Hp Hin] Hall IH].
  - split; [constructor|]. intros path. split; [by intros ?%not_elem_of_nil|by intros (x & ?%not_elem_of_nil & _)].
  - apply NoDup_cons in Hnd as [Hni Hnd]. destruct (IH Hnd) as [IH1 IH2]. simpl. split.
    + apply NoDup_app. split_and!; [done| |done]. intros path Hx%Hin (y & Hy & Hb)%IH2. apply Hni.
      by rewrite (below_first t root d x y path Hwf Hx Hb).
    + intros path. rewrite elem_of_app, Hin, IH2. setoid_rewrite elem_of_cons. naive_solver.
Qed.

(** The entries of a directory, walked one by one in any order. *)
Lemma walked_gather (t : Tree) root d names parts :
  well_formed t → names ≡ₚ read_dir t (root ++ d) →
  Forall2 (λ x part, match t !! (root ++ d ++ [x]) with
    | Some NDir => walked t root (d ++ [x]) part
    | Some (NFile _ _) => is_utf8 (joined_path (d ++ [x])) = true ∧ part = [joined_path (d ++ [x])]
    | _ => False
    end) names parts →
  walked t root d (concat parts).
Proof.
  intros Hwf Hnames Hm.
  assert (Forall2 (λ x part, (∀ r n, t !! (root ++ d ++ x :: r) = Some n →
      n = NDir ∨ (∃ b y, n = NFile b y) ∧ is_utf8 (joined_path (d ++ x :: r)) = true)
    ∧ NoDup part ∧ ∀ path, path ∈ part ↔ below t root d x path) names parts) as Hparts.
  { eapply Forall2_impl; [exact Hm|]. intros x part Hx. by apply walked_entry. }
  destruct (walked_parts t root d names parts) as [Hnd Hin]; [done|rewrite Hnames; apply NoDup_read_dir| |].
  { eapply Forall2_impl; [exact Hparts|]. by intros x part (_ & ?). }
  assert (∀ x r n, t !! (root ++ d ++ x :: r) = Some n → x ∈ names) as Hroot.
  { intros x r n Hn. rewrite Hnames. apply elem_of_read_dir. destruct r as [|z r]; [rewrite <-app_assoc; by exists n|].
    assert (is_dir t (root ++ d ++ [x]) = true) as Hd.
    { apply (wf_between t _ (z :: r) n); [done| |done]. by rewrite <-!app_assoc. }
    rewrite <-app_assoc. apply is_dir_true in Hd as [Hd|Hd]; [by destruct root, d|by exists NDir]. }
  split_and!; [|done|].
  - intros [|x r] n Hn Hne; [done|]. pose proof (Hroot x r n Hn) as Hx.
    apply list_elem_of_lookup in Hx as [i Hi]. destruct (Forall2_lookup_l _ _ _ _ _ Hparts Hi) as (part & _ & Hp & _). by eapply Hp.
  - intros path. rewrite Hin. split.
    + intros (x & _ & r & b & y & ? & ?). by exists (x :: r), b, y.
    + intros ([|x r] & b & y & Hne & Hr & Hp); [done|]. exists x. split; [by eapply Hroot|]. by exists r, b, y.
Qed.

Lemma collect_inr fuel (t : Tree) root d out :
  well_formed t → collect_release_files fuel t root d = inr out → walked t root d out.
Proof.
  intros Hwf. revert d out. induction fuel as [|fuel IH]; intros d out Hc; [done|]. cbn [collect_release_files] in Hc.
  apply sum_bind_inr in Hc as (parts & Hm & [= <-]). apply mapM_inr in Hm. eapply walked_gather; [done|done|].
  eapply Forall2_impl; [exact Hm|]. intros x part Hx. cbn beta in Hx.
  destruct (t !! (root ++ d ++ [x])) as [[b y| | |]|]; [|by apply (IH (d ++ [x]) part)|discriminate Hx..].
  apply sum_bind_inr in Hx as ([] & Hu & [= <-]). by apply demand_inr in Hu.
Qed.

(** Enough fuel for every level, and nothing a walk refuses. *)
Lemma collect_succeeds fuel (t : Tree) root d :
  well_formed t → (tree_depth t < fuel + length (root ++ d))%nat → t !! (root ++ d) = Some NDir →
  (∀ r n, t !! (root ++ d ++ r) = Some n → r ≠ [] →
     n = NDir ∨ (∃ b x, n = NFile b x) ∧ is_utf8 (joined_path (d ++ r)) = true) →
  ∃ out, collect_release_files fuel t root d = inr out.
Proof.
  intros Hwf. revert d. induction fuel as [|fuel IH]; intros d Hd Hdir Hok; [apply tree_depth_bound in Hdir; lia|].
  cbn [collect_release_files].
  match goal with |- context [mapM ?f ?l] => assert (∃ parts, mapM f l = inr parts) as [parts ->] end; [|by eexists].
  apply mapM_succeeds. intros x [n Hn]%elem_of_read_dir. rewrite <-app_assoc in Hn. rewrite Hn.
  destruct (Hok [x] n Hn) as [->|[(b & e & ->) Hu]]; [done| |].
  - apply IH; [rewrite !length_app in *; simpl in *; lia|done|].
    intros r m Hr Hne. rewrite <-!app_assoc in Hr |- *. by apply Hok.
  - exists [joined_path (d ++ [x])]. by rewrite Hu.
Qed.

(** ** A release directory *)

Lemma sorted_paths l k : merge_sort key_le l = merge_sort key_le k ↔ l ≡ₚ k.
Proof.
  split.
  - intros Heq. rewrite <-(merge_sort_Permutation key_le l), Heq. apply merge_sort_Permutation.
  - intros Hp. apply (Sorted_unique key_le); [apply Sorted_merge_sort; intros x y; apply String.leb_total..|].
    by rewrite !merge_sort_Permutation.
Qed.

Section release.
Context `{!Semver} `{!Sha256} `{!Lowercase} `{!Serde BundleManifest}.
Implicit Types (t : Tree) (m : BundleManifest).

(** The directory holds the manifest of [id] and exactly the files it names, with their bytes and
    permissions; empty directories aside, nothing else. *)
Record holds t (dir : Path) (id : ReleaseId) m : Prop := {
  hd_dir : t !! dir = Some NDir;
  hd_manifest : ∃ bytes x, t !! (dir ++ [MANIFEST_FILE]) = Some (NFile bytes x)
    ∧ parse_shape bytes = inr m ∧ sha256_bytes bytes = manifest_sha256 id;
  hd_version : bm_version m = version id;
  hd_files : ∀ f, f ∈ bm_files m → ∃ bytes,
    t !! (dir ++ components (mfl_path f)) = Some (NFile bytes (mfl_executable f))
    ∧ str_len bytes = mfl_size f ∧ sha256_bytes bytes = mfl_sha256 f ∧ is_utf8 (mfl_path f) = true;
  hd_only : ∀ r n, t !! (dir ++ r) = Some n → r ≠ [] →
    n = NDir ∨ r = [MANIFEST_FILE] ∨ ∃ f, f ∈ bm_files m ∧ r = components (mfl_path f);
  hd_reserved : MANIFEST_FILE ∉ mfl_path <$> bm_files m;
}.

Lemma holds_ext t t' dir dir' id m :
  (∀ r, t !! (dir ++ r) = t' !! (dir' ++ r)) → holds t dir id m → holds t' dir' id m.
Proof.
  intros Heq Hh. split.
  - pose proof (hd_dir _ _ _ _ Hh) as Hd. specialize (Heq []). rewrite !app_nil_r in Heq. congruence.
  - rewrite <-Heq. apply (hd_manifest _ _ _ _ Hh).
  - apply (hd_version _ _ _ _ Hh).
  - intros f. rewrite <-Heq. apply (hd_files _ _ _ _ Hh).
  - intros r n. rewrite <-Heq. apply (hd_only _ _ _ _ Hh).
  - apply (hd_reserved _ _ _ _ Hh).
Qed.

(** The files of a manifest that parses: confined, with distinct paths. *)
Lemma validate_files files : ∀ seen seen',
  try_fold validate_file seen files = inr seen' →
  NoDup (mfl_path <$> files) ∧ Forall (λ f, is_confined_relative (mfl_path f) = true
    ∧ is_canonical_sha256 (mfl_sha256 f) = true) files
  ∧ ∀ f, f ∈ files → mfl_path f ∉ seen.1.
Proof.
  induction files as [|f files IH]; intros seen seen' Hf; simpl in *.
  - split_and!; [constructor|constructor|]. by intros f ?%not_elem_of_nil.
  - apply sum_bind_inr in Hf as (next & Hn & Hf). destruct (IH _ _ Hf) as (Hnd & Hall & Hfresh).
    unfold validate_file in Hn. sum_inv. bool_to_prop. simplify_eq/=.
    match goal with Hv : validate_relative _ _ = _ |- _ => apply validate_relative_inr in Hv as [_ Hv]; rename Hv into Hconf end.
    match goal with Hv : validate_digest _ = _ |- _ => unfold validate_digest in Hv; apply demand_inr in Hv; rename Hv into Hdig end.
    split_and!.
    + constructor; [|done]. intros (g & Heq & Hg)%list_elem_of_fmap. apply (Hfresh g Hg). set_solver.
    + by constructor.
    + intros g [->|Hg]%elem_of_cons; [done|]. specialize (Hfresh g Hg). set_solver.
Qed.

Lemma parse_shape_files bytes m :
  parse_shape bytes = inr m →
  (str_len bytes ≤ MANIFEST_BYTES_LIMIT)%N ∧ NoDup (mfl_path <$> bm_files m)
  ∧ ∀ f, f ∈ bm_files m → is_confined_relative (mfl_path f) = true ∧ is_canonical_sha256 (mfl_sha256 f) = true.
Proof.
  unfold parse_shape. intros Hp. sum_inv. simplify_eq/=.
  match goal with Hv : validate_shape _ = _ |- _ => unfold validate_shape in Hv end. sum_inv.
  match goal with Hf : try_fold validate_file _ _ = _ |- _ => destruct (validate_files _ _ _ Hf) as (? & Hall & _) end.
  split_and!; [by apply N.leb_le|done|]. by apply Forall_forall.
Qed.

Lemma digests_match_iff a b : digests_match a b = true ↔ a = b ∧ is_canonical_sha256 b = true.
Proof.
  unfold digests_match. rewrite !andb_true_iff, bool_decide_eq_true. split; [intros [[? ?] ->]; done|intros [-> ->]; done].
Qed.

Lemma verify_file_iff t dir f :
  is_canonical_sha256 (mfl_sha256 f) = true →
  verify_file t dir f = inr tt ↔ ∃ bytes, t !! (dir ++ components (mfl_path f)) = Some (NFile bytes (mfl_executable f))
    ∧ str_len bytes = mfl_size f ∧ sha256_bytes bytes = mfl_sha256 f.
Proof.
  intros Hcan. unfold verify_file. destruct (t !! _) as [[bytes x| | |]|]; [|naive_solver..]. split.
  - intros Hv. sum_inv. exists bytes.
    match goal with Hd : digests_match _ _ = true |- _ => apply digests_match_iff in Hd as [? _] end.
    match goal with Hb : Bool.eqb _ _ = true |- _ => apply Bool.eqb_prop in Hb as -> end.
    split_and!; [done|by apply N.eqb_eq|done].
  - intros (b & [= -> ->] & Hs & Hd). rewrite (proj2 (N.eqb_eq _ _) Hs). simpl.
    rewrite (proj2 (digests_match_iff _ _)); [simpl; by rewrite Bool.eqb_reflx|]. by rewrite Hd.
Qed.

(** The manifest's own name is one component. *)
Lemma components_manifest : components MANIFEST_FILE = [MANIFEST_FILE].
Proof. reflexivity. Qed.

(** The walk of a directory that holds a release finds its files and its manifest. *)
Lemma holds_walked t dir id m out :
  well_formed t → holds t dir id m → walked t dir [] out → out ≡ₚ (mfl_path <$> bm_files m) ++ [MANIFEST_FILE].
Proof.
  intros Hwf Hh (_ & Hnd & Hin). destruct (hd_manifest _ _ _ _ Hh) as (bytes & x & Hm & Hp & _).
  destruct (parse_shape_files _ _ Hp) as (_ & Hnodup & Hconf). apply NoDup_Permutation; [done| |].
  { apply NoDup_app. split_and!; [done| |apply NoDup_singleton]. intros p Hpf ->%list_elem_of_singleton.
    by apply (hd_reserved _ _ _ _ Hh). }
  intros path. rewrite Hin, elem_of_app, list_elem_of_singleton, list_elem_of_fmap. split.
  - intros (r & b & y & Hne & Hr & ->). simpl in *.
    destruct (hd_only _ _ _ _ Hh r _ Hr Hne) as [?|[->|(f & Hf & ->)]]; [done|by right|left].
    exists f. by rewrite joined_components.
  - intros [(f & -> & Hf)| ->].
    + destruct (hd_files _ _ _ _ Hh f Hf) as (b & Hb & _ & _ & Hu).
      exists (components (mfl_path f)), b, (mfl_executable f). simpl. rewrite joined_components.
      split_and!; [apply components_ne|done|done].
    + by exists [MANIFEST_FILE], bytes, x.
Qed.

(** [read_release] accepts exactly the directories that hold the release. *)
Lemma read_release_iff t root id m :
  well_formed t →
  read_release t root id = inr m ↔ ReleaseId_validate id = Ok tt ∧ holds t (root ++ [directory_name id]) id m.
Proof.
  intros Hwf. unfold read_release. cbn zeta. set (dir := root ++ [directory_name id]). split.
  - intros Hr. apply sum_bind_inr in Hr as ([] & Hid & Hr). destruct (ReleaseId_validate id) as [[]|]; [|done].
    split; [done|]. apply sum_bind_inr in Hr as ([] & Hdir & Hr).
    assert (t !! dir = Some NDir) as Hd by (by destruct (t !! dir) as [[]|]). clear Hid Hdir.
    apply sum_bind_inr in Hr as (bytes & Hb & Hr). unfold read_bounded_regular in Hb.
    destruct (t !! (dir ++ [MANIFEST_FILE])) as [[b x| | |]|] eqn:Hm; try done.
    apply sum_bind_inr in Hb as ([] & _ & [= ->]). apply sum_bind_inr in Hr as (m' & Hp & Hr). sum_inv. bool_to_prop.
    match goal with Hv : verify_tree _ _ _ = _ |- _ => unfold verify_tree in Hv; rename Hv into Hvt end.
    match goal with Hd' : digests_match _ _ = true |- _ => apply digests_match_iff in Hd' as [Hsha _] end.
    apply sum_bind_inr in Hvt as (out & Hc & Hvt). apply sum_bind_inr in Hvt as ([] & Heq & Hvt).
    apply demand_inr, bool_decide_eq_true, sorted_paths in Heq. rewrite each_inr in Hvt.
    destruct (collect_inr _ _ _ _ _ Hwf Hc) as (Hplain & Hnd & Hin). cbn [app] in *.
    destruct (parse_shape_files _ _ Hp) as (_ & _ & Hconf).
    split; [done|by exists bytes, x|done| | |].
    + intros f Hf. destruct (Hconf f Hf) as [Hcf Hcan]. specialize (Hvt f Hf). apply verify_file_iff in Hvt as (b & Hb & ? & ?); [|done].
      exists b. split_and!; try done. destruct (Hplain (components (mfl_path f)) _ Hb) as [?|[_ Hu]]; [apply components_ne|done|].
      by rewrite joined_components in Hu.
    + intros r n Hr Hne. destruct (Hplain r n Hr Hne) as [->|[(b & y & ->) _]]; [by left|right].
      assert (joined_path r ∈ out) as Hro by (apply Hin; by exists r, b, y).
      assert (plain_path r) as Hpl.
      { split; [done|]. apply (wf_names t Hwf) in Hr. by apply Forall_app in Hr as [_ Hr]. }
      rewrite Heq, elem_of_app, list_elem_of_singleton, list_elem_of_fmap in Hro.
      destruct Hro as [(f & Hj & Hf)|Hj]; [right|left].
      * exists f. split; [done|]. by rewrite <-Hj, components_joined.
      * by rewrite <-(components_joined r Hpl), Hj.
    + rewrite Heq in Hnd. apply NoDup_app in Hnd as (_ & Hd' & _). intros Hf. by apply (Hd' _ Hf), list_elem_of_singleton.
  - intros [Hid Hh]. rewrite Hid. cbn [mbind sum_bind]. rewrite (hd_dir _ _ _ _ Hh). cbn [mbind sum_bind].
    destruct (hd_manifest _ _ _ _ Hh) as (bytes & x & Hm & Hp & Hsha).
    destruct (parse_shape_files _ _ Hp) as (Hlen & _ & Hconf).
    unfold read_bounded_regular. rewrite Hm, (proj2 (N.leb_le _ _) Hlen). cbn [mbind sum_bind demand].
    rewrite Hp. cbn [mbind sum_bind]. rewrite (bool_decide_true _ (hd_version _ _ _ _ Hh)).
    rewrite (proj2 (digests_match_iff _ _)) by (split; [done|]; rewrite <-Hsha; apply sha256_canonical).
    cbn [andb mbind sum_bind demand]. unfold verify_tree.
    destruct (collect_succeeds (S (tree_depth t)) t dir []) as [out Hout]; [done|lia|rewrite app_nil_r; apply (hd_dir _ _ _ _ Hh)| |].
    { intros r n Hr Hne. cbn [app] in *. destruct (hd_only _ _ _ _ Hh r n Hr Hne) as [->|[->|(f & Hf & ->)]]; [by left|right..].
      - rewrite Hm in Hr. injection Hr as <-. split; [by eexists _, _|done].
      - destruct (hd_files _ _ _ _ Hh f Hf) as (b & Hb & _ & _ & Hu). rewrite Hb in Hr. injection Hr as <-.
        rewrite joined_components. split; [by eexists _, _|done]. }
    rewrite Hout. cbn [mbind sum_bind].
    rewrite (proj2 (sorted_paths _ _) (holds_walked t dir id m out Hwf Hh (collect_inr _ _ _ _ _ Hwf Hout))).
    rewrite bool_decide_true by done. cbn [demand mbind sum_bind].
    rewrite (proj2 (each_inr _ _ tt)); [done|]. intros f Hf. apply verify_file_iff; [by apply Hconf|].
    destruct (hd_files _ _ _ _ Hh f Hf) as (b & ? & ? & ? & _). by exists b.
Qed.

End release.

(** ** Extraction *)

Section staging.
Context `{!Semver} `{!Sha256} `{!Lowercase} `{!Serde BundleManifest} `{!TarZst}.
Implicit Types (t : Tree) (m : BundleManifest) (stage : Path).

(** Only what is below the stage differs from the tree it started in. *)
Definition framed stage t0 t : Prop := well_formed t ∧ ∀ p, under stage p = None → t !! p = t0 !! p.

(** The stage holds the members so far, with the given permissions, and otherwise directories. *)
Record unpacked stage t0 (mode : string → bool) (up : Unpacked) t : Prop := {
  uk_framed : framed stage t0 t;
  uk_stage : t !! stage = Some NDir;
  uk_manifest : ∀ bytes, up_manifest up = Some bytes → t !! (stage ++ [MANIFEST_FILE]) = Some (NFile bytes false);
  uk_files : ∀ path size digest, up_extracted up !! path = Some (size, digest) →
    path ≠ MANIFEST_FILE ∧ is_utf8 path = true
    ∧ ∃ content, t !! (stage ++ components path) = Some (NFile content (mode path))
        ∧ str_len content = size ∧ sha256_bytes content = digest;
  uk_only : ∀ r n, t !! (stage ++ r) = Some n → r ≠ [] →
    n = NDir ∨ (r = [MANIFEST_FILE] ∧ is_Some (up_manifest up)) ∨ ∃ path, r = components path ∧ is_Some (up_extracted up !! path);
}.

Lemma framed_insert stage t0 t k x n :
  framed stage t0 t → is_dir t (stage ++ k) = true → plain_name x = true → (t !! (stage ++ k ++ [x]) = Some NDir → n = NDir) →
  framed stage t0 (<[stage ++ k ++ [x] := n]> t).
Proof.
  intros [Hwf Hf] Hd Hx Hn. split.
  - rewrite app_assoc in *. by apply well_formed_insert.
  - intros p Hp. rewrite lookup_insert_ne; [by apply Hf|]. intros <-. by rewrite under_app in Hp.
Qed.

Lemma unpacked_dir stage t0 mode up t k x :
  unpacked stage t0 mode up t → t !! (stage ++ k ++ [x]) = None → is_dir t (stage ++ k) = true → plain_name x = true →
  unpacked stage t0 mode up (<[stage ++ k ++ [x] := NDir]> t).
Proof.
  intros Hu Hnew Hd Hx.
  assert (∀ q n, t !! q = Some n → <[stage ++ k ++ [x] := NDir]> t !! q = Some n) as Hkeep.
  { intros q n Hq. rewrite lookup_insert_ne; [done|congruence]. }
  destruct Hu as [Hf Hs Hm Hfiles Ho]. split; [by apply framed_insert|eauto|eauto| |].
  - intros path size digest Hp. destruct (Hfiles _ _ _ Hp) as (? & ? & c & ? & ? & ?). split_and!; [done|done|]. exists c. eauto.
  - intros r n Hr Hne. destruct (decide (stage ++ k ++ [x] = stage ++ r)) as [Heq|Hner].
    + rewrite Heq, lookup_insert_eq in Hr. left. congruence.
    + rewrite lookup_insert_ne in Hr by done. by apply Ho.
Qed.

Lemma sp_make_dirs stage t0 mode up d rest : ∀ done t,
  unpacked stage t0 mode up t → is_dir t done = true → done ++ rest = stage ++ d → Forall (λ x, plain_name x = true) d →
  sp (make_dirs done rest) t (framed stage t0) (λ _ t', unpacked stage t0 mode up t' ∧ is_dir t' (stage ++ d) = true).
Proof.
  induction rest as [|x rest IH]; intros done t Hu Hd Heq Hp; cbn [make_dirs].
  { apply sp_ret. rewrite app_nil_r in Heq. by rewrite <-Heq. }
  apply (sp_bind _ _ _ _ (λ _ t', unpacked stage t0 mode up t' ∧ is_dir t' (done ++ [x]) = true)).
  - apply sp_act; [apply (uk_framed _ _ _ _ _ Hu)|]. intros [] t' Ht.
    destruct (t !! (done ++ [x])) as [[b y| | |]|] eqn:Hl; try discriminate Ht; injection Ht as <-.
    { split; [apply (uk_framed _ _ _ _ _ Hu)|]. split; [done|]. apply is_dir_true. by right. }
    assert (∃ k, done = stage ++ k ∧ plain_name x = true) as (k & -> & Hx).
    { replace (done ++ x :: rest) with ((done ++ [x]) ++ rest) in Heq by (by rewrite <-app_assoc).
      pose proof (proj1 (uk_framed _ _ _ _ _ Hu)) as Hwf.
      assert (∀ k, stage ≠ (done ++ [x]) ++ k) as Hnp.
      { intros k Hk. pose proof (uk_stage _ _ _ _ _ Hu) as Hst. rewrite Hk in Hst. destruct k as [|z k].
        - rewrite app_nil_r in Hst. congruence.
        - apply wf_between in Hst; [|done|done]. apply is_dir_true in Hst as [Hst|Hst]; [by destruct done|congruence]. }
      apply app_eq_inv in Heq as [(k & Hk & ->)|(k & Hk & _)]; [|by destruct (Hnp k)].
      destruct (snoc_cases k) as [->|(k' & z & ->)]; [destruct (Hnp []); by rewrite app_nil_r in *|].
      rewrite app_assoc in Hk. apply app_inj_tail in Hk as [-> ->]. exists k'. split; [done|].
      rewrite !Forall_app, Forall_singleton in Hp. naive_solver. }
    rewrite <-app_assoc in *. pose proof (unpacked_dir _ _ _ _ _ _ _ Hu Hl Hd Hx) as Hu'.
    split; [apply (uk_framed _ _ _ _ _ Hu')|]. split; [done|]. apply is_dir_true. right. apply lookup_insert_eq.
  - intros [] t' [Hu' Hd']. apply IH; try done. by rewrite <-app_assoc.
Qed.

(** A member's file has been created, and the tree is otherwise as before. *)
Record opened stage t0 mode up (path : string) t1 : Prop := {
  op_before : unpacked stage t0 mode up t1;
  op_confined : is_confined_relative path = true;
  op_free : t1 !! (stage ++ components path) = None;
  op_dir : is_dir t1 (take (pred (length (stage ++ components path))) (stage ++ components path)) = true;
}.

Lemma confined_snoc path : is_confined_relative path = true →
  ∃ k x, components path = k ++ [x] ∧ Forall (λ x, plain_name x = true) k ∧ plain_name x = true.
Proof.
  intros [Hne Hp]%confined_plain. destruct (snoc_cases (components path)) as [?|(k & x & Heq)]; [done|].
  exists k, x. rewrite Heq, Forall_app, Forall_singleton in Hp. naive_solver.
Qed.

Lemma opened_framed stage t0 mode up path t1 c :
  opened stage t0 mode up path t1 → framed stage t0 (<[stage ++ components path := NFile c false]> t1).
Proof.
  intros [Hu Hc Hfree Hd]. destruct (confined_snoc path Hc) as (k & x & Heq & _ & Hx). rewrite Heq in *.
  rewrite app_assoc, take_pred_snoc in Hd. apply framed_insert; [apply (uk_framed _ _ _ _ _ Hu)|done|done|congruence].
Qed.

Lemma opened_closed stage t0 mode up path t1 c up' :
  opened stage t0 mode up path t1 → mode path = false →
  (∀ bytes, up_manifest up' = Some bytes → if bool_decide (path = MANIFEST_FILE) then c = bytes else up_manifest up = Some bytes) →
  (is_Some (up_manifest up) → is_Some (up_manifest up')) →
  (path = MANIFEST_FILE → is_Some (up_manifest up') ∧ up_extracted up' = up_extracted up) →
  (path ≠ MANIFEST_FILE → is_utf8 path = true ∧ up_extracted up' = <[path := (str_len c, sha256_bytes c)]> (up_extracted up)) →
  unpacked stage t0 mode up' (<[stage ++ components path := NFile c false]> t1).
Proof.
  intros Hop Hmode Hman Hmon Hself Hother. pose proof (opened_framed _ _ _ _ _ _ c Hop) as Hfr.
  destruct Hop as [Hu Hc Hfree Hd].
  assert (∀ q n, t1 !! q = Some n → <[stage ++ components path := NFile c false]> t1 !! q = Some n) as Hkeep.
  { intros q n Hq. rewrite lookup_insert_ne; [done|congruence]. }
  destruct Hu as [Hf Hs Hm Hfiles Ho]. split; [done|eauto| | |].
  - intros bytes Hb. specialize (Hman bytes Hb). case_bool_decide as Hp; [|eauto]. subst path c.
    rewrite components_manifest. apply lookup_insert_eq.
  - intros q size digest Hq. destruct (decide (path = MANIFEST_FILE)) as [Hp|Hp].
    + destruct (Hself Hp) as [_ Hext]. rewrite Hext in Hq.
      destruct (Hfiles _ _ _ Hq) as (? & ? & b & ? & ? & ?). split_and!; [done|done|]. exists b. eauto.
    + destruct (Hother Hp) as [Hutf Hext]. rewrite Hext in Hq. destruct (decide (path = q)) as [<-|Hne].
      * rewrite lookup_insert_eq in Hq. injection Hq as <- <-. split_and!; [done|done|]. exists c.
        by rewrite lookup_insert_eq, Hmode.
      * rewrite lookup_insert_ne in Hq by done.
        destruct (Hfiles _ _ _ Hq) as (? & ? & b & ? & ? & ?). split_and!; [done|done|]. exists b. eauto.
  - intros r n Hr Hne. destruct (decide (stage ++ components path = stage ++ r)) as [Heq|Hner].
    + apply app_inv_head in Heq as <-. right. destruct (decide (path = MANIFEST_FILE)) as [Hp|Hp].
      * left. destruct (Hself Hp) as [? _]. by subst path.
      * right. exists path. destruct (Hother Hp) as [_ Hext]. rewrite Hext, lookup_insert_eq. split; [done|by eexists].
    + rewrite lookup_insert_ne in Hr by done. destruct (Ho r n Hr Hne) as [?|[[? ?]|(q & ? & Hq)]]; [by left|by right; left; auto|].
      right; right. exists q. split; [done|]. destruct (decide (path = MANIFEST_FILE)) as [Hp|Hp].
      * destruct (Hself Hp) as [_ Hext]. by rewrite Hext.
      * destruct (Hother Hp) as [_ Hext]. rewrite Hext. apply lookup_insert_is_Some'. by right.
Qed.

(** Steps that leave the tree alone. *)
Lemma sp_from_archive {A B} (r : io_error + A) (f : A → FS InstallError B) t (I : Tree → Prop) (P : B → Tree → Prop) :
  I t → (∀ a, r = inr a → sp (f a) t I P) → sp (from_archive r ≫= f) t I P.
Proof.
  intros HI HP. apply (sp_bind _ _ _ _ (λ a t', t' = t ∧ r = inr a)); [|intros a t' [-> ?]; by apply HP].
  intros s <-. unfold from_archive.
  assert (fs_tree (next_read s).2 = fs_tree s) as Hn by (unfold next_read; by destruct (fs_reads s)).
  destruct (next_read s) as [[] s1]; simpl in *; rewrite ?Hn; try done; destruct r; simpl; rewrite ?Hn; auto.
Qed.

Lemma sp_require {B} b message (f : unit → FS InstallError B) t (I : Tree → Prop) (P : B → Tree → Prop) :
  I t → (b = true → sp (f tt) t I P) → sp (require b message ≫= f) t I P.
Proof.
  intros HI HP. apply (sp_bind _ _ _ _ (λ _ t', t' = t ∧ b = true)); [|intros [] t' [-> ?]; by apply HP].
  unfold require. destruct b; [by apply sp_ret|by apply sp_raise].
Qed.

Lemma sp_guard {A B} (r : InstallError + A) (f : A → FS InstallError B) t (I : Tree → Prop) (P : B → Tree → Prop) :
  I t → (∀ a, r = inr a → sp (f a) t I P) → sp (of_sum r ≫= f) t I P.
Proof.
  intros HI HP. apply (sp_bind _ _ _ _ (λ a t', t' = t ∧ r = inr a)); [|intros a t' [-> ?]; by apply HP].
  by apply sp_of_sum.
Qed.

Lemma sp_synced {B} (f : unit → FS InstallError B) t (I : Tree → Prop) (P : B → Tree → Prop) :
  I t → sp (f tt) t I P → sp (storage sync ≫= f) t I P.
Proof.
  intros HI HP. apply (sp_bind _ _ _ _ (λ _ t', t' = t)); [by apply sp_with_error, sp_sync|by intros [] t' ->].
Qed.

Lemma sp_copy_member stage t0 mode up path t1 body : ∀ content written,
  opened stage t0 mode up path t1 → (written = str_len content)%N →
  sp (copy_member (stage ++ components path) body content written)
    (<[stage ++ components path := NFile content false]> t1) (framed stage t0)
    (λ r t', t' = <[stage ++ components path := NFile r.1 false]> t1 ∧ (r.2 = str_len r.1)%N).
Proof.
  induction body as [|next body IH]; intros content written Hop Hw; cbn [copy_member];
    pose proof (opened_framed _ _ _ _ _ _ content Hop) as Hfr.
  - apply sp_from_archive; [done|]. intros [] _. by apply sp_ret.
  - apply sp_from_archive; [done|]. intros chunk _. case_bool_decide as Hc; [by apply sp_ret|].
    apply (sp_bind _ _ _ _ (λ _ t', t' = <[stage ++ components path := NFile (String.append content chunk) false]> t1)).
    + apply sp_with_error, sp_act; [done|]. rewrite lookup_insert_eq. intros [] t' [= <-]. rewrite insert_insert_eq.
      split; [by eapply opened_framed|done].
    + intros [] t' ->. destruct (checked_add _ _ _) as [w|] eqn:Hadd.
      * apply IH; [done|]. apply checked_add_Some in Hadd as [-> _]. rewrite str_len_app. lia.
      * apply sp_raise. by eapply opened_framed.
Qed.

(** What a reader of a member's body gets to its end. *)
Fixpoint body_bytes (body : list (io_error + string)) : option string :=
  match body with
  | [] => Some EmptyString
  | inl _ :: _ => None
  | inr chunk :: body =>
      if bool_decide (chunk = EmptyString) then Some EmptyString else String.append chunk <$> body_bytes body
  end.

Lemma sp_read_to_end body : ∀ content t (I : Tree → Prop), I t →
  sp (read_to_end body content) t I (λ bytes t', t' = t ∧ ∃ rest, body_bytes body = Some rest ∧ bytes = String.append content rest).
Proof.
  induction body as [|next body IH]; intros content t I HI; cbn [read_to_end body_bytes].
  - apply sp_from_archive; [done|]. intros [] _. apply sp_ret. split; [done|]. exists EmptyString. by rewrite append_empty_r.
  - apply sp_from_archive; [done|]. intros chunk ->. case_bool_decide as Hc.
    { apply sp_ret. split; [done|]. exists EmptyString. by rewrite append_empty_r. }
    eapply sp_mono; [by apply IH|done|]. intros bytes t' (-> & rest & Hr & ->). split; [done|].
    exists (String.append chunk rest). rewrite Hr. split; [done|]. by rewrite append_assoc.
Qed.

(** The manifest of an archive: its member of that name. *)
Definition member_manifest (mb : Member) : option string :=
  match mb_path mb with
  | inr path => if bool_decide (path = MANIFEST_FILE) then body_bytes (mb_body mb) else None
  | inl _ => None
  end.

Definition manifest_among (entries : list (io_error + Member)) : option string :=
  head (omap (λ entry, match entry with inr mb => member_manifest mb | inl _ => None end) entries).

Definition archive_manifest (archive : string) : option string :=
  match decode_archive archive with inr entries => manifest_among entries | inl _ => None end.

Lemma sp_admit_member limits up mb t (I : Tree → Prop) :
  I t → sp (admit_member limits up mb) t I (λ r t', t' = t ∧ is_utf8 r.1 = true ∧ is_confined_relative r.1 = true
    ∧ mb_path mb = inr r.1).
Proof.
  intros HI. unfold admit_member. apply sp_require; [done|]. intros _. apply sp_from_archive; [done|]. intros path Hpath.
  apply sp_require; [done|]. intros Hu. apply sp_guard; [done|]. intros [] Hv%map_err_inr.
  apply validate_relative_inr in Hv as [_ Hc]. apply sp_require; [done|]. intros _. apply sp_require; [done|]. intros _.
  apply sp_guard; [done|]. intros expanded _. apply sp_require; [done|]. intros _. by apply sp_ret.
Qed.

Lemma sp_unpack_member stage t0 limits up mb t :
  unpacked stage t0 (λ _, false) up t →
  sp (unpack_member stage limits up mb) t (framed stage t0) (λ up' t', unpacked stage t0 (λ _, false) up' t'
    ∧ up_manifest up' = match up_manifest up with Some bytes => Some bytes | None => member_manifest mb end).
Proof.
  intros Hu. unfold unpack_member. pose proof (uk_framed _ _ _ _ _ Hu) as Hfr.
  eapply sp_bind; [by apply sp_admit_member|]. intros [path expanded] t' (-> & Hutf & Hc & Hpath). simpl in *.
  destruct (confined_snoc path Hc) as (k & x & Heq & Hk & Hx).
  eapply sp_bind.
  { apply sp_with_error. unfold create_dir_all.
    assert (take (pred (length (stage ++ components path))) (stage ++ components path) = stage ++ k) as ->
      by (by rewrite Heq, app_assoc, take_pred_snoc).
    by apply (sp_make_dirs stage t0 (λ _, false) up k (stage ++ k) [] t). }
  intros [] t1 [Hu1 Hd1]. apply (sp_bind _ _ _ _ (λ _ t', opened stage t0 (λ _, false) up path t1
    ∧ t' = <[stage ++ components path := NFile EmptyString false]> t1)).
  { apply sp_with_error, sp_act; [apply (uk_framed _ _ _ _ _ Hu1)|]. intros [] t'.
    destruct (t1 !! (stage ++ components path)) eqn:Hfree; [done|].
    destruct (is_dir t1 (take _ _)) eqn:Hd; [|done]. intros [= <-].
    assert (opened stage t0 (λ _, false) up path t1) as Hop by done. split; [by eapply opened_framed|done]. }
  intros [] t' [Hop ->]. pose proof (opened_framed _ _ _ _ _ _ EmptyString Hop) as Hfr1.
  case_bool_decide as Hman.
  - apply sp_require; [done|]. intros _. eapply sp_bind; [by apply sp_read_to_end|]. intros bytes t' (-> & rest & Hbody & ->).
    cbn [String.append]. set (bytes := rest) in *. apply sp_require; [done|]. intros _.
    apply (sp_bind _ _ _ _ (λ _ t', t' = <[stage ++ components path := NFile bytes false]> t1)).
    { apply sp_with_error, sp_act; [done|]. rewrite lookup_insert_eq. intros [] t' [= <-]. rewrite insert_insert_eq.
      split; [by eapply opened_framed|done]. }
    intros [] t' ->. apply sp_synced; [by eapply opened_framed|]. apply sp_ret. split.
    + eapply opened_closed; [done|done| |by eexists|by intros _|done]. intros b [= <-]. by rewrite bool_decide_true.
    + unfold member_manifest. rewrite Hpath, bool_decide_true, Hbody by done. cbn [up_manifest].
      destruct (up_manifest up) as [b|] eqn:Hb; [|done]. exfalso. subst path.
      pose proof (uk_manifest _ _ _ _ _ (op_before _ _ _ _ _ _ Hop) b Hb) as Hthere.
      pose proof (op_free _ _ _ _ _ _ Hop) as Hfree. rewrite components_manifest in Hfree. congruence.
  - eapply sp_bind; [by apply (sp_copy_member stage t0 (λ _, false) up path t1)|]. intros [content written] t' [-> Hw]. simpl in *.
    apply sp_require; [by eapply opened_framed|]. intros Hsize%N.eqb_eq. apply sp_synced; [by eapply opened_framed|].
    apply sp_ret. split; [eapply opened_closed; [done|done| |done|done|]|].
    + intros b Hb. by rewrite bool_decide_false.
    + intros _. split; [done|]. by rewrite <-Hsize, Hw.
    + unfold member_manifest. rewrite Hpath, bool_decide_false by done. cbn [up_manifest]. by destruct (up_manifest up).
Qed.

Lemma sp_unpack_all stage t0 limits entries : ∀ up t,
  unpacked stage t0 (λ _, false) up t →
  sp (unpack_all stage limits up entries) t (framed stage t0) (λ up' t', unpacked stage t0 (λ _, false) up' t'
    ∧ up_manifest up' = match up_manifest up with Some bytes => Some bytes | None => manifest_among entries end).
Proof.
  induction entries as [|entry entries IH]; intros up t Hu; cbn [unpack_all];
    pose proof (uk_framed _ _ _ _ _ Hu) as Hfr.
  - apply sp_from_archive; [done|]. intros [] _. apply sp_ret. split; [done|]. by destruct (up_manifest up).
  - apply sp_from_archive; [done|]. intros mb ->. eapply sp_bind; [by apply sp_unpack_member|]. intros up' t' [Hu' Hm'].
    eapply sp_mono; [by apply IH|done|]. intros up'' t'' [? Hm'']. split; [done|]. rewrite Hm'', Hm'.
    unfold manifest_among. cbn [omap list_omap]. by destruct (up_manifest up), (member_manifest mb).
Qed.

Lemma unpacked_mode stage t0 mode up t path size digest c x b :
  unpacked stage t0 mode up t → up_extracted up !! path = Some (size, digest) →
  t !! (stage ++ components path) = Some (NFile c x) →
  unpacked stage t0 (λ q, if bool_decide (q = path) then b else mode q) up (<[stage ++ components path := NFile c b]> t).
Proof.
  intros [Hf Hs Hm Hfiles Ho] Hp Hc.
  destruct (Hfiles _ _ _ Hp) as (Hpm & _ & c' & Hc' & Hlen & Hdig). rewrite Hc in Hc'. injection Hc' as <- ->.
  assert (∀ r, components path ≠ r → <[stage ++ components path := NFile c b]> t !! (stage ++ r) = t !! (stage ++ r)) as Hother.
  { intros r Hr. apply lookup_insert_ne. intros Heq%app_inv_head. done. }
  split.
  - destruct Hf as [Hwf Hf]. split; [by eapply well_formed_update|]. intros p Hu. rewrite lookup_insert_ne; [by apply Hf|].
    intros <-. by rewrite under_app in Hu.
  - pose proof (Hother [] (components_ne path)) as Hst. rewrite app_nil_r in Hst. by rewrite Hst.
  - intros bytes Hb. rewrite Hother; [by apply Hm|]. intros Heq. apply Hpm. by rewrite <-(joined_components path), Heq.
  - intros q sz dg Hq. destruct (Hfiles _ _ _ Hq) as (? & ? & b' & Hb & Hl & Hd). split_and!; [done|done|].
    case_bool_decide as Hqp.
    + subst q. exists c. rewrite lookup_insert_eq. by rewrite Hp in Hq; simplify_eq/=.
    + exists b'. rewrite Hother; [done|]. by intros Heq%components_inj.
  - intros r n Hr Hne. destruct (decide (components path = r)) as [<-|Hner].
    + right. right. exists path. split; [done|by eexists].
    + rewrite Hother in Hr by done. by apply Ho.
Qed.

Definition matches (extracted : gmap string (N * string)) (f : ManifestFile) : Prop :=
  extracted !! mfl_path f = Some (mfl_size f, mfl_sha256 f).

Lemma sp_settle_all stage t0 up files : ∀ mode t,
  unpacked stage t0 mode up t → NoDup (mfl_path <$> files) →
  sp (settle_all stage (up_extracted up) files) t (framed stage t0) (λ _ t', ∃ mode',
    unpacked stage t0 mode' up t' ∧ (∀ f, f ∈ files → mode' (mfl_path f) = mfl_executable f ∧ matches (up_extracted up) f)
    ∧ ∀ q, q ∉ mfl_path <$> files → mode' q = mode q).
Proof.
  induction files as [|f files IH]; intros mode t Hu Hnd; cbn [settle_all].
  { apply sp_ret. exists mode. split_and!; [done| |done]. by intros f ?%not_elem_of_nil. }
  rewrite fmap_cons in Hnd. apply NoDup_cons in Hnd as [Hni Hnd]. pose proof (uk_framed _ _ _ _ _ Hu) as Hfr.
  apply (sp_bind _ _ _ _ (λ _ t', matches (up_extracted up) f
    ∧ unpacked stage t0 (λ q, if bool_decide (q = mfl_path f) then mfl_executable f else mode q) up t')).
  - unfold settle_member. apply sp_require; [done|]. intros Hmatch.
    destruct (up_extracted up !! mfl_path f) as [[size digest]|] eqn:Hp; [|done].
    apply andb_true_iff in Hmatch as [Hs%N.eqb_eq [Hd _]%digests_match_iff]. subst size digest.
    destruct (uk_files _ _ _ _ _ Hu _ _ _ Hp) as (_ & _ & c & Hc & _).
    apply sp_with_error, sp_act; [done|]. rewrite Hc. intros [] t' [= <-].
    pose proof (unpacked_mode _ _ _ _ _ _ _ _ _ _ (mfl_executable f) Hu Hp Hc) as Hu'.
    split; [apply (uk_framed _ _ _ _ _ Hu')|done].
  - intros [] t' [Hmatch Hu']. eapply sp_mono; [by apply IH|done|]. intros [] t'' (mode' & Hu'' & Hall & Hrest). exists mode'.
    split_and!; [done| |].
    + intros g [->|Hg]%elem_of_cons; [|by apply Hall]. split; [|done]. rewrite Hrest by done. by rewrite bool_decide_true.
    + intros q Hq. rewrite fmap_cons, not_elem_of_cons in Hq. destruct Hq as [Hq1 Hq2]. rewrite Hrest by done.
      by rewrite bool_decide_false.
Qed.


Lemma declared_all (extracted : gmap string (N * string)) files :
  NoDup (mfl_path <$> files) → (∀ f, f ∈ files → matches extracted f) → size extracted = length files →
  ∀ path, is_Some (extracted !! path) → ∃ f, f ∈ files ∧ path = mfl_path f.
Proof.
  intros Hnd Hall Hsize path Hp.
  assert (list_to_set (mfl_path <$> files) = dom extracted) as Hdom.
  { apply set_subseteq_size_eq.
    - intros q Hq%elem_of_list_to_set. apply list_elem_of_fmap in Hq as (f & -> & Hf). apply elem_of_dom. rewrite (Hall f Hf). by eexists.
    - rewrite size_list_to_set, length_fmap, size_dom by done. lia. }
  apply elem_of_dom in Hp. rewrite <-Hdom, elem_of_list_to_set, list_elem_of_fmap in Hp. destruct Hp as (f & -> & Hf). eauto.
Qed.

(** The identity an archive's own manifest gives it. *)
Definition identified (archive : string) (expected : ExpectedBundle) (id : ReleaseId) m : Prop :=
  ∃ bytes, archive_manifest archive = Some bytes ∧ parse_manifest bytes expected = inr m ∧ id = manifest_id m bytes.

Lemma sp_extract archive stage t0 t expected limits :
  unpacked stage t0 (λ _, false) (mkUnpacked None ∅ 0 0) t →
  sp (extract archive stage expected limits) t (framed stage t0) (λ r t',
    framed stage t0 t' ∧ archive_manifest archive = Some r.2 ∧ parse_manifest r.2 expected = inr r.1
    ∧ holds t' stage (manifest_id r.1 r.2) r.1).
Proof.
  intros Hu. pose proof (uk_framed _ _ _ _ _ Hu) as Hfr. unfold extract.
  apply sp_from_archive; [done|]. intros entries Hentries.
  eapply sp_bind; [by apply sp_unpack_all|]. intros up t1 [Hu1 Hman]. cbn [up_manifest] in Hman. pose proof (uk_framed _ _ _ _ _ Hu1) as Hfr1.
  apply sp_guard; [done|]. intros bytes Hb%ok_or_inr. apply sp_guard; [done|]. intros m Hp%map_err_inr.
  apply sp_require; [done|]. intros Hsize%bool_decide_eq_true.
  assert (parse_shape bytes = inr m) as Hshape by (unfold parse_manifest in Hp; sum_inv; by simplify_eq/=).
  destruct (parse_shape_files _ _ Hshape) as (_ & Hnd & Hconf).
  eapply sp_bind; [by apply sp_settle_all|]. intros [] t2 (mode & Hu2 & Hall & _). apply sp_ret. simpl.
  pose proof (declared_all _ _ Hnd (λ f Hf, proj2 (Hall f Hf)) Hsize) as Hdecl.
  split_and!; [apply (uk_framed _ _ _ _ _ Hu2)|unfold archive_manifest; rewrite Hentries; congruence|done|]. split.
  - apply (uk_stage _ _ _ _ _ Hu2).
  - exists bytes, false. split_and!; [by apply (uk_manifest _ _ _ _ _ Hu2)|done|done].
  - done.
  - intros f Hf. destruct (Hall f Hf) as [Hmode Hmatch].
    destruct (uk_files _ _ _ _ _ Hu2 _ _ _ Hmatch) as (_ & Hutf & c & Hc & Hlen & Hsha). exists c. by rewrite <-Hmode.
  - intros r n Hr Hne. destruct (uk_only _ _ _ _ _ Hu2 r n Hr Hne) as [?|[[-> _]|(path & -> & Hpath)]]; [by left|by right; left|].
    right; right. destruct (Hdecl path Hpath) as (f & ? & ->). eauto.
  - intros (f & Heq & Hf)%list_elem_of_fmap. destruct (Hall f Hf) as [_ Hmatch].
    by destruct (uk_files _ _ _ _ _ Hu2 _ _ _ Hmatch) as (? & _).
Qed.

(** ** Publication *)

(** Semantic versions are written without separators. *)
Class SemverText : Prop := semver_plain : ∀ v, semver_parses v = true → plain_name v = true.
Context `{!SemverText}.

Lemma directory_name_plain id : ReleaseId_validate id = Ok tt → plain_name (directory_name id) = true.
Proof.
  unfold ReleaseId_validate. intros Hv. result_inv. unfold is_release_version in *. bool_to_prop.
  match goal with Hv : semver_parses _ = true |- _ => apply semver_plain, plain_name_iff in Hv as [Hne Hs] end.
  unfold directory_name. apply plain_name_iff. split; [by destruct (version id)|]. rewrite !string_forallb_app, Hs. cbn [string_forallb andb].
  match goal with Hc : is_canonical_sha256 _ = true |- _ => unfold is_canonical_sha256 in Hc; apply andb_true_iff in Hc as [_ Hc];
    eapply string_forallb_impl; [|exact Hc] end.
  intros c Hc. apply negb_true_iff, bool_decide_eq_false. intros ->. discriminate Hc.
Qed.

Lemma identified_valid archive expected id m : identified archive expected id m → ReleaseId_validate id = Ok tt.
Proof.
  intros (bytes & _ & Hp & ->). unfold parse_manifest in Hp. sum_inv. simplify_eq/=.
  match goal with Hs : parse_shape _ = _ |- _ => unfold parse_shape in Hs end. sum_inv. simplify_eq/=.
  match goal with Hv : validate_shape _ = _ |- _ => unfold validate_shape in Hv end. sum_inv.
  match goal with Hv : validate_version _ = _ |- _ => unfold validate_version in Hv; apply demand_inr in Hv end.
  unfold ReleaseId_validate, manifest_id. simpl. result_ok done. simpl. by rewrite sha256_canonical.
Qed.

(** What happened to the release directory: what is there was there, or it holds the release. *)
Definition whole dest id t1 t : Prop :=
  (∀ r n, t !! (dest ++ r) = Some n → t1 !! (dest ++ r) = Some n) ∨ ∃ m, holds t dest id m.

Definition published stage dest id t1 t : Prop :=
  well_formed t ∧ (∀ p, under stage p = None → under dest p = None → t !! p = t1 !! p) ∧ whole dest id t1 t.

Lemma apart_under stage dest r :
  (∀ r, stage ≠ dest ++ r) → (∀ r, dest ≠ stage ++ r) → under stage (dest ++ r) = None.
Proof.
  intros Hsd Hds. apply under_None. intros k Hk. apply app_eq_inv in Hk as [(k' & Hk & _)|(k' & Hk & _)]; [by apply (Hds k')|by apply (Hsd k')].
Qed.

Lemma published_remove stage dest id t1 t t' :
  (∀ r, stage ≠ dest ++ r) → (∀ r, dest ≠ stage ++ r) → published stage dest id t1 t → well_formed t' →
  (∀ p, under stage p = None → t' !! p = t !! p) → published stage dest id t1 t'.
Proof.
  intros Hsd Hds (Hwf & Hf & Hw) Hwf' Hsame. split_and!; [done| |].
  - intros p Hp Hd. rewrite Hsame by done. by apply Hf.
  - assert (∀ r, t' !! (dest ++ r) = t !! (dest ++ r)) as Heq by (intros r; by apply Hsame, apart_under).
    destruct Hw as [Hr|[m Hh]]; [left; intros r n; rewrite Heq; apply Hr|right].
    exists m. eapply holds_ext; [|exact Hh]. intros r. by rewrite Heq.
Qed.

Lemma holds_release t root id m : well_formed t → read_release t root id = inr m → holds t (root ++ [directory_name id]) id m.
Proof. intros Hwf Hr. by apply read_release_iff in Hr as [_ ?]. Qed.

Lemma sp_publish_stage archive stage versions id expected m t1 t :
  let dest := versions ++ [directory_name id] in
  (∀ r, stage ≠ dest ++ r) → (∀ r, dest ≠ stage ++ r) → identified archive expected id m →
  framed stage t1 t → holds t stage id m →
  sp (publish_stage stage versions id) t (published stage dest id t1)
    (λ id' t', id' = id ∧ published stage dest id t1 t' ∧ ∃ m', holds t' dest id m').
Proof.
  intros dest Hsd Hds Hid [Hwf Hf] Hh. pose proof (identified_valid _ _ _ _ Hid) as Hvalid. unfold publish_stage. fold dest.
  assert (∀ t', well_formed t' → (∀ p, under dest p = None → t' !! p = t !! p) →
    (∀ r n, t' !! (dest ++ r) = Some n → t !! (dest ++ r) = Some n) → published stage dest id t1 t') as Hrem.
  { intros t' Hwf' Hout Hin. split_and!; [done|intros p Hp Hd; rewrite Hout by done; by apply Hf|left].
    intros r n Hr%Hin. rewrite <-Hr. symmetry. by apply Hf, apart_under. }
  assert (published stage dest id t1 t) as Hstart by (by apply Hrem).
  apply (sp_bind _ _ _ _ (λ _ t', t' = t)); [apply sp_with_error, sp_observe; [done|by intros]|]. intros occupied t' ->.
  apply (sp_bind _ _ _ _ (λ reusable t', t' = t ∧ (reusable = true → ∃ m', holds t dest id m'))).
  { destruct occupied; [|by apply sp_ret]. intros s <-. unfold succeeded, storage, with_error, observe, act.
    pose proof (next_fault_tree s) as Hn. destruct (next_fault s) as [[|e|after] s1]; simpl in *; rewrite ?Hn.
    - destruct (read_release (fs_tree s) versions id) as [e|m'] eqn:Hr; simpl; rewrite ?Hn; [done|].
      split; [done|]. intros _. exists m'. by apply holds_release.
    - done.
    - destruct (read_release (fs_tree s) versions id); destruct after; simpl; by rewrite ?Hn. }
  intros reusable t' [-> Hreuse]. destruct reusable; [apply sp_ret; by split_and!; [..|apply Hreuse]|].
  apply (sp_bind _ _ _ _ (λ _ t', well_formed t' ∧ (∀ p, under dest p = None → t' !! p = t !! p)
    ∧ ∀ r n, t' !! (dest ++ r) = Some n → t !! (dest ++ r) = Some n)).
  { destruct occupied; [|by apply sp_ret].
    apply (sp_bind _ _ _ _ (λ _ t', well_formed t' ∧ (∀ p, under dest p = None → t' !! p = t !! p)
      ∧ ∀ r n, t' !! (dest ++ r) = Some n → t !! (dest ++ r) = Some n)).
    - apply sp_ignore, sp_with_error, sp_remove_path.
      + intros keeps. assert (well_formed (remove_some keeps dest t)) by (by apply well_formed_remove_some).
        assert (∀ p, under dest p = None → remove_some keeps dest t !! p = t !! p) by (intros; by apply lookup_remove_some_out).
        assert (∀ r n, remove_some keeps dest t !! (dest ++ r) = Some n → t !! (dest ++ r) = Some n)
          by (intros r n; apply lookup_remove_some).
        split; [by apply Hrem|done].
      + split_and!; [by apply well_formed_remove_all| |].
        * intros p Hp. by rewrite lookup_remove_all, Hp.
        * intros r n. by rewrite lookup_remove_all, under_app.
    - intros [] t' (Hwf' & Hout & Hin). apply sp_with_error, sp_sync; [by apply Hrem|done]. }
  intros [] t2 (Hwf2 & Hout2 & Hin2). pose proof (Hrem t2 Hwf2 Hout2 Hin2) as Hpub2.
  apply sp_synced; [done|].
  assert (∀ r, t !! (stage ++ r) = t2 !! (stage ++ r)) as Hstage by (intros r; symmetry; by apply Hout2, apart_under).
  apply (sp_bind _ _ _ _ (λ _ t', t' = rename_tree stage dest t2 ∧ published stage dest id t1 t')).
  { apply sp_with_error, sp_act; [done|]. intros [] t' Hren.
    assert (t' = rename_tree stage dest t2 ∧ is_dir t2 versions = true) as [-> Hvd].
    { unfold dest in Hren. rewrite take_pred_snoc in Hren. fold dest in Hren.
      destruct (is_dir t2 versions); [|by rewrite orb_true_r in Hren]. destruct (is_dir t2 stage); [|done]. cbn in Hren.
      destruct (t2 !! dest) as [[]|]; try discriminate Hren; [case_bool_decide; [|done]|]; by injection Hren as <-. }
    assert (t2 !! stage = Some NDir) as Hst.
    { specialize (Hstage []). rewrite app_nil_r in Hstage. rewrite <-Hstage. apply (hd_dir _ _ _ _ Hh). }
    assert (published stage dest id t1 (rename_tree stage dest t2)) as Hpub; [|done]. split_and!.
    - apply well_formed_rename; try done. by apply directory_name_plain.
    - intros p Hp Hd. rewrite lookup_rename, Hd, Hp by done. rewrite Hout2 by done. by apply Hf.
    - right. exists m. eapply holds_ext; [|exact Hh]. intros r. by rewrite lookup_rename, under_app by done. }
  intros [] t3 [-> Hpub3]. apply sp_synced; [done|].
  apply (sp_bind _ _ _ _ (λ _ t', t' = rename_tree stage dest t2 ∧ ∃ m', holds t' dest id m')).
  { apply sp_with_error, sp_observe; [done|]. intros m' Hr. split; [done|]. exists m'. apply holds_release; [apply Hpub3|done]. }
  intros m' t' [-> Hm']. apply sp_ret. by split_and!.
Qed.

(** ** The whole of staging *)

(** Directories were added along some paths, and nothing else changed. *)
Definition grown (along : Path → Prop) t0 t : Prop :=
  well_formed t ∧ ∀ p, t !! p = t0 !! p ∨ along p ∧ t0 !! p = None ∧ t !! p = Some NDir.

Lemma grown_dir along t0 t p x :
  grown along t0 t → is_dir t p = true → plain_name x = true → t !! (p ++ [x]) = None → along (p ++ [x]) →
  grown along t0 (<[p ++ [x] := NDir]> t).
Proof.
  intros [Hwf Hg] Hd Hx Hn Ha. split; [by apply well_formed_insert|]. intros q. destruct (decide (p ++ [x] = q)) as [<-|Hne].
  - right. rewrite lookup_insert_eq. destruct (Hg (p ++ [x])) as [Heq|(_ & _ & Heq)]; [by rewrite <-Heq|congruence].
  - rewrite lookup_insert_ne by done. apply Hg.
Qed.

Lemma sp_grow (along : Path → Prop) t0 rest : ∀ done t,
  grown along t0 t → is_dir t done = true → Forall (λ x, plain_name x = true) rest →
  (∀ p k, done ++ rest = p ++ k → p ≠ [] → along p) →
  sp (make_dirs done rest) t (grown along t0) (λ _ t', grown along t0 t' ∧ is_dir t' (done ++ rest) = true).
Proof.
  induction rest as [|x rest IH]; intros done t Hg Hd Hp Ha; cbn [make_dirs].
  { apply sp_ret. by rewrite app_nil_r. }
  apply Forall_cons in Hp as [Hx Hp].
  apply (sp_bind _ _ _ _ (λ _ t', grown along t0 t' ∧ is_dir t' (done ++ [x]) = true)).
  - apply sp_act; [done|]. intros [] t'. destruct (t !! (done ++ [x])) as [[]|] eqn:Hl; try done; intros [= <-].
    + split; [done|]. split; [done|]. apply is_dir_true. by right.
    + assert (grown along t0 (<[done ++ [x] := NDir]> t)) as Hg'.
      { apply grown_dir; try done. apply (Ha _ rest); [by rewrite <-app_assoc|by destruct done]. }
      split; [done|]. split; [done|]. apply is_dir_true. right. apply lookup_insert_eq.
  - intros [] t' [Hg' Hd']. eapply sp_mono; [apply (IH (done ++ [x])); try done| |].
    + intros p k Hpk. apply (Ha p k). by rewrite <-Hpk, <-app_assoc.
    + done.
    + intros [] t'' [? Hd'']. split; [done|]. by rewrite <-app_assoc in Hd''.
Qed.

Lemma sp_ensure_real_directory {B} (along : Path → Prop) t0 root t (f : unit → FS InstallError B) (I : Tree → Prop) P :
  grown along t0 t → Forall (λ x, plain_name x = true) root → (∀ p k, root = p ++ k → p ≠ [] → along p) →
  (∀ t', grown along t0 t' → I t') → (∀ t', grown along t0 t' → is_dir t' root = true → sp (f tt) t' I P) →
  sp (storage (ensure_real_directory root) ≫= f) t I P.
Proof.
  intros Hg Hp Ha HI HP. apply (sp_bind _ _ _ _ (λ _ t', grown along t0 t' ∧ is_dir t' root = true)).
  - apply sp_with_error. unfold ensure_real_directory.
    apply (sp_bind _ _ _ _ (λ _ t', grown along t0 t' ∧ is_dir t' root = true)).
    + eapply sp_mono; [apply (sp_grow along t0 root [] t); done|done|done].
    + intros [] t' [Hg' Hd]. apply sp_observe; [by apply HI|]. intros [] _. done.
  - intros [] t' [Hg' Hd]. by apply HP.
Qed.

Lemma under_refl (d : Path) : under d d = Some [].
Proof. apply under_Some. by rewrite app_nil_r. Qed.

Lemma nothing_below t staging name r :
  well_formed t → t !! (staging ++ [name]) = None → r ≠ [] → <[staging ++ [name] := NDir]> t !! ((staging ++ [name]) ++ r) = None.
Proof.
  intros Hwf Hfree Hne. rewrite lookup_insert_ne.
  2:{ intros Heq. apply Hne. symmetry. apply (app_inv_head (staging ++ [name])). by rewrite app_nil_r. }
  destruct (t !! ((staging ++ [name]) ++ r)) as [n|] eqn:Hr; [|done]. apply wf_between in Hr; [|done|done].
  apply is_dir_true in Hr as [Hr|Hr]; [by destruct staging|congruence].
Qed.

Lemma fresh_stage t name staging :
  well_formed t → is_dir t staging = true → plain_name name = true → t !! (staging ++ [name]) = None →
  unpacked (staging ++ [name]) t (λ _, false) (mkUnpacked None ∅ 0 0) (<[staging ++ [name] := NDir]> t).
Proof.
  intros Hwf Hd Hn Hfree. split.
  - split; [by apply well_formed_insert|]. intros p Hp. rewrite lookup_insert_ne; [done|]. intros <-.
    by rewrite under_refl in Hp.
  - apply lookup_insert_eq.
  - done.
  - done.
  - intros r n Hr Hne. by rewrite nothing_below in Hr.
Qed.

(** Where a path may have changed: along the two storage roots, which are created when they are
    missing, below the claimed stage, and below one release directory. *)
Definition touched (claim : io_error + string) (staging versions dest : Path) t t' (p : Path) : Prop :=
  t' !! p = t !! p
  ∨ ((∃ k, staging = p ++ k) ∨ ∃ k, versions = p ++ k) ∧ t !! p = None ∧ t' !! p = Some NDir
  ∨ (∃ name, claim = inr name ∧ is_Some (under (staging ++ [name]) p))
  ∨ is_Some (under dest p).

Definition landed claim staging versions t id t' : Prop :=
  well_formed t' ∧ (∀ p, touched claim staging versions (versions ++ [directory_name id]) t t' p)
  ∧ whole (versions ++ [directory_name id]) id t t'.

(** The two storage roots lie side by side. *)
Definition apart (a b : Path) : Prop := (∀ k, a ≠ b ++ k) ∧ ∀ k, b ≠ a ++ k.

Lemma apart_below a b x y : apart a b → (∀ k, a ++ [x] ≠ (b ++ [y]) ++ k) ∧ ∀ k, b ++ [y] ≠ (a ++ [x]) ++ k.
Proof.
  intros [Hab Hba]. split; intros k Hk; rewrite <-app_assoc in Hk;
    apply app_eq_inv in Hk as [(k' & Hk & _)|(k' & Hk & _)]; exact (Hab _ Hk) || exact (Hba _ Hk).
Qed.

Lemma grown_landed claim staging versions t t' id :
  apart staging versions →
  grown (λ p, (∃ k, staging = p ++ k) ∨ ∃ k, versions = p ++ k) t t' → landed claim staging versions t id t'.
Proof.
  intros [Hsv Hvs] [Hwf Hg]. split_and!; [done| |].
  - intros p. destruct (Hg p) as [?|?]; [by left|by right; left].
  - left. intros r n Hr. destruct (Hg ((versions ++ [directory_name id]) ++ r)) as [Heq|([[k Hk]|[k Hk]] & _)]; [congruence|..].
    + exfalso. apply (Hsv ([directory_name id] ++ r ++ k)). by rewrite Hk, <-!app_assoc.
    + exfalso. apply (f_equal length) in Hk. rewrite !length_app in Hk. simpl in Hk. lia.
Qed.

Lemma published_landed claim staging versions t t1 t' name id :
  apart staging versions → claim = inr name →
  grown (λ p, (∃ k, staging = p ++ k) ∨ ∃ k, versions = p ++ k) t t1 →
  published (staging ++ [name]) (versions ++ [directory_name id]) id t1 t' → landed claim staging versions t id t'.
Proof.
  intros Hap Hc Hg (Hwf & Hf & Hw). pose proof (grown_landed claim staging versions t t1 id Hap Hg) as (_ & Ht & Hw1).
  split_and!; [done| |].
  - intros p. destruct (under (staging ++ [name]) p) as [r|] eqn:Hu; [right; right; left; exists name; by rewrite Hu|].
    destruct (under (versions ++ [directory_name id]) p) eqn:Hv; [right; right; right; by rewrite Hv|].
    unfold touched. rewrite (Hf p Hu Hv). apply Ht.
  - destruct Hw as [Hr|?]; [|by right]. left. intros r n Hn%Hr. destruct Hg as [_ Hg].
    destruct (Hg ((versions ++ [directory_name id]) ++ r)) as [Heq|([[k Hk]|[k Hk]] & _)]; [congruence|..]; exfalso.
    + apply (proj1 Hap ([directory_name id] ++ r ++ k)). by rewrite Hk, <-!app_assoc.
    + apply (f_equal length) in Hk. rewrite !length_app in Hk. simpl in Hk. lia.
Qed.

Lemma grown_trans along t0 t1 t2 : grown along t0 t1 → grown along t1 t2 → grown along t0 t2.
Proof.
  intros [_ H01] [Hwf H12]. split; [done|]. intros p.
  destruct (H12 p) as [Heq|(Ha & Hn & Hd)]; [rewrite Heq; apply H01|].
  right. split_and!; [done| |done]. destruct (H01 p) as [Heq'|(_ & _ & Heq')]; congruence.
Qed.

Lemma grown_is_dir along t0 t p : grown along t0 t → is_dir t0 p = true → is_dir t p = true.
Proof.
  intros [_ Hg] Hd. apply is_dir_true. apply is_dir_true in Hd as [?|Hd]; [by left|right].
  destruct (Hg p) as [->|(_ & Hn & _)]; congruence.
Qed.

Lemma sp_stage_bundle_file archive claim staging versions expected limits t :
  well_formed t → Forall (λ x, plain_name x = true) staging → Forall (λ x, plain_name x = true) versions →
  apart staging versions → (∀ name, claim = inr name → plain_name name = true ∧ t !! (staging ++ [name]) = None) →
  sp (stage_bundle_file archive claim staging versions expected limits) t
    (λ t', ∃ id, landed claim staging versions t id t')
    (λ id t', landed claim staging versions t id t'
       ∧ ∃ m m', identified archive expected id m ∧ holds t' (versions ++ [directory_name id]) id m').
Proof.
  intros Hwf Hps Hpv Hap Hclaim. set (along := λ p : Path, (∃ k, staging = p ++ k) ∨ ∃ k, versions = p ++ k).
  assert (∀ t', grown along t t' → ∃ id, landed claim staging versions t id t') as Hearly.
  { intros t' Hg. exists (mkReleaseId EmptyString EmptyString). by apply grown_landed. }
  assert (grown along t t) as Hg0 by (split; [done|by left]). unfold stage_bundle_file.
  apply sp_synced; [by apply Hearly|]. apply sp_synced; [by apply Hearly|]. apply sp_require; [by apply Hearly|]. intros _.
  apply (sp_ensure_real_directory along t staging); [done|done|intros p k Hk _; left; eauto|done|]. intros ta Hga Hda.
  apply (sp_ensure_real_directory along ta versions); [split; [apply Hga|by left]|done|intros p k Hk _; right; eauto| |].
  { intros t' Hg. apply Hearly. by eapply grown_trans. }
  intros t1 Hgb Hdb. pose proof (grown_trans _ _ _ _ Hga Hgb) as Hg. pose proof (grown_is_dir _ _ _ _ Hgb Hda) as Hds.
  apply sp_guard; [by apply Hearly|]. intros name Hname%map_err_inr. destruct (Hclaim name Hname) as [Hplain Hfree].
  set (stage := staging ++ [name]).
  assert (∀ id r, under stage ((versions ++ [directory_name id]) ++ r) = None) as Hout.
  { intros id r. destruct (apart_below staging versions name (directory_name id) Hap) as [Hsd Hds']. by apply apart_under. }
  apply (sp_bind _ _ _ _ (λ _ t', unpacked stage t1 (λ _, false) (mkUnpacked None ∅ 0 0) t')).
  { apply sp_with_error, sp_act; [by apply Hearly|]. intros [] t'. fold stage. destruct (t1 !! stage) eqn:Hl; [done|]. intros [= <-].
    assert (unpacked stage t1 (λ _, false) (mkUnpacked None ∅ 0 0) (<[stage := NDir]> t1)) as Hu
      by (apply fresh_stage; [apply Hg|done..]).
    split; [|done]. exists (mkReleaseId EmptyString EmptyString).
    eapply published_landed; [done|done|exact Hg|]. destruct (uk_framed _ _ _ _ _ Hu) as [Hwf' Hf'].
    split_and!; [done|intros p Hp _; by apply Hf'|left]. intros r n Hn. rewrite <-Hf'; [done|]. apply Hout. }
  intros [] t2 Hu. pose proof (apart_below staging versions) as Hbelow.
  assert (∀ id t', framed stage t1 t' → published stage (versions ++ [directory_name id]) id t1 t') as Hframed.
  { intros id t' [Hwf' Hf']. split_and!; [done|intros p Hp _; by apply Hf'|left]. intros r n Hn. rewrite <-Hf'; [done|]. apply Hout. }
  eapply (sp_finally _ _ _ _ (λ t', ∃ id, published stage (versions ++ [directory_name id]) id t1 t') _
    (λ id t', published stage (versions ++ [directory_name id]) id t1 t'
       ∧ ∃ m m', identified archive expected id m ∧ holds t' (versions ++ [directory_name id]) id m')).
  - apply (sp_bind _ _ _ _ (λ r t', framed stage t1 t' ∧ archive_manifest archive = Some r.2
      ∧ parse_manifest r.2 expected = inr r.1 ∧ holds t' stage (manifest_id r.1 r.2) r.1)).
    { eapply sp_mono; [by apply sp_extract| |done]. intros t' Hf. exists (mkReleaseId EmptyString EmptyString). by apply Hframed. }
    intros [m bytes] t3 (Hf3 & Hman & Hp & Hh). simpl in *.
    assert (identified archive expected (manifest_id m bytes) m) as Hid by (by exists bytes).
    destruct (Hbelow name (directory_name (manifest_id m bytes)) Hap) as [Hsd Hds'].
    eapply sp_mono; [by eapply sp_publish_stage|by eauto|]. intros id t' (-> & Hpub & m' & Hm'). split; [done|]. by exists m, m'.
  - intros t' [id Hpub]. exists id. by eapply published_landed.
  - intros t' [id Hpub]. destruct (Hbelow name (directory_name id) Hap) as [Hsd Hds'].
    apply sp_remove_path.
    + intros keeps. exists id. eapply published_landed; [done|done|exact Hg|].
      eapply published_remove; [done|done|exact Hpub|apply well_formed_remove_some, Hpub|]. intros p. apply lookup_remove_some_out.
    + exists id. eapply published_landed; [done|done|exact Hg|].
      eapply published_remove; [done|done|exact Hpub|apply well_formed_remove_all, Hpub|].
      intros p Hp. rewrite lookup_remove_all. fold stage in Hp. by rewrite Hp.
  - intros id t' [Hpub (m & m' & Hid & Hh)]. destruct (Hbelow name (directory_name id) Hap) as [Hsd Hds'].
    assert (∀ t'', well_formed t'' → (∀ p, under stage p = None → t'' !! p = t' !! p) →
      landed claim staging versions t id t'' ∧ ∃ m m', identified archive expected id m ∧ holds t'' (versions ++ [directory_name id]) id m') as Hend.
    { intros t'' Hwf'' Hsame. split.
      - eapply published_landed; [done|done|exact Hg|]. by eapply published_remove.
      - exists m, m'. split; [done|]. eapply holds_ext; [|exact Hh]. intros r. symmetry. by apply Hsame, apart_under. }
    apply sp_remove_path.
    + intros keeps. assert (well_formed (remove_some keeps stage t')) as Hw by (apply well_formed_remove_some, Hpub).
      destruct (Hend _ Hw (lookup_remove_some_out keeps stage t')) as [? ?]. split; [by exists id|done].
    + apply Hend; [apply well_formed_remove_all, Hpub|]. intros p Hp. rewrite lookup_remove_all. fold stage in Hp. by rewrite Hp.
Qed.

(** C5. A release appears whole or not at all.  Staging an archive, whatever it holds, whichever calls
    fail and wherever the process dies, changes nothing but the claimed stage, the missing storage
    roots and one release directory; in that directory is only what was there before, or it holds
    exactly the files of the release it is named after.  When staging succeeds it does hold them, and
    the release is the archive's own: the identity is that of the manifest the archive carries as its
    one member of that name, which agrees with the authenticated metadata.  The staging root and the
    versions root are plain paths neither of which lies in the other, and the claimed name is one nothing
    in the staging root has. *)
Theorem a_release_appears_whole archive claim staging versions expected limits s r s' :
  well_formed (fs_tree s) → Forall (λ x, plain_name x = true) staging → Forall (λ x, plain_name x = true) versions →
  apart staging versions →
  (∀ name, claim = inr name → plain_name name = true ∧ fs_tree s !! (staging ++ [name]) = None) →
  stage_bundle_file archive claim staging versions expected limits s = (r, s') →
  match r with
  | FsOk id => landed claim staging versions (fs_tree s) id (fs_tree s')
      ∧ ∃ m m', identified archive expected id m ∧ holds (fs_tree s') (versions ++ [directory_name id]) id m'
  | _ => ∃ id, landed claim staging versions (fs_tree s) id (fs_tree s')
  end.
Proof.
  intros Hwf Hps Hpv Hap Hclaim Hrun.
  pose proof (sp_stage_bundle_file archive claim staging versions expected limits _ Hwf Hps Hpv Hap Hclaim s eq_refl) as Hsp.
  rewrite Hrun in Hsp. by destruct r.
Qed.

(** ** Verdicts *)

(** A failing device does not report an occupied path. *)
Definition occupied_kind (e : io_error) : bool :=
  match err_kind e with AlreadyExists | NotADirectory => true | _ => false end.

Definition honest (s : fs) : Prop := Forall (λ f, match f with Errs e => occupied_kind e = false | _ => True end) (fs_faults s).

(** The run under way, in a stage, and the undisturbed run of the same archive in an empty root. *)
Record beside stage (s1 s2 : fs) : Prop := {
  bs_same : ∀ r, r ≠ [] → fs_tree s1 !! (stage ++ r) = fs_tree s2 !! r;
  bs_dirs : ∀ d k, stage = d ++ k → is_dir (fs_tree s1) d = true;
  bs_honest : honest s1;
  bs_faults : fs_faults s2 = [];
  bs_reads : fs_reads s2 = [];
  bs_device : fs_device s2 = false;
}.

Definition agrees {A} stage (r1 r2 : fin InstallError A * fs) : Prop :=
  match r1 with
  | (FsOk a, s1) => ∃ s2, r2 = (FsOk a, s2) ∧ beside stage s1 s2
  | (FsErr (IArchive _), _) => ∃ e s2, r2 = (FsErr (IArchive e), s2)
  | _ => True
  end.

Definition sim {A} stage (p q : FS InstallError A) : Prop := ∀ s1 s2, beside stage s1 s2 → agrees stage (p s1) (q s2).

Lemma sim_ret {A} stage (a : A) : sim stage (mret a) (mret a).
Proof. intros s1 s2 Hb. by exists s2. Qed.

Lemma sim_bind {A B} stage (p q : FS InstallError A) (f g : A → FS InstallError B) :
  sim stage p q → (∀ a, sim stage (f a) (g a)) → sim stage (p ≫= f) (q ≫= g).
Proof.
  intros Hp Hf s1 s2 Hb. specialize (Hp s1 s2 Hb). unfold mbind, FS_bind, agrees in *.
  destruct (p s1) as [[a|[e|e]|] s1']; [|by destruct Hp as (e' & s2' & ->); eauto|done|done].
  destruct Hp as (s2' & -> & Hb'). by apply Hf.
Qed.

Lemma sim_of_sum {A} stage (r : InstallError + A) : sim stage (of_sum r) (of_sum r).
Proof. intros s1 s2 Hb. unfold of_sum, agrees. destruct r as [[]|]; eauto. Qed.

Lemma sim_verdict {A} stage message : sim stage (verdict message : FS _ A) (verdict message).
Proof. intros s1 s2 Hb. unfold verdict, raise, archive_verdict, agrees. eauto. Qed.

Lemma sim_require stage b message : sim stage (require b message) (require b message).
Proof. unfold require. destruct b; [apply sim_ret|apply sim_verdict]. Qed.

Lemma sim_from_archive {A} stage (r : io_error + A) : sim stage (from_archive r) (from_archive r).
Proof.
  intros s1 s2 Hb. unfold from_archive. replace (next_read s2) with (ReadWorks, s2) by (unfold next_read; by rewrite (bs_reads _ _ _ Hb)).
  assert (∀ s, fs_tree s = fs_tree s1 → fs_faults s = fs_faults s1 → beside stage s s2) as Hsame.
  { intros s Ht Hf. destruct Hb as [? ? Hh ? ? ?]. split; rewrite ?Ht; try done. unfold honest. by rewrite Hf. }
  assert (fs_tree (next_read s1).2 = fs_tree s1 ∧ fs_faults (next_read s1).2 = fs_faults s1) as [Ht Hf]
    by (unfold next_read; by destruct (fs_reads s1)).
  destruct (next_read s1) as [[| |e|] s1']; simpl in *; [..|done].
  - destruct r as [e|a]; unfold agrees, classify; [|exists s2; split; [done|by apply Hsame]].
    rewrite (bs_device _ _ _ Hb). destruct (fs_device s1'); [done|]. eauto.
  - destruct r as [e|a]; unfold agrees, classify; [done|]. exists s2. split; [done|by apply Hsame].
  - done.
Qed.

(** A change in the stage and the same change in the root. *)
Lemma beside_update stage s1 s2 s1' s2' t1 t2 :
  beside stage s1 s2 → fs_faults s1' = tail (fs_faults s1) ∨ fs_faults s1' = fs_faults s1 → fs_tree s1' = t1 →
  fs_faults s2' = [] → fs_reads s2' = [] → fs_device s2' = false → fs_tree s2' = t2 →
  (∀ r, r ≠ [] → t1 !! (stage ++ r) = t2 !! r) → (∀ d k, stage = d ++ k → is_dir t1 d = true) → beside stage s1' s2'.
Proof.
  intros [Hs Hd Hh _ _ _] Hf <- Hf2 Hr2 Hdev <- Hs' Hd'. split; try done. unfold honest in *.
  destruct Hf as [->| ->]; [|done]. by destruct Hh.
Qed.

Lemma sim_act {A} stage (err : io_error → InstallError) (f g : Tree → io_error + A * Tree) :
  (∀ e, occupied_kind e = false → ∃ e', err e = IStorage e') →
  (∀ s1 s2, beside stage s1 s2 →
     match f (fs_tree s1) with
     | inr (a, t1) => ∃ t2, g (fs_tree s2) = inr (a, t2) ∧ (∀ r, r ≠ [] → t1 !! (stage ++ r) = t2 !! r)
         ∧ ∀ d k, stage = d ++ k → is_dir t1 d = true
     | inl e => match err e with IArchive _ => ∃ e' e'', g (fs_tree s2) = inl e' ∧ err e' = IArchive e'' | IStorage _ => True end
     end) →
  sim stage (with_error err (act f)) (with_error err (act g)).
Proof.
  intros Herr Hfg s1 s2 Hb. specialize (Hfg s1 s2 Hb). unfold with_error, act.
  replace (next_fault s2) with (Works, s2) by (unfold next_fault; by rewrite (bs_faults _ _ _ Hb)).
  pose proof (bs_honest _ _ _ Hb) as Hh. unfold honest in Hh. unfold next_fault.
  destruct (fs_faults s1) as [|[|e|after] rest] eqn:Hfs; simpl.
  - destruct (f (fs_tree s1)) as [e|[a t1]]; unfold agrees.
    + destruct (err e); [|done]. destruct Hfg as (e' & e'' & -> & ->). eauto.
    + destruct Hfg as (t2 & -> & Hs & Hd). eexists. split; [done|].
      eapply (beside_update stage s1 s2); try done; [by right|apply (bs_faults _ _ _ Hb)|apply (bs_reads _ _ _ Hb)|apply (bs_device _ _ _ Hb)].
  - destruct (f (fs_tree s1)) as [e|[a t1]]; unfold agrees.
    + destruct (err e); [|done]. destruct Hfg as (e' & e'' & -> & ->). eauto.
    + destruct Hfg as (t2 & -> & Hs & Hd). eexists. split; [done|].
      eapply (beside_update stage s1 s2); try done; [left; by rewrite Hfs|apply (bs_faults _ _ _ Hb)|apply (bs_reads _ _ _ Hb)|apply (bs_device _ _ _ Hb)].
  - apply Forall_cons in Hh as [Hk _]. destruct (Herr e Hk) as [e' ->]. done.
  - done.
Qed.

Lemma collision_storage e : occupied_kind e = false → ∃ e', classify_collision e = IStorage e'.
Proof. unfold occupied_kind, classify_collision. intros Hk. destruct (err_kind e); try done; eauto. Qed.

Lemma collision_archive e : occupied_kind e = true → ∃ e', classify_collision e = IArchive e'.
Proof. unfold occupied_kind, classify_collision, archive_verdict. intros Hk. destruct (err_kind e); try done; eauto. Qed.

(** The same entry written on both sides. *)
Lemma beside_insert stage s1 s2 k n :
  beside stage s1 s2 → k ≠ [] →
  (∀ r, r ≠ [] → <[stage ++ k := n]> (fs_tree s1) !! (stage ++ r) = <[k := n]> (fs_tree s2) !! r)
  ∧ ∀ d j, stage = d ++ j → is_dir (<[stage ++ k := n]> (fs_tree s1)) d = true.
Proof.
  intros Hb Hk. split.
  - intros r Hr. destruct (decide (k = r)) as [->|Hne]; [by rewrite !lookup_insert_eq|].
    rewrite !lookup_insert_ne; [by apply (bs_same _ _ _ Hb)|done|]. by intros ?%app_inv_head.
  - intros d j Heq. apply is_dir_true. pose proof (bs_dirs _ _ _ Hb d j Heq) as Hd. apply is_dir_true in Hd as [?|Hd]; [by left|right].
    rewrite lookup_insert_ne; [done|]. intros Hkd. apply (f_equal length) in Heq, Hkd. rewrite !length_app in *.
    destruct k; [done|]. simpl in *. lia.
Qed.

Lemma sim_make_dir stage d x last :
  sim stage (with_error classify_collision (make_dir ((stage ++ d) ++ [x]) last)) (with_error classify_collision (make_dir (d ++ [x]) last)).
Proof.
  apply sim_act; [apply collision_storage|]. intros s1 s2 Hb. rewrite <-app_assoc, (bs_same _ _ _ Hb) by (by destruct d).
  destruct (fs_tree s2 !! (d ++ [x])) as [[]|]; simpl.
  1,3,4: destruct last; eexists _, _; split; reflexivity.
  - exists (fs_tree s2). split_and!; [done|apply (bs_same _ _ _ Hb)|apply (bs_dirs _ _ _ Hb)].
  - eexists. split; [done|]. apply beside_insert; [done|by destruct d].
Qed.

Lemma sim_make_dirs stage rest : ∀ d,
  sim stage (with_error classify_collision (make_dirs (stage ++ d) rest)) (with_error classify_collision (make_dirs d rest)).
Proof.
  induction rest as [|x rest IH]; intros d; [intros s1 s2 Hb; by exists s2|].
  intros s1 s2 Hb. pose proof (sim_make_dir stage d x (bool_decide (rest = [])) s1 s2 Hb) as Hone.
  unfold with_error in *. cbn [make_dirs]. unfold mbind, FS_bind in *.
  destruct (make_dir ((stage ++ d) ++ [x]) (bool_decide (rest = [])) s1) as [[[]|e|] s1'] eqn:Hm1; simpl in Hone; [| |done].
  - destruct Hone as (s2' & Heq & Hb').
    destruct (make_dir (d ++ [x]) (bool_decide (rest = [])) s2) as [[[]|e|] s2''] eqn:Hm2; try done. injection Heq as ->.
    rewrite <-app_assoc. exact (IH (d ++ [x]) s1' s2' Hb').
  - simpl. destruct (classify_collision e); [|done]. destruct Hone as (e' & s2' & Heq).
    destruct (make_dir (d ++ [x]) (bool_decide (rest = [])) s2) as [[[]|e2|] s2''] eqn:Hm2; try done.
    injection Heq as Heq ->. rewrite Heq. eauto.
Qed.

(** The directories the stage itself lies in are there. *)
Lemma sim_create_dir_all stage k :
  sim stage (with_error classify_collision (create_dir_all (stage ++ k))) (with_error classify_collision (create_dir_all k)).
Proof.
  unfold create_dir_all. intros s1 s2 Hb.
  assert (∀ rest d s1, stage = d ++ rest → beside stage s1 s2 →
    agrees stage (with_error classify_collision (make_dirs d (rest ++ k)) s1) (with_error classify_collision (make_dirs [] k) s2)) as Hgo;
    [|by apply (Hgo stage [])].
  clear s1 Hb. induction rest as [|x rest IH]; intros d s1 Heq Hb.
  - rewrite app_nil_r in Heq. subst d. pose proof (sim_make_dirs stage k [] s1 s2 Hb) as Hs. by rewrite app_nil_r in Hs.
  - assert (is_dir (fs_tree s1) (d ++ [x]) = true) as Hd by (apply (bs_dirs _ _ _ Hb _ rest); by rewrite <-app_assoc).
    apply is_dir_true in Hd as [Hd|Hd]; [by destruct d|].
    unfold with_error in *. cbn [make_dirs app]. unfold mbind, FS_bind, make_dir at 1, act.
    pose proof (next_fault_tree s1) as Ht. pose proof (bs_honest _ _ _ Hb) as Hh. unfold honest in Hh.
    assert (∀ s', fs_tree s' = fs_tree s1 → honest s' → beside stage s' s2) as Hkeep.
    { intros s' Hs' Hh'. destruct Hb. split; rewrite ?Hs'; done. }
    unfold next_fault in *. destruct (fs_faults s1) as [|[|e|after] rest'] eqn:Hf; simpl in *.
    + rewrite Hd. simpl. specialize (IH (d ++ [x]) (set_tree (fs_tree s1) s1)). apply IH; [by rewrite <-app_assoc|].
      apply Hkeep; [done|]. unfold honest. simpl. by rewrite Hf.
    + rewrite Hd. simpl. eapply (IH (d ++ [x])); [by rewrite <-app_assoc|]. apply Hkeep; [done|]. unfold honest. simpl. by inversion Hh.
    + apply Forall_cons in Hh as [Hk _]. destruct (collision_storage e Hk) as [e' ->]. done.
    + done.
Qed.

Lemma sim_create_new stage d x :
  sim stage (with_error classify_collision (create_new (stage ++ d ++ [x]))) (with_error classify_collision (create_new (d ++ [x]))).
Proof.
  apply sim_act; [apply collision_storage|]. intros s1 s2 Hb. rewrite (bs_same _ _ _ Hb) by (by destruct d).
  destruct (fs_tree s2 !! (d ++ [x])) as [n|]; simpl; [eexists _, _; split; reflexivity|].
  rewrite app_assoc, !take_pred_snoc, <-app_assoc.
  assert (is_dir (fs_tree s1) (stage ++ d) = is_dir (fs_tree s2) d) as ->.
  { destruct (decide (d = [])) as [->|Hd].
    - rewrite app_nil_r, (bs_dirs _ _ _ Hb stage []); [done|by rewrite app_nil_r].
    - unfold is_dir. rewrite (bs_same _ _ _ Hb d Hd). f_equal. apply bool_decide_ext. split; intros Hn; [by apply app_eq_nil in Hn as [_ ?]|done]. }
  destruct (is_dir (fs_tree s2) d); simpl; [|done]. eexists. split; [done|]. apply beside_insert; [done|by destruct d].
Qed.

Lemma sim_storage {A} stage (f g : Tree → io_error + A * Tree) :
  (∀ s1 s2, beside stage s1 s2 →
     match f (fs_tree s1) with
     | inr (a, t1) => ∃ t2, g (fs_tree s2) = inr (a, t2) ∧ (∀ r, r ≠ [] → t1 !! (stage ++ r) = t2 !! r)
         ∧ ∀ d k, stage = d ++ k → is_dir t1 d = true
     | inl _ => True
     end) →
  sim stage (storage (act f)) (storage (act g)).
Proof.
  intros Hfg. apply sim_act; [eauto|]. intros s1 s2 Hb. specialize (Hfg s1 s2 Hb). by destruct (f (fs_tree s1)) as [|[]].
Qed.

Lemma sim_sync stage : sim stage (storage sync) (storage sync).
Proof. apply sim_storage. intros s1 s2 Hb. exists (fs_tree s2). split_and!; [done|apply (bs_same _ _ _ Hb)|apply (bs_dirs _ _ _ Hb)]. Qed.

Lemma sim_write_all stage k chunk : k ≠ [] → sim stage (storage (write_all (stage ++ k) chunk)) (storage (write_all k chunk)).
Proof.
  intros Hk. apply sim_storage. intros s1 s2 Hb. rewrite (bs_same _ _ _ Hb k Hk).
  destruct (fs_tree s2 !! k) as [[]|]; simpl; eexists; (split; [done|]);
    (by apply beside_insert) || (split; [apply (bs_same _ _ _ Hb)|apply (bs_dirs _ _ _ Hb)]).
Qed.

Lemma sim_set_mode stage k x : k ≠ [] → sim stage (storage (set_mode (stage ++ k) x)) (storage (set_mode k x)).
Proof.
  intros Hk. apply sim_storage. intros s1 s2 Hb. rewrite (bs_same _ _ _ Hb k Hk).
  destruct (fs_tree s2 !! k) as [[]|]; simpl; try done. eexists. split; [done|]. by apply beside_insert.
Qed.

Lemma sim_copy_member stage k body : k ≠ [] → ∀ content written,
  sim stage (copy_member (stage ++ k) body content written) (copy_member k body content written).
Proof.
  intros Hk. induction body as [|next body IH]; intros content written; cbn [copy_member].
  - apply sim_bind; [apply sim_from_archive|]. intros ?. apply sim_ret.
  - apply sim_bind; [apply sim_from_archive|]. intros chunk. destruct (bool_decide _); [apply sim_ret|].
    apply sim_bind; [by apply sim_write_all|]. intros ?. destruct (checked_add _ _ _); [apply IH|apply sim_verdict].
Qed.

Lemma sim_read_to_end stage body : ∀ content, sim stage (read_to_end body content) (read_to_end body content).
Proof.
  induction body as [|next body IH]; intros content; cbn [read_to_end]; (apply sim_bind; [apply sim_from_archive|]); intros chunk.
  - apply sim_ret.
  - destruct (bool_decide _); [apply sim_ret|apply IH].
Qed.

Lemma sim_admit_member stage l up (m : Member) : sim stage (admit_member l up m) (admit_member l up m).
Proof.
  unfold admit_member. repeat (apply sim_bind; [first [apply sim_require|apply sim_from_archive|apply sim_of_sum]|intros ?]).
  apply sim_ret.
Qed.

Lemma components_snoc path : ∃ d x, components path = d ++ [x].
Proof. destruct (snoc_cases (components path)) as [Hn|?]; [|done]. by destruct (components_ne path). Qed.

Lemma sim_unpack_member stage l up (m : Member) : sim stage (unpack_member stage l up m) (unpack_member [] l up m).
Proof.
  unfold unpack_member. apply sim_bind; [apply sim_admit_member|]. intros [path expanded].
  destruct (components_snoc path) as (d & x & Hpath). rewrite Hpath. simpl ([] ++ _).
  rewrite app_assoc, !take_pred_snoc, <-app_assoc. apply sim_bind; [apply sim_create_dir_all|]. intros _.
  apply sim_bind; [apply sim_create_new|]. intros _. assert (d ++ [x] ≠ []) as Hne by (by destruct d). case_bool_decide.
  - apply sim_bind; [apply sim_require|]. intros _. apply sim_bind; [apply sim_read_to_end|]. intros bytes.
    apply sim_bind; [apply sim_require|]. intros _. apply sim_bind; [by apply sim_write_all|]. intros _.
    apply sim_bind; [apply sim_sync|]. intros _. apply sim_ret.
  - apply sim_bind; [by apply sim_copy_member|]. intros [content written].
    apply sim_bind; [apply sim_require|]. intros _. apply sim_bind; [apply sim_sync|]. intros _. apply sim_ret.
Qed.

Lemma sim_unpack_all stage l entries : ∀ up, sim stage (unpack_all stage l up entries) (unpack_all [] l up entries).
Proof.
  induction entries as [|entry entries IH]; intros up; cbn [unpack_all]; (apply sim_bind; [apply sim_from_archive|]); intros m.
  - apply sim_ret.
  - apply sim_bind; [apply sim_unpack_member|]. intros up'. apply IH.
Qed.

Lemma sim_settle_all stage extracted files : sim stage (settle_all stage extracted files) (settle_all [] extracted files).
Proof.
  induction files as [|f files IH]; cbn [settle_all]; [apply sim_ret|]. apply sim_bind; [|intros _; apply IH].
  unfold settle_member. apply sim_bind; [apply sim_require|]. intros _. apply sim_set_mode.
  destruct (components_snoc (mfl_path f)) as (d & x & ->). by destruct d.
Qed.

Lemma sim_extract archive stage e l : sim stage (extract archive stage e l) (extract archive [] e l).
Proof.
  unfold extract. apply sim_bind; [apply sim_from_archive|]. intros entries. apply sim_bind; [apply sim_unpack_all|]. intros up.
  apply sim_bind; [apply sim_of_sum|]. intros bytes. apply sim_bind; [apply sim_of_sum|]. intros m.
  apply sim_bind; [apply sim_require|]. intros _. apply sim_bind; [apply sim_settle_all|]. intros _. apply sim_ret.
Qed.

(** [verdicts p s V Q]: from [s], [p] blames the archive only if [V], and returns into [Q]. *)
Definition verdicts {A} (p : FS InstallError A) (s : fs) (V : Prop) (Q : A → fs → Prop) : Prop :=
  match p s with (FsOk a, s') => Q a s' | (FsErr (IArchive _), _) => V | _ => True end.

Lemma verdicts_bind {A B} (p : FS InstallError A) (f : A → FS InstallError B) s V Q1 Q :
  verdicts p s V Q1 → (∀ a s', Q1 a s' → verdicts (f a) s' V Q) → verdicts (p ≫= f) s V Q.
Proof. unfold verdicts, mbind, FS_bind. intros Hp Hf. destruct (p s) as [[a|[]|] s']; auto. by apply Hf. Qed.

Lemma verdicts_require b message s (V : Prop) (Q : unit → fs → Prop) :
  (b = false → V) → (b = true → Q tt s) → verdicts (require b message) s V Q.
Proof. unfold verdicts, require. intros HV HQ. destruct b; simpl; auto. Qed.

(** Calls use the device's answers up one by one. *)
Definition keeps_honest {A} (p : FS io_error A) : Prop := ∀ s, honest s → honest (p s).2.

Lemma honest_act {A} (f : Tree → io_error + A * Tree) : keeps_honest (act f).
Proof.
  intros s Hh. unfold act, next_fault. unfold honest in *. destruct (fs_faults s) as [|fault rest] eqn:Hf; simpl.
  - destruct (f (fs_tree s)) as [|[]]; simpl; by rewrite Hf.
  - apply Forall_cons in Hh as [_ Hh]. destruct fault; simpl; destruct (f (fs_tree s)) as [|[]]; simpl; try done. by destruct after.
Qed.

Lemma honest_bind {A B} (p : FS io_error A) (f : A → FS io_error B) :
  keeps_honest p → (∀ a, keeps_honest (f a)) → keeps_honest (p ≫= f).
Proof.
  intros Hp Hf s Hh. unfold mbind, FS_bind. specialize (Hp s Hh). destruct (p s) as [[a|e|] s']; [by apply Hf|done|done].
Qed.

Lemma honest_make_dirs rest : ∀ d, keeps_honest (make_dirs d rest).
Proof.
  induction rest as [|x rest IH]; intros d; cbn [make_dirs]; [by intros s|]. apply honest_bind; [apply honest_act|intros _; apply IH].
Qed.

Lemma honest_ensure_real_directory root : keeps_honest (ensure_real_directory root).
Proof. apply honest_bind; [apply honest_make_dirs|]. intros _. apply honest_act. Qed.

Lemma verdicts_storage {A} (p : FS io_error A) s V (P : A → Tree → Prop) :
  keeps_honest p → honest s → sp p (fs_tree s) (λ _, True) P →
  verdicts (storage p) s V (λ a s', honest s' ∧ P a (fs_tree s')).
Proof.
  intros Hk Hh Hp. specialize (Hk s Hh). specialize (Hp s eq_refl). unfold verdicts, storage, with_error.
  by destruct (p s) as [[a|e|] s'].
Qed.

(** Publication never blames the archive. *)
Lemma verdicts_publish stage versions id s V : verdicts (publish_stage stage versions id) s V (λ id' _, id' = id).
Proof.
  assert (∀ {A} (p : FS io_error A) s, verdicts (storage p) s V (λ _ _, True)) as Hst.
  { intros A p s'. unfold verdicts, storage, with_error. destruct (p s') as [[]]; simpl; done. }
  unfold publish_stage. eapply verdicts_bind; [apply Hst|]. intros occupied s1 _. eapply verdicts_bind.
  { instantiate (1 := λ _ _, True). destruct occupied; [|exact I]. unfold verdicts, succeeded, storage, with_error.
    match goal with |- context [observe ?f ?x] => destruct (observe f x) as [[]] end; exact I. }
  intros reusable s2 _. destruct reusable; [exact eq_refl|]. eapply verdicts_bind.
  { instantiate (1 := λ _ _, True). destruct occupied; [|exact I]. eapply (verdicts_bind _ _ _ _ (λ _ _, True)); [|intros [] s3 _; apply Hst].
    unfold verdicts, ignore, storage, with_error. match goal with |- context [remove_path ?f ?x] => destruct (remove_path f x) as [[]] end; exact I. }
  intros [] s3 _. do 4 (eapply verdicts_bind; [apply Hst|]; intros ? ? _). exact eq_refl.
Qed.

(** What the archive's own bytes come to: unpacked where nothing else is, by calls that all work. *)
Definition bytes_verdict archive expected limits : fin InstallError (BundleManifest * string) :=
  (extract archive [] expected limits (mkFs ∅ [] [] false (λ _, false))).1.

Lemma verdicts_stage archive claim staging versions expected limits s :
  well_formed (fs_tree s) → Forall (λ x, plain_name x = true) staging → Forall (λ x, plain_name x = true) versions →
  apart staging versions →
  (∀ name, claim = inr name → plain_name name = true ∧ fs_tree s !! (staging ++ [name]) = None) → honest s →
  verdicts (stage_bundle_file archive claim staging versions expected limits) s
    ((str_len archive <=? bl_archive_bytes limits)%N = false ∨ ∃ e, bytes_verdict archive expected limits = FsErr (IArchive e))
    (λ id _, (str_len archive <=? bl_archive_bytes limits)%N = true
       ∧ ∃ m bytes, bytes_verdict archive expected limits = FsOk (m, bytes) ∧ id = manifest_id m bytes).
Proof.
  intros Hwf Hps Hpv Hap Hclaim Hh. set (t := fs_tree s) in *. unfold stage_bundle_file.
  set (along := λ p : Path, (∃ k, staging = p ++ k) ∨ ∃ k, versions = p ++ k).
  assert (∀ s, fs_tree s = t → honest s → ∀ V, verdicts (storage sync) s V (λ _ s', honest s' ∧ fs_tree s' = t)) as Hsync.
  { intros s0 <- Hh0 V. eapply (verdicts_storage _ _ _ (λ _ t', t' = fs_tree s0)); [apply honest_act|done|by apply sp_sync]. }
  eapply verdicts_bind; [by apply Hsync|]. intros [] s1 [Hh1 Ht1]. eapply verdicts_bind; [by apply Hsync|]. intros [] s2 [Hh2 Ht2].
  eapply verdicts_bind; [apply (verdicts_require _ _ _ _ (λ _ s', s' = s2 ∧ (str_len archive <=? bl_archive_bytes limits)%N = true)); [by left|done]|].
  intros [] ? [-> Hsize].
  assert (∀ root t0 s, fs_tree s = t0 → well_formed t0 → honest s → Forall (λ x, plain_name x = true) root →
    (∀ p k, root = p ++ k → p ≠ [] → along p) → ∀ V,
    verdicts (storage (ensure_real_directory root)) s V (λ _ s', honest s' ∧ grown along t0 (fs_tree s') ∧ is_dir (fs_tree s') root = true)) as Hroot.
  { intros root t0 s0 <- Hwf0 Hh0 Hp Ha V.
    apply (verdicts_storage _ _ _ (λ _ t', grown along (fs_tree s0) t' ∧ is_dir t' root = true)); [apply honest_ensure_real_directory|done|].
    unfold ensure_real_directory. eapply sp_bind.
    - eapply sp_mono; [apply (sp_grow along (fs_tree s0) root [] (fs_tree s0)); [split; [done|by left]|done..]|done|].
      intros a t'. exact id.
    - intros [] t' [Hg Hd]. by apply sp_observe. }
  eapply verdicts_bind; [apply (Hroot staging t); [done|done|done|done|by left; eauto]|]. intros [] s3 (Hh3 & Hg3 & Hd3).
  eapply verdicts_bind; [apply (Hroot versions (fs_tree s3)); [done|apply Hg3|done|done|by right; eauto]|].
  intros [] s4 (Hh4 & Hg4 & Hd4). pose proof (grown_trans _ _ _ _ Hg3 Hg4) as Hg. pose proof (grown_is_dir _ _ _ _ Hg4 Hd3) as Hds.
  eapply verdicts_bind; [instantiate (1 := λ name s', s' = s4 ∧ claim = inr name); by destruct claim|]. intros name ? [-> Hname].
  destruct (Hclaim name Hname) as [Hplain Hfree]. set (stage := staging ++ [name]).
  eapply verdicts_bind; [eapply (verdicts_storage _ _ _ (λ _ t', t' = <[stage := NDir]> (fs_tree s4) ∧ fs_tree s4 !! stage = None));
    [apply honest_act|done|]|].
  { apply sp_act; [done|]. intros [] t'. fold stage. destruct (fs_tree s4 !! stage) eqn:Hl; [done|]. intros [= <-]. done. }
  intros [] s5 (Hh5 & Ht5 & Hfree5).
  pose proof (fresh_stage (fs_tree s4) name staging (proj1 Hg) Hds Hplain Hfree5) as Hu. fold stage in Hu.
  assert (beside stage s5 (mkFs ∅ [] [] false (λ _, false))) as Hb.
  { split; try done.
    - intros r Hr. simpl. rewrite lookup_empty, Ht5. unfold stage. apply nothing_below; [apply Hg|done|done].
    - intros d k Heq. destruct (uk_framed _ _ _ _ _ Hu) as [Hwfu _]. rewrite Ht5. destruct (decide (k = [])) as [->|Hk].
      + apply is_dir_true. right. rewrite app_nil_r in Heq. subst d. apply (uk_stage _ _ _ _ _ Hu).
      + eapply wf_between; [done| |done]. rewrite <-Heq. apply (uk_stage _ _ _ _ _ Hu). }
  assert (∀ A (p : FS InstallError A) c s V Q, verdicts p s V (λ a _, Q a) → verdicts (finally p c) s V (λ a _, Q a)) as Hfin.
  { intros A p c s0 V Q. unfold verdicts, finally. destruct (p s0) as [[a|[e|e]|] s']; intros HQ; try done;
      destruct (c s') as [[]]; done. }
  apply Hfin. eapply (verdicts_bind _ _ _ _ (λ r _, bytes_verdict archive expected limits = FsOk r)).
  - pose proof (sim_extract archive stage expected limits s5 _ Hb) as Hs. unfold agrees in Hs. unfold verdicts, bytes_verdict.
    destruct (extract archive stage expected limits s5) as [[r|[e|e]|] s6]; try done.
    + by destruct Hs as (s7 & -> & _).
    + destruct Hs as (e' & s7 & ->). right. by exists e'.
  - intros [m bytes] s6 Hv. unfold verdicts. pose proof (verdicts_publish stage versions (manifest_id m bytes) s6 False) as Hp.
    unfold verdicts in Hp. destruct (publish_stage _ _ _ s6) as [[id'|[e|e]|] s7]; try done. subst id'. split; [done|]. by exists m, bytes.
Qed.

(** C6. A verdict is about the archive.  Of two stagings of the same archive against the same
    authenticated metadata and under the same limits, each on a node of its own roots and tree, with
    any reads failing, any calls failing (with any error but "already exists" and "not a directory",
    which a working disk gives only where the archive's own paths collide) and a process that may
    die anywhere: if one succeeds then the other never blames the archive, and if it succeeds too it
    names the same release.  So under one configuration a release that installs anywhere is never
    durably rejected elsewhere for a failing disk.  On either node the two roots are plain paths
    neither of which lies in the other, and the claimed name is free. *)
Theorem a_verdict_is_about_the_archive archive expected limits claim1 staging1 versions1 s1 id s1' claim2 staging2 versions2 s2 :
  well_formed (fs_tree s1) → Forall (λ x, plain_name x = true) staging1 → Forall (λ x, plain_name x = true) versions1 →
  apart staging1 versions1 →
  (∀ name, claim1 = inr name → plain_name name = true ∧ fs_tree s1 !! (staging1 ++ [name]) = None) → honest s1 →
  well_formed (fs_tree s2) → Forall (λ x, plain_name x = true) staging2 → Forall (λ x, plain_name x = true) versions2 →
  apart staging2 versions2 →
  (∀ name, claim2 = inr name → plain_name name = true ∧ fs_tree s2 !! (staging2 ++ [name]) = None) → honest s2 →
  stage_bundle_file archive claim1 staging1 versions1 expected limits s1 = (FsOk id, s1') →
  match (stage_bundle_file archive claim2 staging2 versions2 expected limits s2).1 with
  | FsOk id' => id' = id
  | FsErr e => ∃ why, e = IStorage why
  | FsDead => True
  end.
Proof.
  intros Hw1 Hs1 Hv1 Ha1 Hc1 Hh1 Hw2 Hs2 Hv2 Ha2 Hc2 Hh2 Hrun.
  pose proof (verdicts_stage archive _ _ _ expected limits _ Hw1 Hs1 Hv1 Ha1 Hc1 Hh1) as H1v.
  pose proof (verdicts_stage archive _ _ _ expected limits _ Hw2 Hs2 Hv2 Ha2 Hc2 Hh2) as H2v.
  unfold verdicts in *. rewrite Hrun in H1v. destruct H1v as [Hsize (m & bytes & Hbytes & ->)].
  destruct (stage_bundle_file archive claim2 _ _ _ _ s2) as [[id'|[e|e]|] s']; simpl; [..|eauto|done].
  - destruct H2v as (_ & m' & bytes' & Hbytes' & ->). congruence.
  - destruct H2v as [?|[e' ?]]; congruence.
Qed.

End staging.
