(* ===== verification/BundleRoundtrip.v ===== *)
(** * BundleRoundtrip: what the publisher builds is what a node installs

    [create_bundle] of a source directory and [stage_bundle_file] of the archive it writes, on a node
    where every call works. *)
From S2P Require Import Prelude Identity Maps Releases Tree Bundle BundleSafety.

Lemma try_fold_inv {E A B} (f : B → A → E + B) (P : B → Prop) l : ∀ b b',
  (∀ b x b', P b → f b x = inr b' → P b') → P b → try_fold f b l = inr b' → P b'.
Proof.
  induction l as [|x l IH]; intros b b' Hf Hb; simpl; [by intros [= <-]|].
  intros Hl. apply sum_bind_inr in Hl as (b1 & Hx & Hl). eapply IH; [exact Hf| |exact Hl]. by eapply Hf.
Qed.

Lemma list_snoc_cases {A} (l : list A) : l = [] ∨ ∃ k x, l = k ++ [x].
Proof. destruct l as [|x l _] using rev_ind; eauto. Qed.

(** A fold that only appends appends one part per element. *)
Lemma try_fold_parts {E A B} (f : list B → A → E + list B) (Φ : A → list B → Prop) l : ∀ b b',
  (∀ b x b', f b x = inr b' → ∃ part, b' = b ++ part ∧ Φ x part) → try_fold f b l = inr b' →
  ∃ parts, b' = b ++ concat parts ∧ Forall2 Φ l parts.
Proof.
  induction l as [|x l IH]; intros b b' Hf; simpl.
  - intros [= <-]. exists []. by rewrite app_nil_r.
  - intros Hl. apply sum_bind_inr in Hl as (b1 & Hx & Hl). destruct (Hf _ _ _ Hx) as (part & -> & Hp).
    destruct (IH _ _ Hf Hl) as (parts & -> & Hall). exists (part :: parts). split; [by rewrite <-app_assoc|by constructor].
Qed.

(** ** The publisher's walk and build *)

Definition publishable (path : string) (max : N) : Prop :=
  is_utf8 path = true ∧ path ≠ MANIFEST_FILE ∧ validate_relative path max = inr tt.

Lemma collect_files_inv fuel (t : Tree) root max_files max_path : ∀ d out out',
  collect_files fuel t root d out max_files max_path = inr out' →
  (N.of_nat (length out) ≤ max_files)%N ∧ Forall (λ p, publishable p max_path) out →
  (N.of_nat (length out') ≤ max_files)%N ∧ Forall (λ p, publishable p max_path) out'.
Proof.
  induction fuel as [|fuel IH]; intros d out out' Hc Hok; [done|]. cbn [collect_files] in Hc. revert Hc.
  apply (try_fold_inv _ (λ out, (N.of_nat (length out) ≤ max_files)%N ∧ Forall (λ p, publishable p max_path) out)); [|done]. clear out out' Hok. intros out x out' Hok Hx.
  destruct (t !! (root ++ d ++ [x])) as [[b y| | |]|]; [|by eapply IH|discriminate Hx..]. sum_inv. simplify_eq/=. bool_to_prop.
  destruct Hok as [Hlen Hall]. split.
  - match goal with Hl : (_ <? _)%N = true |- _ => apply N.ltb_lt in Hl end. rewrite length_app. simpl. lia.
  - apply Forall_app. split; [done|]. constructor; [|constructor]. split_and!; [done|done|].
    by match goal with Hv : validate_relative _ _ = inr ?u |- _ => destruct u end.
Qed.

Lemma collect_files_walked fuel (t : Tree) root max_files max_path : well_formed t → ∀ d out out',
  collect_files fuel t root d out max_files max_path = inr out' → ∃ part, out' = out ++ part ∧ walked t root d part.
Proof.
  intros Hwf. induction fuel as [|fuel IH]; intros d out out' Hc; [done|]. cbn [collect_files] in Hc.
  apply (try_fold_parts _ (λ x part, match t !! (root ++ d ++ [x]) with
    | Some NDir => walked t root (d ++ [x]) part
    | Some (NFile _ _) => is_utf8 (joined_path (d ++ [x])) = true ∧ part = [joined_path (d ++ [x])]
    | _ => False
    end)) in Hc as (parts & -> & Hall).
  - exists (concat parts). split; [done|]. eapply walked_gather; [done|apply (merge_sort_Permutation key_le)|exact Hall].
  - clear Hc out out'. intros out x out' Hx. destruct (t !! (root ++ d ++ [x])) as [[b y| | |]|]; [|by eapply IH|discriminate Hx..].
    sum_inv. simplify_eq/=. eexists. split; [reflexivity|]. by bool_to_prop.
Qed.

Section roundtrip.
Context `{!Semver} `{!Sha256} `{!Lowercase} `{!Serde BundleManifest} `{!TarZst} `{!SemverText}.
Implicit Types (t : Tree) (e : TarEntry).

(** The manifest line of a file in the archive. *)
Definition line_of e : ManifestFile :=
  mkManifestFile (te_path e) (sha256_bytes (te_bytes e)) (str_len (te_bytes e)) (te_executable e).

Definition bytes_of (entries : list TarEntry) : N := foldr (λ e n, (str_len (te_bytes e) + n)%N) 0%N entries.

Lemma bytes_of_app a b : bytes_of (a ++ b) = (bytes_of a + bytes_of b)%N.
Proof. unfold bytes_of. induction a as [|e a IH]; simpl; [done|]. rewrite IH. lia. Qed.

Lemma build_files t source limits paths : ∀ expanded files entries expanded' files' entries',
  try_fold (build_file t source limits) (expanded, files, entries) paths = inr (expanded', files', entries') →
  ∃ built, te_path <$> built = paths ∧ files' = files ++ (line_of <$> built) ∧ entries' = entries ++ built
    ∧ ∀ e, e ∈ built → t !! (source ++ components (te_path e)) = Some (NFile (te_bytes e) (te_executable e))
        ∧ (str_len (te_bytes e) ≤ bl_file_bytes limits)%N.
Proof.
  induction paths as [|path paths IH]; intros expanded files entries expanded' files' entries'; cbn [try_fold].
  - intros [= -> -> ->]. exists []. rewrite !app_nil_r. split_and!; try done. by intros e ?%not_elem_of_nil.
  - intros Hb. apply sum_bind_inr in Hb as ([[x1 f1] e1] & Hone & Hb).
    destruct (IH _ _ _ _ _ _ Hb) as (built & Hpaths & -> & -> & Hall). unfold build_file in Hone.
    destruct (t !! (source ++ components path)) as [[b x| | |]|] eqn:Hl; [|discriminate Hone..]. sum_inv. simplify_eq/=.
    exists (mkTarEntry path x b :: built). simpl. rewrite <-!app_assoc. split_and!; try done.
    intros e [->|He]%elem_of_cons; [|by apply Hall]. split; [done|]. by apply N.leb_le.
Qed.

(** ** Unpacking *)

Lemma ev_sp {E A} (p : FS E A) t a t' (I : Tree → Prop) (P : A → Tree → Prop) : ev p t a t' → sp p t I P → P a t'.
Proof. intros Hev Hsp. specialize (Hsp (mkFs t [] [] false (λ _, false)) eq_refl). by rewrite Hev in Hsp. Qed.

Lemma ev_from_archive {A} (a : A) t : ev (from_archive (inr a)) t a t.
Proof. by intros keeps. Qed.

Lemma ev_require b message t : b = true → ev (require b message) t tt t.
Proof. by intros -> keeps. Qed.

Lemma ev_make_dirs rest : ∀ d t,
  (∀ q x k, rest = q ++ x :: k → t !! (d ++ q ++ [x]) = None ∨ t !! (d ++ q ++ [x]) = Some NDir) →
  ∃ t', ev (make_dirs d rest) t tt t'.
Proof.
  induction rest as [|x rest IH]; intros d t Hfree; [exists t; apply ev_ret|]. cbn [make_dirs].
  assert (∃ t1, ev (make_dir (d ++ [x]) (bool_decide (rest = []))) t tt t1
    ∧ ∀ q, t1 !! q = t !! q ∨ t1 !! q = Some NDir) as (t1 & Hev & Hsame).
  { destruct (Hfree [] x rest eq_refl) as [Hn|Hn]; simpl in Hn.
    - exists (<[d ++ [x] := NDir]> t). split; [apply ev_act; by rewrite Hn|]. intros q.
      destruct (decide (d ++ [x] = q)) as [<-|?]; [right; apply lookup_insert_eq|left; by apply lookup_insert_ne].
    - exists t. split; [apply ev_act; by rewrite Hn|by left]. }
  destruct (IH (d ++ [x]) t1) as [t' Ht'].
  { intros q y k ->. rewrite <-app_assoc. destruct (Hsame (d ++ [x] ++ q ++ [y])) as [->| ->]; [|by right].
    apply (Hfree (x :: q) y k eq_refl). }
  exists t'. eapply ev_bind; [exact Hev|done].
Qed.

(** The stage holds these members, and the directories they lie in. *)
Record laid stage t (es : list TarEntry) : Prop := {
  la_wf : well_formed t;
  la_stage : t !! stage = Some NDir;
  la_files : ∀ e, e ∈ es → t !! (stage ++ components (te_path e)) = Some (NFile (te_bytes e) false);
  la_only : ∀ r n, t !! (stage ++ r) = Some n → r ≠ [] →
    (∃ e, e ∈ es ∧ r = components (te_path e)) ∨ n = NDir ∧ ∃ e k, e ∈ es ∧ k ≠ [] ∧ components (te_path e) = r ++ k;
}.

(** No member lies at, above or below a path. *)
Definition clear_of (es : list TarEntry) (path : string) : Prop :=
  ∀ e k, e ∈ es → components (te_path e) ≠ components path ++ k ∧ components path ≠ components (te_path e) ++ k.

(** One more member, in a directory that was made for it. *)
Lemma laid_more stage t t1 es path d x :
  laid stage t es → components path = d ++ [x] → plain_name x = true → clear_of es path →
  grown (λ p, ∃ k, stage ++ d = p ++ k) t t1 → is_dir t1 (stage ++ d) = true → t1 !! (stage ++ d ++ [x]) = None →
  ∀ y bytes, laid stage (<[stage ++ d ++ [x] := NFile bytes false]> t1) (es ++ [mkTarEntry path y bytes]).
Proof.
  intros Hl Hpath Hx Hclear [Hwf1 Hg] Hdir Hnone y bytes. split.
  - rewrite app_assoc. apply well_formed_insert; try done. by rewrite <-app_assoc, Hnone.
  - rewrite lookup_insert_ne.
    + destruct (Hg stage) as [->|(_ & Hn & _)]; [apply (la_stage _ _ _ Hl)|]. by rewrite (la_stage _ _ _ Hl) in Hn.
    + intros Heq. apply (f_equal length) in Heq. rewrite !length_app in Heq. simpl in Heq. lia.
  - intros e [He|[= ->]%list_elem_of_singleton]%elem_of_app; simpl; [|rewrite Hpath; apply lookup_insert_eq].
    pose proof (la_files _ _ _ Hl e He) as Hf. rewrite lookup_insert_ne.
    + destruct (Hg (stage ++ components (te_path e))) as [->|(_ & Hn & _)]; [done|congruence].
    + intros Heq%app_inv_head. apply (proj1 (Hclear e [] He)). by rewrite Hpath, app_nil_r.
  - intros r n Hn Hne. destruct (decide (d ++ [x] = r)) as [<-|Hr].
    { left. exists (mkTarEntry path y bytes). split; [apply elem_of_app; right; by apply list_elem_of_singleton|done]. }
    rewrite lookup_insert_ne in Hn by (by intros ?%app_inv_head). destruct (Hg (stage ++ r)) as [Heq|([k Hk] & _ & Hd)].
    + rewrite Heq in Hn. destruct (la_only _ _ _ Hl r n Hn Hne) as [(e & He & ->)|[-> (e & k & He & Hk & Heq')]];
        [left; exists e; set_solver|right; split; [done|]; exists e, k; set_solver].
    + right. split; [congruence|]. rewrite <-app_assoc in Hk. apply app_inv_head in Hk as ->.
      exists (mkTarEntry path y bytes), (k ++ [x]). simpl. rewrite Hpath, <-app_assoc. split_and!; [set_solver|by destruct k|done].
Qed.

(** Room is made for a member, and with its bytes written it is one more. *)
Lemma ev_open stage t es path :
  laid stage t es → plain_path (components path) → clear_of es path →
  let destination := stage ++ components path in
  ∃ t1, ev (with_error classify_collision (create_dir_all (take (pred (length destination)) destination))) t tt t1
    ∧ ev (with_error classify_collision (create_new destination)) t1 tt (<[destination := NFile EmptyString false]> t1)
    ∧ ∀ x bytes, laid stage (<[destination := NFile bytes false]> t1) (es ++ [mkTarEntry path x bytes]).
Proof.
  intros Hl Hplain Hclear. destruct (components_snoc path) as (d & x & Hpath). rewrite Hpath in Hplain |- *. cbn zeta.
  rewrite app_assoc, take_pred_snoc, <-app_assoc. pose proof (la_wf _ _ _ Hl) as Hwf.
  assert (∀ r, r ≠ [] → (∃ k, d = r ++ k) → t !! (stage ++ r) = None ∨ t !! (stage ++ r) = Some NDir) as Hdirs.
  { intros r Hne [k Hd]. destruct (t !! (stage ++ r)) as [n|] eqn:Hn; [|by left]. right.
    destruct (la_only _ _ _ Hl r n Hn Hne) as [(e & He & Hr)|[-> _]]; [exfalso|done].
    apply (proj2 (Hclear e (k ++ [x]) He)). by rewrite Hpath, Hd, <-Hr, <-app_assoc. }
  destruct (ev_make_dirs (stage ++ d) [] t) as [t1 Hev].
  { intros q y k Heq. cbn [app]. change (y :: k) with ([y] ++ k) in Heq. rewrite app_assoc in Heq.
    apply app_eq_inv in Heq as [(k' & Hs & _)|(k' & -> & Hd)].
    - right. destruct (decide (k' = [])) as [->|Hk]; [rewrite app_nil_r in Hs; rewrite <-Hs; apply (la_stage _ _ _ Hl)|].
      assert (is_dir t (q ++ [y]) = true) as Hdir.
      { eapply wf_between; [done| |exact Hk]. rewrite <-Hs. apply (la_stage _ _ _ Hl). }
      apply is_dir_true in Hdir as [?|?]; [by destruct q|done].
    - destruct (decide (k' = [])) as [->|Hk]; [rewrite app_nil_r; right; apply (la_stage _ _ _ Hl)|]. apply Hdirs; eauto. }
  assert (Forall (λ x, plain_name x = true) (stage ++ d ++ [x])) as Hnames.
  { apply Forall_app. split; [by eapply wf_names, la_stage|apply Hplain]. }
  rewrite app_assoc in Hnames. apply Forall_app in Hnames as [Hsd Hx]. apply Forall_cons in Hx as [Hx _].
  pose proof (ev_sp _ _ _ _ _ _ Hev (sp_grow (λ p, ∃ k, stage ++ d = p ++ k) t (stage ++ d) [] t
    (conj Hwf (λ p, or_introl eq_refl)) eq_refl Hsd (λ p k Hk _, ex_intro _ k Hk))) as [[Hwf1 Hg] Hdir].
  cbn [app] in Hdir. assert (t1 !! (stage ++ d ++ [x]) = None) as Hnone.
  { destruct (Hg (stage ++ d ++ [x])) as [->|([k Hk] & _)].
    - destruct (t !! (stage ++ d ++ [x])) as [n|] eqn:Hn; [exfalso|done].
      destruct (la_only _ _ _ Hl _ n Hn) as [(e & He & Hr)|[-> (e & k & He & Hk & Hr)]]; [by destruct d|..].
      + apply (proj1 (Hclear e [] He)). by rewrite Hpath, app_nil_r, Hr.
      + apply (proj1 (Hclear e k He)). by rewrite Hpath.
    - exfalso. apply (f_equal length) in Hk. rewrite !length_app in Hk. simpl in Hk. lia. }
  exists t1. split_and!.
  - by apply ev_with_error.
  - apply ev_with_error, ev_act. rewrite Hnone. rewrite app_assoc, take_pred_snoc. by rewrite Hdir.
  - by apply (laid_more stage t).
Qed.

Abbreviation joined_chunks := (foldr String.append EmptyString).

Lemma ev_copy_member p x chunks : EmptyString ∉ chunks → ∀ content acc written t,
  t !! p = Some (NFile content x) → (written + str_len (joined_chunks chunks) ≤ u64_max)%N →
  ev (copy_member p (inr <$> chunks) acc written) t
    (String.append acc (joined_chunks chunks), (written + str_len (joined_chunks chunks))%N)
    (<[p := NFile (String.append content (joined_chunks chunks)) x]> t).
Proof.
  induction chunks as [|c chunks IH]; intros Hne content acc written t Hp Hfit; simpl.
  - rewrite !append_empty_r, N.add_0_r. rewrite insert_id by done. eapply ev_bind; [apply ev_from_archive|apply ev_ret].
  - apply not_elem_of_cons in Hne as [Hc Hne]. simpl in Hfit. rewrite str_len_app in Hfit |- *.
    eapply ev_bind; [apply ev_from_archive|]. rewrite bool_decide_false by done.
    eapply ev_bind; [apply ev_with_error, (ev_act _ _ tt); by rewrite Hp|].
    unfold checked_add. rewrite (proj2 (N.leb_le _ _)) by lia. rewrite !append_assoc, N.add_assoc.
    specialize (IH Hne (String.append content c) (String.append acc c) (written + str_len c)%N
      (<[p := NFile (String.append content c) x]> t)). rewrite insert_insert_eq in IH. apply IH; [apply lookup_insert_eq|lia].
Qed.

Lemma ev_read_to_end chunks : EmptyString ∉ chunks → ∀ acc t,
  ev (read_to_end (inr <$> chunks) acc) t (String.append acc (joined_chunks chunks)) t.
Proof.
  induction chunks as [|c chunks IH]; intros Hne acc t; simpl.
  - rewrite append_empty_r. eapply ev_bind; [apply ev_from_archive|apply ev_ret].
  - apply not_elem_of_cons in Hne as [Hc Hne]. eapply ev_bind; [apply ev_from_archive|]. rewrite bool_decide_false by done.
    rewrite append_assoc. by apply IH.
Qed.

(** What unpacking keeps of the members. *)
Definition extracted_of (es : list TarEntry) : gmap string (N * string) :=
  foldl (λ m e, <[te_path e := (str_len (te_bytes e), sha256_bytes (te_bytes e))]> m) ∅ es.

Definition up_of (es : list TarEntry) : Unpacked := mkUnpacked None (extracted_of es) (N.of_nat (length es)) (bytes_of es).

Lemma extracted_snoc es e :
  extracted_of (es ++ [e]) = <[te_path e := (str_len (te_bytes e), sha256_bytes (te_bytes e))]> (extracted_of es).
Proof. unfold extracted_of. by rewrite foldl_app. Qed.

Lemma extracted_lookup es e : NoDup (te_path <$> es) → e ∈ es →
  extracted_of es !! te_path e = Some (str_len (te_bytes e), sha256_bytes (te_bytes e)).
Proof.
  induction es as [|e' es IH] using rev_ind; intros Hnd He; [by apply not_elem_of_nil in He|]. rewrite extracted_snoc.
  rewrite fmap_app in Hnd. apply NoDup_app in Hnd as (Hnd & Hni & _).
  apply elem_of_app in He as [He| ->%list_elem_of_singleton]; [|apply lookup_insert_eq].
  rewrite lookup_insert_ne; [by apply IH|]. intros Heq. apply (Hni (te_path e)); [by apply list_elem_of_fmap_2|].
  apply list_elem_of_singleton. done.
Qed.

Lemma extracted_fresh es path : path ∉ te_path <$> es → extracted_of es !! path = None.
Proof.
  induction es as [|e es IH] using rev_ind; intros Hni; [apply lookup_empty|]. rewrite extracted_snoc.
  rewrite fmap_app in Hni. apply not_elem_of_app in Hni as [Hni Hne]. rewrite lookup_insert_ne; [by apply IH|].
  intros Heq. apply Hne, list_elem_of_singleton. done.
Qed.

Lemma extracted_size es : NoDup (te_path <$> es) → size (extracted_of es) = length es.
Proof.
  induction es as [|e es IH] using rev_ind; intros Hnd; [apply map_size_empty|]. rewrite extracted_snoc.
  rewrite fmap_app in Hnd. apply NoDup_app in Hnd as (Hnd & Hni & _). rewrite map_size_insert_None.
  - rewrite IH, length_app by done. simpl. lia.
  - apply extracted_fresh. intros He. apply (Hni _ He). by apply list_elem_of_singleton.
Qed.

(** The members a node admits, in this order. *)
Record admitted (limits : BundleLimits) (es : list TarEntry) : Prop := {
  ad_files : (N.of_nat (length es) ≤ bl_files limits)%N;
  ad_expanded : (bytes_of es ≤ bl_expanded_bytes limits)%N;
  ad_fits : (bl_expanded_bytes limits ≤ u64_max)%N;
  ad_members : ∀ e, e ∈ es → is_utf8 (te_path e) = true ∧ validate_relative (te_path e) (bl_path_bytes limits) = inr tt
    ∧ (str_len (te_bytes e) ≤ bl_file_bytes limits)%N;
  ad_separate : ∀ before e after, es = before ++ e :: after → clear_of before (te_path e);
}.

Lemma ev_admit_member limits before e after m t :
  admitted limits (before ++ e :: after) → arrives e m →
  ev (admit_member limits (up_of before) m) t (te_path e, bytes_of (before ++ [e])) t.
Proof.
  intros Had (Hreg & Hpath & Hsize & _). destruct (ad_members _ _ Had e) as (Hu & Hv & Hf); [set_solver|].
  pose proof (ad_files _ _ Had) as Hn. pose proof (ad_expanded _ _ Had) as Hx. pose proof (ad_fits _ _ Had) as Hfit.
  rewrite length_app in Hn. rewrite bytes_of_app in Hx |- *. simpl in Hn, Hx |- *. unfold admit_member. rewrite Hreg, Hpath, Hsize.
  eapply ev_bind; [by apply ev_require|]. eapply ev_bind; [apply ev_from_archive|]. eapply ev_bind; [by apply ev_require|].
  eapply ev_bind; [apply ev_of_sum; by rewrite Hv|]. eapply ev_bind; [apply ev_require, N.leb_le; simpl; lia|].
  eapply ev_bind; [by apply ev_require, N.leb_le|].
  eapply ev_bind; [apply ev_of_sum; unfold checked_add; simpl; rewrite (proj2 (N.leb_le _ _)) by lia; done|].
  eapply ev_bind; [apply ev_require, N.leb_le; lia|]. rewrite N.add_0_r. apply ev_ret.
Qed.

Lemma ev_unpack_file stage limits t before e after m :
  laid stage t before → admitted limits (before ++ e :: after) → arrives e m → te_path e ≠ MANIFEST_FILE →
  ∃ t', ev (unpack_member stage limits (up_of before) m) t (up_of (before ++ [e])) t' ∧ laid stage t' (before ++ [e]).
Proof.
  intros Hl Had Harr Hman. destruct (ad_members _ _ Had e) as (_ & Hv & Hf); [set_solver|].
  apply validate_relative_inr in Hv as [_ Hplain%confined_plain].
  destruct (ev_open stage t before (te_path e) Hl Hplain) as (t1 & Hd & Hn & Hmore); [by eapply ad_separate|].
  destruct (Harr) as (_ & _ & Hsize & chunks & Hbody & Hne & Hbytes).
  exists (<[stage ++ components (te_path e) := NFile (te_bytes e) false]> t1).
  split; [|destruct e as [path x bytes]; apply Hmore]. unfold unpack_member.
  eapply ev_bind; [by eapply ev_admit_member|]. cbn beta iota zeta. eapply ev_bind; [exact Hd|]. eapply ev_bind; [exact Hn|].
  rewrite bool_decide_false by done. eapply ev_bind.
  - rewrite Hbody. apply ev_copy_member; [done|apply lookup_insert_eq|]. rewrite Hbytes. pose proof (ad_fits _ _ Had).
    pose proof (ad_expanded _ _ Had) as Hx. rewrite bytes_of_app in Hx. simpl in Hx. lia.
  - rewrite Hbytes, insert_insert_eq. cbn beta iota. eapply ev_bind; [apply ev_require, N.eqb_eq; simpl; lia|].
    eapply ev_bind; [apply ev_with_error, ev_sync|]. unfold up_of. rewrite extracted_snoc, length_app, Hsize. simpl.
    replace (N.of_nat (length before + 1)) with (N.of_nat (length before) + 1)%N by lia. apply ev_ret.
Qed.

Lemma ev_unpack_manifest stage limits t before e m :
  laid stage t before → admitted limits (before ++ [e]) → arrives e m → te_path e = MANIFEST_FILE →
  (str_len (te_bytes e) ≤ MANIFEST_BYTES_LIMIT)%N →
  ∃ t', ev (unpack_member stage limits (up_of before) m) t
      (mkUnpacked (Some (te_bytes e)) (extracted_of before) (N.of_nat (length before) + 1) (bytes_of (before ++ [e]))) t'
    ∧ laid stage t' (before ++ [e]).
Proof.
  intros Hl Had Harr Hman Hlim. destruct (ad_members _ _ Had e) as (_ & Hv & Hf); [set_solver|].
  apply validate_relative_inr in Hv as [_ Hplain%confined_plain].
  destruct (ev_open stage t before (te_path e) Hl Hplain) as (t1 & Hd & Hn & Hmore); [by eapply ad_separate|].
  destruct (Harr) as (_ & _ & Hsize & chunks & Hbody & Hne & Hbytes).
  exists (<[stage ++ components (te_path e) := NFile (te_bytes e) false]> t1).
  split; [|destruct e as [path x bytes]; apply Hmore]. unfold unpack_member.
  eapply ev_bind; [by eapply ev_admit_member|]. cbn beta iota zeta. eapply ev_bind; [exact Hd|]. eapply ev_bind; [exact Hn|].
  rewrite bool_decide_true by done. eapply ev_bind; [apply ev_require, N.leb_le; lia|].
  eapply ev_bind; [rewrite Hbody; by apply ev_read_to_end|]. rewrite Hbytes. cbn [String.append].
  eapply ev_bind; [apply ev_require, N.eqb_eq; lia|].
  eapply ev_bind; [apply ev_with_error, (ev_act _ _ tt); by rewrite lookup_insert_eq|]. rewrite insert_insert_eq.
  eapply ev_bind; [apply ev_with_error, ev_sync|]. apply ev_ret.
Qed.

Lemma ev_unpack_files stage limits last tail members up : ∀ files before t,
  laid stage t before → admitted limits (before ++ files ++ last) → Forall2 arrives files members →
  (∀ e, e ∈ files → te_path e ≠ MANIFEST_FILE) →
  ∃ t', laid stage t' (before ++ files)
    ∧ ∀ t'', ev (unpack_all stage limits (up_of (before ++ files)) tail) t' up t'' →
        ev (unpack_all stage limits (up_of before) ((inr <$> members) ++ tail)) t up t''.
Proof.
  induction members as [|m members IH]; intros files before t Hl Had Harr Hman; inversion Harr as [|e ? files' ? Hm Harr']; subst.
  - exists t. rewrite app_nil_r. by split.
  - destruct (ev_unpack_file stage limits t before e (files' ++ last) m) as (t1 & Hev & Hl1); [done|done|done|apply Hman; set_solver|].
    destruct (IH files' (before ++ [e]) t1) as (t' & Hl' & Hgo); [done|by rewrite <-app_assoc|done|set_solver|].
    rewrite <-app_assoc in Hl', Hgo. exists t'. split; [done|]. intros t'' Ht''. cbn [app fmap list_fmap unpack_all].
    eapply ev_bind; [apply ev_from_archive|]. eapply ev_bind; [exact Hev|]. by apply Hgo.
Qed.

(** The permissions of the declared files. *)
Definition settled stage (es : list TarEntry) t : Tree :=
  foldl (λ t e, <[stage ++ components (te_path e) := NFile (te_bytes e) (te_executable e)]> t) t es.

Lemma settled_other stage es t p :
  (∀ e, e ∈ es → p ≠ stage ++ components (te_path e)) → settled stage es t !! p = t !! p.
Proof.
  unfold settled. revert t. induction es as [|e es IH]; intros t Hp; [done|]. cbn [foldl]. rewrite IH by set_solver.
  apply lookup_insert_ne. intros Heq. apply (Hp e); [set_solver|done].
Qed.

Lemma settled_member stage es t e : NoDup (te_path <$> es) → e ∈ es →
  settled stage es t !! (stage ++ components (te_path e)) = Some (NFile (te_bytes e) (te_executable e)).
Proof.
  revert t. induction es as [|e' es IH]; intros t Hnd He; [by apply not_elem_of_nil in He|].
  cbn [fmap list_fmap] in Hnd. apply NoDup_cons in Hnd as [Hni Hnd]. apply elem_of_cons in He as [->|He]; [|by apply IH].
  change (settled stage (e' :: es) t) with (settled stage es (<[stage ++ components (te_path e') := NFile (te_bytes e') (te_executable e')]> t)).
  rewrite settled_other; [apply lookup_insert_eq|]. intros e He Heq%app_inv_head%components_inj. apply Hni.
  rewrite Heq. by apply list_elem_of_fmap_2.
Qed.

Lemma ev_settle_all stage extracted es : ∀ t,
  NoDup (te_path <$> es) → (∀ e, e ∈ es → extracted !! te_path e = Some (str_len (te_bytes e), sha256_bytes (te_bytes e))) →
  (∀ e, e ∈ es → ∃ x, t !! (stage ++ components (te_path e)) = Some (NFile (te_bytes e) x)) →
  ev (settle_all stage extracted (line_of <$> es)) t tt (settled stage es t).
Proof.
  induction es as [|e es IH]; intros t Hnd Hex Hfiles; [apply ev_ret|]. cbn [fmap list_fmap settle_all] in *.
  apply NoDup_cons in Hnd as [Hni Hnd]. eapply ev_bind.
  - unfold settle_member. eapply ev_bind.
    + apply ev_require. simpl. rewrite Hex by set_solver. apply andb_true_iff. split; [by apply N.eqb_eq|].
      apply digests_match_iff. split; [done|apply sha256_canonical].
    + simpl. destruct (Hfiles e) as [x Hx]; [set_solver|]. apply ev_with_error, (ev_act _ _ tt). by rewrite Hx.
  - apply IH; [done|set_solver|]. intros e' He'. rewrite lookup_insert_ne; [apply Hfiles; set_solver|].
    intros Heq%app_inv_head%components_inj. apply Hni. rewrite Heq. by apply list_elem_of_fmap_2.
Qed.

(** ** Extraction of what was built *)

(** An archive as [create_bundle] writes it. *)
Record built (limits : BundleLimits) (expected : ExpectedBundle) (files : list TarEntry) (bytes : string) (m : BundleManifest) : Prop := {
  bu_members : admitted limits (files ++ [mkTarEntry MANIFEST_FILE false bytes]);
  bu_paths : NoDup (te_path <$> files);
  bu_reserved : ∀ e, e ∈ files → te_path e ≠ MANIFEST_FILE;
  bu_manifest : parse_manifest bytes expected = inr m;
  bu_lines : bm_files m = line_of <$> files;
  bu_size : (str_len bytes ≤ MANIFEST_BYTES_LIMIT)%N;
}.

Definition archive_of (files : list TarEntry) (bytes : string) : string :=
  encode_archive (files ++ [mkTarEntry MANIFEST_FILE false bytes]).

Lemma ev_extract stage limits expected files bytes m t :
  built limits expected files bytes m → laid stage t [] →
  ∃ t1, ev (extract (archive_of files bytes) stage expected limits) t (m, bytes) (settled stage files t1)
    ∧ laid stage t1 (files ++ [mkTarEntry MANIFEST_FILE false bytes]).
Proof.
  intros Hb Hl. set (e := mkTarEntry MANIFEST_FILE false bytes). unfold archive_of. fold e.
  destruct (archive_roundtrip (files ++ [e])) as (members & Hdec & Harr).
  apply Forall2_app_inv_l in Harr as (ms & ms' & Harr & Hlast & ->). inversion Hlast as [|? me ? ? Hm Hnil]; subst. inversion Hnil; subst.
  rewrite fmap_app in Hdec. cbn [fmap list_fmap] in Hdec.
  destruct (ev_unpack_files stage limits [e] [inr me]
    ms (mkUnpacked (Some bytes) (extracted_of files) (N.of_nat (length files) + 1) (bytes_of (files ++ [e]))) files [] t)
    as (t0 & Hl0 & Hgo); [done|apply (bu_members _ _ _ _ _ Hb)|done|apply (bu_reserved _ _ _ _ _ Hb)|].
  destruct (ev_unpack_manifest stage limits t0 files e me) as (t1 & Hev & Hl1);
    [done|apply (bu_members _ _ _ _ _ Hb)|done|done|apply (bu_size _ _ _ _ _ Hb)|].
  exists t1. split; [|done]. unfold extract. rewrite Hdec. eapply ev_bind; [apply ev_from_archive|]. eapply ev_bind.
  - apply Hgo. cbn [app unpack_all]. eapply ev_bind; [apply ev_from_archive|]. eapply ev_bind; [exact Hev|].
    eapply ev_bind; [apply ev_from_archive|apply ev_ret].
  - eapply ev_bind; [by apply ev_of_sum|]. eapply ev_bind; [apply ev_of_sum; by rewrite (bu_manifest _ _ _ _ _ Hb)|].
    pose proof (bu_paths _ _ _ _ _ Hb) as Hnd. rewrite (bu_lines _ _ _ _ _ Hb).
    eapply ev_bind; [apply ev_require, bool_decide_eq_true; simpl; by rewrite extracted_size, length_fmap|].
    eapply ev_bind; [|apply ev_ret]. apply ev_settle_all; [done|intros; by apply extracted_lookup|].
    intros f Hf. exists false. apply (la_files _ _ _ Hl1). set_solver.
Qed.

(** The files of the stage are those that were built. *)
Lemma settled_files stage files bytes t1 r b x :
  laid stage t1 (files ++ [mkTarEntry MANIFEST_FILE false bytes]) → NoDup (te_path <$> files) → r ≠ [] → r ≠ [MANIFEST_FILE] →
  settled stage files t1 !! (stage ++ r) = Some (NFile b x)
  ↔ ∃ e, e ∈ files ∧ r = components (te_path e) ∧ b = te_bytes e ∧ x = te_executable e.
Proof.
  intros Hl Hnd Hr Hm. split.
  - intros Hs. destruct (decide (Exists (λ e, r = components (te_path e)) files)) as [(e & He & ->)%Exists_exists|Hno].
    + rewrite settled_member in Hs by done. exists e. by simplify_eq.
    + rewrite settled_other in Hs.
      2:{ intros e He Heq%app_inv_head. apply Hno, Exists_exists. eauto. }
      destruct (la_only _ _ _ Hl r _ Hs Hr) as [(e & He & ->)|[? _]]; [exfalso|done].
      apply elem_of_app in He as [He| ->%list_elem_of_singleton]; [apply Hno, Exists_exists; eauto|done].
  - intros (e & He & -> & -> & ->). by apply settled_member.
Qed.

(** ** What the publisher builds *)

(** The publisher's check of the source refuses a file of the reserved name, not a directory. *)
Definition no_reserved_directory t (source : Path) : Prop :=
  ∀ k b x, k ≠ [] → t !! (source ++ MANIFEST_FILE :: k) ≠ Some (NFile b x).

Lemma add_sizes files : ∀ total expanded,
  try_fold (λ total file, add_size total (mfl_size file)) total (line_of <$> files) = inr expanded →
  expanded = (total + bytes_of files)%N.
Proof.
  induction files as [|e files IH]; intros total expanded; cbn [fmap list_fmap try_fold].
  - intros [= <-]. simpl. lia.
  - intros Hs. apply sum_bind_inr in Hs as (next & Hn & Hs). apply IH in Hs as ->. unfold add_size in Hn.
    apply ok_or_inr, checked_add_Some in Hn as [-> _]. simpl. lia.
Qed.

Lemma separate_files t source files :
  well_formed t → NoDup (te_path <$> files) →
  (∀ e, e ∈ files → t !! (source ++ components (te_path e)) = Some (NFile (te_bytes e) (te_executable e))) →
  ∀ before e after, files = before ++ e :: after → clear_of before (te_path e).
Proof.
  intros Hwf Hnd Hf before e after ->. assert (∀ a b k, a ∈ before ++ e :: after → b ∈ before ++ e :: after →
    components (te_path a) = components (te_path b) ++ k → te_path a = te_path b) as Hsame.
  { intros a b k Ha%Hf Hb%Hf Heq. destruct (decide (k = [])) as [->|Hk]; [rewrite app_nil_r in Heq; by apply components_inj|].
    rewrite Heq, app_assoc in Ha. apply wf_between in Ha; [|done|done].
    apply is_dir_true in Ha as [Ha|Ha]; [|congruence]. apply app_eq_nil in Ha as [_ Ha]. by destruct (components_ne (te_path b)). }
  rewrite fmap_app in Hnd. apply NoDup_app in Hnd as (_ & Hni & _). intros e' k He'. split; intros Heq.
  - apply Hsame in Heq; [|set_solver|set_solver]. apply (Hni (te_path e')); [by apply list_elem_of_fmap_2|rewrite Heq; set_solver].
  - apply Hsame in Heq; [|set_solver|set_solver]. apply (Hni (te_path e')); [by apply list_elem_of_fmap_2|rewrite <-Heq; set_solver].
Qed.

(** What a manifest that was written and read back says. *)
Lemma parse_written m bytes expected m' :
  to_vec m = Some bytes → parse_manifest bytes expected = inr m' →
  m' = m ∧ (str_len bytes ≤ MANIFEST_BYTES_LIMIT)%N
  ∧ ∀ files, bm_files m = line_of <$> files → (str_len bytes + bytes_of files ≤ BUNDLE_EXPANDED_BYTES_LIMIT)%N.
Proof.
  intros Hw%serde_roundtrip Hp. unfold parse_manifest, parse_shape in Hp. sum_inv. simplify_eq/=.
  split_and!; [done|by apply N.leb_le|]. intros files Hf. rewrite Hf in *.
  match goal with Ht : try_fold _ _ (line_of <$> _) = inr _ |- _ => apply add_sizes in Ht as -> end. by apply N.leb_le.
Qed.

(** The members of an archive the publisher built pass every check of a node. *)
Lemma admitted_files t source files bytes limit :
  well_formed t → no_reserved_directory t source → NoDup (te_path <$> files) →
  (∀ e, e ∈ files → t !! (source ++ components (te_path e)) = Some (NFile (te_bytes e) (te_executable e))
     ∧ (str_len (te_bytes e) ≤ BUNDLE_FILE_BYTES_LIMIT)%N) →
  Forall (λ p, publishable p BUNDLE_PATH_BYTES_LIMIT) (te_path <$> files) →
  (N.of_nat (length files) ≤ BUNDLE_FILES_LIMIT - 1)%N → (str_len bytes ≤ MANIFEST_BYTES_LIMIT)%N →
  (str_len bytes + bytes_of files ≤ BUNDLE_EXPANDED_BYTES_LIMIT)%N →
  admitted (with_target_limit limit) (files ++ [mkTarEntry MANIFEST_FILE false bytes]).
Proof.
  intros Hwf Hres Hnd Hf Hpub Hlen Hman Hsum. rewrite Forall_fmap in Hpub. rewrite Forall_forall in Hpub. split; cbn [with_target_limit bl_files
    bl_expanded_bytes bl_path_bytes bl_file_bytes].
  - rewrite length_app. simpl. unfold BUNDLE_FILES_LIMIT in *. lia.
  - rewrite bytes_of_app. simpl. lia.
  - done.
  - intros e [He| ->%list_elem_of_singleton]%elem_of_app.
    + destruct (Hpub e He) as (? & _ & ?). by destruct (Hf e He).
    + simpl. split_and!; [done|done|]. unfold MANIFEST_BYTES_LIMIT, BUNDLE_FILE_BYTES_LIMIT in *. lia.
  - intros before e after Heq. destruct (list_snoc_cases after) as [->|(after' & last & ->)].
    + apply app_inj_tail in Heq as [-> <-]. intros e k He. cbn [te_path]. rewrite components_manifest.
      destruct (Hpub e He) as (_ & Hne & _). destruct (Hf e He) as [Hfile _]. assert (components (te_path e) ≠ [MANIFEST_FILE]) as Hnm.
      { rewrite <-components_manifest. by intros ?%components_inj. }
      split; intros Heq.
      * destruct k as [|y k]; [by rewrite app_nil_r in Heq|]. rewrite Heq in Hfile. by apply (Hres (y :: k)) in Hfile.
      * destruct (components (te_path e)) as [|y q] eqn:Hc; [by apply components_ne in Hc|]. simplify_eq/=.
        by destruct q; [|].
    + rewrite app_comm_cons, app_assoc in Heq. apply app_inj_tail in Heq as [-> _].
      by apply (separate_files t source _ Hwf Hnd (λ e He, proj1 (Hf e He)) before e after').
Qed.

Lemma create_bundle_built t source product version platform archive limit :
  well_formed t → no_reserved_directory t source → create_bundle t source product version platform = inr archive →
  ∃ files bytes m, archive = archive_of files bytes
    ∧ built (with_target_limit limit) (mkExpectedBundle product version platform) files bytes m
    ∧ ∀ r b x, r ≠ [] → t !! (source ++ r) = Some (NFile b x)
        ↔ ∃ e, e ∈ files ∧ r = components (te_path e) ∧ b = te_bytes e ∧ x = te_executable e.
Proof.
  intros Hwf Hres Hc. unfold create_bundle in Hc. cbn zeta in Hc.
  apply sum_bind_inr in Hc as ([] & _ & Hc). apply sum_bind_inr in Hc as ([] & _ & Hc).
  apply sum_bind_inr in Hc as (paths & Hpaths & Hc). apply sum_bind_inr in Hc as ([[x f] files] & Hbuild & Hc).
  apply sum_bind_inr in Hc as (bytes & Hbytes%ok_or_inr & Hc). apply sum_bind_inr in Hc as (m & Hparse & [= <-]).
  pose proof (collect_files_inv _ _ _ _ _ _ _ _ Hpaths) as [Hlen Hpub]; [split; [done|constructor]|].
  apply collect_files_walked in Hpaths as (part & -> & _ & Hnd & Hin); [|done]. cbn [app] in *.
  apply build_files in Hbuild as (es & Hsorted & -> & -> & Hes). cbn [app] in *.
  assert (te_path <$> es ≡ₚ part) as Hperm by (rewrite Hsorted; apply (merge_sort_Permutation key_le)).
  destruct (parse_written _ _ _ _ Hbytes Hparse) as (-> & Hsize & Hsum). specialize (Hsum es eq_refl).
  assert (NoDup (te_path <$> es)) as Hnd' by (by rewrite Hperm). rewrite <-Hperm in Hpub.
  assert (N.of_nat (length es) ≤ BUNDLE_FILES_LIMIT - 1)%N as Hlen'.
  { rewrite <-(length_fmap te_path es), Hperm. exact Hlen. }
  exists es, bytes, (mkBundleManifest MANIFEST_SCHEMA product version platform (line_of <$> es)). split_and!; [done| |].
  - split; try done; [by eapply admitted_files|]. intros e He. rewrite Forall_fmap, Forall_forall in Hpub. by destruct (Hpub e He) as (_ & ? & _).
  - intros r b x' Hr. split.
    + intros Hl. assert (plain_path r) as Hpl.
      { split; [done|]. apply (wf_names t Hwf) in Hl. by apply Forall_app in Hl as [_ Hl]. }
      assert (joined_path r ∈ te_path <$> es) as (e & Heq & He)%list_elem_of_fmap.
      { rewrite Hperm. apply Hin. by exists r, b, x'. }
      exists e. assert (r = components (te_path e)) as -> by (by rewrite <-Heq, components_joined).
      destruct (Hes e He) as [Hl' _]. rewrite Hl in Hl'. by injection Hl' as -> ->.
    + intros (e & He & -> & -> & ->). by apply Hes.
Qed.

(** ** Staging where every call works *)

(** A storage root is there, or can be made. *)
Definition makeable t (root : Path) : Prop :=
  ∀ p k, root = p ++ k → p ≠ [] → t !! p = None ∨ t !! p = Some NDir.

Lemma ev_ensure_real_directory (along : Path → Prop) t root :
  well_formed t → Forall (λ x, plain_name x = true) root → makeable t root → (∀ p k, root = p ++ k → p ≠ [] → along p) →
  ∃ t', ev (storage (ensure_real_directory root)) t tt t' ∧ grown along t t' ∧ is_dir t' root = true.
Proof.
  intros Hwf Hp Hm Ha. destruct (ev_make_dirs root [] t) as [t' Hev].
  { intros q x k ->. cbn [app]. apply (Hm _ k); [by rewrite <-app_assoc|by destruct q]. }
  pose proof (ev_sp _ _ _ _ _ _ Hev (sp_grow along t root [] t (conj Hwf (λ p, or_introl eq_refl)) eq_refl Hp Ha)) as [Hg Hd].
  exists t'. split; [|done]. apply ev_with_error. eapply ev_bind; [exact Hev|]. apply ev_observe. cbn [app] in Hd. by rewrite Hd.
Qed.

Lemma grown_keeps along t t' p : grown along t t' → t !! p = None ∨ t !! p = Some NDir → t' !! p = None ∨ t' !! p = Some NDir.
Proof. intros [_ Hg] Hp. destruct (Hg p) as [->|(_ & _ & ?)]; [done|by right]. Qed.

Lemma grown_free along t t' p : grown along t t' → t !! p = None → (along p → False) → t' !! p = None.
Proof. intros [_ Hg] Hp Hno. by destruct (Hg p) as [->|(Ha & _)]; [|destruct (Hno Ha)]. Qed.

Lemma ev_publish_stage t stage versions id m :
  well_formed t → ReleaseId_validate id = Ok tt →
  (∀ r, stage ≠ (versions ++ [directory_name id]) ++ r) → (∀ r, versions ++ [directory_name id] ≠ stage ++ r) →
  holds t stage id m → is_dir t versions = true → t !! (versions ++ [directory_name id]) = None →
  ev (publish_stage stage versions id) t id (rename_tree stage (versions ++ [directory_name id]) t).
Proof.
  intros Hwf Hid Hsd Hds Hh Hv Hfree. set (dest := versions ++ [directory_name id]) in *. unfold publish_stage. fold dest.
  eapply ev_bind; [apply ev_with_error, ev_observe; by rewrite Hfree, bool_decide_false by (by intros [])|].
  eapply ev_bind; [apply ev_ret|]. cbn beta iota. eapply ev_bind; [apply ev_ret|]. eapply ev_bind; [apply ev_with_error, ev_sync|].
  eapply ev_bind.
  - apply ev_with_error, (ev_act _ _ tt). unfold dest at 1. rewrite take_pred_snoc, Hv, Hfree.
    assert (is_dir t stage = true) as -> by (apply is_dir_true; right; apply (hd_dir _ _ _ _ Hh)). done.
  - eapply ev_bind; [apply ev_with_error, ev_sync|]. eapply ev_bind; [|apply ev_ret]. apply ev_with_error, (ev_observe _ _ m).
    apply read_release_iff.
    + apply well_formed_rename; try done; [apply (hd_dir _ _ _ _ Hh)|by apply directory_name_plain].
    + split; [done|]. fold dest. eapply holds_ext; [|exact Hh]. intros r. by rewrite lookup_rename, under_app.
Qed.

(** A node that can take the release: its roots apart and makeable, the claimed name and the
    release's own directory free. *)
Record ready t (name : string) (staging versions : Path) (id : ReleaseId) : Prop := {
  rd_wf : well_formed t;
  rd_staging : Forall (λ x, plain_name x = true) staging ∧ makeable t staging;
  rd_versions : Forall (λ x, plain_name x = true) versions ∧ makeable t versions;
  rd_apart : apart staging versions;
  rd_claim : plain_name name = true ∧ t !! (staging ++ [name]) = None;
  rd_release : t !! (versions ++ [directory_name id]) = None;
}.

(** The two storage roots, and a fresh stage in one of them. *)
Lemma ev_roots t name staging versions id :
  ready t name staging versions id →
  ∃ t1 t2, ev (storage (ensure_real_directory staging)) t tt t1 ∧ ev (storage (ensure_real_directory versions)) t1 tt t2
    ∧ well_formed t2 ∧ is_dir t2 staging = true ∧ is_dir t2 versions = true
    ∧ t2 !! (staging ++ [name]) = None ∧ t2 !! (versions ++ [directory_name id]) = None.
Proof.
  intros [Hwf [Hps Hms] [Hpv Hmv] Hap [Hname Hfree] Hrel].
  set (along := λ p : Path, (∃ k, staging = p ++ k) ∨ ∃ k, versions = p ++ k).
  destruct (ev_ensure_real_directory along t staging) as (t1 & Hev1 & Hg1 & Hd1); [done|done|done|by left; eauto|].
  destruct (ev_ensure_real_directory along t1 versions) as (t2 & Hev2 & Hg2 & Hd2);
    [apply Hg1|done| |by right; eauto|].
  { intros p k Hk Hp. eapply grown_keeps; [exact Hg1|]. by eapply Hmv. }
  pose proof (grown_trans _ _ _ _ Hg1 Hg2) as Hg. destruct Hap as [Hsv Hvs].
  assert (∀ a b (x : string), (∀ k, a ≠ b ++ k) → (∀ k, b ≠ a ++ k) → ∀ k, a ≠ (a ++ [x]) ++ k ∧ b ≠ (a ++ [x]) ++ k) as Hnot.
  { intros a b x Hab Hba k. split; intros Hk.
    - apply (f_equal length) in Hk. rewrite !length_app in Hk. simpl in Hk. lia.
    - rewrite <-app_assoc in Hk. by apply (Hba ([x] ++ k)). }
  exists t1, t2. split_and!; [done|done|apply Hg2|by eapply grown_is_dir; [exact Hg2|]|done|..]; (eapply grown_free; [exact Hg|done|]); intros [[k Hk]|[k Hk]].
  - by destruct (Hnot staging versions name Hsv Hvs k).
  - by destruct (Hnot staging versions name Hsv Hvs k).
  - by destruct (Hnot versions staging (directory_name id) Hvs Hsv k).
  - by destruct (Hnot versions staging (directory_name id) Hvs Hsv k).
Qed.

Lemma ev_stage_bundle_file limit expected files bytes m t name staging versions :
  let id := manifest_id m bytes in
  let dest := versions ++ [directory_name id] in
  built (with_target_limit limit) expected files bytes m → ready t name staging versions id →
  (str_len (archive_of files bytes) ≤ limit)%N →
  ∃ t', ev (stage_bundle_file (archive_of files bytes) (inr name) staging versions expected (with_target_limit limit)) t id t'
    ∧ ∀ r b x, r ≠ [] → r ≠ [MANIFEST_FILE] → t' !! (dest ++ r) = Some (NFile b x)
        ↔ ∃ e, e ∈ files ∧ r = components (te_path e) ∧ b = te_bytes e ∧ x = te_executable e.
Proof.
  intros id dest Hb Hready Hlimit. destruct (ev_roots _ _ _ _ _ Hready) as (t1 & t2 & Hev1 & Hev2 & Hwf2 & Hds & Hdv & Hfree & Hrel).
  destruct Hready as [_ _ _ Hap [Hname _] _]. set (stage := staging ++ [name]). set (t3 := <[stage := NDir]> t2).
  pose proof (fresh_stage t2 name staging Hwf2 Hds Hname Hfree) as Hu. fold stage t3 in Hu.
  assert (laid stage t3 []) as Hl.
  { split; [apply (uk_framed _ _ _ _ _ Hu)|apply (uk_stage _ _ _ _ _ Hu)|by intros e ?%not_elem_of_nil|].
    intros r n Hr Hne. unfold t3, stage in Hr. by rewrite nothing_below in Hr. }
  destruct (ev_extract stage (with_target_limit limit) expected files bytes m t3 Hb Hl) as (t4 & Hev & Hl4).
  pose proof (ev_sp _ _ _ _ _ _ Hev (sp_extract _ _ _ _ _ _ Hu)) as ([Hwf5 Hf5] & Hman & Hparse & Hh). cbn [fst snd] in Hman, Hparse, Hh.
  destruct (apart_below staging versions name (directory_name id) Hap) as [Hsd Hds']. fold stage dest in Hsd, Hds'.
  assert (∀ r, under stage (dest ++ r) = None) as Hout by (intros r; by apply apart_under).
  assert (is_dir (settled stage files t4) versions = true) as Hdv5.
  { apply is_dir_true. apply is_dir_true in Hdv as [?|Hdv]; [by left|right]. rewrite Hf5; [done|]. apply under_None. intros k Hk.
    apply (proj2 Hap ([name] ++ k)). rewrite Hk. unfold stage. by rewrite <-app_assoc. }
  assert (settled stage files t4 !! dest = None) as Hrel5.
  { rewrite Hf5; [done|]. specialize (Hout []). by rewrite app_nil_r in Hout. }
  exists (remove_all stage (rename_tree stage dest (settled stage files t4))). split.
  - unfold stage_bundle_file. do 2 (eapply ev_bind; [apply ev_with_error, ev_sync|]).
    eapply ev_bind; [by apply ev_require, N.leb_le|]. eapply ev_bind; [exact Hev1|]. eapply ev_bind; [exact Hev2|].
    eapply ev_bind; [by apply ev_of_sum|]. cbn zeta. fold stage.
    eapply ev_bind; [apply ev_with_error, (ev_act _ _ tt); unfold stage; by rewrite Hfree|]. fold stage t3.
    eapply ev_finally; [|apply ev_remove_path]. eapply ev_bind; [exact Hev|]. cbn beta iota.
    apply (ev_publish_stage _ _ _ _ m); try done. eapply (identified_valid _ expected _ m). by exists bytes.
  - intros r b x Hr Hrm. rewrite lookup_remove_all, Hout, lookup_rename, under_app by done.
    apply (settled_files stage files bytes); [done|apply (bu_paths _ _ _ _ _ Hb)|done|done].
Qed.

(** C7. What the publisher builds is what a node installs.  The archive [create_bundle] writes of a
    source directory, without files below a directory of the reserved name, carries one release
    identity of the published version; on every node that can take it, where every call works,
    staging the archive returns that identity, and the release directory then holds exactly the
    files of the source, with their bytes and their permissions, beside the manifest. *)
Theorem what_is_built_is_what_installs t source product version platform archive limit :
  well_formed t → no_reserved_directory t source →
  create_bundle t source product version platform = inr archive → (str_len archive ≤ limit)%N →
  ∃ id, Identity.version id = version ∧ ∀ node name staging versions keeps, ready node name staging versions id →
    ∃ node', stage_bundle_file archive (inr name) staging versions (mkExpectedBundle product version platform)
               (with_target_limit limit) (mkFs node [] [] false keeps) = (FsOk id, mkFs node' [] [] false keeps)
      ∧ ∀ r b x, r ≠ [] → r ≠ [MANIFEST_FILE] →
          node' !! ((versions ++ [directory_name id]) ++ r) = Some (NFile b x) ↔ t !! (source ++ r) = Some (NFile b x).
Proof.
  intros Hwf Hres Hc Hlimit. destruct (create_bundle_built _ _ _ _ _ _ limit Hwf Hres Hc) as (files & bytes & m & -> & Hb & Hfiles).
  exists (manifest_id m bytes). split.
  { pose proof (bu_manifest _ _ _ _ _ Hb) as Hp. unfold parse_manifest in Hp. sum_inv. bool_to_prop. simplify_eq/=. done. }
  intros node name staging versions keeps Hready.
  destruct (ev_stage_bundle_file limit _ files bytes m node name staging versions Hb Hready Hlimit) as (t' & Hev & Hsame).
  exists t'. split; [apply Hev|]. intros r b x Hr Hrm. by rewrite Hsame, Hfiles.
Qed.

End roundtrip.
