(* ===== verification/Selection.v ===== *)
(** * Selection: the release a node may install next

    Models [updated-tuf/src/select.rs] and [policy.rs] with the repository lookups of
    [updated-tuf/src/lib.rs] and the canonical target layout of [repo.rs]: which authenticated
    package each release of the signed graph names, which of them this installation may run, and
    the route of them a node takes.  tough's verified metadata is the repository record's: the
    lookup by target name and the listing.  A message is a constructor with its arguments, [None]
    a panic. *)
From S2P Require Import Prelude Identity State Maps Releases Routes Assignment Inventory.

(** ** Targets *)

(** A value of a target's custom metadata, as far as [as_str] tells. *)
Inductive CustomValue : Type := CText (s : string) | COther.

(** tough's signed target: its raw digest bytes, length and custom metadata. *)
Record TargetEntry : Type := mkTargetEntry {
  te_sha256 : string;
  te_length : N;
  te_custom : BTreeMap CustomValue;
}.

Record VerifiedTarget : Type := mkVerifiedTarget {
  vt_path : string;
  vt_length : N;
  vt_sha256 : string;
  vt_custom : BTreeMap CustomValue;
}.

Definition to_verified (path : string) (t : TargetEntry) : VerifiedTarget :=
  mkVerifiedTarget path (te_length t) (te_sha256 t) (te_custom t).

Definition target_sha (t : VerifiedTarget) : string := hex_encode (vt_sha256 t).

(** ** The product policy *)

Record DefaultPolicy : Type := mkDefaultPolicy {
  dp_product : string;
  dp_channel : string;
  dp_os : string;
  dp_arch : string;
}.

Inductive PolicyError : Type :=
| PMissingField (k : string)
| PFieldDiffers (k got want : string)
| PNotCanonical (path : string)
| PSegmentDiffers (what got want path : string)
| PInvalidVersion (v : string).

(** [DefaultPolicy::current] on a host whose constants are [os] and [arch]. *)
Definition policy_current (os arch product channel : string) : DefaultPolicy :=
  mkDefaultPolicy product channel os arch.

Definition field (candidate : VerifiedTarget) (k : string) : PolicyError + string :=
  ok_or (match vt_custom candidate !! k with Some (CText v) => Some v | _ => None end) (PMissingField k).

Definition os_arch (policy : DefaultPolicy) : string :=
  String.append (dp_os policy) (String.append "-" (dp_arch policy)).

Section policy.
Context `{SemverOrder}.
Context (policy : DefaultPolicy).

Definition parse_semver (v : string) : PolicyError + SemVersion :=
  ok_or (parse_release_version v) (PInvalidVersion v).

Definition wanted_fields : list (string * string) :=
  [("product", dp_product policy); ("channel", dp_channel policy); ("os", dp_os policy);
   ("arch", dp_arch policy)]%string.

Definition check_field (candidate : VerifiedTarget) (x : string * string) : PolicyError + unit :=
  got ← field candidate x.1;
  demand (bool_decide (got = x.2)) (PFieldDiffers x.1 got x.2).

(** The identity segments of a runnable target's path, each with its name. *)
Definition expected_segments (version : string) : list (string * string) :=
  [("products", "products"); (dp_product policy, "product"); (dp_channel policy, "channel");
   (version, "version"); (os_arch policy, "os-arch")]%string.

Definition check_segment (path : string) (x : (string * string) * string) : PolicyError + unit :=
  demand (bool_decide (x.2 = x.1.1)) (PSegmentDiffers x.1.2 x.2 x.1.1 path).

Definition candidate_version (candidate : VerifiedTarget) : PolicyError + SemVersion :=
  _ ← each (check_field candidate) wanted_fields;
  version ← field candidate "version";
  let segments := split_on "/"%char EmptyString (vt_path candidate) in
  let expected := expected_segments version in
  _ ← demand (length segments =? length expected + 1)%nat (PNotCanonical (vt_path candidate));
  _ ← each (check_segment (vt_path candidate)) (zip expected segments);
  parse_semver version.

Lemma field_inr t k v : field t k = inr v ↔ vt_custom t !! k = Some (CText v).
Proof.
  unfold field. rewrite ok_or_inr. destruct (vt_custom t !! k) as [[s|]|]; split; congruence.
Qed.

Lemma check_field_inr t x : check_field t x = inr tt ↔ vt_custom t !! x.1 = Some (CText x.2).
Proof.
  unfold check_field. rewrite sum_bind_inr. setoid_rewrite demand_inr. setoid_rewrite field_inr.
  setoid_rewrite bool_decide_eq_true. naive_solver.
Qed.

(** Six segments whose first five are the expected ones. *)
Lemma segments_agree path expected segments :
  (length segments =? length expected + 1)%nat = true ∧ each (check_segment path) (zip expected segments) = inr tt
  ↔ ∃ file, segments = expected.*1 ++ [file].
Proof.
  revert segments. induction expected as [|[want what] expected IH]; intros segments.
  - simpl. rewrite Nat.eqb_eq. split; [|by intros [file ->]]. destruct segments as [|file [|]]; simpl; [lia| |lia].
    intros _. by exists file.
  - destruct segments as [|got segments]; simpl.
    { split; [by intros [? _]|by intros [? ?]]. }
    unfold check_segment at 1. simpl. case_bool_decide as Hg; simpl.
    + subst got. specialize (IH segments). rewrite Nat.eqb_eq in *. rewrite IH. naive_solver.
    + split; [by intros [_ ?]|]. intros [file [= ? _]]. congruence.
Qed.

Lemma candidate_version_inr t parsed :
  candidate_version t = inr parsed ↔
  Forall (λ x, vt_custom t !! x.1 = Some (CText x.2)) (wanted_fields)
  ∧ ∃ signed file, vt_custom t !! "version"%string = Some (CText signed)
    ∧ split_on "/"%char EmptyString (vt_path t) = (expected_segments signed).*1 ++ [file]
    ∧ parse_release_version signed = Some parsed.
Proof.
  unfold candidate_version. rewrite sum_bind_inr. setoid_rewrite each_inr. setoid_rewrite check_field_inr.
  rewrite Forall_forall. setoid_rewrite sum_bind_inr. setoid_rewrite field_inr. cbn zeta.
  setoid_rewrite sum_bind_inr. setoid_rewrite sum_bind_inr. setoid_rewrite demand_inr.
  unfold parse_semver. setoid_rewrite ok_or_inr. split.
  - intros ([] & Hf & signed & Hv & [] & Hlen & [] & Hseg & Hp). split; [done|].
    destruct (proj1 (segments_agree (vt_path t) _ _) (conj Hlen Hseg)) as [file Hfile]. by exists signed, file.
  - intros (Hf & signed & file & Hv & Hfile & Hp).
    destruct (proj2 (segments_agree (vt_path t) (expected_segments signed) _) (ex_intro _ file Hfile)) as [Hlen Hseg].
    exists tt. split; [done|]. exists signed. split; [done|]. exists tt. split; [done|]. by exists tt.
Qed.

End policy.

(** ** The layout applications are published under *)

Definition application_name (product channel version os arch component : string) : string :=
  String.concat "/" ["products"; product; channel; version;
    String.append os (String.append "-" arch); component]%string.

(** The custom metadata of [PublishTarget::application]. *)
Definition application_custom (product channel version os arch : string) : BTreeMap CustomValue :=
  <["product" := CText product]> (<["channel" := CText channel]> (<["version" := CText version]>
    (<["os" := CText os]> (<["arch" := CText arch]> {["executable" := COther]})))).

(** ** The repository *)

Inductive Refusal : Type :=
| RefusedPolicy (e : PolicyError)
| RefusedVersion (version signed : string)
| RefusedAbsent (path : string)
| RefusedDigest (path actual expected : string)
| RefusedRejected (version : string)
| RefusedNoDeployment
| RefusedGraph (e : ReleaseError)
| RefusedMessage (message : string).

(** A refusal, or the ones that leave no package for the target or no route to it. *)
Inductive TrustFailure : Type :=
| Refused (why : Refusal)
| TargetUnavailable (failures : list (string * Refusal))
| NoRouteTo (e : ReleaseError) (failures : list (string * Refusal)).

(** [updated_tuf::Error] *)
Inductive Error : Type :=
| Transport (message : string)
| Trust (why : TrustFailure)
| Local (message : string).

Definition is_retryable (e : Error) : bool := match e with Transport _ => true | _ => false end.

Inductive Stance : Type :=
| SNothing
| SInstalled (version sha256 : string)
| SReacquire (version sha256 : string).

Definition installed_version (s : Stance) : option string :=
  match s with
  | SNothing => None
  | SInstalled version _ | SReacquire version _ => Some version
  end.

Record SelectedRelease : Type := mkSelectedRelease {
  sr_target : VerifiedTarget;
  sr_version : string;
  sr_sha256 : string;
}.

Section repository.
Context `{!JsonValues} `{SemverOrder}.

Record AssignmentContext : Type := mkAssignmentContext {
  ac_document : RepositoryAssignment;
  ac_sha256 : string;
  ac_repository_lineage : RepositoryLineage;
}.

(** A loaded repository: tough's lookup of a target by its name, its listing, the byte ceiling of
    a target, and the assignment that named it. *)
Record TrustedRepository : Type := mkTrustedRepository {
  tr_lookup : string → option TargetEntry;
  tr_listing : list (string * TargetEntry);
  tr_target_limit : N;
  tr_assignment : option AssignmentContext;
}.

Section selection.
Context (repo : TrustedRepository).

Definition all_targets : list VerifiedTarget :=
  (λ x, to_verified x.1 x.2) <$> tr_listing repo.

(** [TrustedRepository::target] *)
Definition find_target (path : string) : option VerifiedTarget :=
  to_verified path <$> tr_lookup repo path.

(** Every error of the lookups and checks below is an [Error::Trust]. *)
Definition exact_target (reference : TargetReference) : Refusal + VerifiedTarget :=
  target ← ok_or (find_target (tr_path reference)) (RefusedAbsent (tr_path reference));
  let actual := hex_encode (vt_sha256 target) in
  _ ← demand (digests_match actual (tr_sha256 reference))
        (RefusedDigest (vt_path target) actual (tr_sha256 reference));
  inr target.

Context (policy : DefaultPolicy).

Definition verify_release (version : string) (package : TargetReference) : Refusal + SelectedRelease :=
  target ← exact_target package;
  signed_version ← map_err RefusedPolicy (candidate_version policy target);
  _ ← demand (bool_decide (semver_to_string signed_version = version))
        (RefusedVersion version (semver_to_string signed_version));
  inr (mkSelectedRelease target version (target_sha target)).

Context (rejected : VerifiedTarget → string → bool).

(** ** Exact repair *)

Definition path_le (a b : VerifiedTarget) : Prop := String.leb (vt_path a) (vt_path b) = true.

#[export] Instance path_le_dec a b : Decision (path_le a b).
Proof. unfold path_le. apply _. Defined.

Fixpoint reacquire (version sha256 : string) (targets : list VerifiedTarget) : list SelectedRelease :=
  match targets with
  | [] => []
  | target :: targets =>
      if negb (bool_decide (target_sha target = sha256)) then reacquire version sha256 targets
      else
        match verify_release version (mkTargetReference (vt_path target) sha256) with
        | inr candidate =>
            if negb (rejected (sr_target candidate) version) then [candidate]
            else reacquire version sha256 targets
        | inl _ => reacquire version sha256 targets
        end
  end.

(** ** Routes *)

Definition candidate_of (version : string) (release : Release) : Refusal + SelectedRelease :=
  candidate ← verify_release version (rl_package release);
  _ ← demand (negb (rejected (sr_target candidate) version)) (RefusedRejected version);
  inr candidate.

Definition gather (acc : BTreeMap SelectedRelease * list (string * Refusal)) (x : string * Release)
    : BTreeMap SelectedRelease * list (string * Refusal) :=
  match candidate_of x.1 x.2 with
  | inr candidate => (<[x.1 := candidate]> acc.1, acc.2)
  | inl error => (acc.1, acc.2 ++ [(x.1, error)])
  end.

(** The route's candidates, removed one by one; an absent one is the panic of the [expect]. *)
Fixpoint take_route (candidates : BTreeMap SelectedRelease) (route : list string)
    : option (list SelectedRelease) :=
  match route with
  | [] => Some []
  | version :: route =>
      candidate ← candidates !! version;
      rest ← take_route (delete version candidates) route;
      Some (candidate :: rest)
  end.

Definition plan_route (graph : ReleaseGraph) (installed : option string)
    : option (Error + list SelectedRelease) :=
  let '(candidates, failures) := foldl gather (∅, []) (bt_iter (rg_releases graph)) in
  if bool_decide (installed = Some (rg_target graph)) && negb (contains_key (rg_target graph) candidates)
  then Some (inl (Trust (TargetUnavailable failures)))
  else
    found ← route graph installed (λ version _, contains_key version candidates);
    match found with
    | inl error => Some (inl (Trust (NoRouteTo error failures)))
    | inr versions => selected ← take_route candidates versions; Some (inr selected)
    end.

Definition assigned_application (stance : Stance) : option (Error + list SelectedRelease) :=
  match stance with
  | SReacquire version sha256 =>
      Some (inr (reacquire version sha256 (merge_sort path_le all_targets)))
  | _ =>
      match tr_assignment repo with
      | None => Some (inl (Trust (Refused RefusedNoDeployment)))
      | Some context =>
          let graph := ra_application (ac_document context) in
          let checked :=
            _ ← map_err (λ e, Trust (Refused (RefusedGraph e))) (graph_validate graph);
            match stance with
            | SInstalled version sha256 =>
                map_err (λ e, Trust (Refused (RefusedGraph e))) (check_source graph version sha256)
            | _ => inr tt
            end in
          match checked with
          | inl error => Some (inl error)
          | inr _ => plan_route graph (installed_version stance)
          end
      end
  end.

(** ** What a selection must be *)

(** The whole canonical layout agrees with the signed metadata and with this installation. *)
Definition runnable (c : SelectedRelease) : Prop :=
  Forall (λ x, vt_custom (sr_target c) !! x.1 = Some (CText x.2)) (wanted_fields policy)
  ∧ ∃ signed parsed file,
      vt_custom (sr_target c) !! "version"%string = Some (CText signed)
      ∧ split_on "/"%char EmptyString (vt_path (sr_target c))
        = (expected_segments policy signed).*1 ++ [file]
      ∧ parse_release_version signed = Some parsed ∧ semver_to_string parsed = sr_version c.

(** Authenticated by the repository's metadata, runnable here and not rejected. *)
Definition authorised (c : SelectedRelease) : Prop :=
  find_target (vt_path (sr_target c)) = Some (sr_target c)
  ∧ sr_sha256 c = target_sha (sr_target c)
  ∧ runnable c ∧ rejected (sr_target c) (sr_version c) = false.

(** The exact package the graph names for its version. *)
Definition pinned (graph : ReleaseGraph) (c : SelectedRelease) : Prop :=
  ∃ r, rg_releases graph !! sr_version c = Some r
    ∧ vt_path (sr_target c) = tr_path (rl_package r)
    ∧ digests_match (sr_sha256 c) (tr_sha256 (rl_package r)) = true.

Lemma verify_release_inr version package c :
  verify_release version package = inr c ↔
  sr_version c = version ∧ vt_path (sr_target c) = tr_path package
  ∧ find_target (vt_path (sr_target c)) = Some (sr_target c)
  ∧ sr_sha256 c = target_sha (sr_target c) ∧ digests_match (sr_sha256 c) (tr_sha256 package) = true
  ∧ runnable c.
Proof.
  unfold verify_release, exact_target, runnable. rewrite sum_bind_inr. setoid_rewrite sum_bind_inr.
  setoid_rewrite map_err_inr. setoid_rewrite candidate_version_inr. split.
  - intros (t & (t' & Hfind & Hmatch) & parsed & (Hf & signed & file & Hv & Hs & Hp) & Hrest). sum_inv. bool_to_prop.
    simpl in *. assert (vt_path t = tr_path package) as Hpath.
    { unfold find_target in Hfind. by destruct (tr_lookup repo _); simplify_eq/=. }
    rewrite <-Hpath in Hfind. split_and!; try done. by exists signed, parsed, file.
  - destruct c as [t v sha]. simpl. intros (-> & Hpath & Hfind & -> & Hm & Hf & signed & parsed & file & Hv & Hs & Hp & Hstr).
    exists t. split.
    + exists t. rewrite <-Hpath, Hfind. split; [done|]. cbn zeta. fold (target_sha t). by rewrite Hm.
    + exists parsed. split; [split; [done|]; by exists signed, file|]. by rewrite bool_decide_true by done.
Qed.

Lemma candidate_of_inr graph version r c :
  rg_releases graph !! version = Some r →
  candidate_of version r = inr c ↔ sr_version c = version ∧ authorised c ∧ pinned graph c.
Proof.
  intros Hr. unfold candidate_of. rewrite sum_bind_inr. unfold authorised, pinned. split.
  - intros (c' & Hc & Hd). sum_inv. bool_to_prop. apply verify_release_inr in Hc as (<- & ? & ? & ? & ? & ?).
    split_and!; try done. by exists r.
  - intros (<- & (? & ? & ? & Hrej) & r' & Hr' & ? & ?). simplify_eq. exists c.
    split; [by apply verify_release_inr|]. by rewrite Hrej.
Qed.

(** ** The candidates of a graph *)

Lemma gather_collects l : ∀ acc version,
  NoDup l.*1 →
  (foldl gather acc l).1 !! version
  = match list_to_map (M := BTreeMap Release) l !! version with
    | Some r => match candidate_of version r with inr c => Some c | inl _ => acc.1 !! version end
    | None => acc.1 !! version
    end.
Proof.
  induction l as [|[k r] l IH]; intros acc version; simpl; [done|]. intros [Hk Hnd]%NoDup_cons.
  rewrite IH by done. destruct (decide (version = k)) as [->|Hne].
  - rewrite (not_elem_of_list_to_map_1 l k) by done. rewrite lookup_insert_eq. unfold gather. simpl.
    destruct (candidate_of k r) as [e|c]; simpl; [done|]. by rewrite lookup_insert_eq.
  - rewrite (lookup_insert_ne _ k version) by done.
    assert ((gather acc (k, r)).1 !! version = acc.1 !! version) as ->; [|done].
    unfold gather. simpl. destruct (candidate_of k r); simpl; [done|]. by rewrite lookup_insert_ne.
Qed.

Definition candidates_of (graph : ReleaseGraph) : BTreeMap SelectedRelease :=
  (foldl gather (∅, []) (bt_iter (rg_releases graph))).1.

Lemma candidates_spec graph version c :
  candidates_of graph !! version = Some c ↔ sr_version c = version ∧ authorised c ∧ pinned graph c.
Proof.
  unfold candidates_of. rewrite gather_collects by apply (NoDup_bt_keys (rg_releases graph)).
  assert (list_to_map (bt_iter (rg_releases graph)) = rg_releases graph) as ->.
  { rewrite (list_to_map_proper _ _ (NoDup_bt_keys (rg_releases graph)) (bt_iter_perm _)). apply list_to_map_to_list. }
  cbn [fst]. rewrite lookup_empty. destruct (rg_releases graph !! version) as [r|] eqn:Hr.
  - rewrite <-(candidate_of_inr graph version r c Hr). destruct (candidate_of version r); split; congruence.
  - split; [done|]. intros (<- & _ & r & Hr' & _). congruence.
Qed.

(** Removing the versions of a duplicate-free route one by one never finds one gone. *)
Lemma take_route_spec route : ∀ candidates,
  NoDup route → (∀ v, v ∈ route → is_Some (candidates !! v)) →
  ∃ selected, take_route candidates route = Some selected
    ∧ Forall2 (λ v c, candidates !! v = Some c) route selected.
Proof.
  induction route as [|v route IH]; intros candidates Hnd Hin; simpl; [by exists []|].
  apply NoDup_cons in Hnd as [Hv Hnd]. destruct (Hin v) as [c Hc]; [constructor|]. rewrite Hc. simpl.
  assert (∀ x y, x ∈ route → delete v candidates !! x = Some y ↔ candidates !! x = Some y) as Hdel.
  { intros x y Hx. rewrite lookup_delete_ne; [done|]. by intros ->. }
  destruct (IH (delete v candidates) Hnd) as (selected & -> & Hall).
  { intros x Hx. destruct (Hin x) as [y Hy]; [by constructor|]. exists y. by apply Hdel. }
  simpl. eexists. split; [done|]. constructor; [done|].
  apply Forall2_same_length_lookup in Hall as [Hlen Hall]. apply Forall2_same_length_lookup. split; [done|].
  intros i x y Hx Hy. apply Hdel; [by eapply list_elem_of_lookup_2|]. eauto.
Qed.

Lemma chain_allowed g d allowed s p v : chain g d allowed s p → v ∈ p → v ∈ allowed.
Proof.
  revert s. induction p as [|x p IH]; intros s; [by intros _ ?%not_elem_of_nil|].
  intros [[Hx _] Hc] [->|Hv]%elem_of_cons; [done|]. by eapply IH.
Qed.

Lemma route_allowed g d allowed installed path v :
  is_route g d allowed installed path → v ∈ path → v ∈ allowed.
Proof.
  destruct installed as [s|]; simpl; [intros [Hc _]; by apply (chain_allowed g d allowed s)|].
  intros (s & p & -> & Hs & Hc & _) [->|Hv]%elem_of_cons; [|by eapply chain_allowed].
  apply list_elem_of_fmap in Hs as (x & -> & [[_ ?] _]%list_elem_of_filter). done.
Qed.

Lemma elem_of_eligible graph v :
  v ∈ allowed_versions graph (λ version _, contains_key version (candidates_of graph)) ↔
  is_Some (candidates_of graph !! v).
Proof.
  unfold allowed_versions. rewrite elem_of_dom. split.
  - intros [r [_ ?]%map_lookup_filter_Some]. by apply contains_key_true.
  - intros Hv. pose proof Hv as [c (<- & _ & r & Hr & _)%candidates_spec]. exists r.
    apply map_lookup_filter_Some. split; [done|]. by apply contains_key_true.
Qed.

Lemma elem_of_eligible_iff graph v :
  v ∈ allowed_versions graph (λ version _, contains_key version (candidates_of graph)) ↔
  ∃ c, sr_version c = v ∧ authorised c ∧ pinned graph c.
Proof. rewrite elem_of_eligible. unfold is_Some. by setoid_rewrite candidates_spec. Qed.

(** The planner over a valid graph and a declared source. *)
Lemma plan_route_spec graph installed :
  graph_validate graph = inr tt → undeclared graph installed = false →
  let eligible := allowed_versions graph (λ version _, contains_key version (candidates_of graph)) in
  ∃ d r, direction graph installed = Some d ∧ plan_route graph installed = Some r ∧
    if bool_decide (installed = Some (rg_target graph))
    then if bool_decide (rg_target graph ∈ eligible) then r = inr []
         else ∃ failures, r = inl (Trust (TargetUnavailable failures))
    else match r with
         | inl e => (∃ re failures, e = Trust (NoRouteTo re failures)) ∧ ∀ path, ~ is_route graph d eligible installed path
         | inr selected =>
             is_route graph d eligible installed (sr_version <$> selected)
             ∧ (∀ path, is_route graph d eligible installed path → (length selected ≤ length path)%nat)
             ∧ Forall (λ c, authorised c ∧ pinned graph c) selected
         end.
Proof.
  intros Hv Hu eligible. unfold plan_route. pose proof (elem_of_eligible graph) as Hel. unfold candidates_of in *.
  destruct (foldl gather _ _) as [candidates failures] eqn:Hfold. cbn [fst] in *.
  destruct (route_spec graph installed (λ version _, contains_key version candidates) Hv Hu) as (d & Hd & Hr).
  cbn zeta in Hr. fold eligible in Hr. exists d. case_bool_decide as Ht; cbn [andb].
  { rewrite Hr. destruct (contains_key _ candidates) eqn:Hc; cbn [negb mbind option_bind take_route].
    - exists (inr []). split_and!; [done|done|]. rewrite bool_decide_true; [done|]. apply Hel. by apply contains_key_true.
    - eexists. split_and!; [done|done|]. rewrite bool_decide_false; [by eexists|]. intros [c Hx]%Hel.
      apply contains_key_false in Hc. congruence. }
  destruct (route _ _ _) as [[e|path]|]; cbn [mbind option_bind]; [| |done].
  { eexists. split_and!; [done|done|]. split; [by do 2 eexists|]. apply Hr. }
  destruct Hr as (Hroute & Hmin & Hnd).
  destruct (take_route_spec path candidates Hnd) as (selected & -> & Hall).
  { intros v Hin. apply Hel. by eapply route_allowed. }
  cbn [mbind option_bind]. eexists. split_and!; [done|done|].
  assert (∀ v c, candidates !! v = Some c → sr_version c = v ∧ authorised c ∧ pinned graph c) as Hspec.
  { intros v c Hc. apply candidates_spec. unfold candidates_of. by rewrite Hfold. }
  assert (sr_version <$> selected = path) as Hver.
  { clear -Hall Hspec. induction Hall as [|v c path selected Hc _ IH]; [done|]. rewrite fmap_cons.
    by rewrite IH, (proj1 (Hspec v c Hc)). }
  cbn beta iota. rewrite <-(Forall2_length _ _ _ Hall), Hver. split_and!; [done|done|].
  eapply Forall2_Forall_r; [exact Hall|]. apply Forall_forall. intros v _ c Hc. apply (Hspec v c Hc).
Qed.

(** ** Repair *)

Lemma digests_match_eq a b : digests_match a b = true → a = b.
Proof. unfold digests_match. intros. by bool_to_prop. Qed.

Lemma reacquire_spec version sha256 targets :
  (length (reacquire version sha256 targets) ≤ 1)%nat
  ∧ Forall (λ c, authorised c ∧ sr_version c = version ∧ sr_sha256 c = sha256) (reacquire version sha256 targets)
  ∧ (reacquire version sha256 targets = [] → is_canonical_sha256 sha256 = true → ∀ c,
       authorised c → sr_version c = version → sr_sha256 c = sha256 → sr_target c ∉ targets).
Proof.
  induction targets as [|t targets (IHl & IHf & IHn)]; cbn [reacquire].
  { split_and!; [simpl; lia|done|]. intros _ _ c _ _ _. apply not_elem_of_nil. }
  case_bool_decide as Hs; cbn [negb].
  2:{ split_and!; [done|done|]. intros Hn Hcan c Ha Hv Hc [<-|Hin]%elem_of_cons; [|by eapply IHn].
      destruct Ha as (_ & Hsha & _). congruence. }
  destruct (verify_release version _) as [e|c] eqn:Hver.
  - split_and!; [done|done|]. intros Hn Hcan c Ha Hv Hc [<-|Hin]%elem_of_cons; [|by eapply IHn].
    destruct Ha as (? & ? & ? & ?). assert (verify_release version (mkTargetReference (vt_path (sr_target c)) sha256) = inr c) as Hok.
    { apply verify_release_inr. split_and!; try done. unfold digests_match. simpl. by rewrite Hc, Hcan, bool_decide_true. }
    congruence.
  - apply verify_release_inr in Hver as (Hv & Hp & Hf & Hsha & Hm & Hr). simpl in Hp, Hm. apply digests_match_eq in Hm.
    destruct (rejected (sr_target c) version) eqn:Hrej; cbn [negb].
    + split_and!; [done|done|]. intros Hn Hcan c' Ha Hv' Hc' [Ht|Hin]%elem_of_cons; [|by eapply IHn].
      destruct Ha as (Hf' & _ & _ & Hrej'). rewrite Ht in Hf'. rewrite Hp in Hf.
      assert (sr_target c = sr_target c') by congruence. congruence.
    + split_and!; [simpl; lia| |done]. constructor; [|done]. unfold authorised. rewrite Hv. by split_and!.
Qed.

(** C18. The selection chooses nothing on its own.  It never panics.  A repair yields at most the one
    authorised package with exactly the requested version and bytes, and nothing only when the
    repository lists none.  Otherwise it refuses without an assignment, with an invalid graph or
    with an installed release the graph does not hold; at the target it has nothing to do when the
    target's package is authorised and refuses when it is not; and elsewhere it returns a
    shortest route among those whose every release has an authorised package, each hop that exact
    package, and refuses only when there is no such route. *)
Theorem selection_is_authorised stance :
  ∃ r, assigned_application stance = Some r ∧
    match stance with
    | SReacquire version sha256 => ∃ selected, r = inr selected
        ∧ (length selected ≤ 1)%nat
        ∧ Forall (λ c, authorised c ∧ sr_version c = version ∧ sr_sha256 c = sha256) selected
        ∧ (selected = [] → is_canonical_sha256 sha256 = true → ∀ c,
             authorised c → sr_version c = version → sr_sha256 c = sha256 → sr_target c ∉ all_targets)
    | _ =>
        match tr_assignment repo with
        | None => r = inl (Trust (Refused RefusedNoDeployment))
        | Some context =>
            let graph := ra_application (ac_document context) in
            let installed := installed_version stance in
            (∃ e, r = inl (Trust (Refused (RefusedGraph e)))
               ∧ (graph_validate graph = inl e
                  ∨ ∃ version sha256, stance = SInstalled version sha256 ∧ check_source graph version sha256 = inl e))
            ∨ graph_validate graph = inr tt
              ∧ ∃ d (eligible : BTreeSet), direction graph installed = Some d
                ∧ (∀ v, v ∈ eligible ↔ ∃ c, sr_version c = v ∧ authorised c ∧ pinned graph c)
                ∧ if bool_decide (installed = Some (rg_target graph))
                  then if bool_decide (rg_target graph ∈ eligible) then r = inr []
                       else ∃ failures, r = inl (Trust (TargetUnavailable failures))
                  else match r with
                       | inl e => (∃ re failures, e = Trust (NoRouteTo re failures))
                                  ∧ ∀ path, ~ is_route graph d eligible installed path
                       | inr selected =>
                           is_route graph d eligible installed (sr_version <$> selected)
                           ∧ (∀ path, is_route graph d eligible installed path → (length selected ≤ length path)%nat)
                           ∧ Forall (λ c, authorised c ∧ pinned graph c) selected
                       end
        end
    end.
Proof.
  unfold assigned_application.
  destruct stance as [|version sha256|version sha256].
  - destruct (tr_assignment repo) as [context|]; [|by eexists]. cbn zeta.
    destruct (graph_validate _) as [e|[]] eqn:Hv; cbn; [eexists; split; [done|]; left; eauto|].
    destruct (plan_route_spec _ None Hv eq_refl) as (d & r & Hd & Hr & Hs). exists r. split; [done|]. right. split; [done|].
    eexists d, _. split; [done|]. split; [|exact Hs]. intros v. apply elem_of_eligible_iff.
  - destruct (tr_assignment repo) as [context|]; [|by eexists]. cbn zeta.
    destruct (graph_validate _) as [e|[]] eqn:Hv; cbn; [eexists; split; [done|]; left; eauto|].
    destruct (check_source _ version sha256) as [e|[]] eqn:Hc; cbn; [eexists; split; [done|]; left; eauto 7|].
    assert (undeclared (ra_application (ac_document context)) (Some version) = false) as Hu.
    { unfold check_source in Hc. simpl. destruct (_ !! version) eqn:Hl; [|done].
      apply negb_false_iff, contains_key_true. by eexists. }
    destruct (plan_route_spec _ (Some version) Hv Hu) as (d & r & Hd & Hr & Hs). exists r. split; [done|]. right. split; [done|].
    eexists d, _. split; [done|]. split; [|exact Hs]. intros v. apply elem_of_eligible_iff.
  - eexists. split; [done|]. eexists. split; [done|].
    destruct (reacquire_spec version sha256 (merge_sort path_le all_targets)) as (? & ? & Hn). split_and!; [done..|].
    intros He Hcan c ? ? ?. rewrite <-(merge_sort_Permutation path_le all_targets). by apply Hn.
Qed.

End selection.
End repository.

(** ** Publisher and client agree on the layout *)

Section layout.
Context `{SemverOrder}.

Definition one_segment (s : string) : bool := string_forallb (λ c, negb (bool_decide (c = "/"%char))) s.

Lemma split_on_end cur s : one_segment s = true → split_on "/"%char cur s = [String.append cur s].
Proof.
  revert cur. induction s as [|c s IH]; intros cur; cbn [one_segment string_forallb split_on]; [by rewrite append_empty_r|].
  intros [Hc Hs]%andb_true_iff. apply negb_true_iff in Hc. rewrite Hc, IH by done. by rewrite <-append_assoc.
Qed.

Lemma split_on_step cur s rest : one_segment s = true →
  split_on "/"%char cur (String.append s (String "/" rest)) = String.append cur s :: split_on "/"%char EmptyString rest.
Proof.
  revert cur. induction s as [|c s IH]; intros cur; cbn [one_segment string_forallb split_on String.append].
  - intros _. by rewrite append_empty_r.
  - intros [Hc Hs]%andb_true_iff. apply negb_true_iff in Hc. rewrite Hc, IH by done. by rewrite <-append_assoc.
Qed.

Lemma split_concat l : l ≠ [] → forallb one_segment l = true →
  split_on "/"%char EmptyString (String.concat "/" l) = l.
Proof.
  induction l as [|x [|y l] IH]; [done| |]; intros _ [Hx Hl]%andb_true_iff.
  - by apply split_on_end.
  - change (String.concat "/" (x :: y :: l)) with (String.append x (String "/" (String.concat "/" (y :: l)))).
    rewrite split_on_step by done. f_equal. by apply IH.
Qed.

(** Exactly what a publisher of this product, channel and platform publishes for a version is what
    the policy accepts as that version. *)
Lemma published_application_is_accepted product channel version os arch component sha256 size :
  forallb one_segment [product; channel; version; String.append os (String.append "-" arch); component] = true →
  candidate_version (policy_current os arch product channel)
    (mkVerifiedTarget (application_name product channel version os arch component) size sha256
       (application_custom product channel version os arch))
  = parse_semver version.
Proof.
  intros Hseg. unfold candidate_version.
  assert (split_on "/"%char EmptyString (application_name product channel version os arch component)
    = ["products"%string; product; channel; version; String.append os (String.append "-" arch); component]) as Hs
    by by apply split_concat.
  assert (∀ x, x ∈ wanted_fields (policy_current os arch product channel) →
    application_custom product channel version os arch !! x.1 = Some (CText x.2)) as Hf.
  { intros x Hx. unfold wanted_fields in Hx. repeat (apply elem_of_cons in Hx as [->|Hx]; [done|]).
    by apply not_elem_of_nil in Hx. }
  rewrite (proj2 (each_inr _ _ tt)); [|intros x Hx; apply check_field_inr; by apply Hf]. cbn [mbind sum_bind].
  rewrite (proj2 (field_inr _ "version" version)) by done. cbn [mbind sum_bind vt_path]. rewrite Hs.
  cbn. unfold check_segment. cbn. rewrite !bool_decide_true by done. done.
Qed.

End layout.
