(* ===== verification/RoutingClient.v ===== *)
(** * RoutingClient: the configuration a node boots on

    Models the routing half of [updated-tuf/src/lib.rs] with [Config::materialize]
    ([updated/src/config.rs]): resolving the signed agent document and the managed configuration it
    names, replacing the node's live configuration file, and the boot that falls back to that file
    when the repository is out of reach.  What one visit meets is the parameter [Visit]: tough's
    verified metadata or its failure, the chunks of each target's stream, and the failures of the
    local disk.  The live file is its bytes. *)
From S2P Require Import Prelude Identity State Maps Releases Dataflow Telemetry Window Rollout Assignment Groups.
From S2P Require Import Publication Inventory Selection.

(** ** Data *)

(** [updated::config::Routing], as far as resolution reads it. *)
Record Routing : Type := mkRouting { ro_base_url : string; ro_assignment : string }.

(** What an atomic replacement did: a failure may strike after the new bytes are visible. *)
Inductive Replacement : Type := Replaced | NotReplaced | ReplacedUnsynced.

Abbreviation Lookup := (string → option TargetEntry).

(** One visit: the metadata tough loads from the routing repository, what opening a target's stream
    gives (a stream is its chunks and how it breaks off), where staging a target fails locally,
    whether the live file can be read, and how its replacement ends. *)
Record Visit : Type := mkVisit {
  vi_load : Error + (Lookup * list (string * TargetEntry));
  vi_open : string → Error + option (list (Error + string));
  vi_staging : string → option string;
  vi_readable : bool;
  vi_replace : Replacement;
}.

(** The spelling of a parsed URL. *)
Class UrlText `{!Urls} : Type := { url_as_str : Url → string }.

(** What loading a release repository meets: a failure of its local datastore, and tough's metadata. *)
Record ReleaseVisit : Type := mkReleaseVisit {
  rl_datastore : option string;
  rl_load : Error + (Lookup * list (string * TargetEntry));
}.

Section client.
Context `{!JsonValues} `{!Sha256} `{!SemverOrder} `{!Urls} `{!AssignmentJson} `{!Serde AgentDocument}.

Definition ROUTING_TARGET_LIMIT : N := MAX_DOCUMENT_BYTES.
Definition ROUTING_METADATA_FLOOR : N := 64 * 1024 * 1024.

Definition refuse (message : string) : Error := Trust (Refused (RefusedMessage message)).

(** ** Loading and downloading *)

(** [repository_base] *)
Definition repository_base (raw : string) : Error + Url := map_err refuse (canonical_repository_base raw).

(** The byte ceilings of metadata and targets in [routing_source]. *)
Definition routing_source (routing : Routing) : Error + (N * N) :=
  _ ← demand (ends_with "/" (ro_base_url routing)) (Local "routing.base_url must end with '/'");
  _ ← map_err (λ _, Local "routing.base_url") (repository_base (ro_base_url routing));
  inr (ROUTING_METADATA_FLOOR, ROUTING_TARGET_LIMIT).

Definition load_repository (limit : N) (loaded : Error + (Lookup * list (string * TargetEntry)))
    : Error + TrustedRepository :=
  '(lookup, listing) ← loaded;
  inr (mkTrustedRepository lookup listing limit None).

(** The chunks of a stream, under the repository's ceiling. *)
Fixpoint receive (limit written : N) (received : string) (chunks : list (Error + string)) : Error + string :=
  match chunks with
  | [] => inr received
  | inl error :: _ => inl error
  | inr chunk :: chunks =>
      let written := (written + str_len chunk)%N in
      if (limit <? written)%N then inl (refuse "target exceeded the byte limit")
      else receive limit written (String.append received chunk) chunks
  end.

(** [DownloadedTarget::verify_handle] *)
Definition verify_handle (target : VerifiedTarget) (bytes : string) : bool :=
  (str_len bytes =? vt_length target)%N && digests_match (sha256_bytes bytes) (hex_encode (vt_sha256 target)).

Definition download_target (visit : Visit) (repo : TrustedRepository) (target : VerifiedTarget) : Error + string :=
  opened ← vi_open visit (vt_path target);
  chunks ← ok_or opened (Trust (Refused (RefusedAbsent (vt_path target))));
  _ ← demand (vt_length target <=? tr_target_limit repo)%N (refuse "target exceeded the byte limit");
  _ ← (match vi_staging visit (vt_path target) with Some message => inl (Local message) | None => inr tt end);
  bytes ← receive (tr_target_limit repo) 0 EmptyString chunks;
  _ ← demand (verify_handle target bytes) (Local "verifying downloaded target file");
  inr bytes.

(** [DownloadedTarget::read_bounded] *)
Definition read_bounded (target : VerifiedTarget) (bytes : string) (limit : N) : Error + string :=
  _ ← demand (vt_length target <=? limit)%N (refuse "downloaded target is over its document limit");
  _ ← demand (str_len bytes <=? limit)%N (Local "reading downloaded target");
  _ ← demand (verify_handle target bytes) (Local "downloaded target changed after TUF verification");
  inr bytes.

(** ** The live configuration *)

Record ResolvedAssignment : Type := mkResolvedAssignment {
  rv_assignment : RepositoryAssignment;
  rv_sha256 : string;
}.

Inductive BootRefusal : Type := BInvalid (e : ContractError) | BMoves.

Definition usable_as_boot_config (assignment : RepositoryAssignment) (install_root : string) : BootRefusal + unit :=
  _ ← map_err BInvalid (RepositoryAssignment_validate assignment);
  demand (bool_decide (mr_install_root (ra_runtime assignment) = install_root)) BMoves.

Inductive LiveAssignment : Type :=
| LUsable (resolved : ResolvedAssignment)
| LAbsent
| LRejected (reason : string).

Definition persisted_assignment (readable : bool) (live : option string) (install_root : string) : LiveAssignment :=
  if negb readable then LRejected "unreadable"
  else match live with
       | None => LAbsent
       | Some bytes =>
           if (MAX_DOCUMENT_BYTES <? str_len bytes)%N then LRejected "unreadable"
           else match RepositoryAssignment_from_bounded_json bytes with
                | inl _ => LRejected "malformed"
                | inr assignment =>
                    match usable_as_boot_config assignment install_root with
                    | inl _ => LRejected "not usable"
                    | inr _ => LUsable (mkResolvedAssignment assignment (sha256_bytes bytes))
                    end
                end
       end.

Definition usable (l : LiveAssignment) : string + ResolvedAssignment :=
  match l with
  | LUsable resolved => inr resolved
  | LAbsent => inl "no live routing assignment has been persisted yet"%string
  | LRejected reason => inl reason
  end.

(** [write_if_changed]: the result and the file left. *)
Definition write_if_changed (visit : Visit) (live : option string) (bytes : string) : (string + unit) * option string :=
  if vi_readable visit && bool_decide (live = Some bytes) then (inr tt, live)
  else match vi_replace visit with
       | Replaced => (inr tt, Some bytes)
       | NotReplaced => (inl "write failed"%string, live)
       | ReplacedUnsynced => (inl "write not synchronised"%string, Some bytes)
       end.

(** ** Resolution *)

(** The staged half of [resolve_assignment_at], which never touches the live file. *)
Definition resolve_staged (visit : Visit) (routing : Routing) (repo : TrustedRepository)
    : Error + (RepositoryAssignment * string) :=
  target ← ok_or (find_target repo (ro_assignment routing)) (Trust (Refused (RefusedAbsent (ro_assignment routing))));
  downloaded ← download_target visit repo target;
  bytes ← read_bounded target downloaded AgentDocument_MAX_BYTES;
  agent ← map_err (λ _, refuse "invalid agent document") (AgentDocument_from_bounded_json bytes);
  config ← map_err (λ why, Trust (Refused why)) (exact_target repo (doc_config agent));
  downloaded ← download_target visit repo config;
  bytes ← read_bounded config downloaded MAX_DOCUMENT_BYTES;
  assignment ← map_err (λ _, refuse "invalid config bundle") (RepositoryAssignment_from_bounded_json bytes);
  inr (assignment, bytes).

Definition resolve_assignment_at (visit : Visit) (routing : Routing) (install_root : string) (live : option string)
    : (Error + ResolvedAssignment) * option string :=
  let staged :=
    limits ← routing_source routing;
    repo ← load_repository limits.2 (vi_load visit);
    resolved ← resolve_staged visit routing repo;
    _ ← map_err (λ _, refuse "the resolved assignment is not usable") (usable_as_boot_config resolved.1 install_root);
    inr resolved in
  match staged with
  | inl error => (inl error, live)
  | inr (assignment, bytes) =>
      let '(written, live) := write_if_changed visit live bytes in
      match written with
      | inl message => (inl (Local message), live)
      | inr _ => (inr (mkResolvedAssignment assignment (sha256_bytes bytes)), live)
      end
  end.

(** ** The boot's configuration *)

Record Config : Type := mkConfig {
  cf_deployment : string;
  cf_assignment_sha256 : string;
  cf_routing : Routing;
  cf_runtime : ManagedRuntime;
}.

(** [Config::materialize]; the application, storage and timeout parts are the runtime's own fields. *)
Definition materialize (runtime : ManagedRuntime) (deployment assignment_sha256 : string) (routing : Routing)
    : Error + Config :=
  _ ← map_err (λ _, refuse "the runtime is not this platform's") (validate_for_current_platform runtime);
  _ ← demand (is_canonical_sha256 assignment_sha256) (refuse "the assignment identity is not canonical");
  inr (mkConfig deployment assignment_sha256 routing runtime).

(** [resolve_managed_config], from the enrolled node's routing identity and install root on. *)
Definition resolve_managed_config (visit : Visit) (routing : Routing) (install_root : string) (live : option string)
    : (Error + Config) * option string :=
  let before := persisted_assignment (vi_readable visit) live install_root in
  let '(resolved, live) := resolve_assignment_at visit routing install_root live in
  let resolved :=
    match resolved with
    | inr resolved => inr resolved
    | inl (Transport message) => map_err (λ _, Transport message) (usable before)
    | inl error => inl error
    end in
  (match resolved with
   | inl error => inl error
   | inr resolved => materialize (ra_runtime (rv_assignment resolved)) (ra_deployment (rv_assignment resolved))
                       (rv_sha256 resolved) routing
   end, live).

(** ** The release repository *)

Section releases.
Context `{!UrlText}.

(** [RepositoryLineage::from_metadata_url] *)
Definition from_metadata_url (metadata_url : string) : string + RepositoryLineage :=
  canonical ← canonical_repository_base metadata_url;
  inr (mkLineage (sha256_bytes (url_as_str canonical))).

Definition load_release_repository (assignment : RepositoryAssignment) (release : ReleaseVisit)
    : Error + TrustedRepository :=
  _ ← map_err (λ _, refuse "invalid assignment") (RepositoryAssignment_validate assignment);
  _ ← map_err refuse (from_metadata_url (ra_metadata_url assignment));
  _ ← (match rl_datastore release with Some message => inl (Local message) | None => inr tt end);
  load_repository (ml_target_limit (mr_repository (ra_runtime assignment))) (rl_load release).

(** [TrustedRepository::assigned]; pruning inactive caches only warns. *)
Definition assigned (visit : Visit) (release : ReleaseVisit) (routing : Routing) (install_root : string)
    (live : option string) : (Error + TrustedRepository) * option string :=
  let '(resolved, live) := resolve_assignment_at visit routing install_root live in
  (resolved ← resolved;
   repository ← load_release_repository (rv_assignment resolved) release;
   lineage ← map_err refuse (from_metadata_url (ra_metadata_url (rv_assignment resolved)));
   inr (mkTrustedRepository (tr_lookup repository) (tr_listing repository) (tr_target_limit repository)
          (Some (mkAssignmentContext (rv_assignment resolved) (rv_sha256 resolved) lineage))), live).

End releases.

(** ** What makes a configuration trustworthy *)

(** The bytes a target's signed entry stands for. *)
Definition content_of (entry : TargetEntry) (bytes : string) : Prop :=
  str_len bytes = te_length entry ∧ hex_encode (te_sha256 entry) = sha256_bytes bytes.

(** The routing metadata of this visit names the agent document under the node's own assignment path,
    and that document names exactly these configuration bytes. *)
Definition authenticated (visit : Visit) (routing : Routing) (bytes : string) : Prop :=
  ∃ lookup listing agent_entry agent_bytes document entry,
    vi_load visit = inr (lookup, listing)
    ∧ lookup (ro_assignment routing) = Some agent_entry ∧ content_of agent_entry agent_bytes
    ∧ AgentDocument_from_bounded_json agent_bytes = inr document
    ∧ lookup (tr_path (doc_config document)) = Some entry ∧ content_of entry bytes
    ∧ sha256_bytes bytes = tr_sha256 (doc_config document).

(** A document this node can boot on. *)
Definition bootable (install_root bytes : string) (assignment : RepositoryAssignment) : Prop :=
  RepositoryAssignment_from_bounded_json bytes = inr assignment
  ∧ mr_install_root (ra_runtime assignment) = install_root.

Lemma digests_equal a b : digests_match a b = true → a = b.
Proof. unfold digests_match. intros. by bool_to_prop. Qed.

Lemma verify_handle_content path entry bytes :
  verify_handle (to_verified path entry) bytes = true → content_of entry bytes.
Proof.
  unfold verify_handle, content_of. simpl. intros [Hl%N.eqb_eq Hd%digests_equal]%andb_true_iff. by rewrite Hl, Hd.
Qed.

Lemma resolve_staged_inr visit routing repo assignment bytes :
  resolve_staged visit routing repo = inr (assignment, bytes) →
  RepositoryAssignment_from_bounded_json bytes = inr assignment
  ∧ ∃ agent_entry agent_bytes document entry,
      tr_lookup repo (ro_assignment routing) = Some agent_entry ∧ content_of agent_entry agent_bytes
      ∧ AgentDocument_from_bounded_json agent_bytes = inr document
      ∧ tr_lookup repo (tr_path (doc_config document)) = Some entry ∧ content_of entry bytes
      ∧ sha256_bytes bytes = tr_sha256 (doc_config document).
Proof.
  unfold resolve_staged, read_bounded, exact_target, find_target. intros Hr. sum_inv. simplify_eq/=.
  repeat match goal with
  | Hf : _ <$> tr_lookup _ _ = Some _ |- _ => apply fmap_Some in Hf as (? & ? & ->)
  | Hv : verify_handle (to_verified _ _) _ = true |- _ => apply verify_handle_content in Hv
  | Hm : digests_match _ _ = true |- _ => apply digests_equal in Hm
  end.
  split; [done|]. do 4 eexists. split_and!; [done|done|done|done|done|].
  match goal with Hc : content_of ?e bytes, Hm : _ = tr_sha256 _ |- _ => destruct Hc as [_ <-]; exact Hm end.
Qed.

Lemma usable_as_boot_config_inr assignment install_root :
  usable_as_boot_config assignment install_root = inr tt →
  mr_install_root (ra_runtime assignment) = install_root.
Proof. unfold usable_as_boot_config. intros Hu. sum_inv. by bool_to_prop. Qed.

(** The live file after a resolution: untouched, or the authenticated document. *)
Lemma resolve_assignment_spec visit routing install_root live :
  let '(r, live') := resolve_assignment_at visit routing install_root live in
  match r with
  | inr resolved => ∃ bytes, live' = Some bytes ∧ authenticated visit routing bytes
      ∧ bootable install_root bytes (rv_assignment resolved) ∧ rv_sha256 resolved = sha256_bytes bytes
  | inl e => live' = live
      ∨ is_retryable e = false ∧ ∃ bytes assignment, live' = Some bytes ∧ authenticated visit routing bytes
          ∧ bootable install_root bytes assignment
  end.
Proof.
  unfold resolve_assignment_at. cbn zeta. destruct (_ ≫= _) as [e|[assignment bytes]] eqn:Hs; [by left|]. sum_inv.
  match goal with Hr : _ = inr (assignment, bytes) |- _ => apply resolve_staged_inr in Hr as (Hp & Hauth) end.
  match goal with Hu : usable_as_boot_config _ _ = inr _ |- _ => apply usable_as_boot_config_inr in Hu as Hroot end.
  assert (authenticated visit routing bytes) as Ha.
  { destruct Hauth as (ae & ab & doc & en & Hrest). unfold load_repository in *.
    destruct (vi_load visit) as [|[lookup listing]] eqn:Hl; simplify_eq/=. sum_inv. simplify_eq/=.
    exists lookup, listing, ae, ab, doc, en. by split. }
  assert (bootable install_root bytes assignment) as Hb by done.
  unfold write_if_changed. destruct (_ && _) eqn:Hsame.
  - apply andb_true_iff in Hsame as [_ ->%bool_decide_eq_true]. by exists bytes.
  - destruct (vi_replace visit); [by exists bytes|by left|]. right. split; [done|]. by exists bytes, assignment.
Qed.

Lemma persisted_usable readable live install_root resolved :
  usable (persisted_assignment readable live install_root) = inr resolved →
  ∃ bytes, live = Some bytes ∧ bootable install_root bytes (rv_assignment resolved)
    ∧ rv_sha256 resolved = sha256_bytes bytes.
Proof.
  unfold persisted_assignment. destruct readable; [|done]. destruct live as [bytes|]; [|done]. simpl.
  destruct (_ <? _)%N; [done|]. destruct (RepositoryAssignment_from_bounded_json bytes) as [|a] eqn:Hp; [done|].
  destruct (usable_as_boot_config a install_root) as [|[]] eqn:Hu; [done|]. intros [= <-]. exists bytes.
  split_and!; [done| |done]. split; [done|]. by apply usable_as_boot_config_inr.
Qed.

(** The live file of a node after a sequence of boots, each meeting its own visit. *)
Fixpoint boots (routing : Routing) (install_root : string) (live : option string) (visits : list Visit) : option string :=
  match visits with
  | [] => live
  | visit :: visits => boots routing install_root (resolve_managed_config visit routing install_root live).2 visits
  end.

(** Every file a boot leaves is one it found or one its own visit authenticated. *)
Lemma boots_leave routing install_root visits : ∀ live,
  boots routing install_root live visits = live
  ∨ ∃ visit bytes assignment, visit ∈ visits ∧ boots routing install_root live visits = Some bytes
      ∧ authenticated visit routing bytes ∧ bootable install_root bytes assignment.
Proof.
  induction visits as [|visit visits IH]; intros live; cbn [boots]; [by left|].
  set (live' := (resolve_managed_config visit routing install_root live).2).
  assert (live' = live ∨ ∃ bytes assignment, live' = Some bytes ∧ authenticated visit routing bytes
    ∧ bootable install_root bytes assignment) as Hone.
  { unfold live', resolve_managed_config. pose proof (resolve_assignment_spec visit routing install_root live) as Hs.
    destruct (resolve_assignment_at visit routing install_root live) as [r left_behind]. cbn [snd].
    destruct r as [e|resolved]; [destruct Hs as [->|[_ Hs]]; [by left|by right]|].
    destruct Hs as (bytes & ? & ? & ? & _). right. eauto. }
  destruct (IH live') as [->|(v & b & a & Hv & Hrest)].
  - destruct Hone as [->|(b & a & Hrest)]; [by left|right]. exists visit, b, a. split; [constructor|done].
  - right. exists v, b, a. split; [by constructor|done].
Qed.

(** C4. A node boots only on a verified configuration.  After any boots from an empty state directory,
    whatever each of them met, a boot that yields a configuration runs the document its own visit
    authenticated, or, when that visit failed in transport and in no other way, the one an earlier
    visit authenticated and the file still holds; the configuration carries that document's
    runtime and the digest of its exact bytes, keeps the enrolled install root, and a boot that
    yields none leaves only such documents behind. *)
Theorem node_boots_on_verified_configuration routing install_root visits visit r live' :
  resolve_managed_config visit routing install_root (boots routing install_root None visits) = (r, live') →
  (live' = None ∨ ∃ v bytes assignment, v ∈ visits ++ [visit] ∧ live' = Some bytes
     ∧ authenticated v routing bytes ∧ bootable install_root bytes assignment)
  ∧ ∀ config, r = inr config → ∃ v bytes assignment,
      authenticated v routing bytes ∧ bootable install_root bytes assignment ∧ live' = Some bytes
      ∧ cf_runtime config = ra_runtime assignment ∧ cf_deployment config = ra_deployment assignment
      ∧ cf_assignment_sha256 config = sha256_bytes bytes
      ∧ (v = visit ∨ v ∈ visits ∧ ∃ message,
           (resolve_assignment_at visit routing install_root (boots routing install_root None visits)).1 = inl (Transport message)).
Proof.
  intros Hr. split.
  - pose proof (boots_leave routing install_root (visits ++ [visit]) None) as Hl.
    assert (boots routing install_root None (visits ++ [visit]) = live') as Happ; [|by rewrite Happ in Hl].
    assert (∀ l live, boots routing install_root live (l ++ [visit])
      = (resolve_managed_config visit routing install_root (boots routing install_root live l)).2) as ->; [|by rewrite Hr].
    clear. intros l. induction l as [|v l IH]; intros live; [done|]. cbn [app boots]. apply IH.
  - intros config ->. pose proof (boots_leave routing install_root visits None) as Hl.
    set (live := boots routing install_root None visits) in *. unfold resolve_managed_config in Hr.
    pose proof (resolve_assignment_spec visit routing install_root live) as Hs.
    destruct (resolve_assignment_at visit routing install_root live) as [out left_behind].
    destruct out as [e|resolved].
    + destruct e as [message| |]; [|by simplify_eq/=..]. destruct Hs as [->|[? _]]; [|done].
      destruct (usable _) as [|resolved] eqn:Hu; cbn in Hr; [done|]. injection Hr as Hm <-.
      apply persisted_usable in Hu as (bytes & Hlive & Hb & Hsha). unfold materialize in Hm. sum_inv. simpl.
      destruct Hl as [Hl|(v & b & a & Hv & Hl & Ha & _)]; [congruence|].
      assert (b = bytes) as -> by congruence. exists v, bytes, (rv_assignment resolved). split_and!; eauto.
    + destruct Hs as (bytes & -> & Ha & Hb & Hsha). injection Hr as Hm <-. unfold materialize in Hm. sum_inv. simpl.
      exists visit, bytes, (rv_assignment resolved). split_and!; eauto.
Qed.

(** ** From the publication to the node *)

Definition joined (chunks : list string) : string := foldr String.append EmptyString chunks.

(** A visit that meets a publication undisturbed: each target's signed entry stands for its bytes and
    its stream delivers them, in whatever chunks. *)
Definition serves (visit : Visit) (plan : PublicationPlan) : Prop :=
  ∃ lookup listing, vi_load visit = inr (lookup, listing) ∧ vi_replace visit = Replaced
    ∧ ∀ t, t ∈ pp_targets plan → vi_staging visit (pt_path t) = None
        ∧ (∃ entry, lookup (pt_path t) = Some entry ∧ content_of entry (pt_bytes t))
        ∧ ∃ chunks, vi_open visit (pt_path t) = inr (Some (inr <$> chunks)) ∧ joined chunks = pt_bytes t.

Lemma receive_all limit chunks : ∀ written received,
  (written + str_len (joined chunks) ≤ limit)%N →
  receive limit written received (inr <$> chunks) = inr (String.append received (joined chunks)).
Proof.
  induction chunks as [|chunk chunks IH]; intros written received; [by rewrite append_empty_r|].
  unfold joined. cbn [foldr fmap list_fmap receive]. fold (joined chunks). rewrite str_len_app. intros Hl.
  rewrite (proj2 (N.ltb_ge _ _)) by lia. rewrite IH by lia. by rewrite append_assoc.
Qed.

Lemma content_verifies path entry bytes :
  content_of entry bytes → verify_handle (to_verified path entry) bytes = true.
Proof.
  intros [Hl Hs]. unfold verify_handle. simpl. rewrite Hl, Hs, N.eqb_refl. unfold digests_match.
  by rewrite !sha256_canonical, bool_decide_true.
Qed.

(** One target, downloaded and read. *)
Lemma download_and_read visit repo path entry bytes chunks limit :
  vi_open visit path = inr (Some (inr <$> chunks)) → joined chunks = bytes → vi_staging visit path = None →
  content_of entry bytes → (str_len bytes ≤ tr_target_limit repo)%N → (str_len bytes ≤ limit)%N →
  download_target visit repo (to_verified path entry) = inr bytes
  ∧ read_bounded (to_verified path entry) bytes limit = inr bytes.
Proof.
  intros Ho Hj Hs Hc Hr Hl. pose proof (content_verifies path entry bytes Hc) as Hv. pose proof Hc as [Hlen _].
  unfold download_target, read_bounded. cbn [vt_path vt_length to_verified].
  rewrite Ho, Hs, <-Hlen, (proj2 (N.leb_le _ _) Hr), (proj2 (N.leb_le _ _) Hl). cbn [ok_or mbind sum_bind demand].
  rewrite receive_all by (rewrite Hj; lia). rewrite Hj. cbn [mbind sum_bind String.append]. by rewrite Hv.
Qed.

Lemma resolve_staged_runs visit routing repo agent_entry agent_bytes document entry bytes assignment :
  let agent := to_verified (ro_assignment routing) agent_entry in
  let config := to_verified (tr_path (doc_config document)) entry in
  tr_lookup repo (ro_assignment routing) = Some agent_entry →
  download_target visit repo agent = inr agent_bytes → read_bounded agent agent_bytes AgentDocument_MAX_BYTES = inr agent_bytes →
  AgentDocument_from_bounded_json agent_bytes = inr document →
  tr_lookup repo (tr_path (doc_config document)) = Some entry → content_of entry bytes →
  tr_sha256 (doc_config document) = sha256_bytes bytes →
  download_target visit repo config = inr bytes → read_bounded config bytes MAX_DOCUMENT_BYTES = inr bytes →
  RepositoryAssignment_from_bounded_json bytes = inr assignment →
  resolve_staged visit routing repo = inr (assignment, bytes).
Proof.
  intros agent config Hlk Hd1 Hr1 Hdoc Hclk [_ Hce] Hcs Hd2 Hr2 Hread.
  unfold resolve_staged, exact_target, find_target. rewrite Hlk. cbn [fmap option_fmap option_map ok_or mbind sum_bind].
  fold agent. rewrite Hd1. cbn [mbind sum_bind]. rewrite Hr1. cbn [mbind sum_bind]. rewrite Hdoc.
  cbn [map_err mbind sum_bind]. rewrite Hclk.
  cbn [fmap option_fmap option_map ok_or mbind sum_bind vt_sha256 to_verified]. fold config.
  rewrite Hce, Hcs. unfold digests_match. rewrite !sha256_canonical, bool_decide_true by done.
  cbn [andb demand map_err mbind sum_bind]. rewrite Hd2. cbn [mbind sum_bind]. rewrite Hr2. cbn [mbind sum_bind].
  by rewrite Hread.
Qed.

Lemma published_is_usable install_root d body id :
  publication d = inr (body, id) →
  usable_as_boot_config d install_root = demand (bool_decide (mr_install_root (ra_runtime d) = install_root)) BMoves.
Proof.
  intros [Hj _]%publication_inr. unfold RepositoryAssignment_to_bounded_json in Hj. sum_inv.
  unfold usable_as_boot_config. match goal with Hv : RepositoryAssignment_validate d = _ |- _ => rewrite Hv end. done.
Qed.

(** C19. A published assignment reaches its node.  A node that visits a compiled publication undisturbed
    through its own assignment path, and whose install root is the one the deployment the plan gave it
    names, resolves exactly that deployment, keeps the published bytes as its live file, and reports
    the identity the plan recorded for it; a node with any other install root refuses the deployment
    and keeps the live file it had.  The deployment's release root holds only numbers that read back
    exactly, and the published configuration is no SHA-256 collision with the deployment's. *)
Theorem published_assignment_reaches_the_node repository node_groups node_deployments plan node d visit routing install_root live :
  build_publication_plan repository node_groups node_deployments = Some (inr plan) →
  node_deployments !! node = Some d → json_is_exact (ra_release_root d) = true →
  serves visit plan → succeeds (routing_source routing) = true →
  ro_assignment routing = assignment_object_key (trim_matches "/" (rs_assignment_prefix repository)) node →
  ∃ id body, pp_node_assignments plan !! node = Some id ∧ publication d = inr (body, id)
    ∧ (resolve_assignment_at visit routing install_root live
         = (if bool_decide (mr_install_root (ra_runtime d) = install_root)
            then (inr (mkResolvedAssignment d id), Some body)
            else (inl (refuse "the resolved assignment is not usable"), live))
       ∨ ∃ config, config ∈ pp_targets plan ∧ pt_bytes config ≠ body
           ∧ sha256_bytes (pt_bytes config) = sha256_bytes body).
Proof.
  intros Hplan Hd Hexact (lookup & listing & Hload & Hrep & Hserve) Hsource Hpath.
  destruct (generation_hands_out_deployments _ _ _ _ Hplan) as (_ & _ & _ & _ & Hnodes).
  destruct (Hnodes node d Hd) as (body & id & document & bytes & config & Hpub & Hid & Hin & Hdoc & Hcin & Hcp & Hcs & Hsha & _).
  exists id, body. split_and!; [done|done|]. destruct (decide (pt_bytes config = body)) as [Hbody|Hne].
  2:{ right. exists config. split_and!; [done|done|]. apply publication_inr in Hpub as [_ ->]. congruence. }
  left. destruct (Hserve _ Hin) as (Hst & (entry & Hlk & Hcont) & chunks & Hop & Hj). simpl in *.
  destruct (Hserve _ Hcin) as (Hcst & (centry & Hclk & Hccont) & cchunks & Hcop & Hcj). rewrite Hbody in *.
  pose proof (publication_reads_back _ _ _ Hexact Hpub) as Hread.
  assert (str_len body ≤ MAX_DOCUMENT_BYTES)%N as Hsize.
  { unfold RepositoryAssignment_from_bounded_json, bounded_check in Hread. sum_inv. by apply N.leb_le. }
  assert (str_len bytes ≤ AgentDocument_MAX_BYTES)%N as Hasize.
  { unfold AgentDocument_from_bounded_json, bounded_decode, bounded_check in Hdoc. sum_inv. by apply N.leb_le. }
  set (repo := mkTrustedRepository lookup listing ROUTING_TARGET_LIMIT None).
  destruct (download_and_read visit repo _ entry bytes chunks AgentDocument_MAX_BYTES Hop Hj Hst Hcont) as [Hd1 Hr1];
    [unfold ROUTING_TARGET_LIMIT, MAX_DOCUMENT_BYTES, AgentDocument_MAX_BYTES in *; simpl; lia|done|].
  destruct (download_and_read visit repo _ centry body cchunks MAX_DOCUMENT_BYTES Hcop Hcj Hcst Hccont) as [Hd2 Hr2];
    [done|done|].
  assert (resolve_staged visit routing repo = inr (d, body)) as Hstaged.
  { apply (resolve_staged_runs visit routing repo entry bytes document centry body d); rewrite ?Hpath, ?Hcp; try done.
    by apply publication_inr in Hpub as [_ <-]. }
  pose proof (published_is_usable install_root d body id Hpub) as Hus.
  unfold resolve_assignment_at. cbn zeta. rewrite Hload. unfold succeeds in Hsource.
  destruct (routing_source routing) as [|[ml tl]] eqn:Hsrc; [done|].
  assert (tl = ROUTING_TARGET_LIMIT) as -> by (unfold routing_source in Hsrc; sum_inv; by simplify_eq/=).
  cbn [mbind sum_bind load_repository snd]. fold repo. rewrite Hstaged. cbn [mbind sum_bind fst]. rewrite Hus.
  destruct (bool_decide (mr_install_root (ra_runtime d) = install_root)); [|done].
  cbn [demand map_err mbind sum_bind]. unfold write_if_changed. destruct (_ && _) eqn:Hsame.
  - apply andb_true_iff in Hsame as [_ ->%bool_decide_eq_true]. by apply publication_inr in Hpub as [_ ->].
  - rewrite Hrep. by apply publication_inr in Hpub as [_ ->].
Qed.

End client.

(** ** Minting an enrollment object *)

(** The version, length and digest a role records of the next document. *)
Record Metafile : Type := mkMetafile {
  mf_version : N;
  mf_length : option N;
  mf_sha256 : option string;
}.

(** tough's schema: parsing the four roles, checking a signed role against a root, and their fields.
    Instants are microseconds. *)
Class SignedRoles : Type := {
  SignedRoot : Type;
  SignedTimestamp : Type;
  SignedSnapshot : Type;
  SignedTargets : Type;
  parse_root : string → option SignedRoot;
  parse_timestamp : string → option SignedTimestamp;
  parse_snapshot : string → option SignedSnapshot;
  parse_targets : string → option SignedTargets;
  verify_root : SignedRoot → SignedRoot → bool;
  verify_timestamp : SignedRoot → SignedTimestamp → bool;
  verify_snapshot : SignedRoot → SignedSnapshot → bool;
  verify_targets : SignedRoot → SignedTargets → bool;
  root_expires : SignedRoot → Z;
  timestamp_expires : SignedTimestamp → Z;
  snapshot_expires : SignedSnapshot → Z;
  targets_expires : SignedTargets → Z;
  timestamp_meta : SignedTimestamp → BTreeMap Metafile;
  snapshot_version : SignedSnapshot → N;
  snapshot_meta : SignedSnapshot → BTreeMap Metafile;
  targets_version : SignedTargets → N;
  target_name_is_valid : string → bool;
  targets_entry : SignedTargets → string → option TargetEntry;
}.

Section enrollment.
Context `{!JsonValues} `{!Sha256} `{!SemverOrder} `{!Urls} `{!AssignmentJson} `{!Serde AgentDocument} `{!SignedRoles}.

Definition parse_enrollment_document {T} (parse : string → option T) (bytes name : string) : Error + T :=
  ok_or (parse bytes) (refuse (String.append "invalid enrollment " name)).

Definition verify_enrollment_metafile (name : string) (meta : Metafile) (bytes : string) : Error + unit :=
  _ ← demand (match mf_length meta with Some length => (length =? str_len bytes)%N | None => true end)
        (refuse "length mismatch");
  demand (match mf_sha256 meta with
          | Some sha256 => digests_match (sha256_bytes bytes) (hex_encode sha256)
          | None => true
          end) (refuse "digest mismatch").

Definition verify_enrollment_target (targets : SignedTargets) (path bytes : string) : Error + unit :=
  _ ← demand (target_name_is_valid path) (refuse "invalid enrollment path");
  entry ← ok_or (targets_entry targets path) (refuse "enrollment targets omit the path");
  demand ((te_length entry =? str_len bytes)%N
          && digests_match (sha256_bytes bytes) (hex_encode (te_sha256 entry)))
    (refuse "length or digest mismatch").

Definition verify_enrollment_publication (now : Z)
    (root_bytes timestamp_bytes snapshot_bytes targets_bytes assignment_path agent_bytes config_bytes : string)
    : Error + RepositoryAssignment :=
  root ← parse_enrollment_document parse_root root_bytes "root";
  timestamp ← parse_enrollment_document parse_timestamp timestamp_bytes "timestamp";
  snapshot ← parse_enrollment_document parse_snapshot snapshot_bytes "snapshot";
  targets ← parse_enrollment_document parse_targets targets_bytes "targets";
  _ ← demand (verify_root root root) (refuse "enrollment root signature");
  _ ← demand (verify_timestamp root timestamp) (refuse "enrollment timestamp signature");
  _ ← demand (verify_snapshot root snapshot) (refuse "enrollment snapshot signature");
  _ ← demand (verify_targets root targets) (refuse "enrollment targets signature");
  _ ← each (λ expires, demand (now <? expires)%Z (refuse "metadata is expired"))
        [root_expires root; timestamp_expires timestamp; snapshot_expires snapshot; targets_expires targets];
  _ ← demand (size (timestamp_meta timestamp) =? 1)%nat (refuse "timestamp must describe exactly snapshot.json");
  snapshot_file ← ok_or (timestamp_meta timestamp !! "snapshot.json"%string) (refuse "timestamp omits snapshot.json");
  _ ← verify_enrollment_metafile "snapshot" snapshot_file snapshot_bytes;
  _ ← demand (snapshot_version snapshot =? mf_version snapshot_file)%N (refuse "snapshot version does not match timestamp");
  targets_file ← ok_or (snapshot_meta snapshot !! "targets.json"%string) (refuse "snapshot omits targets.json");
  _ ← verify_enrollment_metafile "targets" targets_file targets_bytes;
  _ ← demand (targets_version targets =? mf_version targets_file)%N (refuse "targets version does not match snapshot");
  _ ← verify_enrollment_target targets assignment_path agent_bytes;
  agent ← map_err (λ _, refuse "invalid agent document") (AgentDocument_from_bounded_json agent_bytes);
  _ ← verify_enrollment_target targets (tr_path (doc_config agent)) config_bytes;
  map_err (λ _, refuse "invalid config bundle") (RepositoryAssignment_from_bounded_json config_bytes).

Lemma verify_enrollment_target_inr targets path bytes :
  verify_enrollment_target targets path bytes = inr tt →
  ∃ entry, targets_entry targets path = Some entry ∧ content_of entry bytes.
Proof.
  unfold verify_enrollment_target. intros Hv. sum_inv. bool_to_prop.
  match goal with He : targets_entry _ _ = Some ?x |- _ => exists x; split; [done|] end.
  split; [by symmetry; apply N.eqb_eq|]. by match goal with Hm : digests_match _ _ = true |- _ => apply digests_equal in Hm end.
Qed.

(** What the controller proves of a publication before it mints a node's enrollment is what the node
    will demand of it: the accepted document is bootable at its own install root, every role is
    signed by the root and unexpired, and to a node that loads these targets the accepted bytes are
    the authenticated content of its assignment whenever their digest is the one referenced. *)
Lemma accepted_publication_is_what_the_node_demands now root_bytes timestamp_bytes snapshot_bytes targets_bytes
    path agent_bytes config_bytes assignment :
  verify_enrollment_publication now root_bytes timestamp_bytes snapshot_bytes targets_bytes path agent_bytes config_bytes
    = inr assignment →
  bootable (mr_install_root (ra_runtime assignment)) config_bytes assignment
  ∧ ∃ root timestamp snapshot targets document,
      parse_root root_bytes = Some root ∧ parse_timestamp timestamp_bytes = Some timestamp
      ∧ parse_snapshot snapshot_bytes = Some snapshot ∧ parse_targets targets_bytes = Some targets
      ∧ verify_root root root && verify_timestamp root timestamp && verify_snapshot root snapshot
        && verify_targets root targets = true
      ∧ (now < root_expires root)%Z ∧ (now < targets_expires targets)%Z
      ∧ AgentDocument_from_bounded_json agent_bytes = inr document
      ∧ ∀ visit routing listing, vi_load visit = inr (targets_entry targets, listing) → ro_assignment routing = path →
          sha256_bytes config_bytes = tr_sha256 (doc_config document) → authenticated visit routing config_bytes.
Proof.
  unfold verify_enrollment_publication, parse_enrollment_document. intros Hv. sum_inv. split; [done|].
  do 5 eexists. split_and!; try done.
  - repeat match goal with H : verify_root _ _ = true |- _ => rewrite H; clear H | H : verify_timestamp _ _ = true |- _ => rewrite H; clear H
      | H : verify_snapshot _ _ = true |- _ => rewrite H; clear H | H : verify_targets _ _ = true |- _ => rewrite H; clear H end. done.
  - match goal with He : ∀ x, x ∈ _ → demand (now <? x)%Z _ = _ |- (now < ?e)%Z => specialize (He e ltac:(set_solver)) end.
    sum_inv. lia.
  - match goal with He : ∀ x, x ∈ _ → demand (now <? x)%Z _ = _ |- (now < ?e)%Z => specialize (He e ltac:(set_solver)) end.
    sum_inv. lia.
  - intros visit routing listing Hl <- Hd.
    repeat match goal with Ht : verify_enrollment_target _ _ _ = _ |- _ => apply verify_enrollment_target_inr in Ht as (? & ? & ?) end.
    do 6 eexists. by split_and!.
Qed.

End enrollment.
