(* ===== verification/FirstInstall.v ===== *)
(** * FirstInstall: cold install, its resumption, and repair

    Models [agent/src/install.rs], [agent/src/acquire.rs] and [agent/src/repair.rs] over the
    store's programs: the choice of the first application, the journaled drive from staged bytes
    to a committed record, its resumption after a crash at any point, the repair of committed
    bytes that no longer verify, and [node_boot], the boot of [agent/src/main.rs] from its first
    step to the running application.  What a boot meets outside this node, the routing and release
    repositories and what staging a bundle answers, is the parameter [Acquisition].  An error the
    caller only propagates carries no more than its message; a [None] result is a panic of the
    selection or a loop that outran its fuel, and [InstallSafety.v] shows that neither happens. *)
From S2P Require Import Prelude Identity State Transaction Install World Reject Store.
From S2P Require Import Boot Update Maps Releases Assignment Selection.

(** ** Acquisition *)

Inductive AcquireBundleError : Type :=
| ARepository (e : Error)
| AInvalid (archive_sha256 : string) (source : io_error)
| AStorage (e : io_error).

Inductive PrepareError : Type :=
| PRepository (e : Error)
| PBundle (version archive_sha256 : string) (source : io_error)
| PStorage (e : io_error).

Record PreparedApplication : Type := mkPreparedApplication {
  pa_reconciler : ReconcilerRelease;
  pa_release : ReleaseId;
  pa_version : string;
  pa_archive_sha256 : string;
}.

(** The [(version, archive)] a caller may reject for good. *)
Definition rejected_archive (e : PrepareError) : option (string * string) :=
  match e with
  | PBundle version archive_sha256 _ => Some (version, archive_sha256)
  | PRepository _ | PStorage _ => None
  end.

Section acquisition.
Context `{!JsonValues} `{SemverOrder}.

(** What one boot meets: the repository its assignment names, whether each target's object can be
    opened, what downloading a target and installing it as a bundle of a version answer, and the
    execution contract of an installed bundle. *)
Record Acquisition : Type := mkAcquisition {
  aq_assigned : Error + TrustedRepository;
  aq_available : list VerifiedTarget → Error + unit;
  aq_download : VerifiedTarget → Error + unit;
  aq_install_bundle : VerifiedTarget → string → InstallError + ReleaseId;
  aq_execution : ReleaseId → InstallError + ReconcilerRelease;
}.

Context (policy : DefaultPolicy) (acq : Acquisition).

Definition select_assigned_application (repo : TrustedRepository) (stance : Stance)
    (is_rejected : string → bool) : option (PrepareError + option (list SelectedRelease)) :=
  r ← assigned_application repo policy (λ target _, is_rejected (target_sha target)) stance;
  Some (match r with
        | inl e => inl (PRepository e)
        | inr [] => inr None
        | inr route => inr (Some route)
        end).

Definition acquire_verified_bundle (target : VerifiedTarget) (version : string)
    : AcquireBundleError + ReleaseId :=
  _ ← map_err ARepository (aq_download acq target);
  map_err (λ error, match error with
                    | IArchive source => AInvalid (target_sha target) source
                    | IStorage source => AStorage source
                    end) (aq_install_bundle acq target version).

Definition prepare_application (selected : SelectedRelease) : PrepareError + PreparedApplication :=
  id ← map_err (λ error, match error with
                         | ARepository e => PRepository e
                         | AStorage e => PStorage e
                         | AInvalid archive_sha256 source => PBundle (sr_version selected) archive_sha256 source
                         end) (acquire_verified_bundle (sr_target selected) (sr_version selected));
  reconciler ← map_err (λ error, match error with
                                 | IStorage e => PStorage e
                                 | IArchive source => PBundle (sr_version selected) (sr_sha256 selected) source
                                 end) (aq_execution acq id);
  inr (mkPreparedApplication reconciler id (sr_version selected) (sr_sha256 selected)).

Definition prepare_assigned_application (route : list SelectedRelease)
    : PrepareError + PreparedApplication :=
  _ ← map_err PRepository (aq_available acq (sr_target <$> route));
  first ← ok_or (head route) (PStorage (IoError InvalidInput "empty upgrade route"));
  prepare_application first.

End acquisition.

Definition fails {A} (message : string) : M A := throw (IoError Other message).

(** ** Installing *)

Section install.
Context `{Sha256} `{Semver} `{Codec} `{!JsonValues} `{SemverOrder}.
Context (policy : DefaultPolicy) (acq : Acquisition).

Definition advance_install (tx : InstallTransaction) (next : InstallPhase) : M InstallTransaction :=
  tx ← lift (install_advance next tx);
  _ ← write_install_journal tx;
  mret tx.

Definition provisional_of (tx : InstallTransaction) : InstalledState :=
  InstalledState_provisional (it_repository_lineage tx) (it_release tx) (it_archive_sha256 tx) (it_reconciler tx).

Definition advance_from (from next : InstallPhase) (tx : InstallTransaction) : M InstallTransaction :=
  if bool_decide (it_phase tx = from) then advance_install tx next else mret tx.

(** The commit half of [place_and_commit]: enrollment, record, terminal phase, cleanup. *)
Definition commit_unit (tx : InstallTransaction) : M unit :=
  h ← read_install_history;
  _ ← (match h with HistoryMissing => record_first_install | _ => mret tt end);
  _ ← commit_installed (provisional_of tx);
  tx ← advance_from Placed InstallCommitted tx;
  clear_install_journal.

Definition place_and_commit (tx : InstallTransaction) : M unit :=
  tx ← advance_from Started InstallPrepared tx;
  _ ← activate (it_release tx);
  tx ← advance_from InstallPrepared Placed tx;
  commit_unit tx.

(** The loop over rejectable archives; each turn that repeats has rejected one more. *)
Fixpoint choose_first (fuel : nat) (repo : TrustedRepository) (lineage : RepositoryLineage)
    : M (option PreparedApplication) :=
  match fuel with
  | O => mret None
  | S fuel =>
      rejected ← get_proc;
      match select_assigned_application policy repo SNothing (rejects_deployment rejected lineage) with
      | None => mret None
      | Some (inl _) => fails "preparing the first application"
      | Some (inr None) => fails "the assignment has no supported installation route to its target"
      | Some (inr (Some selected)) =>
          match prepare_assigned_application acq selected with
          | inr prepared => mret (Some prepared)
          | inl error =>
              match rejected_archive error with
              | Some (_, archive_sha256) =>
                  _ ← reject_artifact lineage archive_sha256;
                  choose_first fuel repo lineage
              | None => fails "preparing the first application"
              end
          end
      end
  end.

Definition apply_install : M (option unit) :=
  repo ← (match aq_assigned acq with
          | inl _ => fails "loading the first trusted assignment"
          | inr repo => mret repo
          end);
  assignment ← (match tr_assignment repo with
                | None => fails "the first trusted repository has no desired deployment"
                | Some context => mret context
                end);
  let lineage := ac_repository_lineage assignment in
  chosen ← choose_first (S MAX_RELEASES) repo lineage;
  match chosen with
  | None => mret None
  | Some prepared =>
      id ← token;
      let tx := mkInstallTransaction id (pa_release prepared) (pa_archive_sha256 prepared) lineage
                  (pa_reconciler prepared) Started in
      _ ← write_install_journal tx;
      tx ← advance_install tx InstallPrepared;
      _ ← place_and_commit tx;
      mret (Some tt)
  end.

(** Whether this boot performed the first install. *)
Definition ensure_installed : M (option bool) :=
  j ← install_journal;
  match j with
  | Some tx =>
      i ← installed;
      let i := match i with Present state => Some state | Missing | Invalid => None end in
      match classify_install_recovery tx i with
      | InstallRecoveryCommitted => _ ← clear_install_journal; mret (Some true)
      | InstallResume => _ ← place_and_commit tx; mret (Some true)
      end
  | None =>
      i ← installed;
      h ← read_install_history;
      match i, h with
      | Missing, HistoryMissing =>
          r ← apply_install;
          match r with Some _ => mret (Some true) | None => mret None end
      | Missing, _ => fails "installed state is missing after a previous installation; refusing to cold-install"
      | Present state, HistoryPresent =>
          refused ← (if negb (is_proven state)
                     then j ← journal;
                          rejected ← get_proc;
                          mret (bool_decide (j = None)
                                && rejects_deployment rejected (st_repository_lineage state) (st_archive_sha256 state))
                     else mret false);
          if refused : bool then fails "rejected installation requires explicit recovery"
          else mret (Some false)
      | Present _, _ => fails "installed state exists without a valid enrollment record"
      | Invalid, _ => fails "installed state is invalid; refusing to cold-install"
      end
  end.

(** ** Repairing *)

Inductive Repair : Type := FromAssignment (repo : TrustedRepository) | RollbackJournaled.

Definition repair_from_assignment : M (option TrustedRepository) :=
  repo ← (match aq_assigned acq with
          | inl _ => fails "loading the signed repair assignment"
          | inr repo => mret repo
          end);
  i ← installed;
  match i with
  | Present state =>
      rejected ← get_proc;
      match select_assigned_application policy repo
              (SReacquire (version (st_release state)) (st_archive_sha256 state))
              (store_is_rejected rejected (st_repository_lineage state)) with
      | None => mret None
      | Some (inl _) => fails "preparing the signed repair"
      | Some (inr None) => fails "the signed assignment contains no installable application"
      | Some (inr (Some selected)) =>
          match prepare_assigned_application acq selected with
          | inl _ => fails "preparing the signed repair"
          | inr prepared =>
              if negb (bool_decide (pa_release prepared = st_release state))
                 || negb (bool_decide (pa_archive_sha256 prepared = st_archive_sha256 state))
              then fails "authenticated repair selection did not reproduce the committed artifact"
              else
                _ ← activate (pa_release prepared);
                _ ← commit_installed state;
                mret (Some repo)
          end
      end
  | _ => fails "repair requires a valid committed application record"
  end.

Definition journal_predecessor_fallback (state : InstalledState) (guard : RollbackGuard) : M unit :=
  persist_transaction (rollback_of_guarded state guard false).

Definition repair_committed_bundle : M (option Repair) :=
  attempted ← attempt repair_from_assignment;
  match attempted with
  | Ok None => mret None
  | Ok (Some repo) => mret (Some (FromAssignment repo))
  | Err assignment_error =>
      i ← installed;
      match i with
      | Present state =>
          match st_rollback_guard state with
          | Some pending =>
              _ ← bundle_verify_release (rg_previous_release pending);
              _ ← journal_predecessor_fallback state pending;
              mret (Some RollbackJournaled)
          | None => throw assignment_error
          end
      | _ => throw assignment_error
      end
  end.

(** ** A process's boot *)

(** The committed bytes are checked before anything trusts them, and repaired when they fail;
    returns whether this boot re-acquired them.  The check's answer is the environment's: bytes a
    repair has since republished pass the later checks. *)
Definition verify_committed : M (option bool) :=
  i ← installed;
  match i with
  | Present state =>
      verified ← attempt (bundle_verify_release (st_release state));
      match verified with
      | Ok _ => mret (Some false)
      | Err _ =>
          repair ← repair_committed_bundle;
          mret (match repair with
                | Some (FromAssignment _) => Some true
                | Some RollbackJournaled => Some false
                | None => None
                end)
      end
  | Missing | Invalid => mret (Some false)
  end.

(** [run] from the opened store to the end of boot. *)
Definition node_boot (health_successes : N) : M (option boot_end) :=
  first_install ← ensure_installed;
  match first_install with
  | None => mret None
  | Some _ =>
      bytes_repaired ← verify_committed;
      match bytes_repaired with
      | None => mret None
      | Some bytes_repaired =>
          ended ← boot health_successes bytes_repaired;
          mret (Some ended)
      end
  end.

End install.
