(* ===== verification/InstallSafety.v ===== *)
(** * InstallSafety: cold install and repair are crash-safe

    Theorems of [FirstInstall.v], in the logic of [AgentLogic.v] over the machine of [StoreSpec.v].
    The loop over first applications ends within its fuel because each turn that repeats has
    rejected one more of the graph's packages; an install journal carries one unit from the first
    write to the last; and the whole boot, installation and repair before recovery, keeps the node
    in the states [node_ok] names, completes an undisturbed recovery, and can strand a rollback. *)
From S2P Require Import Prelude Identity State Transaction Install World Reject Store.
From S2P Require Import StoreSpec StoreRefine Boot Update AgentLogic Agent Recovery AgentHistory.
From S2P Require Import Maps Releases Routes Assignment Selection FirstInstall.

(** ** The store's install calls *)

Section calls.
Context `{Sha256} `{Semver} `{Codec} `{!ReleaseFits}.
Context (m : machine) (p : Rejections) (E : machine → Rejections → Prop) (C : machine → Prop).

Lemma mwp_get_proc (Q : Rejections → machine → Rejections → Prop) : Q p m p → mwp get_proc m p Q E C.
Proof. intros HQ d e Hr Hl. by exists m. Qed.

Lemma mwp_install_journal (Q : option InstallTransaction → machine → Rejections → Prop) :
  Q (m_install m) m p → E m p → C m → mwp install_journal m p Q E C.
Proof. apply mwp_evals. intros. by apply install_journal_rep. Qed.

Lemma mwp_write_install tx (Q : unit → machine → Rejections → Prop) :
  (InstallTransaction_validate tx = Ok tt → may_write_install p m tx = true →
   Q tt (set_install (Some tx) m) p ∧ E (set_install (Some tx) m) p ∧ C (set_install (Some tx) m)) →
  E m p → C m → mwp (write_install_journal tx) m p Q E C.
Proof.
  intros Hg HE HC. apply (mwp_record m p E C (OpWriteInstall tx)); [|done|done].
  simpl. intros Ht. bool_to_prop. apply is_ok_Ok in H3 as [[] ?]. auto.
Qed.

Lemma mwp_clear_install (Q : unit → machine → Rejections → Prop) :
  (may_clear_install m = true → Q tt (set_install None m) p ∧ E (set_install None m) p ∧ C (set_install None m)) →
  E m p → C m → mwp clear_install_journal m p Q E C.
Proof. intros Hg HE HC. by apply (mwp_record m p E C OpClearInstall). Qed.

(** The history marker as it is, or unreadable; never an error. *)
Lemma mwp_history (Q : InstallHistory → machine → Rejections → Prop) :
  Q (if m_enrolled m then HistoryPresent else HistoryMissing) m p → Q HistoryInvalid m p → C m →
  mwp read_install_history m p Q E C.
Proof.
  intros HQ HI HC d e Hr Hl. pose proof (rep_enrolled d m Hr) as Hen. unfold history_view in Hen.
  unfold read_install_history. apply wp_bind, wp_attempt. unfold wp at 1.
  destruct (read_bounded_regular_evals PHistory (str_len INSTALL_HISTORY_MARKER) d p e)
    as [(e1 & _ & ->)|(_ & e1 & [[k ->]| ->])]; [| |by exists m].
  - destruct (file_view _ _ d) as [raw|er]; apply wp_ret; exists m; by rewrite <-Hen in HQ.
  - apply wp_ret. exists m. split_and!; [done|done|]. by destruct k.
Qed.

Lemma mwp_first_install (Q : unit → machine → Rejections → Prop) :
  (m_enrolled m = false → Q tt (set_enrolled true m) p ∧ E (set_enrolled true m) p ∧ C (set_enrolled true m)) →
  E m p → C m → mwp record_first_install m p Q E C.
Proof.
  intros Hg HE HC. unfold record_first_install. apply mwp_bind, mwp_history; [|by apply mwp_throw|done].
  destruct (m_enrolled m); [by apply mwp_throw|]. destruct (Hg eq_refl) as (HQ & HE' & HC').
  intros d e Hr Hl. pose proof (rep_enroll d m Hr) as Hr'.
  assert (ledger_inv (<[PHistory := INSTALL_HISTORY_MARKER]> d) p) as Hl' by (by eapply ledger_inv_rep).
  apply wp_durable_change; intros; first [by exists m|by exists (set_enrolled true m)].
Qed.

(** Rejecting never forgets a verdict of this process. *)
Lemma mwp_reject_artifact l digest (Q : unit → machine → Rejections → Prop) :
  (∀ g p', m_ledger m ⊆ g → hashes p ⊆ hashes p' → rejection_is_durable p' l digest = true →
     Q tt (set_ledger g m) p') →
  (∀ g p', m_ledger m ⊆ g → E (set_ledger g m) p') → E m p →
  (∀ g, m_ledger m ⊆ g → C (set_ledger g m)) →
  mwp (reject_artifact l digest) m p Q E C.
Proof.
  intros HQ HE HE0 HC. unfold reject_artifact, record_rejection. apply mwp_bind, mwp_lift.
  destruct (store_rejection_key l digest) as [k|] eqn:Hk; [|done]. intros d e Hr Hl.
  assert (∀ d', ledger_grows d d' → ∃ g, represents d' (set_ledger g m) ∧ m_ledger m ⊆ g) as Hgrow.
  { intros d' [(hs & hs' & Hd & Hd' & Hsub) Ho]. exists hs'. split; [by eapply rep_ledger_grows|].
    rewrite (rep_ledger _ _ Hr) in Hd. by injection Hd as ->. }
  eapply wp_mono; [by apply wp_reject|..].
  - intros [] w (Hi & Hh & Hdur & Hg). destruct (Hgrow _ Hg) as (g & ? & ?). exists (set_ledger g m).
    split_and!; [done..|]. apply HQ; [done|done|]. unfold rejection_is_durable. by rewrite Hk.
  - intros er w (Hi & _ & Hg). destruct (Hgrow _ Hg) as (g & ? & ?). exists (set_ledger g m). auto.
  - intros d' Hg. destruct (Hgrow _ Hg) as (g & ? & ?). exists (set_ledger g m). auto.
Qed.

End calls.

(** ** One unit, from its journal to its record *)

Section progress.
Context `{Sha256} `{Semver} `{Codec} `{!ReleaseFits} `{!JsonValues} `{SemverOrder}.
Context (policy : DefaultPolicy) (acq : Acquisition).

(** The journal holds the unit [tx], in some phase; a record beside it is that unit's, unproven, and
    the pointer names it. *)
Record installing (tx : InstallTransaction) (m : machine) : Prop := {
  ing_update : m_journal m = None;
  ing_journal : ∃ phase, m_install m = Some (set_install_phase phase tx);
  ing_valid : InstallTransaction_validate tx = Ok tt;
  ing_record : ∀ i, m_installed m = Some i → i = provisional_of tx ∧ m_active m = Some (it_release tx);
}.

(** The unit is committed and its journal gone. *)
Record placed (tx : InstallTransaction) (m : machine) : Prop := {
  pl_update : m_journal m = None;
  pl_install : m_install m = None;
  pl_record : m_installed m = Some (provisional_of tx);
  pl_active : m_active m = Some (it_release tx);
}.

Definition underway (tx : InstallTransaction) (m : machine) : Prop := installing tx m ∨ placed tx m.

(** While it is being placed: the journal is exactly [set_install_phase phase tx]. *)
Record at_phase (tx : InstallTransaction) (phase : InstallPhase) (m : machine) : Prop := {
  ap_update : m_journal m = None;
  ap_journal : m_install m = Some (set_install_phase phase tx);
  ap_valid : InstallTransaction_validate tx = Ok tt;
}.

Lemma at_phase_installing tx phase m :
  at_phase tx phase m →
  (∀ i, m_installed m = Some i → i = provisional_of tx ∧ m_active m = Some (it_release tx)) → installing tx m.
Proof. intros [] ?. split; eauto. Qed.

Lemma at_phase_underway tx phase m : at_phase tx phase m → m_installed m = None → underway tx m.
Proof. intros Hp Hi. left. eapply at_phase_installing; [done|]. intros i. by rewrite Hi. Qed.

Lemma provisional_matches tx : matches_installed tx (provisional_of tx) = true.
Proof. unfold matches_installed. simpl. by rewrite !bool_decide_true. Qed.

(** An [advance_from] leaves the journal in step with memory, or an error behind either phase. *)
Lemma mwp_advance_from tx from next phase m p (R : machine → Prop)
    (Q : InstallTransaction → machine → Rejections → Prop) E C :
  install_edge from next = true → at_phase tx phase m → R m →
  (∀ j m, R m → R (set_install j m)) →
  (∀ phase m, at_phase tx phase m → R m → E m p ∧ C m) →
  (∀ phase' m', at_phase tx phase' m' → R m' → phase' = (if bool_decide (phase = from) then next else phase) →
     Q (set_install_phase phase' tx) m' p) →
  mwp (advance_from from next (set_install_phase phase tx)) m p Q E C.
Proof.
  intros Hedge Hp HR Hstable HE HQ. unfold advance_from. simpl. case_bool_decide as Hf.
  2:{ apply mwp_ret. by apply (HQ phase). }
  subst phase. apply mwp_bind, mwp_lift. unfold install_advance. simpl. rewrite Hedge. simpl.
  apply mwp_bind, mwp_write_install; [|by eapply HE..].
  intros Hv Hw. assert (at_phase tx next (set_install (Some (set_install_phase next tx)) m)) as Hn
    by (destruct Hp; by split).
  split_and!; [|by apply (HE next); eauto..]. apply mwp_ret, HQ; eauto.
Qed.

Lemma committed_underway tx phase m :
  at_phase tx phase m → m_installed m = Some (provisional_of tx) ∧ m_active m = Some (it_release tx) → underway tx m.
Proof. intros Hp [Hi Ha]. left. eapply at_phase_installing; [done|]. intros i Hii. split; congruence. Qed.

(** Writing the record of a unit the pointer already names. *)
Lemma commit_record_spec tx phase m p :
  at_phase tx phase m → m_installed m = None → m_active m = Some (it_release tx) →
  mwp (_ ← commit_installed (provisional_of (set_install_phase phase tx));
       tx ← advance_from Placed InstallCommitted (set_install_phase phase tx);
       clear_install_journal) m p (λ _ m' _, placed tx m') (λ m' _, underway tx m') (underway tx).
Proof.
  intros Hp Hi Ha. apply mwp_bind, mwp_commit_installed; [|by eapply at_phase_underway..].
  intros _ _. change (provisional_of (set_install_phase phase tx)) with (provisional_of tx).
  set (m1 := set_installed _ m). assert (at_phase tx phase m1) as Hp1 by (destruct Hp; by split).
  pose proof (committed_underway tx phase m1 Hp1 (conj eq_refl Ha)) as Hun. split_and!; [|done|done].
  apply mwp_bind, (mwp_advance_from tx _ _ phase m1 p
    (λ m, m_installed m = Some (provisional_of tx) ∧ m_active m = Some (it_release tx))); [done..| |];
    [by eauto using committed_underway|].
  intros ph m2 Hp2 [Hi2 Ha2] _. apply mwp_clear_install; [|by eapply committed_underway..].
  intros _. assert (placed tx (set_install None m2)) as Hpl by (destruct Hp2; by split).
  split_and!; [done|by right..].
Qed.

Lemma commit_unit_spec tx phase m p :
  at_phase tx phase m → m_installed m = None → m_active m = Some (it_release tx) →
  mwp (commit_unit (set_install_phase phase tx)) m p (λ _ m' _, placed tx m') (λ m' _, underway tx m') (underway tx).
Proof.
  intros Hp Hi Ha. pose proof (at_phase_underway tx phase m Hp Hi) as Hun. unfold commit_unit.
  apply mwp_bind, mwp_history; [| |done].
  - destruct (m_enrolled m); [apply mwp_bind, mwp_ret; by apply commit_record_spec|].
    assert (at_phase tx phase (set_enrolled true m)) as Hpe by (destruct Hp; by split).
    apply mwp_bind, mwp_first_install; [|done|done].
    intros _. split_and!; [by apply commit_record_spec|by eapply at_phase_underway..].
  - apply mwp_bind, mwp_ret. by apply commit_record_spec.
Qed.

(** Placing a journaled unit whose record is not yet written. *)
Lemma place_and_commit_spec tx phase m p :
  at_phase tx phase m → m_installed m = None →
  mwp (place_and_commit (set_install_phase phase tx)) m p
    (λ _ m' _, placed tx m') (λ m' _, underway tx m') (underway tx).
Proof.
  intros Hp Hi. unfold place_and_commit.
  apply mwp_bind, (mwp_advance_from tx _ _ phase m p (λ m, m_installed m = None)); [done..| |];
    [intros; by eauto using at_phase_underway|].
  intros ph m1 Hp1 Hi1 _. apply mwp_bind. cbn [it_release set_install_phase].
  assert (at_phase tx ph (set_active (Some (it_release tx)) m1)) as Hpa by (destruct Hp1; by split).
  apply mwp_activate; [|by eapply at_phase_underway..]. split_and!; [|by eapply at_phase_underway..].
  apply mwp_bind, (mwp_advance_from tx _ _ ph _ p (λ m, m_installed m = None ∧ m_active m = Some (it_release tx)));
    [done..| |]; [intros ? ? ? [? ?]; by eauto using at_phase_underway|].
  intros ph2 m2 Hp2 [Hi2 Ha2] _. by apply commit_unit_spec.
Qed.

(** ** Choosing the first application *)

Lemma rejects_deployment_mono p p' lineage sha :
  hashes p ⊆ hashes p' → rejects_deployment p lineage sha = true → rejects_deployment p' lineage sha = true.
Proof.
  intros Hsub. assert (∀ d, store_is_rejected p lineage d = true → store_is_rejected p' lineage d = true) as Hone.
  { intros d. unfold store_is_rejected. destruct (store_rejection_key lineage d) as [k|]; [|done].
    unfold is_rejected. destruct (digest_key k); [|done]. unfold set_contains. rewrite !bool_decide_eq_true. auto. }
  unfold rejects_deployment. rewrite !orb_true_iff. intros [Hd|Hd]; [by left; apply Hone|right].
  destruct (deployment_rejection_sha256 sha); [by apply Hone|done].
Qed.

Lemma durable_rejects p lineage sha :
  rejection_is_durable p lineage sha = true → rejects_deployment p lineage sha = true.
Proof.
  unfold rejection_is_durable, rejects_deployment, store_is_rejected. destruct (store_rejection_key lineage sha); [|done].
  unfold is_durably_rejected. by intros [_ ->]%andb_true_iff.
Qed.

Section choice.
Context (repo : TrustedRepository) (context : AssignmentContext) (Hcontext : tr_assignment repo = Some context).

Abbreviation lineage := (ac_repository_lineage context).
Abbreviation graph := (ra_application (ac_document context)).

(** The packages the node may start with under a ledger. *)
Definition open_to (r : Rejections) : VerifiedTarget → string → bool :=
  λ target _, rejects_deployment r lineage (target_sha target).
Definition choices (r : Rejections) : BTreeMap SelectedRelease := candidates_of repo policy (open_to r) graph.

Lemma choices_shrink r r' c :
  hashes r ⊆ hashes r' → authorised repo policy (open_to r) c → pinned graph c →
  rejects_deployment r' lineage (target_sha (sr_target c)) = true →
  (size (choices r') < size (choices r))%nat.
Proof.
  intros Hsub Ha Hpin Hrej. rewrite <-!(size_dom (D := gset string)). apply subset_size. split.
  - intros v. rewrite !elem_of_dom. intros [x (Hv & (? & ? & ? & Hx) & Hp)%candidates_spec]. exists x.
    apply candidates_spec. split_and!; [done| |done]. split_and!; [done..|]. unfold open_to in *.
    apply not_true_iff_false. intros Ht. by rewrite (rejects_deployment_mono r r') in Hx.
  - intros Hback. assert (sr_version c ∈ dom (choices r)) as Hin.
    { apply elem_of_dom. exists c. by apply candidates_spec. }
    apply Hback, elem_of_dom in Hin as [x (Hv & (Hf & _ & _ & Hx) & (rx & Hrx & Hpx & _))%candidates_spec].
    destruct Hpin as (rc & Hrc & Hpc & _). destruct Ha as (Hfc & _). rewrite Hv in Hrx.
    assert (rx = rc) as -> by congruence. rewrite Hpx in Hf. rewrite Hpc in Hfc.
    assert (sr_target x = sr_target c) as Heq by congruence. unfold open_to in Hx. rewrite Heq in Hx. congruence.
Qed.

Lemma choices_bound r : graph_validate graph = inr tt → (size (choices r) ≤ MAX_RELEASES)%nat.
Proof.
  intros Hv. transitivity (size (rg_releases graph)).
  - rewrite <-!(size_dom (D := gset string)). apply subseteq_size. intros v. rewrite !elem_of_dom.
    intros [c (<- & _ & rl & Hr & _)%candidates_spec]. by exists rl.
  - unfold graph_validate in Hv. destruct (_ || _) eqn:Hn; [done|]. bool_to_prop. by apply Nat.ltb_ge in H6.
Qed.

(** The selection of a fresh node: total, and its first hop authorised under the ledger. *)
Lemma select_fresh r :
  ∃ out, select_assigned_application policy repo SNothing (rejects_deployment r lineage) = Some out
    ∧ match out with
      | inr (Some route) => graph_validate graph = inr tt
          ∧ ∃ c, head route = Some c ∧ authorised repo policy (open_to r) c ∧ pinned graph c
      | _ => True
      end.
Proof.
  unfold select_assigned_application, assigned_application. rewrite Hcontext. cbn zeta.
  destruct (graph_validate graph) as [e|[]] eqn:Hv; cbn [mbind sum_bind map_err]; [by eexists|].
  destruct (plan_route_spec repo policy (open_to r) graph None Hv eq_refl) as (d & out & _ & Hout & Hs).
  unfold open_to in Hout. cbn [installed_version]. rewrite Hout. cbn [mbind option_bind]. eexists. split; [done|].
  rewrite bool_decide_false in Hs by done.
  destruct out as [e|[|c route]]; [done|done|]. destruct Hs as (_ & _ & [[? ?] _]%Forall_cons). eauto.
Qed.

(** Only a verdict on the archive that was selected can be recorded. *)
Lemma rejected_archive_selected route error version archive c :
  prepare_assigned_application acq route = inl error → rejected_archive error = Some (version, archive) →
  head route = Some c → sr_sha256 c = target_sha (sr_target c) → archive = target_sha (sr_target c).
Proof.
  intros Hp Hr Hc Hsha. unfold prepare_assigned_application, prepare_application, acquire_verified_bundle in Hp.
  rewrite Hc in Hp. destruct (aq_available acq _); cbn in Hp; [by simplify_eq/=|].
  destruct (aq_download acq _); cbn in Hp; [by simplify_eq/=|].
  destruct (aq_install_bundle acq _ _) as [[]|id]; cbn in Hp; [by simplify_eq/=..|].
  destruct (aq_execution acq id) as [[]|]; cbn in Hp; by simplify_eq/=.
Qed.

Lemma prepared_archive route prepared :
  prepare_assigned_application acq route = inr prepared →
  ∃ c, head route = Some c ∧ pa_archive_sha256 prepared = sr_sha256 c.
Proof.
  unfold prepare_assigned_application, prepare_application. intros Hp. sum_inv. simpl. eauto.
Qed.

Definition only_ledger (m m' : machine) : Prop := ∃ l, m_ledger m ⊆ l ∧ m' = set_ledger l m.

Lemma only_ledger_refl m : only_ledger m m.
Proof. exists (m_ledger m). split; [done|]. by destruct m. Qed.

Lemma only_ledger_trans m l m' : m_ledger m ⊆ l → only_ledger (set_ledger l m) m' → only_ledger m m'.
Proof. intros Hl (l' & Hl' & ->). exists l'. simpl in Hl'. split; [by etrans|done]. Qed.

(** What was chosen, under the ledger [r]. *)
Definition chosen_from (p r : Rejections) (archive : string) : Prop :=
  hashes p ⊆ hashes r
  ∧ ∃ c, sr_sha256 c = archive ∧ authorised repo policy (open_to r) c ∧ pinned graph c.

Lemma choose_first_spec fuel : ∀ m p,
  (0 < fuel)%nat → (graph_validate graph = inr tt → (size (choices p) < fuel)%nat) →
  mwp (choose_first policy acq fuel repo lineage) m p
    (λ chosen m' p', only_ledger m m' ∧ ∃ prepared, chosen = Some prepared ∧ chosen_from p p' (pa_archive_sha256 prepared))
    (λ m' _, only_ledger m m') (only_ledger m).
Proof.
  induction fuel as [|fuel IH]; intros m p Hpos Hfuel; [lia|]. cbn [choose_first].
  pose proof (only_ledger_refl m) as Hrefl. apply mwp_bind, mwp_get_proc.
  destruct (select_fresh p) as (out & -> & Hout).
  destruct out as [e|[route|]]; [by apply mwp_throw| |by apply mwp_throw].
  destruct Hout as (Hv & c & Hc & Ha & Hpin).
  destruct (prepare_assigned_application acq route) as [error|prepared] eqn:Hprep.
  2:{ apply mwp_ret. split; [done|]. exists prepared. split; [done|]. split; [done|].
      apply prepared_archive in Hprep as (c' & Hc' & ->). simplify_eq. by exists c. }
  destruct (rejected_archive error) as [[version archive]|] eqn:Hrej; [|by apply mwp_throw].
  assert (archive = target_sha (sr_target c)) as -> by (eapply rejected_archive_selected; [done..|apply Ha]).
  apply mwp_bind, mwp_reject_artifact; [|intros g p' Hg; by exists g|done|intros g Hg; by exists g].
  intros g p' Hg Hsub Hdur. apply durable_rejects in Hdur.
  pose proof (choices_shrink p p' c Hsub Ha Hpin Hdur) as Hlt. specialize (Hfuel Hv).
  eapply mwp_mono; [apply IH; [lia|intros _; lia]|..].
  - intros chosen m' p1 (Hm & prepared & -> & Hs & Hch). split; [by eapply only_ledger_trans|].
    exists prepared. split; [done|]. split; [by etrans|done].
  - intros m' p1 Hm. by eapply only_ledger_trans.
  - intros m' Hm. by eapply only_ledger_trans.
Qed.

End choice.

(** ** A boot's first step *)

(** The unit came from the assignment, authenticated, eligible and not rejected before. *)
Definition fresh_unit (p : Rejections) (tx : InstallTransaction) : Prop :=
  ∃ repo context r, aq_assigned acq = inr repo ∧ tr_assignment repo = Some context
    ∧ it_repository_lineage tx = ac_repository_lineage context
    ∧ chosen_from repo context p r (it_archive_sha256 tx).

(** How far a boot may come: a journaled unit stays the one unit; a node with a record, or one that
    spent its enrollment, is left alone; an empty one may reject archives and take up one unit. *)
Definition advances (p : Rejections) (m m' : machine) : Prop :=
  match m_install m with
  | Some tx => underway tx m'
  | None =>
      if bool_decide (is_Some (m_installed m)) || m_enrolled m then m' = m
      else only_ledger m m' ∨ ∃ tx, fresh_unit p tx ∧ underway tx m'
  end.

(** What a boot that returns has done. *)
Definition finished (p : Rejections) (m : machine) (out : option bool) (m' : machine) : Prop :=
  match out with
  | None => False
  | Some false => m' = m ∧ m_install m = None ∧ is_Some (m_installed m) ∧ m_enrolled m = true
  | Some true =>
      match m_install m with
      | Some tx => placed tx m'
      | None => m_installed m = None ∧ m_enrolled m = false ∧ ∃ tx, fresh_unit p tx ∧ placed tx m'
      end
  end.

(** A durable install journal is an install in progress. *)
Definition install_ok (m : machine) : Prop := ∀ tx, m_install m = Some tx → installing tx m.

Lemma set_own_phase tx : set_install_phase (it_phase tx) tx = tx.
Proof. by destruct tx. Qed.

Lemma apply_install_spec m p :
  m_install m = None → m_installed m = None →
  mwp (apply_install policy acq) m p
    (λ out m' _, out = Some tt ∧ ∃ tx, fresh_unit p tx ∧ placed tx m')
    (λ m' _, only_ledger m m' ∨ ∃ tx, fresh_unit p tx ∧ underway tx m')
    (λ m', only_ledger m m' ∨ ∃ tx, fresh_unit p tx ∧ underway tx m').
Proof.
  intros Hj Hi. pose proof (only_ledger_refl m) as Hrefl. unfold apply_install. apply mwp_bind.
  destruct (aq_assigned acq) as [e|repo] eqn:Hrepo; [apply mwp_throw; by left|]. apply mwp_ret, mwp_bind.
  destruct (tr_assignment repo) as [context|] eqn:Hcontext; [|apply mwp_throw; by left]. apply mwp_ret. cbn zeta.
  apply mwp_bind. eapply mwp_mono; [apply (choose_first_spec repo context Hcontext); [lia|]|..].
  { intros Hv. pose proof (choices_bound repo context p Hv). lia. }
  2: by left. 2: by left.
  intros chosen m1 p1 (Hm1 & prepared & -> & Hch). apply mwp_bind, mwp_token; [|by left..]. intros id.
  set (tx := mkInstallTransaction _ _ _ _ _ _).
  assert (fresh_unit p tx) as Hfresh by (by exists repo, context, p1).
  assert (m_installed m1 = None ∧ m_install m1 = None) as [Hi1 Hj1] by (by destruct Hm1 as (l & _ & ->)).
  apply mwp_bind, mwp_write_install; [|by left..]. intros Hval Hw.
  assert (at_phase tx Started (set_install (Some tx) m1)) as Hp.
  { unfold may_write_install in Hw. bool_to_prop. by split. }
  pose proof (at_phase_underway _ _ _ Hp Hi1) as Hun. split_and!; [|by eauto..].
  change tx with (set_install_phase Started tx). apply mwp_bind.
  unshelve epose proof (mwp_advance_from tx Started InstallPrepared Started _ p1 (λ m, m_installed m = None)
    (λ tx' m' p', mwp (_ ← place_and_commit tx'; mret (Some tt)) m' p' _ _ _) _ _ eq_refl Hp Hi1 _ _ _) as Hadv;
    [..|exact Hadv].
  - intros; eauto.
  - intros phase m' Hp' Hi'. split; eauto using at_phase_underway.
  - intros phase m' Hp' Hi' _. apply mwp_bind. eapply mwp_mono; [by apply place_and_commit_spec|..]; [|by eauto..].
    intros [] m2 p2 Hpl. apply mwp_ret. eauto.
Qed.

Lemma ensure_installed_spec m p :
  install_ok m →
  mwp (ensure_installed policy acq) m p (λ out m' _, finished p m out m') (λ m' _, advances p m m') (advances p m).
Proof.
  intros Hok. unfold ensure_installed.
  assert (advances p m m) as Hstay.
  { unfold advances. destruct (m_install m) as [tx|] eqn:Hj; [left; by apply Hok|].
    destruct (_ || _); [done|]. left. apply only_ledger_refl. }
  apply mwp_bind, mwp_install_journal; [|done|done].
  destruct (m_install m) as [tx|] eqn:Hj.
  - pose proof (Hok tx Hj) as Hing. apply mwp_bind, mwp_installed; [|done|done].
    assert (∀ m', underway tx m' → advances p m m') as Hadv by (intros m' Hu; unfold advances; by rewrite Hj).
    assert (∀ m', placed tx m' → finished p m (Some true) m') as Hfin by (intros m' Hu; unfold finished; by rewrite Hj).
    destruct (m_installed m) as [i|] eqn:Hi.
    + destruct (ing_record _ _ Hing i Hi) as [-> Ha]. cbn zeta. unfold classify_install_recovery.
      rewrite provisional_matches. apply mwp_bind, mwp_clear_install; [|done|done]. intros _.
      assert (placed tx (set_install None m)) as Hpl by (destruct Hing; by split).
      split_and!; [apply mwp_ret; auto|apply Hadv; by right..].
    + cbn. apply mwp_bind.
      assert (at_phase tx (it_phase tx) m) as Hp.
      { destruct Hing as [? _ ? _]. split; [done|by rewrite set_own_phase|done]. }
      pose proof (place_and_commit_spec tx (it_phase tx) m p Hp Hi) as Hpc. rewrite set_own_phase in Hpc.
      eapply mwp_mono; [exact Hpc|..]; [|auto..]. intros [] m' p' Hpl. apply mwp_ret. auto.
  - apply mwp_bind, mwp_installed; [|done|done]. apply mwp_bind, mwp_history; [| |done].
    + destruct (m_installed m) as [i|] eqn:Hi; destruct (m_enrolled m) eqn:He; cbn.
      * apply mwp_bind. destruct (is_proven i); cbn [negb].
        -- apply mwp_ret. apply mwp_ret. unfold finished. by rewrite Hi, He.
        -- apply mwp_bind, mwp_journal; [|done|done]. apply mwp_bind, mwp_get_proc. apply mwp_ret.
           destruct (_ && _); [by apply mwp_throw|]. apply mwp_ret. unfold finished. by rewrite Hi, He.
      * by apply mwp_throw.
      * by apply mwp_throw.
      * apply mwp_bind. eapply mwp_mono; [by apply apply_install_spec|..].
        -- intros out m' p' (-> & tx & Hf & Hpl). apply mwp_ret. unfold finished. rewrite Hj. eauto.
        -- intros m' p' Hor. unfold advances. by rewrite Hj, Hi, He.
        -- intros m' Hor. unfold advances. by rewrite Hj, Hi, He.
    + destruct (m_installed m) as [i|]; by apply mwp_throw.
Qed.

End progress.

(** ** Histories of an install *)

Section install_history.
Context `{Sha256} `{Semver} `{Codec} `{!ReleaseFits} `{!JsonValues} `{SemverOrder}.
Context (policy : DefaultPolicy) (acq : Acquisition).

Lemma historic_install_journal : historic install_journal.
Proof. apply historic_evals. eauto using install_journal_rep. Qed.
Lemma historic_get_proc : historic get_proc.
Proof. by apply historic_env. Qed.
Lemma historic_read_install_history : historic read_install_history.
Proof.
  apply historic_bind; [|intros; apply historic_ret]. apply historic_attempt, historic_evals.
  intros d p m _. eexists. apply read_bounded_regular_evals.
Qed.
Lemma historic_write_install tx : historic (write_install_journal tx).
Proof. apply (historic_exec (OpRecord (OpWriteInstall tx))). Qed.
Lemma historic_clear_install : historic clear_install_journal.
Proof. apply (historic_exec (OpRecord OpClearInstall)). Qed.
Lemma historic_first_install : historic record_first_install.
Proof. apply (historic_exec OpFirstInstall). Qed.
#[local] Hint Resolve historic_install_journal historic_get_proc historic_read_install_history
  historic_write_install historic_clear_install historic_first_install : historic.

Lemma historic_fails {A} message : historic (fails message : M A).
Proof. apply historic_throw. Qed.
#[local] Hint Resolve historic_fails : historic.

Lemma historic_place_and_commit tx : historic (place_and_commit tx).
Proof. unfold place_and_commit, commit_unit, advance_from, advance_install. historic. Qed.

Lemma historic_choose_first fuel repo lineage : historic (choose_first policy acq fuel repo lineage).
Proof. induction fuel as [|fuel IH]; cbn [choose_first]; historic. Qed.
#[local] Hint Resolve historic_place_and_commit historic_choose_first : historic.

Lemma historic_ensure_installed : historic (ensure_installed policy acq).
Proof. unfold ensure_installed, apply_install, advance_install. historic. Qed.

Lemma historic_repair_from_assignment : historic (repair_from_assignment policy acq).
Proof. unfold repair_from_assignment. historic. Qed.

End install_history.

(** ** One run of the first step *)

Section first_step.
Context `{Sha256} `{Semver} `{Codec} `{!ReleaseFits} `{!JsonValues} `{SemverOrder}.

(** One run of the first step, however its environment ends it: it never panics nor loops, acts only
    through the store's specification, and what it leaves is as [finished] or [advances] says. *)
Lemma ensure_installed_run policy acq d p e m out w :
  represents d m → ledger_inv d p → install_ok m →
  ensure_installed policy acq (World d p e) = (out, w) →
  ∃ m', represents (disk w) m' ∧ history m m' ∧ (out ≠ Died → ledger_inv (disk w) (proc w))
    ∧ match out with Done b => finished policy acq p m b m' | _ => advances policy acq p m m' end.
Proof.
  intros Hr Hl Hok Hex.
  pose proof (ensure_installed_spec policy acq m p Hok d e Hr Hl) as Hs.
  pose proof (historic_ensure_installed policy acq d p e m Hr Hl) as Hh.
  unfold wp in Hs, Hh. rewrite Hex in Hs, Hh.
  destruct out as [b|er|].
  - destruct Hs as (m1 & Hr1 & Hl1 & Hf), Hh as (m2 & Hr2 & _ & Hh). rewrite (represents_inj _ _ _ Hr2 Hr1) in Hh.
    by exists m1.
  - destruct Hs as (m1 & Hr1 & Hl1 & Hf), Hh as (m2 & Hr2 & _ & Hh). rewrite (represents_inj _ _ _ Hr2 Hr1) in Hh.
    by exists m1.
  - destruct Hs as (m1 & Hr1 & Hf), Hh as (m2 & Hr2 & Hh). rewrite (represents_inj _ _ _ Hr2 Hr1) in Hh.
    by exists m1.
Qed.

(** A record once committed stays, and no install journal returns beside it. *)
Lemma settled_history m m' :
  history m m' → m_install m = None ∧ is_Some (m_installed m) → m_install m' = None ∧ is_Some (m_installed m').
Proof.
  apply (history_invariant (λ m, m_install m = None ∧ is_Some (m_installed m))).
  intros r m1 m2 _ Hstep [Hj [i Hi]]. destruct Hstep as [s ? ?| | | |tx ? Hw| | |]; simpl; eauto.
  exfalso. unfold may_write_install in Hw. rewrite Hj, Hi in Hw. bool_to_prop. done.
Qed.

(** C12. The first step of a boot is all or nothing.  However its environment ends it, it neither panics
    nor loops, it changes the files only by steps of the store's specification, a unit whose
    install was journaled stays the one being installed, a node that holds a record or has spent
    its enrollment is not touched, and an empty one rejects archives or takes up one authorised
    unit; when it returns, the unit is committed, provisional and active with its journal gone, or
    there was nothing to do.  A record is any record: also a provisional head that was rejected, past
    which several comments expect the next install to descend, is left as it is. *)
Theorem first_install_keeps_its_unit policy acq d p e m out w :
  represents d m → ledger_inv d p → install_ok m →
  ensure_installed policy acq (World d p e) = (out, w) →
  ∃ m', represents (disk w) m' ∧ history m m'
    ∧ match out with Done b => finished policy acq p m b m' | _ => advances policy acq p m m' end.
Proof.
  intros Hr Hl Hok Hex. destruct (ensure_installed_run policy acq d p e m out w Hr Hl Hok Hex) as (m' & ? & ? & _ & ?).
  by exists m'.
Qed.

(** A committed record without the enrollment marker is refused by every later boot. *)
Lemma unenrolled_record_never_boots policy acq d p e m out w :
  represents d m → ledger_inv d p → m_install m = None → is_Some (m_installed m) → m_enrolled m = false →
  ensure_installed policy acq (World d p e) = (out, w) → (∀ b, out ≠ Done b) ∧ represents (disk w) m.
Proof.
  intros Hr Hl Hj [i Hi] Hen Hex. assert (install_ok m) as Hok by (intros tx; congruence).
  destruct (ensure_installed_run policy acq d p e m out w Hr Hl Hok Hex) as (m' & Hr' & _ & _ & Hf).
  destruct out as [[[|]|]|er|].
  - simpl in Hf. rewrite Hj in Hf. destruct Hf as (? & _). congruence.
  - destruct Hf as (_ & _ & _ & ?). congruence.
  - done.
  - unfold advances in Hf. rewrite Hj, Hi in Hf. simpl in Hf. by subst.
  - unfold advances in Hf. rewrite Hj, Hi in Hf. simpl in Hf. by subst.
Qed.

End first_step.

(** ** An interrupted install completes *)

Section completion.
Context `{Sha256} `{Semver} `{Codec} `{!ReleaseFits} `{!JsonValues} `{SemverOrder}.

(** Every valid install record serialises within its limit. *)
Class InstallCodecTotal : Prop :=
  encodes_install : ∀ t, InstallTransaction_validate t = Ok tt → is_Some (encode JOURNAL_RECORD_MAX_BYTES t).
Context `{!CodecTotal} `{!InstallCodecTotal}.

Lemma runs_install_journal m p (Q : option InstallTransaction → machine → Rejections → Prop) :
  Q (m_install m) m p → runs install_journal m p Q.
Proof. apply runs_evals. intros. by apply install_journal_rep. Qed.

Lemma runs_write_install tx m p (Q : unit → machine → Rejections → Prop) :
  InstallTransaction_validate tx = Ok tt → may_write_install p m tx = true →
  Q tt (set_install (Some tx) m) p → runs (write_install_journal tx) m p Q.
Proof.
  intros Hv Hw. apply (runs_record (OpWriteInstall tx)). simpl. rewrite Hv, Hw. simpl.
  apply bool_decide_eq_true. by apply encodes_install.
Qed.

Lemma runs_clear_install m p (Q : unit → machine → Rejections → Prop) :
  may_clear_install m = true → Q tt (set_install None m) p → runs clear_install_journal m p Q.
Proof. apply (runs_record OpClearInstall). Qed.

Lemma calm_history d p e m :
  represents d m → calm e →
  read_install_history (World d p e) = (Done (if m_enrolled m then HistoryPresent else HistoryMissing), World d p e).
Proof.
  intros Hr Hc. rewrite <-(rep_enrolled d m Hr). unfold read_install_history, history_view, mbind, M_bind.
  destruct (evals_attempt d p _ _ (read_bounded_regular_evals PHistory (str_len INSTALL_HISTORY_MARKER) d p) e)
    as [(e1 & He & ->)|[Hn _]]; [|by destruct Hn; apply Hc].
  rewrite He by apply Hc. by destruct (file_view _ _ d).
Qed.

Lemma runs_history m p (Q : InstallHistory → machine → Rejections → Prop) :
  Q (if m_enrolled m then HistoryPresent else HistoryMissing) m p → runs read_install_history m p Q.
Proof. intros HQ d e Hr Hl Hc. eexists _, d, p, m. split; [by apply calm_history|by split_and!]. Qed.

Lemma runs_first_install m p (Q : unit → machine → Rejections → Prop) :
  m_enrolled m = false → Q tt (set_enrolled true m) p → runs record_first_install m p Q.
Proof.
  intros He HQ. unfold record_first_install. apply runs_bind, runs_history. rewrite He.
  intros d e Hr Hl Hc. pose proof (rep_enroll d m Hr).
  eexists tt, _, p, (set_enrolled true m). split_and!; [by apply durable_change_quiet, Hc|done|by eapply ledger_inv_rep|done].
Qed.

Lemma valid_install_parts tx :
  InstallTransaction_validate tx = Ok tt →
  ReleaseId_validate (it_release tx) = Ok tt ∧ InstalledState_validate (provisional_of tx) = Ok tt.
Proof.
  intros Hv. unfold InstallTransaction_validate in Hv.
  apply result_bind_Ok in Hv as ([] & _ & Hv). apply result_bind_Ok in Hv as ([] & Hrel & Hv). split; [done|].
  unfold InstalledState_validate, provisional_of, InstalledState_provisional. simpl. result_inv. result_ok ltac:(done).
Qed.

(** Each advance is allowed once its barrier is durable. *)
Lemma may_advance_install tx phase next m p :
  at_phase tx phase m → install_edge phase next = true →
  (next = Placed → m_active m = Some (it_release tx)) →
  (next = InstallCommitted → m_active m = Some (it_release tx) ∧ m_installed m = Some (provisional_of tx)) →
  may_write_install p m (set_install_phase next tx) = true.
Proof.
  intros [Hu Hj _] Hedge Hpl Hco. unfold may_write_install. rewrite Hu, Hj. simpl.
  rewrite (bool_decide_eq_true_2 (it_id tx = it_id tx)) by done. simpl. apply andb_true_iff. split.
  - destruct next; [done|done| |].
    + by apply bool_decide_eq_true, Hpl.
    + destruct Hco as [-> ->]; [done|]. rewrite bool_decide_true by done. exact (provisional_matches tx).
  - apply install_permits_replacement_spec. right. exists next. by destruct tx.
Qed.

Lemma runs_advance_from tx from next phase m p (Q : InstallTransaction → machine → Rejections → Prop) :
  install_edge from next = true → at_phase tx phase m →
  (next = Placed → m_active m = Some (it_release tx)) →
  (next = InstallCommitted → m_active m = Some (it_release tx) ∧ m_installed m = Some (provisional_of tx)) →
  (phase ≠ from → Q (set_install_phase phase tx) m p) →
  (phase = from → Q (set_install_phase next tx) (set_install (Some (set_install_phase next tx)) m) p) →
  runs (advance_from from next (set_install_phase phase tx)) m p Q.
Proof.
  intros Hedge Hp Hpl Hco Hno Hyes. unfold advance_from. simpl. case_bool_decide as Hf; [subst phase|by apply runs_ret, Hno].
  unfold advance_install, install_advance. simpl. rewrite Hedge. simpl. apply runs_bind, runs_ret.
  apply runs_bind, runs_write_install; [apply Hp|by apply (may_advance_install tx from)|]. by apply runs_ret, Hyes.
Qed.

Lemma runs_commit_record tx phase m p :
  at_phase tx phase m → m_installed m = None → m_active m = Some (it_release tx) → m_enrolled m = true →
  phase = Placed ∨ phase = InstallCommitted →
  runs (_ ← commit_installed (provisional_of (set_install_phase phase tx));
        tx ← advance_from Placed InstallCommitted (set_install_phase phase tx);
        clear_install_journal) m p (λ _ m' _, placed tx m' ∧ m_enrolled m' = true).
Proof.
  intros Hp Hi Ha He Hph. destruct (valid_install_parts tx (ap_valid _ _ _ Hp)) as [_ Hst].
  apply runs_bind, runs_commit; [done| |].
  { unfold may_commit. rewrite Ha, Hi, (ap_journal _ _ _ Hp). simpl. rewrite bool_decide_true by done. simpl.
    pose proof (provisional_matches tx : matches_installed (set_install_phase phase tx) (provisional_of (set_install_phase phase tx)) = true) as ->.
    by destruct Hph as [-> | ->]. }
  set (m1 := set_installed _ m). assert (at_phase tx phase m1) as Hp1 by (destruct Hp; by split).
  assert (∀ ph m', at_phase tx ph m' → m_installed m' = Some (provisional_of tx) → m_active m' = Some (it_release tx) →
    m_enrolled m' = true → runs clear_install_journal m' p (λ _ m' _, placed tx m' ∧ m_enrolled m' = true)) as Hclear.
  { intros ph m' Hp' Hi' Ha' He'. apply runs_clear_install.
    - unfold may_clear_install. rewrite (ap_journal _ _ _ Hp'), Hi'. exact (provisional_matches tx).
    - split; [|done]. destruct Hp'. by split. }
  apply runs_bind, runs_advance_from; [done|done|done|done|intros _; by eapply Hclear|].
  intros ->. eapply (Hclear InstallCommitted); [destruct Hp1; by split|done..].
Qed.

Lemma runs_commit_unit tx phase m p :
  at_phase tx phase m → m_installed m = None → m_active m = Some (it_release tx) →
  phase = Placed ∨ phase = InstallCommitted →
  runs (commit_unit (set_install_phase phase tx)) m p (λ _ m' _, placed tx m' ∧ m_enrolled m' = true).
Proof.
  intros Hp Hi Ha Hph. unfold commit_unit. apply runs_bind, runs_history. destruct (m_enrolled m) eqn:He.
  - apply runs_bind, runs_ret. by apply runs_commit_record.
  - apply runs_bind, runs_first_install; [done|]. apply runs_commit_record; try done. destruct Hp. by split.
Qed.

Lemma runs_place tx phase m p :
  at_phase tx phase m → m_installed m = None → phase ≠ Started →
  runs (_ ← activate (it_release tx);
        tx ← advance_from InstallPrepared Placed (set_install_phase phase tx);
        commit_unit tx) m p (λ _ m' _, placed tx m' ∧ m_enrolled m' = true).
Proof.
  intros Hp Hi Hph. destruct (valid_install_parts tx (ap_valid _ _ _ Hp)) as [Hrel _].
  apply runs_bind, runs_activate; [done|].
  set (m1 := set_active _ m). assert (at_phase tx phase m1) as Hp1 by (destruct Hp; by split).
  apply runs_bind, runs_advance_from; [done|done|done|done| |].
  - intros Hne. apply runs_commit_unit; try done. destruct phase; auto; done.
  - intros ->. apply runs_commit_unit; [|done|done|by left]. destruct Hp1. by split.
Qed.

Lemma runs_place_and_commit tx phase m p :
  at_phase tx phase m → m_installed m = None →
  runs (place_and_commit (set_install_phase phase tx)) m p (λ _ m' _, placed tx m' ∧ m_enrolled m' = true).
Proof.
  intros Hp Hi. unfold place_and_commit.
  apply runs_bind, runs_advance_from; [done|done|done|done|intros Hne; exact (runs_place tx phase m p Hp Hi Hne)|].
  intros ->. refine (runs_place tx InstallPrepared _ p _ _ _); [|done|done]. destruct Hp. by split.
Qed.

(** C25. An interrupted first install always completes.  From whatever point a crash or a failed call left
    it at, and whatever the repositories answer or no longer answer, one undisturbed boot commits
    exactly the journaled unit, provisional and active, and removes the journal; and the bootstrap
    enrollment is spent whenever this boot wrote the record. *)
Theorem interrupted_install_completes policy acq d p e m tx :
  represents d m → ledger_inv d p → calm e → install_ok m → m_install m = Some tx →
  ∃ d' p' m', ensure_installed policy acq (World d p e) = (Done (Some true), World d' p' e)
    ∧ represents d' m' ∧ placed tx m' ∧ (m_installed m = None → m_enrolled m' = true).
Proof.
  intros Hr Hl Hc Hok Hj. pose proof (Hok tx Hj) as Hing.
  assert (runs (ensure_installed policy acq) m p (λ out m' _, out = Some true ∧ placed tx m'
    ∧ (m_installed m = None → m_enrolled m' = true))) as Hruns.
  { unfold ensure_installed. apply runs_bind, runs_install_journal. rewrite Hj. apply runs_bind, runs_installed.
    destruct (m_installed m) as [i|] eqn:Hi.
    - destruct (ing_record _ _ Hing i Hi) as [-> Ha]. cbn zeta. unfold classify_install_recovery.
      rewrite provisional_matches. apply runs_bind, runs_clear_install.
      { unfold may_clear_install. rewrite Hj, Hi. apply provisional_matches. }
      apply runs_ret. split_and!; [done| |done]. destruct Hing. by split.
    - cbn. apply runs_bind.
      assert (at_phase tx (it_phase tx) m) as Hp.
      { destruct Hing as [? _ ? _]. split; [done|by rewrite set_own_phase|done]. }
      pose proof (runs_place_and_commit tx (it_phase tx) m p Hp Hi) as Hpc. rewrite set_own_phase in Hpc.
      eapply runs_mono; [exact Hpc|]. intros [] m' p' [Hpl He]. by apply runs_ret. }
  destruct (Hruns d e Hr Hl Hc) as (a & d' & p' & m' & Heq & ? & _ & -> & ? & ?). by exists d', p', m'.
Qed.

End completion.

(** ** Repair *)

Section repair.
Context `{Sha256} `{Semver} `{Codec} `{!ReleaseFits} `{!JsonValues} `{SemverOrder}.
Context (policy : DefaultPolicy) (acq : Acquisition).

(** The pointer back on the record, if it moved at all. *)
Definition repointed (m m' : machine) : Prop :=
  m' = m ∨ ∃ i, m_installed m = Some i ∧ m' = set_active (Some (st_release i)) m.

(** The package the repair took: authorised, unrejected, and exactly the record's. *)
Definition reproduced (p : Rejections) (i : InstalledState) (repo : TrustedRepository) : Prop :=
  aq_assigned acq = inr repo
  ∧ ∃ c, authorised repo policy (λ t _, store_is_rejected p (st_repository_lineage i) (target_sha t)) c
    ∧ sr_version c = version (st_release i) ∧ sr_sha256 c = st_archive_sha256 i.

Lemma select_repair repo version sha256 is_rejected :
  ∃ out, select_assigned_application policy repo (SReacquire version sha256) is_rejected = Some out
    ∧ match out with
      | inr (Some route) => ∃ c, head route = Some c
          ∧ authorised repo policy (λ t _, is_rejected (target_sha t)) c ∧ sr_version c = version ∧ sr_sha256 c = sha256
      | _ => True
      end.
Proof.
  unfold select_assigned_application. cbn [assigned_application mbind option_bind]. eexists. split; [done|].
  destruct (reacquire_spec repo policy (λ t _, is_rejected (target_sha t)) version sha256
    (merge_sort path_le (all_targets repo))) as (_ & Hf & _).
  destruct (reacquire _ _ _ _ _ _) as [|c route]; [done|]. apply Forall_cons in Hf as [? _]. by exists c.
Qed.

Lemma same_record m i : m_installed m = Some i → set_installed (Some i) m = m.
Proof. destruct m. simpl. by intros ->. Qed.

Lemma repair_from_assignment_spec m p :
  mwp (repair_from_assignment policy acq) m p
    (λ out m' p', p' = p ∧ ∃ i repo, out = Some repo ∧ m_installed m = Some i ∧ reproduced p i repo
                  ∧ m' = set_active (Some (st_release i)) m)
    (λ m' p', repointed m m') (repointed m).
Proof.
  assert (repointed m m) as Hrefl by (by left). unfold repair_from_assignment. apply mwp_bind.
  destruct (aq_assigned acq) as [e|repo] eqn:Hrepo; [by apply mwp_throw|]. apply mwp_ret.
  apply mwp_bind, mwp_installed; [|done|done]. destruct (m_installed m) as [i|] eqn:Hi; [|by apply mwp_throw].
  apply mwp_bind, mwp_get_proc.
  destruct (select_repair repo (version (st_release i)) (st_archive_sha256 i) (store_is_rejected p (st_repository_lineage i)))
    as (out & -> & Hout).
  destruct out as [e|[route|]]; [by apply mwp_throw| |by apply mwp_throw]. destruct Hout as (c & Hc & Ha & Hv & Hs).
  destruct (prepare_assigned_application acq route) as [e|prepared]; [by apply mwp_throw|].
  destruct (_ || _) eqn:Hsame; [by apply mwp_throw|]. bool_to_prop. subst.
  match goal with Hr : pa_release prepared = _ |- _ => rewrite Hr end.
  assert (repointed m (set_active (Some (st_release i)) m)) as Hre by (right; eauto).
  apply mwp_bind, mwp_activate; [|done|done]. split_and!; [|done|done].
  apply mwp_bind, mwp_commit_installed; [|done|done]. intros _ _. rewrite same_record by done. split_and!; [|done|done].
  apply mwp_ret. split; [done|]. exists i, repo. split_and!; [done|done| |done]. split; [done|]. by exists c.
Qed.

(** A steady head stays coherent when the pointer is put back on it. *)
Lemma repointed_coherent m m' : repointed m m' → agent_coherent m → steady m → agent_coherent m' ∧ steady m'.
Proof.
  intros [->|(i & Hi & ->)] Hac Hs; [done|]. split; [|done]. unfold agent_coherent, steady in *. simpl.
  destruct (m_journal m) as [tx|]; [|intros ? Hii; rewrite Hi in Hii; by injection Hii as <-].
  destruct Hac as (Hni & Hv & i' & Hi' & Hst). split_and!; [done|done|]. exists i'. split; [done|].
  assert (i' = i) as -> by congruence. unfold stage in *. rewrite Hs in *. destruct Hst as (Hr & _ & Hg).
  split_and!; [done| |done]. unfold at_candidate. simpl. f_equal. apply Hr.
Qed.

(** What a repair may leave: the files a repointed head, or that with its own revert journaled. *)
Definition repair_leaves (m m' : machine) : Prop :=
  repointed m m' ∨ ∃ m1 i g, repointed m m1 ∧ m_installed m = Some i ∧ st_rollback_guard i = Some g
    ∧ m' = set_journal (Some (rollback_of_guarded i g false)) m1
    ∧ ∃ p, Transaction_validate (rollback_of_guarded i g false) = Ok tt
        ∧ may_write_journal p m1 (rollback_of_guarded i g false) = true.

Definition repaired (p : Rejections) (m : machine) (out : option Repair) (m' : machine) : Prop :=
  match out with
  | None => False
  | Some (FromAssignment repo) =>
      ∃ i, m_installed m = Some i ∧ reproduced p i repo ∧ m' = set_active (Some (st_release i)) m
  | Some RollbackJournaled => repair_leaves m m' ∧ m_journal m' ≠ None
  end.

Lemma fallback_spec m m1 i g p p1 :
  repointed m m1 → m_installed m = Some i → st_rollback_guard i = Some g →
  mwp (_ ← journal_predecessor_fallback i g; mret (Some RollbackJournaled)) m1 p1
    (λ out m' _, repaired p m out m') (λ m' _, repair_leaves m m') (repair_leaves m).
Proof.
  intros Hre Hi Hg. apply mwp_bind, mwp_write_journal; [|by left..]. intros Hv Hw.
  assert (repair_leaves m (set_journal (Some (rollback_of_guarded i g false)) m1)) as Hr.
  { right. exists m1, i, g. split_and!; [done..|]. by exists p1. }
  split_and!; [by apply mwp_ret|done|done].
Qed.

Lemma repair_committed_bundle_spec m p :
  mwp (repair_committed_bundle policy acq) m p
    (λ out m' _, repaired p m out m') (λ m' _, repair_leaves m m') (repair_leaves m).
Proof.
  unfold repair_committed_bundle. apply mwp_bind, mwp_attempt.
  eapply mwp_mono; [apply repair_from_assignment_spec|..]; [| |by left].
  { intros out m' p' (-> & i & repo & -> & Hi & Hrep & ->). apply mwp_ret. by exists i. }
  intros m1 p1 Hre er. assert (repair_leaves m m1) as Hl by (by left).
  assert (m_installed m1 = m_installed m) as Hi1 by (by destruct Hre as [->|(? & _ & ->)]).
  apply mwp_bind, mwp_installed; [|done|done]. rewrite Hi1.
  destruct (m_installed m) as [i|] eqn:Hi; [|by apply mwp_throw].
  destruct (st_rollback_guard i) as [g|] eqn:Hg; [|by apply mwp_throw].
  apply mwp_bind. unfold bundle_verify_release. apply mwp_bind, mwp_env; [|intros f|done|done].
  { intros w. unfold next_fault. by destruct (faults (env w)). }
  destruct f; [|by apply mwp_throw|by apply mwp_throw|by apply mwp_die|by apply mwp_die].
  apply mwp_bind, mwp_env; [by intros w| |done|done].
  intros e. destruct (intact e _); [|by apply mwp_throw]. apply mwp_ret. by apply fallback_spec.
Qed.

Lemma repair_leaves_record m m' :
  repair_leaves m m' →
  m_installed m' = m_installed m ∧ m_install m' = m_install m ∧ m_ledger m' = m_ledger m ∧ m_enrolled m' = m_enrolled m.
Proof. intros [[->|(i & _ & ->)]|(m1 & i & g & [->|(j & _ & ->)] & _ & _ & -> & _)]; done. Qed.

Lemma repair_leaves_coherent m m' : repair_leaves m m' → agent_coherent m → steady m → agent_coherent m'.
Proof.
  intros [Hre|(m1 & i & g & Hre & Hi & Hg & -> & p & Hv & Hw)] Hac Hs; [by eapply repointed_coherent|].
  destruct (repointed_coherent m m1 Hre Hac Hs) as [Hac1 Hs1].
  eapply (start_rollback_coherent p m1 i g false); [done| |done| |done|done].
  - by destruct Hre as [->|(? & _ & ->)].
  - intros tx Hj Hp. unfold steady in Hs1. rewrite Hj in Hs1. congruence.
Qed.

(** C26. A repair reproduces, it never chooses.  Whatever the repositories and the environment do, it does
    not panic, it changes neither the committed record nor the ledger nor the enrollment, it moves
    the pointer at most to the record's own release, and it journals at most the revert that record
    already owes, without a verdict against the release; it reports a repair from the assignment
    only with an authorised package of exactly the record's version and bytes behind an active
    release; and from a steady head it leaves files boot recovery handles. *)
Theorem repair_reproduces_the_record d p e m out w :
  represents d m → ledger_inv d p →
  repair_committed_bundle policy acq (World d p e) = (out, w) →
  ∃ m', represents (disk w) m'
    ∧ match out with Done r => repaired p m r m' | _ => repair_leaves m m' end
    ∧ m_installed m' = m_installed m ∧ m_install m' = m_install m ∧ m_ledger m' = m_ledger m
    ∧ m_enrolled m' = m_enrolled m
    ∧ (∀ tx, m_journal m' = Some tx → m_journal m = Some tx ∨ tx_candidate_rejection_required tx = false)
    ∧ (agent_coherent m → steady m → agent_coherent m').
Proof.
  intros Hr Hl Hex. pose proof (repair_committed_bundle_spec m p d e Hr Hl) as Hs. unfold wp in Hs. rewrite Hex in Hs.
  assert (∃ m', represents (disk w) m' ∧ match out with Done r => repaired p m r m' | _ => repair_leaves m m' end)
    as (m' & Hr' & Ho) by (destruct out; naive_solver).
  assert (repair_leaves m m') as Hleft.
  { destruct out as [[[repo|]|]| |]; [|apply Ho|done|done|done]. destruct Ho as (i & Hi & _ & ->). left. right. eauto. }
  destruct (repair_leaves_record m m' Hleft) as (? & ? & ? & ?). exists m'.
  split_and!; [done..| |intros; by eapply repair_leaves_coherent].
  intros tx Htx. destruct Hleft as [[->|(i & _ & ->)]|(m1 & i & g & _ & _ & _ & -> & _)]; [by left|by left|right].
  simpl in Htx. by injection Htx as <-.
Qed.

End repair.

(** ** The life of a node *)

Section node.
Context `{Sha256} `{Semver} `{Codec} `{!ReleaseFits} `{!JsonValues} `{SemverOrder}.
Context (health_successes : N).

(** How the pointer, the record and the journal may stand: as the agent's own steps leave them, or
    with the pointer where a repair of the record's bytes put it in the middle of an update. *)
Definition node_coherent (m : machine) : Prop := agent_coherent m ∨ returned m ∨ stranded m.

(** The bootstrap enrollment is spent only on a unit that is journaled or installed. *)
Definition spent_ok (m : machine) : Prop := m_enrolled m = true → is_Some (m_install m) ∨ is_Some (m_installed m).

Definition node_machine_ok (m : machine) : Prop := node_coherent m ∧ install_ok m ∧ spent_ok m.

Lemma underway_ok tx m : underway tx m → node_machine_ok m.
Proof.
  intros [[Hu (phase & Hj) Hv Hrec]|[Hu Hj Hi Ha]]; (split_and!; [left; unfold agent_coherent; rewrite Hu| |]).
  - intros i [-> ->]%Hrec. done.
  - intros tx' Htx. rewrite Hj in Htx. injection Htx as <-. split; [done| |done|].
    + by exists phase.
    + intros i [-> Ha]%Hrec. done.
  - intros _. left. by rewrite Hj.
  - intros i Hii. rewrite Hi in Hii. by injection Hii as <-.
  - intros tx' Htx. congruence.
  - intros _. right. by rewrite Hi.
Qed.

Lemma node_coherent_ledger m l : node_coherent m → node_coherent (set_ledger l m).
Proof.
  intros [?|[?|[t ?]]]; [by left|by right; left|]. right. right. exists t. by apply stranded_ledger.
Qed.

Lemma advances_ok policy acq p m m' : advances policy acq p m m' → node_machine_ok m → node_machine_ok m'.
Proof.
  unfold advances. destruct (m_install m) as [tx|] eqn:Hj; [by intros Hu _; eapply underway_ok|].
  destruct (_ || _); [by intros ->|]. intros [(l & _ & ->)|(tx & _ & Hu)] Hm; [|by eapply underway_ok].
  destruct Hm as (Hac & Hok & Hs). split_and!; [by apply node_coherent_ledger| |done].
  intros tx Htx. simpl in Htx. congruence.
Qed.

Definition settled (m : machine) : Prop := m_install m = None ∧ is_Some (m_installed m).

Lemma finished_ok policy acq p m b m' :
  finished policy acq p m b m' → node_machine_ok m → node_machine_ok m' ∧ settled m'.
Proof.
  assert (∀ tx, placed tx m' → node_machine_ok m' ∧ settled m') as Hpl.
  { intros tx Hp. split; [apply (underway_ok tx); by right|]. destruct Hp as [_ ? Hi _]. split; [done|]. by rewrite Hi. }
  destruct b as [[|]|]; simpl; [|by intros (-> & ? & ? & _)|done].
  destruct (m_install m) as [tx|]; [by eauto|]. intros (_ & _ & tx & _ & Hp) _. by eauto.
Qed.

(** With a record and no install journal, coherence is all there is to keep. *)
Lemma settled_ok m : node_coherent m → settled m → node_machine_ok m.
Proof. intros Hc [Hj Hi]. split_and!; [done|intros tx; congruence|by right]. Qed.

(** The pointer on the record's own release, wherever it was. *)
Lemma repoint_coherent m i :
  node_coherent m → m_installed m = Some i → node_coherent (set_active (Some (st_release i)) m).
Proof.
  intros Hm Hi. set (m1 := set_active _ m).
  assert (m_active m = Some (st_release i) → m1 = m) as Hsame by (destruct m; simpl; by intros ->).
  destruct Hm as [Hac|[Hre|(t & Hs)]].
  - unfold agent_coherent in Hac. destruct (m_journal m) as [tx|] eqn:Hj.
    2:{ left. rewrite Hsame by (by apply Hac). unfold agent_coherent. by rewrite Hj. }
    destruct Hac as (Hni & Hv & i' & Hi' & Hst). assert (i' = i) as -> by congruence.
    assert (∀ Hx : stage tx m1 i, node_coherent m1) as Hco.
    { intros Hx. left. unfold agent_coherent. simpl. rewrite Hj. eauto. }
    assert (on_previous tx i → at_previous tx m1) as Hop
      by (intros [(Hrl & _)%matches_previous_runs _]; unfold at_previous; simpl; by rewrite Hrl).
    assert (matches_candidate tx i = true → at_candidate tx m1) as Hoc
      by (intros (Hrl & _)%matches_candidate_runs; unfold at_candidate; simpl; by rewrite Hrl).
    assert (on_previous tx i → (tx_phase tx = Activated ∨ tx_phase tx = Converged ∨ tx_phase tx = Verified) →
      node_coherent m1) as Hret.
    { intros Hon Hp. right. left. exists tx, i. split_and!; auto. }
    assert (past_restore tx = true → on_previous tx i ∨ on_candidate tx i → stage tx m1 i ∨ node_coherent m1) as Hpast.
    { intros Hp Hh. destruct (decide (m_active m1 = Some (tx_previous_release tx))) as [Hat|Hna].
      - left. unfold stage, past_restore in *. by destruct (tx_phase tx).
      - right. right. right. exists tx. destruct Hh as [Hon|Hon]; [by apply Hop in Hon|].
        pose proof Hon as [Hm _]. split; eauto. }
    unfold stage in Hst. destruct (tx_phase tx) eqn:Hp; destruct Hst as [Hh Hst].
    1: apply Hco; unfold stage; rewrite Hp; auto.
    1: by apply Hret; auto.
    1,2: destruct Hh as [Hon|[Hon Hq]]; [by apply Hret; auto|]; apply Hco; unfold stage; rewrite Hp;
      split; [by right|]; apply Hoc, Hon.
    1: destruct Hst as [_ Hg]; apply Hco; unfold stage; rewrite Hp; split_and!; [done| |done];
      unfold at_candidate; simpl; f_equal; apply Hh.
    1,2: apply Hco; unfold stage; rewrite Hp; split; [done|]; destruct Hh as [?|[? _]]; auto.
    all: destruct Hpast as [?|?]; [unfold past_restore; by rewrite Hp|done|by apply Hco|done].
  - rewrite Hsame; [by right; left|]. destruct Hre as (tx & i' & _ & _ & _ & Hi' & [Hm _] & Hat & _).
    assert (i' = i) as -> by congruence. apply matches_previous_runs in Hm as (-> & _). done.
  - rewrite Hsame; [right; right; by exists t|]. destruct (sb_record _ _ Hs) as (i' & Hi' & Hm & _).
    assert (i' = i) as -> by congruence. apply matches_candidate_runs in Hm as (-> & _). apply Hs.
Qed.

(** Whatever a repair leaves, the node accounts for. *)
Lemma repair_leaves_node m m' : repair_leaves m m' → node_coherent m → node_coherent m'.
Proof.
  assert (∀ m1, repointed m m1 → node_coherent m → node_coherent m1) as Hrep.
  { intros m1 [->|(i & Hi & ->)] Hm; [done|by apply repoint_coherent]. }
  intros [Hre|(m1 & i & g & Hre & Hi & Hg & -> & p & Hv & Hw)] Hm; [by eapply Hrep|].
  specialize (Hrep m1 Hre Hm). assert (m_installed m1 = Some i) as Hi1 by (by destruct Hre as [->|(? & _ & ->)]).
  destruct Hrep as [Hac|[(tx & i' & _ & _ & _ & Hi' & [_ Hng] & _)|(t & Hs)]].
  - left. eapply (start_rollback_coherent p m1 i g false); [done|done|done| |done|done].
    intros tx Hj Hp. unfold agent_coherent in Hac. rewrite Hj in Hac.
    destruct Hac as (_ & _ & i' & Hi' & Hst). unfold stage in Hst. rewrite Hp in Hst.
    destruct Hst as [[_ Hng] _]. congruence.
  - congruence.
  - by destruct (stranded_no_rewrite t m1 p i g false).
Qed.

(** ** The whole boot *)

Lemma repair_leaves_refl m : repair_leaves m m.
Proof. by left; left. Qed.

Lemma verify_committed_spec policy acq m p :
  mwp (verify_committed policy acq) m p
    (λ out m' _, is_Some out ∧ repair_leaves m m') (λ m' _, repair_leaves m m') (repair_leaves m).
Proof.
  pose proof (repair_leaves_refl m) as Hrefl. unfold verify_committed.
  apply mwp_bind, mwp_installed; [|done|done]. destruct (m_installed m) as [i|]; [|by apply mwp_ret].
  assert (mwp (repair ← repair_committed_bundle policy acq;
               mret (match repair with
                     | Some (FromAssignment _) => Some true
                     | Some RollbackJournaled => Some false
                     | None => None
                     end)) m p
    (λ out m' _, is_Some out ∧ repair_leaves m m') (λ m' _, repair_leaves m m') (repair_leaves m)) as Hrepair.
  { apply mwp_bind. eapply mwp_mono; [apply repair_committed_bundle_spec| |done|done].
    intros [[repo|]|] m' p' Ho; [| |done]; apply mwp_ret; (split; [done|]); [|apply Ho].
    destruct Ho as (i' & Hi & _ & ->). left. right. eauto. }
  apply mwp_bind, mwp_attempt. unfold bundle_verify_release. apply mwp_bind, mwp_env; [|intros f|done|done].
  { intros w. unfold next_fault. by destruct (faults (env w)). }
  destruct f; [|by apply mwp_throw|by apply mwp_throw|by apply mwp_die|by apply mwp_die].
  apply mwp_bind, mwp_env; [by intros w| |done|done].
  intros e. destruct (intact e _); [by apply mwp_ret, mwp_ret|by apply mwp_throw].
Qed.

Lemma repair_leaves_settled m m' : repair_leaves m m' → settled m → settled m'.
Proof. intros (Hi & Hj & _)%repair_leaves_record [? ?]. split; [congruence|by rewrite Hi]. Qed.

(** The planner's half, from wherever the record's bytes were repaired. *)
Lemma boot_node b m p :
  node_coherent m →
  mwp (boot health_successes b) m p
    (λ r m' _, node_coherent m' ∧ match r with
                                  | BootRunning _ _ => agent_coherent m' ∧ m_journal m' = None
                                  | BootReboot => True
                                  end)
    (λ m' _, node_coherent m') node_coherent.
Proof.
  assert (∀ r m', booted r m' → node_coherent m' ∧ match r with
    | BootRunning _ _ => agent_coherent m' ∧ m_journal m' = None | BootReboot => True end) as Hb.
  { intros r m' [Hac Hj]. split; [by left|]. by destruct r. }
  intros [Hac|[Hre|Hs]].
  - eapply mwp_mono; [by apply boot_coherent|by intros; apply Hb|by left|by left].
  - eapply mwp_mono; [by apply boot_returned|by intros; apply Hb|..]; unfold node_coherent; naive_solver.
  - eapply mwp_mono; [by apply boot_stranded|..].
    + intros r m' _ [-> ?]. split; [by right; right|done].
    + by right; right.
    + by right; right.
Qed.

(** What one boot leaves, however it ends, and when it ends running. *)
Definition after_boot (r : option boot_end) (m : machine) : Prop :=
  match r with
  | None => False
  | Some (BootRunning _ _) => node_machine_ok m ∧ settled m ∧ agent_coherent m ∧ m_journal m = None
  | Some BootReboot => node_machine_ok m
  end.

Lemma settled_boot b m p :
  node_coherent m → settled m →
  mwp (boot health_successes b) m p (λ r m' _, after_boot (Some r) m')
    (λ m' _, node_machine_ok m') node_machine_ok.
Proof.
  intros Hc Hs d e Hr Hl. pose proof (boot_node b m p Hc d e Hr Hl) as Hb.
  pose proof (historic_boot health_successes b d p e m Hr Hl) as Hh. unfold wp in *.
  destruct (boot health_successes b (World d p e)) as [[r|er|] w].
  - destruct Hb as (m1 & Hr1 & Hl1 & Hc1 & Hx), Hh as (m2 & Hr2 & _ & Hh).
    rewrite (represents_inj _ _ _ Hr2 Hr1) in Hh. pose proof (settled_history _ _ Hh Hs) as Hs1.
    exists m1. split_and!; [done|done|]. pose proof (settled_ok _ Hc1 Hs1). destruct r; [done|].
    destruct Hx. by split_and!.
  - destruct Hb as (m1 & Hr1 & Hl1 & Hc1), Hh as (m2 & Hr2 & _ & Hh).
    rewrite (represents_inj _ _ _ Hr2 Hr1) in Hh. pose proof (settled_history _ _ Hh Hs) as Hs1.
    exists m1. split_and!; [done|done|]. by apply settled_ok.
  - destruct Hb as (m1 & Hr1 & Hc1), Hh as (m2 & Hr2 & Hh).
    rewrite (represents_inj _ _ _ Hr2 Hr1) in Hh. pose proof (settled_history _ _ Hh Hs) as Hs1.
    exists m1. split; [done|]. by apply settled_ok.
Qed.

Lemma node_boot_spec policy acq m p :
  node_machine_ok m →
  mwp (node_boot policy acq health_successes) m p (λ r m' _, after_boot r m')
    (λ m' _, node_machine_ok m') node_machine_ok.
Proof.
  intros Hm. unfold node_boot. apply mwp_bind.
  eapply mwp_mono; [apply ensure_installed_spec, Hm|..]; 
    [|intros m1 p1 Ha; by apply (advances_ok _ _ _ _ _ Ha)|intros m1 Ha; by apply (advances_ok _ _ _ _ _ Ha)].
  intros out m1 p1 Hf. destruct (finished_ok _ _ _ _ _ _ Hf Hm) as [[Hc1 _] Hs1].
  destruct out as [b|]; [|done]. apply mwp_bind.
  assert (∀ m2, repair_leaves m1 m2 → node_coherent m2 ∧ settled m2) as Hleft
    by (intros m2 Hl; split; [by eapply repair_leaves_node|by eapply repair_leaves_settled]).
  assert (∀ m2, repair_leaves m1 m2 → node_machine_ok m2) as Hok
    by (intros m2 [? ?]%Hleft; by apply settled_ok).
  eapply mwp_mono; [apply verify_committed_spec|..]; [|by auto..].
  intros ? m2 p2 [[repaired ->] [Hc2 Hs2]%Hleft]. apply mwp_bind.
  eapply mwp_mono; [by apply settled_boot| |done|done]. intros r m3 p3 Hr. by apply mwp_ret.
Qed.

(** A process boots first; then it is an agent, which may repair its bytes again at every check. *)
Inductive node_run : bool * (Disk * Rejections) → bool * (Disk * Rejections) → Prop :=
| node_boots policy acq d p e pending passed w :
    node_boot policy acq health_successes (World d p e) = (Done (Some (BootRunning pending passed)), w) →
    node_run (false, (d, p)) (true, (disk w, proc w))
| node_boot_ends policy acq d p e out w p' e' w' :
    node_boot policy acq health_successes (World d p e) = (out, w) →
    load (World (disk w) p' e') = (Done tt, w') →
    node_run (false, (d, p)) (false, (disk w', proc w'))
| node_calls c d p e w :
    call_allowed true c = true → exec_call health_successes c (World d p e) = (Done true, w) →
    node_run (true, (d, p)) (true, (disk w, proc w))
| node_call_ends c d p e out w p' e' w' :
    call_allowed true c = true → exec_call health_successes c (World d p e) = (out, w) →
    load (World (disk w) p' e') = (Done tt, w') →
    node_run (true, (d, p)) (false, (disk w', proc w'))
| node_repairs policy acq d p e repo w :
    repair_committed_bundle policy acq (World d p e) = (Done (Some (FromAssignment repo)), w) →
    node_run (true, (d, p)) (true, (disk w, proc w))
| node_repair_ends policy acq d p e out w p' e' w' :
    repair_committed_bundle policy acq (World d p e) = (out, w) →
    load (World (disk w) p' e') = (Done tt, w') →
    node_run (true, (d, p)) (false, (disk w', proc w'))
| node_restarts run d p p' e' w' :
    load (World d p' e') = (Done tt, w') → node_run (run, (d, p)) (false, (disk w', proc w')).

Definition node_ok (x : bool * (Disk * Rejections)) : Prop :=
  ∃ m, represents x.2.1 m ∧ ledger_inv x.2.1 x.2.2 ∧ node_machine_ok m
    ∧ (x.1 = true → settled m ∧ agent_coherent m ∧ steady m).

(** A running agent's call, as a program. *)
Lemma running_call c m p :
  settled m → agent_coherent m → steady m → call_allowed true c = true →
  mwp (exec_call health_successes c) m p
    (λ k m' _, node_machine_ok m' ∧ (k = true → settled m' ∧ agent_coherent m' ∧ steady m'))
    (λ m' _, node_machine_ok m') node_machine_ok.
Proof.
  intros Hs Hac Hst Hc d e Hr Hl.
  pose proof (exec_call_coherent health_successes true c m p Hac (λ _, Hst) Hc d e Hr Hl) as Hb.
  pose proof (historic_call health_successes c d p e m Hr Hl) as Hh. unfold wp in *.
  assert (∀ m1, agent_coherent m1 → history m m1 → settled m1 ∧ node_machine_ok m1) as Hok.
  { intros m1 Hac1 Hh1. pose proof (settled_history _ _ Hh1 Hs) as Hs1. split; [done|].
    apply settled_ok; [by left|done]. }
  destruct (exec_call health_successes c (World d p e)) as [[k|er|] w].
  - destruct Hb as (m1 & Hr1 & Hl1 & Hc1 & Hx), Hh as (m2 & Hr2 & _ & Hh).
    rewrite (represents_inj _ _ _ Hr2 Hr1) in Hh. destruct (Hok m1 Hc1 Hh). exists m1. by split_and!; auto.
  - destruct Hb as (m1 & Hr1 & Hl1 & Hc1), Hh as (m2 & Hr2 & _ & Hh).
    rewrite (represents_inj _ _ _ Hr2 Hr1) in Hh. destruct (Hok m1 Hc1 Hh). by exists m1.
  - destruct Hb as (m1 & Hr1 & Hc1), Hh as (m2 & Hr2 & Hh).
    rewrite (represents_inj _ _ _ Hr2 Hr1) in Hh. destruct (Hok m1 Hc1 Hh). by exists m1.
Qed.

Lemma running_repair policy acq m p :
  settled m → agent_coherent m → steady m →
  mwp (repair_committed_bundle policy acq) m p
    (λ r m' _, node_machine_ok m'
       ∧ match r with Some (FromAssignment _) => settled m' ∧ agent_coherent m' ∧ steady m' | _ => True end)
    (λ m' _, node_machine_ok m') node_machine_ok.
Proof.
  intros Hs Hac Hst.
  assert (∀ m', repair_leaves m m' → node_machine_ok m') as Hok.
  { intros m' Hl. apply settled_ok; [eapply repair_leaves_node; [done|by left]|by eapply repair_leaves_settled]. }
  eapply mwp_mono; [apply repair_committed_bundle_spec|..]; [|by auto..].
  intros [[repo|]|] m' p' Ho; [| |done].
  - change (repaired policy acq p m (Some (FromAssignment repo)) m') in Ho.
    destruct Ho as (i & Hi & _ & ->). assert (repointed m (set_active (Some (st_release i)) m)) as Hre by (right; eauto).
    destruct (repointed_coherent m _ Hre Hac Hst). split; [apply Hok; by left|done].
  - split; [|done]. destruct Ho as [? _]. by apply Hok.
Qed.

(** A run that returned, and a run however it ended. *)
Lemma mwp_returned {A} (f : M A) d p e m a w (Q : A → machine → Rejections → Prop) E C :
  represents d m → ledger_inv d p → mwp f m p Q E C → f (World d p e) = (Done a, w) →
  ∃ m', represents (disk w) m' ∧ ledger_inv (disk w) (proc w) ∧ Q a m' (proc w).
Proof. intros Hr Hl Hf Heq. specialize (Hf d e Hr Hl). unfold wp in Hf. by rewrite Heq in Hf. Qed.

Lemma mwp_ended {A} (f : M A) d p e m out w (P : machine → Prop) (Q : A → machine → Rejections → Prop) :
  represents d m → ledger_inv d p → mwp f m p Q (λ m' _, P m') P → (∀ a m' p', Q a m' p' → P m') →
  f (World d p e) = (out, w) → ∃ m', represents (disk w) m' ∧ P m'.
Proof.
  intros Hr Hl Hf HQ Heq. specialize (Hf d e Hr Hl). unfold wp in Hf. rewrite Heq in Hf. destruct out; naive_solver.
Qed.

Lemma node_run_ok x y : node_run x y → node_ok x → node_ok y.
Proof.
  intros Hrun (m & Hr & Hl & Hm & Hx).
  assert (∀ d' p', ledger_inv d' p' → (∃ m', represents d' m' ∧ node_machine_ok m') → node_ok (false, (d', p')))
    as Hdown by (intros d' p' Hl' (m' & ? & ?); exists m'; by split_and!).
  destruct Hrun as [policy acq d p e pending passed w Hex|policy acq d p e out w p' e' w' Hex Hld
    |c d p e w Hc Hex|c d p e out w p' e' w' Hc Hex Hld
    |policy acq d p e repo w Hex|policy acq d p e out w p' e' w' Hex Hld|run d p p' e' w' Hld]; simpl in *;
    try (apply load_inv in Hld as (-> & Hl' & _); apply Hdown; [done|]);
    try (destruct Hx as (Hs & Hac & Hst); [done|]).
  - eapply mwp_returned in Hex as (m' & Hr' & Hl' & Ha); [|done|done|by apply node_boot_spec]. exists m'.
    destruct Ha as (? & ? & ? & Hj). split_and!; [done..|]. intros _. split_and!; [done|done|].
    unfold steady. by rewrite Hj.
  - eapply (mwp_ended _ d p e m out w node_machine_ok); [done|done|by apply node_boot_spec| |done].
    intros [[]|] m' _ Ha; [done|apply Ha|done].
  - eapply mwp_returned in Hex as (m' & ? & ? & Ha); [|done|done|by apply running_call]. exists m'.
    destruct Ha. by split_and!; auto.
  - eapply (mwp_ended _ d p e m out w node_machine_ok); [done|done|by apply running_call|by intros ? ? ? [? _]|done].
  - eapply mwp_returned in Hex as (m' & ? & ? & Ha); [|done|done|by apply running_repair]. exists m'.
    by destruct Ha.
  - eapply (mwp_ended _ d p e m out w node_machine_ok); [done|done|by apply running_repair|by intros ? ? ? [? _]|done].
  - by exists m.
Qed.

(** C1. Crash safety from the empty install root on: through every sequence of boots, each the whole of
    it (a first install or its resumption against any repository, the check of the committed bytes
    and their repair, recovery, the health gate), of updates, confirmations and in-loop repairs,
    under every fault, crash and restart, the files decode; the pointer, the record and the journal
    stand as the agent's own steps leave them, or with the pointer where a repair of the record's
    bytes put it under an unfinished update or rollback; an install journal always describes the
    one unit being placed, with no update beside it; the bootstrap enrollment is never spent on
    nothing; and a running process has a committed record, no install journal and no unfinished
    transaction, the pointer on that record. *)
Theorem node_is_crash_safe x y : rtc node_run x y → node_ok x → node_ok y.
Proof. induction 1; eauto using node_run_ok. Qed.

(** ** The one state no boot leaves *)

Lemma repair_leaves_stranded m m' : repair_leaves m m' → stranded m → stranded m'.
Proof.
  assert (∀ m1, repointed m m1 → stranded m → stranded m1) as Hrep.
  { intros m1 [->|(i & Hi & ->)] [t Hs]; [by exists t|]. destruct (sb_record _ _ Hs) as (i' & Hi' & Hm & _).
    assert (i' = i) as -> by congruence. apply matches_candidate_runs in Hm as (Hrl & _).
    destruct (sb_pointer _ _ Hs) as [Ha _]. exists t. unfold at_candidate in Ha. rewrite <-Hrl in Ha.
    rewrite <-Ha. by destruct m. }
  intros [Hre|(m1 & i & g & Hre & Hi & Hg & -> & p & Hv & Hw)] Hm; [by eapply Hrep|].
  destruct (Hrep m1 Hre Hm) as [t Hs].
  assert (m_installed m1 = Some i) as Hi1 by (by destruct Hre as [->|(? & _ & ->)]).
  by destruct (stranded_no_rewrite t m1 p i g false).
Qed.

Lemma node_boot_stranded policy acq m p :
  stranded m →
  mwp (node_boot policy acq health_successes) m p
    (λ r m' _, r = Some BootReboot ∧ stranded m') (λ m' _, stranded m') stranded.
Proof.
  intros Hm. pose proof Hm as [t Hs]. destruct (sb_record _ _ Hs) as (i & Hi & _). pose proof (sb_install _ _ Hs) as Hj.
  assert (install_ok m) as Hok by (intros tx; congruence). unfold node_boot. apply mwp_bind.
  assert (∀ m1, advances policy acq p m m1 → stranded m1) as Hadv.
  { intros m1 Ha. unfold advances in Ha. rewrite Hj, Hi in Ha. simpl in Ha. by subst. }
  eapply mwp_mono; [by apply ensure_installed_spec| |intros; by apply Hadv|done].
  intros [[]|] m1 p1 Hf; [| |done]; simpl in Hf.
  { rewrite Hj in Hf. destruct Hf as (? & _). congruence. }
  destruct Hf as (-> & _). apply mwp_bind.
  eapply mwp_mono; [apply verify_committed_spec|..]; [|intros m2 p2 Hl|intros m2 Hl];
    try by apply (repair_leaves_stranded _ _ Hl).
  intros ? m2 p2 [[b ->] Hl]. apply mwp_bind.
  eapply mwp_mono; [apply boot_stranded; by eapply repair_leaves_stranded|..]; [|done|done].
  intros r m3 p3 [-> ?]. by apply mwp_ret.
Qed.

(** Once a rollback is stranded the node never runs again, however often it is restarted and
    whatever its repositories, hooks and probes answer. *)
Lemma stranded_node_never_runs d p m y :
  represents d m → ledger_inv d p → stranded m → rtc node_run (false, (d, p)) y → y.1 = false.
Proof.
  intros Hr Hl Hs Hrun. set (x := (false, (d, p))) in Hrun.
  assert (x.1 = false ∧ ∃ m, represents x.2.1 m ∧ ledger_inv x.2.1 x.2.2 ∧ stranded m) as Hx by eauto.
  clearbody x. clear d p m Hr Hl Hs. induction Hrun as [x|x y z Hxy _ IH]; [by destruct Hx|]. apply IH. clear IH z.
  destruct Hx as (Hx & m & Hr & Hl & Hs).
  destruct Hxy as [policy acq d p e pending passed w Hex|policy acq d p e out w p' e' w' Hex Hld|?|?|?|?
    |run d p p' e' w' Hld]; simpl in *; try done.
  - eapply mwp_returned in Hex as (m' & _ & _ & Ha); [|done|done|by apply node_boot_stranded]. by destruct Ha.
  - apply load_inv in Hld as (-> & Hl' & _). split; [done|].
    destruct (mwp_ended _ d p e m out w stranded _ Hr Hl (node_boot_stranded policy acq m p Hs)
      (λ _ _ _ H, proj2 H) Hex) as (m' & ? & ?). by exists m'.
  - apply load_inv in Hld as (-> & Hl' & _). split; [done|]. by exists m.
Qed.

End node.

(** ** Recovery completes *)

Section recovery.
Context `{Sha256} `{Semver} `{Codec} `{!ReleaseFits} `{!JsonValues} `{SemverOrder} `{!CodecTotal}.
Context (health_successes : N) (policy : DefaultPolicy) (acq : Acquisition).

(** The record a boot refuses: an unproven install the node has since rejected, no update journal
    beside it. *)
Definition refused (p : Rejections) (m : machine) (i : InstalledState) : bool :=
  negb (is_proven i) && bool_decide (m_journal m = None)
  && rejects_deployment p (st_repository_lineage i) (st_archive_sha256 i).

Lemma runs_get_proc m p (Q : Rejections → machine → Rejections → Prop) : Q p m p → runs get_proc m p Q.
Proof. intros HQ d e Hr Hl Hc. by exists p, d, p, m. Qed.

Lemma runs_present_install m p i :
  m_install m = None → m_installed m = Some i → m_enrolled m = true → refused p m i = false →
  runs (ensure_installed policy acq) m p (λ out m' p', out = Some false ∧ m' = m ∧ p' = p).
Proof.
  intros Hj Hi He Hnr. unfold ensure_installed. apply runs_bind, runs_install_journal. rewrite Hj.
  apply runs_bind, runs_installed. rewrite Hi. apply runs_bind, runs_history. rewrite He.
  apply runs_bind. unfold refused in Hnr. destruct (is_proven i); cbn [negb]; [by apply runs_ret, runs_ret|].
  apply runs_bind, runs_journal, runs_bind, runs_get_proc, runs_ret. simpl in Hnr. rewrite Hnr. by apply runs_ret.
Qed.

Lemma runs_verify_committed m p i :
  m_installed m = Some i →
  runs (verify_committed policy acq) m p (λ out m' p', out = Some false ∧ m' = m ∧ p' = p).
Proof.
  intros Hi. unfold verify_committed. apply runs_bind, runs_installed. rewrite Hi. apply runs_bind, runs_attempt.
  intros d e Hr Hl Hc. exists tt, d, p, m. split_and!; [|done|done|by apply runs_ret].
  unfold bundle_verify_release, next_fault, get_env, mbind, M_bind. simpl.
  destruct Hc as (Hf & _ & _ & _ & Hin). rewrite Hf. simpl. by rewrite Hin.
Qed.

(** The refusal: nothing is touched. *)
Lemma calm_then {A B} (f : M A) (k : A → M B) d p e a :
  f (World d p e) = (Done a, World d p e) → (f ≫= k) (World d p e) = k a (World d p e).
Proof. intros Hf. unfold mbind, M_bind. by rewrite Hf. Qed.

Lemma calm_evals {A} (f : M A) d p e v :
  evals f d p (Ok v) → calm e → f (World d p e) = (Done v, World d p e).
Proof.
  intros Hf Hc. destruct (Hf e) as [(e' & He & ->)|[Hn _]]; [|by destruct Hn; apply Hc]. by rewrite He by apply Hc.
Qed.

Lemma refused_boot d p e m i :
  represents d m → calm e → m_install m = None → m_installed m = Some i → m_enrolled m = true →
  refused p m i = true →
  ∃ er, node_boot policy acq health_successes (World d p e) = (Failed er, World d p e).
Proof.
  intros Hr Hc Hj Hi He Hrf. unfold refused in Hrf.
  apply andb_true_iff in Hrf as [[Hnp%negb_true_iff Hnj]%andb_true_iff Hrej].
  assert (∃ er, ensure_installed policy acq (World d p e) = (Failed er, World d p e)) as [er Hens].
  { unfold ensure_installed.
    rewrite (calm_then _ _ d p e None) by (apply calm_evals; [rewrite <-Hj; by apply install_journal_rep|done]).
    rewrite (calm_then _ _ d p e (Present i))
      by (apply calm_evals; [|done]; pose proof (installed_rep d p m Hr) as Hx; by rewrite Hi in Hx).
    rewrite (calm_then _ _ d p e HistoryPresent) by (rewrite (calm_history d p e m) by done; by rewrite He).
    rewrite Hnp. cbn [negb].
    rewrite (calm_then _ _ d p e true); [by eexists|].
    rewrite (calm_then _ _ d p e (m_journal m)) by (apply calm_evals; [by apply journal_rep|done]).
    rewrite (calm_then _ _ d p e p) by done. by rewrite Hnj, Hrej. }
  exists er. unfold node_boot, mbind, M_bind. by rewrite Hens.
Qed.

(** C3. Recovery completes.  Take any state of a node with a committed record, whatever crash produced
    it, in which pointer, record and journal agree as the agent's steps leave them, or the pointer
    is back on the predecessor an unfinished update had not left; let the enrollment be spent, no
    install journal be left, a committed journal, if any, still have its rollback guard, and the
    rejection ledger have room.  One undisturbed boot, the whole of it, then returns a running
    agent: the journal is gone, the pointer and the record name the same proven release, and it is
    the one installed before or the predecessor of the interrupted transaction.  The one record
    such a boot refuses is an unproven install whose package the node has rejected, with no update
    journal beside it; it is left untouched. *)
Theorem boot_recovery_completes d p e m i :
  represents d m → ledger_inv d p → calm e →
  agent_coherent m ∨ returned m → m_install m = None → m_installed m = Some i →
  InstalledState_validate i = Ok tt → m_enrolled m = true →
  (∀ tx, m_journal m = Some tx → tx_phase tx = Committed → forward_commit_is_durable tx i = true) →
  (N.of_nat (length (hashes p)) < MAX_REJECTION_KEYS)%N →
  if refused p m i
  then ∃ er, node_boot policy acq health_successes (World d p e) = (Failed er, World d p e)
  else ∃ d' p' m' j,
    node_boot policy acq health_successes (World d p e)
    = (Done (Some (BootRunning (st_rollback_guard j) true)), World d' p' e)
    ∧ represents d' m' ∧ settled_on m' j
    ∧ (same_unit i j ∨ ∃ tx, m_journal m = Some tx ∧ runs_previous tx j).
Proof.
  intros Hr Hl Hc Hm Hj Hi Hv He Hnw Hlen. destruct (refused p m i) eqn:Hrf; [by eapply refused_boot|].
  assert (runs (node_boot policy acq health_successes) m p (λ out m' _, ∃ r, out = Some r ∧ recovered m i r m')) as Hruns.
  { unfold node_boot. apply runs_bind. eapply runs_mono; [by apply (runs_present_install m p i)|].
    intros ? ? ? (-> & -> & ->). apply runs_bind. eapply runs_mono; [by apply (runs_verify_committed m p i)|].
    intros ? ? ? (-> & -> & ->). apply runs_bind. eapply runs_mono; [by apply (boot_recovers _ _ m i)|].
    intros r m' p' Hrec. apply runs_ret. eauto. }
  destruct (Hruns d e Hr Hl Hc) as (out & d' & p' & m' & Heq & Hr' & _ & r & -> & j & -> & Hs & Hu).
  by exists d', p', m', j.
Qed.

End recovery.
