(* ===== verification/Preflight.v ===== *)
(** * Preflight: no generation moves a node it cannot bring there

    Models [updatec/src/preflight.rs]: the check that runs between a pass's plan and its
    publication.  [routes] walks every node the plan may move, asks the deployment meant for it for
    a route from what the node reports to run and from every release an earlier assignment may
    still bring it to, and asks, where a set answers regressions by rolling back, for the way
    back; [packages] then demands every package of those routes of the release repositories.
    What the repositories and the admission policy answer is the parameter [Outside].  The theorems
    say what [check_node] accepts and refuses, in terms of the graph's own routes.  A [None] result
    is a panic. *)
From S2P Require Import Prelude Identity Maps Releases Routes Dataflow Telemetry Window Rollout Assign.
From S2P Require Import Retention Regression Admission Plan Bodies Assignment Groups GroupGraph.
From S2P Require Import GroupRouting Publication Inputs Reconcile Selection.

Section preflight.
Context `{!ReportParts} `{!Semver} `{!Signed} `{!Chrono}.
Context `{!JsonValues} `{!Sha256} `{!SemverOrder} `{!Urls} `{!AssignmentJson}.

Record PreparedRollout : Type := mkPreparedRollout {
  pr_deployment : RepositoryAssignment;
  pr_versions : BTreeSet;
  pr_sources : BTreeSet;
}.

Abbreviation Pending := (BTreeMap PreparedRollout).

(** ** One node *)

Section node.
Context (observed : ObservedState) (verified : VerifiedReports) (published : gmap string RepositoryAssignment).

Definition fresh_report (node : string) : option NodeReport :=
  envelope ← ob_reports observed !! node;
  key ← ob_public_keys observed !! node;
  verified_fresh verified node envelope key (timestamp_millis (ob_now observed) (ob_millis observed)).

(** The version a report states, unless it states none. *)
Definition stated_version (report : NodeReport) : option string :=
  if bool_decide (nr_version report = EmptyString) then None else Some (nr_version report).

(** The releases of the routes from what the node runs. *)
Definition own_versions (graph : ReleaseGraph) (node : string) (report : option NodeReport)
    : option (PreflightMessage + BTreeSet) :=
  match report with
  | Some r =>
      match stated_version r with
      | Some version =>
          match check_source graph version (nr_archive_sha256 r) with
          | inl e => Some (inl (MRoute e))
          | inr _ => map_err MRoute <$> route_versions graph (Some version)
          end
      | None => map_err MRoute <$> route_versions graph None
      end
  | None =>
      if contains_key node (ob_assignments observed) then Some (inl (MUnverifiedSource (rg_target graph)))
      else map_err MRoute <$> route_versions graph None
  end.

(** The assignments the node may still be executing. *)
Definition active_assignments (node : string) (report : option NodeReport) : BTreeSet :=
  list_to_set (option_list (ob_assignments observed !! node)
    ++ (if contains_key node (ob_assignments observed)
        then option_list (nr_assignment_sha256 <$> report) else [])).

Fixpoint check_landings (graph prior : ReleaseGraph) (landings : list string) (sources versions : BTreeSet)
    : option (PreflightMessage + BTreeSet * BTreeSet) :=
  match landings with
  | [] => Some (inr (sources, versions))
  | landing :: landings =>
      release ← rg_releases prior !! landing;
      match check_source graph landing (tr_sha256 (rl_package release)) with
      | inl e => Some (inl (MInFlight landing e))
      | inr _ =>
          route ← route_versions graph (Some landing);
          match route with
          | inl e => Some (inl (MInFlight landing e))
          | inr route => check_landings graph prior landings ({[ landing ]} ∪ sources) (versions ∪ route)
          end
      end
  end.

(** A prior graph that does not know the installed bytes cannot advance the node. *)
Definition cannot_advance (prior : ReleaseGraph) (report : option NodeReport) : bool :=
  match report with
  | Some r =>
      match stated_version r with
      | Some version => negb (succeeds (check_source prior version (nr_archive_sha256 r)))
      | None => false
      end
  | None => false
  end.

Fixpoint check_active (graph : ReleaseGraph) (report : option NodeReport) (active : list string)
    (sources versions : BTreeSet) : option (PreflightMessage + BTreeSet * BTreeSet) :=
  match active with
  | [] => Some (inr (sources, versions))
  | identity :: active =>
      match published !! identity with
      | None => Some (inl MMissingBody)
      | Some prior =>
          if cannot_advance (ra_application prior) report
          then check_active graph report active sources versions
          else
            remaining ← route_versions (ra_application prior) (report ≫= stated_version);
            checked ← check_landings graph (ra_application prior)
                        (bt_elements (match remaining with inr v => v | inl _ => ∅ end)) sources versions;
            match checked with
            | inl e => Some (inl e)
            | inr (sources, versions) => check_active graph report active sources versions
            end
      end
  end.

Definition extend_pending (identity : string) (deployment : RepositoryAssignment)
    (sources versions : BTreeSet) (pending : Pending) : Pending :=
  let entry := default (mkPreparedRollout deployment ∅ ∅) (pending !! identity) in
  <[identity := mkPreparedRollout (pr_deployment entry) (pr_versions entry ∪ versions)
                  (pr_sources entry ∪ sources)]> pending.

Definition check_node (node : string) (deployment : RepositoryAssignment) (pending : Pending)
    : option (PlanError + Pending) :=
  match assignment_identity deployment with
  | None => Some (inl (InvalidDeployment (EMessage "cannot encode release graph")))
  | Some identity =>
      if bool_decide (ob_assignments observed !! node = Some identity) then Some (inr pending)
      else
        let report := fresh_report node in
        let graph := ra_application deployment in
        own ← own_versions graph node report;
        match own with
        | inl message => Some (inl (ReleasePreflight node message))
        | inr versions =>
            checked ← check_active graph report (bt_elements (active_assignments node report))
                        (list_to_set (option_list (report ≫= stated_version))) versions;
            match checked with
            | inl message => Some (inl (ReleasePreflight node message))
            | inr (sources, versions) => Some (inr (extend_pending identity deployment sources versions pending))
            end
        end
  end.

End node.

(** ** Every cohort *)

Section routes.
Context (desired : DesiredState) (observed : ObservedState) (plan : ReconcilePlan) (verified : VerifiedReports).

Definition published_bodies : gmap string RepositoryAssignment :=
  bodies_by_identity (bt_values (ob_admitted observed) ++ bt_values (de_held desired)).

(** What the plan means a node of [group] to run: the group's deployment, or where it was refused
    for good, what the group was put back on. *)
Definition intended (fallback : RepositoryAssignment) (group : string) : RepositoryAssignment :=
  let deployment := default fallback (rc_desired_deployments plan !! group) in
  if option_some_and (λ identity, contains_key identity (rc_vetoed plan)) (assignment_identity deployment)
  then match rc_admitted plan !! group with
       | Some state => ad_current state
       | None => deployment
       end
  else deployment.

(** The cohorts; [node_groups[&node.name]] panics on a node the routing lost. *)
Fixpoint check_cohorts (fallback : RepositoryAssignment) (node_groups : BTreeMap string)
    (nodes : list ResolvedNode) (pending : Pending) : option (PlanError + Pending) :=
  match nodes with
  | [] => Some (inr pending)
  | node :: nodes =>
      group ← node_groups !! rn_name node;
      if bool_decide (rn_name node ∈ de_holds desired)
         || bool_decide (is_Some (quarantined_group desired node group))
      then check_cohorts fallback node_groups nodes pending
      else
        checked ← check_node observed verified published_bodies (rn_name node) (intended fallback group) pending;
        match checked with
        | inl e => Some (inl e)
        | inr pending => check_cohorts fallback node_groups nodes pending
        end
  end.

Fixpoint return_versions (group : string) (restored : RepositoryAssignment) (sources : list string)
    (versions : BTreeSet) : option (PlanError + BTreeSet) :=
  match sources with
  | [] => Some (inr versions)
  | source :: sources =>
      route ← route_versions (ra_application restored) (Some source);
      match route with
      | inl e => Some (inl (ReleasePreflight (String.append "group " group) (MRollback e)))
      | inr route => return_versions group restored sources (versions ∪ route)
      end
  end.

(** What a group ran before [deployment], newest first. *)
Definition past (state : AdmittedDeployment) (deployment : RepositoryAssignment) : list RepositoryAssignment :=
  (if bool_decide (ad_current state = deployment) then [] else [ad_current state]) ++ ad_previous state.

(** One group a set rolls back: the way back from every release the move may leave installed. *)
Definition check_return (group : string) (pending : Pending) : option (PlanError + Pending) :=
  deployment ← rc_desired_deployments plan !! group;
  identity ← assignment_identity deployment;
  if contains_key identity (rc_vetoed plan) then Some (inr pending)
  else match pending !! identity, ob_admitted observed !! group with
       | Some forward, Some state =>
           if bool_decide (past state deployment = []) then Some (inr pending)
           else
             match rollback_target deployment (past state deployment) (rc_blocked plan) with
             | None => Some (inl (ReleasePreflight (String.append "group " group) MNoBaseline))
             | Some (_, restored) =>
                 restored_identity ← assignment_identity restored;
                 checked ← return_versions group restored (bt_elements (pr_sources forward ∪ pr_versions forward)) ∅;
                 match checked with
                 | inl e => Some (inl e)
                 | inr versions => Some (inr (extend_pending restored_identity restored ∅ versions pending))
                 end
             end
       | _, _ => Some (inr pending)
       end.

Fixpoint check_returns (groups : list string) (pending : Pending) : option (PlanError + Pending) :=
  match groups with
  | [] => Some (inr pending)
  | group :: groups =>
      checked ← check_return group pending;
      match checked with
      | inl e => Some (inl e)
      | inr pending => check_returns groups pending
      end
  end.

(** The configuration published under an identity; of several the last listed. *)
Definition published_target (identity : string) : option PublicationTarget :=
  (list_to_map (reverse ((λ t, (pt_sha256 t, t)) <$> pp_targets (rc_publication plan))) : gmap string _) !! identity.

Fixpoint check_publication (assignments : list (string * string)) (pending : Pending)
    : option (PlanError + Pending) :=
  match assignments with
  | [] => Some (inr pending)
  | (node, identity) :: assignments =>
      if bool_decide (ob_assignments observed !! node = Some identity) then check_publication assignments pending
      else
        match published_target identity with
        | None => Some (inl (InvalidDeployment (EMessage "publication has no matching configuration")))
        | Some target =>
            match RepositoryAssignment_from_bounded_json (pt_bytes target) with
            | inl e => Some (inl (InvalidDeployment e))
            | inr deployment =>
                checked ← check_node observed verified published_bodies node deployment pending;
                match checked with
                | inl e => Some (inl e)
                | inr pending => check_publication assignments pending
                end
            end
        end
  end.

Definition governed_groups : list string :=
  bt_elements (rollback_groups (rc_desired_deployments plan) (de_group_labels desired) (de_sets desired)).

End routes.

(** [routes]: the rollouts to prepare, and the verification cache as it leaves it. *)
Definition routes (desired : DesiredState) (observed : ObservedState) (plan : ReconcilePlan)
    (verified : VerifiedReports) : option ((PlanError + list PreparedRollout) * VerifiedReports) :=
  match resolve_node_groups (bt_values (de_groups desired)) (de_nodes desired) with
  | inl e => Some (inl e, verified)
  | inr node_groups =>
      let verified := verify_fleet (ob_reports observed) (ob_public_keys observed) verified in
      match deployment_try_from (rs_default_deployment (de_repository desired)) with
      | inl e => Some (inl (InvalidDeployment e), verified)
      | inr fallback =>
          checked ← check_cohorts desired observed plan verified fallback node_groups (de_nodes desired) ∅;
          match checked with
          | inl e => Some (inl e, verified)
          | inr pending =>
              checked ← check_returns observed plan (governed_groups desired plan) pending;
              match checked with
              | inl e => Some (inl e, verified)
              | inr pending =>
                  checked ← check_publication desired observed plan verified
                              (bt_iter (pp_node_assignments (rc_publication plan))) pending;
                  Some (match checked with inl e => inl e | inr pending => inr (bt_values pending) end, verified)
              end
          end
      end
  end.

(** ** The packages of those routes *)

Inductive PackageError : Type :=
| PkTimeout
| PkEncoding
| PkRepository (e : Error)
| PkRelease (e : ReleaseError)
| PkRefused (why : Refusal)
| PkMetadata
| PkBlocked (deployment version : string).

(** The release repositories, the admission policy's standing decisions on packages, and whether the
    whole visit stayed within its budget. *)
Record Outside : Type := mkOutside {
  os_in_time : bool;
  os_load : RepositoryAssignment → Error + TrustedRepository;
  os_allowed : string → option bool;
  os_available : gmap (string * string * string) VerifiedTarget → Error + unit;
}.

Section packages.
Context `{!Serde (string * string * JsonValue * ManagedRepositoryLimits)}.
Context (outside : Outside).

Abbreviation Targets := (gmap (string * string * string) VerifiedTarget).

Definition repository_key (deployment : RepositoryAssignment) : PackageError + string :=
  bytes ← ok_or (to_vec (ra_metadata_url deployment, ra_targets_url deployment,
    ra_release_root deployment, mr_repository (ra_runtime deployment))) PkEncoding;
  inr (sha256_bytes bytes).

Definition custom_text (target : VerifiedTarget) (name : string) : PackageError + string :=
  match vt_custom target !! name with Some (CText text) => inr text | _ => inl PkMetadata end.

(** [graph.releases[version]] panics on a version the graph does not declare. *)
Fixpoint check_packages (repository : TrustedRepository) (policy : DefaultPolicy) (key : string)
    (deployment : RepositoryAssignment) (versions : list string) (targets : Targets)
    : option (PackageError + Targets) :=
  match versions with
  | [] => Some (inr targets)
  | version :: versions =>
      release ← rg_releases (ra_application deployment) !! version;
      if bool_decide (os_allowed outside (tr_sha256 (rl_package release)) = Some false)
      then Some (inl (PkBlocked (ra_deployment deployment) version))
      else match verify_release repository policy version (rl_package release) with
           | inl why => Some (inl (PkRefused why))
           | inr selected =>
               let at_key := (key, vt_path (sr_target selected), sr_sha256 selected) in
               check_packages repository policy key deployment versions
                 (if bool_decide (is_Some (targets !! at_key)) then targets
                  else <[at_key := sr_target selected]> targets)
           end
  end.

(** The repository of a deployment: visited once per key. *)
Definition repository_of (key : string) (deployment : RepositoryAssignment)
    (repositories : BTreeMap TrustedRepository) : PackageError + BTreeMap TrustedRepository * TrustedRepository :=
  match repositories !! key with
  | Some repository => inr (repositories, repository)
  | None =>
      repository ← map_err PkRepository (os_load outside deployment);
      inr (<[key := repository]> repositories, repository)
  end.

Definition package_policy (deployment : RepositoryAssignment) (target : VerifiedTarget)
    : PackageError + DefaultPolicy :=
  os ← custom_text target "os";
  arch ← custom_text target "arch";
  inr (mkDefaultPolicy (mr_product (ra_runtime deployment)) (mr_channel (ra_runtime deployment)) os arch).

Fixpoint check_plans (plans : list PreparedRollout) (repositories : BTreeMap TrustedRepository)
    (targets : Targets) : option (PackageError + Targets) :=
  match plans with
  | [] => Some (inr targets)
  | plan :: plans =>
      let deployment := pr_deployment plan in
      let graph := ra_application deployment in
      let opened :=
        key ← repository_key deployment;
        found ← repository_of key deployment repositories;
        reference ← map_err PkRelease (target_reference graph);
        target ← map_err PkRefused (exact_target found.2 reference);
        policy ← package_policy deployment target;
        inr (key, found, policy) in
      match opened with
      | inl e => Some (inl e)
      | inr (key, (repositories, repository), policy) =>
          checked ← check_packages repository policy key deployment
                      (bt_elements (pr_versions plan ∪ {[ rg_target graph ]})) targets;
          match checked with
          | inl e => Some (inl e)
          | inr targets => check_plans plans repositories targets
          end
      end
  end.

Definition packages (plans : list PreparedRollout) : option (PackageError + unit) :=
  if negb (os_in_time outside) then Some (inl PkTimeout)
  else
    checked ← check_plans plans ∅ ∅;
    Some (targets ← checked; map_err PkRepository (os_available outside targets)).

End packages.

End preflight.

(** ** What a graph offers *)

Section graph.
Context `{!Semver} `{!SemverOrder} (g : ReleaseGraph).

(** The graph declares a way from [installed] to its target, the empty one included. *)
Definition routable (installed : option string) : Prop :=
  undeclared g installed = false
  ∧ ∃ d path, direction g installed = Some d ∧ is_route g d (allowed_versions g (λ _ _, true)) installed path.

(** A release some such way installs. *)
Definition on_the_way (installed : option string) (v : string) : Prop :=
  undeclared g installed = false ∧ installed ≠ Some (rg_target g) ∧ Some v ≠ installed
  ∧ ∃ d path, direction g installed = Some d
      ∧ is_route g d (allowed_versions g (λ _ _, true)) installed path ∧ v ∈ path.

Lemma route_versions_spec installed :
  graph_validate g = inr tt →
  ∃ r, route_versions g installed = Some r
    ∧ match r with
      | inl _ => ¬ routable installed
      | inr versions => routable installed ∧ ∀ v, v ∈ versions ↔ on_the_way installed v
      end.
Proof.
  intros Hv. destruct (undeclared g installed) eqn:Hu.
  { eexists. split; [by unfold route_versions, route; rewrite Hv, Hu|]. by intros [? _]; congruence. }
  destruct (route_versions_are_the_landings g installed Hv Hu) as (d & Hd & Hr).
  destruct (route_spec g installed (λ _ _, true) Hv Hu) as (d' & Hd' & Hroute). assert (d' = d) as -> by congruence.
  destruct (route_versions g installed) as [r|] eqn:Hrv; [|done]. exists r. split; [done|].
  assert (∀ path, is_route g d (allowed_versions g (λ _ _, true)) installed path → routable installed) as Hway
    by (intros path Hp; split; [done|]; by exists d, path).
  destruct r as [e|versions].
  - destruct Hr as [Hne Hno]. intros (_ & d1 & path & Hd1 & Hp). apply (Hno path). congruence.
  - case_bool_decide as Ht.
    + subst versions. split; [|intros v; split; [set_solver|by intros (_ & ? & _)]].
      apply (Hway []). rewrite Ht. done.
    + split.
      * unfold route_versions in Hrv. destruct (route g installed (λ _ _, true)) as [[e|path]|]; [done| |done].
        by apply (Hway path), Hroute.
      * intros v. rewrite Hr. unfold on_the_way. split; [|naive_solver].
        intros (Hne & path & Hp & Hin). split_and!; [done|done|done|]. by exists d, path.
Qed.

(** A landing of a valid graph is declared. *)
Lemma on_the_way_declared installed v :
  graph_validate g = inr tt → on_the_way installed v → is_Some (rg_releases g !! v).
Proof.
  intros Hv (_ & _ & _ & d & path & _ & Hr & Hin).
  assert (∀ p u, chain g d (allowed_versions g (λ _ _, true)) u p → v ∈ p → is_Some (rg_releases g !! v)) as Hchain.
  { induction p as [|x p IH]; intros u; [by intros _ ?%not_elem_of_nil|].
    intros [(_ & r & Hx & _) Hc] [->|?]%elem_of_cons; [by eexists|by eapply IH]. }
  destruct installed as [s|]; [destruct Hr as [Hc _]; by eapply Hchain|].
  destruct Hr as (s & p & -> & Hs & Hc & _). apply elem_of_cons in Hin as [->|Hin]; [|by eapply Hchain].
  unfold starts in Hs. apply list_elem_of_fmap in Hs as ([k r] & -> & Hs). apply list_elem_of_filter in Hs as [_ Hs].
  apply elem_of_bt_iter in Hs. by eexists.
Qed.

End graph.

(** ** What a node may be moved to *)

Lemma identity_valid `{!Semver} `{!JsonValues} `{!Sha256} `{!SemverOrder} `{!Urls} `{!AssignmentJson}
    (a : RepositoryAssignment) id : assignment_identity a = Some id → graph_validate (ra_application a) = inr tt.
Proof.
  unfold assignment_identity. rewrite fmap_Some. intros ([bytes id'] & Hp%ok_of_Some & ->).
  apply publication_inr in Hp as [(Hv & _)%to_bounded_json_inr ->]. by apply RepositoryAssignment_validate_graph.
Qed.

Section verdict.
Context `{!ReportParts} `{!Semver} `{!Signed} `{!Chrono}.
Context `{!JsonValues} `{!Sha256} `{!SemverOrder} `{!Urls} `{!AssignmentJson}.
Context (observed : ObservedState) (verified : VerifiedReports) (published : gmap string RepositoryAssignment).

Abbreviation report := (fresh_report observed verified).

(** The graph knows the release under exactly those bytes, and leads from it to the target. *)
Definition carries (g : ReleaseGraph) (version sha256 : string) : Prop :=
  check_source g version sha256 = inr tt ∧ routable g (Some version).

(** From what the node states to run; from nothing where it states nothing, or was never assigned. *)
Definition fits_source (g : ReleaseGraph) (node : string) : Prop :=
  match report node with
  | Some r =>
      match stated_version r with
      | Some version => carries g version (nr_archive_sha256 r)
      | None => routable g None
      end
  | None => ob_assignments observed !! node = None ∧ routable g None
  end.

(** Where an earlier assignment may still bring the node before it sees the new one. *)
Definition may_land (node : string) (prior : ReleaseGraph) (landing : string) : Prop :=
  cannot_advance prior (report node) = false ∧ on_the_way prior (report node ≫= stated_version) landing.

(** The new graph takes the node to its target from everything it may be running when it gets it. *)
Definition can_move (node : string) (d : RepositoryAssignment) : Prop :=
  fits_source (ra_application d) node
  ∧ ∀ id, id ∈ active_assignments observed node (report node) →
      ∃ prior, published !! id = Some prior
        ∧ ∀ landing release, may_land node (ra_application prior) landing →
            rg_releases (ra_application prior) !! landing = Some release →
            carries (ra_application d) landing (tr_sha256 (rl_package release)).

Definition declared (g : ReleaseGraph) (versions : BTreeSet) : Prop :=
  ∀ v, v ∈ versions → is_Some (rg_releases g !! v).

Lemma route_versions_declared g installed :
  graph_validate g = inr tt →
  ∃ r, route_versions g installed = Some r
    ∧ match r with inl _ => ¬ routable g installed | inr versions => routable g installed ∧ declared g versions end.
Proof.
  intros Hv. destruct (route_versions_spec g installed Hv) as (r & Hr & Hs). exists r. split; [done|].
  destruct r as [e|versions]; [done|]. destruct Hs as [Hw Hin]. split; [done|].
  intros v Hx%Hin. by eapply on_the_way_declared.
Qed.

(** The releases between what the node states to run and the target are all listed. *)
Definition lists_route (node : string) (g : ReleaseGraph) (versions : BTreeSet) : Prop :=
  ∀ v, on_the_way g (report node ≫= stated_version) v → v ∈ versions.

Lemma own_versions_spec g node :
  graph_validate g = inr tt →
  ∃ r, own_versions observed g node (report node) = Some r
    ∧ match r with
      | inl _ => ¬ fits_source g node
      | inr versions => fits_source g node ∧ declared g versions ∧ lists_route node g versions
      end.
Proof.
  intros Hv. unfold own_versions, fits_source, carries, lists_route.
  assert (∀ (P : Prop) installed, (P ↔ routable g installed) →
    ∃ r, map_err MRoute <$> route_versions g installed = Some r
      ∧ match r with
        | inl _ => ¬ P
        | inr versions => P ∧ declared g versions ∧ ∀ v, on_the_way g installed v → v ∈ versions
        end) as Hroute.
  { intros P installed HP. destruct (route_versions_declared g installed Hv) as (r & Hr & Hs).
    destruct (route_versions_spec g installed Hv) as (r' & Hr' & Hs'). rewrite Hr in Hr'. injection Hr' as <-. rewrite Hr.
    eexists. split; [done|]. destruct r as [e|vs]; simpl; rewrite HP; [done|]. destruct Hs, Hs' as [_ Hin].
    split_and!; [done|done|]. intros v. by rewrite Hin. }
  destruct (report node) as [r|].
  - cbn [mbind option_bind]. destruct (stated_version r) as [version|]; [|by apply Hroute].
    destruct (check_source g version (nr_archive_sha256 r)) as [e|[]]; [eexists; split; [done|]; by intros [? _]|].
    apply Hroute. naive_solver.
  - destruct (contains_key node (ob_assignments observed)) eqn:Hk.
    + apply contains_key_true in Hk as [id Hid]. eexists. split; [done|]. intros [? _]. congruence.
    + cbn [mbind option_bind]. apply Hroute. apply not_true_iff_false in Hk. rewrite contains_key_true in Hk.
      apply eq_None_not_Some in Hk. naive_solver.
Qed.

Lemma check_landings_spec g prior landings : ∀ sources versions,
  graph_validate g = inr tt → declared g versions → (∀ v, v ∈ landings → is_Some (rg_releases prior !! v)) →
  ∃ r, check_landings g prior landings sources versions = Some r
    ∧ match r with
      | inl _ => ∃ v release, v ∈ landings ∧ rg_releases prior !! v = Some release
                   ∧ ¬ carries g v (tr_sha256 (rl_package release))
      | inr (sources', versions') =>
          (∀ v release, v ∈ landings → rg_releases prior !! v = Some release →
             carries g v (tr_sha256 (rl_package release)))
          ∧ declared g versions' ∧ sources ⊆ sources' ∧ versions ⊆ versions'
      end.
Proof.
  induction landings as [|v landings IH]; intros sources versions Hv Hd Hall; cbn [check_landings].
  { eexists. split; [done|]. split; [|done]. by intros v ? ?%not_elem_of_nil. }
  destruct (Hall v) as [release Hrel]; [by left|]. rewrite Hrel. cbn [mbind option_bind].
  destruct (check_source g v _) as [e|[]] eqn:Hc.
  { eexists. split; [done|]. exists v, release. split_and!; [by left|done|]. intros [? _]. congruence. }
  destruct (route_versions_declared g (Some v) Hv) as (r & -> & Hs). cbn [mbind option_bind].
  destruct r as [e|route].
  { eexists. split; [done|]. exists v, release. split_and!; [by left|done|]. by intros [_ ?]. }
  destruct Hs as [Hw Hdr]. destruct (IH ({[ v ]} ∪ sources) (versions ∪ route) Hv) as (r & -> & Hr).
  { intros x [?|?]%elem_of_union; auto. }
  { intros x Hx. apply Hall. by right. }
  exists r. split; [done|]. destruct r as [e|[s' v']].
  - destruct Hr as (x & rel & Hx & ? & ?). exists x, rel. split_and!; [by right|done|done].
  - destruct Hr as (Hr & Hd' & Hsub & Hsub'). split_and!; [|done|set_solver|set_solver].
    intros x rel [->|Hx]%elem_of_cons Hl; [|by apply Hr]. rewrite Hrel in Hl. by injection Hl as <-.
Qed.

(** One active assignment is harmless. *)
Definition overtaken (node : string) (g : ReleaseGraph) (id : string) : Prop :=
  ∃ prior, published !! id = Some prior
    ∧ ∀ landing release, may_land node (ra_application prior) landing →
        rg_releases (ra_application prior) !! landing = Some release → carries g landing (tr_sha256 (rl_package release)).

Context (Hvalid : ∀ id prior, published !! id = Some prior → graph_validate (ra_application prior) = inr tt).

Lemma check_active_spec node g active : ∀ sources versions,
  graph_validate g = inr tt → declared g versions →
  ∃ r, check_active published g (report node) active sources versions = Some r
    ∧ match r with
      | inl _ => ∃ id, id ∈ active ∧ ¬ overtaken node g id
      | inr (sources', versions') =>
          (∀ id, id ∈ active → overtaken node g id)
          ∧ declared g versions' ∧ sources ⊆ sources' ∧ versions ⊆ versions'
      end.
Proof.
  induction active as [|id active IH]; intros sources versions Hv Hd; cbn [check_active].
  { eexists. split; [done|]. split; [|done]. by intros id ?%not_elem_of_nil. }
  destruct (published !! id) as [prior|] eqn:Hp.
  2:{ eexists. split; [done|]. exists id. split; [by left|]. intros (? & ? & _). congruence. }
  assert (∀ sources0 versions0, sources ⊆ sources0 → versions ⊆ versions0 → declared g versions0 → overtaken node g id →
    ∃ r, check_active published g (report node) active sources0 versions0 = Some r
    ∧ match r with
      | inl _ => ∃ i, i ∈ id :: active ∧ ¬ overtaken node g i
      | inr (sources', versions') =>
          (∀ i, i ∈ id :: active → overtaken node g i)
          ∧ declared g versions' ∧ sources ⊆ sources' ∧ versions ⊆ versions'
      end) as Hrest.
  { intros s vs Hsub Hsub2 Hds Ho. destruct (IH s vs Hv Hds) as (r & -> & Hr). exists r. split; [done|].
    destruct r as [e|[s' v']]; [destruct Hr as (i & ? & ?); exists i; split; [by right|done]|].
    destruct Hr as (Hr & ? & ? & ?). split_and!; [|done|by etrans|by etrans]. by intros i [->|?]%elem_of_cons; auto. }
  destruct (cannot_advance (ra_application prior) (report node)) eqn:Hca.
  { apply Hrest; [done..|]. exists prior. split; [done|]. intros ? ? [? _]. congruence. }
  pose proof (Hvalid id prior Hp) as Hvp.
  destruct (route_versions_spec (ra_application prior) (report node ≫= stated_version) Hvp) as (r & -> & Hr).
  cbn [mbind option_bind].
  set (remaining := match r with inr v => v | inl _ => ∅ end).
  assert (∀ v, v ∈ bt_elements remaining ↔ on_the_way (ra_application prior) (report node ≫= stated_version) v) as Hrem.
  { intros v. rewrite elem_of_bt_elements. unfold remaining. destruct r as [e|vs]; [|by apply Hr].
    split; [set_solver|]. intros (Hu & _ & _ & d & path & Hd' & Hp' & _). destruct Hr. split; [done|]. by exists d, path. }
  destruct (check_landings_spec g (ra_application prior) (bt_elements remaining) sources versions Hv Hd) as (c & -> & Hc).
  { intros v Hx%Hrem. by eapply on_the_way_declared. }
  cbn [mbind option_bind]. destruct c as [e|[s' v']].
  - eexists. split; [done|]. destruct Hc as (v & release & Hin%Hrem & Hrel & Hno). exists id. split; [by left|].
    intros (prior' & Hp' & Hall). apply Hno. rewrite Hp in Hp'. injection Hp' as <-. by apply Hall.
  - destruct Hc as (Hc & Hd' & Hsub & Hsub'). apply Hrest; [done..|]. exists prior. split; [done|].
    intros landing release [_ Hway] Hrel. apply Hc; [by apply Hrem|done].
Qed.

(** The whole check: it returns, refuses exactly the moves that cannot be made, and what it adds to
    the rollouts to prepare are releases of that deployment. *)
Lemma check_node_spec node d pending :
  ∃ r, check_node observed verified published node d pending = Some r
    ∧ match assignment_identity d with
      | None => ∃ e, r = inl (InvalidDeployment e)
      | Some id =>
          if bool_decide (ob_assignments observed !! node = Some id) then r = inr pending
          else match r with
               | inl e => (∃ m, e = ReleasePreflight node m) ∧ ¬ can_move node d
               | inr pending' => can_move node d
                   ∧ ∃ sources versions, pending' = extend_pending id d sources versions pending
                       ∧ declared (ra_application d) versions
                       ∧ (∀ v, (report node ≫= stated_version) = Some v → v ∈ sources)
                       ∧ lists_route node (ra_application d) versions
               end
      end.
Proof.
  unfold check_node. destruct (assignment_identity d) as [id|] eqn:Hid; [|eexists; split; [done|by eexists]].
  case_bool_decide as Hsame; [by eexists|].
  assert (graph_validate (ra_application d) = inr tt) as Hv by (by eapply identity_valid).
  destruct (own_versions_spec (ra_application d) node Hv) as (r & -> & Hr). cbn [mbind option_bind].
  destruct r as [m|versions].
  { eexists. split; [done|]. split; [by eexists|]. by intros [? _]. }
  destruct Hr as (Hfit & Hd & Hlist).
  destruct (check_active_spec node (ra_application d) (bt_elements (active_assignments observed node (report node)))
    (list_to_set (option_list (report node ≫= stated_version))) versions Hv Hd) as (c & -> & Hc). cbn [mbind option_bind].
  destruct c as [m|[s' v']]; (eexists; split; [done|]).
  - split; [by eexists|]. destruct Hc as (i & Hin & Hno). intros [_ Hall]. apply Hno, Hall. by apply elem_of_bt_elements.
  - destruct Hc as (Hall & Hd' & Hsub & Hsub'). split; [split; [done|]|exists s', v'; split_and!; [done|done| |]].
    + intros i Hi. apply Hall. by apply elem_of_bt_elements.
    + intros v Hst. apply Hsub. rewrite Hst. set_solver.
    + intros v Hv'. by apply Hsub', Hlist.
Qed.

End verdict.

(** ** The whole generation *)

Section generation.
Context `{!ReportParts} `{!Semver} `{!Signed} `{!Chrono}.
Context `{!JsonValues} `{!Sha256} `{!SemverOrder} `{!Urls} `{!AssignmentJson}.
Context (desired : DesiredState) (observed : ObservedState) (plan : ReconcilePlan) (verified : VerifiedReports).

Abbreviation published := (published_bodies desired observed).
Abbreviation movable := (can_move observed verified published).

Lemma published_valid id prior :
  published !! id = Some prior → graph_validate (ra_application prior) = inr tt.
Proof. intros Hb. eapply identity_valid. exact (bodies_by_identity_sound _ id prior Hb). Qed.

(** The node keeps what it has, or gets something it can be brought to. *)
Definition cleared (node : string) (d : RepositoryAssignment) : Prop :=
  ∃ id, assignment_identity d = Some id ∧ (ob_assignments observed !! node = Some id ∨ movable node d).

Definition refused_move (e : PlanError) (node : string) (d : RepositoryAssignment) : Prop :=
  match assignment_identity d with
  | None => ∃ x, e = InvalidDeployment x
  | Some id => ob_assignments observed !! node ≠ Some id ∧ (∃ m, e = ReleasePreflight node m) ∧ ¬ movable node d
  end.

(** The rollouts collected: each under its identity, with releases documents of it declare. *)
Definition prepared_ok (id : string) (p : PreparedRollout) : Prop :=
  assignment_identity (pr_deployment p) = Some id
  ∧ ∀ v, v ∈ pr_versions p → ∃ d, assignment_identity d = Some id ∧ is_Some (rg_releases (ra_application d) !! v).
Definition pending_ok (pending : BTreeMap PreparedRollout) : Prop :=
  ∀ id p, pending !! id = Some p → prepared_ok id p.

(** Nothing collected is dropped again. *)
Definition grows (pending pending' : BTreeMap PreparedRollout) : Prop :=
  ∀ id p, pending !! id = Some p → ∃ p', pending' !! id = Some p'
    ∧ pr_sources p ⊆ pr_sources p' ∧ pr_versions p ⊆ pr_versions p'.

Lemma grows_refl pending : grows pending pending.
Proof. intros id p Hp. by exists p. Qed.

Lemma grows_trans p1 p2 p3 : grows p1 p2 → grows p2 p3 → grows p1 p3.
Proof.
  intros H12 H23 id p (p' & Hp' & Hs & Hv)%H12. destruct (H23 id p' Hp') as (p'' & ? & ? & ?).
  exists p''. split_and!; [done|by etrans|by etrans].
Qed.

(** The move of [node] to [d] is collected: what it states to run, and every release on its way. *)
Definition collected (pending : BTreeMap PreparedRollout) (node : string) (d : RepositoryAssignment) : Prop :=
  ∀ id, assignment_identity d = Some id → ob_assignments observed !! node ≠ Some id →
    ∃ p, pending !! id = Some p
      ∧ (∀ v, (fresh_report observed verified node ≫= stated_version) = Some v → v ∈ pr_sources p)
      ∧ lists_route observed verified node (ra_application d) (pr_versions p).

Lemma collected_grows p1 p2 node d : grows p1 p2 → collected p1 node d → collected p2 node d.
Proof.
  intros Hgr Hc id Hid Hne. destruct (Hc id Hid Hne) as (p & Hp & Hs & Hl).
  destruct (Hgr id p Hp) as (p' & ? & ? & ?). exists p'. split_and!; [done|set_solver|]. intros v Hv. specialize (Hl v Hv). set_solver.
Qed.

Lemma extend_pending_ok id d sources versions pending :
  assignment_identity d = Some id → declared (ra_application d) versions → pending_ok pending →
  pending_ok (extend_pending id d sources versions pending) ∧ grows pending (extend_pending id d sources versions pending)
  ∧ ∃ p, extend_pending id d sources versions pending !! id = Some p
      ∧ sources ⊆ pr_sources p ∧ versions ⊆ pr_versions p.
Proof.
  intros Hid Hd Hok. unfold extend_pending.
  set (entry := default (mkPreparedRollout d ∅ ∅) (pending !! id)).
  assert (prepared_ok id entry) as [He Hev].
  { unfold entry. destruct (pending !! id) as [p|] eqn:Hp; simpl; [by apply Hok|]. split; [done|set_solver]. }
  split_and!.
  - intros i p [[<- <-]|[_ Hp]]%lookup_insert_Some; [|by apply Hok]. split; [done|]. simpl.
    intros v [Hv|Hv]%elem_of_union; [by apply Hev|]. exists d. auto.
  - intros i p Hp. destruct (decide (i = id)) as [->|Hne].
    + rewrite lookup_insert_eq. eexists. split; [done|]. unfold entry. rewrite Hp. simpl. split; set_solver.
    + rewrite lookup_insert_ne by done. by exists p.
  - rewrite lookup_insert_eq. eexists. split; [done|]. simpl. split; set_solver.
Qed.

(** One node, with what it leaves collected. *)
Lemma check_node_ok node d pending :
  pending_ok pending →
  ∃ r, check_node observed verified published node d pending = Some r
    ∧ match r with
      | inl e => refused_move e node d
      | inr pending' => cleared node d ∧ pending_ok pending' ∧ grows pending pending'
          ∧ collected pending' node d
      end.
Proof.
  intros Hok. destruct (check_node_spec observed verified published published_valid node d pending) as (r & Hr & Hs).
  exists r. split; [done|]. unfold refused_move, cleared.
  destruct (assignment_identity d) as [id|] eqn:Hid; [|by destruct Hs as (e & ->); eexists].
  case_bool_decide as Hsame.
  { subst r. split_and!; [by exists id; split; [|left]|done|apply grows_refl|]. intros ? Hid' ?. rewrite Hid in Hid'. by injection Hid' as <-. }
  destruct r as [e|pending']; [by split_and!; [done|apply Hs..]|].
  destruct Hs as (Hm & sources & versions & -> & Hd & Hsrc & Hlist).
  destruct (extend_pending_ok id d sources versions pending Hid Hd Hok) as (? & ? & p & Hp & Hsub & Hsub').
  split_and!; [by exists id; split; [|right]|done|done|].
  intros id' Hid' _. rewrite Hid in Hid'. injection Hid' as <-. exists p. split_and!; [done| |].
  - intros v Hv. by apply Hsub, Hsrc.
  - intros v Hv. by apply Hsub', Hlist.
Qed.

(** The cohorts that are not frozen. *)
Definition in_play (node_groups : BTreeMap string) (node : ResolvedNode) (group : string) : Prop :=
  node_groups !! rn_name node = Some group ∧ (rn_name node ∉ de_holds desired)
  ∧ quarantined_group desired node group = None.

Lemma check_cohorts_ok fallback node_groups nodes : ∀ pending,
  (∀ node, node ∈ nodes → is_Some (node_groups !! rn_name node)) → pending_ok pending →
  ∃ r, check_cohorts desired observed plan verified fallback node_groups nodes pending = Some r
    ∧ match r with
      | inl e => ∃ node group, node ∈ nodes ∧ in_play node_groups node group
          ∧ refused_move e (rn_name node) (intended plan fallback group)
      | inr pending' => pending_ok pending' ∧ grows pending pending'
          ∧ ∀ node group, node ∈ nodes → in_play node_groups node group →
              cleared (rn_name node) (intended plan fallback group)
              ∧ collected pending' (rn_name node) (intended plan fallback group)
      end.
Proof.
  induction nodes as [|node nodes IH]; intros pending Hall Hok; cbn [check_cohorts].
  { eexists. split; [done|]. split_and!; [done|apply grows_refl|]. by intros ? ? ?%not_elem_of_nil. }
  destruct (Hall node) as [group Hg]; [by left|]. rewrite Hg. cbn [mbind option_bind].
  assert (∀ n, n ∈ nodes → is_Some (node_groups !! rn_name n)) as Hall' by (intros; apply Hall; by right).
  destruct (_ || _) eqn:Hskip.
  { destruct (IH pending Hall' Hok) as (r & -> & Hr). exists r. split; [done|]. destruct r as [e|pending'].
    - destruct Hr as (n & g & ? & ?). exists n, g. split; [by right|done].
    - destruct Hr as (? & ? & Hr). split_and!; [done|done|]. intros n g [->|Hn]%elem_of_cons Hp; [|by apply Hr].
      destruct Hp as (Hg' & Hh & Hq). exfalso. rewrite Hg in Hg'. injection Hg' as <-.
      apply orb_true_iff in Hskip as [?%bool_decide_eq_true|Hs%bool_decide_eq_true]; [done|]. rewrite Hq in Hs. by destruct Hs. }
  apply orb_false_iff in Hskip as [Hh%bool_decide_eq_false Hq%bool_decide_eq_false].
  assert (in_play node_groups node group) as Hplay by (split_and!; [done|done|by apply eq_None_not_Some]).
  destruct (check_node_ok (rn_name node) (intended plan fallback group) pending Hok) as (r & -> & Hr). cbn [mbind option_bind].
  destruct r as [e|p1]; [eexists; split; [done|]; exists node, group; split; [by left|done]|].
  destruct Hr as (Hcl & Hok1 & Hgr1 & Hsrc). destruct (IH p1 Hall' Hok1) as (r & -> & Hr). exists r. split; [done|].
  destruct r as [e|p2]; [destruct Hr as (n & g & ? & ?); exists n, g; split; [by right|done]|].
  destruct Hr as (Hok2 & Hgr2 & Hr). split_and!; [done|by eapply grows_trans|].
  intros n g [->|Hn]%elem_of_cons Hp; [|by apply Hr]. assert (g = group) as -> by (destruct Hp as [? _]; congruence).
  split; [done|]. by eapply collected_grows.
Qed.

(** ** The way back *)

(** A group whose move is being prepared has something to return to. *)
Record returning (pending : BTreeMap PreparedRollout) (group id : string) (d : RepositoryAssignment)
    (forward : PreparedRollout) (state : AdmittedDeployment) : Prop := {
  rt_desired : rc_desired_deployments plan !! group = Some d;
  rt_identity : assignment_identity d = Some id;
  rt_vetoed : rc_vetoed plan !! id = None;
  rt_forward : pending !! id = Some forward;
  rt_admitted : ob_admitted observed !! group = Some state;
  rt_past : past state d ≠ [];
}.

(** From every release the move may leave installed there is a way to a permitted baseline. *)
Definition way_back (d : RepositoryAssignment) (forward : PreparedRollout) (state : AdmittedDeployment) : Prop :=
  ∃ k restored, rollback_target d (past state d) (rc_blocked plan) = Some (k, restored)
    ∧ ∀ v, v ∈ pr_sources forward ∪ pr_versions forward → routable (ra_application restored) (Some v).

Lemma rollback_target_identity d previous blocks k (restored : RepositoryAssignment) :
  rollback_target d previous blocks = Some (k, restored) → is_Some (assignment_identity restored).
Proof.
  unfold rollback_target. generalize 0%nat. induction previous as [|x previous IH]; intros n; [done|].
  cbn [rollback_target_from]. destruct (_ ≫= _) as [y|] eqn:Hf; [|apply IH]. intros [= ->].
  apply bind_Some in Hf as (i & _ & Hf). apply bind_Some in Hf as (r & _ & Hf).
  apply bind_Some in Hf as (ri & Hri & Hf). destruct (_ && _); [|done]. injection Hf as _ ->. by exists ri.
Qed.

Lemma return_versions_ok group restored sources : ∀ versions,
  graph_validate (ra_application restored) = inr tt → declared (ra_application restored) versions →
  ∃ r, return_versions group restored sources versions = Some r
    ∧ match r with
      | inl e => (∃ m, e = ReleasePreflight (String.append "group " group) m)
          ∧ ∃ v, v ∈ sources ∧ ¬ routable (ra_application restored) (Some v)
      | inr versions' => declared (ra_application restored) versions'
          ∧ ∀ v, v ∈ sources → routable (ra_application restored) (Some v)
      end.
Proof.
  induction sources as [|v sources IH]; intros versions Hv Hd; cbn [return_versions].
  { eexists. split; [done|]. split; [done|]. by intros ? ?%not_elem_of_nil. }
  destruct (route_versions_declared (ra_application restored) (Some v) Hv) as (r & -> & Hr). cbn [mbind option_bind].
  destruct r as [e|route]; [eexists; split; [done|]; split; [by eexists|]; exists v; split; [by left|done]|].
  destruct Hr as [Hr Hdr]. destruct (IH (versions ∪ route) Hv) as (r & -> & Hs).
  { intros x [?|?]%elem_of_union; auto. }
  exists r. split; [done|]. destruct r as [e|versions'].
  - destruct Hs as (? & x & ? & ?). split; [done|]. exists x. split; [by right|done].
  - destruct Hs as [? Hs]. split; [done|]. intros x [->|?]%elem_of_cons; auto.
Qed.

(** The deployment of a group that cannot be encoded: the [expect] on it panics. *)
Definition unencodable (group : string) : Prop :=
  ∃ d, rc_desired_deployments plan !! group = Some d ∧ assignment_identity d = None.

Definition stuck_return (e : PlanError) (pending : BTreeMap PreparedRollout) (group : string) : Prop :=
  (∃ m, e = ReleasePreflight (String.append "group " group) m)
  ∧ ∃ id d forward state, returning pending group id d forward state ∧ ¬ way_back d forward state.

Lemma check_return_ok group pending :
  is_Some (rc_desired_deployments plan !! group) → pending_ok pending →
  match check_return observed plan group pending with
  | None => unencodable group
  | Some (inl e) => stuck_return e pending group
  | Some (inr pending') => pending_ok pending' ∧ grows pending pending'
      ∧ ∀ id d forward state, returning pending group id d forward state → way_back d forward state
  end.
Proof.
  intros [d Hd] Hok. unfold check_return. rewrite Hd. cbn [mbind option_bind].
  destruct (assignment_identity d) as [id|] eqn:Hid; [|by exists d]. cbn [mbind option_bind].
  assert (∀ id' d' f s, returning pending group id' d' f s → id' = id ∧ d' = d ∧ rc_vetoed plan !! id = None
    ∧ pending !! id = Some f ∧ ob_admitted observed !! group = Some s ∧ past s d ≠ []) as Hinv.
  { intros id' d' f s [? Hid' ? ? ? ?]. assert (d' = d) as -> by congruence. assert (id' = id) as -> by congruence. done. }
  assert ((∀ id' d' f s, returning pending group id' d' f s → False) →
    pending_ok pending ∧ grows pending pending
    ∧ ∀ id' d' f s, returning pending group id' d' f s → way_back d' f s) as Hskip.
  { intros Hno. split_and!; [done|apply grows_refl|]. intros ? ? ? ? Hr. by destruct (Hno _ _ _ _ Hr). }
  destruct (contains_key id (rc_vetoed plan)) eqn:Hvet.
  { apply Hskip. intros ? ? ? ? (_ & _ & Hnv & _)%Hinv. apply contains_key_true in Hvet as [? ?]. congruence. }
  apply not_true_iff_false in Hvet. rewrite contains_key_true in Hvet. apply eq_None_not_Some in Hvet.
  destruct (pending !! id) as [forward|] eqn:Hf; [|apply Hskip; intros ? ? ? ? (_ & _ & _ & ? & _)%Hinv; congruence].
  destruct (ob_admitted observed !! group) as [state|] eqn:Hst;
    [|apply Hskip; intros ? ? ? ? (_ & _ & _ & _ & ? & _)%Hinv; congruence].
  case_bool_decide as Hpast.
  { apply Hskip. intros ? ? ? ? (_ & _ & _ & _ & Hs & Hp)%Hinv. injection Hs as <-. done. }
  assert (returning pending group id d forward state) as Hret by (by split).
  assert (∀ id' d' f s, returning pending group id' d' f s → d' = d ∧ f = forward ∧ s = state) as Honly.
  { intros ? ? ? ? (_ & -> & _ & Hff & Hss & _)%Hinv. by simplify_eq. }
  destruct (rollback_target _ _ _) as [[k restored]|] eqn:Ht.
  2:{ split; [by eexists|]. exists id, d, forward, state. split; [done|]. intros (k & restored & Ht' & _). congruence. }
  destruct (rollback_target_identity _ _ _ _ _ Ht) as [rid Hrid]. rewrite Hrid. cbn [mbind option_bind].
  destruct (return_versions_ok group restored (bt_elements (pr_sources forward ∪ pr_versions forward)) ∅)
    as (r & -> & Hr); [by eapply identity_valid|set_solver|]. cbn [mbind option_bind].
  destruct r as [e|versions].
  - destruct Hr as [Hm (v & Hin & Hno)]. split; [done|]. exists id, d, forward, state. split; [done|].
    intros (k' & restored' & Ht' & Hall). rewrite Ht in Ht'. injection Ht' as <- <-.
    apply Hno, Hall. by apply elem_of_bt_elements.
  - destruct Hr as [Hd' Hall]. destruct (extend_pending_ok rid restored ∅ versions pending Hrid Hd' Hok) as (? & ? & _).
    split_and!; [done|done|]. intros ? ? ? ? (-> & -> & ->)%Honly. exists k, restored. split; [done|].
    intros v Hin. apply Hall. by apply elem_of_bt_elements.
Qed.

Lemma check_returns_ok groups : ∀ pending,
  (∀ group, group ∈ groups → is_Some (rc_desired_deployments plan !! group)) → pending_ok pending →
  match check_returns observed plan groups pending with
  | None => ∃ group, group ∈ groups ∧ unencodable group
  | Some (inl e) => ∃ group pending', group ∈ groups ∧ stuck_return e pending' group
  | Some (inr pending') => pending_ok pending' ∧ grows pending pending'
      ∧ ∀ group, group ∈ groups → ∃ between, grows pending between
          ∧ ∀ id d forward state, returning between group id d forward state → way_back d forward state
  end.
Proof.
  induction groups as [|group groups IH]; intros pending Hall Hok; cbn [check_returns].
  { split_and!; [done|apply grows_refl|]. by intros ? ?%not_elem_of_nil. }
  pose proof (check_return_ok group pending (Hall group ltac:(by left)) Hok) as Hone.
  destruct (check_return observed plan group pending) as [[e|p1]|]; cbn [mbind option_bind].
  - exists group, pending. split; [by left|done].
  - destruct Hone as (Hok1 & Hgr1 & Hret). specialize (IH p1 ltac:(intros; apply Hall; by right) Hok1).
    destruct (check_returns observed plan groups p1) as [[e|p2]|].
    + destruct IH as (g & p' & ? & ?). exists g, p'. split; [by right|done].
    + destruct IH as (? & Hgr2 & Hall2). split_and!; [done|by eapply grows_trans|].
      intros g [->|Hg]%elem_of_cons; [exists pending; split; [apply grows_refl|done]|].
      destruct (Hall2 g Hg) as (between & ? & ?). exists between. split; [by eapply grows_trans|done].
    + destruct IH as (g & ? & ?). exists g. split; [by right|done].
  - exists group. split; [by left|done].
Qed.

(** ** The publication *)

Definition unreadable (id : string) : Prop :=
  match published_target plan id with
  | None => True
  | Some target => ∃ e, RepositoryAssignment_from_bounded_json (pt_bytes target) = inl e
  end.

Definition publishes (id : string) (d : RepositoryAssignment) : Prop :=
  ∃ target, published_target plan id = Some target ∧ RepositoryAssignment_from_bounded_json (pt_bytes target) = inr d.

Lemma check_publication_ok assignments : ∀ pending,
  pending_ok pending →
  ∃ r, check_publication desired observed plan verified assignments pending = Some r
    ∧ match r with
      | inl e => ∃ node id, (node, id) ∈ assignments ∧ ob_assignments observed !! node ≠ Some id
          ∧ ((unreadable id ∧ ∃ x, e = InvalidDeployment x) ∨ ∃ d, publishes id d ∧ refused_move e node d)
      | inr pending' => pending_ok pending' ∧ grows pending pending'
          ∧ ∀ node id, (node, id) ∈ assignments → ob_assignments observed !! node = Some id
              ∨ ∃ d, publishes id d ∧ cleared node d ∧ collected pending' node d
      end.
Proof.
  induction assignments as [|[node id] assignments IH]; intros pending Hok; cbn [check_publication].
  { eexists. split; [done|]. split_and!; [done|apply grows_refl|]. by intros ? ? ?%not_elem_of_nil. }
  assert (∀ p, pending_ok p → grows pending p →
    (ob_assignments observed !! node = Some id ∨ ∃ d, publishes id d ∧ cleared node d ∧ collected p node d) →
    ∃ r, check_publication desired observed plan verified assignments p = Some r
    ∧ match r with
      | inl e => ∃ n i, (n, i) ∈ (node, id) :: assignments ∧ ob_assignments observed !! n ≠ Some i
          ∧ ((unreadable i ∧ ∃ x, e = InvalidDeployment x) ∨ ∃ d, publishes i d ∧ refused_move e n d)
      | inr pending' => pending_ok pending' ∧ grows pending pending'
          ∧ ∀ n i, (n, i) ∈ (node, id) :: assignments → ob_assignments observed !! n = Some i
              ∨ ∃ d, publishes i d ∧ cleared n d ∧ collected pending' n d
      end) as Hrest.
  { intros p Hp Hgr Hthis. destruct (IH p Hp) as (r & -> & Hr). exists r. split; [done|]. destruct r as [e|p'].
    - destruct Hr as (n & i & ? & Hx). exists n, i. split; [by right|done].
    - destruct Hr as (? & Hgr' & Hr). split_and!; [done|by eapply grows_trans|].
      intros n i [[= -> ->]|?]%elem_of_cons; [|by apply Hr]. destruct Hthis as [?|(d & ? & ? & ?)]; [by left|right].
      exists d. split_and!; [done|done|]. by eapply collected_grows. }
  case_bool_decide as Hsame; [by apply Hrest; [|apply grows_refl|left]|].
  destruct (published_target plan id) as [target|] eqn:Ht.
  2:{ eexists. split; [done|]. exists node, id. split_and!; [by left|done|]. left. unfold unreadable. rewrite Ht. eauto. }
  destruct (RepositoryAssignment_from_bounded_json (pt_bytes target)) as [e|d] eqn:Hd.
  { eexists. split; [done|]. exists node, id. split_and!; [by left|done|]. left. unfold unreadable. rewrite Ht. eauto. }
  assert (publishes id d) as Hpub by (by exists target).
  destruct (check_node_ok node d pending Hok) as (r & -> & Hr). cbn [mbind option_bind]. destruct r as [e|p1].
  - eexists. split; [done|]. exists node, id. split_and!; [by left|done|]. right. eauto.
  - destruct Hr as (? & ? & ? & ?). apply Hrest; [done|done|]. right. eauto.
Qed.

End generation.

(** ** Both checks *)

Section whole.
Context `{!ReportParts} `{!Semver} `{!Signed} `{!Chrono}.
Context `{!JsonValues} `{!Sha256} `{!SemverOrder} `{!Urls} `{!AssignmentJson}.

Lemma governed_desired desired plan group :
  group ∈ governed_groups desired plan → is_Some (rc_desired_deployments plan !! group).
Proof.
  unfold governed_groups. rewrite elem_of_bt_elements, elem_of_rollback_groups. intros [(x & _ & Hm) _].
  unfold set_members in Hm. apply list_elem_of_filter in Hm as [_ Hm]. unfold bt_keys in Hm.
  apply list_elem_of_fmap in Hm as ([k d] & -> & Hm). apply elem_of_bt_iter in Hm. by exists d.
Qed.

(** Why a plan is not published. *)
Definition preflight_stops (desired : DesiredState) (observed : ObservedState) (plan : ReconcilePlan)
    (verified : VerifiedReports) (fallback : RepositoryAssignment) (node_groups : BTreeMap string) (e : PlanError) : Prop :=
  (∃ node group, node ∈ de_nodes desired ∧ in_play desired node_groups node group
     ∧ refused_move desired observed verified e (rn_name node) (intended plan fallback group))
  ∨ (∃ group pending, group ∈ governed_groups desired plan ∧ stuck_return observed plan e pending group)
  ∨ (∃ node id, pp_node_assignments (rc_publication plan) !! node = Some id ∧ ob_assignments observed !! node ≠ Some id
       ∧ ((unreadable plan id ∧ ∃ x, e = InvalidDeployment x)
          ∨ ∃ d, publishes plan id d ∧ refused_move desired observed verified e node d)).

(** The packages of every release between what the node states to run and [d]'s target are among
    those to be demanded. *)
Definition prepares (observed : ObservedState) (verified : VerifiedReports) (prepared : list PreparedRollout)
    (node : string) (d : RepositoryAssignment) : Prop :=
  ∀ id, assignment_identity d = Some id → ob_assignments observed !! node ≠ Some id →
    ∃ p, p ∈ prepared ∧ assignment_identity (pr_deployment p) = Some id
      ∧ lists_route observed verified node (ra_application d) (pr_versions p).

Lemma collected_prepares observed verified pending node d :
  pending_ok pending → collected observed verified pending node d → prepares observed verified (bt_values pending) node d.
Proof.
  intros Hok Hc id Hid Hne. destruct (Hc id Hid Hne) as (p & Hp & _ & Hl). exists p. split_and!; [|by apply Hok in Hp as [? _]|done].
  apply elem_of_bt_values. by exists id.
Qed.

(** What a plan that passes promises. *)
Record moves_soundly (desired : DesiredState) (observed : ObservedState) (plan : ReconcilePlan)
    (verified : VerifiedReports) (fallback : RepositoryAssignment) (node_groups : BTreeMap string)
    (prepared : list PreparedRollout) : Prop := {
  ms_cohorts : ∀ node group, node ∈ de_nodes desired → in_play desired node_groups node group →
    cleared desired observed verified (rn_name node) (intended plan fallback group)
    ∧ prepares observed verified prepared (rn_name node) (intended plan fallback group);
  ms_published : ∀ node id, pp_node_assignments (rc_publication plan) !! node = Some id →
    ob_assignments observed !! node = Some id
    ∨ ∃ d, publishes plan id d ∧ cleared desired observed verified node d ∧ prepares observed verified prepared node d;
  ms_return : ∀ node group id d state v, node ∈ de_nodes desired → in_play desired node_groups node group →
    group ∈ governed_groups desired plan → rc_desired_deployments plan !! group = Some d →
    assignment_identity d = Some id → rc_vetoed plan !! id = None →
    ob_assignments observed !! rn_name node ≠ Some id → ob_admitted observed !! group = Some state → past state d ≠ [] →
    (fresh_report observed verified (rn_name node) ≫= stated_version) = Some v →
    ∃ k restored, rollback_target d (past state d) (rc_blocked plan) = Some (k, restored)
      ∧ routable (ra_application restored) (Some v);
}.

Lemma routes_spec desired observed plan verified0 node_groups fallback :
  resolve_node_groups (bt_values (de_groups desired)) (de_nodes desired) = inr node_groups →
  deployment_try_from (rs_default_deployment (de_repository desired)) = inr fallback →
  (∀ node, node ∈ de_nodes desired → is_Some (node_groups !! rn_name node)) →
  let verified := verify_fleet (ob_reports observed) (ob_public_keys observed) verified0 in
  match routes desired observed plan verified0 with
  | None => ∃ group, group ∈ governed_groups desired plan ∧ unencodable plan group
  | Some (inl e, v) => v = verified ∧ preflight_stops desired observed plan verified fallback node_groups e
  | Some (inr prepared, v) => v = verified ∧ moves_soundly desired observed plan verified fallback node_groups prepared
      ∧ ∀ p, p ∈ prepared → ∃ id, prepared_ok id p
  end.
Proof.
  intros Hng Hfb Hall verified. unfold routes. rewrite Hng, Hfb. fold verified.
  destruct (check_cohorts_ok desired observed plan verified fallback node_groups (de_nodes desired) ∅ Hall) as (r & -> & Hr);
    [by intros ? ? ?%lookup_empty_Some|]. cbn [mbind option_bind].
  destruct r as [e|p1]; [split; [done|by left]|]. destruct Hr as (Hok1 & _ & Hcoh).
  pose proof (check_returns_ok observed plan (governed_groups desired plan) p1 (governed_desired desired plan) Hok1) as Hret.
  destruct (check_returns observed plan (governed_groups desired plan) p1) as [[e|p2]|]; cbn [mbind option_bind]; [|..|done].
  { split; [done|]. right. left. destruct Hret as (g & p & ? & ?). by exists g, p. }
  destruct Hret as (Hok2 & Hgr2 & Hback).
  destruct (check_publication_ok desired observed plan verified (bt_iter (pp_node_assignments (rc_publication plan))) p2 Hok2)
    as (r & -> & Hr). cbn [mbind option_bind]. destruct r as [e|p3].
  { split; [done|]. right. right. destruct Hr as (node & id & Hin%elem_of_bt_iter & ?). by exists node, id. }
  destruct Hr as (Hok3 & Hgr3 & Hpub). split_and!; [done| |].
  - split.
    + intros node group Hn Hp. destruct (Hcoh node group Hn Hp) as [? Hc]. split; [done|].
      apply collected_prepares; [done|]. eapply collected_grows, Hc. by eapply grows_trans.
    + intros node id Hin. destruct (Hpub node id) as [?|(d & ? & ? & ?)]; [by apply elem_of_bt_iter|by left|right].
      exists d. split_and!; [done|done|]. by apply collected_prepares.
    + intros node group id d state v Hn Hp Hg Hd Hid Hvet Hne Hst Hpast Hv.
      assert (intended plan fallback group = d) as Hint.
      { unfold intended. rewrite Hd. simpl. rewrite Hid. simpl. destruct (contains_key id (rc_vetoed plan)) eqn:Hc; [|done].
        apply contains_key_true in Hc as [? ?]. congruence. }
      destruct (Hcoh node group Hn Hp) as [_ Hsrc]. rewrite Hint in Hsrc.
      destruct (Hsrc id Hid Hne) as (p & Hpp & Hin & _). destruct (Hback group Hg) as (between & Hgr & Hway).
      destruct (Hgr id p Hpp) as (p' & Hp' & Hsub & _). specialize (Hin v Hv).
      destruct (Hway id d p' state) as (k & restored & Ht & Hall'); [by split|]. exists k, restored. split; [done|].
      apply Hall'. set_solver.
  - intros p Hin. unfold bt_values in Hin. apply list_elem_of_fmap in Hin as ([id q] & -> & Hin).
    apply elem_of_bt_iter in Hin. exists id. by apply Hok3.
Qed.

(** Two documents under one identity. *)
Definition identity_clash : Prop :=
  ∃ id d d', d ≠ d' ∧ assignment_identity d = Some id ∧ assignment_identity d' = Some id.

Context `{!Serde (string * string * JsonValue * ManagedRepositoryLimits)}.

Lemma check_packages_total outside repository policy key deployment versions : ∀ targets,
  check_packages outside repository policy key deployment versions targets = None →
  ∃ v, v ∈ versions ∧ rg_releases (ra_application deployment) !! v = None.
Proof.
  induction versions as [|v versions IH]; intros targets; cbn [check_packages]; [done|].
  destruct (rg_releases (ra_application deployment) !! v) as [release|] eqn:Hr; cbn [mbind option_bind];
    [|intros _; exists v; split; [by left|done]].
  case_bool_decide; [done|]. destruct (verify_release _ _ _ _); [done|].
  intros (x & ? & ?)%IH. exists x. split; [by right|done].
Qed.

(** Only a clash makes the package check index a release its graph does not have. *)
Lemma packages_total outside plans :
  (∀ p, p ∈ plans → ∃ id, prepared_ok id p) → packages outside plans = None → identity_clash.
Proof.
  intros Hok. unfold packages. destruct (negb _); [done|]. intros Hn%bind_None.
  destruct Hn as [Hn|(? & _ & ?)]; [|done]. revert Hn. generalize (∅ : BTreeMap TrustedRepository).
  generalize (∅ : gmap (string * string * string) VerifiedTarget).
  induction plans as [|p plans IH]; intros targets repositories; cbn [check_plans]; [done|].
  assert (∀ q, q ∈ plans → ∃ id, prepared_ok id q) as Hok' by (intros; apply Hok; by right).
  destruct (Hok p ltac:(by left)) as (id & Hid & Hv).
  match goal with |- context [match ?x with inl _ => _ | inr _ => _ end] => destruct x as [e|[[key [repos repo]] policy]] end; [done|].
  destruct (check_packages _ _ _ _ _ _ _) as [[e|targets']|] eqn:Hc; cbn [mbind option_bind]; [done|by apply IH|intros _].
  apply check_packages_total in Hc as (v & Hin & Hnone). apply elem_of_bt_elements, elem_of_union in Hin as [Hin|Hin].
  - destruct (Hv v Hin) as (d & Hd & [r Hr]). exists id, d, (pr_deployment p). split_and!; [|done|done].
    intros ->. congruence.
  - apply elem_of_singleton in Hin as ->. exfalso.
    pose proof (validate_target _ (identity_valid _ _ Hid)) as [r Hr]. congruence.
Qed.

(** A repository reached under the deployment's own coordinates holds, signed and under the
    deployment's own product and channel, every package the rollout may install, and the admission
    policy refuses none of them. *)
Definition supplied (outside : Outside) (p : PreparedRollout) : Prop :=
  ∃ key origin repository os arch,
    repository_key (pr_deployment p) = inr key ∧ repository_key origin = inr key ∧ os_load outside origin = inr repository
    ∧ ∀ v, v ∈ pr_versions p ∪ {[ rg_target (ra_application (pr_deployment p)) ]} →
        ∃ release selected, rg_releases (ra_application (pr_deployment p)) !! v = Some release
          ∧ os_allowed outside (tr_sha256 (rl_package release)) ≠ Some false
          ∧ verify_release repository
              (mkDefaultPolicy (mr_product (ra_runtime (pr_deployment p))) (mr_channel (ra_runtime (pr_deployment p))) os arch)
              v (rl_package release) = inr selected.

Lemma check_packages_inr outside repository policy key deployment versions : ∀ targets targets',
  check_packages outside repository policy key deployment versions targets = Some (inr targets') →
  ∀ v, v ∈ versions → ∃ release selected, rg_releases (ra_application deployment) !! v = Some release
    ∧ os_allowed outside (tr_sha256 (rl_package release)) ≠ Some false
    ∧ verify_release repository policy v (rl_package release) = inr selected.
Proof.
  induction versions as [|v versions IH]; intros targets targets' Hc; cbn [check_packages] in Hc; [by intros ? ?%not_elem_of_nil|].
  apply bind_Some in Hc as (release & Hr & Hc). case_bool_decide as Hal; [done|].
  destruct (verify_release _ _ _ _) as [?|selected] eqn:Hs; [done|].
  intros x [->|Hx]%elem_of_cons; [by exists release, selected|]. by eapply IH.
Qed.

Lemma check_plans_inr outside plans : ∀ repositories targets targets',
  (∀ key repository, repositories !! key = Some repository →
     ∃ origin, repository_key origin = inr key ∧ os_load outside origin = inr repository) →
  check_plans outside plans repositories targets = Some (inr targets') → ∀ p, p ∈ plans → supplied outside p.
Proof.
  induction plans as [|q plans IH]; intros repositories targets targets' Hrep Hc; cbn [check_plans] in Hc; [by intros ? ?%not_elem_of_nil|].
  destruct (repository_key (pr_deployment q)) as [?|key] eqn:Hk; [done|]. cbn [mbind sum_bind] in Hc.
  destruct (repository_of outside key (pr_deployment q) repositories) as [?|[repositories' repository]] eqn:Hro; [done|].
  assert (repositories' !! key = Some repository ∧ ∀ k r, repositories' !! k = Some r →
     ∃ origin, repository_key origin = inr k ∧ os_load outside origin = inr r) as [Hkey Hrep'].
  { unfold repository_of in Hro. destruct (repositories !! key) eqn:Hl; [by injection Hro as <- <-|].
    destruct (os_load outside (pr_deployment q)) as [?|r0] eqn:Hload; [done|]. injection Hro as <- <-.
    split; [apply lookup_insert_eq|]. intros k r [[<- <-]|[_ ?]]%lookup_insert_Some; [by exists (pr_deployment q)|by apply Hrep]. }
  cbn [mbind sum_bind fst snd] in Hc. destruct (map_err PkRelease (target_reference _)) as [?|reference]; [done|]. cbn [mbind sum_bind] in Hc.
  destruct (map_err PkRefused (exact_target _ _)) as [?|target]; [done|]. cbn [mbind sum_bind] in Hc.
  destruct (package_policy (pr_deployment q) target) as [?|policy] eqn:Hpol; [done|]. cbn [mbind sum_bind] in Hc.
  apply bind_Some in Hc as (checked & Hpk & Hc). destruct checked as [?|targets1]; [done|].
  intros p [->|Hp]%elem_of_cons; [|by eapply IH].
  unfold package_policy in Hpol. destruct (custom_text target "os") as [?|os]; [done|]. cbn [mbind sum_bind] in Hpol.
  destruct (custom_text target "arch") as [?|arch]; [done|]. injection Hpol as <-.
  destruct (Hrep' key repository Hkey) as (origin & ? & ?). exists key, origin, repository, os, arch.
  split_and!; [done..|]. intros v Hv%elem_of_bt_elements. by eapply check_packages_inr.
Qed.

(** What passes the package check is supplied. *)
Lemma packages_supplied outside plans :
  packages outside plans = Some (inr tt) → ∀ p, p ∈ plans → supplied outside p.
Proof.
  unfold packages. destruct (negb _); [done|]. intros (checked & Hc & Hr)%bind_Some.
  destruct checked as [?|targets]; [done|]. eapply check_plans_inr, Hc. by intros ? ? ?%lookup_empty_Some.
Qed.

End whole.
