(* ===== verification/FleetHistory.v ===== *)
(** * FleetHistory: the controller across passes

    Composes [Inventory.v], [Reconcile.v], [Preflight.v] and [Durable.v] into the deciding half of
    [reconcile_once]: the desired state, the refusal to start a published fleet over, the plan, and the
    two preflights that stand between a plan and its publication.  It follows the durable state
    through any sequence of plans: those that are recorded, those that are refused or lost before they
    are recorded, failed passes and restarts, whose in-memory observations are arbitrary.  The
    theorems: every assignment the controller has recorded names a body it still holds, so freezing a
    node can never fail for a forgotten body; and what one pass decides, with every reason for which
    it publishes nothing and what a generation it lets through promises of the nodes it moves. *)
From S2P Require Import Prelude Identity Maps Releases Dataflow Telemetry Window Rollout Assign.
From S2P Require Import Retention Regression Admission Plan Bodies Assignment Groups GroupGraph.
From S2P Require Import GroupRouting Publication Inputs Reconcile Inventory Durable Fleet Selection Preflight.

Section history.
Context `{!ReportParts} `{!Semver} `{!Signed} `{!Chrono} `{!Curve}.
Context `{!JsonValues} `{!Sha256} `{!SemverOrder} `{!Urls} `{!AssignmentJson}.
Context `{!Base64} `{!Hmac} `{!DataflowJson} `{!Serde AgentDocument}.

(** What one pass reads of the cluster and of the object store. *)
Record Cluster : Type := mkCluster {
  cl_repository_name : string;
  cl_repository : UpdateRepositorySpec;
  cl_sets : list UpdateGroupSet;
  cl_groups : list UpdateGroup;
  cl_agents : list UpdateAgent;
  cl_blocked : BTreeSet;
  cl_reports : gmap string Envelope;
  cl_outputs : gmap string ExactOutputPublication;
  cl_dataflow_key : string;
  cl_now : instant;
  cl_millis : Z;
}.

Definition observed_state (c : Cluster) (s : DurableRolloutState) : ObservedState :=
  mkObservedState (cl_reports c) (cl_outputs c) (cl_dataflow_key c)
    (public_keys (retained_agents (cl_agents c))) (dr_admitted s) (dr_vetoed s) (dr_routing s)
    (dr_assignments s) (cl_now c) (cl_millis c).

(** The names of the full fleet, to which the memory is pruned first. *)
Definition fleet (c : Cluster) (node : string) : bool := bool_decide (node ∈ ua_name <$> cl_agents c).

Definition desired_of (c : Cluster) (s : DurableRolloutState) : option DesiredState :=
  desired_state (cl_repository_name c) (cl_repository c) (cl_sets c) (cl_groups c)
    (cl_agents c) (cl_blocked c) (dr_admitted s).

(** The plan of a pass. *)
Definition plan_once (c : Cluster) (s : DurableRolloutState) (attempts : ObservationLog)
    (verified : VerifiedReports)
    : option ((PlanError + ReconcilePlan) * (ObservationLog * VerifiedReports)) :=
  desired ← desired_of c s;
  plan_reconcile desired (observed_state c s) (prune_nodes (fleet c) attempts)
    (verified_prune_nodes (fleet c) verified).

(** What a pass stops for. *)
Inductive PassError : Type :=
| PRebaseline
| PPlan (e : PlanError)
| PPreflight (e : PlanError)
| PPackages (e : PackageError).

(** What else it reads: whether the state index names an active slot, whether the store holds a
    published generation, and what the release repositories answer. *)
Record Surroundings : Type := mkSurroundings {
  su_active : bool;
  su_published : bool;
  su_outside : Outside;
}.

(** A published fleet whose recorded state is gone is not started over. *)
Definition would_rebaseline (su : Surroundings) (s : DurableRolloutState) : bool :=
  negb (su_active su) && bool_decide (dr_admitted s = ∅) && su_published su.

Definition packages_pass `{!Serde (string * string * JsonValue * ManagedRepositoryLimits)} (su : Surroundings)
    (plan : ReconcilePlan) (prepared : list PreparedRollout) : option (PassError + ReconcilePlan) :=
  answer ← packages (su_outside su) prepared;
  Some (match answer with inl e => inl (PPackages e) | inr _ => inr plan end).

(** What [reconcile_once] decides, up to the publication of the plan. *)
Definition reconcile_once `{!Serde (string * string * JsonValue * ManagedRepositoryLimits)} (su : Surroundings)
    (c : Cluster) (s : DurableRolloutState) (attempts : ObservationLog) (verified : VerifiedReports)
    : option ((PassError + ReconcilePlan) * (ObservationLog * VerifiedReports)) :=
  desired ← desired_of c s;
  let attempts := prune_nodes (fleet c) attempts in
  let verified := verified_prune_nodes (fleet c) verified in
  if would_rebaseline su s then Some (inl PRebaseline, (attempts, verified))
  else
    planned ← plan_reconcile desired (observed_state c s) attempts verified;
    match planned with
    | (inl e, memory) => Some (inl (PPlan e), memory)
    | (inr plan, (attempts, verified)) =>
        checked ← routes desired (observed_state c s) plan verified;
        match checked with
        | (inl e, verified) => Some (inl (PPreflight e), (attempts, verified))
        | (inr prepared, verified) =>
            answer ← packages_pass su plan prepared;
            Some (answer, (attempts, verified))
        end
    end.

(** The state a plan records. *)
Definition planned_state (plan : ReconcilePlan) : DurableRolloutState :=
  mkDurableRolloutState (rc_admitted plan) (rc_vetoed plan) (rc_routing plan) (rc_assignments plan).

(** The API server keeps one object per name and kind. *)
Definition unique_names (c : Cluster) : Prop :=
  NoDup (ug_name <$> cl_groups c) ∧ NoDup (ua_name <$> cl_agents c).

(** The states the controller can have recorded. *)
Inductive reachable : DurableRolloutState → Prop :=
| ReachNew : reachable (mkDurableRolloutState ∅ ∅ ∅ ∅)
| ReachPass s c attempts verified plan memory :
    reachable s → unique_names c →
    plan_once c s attempts verified = Some (inr plan, memory) →
    reachable (planned_state plan).

(** ** The invariant *)

Record accounted (s : DurableRolloutState) : Prop := {
  ac_dom : dom (dr_routing s) = dom (dr_assignments s);
  ac_body : ∀ node id, dr_assignments s !! node = Some id → has_body (dr_admitted s) id;
}.

Section pass.
Context (desired : DesiredState) (observed : ObservedState) (attempts : ObservationLog)
  (verified : VerifiedReports) (p : parts).
Context (Hsi : sound_inventory desired (ob_admitted observed)).
Context (Hp : planned desired observed attempts verified p).

(** Restoring the pins and recording the default forget no body. *)
Lemma durable_body_kept id :
  has_body (du_admitted (pa_durable p)) id → has_body (pa_admitted desired p) id.
Proof.
  intros (name & state & d & Hs & Hd & Hid).
  assert (∃ state', restore_held (de_held desired) (du_admitted (pa_durable p)) !! name = Some state'
    ∧ d ∈ lineage state') as (state' & Hs' & Hd').
  { rewrite restore_held_lookup. destruct (de_held desired !! name) as [pin|] eqn:Hh; [|eauto].
    case_bool_decide; [eauto|]. exists pin. split; [done|].
    assert (pa_groups p !! name = None) as Hno.
    { pose proof (groups_resolved _ _ _ _ _ name Hp) as Hg.
      rewrite (si_disjoint _ _ Hsi name) in Hg; [done|]. apply (si_held _ _ Hsi). by eexists. }
    destruct (plan_shrinks_undesired _ _ _ _ _ _ _ name state (pl_rollout _ _ _ _ _ Hp) Hno Hs) as (s0 & Hs0 & Hsub).
    cbn in Hs0. rewrite (si_pinned _ _ Hsi _ _ Hh) in Hs0. injection Hs0 as <-. by apply Hsub. }
  destruct (record_default_keeps (pa_default p) (assignment_identity (pa_default p)) (pa_default_blocked p)
    _ _ _ Hs') as (state2 & Hs2 & Hl). exists name, state2, d. auto.
Qed.

(** A body a routed node was handed or acts on is still held after the pass. *)
Lemma routed_body_kept node id :
  is_Some (pa_node_groups p !! node) → acts_on observed verified node id →
  has_body (ob_admitted observed) id → has_body (pa_admitted desired p) id.
Proof.
  intros Hn Ha Hb. apply durable_body_kept.
  apply (plan_keeps_bodies _ _ _ _ _ _ _ id (pl_rollout _ _ _ _ _ Hp)); [done|].
  exists node. split; [done|]. by apply advanced_acts_on.
Qed.

(** Every body the planner hands out is held after the pass. *)
Lemma handed_body_kept node d id :
  rp_node_deployments (pa_rollout p) !! node = Some d → assignment_identity d = Some id →
  has_body (pa_admitted desired p) id.
Proof.
  intros Hd Hid. destruct (plan_parts _ _ _ _ _ _ _ (pl_rollout _ _ _ _ _ Hp)) as (_ & Hnd & _).
  rewrite Hnd in Hd. pose proof (assign_nodes_only (H2 := assignment_deployments) _ _ _ _ _ _ _ _ Hd) as (g & _ & _ & _ & Hg & _).
  destruct (assign_nodes_body (H2 := assignment_deployments) _ _ _ _ _ _ _ _ Hd)
    as [(state & (name & Hs)%elem_of_bt_values & Hl)|(i & Hpl & [Hi (state & Hs & Hl)]%bodies_elem)].
  { apply durable_body_kept. by exists name, state, d. }
  assert (i = id) as -> by (cbn in Hi; change (assignment_identity d = Some i) in Hi; congruence).
  apply elem_of_app in Hs as [(name & Hs)%elem_of_bt_values|(name & Hs)%elem_of_bt_values].
  - apply durable_body_kept. by exists name, state, d.
  - apply (routed_body_kept node).
    + by eexists.
    + apply (advanced_acts_on desired observed attempts verified p). by apply placement_advanced.
    + exists name, state, d. split_and!; [by apply (si_pinned _ _ Hsi)|done|done].
Qed.

(** What a plan records is accounted. *)
Lemma planned_accounted nd pub plan :
  carried_as desired observed p nd pub →
  build_publication_plan (de_repository desired) pub nd = Some (inr (rc_publication plan)) →
  rc_routing plan = pub → rc_assignments plan = pp_node_assignments (rc_publication plan) →
  rc_admitted plan = pa_admitted desired p → accounted (planned_state plan).
Proof.
  intros Hc Hb Hr Ha Had. destruct (published_dom _ _ _ _ Hb) as [_ Hdom].
  pose proof (carried_dom _ _ _ _ _ Hc) as Hcd. split; cbn.
  - apply set_eq. intros n. by rewrite !elem_of_dom, Hr, Ha, Hdom, Hcd.
  - rewrite Ha, Had. intros node id (d & Hd & Hid)%(assignment_published _ _ _ _ _ _ Hb).
    destruct (handed_reason _ _ _ _ _ _ _ Hc Hd) as [(i & _ & Hbody)|[(-> & Hdb & _)|Hroll]].
    + apply bodies_of_map. rewrite (body_identity _ _ _ Hbody) in Hid. injection Hid as <-. by eexists.
    + unfold pa_admitted. rewrite Hdb. pose proof (record_default_holds (pa_default p) id
        (restore_held (de_held desired) (du_admitted (pa_durable p))) Hid) as Hh. by rewrite <-Hid in Hh.
    + by eapply handed_body_kept.
Qed.

(** The last error a pass can raise for a body: none for a recorded one. *)
Lemma placement_known node group e :
  dom (ob_routing observed) = dom (ob_assignments observed) →
  (∀ n id, ob_assignments observed !! n = Some id → has_body (ob_admitted observed) id) →
  pa_node_groups p !! node = Some group → pa_carry desired observed p node group ≠ inl e.
Proof.
  intros Hdom Hbody Hg (last & _ & Hl & Hpd)%carried_inl.
  assert (is_Some (ob_assignments observed !! node)) as [id Hid].
  { apply elem_of_dom. rewrite <-Hdom. apply elem_of_dom. by eexists. }
  unfold placed_deployment in Hpd. rewrite Hid in Hpd. cbn [mbind option_bind] in Hpd.
  apply (is_Some_None (A := RepositoryAssignment)). rewrite <-Hpd.
  apply (bodies_of_map (H2 := assignment_deployments) (pa_admitted desired p) id).
  apply (routed_body_kept node); [by eexists|by left|by eapply Hbody].
Qed.

(** A body that cannot be published is the default's. *)
Lemma unpublished_default nd pub node d e :
  carried_as desired observed p nd pub → nd !! node = Some d → publication d = inl e →
  d = pa_default p ∧ assignment_identity d = None.
Proof.
  intros Hc Hd He. assert (assignment_identity d = None) as Hno by (unfold assignment_identity; by rewrite He).
  destruct (handed_reason _ _ _ _ _ _ _ Hc Hd) as [(i & _ & Hbody)|[(-> & _)|Hroll]]; [|done|].
  - apply body_identity in Hbody. congruence.
  - destruct (plan_parts _ _ _ _ _ _ _ (pl_rollout _ _ _ _ _ Hp)) as (_ & Hnd & _). rewrite Hnd in Hroll.
    pose proof (assign_nodes_sound (H2 := assignment_deployments) _ _ _ _ _ _ _ _ Hroll)
      as (_ & g & gr & state & id & _ & _ & _ & Hid & _).
    change (assignment_identity d = Some id) in Hid. congruence.
Qed.

End pass.

(** ** Every pass *)

Lemma reconcile_inventory c s : unique_names c →
  ∃ desired, desired_of c s = Some desired ∧ inventory_sound desired (dr_admitted s).
Proof. intros [Hg Ha]. destruct (desired_state_spec (cl_repository_name c) (cl_repository c) (cl_sets c)
  _ _ (cl_blocked c) (dr_admitted s) Hg Ha) as (desired & ? & ? & _). eauto. Qed.

Lemma reachable_accounted s : reachable s → accounted s.
Proof.
  induction 1 as [|s c attempts verified plan memory _ IH Hu Hr]; [by split|].
  unfold plan_once in Hr. destruct (reconcile_inventory c s Hu) as (desired & Hd & [Hsi _ _ _ _]).
  rewrite Hd in Hr. cbn [mbind option_bind] in Hr.
  apply reconciled_inv in Hr as (p & nd & pub & Hp & Hc & Hb & Hro & Ha & Had & _).
  eapply (planned_accounted desired (observed_state c s) _ _ p Hsi Hp nd pub plan); done.
Qed.

(** What can stop a generation, and what it says of the cluster. *)
Definition stops (c : Cluster) (s : DurableRolloutState) (e : PlanError) : Prop :=
  match e with
  | AmbiguousNode name _ =>
      ∃ agent g g', agent ∈ cl_agents c ∧ ua_name agent = name ∧ g ∈ cl_groups c ∧ g' ∈ cl_groups c
        ∧ ug_name g ≠ ug_name g' ∧ selector_matches (ug_selector g) (ua_labels agent) = true
        ∧ selector_matches (ug_selector g') (ua_labels agent) = true
  | InvalidDeployment _ =>
      ∀ d, deployment_try_from (rs_default_deployment (cl_repository c)) = inr d → assignment_identity d = None
  | RoutingLoss lost => lost ≠ [] ∧ ∀ node, node ∈ lost → is_Some (dr_routing s !! node)
  | InvalidPrefix | Serialize _ => True
  | _ => False
  end.

Lemma outcome_stops c s desired attempts verified e :
  accounted s → unique_names c →
  desired_of c s = Some desired →
  inventory_sound desired (dr_admitted s) →
  outcome desired (observed_state c s) attempts verified (inl e) → stops c s e.
Proof.
  intros [Hdom Hbody] [Hg _] Hd [Hsi Hgraph Hplan Hnd Hdns] Ho.
  destruct (desired_state_sources _ _ _ _ _ _ _ _ Hg Hd) as (Hrepo & Hgroups & Hnodes).
  inversion Ho as [e' He|e' He|e' He|p node group e' Hp Hn Hc|p lost Hp Hl Hlost|p nd pub e' Hp Hc Hb|]; subst.
  - exfalso. destruct (validate_spec (de_groups desired) (dom (de_quarantined desired))) as (v & Hv & Hvs).
    rewrite Hgraph in Hv. injection Hv as <-. by eapply error_refutes.
  - destruct e; cbn in He; try done.
    + destruct He as (g & Hin & _ & Hsel). destruct Hplan as [_ Hpl]. by destruct (Hpl g Hin).
    + destruct Hplan as [? _]. done.
    + destruct He as (g & Hin & Hname). destruct Hplan as [_ Hpl]. by destruct (Hpl g Hin).
    + destruct He as (node' & g & g' & Hin & <- & Hgi & Hgi' & Hs & Hs' & Hne).
      destruct (Hnodes node' Hin) as (agent & Hag & Hname & Hlab).
      destruct (Hgroups g Hgi) as (group & Hgr & Hres), (Hgroups g' Hgi') as (group' & Hgr' & Hres').
      exists agent, group, group'. unfold selects in Hs, Hs'.
      rewrite (resolved_group_selector _ _ Hres), Hlab in Hs. rewrite (resolved_group_selector _ _ Hres'), Hlab in Hs'.
      destruct (resolved_group_ok _ _ Hres) as [<- _], (resolved_group_ok _ _ Hres') as [<- _]. done.
    + destruct He as (node' & Hin & Hbad). rewrite Hdns in Hbad; done.
  - cbn. rewrite <-Hrepo, He. done.
  - exfalso. by apply (placement_known desired (observed_state c s) attempts verified p Hsi Hp node group e Hdom Hbody Hn).
  - split; [done|]. intros node Hin. by destruct (Hlost node Hin).
  - pose proof (build_publication_plan_ok (de_repository desired) pub nd) as Hok. rewrite Hb in Hok.
    destruct Hok as [->|[->|[(node & d & ce & Hd' & -> & Hpub)|(ce & ->)]]]; [done| |cbn|done].
    + exfalso. unfold build_publication_plan in Hb. destruct (negb _) in Hb; [done|].
      rewrite bool_decide_true in Hb by (apply bt_keys_ext, (carried_dom _ _ _ _ _ Hc)). cbn [negb] in Hb.
      pose proof (publish_nodes_ok (trim_matches "/" (rs_assignment_prefix (de_repository desired)))
        (bt_iter nd) [] _ (compiled_empty _) (bt_iter_keys _)) as Hpn. simpl in Hpn.
      destruct (publish_nodes _ _ _) as [[e''|c']|]; cbn in Hb; [|done|done]. injection Hb as ->.
      by destruct Hpn as [(? & ? & ? & _ & ? & _)|[? ?]].
    + destruct (unpublished_default _ _ _ _ p Hp nd pub node d ce Hc Hd' Hpub) as [-> Hno].
      rewrite <-Hrepo. rewrite (pl_default _ _ _ _ _ Hp). intros ? [= <-]. done.
Qed.

(** C27. The controller can always honour a hold.  In every durable state reached by any sequence
    of passes over any clusters and reports, whatever was lost in between, the routed and the
    assigned nodes are the same and every recorded assignment names a body the state still holds,
    so freezing a node on its recorded body never finds it forgotten. *)
Theorem recorded_assignments_resolve s :
  reachable s →
  dom (dr_routing s) = dom (dr_assignments s)
  ∧ ∀ node id, dr_assignments s !! node = Some id →
      ∃ d, bodies_by_identity (bt_values (dr_admitted s)) !! id = Some d ∧ assignment_identity d = Some id.
Proof.
  intros [Hdom Hbody]%reachable_accounted. split; [done|]. intros node id Hn.
  destruct (proj2 (bodies_of_map (dr_admitted s) id) (Hbody node id Hn)) as [d Hd].
  exists d. split; [done|]. by eapply body_identity.
Qed.

(** ** The whole decision *)

Context `{!Serde (string * string * JsonValue * ManagedRepositoryLimits)}.

(** Why a pass publishes nothing. *)
Definition explained (su : Surroundings) (c : Cluster) (s : DurableRolloutState) (attempts : ObservationLog)
    (verified : VerifiedReports) (desired : DesiredState) (e : PassError) : Prop :=
  let observed := observed_state c s in
  let fresh := verify_fleet (ob_reports observed) (ob_public_keys observed) in
  match e with
  | PRebaseline => su_active su = false ∧ dr_admitted s = ∅ ∧ su_published su = true
  | PPlan e => stops c s e
  | PPreflight e => ∃ plan p v, plan_once c s attempts verified = Some (inr plan, (p, v))
      ∧ ∃ fallback node_groups, preflight_stops desired observed plan (fresh v) fallback node_groups e
  | PPackages e => ∃ plan prepared p v v', plan_once c s attempts verified = Some (inr plan, (p, v))
      ∧ routes desired observed plan v = Some (inr prepared, v')
      ∧ packages (su_outside su) prepared = Some (inl e)
  end.

(** What a generation that is let through promises. *)
Definition let_through (su : Surroundings) (c : Cluster) (s : DurableRolloutState) (attempts : ObservationLog)
    (verified : VerifiedReports) (desired : DesiredState) (plan : ReconcilePlan) : Prop :=
  let observed := observed_state c s in
  ∃ p v fallback node_groups prepared,
    plan_once c s attempts verified = Some (inr plan, (p, v))
    ∧ resolve_node_groups (bt_values (de_groups desired)) (de_nodes desired) = inr node_groups
    ∧ deployment_try_from (rs_default_deployment (cl_repository c)) = inr fallback
    ∧ moves_soundly desired observed plan (verify_fleet (ob_reports observed) (ob_public_keys observed) v)
        fallback node_groups prepared
    ∧ ∀ q, q ∈ prepared → supplied (su_outside su) q.

(** The pass panics: the [expect] on a group some set rolls back whose deployment cannot be encoded,
    or the package check's index under two documents of one identity. *)
Definition panics (c : Cluster) (s : DurableRolloutState) (attempts : ObservationLog) (verified : VerifiedReports)
    (desired : DesiredState) : Prop :=
  (∃ plan memory group, plan_once c s attempts verified = Some (inr plan, memory)
     ∧ group ∈ governed_groups desired plan ∧ unencodable plan group)
  ∨ identity_clash.

Lemma plan_once_inr c s attempts verified plan memory desired :
  desired_of c s = Some desired → plan_once c s attempts verified = Some (inr plan, memory) →
  ∃ fallback node_groups,
    resolve_node_groups (bt_values (de_groups desired)) (de_nodes desired) = inr node_groups
    ∧ deployment_try_from (rs_default_deployment (de_repository desired)) = inr fallback
    ∧ ∀ node, node ∈ de_nodes desired → is_Some (node_groups !! rn_name node).
Proof.
  unfold plan_once. intros -> (p & nd & pub & Hp & _)%reconciled_inv.
  exists (pa_default p), (pa_node_groups p). split_and!; [apply Hp..|].
  destruct (routing_spec _ _ _ _ _ Hp) as (_ & _ & Hr & _). intros node Hin.
  destruct (Hr node Hin) as (selected & ? & _). by exists selected.
Qed.


End history.
