(* ===== verification/ShardStore.v ===== *)
(** * ShardStore: the double-buffered store of the controller's state

    Models the storage half of [updatec/src/runtime/admitted.rs]: an index object that names the
    active slot, and the shards of two slots, over a cluster API whose every call may fail before
    or after it took effect.  A process that dies is a call that fails: nothing after it runs.
    The API server hands every object a resource version, creates only what is absent, and
    replaces only the version it is shown.  Labels, owners and the namespace are not modelled. *)
From Stdlib Require Import Ascii.
From stdpp Require Import pretty.
From S2P Require Import Prelude Identity Maps Releases Dataflow Telemetry Window Rollout Assignment Groups Durable.

(** ** The cluster API *)

Record ConfigMap : Type := mkConfigMap {
  cm_data : option (BTreeMap string);
  cm_binary_data : option (BTreeMap string);
}.

Inductive fault : Type := Works | FailsBefore | FailsAfter.

Record ApiServer : Type := mkApiServer {
  as_objects : BTreeMap (N * ConfigMap);
  as_next : N;
  as_faults : list fault;
}.

Inductive IndexError : Type :=
| IFormat (format : N)
| ITooManyShards (count : N)
| IMaxShards (max_shards : N)
| IWidth
| INoRevision
| IEmptyActive.

Inductive StorageError : Type :=
| SUnavailable
| SConflict
| SNotFound
| SExists
| SNoIndex
| SUnreadableIndex
| SIndex (e : IndexError)
| SShardUnreadable (index : nat)
| SShardMetadata (key : string)
| SShardBytes
| SShardTooLarge (bytes : N)
| SRevision
| SDocument.

(** A call of the controller against the API. *)
Definition K (A : Type) : Type := ApiServer → (StorageError + A) * ApiServer.

#[export] Instance K_ret : MRet K := λ _ a c, (inr a, c).
#[export] Instance K_bind : MBind K := λ _ _ f m c,
  match m c with
  | (inr a, c) => f a c
  | (inl e, c) => (inl e, c)
  end.

Definition refuse {A} (e : StorageError) : K A := λ c, (inl e, c).

Definition lift_sum {E A} (wrap : E → StorageError) (r : E + A) : K A :=
  match r with inr a => mret a | inl e => refuse (wrap e) end.

(** [map_err], to one error. *)
Definition relabel {A} (e : StorageError) (m : K A) : K A := λ c,
  match m c with
  | (inl _, c) => (inl e, c)
  | r => r
  end.

Definition next_fault : K fault := λ c,
  match as_faults c with
  | [] => (inr Works, c)
  | f :: faults => (inr f, mkApiServer (as_objects c) (as_next c) faults)
  end.

Definition objects : K (BTreeMap (N * ConfigMap)) := λ c, (inr (as_objects c), c).

Definition get_opt (name : string) : K (option (N * ConfigMap)) :=
  f ← next_fault;
  match f with
  | Works => objs ← objects; mret (objs !! name)
  | _ => refuse SUnavailable
  end.

Definition get (name : string) : K (N * ConfigMap) :=
  o ← get_opt name;
  match o with Some x => mret x | None => refuse SNotFound end.

(** The object under a new version. *)
Definition put (name : string) (cm : ConfigMap) : K N := λ c,
  (inr (as_next c), mkApiServer (<[name := (as_next c, cm)]> (as_objects c)) (N.succ (as_next c)) (as_faults c)).

Definition drop_object (name : string) : K unit := λ c,
  (inr tt, mkApiServer (delete name (as_objects c)) (as_next c) (as_faults c)).

(** A change the API server may refuse, or lose the answer of. *)
Definition change {A} (admissible : BTreeMap (N * ConfigMap) → StorageError + unit) (effect : K A) : K A :=
  f ← next_fault;
  match f with
  | FailsBefore => refuse SUnavailable
  | _ =>
      objs ← objects;
      _ ← lift_sum id (admissible objs);
      a ← effect;
      match f with FailsAfter => refuse SUnavailable | _ => mret a end
  end.

Definition create (name : string) (cm : ConfigMap) : K N :=
  change (λ objs, demand (bool_decide (objs !! name = None)) SExists) (put name cm).

Definition replace (name : string) (resource_version : N) (cm : ConfigMap) : K N :=
  change (λ objs, match objs !! name with
                  | None => inl SNotFound
                  | Some (rv, _) => demand (bool_decide (rv = resource_version)) SConflict
                  end) (put name cm).

Definition delete_object (name : string) : K unit :=
  change (λ objs, demand (bool_decide (is_Some (objs !! name))) SNotFound) (drop_object name).

Fixpoint k_each {A} (f : A → K unit) (l : list A) : K unit :=
  match l with
  | [] => mret tt
  | x :: l => _ ← f x; k_each f l
  end.

(** ** The index *)

Inductive AdmittedStateSlot : Type := SlotA | SlotB.

#[export] Instance AdmittedStateSlot_eq_dec : EqDecision AdmittedStateSlot.
Proof. solve_decision. Defined.

Definition slot_other (s : AdmittedStateSlot) : AdmittedStateSlot :=
  match s with SlotA => SlotB | SlotB => SlotA end.

Definition slot_name (s : AdmittedStateSlot) : string :=
  match s with SlotA => "a" | SlotB => "b" end.

Record AdmittedStateIndex : Type := mkAdmittedStateIndex {
  ix_format : N;
  ix_active : option AdmittedStateSlot;
  ix_revision_sha256 : option string;
  ix_max_shards : N;
  ix_a_shards : N;
  ix_b_shards : N;
}.

Definition ADMITTED_STATE_FORMAT : N := 1.

Definition index_default : AdmittedStateIndex := mkAdmittedStateIndex ADMITTED_STATE_FORMAT None None 0 0 0.

Definition index_shards (i : AdmittedStateIndex) (s : AdmittedStateSlot) : N :=
  match s with SlotA => ix_a_shards i | SlotB => ix_b_shards i end.

Definition set_shards (i : AdmittedStateIndex) (s : AdmittedStateSlot) (shards : N) : AdmittedStateIndex :=
  match s with
  | SlotA => mkAdmittedStateIndex (ix_format i) (ix_active i) (ix_revision_sha256 i) (ix_max_shards i) shards (ix_b_shards i)
  | SlotB => mkAdmittedStateIndex (ix_format i) (ix_active i) (ix_revision_sha256 i) (ix_max_shards i) (ix_a_shards i) shards
  end.

(** [AdmittedStateIndex::validate] *)
Definition index_validate (i : AdmittedStateIndex) : IndexError + unit :=
  _ ← demand (ix_format i =? ADMITTED_STATE_FORMAT)%N (IFormat (ix_format i));
  _ ← each (λ count, demand (count <=? MAX_ADMITTED_STATE_SHARDS)%N (ITooManyShards count))
        [ix_a_shards i; ix_b_shards i];
  match ix_active i with
  | Some active =>
      _ ← demand ((1 <=? ix_max_shards i)%N && (ix_max_shards i <=? MAX_ADMITTED_STATE_SHARDS)%N)
            (IMaxShards (ix_max_shards i));
      _ ← demand (index_shards i active =? ix_max_shards i)%N IWidth;
      demand (option_some_and is_canonical_sha256 (ix_revision_sha256 i)) INoRevision
  | None =>
      demand (bool_decide (ix_revision_sha256 i = None) && (ix_max_shards i =? 0)%N) IEmptyActive
  end.

(** [index.to_string()], and the [02] width of a shard's name. *)
Definition pad2 (index : nat) : string :=
  let s := pretty index in
  if (String.length s <? 2)%nat then String "0"%char s else s.

Definition admitted_state_shard_name (base : string) (slot : AdmittedStateSlot) (index : nat) : string :=
  String.append base (String.append "-" (String.append (slot_name slot) (String.append "-" (pad2 index)))).

Section store.
Context `{!JsonValues} `{!Sha256} `{!Semver} `{!SemverOrder} `{!Urls} `{!AssignmentJson}.
Context `{!Base64} `{!DataflowJson}.
Context `{!Serde StoredDurableRolloutState} `{!Serde AdmittedStateIndex}.
Context (base : string).

(** An index as it was read or written, with its version. *)
Record AdmittedStateVersion : Type := mkAdmittedStateVersion {
  av_resource_version : N;
  av_index : AdmittedStateIndex;
}.

Definition index_map (bytes : string) : ConfigMap := mkConfigMap (Some {[ "index.json" := bytes ]}) None.

(** [write_admitted_state_index] *)
Definition write_admitted_state_index (index : AdmittedStateIndex) (resource_version : option N)
    : K AdmittedStateVersion :=
  _ ← lift_sum SIndex (index_validate index);
  bytes ← lift_sum id (ok_or (to_vec index) SUnreadableIndex);
  rv ← (match resource_version with
        | Some rv => replace base rv (index_map bytes)
        | None => create base (index_map bytes)
        end);
  mret (mkAdmittedStateVersion rv index).

(** [delete_admitted_state_shards]: a shard that is not there is deleted. *)
Definition delete_shard (slot : AdmittedStateSlot) (index : nat) : K unit := λ c,
  match delete_object (admitted_state_shard_name base slot index) c with
  | (inl SNotFound, c) => (inr tt, c)
  | r => r
  end.

Definition delete_admitted_state_shards (slot : AdmittedStateSlot) (start stop : nat) : K unit :=
  k_each (delete_shard slot) (seq start (stop - start)).

(** ** Shards *)

Definition shard_data (slot : AdmittedStateSlot) (index total : nat) (revision : string) : BTreeMap string :=
  <["format" := pretty ADMITTED_STATE_FORMAT]> (<["revisionSha256" := revision]>
  (<["slot" := slot_name slot]> (<["index" := pretty index]> {[ "total" := pretty total ]}))).

Definition shard_map (slot : AdmittedStateSlot) (index total : nat) (revision bytes : string) : ConfigMap :=
  mkConfigMap (Some (shard_data slot index total revision)) (Some {[ "state.bin" := bytes ]}).

(** [AdmittedStateProjection::write_shard] *)
Definition write_shard (slot : AdmittedStateSlot) (index total : nat) (revision bytes : string) : K unit :=
  _ ← lift_sum id (demand (str_len bytes <=? ADMITTED_STATE_SHARD_MAX_BYTES)%N (SShardTooLarge (str_len bytes)));
  let name := admitted_state_shard_name base slot index in
  current ← get_opt name;
  match current with
  | Some (rv, _) => _ ← replace name rv (shard_map slot index total revision bytes); mret tt
  | None => _ ← create name (shard_map slot index total revision bytes); mret tt
  end.

(** [validate_admitted_state_shard], with the bytes its caller then reads. *)
Definition validate_admitted_state_shard (shard : ConfigMap) (revision : string)
    (slot : AdmittedStateSlot) (index total : nat) : StorageError + string :=
  data ← ok_or (cm_data shard) (SShardMetadata "data");
  _ ← each (λ x : string * string, demand (bool_decide (data !! x.1 = Some x.2)) (SShardMetadata x.1))
        [("format", pretty ADMITTED_STATE_FORMAT); ("revisionSha256", revision);
         ("slot", slot_name slot); ("index", pretty index); ("total", pretty total)];
  bytes ← ok_or (binary ← cm_binary_data shard; binary !! "state.bin") SShardBytes;
  _ ← demand (str_len bytes <=? ADMITTED_STATE_SHARD_MAX_BYTES)%N (SShardTooLarge (str_len bytes));
  inr bytes.

Fixpoint read_shards (slot : AdmittedStateSlot) (revision : string) (total : nat) (l : list nat)
    (encoded : string) : K string :=
  match l with
  | [] => mret encoded
  | index :: l =>
      '(_, shard) ← relabel (SShardUnreadable index) (get (admitted_state_shard_name base slot index));
      bytes ← lift_sum id (validate_admitted_state_shard shard revision slot index total);
      read_shards slot revision total l (String.append encoded bytes)
  end.

(** ** Loading *)

Definition empty_state : DurableRolloutState := mkDurableRolloutState ∅ ∅ ∅ ∅.

Definition read_index (cm : ConfigMap) : StorageError + AdmittedStateIndex :=
  encoded ← ok_or (data ← cm_data cm; data !! "index.json") SNoIndex;
  index ← ok_or (from_slice encoded) SUnreadableIndex;
  _ ← map_err SIndex (index_validate index);
  inr index.

Definition stale_slots (i : AdmittedStateIndex) : list AdmittedStateSlot :=
  match ix_active i with Some active => [slot_other active] | None => [SlotA; SlotB] end.

(** The stale slots' shards are reclaimed; the flag says that the index must be written. *)
Fixpoint reclaim (slots : list AdmittedStateSlot) (index : AdmittedStateIndex) (cleaned : bool)
    : K (AdmittedStateIndex * bool) :=
  match slots with
  | [] => mret (index, cleaned)
  | slot :: slots =>
      let count := index_shards index slot in
      if (count =? 0)%N then reclaim slots index cleaned
      else
        _ ← delete_admitted_state_shards slot 0 (N.to_nat count);
        reclaim slots (set_shards index slot 0) true
  end.

Definition load_document (version : AdmittedStateVersion)
    : K (DurableRolloutState * option AdmittedStateVersion) :=
  match ix_active (av_index version) with
  | None => mret (empty_state, Some version)
  | Some active =>
      let total := N.to_nat (index_shards (av_index version) active) in
      revision ← lift_sum id (ok_or (ix_revision_sha256 (av_index version)) (SIndex INoRevision));
      encoded ← read_shards active revision total (seq 0 total) EmptyString;
      _ ← lift_sum id (demand (digests_match (sha256_bytes encoded) revision) SRevision);
      state ← lift_sum id (ok_or (decode_state encoded) SDocument);
      mret (state, Some version)
  end.

Definition load_admitted_state : K (DurableRolloutState * option AdmittedStateVersion) :=
  o ← get_opt base;
  match o with
  | None => mret (empty_state, None)
  | Some (rv, configmap) =>
      index ← lift_sum id (read_index configmap);
      '(index, cleaned) ← reclaim (stale_slots index) index false;
      version ← (if cleaned : bool then write_admitted_state_index index (Some rv)
                 else mret (mkAdmittedStateVersion rv index));
      load_document version
  end.

(** ** Storing *)

Definition slice (start stop : nat) (s : string) : string := String.substring start (stop - start) s.

Definition shard_bytes (encoded : string) (count index : nat) : string :=
  let len := String.length encoded in
  slice (len * index / count) (len * (index + 1) / count) encoded.

Definition write_shards (slot : AdmittedStateSlot) (count : nat) (revision encoded : string) : K unit :=
  k_each (λ index, write_shard slot index count revision (shard_bytes encoded count index)) (seq 0 count).

Definition activate (i : AdmittedStateIndex) (slot : AdmittedStateSlot) (revision : string) (max_shards : N)
    : AdmittedStateIndex :=
  mkAdmittedStateIndex (ix_format i) (Some slot) (Some revision) max_shards (ix_a_shards i) (ix_b_shards i).

(** [store_admitted_state] *)
Definition store_admitted_state (prepared : PreparedAdmittedState) (version : option AdmittedStateVersion)
    : K AdmittedStateVersion :=
  let old_index := default index_default (av_index <$> version) in
  let target := default SlotA (slot_other <$> ix_active old_index) in
  let shard_count := N.to_nat (pr_max_shards prepared) in
  let target_previous := N.to_nat (index_shards old_index target) in
  _ ← (if (shard_count <? target_previous)%nat
       then delete_admitted_state_shards target shard_count target_previous else mret tt);
  version ← write_admitted_state_index (set_shards old_index target (pr_max_shards prepared))
              (av_resource_version <$> version);
  _ ← write_shards target shard_count (pr_revision_sha256 prepared) (pr_encoded prepared);
  let old_active := ix_active (av_index version) in
  version ← write_admitted_state_index
              (activate (av_index version) target (pr_revision_sha256 prepared) (pr_max_shards prepared))
              (Some (av_resource_version version));
  match old_active with
  | None => mret version
  | Some old_active =>
      _ ← delete_admitted_state_shards old_active 0 (N.to_nat (index_shards (av_index version) old_active));
      write_admitted_state_index (set_shards (av_index version) old_active 0)
        (Some (av_resource_version version))
  end.

End store.
