(* ===== verification/ShardSafety.v ===== *)
(** * ShardSafety: the double-buffered store never loses or mixes a state

    The theorems about [ShardStore.v].  Whatever call fails, and whether or not it took effect,
    the cluster's objects still stand for the state that was recorded or for the one being
    stored, the next load reads exactly that state, and a writer holding an outdated index
    changes nothing. *)
From Stdlib Require Import Ascii.
From stdpp Require Import pretty.
From S2P Require Import Prelude Identity Maps Releases Dataflow Telemetry Window Rollout Assignment Groups.
From S2P Require Import Durable ShardStore.

(** ** Running a call *)

Section kwp.
Context (calm : bool).

(** [f] from these objects: [Q] of what it returns and leaves, [E] of what a failure leaves; a
    calm API never fails. *)
Definition kwp {A} (f : K A) (Q : A → BTreeMap (N * ConfigMap) → Prop)
    (E : BTreeMap (N * ConfigMap) → Prop) (objs : BTreeMap (N * ConfigMap)) : Prop :=
  ∀ c, as_objects c = objs → (calm = true → as_faults c = []) →
  match f c with
  | (inr a, c') => Q a (as_objects c') ∧ (calm = true → as_faults c' = [])
  | (inl _, c') => calm = false ∧ E (as_objects c')
  end.

Context {A B : Type}.
Implicit Types (objs : BTreeMap (N * ConfigMap)).

Lemma kwp_bind (f : K B) (k : B → K A) Q E objs :
  kwp f (λ b, kwp (k b) Q E) E objs → kwp (f ≫= k) Q E objs.
Proof.
  intros Hf c Hc Hcalm. specialize (Hf c Hc Hcalm). unfold mbind, K_bind.
  destruct (f c) as [[e|b] c']; [done|]. destruct Hf as [Hk Hcalm']. by apply Hk.
Qed.

Lemma kwp_ret (a : A) Q E objs : Q a objs → kwp (mret a) Q E objs.
Proof. intros HQ c <- Hcalm. done. Qed.

Lemma kwp_mono (f : K A) Q Q' E E' objs :
  kwp f Q E objs → (∀ a o, Q a o → Q' a o) → (∀ o, E o → E' o) → kwp f Q' E' objs.
Proof.
  intros Hf HQ HE c Hc Hcalm. specialize (Hf c Hc Hcalm). destruct (f c) as [[e|a] c']; naive_solver.
Qed.

Lemma kwp_lift {X} (wrap : X → StorageError) (r : X + A) a Q E objs :
  r = inr a → Q a objs → kwp (lift_sum wrap r) Q E objs.
Proof. intros -> HQ. by apply kwp_ret. Qed.

Lemma kwp_relabel e (f : K A) Q E objs : kwp f Q E objs → kwp (relabel e f) Q E objs.
Proof.
  intros Hf c Hc Hcalm. specialize (Hf c Hc Hcalm). unfold relabel. by destruct (f c) as [[?|?] c'].
Qed.

Lemma kwp_get_opt name Q E objs :
  Q (objs !! name) objs → (calm = false → E objs) → kwp (get_opt name) Q E objs.
Proof.
  intros HQ HE [o n fs] <- Hcalm. unfold get_opt, next_fault, mbind, K_bind. simpl in *.
  destruct calm; [by rewrite (Hcalm eq_refl)|]. destruct fs as [|[] fs]; simpl; naive_solver.
Qed.

(** A change that is admissible takes effect, fails before it or fails after it. *)
Lemma kwp_change adm (effect : K A) (ret : N → A) (g : N → BTreeMap (N * ConfigMap)) Q E objs :
  adm objs = inr tt →
  (∀ c, as_objects c = objs → ∃ c', effect c = (inr (ret (as_next c)), c')
     ∧ as_objects c' = g (as_next c) ∧ as_faults c' = as_faults c) →
  (∀ n, Q (ret n) (g n)) → (calm = false → E objs ∧ ∀ n, E (g n)) →
  kwp (change adm effect) Q E objs.
Proof.
  intros Hadm Heff HQ HE [o n fs] <- Hcalm. unfold change, next_fault, objects, mbind, K_bind. cbn in *.
  destruct calm.
  { rewrite (Hcalm eq_refl). cbn. rewrite Hadm. cbn.
    destruct (Heff (mkApiServer o n [])) as (c' & -> & Ho & Hf); [done|]. cbn. by rewrite Ho. }
  destruct (HE eq_refl) as [HE1 HE2]. destruct fs as [|[] fs]; cbn; rewrite ?Hadm; cbn.
  - destruct (Heff (mkApiServer o n [])) as (c' & -> & Ho & Hf); [done|]. cbn. by rewrite Ho.
  - destruct (Heff (mkApiServer o n fs)) as (c' & -> & Ho & _); [done|]. cbn. by rewrite Ho.
  - done.
  - destruct (Heff (mkApiServer o n fs)) as (c' & -> & Ho & _); [done|]. cbn. by rewrite Ho.
Qed.

End kwp.

Section ops.
Context (calm : bool).
Implicit Types (objs : BTreeMap (N * ConfigMap)).

Lemma kwp_put name adm cm Q E objs :
  adm objs = inr tt → (∀ rv, Q rv (<[name := (rv, cm)]> objs)) →
  (calm = false → E objs ∧ ∀ rv, E (<[name := (rv, cm)]> objs)) →
  kwp calm (change adm (put name cm)) Q E objs.
Proof.
  intros Hadm HQ HE. apply (kwp_change calm adm (put name cm) id (λ n, <[name := (n, cm)]> objs)); [done| |done|done].
  intros c <-. by eexists.
Qed.

Lemma kwp_create name cm Q E objs :
  objs !! name = None → (∀ rv, Q rv (<[name := (rv, cm)]> objs)) →
  (calm = false → E objs ∧ ∀ rv, E (<[name := (rv, cm)]> objs)) → kwp calm (create name cm) Q E objs.
Proof. intros Hn. apply kwp_put. by rewrite bool_decide_true. Qed.

Lemma kwp_replace name rv x cm Q E objs :
  objs !! name = Some (rv, x) → (∀ rv, Q rv (<[name := (rv, cm)]> objs)) →
  (calm = false → E objs ∧ ∀ rv, E (<[name := (rv, cm)]> objs)) → kwp calm (replace name rv cm) Q E objs.
Proof. intros Hn. apply kwp_put. by rewrite Hn, bool_decide_true. Qed.

Lemma kwp_delete_shard base slot k Q E objs :
  Q tt (delete (admitted_state_shard_name base slot k) objs) →
  (calm = false → E objs ∧ E (delete (admitted_state_shard_name base slot k) objs)) →
  kwp calm (delete_shard base slot k) Q E objs.
Proof.
  intros HQ HE. set (name := admitted_state_shard_name base slot k) in *.
  destruct (objs !! name) as [x|] eqn:Hn.
  - assert (kwp calm (delete_object name) Q E objs) as Hd.
    { apply (kwp_change calm _ (drop_object name) (λ _, tt) (λ _, delete name objs)).
      - by rewrite bool_decide_true by (rewrite Hn; by eexists).
      - intros c <-. by eexists.
      - done.
      - intros Hc. by destruct (HE Hc). }
    intros c Hc Hcalm. specialize (Hd c Hc Hcalm). unfold delete_shard. fold name.
    destruct (delete_object name c) as [[[] |[]] c'] eqn:Hr; try done.
    exfalso. revert Hr. unfold delete_object, change, next_fault, objects, mbind, K_bind. rewrite Hc.
    destruct (as_faults c) as [|[] fs]; cbn; rewrite ?bool_decide_true by (rewrite ?Hc, Hn; by eexists); cbn; try done.
    all: rewrite Hc, bool_decide_true by (rewrite Hn; by eexists); done.
  - assert (delete name objs = objs) as Hdel by by apply delete_id. rewrite Hdel in *.
    intros c Hc Hcalm. unfold delete_shard. fold name.
    unfold delete_object, change, next_fault, objects, mbind, K_bind.
    assert (bool_decide (is_Some (objs !! name)) = false) as Hno.
    { apply bool_decide_false. rewrite Hn. by intros [? ?]. }
    destruct calm.
    { rewrite (Hcalm eq_refl). cbn. rewrite Hc, Hno. cbn. by rewrite Hc, (Hcalm eq_refl). }
    destruct (HE eq_refl) as [HE1 _].
    destruct (as_faults c) as [|[] fs]; cbn; rewrite ?Hc, ?Hno; cbn; rewrite ?Hc; naive_solver.
Qed.

End ops.

(** ** Names *)

Lemma shard_name_base base slot k : admitted_state_shard_name base slot k ≠ base.
Proof.
  unfold admitted_state_shard_name. intros H. rewrite <-(append_empty_r base) in H at 2.
  by apply (inj (String.append _)) in H.
Qed.

Lemma shard_name_slot base s s' k k' :
  s ≠ s' → admitted_state_shard_name base s k ≠ admitted_state_shard_name base s' k'.
Proof.
  intros Hs H. unfold admitted_state_shard_name in H. apply (inj (String.append _)) in H.
  destruct s, s'; simpl in H; try done; by injection H.
Qed.

Lemma pad2_inj i j : (i < 64)%nat → (j < 64)%nat → pad2 i = pad2 j → i = j.
Proof.
  intros Hi Hj Heq. assert (NoDup (pad2 <$> seq 0 64)) as Hnd.
  { apply (bool_decide_unpack _). by vm_compute. }
  eapply NoDup_lookup; [exact Hnd| |]; rewrite list_lookup_fmap, lookup_seq_lt by lia; simpl; by rewrite ?Heq.
Qed.

Lemma shard_name_index base slot i j :
  (i < 64)%nat → (j < 64)%nat →
  admitted_state_shard_name base slot i = admitted_state_shard_name base slot j → i = j.
Proof.
  intros Hi Hj H. unfold admitted_state_shard_name in H. do 4 apply (inj (String.append _)) in H. by apply pad2_inj.
Qed.

(** ** Slices *)

Definition cat (parts : list string) : string := foldr String.append EmptyString parts.

Lemma cat_app a b : cat (a ++ b) = String.append (cat a) (cat b).
Proof. induction a as [|x a IH]; simpl; [done|]. by rewrite IH, <-append_assoc. Qed.

Lemma substring_length s : ∀ n m,
  (n + m <= String.length s)%nat → String.length (String.substring n m s) = m.
Proof.
  induction s as [|c s IH]; intros [|n] [|m] Hl; simpl in *; first [done|lia|idtac].
  - f_equal. apply IH. simpl. lia.
  - apply IH. lia.
  - apply IH. lia.
Qed.

Lemma substring_0 s : ∀ n, String.substring n 0 s = EmptyString.
Proof. induction s as [|c s IH]; intros [|n]; simpl; auto. Qed.

Lemma substring_split s : ∀ a b, (a + b <= String.length s)%nat →
  String.append (String.substring 0 a s) (String.substring a b s) = String.substring 0 (a + b) s.
Proof.
  induction s as [|c s IH]; intros [|a] b Hl; simpl in *; first [done|lia|idtac].
  f_equal. apply IH. lia.
Qed.

Lemma substring_full s : String.substring 0 (String.length s) s = s.
Proof. induction s as [|c s IH]; simpl; [done|]. by rewrite IH. Qed.

Section slices.
Context (encoded : string) (count : nat) (Hcount : (0 < count)%nat).
Let len := String.length encoded.
Let cut (k : nat) : nat := (len * k / count)%nat.

Lemma cut_mono k : (cut k <= cut (k + 1))%nat.
Proof. unfold cut. apply Nat.Div0.div_le_mono. nia. Qed.

Lemma cut_bound k : (k <= count)%nat → (cut k <= len)%nat.
Proof. intros Hk. unfold cut. apply Nat.Div0.div_le_upper_bound. nia. Qed.

Lemma shard_bytes_cat k : (k <= count)%nat →
  cat (shard_bytes encoded count <$> seq 0 k) = String.substring 0 (cut k) encoded.
Proof.
  induction k as [|k IH]; intros Hk.
  { unfold cut. rewrite Nat.mul_0_r, Nat.Div0.div_0_l. by rewrite substring_0. }
  rewrite seq_S, fmap_app, cat_app, IH by lia. simpl. rewrite append_empty_r. unfold shard_bytes, slice.
  fold len. fold (cut k). fold (cut (k + 1)). pose proof (cut_mono k). pose proof (cut_bound (k + 1)).
  rewrite substring_split by (fold len; lia). f_equal. replace (S k) with (k + 1)%nat by lia. lia.
Qed.

Lemma shard_bytes_all : cat (shard_bytes encoded count <$> seq 0 count) = encoded.
Proof.
  rewrite shard_bytes_cat by done. unfold cut. rewrite Nat.div_mul by lia. apply substring_full.
Qed.

Lemma shard_bytes_length k max : (k < count)%nat → (len <= count * max)%nat →
  (String.length (shard_bytes encoded count k) <= max)%nat.
Proof.
  intros Hk Hl. unfold shard_bytes, slice. fold len. fold (cut k). fold (cut (k + 1)).
  pose proof (cut_mono k). pose proof (cut_bound (k + 1)).
  rewrite substring_length by (fold len; lia). unfold cut.
  assert ((len * (k + 1)) / count <= (len * k + max * count) / count)%nat as Hle
    by (apply Nat.Div0.div_le_mono; nia).
  rewrite Nat.div_add in Hle by lia. lia.
Qed.

End slices.

(** ** What the objects stand for *)

Section safety.
Context `{!JsonValues} `{!Sha256} `{!Semver} `{!SemverOrder} `{!Urls} `{!AssignmentJson}.
Context `{!Base64} `{!DataflowJson}.
Context `{!Serde StoredDurableRolloutState} `{!Serde AdmittedStateIndex}.
Context (base : string).
(** Serialising an index, a struct of numbers and strings, does not fail. *)
Context (index_serialises : ∀ i : AdmittedStateIndex, is_Some (to_vec i)).
Implicit Types (objs : BTreeMap (N * ConfigMap)) (s : DurableRolloutState).

Abbreviation shard_name := (admitted_state_shard_name base).

(** The slot's shards spell a document of the state. *)
Definition slot_holds objs (slot : AdmittedStateSlot) (revision : string) (total : nat) s : Prop :=
  ∃ parts : list string, length parts = total
    ∧ (∀ k part, parts !! k = Some part → ∃ rv cm, objs !! shard_name slot k = Some (rv, cm)
         ∧ validate_admitted_state_shard cm revision slot k total = inr part)
    ∧ digests_match (sha256_bytes (cat parts)) revision = true ∧ decode_state (cat parts) = Some s.

Definition document objs (i : AdmittedStateIndex) s : Prop :=
  match ix_active i with
  | None => s = empty_state
  | Some slot => ∃ revision, ix_revision_sha256 i = Some revision
                   ∧ slot_holds objs slot revision (N.to_nat (index_shards i slot)) s
  end.

(** The state the objects stand for. *)
Definition recorded objs s : Prop :=
  match objs !! base with
  | None => s = empty_state
  | Some (_, cm) => ∃ i, read_index cm = inr i ∧ document objs i s
  end.

(** The version is the index's current one. *)
Definition current objs (version : option AdmittedStateVersion) : Prop :=
  match version with
  | None => objs !! base = None
  | Some v => ∃ cm, objs !! base = Some (av_resource_version v, cm) ∧ read_index cm = inr (av_index v)
  end.

(** ** Frames *)

Lemma slot_holds_frame objs objs' slot revision total s :
  (∀ k, objs' !! shard_name slot k = objs !! shard_name slot k) →
  slot_holds objs slot revision total s → slot_holds objs' slot revision total s.
Proof.
  intros Hf (parts & Hl & Hp & ?). exists parts. split_and!; [done| |naive_solver..].
  intros k part Hk. rewrite Hf. by apply Hp.
Qed.

(** The inactive slot does not matter. *)
Lemma document_frame objs objs' i s slot :
  (∀ active, ix_active i = Some active → active ≠ slot) →
  (∀ n, (∀ k, n ≠ shard_name slot k) → n ≠ base → objs' !! n = objs !! n) →
  document objs i s → document objs' i s.
Proof.
  intros Hne Hf. unfold document. destruct (ix_active i) as [active|]; [|done].
  intros (revision & Hr & Hs). exists revision. split; [done|]. eapply slot_holds_frame; [|done].
  intros k. apply Hf; [|apply shard_name_base]. intros k'. apply shard_name_slot. by apply Hne.
Qed.

Lemma document_index objs i i' s :
  ix_active i' = ix_active i → ix_revision_sha256 i' = ix_revision_sha256 i →
  (∀ slot, ix_active i = Some slot → index_shards i' slot = index_shards i slot) →
  document objs i s → document objs i' s.
Proof.
  intros Ha Hr Hs. unfold document. rewrite Ha, Hr. destruct (ix_active i) as [slot|]; [|done]. by rewrite Hs.
Qed.

Lemma recorded_current objs v s :
  current objs (Some v) → recorded objs s → document objs (av_index v) s.
Proof.
  intros (cm & Hb & Hi). unfold recorded. rewrite Hb. intros (i & Hi' & ?). congruence.
Qed.

Lemma recorded_write objs rv cm i s :
  read_index cm = inr i → document objs i s → recorded (<[base := (rv, cm)]> objs) s.
Proof.
  intros Hi Hd. unfold recorded. rewrite lookup_insert_eq. exists i. split; [done|].
  unfold document in *. destruct (ix_active i) as [slot|]; [|done]. destruct Hd as (revision & ? & Hs).
  exists revision. split; [done|]. eapply slot_holds_frame; [|done]. intros k.
  rewrite lookup_insert_ne; [done|]. apply not_eq_sym, shard_name_base.
Qed.

Lemma document_of_written objs rv cm i s :
  document (<[base := (rv, cm)]> objs) i s → document objs i s.
Proof.
  unfold document. destruct (ix_active i) as [slot|]; [|done]. intros (revision & ? & Hs).
  exists revision. split; [done|]. eapply slot_holds_frame; [|done]. intros k.
  rewrite lookup_insert_ne; [done|]. apply not_eq_sym, shard_name_base.
Qed.

(** ** The index *)

Lemma read_index_written i bytes :
  index_validate i = inr tt → to_vec i = Some bytes → read_index (index_map bytes) = inr i.
Proof.
  intros Hv Hb. unfold read_index, index_map. cbn [cm_data]. cbn [mbind option_bind]. rewrite lookup_singleton_eq. cbn. rewrite (serde_roundtrip _ _ Hb). cbn. by rewrite Hv.
Qed.

Lemma index_validate_iff i :
  index_validate i = inr tt ↔
  ix_format i = ADMITTED_STATE_FORMAT ∧ (∀ slot, (index_shards i slot <= MAX_ADMITTED_STATE_SHARDS)%N)
  ∧ match ix_active i with
    | Some slot => (1 <= index_shards i slot)%N ∧ ix_max_shards i = index_shards i slot
                   ∧ ∃ r, ix_revision_sha256 i = Some r ∧ is_canonical_sha256 r = true
    | None => ix_revision_sha256 i = None ∧ ix_max_shards i = 0%N
    end.
Proof.
  unfold index_validate. split.
  - intros Hv. sum_inv. rename select (∀ x, x ∈ [ix_a_shards i; ix_b_shards i] → _) into Hall.
    pose proof (Hall (ix_a_shards i) ltac:(set_solver)) as Ha. pose proof (Hall (ix_b_shards i) ltac:(set_solver)) as Hb.
    apply demand_inr in Ha, Hb. apply N.leb_le in Ha, Hb. rename select ((ix_format i =? _)%N = true) into Hf.
    apply N.eqb_eq in Hf. split_and!; [done|by intros []|].
    destruct (ix_active i) as [slot|]; sum_inv; bool_to_prop.
    + rename select ((index_shards i slot =? _)%N = true) into Hw. apply N.eqb_eq in Hw.
      rename select ((1 <=? _)%N = true) into H1'. apply N.leb_le in H1'. split_and!; [lia|done|].
      destruct (ix_revision_sha256 i) as [r|]; simpl in *; [by exists r|done].
    + rename select ((ix_max_shards i =? 0)%N = true) into Hw. by apply N.eqb_eq in Hw.
  - intros (Hf & Hs & Ha). rewrite Hf. cbn [mbind sum_bind demand N.eqb].
    assert (each (λ count, demand (count <=? MAX_ADMITTED_STATE_SHARDS)%N (ITooManyShards count))
              [ix_a_shards i; ix_b_shards i] = inr tt) as He.
    { pose proof (Hs SlotA) as H1'. pose proof (Hs SlotB) as H2'. cbn in H1', H2'. apply N.leb_le in H1', H2'.
      cbn [each]. by rewrite H1', H2'. }
    rewrite N.eqb_refl. cbn [mbind sum_bind demand]. rewrite He. cbn [mbind sum_bind].
    destruct (ix_active i) as [slot|].
    + destruct Ha as (H1' & Hm & r & Hr & Hc). pose proof (Hs slot) as H2'. rewrite Hm.
      rewrite (proj2 (N.leb_le _ _) H1'), (proj2 (N.leb_le _ _) H2'), N.eqb_refl, Hr. cbn. by rewrite Hc.
    + destruct Ha as [-> ->]. done.
Qed.

Lemma read_index_valid cm i : read_index cm = inr i → index_validate i = inr tt.
Proof.
  unfold read_index. intros Hr. sum_inv. rename select (index_validate _ = _) into Hv.
  by destruct (index_validate i) as [|[]].
Qed.

(** ** The calls *)

Section calls.
Context (calm : bool).

Lemma kwp_delete_shards slot start stop (Φ : BTreeMap (N * ConfigMap) → Prop) objs :
  (∀ o k, Φ o → Φ (delete (shard_name slot k) o)) → Φ objs →
  kwp calm (delete_admitted_state_shards base slot start stop) (λ _, Φ) Φ objs.
Proof.
  intros Hstep. unfold delete_admitted_state_shards. revert objs.
  induction (seq start (stop - start)) as [|k l IH]; intros objs Hobjs; cbn [k_each]; [by apply kwp_ret|].
  apply kwp_bind, kwp_delete_shard; [by apply IH, Hstep|]. intros _. auto.
Qed.

Lemma kwp_write_index i rv Q E objs :
  index_validate i = inr tt →
  match rv with Some rv => ∃ cm, objs !! base = Some (rv, cm) | None => objs !! base = None end →
  (∀ rv cm, read_index cm = inr i → Q (mkAdmittedStateVersion rv i) (<[base := (rv, cm)]> objs)) →
  (calm = false → E objs ∧ ∀ rv cm, read_index cm = inr i → E (<[base := (rv, cm)]> objs)) →
  kwp calm (write_admitted_state_index base i rv) Q E objs.
Proof.
  intros Hv Hrv HQ HE. unfold write_admitted_state_index. apply kwp_bind, (kwp_lift calm _ _ tt); [done|].
  destruct (index_serialises i) as [bytes Hb]. pose proof (read_index_written i bytes Hv Hb) as Hr.
  apply kwp_bind, (kwp_lift calm _ _ bytes); [by rewrite Hb|]. apply kwp_bind.
  destruct rv as [rv|]; [destruct Hrv as [x Hx]; eapply kwp_replace; [done| |]|apply kwp_create; [done| |]].
  all: try (intros rv'; apply kwp_ret; by apply HQ).
  all: intros Hc; destruct (HE Hc) as [? HE2]; split; [done|]; intros rv'; by apply HE2.
Qed.

Lemma kwp_write_shard slot k total revision bytes Q E objs :
  (str_len bytes <= ADMITTED_STATE_SHARD_MAX_BYTES)%N →
  (∀ rv, Q tt (<[shard_name slot k := (rv, shard_map slot k total revision bytes)]> objs)) →
  E objs → (∀ rv, E (<[shard_name slot k := (rv, shard_map slot k total revision bytes)]> objs)) →
  kwp calm (write_shard base slot k total revision bytes) Q E objs.
Proof.
  intros Hl HQ HE1 HE2. unfold write_shard. apply kwp_bind, (kwp_lift calm _ _ tt).
  { apply N.leb_le in Hl. by rewrite Hl. }
  apply kwp_bind, kwp_get_opt; [|done]. destruct (objs !! shard_name slot k) as [[rv x]|] eqn:Hx; apply kwp_bind.
  - eapply kwp_replace; [done| |done]. intros rv'. by apply kwp_ret.
  - apply kwp_create; [done| |done]. intros rv'. by apply kwp_ret.
Qed.

(** The first [k] shards of the document are in the slot, and nothing else changed. *)
Definition written objs0 (slot : AdmittedStateSlot) (count : nat) (revision encoded : string) (k : nat) objs : Prop :=
  (∀ n, (∀ j, n ≠ shard_name slot j) → objs !! n = objs0 !! n)
  ∧ ∀ j, (j < k)%nat → ∃ rv, objs !! shard_name slot j
      = Some (rv, shard_map slot j count revision (shard_bytes encoded count j)).

Lemma written_step objs0 slot count revision encoded k objs rv :
  (count <= 64)%nat → (k < count)%nat → written objs0 slot count revision encoded k objs →
  written objs0 slot count revision encoded (k + 1)
    (<[shard_name slot k := (rv, shard_map slot k count revision (shard_bytes encoded count k))]> objs).
Proof.
  intros Hc Hk [Hf Hw]. split.
  - intros n Hn. rewrite lookup_insert_ne by (apply not_eq_sym, Hn). by apply Hf.
  - intros j Hj. destruct (decide (j = k)) as [->|Hne]; [rewrite lookup_insert_eq; by eexists|].
    rewrite lookup_insert_ne; [apply Hw; lia|]. intros Heq%shard_name_index; lia.
Qed.

Lemma kwp_write_shards objs slot count revision encoded :
  (0 < count <= 64)%nat → (str_len encoded <= N.of_nat count * ADMITTED_STATE_SHARD_MAX_BYTES)%N →
  kwp calm (write_shards base slot count revision encoded)
    (λ _, written objs slot count revision encoded count)
    (written objs slot count revision encoded 0) objs.
Proof.
  intros Hc Hl. unfold write_shards.
  assert (∀ n k o, (k + n = count)%nat → written objs slot count revision encoded k o →
    kwp calm (k_each (λ index, write_shard base slot index count revision (shard_bytes encoded count index)) (seq k n))
      (λ _, written objs slot count revision encoded count) (written objs slot count revision encoded 0) o) as Hk.
  { induction n as [|n IH]; intros k o Hkn Hw; cbn [seq k_each].
    { apply kwp_ret. assert (k = count) as <- by lia. exact Hw. }
    assert (∀ k' o', written objs slot count revision encoded k' o' → written objs slot count revision encoded 0 o')
      as Hweak by (intros k' o' [? _]; split; [done|lia]).
    pose proof (λ rv, written_step objs slot count revision encoded k o rv ltac:(lia) ltac:(lia) Hw) as Hstep.
    apply kwp_bind, kwp_write_shard.
    - rewrite str_len_length in Hl |- *. pose proof (shard_bytes_length encoded count ltac:(lia) k
        (N.to_nat ADMITTED_STATE_SHARD_MAX_BYTES) ltac:(lia)). lia.
    - intros rv. apply IH; [lia|]. replace (S k) with (k + 1)%nat by lia. apply Hstep.
    - eapply Hweak, Hw.
    - intros rv. eapply Hweak, Hstep. }
  apply Hk; [lia|]. split; [done|lia].
Qed.

Lemma validate_shard_map slot k total revision bytes :
  (str_len bytes <= ADMITTED_STATE_SHARD_MAX_BYTES)%N →
  validate_admitted_state_shard (shard_map slot k total revision bytes) revision slot k total = inr bytes.
Proof.
  intros Hl%N.leb_le. unfold validate_admitted_state_shard, shard_map. cbn [cm_data cm_binary_data ok_or mbind sum_bind].
  assert (each (λ x : string * string, demand (bool_decide (shard_data slot k total revision !! x.1 = Some x.2))
      (SShardMetadata x.1))
    [("format", pretty ADMITTED_STATE_FORMAT); ("revisionSha256", revision); ("slot", slot_name slot);
     ("index", pretty k); ("total", pretty total)] = inr tt) as ->.
  { apply each_inr. unfold shard_data. intros x Hx. apply demand_inr, bool_decide_eq_true.
    repeat (apply elem_of_cons in Hx as [->|Hx]; [cbn [fst snd]; by simplify_map_eq|]).
    by apply not_elem_of_nil in Hx. }
  cbn [mbind sum_bind option_bind]. rewrite lookup_singleton_eq. cbn [ok_or mbind sum_bind]. by rewrite Hl.
Qed.

(** A slot written whole holds the document. *)
Lemma written_holds objs0 objs slot count revision encoded s :
  (0 < count)%nat → (str_len encoded <= N.of_nat count * ADMITTED_STATE_SHARD_MAX_BYTES)%N →
  revision = sha256_bytes encoded → decode_state encoded = Some s →
  written objs0 slot count revision encoded count objs → slot_holds objs slot revision count s.
Proof.
  intros Hc Hl Hr Hd [_ Hw]. exists (shard_bytes encoded count <$> seq 0 count).
  rewrite length_fmap, length_seq, shard_bytes_all by lia. split_and!; [done| | |done].
  - intros k part Hk. rewrite list_lookup_fmap in Hk. destruct (seq 0 count !! k) as [j|] eqn:Hj; [|done].
    apply lookup_seq in Hj as [-> Hj]. cbn in Hk. injection Hk as <-. destruct (Hw k Hj) as [rv Ho].
    exists rv. eexists. split; [done|]. apply validate_shard_map. rewrite str_len_length in Hl |- *.
    pose proof (shard_bytes_length encoded count ltac:(lia) k (N.to_nat ADMITTED_STATE_SHARD_MAX_BYTES) Hj). lia.
  - rewrite Hr. unfold digests_match. by rewrite sha256_canonical, bool_decide_true.
Qed.

(** *** Loading *)

Lemma kwp_read_shards objs slot revision total parts :
  length parts = total →
  (∀ k part, parts !! k = Some part → ∃ rv cm, objs !! shard_name slot k = Some (rv, cm)
     ∧ validate_admitted_state_shard cm revision slot k total = inr part) →
  ∀ n k acc, (k + n = total)%nat →
  kwp calm (read_shards base slot revision total (seq k n) acc)
    (λ r o, r = String.append acc (cat (drop k parts)) ∧ o = objs) (λ o, o = objs) objs.
Proof.
  intros Hl Hp. induction n as [|n IH]; intros k acc Hk; cbn [seq read_shards].
  { apply kwp_ret. split; [|done]. rewrite drop_ge by lia. by rewrite append_empty_r. }
  destruct (lookup_lt_is_Some_2 parts k) as [part Hpart]; [lia|]. destruct (Hp k part Hpart) as (rv & cm & Ho & Hv).
  apply kwp_bind, kwp_relabel. unfold get. apply kwp_bind, kwp_get_opt; [|done]. rewrite Ho. apply kwp_ret.
  apply kwp_bind, (kwp_lift calm _ _ part); [done|].
  eapply kwp_mono; [apply IH; lia| |done]. intros r o [-> ->]. split; [|done].
  rewrite (drop_S _ _ _ Hpart). cbn [cat foldr]. by rewrite <-append_assoc.
Qed.

Lemma kwp_load_document objs v s :
  current objs (Some v) → document objs (av_index v) s →
  kwp calm (load_document base v) (λ r o, r = (s, Some v) ∧ o = objs) (λ o, o = objs) objs.
Proof.
  intros (cm & _ & Hi) Hd. apply read_index_valid, index_validate_iff in Hi as (_ & _ & Ha).
  unfold load_document, document in *. destruct (ix_active (av_index v)) as [active|].
  2:{ apply kwp_ret. by rewrite Hd. }
  destruct Hd as (revision & Hr & parts & Hl & Hp & Hdig & Hdec). rewrite Hr.
  apply kwp_bind, (kwp_lift calm _ _ revision); [done|].
  apply kwp_bind. eapply kwp_mono; [by apply (kwp_read_shards _ _ _ _ parts Hl Hp)| |done].
  intros r o [-> ->]. cbn [String.append]. rewrite drop_0.
  apply kwp_bind, (kwp_lift calm _ _ tt); [by rewrite Hdig|].
  apply kwp_bind, (kwp_lift calm _ _ s); [by rewrite Hdec|]. by apply kwp_ret.
Qed.

(** The index names the same document. *)
Record same_document (i i' : AdmittedStateIndex) : Prop := {
  sm_valid : index_validate i' = inr tt;
  sm_active : ix_active i' = ix_active i;
  sm_revision : ix_revision_sha256 i' = ix_revision_sha256 i;
  sm_shards : ∀ slot, ix_active i = Some slot → index_shards i' slot = index_shards i slot;
}.

Lemma same_document_document objs i i' s : same_document i i' → document objs i s → document objs i' s.
Proof. intros [_ ? ? ?]. by apply document_index. Qed.

Lemma index_shards_set i slot n slot' :
  index_shards (set_shards i slot n) slot' = if decide (slot' = slot) then n else index_shards i slot'.
Proof. by destruct slot, slot'. Qed.

Lemma set_shards_keeps i slot n :
  ix_active (set_shards i slot n) = ix_active i ∧ ix_revision_sha256 (set_shards i slot n) = ix_revision_sha256 i
  ∧ ix_format (set_shards i slot n) = ix_format i ∧ ix_max_shards (set_shards i slot n) = ix_max_shards i.
Proof. by destruct slot. Qed.

Lemma same_document_set i i' slot n :
  same_document i i' → ix_active i ≠ Some slot → (n <= MAX_ADMITTED_STATE_SHARDS)%N →
  same_document i (set_shards i' slot n).
Proof.
  intros [Hv Ha Hr Hs] Hne Hn. destruct (set_shards_keeps i' slot n) as (Ha' & Hr' & Hf' & Hm').
  split; rewrite ?Ha', ?Hr'; try done.
  - apply index_validate_iff in Hv as (Hf & Hle & Hact). apply index_validate_iff.
    rewrite Hf', Ha', Hm', Hr'. split_and!; [done| |].
    + intros slot'. rewrite index_shards_set. by destruct (decide _).
    + destruct (ix_active i') as [active|]; [|done]. rewrite index_shards_set, decide_False by congruence. done.
  - intros active Hact. rewrite index_shards_set, decide_False by congruence. auto.
Qed.

Lemma kwp_reclaim objs0 i0 s slots : ∀ index cleaned objs,
  (∀ slot, slot ∈ slots → ix_active i0 ≠ Some slot) → same_document i0 index →
  objs !! base = objs0 !! base → document objs i0 s →
  kwp calm (reclaim base slots index cleaned)
    (λ r o, same_document i0 r.1 ∧ (r.2 = false → cleaned = false ∧ r.1 = index)
            ∧ o !! base = objs0 !! base ∧ document o i0 s)
    (λ o, o !! base = objs0 !! base ∧ document o i0 s) objs.
Proof.
  induction slots as [|slot slots IH]; intros index cleaned objs Hne Hsame Hb Hd; cbn [reclaim].
  { by apply kwp_ret. }
  assert (∀ slot', slot' ∈ slots → ix_active i0 ≠ Some slot') as Hne' by (intros; apply Hne; by constructor).
  destruct (_ =? 0)%N; [by apply IH|].
  apply kwp_bind. eapply kwp_mono.
  - apply (kwp_delete_shards slot _ _ (λ o, o !! base = objs0 !! base ∧ document o i0 s)); [|done].
    intros o k [Hob Hod]. split.
    + rewrite lookup_delete_ne; [done|apply shard_name_base].
    + eapply (document_frame o _ _ _ slot); [|intros n Hn _; by rewrite lookup_delete_ne by (apply not_eq_sym, Hn)|done].
      intros active Ha ->. by apply (Hne slot); [constructor|].
  - intros [] o [Hob Hod]. eapply kwp_mono; [apply IH| |done]; try done.
    + apply same_document_set; [done|apply Hne; constructor|done].
    + intros [i' cl] o' (? & Hcl & ? & ?). split_and!; try done. intros H'. by destruct (Hcl H').
  - done.
Qed.

Lemma stale_not_active i slot : slot ∈ stale_slots i → ix_active i ≠ Some slot.
Proof.
  unfold stale_slots. destruct (ix_active i) as [[]|]; [| |done]; intros Hin%list_elem_of_singleton; subst; done.
Qed.

Lemma same_document_refl i : index_validate i = inr tt → same_document i i.
Proof. done. Qed.

(** A load reads the recorded state, or fails and leaves it recorded. *)
Lemma kwp_load objs s :
  recorded objs s →
  kwp calm (load_admitted_state base)
    (λ r o, r.1 = s ∧ recorded o s ∧ current o r.2) (λ o, recorded o s) objs.
Proof.
  intros Hrec. unfold load_admitted_state. apply kwp_bind, kwp_get_opt; [|done].
  pose proof Hrec as Hrec'. unfold recorded in Hrec'. destruct (objs !! base) as [[rv cm]|] eqn:Hb.
  2:{ apply kwp_ret. cbn. by subst s. }
  destruct Hrec' as (i0 & Hi & Hd). pose proof (read_index_valid cm i0 Hi) as Hv.
  apply kwp_bind, (kwp_lift calm _ _ i0); [done|]. apply kwp_bind.
  assert (∀ o, o !! base = objs !! base ∧ document o i0 s → recorded o s) as Hkeep.
  { intros o [Hob Hod]. unfold recorded. rewrite Hob, Hb. by exists i0. }
  eapply kwp_mono; [apply (kwp_reclaim objs i0 s); try done; apply stale_not_active| |exact Hkeep].
  intros [i' cleaned] o (Hsame & Hcl & Hob & Hod). cbn [fst snd] in *. apply kwp_bind.
  pose proof (same_document_document _ _ _ _ Hsame Hod) as Hd'.
  assert (∀ v o', current o' (Some v) → document o' (av_index v) s → recorded o' s →
    kwp calm (load_document base v) (λ r o, r.1 = s ∧ recorded o s ∧ current o r.2) (λ o, recorded o s) o') as Hdoc.
  { intros v o' Hcur Hdo Hreco. eapply kwp_mono; [by apply kwp_load_document| |].
    - intros r o2 [-> ->]. done.
    - by intros o2 ->. }
  destruct cleaned.
  - apply kwp_write_index.
    + apply Hsame.
    + exists cm. by rewrite Hob.
    + intros rv' cm' Hcm'. apply Hdoc.
      * exists cm'. by rewrite lookup_insert_eq.
      * cbn. assert (recorded (<[base := (rv', cm')]> o) s) as Hr by by eapply recorded_write.
        unfold recorded in Hr. rewrite lookup_insert_eq in Hr. destruct Hr as (? & ? & ?). congruence.
      * by eapply recorded_write.
    + intros _. split; [by apply Hkeep|]. intros rv' cm' ?. by eapply recorded_write.
  - apply kwp_ret. destruct (Hcl eq_refl) as [_ ->]. apply Hdoc.
    + exists cm. cbn. by rewrite Hob.
    + done.
    + by apply Hkeep.
Qed.

(** *** Storing *)

Lemma activate_valid i target revision max_shards :
  index_validate i = inr tt → index_shards i target = max_shards → (1 <= max_shards)%N →
  is_canonical_sha256 revision = true → index_validate (activate i target revision max_shards) = inr tt.
Proof.
  intros (Hf & Hs & _)%index_validate_iff Ht Hm Hr. apply index_validate_iff. unfold activate.
  cbn [ix_format ix_active ix_revision_sha256 ix_max_shards].
  assert (∀ slot, index_shards (mkAdmittedStateIndex (ix_format i) (Some target) (Some revision) max_shards
    (ix_a_shards i) (ix_b_shards i)) slot = index_shards i slot) as Heq by by intros [].
  rewrite Heq, Ht. split_and!; [done|intros slot; by rewrite Heq|done|done|by exists revision].
Qed.

Section storing.
Context (s s' : DurableRolloutState) (prepared : PreparedAdmittedState).
Context (Hprep : prepare_admitted_state s' (pr_max_shards prepared) = inr prepared).
Context (Hwidth : shard_limit (pr_max_shards prepared) = Some (pr_max_shards prepared)).
Let count := N.to_nat (pr_max_shards prepared).

Lemma width_bounds : (1 <= pr_max_shards prepared <= MAX_ADMITTED_STATE_SHARDS)%N.
Proof.
  unfold shard_limit in Hwidth. destruct (_ && _) eqn:Hb; [|done]. apply andb_true_iff in Hb as [H1' H2'].
  apply N.leb_le in H1', H2'. done.
Qed.

Definition either objs : Prop := recorded objs s ∨ recorded objs s'.

(** The last step: the old slot is reclaimed. *)
Lemma kwp_retire old_active v objs :
  current objs (Some v) → document objs (av_index v) s' →
  ix_active (av_index v) ≠ Some old_active →
  kwp calm (_ ← delete_admitted_state_shards base old_active 0 (N.to_nat (index_shards (av_index v) old_active));
            write_admitted_state_index base (set_shards (av_index v) old_active 0) (Some (av_resource_version v)))
    (λ v' o, recorded o s' ∧ current o (Some v')) (λ o, recorded o s') objs.
Proof.
  intros (cm & Hb & Hi) Hd Hne. pose proof (read_index_valid _ _ Hi) as Hv.
  assert (∀ o, o !! base = objs !! base ∧ document o (av_index v) s' → recorded o s') as Hkeep.
  { intros o [Hob Hod]. unfold recorded. rewrite Hob, Hb. by exists (av_index v). }
  pose proof (same_document_set (av_index v) (av_index v) old_active 0 (same_document_refl _ Hv) Hne ltac:(done)) as Hsame.
  apply kwp_bind. eapply kwp_mono.
  - apply (kwp_delete_shards old_active _ _ (λ o, o !! base = objs !! base ∧ document o (av_index v) s')); [|done].
    intros o k [Hob Hod]. split; [rewrite lookup_delete_ne; [done|apply shard_name_base]|].
    eapply (document_frame o _ _ _ old_active); [intros active Ha ->; by rewrite Ha in Hne
      |intros n Hn _; by rewrite lookup_delete_ne by (apply not_eq_sym, Hn)|done].
  - intros [] o [Hob Hod]. pose proof (same_document_document _ _ _ _ Hsame Hod) as Hd'. apply kwp_write_index.
    + apply Hsame.
    + exists cm. by rewrite Hob.
    + intros rv cm' Hcm. split; [by eapply recorded_write|]. exists cm'. by rewrite lookup_insert_eq.
    + intros _. split; [by apply Hkeep|]. intros rv cm' Hcm. by eapply recorded_write.
  - exact Hkeep.
Qed.

Definition old_index (version : option AdmittedStateVersion) : AdmittedStateIndex :=
  default index_default (av_index <$> version).

Definition target_slot (version : option AdmittedStateVersion) : AdmittedStateSlot :=
  default SlotA (slot_other <$> ix_active (old_index version)).

Lemma target_inactive version : ix_active (old_index version) ≠ Some (target_slot version).
Proof. unfold target_slot. by destruct (ix_active (old_index version)) as [[]|]. Qed.

(** The state before the pointer moves: the index is the old one or its allocation. *)
Lemma before_recorded objs version o :
  current objs version → o !! base = objs !! base → document o (old_index version) s → recorded o s.
Proof.
  intros Hcur Hob Hod. unfold recorded. rewrite Hob. destruct version as [v|]; cbn in *.
  - destruct Hcur as (cm & -> & Hi). by exists (av_index v).
  - by rewrite Hcur.
Qed.

Lemma old_document objs version :
  recorded objs s → current objs version →
  index_validate (old_index version) = inr tt ∧ document objs (old_index version) s.
Proof.
  intros Hrec Hcur. destruct version as [v|]; cbn.
  - split; [|by apply recorded_current]. destruct Hcur as (cm & _ & Hi). by eapply read_index_valid.
  - cbn in Hcur. unfold recorded in Hrec. rewrite Hcur in Hrec. split; [done|]. exact Hrec.
Qed.

(** The shards of the inactive slot do not change the state. *)
Lemma inactive_document i slot o o' :
  ix_active i ≠ Some slot → (∀ n, (∀ j, n ≠ shard_name slot j) → o' !! n = o !! n) →
  document o i s → document o' i s.
Proof.
  intros Hne Hf. eapply (document_frame o _ _ _ slot); [|intros n Hn _; by apply Hf].
  intros active Ha ->. by rewrite Ha in Hne.
Qed.

(** From the allocated index: the shards, the pointer, the old slot. *)
Lemma kwp_fill i v objs :
  let target := target_slot (Some v) in
  current objs (Some v) → av_index v = i → document objs i s →
  index_shards i target = pr_max_shards prepared →
  kwp calm
    (_ ← write_shards base target count (pr_revision_sha256 prepared) (pr_encoded prepared);
     let old_active := ix_active i in
     version ← write_admitted_state_index base
       (activate i target (pr_revision_sha256 prepared) (pr_max_shards prepared)) (Some (av_resource_version v));
     match old_active with
     | None => mret version
     | Some old_active =>
         _ ← delete_admitted_state_shards base old_active 0 (N.to_nat (index_shards (av_index version) old_active));
         write_admitted_state_index base (set_shards (av_index version) old_active 0)
           (Some (av_resource_version version))
     end)
    (λ v' o, recorded o s' ∧ current o (Some v')) either objs.
Proof.
  intros target (cm & Hb & Hi) Hvi Hd Hshards. pose proof width_bounds as Hw.
  destruct (prepared_decodes _ _ _ Hprep) as (Hdec & _ & Hrev & _ & Hlen).
  pose proof (read_index_valid _ _ Hi) as Hval. rewrite Hvi in Hi, Hval.
  assert (ix_active i ≠ Some target) as Hne by (rewrite <-Hvi; apply (target_inactive (Some v))).
  assert (∀ k o, written objs target count (pr_revision_sha256 prepared) (pr_encoded prepared) k o →
    o !! base = objs !! base ∧ recorded o s) as Hkeep.
  { intros k o [Hf _]. assert (o !! base = objs !! base) as Hob.
    { apply Hf. intros j. apply not_eq_sym, shard_name_base. }
    split; [done|]. unfold recorded. rewrite Hob, Hb. exists i. split; [done|].
    by eapply (inactive_document _ target objs). }
  apply kwp_bind. eapply kwp_mono.
  { apply kwp_write_shards; unfold count; [unfold MAX_ADMITTED_STATE_SHARDS in Hw; lia|by rewrite N2Nat.id]. }
  2:{ intros o Ho. left. by destruct (Hkeep _ _ Ho). }
  intros [] o Ho. destruct (Hkeep _ _ Ho) as [Hob Hreco]. cbv zeta. apply kwp_bind.
  set (i2 := activate i target (pr_revision_sha256 prepared) (pr_max_shards prepared)).
  assert (document o i2 s') as Hd2.
  { cbn. eexists. split; [done|].
    replace (N.to_nat _) with count by (unfold count; rewrite <-Hshards; by destruct target).
    eapply written_holds; [| |exact Hrev|exact Hdec|exact Ho]; unfold count; [lia|by rewrite N2Nat.id]. }
  apply kwp_write_index.
  - apply activate_valid; [done|done|lia|]. rewrite Hrev. apply sha256_canonical.
  - exists cm. by rewrite Hob.
  - intros rv' cm' Hcm'. set (o2 := <[base := (rv', cm')]> o).
    assert (recorded o2 s') as Hr2 by by eapply recorded_write.
    assert (current o2 (Some (mkAdmittedStateVersion rv' i2))) as Hc2 by (exists cm'; cbn; unfold o2; by rewrite lookup_insert_eq).
    destruct (ix_active i) as [old_active|]; [|by apply kwp_ret].
    eapply kwp_mono; [apply kwp_retire|done|by right].
    + done.
    + by apply (recorded_current o2 (mkAdmittedStateVersion rv' i2)).
    + cbn. intros [= ->]. done.
  - intros _. split; [by left|]. intros rv' cm' Hcm'. right. by eapply recorded_write.
Qed.

Lemma kwp_store version objs :
  recorded objs s → current objs version →
  kwp calm (store_admitted_state base prepared version)
    (λ v o, recorded o s' ∧ current o (Some v)) either objs.
Proof.
  intros Hrec Hcur. destruct (old_document _ _ Hrec Hcur) as [Hval Hd]. pose proof width_bounds as Hw.
  unfold store_admitted_state. fold (old_index version). fold (target_slot version). fold count.
  pose proof (target_inactive version) as Hne. set (target := target_slot version) in *.
  set (i1 := set_shards (old_index version) target (pr_max_shards prepared)).
  assert (same_document (old_index version) i1) as Hsame
    by (apply same_document_set; [by apply same_document_refl|done|lia]).
  apply kwp_bind. apply (kwp_mono calm _ (λ _ o, o !! base = objs !! base ∧ document o (old_index version) s) _
    (λ o, o !! base = objs !! base ∧ document o (old_index version) s)).
  - destruct (_ <? _)%nat; [|by apply kwp_ret]. apply kwp_delete_shards; [|done]. intros o k [Hob Hod].
    split; [rewrite lookup_delete_ne; [done|apply shard_name_base]|].
    eapply (inactive_document _ target o); [done| |done]. intros n Hn. by rewrite lookup_delete_ne by (apply not_eq_sym, Hn).
  - intros [] o [Hob Hod]. apply kwp_bind. pose proof (same_document_document _ _ _ _ Hsame Hod) as Hd1.
    apply kwp_write_index.
    + apply Hsame.
    + destruct version as [v|]; cbn in *; [destruct Hcur as (cm & Hb & _); exists cm|]; by rewrite Hob.
    + intros rv cm Hcm. cbn [av_index av_resource_version]. set (o1 := <[base := (rv, cm)]> o).
      set (v1 := mkAdmittedStateVersion rv i1).
      assert (target_slot (Some v1) = target) as Ht.
      { unfold target_slot. cbn. by rewrite (sm_active _ _ Hsame). }
      pose proof (kwp_fill i1 v1 o1) as Hfill. cbv zeta in Hfill. rewrite Ht in Hfill. apply Hfill.
      * exists cm. cbn. unfold o1. by rewrite lookup_insert_eq.
      * done.
      * apply (recorded_current o1 v1); [exists cm; cbn; unfold o1; by rewrite lookup_insert_eq|].
        by eapply recorded_write.
      * unfold i1. by rewrite index_shards_set, decide_True.
    + intros _. split; [left; by eapply before_recorded|]. intros rv cm Hcm. left. by eapply recorded_write.
  - intros o [Hob Hod]. left. by eapply before_recorded.
Qed.

End storing.

End calls.

(** A failure of any kind leaves nothing but the objects. *)
Definition restarted (c : ApiServer) : ApiServer := mkApiServer (as_objects c) (as_next c) [].

(** C10. Storing the rollout state is atomic.  Start from objects that stand for a state [s] and
    store another: whichever calls fail, before or after taking effect, the objects left behind
    load, on an API that answers, to [s] or to the new state, to the new one if the store reported
    success, and again to a version a next store may build on.  A store whose every call is
    answered succeeds. *)
Theorem stored_state_survives_any_failure s s' prepared version c :
  prepare_admitted_state s' (pr_max_shards prepared) = inr prepared →
  shard_limit (pr_max_shards prepared) = Some (pr_max_shards prepared) →
  recorded (as_objects c) s → current (as_objects c) version →
  let '(r, c1) := store_admitted_state base prepared version c in
  ∃ s1 v c2, load_admitted_state base (restarted c1) = (inr (s1, v), c2)
    ∧ recorded (as_objects c2) s1 ∧ current (as_objects c2) v
    ∧ (s1 = s ∨ s1 = s') ∧ (∀ v', r = inr v' → s1 = s')
    ∧ (as_faults c = [] → ∃ v', r = inr v').
Proof.
  intros Hprep Hwidth Hrec Hcur.
  pose proof (kwp_store (bool_decide (as_faults c = [])) s s' prepared Hprep Hwidth version _ Hrec Hcur c eq_refl) as Hst.
  destruct (store_admitted_state base prepared version c) as [r c1].
  assert (∃ s1, recorded (as_objects c1) s1 ∧ (s1 = s ∨ s1 = s') ∧ (∀ v', r = inr v' → s1 = s')
    ∧ (as_faults c = [] → ∃ v', r = inr v')) as (s1 & Hrec1 & ? & ? & ?).
  { ospecialize (Hst _); [by intros ?%bool_decide_eq_true|]. destruct r as [e|v].
    - destruct Hst as [Hcalm He]. apply bool_decide_eq_false in Hcalm.
      destruct He as [He|He]; [exists s|exists s']; split_and!; auto; done.
    - destruct Hst as [[? _] _]. exists s'. split_and!; [done|by right|done|by exists v]. }
  pose proof (kwp_load true (as_objects c1) s1 Hrec1 (restarted c1) eq_refl (λ _, eq_refl)) as Hld.
  destruct (load_admitted_state base (restarted c1)) as [[e|[s2 v]] c2]; [by destruct Hld|].
  destruct Hld as [(Heq & ? & ?) _]. cbn in Heq. subst s2. by exists s1, v, c2.
Qed.

(** A load tells the truth: from objects that stand for [s], under any failures, it returns
    [s] with the index version that is current, or fails; either way the objects still stand for
    [s], whatever it reclaimed. *)
Lemma load_reads_the_recorded_state s c :
  recorded (as_objects c) s →
  let '(r, c1) := load_admitted_state base c in
  recorded (as_objects c1) s
  ∧ match r with inr (s1, v) => s1 = s ∧ current (as_objects c1) v | inl _ => as_faults c ≠ [] end.
Proof.
  intros Hrec.
  pose proof (kwp_load (bool_decide (as_faults c = [])) (as_objects c) s Hrec c eq_refl) as Hld.
  ospecialize (Hld _); [by intros ?%bool_decide_eq_true|].
  destruct (load_admitted_state base c) as [[e|[s1 v]] c1].
  - destruct Hld as [Hcalm ?]. by apply bool_decide_eq_false in Hcalm.
  - destruct Hld as [(? & ? & ?) _]. done.
Qed.

Lemma stale_write i version c :
  (∀ cm, as_objects c !! base ≠ (λ v, (av_resource_version v, cm)) <$> version) →
  ∃ e c1, write_admitted_state_index base i (av_resource_version <$> version) c = (inl e, c1)
    ∧ as_objects c1 = as_objects c.
Proof.
  intros Hstale. unfold write_admitted_state_index, lift_sum, mbind, K_bind.
  destruct (index_validate i) as [e|u]; cbn; [by eexists _, _|].
  destruct (index_serialises i) as [bytes Hb]. rewrite Hb. cbn.
  destruct version as [v|]; cbn in *.
  - unfold replace, change, next_fault, objects, mbind, K_bind, lift_sum.
    assert (∃ e, match as_objects c !! base with
      | Some (rv, _) => demand (bool_decide (rv = av_resource_version v)) SConflict
      | None => inl SNotFound end = inl e) as [e He].
    { destruct (as_objects c !! base) as [[rv cm]|] eqn:Ho; [|by eexists].
      rewrite bool_decide_false; [by eexists|]. intros ->. by apply (Hstale cm). }
    destruct (as_faults c) as [|[] fs]; cbn; rewrite ?He; cbn; by eexists _, _.
  - unfold create, change, next_fault, objects, mbind, K_bind, lift_sum.
    assert (bool_decide (as_objects c !! base = None) = false) as He
      by (apply bool_decide_false, (Hstale (mkConfigMap None None))).
    destruct (as_faults c) as [|[] fs]; cbn; rewrite ?He; cbn; by eexists _, _.
Qed.

(** A writer that lost the race changes nothing: with a version of the index that is not the
    current one, a store fails before it touches any object. *)
Lemma stale_writer_changes_nothing prepared version c :
  (forall cm, as_objects c !! base ≠ (λ v, (av_resource_version v, cm)) <$> version) →
  (index_shards (old_index version) (target_slot version) <= pr_max_shards prepared)%N →
  let '(r, c1) := store_admitted_state base prepared version c in
  (∃ e, r = inl e) ∧ as_objects c1 = as_objects c.
Proof.
  intros Hstale Hle. unfold store_admitted_state. fold (old_index version). fold (target_slot version).
  assert ((N.to_nat (pr_max_shards prepared) <? N.to_nat (index_shards (old_index version) (target_slot version)))%nat
    = false) as -> by (apply Nat.ltb_ge; lia).
  destruct (stale_write (set_shards (old_index version) (target_slot version) (pr_max_shards prepared)) version c Hstale)
    as (e & c1 & Hw & Ho).
  assert (∀ A B (f : A → K B) (m : K A), m c = (inl e, c1) → (m ≫= f) c = (inl e, c1)) as Hbind.
  { intros A B f m Hm. unfold mbind, K_bind. by rewrite Hm. }
  assert (∀ A (f : unit → K A), (mret tt ≫= f) c = f tt c) as Hret by done.
  rewrite Hret, (Hbind _ _ _ _ Hw). split; [by eexists|done].
Qed.

End safety.
