(* ===== verification/Commit.v ===== *)
(** * Commit: publishing a planned generation, and recovering one that was cut short

    Models [PublicationTransaction::commit] of [updatec/src/runtime/reconcile.rs] with the marker,
    expiry and rollback checks of [runtime/publish.rs], the signing keys of [runtime/status.rs],
    [updatec/src/publisher.rs] and the recovery journal of [runtime/admitted.rs].  A site is every
    store one pass touches, each with its own turns: the repository directory, the state directory,
    the public and the private object stores, the lease, the secrets and the API server's
    configuration maps.  A process that dies is a run whose later calls all fail. *)
From S2P Require Import Prelude Identity Maps Releases Dataflow Telemetry Window Rollout Assignment Groups.
From S2P Require Import Publication Inputs Inventory Durable ShardStore Shared Lease Publish Authoring Enroll InputData.

#[local] Open Scope N_scope.

(** ** Sites *)

(** A Secret is the data it may carry. *)
Abbreviation SecretData := (option (BTreeMap string)).

Record site : Type := mkSite {
  si_repo : cluster string;
  si_state : cluster string;
  si_store : cluster string;
  si_private : cluster Stored;
  si_lease : cluster Lease;
  si_secrets : cluster SecretData;
  si_api : ApiServer;
}.

Definition At (T : Type) : Type := site → T * site.

#[export] Instance At_ret : MRet At := λ _ t σ, (t, σ).
#[export] Instance At_bind : MBind At := λ _ _ f m σ, let '(t, σ) := m σ in f t σ.

Inductive CommitError : Type :=
| CInputs (e : InputDataError)
| CDigest
| CLocal (what : string)
| CPartial
| CMarker
| CPublish (e : PublishError)
| CEmptyState
| CRollback (local published : N)
| CKube (e : ApiError)
| CNoSecretData
| CKeySet (e : RepoError)
| CKeyChanged (name : string)
| CRepo (e : RepoError)
| CLeaseLost
| CNoGeneration
| CJournalTooLarge
| CJournal
| CCutoff
| CState (e : StorageError)
| CDurable (e : DurableError).

(** [let x = m?; k] *)
Definition at_try {A B} (m : At (CommitError + A)) (k : A → At (CommitError + B)) : At (CommitError + B) :=
  r ← m; match r with inr a => k a | inl e => mret (inl e) end.

Notation "x '←!' m ; k" := (at_try m (λ x, k))
  (at level 20, m at level 100, k at level 200, only parsing) : updatedc_scope.
Notation "' p '←!' m ; k" := (at_try m (λ x, match x with p => k end))
  (at level 20, p pattern, m at level 100, k at level 200, only parsing) : updatedc_scope.

Definition pure {T} (r : CommitError + T) : At (CommitError + T) := mret r.

(** A program against one part of the site. *)
Definition on_repo {T} (m : Sh string T) : At T := λ σ,
  let '(t, c) := m (si_repo σ) in
  (t, mkSite c (si_state σ) (si_store σ) (si_private σ) (si_lease σ) (si_secrets σ) (si_api σ)).
Definition on_state {T} (m : Sh string T) : At T := λ σ,
  let '(t, c) := m (si_state σ) in
  (t, mkSite (si_repo σ) c (si_store σ) (si_private σ) (si_lease σ) (si_secrets σ) (si_api σ)).
Definition on_store {T} (m : Sh string T) : At T := λ σ,
  let '(t, c) := m (si_store σ) in
  (t, mkSite (si_repo σ) (si_state σ) c (si_private σ) (si_lease σ) (si_secrets σ) (si_api σ)).
Definition on_private {T} (m : Sh Stored T) : At T := λ σ,
  let '(t, c) := m (si_private σ) in
  (t, mkSite (si_repo σ) (si_state σ) (si_store σ) c (si_lease σ) (si_secrets σ) (si_api σ)).
Definition on_lease {T} (m : Sh Lease T) : At T := λ σ,
  let '(t, c) := m (si_lease σ) in
  (t, mkSite (si_repo σ) (si_state σ) (si_store σ) (si_private σ) c (si_secrets σ) (si_api σ)).
Definition on_secrets {T} (m : Sh SecretData T) : At T := λ σ,
  let '(t, c) := m (si_secrets σ) in
  (t, mkSite (si_repo σ) (si_state σ) (si_store σ) (si_private σ) (si_lease σ) c (si_api σ)).
Definition on_api {T} (m : K T) : At (StorageError + T) := λ σ,
  let '(t, c) := m (si_api σ) in
  (t, mkSite (si_repo σ) (si_state σ) (si_store σ) (si_private σ) (si_lease σ) (si_secrets σ) c).

(** [map_err] on what a part answered. *)
Definition or_else {E T} (wrap : E → CommitError) (m : At (E + T)) : At (CommitError + T) := r ← m; mret (map_err wrap r).

(** ** Local files *)

Definition PUBLISHED_GENERATION_FILE : string := "published-generation.json".
Definition PENDING_STATE_FILE : string := "pending-state.json".
Definition PUBLICATION_MARKER_MAX_BYTES : N := 512.
Definition PENDING_STATE_MAX_BYTES : N := MAX_ADMITTED_STATE_SHARDS * ADMITTED_STATE_SHARD_MAX_BYTES + 64 * 1024.

(** [read_local_bounded]: the bytes, absence, or a failure. *)
Definition read_file (path : string) (limit : N) : Sh string (ApiError + string) :=
  r ← Shared.get path;
  mret ('(_, bytes) ← r; _ ← demand (str_len bytes <=? limit) EUnavailable; inr bytes).

(** [atomic_write], which replaces the file or leaves it. *)
Definition write_file (path bytes : string) : Sh string (ApiError + N) := overwrite path bytes.

(** [tokio::fs::remove_file] *)
Definition remove_file (path : string) : Sh string (ApiError + N) :=
  Shared.change (λ s, demand (bool_decide (sh_objects s !! path ≠ None)) ENotFound) (Shared.drop_object path).

(** [path_entry_exists] *)
Definition path_entry_exists (path : string) : Sh string (ApiError + bool) :=
  read (λ s, inr (bool_decide (is_Some (sh_objects s !! path)))).

(** ** Markers *)

Record PublicationMarker : Type := mkPublicationMarker {
  pm_plan_sha256 : string;
  pm_root_sha256 : string;
  pm_timestamp_sha256 : string;
}.

#[export] Instance PublicationMarker_eq_dec : EqDecision PublicationMarker.
Proof. solve_decision. Defined.

(** [PublicationMarker::validate] *)
Definition marker_validate (m : PublicationMarker) : CommitError + unit :=
  demand (forallb is_canonical_sha256 [pm_plan_sha256 m; pm_root_sha256 m; pm_timestamp_sha256 m]) CMarker.

(** chrono's reading of a timestamp. *)
Class Rfc3339 : Type := { parse_from_rfc3339 : string → option Z }.

Definition METADATA_EXPIRY_DAYS : Z := 365.
Definition METADATA_RENEWAL_DAYS : Z := 90.
Definition days (n : Z) : Z := micros (n * 24 * 3600)%Z.

Inductive TufRole : Type := TufRoot | TufOnline.

#[export] Instance TufRole_eq_dec : EqDecision TufRole.
Proof. solve_decision. Defined.

(** chrono's first instant. *)
Definition DATETIME_MIN : Z := (-8334601228800000000)%Z.

(** [private_object_retirement_cutoff] *)
Definition private_object_retirement_cutoff (now : Z) : CommitError + Z :=
  let cutoff := (now - micros (Z.of_N PRIVATE_OBJECT_RETIREMENT_GRACE))%Z in
  _ ← demand (DATETIME_MIN <=? cutoff)%Z CCutoff; inr cutoff.

Definition publication_required (content_unchanged : bool) (renewals : list TufRole) : bool :=
  negb content_unchanged || negb (bool_decide (renewals = [])).

Section commit.
Context `{!JsonValues} `{!JsonPointers} `{!Sha256} `{!ObjectPaths} `{!ToughOps} `{!Rfc3339}.
Context `{!Semver} `{!SemverOrder} `{!Urls} `{!AssignmentJson} `{!Base64} `{!Hmac} `{!DataflowJson}.
Context `{!Serde StoredDurableRolloutState} `{!Serde AdmittedStateIndex}.

Record PendingPublication : Type := mkPendingPublication {
  pe_marker : PublicationMarker;
  pe_version : N;
  pe_state : StoredDurableRolloutState;
}.

Context `{!Serde PublicationMarker} `{!Serde PendingPublication}.

Definition marker_to_bounded_json (m : PublicationMarker) : CommitError + string :=
  _ ← marker_validate m;
  encoded ← ok_or (to_vec m) CMarker;
  _ ← demand (str_len encoded <=? PUBLICATION_MARKER_MAX_BYTES) CMarker;
  inr encoded.

Definition optional_marker_file_sha256 (path : string) : At (CommitError + (option string)) :=
  r ← on_repo (read_file path LOCAL_TUF_METADATA_MAX_BYTES);
  mret (match r with
        | inr bytes => inr (Some (sha256_bytes bytes))
        | inl ENotFound => inr None
        | inl _ => inl (CLocal path)
        end).

(** [publication_marker] *)
Definition publication_marker (digest : string) : At (CommitError + (option PublicationMarker)) :=
  _ ←! pure (demand (is_canonical_sha256 digest) CDigest);
  root ←! optional_marker_file_sha256 ROOT;
  timestamp ←! optional_marker_file_sha256 TIMESTAMP;
  pure (match root, timestamp with
        | None, None => inr None
        | Some root_sha256, Some timestamp_sha256 =>
            let marker := mkPublicationMarker digest root_sha256 timestamp_sha256 in
            _ ← marker_validate marker; inr (Some marker)
        | _, _ => inl CPartial
        end).

Definition read_publication_marker : At (CommitError + (option PublicationMarker)) :=
  r ← on_state (read_file PUBLISHED_GENERATION_FILE PUBLICATION_MARKER_MAX_BYTES);
  mret (match r with
        | inl ENotFound => inr None
        | inl _ => inl (CLocal PUBLISHED_GENERATION_FILE)
        | inr bytes =>
            marker ← ok_or (from_slice bytes) CMarker;
            _ ← marker_validate marker;
            inr (Some marker)
        end).

(** ** Freshness *)

Definition expires_of (bytes : string) : option Z :=
  document ← json_from_str bytes;
  expires ← json_pointer document "/signed/expires";
  text ← json_as_str expires;
  parse_from_rfc3339 text.

(** [metadata_expiry] *)
Definition metadata_expiry (path : string) : At (option Z) :=
  r ← on_repo (read_file path LOCAL_TUF_METADATA_MAX_BYTES);
  mret (bytes ← ok_of r; expires_of bytes).

Definition expiring_one (now : Z) (role : TufRole) (path : string) : At (list TufRole) :=
  expires ← metadata_expiry path;
  mret (match expires with
        | Some e => if (e <=? now + days METADATA_RENEWAL_DAYS)%Z then [role] else []
        | None => []
        end).

Definition expiring_metadata (now : Z) : At (list TufRole) :=
  root ← expiring_one now TufRoot ROOT;
  online ← expiring_one now TufOnline TIMESTAMP;
  mret (root ++ online).

(** ** Guards and keys *)

Section publisher.
Context (prefix : string).

(** [refuse_generation_rollback] *)
Definition refuse_generation_rollback : At (CommitError + unit) :=
  published ←! or_else CPublish (on_store (store_published_version prefix));
  match published with
  | None => mret (inr tt)
  | Some published =>
      initialized ←! or_else (λ _, CLocal ROOT) (on_repo (path_entry_exists ROOT));
      _ ←! pure (demand initialized CEmptyState);
      local ←! or_else CRepo (on_repo current_version);
      pure (demand (published <=? local) (CRollback local published))
  end.

Definition key_path (name : string) : string := String.append "keys/" name.

(** One key file: written once, and never changed in place. *)
Definition materialize_key (key : string * string) : Sh string (CommitError + unit) :=
  let '(name, bytes) := key in
  there ←? (r ← path_entry_exists (key_path name); mret (map_err (λ _, CLocal name) r));
  if there : bool then
    existing ←? (r ← read_file (key_path name) (str_len bytes); mret (map_err (λ _, CLocal name) r));
    lift (demand (bool_decide (existing = bytes)) (CKeyChanged name))
  else
    r ← write_file (key_path name) bytes;
    mret (_ ← map_err (λ _, CLocal name) r; inr tt).

Fixpoint collect_material (data : BTreeMap string) (names : list string) : CommitError + list (string * string) :=
  match names with
  | [] => inr []
  | name :: names =>
      bytes ← ok_or (data !! name) (CKeySet (RMissingSlot name));
      rest ← collect_material data names;
      inr ((name, bytes) :: rest)
  end.

(** [materialize_signing_keys] *)
Definition materialize_signing_keys (secret : SecretData) : At (CommitError + unit) :=
  data ←! pure (ok_or secret CNoSecretData);
  _ ←! pure (map_err CKeySet (validate_complete_signing_key_set (bt_iter data)));
  material ←! pure (collect_material data KEY_FILE_NAMES);
  on_state (sh_each materialize_key material).

(** The key directory as the authoring code finds it. *)
Definition keyring_of (files : Files) : Keyring := λ name, Some <$> files !! key_path name.

Definition key_dir : At Keyring := on_state (peek (λ s, keyring_of (contents s))).

(** ** Signing and uploading *)

Definition release_target (t : PublicationTarget) : PublishTarget := mkPublishTarget (pt_path t) (pt_bytes t) ∅.

(** [sign_plan] *)
Definition sign_plan (keyring : Keyring) (plan : PublicationPlan) (expiry_days : Z) : At (CommitError + unit) :=
  _ ←! or_else CRepo (on_repo (aside "creating publication staging directory"));
  _ ←! or_else CRepo (on_repo (sh_each (λ _, aside "staging a target") (pp_targets plan)));
  keys ←! pure (map_err CRepo (keys_in_dir keyring));
  or_else CRepo (on_repo (replace_release keyring keys (release_target <$> pp_targets plan) expiry_days)).

(** [renew_expiring_root]: the renewals that are left, and why the root was not renewed. *)
Definition renew_expiring_root (keyring : Keyring) (renewals : list TufRole) : At (list TufRole * option RepoError) :=
  if bool_decide (TufRoot ∈ renewals) then
    outcome ← (match keys_in_dir keyring with
               | inr keys => on_repo (renew_root keyring (ky_roots keys) METADATA_EXPIRY_DAYS)
               | inl e => mret (inl e)
               end);
    mret (match outcome with
          | inr _ => (renewals, None)
          | inl e => (filter (λ r, r ≠ TufRoot) renewals, Some e)
          end)
  else mret (renewals, None).

(** [publish_repository] of the local repository, which nobody else writes. *)
Definition publish_local_repository : At (CommitError + unit) :=
  plan ←! or_else CRepo (on_repo current_publication_plan);
  files ← on_repo (peek contents);
  or_else CPublish (on_store (publish_repository prefix files plan)).

(** ** The transaction *)

Record PublicationTransaction : Type := mkPublicationTransaction {
  tx_identity : string;
  tx_repository : string;
  tx_signing_secret : string;
  tx_assignment_prefix : string;
  tx_admitted_name : string;
  tx_admitted_version : option AdmittedStateVersion;
  tx_dataflow_key : string;
  tx_plan : PublicationPlan;
  tx_input_snapshots : BTreeMap FileSnapshot;
  tx_planned : DurableRolloutState;
  tx_prepared_state : option PreparedAdmittedState;
  tx_desired_digest : string;
  tx_reconcile_now : Z;
}.

Definition write_local (path bytes : string) : At (CommitError + unit) :=
  _ ←! or_else (λ _, CLocal path) (on_state (write_file path bytes)); mret (inr tt).

(** The journal, the upload and the marker. *)
Definition publish_signed (tx : PublicationTransaction) : At (CommitError + unit) :=
  held ←! or_else CKube (on_lease (holds_publisher_lease 0 (tx_repository tx) (tx_identity tx)));
  _ ←! pure (demand held CLeaseLost);
  marker ←! publication_marker (tx_desired_digest tx);
  marker ←! pure (ok_or marker CNoGeneration);
  version ←! or_else CRepo (on_repo current_version);
  pending ←! pure (ok_or (to_vec (mkPendingPublication marker version (stored_from (tx_planned tx)))) CJournal);
  _ ←! pure (demand (str_len pending <=? PENDING_STATE_MAX_BYTES) CJournalTooLarge);
  _ ←! write_local PENDING_STATE_FILE pending;
  _ ←! publish_local_repository;
  encoded ←! pure (marker_to_bounded_json marker);
  write_local PUBLISHED_GENERATION_FILE encoded.

(** The keys, the root, the signature and the upload; why the root was not renewed. *)
Definition publish_generation (tx : PublicationTransaction) (content_unchanged initialized : bool)
    (renewals : list TufRole) : At (CommitError + (option RepoError)) :=
  _ ←! refuse_generation_rollback;
  '(_, signing) ←! or_else CKube (on_secrets (Shared.get (tx_signing_secret tx)));
  _ ←! materialize_signing_keys signing;
  keyring ← key_dir;
  '(renewals, failure) ←!
    (if initialized then r ← renew_expiring_root keyring renewals; mret (inr r)
     else
       keys ←! pure (map_err CRepo (keys_in_dir keyring));
       _ ←! or_else CRepo (on_repo (init keyring keys METADATA_EXPIRY_DAYS));
       mret (inr (renewals, None)));
  if publication_required content_unchanged renewals then
    _ ←! sign_plan keyring (tx_plan tx) METADATA_EXPIRY_DAYS;
    _ ←! publish_signed tx;
    mret (inr failure)
  else mret (inr failure).

(** [remove_pending_publication_journal] *)
Definition remove_pending_publication_journal : At (CommitError + unit) :=
  r ← on_state (remove_file PENDING_STATE_FILE);
  mret (match r with
        | inr _ | inl ENotFound => inr tt
        | inl _ => inl (CLocal PENDING_STATE_FILE)
        end).

(** Obsolete private inputs, as far as they can be removed now. *)
Definition retire_inputs (plan : PublicationPlan) : At (CommitError + unit) :=
  t ← on_private now;
  cutoff ←! pure (private_object_retirement_cutoff t);
  _ ← on_private (sweep_inputs_before prefix (bt_values (pp_node_assignments plan)) cutoff);
  mret (inr tt).

(** The durable state, and the end of the journal. *)
Definition record_state (tx : PublicationTransaction) : At (CommitError + unit) :=
  _ ←! (match tx_prepared_state tx with
        | Some prepared =>
            _ ←! or_else CState (on_api (store_admitted_state (tx_admitted_name tx) prepared (tx_admitted_version tx)));
            mret (inr tt)
        | None => mret (inr tt)
        end);
  remove_pending_publication_journal.

(** [PublicationTransaction::commit] *)
Definition commit (tx : PublicationTransaction) : At (CommitError + (option RepoError)) :=
  _ ←! or_else CInputs (on_private (publish_inputs prefix (tx_plan tx) (tx_assignment_prefix tx)
                                      (tx_input_snapshots tx) (tx_dataflow_key tx)));
  local_marker ←! publication_marker (tx_desired_digest tx);
  recorded_marker ← read_publication_marker;
  let recorded_marker := default None (ok_of recorded_marker) in
  let content_unchanged := bool_decide (is_Some local_marker) && bool_decide (local_marker = recorded_marker) in
  renewals ← expiring_metadata (tx_reconcile_now tx);
  initialized ←! or_else (λ _, CLocal ROOT) (on_repo (path_entry_exists ROOT));
  failure ←! (if publication_required content_unchanged renewals
              then publish_generation tx content_unchanged initialized renewals
              else mret (inr None));
  _ ←! retire_inputs (tx_plan tx);
  _ ←! record_state tx;
  mret (inr failure).

(** ** Recovery *)

(** The generation's marker, finished if the process died before it was written. *)
Definition finish_marker (marker : PublicationMarker) : At (CommitError + unit) :=
  r ← read_publication_marker;
  if bool_decide (mjoin (ok_of r) = Some marker) then mret (inr tt)
  else
    encoded ←! pure (marker_to_bounded_json marker);
    write_local PUBLISHED_GENERATION_FILE encoded.

(** [recover_pending_publication] *)
Definition recover_pending_publication (name : string) (max_shards : N) (durable : DurableRolloutState)
    (resource_version : option AdmittedStateVersion) : At (CommitError + (DurableRolloutState * option AdmittedStateVersion)) :=
  r ← on_state (read_file PENDING_STATE_FILE PENDING_STATE_MAX_BYTES);
  match r with
  | inl ENotFound => mret (inr (durable, resource_version))
  | inl _ => mret (inl (CLocal PENDING_STATE_FILE))
  | inr bytes =>
      pending ←! pure (ok_or (from_slice bytes) CJournal);
      _ ←! pure (demand (negb (pe_version pending =? 0) && bool_decide (is_Some (ok_of (marker_validate (pe_marker pending))))) CJournal);
      pending_state ←! pure (map_err CDurable (durable_try_from (pe_state pending)));
      published ←! or_else CPublish (on_store (store_published_version prefix));
      recovered ←! (if bool_decide (published = Some (pe_version pending))
                    then _ ←! finish_marker (pe_marker pending); mret (inr (Some pending_state))
                    else mret (inr None));
      outcome ←! (match recovered with
                  | Some state =>
                      if bool_decide (state = durable) then mret (inr (durable, resource_version))
                      else
                        prepared ←! pure (map_err CDurable (prepare_admitted_state state max_shards));
                        version ←! or_else CState (on_api (store_admitted_state name prepared resource_version));
                        mret (inr (state, Some version))
                  | None => mret (inr (durable, resource_version))
                  end);
      _ ←! remove_pending_publication_journal;
      mret (inr outcome)
  end.

(** The start of a pass. *)
Definition load_and_recover (name : string) (max_shards : N) : At (CommitError + (DurableRolloutState * option AdmittedStateVersion)) :=
  '(durable, version) ←! or_else CState (on_api (load_admitted_state name));
  recover_pending_publication name max_shards durable version.

End publisher.
End commit.
