(* ===== verification/CommitSafety.v ===== *)
(** * CommitSafety: a published generation is always recorded

    The theorem about [Commit.v]: wherever a pass is cut short, the next one starts from the state
    that the generation the store serves was published with.  Meanwhile the repository and the state
    directory are this replica's own, and the fenced publishers leave the served timestamp alone. *)
From S2P Require Import Prelude Identity Maps Releases Dataflow Telemetry Window Rollout Assignment Groups.
From S2P Require Import Publication Inputs Inventory Durable ShardStore ShardSafety Shared Lease Publish PublishSafety.
From S2P Require Import Authoring AuthoringSafety Enroll InputData Commit.

#[local] Open Scope N_scope.

(** ** What an upload does to the served timestamp *)

Section upload.
Context `{!JsonValues} `{!JsonPointers} `{!Sha256} `{!ObjectPaths}.
Context (prefix : string) (distinct : distinct_keys prefix).
Implicit Types (s : shared string).
Abbreviation key := (object_key prefix).

(** The other publishers are fenced. *)
Definition fenced s s' : Prop := timestamp_of prefix s' = timestamp_of prefix s.

#[export] Instance fenced_preorder : PreOrder fenced.
Proof. split; [done|]. intros s1 s2 s3 H12 H23. unfold fenced in *. congruence. Qed.

Abbreviation fruns P m Q := (runs fenced (λ _ _, True) P m Q).
Abbreviation keeps m := (fruns (λ _, True) m (λ s _ s', fenced s s')).

Lemma keeps_bind {T U} (m : Sh string T) (k : T → Sh string U) : keeps m → (∀ t, keeps (k t)) → keeps (m ≫= k).
Proof.
  intros Hm Hk. eapply sh_bind; [exact Hm|]. intros s t _. eapply runs_weaken; [apply Hk|done|]. intros s1 u s2 H1' H2'. by etrans.
Qed.

Lemma keeps_ret {T} (t : T) : keeps (mret t).
Proof. apply sh_ret. intros s _. reflexivity. Qed.

Lemma keeps_try {E A B} (m : Sh string (E + A)) (k : A → Sh string (E + B)) : keeps m → (∀ a, keeps (k a)) → keeps (sh_try m k).
Proof. intros Hm Hk. apply keeps_bind; [done|]. intros [e|a]; [apply keeps_ret|done]. Qed.

Lemma keeps_lift {E A B} (r : E + A) (k : A → Sh string (E + B)) : (∀ a, r = inr a → keeps (k a)) → keeps (sh_try (lift r) k).
Proof. intros Hk. apply runs_lift; [by intros; reflexivity|]. by intros a Ha; apply Hk. Qed.

Lemma keeps_get k : keeps (Shared.get k).
Proof. eapply runs_weaken; [apply runs_read, _|intros s Hs; exact Hs|]. by intros s t s' _ [? _]. Qed.

Lemma keeps_put k y allowed : k ≠ key TIMESTAMP → keeps (Shared.change allowed (put_object k y)).
Proof.
  intros Hne. eapply runs_weaken; [apply runs_change; [apply _|done]|intros s Hs; exact Hs|].
  intros s t s' _ (s1 & HR & [[-> _]|(_ & -> & _)]); [done|]. etrans; [exact HR|].
  unfold fenced, timestamp_of. simpl. by rewrite lookup_insert_ne.
Qed.

Lemma keeps_each {E A} (f : A → Sh string (E + unit)) l : (∀ x, x ∈ l → keeps (f x)) → keeps (sh_each f l).
Proof.
  induction l as [|x l IH]; intros Hf; cbn [sh_each]; [apply keeps_ret|]. apply keeps_try; [apply Hf; by left|].
  intros []. apply IH. intros y Hy. apply Hf. by right.
Qed.

Lemma keeps_verify k relative digest length : keeps (verify_remote_target k relative digest length).
Proof. apply keeps_bind; [apply keeps_get|]. intros r. apply keeps_ret. Qed.

Lemma key_not_timestamp a : plain a → a ≠ TIMESTAMP → key a ≠ key TIMESTAMP.
Proof. intros Hp Hne Heq. apply Hne. by apply distinct; [|apply plain_TIMESTAMP|]. Qed.

Lemma keeps_upload files targets a : plain a → a ≠ TIMESTAMP → keeps (publish_upload prefix files targets a).
Proof.
  intros Hp Hne. pose proof (key_not_timestamp a Hp Hne) as Hk. unfold publish_upload. case_bool_decide; [apply keeps_ret|].
  apply keeps_lift. intros k ->%(key_of _ _ _ Hp). destruct (targets !! a) as [length|].
  - apply keeps_lift. intros digest _. apply keeps_lift. intros d _. apply keeps_bind; [apply keeps_get|].
    intros [[]|]; [|apply keeps_ret..|apply keeps_verify]. apply keeps_lift. intros bytes _.
    apply keeps_bind; [by apply keeps_put|]. intros [e|n]; [apply keeps_ret|apply keeps_verify].
  - apply keeps_lift. intros bytes _. apply keeps_bind; [by apply keeps_put|].
    intros [[]|n]; try apply keeps_ret. apply keeps_bind; [apply keeps_get|]. intros r. apply keeps_ret.
Qed.

Lemma prepare_fenced files a :
  fruns (λ _, True) (prepare_conditional_publication_file files (key a) a) (λ s r s', fenced s s'
    ∧ ∀ w, r = inr w → files !! a = Some (cf_bytes w) ∧ cf_previous w = snd <$> sh_objects s' !! key a).
Proof.
  unfold prepare_conditional_publication_file. apply runs_lift; [by intros; split; [reflexivity|]|]. intros bytes Hb.
  eapply sh_bind; [apply runs_read, _|]. intros s r _.
  assert (files !! a = Some bytes) as Hf by (unfold read_local in Hb; by sum_inv).
  destruct r as [[]|[version current]]; try (apply sh_ret; intros s' [HR Hr]; split; [done|]; intros w [=]; fail).
  - apply sh_ret. intros s' [HR Hr]. split; [done|]. intros w [= <-]. split; [done|]. cbn.
    destruct Hr as [[=]|Hr]. by destruct (sh_objects s' !! key a).
  - apply runs_lift; [by intros e s' _ [HR _]|]. intros previous Hp. apply sh_ret. intros s' [HR Hr]. split; [done|].
    intros w [= <-]. split; [done|]. cbn. unfold within_limit in Hp. sum_inv.
    destruct Hr as [[=]|Hr]. destruct (sh_objects s' !! key a); [by injection Hr as <-|done].
Qed.

Lemma keeps_commit k w : k ≠ key TIMESTAMP → keeps (commit_conditional_publication_file k w).
Proof.
  intros Hk. unfold commit_conditional_publication_file. case_bool_decide; [apply keeps_ret|].
  apply keeps_bind; [destruct (cf_mode w); by apply keeps_put|]. intros r. apply keeps_ret.
Qed.

(** The served timestamp is the one it was, or the local one. *)
Definition uploads_timestamp (files : Files) s (r : PublishError + unit) s' : Prop :=
  (fenced s s' ∨ ∃ b, files !! TIMESTAMP = Some b ∧ timestamp_of prefix s' = Some b)
  ∧ (r = inr tt → ∃ b, files !! TIMESTAMP = Some b ∧ timestamp_of prefix s' = Some b).

Lemma commit_timestamp_fenced files w :
  files !! TIMESTAMP = Some (cf_bytes w) →
  fruns (λ s, cf_previous w = timestamp_of prefix s) (commit_conditional_publication_file (key TIMESTAMP) w) (uploads_timestamp files).
Proof.
  intros Hf. unfold commit_conditional_publication_file. case_bool_decide as Hprev.
  { apply sh_ret. intros s Hs. split; [by left|]. intros _. exists (cf_bytes w). split; [done|]. congruence. }
  assert (∀ allowed, fruns (λ s, cf_previous w = timestamp_of prefix s) (Shared.change allowed (put_object (key TIMESTAMP) (cf_bytes w)))
    (λ s r s', (fenced s s' ∨ timestamp_of prefix s' = Some (cf_bytes w)) ∧ ∀ n, r = inr n → timestamp_of prefix s' = Some (cf_bytes w))) as Hput.
  { intros allowed. eapply runs_weaken; [apply runs_change; [apply _|done]|intros s Hs; exact Hs|].
    intros s r s' _ (s1 & HR & [[-> Hr]|(_ & -> & _)]).
    - split; [by left|]. intros n ->. destruct Hr as [[=]|(e & _ & [=])].
    - assert (timestamp_of prefix (put_object (key TIMESTAMP) (cf_bytes w) s1) = Some (cf_bytes w)); [|by auto].
      unfold timestamp_of. simpl. by rewrite lookup_insert_eq. }
  eapply sh_bind; [destruct (cf_mode w); apply Hput|]. intros s r _. apply sh_ret. intros s' [Hts Hr]. split.
  - destruct Hts; [by left|right; eauto].
  - intros Hok. exists (cf_bytes w). split; [done|]. destruct r as [[]|n]; try discriminate Hok. by apply (Hr n).
Qed.

Lemma publish_repository_fenced files plan : well_formed_plan plan →
  fruns (λ _, True) (publish_repository prefix files plan) (uploads_timestamp files).
Proof.
  intros [Hplain _ Hone]. set (Q := uploads_timestamp files).
  assert (∀ s e s', fenced s s' → Q s (inl e) s') as Hstay by (intros s e s' HR; split; [by left|done]).
  assert (∀ (A : Type) (m : Sh string (PublishError + A)) k, keeps m →
    (∀ a, fruns (λ _, True) (k a) Q) → fruns (λ _, True) (sh_try m k) Q) as Hstep.
  { intros A m k Hm Hk. eapply runs_try; [exact Hm|intros; by apply Hstay|]. intros s a _.
    eapply runs_weaken; [apply Hk|done|]. intros s1 r s2 H1' [[H2'|H2'] Hr]; (split; [|done]); [left; by etrans|by right]. }
  unfold publish_repository. apply Hstep.
  { apply keeps_each. intros [a l] _. apply keeps_lift. intros k _. apply keeps_lift. intros d _. apply keeps_lift.
    intros d' _. apply keeps_verify. }
  intros []. apply runs_lift; [intros; by apply Hstay|]. intros [uploads timestamp] Hsplit%ok_or_inr.
  assert (uploads = removelast (pf_uploads plan)) as ->.
  { unfold split_last in Hsplit. destruct (last (pf_uploads plan)); [|done]. by injection Hsplit. }
  apply runs_lift; [intros; by apply Hstay|]. intros [] ->%demand_inr%bool_decide_eq_true.
  apply runs_lift; [intros; by apply Hstay|]. intros k ->%(key_of _ _ _ plain_TIMESTAMP).
  apply runs_lift; [intros; by apply Hstay|]. intros ck _. apply runs_lift; [intros; by apply Hstay|]. intros [] _.
  assert (key ROOT ≠ key TIMESTAMP) as Hroot by (by apply key_not_timestamp; [apply plain_ROOT|]).
  eapply runs_try; [apply prepare_fenced|intros s e s' _ [HR _]; by apply Hstay|]. intros s tw _.
  assert (∀ A (m : Sh string (PublishError + A)) k, keeps m →
    (∀ a, fruns (λ s', fenced s s' ∧ files !! TIMESTAMP = Some (cf_bytes tw) ∧ cf_previous tw = timestamp_of prefix s') (k a) (λ _ r s', Q s r s')) →
    fruns (λ s', fenced s s' ∧ files !! TIMESTAMP = Some (cf_bytes tw) ∧ cf_previous tw = timestamp_of prefix s') (sh_try m k) (λ _ r s', Q s r s')) as Hstep2.
  { intros A m k Hm Hk. eapply runs_try; [eapply runs_weaken; [exact Hm|done|intros s1 r s2 H1' H2'; exact (conj H1' H2')]| |].
    - intros s1 e s2 _ [[? _] ?]. apply Hstay. by etrans.
    - intros s1 a (HR & Hf & Hp). eapply runs_weaken; [apply Hk| |done]. intros s2 [_ HR2]. split_and!; [by etrans|done|].
      unfold fenced in HR2. congruence. }
  eapply runs_weaken with (P' := λ s', fenced s s' ∧ files !! TIMESTAMP = Some (cf_bytes tw) ∧ cf_previous tw = timestamp_of prefix s').
  2:{ intros s' [HR Hw]. destruct (Hw tw eq_refl). done. }
  2:{ intros s1 r s2 _ Hq. exact Hq. }
  apply runs_lift; [intros e s1 _ [HR _]; by apply Hstay|]. intros [] _.
  apply Hstep2. { eapply runs_weaken; [apply prepare_fenced|done|]. by intros s1 r s2 _ [HR _]. }
  intros rw. apply Hstep2.
  { apply keeps_each. intros a Ha. apply keeps_upload; [|by intros ->]. apply Hplain.
    destruct (pf_uploads plan) as [|x l] eqn:Hl; [by apply elem_of_nil in Ha|].
    rewrite (app_removelast_last x (l := x :: l)) by done. apply elem_of_app. by left. }
  intros []. apply Hstep2; [by apply keeps_commit|]. intros [].
  intros c t c' Hh Hg (HR & Hf & Hp) Hrun.
  destruct (commit_timestamp_fenced files tw Hf c t c' Hh Hg Hp Hrun) as (? & ? & [Hc|Hc] & Hr); (split_and!; [done..|]); (split; [|done]).
  - left. by etrans.
  - by right.
Qed.

End upload.

(** ** Passes

    What one replica sees of a site: its own two directories, the served timestamp and the
    configuration maps. *)

Record view : Type := mkView {
  vw_repo : Files;
  vw_state : Files;
  vw_served : option string;
  vw_objects : BTreeMap (N * ConfigMap);
}.

Section passes.
Context `{!JsonValues} `{!JsonPointers} `{!Sha256} `{!ObjectPaths}.
Context (prefix : string).
Implicit Types (σ : site) (v : view).

Definition view_of σ : view :=
  mkView (contents (cl_shared (si_repo σ))) (contents (cl_shared (si_state σ)))
    (timestamp_of prefix (cl_shared (si_store σ))) (as_objects (si_api σ)).

Definition with_repo f v : view := mkView f (vw_state v) (vw_served v) (vw_objects v).
Definition with_state f v : view := mkView (vw_repo v) f (vw_served v) (vw_objects v).
Definition with_served o v : view := mkView (vw_repo v) (vw_state v) o (vw_objects v).
Definition with_objects o v : view := mkView (vw_repo v) (vw_state v) (vw_served v) o.

(** The directories are this replica's, and the other publishers are fenced. *)
Record grounded σ : Prop := mkGrounded {
  gr_repo : exclusive (cl_turns (si_repo σ));
  gr_state : exclusive (cl_turns (si_state σ));
  gr_store : honest (fenced prefix) (cl_turns (si_store σ));
}.

(** From a view of [P], whatever fails, [m] ends in an outcome of [Q]. *)
Definition pass {T} (P : view → Prop) (m : At T) (Q : T → view → Prop) : Prop :=
  ∀ σ, grounded σ → P (view_of σ) → let '(t, σ') := m σ in grounded σ' ∧ Q t (view_of σ').

Lemma pass_ret {T} (P : view → Prop) (t : T) (Q : T → view → Prop) : (∀ v, P v → Q t v) → pass P (mret t) Q.
Proof. intros HQ σ Hg HP. split; [done|]. by apply HQ. Qed.

Lemma pass_weaken {T} (P P' : view → Prop) (m : At T) (Q Q' : T → view → Prop) :
  pass P' m Q' → (∀ v, P v → P' v) → (∀ t v, Q' t v → Q t v) → pass P m Q.
Proof. intros Hm HP HQ σ Hg Hv. specialize (Hm σ Hg (HP _ Hv)). destruct (m σ) as [t σ']. naive_solver. Qed.

Lemma pass_bind {T U} (P : view → Prop) (m : At T) (k : T → At U) (Q1 : T → view → Prop) (Q : U → view → Prop) :
  pass P m Q1 → (∀ t, pass (Q1 t) (k t) Q) → pass P (m ≫= k) Q.
Proof.
  intros Hm Hk σ Hg HP. specialize (Hm σ Hg HP). unfold mbind, At_bind. destruct (m σ) as [t σ']. destruct Hm as [Hg' HQ].
  by apply Hk.
Qed.

Lemma pass_try {A B} (P : view → Prop) (m : At (CommitError + A)) (k : A → At (CommitError + B)) (Q1 Q : _ → view → Prop) :
  pass P m Q1 → (∀ e v, Q1 (inl e) v → Q (inl e) v) → (∀ a, pass (Q1 (inr a)) (k a) Q) → pass P (at_try m k) Q.
Proof. intros Hm He Hk. eapply pass_bind; [exact Hm|]. intros [e|a]; [apply pass_ret; auto|apply Hk]. Qed.

Lemma pass_pure {A B} (P : view → Prop) (r : CommitError + A) (k : A → At (CommitError + B)) (Q : _ → view → Prop) :
  (∀ e v, P v → Q (inl e) v) → (∀ a, r = inr a → pass P (k a) Q) → pass P (at_try (pure r) k) Q.
Proof. intros He Hk. destruct r as [e|a]; [|by apply Hk]. intros σ Hg HP. split; [done|]. by apply He. Qed.

Lemma pass_fact {T} (P : view → Prop) (m : At T) (Q : T → view → Prop) (φ : Prop) :
  (∀ v, P v → φ) → (φ → pass P m Q) → pass P m Q.
Proof. intros Hφ Hm σ Hg HP. by apply (Hm (Hφ _ HP)). Qed.

Lemma pass_exists {X T} (P : X → view → Prop) (m : At T) (Q : T → view → Prop) :
  (∀ x, pass (P x) m Q) → pass (λ v, ∃ x, P x v) m Q.
Proof. intros Hm σ Hg (x & HP). by apply (Hm x). Qed.

Lemma pass_or_else {E T} (P : view → Prop) (wrap : E → CommitError) (m : At (E + T)) (Q : _ → view → Prop) :
  pass P m (λ r v, Q (map_err wrap r) v) → pass P (or_else wrap m) Q.
Proof. intros Hm. eapply pass_bind; [exact Hm|]. intros r. by apply pass_ret. Qed.

(** The parts of a site. *)
Lemma pass_repo {T} (P : view → Prop) (m : Sh string T) (Q : T → view → Prop) :
  (∀ v, P v → loc (λ f, f = vw_repo v) m (λ r f, Q r (with_repo f v))) → pass P (on_repo m) Q.
Proof.
  intros Hm σ [] HP. unfold on_repo. destruct (m (si_repo σ)) as [t c] eqn:Hr.
  destruct (Hm _ HP _ t c gr_repo0 eq_refl Hr) as [Hx HQ]. by split.
Qed.

Lemma pass_state {T} (P : view → Prop) (m : Sh string T) (Q : T → view → Prop) :
  (∀ v, P v → loc (λ f, f = vw_state v) m (λ r f, Q r (with_state f v))) → pass P (on_state m) Q.
Proof.
  intros Hm σ [] HP. unfold on_state. destruct (m (si_state σ)) as [t c] eqn:Hr.
  destruct (Hm _ HP _ t c gr_state0 eq_refl Hr) as [Hx HQ]. by split.
Qed.

Lemma pass_store {T} (P : view → Prop) (m : Sh string T) (Q : T → view → Prop) :
  (∀ v, P v → runs (fenced prefix) (λ _ _, True) (λ s, timestamp_of prefix s = vw_served v) m
     (λ _ r s', Q r (with_served (timestamp_of prefix s') v))) → pass P (on_store m) Q.
Proof.
  intros Hm σ [] HP. unfold on_store. destruct (m (si_store σ)) as [t c] eqn:Hr.
  destruct (Hm _ HP _ t c gr_store0 ltac:(by apply Forall_true) eq_refl Hr) as (Hx & _ & HQ). by split.
Qed.

Lemma pass_api {T} (P : view → Prop) (m : K T) (Q : _ → view → Prop) :
  (∀ v, P v → kwp false m (λ a o, Q (inr a) (with_objects o v)) (λ o, ∀ e, Q (inl e) (with_objects o v)) (vw_objects v)) →
  pass P (on_api m) Q.
Proof.
  intros Hm σ [] HP. unfold on_api. specialize (Hm _ HP (si_api σ) eq_refl ltac:(done)).
  destruct (m (si_api σ)) as [[e|a] c]; destruct Hm as [H1' H2']; (split; [done|]); [by apply H2'|done].
Qed.

Lemma pass_private {T} (P : view → Prop) (m : Sh Stored T) (Q : T → view → Prop) : (∀ t v, P v → Q t v) → pass P (on_private m) Q.
Proof. intros HQ σ [] HP. unfold on_private. destruct (m (si_private σ)). split; [done|]. by apply HQ. Qed.

Lemma pass_lease {T} (P : view → Prop) (m : Sh Lease T) (Q : T → view → Prop) : (∀ t v, P v → Q t v) → pass P (on_lease m) Q.
Proof. intros HQ σ [] HP. unfold on_lease. destruct (m (si_lease σ)). split; [done|]. by apply HQ. Qed.

Lemma pass_secrets {T} (P : view → Prop) (m : Sh SecretData T) (Q : T → view → Prop) : (∀ t v, P v → Q t v) → pass P (on_secrets m) Q.
Proof. intros HQ σ [] HP. unfold on_secrets. destruct (m (si_secrets σ)). split; [done|]. by apply HQ. Qed.

(** Reads of the local files. *)
Lemma loc_read_file (P : Files → Prop) path limit :
  loc P (read_file path limit) (λ r f, P f ∧ (r = inl ENotFound → f !! path = None) ∧ ∀ b, r = inr b → f !! path = Some b).
Proof.
  eapply loc_bind; [apply loc_get|]. intros r. apply loc_ret. intros f [HP Hr]. split; [done|].
  destruct Hr as [->|[[-> Hn]|(v & b & -> & Hb)]]; [done|done|]. split; [simpl; by destruct (_ <=? _)|].
  intros b' Hb'. sum_inv. done.
Qed.

Lemma loc_path_entry_exists (P : Files → Prop) path :
  loc P (path_entry_exists path) (λ r f, P f ∧ ∀ b, r = inr b → b = bool_decide (is_Some (f !! path))).
Proof.
  eapply loc_weaken; [apply (loc_read P _ (λ f, inr (bool_decide (is_Some (f !! path)))))|done|].
  - intros s. f_equal. unfold contents. apply bool_decide_ext. by rewrite lookup_fmap, fmap_is_Some.
  - intros r f [HP [->| ->]]; (split; [done|]); [done|]. by intros b [= <-].
Qed.

Lemma pass_optional_marker (P : view → Prop) path :
  pass P (optional_marker_file_sha256 path) (λ r v, P v ∧ (∀ d, r = inr (Some d) → sha256_bytes <$> vw_repo v !! path = Some d)
    ∧ (r = inr None → vw_repo v !! path = None)).
Proof.
  eapply (pass_bind _ _ _ (λ r v, P v ∧ (r = inl ENotFound → vw_repo v !! path = None) ∧ ∀ b, r = inr b → vw_repo v !! path = Some b)).
  - apply pass_repo. intros v HP. eapply loc_weaken; [apply (loc_read_file (λ f, f = vw_repo v))|done|]. intros r f (-> & Hn & Hb). by destruct v.
  - intros r. apply pass_ret. intros v (HP & Hn & Hb). split; [done|].
    destruct r as [[]|b]; simpl; split; try done; [by auto|]. intros d [= <-]. by rewrite (Hb b eq_refl).
Qed.

Lemma pass_publication_marker (P : view → Prop) digest :
  pass P (publication_marker digest) (λ r v, P v
    ∧ (∀ m, r = inr (Some m) → marker_validate m = inr tt ∧ ∃ root timestamp, vw_repo v !! ROOT = Some root ∧ vw_repo v !! TIMESTAMP = Some timestamp
         ∧ m = mkPublicationMarker digest (sha256_bytes root) (sha256_bytes timestamp))).
Proof.
  unfold publication_marker. apply pass_pure; [done|]. intros [] _.
  eapply pass_try; [apply (pass_optional_marker P)|by intros e v [? _]|]. intros root.
  eapply pass_try; [apply pass_optional_marker|by intros e v [[? _] _]|]. intros timestamp.
  apply pass_ret. intros v ((HP & Hr & _) & Ht & _). split; [done|]. intros m Hm.
  destruct root as [root|], timestamp as [timestamp|]; try discriminate Hm. sum_inv.
  specialize (Hr root eq_refl). specialize (Ht timestamp eq_refl).
  apply fmap_Some in Hr as (rb & Hrb & ->), Ht as (tb & Htb & ->).
  rename select (marker_validate _ = _) into Hv. split; [by destruct (marker_validate _) as [|[]]|]. eauto.
Qed.

(** Steps that change nothing of the view. *)
Lemma pass_metadata_expiry `{!Rfc3339} (P : view → Prop) now role path :
  pass P (expiring_one now role path) (λ _ v, P v).
Proof.
  unfold expiring_one, metadata_expiry. eapply (pass_bind _ _ _ (λ _ v, P v)).
  - eapply (pass_bind _ _ _ (λ _ v, P v)); [|intros r; by apply pass_ret].
    apply pass_repo. intros v HP. eapply loc_weaken; [apply (loc_read_file (λ f, f = vw_repo v))|done|]. intros r f (-> & _). by destruct v.
  - intros e. by apply pass_ret.
Qed.

End passes.

(** ** The commit *)

Lemma loc_remove_file (f0 : Files) path :
  loc (λ f, f = f0) (remove_file path) (λ r f,
    (f = f0 ∨ f = delete path f0) ∧ ((∃ n, r = inr n) → f = delete path f0) ∧ (r = inl ENotFound → f = f0 ∧ f0 !! path = None)).
Proof.
  unfold remove_file, Shared.change. eapply loc_bind; [apply loc_pass|]. intros d.
  assert (∀ d, loc (λ f, f = f0) (serve d (λ s, demand (bool_decide (sh_objects s !! path ≠ None)) ENotFound) (Shared.drop_object path))
    (λ r f, (f = f0 ∨ f = delete path f0) ∧ ((∃ n, r = inr n) → f = delete path f0) ∧ (r = inl ENotFound → f = f0 ∧ f0 !! path = None))) as Hserve.
  { clear d. intros d c r c' Hx Hc. unfold serve. case_bool_decide as Hp; simpl; intros [= <- <-]; (split; [done|]).
    - cbn. unfold contents, Shared.drop_object. cbn. rewrite fmap_delete. fold (contents (cl_shared c)). rewrite Hc.
      split_and!; [by right|done|]. by destruct d.
    - rewrite Hc. split_and!; [by left|by intros [? ?]|]. intros _. split; [done|]. rewrite <-Hc. unfold contents.
      rewrite lookup_fmap. by rewrite Hp. }
  destruct d; [apply Hserve| |apply Hserve]. apply loc_ret. intros f ->. split_and!; [by left|by intros [? ?]|done].
Qed.

Section commit.
Context `{!JsonValues} `{!JsonPointers} `{!Sha256} `{!ObjectPaths} `{!ToughOps} `{!Tough} `{!Rfc3339}.
Context `{!Semver} `{!SemverOrder} `{!Urls} `{!AssignmentJson} `{!Base64} `{!Hmac} `{!DataflowJson}.
Context `{!Serde StoredDurableRolloutState} `{!Serde AdmittedStateIndex}.
Context `{!Serde PublicationMarker} `{!Serde PendingPublication}.
Context (prefix : string) (tx : PublicationTransaction) (max_shards : N).
Implicit Types (v : view).

Abbreviation base := (tx_admitted_name tx).
Abbreviation planned := (tx_planned tx).

(** What serde_json and object_store do: an index and a valid marker serialise, the marker within
    its bound, and distinct normal paths are distinct objects. *)
Context (distinct : distinct_keys prefix).
Context (index_serialises : ∀ i : AdmittedStateIndex, is_Some (to_vec i)).
Context (marker_serialises : ∀ m : PublicationMarker, marker_validate m = inr tt →
  ∃ b, to_vec m = Some b ∧ str_len b ≤ PUBLICATION_MARKER_MAX_BYTES).
(** The state the pass started from, and what it prepared. *)
Context (s : DurableRolloutState) (width : shard_limit max_shards = Some max_shards).
Context (prepared_some : ∀ p, tx_prepared_state tx = Some p → prepare_admitted_state planned max_shards = inr p).
Context (prepared_none : tx_prepared_state tx = None → planned = s).
Context (v0 : view).

(** Where a pass commits from: no journal, and the cluster records the state it planned from. *)
Record commits_from : Prop := mkCommitsFrom {
  cf_journal : vw_state v0 !! PENDING_STATE_FILE = None;
  cf_recorded : recorded base (vw_objects v0) s;
  cf_current : current base (vw_objects v0) (tx_admitted_version tx);
}.
Context (from : commits_from).

(** The generation the pass wants is the published one. *)
Definition unchanged : Prop :=
  ∃ root timestamp bytes, vw_repo v0 !! ROOT = Some root ∧ vw_repo v0 !! TIMESTAMP = Some timestamp
    ∧ vw_state v0 !! PUBLISHED_GENERATION_FILE = Some bytes
    ∧ from_slice bytes = Some (mkPublicationMarker (tx_desired_digest tx) (sha256_bytes root) (sha256_bytes timestamp)).

(** The journal of a generation: its timestamp, which the store did not serve before. *)
Record pending (b : string) v : Prop := mkPending {
  pd_bytes : ∃ bytes marker version, vw_state v !! PENDING_STATE_FILE = Some bytes
    ∧ to_vec (mkPendingPublication marker version (stored_from planned)) = Some bytes
    ∧ str_len bytes ≤ PENDING_STATE_MAX_BYTES ∧ marker_validate marker = inr tt
    ∧ version ≠ 0 ∧ signed_version b = Some version ∧ vw_served v0 ≫= signed_version ≠ Some version;
  pd_limit : str_len b ≤ OBJECT_BYTES_LIMIT;
  pd_before o : vw_served v0 = Some o → str_len o ≤ OBJECT_BYTES_LIMIT ∧ is_Some (signed_version o);
}.

(** Nothing happened that the cluster does not record. *)
Definition idle v : Prop :=
  vw_state v !! PENDING_STATE_FILE = None ∧ vw_served v = vw_served v0 ∧ vw_objects v = vw_objects v0.

(** The generation is live and journalled. *)
Definition live v : Prop := ∃ b, pending b v ∧ vw_served v = Some b ∧ vw_objects v = vw_objects v0.

(** What a pass may leave behind. *)
Inductive left_behind v : Prop :=
| LNothing : vw_state v !! PENDING_STATE_FILE = None → vw_served v = vw_served v0 →
    recorded base (vw_objects v) s → left_behind v
| LRecorded : vw_state v !! PENDING_STATE_FILE = None → vw_served v = vw_served v0 → unchanged →
    recorded base (vw_objects v) planned → left_behind v
| LJournalled b : pending b v → vw_served v = vw_served v0 → recorded base (vw_objects v) s → left_behind v
| LLive b : pending b v → vw_served v = Some b →
    recorded base (vw_objects v) s ∨ recorded base (vw_objects v) planned → left_behind v
| LCommitted b : vw_state v !! PENDING_STATE_FILE = None → vw_served v = Some b → vw_served v0 ≠ Some b →
    recorded base (vw_objects v) planned → left_behind v.

Lemma idle_left v : idle v → left_behind v.
Proof. intros (? & ? & Ho). apply LNothing; [done..|]. rewrite Ho. apply from. Qed.

Lemma live_left v : live v → left_behind v.
Proof. intros (b & ? & ? & Ho). eapply LLive; [done..|]. rewrite Ho. left. apply from. Qed.

Lemma pending_new b v : pending b v → vw_served v0 ≠ Some b.
Proof. intros [(bytes & marker & version & _ & _ & _ & _ & _ & Hv & Hne) _ _] Heq. rewrite Heq in Hne. simpl in Hne. congruence. Qed.

(** ** The guards *)

(** What the rollback guard proves. *)
Definition ahead : Prop :=
  (∀ o, vw_served v0 = Some o → str_len o ≤ OBJECT_BYTES_LIMIT ∧ is_Some (signed_version o))
  ∧ ∀ p, vw_served v0 ≫= signed_version = Some p →
      is_Some (vw_repo v0 !! ROOT) ∧ ∃ w, stamp (vw_repo v0) ≫= signed_version = Some w ∧ p ≤ w.

Lemma store_published_version_fenced o :
  runs (fenced prefix) (λ _ _, True) (λ s, timestamp_of prefix s = o) (store_published_version prefix)
    (λ _ r s', timestamp_of prefix s' = o ∧ (r = inr None → o = None)
       ∧ ∀ p, r = inr (Some p) → ∃ b, o = Some b ∧ str_len b ≤ OBJECT_BYTES_LIMIT ∧ signed_version b = Some p).
Proof.
  eapply sh_bind; [apply runs_read, _|]. intros s1 r Hs. apply sh_ret. intros s2 [HR Hr]. unfold fenced in HR. rewrite Hs in HR.
  split; [done|]. rewrite <-HR. unfold timestamp_of. destruct Hr as [->| ->]; [done|].
  destruct (sh_objects s2 !! object_key prefix TIMESTAMP) as [[ver b]|]; simpl; [|done]. split.
  - destruct (within_limit _ b) as [|b']; simpl; [done|]. by destruct (signed_version b').
  - unfold within_limit. destruct (N.leb_spec (str_len b) OBJECT_BYTES_LIMIT) as [Hl|Hl]; simpl; [|done]. intros p Hp.
    exists b. split_and!; [done..|]. destruct (signed_version b); [by injection Hp as ->|done].
Qed.

Lemma refuse_generation_rollback_pass :
  pass prefix (λ v, v = v0) (refuse_generation_rollback prefix) (λ r v, v = v0 ∧ (r = inr tt → ahead)).
Proof.
  unfold refuse_generation_rollback.
  eapply (pass_try _ _ _ _ (λ r v, v = v0 ∧ (r = inr None → vw_served v0 = None)
    ∧ ∀ p, r = inr (Some p) → ∃ b, vw_served v0 = Some b ∧ str_len b ≤ OBJECT_BYTES_LIMIT ∧ signed_version b = Some p)).
  - apply pass_or_else, pass_store. intros v ->. eapply runs_weaken; [apply (store_published_version_fenced (vw_served v0))|done|].
    intros _ r s' _ (-> & Hn & Hp). split; [by destruct v0|]. split; [|intros p]; intros Hr%map_err_inr; auto.
  - by intros e v [-> _].
  - intros [p|].
    2:{ apply pass_ret. intros v (-> & Hn & _). split; [done|]. intros _. specialize (Hn eq_refl). split; [congruence|].
        intros p. by rewrite Hn. }
    apply pass_fact with (∃ b, vw_served v0 = Some b ∧ str_len b ≤ OBJECT_BYTES_LIMIT ∧ signed_version b = Some p).
    { intros v (_ & _ & Hp). by apply Hp. }
    intros (b & Hb & Hl & Hp). eapply pass_weaken with (P' := λ v, v = v0); [|by intros v [? _]|by intros r v Hq; exact Hq].
    eapply (pass_try _ _ _ _ (λ r v, v = v0 ∧ ∀ i, r = inr i → i = bool_decide (is_Some (vw_repo v0 !! ROOT)))).
    { apply pass_or_else, pass_repo. intros v ->. eapply loc_weaken; [apply (loc_path_entry_exists (λ f, f = vw_repo v0))|done|].
      intros r f [-> Hr]. split; [by destruct v0|]. intros i Hi%map_err_inr. auto. }
    { by intros e v [-> _]. }
    intros initialized. apply pass_fact with (initialized = bool_decide (is_Some (vw_repo v0 !! ROOT))).
    { intros v [_ Hi]. auto. }
    intros ->. eapply pass_weaken with (P' := λ v, v = v0); [|by intros v [? _]|by intros r v Hq; exact Hq].
    apply pass_pure; [done|]. intros [] Hroot%demand_inr%bool_decide_eq_true.
    eapply (pass_try _ _ _ _ (λ r v, v = v0 ∧ ∀ w, r = inr w → stamp (vw_repo v0) ≫= signed_version = Some w)).
    { apply pass_or_else, pass_repo. intros v ->. unfold current_version.
      eapply loc_try; [apply (loc_load_local (λ f, f = vw_repo v0))|intros e f [-> _]; by destruct v0|]. intros repo. apply loc_ret.
      intros f [-> Hr]. split; [by destruct v0|]. intros w [= <-]. destruct (Hr repo eq_refl) as (root & _ & Hld). by eapply load_stamp. }
    { by intros e v [-> _]. }
    intros w. apply pass_ret. intros v [-> Hw]. split; [done|]. intros Hle%demand_inr%N.leb_le. split.
    + intros o Ho. rewrite Hb in Ho. injection Ho as <-. split; [done|eauto].
    + intros p'. rewrite Hb. simpl. rewrite Hp. intros [= <-]. split; [done|]. eauto.
Qed.

(** ** Keys, roots and signatures *)

Lemma materialize_key_loc k :
  loc (λ f, f !! PENDING_STATE_FILE = None) (materialize_key k) (λ _ f, f !! PENDING_STATE_FILE = None).
Proof.
  set (P := λ f : Files, f !! PENDING_STATE_FILE = None). destruct k as [name bytes]. unfold materialize_key.
  eapply (loc_try _ _ _ (λ _, P)); [|done|].
  { eapply (loc_bind _ _ _ (λ _, P)); [|intros r; by apply loc_ret].
    eapply loc_weaken; [apply (loc_path_entry_exists P)|done|]. by intros r f [? _]. }
  intros []; [eapply (loc_try _ _ _ (λ _, P)); [|done|]|].
  - eapply (loc_bind _ _ _ (λ _, P)); [|intros r; by apply loc_ret].
    eapply loc_weaken; [apply (loc_read_file P)|done|]. by intros r f [? _].
  - intros existing. by apply loc_ret.
  - eapply (loc_bind _ _ _ (λ _, P)); [|intros r; by apply loc_ret].
    apply loc_overwrite; [done|]. intros f r Hf _. unfold P. by rewrite lookup_insert_ne.
Qed.

Lemma materialize_signing_keys_pass secret :
  pass prefix (λ v, v = v0) (materialize_signing_keys secret) (λ _ v, idle v ∧ vw_repo v = vw_repo v0).
Proof.
  assert (idle v0) as Hidle by (split; [apply from|done]).
  unfold materialize_signing_keys. do 3 (apply pass_pure; [by intros e v ->|]; intros ? _).
  apply pass_state. intros v ->. eapply loc_weaken; [apply (loc_each_same _ (λ f, f !! PENDING_STATE_FILE = None)); apply materialize_key_loc| |].
  - intros f ->. apply from.
  - intros r f Hf. by repeat split.
Qed.

(** The timestamp a generation follows. *)
Definition readied v : Prop := idle v ∧ (is_Some (vw_repo v0 !! ROOT) → stamp (vw_repo v) = stamp (vw_repo v0)).

Lemma idle_repo f v : idle v → idle (with_repo f v).
Proof. done. Qed.

Lemma renew_expiring_root_pass keyring renewals :
  pass prefix readied (renew_expiring_root keyring renewals) (λ _, readied).
Proof.
  unfold renew_expiring_root. case_bool_decide; [|by apply pass_ret].
  eapply (pass_bind _ _ _ _ (λ _, readied)); [|by intros [e|[]]; apply pass_ret].
  destruct (keys_in_dir keyring) as [e|keys]; [by apply pass_ret|].
  apply pass_repo. intros v [Hi Hst] c r c' Hx Hc Hr.
  destruct (republish_root_stamp keyring (stamp (vw_repo v)) METADATA_EXPIRY_DAYS (renewal keyring (ky_roots keys)) c r c' Hx
    ltac:(by rewrite Hc) Hr) as [Hx' Hs].
  split; [done|]. split; [done|]. intros Hroot. etrans; [exact Hs|auto].
Qed.

Abbreviation anyway m := (loc (λ _ : Files, True) m (λ _ _, True)).

Lemma anyway_bind {T U} (m : Sh string T) (k : T → Sh string U) : anyway m → (∀ t, anyway (k t)) → anyway (m ≫= k).
Proof. intros Hm Hk. by eapply loc_bind; [exact Hm|]. Qed.

Lemma anyway_try {E A B} (m : Sh string (E + A)) (k : A → Sh string (E + B)) : anyway m → (∀ a, anyway (k a)) → anyway (sh_try m k).
Proof. intros Hm Hk. by eapply loc_try; [exact Hm|..]. Qed.

Lemma anyway_file path bytes : anyway (publish_file path bytes).
Proof. by apply loc_publish_file. Qed.

Lemma anyway_lift {E A} (r : E + A) : anyway (lift r).
Proof. by apply loc_ret. Qed.

Lemma anyway_metadata signed : anyway (publish_metadata signed).
Proof.
  apply anyway_try; [apply (loc_aside (λ _, True))|]. intros [].
  assert (∀ file, anyway (publish_role file)) as Hrole by (intros file; apply anyway_try; [apply anyway_lift|intros; apply anyway_file]).
  apply anyway_try; [by apply (loc_each_same _ (λ _, True))|]. intros []. apply anyway_try; [apply anyway_lift|]. intros t. apply Hrole.
Qed.

Lemma anyway_init keyring keys expiry_days : anyway (init keyring keys expiry_days).
Proof.
  unfold init, init_from_version. apply anyway_try; [apply (loc_aside (λ _, True))|]. intros [].
  apply anyway_bind; [apply (loc_now (λ _, True))|]. intros t. apply anyway_try; [apply anyway_lift|]. intros expires.
  apply anyway_try; [apply anyway_lift|]. intros [[root root_sources] sources]. apply anyway_try; [apply anyway_lift|]. intros bytes.
  apply anyway_try; [apply anyway_file|]. intros []. apply anyway_try; [apply anyway_file|]. intros [].
  apply anyway_try; [eapply loc_weaken; [apply (loc_root_bytes (λ _, True))|done|done]|]. intros anchor.
  apply anyway_try; [apply anyway_lift|]. intros signed. apply anyway_metadata.
Qed.

(** A signed generation that no served one reaches. *)
Definition newer v : Prop := idle v ∧ ∃ w b, stamp (vw_repo v) = Some b ∧ signed_version b = Some (w + 1)
  ∧ ∀ p, vw_served v0 ≫= signed_version = Some p → p ≤ w.

Lemma sign_plan_pass keyring plan expiry_days : ahead →
  pass prefix readied (sign_plan keyring plan expiry_days) (λ r v, match r with inr _ => newer v | inl _ => idle v end).
Proof.
  intros [_ Hahead]. unfold sign_plan. eapply (pass_try _ _ _ _ (λ _, readied)).
  - apply pass_or_else, pass_repo. intros v Hv. eapply loc_weaken; [apply (loc_aside (λ f, f = vw_repo v))|done|].
    intros r f ->. by destruct v.
  - by intros e v [? _].
  - intros []. eapply (pass_try _ _ _ _ (λ _, readied)); [|by intros e v [? _]|].
    { apply pass_or_else, pass_repo. intros v Hv.
      eapply loc_weaken; [apply (loc_each_same _ (λ f, f = vw_repo v)); intros x; apply loc_aside|done|]. intros r f ->. by destruct v. }
    intros []. apply pass_pure; [by intros e v [? _]|]. intros keys _. apply pass_or_else, pass_repo. intros v [Hi Hst] c r c' Hx Hc Hr.
    destruct (publish_release_stamp keyring keys (release_target <$> pp_targets plan) expiry_days true (stamp (vw_repo v))
      c r c' Hx ltac:(by rewrite Hc) Hr) as [Hx' [_ Hs]].
    split; [done|]. destruct r as [e|[]]; [done|]. split; [done|]. destruct (Hs eq_refl) as (w & b & Hw & Hb & Hn).
    exists w, b. split_and!; [done..|]. intros p Hp. destruct (Hahead p Hp) as [Hroot (w' & Hw' & Hle)]. rewrite Hst in Hw by done. congruence.
Qed.

(** ** The journal and the upload *)

Lemma write_local_pass (P : view → Prop) path bytes (Q : _ → view → Prop) :
  (∀ e v, P v → Q (inl e) v) → (∀ r v, P v → Q r (with_state (<[path := bytes]> (vw_state v)) v)) →
  pass prefix P (write_local path bytes) Q.
Proof.
  intros Hno Hyes. unfold write_local.
  eapply (pass_try _ _ _ _ (λ r v, match r with inl e => Q (inl e) v | inr _ => Q (inr tt) v end)).
  - apply pass_or_else, pass_state. intros v HP. unfold write_file. apply loc_overwrite.
    + intros f ->. cbn. assert (with_state (vw_state v) v = v) as -> by by destruct v. by apply Hno.
    + intros f r -> _. destruct r; cbn; by apply Hyes.
  - done.
  - intros n. by apply pass_ret.
Qed.

Lemma current_version_pass (P : view → Prop) :
  pass prefix P (or_else CRepo (on_repo current_version)) (λ r v, P v ∧ ∀ w, r = inr w →
    ∃ b, stamp (vw_repo v) = Some b ∧ signed_version b = Some w ∧ str_len b ≤ 1024 * 1024).
Proof.
  apply pass_or_else, pass_repo. intros v HP. unfold current_version.
  eapply loc_try; [apply (loc_load_local (λ f, f = vw_repo v))|intros e f [-> _]; by destruct v|]. intros repo. apply loc_ret.
  intros f [-> Hr]. split; [by destruct v|]. intros w [= <-]. destruct (Hr repo eq_refl) as (root & _ & Hld). by eapply load_stamp_bytes.
Qed.

(** The upload of a journalled generation. *)
Lemma publish_local_repository_pass b :
  pass prefix (λ v, pending b v ∧ stamp (vw_repo v) = Some b ∧ vw_served v = vw_served v0 ∧ vw_objects v = vw_objects v0)
    (publish_local_repository prefix)
    (λ r v, pending b v ∧ vw_objects v = vw_objects v0 ∧ (vw_served v = vw_served v0 ∨ vw_served v = Some b)
       ∧ (r = inr tt → vw_served v = Some b)).
Proof.
  set (P := λ v, pending b v ∧ stamp (vw_repo v) = Some b ∧ vw_served v = vw_served v0 ∧ vw_objects v = vw_objects v0).
  unfold publish_local_repository.
  eapply (pass_try _ _ _ _ (λ r v, P v ∧ ∀ plan, r = inr plan → well_formed_plan plan)).
  - apply pass_or_else, pass_repo. intros v HP. eapply loc_weaken; [apply (current_publication_plan_loc (λ f, f = vw_repo v))|done|].
    intros r f [-> Hr]. split; [by destruct v|]. intros plan Hp%map_err_inr. destruct (Hr plan Hp) as (root & repo & _ & _ & Hpl). apply Hpl.
  - intros e v [(? & ? & ? & ?) _]. split_and!; [done..|by left|done].
  - intros plan. eapply (pass_bind _ _ _ _ (λ files v, P v ∧ well_formed_plan plan ∧ files = vw_repo v)).
    { apply pass_repo. intros v [HP Hw]. eapply loc_weaken; [by apply (loc_peek (λ f, f = vw_repo v) contents id)|done|].
      intros r f [-> ->]. specialize (Hw plan eq_refl). by destruct v. }
    intros files. apply pass_or_else, pass_store. intros v ((Hp & Hst & Hs & Ho) & Hw & ->).
    eapply runs_weaken; [by apply (publish_repository_fenced prefix distinct (vw_repo v) plan)|done|].
    intros s1 r s2 Hs1 [Hts Hr]. change (vw_repo v !! TIMESTAMP) with (stamp (vw_repo v)) in *. rewrite Hst in *.
    assert (pending b (with_served (timestamp_of prefix s2) v)) as Hp' by (by destruct Hp).
    split_and!; [done..| |].
    + destruct Hts as [Hts|(b' & [= <-] & Hts)]; [left|by right]. unfold fenced in Hts. cbn. congruence.
    + intros Hok%map_err_inr. destruct (Hr Hok) as (b' & [= <-] & ?). done.
Qed.

Lemma publish_signed_pass : ahead →
  pass prefix newer (publish_signed prefix tx) (λ r v, match r with inr _ => live v | inl _ => left_behind v end).
Proof.
  intros [Hread _]. unfold publish_signed. eapply (pass_try _ _ _ _ (λ _, newer)).
  { by apply pass_or_else, pass_lease. }
  { intros e v [? _]. by apply idle_left. }
  intros held. apply pass_pure; [intros e v [? _]; by apply idle_left|]. intros [] _.
  eapply pass_try; [apply (pass_publication_marker _ newer)|intros e v [[? _] _]; by apply idle_left|]. intros m.
  apply pass_pure; [intros e v [[? _] _]; by apply idle_left|]. intros marker ->%ok_or_inr.
  eapply pass_try; [apply current_version_pass|intros e v [[[? _] _] _]; by apply idle_left|]. intros version.
  apply pass_pure; [intros e v [[[? _] _] _]; by apply idle_left|]. intros bytes Hbytes%ok_or_inr.
  apply pass_pure; [intros e v [[[? _] _] _]; by apply idle_left|]. intros [] Hlen%demand_inr%N.leb_le.
  set (P := λ b v, pending b v ∧ stamp (vw_repo v) = Some b ∧ vw_served v = vw_served v0 ∧ vw_objects v = vw_objects v0).
  eapply (pass_try _ _ _ _ (λ r v, match r with inr _ => ∃ b, P b v | inl _ => left_behind v end)); [|done|].
  - apply write_local_pass; [intros e v [[[? _] _] _]; by apply idle_left|].
    intros r v [[[(Hj & Hs & Ho) (w & b & Hst & Hw & Hp)] Hm] Hver]. destruct (Hver version eq_refl) as (b' & Hb' & Hsv & Hl).
    rewrite Hst in Hb'. injection Hb' as <-. assert (version = w + 1) as -> by congruence. destruct (Hm marker eq_refl) as [Hmv _].
    assert (P b (with_state (<[PENDING_STATE_FILE := bytes]> (vw_state v)) v)) as HP.
    { split_and!; [|done..]. split; [|unfold OBJECT_BYTES_LIMIT; lia|done]. exists bytes, marker, (w + 1).
      split_and!; [by apply lookup_insert_eq|done..|lia|done|]. intros Heq%Hp. lia. }
    destruct r; [|by eauto]. destruct HP as (? & ? & ? & Ho'). eapply LJournalled; [done..|]. rewrite Ho'. apply from.
  - intros []. apply pass_exists. intros b.
    eapply pass_try; [apply publish_local_repository_pass| |].
    + intros e v (Hp & Ho & [Hs|Hs] & _); [eapply LJournalled; [done..|]|eapply LLive; [done..|left]]; rewrite Ho; apply from.
    + intros []. assert (∀ v, pending b v ∧ vw_objects v = vw_objects v0 ∧ (vw_served v = vw_served v0 ∨ vw_served v = Some b)
        ∧ (inr tt = inr tt :> CommitError + unit → vw_served v = Some b) → live v) as Hlive.
      { intros v (? & ? & _ & Hs). exists b. auto. }
      apply pass_pure; [intros e v Hv; by apply live_left, Hlive|]. intros encoded _. apply write_local_pass.
      * intros e v Hv. by apply live_left, Hlive.
      * intros r v (Hp & Ho & _ & Hs). assert (live (with_state (<[PUBLISHED_GENERATION_FILE := encoded]> (vw_state v)) v)) as Hl.
        { exists b. split_and!; [|by apply Hs|done]. destruct Hp as [(bytes' & m & ver & Hb & ?) ? ?]. split; [|done..].
          exists bytes', m, ver. cbn. by rewrite lookup_insert_ne. }
        destruct r; [by apply live_left|done].
Qed.

(** ** The whole transaction *)

(** Either the generation is live and journalled, or the published one was the one wanted. *)
Definition settled v : Prop := live v ∨ (idle v ∧ unchanged).

Lemma settled_left v : settled v → left_behind v.
Proof. intros [?|[? _]]; [by apply live_left|by apply idle_left]. Qed.

Lemma publish_generation_pass content_unchanged renewals : (content_unchanged = true → unchanged) →
  pass prefix (λ v, v = v0) (publish_generation prefix tx content_unchanged (bool_decide (is_Some (vw_repo v0 !! ROOT))) renewals)
    (λ r v, match r with inr _ => settled v | inl _ => left_behind v end).
Proof.
  intros Hun. assert (idle v0) as Hidle by (split; [apply from|done]). unfold publish_generation.
  eapply pass_try; [apply refuse_generation_rollback_pass|intros e v [-> _]; by apply idle_left|]. intros [].
  apply pass_fact with ahead; [intros v [_ Ha]; by apply Ha|]. intros Hahead.
  eapply pass_weaken with (P' := λ v, v = v0); [|by intros v [? _]|by intros r v Hq; exact Hq].
  eapply (pass_try _ _ _ _ (λ _ v, v = v0)); [by apply pass_or_else, pass_secrets|intros e v ->; by apply idle_left|].
  intros [_n signing]. eapply pass_try; [apply materialize_signing_keys_pass|intros e v [? _]; by apply idle_left|]. intros [].
  eapply (pass_bind _ _ _ _ (λ _ v, idle v ∧ vw_repo v = vw_repo v0)).
  { apply pass_state. intros v Hv. eapply loc_weaken; [by apply (loc_peek (λ f, f = vw_state v) _ keyring_of)|done|].
    intros r f [-> _]. by destruct v. }
  intros keyring. eapply (pass_try _ _ _ _ (λ r v, match r with inr _ => readied v | inl _ => idle v end)).
  - case_bool_decide as Hinit.
    + eapply (pass_bind _ _ _ _ (λ _, readied)); [|intros r; by apply pass_ret].
      eapply pass_weaken; [apply renew_expiring_root_pass| |done]. intros v [? Heq]. split; [done|]. by rewrite Heq.
    + apply pass_pure; [by intros e v [? _]|]. intros keys _.
      eapply (pass_try _ _ _ _ (λ _, idle)); [|done|intros []; apply pass_ret; by intros v ?; split].
      apply pass_or_else, pass_repo. intros v [Hi _]. eapply loc_weaken; [apply anyway_init|done|]. by intros r f _.
  - intros e v ?. by apply idle_left.
  - intros [left failure]. destruct (publication_required content_unchanged left) eqn:Hreq.
    + eapply pass_try; [by apply sign_plan_pass|intros e v ?; by apply idle_left|]. intros [].
      eapply pass_try; [by apply publish_signed_pass|done|]. intros []. apply pass_ret. by left.
    + apply pass_ret. intros v [? _]. right. split; [done|]. apply Hun. unfold publication_required in Hreq.
      by destruct content_unchanged.
Qed.

Lemma retire_inputs_pass (P : view → Prop) plan : pass prefix P (retire_inputs prefix plan) (λ _, P).
Proof.
  unfold retire_inputs. eapply (pass_bind _ _ _ _ (λ _, P)); [by apply pass_private|]. intros t.
  apply pass_pure; [done|]. intros cutoff _. eapply (pass_bind _ _ _ _ (λ _, P)); [by apply pass_private|]. intros r. by apply pass_ret.
Qed.

(** The cluster records the plan; the generation is live, or it was. *)
Definition recorded_plan v : Prop :=
  recorded base (vw_objects v) planned
  ∧ ((∃ b, pending b v ∧ vw_served v = Some b) ∨ (vw_state v !! PENDING_STATE_FILE = None ∧ vw_served v = vw_served v0 ∧ unchanged)).

Lemma recorded_plan_left v : recorded_plan v → left_behind v.
Proof. intros [? [(b & ? & ?)|(? & ? & ?)]]; [by eapply LLive; eauto|by apply LRecorded]. Qed.

Lemma settled_objects o v : settled v → recorded base o s ∨ recorded base o planned → left_behind (with_objects o v).
Proof.
  intros [(b & Hp & Hs & _)|[(Hj & Hs & _) Hu]] Hr.
  - eapply LLive; [|done|done]. by destruct Hp.
  - destruct Hr; [by apply LNothing|by apply LRecorded].
Qed.

Lemma settled_recorded o v : settled v → recorded base o planned → recorded_plan (with_objects o v).
Proof.
  intros [(b & Hp & Hs & _)|[(Hj & Hs & _) Hu]] Hr; (split; [done|]); [left|by right]. exists b. split; [by destruct Hp|done].
Qed.

Lemma settled_from v : settled v → recorded base (vw_objects v) s ∧ current base (vw_objects v) (tx_admitted_version tx).
Proof. intros [(b & _ & _ & Ho)|[(_ & _ & Ho) _]]; rewrite Ho; split; apply from. Qed.

(** Everything is recorded, and no journal is left. *)
Definition committed v : Prop :=
  recorded base (vw_objects v) planned ∧ vw_state v !! PENDING_STATE_FILE = None
  ∧ ((∃ b, vw_served v = Some b ∧ vw_served v0 ≠ Some b) ∨ (vw_served v = vw_served v0 ∧ unchanged)).

Lemma committed_left v : committed v → left_behind v.
Proof. intros (? & ? & [(b & ? & ?)|[? ?]]); [by eapply LCommitted|by apply LRecorded]. Qed.

Lemma store_pass :
  pass prefix settled
    (match tx_prepared_state tx with
     | Some prepared =>
         at_try (or_else CState (on_api (store_admitted_state base prepared (tx_admitted_version tx)))) (λ _, mret (inr tt))
     | None => mret (inr tt)
     end) (λ r v, match r with inr _ => recorded_plan v | inl _ => left_behind v end).
Proof.
  destruct (tx_prepared_state tx) as [prepared|] eqn:Hprep.
  - specialize (prepared_some prepared eq_refl). pose proof (prepared_decodes _ _ _ prepared_some) as (_ & _ & _ & Hmax & _).
    eapply (pass_try _ _ _ _ (λ r v, match r with inr _ => recorded_plan v | inl _ => left_behind v end)); [|done|intros ver; by apply pass_ret].
    apply pass_or_else, pass_api. intros v Hv. destruct (settled_from v Hv) as [Hrec Hcur].
    eapply kwp_mono; [apply (kwp_store base index_serialises false s planned prepared); [by rewrite Hmax|by rewrite Hmax|exact Hrec|exact Hcur]| |].
    + intros ver o [Hr _]. by apply settled_recorded.
    + intros o Hr e. by apply settled_objects.
  - apply pass_ret. intros v Hv. destruct (settled_from v Hv) as [Hrec _]. assert (with_objects (vw_objects v) v = v) as <- by by destruct v.
    apply settled_recorded; [done|]. by rewrite prepared_none.
Qed.

Lemma remove_pending_pass :
  pass prefix recorded_plan remove_pending_publication_journal (λ r v, match r with inr _ => committed v | inl _ => left_behind v end).
Proof.
  eapply (pass_bind _ _ _ _ (λ r v, match r with inr _ | inl ENotFound => committed v | inl _ => left_behind v end)).
  - apply pass_state. intros v [Hrec Hcase]. eapply loc_weaken; [apply (loc_remove_file (vw_state v))|done|].
    intros r f (Hf & Hok & Hnf).
    assert (f = delete PENDING_STATE_FILE (vw_state v) → committed (with_state f v)) as Hdone.
    { intros ->. split_and!; [done|apply lookup_delete_eq|]. destruct Hcase as [(b & Hp & Hs)|(_ & Hs & Hu)]; [left|by right].
      exists b. split; [done|by eapply pending_new]. }
    assert (left_behind (with_state f v)) as Hleft.
    { destruct Hf as [->| ->]; [|by apply committed_left, Hdone]. assert (with_state (vw_state v) v = v) as -> by by destruct v.
      apply recorded_plan_left. by split. }
    destruct r as [[]|n]; [|done..|by apply Hdone; eauto]. destruct (Hnf eq_refl) as [-> Hno].
    destruct Hcase as [(b & [(bytes & m & ver & Hb & _) _ _] & _)|(_ & Hs & Hu)]; [congruence|]. split_and!; [done|done|by right].
  - intros r. apply pass_ret. by destruct r as [[]|n].
Qed.

Lemma read_publication_marker_pass (P : view → Prop) :
  pass prefix P read_publication_marker (λ r v, P v ∧ ∀ m, r = inr (Some m) →
    ∃ bytes, vw_state v !! PUBLISHED_GENERATION_FILE = Some bytes ∧ from_slice bytes = Some m).
Proof.
  eapply (pass_bind _ _ _ _ (λ r v, P v ∧ ∀ b, r = inr b → vw_state v !! PUBLISHED_GENERATION_FILE = Some b)).
  - apply pass_state. intros v HP. eapply loc_weaken; [apply (loc_read_file (λ f, f = vw_state v))|done|].
    intros r f (-> & _ & Hb). by destruct v.
  - intros r. apply pass_ret. intros v [HP Hb]. split; [done|]. intros m Hm. destruct r as [[]|bytes]; try discriminate Hm.
    specialize (Hb bytes eq_refl). sum_inv. eauto.
Qed.

Lemma commit_pass :
  pass prefix (λ v, v = v0) (commit prefix tx) (λ r v, match r with inr _ => committed v | inl _ => left_behind v end).
Proof.
  assert (idle v0) as Hidle by (split; [apply from|done]). unfold commit.
  eapply (pass_try _ _ _ _ (λ _ v, v = v0)); [by apply pass_or_else, pass_private|intros e v ->; by apply idle_left|]. intros [].
  eapply pass_try; [apply (pass_publication_marker _ (λ v, v = v0))|intros e v [-> _]; by apply idle_left|]. intros local.
  apply pass_fact with (∀ m, local = Some m → ∃ root timestamp, vw_repo v0 !! ROOT = Some root ∧ vw_repo v0 !! TIMESTAMP = Some timestamp
    ∧ m = mkPublicationMarker (tx_desired_digest tx) (sha256_bytes root) (sha256_bytes timestamp)).
  { intros v [-> Hm] m ->. destruct (Hm m eq_refl) as [_ ?]. done. }
  intros Hlocal. eapply pass_weaken with (P' := λ v, v = v0); [|by intros v [? _]|by intros r v Hq; exact Hq].
  eapply pass_bind; [apply (read_publication_marker_pass (λ v, v = v0))|]. intros recorded.
  set (content := bool_decide (is_Some local) && bool_decide (local = default None (ok_of recorded))).
  apply pass_fact with (content = true → unchanged).
  { intros v [-> Hr] [[m ->]%bool_decide_eq_true Heq%bool_decide_eq_true]%andb_true_iff.
    destruct recorded as [e|r]; simpl in Heq; [done|]. subst r. destruct (Hlocal m eq_refl) as (root & timestamp & ? & ? & ->).
    destruct (Hr _ eq_refl) as (bytes & ? & ?). unfold unchanged. eauto 10. }
  intros Hun. eapply pass_weaken with (P' := λ v, v = v0); [|by intros v [? _]|by intros r v Hq; exact Hq].
  eapply (pass_bind _ _ _ _ (λ _ v, v = v0)).
  { unfold expiring_metadata. eapply pass_bind; [apply (pass_metadata_expiry _ (λ v, v = v0))|]. intros l.
    eapply pass_bind; [apply (pass_metadata_expiry _ (λ v, v = v0))|]. intros l'. by apply pass_ret. }
  intros renewals. eapply (pass_try _ _ _ _ (λ r v, v = v0 ∧ ∀ i, r = inr i → i = bool_decide (is_Some (vw_repo v0 !! ROOT)))).
  { apply pass_or_else, pass_repo. intros v ->. eapply loc_weaken; [apply (loc_path_entry_exists (λ f, f = vw_repo v0))|done|].
    intros r f [-> Hr]. split; [by destruct v0|]. intros i Hi%map_err_inr. auto. }
  { intros e v [-> _]. by apply idle_left. }
  intros initialized. apply pass_fact with (initialized = bool_decide (is_Some (vw_repo v0 !! ROOT))); [intros v [_ Hi]; auto|].
  intros ->. eapply pass_weaken with (P' := λ v, v = v0); [|by intros v [? _]|by intros r v Hq; exact Hq].
  eapply (pass_try _ _ _ _ (λ r v, match r with inr _ => settled v | inl _ => left_behind v end)); [|done|].
  { destruct (publication_required content renewals) eqn:Hreq; [by apply publish_generation_pass|]. apply pass_ret. intros v ->. right.
    split; [done|]. apply Hun. unfold publication_required in Hreq. by destruct content. }
  intros failure. eapply pass_try; [apply (retire_inputs_pass settled)|intros e v ?; by apply settled_left|]. intros [].
  eapply (pass_try _ _ _ _ (λ r v, match r with inr _ => committed v | inl _ => left_behind v end)); [|done|intros []; by apply pass_ret].
  unfold record_state. eapply pass_try; [apply store_pass|done|]. intros []. apply remove_pending_pass.
Qed.

(** ** Recovery

    The next pass, which runs undisturbed. *)

Record undisturbed (σ : site) : Prop := mkUndisturbed {
  qu_state : cl_turns (si_state σ) = [];
  qu_store : cl_turns (si_store σ) = [];
  qu_api : as_faults (si_api σ) = [];
}.

Definition calmly {T} (P : view → Prop) (m : At T) (Q : T → view → Prop) : Prop :=
  ∀ σ, undisturbed σ → P (view_of prefix σ) → let '(t, σ') := m σ in undisturbed σ' ∧ Q t (view_of prefix σ').

Lemma calm_ret {T} (P : view → Prop) (t : T) (Q : T → view → Prop) : (∀ v, P v → Q t v) → calmly P (mret t) Q.
Proof. intros HQ σ Hq HP. split; [done|]. by apply HQ. Qed.

Lemma calm_bind {T U} (P : view → Prop) (m : At T) (k : T → At U) (Q1 : T → view → Prop) (Q : U → view → Prop) :
  calmly P m Q1 → (∀ t, calmly (Q1 t) (k t) Q) → calmly P (m ≫= k) Q.
Proof.
  intros Hm Hk σ Hq HP. specialize (Hm σ Hq HP). unfold mbind, At_bind. destruct (m σ) as [t σ']. destruct Hm as [Hq' HQ]. by apply Hk.
Qed.

(** A step that succeeds. *)
Lemma calm_try {A B} (P : view → Prop) (m : At (CommitError + A)) (k : A → At (CommitError + B)) (Q1 : A → view → Prop) (Q : _ → view → Prop) :
  calmly P m (λ r v, ∃ a, r = inr a ∧ Q1 a v) → (∀ a, calmly (Q1 a) (k a) Q) → calmly P (at_try m k) Q.
Proof.
  intros Hm Hk. eapply calm_bind; [exact Hm|]. intros r σ Hq (a & -> & HQ). by apply Hk.
Qed.

Lemma calm_weaken {T} (P P' : view → Prop) (m : At T) (Q Q' : T → view → Prop) :
  calmly P' m Q' → (∀ v, P v → P' v) → (∀ t v, Q' t v → Q t v) → calmly P m Q.
Proof. intros Hm HP HQ σ Hg Hv. specialize (Hm σ Hg (HP _ Hv)). destruct (m σ) as [t σ']. naive_solver. Qed.

Lemma calm_api {T} (P : view → Prop) (m : K T) (Q : T → view → Prop) :
  (∀ v, P v → kwp true m (λ a o, Q a (with_objects o v)) (λ _, False) (vw_objects v)) →
  calmly P (or_else CState (on_api m)) (λ r v, ∃ a, r = inr a ∧ Q a v).
Proof.
  intros Hm σ [] HP. unfold or_else, on_api, mbind, At_bind. specialize (Hm _ HP (si_api σ) eq_refl ltac:(done)).
  destruct (m (si_api σ)) as [[e|a] c]; destruct Hm as [H1' H2']; [done|]. split; [split; [done..|by apply H2']|]. exists a. done.
Qed.

(** What a bounded read answers. *)
Definition answer (f : Files) (path : string) (limit : N) : ApiError + string :=
  bytes ← ok_or (f !! path) ENotFound; _ ← demand (str_len bytes <=? limit) EUnavailable; inr bytes.

Lemma calm_read_file (P : view → Prop) path limit :
  calmly P (on_state (read_file path limit)) (λ r v, P v ∧ r = answer (vw_state v) path limit).
Proof.
  intros [r st se pr le sc ap] [] HP. destruct st as [sh turns made]. simpl in *. subst turns.
  unfold on_state, read_file, mbind, Sh_bind. cbn. split; [done|]. split; [done|]. unfold answer, contents. rewrite lookup_fmap.
  cbn. by destruct (sh_objects sh !! path) as [[ver b]|].
Qed.

Lemma calm_write (P : view → Prop) path bytes (Q : view → Prop) :
  (∀ v, P v → Q (with_state (<[path := bytes]> (vw_state v)) v)) →
  calmly P (write_local path bytes) (λ r v, ∃ u, r = inr u ∧ Q v).
Proof.
  intros HQ [r st se pr le sc ap] [] HP. destruct st as [sh turns made]. simpl in *. subst turns.
  unfold write_local, at_try, or_else, on_state, write_file, overwrite, mbind, At_bind. cbn. split; [done|]. exists tt. split; [done|].
  specialize (HQ _ HP). unfold view_of. cbn. unfold contents, put_object in *. cbn in *. by rewrite fmap_insert.
Qed.

Lemma calm_remove (P : view → Prop) (Q : view → Prop) :
  (∀ v, P v → Q (with_state (delete PENDING_STATE_FILE (vw_state v)) v)) →
  calmly P remove_pending_publication_journal (λ r v, ∃ u, r = inr u ∧ Q v).
Proof.
  intros HQ [r st se pr le sc ap] [] HP. destruct st as [sh turns made]. simpl in *. subst turns. specialize (HQ _ HP).
  unfold remove_pending_publication_journal, on_state, remove_file, mbind, At_bind. cbn [si_state]. rewrite change_quiet. cbn in *.
  case_bool_decide as Hp; cbn; (split; [done|]); exists tt; (split; [done|]).
  - unfold view_of. cbn. unfold contents, Shared.drop_object in *. cbn in *. by rewrite fmap_delete.
  - unfold view_of in *. cbn in *. unfold with_state in HQ. cbn in HQ. rewrite delete_id in HQ; [done|]. unfold contents. rewrite lookup_fmap.
    by rewrite Hp.
Qed.

(** What the store is found to serve. *)
Lemma calm_published (P : view → Prop) (Q : option N → view → Prop) :
  (∀ v, P v → ∀ o, vw_served v = Some o → str_len o ≤ OBJECT_BYTES_LIMIT ∧ is_Some (signed_version o)) →
  (∀ v, P v → Q (vw_served v ≫= signed_version) v) →
  calmly P (or_else CPublish (on_store (store_published_version prefix))) (λ r v, ∃ a, r = inr a ∧ Q a v).
Proof.
  intros Hok HQ [r st se pr le sc ap] [] HP. destruct se as [sh turns made]. simpl in *. subst turns. specialize (HQ _ HP). specialize (Hok _ HP).
  unfold or_else, on_store, store_published_version, mbind, At_bind, Sh_bind, Shared.get. cbn [si_store]. rewrite read_quiet. cbn in *.
  unfold timestamp_of in *. destruct (sh_objects sh !! object_key prefix TIMESTAMP) as [[ver b]|] eqn:Hb; cbn in *.
  - destruct (Hok b eq_refl) as [Hl [w Hw]]. unfold within_limit. rewrite (proj2 (N.leb_le _ _) Hl). cbn. rewrite Hw. cbn.
    split; [done|]. exists (Some w). split; [done|]. rewrite Hw in HQ. unfold view_of in *. cbn in *. exact HQ.
  - split; [done|]. exists None. split; [done|]. exact HQ.
Qed.

Lemma calm_marker (P : view → Prop) m (Q : view → Prop) : marker_validate m = inr tt →
  (∀ v, P v → Q v) → (∀ v bytes, P v → Q (with_state (<[PUBLISHED_GENERATION_FILE := bytes]> (vw_state v)) v)) →
  calmly P (finish_marker m) (λ r v, ∃ u, r = inr u ∧ Q v).
Proof.
  intros Hm Hno Hyes. unfold finish_marker. eapply (calm_bind _ _ _ (λ _, P)).
  { unfold read_publication_marker. eapply calm_bind; [apply (calm_read_file P)|]. intros r. apply calm_ret. by intros v [? _]. }
  intros r. case_bool_decide; [apply calm_ret; intros v ?; exists tt; eauto|].
  destruct (marker_serialises m Hm) as (b & Hb & Hl).
  assert (marker_to_bounded_json m = inr b) as Henc.
  { unfold marker_to_bounded_json. rewrite Hm. cbn. rewrite Hb. cbn. by rewrite (proj2 (N.leb_le _ _) Hl). }
  rewrite Henc. eapply (calm_try _ _ _ (λ encoded v, P v ∧ encoded = b)); [apply calm_ret; eauto|].
  intros encoded. apply calm_write. intros v [HP ->]. auto.
Qed.

Lemma try_from_valid stored x : durable_try_from stored = inr x → durable_validate x = inr tt.
Proof.
  unfold durable_try_from. intros Hx. sum_inv. rename select (durable_validate _ = _) into Hv. by destruct (durable_validate _) as [|[]].
Qed.

Lemma recorded_valid o x : recorded base o x → durable_validate x = inr tt.
Proof.
  assert (∀ parts, decode_state parts = Some x → durable_validate x = inr tt) as Hdec.
  { intros parts. unfold decode_state. destruct (from_slice parts) as [stored|]; [|done]. cbn.
    destruct (durable_try_from stored) as [e|y] eqn:Hy; [done|]. intros [= <-]. by eapply try_from_valid. }
  unfold recorded, document. destruct (o !! base) as [[rv cm]|]; [|by intros ->].
  intros (i & _ & Hd). destruct (ix_active i); [|by subst x].
  destruct Hd as (revision & _ & parts & _ & _ & _ & Hx). by eapply Hdec.
Qed.

Lemma planned_valid : durable_validate planned = inr tt.
Proof.
  destruct (tx_prepared_state tx) as [p|] eqn:Hp.
  - by destruct (prepared_decodes _ _ _ (prepared_some p eq_refl)) as (_ & ? & _).
  - rewrite (prepared_none eq_refl). eapply recorded_valid. apply from.
Qed.

Lemma calm_fact {T} (P : view → Prop) (m : At T) (Q : T → view → Prop) (φ : Prop) :
  (∀ v, P v → φ) → (φ → calmly P m Q) → calmly P m Q.
Proof. intros Hφ Hm σ Hg HP. by apply (Hm (Hφ _ HP)). Qed.

Lemma calm_pure {A B} (P : view → Prop) (r : CommitError + A) a (k : A → At (CommitError + B)) (Q : _ → view → Prop) :
  r = inr a → calmly P (k a) Q → calmly P (at_try (pure r) k) Q.
Proof. by intros ->. Qed.

(** Where the next pass starts. *)
Record resumes (v1 : view) (r : CommitError + (DurableRolloutState * option AdmittedStateVersion)) v : Prop := mkResumes {
  rs_answer : ∃ y version, r = inr (y, version) ∧ recorded base (vw_objects v) y ∧ current base (vw_objects v) version
    ∧ (y = s ∨ y = planned)
    ∧ (vw_served v1 ≠ vw_served v0 → y = planned)
    ∧ (vw_served v1 = vw_served v0 → y = s ∨ unchanged);
  rs_journal : vw_state v !! PENDING_STATE_FILE = None;
}.

(** The adoption of a journalled state. *)
Lemma adopt_calm (P : view → Prop) durable version :
  (∀ v, P v → recorded base (vw_objects v) durable ∧ current base (vw_objects v) version ∧ (durable = s ∨ durable = planned)) →
  calmly P
    (if bool_decide (planned = durable) then mret (inr (durable, version))
     else
       at_try (pure (map_err CDurable (prepare_admitted_state planned max_shards))) (λ prepared,
       at_try (or_else CState (on_api (store_admitted_state base prepared version))) (λ version,
       mret (inr (planned, Some version)))))
    (λ r v, ∃ a, r = inr a ∧ a.1 = planned ∧ recorded base (vw_objects v) planned ∧ current base (vw_objects v) a.2
       ∧ ∃ o, P (with_objects o v)).
Proof.
  intros HP. case_bool_decide as Heq.
  { apply calm_ret. intros v Hv. destruct (HP v Hv) as (? & ? & _). exists (durable, version). rewrite Heq.
    split_and!; [done..|]. exists (vw_objects v). by destruct v. }
  intros σ Hq Hv. destruct (tx_prepared_state tx) as [p|] eqn:Hp.
  2:{ destruct (HP _ Hv) as (_ & _ & [->| ->]); [|done]. by rewrite (prepared_none eq_refl) in Heq. }
  pose proof (prepared_some p eq_refl) as Hprep. pose proof (prepared_decodes _ _ _ Hprep) as (_ & _ & _ & Hmax & _).
  rewrite Hprep. revert σ Hq Hv. change (calmly P (at_try (or_else CState (on_api (store_admitted_state base p version)))
    (λ version, mret (inr (planned, Some version)))) (λ r v, ∃ a, r = inr a ∧ a.1 = planned ∧ recorded base (vw_objects v) planned
       ∧ current base (vw_objects v) a.2 ∧ ∃ o, P (with_objects o v))).
  eapply (calm_try _ _ _ (λ ver v, recorded base (vw_objects v) planned ∧ current base (vw_objects v) (Some ver) ∧ ∃ o, P (with_objects o v))).
  - apply calm_api. intros v Hv. destruct (HP v Hv) as (Hrec & Hcur & _).
    pose proof (kwp_store base index_serialises true durable planned p ltac:(by rewrite Hmax) ltac:(by rewrite Hmax) version _ Hrec Hcur) as Hst.
    intros c Hc Hcalm. specialize (Hst c Hc Hcalm). destruct (store_admitted_state base p version c) as [[e|ver] c']; [by destruct Hst|].
    destruct Hst as [[? ?] ?]. split; [|done]. split_and!; [done..|]. exists (vw_objects v). by destruct v.
  - intros ver. apply calm_ret. intros v (? & ? & ?). exists (planned, Some ver). done.
Qed.

Lemma recover_journal b durable version found :
  calmly (λ v, pending b v ∧ recorded base (vw_objects v) durable ∧ current base (vw_objects v) version
      ∧ ((vw_served v = vw_served v0 ∧ durable = s) ∨ (vw_served v = Some b ∧ (durable = s ∨ durable = planned))) ∧ vw_served v = found)
    (recover_pending_publication prefix base max_shards durable version)
    (λ r v, ∃ y ver, r = inr (y, ver) ∧ recorded base (vw_objects v) y ∧ current base (vw_objects v) ver
       ∧ vw_state v !! PENDING_STATE_FILE = None
       ∧ ((vw_served v = vw_served v0 ∧ y = s) ∨ (vw_served v = Some b ∧ y = planned)) ∧ vw_served v = found).
Proof.
  set (P := λ v, pending b v ∧ recorded base (vw_objects v) durable ∧ current base (vw_objects v) version
      ∧ ((vw_served v = vw_served v0 ∧ durable = s) ∨ (vw_served v = Some b ∧ (durable = s ∨ durable = planned))) ∧ vw_served v = found).
  intros σ Hq HP. pose proof HP as ([(bytes & marker & n & Hb & Henc & Hlen & Hm & Hn & Hsv & Hnew) Hlim Hbefore] & _).
  set (Q := λ (r : CommitError + (DurableRolloutState * option AdmittedStateVersion)) v, ∃ y ver, r = inr (y, ver)
       ∧ recorded base (vw_objects v) y ∧ current base (vw_objects v) ver ∧ vw_state v !! PENDING_STATE_FILE = None
       ∧ ((vw_served v = vw_served v0 ∧ y = s) ∨ (vw_served v = Some b ∧ y = planned)) ∧ vw_served v = found).
  assert (calmly (λ v, P v ∧ vw_state v !! PENDING_STATE_FILE = Some bytes) (recover_pending_publication prefix base max_shards durable version) Q)
    as Hall; [|by apply Hall]. clear σ Hq HP Hb.
  unfold recover_pending_publication. eapply (calm_bind _ _ _ (λ r v, r = inr bytes ∧ P v)).
  { eapply calm_weaken; [apply (calm_read_file (λ v, P v ∧ vw_state v !! PENDING_STATE_FILE = Some bytes))|done|].
    intros r v [[HP Hb] ->]. split; [|done]. unfold answer. rewrite Hb. cbn. by rewrite (proj2 (N.leb_le _ _) Hlen). }
  intros r. apply calm_fact with (r = inr bytes); [by intros v [? _]|]. intros ->.
  eapply (calm_weaken _ P); [|by intros v [_ ?]|by intros r v Hv; exact Hv].
  apply (calm_pure _ _ (mkPendingPublication marker n (stored_from planned))); [by rewrite (serde_roundtrip _ _ Henc)|].
  apply (calm_pure _ _ tt); [cbn; by rewrite (proj2 (N.eqb_neq _ _) Hn), Hm|].
  apply (calm_pure _ _ planned); [cbn; by rewrite (durable_roundtrip _ planned_valid)|]. cbn [pe_version pe_marker].
  set (hit := λ v, bool_decide (vw_served v ≫= signed_version = Some n)).
  assert (∀ v, P v → (hit v = true ∧ vw_served v = Some b ∧ (durable = s ∨ durable = planned)) ∨ (hit v = false ∧ vw_served v = vw_served v0 ∧ durable = s)) as Hhit.
  { intros v (_ & _ & _ & [[Hs ?]|[Hs ?]] & _); unfold hit; rewrite Hs; [right|left].
    - by rewrite bool_decide_false.
    - simpl. by rewrite bool_decide_true. }
  eapply (calm_try _ _ _ (λ a v, P v ∧ a = vw_served v ≫= signed_version)).
  { apply calm_published; [|auto]. intros v Hv o Ho. destruct (Hhit v Hv) as [(_ & Hs & _)|(_ & Hs & _)]; [|by apply Hbefore; rewrite <-Hs].
    rewrite Hs in Ho. injection Ho as <-. split; [done|eauto]. }
  intros a. eapply (calm_try _ _ _ (λ adopted v, ∃ st, P (with_state st v)
    ∧ ((adopted = Some planned ∧ vw_served v = Some b ∧ (durable = s ∨ durable = planned)) ∨ (adopted = None ∧ vw_served v = vw_served v0 ∧ durable = s)))).
  { intros σ Hq [HP ->]. destruct (Hhit _ HP) as [(Hh & Hs & Hd)|(Hh & Hs & Hd)]; unfold hit in Hh; rewrite Hh.
    - revert σ Hq HP Hh Hs. intros σ Hq HP _ Hs.
      pose proof (calm_marker (λ v, P v ∧ vw_served v = Some b) marker (λ v, ∃ st, P (with_state st v) ∧ vw_served v = Some b) Hm) as Hfin.
      ospecialize (Hfin _ _ σ Hq (conj HP Hs)).
      { intros v [Hv ?]. exists (vw_state v). by destruct v. }
      { intros v by' [Hv ?]. exists (vw_state v). by destruct v. }
      unfold at_try, mbind, At_bind. destruct (finish_marker marker σ) as [r σ']. destruct Hfin as (Hq' & u & -> & st & ? & ?).
      split; [done|]. exists (Some planned). split; [done|]. exists st. split; [done|by left].
    - split; [done|]. exists None. split; [done|]. exists (vw_state (view_of prefix σ)). split; [|by right]. by destruct (view_of prefix σ). }
  intros adopted. eapply (calm_try _ _ _ (λ outcome v, recorded base (vw_objects v) outcome.1 ∧ current base (vw_objects v) outcome.2
    ∧ ((vw_served v = vw_served v0 ∧ outcome.1 = s) ∨ (vw_served v = Some b ∧ outcome.1 = planned)) ∧ vw_served v = found)).
  { destruct adopted as [st|].
    - apply calm_fact with (st = planned); [by intros v (? & _ & [[[= ->] _]|[[=] _]])|]. intros ->.
      eapply calm_weaken; [apply (adopt_calm (λ v, recorded base (vw_objects v) durable ∧ current base (vw_objects v) version
        ∧ vw_served v = Some b ∧ (durable = s ∨ durable = planned) ∧ vw_served v = found) durable version); naive_solver| |].
      + intros v (st & (_ & ? & ? & _ & ?) & [(_ & ? & ?)|[[=] _]]). done.
      + intros r v (a' & -> & Ha & ? & ? & o & _ & _ & ? & _ & ?). exists a'. rewrite Ha. split_and!; [done..|by right|done].
    - apply calm_ret. intros v (st & (_ & ? & ? & _ & ?) & [[[=] _]|(_ & ? & ?)]). exists (durable, version). split_and!; [done..|by left|done]. }
  intros [y ver]. eapply (calm_try _ _ _ (λ _ v, recorded base (vw_objects v) y ∧ current base (vw_objects v) ver
    ∧ vw_state v !! PENDING_STATE_FILE = None ∧ ((vw_served v = vw_served v0 ∧ y = s) ∨ (vw_served v = Some b ∧ y = planned)) ∧ vw_served v = found)).
  { eapply calm_weaken; [apply (calm_remove _ (λ v, recorded base (vw_objects v) y ∧ current base (vw_objects v) ver
      ∧ vw_state v !! PENDING_STATE_FILE = None ∧ ((vw_served v = vw_served v0 ∧ y = s) ∨ (vw_served v = Some b ∧ y = planned)) ∧ vw_served v = found))|intros v Hv; exact Hv|].
    - intros v (? & ? & ? & ?). split_and!; [done..|apply lookup_delete_eq|done|done].
    - intros r v (u & -> & ?). eauto. }
  intros []. apply calm_ret. intros v (? & ? & ? & ? & ?). exists y, ver. done.
Qed.

Lemma recover_nothing (P : view → Prop) durable version :
  calmly (λ v, P v ∧ vw_state v !! PENDING_STATE_FILE = None) (recover_pending_publication prefix base max_shards durable version)
    (λ r v, r = inr (durable, version) ∧ P v ∧ vw_state v !! PENDING_STATE_FILE = None).
Proof.
  unfold recover_pending_publication. eapply (calm_bind _ _ _ (λ r v, r = inl ENotFound ∧ P v ∧ vw_state v !! PENDING_STATE_FILE = None)).
  - eapply calm_weaken; [apply (calm_read_file (λ v, P v ∧ vw_state v !! PENDING_STATE_FILE = None))|done|].
    intros r v [[HP Hn] ->]. split; [|done]. unfold answer. by rewrite Hn.
  - intros r. apply calm_fact with (r = inl ENotFound); [by intros v [? _]|]. intros ->. apply calm_ret. naive_solver.
Qed.

Lemma load_calm x v1 : recorded base (vw_objects v1) x →
  calmly (λ v, v = v1) (or_else CState (on_api (load_admitted_state base)))
    (λ r v, ∃ a, r = inr a ∧ a.1 = x ∧ recorded base (vw_objects v) x ∧ current base (vw_objects v) a.2 ∧ ∃ o, v = with_objects o v1).
Proof.
  intros Hx. apply (calm_api _ _ (λ a v, a.1 = x ∧ recorded base (vw_objects v) x ∧ current base (vw_objects v) a.2 ∧ ∃ o, v = with_objects o v1)).
  intros v ->. pose proof (kwp_load base index_serialises true _ _ Hx) as Hld.
  intros c Hc Hcalm. specialize (Hld c Hc Hcalm). destruct (load_admitted_state base c) as [[e|[y ver]] c']; [by destruct Hld|].
  destruct Hld as [(? & ? & ?) ?]. split; [|done]. split_and!; [done..|]. eauto.
Qed.

Lemma resume_nothing x v1 : recorded base (vw_objects v1) x → vw_state v1 !! PENDING_STATE_FILE = None →
  (x = s ∨ x = planned) → (vw_served v1 ≠ vw_served v0 → x = planned) → (vw_served v1 = vw_served v0 → x = s ∨ unchanged) →
  calmly (λ v, v = v1) (load_and_recover prefix base max_shards) (λ r v, resumes v1 r v ∧ ∃ version, r = inr (x, version)).
Proof.
  intros Hx Hj H1' H2' H3'. unfold load_and_recover.
  eapply calm_try; [by apply (load_calm x)|]. intros [y ver]. cbn [fst snd].
  eapply calm_weaken; [apply (recover_nothing (λ v, y = x ∧ recorded base (vw_objects v) x ∧ current base (vw_objects v) ver))| |].
  - intros v (-> & ? & ? & o & ->). done.
  - intros r v (-> & (-> & ? & ?) & ?). split; [|eauto]. split; [|done]. exists x, ver. done.
Qed.

Lemma resume_journal b x v1 : recorded base (vw_objects v1) x → pending b v1 →
  ((vw_served v1 = vw_served v0 ∧ x = s) ∨ (vw_served v1 = Some b ∧ (x = s ∨ x = planned))) →
  calmly (λ v, v = v1) (load_and_recover prefix base max_shards) (resumes v1).
Proof.
  intros Hx Hp Hcase. pose proof (pending_new _ _ Hp) as Hne. unfold load_and_recover.
  eapply calm_try; [by apply (load_calm x)|]. intros [y ver]. cbn [fst snd].
  apply calm_fact with (y = x); [by intros v [? _]|]. intros ->.
  eapply calm_weaken; [apply (recover_journal b x ver (vw_served v1))| |].
  - intros v (_ & ? & ? & o & ->). split_and!; [by destruct Hp|done..].
  - intros r v (y & ver' & -> & ? & ? & ? & Hout & Hs). split; [|done]. exists y, ver'.
    split_and!; [done..|destruct Hout as [[_ ->]|[_ ->]]; auto| |]; rewrite <-Hs; destruct Hout as [[Ho ->]|[Ho ->]]; auto; congruence.
Qed.

Lemma resume_left v1 : left_behind v1 → calmly (λ v, v = v1) (load_and_recover prefix base max_shards) (resumes v1).
Proof.
  intros [Hj Hs Hr|Hj Hs Hu Hr|b Hp Hs Hr|b Hp Hs [Hr|Hr]|b Hj Hs Hne Hr].
  - eapply calm_weaken; [apply (resume_nothing s); [done|done|by left|done|by left]|done|]. by intros r v [? _].
  - eapply calm_weaken; [apply (resume_nothing planned); [done|done|by right|done|by right]|done|]. by intros r v [? _].
  - eapply resume_journal; eauto.
  - eapply resume_journal; eauto.
  - eapply resume_journal; eauto.
  - eapply calm_weaken; [apply (resume_nothing planned); [done|done|by right|done|congruence]|done|]. by intros r v [? _].
Qed.

Lemma resume_committed v1 : committed v1 →
  calmly (λ v, v = v1) (load_and_recover prefix base max_shards) (λ r v, resumes v1 r v ∧ ∃ version, r = inr (planned, version)).
Proof. intros (Hr & Hj & [(b & Hs & Hne)|[Hs Hu]]); apply (resume_nothing planned); auto; intros; congruence. Qed.

End commit.

(** ** The theorem *)

Section theorem.
Context `{!JsonValues} `{!JsonPointers} `{!Sha256} `{!ObjectPaths} `{!ToughOps} `{!Tough} `{!Rfc3339}.
Context `{!Semver} `{!SemverOrder} `{!Urls} `{!AssignmentJson} `{!Base64} `{!Hmac} `{!DataflowJson}.
Context `{!Serde StoredDurableRolloutState} `{!Serde AdmittedStateIndex}.
Context `{!Serde PublicationMarker} `{!Serde PendingPublication}.

(** C2. A published generation is always recorded.  A pass commits from a cluster that records the
    state it planned from, with no journal, its directories its own and the other publishers fenced.
    Whichever of its calls fail, and wherever it dies, the next pass, undisturbed, loads a state and
    leaves no journal: the planned state if the served timestamp moved, and the old one if it did
    not, unless the generation wanted was already the published one; either way the cluster records
    the state the pass starts from.  A commit that reports success is always the planned state. *)
Theorem published_generation_is_recorded prefix tx max_shards s σ r σ1 σ2 :
  distinct_keys prefix → (∀ i : AdmittedStateIndex, is_Some (to_vec i)) →
  (∀ m : PublicationMarker, marker_validate m = inr tt → ∃ b, to_vec m = Some b ∧ str_len b ≤ PUBLICATION_MARKER_MAX_BYTES) →
  shard_limit max_shards = Some max_shards →
  (∀ p, tx_prepared_state tx = Some p → prepare_admitted_state (tx_planned tx) max_shards = inr p) →
  (tx_prepared_state tx = None → tx_planned tx = s) →
  grounded prefix σ → commits_from tx s (view_of prefix σ) →
  commit prefix tx σ = (r, σ1) → undisturbed σ2 → view_of prefix σ2 = view_of prefix σ1 →
  let before := vw_served (view_of prefix σ) in let after := vw_served (view_of prefix σ1) in
  ∃ y version σ3, load_and_recover prefix (tx_admitted_name tx) max_shards σ2 = (inr (y, version), σ3)
    ∧ recorded (tx_admitted_name tx) (as_objects (si_api σ3)) y ∧ current (tx_admitted_name tx) (as_objects (si_api σ3)) version
    ∧ vw_state (view_of prefix σ3) !! PENDING_STATE_FILE = None
    ∧ (y = s ∨ y = tx_planned tx)
    ∧ (after ≠ before → y = tx_planned tx)
    ∧ (after = before → y = s ∨ unchanged tx (view_of prefix σ))
    ∧ (∀ failure, r = inr failure → y = tx_planned tx).
Proof.
  intros Hk Hix Hmk Hw Hps Hpn Hg Hfrom Hrun Hq Hv before after.
  pose proof (commit_pass prefix tx max_shards Hk Hix s Hw Hps Hpn (view_of prefix σ) Hfrom σ Hg eq_refl) as Hpass.
  rewrite Hrun in Hpass. destruct Hpass as [_ Hpass].
  assert (let '(a, σ3) := load_and_recover prefix (tx_admitted_name tx) max_shards σ2 in
    resumes tx s (view_of prefix σ) (view_of prefix σ1) a (view_of prefix σ3)
    ∧ (∀ failure, r = inr failure → ∃ version, a = inr (tx_planned tx, version))) as Hres.
  { destruct r as [e|failure].
    - pose proof (resume_left prefix tx max_shards Hix Hmk s Hw Hps Hpn _ Hfrom _ Hpass σ2 Hq Hv) as Hres.
      destruct (load_and_recover _ _ _ σ2) as [a σ3]. by destruct Hres.
    - pose proof (resume_committed prefix tx max_shards Hix s _ _ Hpass σ2 Hq Hv) as Hres.
      destruct (load_and_recover _ _ _ σ2) as [a σ3]. destruct Hres as (_ & ? & ?). eauto. }
  destruct (load_and_recover _ _ _ σ2) as [a σ3]. destruct Hres as [[(y & version & -> & ? & ? & ? & ? & ?) ?] Hok].
  exists y, version, σ3. split_and!; [done..|]. intros failure Hf. by destruct (Hok failure Hf) as (version' & [= -> ->]).
Qed.

End theorem.
