(* ===== verification/Fixtures.v ===== *)
(** * Fixtures: concrete parameters and records

    Concrete instances of the parameters that stand for code outside the repository (a
    digest, a version grammar, a record codec with its laws proved) and concrete records,
    files and environments, at which the theorems with hypotheses are applied. *)
From S2P Require Import Prelude Identity State Transaction Install World Reject Store.
From S2P Require Import StoreSpec StoreRefine Boot Update AgentLogic Agent Recovery.
From S2P Require Import AgentHistory.

(** ** A digest and a version grammar *)

Fixpoint str_repeat (n : nat) (c : ascii) : string :=
  match n with 0 => EmptyString | S n => String c (str_repeat n c) end.

Definition hex64 (c : ascii) : string := str_repeat 64 c.

#[export] Instance fixture_sha256 : Sha256 :=
  {| sha256_bytes := λ _, hex64 "d"; sha256_canonical := λ _, eq_refl |}.

#[export] Instance fixture_semver : Semver :=
  {| semver_parses := λ s, negb (bool_decide (s = EmptyString)) |}.

(** ** A field codec: each byte escaped by [x], each field closed by a full stop *)

Fixpoint enc_field (s : string) : string :=
  match s with
  | EmptyString => String "." EmptyString
  | String c s => String "x" (String c (enc_field s))
  end.

Fixpoint enc_fields (l : list string) : string :=
  match l with
  | [] => EmptyString
  | s :: l => String.append (enc_field s) (enc_fields l)
  end.

Fixpoint dec_fields (cur : string) (s : string) : option (list string) :=
  match s with
  | EmptyString => if bool_decide (cur = EmptyString) then Some [] else None
  | String a r =>
      if decide (a = "."%char) then l ← dec_fields EmptyString r; Some (cur :: l)
      else if decide (a = "x"%char) then
        match r with
        | String c r => dec_fields (String.append cur (String c EmptyString)) r
        | EmptyString => None
        end
      else None
  end.

Lemma dec_enc_field cur s r :
  dec_fields cur (String.append (enc_field s) r)
  = (l ← dec_fields EmptyString r; Some (String.append cur s :: l)).
Proof.
  revert cur. induction s as [|c s IH]; intros cur; simpl; [by rewrite append_empty_r|].
  rewrite IH. by rewrite <-append_assoc.
Qed.

Lemma dec_enc_fields l : dec_fields EmptyString (enc_fields l) = Some l.
Proof. induction l as [|s l IH]; simpl; [done|]. rewrite dec_enc_field, IH. done. Qed.

Lemma enc_field_len s : str_len (enc_field s) = (2 * str_len s + 1)%N.
Proof. induction s as [|c s IH]; cbn [enc_field str_len]; [done|]. rewrite IH. lia. Qed.

Fixpoint fields_len (l : list string) : N :=
  match l with [] => 0 | s :: l => 2 * str_len s + 1 + fields_len l end.

Lemma enc_fields_len l : str_len (enc_fields l) = fields_len l.
Proof. induction l as [|s l IH]; [done|]. cbn [enc_fields fields_len]. by rewrite str_len_app, enc_field_len, IH. Qed.

(** Numbers as their bits. *)
Fixpoint pos_bits (p : positive) : string :=
  match p with
  | xH => EmptyString
  | xO p => String "0" (pos_bits p)
  | xI p => String "1" (pos_bits p)
  end.

Fixpoint bits_pos (s : string) : positive :=
  match s with
  | EmptyString => xH
  | String c s => if decide (c = "0"%char) then xO (bits_pos s) else xI (bits_pos s)
  end.

Definition n_bits (n : N) : string := match n with N0 => "-" | Npos p => pos_bits p end.
Definition bits_n (s : string) : N := if bool_decide (s = "-"%string) then 0 else Npos (bits_pos s).

Lemma bits_n_bits n : bits_n (n_bits n) = n.
Proof.
  assert (∀ p, bits_pos (pos_bits p) = p) as Hp by (induction p; simpl; congruence).
  unfold bits_n. destruct n as [|p]; [done|]. simpl. case_bool_decide as Hd; [|by rewrite Hp].
  by destruct p.
Qed.

Lemma n_bits_len n b : (n < 2 ^ b)%N → (1 ≤ b)%N → (str_len (n_bits n) ≤ b)%N.
Proof.
  intros Hn Hb. destruct n as [|p]; [done|]. simpl.
  assert (2 ^ str_len (pos_bits p) ≤ Npos p)%N as Hp.
  { clear. induction p as [p IH|p IH|]; cbn [pos_bits str_len]; [| |done];
      rewrite N.pow_succ_r'; lia. }
  destruct (N.le_gt_cases (str_len (pos_bits p)) b) as [|Hgt]; [done|].
  assert (2 ^ b ≤ 2 ^ str_len (pos_bits p))%N by (apply N.pow_le_mono_r; lia). lia.
Qed.

Definition b_str (b : bool) : string := if b then "1" else "0".
Definition str_b (s : string) : bool := bool_decide (s = "1"%string).

Definition phase_str (p : Phase) : string := n_bits (phase_order p).
Definition str_phase (s : string) : Phase :=
  match bits_n s with
  | 0 => Prepared | 1 => Activated | 2 => Converged | 3 => Verified | 4 => Committed
  | 5 => RollbackPlanned | 6 => CandidateCompensated | 7 => Restored | 8 => RollbackVerified
  | _ => RolledBack
  end%N.

Definition iphase_str (p : InstallPhase) : string :=
  match p with Started => "0" | InstallPrepared => "1" | Placed => "2" | InstallCommitted => "3" end.
Definition str_iphase (s : string) : InstallPhase :=
  if bool_decide (s = "0"%string) then Started
  else if bool_decide (s = "1"%string) then InstallPrepared
  else if bool_decide (s = "2"%string) then Placed else InstallCommitted.

(** A serialisation given by the record's fields. *)
Definition fields_serde {T} (to_fields : T → list string) (of_fields : list string → option T)
    (law : ∀ t, of_fields (to_fields t) = Some t) : Serde T.
Proof.
  refine {| to_vec t := Some (enc_fields (to_fields t));
            from_slice s := dec_fields EmptyString s ≫= of_fields |}.
  intros t b [= <-]. rewrite dec_enc_fields. apply law.
Defined.

Definition release_fields (r : ReleaseId) : list string := [version r; manifest_sha256 r].
Definition fields_release (l : list string) : option ReleaseId :=
  match l with [v; m] => Some (mkReleaseId v m) | _ => None end.

Definition transaction_fields (t : Transaction) : list string :=
  [tx_id t; version (tx_previous_release t); manifest_sha256 (tx_previous_release t);
   tx_previous_archive_sha256 t; lineage_str (tx_previous_repository_lineage t);
   version (tx_candidate_release t); manifest_sha256 (tx_candidate_release t);
   tx_candidate_archive_sha256 t; tx_candidate_rejection_sha256 t;
   lineage_str (tx_candidate_repository_lineage t); b_str (tx_candidate_rejection_required t);
   rr_definition_sha256 (tx_previous_reconciler t); rr_product (tx_previous_reconciler t);
   n_bits (rr_api (tx_previous_reconciler t)); n_bits (rr_timeout_millis (tx_previous_reconciler t));
   rr_definition_sha256 (tx_candidate_reconciler t); rr_product (tx_candidate_reconciler t);
   n_bits (rr_api (tx_candidate_reconciler t)); n_bits (rr_timeout_millis (tx_candidate_reconciler t));
   n_bits (tx_rollback_health_failures t); phase_str (tx_phase t)].

Definition fields_transaction (l : list string) : option Transaction :=
  match l with
  | [id; pv; pm; pa; pl; cv; cm; ca; cr; cl; rq; d1; p1; a1; t1; d2; p2; a2; t2; n; ph] =>
      Some (mkTransaction id (mkReleaseId pv pm) pa (mkLineage pl) (mkReleaseId cv cm) ca cr
              (mkLineage cl) (str_b rq) (mkReconcilerRelease d1 p1 (bits_n a1) (bits_n t1))
              (mkReconcilerRelease d2 p2 (bits_n a2) (bits_n t2)) (bits_n n) (str_phase ph))
  | _ => None
  end.

Definition install_fields (t : InstallTransaction) : list string :=
  [it_id t; version (it_release t); manifest_sha256 (it_release t); it_archive_sha256 t;
   lineage_str (it_repository_lineage t); rr_definition_sha256 (it_reconciler t);
   rr_product (it_reconciler t); n_bits (rr_api (it_reconciler t));
   n_bits (rr_timeout_millis (it_reconciler t)); iphase_str (it_phase t)].

Definition fields_install (l : list string) : option InstallTransaction :=
  match l with
  | [id; v; m; a; li; d; p; ap; t; ph] =>
      Some (mkInstallTransaction id (mkReleaseId v m) a (mkLineage li)
              (mkReconcilerRelease d p (bits_n ap) (bits_n t)) (str_iphase ph))
  | _ => None
  end.

Definition guard_fields (g : RollbackGuard) : list string :=
  [rg_attempt_id g; rg_candidate_rejection_sha256 g; version (rg_previous_release g);
   manifest_sha256 (rg_previous_release g); rg_previous_archive_sha256 g;
   lineage_str (rg_previous_repository_lineage g); rr_definition_sha256 (rg_reconciler g);
   rr_product (rg_reconciler g); n_bits (rr_api (rg_reconciler g));
   n_bits (rr_timeout_millis (rg_reconciler g)); n_bits (rg_committed_at g)].

Definition fields_guard (l : list string) : option (option RollbackGuard) :=
  match l with
  | [] => Some None
  | [id; cr; v; m; a; li; d; p; ap; t; c] =>
      Some (Some (mkRollbackGuard id cr (mkReleaseId v m) a (mkLineage li)
                    (mkReconcilerRelease d p (bits_n ap) (bits_n t)) (bits_n c)))
  | _ => None
  end.

Definition installed_fields (s : InstalledState) : list string :=
  [lineage_str (st_repository_lineage s); version (st_release s); manifest_sha256 (st_release s);
   st_archive_sha256 s; rr_definition_sha256 (st_reconciler s); rr_product (st_reconciler s);
   n_bits (rr_api (st_reconciler s)); n_bits (rr_timeout_millis (st_reconciler s));
   b_str (is_proven s)]
  ++ match st_rollback_guard s with Some g => guard_fields g | None => [] end.

Definition fields_installed (l : list string) : option InstalledState :=
  match l with
  | li :: v :: m :: a :: d :: p :: ap :: t :: mat :: rest =>
      g ← fields_guard rest;
      Some (mkInstalledState (mkLineage li) (mkReleaseId v m) a
              (mkReconcilerRelease d p (bits_n ap) (bits_n t)) g
              (if str_b mat then Proven else Provisional))
  | _ => None
  end.

Lemma release_law r : fields_release (release_fields r) = Some r.
Proof. by destruct r. Qed.

Lemma str_b_str b : str_b (b_str b) = b.
Proof. by destruct b. Qed.

Lemma str_phase_str p : str_phase (phase_str p) = p.
Proof. unfold str_phase, phase_str. rewrite bits_n_bits. by destruct p. Qed.

Lemma transaction_law t : fields_transaction (transaction_fields t) = Some t.
Proof.
  destruct t as [? [] ? [] [] ? ? [] ? [] [] ? ?]. unfold fields_transaction, transaction_fields. simpl.
  by rewrite !bits_n_bits, str_phase_str, str_b_str.
Qed.

Lemma install_law t : fields_install (install_fields t) = Some t.
Proof.
  destruct t as [? [] ? [] [] ph]. unfold fields_install, install_fields. simpl.
  rewrite !bits_n_bits. by destruct ph.
Qed.

Lemma installed_law s : fields_installed (installed_fields s) = Some s.
Proof.
  destruct s as [[] [] ? [] [[? ? [] ? [] [] ?]|] mat]; unfold fields_installed, installed_fields; simpl;
    rewrite !bits_n_bits; by destruct mat.
Qed.

#[export] Instance fixture_codec : Codec :=
  {| codec_transaction := fields_serde _ _ transaction_law;
     codec_install := fields_serde _ _ install_law;
     codec_installed := fields_serde _ _ installed_law;
     codec_release := fields_serde _ _ release_law |}.

(** ** The codec's bounds *)

Lemma canonical_len s : is_canonical_sha256 s = true → str_len s = 64%N.
Proof. by intros [? _]%canonical_shape. Qed.

Lemma release_version_len s : is_release_version s = true → (str_len s ≤ 128)%N.
Proof.
  unfold is_release_version. intros Hr. bool_to_prop. rewrite str_len_length.
  match goal with Hl : (_ <=? _)%nat = true |- _ => apply Nat.leb_le in Hl; unfold MAX_RELEASE_VERSION_BYTES in Hl end.
  lia.
Qed.

Lemma segment_len s : is_segment s = true → (str_len s ≤ 128)%N.
Proof.
  unfold is_segment. destruct s as [|c s]; [done|]. intros Hr. bool_to_prop. rewrite str_len_length.
  match goal with Hl : (_ <=? _)%nat = true |- _ => apply Nat.leb_le in Hl; unfold MAX_SEGMENT_BYTES in Hl end.
  lia.
Qed.

Lemma release_len r :
  ReleaseId_validate r = Ok tt → (str_len (version r) ≤ 128)%N ∧ str_len (manifest_sha256 r) = 64%N.
Proof.
  unfold ReleaseId_validate. intros Hr. result_inv.
  split; [by apply release_version_len|by apply canonical_len].
Qed.

Lemma reconciler_len r :
  reconciler_is_valid r = true →
  str_len (rr_definition_sha256 r) = 64%N ∧ (str_len (rr_product r) ≤ 128)%N
  ∧ (str_len (n_bits (rr_api r)) ≤ 32)%N ∧ (str_len (n_bits (rr_timeout_millis r)) ≤ 32)%N.
Proof.
  unfold reconciler_is_valid. intros Hr. bool_to_prop.
  repeat match goal with Hl : (_ <=? _)%N = true |- _ => apply N.leb_le in Hl end.
  split_and!; [by apply canonical_len|by apply segment_len|..]; apply n_bits_len; try lia.
  - unfold u32_max in *. lia.
  - unfold MAX_INVOCATION_MILLIS, MAX_COMMAND_SECONDS, MAX_HEALTH_SECONDS in *. lia.
Qed.

#[export] Instance fixture_release_fits : ReleaseFits.
Proof.
  intros r b [Hv Hm]%release_len Hb.
  assert (b = enc_fields (release_fields r)) as -> by (by injection Hb).
  rewrite enc_fields_len. cbn [release_fields fields_len]. unfold ACTIVE_RELEASE_BYTES_LIMIT. lia.
Qed.

Lemma b_str_len b : str_len (b_str b) = 1%N.
Proof. by destruct b. Qed.

Lemma phase_str_len p : (str_len (phase_str p) ≤ 4)%N.
Proof. apply n_bits_len; [|lia]. pose proof (phase_order_bound p). lia. Qed.

Lemma encode_fits {T} (to_fields : T → list string) of_fields law limit (t : T) :
  (fields_len (to_fields t) ≤ limit)%N →
  is_Some (@encode T (fields_serde to_fields of_fields law) limit t).
Proof.
  intros Hl. rewrite <-enc_fields_len in Hl. apply N.ltb_ge in Hl.
  unfold encode, to_vec, fields_serde. rewrite Hl. by eexists.
Qed.

Lemma transaction_fits t :
  Transaction_validate t = Ok tt → is_Some (encode JOURNAL_RECORD_MAX_BYTES t).
Proof.
  intros [Hid Hev]%Transaction_validate_Ok. apply encode_fits.
  unfold identity_validate in Hid. result_inv.
  destruct (candidate_rejection_sha256 _ _ _ _); [|done]. result_inv. bool_to_prop.
  repeat match goal with
  | Hr : ReleaseId_validate _ = Ok _ |- _ => apply release_len in Hr as [? ?]
  | Hr : reconciler_is_valid _ = true |- _ => apply reconciler_len in Hr as (? & ? & ? & ?)
  | Hr : is_canonical_sha256 _ = true |- _ => apply canonical_len in Hr
  | Hr : lineage_validate _ = true |- _ => apply canonical_len in Hr
  | Hr : is_token _ = true |- _ => apply canonical_len in Hr
  end.
  assert (str_len (n_bits (tx_rollback_health_failures t)) ≤ 32)%N.
  { apply n_bits_len; [|lia]. unfold phase_evidence_is_valid, evidence_possible in Hev.
    apply andb_true_iff in Hev as [_ [Hz%N.eqb_eq|Hz]%orb_true_iff]; [rewrite Hz; lia|].
    destruct (tx_phase t); try done; apply N.leb_le in Hz; unfold u32_max in Hz; lia. }
  pose proof (phase_str_len (tx_phase t)).
  cbn [transaction_fields fields_len]. rewrite b_str_len. unfold JOURNAL_RECORD_MAX_BYTES, MAX_SERIALIZED_BYTES. lia.
Qed.

Lemma installed_fits s :
  InstalledState_validate s = Ok tt → is_Some (encode INSTALLED_RECORD_MAX_BYTES s).
Proof.
  intros Hv. apply encode_fits. unfold InstalledState_validate in Hv. result_inv.
  assert (match st_rollback_guard s with Some g => fields_len (guard_fields g) ≤ 2000 | None => True end)%N as Hg.
  { destruct (st_rollback_guard s) as [g|]; [|done]. unfold guard_validate in *. result_inv. bool_to_prop.
    repeat match goal with
    | Hr : ReleaseId_validate (rg_previous_release g) = Ok _ |- _ => apply release_len in Hr as [? ?]
    | Hr : reconciler_is_valid (rg_reconciler g) = true |- _ => apply reconciler_len in Hr as (? & ? & ? & ?)
    | Hr : is_canonical_sha256 _ = true |- _ => apply canonical_len in Hr
    | Hr : lineage_validate _ = true |- _ => apply canonical_len in Hr
    | Hr : is_token _ = true |- _ => apply canonical_len in Hr
    | Hr : (_ <=? u64_max)%N = true |- _ => apply N.leb_le in Hr
    end.
    assert (str_len (n_bits (rg_committed_at g)) ≤ 64)%N
      by (apply n_bits_len; [unfold u64_max in *; lia|lia]).
    cbn [guard_fields fields_len]. lia. }
  repeat match goal with
  | Hr : ReleaseId_validate _ = Ok _ |- _ => apply release_len in Hr as [? ?]
  | Hr : reconciler_is_valid _ = true |- _ => apply reconciler_len in Hr as (? & ? & ? & ?)
  | Hr : is_canonical_sha256 _ = true |- _ => apply canonical_len in Hr
  | Hr : lineage_validate _ = true |- _ => apply canonical_len in Hr
  end.
  unfold installed_fields. cbn [app fields_len]. rewrite b_str_len.
  unfold INSTALLED_RECORD_MAX_BYTES, MAX_SERIALIZED_BYTES.
  destruct (st_rollback_guard s); cbn [fields_len]; lia.
Qed.

#[export] Instance fixture_codec_total : CodecTotal.
Proof.
  split; [apply transaction_fits|apply installed_fits|]. intros r _. by eexists.
Qed.

(** ** Records *)

Definition ln_old : RepositoryLineage := mkLineage (hex64 "a").
Definition ln_new : RepositoryLineage := mkLineage (hex64 "b").
Definition rel_old : ReleaseId := mkReleaseId "1.0.0" (hex64 "1").
Definition rel_new : ReleaseId := mkReleaseId "2.0.0" (hex64 "2").
Definition rec_old : ReconcilerRelease := mkReconcilerRelease (hex64 "5") "app" 1 1000.
Definition rec_new : ReconcilerRelease := mkReconcilerRelease (hex64 "6") "app" 1 2000.

(** The update from 1.0.0 to 2.0.0, at phase [p], with or without a verdict. *)
Definition tx_at (p : Phase) (rejected : bool) : Transaction :=
  mkTransaction (hex64 "e") rel_old (hex64 "3") ln_old rel_new (hex64 "4") (hex64 "d") ln_old
    rejected rec_old rec_new 0 p.

Definition head_old : InstalledState := InstalledState_proven ln_old rel_old (hex64 "3") rec_old.
Definition head_new : InstalledState := committed_state (tx_at Committed false) 1700000000.

Definition ledger_key : string := rejection_key ln_old (hex64 "d").
Definition no_verdicts : Rejections := mkRejections [] false.
Definition one_verdict : Rejections := mkRejections [ledger_key] false.

Definition machine_at (i : InstalledState) (j : option Transaction) (a : ReleaseId) : machine :=
  mkMachine (Some i) j None (Some a) [] true.

(** ** Files *)

Definition put (p : path) (b : option string) (d : Disk) : Disk :=
  match b with Some b => <[p := b]> d | None => d end.

Definition disk_of (m : machine) : Disk :=
  put PInstalled (m_installed m ≫= to_vec)
    (put PJournal (m_journal m ≫= to_vec)
      (put PInstallJournal (m_install m ≫= to_vec)
        (put PActive (m_active m ≫= to_vec)
          (put PRejected (match m_ledger m with [] => None | l => Some (render l) end)
            (put PHistory (if m_enrolled m then Some INSTALL_HISTORY_MARKER else None) ∅))))).

(** ** Environments *)

Definition env_of (fs : list fault) (hs : list hook_answer) (ps : list nat) : Env :=
  mkEnv fs hs [] [1700000000%N] [hex64 "e"] ps (λ _, true).

Definition env_calm : Env := env_of [] [] [].

Lemma env_calm_calm : calm env_calm.
Proof. by split_and!. Qed.

Ltac rep := split; vm_compute; reflexivity.

Lemma empty_ledger_inv m : m_ledger m = [] → disk_ledger (disk_of m) = Ok [] → ledger_inv (disk_of m) no_verdicts.
Proof.
  intros _ Hd. split; [split_and!; [constructor|constructor|done]|]. exists []. done.
Qed.

Lemma pair_fst {A B} (x : A * B) a : x.1 = a → x = (a, x.2).
Proof. intros <-. apply surjective_pairing. Qed.

(** ** Machines: one update at several points of its life *)

Definition m_idle : machine := machine_at head_old None rel_old.
Definition m_prepared : machine := machine_at head_old (Some (tx_at Prepared false)) rel_old.
Definition m_verified : machine := machine_at head_old (Some (tx_at Verified false)) rel_new.
Definition m_rejected : machine := machine_at head_old (Some (tx_at Activated true)) rel_new.
Definition m_committed : machine := machine_at head_new (Some (tx_at Committed false)) rel_new.
Definition m_planned : machine := machine_at head_new (Some (tx_at RollbackPlanned true)) rel_new.
Definition m_wedged : machine :=
  machine_at (disarm_rollback head_new).1 (Some (tx_at Committed false)) rel_new.

Lemma m_wedged_coherent : agent_coherent m_wedged.
Proof.
  split_and!; [done|vm_compute; reflexivity|]. eexists. split; [done|].
  split_and!; [by vm_compute|done|done].
Qed.
