(* ===== verification/FleetFixtures.v ===== *)
(** * FleetFixtures: concrete parameters of the control plane

    Reports signed under one key and carried by the field codec, a calendar with one date,
    versions of one digit, a release catalog, and serialisers given by tables of documents. *)
From S2P Require Import Prelude Identity Maps Releases Dataflow Telemetry Window Rollout Assign Retention Regression Admission Plan Fixtures.

(** ** Parameters *)

#[export] Instance fleet_parts : ReportParts := {|
  Attention := unit;
  attention_valid := λ _, true;
  HelperSupport := unit;
  helper_valid := λ _, true;
  LastReconciliation := string;
  lr_version := λ _, "1.0.0"%string;
  lr_archive_sha256 := λ s, s;
  lr_definition_sha256 := λ s, s;
|}.

(** Noon of the day the fleet is planned on. *)
Definition noon : instant := mkInstant 20000 43200.
Definition noon_ms : N := timestamp_millis noon 0.

(** A node's report: where it is, and whether it is healthy there or has rejected it. *)
Definition fleet_report (node assignment : string) (healthy rejected : bool) : NodeReport :=
  mkNodeReport None None SCHEMA node "web" assignment "1.0.0" (hex64 "e") (hex64 "e") healthy false
    rejected noon_ms None None (Some (hex64 "e")).

Definition fleet_report_from_slice (payload : string) : option NodeReport :=
  match dec_fields EmptyString payload with
  | Some [node; assignment; verdict] =>
      Some (fleet_report node assignment (bool_decide (verdict ≠ "broken"%string))
              (bool_decide (verdict = "rejected"%string)))
  | _ => None
  end.

#[export] Instance fleet_signed : Signed := {|
  Envelope := string;
  P256PublicKey := string;
  decode_report_payload := Some;
  signature_verifies := λ _ key _, bool_decide (key = "pinned"%string);
  report_from_slice := fleet_report_from_slice;
|}.

#[export] Instance fleet_chrono : Chrono.
Proof.
  refine {| DATE_MIN := -1000000; DATE_MAX := 1000000;
            parse_date := λ s, if bool_decide (s = "2024-10-07"%string) then Some 20003%Z else None |}.
  intros s d. case_bool_decide; [|done]. intros [= <-]. done.
Defined.

(** ** A release graph *)

(** Versions of the shape [n.0.0]. *)
#[export] Instance major_versions : SemverOrder := {|
  SemVersion := ascii;
  semver_parse := λ s,
    match s with
    | String c rest => if is_ascii_digit c && bool_decide (rest = ".0.0"%string) then Some c else None
    | EmptyString => None
    end;
  semver_to_string := λ c, String c ".0.0";
  cmp_precedence := λ a b, Nat.compare (nat_of_ascii a) (nat_of_ascii b);
|}.

Definition package (c : ascii) : TargetReference :=
  mkTargetReference (String.append "products/app/stable/" (String c ".0.0/linux-x86_64/pkg")) (hex64 c).

(** Two ways up from 1.0.0: through 2.0.0 and 3.0.0, or directly to 3.0.0. *)
Definition catalog : ReleaseGraph :=
  mkReleaseGraph "4.0.0"
    {[ "1.0.0" := mkRelease (package "1") ∅ ∅ true;
       "2.0.0" := mkRelease (package "2") {[ "1.0.0" ]} ∅ false;
       "3.0.0" := mkRelease (package "3") {[ "1.0.0"; "2.0.0" ]} ∅ false;
       "4.0.0" := mkRelease (package "4") {[ "3.0.0" ]} ∅ false ]}.

(** ** Serialisers given by a table *)

Section table.
Context {T : Type} `{!EqDecision T} (table : list (T * string)).

Definition table_to_vec (t : T) : option string := (λ x, x.2.2) <$> list_find (λ x, x.1 = t) table.
Definition table_from_slice (b : string) : option T := (λ x, x.2.1) <$> list_find (λ x, x.2 = b) table.

Lemma table_roundtrip : bool_decide (NoDup table.*2) = true →
  ∀ t b, table_to_vec t = Some b → table_from_slice b = Some t.
Proof.
  intros Hnd%bool_decide_eq_true t b. unfold table_to_vec, table_from_slice.
  intros ([i [t' b']] & (Hi & Ht & _)%list_find_Some & ->)%fmap_Some. simpl in Ht. subst t'. simpl.
  destruct (list_find (λ x, x.2 = b') table) as [[j [u v]]|] eqn:Hf.
  - apply list_find_Some in Hf as (Hj & Hv & _). simpl in Hv. subst v. simpl.
    assert (i = j) as <-; [|congruence]. eapply NoDup_lookup; [exact Hnd| |]; by rewrite list_lookup_fmap, ?Hi, ?Hj.
  - apply list_find_None in Hf. rewrite Forall_forall in Hf.
    by destruct (Hf (t, b') (list_elem_of_lookup_2 _ _ _ Hi)).
Qed.

Definition table_serde (Hnd : bool_decide (NoDup table.*2) = true) : Serde T :=
  {| to_vec := table_to_vec; from_slice := table_from_slice; serde_roundtrip := table_roundtrip Hnd |}.

End table.

(** A type no document of the scenario has. *)
Definition no_serde (T : Type) : Serde T.
Proof. by refine {| to_vec := λ _, None; from_slice := λ _, None |}. Defined.
