(* ===== verification/Witnesses.v ===== *)
(** * Witnesses: the theorems applied at concrete inputs

    Every property with hypotheses is applied here to records, files and environments of
    [Fixtures.v], where each hypothesis is discharged by evaluation.  Two lives of the agent that
    its documentation does not expect close the file: in the first, one failed unlink during an
    update leads a healthy agent to a state it can never boot from again
    ([AgentHistory.wedged_agent_never_runs]); in the second, the retry of a recovery step reports a
    durable barrier that was never written. *)
From S2P Require Import Prelude Identity State Transaction Install World Reject Store.
From S2P Require Import StoreSpec StoreRefine Boot Update AgentLogic Agent Recovery.
From S2P Require Import AgentHistory Fixtures.

(** ** The rejection ledger *)

Definition disk_ledgered : Disk := {[ PRejected := render [ledger_key] ]}.

Lemma one_verdict_ok : ledger_ok [ledger_key].
Proof. split_and!; [repeat constructor|repeat constructor|vm_compute; congruence]. Qed.

Lemma ledgered_inv : ledger_inv disk_ledgered one_verdict.
Proof. split; [apply one_verdict_ok|]. exists [ledger_key]. split; [vm_compute; reflexivity|done]. Qed.

Definition fresh_verdict : outcome unit * world := reject ledger_key (World ∅ no_verdicts env_calm).

Lemma fresh_inv : ledger_inv ∅ no_verdicts.
Proof. split; [split_and!; [constructor|constructor|done]|]. by exists []. Qed.

(** ** The store *)

Lemma live_empty i j a : live_ok no_verdicts (machine_at i j a).
Proof. done. Qed.

Lemma step_commit_verified :
  machine_step no_verdicts m_verified (set_installed (Some head_new) m_verified).
Proof. apply step_commit; vm_compute; reflexivity. Qed.

Lemma verified_coherent : store_coherent m_verified.
Proof.
  split_and!; [by right| |by intros ? ? [=]].
  intros tx [= <-]. exists head_old. split; [done|]. split; [by left|done].
Qed.

Lemma rep_verified : represents (disk_of m_verified) m_verified.
Proof. rep. Qed.
Lemma rep_prepared : represents (disk_of m_prepared) m_prepared.
Proof. rep. Qed.
Definition commit_run : outcome unit * world :=
  exec (OpRecord (OpCommit head_new)) (World (disk_of m_verified) no_verdicts env_calm).

Lemma commit_run_step :
  store_run (disk_of m_verified, no_verdicts) (disk commit_run.2, proc commit_run.2).
Proof.
  eapply (run_call (OpRecord (OpCommit head_new)) _ _ env_calm commit_run.1).
  - apply surjective_pairing.
  - vm_compute. congruence.
Qed.

Lemma store_refines_spec_witness :
  ∃ m', represents (disk commit_run.2) m' ∧ ledger_inv (disk commit_run.2) (proc commit_run.2)
        ∧ history m_verified m'.
Proof.
  apply (store_refines_spec (disk_of m_verified) no_verdicts).
  - apply rep_verified.
  - apply empty_ledger_inv; vm_compute; reflexivity.
  - eapply rtc_l; [apply commit_run_step|apply rtc_refl].
Defined.

(** ** The agent *)

(** An update killed just after the pointer moved. *)
Definition crashed_update : outcome bool * world :=
  exec_call 2 (CallUpdate rel_new (hex64 "4") ln_old rec_new)
    (World (disk_of (machine_at head_old None rel_old)) no_verdicts
       (env_of (repeat Healthy 12 ++ [DiesAfter]) [] [])).

Lemma crashed_update_life :
  rtc (agent_run 2) (true, (disk_of m_idle, no_verdicts)) (false, (disk crashed_update.2, no_verdicts)).
Proof.
  eapply rtc_l; [|apply rtc_refl].
  eapply (agent_dies 2 (CallUpdate rel_new (hex64 "4") ln_old rec_new) true _ _
            (env_of (repeat Healthy 12 ++ [DiesAfter]) [] []) crashed_update.2 no_verdicts env_calm
            (World (disk crashed_update.2) no_verdicts env_calm)).
  - reflexivity.
  - apply (pair_fst crashed_update). vm_compute. reflexivity.
  - vm_compute. reflexivity.
Qed.

(** ** The agent's histories *)

(** The boot that answers a planned rollback. *)
Definition rollback_boot : outcome bool * world :=
  exec_call 2 (CallBoot false) (World (disk_of m_planned) no_verdicts env_calm).

Lemma rollback_boot_life :
  rtc (agent_run 2) (false, (disk_of m_planned, no_verdicts))
    (true, (disk rollback_boot.2, proc rollback_boot.2)).
Proof.
  eapply rtc_l; [|apply rtc_refl]. eapply (agent_returns 2 (CallBoot false) false _ _ env_calm).
  - reflexivity.
  - apply (pair_fst rollback_boot). vm_compute. reflexivity.
Qed.

(** ** Two unexpected lives *)

(** One I/O error, on the removal of the committed journal. *)
Definition env_unlink_fails : Env := env_of (repeat Healthy 30 ++ [Fails EIO]) [] [].

Definition leftover_update : outcome bool * world :=
  exec_call 2 (CallUpdate rel_new (hex64 "4") ln_old rec_new)
    (World (disk_of m_idle) no_verdicts env_unlink_fails).

Definition confirmed_leftover : outcome bool * world :=
  exec_call 2 CallDisarm (World (disk leftover_update.2) (proc leftover_update.2) env_calm).

(** A healthy running agent reaches a state it can never boot from
    again through one I/O error: an update
    whose final journal removal fails still reports success and keeps running, and the
    confirmation of that same update then drops the guard the leftover journal depends on. *)
Example one_failed_unlink_wedges_the_agent :
  rtc (agent_run 2) (true, (disk_of m_idle, no_verdicts))
    (true, (disk confirmed_leftover.2, proc confirmed_leftover.2))
  ∧ represents (disk confirmed_leftover.2) m_wedged
  ∧ agent_coherent m_wedged ∧ wedged (tx_at Committed false) m_wedged.
Proof.
  split_and!; [| | |split_and!; [reflexivity|reflexivity|eexists; split; reflexivity]].
  - eapply rtc_l.
    { eapply (agent_returns 2 (CallUpdate rel_new (hex64 "4") ln_old rec_new) true _ _
                env_unlink_fails true leftover_update.2); [reflexivity|].
      apply (pair_fst leftover_update). vm_compute. reflexivity. }
    eapply rtc_l; [|apply rtc_refl].
    eapply (agent_returns 2 CallDisarm true _ _ env_calm true confirmed_leftover.2); [reflexivity|].
    apply (pair_fst confirmed_leftover). vm_compute. reflexivity.
  - rep.
  - apply m_wedged_coherent.
Qed.

(** A full disk at the journal write of the compensation barrier, space again at the retry;
    the candidate's rollback hook asks for a reboot. *)
Definition env_barrier_retried : Env :=
  env_of (repeat Healthy 4 ++ [Fails ENOSPC]) [HookOk true] [1].

Definition retried_boot : outcome boot_end * world :=
  boot 2 false (World (disk_of m_planned) no_verdicts env_barrier_retried).

(** A retried compensation step skips its durable barrier: after one transient write
    failure the retry finds the phase already advanced in memory and reports success, so the
    hook's reboot request is dropped, the pointer moves to the predecessor while the journal
    on disk is still [RollbackPlanned], and the boot ends on a refused journal rewrite. *)
Example retried_barrier_is_not_durable :
  retried_boot.1 = Failed (IoError InvalidInput "refusing an invalid rewrite of a transaction")
  ∧ active_view (disk retried_boot.2) = Ok (Some rel_old)
  ∧ record_view PJournal (disk retried_boot.2) = Ok (Some (tx_at RollbackPlanned true)).
Proof. split_and!; vm_compute; reflexivity. Qed.
