(* ===== verification/FleetWitnesses.v ===== *)
(** * FleetWitnesses: a concrete fleet

    Deployments named by one character, a fleet of three nodes halfway through a rollout, what
    the whole planner makes of it, and the planner's theorems with hypotheses applied at it. *)
From S2P Require Import Prelude Identity Maps Releases Routes Dataflow Telemetry Window Rollout Assign.
From S2P Require Import Retention Regression Admission Plan Fixtures FleetFixtures.

(** ** Deployments *)

#[export] Instance fleet_deployments : Deployments := {|
  DesiredDeployment := ascii;
  deployment_identity := λ c, Some (hex64 c);
  deployment_name := λ c, String c EmptyString;
  target_sha256 := λ _, hex64 "e";
  rollback_to := λ _ previous, Some previous;
|}.

(** ** The fleet: [a] is on the new deployment, [b] and [c] still on the old one *)

Definition old_d : DesiredDeployment := "0"%char.
Definition new_d : DesiredDeployment := "1"%char.
Definition old_id : string := hex64 "0".
Definition new_id : string := hex64 "1".

Definition envelope (node id verdict : string) : Envelope := enc_fields [node; id; verdict].

Definition fleet_nodes : BTreeMap string := {[ "a" := "web"; "b" := "web"; "c" := "web" ]}.
Definition fleet_keys : gmap string P256PublicKey := {[ "a" := "pinned"; "b" := "pinned"; "c" := "pinned" ]}.
Definition fleet_published : BTreeMap string := {[ "a" := new_id; "b" := old_id; "c" := old_id ]}.
Definition fleet_reports : gmap string Envelope :=
  {[ "a" := envelope "a" new_id "ok"; "b" := envelope "b" old_id "ok";
     "c" := envelope "c" old_id "ok" ]}.

Definition web : ResolvedGroup := mkResolvedGroup "web" ∅ [] ∅ None new_d 1 false.
Definition fleet_groups : BTreeMap ResolvedGroup := {[ "web" := web ]}.
Definition web_state : AdmittedDeployment := mkAdmitted new_d [old_d].
Definition fleet_admitted : BTreeMap AdmittedDeployment := {[ "web" := web_state ]}.

Definition no_cache : VerifiedReports := mkVerifiedReports ∅ 0.

Definition fleet_inputs (reports : gmap string Envelope) : RolloutInputs :=
  mkRolloutInputs fleet_groups {[ "web" := ∅ ]} fleet_nodes reports fleet_keys fleet_published ∅ ∅ ∅
    ∅ old_d.

Definition fleet_set : UpdateGroupSet := mkUpdateGroupSet "all" ∅ None [] [] None RRollback.

Definition fleet_durable : durable :=
  mkDurable fleet_admitted ∅ (mkObservationLog ∅ ∅) no_cache.

Definition fleet_o : Observations :=
  observations (fleet_inputs fleet_reports) (verify_fleet fleet_reports fleet_keys no_cache) noon_ms.

(** One healthy node takes the only slot; the other is held where it is. *)
Example planner_stages_one_node_at_a_time :
  rp_node_deployments ∘ fst <$>
    plan_rollouts [fleet_set] (fleet_inputs fleet_reports) fleet_durable noon 0
  = Some {[ "a" := new_d; "b" := new_d; "c" := old_d ]}.
Proof. vm_compute. reflexivity. Qed.

(** Once [a] rejects the new deployment, the set's policy rolls the group back: [a] waits for
    nobody, [b] and [c] stay on the old deployment, and the new one is vetoed. *)
Definition regressed_reports : gmap string Envelope :=
  <["a" := envelope "a" new_id "rejected"]> fleet_reports.

Example planner_rolls_a_regression_back :
  (λ x, (rp_node_deployments x.1, rp_blocked x.1, dom (du_vetoed x.2), du_admitted x.2 !! "web")) <$>
    plan_rollouts [fleet_set] (fleet_inputs regressed_reports) fleet_durable noon 0
  = Some ({[ "a" := old_d; "b" := old_d; "c" := old_d ]}, {[ new_id ]}, {[ new_id ]},
          Some (mkAdmitted old_d [new_d])).
Proof. vm_compute. reflexivity. Qed.

(** A node outside the group that also rejected the deployment, and is silent, does not delay
    the response. *)
Example rollback_waits_only_for_its_own_members :
  (λ x, du_admitted x.2 !! "web") <$>
    plan_rollouts [fleet_set] (fleet_inputs regressed_reports)
      (mkDurable fleet_admitted ∅ (mkObservationLog {[ "z" ]} {[ ("z", new_id) ]}) no_cache) noon 0
  = Some (Some (mkAdmitted old_d [new_d])).
Proof. vm_compute. reflexivity. Qed.

(** ** Witnesses *)

Lemma no_cache_sound : cache_sound no_cache.
Proof. intros node e He. exfalso. exact (lookup_empty_Some node e He). Qed.

Definition monday_window : RolloutWindow :=
  mkRolloutWindow [Monday] (Some 2%Z) (Some "2024-10-07"%string) "22:00" "06:00".

(** A Monday night window is still open at two on the Tuesday after. *)
Example monday_night_is_open : is_active monday_window (mkInstant 20004 7200) = true.
Proof. vm_compute. reflexivity. Qed.

Lemma moves_within_budget_witness :
  (length (disturbed (assign_nodes fleet_groups fleet_admitted ∅ fleet_o ∅ ∅) fleet_o "web"
             new_d new_id) ≤ 1)%nat.
Proof.
  apply (moves_within_budget fleet_groups fleet_admitted ∅ fleet_o ∅ ∅ "web" web web_state new_id);
    reflexivity.
Defined.

Lemma every_pass_moves_a_node_witness :
  ∃ m, m ∈ nodes fleet_o "web" ∧ advanced fleet_o m new_id = false
    ∧ assign_nodes fleet_groups fleet_admitted ∅ fleet_o ∅ ∅ !! m = Some new_d.
Proof.
  apply (every_pass_moves_a_node fleet_groups fleet_admitted ∅ fleet_o ∅ ∅ "web" web web_state
           new_id "c").
  - reflexivity.
  - reflexivity.
  - reflexivity.
  - apply not_elem_of_empty.
  - apply elem_of_nodes. reflexivity.
  - apply not_elem_of_empty.
  - apply not_elem_of_empty.
  - vm_compute. reflexivity.
  - left. apply Nat.ltb_lt. vm_compute. reflexivity.
Defined.

(** ** A release graph *)

