(* ===== verification/ControlWitnesses.v ===== *)
(** * ControlWitnesses: a concrete repository, from resources to generations

    Two deployments, a group of one node and a node of the default cohort: the documents they
    publish, the pass that publishes them past both preflights, a second pass that holds a node, the
    store that records the first, a visit of a node that meets the publication and one that meets a
    dead network, and the theorems of the control plane and of the routing client applied there. *)
From Stdlib Require Import Ascii.
From S2P Require Import Prelude Identity Maps Releases Routes Dataflow Telemetry Window Rollout Assign.
From S2P Require Import Retention Regression Admission Plan Bodies Assignment Groups GroupGraph.
From S2P Require Import GroupRouting Publication Inputs Reconcile Inventory Fleet Durable Authoring AuthoringSafety.
From S2P Require Import Selection RoutingClient Preflight FleetHistory.
From S2P Require Import ShardStore ShardSafety Fixtures FleetFixtures.

(** ** Parameters *)

(** A digest of the length alone: documents of different lengths have different digests. *)
Lemma hex_digits_canonical : forallb (λ n, is_canonical_sha256 (hex64 (hex_char (N.of_nat n)))) (seq 0 16) = true.
Proof. vm_compute. reflexivity. Qed.

#[local] Instance length_sha256 : Sha256.
Proof.
  refine {| sha256_bytes := λ b, hex64 (hex_char (N.of_nat (String.length b mod 16))) |}.
  intros b. pose proof hex_digits_canonical as Hall. rewrite forallb_forall in Hall.
  apply Hall, in_seq. split; [lia|]. apply Nat.mod_upper_bound. lia.
Defined.

#[local] Instance text_json : JsonValues := {|
  JsonValue := string;
  json_is_object := λ _, true;
  json_is_exact := λ _, true;
  json_to_vec := Some;
  json_from_str := Some;
|}.

#[local] Instance https_urls : Urls := {|
  Url := string;
  url_parse := λ s, if String.prefix "https://" s then Some s else None;
  url_scheme := λ _, "https"%string;
  url_host := λ _, Some "releases"%string;
  url_username := λ _, EmptyString;
  url_password := λ _, None;
  url_query := λ _, None;
  url_fragment := λ _, None;
  url_path := id;
  url_cannot_be_a_base := λ _, false;
  url_from_directory_path := λ _, None;
  url_to_file_path := λ _, false;
|}.

#[local] Instance plain_base64 : Base64 :=
  {| base64_encode := id; base64_decode := Some; base64_roundtrip := λ _, eq_refl |}.

#[local] Instance length_hmac : Hmac :=
  {| hmac_sha256 := λ key message, sha256_bytes (String.append key message);
     hmac_canonical := λ key message, sha256_canonical _ |}.

#[local] Instance pinned_curve : Curve := {| parse_point := λ _, Some "pinned"%string |}.

(** A serialiser for anything countable. *)
Fixpoint bits (p : positive) : string :=
  match p with
  | xH => EmptyString
  | xO p => String "0" (bits p)
  | xI p => String "1" (bits p)
  end.

Fixpoint unbits (s : string) : positive :=
  match s with
  | EmptyString => xH
  | String c s => if bool_decide (c = "0"%char) then xO (unbits s) else xI (unbits s)
  end.

Lemma unbits_bits p : unbits (bits p) = p.
Proof. induction p; simpl; congruence. Qed.

(** ** Deployments *)

Definition deployment_spec (name : string) (graph : ReleaseGraph) : DeploymentSpec :=
  mkDeploymentSpec name "https://releases/meta/" "https://releases/targets/" "{}" graph "app" "stable"
    "/opt/app" (mkManagedRepositoryLimits 1000 1000 30) (mkManagedStorage 1 1000 1)
    (mkManagedTimeouts 10 60 3 10 10 600).

Definition base_graph : ReleaseGraph := mkReleaseGraph "1.0.0" {[ "1.0.0" := mkRelease (package "1") ∅ ∅ true ]}.

(** The new release, and the way back from it. *)
Definition web_graph : ReleaseGraph :=
  mkReleaseGraph "2.0.0"
    {[ "1.0.0" := mkRelease (package "1") ∅ {[ "2.0.0" ]} true;
       "2.0.0" := mkRelease (package "2") {[ "1.0.0" ]} ∅ true ]}.

Definition base_spec : DeploymentSpec := deployment_spec "base" base_graph.
Definition web_spec : DeploymentSpec := deployment_spec "web" web_graph.

(** The document a specification stands for. *)
Definition assignment_of (s : DeploymentSpec) : RepositoryAssignment :=
  mkRepositoryAssignment RepositoryAssignment_SCHEMA (ds_name s) (ds_metadata_url s) (ds_targets_url s)
    (ds_application s) (ds_root_json s)
    (mkManagedRuntime (ds_product s) (ds_channel s) (ds_install_root s) InputSelection_default
       (ds_repository s) (ds_storage s) (ds_timeouts s)).

Definition base_a : RepositoryAssignment := assignment_of base_spec.
Definition web_a : RepositoryAssignment := assignment_of web_spec.

Definition assignment_table : list (RepositoryAssignment * string) :=
  [(base_a, "base"%string); (web_a, "web"%string)].

#[local] Instance scenario_assignments : AssignmentJson.
Proof.
  refine {| assignment_to_vec := table_to_vec assignment_table;
            assignment_from_slice := table_from_slice assignment_table |}.
  intros a b _ _. apply table_roundtrip. vm_compute. reflexivity.
Defined.

Example specs_resolve :
  deployment_try_from base_spec = inr base_a ∧ deployment_try_from web_spec = inr web_a.
Proof. split; vm_compute; reflexivity. Qed.

(** ** A published input *)

Definition endpoint_snapshot : FileSnapshot := mkFileSnapshot {[ "endpoint" := mkFileValue "10.0.0.1" ]}.
Definition dataflow_key : string := hex64 "a".

#[local] Instance FileSnapshot_eq : EqDecision FileSnapshot.
Proof. solve_decision. Defined.
#[local] Instance InputPublication_eq : EqDecision InputPublication.
Proof. solve_decision. Defined.

Definition endpoint_publication : InputPublication :=
  mkInputPublication InputPublication_SCHEMA (hmac_sha256 dataflow_key "snapshot")
    (hmac_sha256 dataflow_key (String.append BLINDING_DOMAIN "snapshot")) endpoint_snapshot.

#[local] Instance scenario_dataflow : DataflowJson := {|
  json_snapshot := table_serde [(endpoint_snapshot, "snapshot"%string)] eq_refl;
  json_input_publication := table_serde [(endpoint_publication, "publication"%string)] eq_refl;
  json_output_publication := no_serde _;
  json_download := no_serde _;
  json_upload := no_serde _;
|}.

(** ** A cluster *)

Definition base_id : string := sha256_bytes "base".
Definition web_id : string := sha256_bytes "web".

#[local] Instance AgentDocument_eq : EqDecision AgentDocument.
Proof. assert (EqDecision TargetReference) by solve_decision. solve_decision. Defined.

Definition document_of (id : string) : AgentDocument := node_document "assignments" id.

#[local] Instance scenario_documents : Serde AgentDocument :=
  table_serde [(document_of base_id, "base agent"%string); (document_of web_id, "web agent"%string)] eq_refl.

Definition repository : UpdateRepositorySpec := mkUpdateRepositorySpec base_spec "assignments".

Definition web_group : UpdateGroup :=
  mkUpdateGroup "web" ∅ "fleet" {[ "app" := "web" ]} [] ∅ web_spec None false.

(** A group that depends on a group nobody declared. *)
Definition dangling_group : UpdateGroup :=
  mkUpdateGroup "dangling" ∅ "fleet" {[ "app" := "other" ]} ["nowhere"%string] ∅ web_spec None false.

Definition reserved_identity : AgentIdentity := mkAgentIdentity Reserved None None.

Definition agent_a (hold : bool) : UpdateAgent :=
  mkUpdateAgent "a" reserved_identity {[ "app" := "web" ]} hold false.
Definition agent_b : UpdateAgent := mkUpdateAgent "b" reserved_identity ∅ false false.

Definition cluster (groups : list UpdateGroup) (hold : bool) : FleetHistory.Cluster :=
  FleetHistory.mkCluster "fleet" repository [] groups [agent_a hold; agent_b] ∅ ∅ ∅ dataflow_key noon 0.

Definition new_state : DurableRolloutState := mkDurableRolloutState ∅ ∅ ∅ ∅.
Definition no_log : ObservationLog := mkObservationLog ∅ ∅.
Definition no_cache : VerifiedReports := mkVerifiedReports ∅ 0.

Definition blank_plan : ReconcilePlan :=
  mkReconcilePlan (mkPublicationPlan [] ∅ ∅ EmptyString) ∅ ∅ ∅ ∅ ∅ ∅ ∅ [] ∅ ∅ ∅.

Definition plan_of (r : option ((PlanError + ReconcilePlan) * (ObservationLog * VerifiedReports))) : ReconcilePlan :=
  match r with Some (inr plan, _) => plan | _ => blank_plan end.

Definition memory_of (r : option ((PlanError + ReconcilePlan) * (ObservationLog * VerifiedReports)))
    : ObservationLog * VerifiedReports :=
  match r with Some (_, memory) => memory | None => (no_log, no_cache) end.

Definition plans (r : option ((PlanError + ReconcilePlan) * (ObservationLog * VerifiedReports))) : bool :=
  match r with Some (inr _, _) => true | _ => false end.

Lemma plans_plan r : plans r = true → r = Some (inr (plan_of r), memory_of r).
Proof. by destruct r as [[[e|p] m]|]. Qed.

Definition first_cluster : FleetHistory.Cluster := cluster [web_group; dangling_group] false.
Definition first_pass := plan_once first_cluster new_state no_log no_cache.
Definition first_plan : ReconcilePlan := plan_of first_pass.
Definition first_state : DurableRolloutState := planned_state first_plan.

(** The group's node is handed the group's deployment, the other one the default; the group with
    the dangling dependency is quarantined and stops nobody. *)
Example first_pass_publishes :
  match first_pass with
  | Some (inr plan, _) => (rc_routing plan, rc_assignments plan)
  | _ => (∅, ∅)
  end = ({[ "a" := "web"; "b" := DEFAULT_GROUP ]}, {[ "a" := web_id; "b" := base_id ]}).
Proof. vm_compute. reflexivity. Qed.

Lemma first_cluster_unique : unique_names first_cluster.
Proof. split; apply (bool_decide_unpack _); vm_compute; reflexivity. Qed.

Lemma first_pass_plans : first_pass = Some (inr first_plan, memory_of first_pass).
Proof. apply plans_plan. vm_compute. reflexivity. Qed.

Lemma first_state_reachable : reachable first_state.
Proof. exact (ReachPass _ _ _ _ _ _ ReachNew first_cluster_unique first_pass_plans). Qed.

Lemma recorded_assignments_resolve_witness :
  ∃ d, bodies_by_identity (bt_values (dr_admitted first_state)) !! web_id = Some d
    ∧ assignment_identity d = Some web_id.
Proof.
  destruct (recorded_assignments_resolve first_state first_state_reachable) as [_ Hb].
  apply (Hb "a"%string). vm_compute. reflexivity.
Defined.

(** The second pass: the operator holds [a], and the group's budget is a mistake. *)
Definition broken_group : UpdateGroup :=
  mkUpdateGroup "web" ∅ "fleet" {[ "app" := "web" ]} [] ∅ web_spec (Some 0%nat) false.

Definition second_cluster : FleetHistory.Cluster := cluster [broken_group] true.

Lemma second_cluster_unique : unique_names second_cluster.
Proof. split; apply (bool_decide_unpack _); vm_compute; reflexivity. Qed.

(** ** Past the preflights *)

(** The repository both deployments name: the two packages, signed. *)
Definition signed_package (c : ascii) : string * TargetEntry :=
  (tr_path (package c),
   mkTargetEntry (default EmptyString (hex_decode (hex64 c))) 100
     (application_custom "app" "stable" (String c ".0.0") "linux" "x86_64")).

Definition release_repository : TrustedRepository :=
  mkTrustedRepository (λ path, snd <$> find (λ x, bool_decide (x.1 = path)) [signed_package "1"; signed_package "2"])
    [signed_package "1"; signed_package "2"] 1000 None.

#[local] Instance limits_eq : EqDecision ManagedRepositoryLimits.
Proof. solve_decision. Defined.

#[local] Instance limits_countable : Countable ManagedRepositoryLimits.
Proof.
  apply (inj_countable' (λ l, match l with mkManagedRepositoryLimits a b c => (a, b, c) end)
    (λ '(a, b, c), mkManagedRepositoryLimits a b c)). by intros [].
Defined.

#[local] Instance coordinates_serde : Serde (string * string * JsonValue * ManagedRepositoryLimits).
Proof.
  refine {| to_vec := λ x, Some (bits (encode (x : string * string * string * ManagedRepositoryLimits)));
            from_slice := λ s, decode (unbits s) |}.
  intros i b [= <-]. by rewrite unbits_bits, decode_encode.
Defined.

Definition surroundings (allowed : string → option bool) : Surroundings :=
  mkSurroundings false false (mkOutside true (λ _, inr release_repository) allowed (λ _, inr tt)).


(** The same pass where the policy refuses the group's new package: nothing is published for the node
    of the default cohort either. *)
Example one_refused_package_stops_the_generation :
  match reconcile_once (surroundings (λ sha, if bool_decide (sha = hex64 "2") then Some false else None))
          first_cluster new_state no_log no_cache with
  | Some (inl (PPackages (PkBlocked deployment version)), _) => (deployment, version)
  | _ => (EmptyString, EmptyString)
  end = ("web"%string, "2.0.0"%string).
Proof. vm_compute. reflexivity. Qed.

(** What the second pass plans from. *)
Definition second_desired : DesiredState :=
  default (mkDesiredState repository ∅ ∅ [] [] ∅ ∅ ∅ ∅ ∅)
    (desired_state "fleet" repository [] [broken_group] [agent_a true; agent_b] ∅ (dr_admitted first_state)).

Definition second_pass :=
  plan_reconcile second_desired (observed_state second_cluster first_state) no_log no_cache.
Definition second_plan : ReconcilePlan := plan_of second_pass.

Lemma second_pass_plans :
  plan_reconcile second_desired (observed_state second_cluster first_state) no_log no_cache
  = Some (inr second_plan, memory_of second_pass).
Proof. apply (plans_plan second_pass). vm_compute. reflexivity. Qed.

Lemma second_desired_is desired :
  desired_state "fleet" repository [] [broken_group] [agent_a true; agent_b] ∅ (dr_admitted first_state)
  = Some desired → desired = second_desired.
Proof. intros Hd. unfold second_desired. by rewrite Hd. Qed.

Lemma inventory_isolates_each_resource_witness :
  inventory_sound second_desired (dr_admitted first_state)
  ∧ contains_key "web" (de_groups second_desired) = false
  ∧ contains_key "web" (de_held second_desired) = true.
Proof.
  destruct second_cluster_unique as [Hg Ha].
  destruct (inventory_isolates_each_resource "fleet" repository [] [broken_group] [agent_a true; agent_b] ∅
    (dr_admitted first_state) Hg Ha) as (desired & Hd & Hs & _).
  apply second_desired_is in Hd. rewrite Hd in Hs. split; [exact Hs|]. split; vm_compute; reflexivity.
Defined.

Lemma frozen_nodes_keep_their_assignment_witness :
  rc_routing second_plan !! ("a" : string) = Some "web"%string
  ∧ rc_assignments second_plan !! ("a" : string) = Some web_id.
Proof.
  destruct (frozen_nodes_keep_their_assignment second_desired (observed_state second_cluster first_state)
    no_log no_cache second_plan (memory_of second_pass) (mkResolvedNode "a" {[ "app" := "web" ]})) as [Hr Ha].
  - destruct second_cluster_unique as [Hg Hag].
    destruct (desired_state_spec "fleet" repository [] [broken_group] [agent_a true; agent_b] ∅
      (dr_admitted first_state) Hg Hag) as (desired & Hd & Hs & _).
    apply second_desired_is in Hd. rewrite Hd in Hs. exact (is_sound _ _ Hs).
  - exact second_pass_plans.
  - assert (head (de_nodes second_desired) = Some (mkResolvedNode "a" {[ "app" := "web" ]})) as Hh
      by (vm_compute; reflexivity).
    destruct (de_nodes second_desired) as [|x l]; [discriminate|]. injection Hh as ->. constructor.
  - left. apply (bool_decide_unpack _). vm_compute. reflexivity.
  - cbn [rn_name] in Hr, Ha. split; [rewrite Hr; vm_compute; reflexivity|].
    rewrite Ha; [vm_compute; reflexivity|]. exists "web"%string. vm_compute. reflexivity.
Defined.

Lemma generation_never_hands_out_refused_bodies_witness :
  acts_on (observed_state second_cluster first_state) no_cache "a" web_id ∨ web_id ∉ rc_blocked second_plan.
Proof.
  destruct (generation_never_hands_out_refused_bodies _ _ _ _ _ _ second_pass_plans) as [Hall _].
  apply Hall. vm_compute. reflexivity.
Defined.

(** A group without inputs resolves to itself. *)
Definition plain_groups : BTreeMap ResolvedGroup :=
  {[ "web" := mkResolvedGroup "web" {[ "app" := "web" ]} [] ∅ None web_a 1 false ]}.

Definition plain_context : InputResolution :=
  mkInputResolution {[ "a" := "web" ]} ∅ ∅ ∅ no_cache ∅ noon_ms dataflow_key.

Lemma input_resolution_is_a_proven_fixpoint_witness :
  ∃ final, resolve_group_inputs plain_context plain_groups = Some final ∧ dom final = dom plain_groups.
Proof.
  destruct (input_resolution_is_a_proven_fixpoint plain_context plain_groups ∅) as (final & Hf & Hd & _).
  - intros q Hq. by apply not_elem_of_empty in Hq.
  - vm_compute. reflexivity.
  - exists final. split; assumption.
Defined.

(** ** The state store *)

#[local] Instance index_eq : EqDecision AdmittedStateIndex.
Proof. solve_decision. Defined.

#[local] Instance index_countable : Countable AdmittedStateIndex.
Proof.
  apply (inj_countable'
    (λ i, (ix_format i, (λ s, bool_decide (s = SlotA)) <$> ix_active i, ix_revision_sha256 i, ix_max_shards i,
           ix_a_shards i, ix_b_shards i))
    (λ '(f, a, r, m, x, y), mkAdmittedStateIndex f ((λ b : bool, if b then SlotA else SlotB) <$> a) r m x y)).
  by intros [? [[]|] ? ? ? ?].
Defined.

#[local] Instance index_serde : Serde AdmittedStateIndex.
Proof.
  refine {| to_vec := λ i, Some (bits (encode i)); from_slice := λ s, decode (unbits s) |}.
  intros i b [= <-]. by rewrite unbits_bits, decode_encode.
Defined.

Lemma index_serialises (i : AdmittedStateIndex) : is_Some (to_vec i).
Proof. by eexists. Qed.

#[local] Instance Stored_eq : EqDecision StoredDurableRolloutState.
Proof.
  assert (EqDecision AdmittedDeployment) by solve_decision.
  assert (EqDecision VetoedDeployment) by solve_decision. solve_decision.
Defined.

#[local] Instance state_serde : Serde StoredDurableRolloutState :=
  table_serde [(stored_from first_state, "the state after the first pass"%string)] eq_refl.

Definition prepared : PreparedAdmittedState :=
  mkPreparedAdmittedState "the state after the first pass" (sha256_bytes "the state after the first pass") 2.

(** The first store, with the answer to its fourth call lost. *)
Definition empty_cluster : ApiServer := mkApiServer ∅ 1 [Works; Works; Works; FailsAfter].

Lemma stored_state_survives_any_failure_witness :
  let '(_, c1) := store_admitted_state "admitted" prepared None empty_cluster in
  ∃ s1 v c2, load_admitted_state "admitted" (restarted c1) = (inr (s1, v), c2)
    ∧ (s1 = empty_state ∨ s1 = first_state).
Proof.
  pose proof (stored_state_survives_any_failure "admitted" index_serialises empty_state first_state prepared None
    empty_cluster) as Hs.
  destruct (store_admitted_state "admitted" prepared None empty_cluster) as [r c1].
  destruct Hs as (s1 & v & c2 & Hl & _ & _ & Hor & _); [vm_compute; reflexivity|reflexivity|reflexivity|reflexivity|].
  exists s1, v, c2. split; assumption.
Defined.

(** A writer that still holds version 0 of an index that has moved to version 1. *)
Definition moved_cluster : ApiServer :=
  mkApiServer {[ "admitted" := (1%N, index_map (bits (encode index_default))) ]} 2 [].

(** ** The publication of both deployments, met by its nodes *)

Definition two_groups : BTreeMap string := {[ "a" := "web"; "b" := DEFAULT_GROUP ]}.
Definition two_deployments : BTreeMap RepositoryAssignment := {[ "a" := web_a; "b" := base_a ]}.

Definition two_plan : PublicationPlan :=
  match build_publication_plan repository two_groups two_deployments with
  | Some (inr plan) => plan
  | _ => mkPublicationPlan [] ∅ ∅ EmptyString
  end.

Lemma two_plan_builds : build_publication_plan repository two_groups two_deployments = Some (inr two_plan).
Proof.
  assert (match build_publication_plan repository two_groups two_deployments with Some (inr _) => true | _ => false end = true)
    as Hb by (vm_compute; reflexivity).
  unfold two_plan. destruct (build_publication_plan repository two_groups two_deployments) as [[|]|]; done.
Qed.

(** ** A visit that meets it *)

Definition entry_of (bytes : string) : TargetEntry := mkTargetEntry (raw_sha256 bytes) (str_len bytes) ∅.

Definition published (path : string) : option PublicationTarget :=
  find (λ t, bool_decide (pt_path t = path)) (pp_targets two_plan).

(** Every stream arrives in two chunks. *)
Definition halves (bytes : string) : list string :=
  [String.substring 0 2 bytes; String.substring 2 (String.length bytes - 2) bytes].

Definition calm_visit : Visit :=
  mkVisit (inr (λ path, entry_of ∘ pt_bytes <$> published path, []))
    (λ path, inr ((λ t, inr <$> halves (pt_bytes t)) <$> published path))
    (λ _, None) true Replaced.

(** The same node, with the network gone. *)
Definition dead_visit : Visit :=
  mkVisit (inl (Transport "unreachable")) (λ _, inl (Transport "unreachable")) (λ _, None) true Replaced.

Lemma entry_stands_for bytes : content_of (entry_of bytes) bytes.
Proof. split; [done|]. apply hex_encode_raw. Qed.

#[local] Instance PublicationTarget_eq : EqDecision PublicationTarget.
Proof. solve_decision. Defined.

Lemma calm_visit_serves : serves calm_visit two_plan.
Proof.
  assert (Forall (λ t, published (pt_path t) = Some t ∧ joined (halves (pt_bytes t)) = pt_bytes t) (pp_targets two_plan))
    as Hall by (apply (bool_decide_unpack _); vm_compute; exact I).
  do 2 eexists. split; [reflexivity|]. split; [reflexivity|]. intros t Ht. rewrite Forall_forall in Hall.
  destruct (Hall t Ht) as [Hf Hj]. cbn [calm_visit vi_staging vi_open]. rewrite Hf. split; [reflexivity|].
  split; [exists (entry_of (pt_bytes t)); split; [reflexivity|apply entry_stands_for]|].
  exists (halves (pt_bytes t)). split; [reflexivity|exact Hj].
Qed.

Definition routing_a : Routing := mkRouting "https://releases/routing/" (assignment_object_key "assignments" "a").

Lemma published_assignment_reaches_the_node_witness :
  resolve_assignment_at calm_visit routing_a "/opt/app" (Some "stale"%string)
  = (inr (mkResolvedAssignment web_a web_id), Some "web"%string).
Proof.
  destruct (published_assignment_reaches_the_node repository two_groups two_deployments two_plan "a" web_a
    calm_visit routing_a "/opt/app" (Some "stale"%string)) as (id & body & Hid & Hpub & [Hr|Hcollision]).
  - exact two_plan_builds.
  - vm_compute. reflexivity.
  - reflexivity.
  - exact calm_visit_serves.
  - vm_compute. reflexivity.
  - vm_compute. reflexivity.
  - assert (publication web_a = inr ("web"%string, web_id)) as Hw by (vm_compute; reflexivity).
    assert (body = "web"%string) as Hb by congruence. assert (id = web_id) as Hi by congruence.
    rewrite Hb, Hi in Hr. exact Hr.
  - vm_compute. reflexivity.
Defined.

(** A boot with the network gone, after one that met the publication, runs what that one brought. *)
Lemma node_boots_on_verified_configuration_witness :
  ∃ config, (resolve_managed_config dead_visit routing_a "/opt/app"
               (boots routing_a "/opt/app" None [dead_visit; calm_visit])).1 = inr config
    ∧ authenticated calm_visit routing_a "web" ∧ cf_assignment_sha256 config = web_id.
Proof.
  set (outcome := resolve_managed_config dead_visit routing_a "/opt/app"
                    (boots routing_a "/opt/app" None [dead_visit; calm_visit])).
  assert (match outcome with (inr _, Some bytes) => bool_decide (bytes = "web"%string) | _ => false end = true) as Hrun
    by (vm_compute; reflexivity).
  destruct outcome as [r live'] eqn:Hout.
  destruct r as [|config], live' as [bytes|]; try discriminate Hrun. apply bool_decide_eq_true in Hrun.
  destruct (node_boots_on_verified_configuration routing_a "/opt/app" [dead_visit; calm_visit] dead_visit
    (inr config) (Some bytes) Hout) as [_ Hall].
  destruct (Hall config eq_refl) as (v & b & assignment & Ha & _ & Hb & _ & _ & Hsha & Hv). injection Hb as Hb.
  exists config. split; [reflexivity|].
  assert (v = calm_visit) as Hc.
  { assert (v ≠ dead_visit) as Hne
      by (intros Hd; rewrite Hd in Ha; destruct Ha as (? & ? & ? & ? & ? & ? & Hl & _); discriminate Hl).
    destruct Hv as [Hd|[Hin _]]; [destruct (Hne Hd)|]. apply elem_of_cons in Hin as [Hd|Hin]; [destruct (Hne Hd)|].
    apply list_elem_of_singleton in Hin. exact Hin. }
  rewrite <-Hb, Hrun in Ha. rewrite <-Hb, Hrun in Hsha. rewrite Hc in Ha. split; assumption.
Defined.
