(* ===== verification/RuntimeWitnesses.v ===== *)
(** * RuntimeWitnesses: replicas, gateways and publishers at work

    A replica that takes over a lapsed lease, an enrollment that completes a reserved node and one
    that creates a node, and a generation published to an empty store: the runtime's theorems
    applied there. *)
From S2P Require Import Prelude Identity Maps Releases Dataflow Telemetry Window Rollout Assign.
From S2P Require Import Assignment Groups Publication Inputs Inventory Shared Lease Gateway Enroll.
From S2P Require Import EnrollSafety Publish PublishSafety Fixtures FleetFixtures.

(** ** Quiet turns: time passes, and nobody else acts *)

Definition quiet {V} (elapsed : N) : turn V := mkTurn elapsed (λ s, s) Delivered.

Lemma quiet_honest {V} (R : relation (shared V)) elapsed n :
  (∀ s : shared V, R s (mkShared (sh_objects s) (sh_next s) (sh_clock s + Z.of_N elapsed))) →
  honest R (replicate n (quiet elapsed)).
Proof. intros HR. apply Forall_replicate. exact HR. Qed.

(** ** The publisher's lease *)

Definition lapsed_lease : shared Lease :=
  mkShared {[ publisher_lease_name "fleet" := (0%N, Some (new_lease_spec "gone" 0 3)) ]} 1 (micros 20).

(** Clocks up to five seconds apart, this one two seconds ahead of the slowest. *)
Lemma one_publisher_at_a_time_witness :
  let run := acquire_or_renew_publisher_lease (micros 2) "fleet" "here" (starts lapsed_lease (replicate 3 (quiet 1000))) in
  run.1 = inr true ∧ ∃ e, held_until (publisher_lease_name "fleet") (cl_shared run.2) "here" e.
Proof.
  intros run. assert (run.1 = inr true) as Hr by (vm_compute; reflexivity). split; [exact Hr|].
  destruct (one_publisher_at_a_time "fleet" "here" (micros 5) (micros 2) lapsed_lease (replicate 3 (quiet 1000)) run.1 run.2)
    as [Hacq _].
  - apply Z.leb_le. reflexivity.
  - split.
    + intros o Ho. vm_compute in Ho. injection Ho as <-. reflexivity.
    + intros e (v & spec & r & Ho & Hh & _). vm_compute in Ho. injection Ho as <- <-. discriminate Hh.
  - apply quiet_honest. intros s. split; simpl; auto; lia.
  - destruct Hacq as (_ & _ & _ & Hwon); [apply surjective_pairing|].
    destruct (Hwon Hr) as (t & _ & Hheld). eexists. exact Hheld.
Defined.

(** Ten seconds into a lease of fifteen, a replica whose clock is six seconds ahead takes it over, and
    its holder is told by the copy it read before that it still holds it. *)
Definition fresh_lease : shared Lease :=
  mkShared {[ publisher_lease_name "fleet" := (0%N, Some (new_lease_spec "here" 0 0)) ]} 1 (micros 10).

Lemma a_fast_clock_takes_an_unlapsed_lease :
  (acquire_or_renew_publisher_lease (micros 6) "fleet" "there" (starts fresh_lease [])).1 = inr true
  ∧ (holds_publisher_lease 0 "fleet" "here" (starts fresh_lease
       [quiet 0; mkTurn 0 (λ s, put_object (publisher_lease_name "fleet") (Some (new_lease_spec "there" (micros 16) 1)) s) Delivered])).1
    = inr true.
Proof. split; vm_compute; reflexivity. Qed.

(** ** Enrollment *)

(** A leaf is its fields, and a request is its point. *)
#[local] Instance field_certificates : Certificates.
Proof.
  refine {|
    csr_point := Some;
    signed_by := λ params csr, Some (enc_fields [lp_common_name params; lp_uri params; csr]);
    parse_x509_certificate := λ leaf,
      match dec_fields EmptyString leaf with
      | Some [cn; uri; point] => Some (EmptyString, mkCertificate [Some cn] (Some (Some [GUri uri])) point)
      | _ => None
      end;
  |}.
  intros params csr leaf Hleaf. apply (inj Some) in Hleaf as <-. exists csr. split; [reflexivity|].
  rewrite (dec_enc_fields [lp_common_name params; lp_uri params; csr]). reflexivity.
Defined.

#[local] Instance plain_paths : ObjectPaths := {| path_from := id |}.

#[local] Instance bearer_urls : Urls := {|
  Url := string;
  url_parse := λ s, if String.prefix "https://" s then Some s else None;
  url_scheme := λ _, "https"%string;
  url_host := λ _, Some "store"%string;
  url_username := λ _, EmptyString;
  url_password := λ _, None;
  url_query := λ _, Some "signature"%string;
  url_fragment := λ _, None;
  url_path := id;
  url_cannot_be_a_base := λ _, false;
  url_from_directory_path := λ _, None;
  url_to_file_path := λ _, false;
|}.

#[local] Instance pinned_point : Curve := {| parse_point := λ _, Some "pinned"%string |}.

Definition object_store : Destination := mkDestination "content" (λ key, Some (Some (String.append "https://store/" key))).

(** Where the bundle of a node lies. *)
Definition bundle_object (node : string) : string :=
  String.concat "/" [ENROLLMENT_OBJECT_ROOT; node_object_digest node; hex64 "a"; String.append (hex64 "b") ".json"].

Definition bundle_capability : DownloadCapability :=
  mkDownloadCapability DownloadCapability_SCHEMA
    (String.append "https://store/content/" (bundle_object "reserved-node")) (hex64 "b").

#[local] Instance DownloadCapability_eq : EqDecision DownloadCapability.
Proof. solve_decision. Defined.

#[local] Instance gateway_json : DataflowJson := {|
  json_snapshot := no_serde _;
  json_input_publication := no_serde _;
  json_output_publication := no_serde _;
  json_download := table_serde [(bundle_capability, "capability"%string)] eq_refl;
  json_upload := no_serde _;
|}.

Definition node_request : string := String (ascii_of_N 4) (str_repeat 64 "k").

Definition reserved_node : AgentObject :=
  mkAgentObject (Some "reserved-node") None "fleet" (mkAgentIdentity Reserved None None) false false ∅ None
    (Some (bundle_object "reserved-node")).

Definition open_fleet : shared resource :=
  mkShared {[ lease_key "enrollment" := (0%N, RLease None);
              repository_key "fleet" := (1%N, RRepository (mkRepositoryObject None Open ∅));
              agent_key "reserved-node" := (2%N, RAgent reserved_node) ]} 3 0.

Abbreviation enrolling name :=
  (enroll "fleet" object_store 20000 "enrollment" "token" "bootstrap" (Enrollment "bootstrap") name node_request
    (starts open_fleet (replicate 20 (quiet 1000)))).

Lemma open_fleet_versioned : versioned open_fleet.
Proof.
  assert (map_Forall (λ _ o, (o.1 < 3)%N) (sh_objects open_fleet)) as Hall
    by (apply (bool_decide_unpack _); vm_compute; exact I).
  exact Hall.
Qed.

Lemma open_fleet_quiet : honest (enroll_turn "fleet" "enrollment" "token") (replicate 20 (quiet 1000)).
Proof.
  apply quiet_honest. intros s. split; [|unfold SERVED_WITHIN, micros; simpl; lia].
  split; simpl; auto; try lia.
Qed.

Lemma enrollment_never_seizes_a_name_witness :
  ∃ leaf c, enrolling "reserved-node" = (inr (bundle_capability, leaf), c)
    ∧ certificate_identity leaf = Node (mkNodeSpiffeId "fleet" "reserved-node") (hex_encode node_request).
Proof.
  assert (match (enrolling "reserved-node").1 with
          | inr (capability, _) => bool_decide (capability = bundle_capability)
          | inl _ => false
          end = true) as Hr by (vm_compute; reflexivity).
  assert (csr_public_key node_request = Some (hex_encode node_request)) as Hpoint by (vm_compute; reflexivity).
  destruct (enrolling "reserved-node") as [[status|[capability leaf]] c] eqn:Hrun; cbn [fst] in Hr; [discriminate Hr|].
  apply bool_decide_eq_true in Hr as ->. exists leaf, c. split; [reflexivity|].
  destruct (enrollment_never_seizes_a_name "fleet" "enrollment" "token" object_store 20000 "bootstrap"
    (Enrollment "bootstrap") "reserved-node" node_request open_fleet (replicate 20 (quiet 1000)) _ c
    open_fleet_versioned open_fleet_quiet Hrun) as [_ Hgrant].
  destruct (Hgrant bundle_capability leaf eq_refl) as (key & _ & _ & Hkey & _ & _ & Hid).
  rewrite Hpoint in Hkey. injection Hkey as <-. exact Hid.
Defined.

(** ** A first generation *)

(** A document is its version. *)
#[local] Instance version_json : JsonValues := {|
  JsonValue := string;
  json_is_object := λ _, true;
  json_is_exact := λ _, true;
  json_to_vec := Some;
  json_from_str := Some;
|}.

#[local] Instance version_pointers : JsonPointers := {|
  json_pointer := λ v _, Some v;
  json_as_u64 := parse_u64;
  json_as_str := Some;
|}.

Definition config_target : string := String.concat "." [String.append "targets/" (hex64 "d"); "config.json"].

Definition first_files : Files :=
  {[ ROOT := "root"; "metadata/1.targets.json" := "targets"; config_target := "config"; TIMESTAMP := "1" ]}.

Definition first_publication : PublicationFiles :=
  mkPublicationFiles [ROOT; "metadata/1.targets.json"; config_target; TIMESTAMP] [].

Definition empty_store : shared string := mkShared ∅ 0 0.

Lemma plain_nonempty a : plain a → a ≠ EmptyString.
Proof. intros (parts & Hp & Hne & _) ->. vm_compute in Hp. congruence. Qed.

Lemma fleet_keys_distinct : distinct_keys "fleet".
Proof.
  intros a b Ha%plain_nonempty Hb%plain_nonempty. unfold object_key. cbn [path_from plain_paths id].
  rewrite !filter_cons_True by (try done; vm_compute; discriminate). rewrite !filter_nil.
  intros Hk. by apply (inj (String.append "fleet/")) in Hk.
Qed.

Lemma first_publication_well_formed : well_formed_plan first_publication.
Proof.
  assert (Forall (λ a, match path_components a with
                       | Some parts => bool_decide (parts ≠ [] ∧ String.concat "/" parts = a) = true
                       | None => False
                       end) (pf_uploads first_publication)) as Hall
    by (repeat constructor; vm_compute; reflexivity).
  rewrite Forall_forall in Hall. split.
  - intros a Ha. specialize (Hall a Ha). destruct (path_components a) as [parts|] eqn:Hp; [|done].
    apply bool_decide_eq_true in Hall as [? ?]. by exists parts.
  - intros a l Hin. by apply not_elem_of_nil in Hin.
  - apply (bool_decide_unpack _). vm_compute. exact I.
Qed.

Abbreviation publishing := (publish_repository "fleet" first_files first_publication (starts empty_store [])).

Lemma generation_becomes_visible_whole_witness :
  ∃ c, publishing = (inr tt, c) ∧ served "fleet" (cl_shared c) = Some 1%N
    ∧ complete "fleet" first_files first_publication (cl_shared c).
Proof.
  assert (match publishing.1 with inr _ => true | inl _ => false end = true) as Hr by (vm_compute; reflexivity).
  assert (served "fleet" (cl_shared publishing.2) = Some 1%N) as Hs by (vm_compute; reflexivity).
  destruct publishing as [[e|[]] c] eqn:Hrun; [discriminate Hr|]. exists c. split; [reflexivity|]. split; [exact Hs|].
  destruct (generation_becomes_visible_whole "fleet" first_files first_publication empty_store [] (inr tt) c
    fleet_keys_distinct first_publication_well_formed) as (_ & _ & Hdone).
  - intros k o Ho. discriminate Ho.
  - constructor.
  - exact Hrun.
  - exact (proj1 (Hdone eq_refl)).
Defined.
