(* ===== verification/CommitWitnesses.v ===== *)
(** * CommitWitnesses: a first generation, signed, uploaded and cut short

    A repository whose documents are their contents, a pass that initialises it, signs a generation
    and uploads it, and dies before the cluster records its state; the theorems about authoring,
    private inputs and commits applied there. *)
From Stdlib Require Import Ascii.
From S2P Require Import Prelude Identity Maps Releases Dataflow Telemetry Window Rollout Assign Assignment Groups.
From S2P Require Import Publication Inputs Inventory Durable ShardStore ShardSafety Shared Lease Publish PublishSafety.
From S2P Require Import Authoring AuthoringSafety Enroll InputData Commit CommitSafety Fixtures FleetFixtures ControlWitnesses RuntimeWitnesses.

#[local] Open Scope N_scope.

(** ** Parameters *)

#[local] Instance key_paths : ObjectPaths := {| path_from := id |}.

#[local] Instance RoleKeys_eq : EqDecision RoleKeys.
Proof. solve_decision. Defined.

#[local] Instance RoleKeys_countable : Countable RoleKeys.
Proof.
  apply (inj_countable' (λ k, (rk_keyids k, rk_threshold k, rk_extra k)) (λ '(i, t, x), mkRoleKeys i t x)). by intros [].
Defined.

#[local] Instance Roles_eq : EqDecision Roles.
Proof. solve_decision. Defined.

#[local] Instance Roles_countable : Countable Roles.
Proof.
  apply (inj_countable' (λ r, (rl_root r, rl_targets r, rl_snapshot r, rl_timestamp r)) (λ '(a, b, c, d), mkRoles a b c d)). by intros [].
Defined.

#[local] Instance Root_eq : EqDecision Root.
Proof. solve_decision. Defined.

#[local] Instance Root_countable : Countable Root.
Proof.
  apply (inj_countable' (λ r, (ro_spec_version r, ro_consistent_snapshot r, ro_version r, ro_expires r, ro_keys r, ro_roles r, ro_extra r))
    (λ '(a, b, c, d, e, f, g), mkRoot a b c d e f g)). by intros [].
Defined.

#[local] Instance Target_eq : EqDecision Target.
Proof. solve_decision. Defined.

#[local] Instance Target_countable : Countable Target.
Proof.
  apply (inj_countable' (λ t, (tg_sha256 t, tg_length t, tg_custom t)) (λ '(a, b, c), mkTarget a b c)). by intros [].
Defined.

#[local] Instance Repository_eq : EqDecision Repository.
Proof. solve_decision. Defined.

#[local] Instance Repository_countable : Countable Repository.
Proof.
  apply (inj_countable' (λ r, (re_targets r, re_targets_version r, re_snapshot_version r, re_timestamp_version r))
    (λ '(a, b, c, d), mkRepository a b c d)). by intros [].
Defined.

Definition document_of {A} `{Countable A} (a : A) : string := bits (encode a).
Definition parsed {A} `{Countable A} (s : string) : option A := decode (unbits s).

Lemma parsed_document {A} `{Countable A} (a : A) : parsed (document_of a) = Some a.
Proof. unfold parsed, document_of. by rewrite unbits_bits, decode_encode. Qed.

#[local] Arguments parsed : simpl never.
#[local] Arguments document_of : simpl never.

(** A timestamp is the generation it commits to. *)
#[local] Instance document_json : JsonValues := {|
  JsonValue := string;
  json_is_object := λ _, true;
  json_is_exact := λ _, true;
  json_to_vec := Some;
  json_from_str := Some;
|}.

#[local] Instance document_pointers : JsonPointers := {|
  json_pointer := λ v _, Some v;
  json_as_u64 := λ v, re_timestamp_version <$> parsed v;
  json_as_str := λ _, None;
|}.

#[local] Instance plain_tough : ToughOps := {|
  tuf_key := Some;
  key_id := Some;
  target_name := Some;
  root_from_slice := parsed;
  sign_root := λ root _, Some (document_of root);
  tough_load := λ _ f,
    bytes ← f timestamp_name;
    if str_len bytes <=? 1024 * 1024 then
      r ← parsed bytes;
      _ ← f (snapshot_name (re_snapshot_version r));
      _ ← f (targets_name (re_targets_version r));
      Some r
    else None;
  tough_sign := λ root r _ _,
    anchor ← parsed root;
    Some [(root_name (ro_version anchor), root); (timestamp_name, document_of r);
          (snapshot_name (re_snapshot_version r), "snapshot"%string); (targets_name (re_targets_version r), "targets"%string)];
|}.

#[local] Instance plain_tough_laws : Tough.
Proof.
  split.
  - intros root sources bytes [= <-]. apply parsed_document.
  - done.
  - intros root f g r. simpl. destruct (f timestamp_name) as [bytes|] eqn:Ht; [|done]. simpl.
    destruct (str_len bytes <=? 1024 * 1024) eqn:Hl; [|done]. destruct (parsed (A:=Repository) bytes) as [r'|] eqn:Hp; [|done]. simpl.
    destruct (f (snapshot_name _)) as [sn|] eqn:Hs; [|done]. destruct (f (targets_name _)) as [tg|] eqn:Hg; [|done]. simpl.
    intros [= <-] _ _ Hsame. unfold read_names in Hsame.
    rewrite (Hsame timestamp_name), Ht by set_solver. simpl. rewrite Hl, Hp. simpl.
    rewrite (Hsame (snapshot_name _)), Hs by set_solver. simpl. by rewrite (Hsame (targets_name _)), Hg by set_solver.
  - intros root f r. simpl. destruct (f timestamp_name) as [bytes|] eqn:Ht; [|done]. simpl.
    destruct (N.leb_spec (str_len bytes) (1024 * 1024)) as [Hl|]; [|done]. destruct (parsed (A:=Repository) bytes) as [r'|] eqn:Hp; [|done]. simpl.
    destruct (f (snapshot_name _)); [|done]. destruct (f (targets_name _)); [|done]. simpl. intros [= <-].
    exists bytes. split_and!; [done| |exact Hl]. unfold signed_version. simpl. by rewrite Hp.
  - intros root r expires keys signed. simpl. destruct (parsed (A:=Root) root) as [anchor|] eqn:Hp; [|done]. intros [= <-]. exists anchor. done.
  - intros root r expires keys signed f. simpl. destruct (parsed (A:=Root) root) as [anchor|] eqn:Hp; [|done]. intros [= <-] _ Hall.
    destruct (Hall timestamp_name (document_of r)) as [-> Hl]; [set_solver|]. simpl. unfold loadable in Hl. simpl in Hl.
    rewrite (proj2 (N.leb_le _ _) Hl), parsed_document. simpl.
    destruct (Hall (snapshot_name (re_snapshot_version r)) "snapshot"%string) as [-> _]; [set_solver|]. simpl.
    by destruct (Hall (targets_name (re_targets_version r)) "targets"%string) as [-> _]; [set_solver|].
  - intros root r expires keys signed bytes. simpl. destruct (parsed (A:=Root) root) as [anchor|] eqn:Hp; [|done]. intros [= <-] Hin.
    assert (bytes = document_of r) as ->.
    { rewrite !elem_of_cons, elem_of_nil in Hin. destruct Hin as [[= Hn _]|[[= ->]|[[= Hn _]|[[= Hn _]|[]]]]]; [|done|..];
        symmetry in Hn; exfalso; revert Hn; apply pretty_not_timestamp. }
    unfold signed_version. simpl. by rewrite parsed_document.
Qed.

#[local] Instance no_instants : Rfc3339 := {| parse_from_rfc3339 := λ _, None |}.

#[local] Instance store_urls : Urls := {|
  Url := string;
  url_parse := Some;
  url_scheme := λ _, "https"%string;
  url_host := λ _, Some "store"%string;
  url_username := λ _, EmptyString;
  url_password := λ _, None;
  url_query := λ _, None;
  url_fragment := λ _, None;
  url_path := id;
  url_cannot_be_a_base := λ _, false;
  url_from_directory_path := λ _, None;
  url_to_file_path := λ _, false;
|}.

#[local] Instance no_assignments : AssignmentJson.
Proof. by refine {| assignment_to_vec := λ _, None; assignment_from_slice := λ _, None |}. Defined.

#[local] Instance plain_base : Base64 :=
  {| base64_encode := id; base64_decode := Some; base64_roundtrip := λ _, eq_refl |}.

#[local] Instance plain_hmac : Hmac :=
  {| hmac_sha256 := λ key message, sha256_bytes (String.append key message); hmac_canonical := λ key message, sha256_canonical _ |}.

#[local] Instance no_dataflow : DataflowJson := {|
  json_snapshot := no_serde _;
  json_input_publication := no_serde _;
  json_output_publication := no_serde _;
  json_download := no_serde _;
  json_upload := no_serde _;
|}.

#[local] Instance slot_index_eq : EqDecision AdmittedStateIndex.
Proof. solve_decision. Defined.

#[local] Instance slot_index_countable : Countable AdmittedStateIndex.
Proof.
  apply (inj_countable'
    (λ i, (ix_format i, (λ s, bool_decide (s = SlotA)) <$> ix_active i, ix_revision_sha256 i, ix_max_shards i, ix_a_shards i, ix_b_shards i))
    (λ '(f, a, r, m, x, y), mkAdmittedStateIndex f ((λ b : bool, if b then SlotA else SlotB) <$> a) r m x y)).
  by intros [? [[]|] ? ? ? ?].
Defined.

#[local] Instance slot_index_serde : Serde AdmittedStateIndex.
Proof.
  refine {| to_vec := λ i, Some (document_of i); from_slice := parsed |}. intros i b [= <-]. apply parsed_document.
Defined.

(** ** A pass *)

Definition routed_state : DurableRolloutState := mkDurableRolloutState ∅ ∅ {[ "node" := "fleet" ]} ∅.

#[local] Instance Stored_state_eq : EqDecision StoredDurableRolloutState.
Proof.
  assert (EqDecision AdmittedDeployment) by solve_decision.
  assert (EqDecision VetoedDeployment) by solve_decision. solve_decision.
Defined.

#[local] Instance routed_serde : Serde StoredDurableRolloutState :=
  table_serde [(stored_from routed_state, "the routed state"%string)] eq_refl.

(** A marker is its three digests. *)
#[local] Instance marker_serde : Serde PublicationMarker.
Proof.
  refine {| to_vec := λ m, if forallb (λ d, String.length d =? 64)%nat [pm_plan_sha256 m; pm_root_sha256 m; pm_timestamp_sha256 m]
                           then Some (String.append (pm_plan_sha256 m) (String.append (pm_root_sha256 m) (pm_timestamp_sha256 m))) else None;
            from_slice := λ b, Some (mkPublicationMarker (String.substring 0 64 b) (String.substring 64 64 b) (String.substring 128 64 b)) |}.
  intros [p r t] b. destruct (forallb _ _) eqn:Hl; [|done]. intros [= <-]. simpl in Hl. bool_to_prop.
  assert (∀ a b n m, String.substring (String.length a + n) m (String.append a b) = String.substring n m b) as Hskip.
  { induction a as [|c a IH]; intros; simpl; auto. }
  assert (∀ a b, String.substring 0 (String.length a) (String.append a b) = a) as Htake.
  { induction a as [|c a IH]; intros b; simpl; [by destruct b|]. by rewrite IH. }
  repeat match goal with Hn : (_ =? _)%nat = true |- _ => apply Nat.eqb_eq in Hn end.
  f_equal. f_equal.
  - by rewrite <-H at 1.
  - change 64%nat with (64 + 0)%nat at 1. rewrite <-H at 1. rewrite Hskip. by rewrite <-H0 at 1.
  - change 128%nat with (64 + (64 + 0))%nat at 1. rewrite <-H at 1. rewrite Hskip. rewrite <-H0 at 1. rewrite Hskip.
    rewrite <-H1 at 1. rewrite <-(append_empty_r t) at 2. apply Htake.
Defined.

Lemma markers_fit (m : PublicationMarker) : marker_validate m = inr tt → ∃ b, to_vec m = Some b ∧ str_len b ≤ PUBLICATION_MARKER_MAX_BYTES.
Proof.
  unfold marker_validate. intros Hv%demand_inr. destruct m as [p r t]. simpl in Hv. bool_to_prop. unfold is_canonical_sha256 in *. bool_to_prop.
  repeat match goal with Hn : (_ =? _)%nat = true |- _ => apply Nat.eqb_eq in Hn end.
  exists (String.append p (String.append r t)). split.
  - simpl. by rewrite !(proj2 (Nat.eqb_eq _ _)) by done.
  - rewrite str_len_length, !length_append. unfold PUBLICATION_MARKER_MAX_BYTES. lia.
Qed.

#[local] Instance PublicationMarker_countable : Countable PublicationMarker.
Proof.
  apply (inj_countable' (λ m, (pm_plan_sha256 m, pm_root_sha256 m, pm_timestamp_sha256 m)) (λ '(a, b, c), mkPublicationMarker a b c)). by intros [].
Defined.

(** A journal of the routed state. *)
#[local] Instance journal_serde : Serde PendingPublication.
Proof.
  refine {| to_vec := λ p, if bool_decide (pe_state p = stored_from routed_state) then Some (document_of (pe_marker p, pe_version p)) else None;
            from_slice := λ b, '(m, v) ← parsed b; Some (mkPendingPublication m v (stored_from routed_state)) |}.
  intros [m v st] b. simpl. case_bool_decide as Hst; [|done]. intros [= <-]. rewrite parsed_document. simpl. by rewrite Hst.
Defined.

Definition first_plan : PublicationPlan :=
  mkPublicationPlan [mkPublicationTarget "assignments/agents/node.json" "assignment" (hex64 "d")] ∅ ∅ (hex64 "d").

Definition routed_prepared : PreparedAdmittedState :=
  mkPreparedAdmittedState "the routed state" (sha256_bytes "the routed state") 1.

Definition first_transaction : PublicationTransaction :=
  mkPublicationTransaction "replica" "fleet" "signing" "" "admitted" None "key" first_plan ∅ routed_state (Some routed_prepared) (hex64 "d") 0.

Definition signing_keys : BTreeMap string :=
  {[ "root.pk8" := "r"; "root.next.pk8" := "n"; "targets.pk8" := "t"; "snapshot.pk8" := "s"; "timestamp.pk8" := "m" ]}.

(** Nothing but the keys and the lease; the API server will not answer. *)
Definition first_site : site :=
  mkSite (starts (mkShared ∅ 0 0) []) (starts (mkShared ∅ 0 0) []) (starts (mkShared ∅ 0 0) []) (starts (mkShared ∅ 0 0) [])
    (starts (mkShared {[ publisher_lease_name "fleet" := (0, Some (new_lease_spec "replica" 0 0)) ]} 1 0) [])
    (starts (mkShared {[ "signing" := (0, Some signing_keys) ]} 1 0) []) (mkApiServer ∅ 1 [FailsBefore]).

(** The same site for the next process. *)
Definition reopened (σ : site) : site :=
  mkSite (starts (cl_shared (si_repo σ)) []) (starts (cl_shared (si_state σ)) []) (starts (cl_shared (si_store σ)) [])
    (starts (cl_shared (si_private σ)) []) (starts (cl_shared (si_lease σ)) []) (starts (cl_shared (si_secrets σ)) [])
    (mkApiServer (as_objects (si_api σ)) (as_next (si_api σ)) []).

Lemma reopened_view prefix σ : view_of prefix (reopened σ) = view_of prefix σ.
Proof. reflexivity. Qed.

Lemma reopened_undisturbed σ : undisturbed (reopened σ).
Proof. split; reflexivity. Qed.

Abbreviation dying := (commit "fleet" first_transaction first_site).

Lemma published_generation_is_recorded_witness :
  dying.1 = inl (CState SUnavailable)
  ∧ ∃ version σ3, load_and_recover "fleet" "admitted" 1 (reopened dying.2) = (inr (routed_state, version), σ3).
Proof.
  split; [vm_compute; reflexivity|].
  assert (match vw_served (view_of "fleet" dying.2) with Some _ => true | None => false end = true) as Hs by (vm_compute; reflexivity).
  destruct (published_generation_is_recorded "fleet" first_transaction 1 empty_state first_site dying.1 dying.2 (reopened dying.2))
    as (y & version & σ3 & Hl & _ & _ & _ & _ & Hmoved & _).
  - exact fleet_keys_distinct.
  - intros i. eexists. reflexivity.
  - exact markers_fit.
  - reflexivity.
  - intros p [= <-]. vm_compute. reflexivity.
  - discriminate.
  - split; constructor.
  - split; reflexivity.
  - apply surjective_pairing.
  - apply reopened_undisturbed.
  - apply reopened_view.
  - assert (y = routed_state) as -> by (apply Hmoved; intros Heq; rewrite Heq in Hs; discriminate Hs).
    exists version, σ3. exact Hl.
Defined.

(** ** A repository on disk *)

Definition root_keys : BTreeMap string := {[ "r" := "r"; "t" := "t"; "s" := "s"; "m" := "m" ]}.

Definition first_anchor : Root :=
  mkRoot "1.0.0" true 1 0 root_keys
    (mkRoles (Some (mkRoleKeys ["r"%string] 1 "")) (Some (mkRoleKeys ["t"%string] 1 "")) (Some (mkRoleKeys ["s"%string] 1 ""))
       (Some (mkRoleKeys ["m"%string] 1 ""))) "".

Definition first_generation : Repository := mkRepository ∅ 1 1 1.

Definition signed_files : Files :=
  {[ "metadata/root.json" := document_of first_anchor; "metadata/timestamp.json" := document_of first_generation;
     "metadata/1.snapshot.json" := "snapshot"; "metadata/1.targets.json" := "targets" ]}.

Definition signed_directory : shared string := mkShared ((λ b, (0, b)) <$> signed_files) 1 0.

Lemma signed_directory_contents : contents signed_directory = signed_files.
Proof. unfold contents, signed_directory. simpl. rewrite <-map_fmap_compose. apply map_fmap_id. Qed.

Lemma signed_files_in path b : signed_files !! path = Some b →
  path ∈ ["metadata/root.json"; "metadata/timestamp.json"; "metadata/1.snapshot.json"; "metadata/1.targets.json"]%string.
Proof.
  unfold signed_files. intros H. rewrite !elem_of_cons.
  repeat (apply lookup_insert_Some in H as [[<- _]|[_ H]]; [tauto|]). apply lookup_singleton_Some in H as [<- _]. tauto.
Qed.

Lemma signed_reads : reads_at (contents signed_directory) (document_of first_anchor) first_generation.
Proof.
  rewrite signed_directory_contents. split_and!.
  - vm_compute. reflexivity.
  - exists first_anchor. split; [apply parsed_document|]. intros n Hn. unfold metadata_of.
    destruct (signed_files !! in_metadata (root_name n)) as [b|] eqn:Hb; [|done]. apply signed_files_in in Hb.
    rewrite !elem_of_cons, elem_of_nil in Hb. exfalso.
    destruct Hb as [Hb|[Hb|[Hb|[Hb|[]]]]]; apply (inj (String.append "metadata/")) in Hb; revert Hb.
    + apply pretty_not_root.
    + apply pretty_not_timestamp.
    + apply (root_not_snapshot n 1).
    + apply (root_not_targets n 1).
  - vm_compute. reflexivity.
Qed.

Lemma signed_faithful : faithful (contents signed_directory).
Proof.
  rewrite signed_directory_contents. intros path digest b Hd Hb. apply signed_files_in in Hb.
  rewrite !elem_of_cons, elem_of_nil in Hb. destruct Hb as [->|[->|[->|[->|[]]]]]; discriminate Hd.
Qed.

Definition signing_ring : Keyring := λ name, Some <$> signing_keys !! name.
Definition signing_slots : Keys := mkKeys ["root.pk8"%string] "targets.pk8" "snapshot.pk8" "timestamp.pk8".
Definition node_target : PublishTarget := mkPublishTarget "assignments/agents/node.json" "assignment" ∅.

Abbreviation releasing := (publish_release signing_ring signing_slots [node_target] 365 true (starts signed_directory [])).

Lemma signing_is_atomic_witness :
  releasing.1 = inr tt ∧ advanced first_generation [node_target] true (document_of first_anchor) (contents (cl_shared releasing.2)).
Proof.
  assert (releasing.1 = inr tt) as Hr by (vm_compute; reflexivity). split; [exact Hr|].
  destruct (signing_is_atomic signing_ring signing_slots [node_target] 365 true (document_of first_anchor) first_generation
    signed_directory [] releasing.1 releasing.2) as (_ & _ & Hok).
  - constructor.
  - exact signed_reads.
  - exact signed_faithful.
  - apply surjective_pairing.
  - exact (Hok Hr).
Defined.

Abbreviation planning := (current_publication_plan (starts (cl_shared releasing.2) [])).

Abbreviation rotating := (rotate_root signing_ring ["root.pk8"%string] "root.next.pk8" 365 (starts signed_directory [])).

Lemma rotation_keeps_continuity_witness :
  rotating.1 = inr tt ∧ ∃ old next role, root_from_slice (document_of first_anchor) = Some old ∧ succeeds old next role.
Proof.
  assert (rotating.1 = inr tt) as Hr by (vm_compute; reflexivity). split; [exact Hr|].
  destruct (rotation_keeps_continuity signing_ring ["root.pk8"%string] "root.next.pk8" 365 signed_directory [] rotating.1 rotating.2)
    as [[_ [e He]]|(ob & b & old & next & role & Hf & Ho & _ & _ & _ & _ & Hs & _)].
  - constructor.
  - apply surjective_pairing.
  - rewrite Hr in He. discriminate He.
  - destruct signed_reads as [Hroot _]. rewrite Hroot in Hf. injection Hf as <-. exists old, next, role. split; assumption.
Defined.

(** ** Private inputs *)

Definition fed_snapshot : FileSnapshot := mkFileSnapshot {[ "endpoint" := mkFileValue "10.0.0.1" ]}.
Definition fed_key : string := hex64 "a".

Definition fed_publication : InputPublication :=
  mkInputPublication InputPublication_SCHEMA (hmac_sha256 fed_key "snapshot")
    (hmac_sha256 fed_key (String.append BLINDING_DOMAIN "snapshot")) fed_snapshot.

#[local] Instance InputPublication_dec : EqDecision InputPublication.
Proof. solve_decision. Defined.

#[local] Instance fed_dataflow : DataflowJson := {|
  json_snapshot := table_serde [(fed_snapshot, "snapshot"%string)] eq_refl;
  json_input_publication := table_serde [(fed_publication, "publication"%string)] eq_refl;
  json_output_publication := no_serde _;
  json_download := no_serde _;
  json_upload := no_serde _;
|}.

Definition fed_selection : InputSelection := default InputSelection_default (ok_of (selection fed_publication)).

Definition fed_assignment : RepositoryAssignment :=
  mkRepositoryAssignment RepositoryAssignment_SCHEMA "web" "https://releases/meta/" "https://releases/targets/" base_graph "{}"
    (mkManagedRuntime "app" "stable" "/opt/app" fed_selection (mkManagedRepositoryLimits 1000 1000 30) (mkManagedStorage 1 1000 1)
       (mkManagedTimeouts 10 60 3 10 10 600)).

#[local] Instance fed_assignments : AssignmentJson.
Proof.
  refine {| assignment_to_vec := table_to_vec [(fed_assignment, "fed"%string)];
            assignment_from_slice := table_from_slice [(fed_assignment, "fed"%string)] |}.
  intros a b _ _. apply table_roundtrip. vm_compute. reflexivity.
Defined.

Definition fed_plan : PublicationPlan :=
  mkPublicationPlan [mkPublicationTarget (config_object_key "assignments" (hex64 "d")) "fed" (hex64 "d")]
    ∅ {[ "node" := hex64 "d" ]} (hex64 "d").

Abbreviation feeding :=
  (publish_inputs "fleet" fed_plan "assignments" {[ is_generation fed_selection := fed_snapshot ]} fed_key (starts (mkShared ∅ 0 0) [])).

Lemma private_inputs_precede_the_generation_witness :
  feeding.1 = inr tt
  ∧ ∃ a, carries fed_plan "assignments" (hex64 "d") a ∧ input_held "fleet" (hex64 "d", a) (cl_shared feeding.2).
Proof.
  assert (feeding.1 = inr tt) as Hr by (vm_compute; reflexivity). split; [exact Hr|].
  destruct (private_inputs_precede_the_generation "fleet" fed_plan "assignments" {[ is_generation fed_selection := fed_snapshot ]}
    fed_key (mkShared ∅ 0 0) [] feeding.1 feeding.2) as (_ & _ & Hheld).
  - constructor.
  - apply surjective_pairing.
  - apply (Hheld Hr "node"%string). reflexivity.
Defined.

(** An input the fleet still uses and one that nobody does. *)
Definition two_inputs : shared Stored :=
  mkShared {[ input_key "fleet" (hex64 "d") := (0, mkStored 0 "used"); input_key "fleet" (hex64 "e") := (1, mkStored 0 "unused") ]} 2 0.

Abbreviation sweeping := (sweep_inputs_before "fleet" [hex64 "d"] 10 (starts two_inputs [])).

