(* ===== verification/ProxyWitnesses.v ===== *)
(** * ProxyWitnesses: reports on their way to a load balancer

    A shard codec that keeps the documented lengths, an inventory codec, an HAProxy that obeys its
    Runtime API, and one small fleet whose reports are buffered, projected, fetched and programmed:
    the theorems of the reporting path applied there. *)
From Stdlib Require Import Ascii.
From stdpp Require Import pretty.
From S2P Require Import Prelude Identity Maps Releases Dataflow Telemetry Window Rollout Assign Assignment Groups.
From S2P Require Import Publication Inputs Inventory Shared Lease Publish Enroll InputData FleetReports IpAddr Backend.
From S2P Require Import HealthProxy LoadBalancers Projection Fixtures FleetFixtures ControlWitnesses RuntimeWitnesses.

#[local] Open Scope N_scope.

(** ** Parameters *)

#[local] Instance proxy_paths : ObjectPaths := {| path_from := id |}.

#[local] Instance proxy_curve : Curve := {| parse_point := λ _, Some "pinned"%string |}.

#[local] Instance proxy_json : JsonValues := {|
  JsonValue := string;
  json_is_object := λ _, true;
  json_is_exact := λ _, true;
  json_to_vec := Some;
  json_from_str := Some;
|}.

(** *** Shards: fields behind padding to the documented length *)

Definition stored_fields (s : StoredReport) : list string := [n_bits (sr_stored_at_ms s); sr_envelope s : string].

Definition header_fields (schema : N) (generation : string) (shard : nat) : list string :=
  [n_bits schema; generation; n_bits (N.of_nat shard)].

Definition header_len (schema : N) (generation : string) (shard : nat) : N :=
  if (schema =? SHARD_SCHEMA) && (str_len generation =? 32) && (shard <? 64)%nat then 82 + str_len (pretty shard)
  else fields_len (header_fields schema generation shard).

Definition entry_fields (x : string * StoredReport) : list string := x.1 :: stored_fields x.2.

Definition document_fields (d : ShardDocument StoredReport) : list string :=
  header_fields (sd_schema _ d) (sd_generation _ d) (sd_shard _ d) ++ (map_to_list (sd_reports _ d) ≫= entry_fields).

Definition padding (d : ShardDocument StoredReport) : N :=
  (header_len (sd_schema _ d) (sd_generation _ d) (sd_shard _ d)
   - fields_len (header_fields (sd_schema _ d) (sd_generation _ d) (sd_shard _ d)))
  + (N.of_nat (size (sd_reports _ d)) + (N.of_nat (size (sd_reports _ d)) - 1)).

Fixpoint unpad (s : string) : string :=
  match s with
  | String c rest => if bool_decide (c = " "%char) then unpad rest else s
  | EmptyString => EmptyString
  end.

Definition padded_to_vec (d : ShardDocument StoredReport) : string :=
  String.append (str_repeat (N.to_nat (padding d)) " ") (enc_fields (document_fields d)).

Fixpoint entries_of (fields : list string) : option (list (string * string)) :=
  match fields with
  | [] => Some []
  | node :: at_ :: envelope :: fields => entries ← entries_of fields; Some ((node, enc_fields [at_; envelope]) :: entries)
  | _ => None
  end.

Definition padded_from_slice (s : string) : option (ShardDocument string) :=
  fields ← dec_fields EmptyString (unpad s);
  match fields with
  | schema :: generation :: shard :: fields =>
      entries ← entries_of fields;
      Some (mkShardDocument _ (bits_n schema) generation (N.to_nat (bits_n shard)) (list_to_map entries))
  | _ => None
  end.

Definition stored_of_value (value : string) : option StoredReport :=
  fields ← dec_fields EmptyString value;
  match fields with
  | [at_; envelope] => Some (mkStoredReport (bits_n at_) envelope)
  | _ => None
  end.

Lemma str_len_repeat n c : str_len (str_repeat n c) = N.of_nat n.
Proof. induction n as [|n IH]; [done|]. cbn [str_repeat str_len]. rewrite IH. lia. Qed.

Lemma unpad_padding n s : unpad (String.append (str_repeat n " ") s) = unpad s.
Proof. induction n as [|n IH]; [done|]. simpl. exact IH. Qed.

Lemma unpad_enc_fields l : unpad (enc_fields l) = enc_fields l.
Proof. destruct l as [|[|c s] l]; done. Qed.

Lemma entries_of_fields (l : list (string * StoredReport)) :
  entries_of (l ≫= entry_fields) = Some ((λ x, (x.1, enc_fields (stored_fields x.2))) <$> l).
Proof.
  induction l as [|[node s] l IH]; [done|]. rewrite bind_cons. cbn [entry_fields stored_fields app entries_of fst snd].
  rewrite IH. done.
Qed.

Lemma stored_value s : stored_of_value (enc_fields (stored_fields s)) = Some s.
Proof. unfold stored_of_value. rewrite dec_enc_fields. simpl. rewrite bits_n_bits. by destruct s. Qed.

Lemma fields_len_app l k : fields_len (l ++ k) = fields_len l + fields_len k.
Proof. induction l as [|x l IH]; [done|]. cbn [app fields_len]. rewrite IH. lia. Qed.

Lemma padded_len d : str_len (padded_to_vec d)
  = header_len (sd_schema _ d) (sd_generation _ d) (sd_shard _ d)
    + map_fold (λ node stored n, str_len (enc_field node) + 1 + str_len (enc_fields (stored_fields stored)) + n) 0 (sd_reports _ d)
    + (N.of_nat (size (sd_reports _ d)) - 1).
Proof.
  unfold padded_to_vec. rewrite str_len_app, str_len_repeat, enc_fields_len. unfold document_fields, padding. rewrite fields_len_app.
  assert (fields_len (header_fields (sd_schema _ d) (sd_generation _ d) (sd_shard _ d))
    ≤ header_len (sd_schema _ d) (sd_generation _ d) (sd_shard _ d)) as Hle.
  { unfold header_len. destruct (_ && _) eqn:Hc; [|done]. rewrite !andb_true_iff in Hc. destruct Hc as [[Hs%N.eqb_eq Hg%N.eqb_eq] Hn%Nat.ltb_lt].
    rewrite Hs. cbn [header_fields fields_len]. pose proof (n_bits_len (N.of_nat (sd_shard _ d)) 6 ltac:(lia) ltac:(lia)).
    change (str_len (n_bits SHARD_SCHEMA)) with 0%N. lia. }
  assert (map_fold (λ node stored n, str_len (enc_field node) + 1 + str_len (enc_fields (stored_fields stored)) + n) 0 (sd_reports _ d)
    = fields_len (map_to_list (sd_reports _ d) ≫= entry_fields) + N.of_nat (size (sd_reports _ d))) as ->; [|lia].
  rewrite map_fold_foldr. rewrite <- length_map_to_list. clear. induction (map_to_list (sd_reports _ d)) as [|[node s] l IH]; [done|].
  rewrite bind_cons, fields_len_app. cbn [foldr length uncurry]. rewrite IH, enc_field_len, enc_fields_len.
  cbn [entry_fields fst snd fields_len]. lia.
Qed.

#[local] Instance FleetIndex_serde : Serde FleetIndex.
Proof.
  refine (fields_serde
    (λ i, [n_bits (fi_schema i); fi_generation i; n_bits (N.of_nat (fi_max_shards i));
           match fi_rebalance_to i with Some n => String "s" (n_bits (N.of_nat n)) | None => EmptyString end])
    (λ l, match l with
          | [schema; generation; shards; target] =>
              Some (mkFleetIndex (bits_n schema) generation (N.to_nat (bits_n shards))
                      match target with String _ n => Some (N.to_nat (bits_n n)) | EmptyString => None end)
          | _ => None
          end) _).
  intros [schema generation shards [target|]]; cbn; by rewrite !bits_n_bits, ?Nat2N.id.
Defined.

#[local] Instance envelope_serde : Serde Envelope.
Proof. refine {| to_vec := λ e : string, Some e; from_slice := λ s : string, Some s |}. by intros t b [= <-]. Defined.

#[local] Instance padded_json : FleetJson.
Proof.
  refine {|
    key_to_vec := enc_field;
    stored_to_vec := λ s, enc_fields (stored_fields s);
    stored_from_value := stored_of_value;
    shard_to_vec := padded_to_vec;
    shard_from_slice := padded_from_slice;
  |}.
  - intros schema generation shard reports. exists ((λ s, enc_fields (stored_fields s)) <$> reports). split.
    + unfold padded_from_slice, padded_to_vec. rewrite unpad_padding, unpad_enc_fields, dec_enc_fields.
      cbn [document_fields sd_schema sd_generation sd_shard sd_reports header_fields app mbind option_bind].
      rewrite entries_of_fields. cbn [mbind option_bind]. rewrite !bits_n_bits, Nat2N.id. do 2 f_equal.
      apply map_eq. intros node. rewrite <- (list_to_map_to_list reports) at 2. rewrite <- list_to_map_fmap. done.
    + apply map_eq. intros node. rewrite lookup_omap, lookup_fmap. destruct (reports !! node) as [s|]; [|done]. simpl. apply stored_value.
  - intros generation shard Hlen _ Hn. rewrite padded_len. cbn [sd_schema sd_generation sd_shard sd_reports].
    rewrite map_fold_empty, map_size_empty. unfold header_len. rewrite Hlen, (proj2 (Nat.ltb_lt _ _) Hn).
    change ((SHARD_SCHEMA =? SHARD_SCHEMA) && (32 =? 32) && true) with true. cbv iota. lia.
  - intros schema generation shard reports. rewrite !padded_len. cbn [sd_schema sd_generation sd_shard sd_reports].
    rewrite map_fold_empty, map_size_empty. lia.
Defined.

(** ** A fleet of two *)

Definition envelope_of (node verdict : string) : string := enc_fields [node; hex64 "a"; verdict].

Definition report_of (node : string) (stored : N) : AcceptedReport := mkAcceptedReport node (envelope_of node "healthy") stored.

Definition two_shards : FleetShardLimit := mkFleetShardLimit 2.

Definition sixteen : string := str_repeat 16 "r".

Example reports_are_accepted :
  accept_stored_report (envelope_of "n1" "healthy") "n1" 5 = Some (report_of "n1" 5)
  ∧ accept_stored_report (envelope_of "n1" "healthy") "n2" 5 = None.
Proof. by vm_compute. Qed.

(** ** The inventory *)

Definition member_fields (m : BackendInventoryMember) : string * string * string + string :=
  match m with Active node address key => inl (node, address, key) | Cordoned node => inr node end.

Definition fields_member (x : string * string * string + string) : BackendInventoryMember :=
  match x with inl (node, address, key) => Active node address key | inr node => Cordoned node end.

#[local] Instance member_countable : Countable BackendInventoryMember.
Proof. apply (inj_countable' member_fields fields_member). by intros []. Defined.

#[local] Instance shard_eq : EqDecision BackendInventoryShard.
Proof. solve_decision. Defined.

#[local] Instance shard_countable : Countable BackendInventoryShard.
Proof.
  apply (inj_countable' (λ s, (bi_version s, bi_revision s, bi_index s, bi_shards s, bi_members s))
    (λ '(a, b, c, d, e), mkBackendInventoryShard a b c d e)). by intros [].
Defined.

#[local] Instance shard_serde : Serde BackendInventoryShard.
Proof.
  refine {| to_vec := λ s, Some (bits (encode s)); from_slice := λ b, decode (unbits b) |}.
  intros s b [= <-]. by rewrite unbits_bits, decode_encode.
Defined.

#[local] Instance inventory_json : BackendJson.
Proof.
  refine {| members_to_vec := λ l, bits (encode l) |}.
  intros a b Hab. apply (inj encode). by rewrite <- (unbits_bits (encode a)), Hab, unbits_bits.
Defined.

Definition fleet_members : list BackendInventoryMember := [Active "n1" "10.0.0.1" "pinned"%string; Cordoned "n2"].

Definition fleet_shards : list BackendInventoryShard := default [] (ok_of (shard_backend_inventory fleet_members)).

(** ** The projection *)

Lemma object_key_plain relative : relative ≠ EmptyString → object_key "" relative = relative.
Proof.
  intros Hne. unfold object_key. change (trim_matches "/" "") with EmptyString. rewrite filter_cons_False by (intros Hn; by apply Hn).
  rewrite filter_cons_True by done. done.
Qed.

Lemma plain_projection_keys : projection_keys "".
Proof.
  assert (∀ l, shard_key "" l = location_object_key l) as Hk by (intros l; by apply object_key_plain).
  split; [|split].
  - intros l l' _ _. by rewrite !Hk.
  - intros l _. rewrite Hk. unfold index_key. rewrite object_key_plain by done. by intros [=].
  - by vm_compute.
Qed.

Definition accepted_fleet : BTreeMap AcceptedReport := {[ "n1"%string := report_of "n1" 5; "n2"%string := report_of "n2" 3 ]}.

Definition bare_store : shared Stored := mkShared ∅ 1 0.

Lemma bare_store_whole : whole "" bare_store.
Proof. intros index l Hv. discriminate Hv. Qed.

Lemma quiet_projection (turns : list (turn Stored)) : Forall (λ t, ∀ s, tu_others t s = s) turns → honest (projection_rely "") turns.
Proof. intros Ht. eapply Forall_impl; [exact Ht|]. intros t Hs s. unfold elapse. rewrite Hs. split; reflexivity. Qed.

(** A publication whose last request is lost, a sweep, one whose last answer is lost, and another sweep. *)
Definition projection_ops : list projection_op :=
  [OpPublish sixteen accepted_fleet two_shards; OpSweep 1000; OpPublish (str_repeat 16 "s") accepted_fleet two_shards; OpSweep 1000].

Definition projection_turns : list (turn Stored) :=
  [quiet 10; quiet 10; mkTurn 10 (λ s, s) Unsent; quiet 10; quiet 10; quiet 10; mkTurn 10 (λ s, s) Unanswered; quiet 10].

Lemma visible_index_names_a_whole_generation_witness :
  let c := (tend "" projection_ops (starts bare_store projection_turns)).2 in
  whole "" (cl_shared c) ∧ length (cl_made c) = 7%nat ∧ is_Some (visible "" (cl_shared c)).
Proof.
  intros c. split; [|split].
  - apply (visible_index_names_a_whole_generation "" plain_projection_keys projection_ops bare_store projection_turns c).
    + repeat constructor.
    + apply quiet_projection. repeat constructor.
    + apply bare_store_whole.
    + unfold c. destruct (tend "" projection_ops (starts bare_store projection_turns)) as [[] c']. reflexivity.
  - vm_compute. reflexivity.
  - vm_compute. eexists. reflexivity.
Defined.

Definition published_run : option (DataflowError + unit) * Shared.cluster Stored :=
  publish_and_sweep "" sixteen accepted_fleet two_shards [1000%Z] (starts bare_store (replicate 5 (quiet 10))).

(** What the store serves under its address. *)
Definition fleet_base : string := "http://store/".

Definition serve_store (s : shared Stored) (url : string) : option string :=
  relative ← strip_prefix "http://store/" url;
  body_at s (object_key "" relative).

#[local] Instance envelopes_shortest : ShortestEnvelopes.
Proof. intros body e [= <-]. exists body. split; [reflexivity|]. apply N.le_refl. Qed.

Lemma accepted_fleet_gated : gated accepted_fleet.
Proof.
  intros key a Ha. unfold accepted_fleet in Ha. apply lookup_insert_Some in Ha as [[<- <-]|[_ [<- <-]%lookup_singleton_Some]].
  - exists (envelope_of "n1" "healthy"). vm_compute. reflexivity.
  - exists (envelope_of "n2" "healthy"). vm_compute. reflexivity.
Qed.


(** ** The report cache *)

Definition body_tag (key : string) (version : N) (o : Stored) : option string := Some (so_body o).

Definition reported_at (t : Z) (verdict : string) : shared Stored :=
  mkShared {[ report_key "" "n1" := (1, mkStored t (envelope_of "n1" verdict));
              "internal/telemetry/nodes/gone.json"%string := (2, mkStored t "left") ]} 3 t.

Lemma body_tag_law key v o v' o' tag : body_tag key v o = Some tag → body_tag key v' o' = Some tag → so_body o = so_body o'.
Proof. unfold body_tag. congruence. Qed.

Lemma one_node a b : a ∈ ["n1"%string] → b ∈ ["n1"%string] → report_key "" a = report_key "" b → a = b.
Proof. intros ->%list_elem_of_singleton ->%list_elem_of_singleton. done. Qed.

Lemma one_node_in_namespace a : a ∈ ["n1"%string] → object_in_namespace (report_root "") (report_key "" a) = true.
Proof. intros ->%list_elem_of_singleton. by vm_compute. Qed.

(** A pass whose read of the node's report is lost; during the next one the report changes between the
    listing and the read. *)
Definition lost_pass : Pass := mkPass ["n1"%string] (λ s, s) [quiet 1000; mkTurn 1000 (λ s, s) Unsent].

Definition overtaken (s : shared Stored) : shared Stored :=
  mkShared (<[report_key "" "n1" := (sh_next s, mkStored (sh_clock s + 1000) (envelope_of "n1" "broken"))]> (sh_objects s))
    (N.succ (sh_next s)) (sh_clock s).

Definition overtaken_pass : Pass := mkPass ["n1"%string] (λ s, s) [quiet 1000; mkTurn 1000 overtaken Delivered].

Lemma passing_time s n : store_rely s (mkShared (sh_objects s) (sh_next s) (sh_clock s + Z.of_N n)).
Proof. split; [cbn; lia|]. by left. Qed.

Lemma overtaken_rely s : store_rely s (elapse (mkTurn 1000 overtaken Delivered) s).
Proof.
  split; [unfold elapse; cbn [sh_clock tu_elapsed]; lia|]. intros key x. unfold elapse, overtaken. cbn [sh_objects tu_others sh_clock tu_elapsed].
  intros [[<- <-]|[_ Hx]]%lookup_insert_Some; [right|by left]. cbn [snd so_modified]. split; [|lia].
  rewrite <- (Z.mul_1_l 1000) at 2. rewrite Z.div_add by lia. lia.
Qed.

Lemma disturbed_passes : Forall (pass_ok ["n1"%string]) [lost_pass; overtaken_pass].
Proof.
  assert (∀ s : shared Stored, store_rely s s) as Hrefl by (intros s; split; [lia|by left]).
  constructor; [|constructor; [|constructor]]; (split; [done|]); (split; [done|]); cbn [ps_turns lost_pass overtaken_pass];
    (constructor; [intros s; apply (passing_time s 1000)|]); (constructor; [|constructor]).
  - intros s. apply (passing_time s 1000).
  - apply overtaken_rely.
Qed.

Lemma reported_dated t verdict : dated (reported_at t verdict).
Proof.
  intros key x Hx. unfold reported_at in Hx. cbn [sh_objects] in Hx.
  apply lookup_insert_Some in Hx as [[<- <-]|[_ [<- <-]%lookup_singleton_Some]]; cbn; lia.
Qed.

Definition disturbed := refresh_all "" body_tag [lost_pass; overtaken_pass] (mkReportCache ∅ false) (reported_at 5000 "healthy").


(** ** A cycle with no evidence after one with some *)

Definition steady (t : N) (files : nat → option string) (fetch : string → option string) : Cycle :=
  mkCycle files fetch (λ _, t) (λ _, noon_ms) (λ _, t) (λ _, noon_ms) noon_ms
    (mkSliceEnv (λ _, NotStarted) t Applied Applied).

Definition fleet_files (index : nat) : option string := fleet_shards !! index ≫= to_vec.

Definition seen_cycle : Cycle := steady 10 fleet_files (serve_store (cl_shared published_run.2)).
Definition blind_cycle : Cycle := steady 20 (λ _, None) (λ _, None).

Definition no_slices : @lb_state endpointslice_balancer := mkEndpointSliceLb NameResolver_new (mkSlices None None).

Definition claimed : Envelope → option string := λ e : string, Some e.

Lemma membership_follows_the_evidence_witness :
  (run_cycle claimed fleet_base
     (run_cycles claimed fleet_base (proxy_start fleet_members no_slices) [seen_cycle])
     blind_cycle).1
  = [mkMember "n1" "10.0.0.1" true; mkMember "n2" EmptyString false].
Proof.
  rewrite (membership_follows_the_evidence claimed fleet_base fleet_files fleet_members no_slices
    [seen_cycle] blind_cycle).
  - vm_compute. reflexivity.
  - vm_compute. reflexivity.
  - split; [intros node; simpl; lia|]. split; [intros node; simpl; lia|]. split; [intros node; simpl; lia|]. split; exact I.
Defined.

(** ** An HAProxy that holds its servers in a table

    A line is its commands, a command sets the state of the declared server it spells out, and a
    name HAProxy can declare has no slash. *)

Definition without (c : ascii) (s : string) : bool := string_forallb (λ d, negb (bool_decide (d = c))) s.

Lemma split_inj c a b x y : without c a = true → without c b = true →
  String.append a (String c x) = String.append b (String c y) → a = b ∧ x = y.
Proof.
  unfold without. revert b. induction a as [|d a IH]; intros [|e b] Ha Hb; cbn [string_forallb String.append] in *.
  - by intros [= ->].
  - intros [= <- _]. by rewrite bool_decide_eq_true_2 in Hb.
  - intros [= -> _]. by rewrite bool_decide_eq_true_2 in Ha.
  - apply andb_true_iff in Ha as [_ Ha], Hb as [_ Hb]. intros [= -> He]. by destruct (IH b Ha Hb He) as [-> ->].
Qed.

Lemma without_app c a b : without c (String.append a b) = without c a && without c b.
Proof. apply string_forallb_app. Qed.

(** Only one slash: what precedes and what follows it is determined. *)
Lemma slash_inj a b x y : without "/" a = true → without "/" x = true →
  String.append a (String "/" x) = String.append b (String "/" y) → a = b ∧ x = y.
Proof.
  intros Ha Hx He. assert (without "/" b = true) as Hb; [|by apply split_inj in He].
  revert b Ha He. induction a as [|d a IH]; intros [|e b] Ha He; try done; unfold without in Ha |- *; cbn [string_forallb String.append] in *.
  - injection He as <- He. rewrite He, without_app in Hx. apply andb_true_iff in Hx as [_ Hx]. discriminate Hx.
  - injection He as -> He. apply andb_true_iff in Ha as [Hd Ha]. rewrite Hd. simpl. by apply IH.
Qed.

Lemma safe_without_space name : is_balancer_safe name = true → without " " name = true.
Proof.
  unfold is_balancer_safe. intros Hs. apply andb_true_iff in Hs as [_ Hs]. apply negb_true_iff in Hs.
  induction name as [|c name IH]; [done|]. cbn [contains_whitespace] in Hs. apply orb_false_iff in Hs as [Hs Hrest].
  apply orb_false_iff in Hs as [Hc _]. unfold without. cbn [string_forallb]. apply andb_true_iff. split; [|by apply IH].
  apply negb_true_iff, bool_decide_eq_false. intros ->. discriminate Hc.
Qed.

Definition server_path (backend server : string) : string := String.append backend (String "/" server).

Lemma state_command_path backend m :
  state_command backend m
  = String.append "set server " (String.append (server_path backend (mb_node m)) (String.append " state " (desired_state (mb_ready m)))).
Proof. unfold state_command, server_path. by rewrite <- (append_assoc backend). Qed.

Lemma state_command_inj b m b' m' :
  is_balancer_safe b = true → is_balancer_safe (mb_node m) = true → is_balancer_safe b' = true → is_balancer_safe (mb_node m') = true →
  state_command b m = state_command b' m' → server_path b (mb_node m) = server_path b' (mb_node m') ∧ mb_ready m = mb_ready m'.
Proof.
  intros Hb Hm Hb' Hm'. rewrite !state_command_path. intros He. apply append_inj_len in He as [_ He]; [|done].
  change (String.append " state " ?x) with (String " " (String.append "state " x)) in He.
  assert (∀ b n, is_balancer_safe b = true → is_balancer_safe n = true → without " " (server_path b n) = true) as Hspace.
  { intros b0 n H0%safe_without_space Hn%safe_without_space. unfold server_path. rewrite without_app, H0. exact Hn. }
  apply split_inj in He as [-> He]; [|by apply Hspace..]. split; [done|]. apply append_inj_len in He as [_ He]; [|done].
  by destruct (mb_ready m), (mb_ready m').
Qed.

Abbreviation Servers := (gmap (string * string) string).

Definition declarable (x : string * string) : bool :=
  is_balancer_safe x.1 && is_balancer_safe x.2 && without "/" x.1 && without "/" x.2.

Definition state_at (i : Servers) (backend server : string) : option string :=
  if declarable (backend, server) then i !! (backend, server) else None.

Definition commands_of (i : Servers) : list (string * string * bool) :=
  (map_to_list i).*1 ≫= λ x, if declarable x then [(x, true); (x, false)] else [].

Definition command_text (x : string * string * bool) : string := state_command x.1.1 (mkMember x.1.2 EmptyString x.2).

Definition run_command (command : string) (i : Servers) : string * Servers :=
  match list_find (λ x, command_text x = command) (commands_of i) with
  | Some (_, (server, ready)) => (EmptyString, <[server := desired_state ready]> i)
  | None => ("No such server."%string, i)
  end.

Fixpoint ltrim (s : string) : string :=
  match s with
  | String c rest => if bool_decide (c = " "%char) then ltrim rest else s
  | EmptyString => EmptyString
  end.

Fixpoint run_all (commands : list string) (i : Servers) : string * Servers :=
  match commands with
  | [] => (EmptyString, i)
  | command :: commands =>
      let '(answer, i) := run_command (ltrim command) i in
      let '(answers, i) := run_all commands i in (String.append answer answers, i)
  end.

(** The commands of a line. *)
Fixpoint split_line (cur s : string) : list string :=
  match s with
  | EmptyString => [cur]
  | String c s => if bool_decide (c = ";"%char) then cur :: split_line EmptyString s else split_line (String.append cur (String c EmptyString)) s
  end.

Definition run_servers (line : string) (i : Servers) : string * Servers := run_all (split_line EmptyString line) i.

Lemma split_line_plain s cur : no_semicolon s = true → split_line cur s = [String.append cur s].
Proof.
  revert cur. induction s as [|c s IH]; intros cur Hs; cbn [split_line]; [by rewrite append_empty_r|].
  unfold no_semicolon in Hs. cbn [string_forallb] in Hs. apply andb_true_iff in Hs as [Hc Hs]. apply negb_true_iff in Hc. rewrite Hc.
  rewrite IH by done. by rewrite <- append_assoc.
Qed.

Lemma split_line_app first rest cur : no_semicolon first = true →
  split_line cur (String.append first (String ";" rest)) = String.append cur first :: split_line EmptyString rest.
Proof.
  revert cur. induction first as [|c first IH]; intros cur Hs; cbn [String.append split_line]; [by rewrite append_empty_r|].
  unfold no_semicolon in Hs. cbn [string_forallb] in Hs. apply andb_true_iff in Hs as [Hc Hs]. apply negb_true_iff in Hc. rewrite Hc.
  rewrite IH by done. by rewrite <- append_assoc.
Qed.

Lemma split_line_space s : ∀ cur, ∃ h t, split_line cur s = h :: t ∧ split_line (String " " cur) s = String " " h :: t.
Proof.
  induction s as [|c s IH]; intros cur; cbn [split_line]; [by exists cur, []|].
  destruct (bool_decide (c = ";"%char)); [by exists cur, (split_line EmptyString s)|]. apply (IH (String.append cur (String c EmptyString))).
Qed.

Lemma run_all_space cur s i : run_all (split_line (String " " cur) s) i = run_all (split_line cur s) i.
Proof. destruct (split_line_space s cur) as (h & t & -> & ->). done. Qed.

Lemma run_servers_command backend m i : is_balancer_safe backend = true → is_balancer_safe (mb_node m) = true →
  run_servers (state_command backend m) i = run_command (state_command backend m) i.
Proof.
  intros Hb Hm. unfold run_servers. rewrite split_line_plain by by apply state_command_no_semicolon. cbn [run_all String.append].
  change (ltrim (state_command backend m)) with (state_command backend m). destruct (run_command _ i) as [a i']. by rewrite append_empty_r.
Qed.

Lemma elem_of_commands i b s ready : (b, s, ready) ∈ commands_of i ↔ declarable (b, s) = true ∧ is_Some (i !! (b, s)).
Proof.
  unfold commands_of. rewrite list_elem_of_bind. split.
  - intros (x & Hin & ([k v] & -> & Hk)%list_elem_of_fmap). apply elem_of_map_to_list in Hk. cbn [fst] in Hin.
    destruct (declarable k) eqn:Hd; [|by apply not_elem_of_nil in Hin].
    assert (k = (b, s)) as -> by (apply elem_of_cons in Hin as [[= -> _]|[[= -> _]|Hin%not_elem_of_nil]%elem_of_cons]; done). by split; [|eexists].
  - intros [Hd [v Hv]]. exists (b, s). rewrite Hd. split; [destruct ready; set_solver|].
    apply (list_elem_of_fmap_2 fst _ ((b, s), v)). by apply elem_of_map_to_list.
Qed.

(** What the table makes of one command. *)
Lemma run_command_spec backend m i : is_balancer_safe backend = true → is_balancer_safe (mb_node m) = true →
  run_command (state_command backend m) i
  = match state_at i backend (mb_node m) with
    | Some _ => (EmptyString, <[(backend, mb_node m) := desired_state (mb_ready m)]> i)
    | None => ("No such server."%string, i)
    end.
Proof.
  intros Hb Hm. unfold run_command. destruct (list_find _ _) as [[k [[b s] ready]]|] eqn:Hf.
  - apply list_find_Some in Hf as (Hin%list_elem_of_lookup_2 & Hc & _). apply elem_of_commands in Hin as [Hd Hs].
    unfold declarable in Hd. cbn [fst snd] in Hd. rewrite !andb_true_iff in Hd. destruct Hd as [[[Hsb Hss] Hwb] Hws].
    apply state_command_inj in Hc as [Hp Hr]; [|done..]. cbn [mb_node mb_ready fst snd] in Hp, Hr.
    apply slash_inj in Hp as [-> ->]; [|done..]. unfold state_at, declarable. cbn [fst snd]. rewrite Hsb, Hss, Hwb, Hws. cbn [andb].
    destruct Hs as [v ->]. by rewrite Hr.
  - destruct (state_at i backend (mb_node m)) as [v|] eqn:Hs; [|done]. unfold state_at in Hs.
    destruct (declarable (backend, mb_node m)) eqn:Hd; [|done]. apply list_find_None in Hf. rewrite Forall_forall in Hf.
    exfalso. apply (Hf (backend, mb_node m, mb_ready m)); [|done]. apply elem_of_commands. split; [done|]. by eexists.
Qed.

#[local] Instance table_api : RuntimeApi.
Proof.
  refine {| instance := Servers; server_state := state_at; run_line := run_servers |}.
  - intros first rest i Hs. unfold run_servers.
    change (String.append SEPARATOR rest) with (String ";" (String " " rest)). rewrite split_line_app by exact Hs.
    cbn [run_all String.append]. rewrite (split_line_plain first) by exact Hs. cbn [run_all String.append].
    change (split_line EmptyString (String " " rest)) with (split_line (String " " EmptyString) rest).
    destruct (run_command (ltrim first) i) as [a i']. rewrite run_all_space. destruct (run_all (split_line EmptyString rest) i') as [b i''].
    by rewrite append_empty_r.
  - intros backend m i old Hb Hm Hs. rewrite run_servers_command, run_command_spec, Hs by done. split; [done|].
    intros b s. cbn [snd]. unfold state_at in *. destruct (declarable (backend, mb_node m)) eqn:Hd; [|done].
    case_decide as Hbs; [destruct Hbs as [-> ->]; by rewrite Hd, lookup_insert_eq|]. destruct (declarable (b, s)); [|done].
    rewrite lookup_insert_ne; [done|]. intros [= <- <-]. by apply Hbs.
  - intros backend m i Hb Hm Hs. rewrite run_servers_command, run_command_spec, Hs by done. by split.
Defined.

Definition edge : Servers := {[ ("app"%string, "n1"%string) := "drain"%string; ("app"%string, "n2"%string) := "ready"%string;
                                ("api"%string, "n1"%string) := "ready"%string ]}.

Definition wanted_members : list Member := [mkMember "n1" "10.0.0.1" true; mkMember "n2" EmptyString false].

Definition edges : HAProxyLb := mkHAProxyLb (H := table_api) ∅ [edge; edge].

(** The second instance ran its line, but its answer was lost. *)
Definition edge_run : bool * HAProxyLb := haproxy_reconcile "app" [[Answered]; [AnswerLost]] wanted_members edges.

Lemma cluster_is_programmed_exactly_witness :
  edge_run.1 = false ∧ Forall2 (λ i i', programmed "app" wanted_members i i' edge_run.1) (ha_instances edges) (ha_instances edge_run.2).
Proof.
  split; [vm_compute; reflexivity|].
  pose proof (cluster_is_programmed_exactly "app" eq_refl [[Answered]; [AnswerLost]] wanted_members edges) as Hc.
  cbv zeta in Hc. change (desired_members (ha_managed edges) wanted_members).1 with wanted_members in Hc. revert Hc. unfold edge_run.
  destruct (haproxy_reconcile "app" [[Answered]; [AnswerLost]] wanted_members edges) as [ok lb']. intros Hc. apply Hc.
  - intros m Hm. apply elem_of_cons in Hm as [->|Hm]; [reflexivity|]. apply list_elem_of_singleton in Hm as ->. reflexivity.
  - apply (bool_decide_unpack _). vm_compute. exact I.
Defined.
