(* ===== verification/InstallWitnesses.v ===== *)
(** * InstallWitnesses: a first install and a repair at concrete inputs

    A node with an empty install root meets a repository whose first root package is malformed: it
    rejects that archive, takes the next root, dies half way and completes on the next boot without
    the network.  The theorems of [InstallSafety.v] are applied along that life, and one failed read
    in it leads to a node that never boots again. *)
From S2P Require Import Prelude Identity State Transaction Install World Reject Store.
From S2P Require Import StoreSpec StoreRefine Boot Update AgentLogic Agent Recovery AgentHistory.
From S2P Require Import Maps Releases Dataflow Assignment Selection FirstInstall InstallSafety Fixtures FleetFixtures.

#[local] Instance plain_json : JsonValues := {|
  JsonValue := string;
  json_is_object := λ _, true;
  json_is_exact := λ _, true;
  json_to_vec := Some;
  json_from_str := Some;
|}.

(** ** A repository *)

Definition host : DefaultPolicy := policy_current "linux" "x86_64" "app" "stable".

Definition app_path (version : string) : string := application_name "app" "stable" version "linux" "x86_64" "app".

(** Its digest is thirty-two times the byte [c]. *)
Definition app_target (version : string) (c : ascii) : string * TargetEntry :=
  (app_path version, mkTargetEntry (str_repeat 32 c) 10 (application_custom "app" "stable" version "linux" "x86_64")).

Definition listing : list (string * TargetEntry) :=
  [app_target "1.0.0" "3"; app_target "2.0.0" "D"; app_target "3.0.0" "U"].

(** Two roots below the target. *)
Definition roots : ReleaseGraph :=
  mkReleaseGraph "3.0.0"
    {[ "1.0.0" := mkRelease (mkTargetReference (app_path "1.0.0") (hex64 "3")) ∅ ∅ true;
       "2.0.0" := mkRelease (mkTargetReference (app_path "2.0.0") (hex64 "4")) ∅ ∅ true;
       "3.0.0" := mkRelease (mkTargetReference (app_path "3.0.0") (hex64 "5")) {[ "1.0.0"; "2.0.0" ]} ∅ false ]}.

Definition assignment_document : RepositoryAssignment :=
  mkRepositoryAssignment RepositoryAssignment_SCHEMA "web" "https://releases/meta/" "https://releases/targets/" roots "{}"
    (mkManagedRuntime "app" "stable" "/opt/app" InputSelection_default (mkManagedRepositoryLimits 1000 1000 30)
       (mkManagedStorage 1 1000 1) (mkManagedTimeouts 10 60 3 10 10 600)).

Definition releases : TrustedRepository :=
  mkTrustedRepository (λ path, (list_to_map listing : BTreeMap TargetEntry) !! path) listing 1000
    (Some (mkAssignmentContext assignment_document (hex64 "7") ln_old)).

(** The bundle of 1.0.0 does not expand. *)
Definition online : Acquisition :=
  mkAcquisition (inr releases) (λ _, inr tt) (λ _, inr tt)
    (λ target version, if bool_decide (version = "1.0.0"%string) then inl (IArchive (IoError InvalidData "not a bundle"))
                       else inr (mkReleaseId version (hex64 "2")))
    (λ _, inr rec_new).

Definition offline : Acquisition :=
  mkAcquisition (inl (Transport "unreachable")) (λ _, inl (Transport "unreachable")) (λ _, inl (Transport "unreachable"))
    (λ _ _, inl (IStorage (IoError Other "unreachable"))) (λ _, inl (IStorage (IoError Other "unreachable"))).

(** ** A first install, interrupted and completed *)

Lemma install_fits t : InstallTransaction_validate t = Ok tt → is_Some (encode JOURNAL_RECORD_MAX_BYTES t).
Proof.
  intros Hv. apply encode_fits. unfold InstallTransaction_validate in Hv. result_inv.
  repeat match goal with
  | Hr : ReleaseId_validate _ = Ok _ |- _ => apply release_len in Hr as [? ?]
  | Hr : reconciler_is_valid _ = true |- _ => apply reconciler_len in Hr as (? & ? & ? & ?)
  | Hr : is_canonical_sha256 _ = true |- _ => apply canonical_len in Hr
  | Hr : lineage_validate _ = true |- _ => apply canonical_len in Hr
  | Hr : is_token _ = true |- _ => apply canonical_len in Hr
  end.
  assert (str_len (iphase_str (it_phase t)) = 1)%N by (by destruct (it_phase t)).
  cbn [install_fields fields_len]. unfold JOURNAL_RECORD_MAX_BYTES, MAX_SERIALIZED_BYTES. lia.
Qed.

#[local] Instance fixture_install_total : InstallCodecTotal.
Proof. exact install_fits. Qed.

Definition m_empty : machine := mkMachine None None None None [] false.

Definition unit_at (phase : InstallPhase) : InstallTransaction :=
  mkInstallTransaction (hex64 "e") rel_new (hex64 "4") ln_old rec_new phase.

(** 1.0.0 rejected, 2.0.0 placed, nothing committed. *)
Definition m_half : machine :=
  mkMachine None None (Some (unit_at Placed)) (Some rel_new) [rejection_key ln_old (hex64 "3")] false.

(** The process dies just after the journal says [Placed]. *)
Definition dying : Env := env_of (repeat Healthy 17 ++ [DiesAfter]) [] [].

Definition interrupted : outcome (option bool) * world := ensure_installed host online (World ∅ no_verdicts dying).

Definition reloaded : outcome unit * world := load (World (disk interrupted.2) no_verdicts env_calm).

(** The whole next boot, offline: it completes the unit, checks its bytes and gates it. *)
Definition booted : outcome (option boot_end) * world :=
  node_boot host offline 2 (World (disk reloaded.2) (proc reloaded.2) env_calm).

Lemma empty_root_ok : node_machine_ok m_empty ∧ represents ∅ m_empty ∧ ledger_inv ∅ no_verdicts.
Proof.
  split_and!; [split_and!; [by left|by intros ?..]|rep|].
  split; [split_and!; [constructor|constructor|done]|]. by exists [].
Qed.

(** Its first boot dies while it places 2.0.0; [reloaded] is the same disk in the next process. *)
Definition dying_boot : outcome (option boot_end) * world := node_boot host online 2 (World ∅ no_verdicts dying).

(** The node rejects 1.0.0, dies placing 2.0.0, completes it offline and runs it. *)
Lemma node_is_crash_safe_witness :
  booted.1 = Done (Some (BootRunning None true)) ∧ node_ok (true, (disk booted.2, proc booted.2)).
Proof.
  assert (booted.1 = Done (Some (BootRunning None true))) as Hb by (vm_compute; reflexivity).
  split; [done|].
  apply (node_is_crash_safe 2 (false, (∅, no_verdicts)) (true, (disk booted.2, proc booted.2))).
  - eapply rtc_l.
    { eapply (node_boot_ends 2 host online ∅ no_verdicts dying dying_boot.1 dying_boot.2 no_verdicts env_calm reloaded.2);
        [apply surjective_pairing|vm_compute; reflexivity]. }
    eapply rtc_l; [|apply rtc_refl].
    eapply (node_boots 2 host offline _ _ env_calm None true booted.2). by apply (pair_fst booted).
  - exists m_empty. destruct empty_root_ok as (? & ? & ?). by split_and!.
Defined.

Lemma first_install_keeps_its_unit_witness :
  ∃ m', represents (disk interrupted.2) m' ∧ history m_empty m'
    ∧ match interrupted.1 with
      | Done b => finished host online no_verdicts m_empty b m'
      | _ => advances host online no_verdicts m_empty m'
      end.
Proof.
  destruct empty_root_ok as ((_ & Hok & _) & Hr & Hl).
  apply (first_install_keeps_its_unit host online ∅ no_verdicts dying m_empty interrupted.1 interrupted.2 Hr Hl Hok).
  apply surjective_pairing.
Defined.

Lemma half_placed : represents (disk reloaded.2) m_half ∧ install_ok m_half ∧ ledger_inv (disk reloaded.2) (proc reloaded.2).
Proof.
  split_and!; [rep| |].
  - intros tx [= <-]. split; [done| |vm_compute; reflexivity|done]. by exists Placed.
  - assert (reloaded = (Done tt, reloaded.2)) as Hl by (apply (pair_fst reloaded); vm_compute; reflexivity).
    unfold reloaded at 1 in Hl. apply load_inv in Hl as (Hd & Hi & _). by rewrite Hd.
Qed.

Lemma interrupted_install_completes_witness :
  ∃ d' p' m', ensure_installed host offline (World (disk reloaded.2) (proc reloaded.2) env_calm)
      = (Done (Some true), World d' p' env_calm)
    ∧ represents d' m' ∧ placed (unit_at Placed) m' ∧ (m_installed m_half = None → m_enrolled m' = true).
Proof.
  destruct half_placed as (Hr & Hok & Hl).
  apply (interrupted_install_completes host offline (disk reloaded.2) (proc reloaded.2) env_calm m_half (unit_at Placed) Hr Hl
    env_calm_calm Hok eq_refl).
Defined.

(** ** A repair *)

Definition m_guarded : machine := machine_at head_new None rel_new.

Definition reacquired : outcome (option Repair) * world :=
  repair_committed_bundle host online (World (disk_of m_guarded) no_verdicts env_calm).

Lemma repair_reproduces_the_record_witness :
  ∃ m', represents (disk reacquired.2) m'
    ∧ match reacquired.1 with Done r => repaired host online no_verdicts m_guarded r m' | _ => repair_leaves m_guarded m' end
    ∧ m_installed m' = m_installed m_guarded ∧ m_install m' = m_install m_guarded ∧ m_ledger m' = m_ledger m_guarded
    ∧ m_enrolled m' = m_enrolled m_guarded
    ∧ (∀ tx, m_journal m' = Some tx → m_journal m_guarded = Some tx ∨ tx_candidate_rejection_required tx = false)
    ∧ (agent_coherent m_guarded → steady m_guarded → agent_coherent m').
Proof.
  apply (repair_reproduces_the_record host online (disk_of m_guarded) no_verdicts env_calm m_guarded reacquired.1 reacquired.2);
    [rep| |apply surjective_pairing].
  apply empty_ledger_inv; [done|vm_compute; reflexivity].
Defined.

(** Online the exact bytes are reacquired; offline the predecessor's revert is journaled. *)
Example repair_prefers_the_assignment :
  match reacquired.1 with Done (Some (FromAssignment _)) => True | _ => False end
  ∧ (repair_committed_bundle host offline (World (disk_of m_guarded) no_verdicts env_calm)).1
    = Done (Some RollbackJournaled).
Proof. split; vm_compute; [done|reflexivity]. Qed.

(** ** One failed read *)

(** The read of the enrollment marker fails once, while the unit is being committed. *)
Definition unread : Env := env_of (repeat Healthy 18 ++ [Fails EIO]) [] [].

Definition half_enrolled : outcome (option bool) * world := ensure_installed host online (World ∅ no_verdicts unread).

Definition m_unenrolled : machine :=
  mkMachine (Some (provisional_of (unit_at InstallCommitted))) None None (Some rel_new)
    [rejection_key ln_old (hex64 "3")] false.

(** One failed read of the enrollment marker during a first install makes it report success without
    spending the enrollment; every later boot then refuses the record, whatever its environment. *)
Example one_failed_read_ends_every_boot :
  half_enrolled.1 = Done (Some true) ∧ represents (disk half_enrolled.2) m_unenrolled
  ∧ ∀ policy acq p e b, ledger_inv (disk half_enrolled.2) p →
      (ensure_installed policy acq (World (disk half_enrolled.2) p e)).1 ≠ Done b.
Proof.
  assert (represents (disk half_enrolled.2) m_unenrolled) as Hr by rep.
  split_and!; [vm_compute; reflexivity|done|]. intros policy acq p e b Hl.
  destruct (ensure_installed policy acq (World (disk half_enrolled.2) p e)) as [out w] eqn:Hex.
  destruct (unenrolled_record_never_boots policy acq _ _ _ m_unenrolled out w Hr Hl eq_refl ltac:(by eexists) eq_refl Hex)
    as [Hn _]. apply Hn.
Qed.

(** ** Recovery *)

(** A guarded head whose revert was journaled before the process died. *)
Lemma planned_coherent : agent_coherent m_planned.
Proof.
  split_and!; [done|vm_compute; reflexivity|]. exists head_new. split; [done|].
  split; [right|by right]. split; [vm_compute; reflexivity|]. eexists. by split.
Qed.

Lemma boot_recovery_completes_witness :
  ∃ d' p' m' j,
    node_boot host offline 2 (World (disk_of m_planned) no_verdicts env_calm)
    = (Done (Some (BootRunning (st_rollback_guard j) true)), World d' p' env_calm)
    ∧ represents d' m' ∧ settled_on m' j
    ∧ (same_unit head_new j ∨ ∃ tx, m_journal m_planned = Some tx ∧ runs_previous tx j).
Proof.
  apply (boot_recovery_completes 2 host offline (disk_of m_planned) no_verdicts env_calm m_planned head_new).
  - rep.
  - apply empty_ledger_inv; vm_compute; reflexivity.
  - apply env_calm_calm.
  - left. apply planned_coherent.
  - reflexivity.
  - reflexivity.
  - vm_compute. reflexivity.
  - reflexivity.
  - intros tx [= <-]. discriminate.
  - vm_compute. reflexivity.
Defined.

(** ** A repair in the middle of a rollback *)

(** The rollback has put the pointer back and waits for its gate; the record still names the
    candidate. *)
Definition m_restored : machine := machine_at head_new (Some (tx_at Restored false)) rel_old.

(** The candidate's bytes fail this boot's check, and its repository is reachable. *)
Definition repaired_boot : outcome (option boot_end) * world :=
  node_boot host online 2 (World (disk_of m_restored) no_verdicts (env_of (repeat Healthy 4 ++ [Fails EIO]) [] [])).

Definition m_stuck : machine := machine_at head_new (Some (tx_at RolledBack false)) rel_new.

(** The repair re-activates the candidate under the rollback, which no longer looks at the pointer: the
    boot refuses to commit the predecessor, and from then on every boot of the node fails. *)
Example a_repair_strands_a_rollback :
  agent_coherent m_restored
  ∧ (∃ er, repaired_boot.1 = Failed er) ∧ represents (disk repaired_boot.2) m_stuck
  ∧ ∀ p y, ledger_inv (disk repaired_boot.2) p →
      rtc (node_run 2) (false, (disk repaired_boot.2, p)) y → y.1 = false.
Proof.
  assert (∀ phase, on_candidate (tx_at phase false) head_new) as Hon.
  { intros phase. split; [vm_compute; reflexivity|]. eexists. by split. }
  assert (represents (disk repaired_boot.2) m_stuck) as Hr by rep.
  assert (stranded m_stuck) as Hs.
  { exists (tx_at RolledBack false). split; [done|done|vm_compute; reflexivity|by exists head_new| |done].
    split; [done|]. intros Hx. vm_compute in Hx. discriminate. }
  split; [|split; [eexists; vm_compute; reflexivity|split; [exact Hr|]]].
  - split_and!; [done|vm_compute; reflexivity|]. exists head_new. split; [done|]. split; [by right|done].
  - intros p y Hl Hrun. exact (stranded_node_never_runs 2 _ p m_stuck y Hr Hl Hs Hrun).
Qed.
