(* ===== verification/BundleWitnesses.v ===== *)
(** * BundleWitnesses: a package built, staged and refused

    A source directory of two files, its archive under a concrete encoding, two nodes that meet it
    (one whose disk fails), and the theorems on bundles applied there; processes over one staging
    root at concrete schedules, the theorems on stages applied there, and the two schedules the
    code's comments rule out. *)
From S2P Require Import Prelude Identity Maps Releases Tree Bundle BundleSafety BundleRoundtrip Fixtures.

(** ** Parameters *)

(** Versions are digits and full stops. *)
#[local] Instance dotted_semver : Semver :=
  {| semver_parses := λ s, negb (bool_decide (s = EmptyString))
       && string_forallb (λ c, bool_decide (c = "."%char) || byte_in 48 57 c) s |}.

#[local] Instance dotted_text : SemverText.
Proof.
  intros v [Hne Hv]%andb_true_iff. unfold plain_name. rewrite Hne. simpl. eapply string_forallb_impl; [|exact Hv].
  intros c Hc. apply negb_true_iff, bool_decide_eq_false. intros ->. done.
Qed.

#[local] Instance ascii_lowercase : Lowercase := {| to_lowercase := λ s, s |}.

(** Manifests and archives as lists of fields. *)
Definition file_fields (f : ManifestFile) : list string :=
  [mfl_path f; mfl_sha256 f; n_bits (mfl_size f); b_str (mfl_executable f)].

Fixpoint fields_files (l : list string) : option (list ManifestFile) :=
  match l with
  | [] => Some []
  | path :: sha :: size :: x :: l => files ← fields_files l; Some (mkManifestFile path sha (bits_n size) (str_b x) :: files)
  | _ => None
  end.

Lemma fields_files_fields files : fields_files (concat (file_fields <$> files)) = Some files.
Proof. induction files as [|[p h n x] files IH]; csimpl; [done|]. by rewrite IH, bits_n_bits, str_b_str. Qed.

#[local] Instance manifest_fields : Serde BundleManifest.
Proof.
  refine {| to_vec := λ m, Some (enc_fields (n_bits (bm_schema m) :: bm_product m :: bm_version m :: bm_platform m
              :: concat (file_fields <$> bm_files m)));
            from_slice := λ b, match dec_fields EmptyString b with
              | Some (schema :: product :: version :: platform :: files) =>
                  mkBundleManifest (bits_n schema) product version platform <$> fields_files files
              | _ => None
              end |}.
  intros [] b [= <-]. simpl. rewrite !dec_enc_field, dec_enc_fields. simpl. rewrite fields_files_fields. simpl. by rewrite bits_n_bits.
Defined.

Fixpoint entry_fields (l : list string) : option (list TarEntry) :=
  match l with
  | [] => Some []
  | path :: x :: bytes :: l => entries ← entry_fields l; Some (mkTarEntry path (str_b x) bytes :: entries)
  | _ => None
  end.

Definition fields_of_entry (e : TarEntry) : list string := [te_path e; b_str (te_executable e); te_bytes e].

Lemma entry_fields_fields entries : entry_fields (concat (fields_of_entry <$> entries)) = Some entries.
Proof. induction entries as [|[p x b] entries IH]; csimpl; [done|]. by rewrite IH, str_b_str. Qed.

(** A body arrives in one chunk. *)
Definition member_of (e : TarEntry) : Member :=
  mkMember true (inr (te_path e)) (str_len (te_bytes e)) (inr <$> (if bool_decide (te_bytes e = EmptyString) then [] else [te_bytes e])).

#[local] Instance fields_archive : TarZst.
Proof.
  refine {| encode_archive := λ entries, enc_fields (concat (fields_of_entry <$> entries));
            decode_archive := λ b, match dec_fields EmptyString b ≫= entry_fields with
              | Some entries => inr ((λ e, inr (member_of e)) <$> entries)
              | None => inl (invalid "not an archive")
              end |}.
  intros entries. exists (member_of <$> entries). rewrite dec_enc_fields. simpl. rewrite entry_fields_fields.
  split; [by rewrite <-list_fmap_compose|]. induction entries as [|e entries IH]; [constructor|]. simpl. constructor; [|done].
  unfold arrives, member_of. simpl. split_and!; try done. case_bool_decide as He.
  - exists []. split_and!; [done|set_solver|by rewrite He].
  - exists [te_bytes e]. split_and!; [done|set_solver|simpl; by rewrite append_empty_r].
Defined.

(** ** A source, its archive, and two nodes *)

Definition source_tree : Tree :=
  list_to_map [(["src"], NDir); (["src"; "bin"], NDir); (["src"; "bin"; "run"], NFile "machine code" true); (["src"; "data"], NFile "text" false)].

Definition archive : string :=
  match create_bundle source_tree ["src"] "app" "1.2" "linux" with inr a => a | inl _ => EmptyString end.

Definition wanted : ExpectedBundle := mkExpectedBundle "app" "1.2" "linux".

Definition empty_node : Tree := list_to_map [(["store"], NDir)].

Definition failing_disk : list fault := [Works; Works; Works; Works; Works; Works; Works; Works; Errs (IoError Other "no space left")].

Definition calm (t : Tree) : fs := mkFs t [] [] false (λ _, false).

(** ** Checks on concrete trees *)

Definition well_formedb (t : Tree) : bool :=
  forallb (λ e : Path * Node, negb (bool_decide (e.1 = [])) && forallb plain_name e.1 && is_dir t (take (pred (length e.1)) e.1)) (map_to_list t).

Lemma well_formedb_true t : well_formedb t = true → well_formed t.
Proof.
  unfold well_formedb. rewrite forallb_forall. intros Hall.
  assert (∀ p n, t !! p = Some n → p ≠ [] ∧ Forall (λ x, plain_name x = true) p ∧ is_dir t (take (pred (length p)) p) = true) as Hp.
  { intros p n Hn. specialize (Hall (p, n)). rewrite <-list_elem_of_In, elem_of_map_to_list in Hall. specialize (Hall Hn). simpl in Hall.
    apply andb_true_iff in Hall as [[Hne%negb_true_iff%bool_decide_eq_false Hf]%andb_true_iff Hd]. split_and!; [done| |done].
    rewrite forallb_forall in Hf. apply Forall_forall. intros x Hx%list_elem_of_In. by apply Hf. }
  split.
  - destruct (t !! []) as [n|] eqn:Hn; [|done]. by destruct (Hp [] n Hn).
  - intros p n Hn. by apply (Hp p n).
  - intros p x n Hn. destruct (Hp _ n Hn) as (_ & _ & Hd). by rewrite take_pred_snoc in Hd.
Qed.

Definition no_reservedb (t : Tree) (source : Path) : bool :=
  forallb (λ e : Path * Node, match under (source ++ [MANIFEST_FILE]) e.1 with Some (_ :: _) => false | _ => true end) (map_to_list t).

Lemma no_reservedb_true t source : no_reservedb t source = true → no_reserved_directory t source.
Proof.
  unfold no_reservedb. rewrite forallb_forall. intros Hall k b x Hk Hn.
  specialize (Hall (source ++ MANIFEST_FILE :: k, NFile b x)). rewrite <-list_elem_of_In, elem_of_map_to_list in Hall.
  specialize (Hall Hn). simpl in Hall. change (MANIFEST_FILE :: k) with ([MANIFEST_FILE] ++ k) in Hall.
  rewrite app_assoc, under_app in Hall. by destruct k.
Qed.

(** Staging and releases beside each other in one store. *)
Definition st : Path := ["store"; "staging"].
Definition ve : Path := ["store"; "versions"].
Definition limits : BundleLimits := with_target_limit 4096.

Lemma roots_apart : apart st ve.
Proof. by split; intros k [=]. Qed.

Lemma roots_plain : Forall (λ x, plain_name x = true) st ∧ Forall (λ x, plain_name x = true) ve.
Proof. split; repeat constructor. Qed.

Lemma empty_node_well_formed : well_formed empty_node.
Proof. apply well_formedb_true. vm_compute. reflexivity. Qed.

Lemma claim_free name : inr "stage-1" = inr (A := io_error) name → plain_name name = true ∧ empty_node !! (st ++ [name]) = None.
Proof. intros [= <-]. split; reflexivity. Qed.

Definition staged (s : fs) : fin InstallError ReleaseId * fs := stage_bundle_file archive (inr "stage-1") st ve wanted limits s.

Lemma staged_succeeds : ∃ id, (staged (calm empty_node)).1 = FsOk id.
Proof.
  assert (match (staged (calm empty_node)).1 with FsOk _ => true | _ => false end = true) as Hok by (vm_compute; reflexivity).
  destruct (staged (calm empty_node)).1; [by eexists|done..].
Qed.

(** ** The theorems there *)

Lemma a_release_appears_whole_witness : ∃ id m m' s',
  staged (calm empty_node) = (FsOk id, s') ∧ identified archive wanted id m ∧ holds (fs_tree s') (ve ++ [directory_name id]) id m'.
Proof.
  destruct staged_succeeds as [id Hid]. destruct (staged (calm empty_node)) as [r s'] eqn:Hrun. simpl in Hid. subst r.
  destruct (a_release_appears_whole archive (inr "stage-1") st ve wanted limits (calm empty_node) (FsOk id) s'
    empty_node_well_formed (proj1 roots_plain) (proj2 roots_plain) roots_apart claim_free Hrun) as (_ & m & m' & Hm & Hh).
  exists id, m, m', s'. split; [reflexivity|]. split; [exact Hm|exact Hh].
Defined.

(** One node has the release; on the other the disk fails, and the archive is not blamed. *)
Lemma a_verdict_is_about_the_archive_witness : ∃ id why,
  (staged (calm empty_node)).1 = FsOk id
  ∧ (staged (mkFs empty_node failing_disk [] false (λ _, false))).1 = FsErr (IStorage why).
Proof.
  destruct staged_succeeds as [id Hid]. exists id.
  destruct (staged (calm empty_node)) as [r s'] eqn:Hrun. simpl in Hid. subst r.
  assert (honest (mkFs empty_node failing_disk [] false (λ _, false))) as Hh by (repeat constructor).
  assert (honest (calm empty_node)) as Hh0 by constructor.
  pose proof (a_verdict_is_about_the_archive archive wanted limits (inr "stage-1") st ve (calm empty_node) id s'
    (inr "stage-1") st ve (mkFs empty_node failing_disk [] false (λ _, false))
    empty_node_well_formed (proj1 roots_plain) (proj2 roots_plain) roots_apart claim_free Hh0
    empty_node_well_formed (proj1 roots_plain) (proj2 roots_plain) roots_apart claim_free Hh Hrun) as Hv.
  assert (match (staged (mkFs empty_node failing_disk [] false (λ _, false))).1 with FsErr _ => true | _ => false end = true) as Herr
    by (vm_compute; reflexivity).
  fold (staged (mkFs empty_node failing_disk [] false (λ _, false))) in Hv. clear Hrun.
  destruct (staged (mkFs empty_node failing_disk [] false (λ _, false))).1; [discriminate Herr| |discriminate Herr].
  destruct Hv as [why ->]. exists why. split; reflexivity.
Defined.

Lemma node_ready id : ready empty_node "stage-1" st ve id.
Proof.
  assert (∀ root, root = st ∨ root = ve → makeable empty_node root) as Hm.
  { intros root [->| ->] p k Hk Hp; (destruct p as [|a [|b [|c p]]]; [done|..]); unfold st, ve in Hk;
      simplify_eq/=; [right|left|right|left]; reflexivity. }
  split; [apply empty_node_well_formed|split; [apply roots_plain|by apply Hm; left]|split; [apply roots_plain|by apply Hm; right]
    |apply roots_apart|by apply claim_free|].
  unfold empty_node. simpl. by rewrite lookup_insert_ne.
Qed.

Lemma what_is_built_is_what_installs_witness : ∃ id node' b,
  staged (calm empty_node) = (FsOk id, mkFs node' [] [] false (λ _, false))
  ∧ node' !! (ve ++ [directory_name id; "bin"; "run"]) = Some (NFile b true).
Proof.
  assert (create_bundle source_tree ["src"] "app" "1.2" "linux" = inr archive) as Hc.
  { assert (match create_bundle source_tree ["src"] "app" "1.2" "linux" with inr _ => true | inl _ => false end = true) as Hok
      by (vm_compute; reflexivity). unfold archive. by destruct (create_bundle source_tree ["src"] "app" "1.2" "linux"). }
  destruct (what_is_built_is_what_installs source_tree ["src"] "app" "1.2" "linux" archive 4096) as (id & _ & Hnode);
    [apply well_formedb_true; vm_compute; reflexivity|apply no_reservedb_true; vm_compute; reflexivity|exact Hc|
     apply N.leb_le; vm_compute; reflexivity|].
  destruct (Hnode empty_node "stage-1" st ve (λ _, false) (node_ready id)) as (node' & Hrun & Hsame).
  exists id, node', "machine code". split; [exact Hrun|]. exact (proj2 (Hsame ["bin"; "run"] "machine code" true ltac:(done) ltac:(done)) eq_refl).
Defined.

(** ** What the model shows *)

(** A directory of the reserved name passes the publisher's check, and every node rejects the archive. *)
Definition reserved_tree : Tree :=
  list_to_map [(["src"], NDir); (["src"; "manifest.json"], NDir); (["src"; "manifest.json"; "note"], NFile "text" false)].

Lemma reserved_directory_is_built_and_rejected :
  match create_bundle reserved_tree ["src"] "app" "1.2" "linux" with
  | inr a => match bytes_verdict a wanted limits with FsErr (IArchive _) => True | _ => False end
  | inl _ => False
  end.
Proof. vm_compute. exact I. Qed.

(** A node that has the release. *)
Definition installed_node : Tree := fs_tree (staged (calm empty_node)).2.

Definition installed_id : ReleaseId := match (staged (calm empty_node)).1 with FsOk id => id | _ => mkReleaseId EmptyString EmptyString end.

(** The same archive staged again: the calls before the release is read, one failed read of it, its
    removal, and the end of the process. *)
Definition one_failed_read (n : nat) : fs :=
  mkFs installed_node (replicate n Works ++ [Errs (IoError Other "read failed"); Works; Dies false]) [] false (λ _, false).

Definition sound (t : Tree) : bool := match read_release t ve installed_id with inr _ => true | inl _ => false end.

(** A sound release is gone after one read of it failed. *)
Lemma a_failed_read_discards_a_sound_release :
  sound installed_node = true ∧ ∃ n, sound (fs_tree (staged (one_failed_read n)).2) = false.
Proof. split; [vm_compute; reflexivity|]. exists 31. vm_compute. reflexivity. Qed.

From S2P Require Import Publication StageSweep.

(** ** Staging processes *)

Definition token_a : string := hex64 "a".
Definition stage_a : string := stage_name token_a.
Definition go (p : nat) : label := Step p true token_a.

(** A crashed attempt and a download of someone else. *)
Definition crashed : root :=
  mkRoot {[ owner_name (stage_name (hex64 "b")) := 0; "bundle.download" := 1 ]} {[ stage_name (hex64 "b") ]} ∅ 2 ∅.

Definition everything : Listing :=
  [(stage_name (hex64 "b"), false); ("bundle.download", true); (owner_name (stage_name (hex64 "b")), true)].

Definition one_sweepb (s : root) : bool :=
  forallb (λ e : nat * Proc, forallb (λ d : nat * Proc, bool_decide (e.1 = d.1) || negb (sweeping e.2) || negb (sweeping d.2))
    (map_to_list (rt_procs s))) (map_to_list (rt_procs s)).

Lemma one_sweepb_true s : one_sweepb s = true → one_sweep s.
Proof.
  unfold one_sweepb. rewrite forallb_forall. intros Hall p q a b Hp Hq Ha Hb. specialize (Hall (p, a)).
  rewrite <-list_elem_of_In, elem_of_map_to_list in Hall. specialize (Hall Hp). rewrite forallb_forall in Hall. specialize (Hall (q, b)).
  rewrite <-list_elem_of_In, elem_of_map_to_list in Hall. specialize (Hall Hq). simpl in Hall. rewrite Ha, Hb in Hall. simpl in Hall.
  rewrite !orb_false_r in Hall. by apply bool_decide_eq_true in Hall.
Qed.

Fixpoint calm_execs (ls : list label) (s : root) : option root :=
  match ls with
  | [] => Some s
  | l :: ls => s ← exec l s; if one_sweepb s then calm_execs ls s else None
  end.

Lemma calm_execs_reaches s0 ls : ∀ s s', reaches s0 s → calm_execs ls s = Some s' → reaches s0 s'.
Proof.
  induction ls as [|l ls IH]; intros s s' Hr; simpl; [by intros [= <-]|]. destruct (exec l s) as [s1|] eqn:He; [|done]. simpl.
  destruct (one_sweepb s1) eqn:Ho; [|done]. apply IH. eapply rc_exec; [exact Hr|exact He|by apply one_sweepb_true].
Qed.

Lemma crashed_idle : idle crashed.
Proof. by split. Qed.

(** ** The theorems on stages *)

(** One process sweeps the crashed attempt away and claims its stage; another sweeps beside it. *)
Definition lived : root :=
  match calm_execs (Start 1 everything :: replicate 12 (go 1) ++ [Start 2 [(owner_name stage_a, true); (stage_a, false)]] ++ replicate 4 (go 2)) crashed with
  | Some s => s
  | None => crashed
  end.

Lemma lived_reaches : reaches crashed lived.
Proof.
  eapply calm_execs_reaches; [apply rc_idle, crashed_idle|].
  assert (bool_decide (is_Some (calm_execs (Start 1 everything :: replicate 12 (go 1) ++ [Start 2 [(owner_name stage_a, true); (stage_a, false)]]
    ++ replicate 4 (go 2)) crashed)) = true) as [s Hs]%bool_decide_eq_true by (vm_compute; reflexivity).
  unfold lived. rewrite Hs. reflexivity.
Qed.

Lemma a_live_stage_is_never_swept_witness : ∃ i, rt_procs lived !! 1 = Some (Live stage_a i) ∧ stage_a ∈ rt_dirs lived.
Proof.
  exists 2. assert (rt_procs lived !! 1 = Some (Live stage_a 2)) as Hlive by (vm_compute; reflexivity).
  split; [exact Hlive|]. exact (proj1 (a_live_stage_is_never_swept crashed lived 1 stage_a 2 lived_reaches Hlive)).
Defined.

Lemma crashed_dirs x : x ∈ rt_dirs crashed → x = stage_name (hex64 "b").
Proof. unfold crashed. cbn [rt_dirs]. apply elem_of_singleton. Qed.

Lemma crashed_entries x : present crashed x = true → x ∈ everything.*1.
Proof.
  intros [[i Hi]| ->%crashed_dirs]%present_iff; [|constructor]. unfold crashed in Hi. cbn [rt_files] in Hi.
  apply lookup_insert_Some in Hi as [[<- _]|[_ [<- _]%lookup_singleton_Some]]; repeat (constructor || constructor 2).
Qed.

Lemma crashed_single : single crashed.
Proof. intros x ->%crashed_dirs. vm_compute. reflexivity. Qed.

Lemma a_sweep_clears_the_abandoned_witness : ∃ k s', execs (Start 1 everything :: replicate k (turn 1 token_a)) crashed = Some s'
  ∧ ∀ x, present s' x = true → leftover x = false.
Proof.
  assert (lists crashed everything = true) as Hlists by (vm_compute; reflexivity).
  destruct (a_sweep_clears_the_abandoned crashed 1 everything token_a crashed_idle crashed_single Hlists crashed_entries)
    as (k & s' & Hk & _ & Hleft & _).
  exists k, s'. split; [exact Hk|]. intros x Hx. apply not_true_iff_false. intros Hl.
  destruct (Hleft x Hx Hl) as [Hs Ho]. apply crashed_dirs in Ho. apply sighted_bare_owner in Hs. rewrite Ho in Hs.
  discriminate Hs.
Defined.

(** ** What the schedules show *)

Definition empty_root : root := mkRoot ∅ ∅ ∅ 0 ∅.

(** A directory under the owner file's name hides the attempt directory from the sweep that removes
    it; the next sweep takes the attempt directory. *)
Definition stray_root : root := mkRoot ∅ {[ stage_a; owner_name stage_a ]} ∅ 0 ∅.

Lemma a_stray_directory_costs_one_more_sweep :
  match execs (Start 1 [(stage_a, false); (owner_name stage_a, false)] :: replicate 3 (go 1)) stray_root with
  | Some s => present s stage_a = true ∧ present s (owner_name stage_a) = false
      ∧ match execs (Kill 1 :: Start 2 [(stage_a, false)] :: replicate 2 (go 2)) s with
        | Some s' => present s' stage_a = false
        | None => False
        end
  | None => False
  end.
Proof. vm_compute. split; [reflexivity|]. split; reflexivity. Qed.

(** A second process opens the claim of the first before it is locked, and has its lock when the
    first asks for it: the new stage is refused, and the process is done. *)
Lemma a_sweep_refuses_a_new_stage :
  match execs [Start 1 []; go 1; go 1; Start 2 [(claim_name stage_a, true)]; go 2; go 2] empty_root with
  | Some s => rt_procs s !! 1 = Some (Opened 3 stage_a 0)
      ∧ match exec (go 1) s with Some s' => rt_procs s' !! 1 = None | None => False end
  | None => False
  end.
Proof. vm_compute. split; reflexivity. Qed.

(** Two sweeps have listed the claim of process 1.  One removes it, the other then creates it anew
    to lock it; process 1 publishes that file, whose lock it does not hold.  The next sweep takes
    the lock and removes the live stage. *)
Lemma overlapping_sweeps_remove_a_live_stage :
  match execs ([Start 1 []; go 1; go 1; Start 2 [(claim_name stage_a, true)]; Start 3 [(claim_name stage_a, true)]] ++ replicate 5 (go 2)
               ++ [go 3; go 1; go 1; go 1; Start 4 [(owner_name stage_a, true)]] ++ replicate 4 (go 4)) empty_root with
  | Some s => rt_procs s !! 1 = Some (Live stage_a 0) ∧ bool_decide (stage_a ∈ rt_dirs s) = false
  | None => False
  end.
Proof. vm_compute. split; reflexivity. Qed.
